(* ===== verification/_CoqProject ===== *)
-Q . S2P
Prelude.v
Text.v
Bytes.v
Sorting.v
SlotMap.v
Types.v
CapTable.v
Derivation.v
CapVerify.v
CapManager.v
WitnessLog.v
Ipc.v
Device.v
Partition.v
Sched.v
Region.v
Reconstruct.v
TierManager.v
Buddy.v
Security.v
CoherenceGraph.v
Coherence.v
MinCut.v
Boot.v
Kernel.v
KernelSpec.v
KernelHistory.v
Signers.v
RvfFormat.v
RvfPayload.v
RvfCapability.v
RvfVerify.v
ProofEngine.v
ContextMatch.v
ContextUri.v
ContextProfile.v
ContextCap.v
ContextResolver.v
ContextReceipt.v
ContextRuntime.v
ContextContract.v
Wasm.v
WasmModule.v
WasmStream.v
RvfStream.v
RvfReceive.v
RvfFrames.v
RvfSegment.v
RvfAdmission.v
Gpu.v
