(* ===== verification/Prelude.v ===== *)
(** * A verification library for the RVM microhypervisor

    This library models the core crates of the RVM repository ([crates/] under
    the source root) in Rocq and proves the theorems that make them correct.
    The reader is assumed to have the source at hand; every definition keeps
    the name of the function or type it translates, prefixed where two crates
    use the same name.

    ** Parts of the program and how they interact

    RVM isolates partitions by capabilities.  A partition names a capability
    by a handle (slot index, generation); the capability manager resolves it in
    a slot table, records which capability was granted from which in a
    derivation tree, decides grants, revokes subtrees and verifies handles at
    three levels P1, P2, P3 ([rvm-cap]).  Privileged actions are recorded in a
    hash-chained ring of 64-byte records ([rvm-witness]).  Partitions have a
    lifecycle, exchange messages over IPC channels and lease devices
    ([rvm-partition]); the scheduler keeps a run queue per CPU ([rvm-sched]);
    the memory manager maps guest to host memory, allocates pages, moves
    regions between tiers and restores dormant ones ([rvm-memory]); the
    coherence engine measures traffic between partitions and recommends splits
    and merges ([rvm-coherence]); gates, quotas and attestation guard the
    privileged calls ([rvm-security]).  The kernel composes all of them
    ([rvm-kernel]), after a measured boot ([rvm-boot]).

    Above the kernel, packages are verified before they are loaded
    ([rvm-rvf]), proofs and digests are checked and signed ([rvm-proof]), and
    the context layer ([rvm-context]) serves named, versioned content: a
    canonical name, a capability scope over names, a profile that binds views
    to segments of a package, a resolver that stores them, a runtime that
    authorizes, resolves, validates and witnesses each call, and receipts that
    seal the witness log epoch by epoch.  A package may also arrive as a stream
    of frames: the receiver releases a chunk only when the signed descriptor
    commits to it, and admission checks the segments while they go by.
    WebAssembly guests ([rvm-wasm]) are validated, possibly while they arrive,
    run as agents under quotas, migrate by a fixed protocol and call the host
    under capability checks; GPU work ([rvm-gpu]) is charged to a budget per
    partition.

    ** Files

    Shared:
    - [Prelude]: this file.  Results and a state-and-error monad [prog] with
      its inversion tactics, machine integers, little-endian bytes, scans over
      fixed-size arrays, generic lemmas.  [Text] and [Bytes]: byte strings,
      splitting, slices and fields of encoded records.  [Sorting]: comparison
      functions, the stable sort, greatest elements.  [SlotMap]: tables of
      optional slots seen as finite maps.
    - [Types]: [rvm-types/src] ([ids.rs], [capability.rs], [coherence.rs],
      [witness.rs], [error.rs]) and [rvm-cap/src/error.rs].  Rights are bit
      masks; the operations of the bitflags crate are the classes [Bitflags]
      and [BitflagsUnion].

    Kernel:
    - [CapTable], [Derivation], [CapVerify], [CapManager]: [rvm-cap/src]
      ([table.rs]; [derivation.rs]; [grant.rs], [verify.rs]; [revoke.rs],
      [manager.rs], which composes the other three).
    - [WitnessLog]: [rvm-witness/src].  The chain hash and the signer are the
      classes [ChainHasher] and [WitnessSigner], whose laws the log's theorems
      use and the FNV, SHA-256, strict and HMAC instances satisfy.
    - [Ipc], [Device], [Partition]: [rvm-partition/src].
    - [Sched]: [rvm-sched/src].
    - [Region], [Reconstruct], [TierManager], [Buddy]: [rvm-memory/src]
      ([region.rs], [lib.rs]; [reconstruction.rs]; [tier.rs];
      [allocator.rs]).
    - [Security]: [rvm-security/src] (gate, quotas and DMA budgets,
      validation, attestation).
    - [CoherenceGraph], [Coherence], [MinCut]: [rvm-coherence/src] ([graph.rs];
      [scoring.rs], [pressure.rs], [adaptive.rs], [bridge.rs], [engine.rs],
      [lib.rs]; [mincut.rs]).
    - [Boot]: [rvm-boot/src].
    - [Kernel]: [rvm-kernel/src/lib.rs], every operation.  [KernelSpec]: an
      abstract kernel of finite maps.  [KernelHistory]: histories of calls, the
      refinement and the audit trail.

    Packages, proofs, context:
    - [Signers]: [rvm-proof/src] [signer.rs], [constant_time.rs] and the TEE
      quotes; the class [DigestSigner] with its four implementations.
      [ProofEngine]: proof tiers, policy rules and the engine ([lib.rs],
      [context.rs], [policy.rs], [engine.rs]).
    - [RvfFormat], [RvfPayload], [RvfCapability], [RvfVerify]: [rvm-rvf/src]
      ([format.rs], [hash.rs], [container.rs]; [wasm_payload.rs];
      [capability.rs], [policy.rs]; [report.rs], [verify.rs], [detail.rs]).
    - [ContextUri]: [rvm-context/src/uri.rs].  [ContextCap]: [capability.rs].
      [ContextProfile]: [profile.rs].  [ContextMatch], [ContextResolver]:
      [resolver.rs].  [ContextReceipt]: [receipt.rs].  [ContextRuntime]:
      [runtime.rs], over any instance of the class [ContextResolver].
      [ContextContract]: the laws the runtime relies on, as the record
      [resolver_honours], and the proof that the in-memory resolver obeys them.

    Streams, guests, GPU:
    - [RvfStream], [RvfReceive], [RvfFrames], [RvfSegment], [RvfAdmission]:
      [rvm-rvf/src/stream] (descriptor, pins and frame codec; the receiver
      [verifier.rs], [chunk.rs], [ident.rs]; the reader of [frame.rs];
      [segment.rs]; [admission.rs]).
    - [Wasm], [WasmModule], [WasmStream]: [rvm-wasm/src] ([agent.rs],
      [migration.rs], [quota.rs], [host_functions.rs]; the framing check of
      [lib.rs]; [module_policy.rs], [streaming.rs], over the class
      [WasmParser] for the external parser).
    - [Gpu]: [rvm-gpu/src].

    ** Conventions

    A struct is a [Record] whose fields carry a short prefix; an enum an
    [Inductive] with the same constructors.  A method taking [&mut self] is a
    function from the state to its result and the new state ([prog S E A] when
    it returns a [Result]); every early return keeps its place.  [[T; N]] is a
    list whose length plays the part of [N]; an access the source guards by
    [index < N] is [get_at], other accesses are within bounds by the guards
    around them.  Integers that can overflow are [Z] with the wrap-around
    written out ([wrap8] to [wrap64], [sat_add], [checked_add]), because the
    release profile does not check overflow; counters of array slots, which
    cannot exceed [N], are [nat].  Methods behind a mutex are atomic.  Strings
    are lists of bytes.

    Loops that are not structural take fuel and return [None] when it runs
    out.  The theorems say how much is enough: one unit more than the number
    of slots for [revoke_subtree] and [collect_subtree], more than the depth
    (so 256) for [verify_p3], none for [find_parent] on a well-formed tree, 32
    for the heap loops, more than the number of bytes for [compress] and
    [decompress], one round per byte for the container walk, the number of
    records for the Merkle tree, four steps per chunk for the payload scanner
    and the length of the query for the matcher's fall-back.  Histories are
    bounded where counters could wrap: kernel histories by the weight
    [7 * length + 13 <= u32::MAX], traffic by [u64::MAX], runtime histories by
    [2 * length <= u64::MAX].

    ** What the theorems show

    - Capabilities: the table is consistent under every history and a freed
      handle stays dead until its generation wraps; on a well-formed tree
      revocation returns and hits exactly the subtree; under histories that
      revoke only roots, with derivations tracked and no epoch wrap, the tree
      stays well formed, table, tree and verifier stay in step, and no live
      capability exceeds its root; P1, P2 and P3 accept exactly what their policies
      say; consumed nonces are refused.
    - Witness log: the ring refines an unbounded history; a checkpoint-relative
      snapshot is exact and verifies; the verifier accepts exactly contiguous
      linked slices; serialisation is lossless; the HMAC check decides equality.
    - Partitions: IPC refines a finite map of bounded FIFO channels; device
      leases are exclusive and expiry is exact; the partition manager refines
      a finite map; the lifecycle is a state machine with one final state.
    - Scheduler: the heap is a bag from which the most urgent entry is taken,
      so draining a queue runs everything once in priority order; the SMP
      coordinator's answers agree with what runs; the switch context packs and
      unpacks its register.
    - Memory: no host address is reachable from two places unless a region wraps
      around the address space; creation and
      transfer have exactly the documented effect on translation; compression
      is total and lossless; reconstruction yields the checkpoint with the
      recorded writes applied, or an error; the tier manager refines a finite
      map; under every history of allocations and releases that frees no part of
      an outstanding block, double frees included, live page blocks are disjoint,
      aligned and in bounds, no page is lost, wrong releases are refused, and an
      allocation fails only when every range of its size is taken.
    - Security and coherence: the gate grants exactly the authorised requests;
      quotas hold over every history; attestation reports verify against their
      root; the graph's caches are exact, the engine refines a map of traffic for
      positive weights of bounded sum, and the minimum cut is minimal within its
      budget.
    - Kernel: every history of calls within [history_ok] (positive weights,
      bounded totals) refines the abstract kernel and leaves exactly the records
      [trail_of] lists, which are none for several calls that change state;
      checked calls are the plain ones behind the gate; a guest can send only on
      its own channel.
    - Proofs and packages: each proof tier, each signer and the quote verifier
      accept exactly what they should; the engine refuses repeated nonces; the
      container walk succeeds exactly on tilings and terminates; the verifier
      admits exactly loadable packages, whose executables are signed by a
      trusted key; capability installation is all or nothing.
    - Context: names parse exactly from their canonical texts; an authorization
      stays within one scope and one set of rights that trusted code put in;
      profiles are read back exactly and views are authentic; the resolver
      stays well formed, snapshots never recur, bounded search returns the best
      hits, and every answer obeys the runtime's contract; the runtime's audit
      trail is exact for any resolver; receipts bind their records, follow one
      another, and cover the log of a runtime without a gap.
    - Streams: a decoded descriptor is sound, pins never go back, the receiver
      does not panic and releases only authentic chunks, a completed stream is
      the signed body, reassembly and the segment checks do not depend on how the
      bytes were cut, and the report of a stream is that of its body.
    - Guests and GPU: agents refine a bounded map with one record per call but
      [activate]; quotas are ledgers; migrations end within seven calls; host
      calls need their rights; validation accepts exactly the framed modules;
      streamed validation does not depend on the split below the maximal length
      and admits only payloads within the policy; a GPU context is a ledger.

    Some theorems and lemmas record where the code does less than its
    comments say: [add_child_relink_diverges], [reused_slot_misdirects_revocation],
    [nonce_replay_after_collision], [next_generation_after_free],
    [grant_once_is_transitive], [verify_chain_ignores_contents],
    [vmid_multiplexing], [region_wraparound_breaks_isolation],
    [hypervisor_entry_blocks_queue], [compute_priority_spec],
    [witness_tier_unbound], [p3_replays], [replay_needs_collision],
    [clipboard_reported_as_randomness], [free_wrong_order],
    [zero_weight_edge_not_found], [section_count_wraps],
    [read_leb128_overlong], [quota_cpu_wraps],
    [full_length_module_depends_on_split], [launch_config_wraps],
    [record_kernel_launch_keeps_charge], [full_name_unterminated].
    Where such a behaviour limits a positive theorem, its hypothesis says so: [tree_step] and [mgr_step] revoke
    only roots, [nonce_replay_rejected] excludes colliding nonces,
    [region_isolation] asks that no region wraps around, [buddy_contract] that no
    part of an outstanding block is freed, [engine_op_ok] and [kernel_op_ok] that
    weights are positive.

    ** What is not modelled

    Code of other parties is a parameter: the bitflags operations, SHA-256,
    SHAKE-256, XXH3, HMAC-SHA-256, Ed25519, constant-time comparison and the
    WebAssembly parser and validator.
    Left out are the hardware ([rvm-hal], the register moves of
    [partition_switch], [rvm-kernel/src/main.rs]): assembly and device
    registers; the host-side launcher ([rvm-host], [rvm-launch]) and the network
    and browser bindings of the context layer ([rvm-context-service],
    [rvm-context-wasm]): sockets, files, processes and JavaScript glue;
    anchoring ([rvm-anchor]): canonical JSON and receipts over third-party
    hashing, signing and Merkle code; of [rvm-rvf] the emission of witness
    records ([witness.rs]), the buffered stream of [stream/buffered.rs], the
    builders and the test kit; the traits of [rvm-partition/src/ops.rs]; benches,
    examples, tests and documents.  The [gpu] feature is off in the crates that
    have it. *)

From stdpp Require Import base numbers list option sets gmap.
From Stdlib Require Import ZArith Lia.

#[global] Set Default Goal Selector "!".

Open Scope Z_scope.
Open Scope list_scope.

Declare Scope rvm_scope.
Delimit Scope rvm_scope with rvm.

(* ------------------------------------------------------------------ *)
(** ** Results: Rust's [Result<A, E>] *)

Inductive result (E A : Type) : Type :=
| Ok (a : A)
| Err (e : E).
Arguments Ok {E A} a.
Arguments Err {E A} e.

#[export] Instance result_ret {E} : MRet (result E) := λ A a, Ok a.
#[export] Instance result_bind {E} : MBind (result E) :=
  λ A B f r, match r with Ok a => f a | Err e => Err e end.
#[export] Instance result_fmap {E} : FMap (result E) :=
  λ A B f r, match r with Ok a => Ok (f a) | Err e => Err e end.

#[export] Instance result_eq_dec {E A} `{EqDecision E, EqDecision A} :
  EqDecision (result E A).
Proof. solve_decision. Defined.

(** [Result::map_err]. *)
Definition map_err {E F A} (f : E → F) (r : result E A) : result F A :=
  match r with Ok a => Ok a | Err e => Err (f e) end.

(** [Option::ok_or]. *)
Definition ok_or {E A} (o : option A) (e : E) : result E A :=
  match o with Some a => Ok a | None => Err e end.

(** [Result::is_ok_and]. *)
Definition is_ok_and {E A} (r : result E A) (p : A → bool) : bool :=
  match r with Ok a => p a | Err _ => false end.

Definition is_ok {E A} (r : result E A) : bool :=
  match r with Ok _ => true | Err _ => false end.

(* ------------------------------------------------------------------ *)
(** ** Stateful fallible programs

    A method [fn op(&mut self, ..) -> Result<A, E>] keeps every write it made
    before an early return, so the state comes back on the error path too. *)

Definition prog (S E A : Type) : Type := S → result E A * S.

Definition pret {S E A} (a : A) : prog S E A := λ s, (Ok a, s).
Definition pbind {S E A B} (m : prog S E A) (f : A → prog S E B) : prog S E B :=
  λ s, match m s with
       | (Ok a, s') => f a s'
       | (Err e, s') => (Err e, s')
       end.
Definition pfail {S E A} (e : E) : prog S E A := λ s, (Err e, s).
Definition pgets {S E A} (f : S → A) : prog S E A := λ s, (Ok (f s), s).
Definition pmodify {S E} (f : S → S) : prog S E unit := λ s, (Ok tt, f s).
Definition plift {S E A} (r : result E A) : prog S E A := λ s, (r, s).

(** A method call on one field of the receiver. *)
Definition pzoom {S T E A} (get : S → T) (set : T → S → S) (m : prog T E A)
  : prog S E A :=
  λ s, match m (get s) with (r, t) => (r, set t s) end.

Notation "'let?' x := m 'in' k" := (pbind m (λ x, k))
  (at level 200, x pattern, m at level 100, k at level 200, right associativity)
  : rvm_scope.
Notation "m ;;; k" := (pbind m (λ _, k))
  (at level 100, k at level 200, right associativity) : rvm_scope.

(* ------------------------------------------------------------------ *)
(** ** Machine integers, as [Z] with the wrap written out *)

Definition u8_max : Z := 255.
Definition u16_max : Z := 65535.
Definition u32_max : Z := 4294967295.
Definition u64_max : Z := 18446744073709551615.

Definition wrap8 (z : Z) : Z := z mod 256.
Definition wrap16 (z : Z) : Z := z mod 65536.
Definition wrap32 (z : Z) : Z := z mod 4294967296.
Definition wrap64 (z : Z) : Z := z mod 18446744073709551616.

(** [saturating_add] and [saturating_sub] at a given maximum. *)
Definition sat_add (max a b : Z) : Z := Z.min max (a + b).
Definition sat_sub (a b : Z) : Z := Z.max 0 (a - b).

(** [checked_add] at a given maximum. *)
Definition checked_add (max a b : Z) : option Z :=
  if a + b <=? max then Some (a + b) else None.
(** [u64::checked_sub]. *)
Definition checked_sub (a b : Z) : option Z := if b <=? a then Some (a - b) else None.

Definition is_u8 (z : Z) : Prop := 0 ≤ z ≤ u8_max.
Definition is_u16 (z : Z) : Prop := 0 ≤ z ≤ u16_max.
Definition is_u32 (z : Z) : Prop := 0 ≤ z ≤ u32_max.
Definition is_u64 (z : Z) : Prop := 0 ≤ z ≤ u64_max.

(** Little-endian bytes of an integer, [to_le_bytes] for [n] bytes. *)
Fixpoint le_bytes (n : nat) (z : Z) : list Z :=
  match n with
  | O => []
  | S n => (z mod 256) :: le_bytes n (z / 256)
  end.

(** [from_le_bytes]. *)
Fixpoint of_le_bytes (bs : list Z) : Z :=
  match bs with
  | [] => 0
  | b :: bs => b + 256 * of_le_bytes bs
  end.

Definition is_byte (b : Z) : Prop := 0 ≤ b < 256.

(* ------------------------------------------------------------------ *)
(** ** Arrays [[T; N]] as lists *)

(** [self.slots[index as usize]] behind its bounds check [index < N]. *)
Definition get_at {A} (l : list A) (index : Z) : option A :=
  if index <? Z.of_nat (length l) then l !! Z.to_nat index else None.

(** [iter().position(p)]: the first index whose element satisfies [p]. *)
Fixpoint position {A} (p : A → bool) (l : list A) : option nat :=
  match l with
  | [] => None
  | x :: l => if p x then Some O else S <$> position p l
  end.

(** [iter().find(p)]. *)
Fixpoint find_by {A} (p : A → bool) (l : list A) : option A :=
  match l with
  | [] => None
  | x :: l => if p x then Some x else find_by p l
  end.

(** [iter().filter(p).count()]. *)
Fixpoint count_by {A} (p : A → bool) (l : list A) : nat :=
  match l with
  | [] => O
  | x :: l => (if p x then 1 else 0) + count_by p l
  end%nat.

Definition is_some {A} (o : option A) : bool :=
  match o with Some _ => true | None => false end.
Definition is_none {A} (o : option A) : bool :=
  match o with Some _ => false | None => true end.
(** [Option::is_some_and]. *)
Definition is_some_and {A} (p : A → bool) (o : option A) : bool :=
  match o with Some a => p a | None => false end.

(* ------------------------------------------------------------------ *)
(** ** Automation *)

Create HintDb rvm.

(** Split every boolean connective of the context into propositions. *)
Ltac split_bool :=
  repeat match goal with
  | H : (_ && _) = true |- _ => apply andb_true_iff in H; destruct H
  | H : (_ || _) = false |- _ => apply orb_false_iff in H; destruct H
  | H : negb _ = true |- _ => apply negb_true_iff in H
  | H : negb _ = false |- _ => apply negb_false_iff in H
  | H : (_ =? _) = true |- _ => apply Z.eqb_eq in H
  | H : (_ =? _) = false |- _ => apply Z.eqb_neq in H
  | H : (_ <=? _) = true |- _ => apply Z.leb_le in H
  | H : (_ <=? _) = false |- _ => apply Z.leb_gt in H
  | H : (_ <? _) = true |- _ => apply Z.ltb_lt in H
  | H : (_ <? _) = false |- _ => apply Z.ltb_ge in H
  | H : (_ =? _)%nat = true |- _ => apply Nat.eqb_eq in H
  | H : (_ =? _)%nat = false |- _ => apply Nat.eqb_neq in H
  | H : (_ <=? _)%nat = true |- _ => apply Nat.leb_le in H
  | H : (_ <=? _)%nat = false |- _ => apply Nat.leb_gt in H
  | H : (_ <? _)%nat = true |- _ => apply Nat.ltb_lt in H
  | H : (_ <? _)%nat = false |- _ => apply Nat.ltb_ge in H
  | H : bool_decide _ = true |- _ => apply bool_decide_eq_true in H
  | H : bool_decide _ = false |- _ => apply bool_decide_eq_false in H
  end.

(** Case analysis on the guards of the operation in the hypotheses, keeping
    the equations and discarding the impossible branches. *)
Ltac destruct_guards H :=
  repeat (
    match type of H with
    | context [if ?b then _ else _] => destruct b eqn:?
    | context [match ?x with _ => _ end] => destruct x eqn:?
    end; try discriminate H); simplify_eq/=.

(** The same on the goal. *)
Ltac case_guards :=
  repeat match goal with
  | |- context [if ?b then _ else _] => destruct b eqn:?
  | |- context [match ?x with _ => _ end] => destruct x eqn:?
  end; simplify_eq/=.

(* ------------------------------------------------------------------ *)
(** ** Inversion of stateful programs *)

Section prog_inversion.
Context {S E : Type}.

Lemma pbind_ok {A B} (m : prog S E A) (f : A → prog S E B) s b s' :
  pbind m f s = (Ok b, s') ↔ ∃ a s1, m s = (Ok a, s1) ∧ f a s1 = (Ok b, s').
Proof. unfold pbind. destruct (m s) as [[a|e] s1]; naive_solver. Qed.

Lemma pbind_err {A B} (m : prog S E A) (f : A → prog S E B) s e s' :
  pbind m f s = (Err e, s') ↔
  m s = (Err e, s') ∨ ∃ a s1, m s = (Ok a, s1) ∧ f a s1 = (Err e, s').
Proof. unfold pbind. destruct (m s) as [[a|e'] s1]; naive_solver. Qed.

Lemma pgets_ok {A} (f : S → A) (s : S) (a : A) (s' : S) :
  pgets (E:=E) f s = (Ok a, s') ↔ a = f s ∧ s' = s.
Proof. unfold pgets. naive_solver. Qed.

Lemma pmodify_ok (f : S → S) (s : S) u (s' : S) :
  pmodify (E:=E) f s = (Ok u, s') ↔ s' = f s.
Proof. unfold pmodify. destruct u. naive_solver. Qed.

Lemma plift_ok {A} (r : result E A) (s : S) (a : A) (s' : S) :
  plift r s = (Ok a, s') ↔ r = Ok a ∧ s' = s.
Proof. unfold plift. naive_solver. Qed.

Lemma pret_ok {A} (a b : A) (s s' : S) :
  pret (E:=E) a s = (Ok b, s') ↔ b = a ∧ s' = s.
Proof. unfold pret. naive_solver. Qed.

Lemma pfail_ok {A} (e : E) (s : S) (a : A) (s' : S) :
  pfail e s = (Ok a, s') ↔ False.
Proof. unfold pfail. naive_solver. Qed.

Lemma pzoom_ok {T A} (get : S → T) (set : T → S → S) (m : prog T E A) s a s' :
  pzoom get set m s = (Ok a, s') ↔ ∃ t, m (get s) = (Ok a, t) ∧ s' = set t s.
Proof. unfold pzoom. destruct (m (get s)); naive_solver. Qed.
End prog_inversion.

(** Run the inversion lemmas on every successful program of the context. *)
Ltac inv_prog :=
  repeat match goal with
  | H : pbind _ _ _ = (Ok _, _) |- _ =>
      apply pbind_ok in H; destruct H as (? & ? & ? & ?)
  | H : pgets _ _ = (Ok _, _) |- _ => apply pgets_ok in H; destruct H; subst
  | H : pmodify _ _ = (Ok _, _) |- _ => apply pmodify_ok in H; subst
  | H : plift _ _ = (Ok _, _) |- _ => apply plift_ok in H; destruct H; subst
  | H : pret _ _ = (Ok _, _) |- _ => apply pret_ok in H; destruct H; subst
  | H : pfail _ _ = (Ok _, _) |- _ => apply pfail_ok in H; destruct H
  | H : pzoom _ _ _ _ = (Ok _, _) |- _ =>
      apply pzoom_ok in H; destruct H as (? & ? & ?); subst
  end.

(* ------------------------------------------------------------------ *)
(** ** Lemmas on machine integers *)

Lemma wrap8_range z : is_u8 (wrap8 z).
Proof. unfold is_u8, u8_max, wrap8. pose proof (Z.mod_pos_bound z 256). lia. Qed.
Lemma wrap16_range z : is_u16 (wrap16 z).
Proof. unfold is_u16, u16_max, wrap16. pose proof (Z.mod_pos_bound z 65536). lia. Qed.
Lemma wrap32_range z : is_u32 (wrap32 z).
Proof. unfold is_u32, u32_max, wrap32. pose proof (Z.mod_pos_bound z 4294967296). lia. Qed.
Lemma wrap64_range z : is_u64 (wrap64 z).
Proof.
  unfold is_u64, u64_max, wrap64.
  pose proof (Z.mod_pos_bound z 18446744073709551616). lia.
Qed.

Lemma wrap32_id z : is_u32 z → wrap32 z = z.
Proof. unfold is_u32, u32_max, wrap32. intros. apply Z.mod_small. lia. Qed.
Lemma wrap64_id z : is_u64 z → wrap64 z = z.
Proof. unfold is_u64, u64_max, wrap64. intros. apply Z.mod_small. lia. Qed.
Lemma wrap16_id z : is_u16 z → wrap16 z = z.
Proof. unfold is_u16, u16_max, wrap16. intros. apply Z.mod_small. lia. Qed.

#[export] Hint Resolve wrap8_range wrap16_range wrap32_range wrap64_range : rvm.

Lemma checked_add_Some max a b c :
  checked_add max a b = Some c ↔ c = a + b ∧ a + b ≤ max.
Proof.
  unfold checked_add. destruct (a + b <=? max) eqn:E; split_bool.
  - split; [intros [= <-]; lia | intros [-> _]; done].
  - split; [done | lia].
Qed.

Lemma checked_add_None max a b : checked_add max a b = None ↔ max < a + b.
Proof. unfold checked_add. destruct (a + b <=? max) eqn:E; split_bool; split; done || lia. Qed.

(** A non-negative [Z] below a power of two is determined by its low bits. *)
Lemma testbit_lt_pow2 a n i : 0 ≤ a < 2 ^ n → 0 ≤ n ≤ i → Z.testbit a i = false.
Proof.
  intros Ha Hi. destruct (decide (a = 0)) as [->|]; [apply Z.bits_0|].
  apply Z.bits_above_log2; [lia|].
  assert (Z.log2 a < n) by (apply Z.log2_lt_pow2; lia). lia.
Qed.

Lemma land_lt_pow2 a m n : 0 ≤ a → 0 ≤ m < 2 ^ n → 0 ≤ n → 0 ≤ Z.land a m < 2 ^ n.
Proof.
  intros Ha Hm Hn. assert (0 ≤ Z.land a m) as H0 by (apply Z.land_nonneg; lia). split; [done|].
  destruct (decide (Z.land a m = 0)) as [->|Hne]; [by apply Z.pow_pos_nonneg|].
  apply Z.log2_lt_pow2; [lia|]. pose proof (Z.log2_land a m Ha ltac:(lia)).
  assert (m ≠ 0) by (intros ->; by rewrite Z.land_0_r in Hne).
  pose proof (proj1 (Z.log2_lt_pow2 m n ltac:(lia)) ltac:(lia)). lia.
Qed.

Lemma lxor_u64_range a b : is_u64 a → is_u64 b → is_u64 (Z.lxor a b).
Proof.
  unfold is_u64, u64_max. intros Ha Hb.
  assert (0 ≤ Z.lxor a b) by (apply Z.lxor_nonneg; lia).
  split; [done|]. destruct (decide (Z.lxor a b = 0)); [lia|].
  assert (Z.lxor a b < 2 ^ 64); [|lia].
  apply Z.log2_lt_pow2; [lia|].
  pose proof (Z.log2_lxor a b ltac:(lia) ltac:(lia)).
  assert (Z.log2 a < 64) by
    (destruct (decide (a = 0)) as [->|]; [done|]; apply Z.log2_lt_pow2; lia).
  assert (Z.log2 b < 64) by
    (destruct (decide (b = 0)) as [->|]; [done|]; apply Z.log2_lt_pow2; lia).
  lia.
Qed.

Lemma length_le_bytes n z : length (le_bytes n z) = n.
Proof. revert z. induction n; intros; simpl; [done|]. by rewrite IHn. Qed.

Lemma le_bytes_byte n z : Forall is_byte (le_bytes n z).
Proof.
  revert z. induction n; intros; simpl; constructor; [|done].
  unfold is_byte. apply Z.mod_pos_bound. lia.
Qed.

(** [from_le_bytes (to_le_bytes z) = z] when [z] fits. *)
Lemma of_le_bytes_le_bytes n z :
  0 ≤ z < 256 ^ Z.of_nat n → of_le_bytes (le_bytes n z) = z.
Proof.
  revert z. induction n as [|n IH]; intros z Hz.
  - simpl in *. lia.
  - cbn [le_bytes of_le_bytes]. rewrite Nat2Z.inj_succ, Z.pow_succ_r in Hz by lia.
    rewrite IH.
    + pose proof (Z.div_mod z 256). lia.
    + split; [apply Z.div_pos; lia | apply Z.div_lt_upper_bound; lia].
Qed.

Lemma of_le_bytes_range bs :
  Forall is_byte bs → 0 ≤ of_le_bytes bs < 256 ^ Z.of_nat (length bs).
Proof.
  induction 1 as [|b bs Hb _ IH]; [simpl; lia|]. cbn [of_le_bytes length].
  rewrite Nat2Z.inj_succ, Z.pow_succ_r by lia. unfold is_byte in Hb. lia.
Qed.

Lemma of_le_bytes_8 n z : n = 8%nat → is_u64 z → of_le_bytes (le_bytes n z) = z.
Proof. intros -> Hz. apply of_le_bytes_le_bytes. unfold is_u64, u64_max in Hz. lia. Qed.
Lemma of_le_bytes_4 n z : n = 4%nat → is_u32 z → of_le_bytes (le_bytes n z) = z.
Proof. intros -> Hz. apply of_le_bytes_le_bytes. unfold is_u32, u32_max in Hz. lia. Qed.

(* ------------------------------------------------------------------ *)
(** ** Lemmas on array scans *)

Lemma get_at_eq {A} (l : list A) index : get_at l index = l !! Z.to_nat index.
Proof.
  unfold get_at. destruct (index <? Z.of_nat (length l)) eqn:E; [done|]. split_bool.
  symmetry. apply lookup_ge_None_2. lia.
Qed.

Section scans.
Context {A : Type}.
Implicit Types (p : A → bool) (l : list A) (i : nat).

Lemma position_Some p l i :
  position p l = Some i ↔
  (∃ x, l !! i = Some x ∧ p x = true) ∧
  (∀ j y, (j < i)%nat → l !! j = Some y → p y = false).
Proof.
  revert i. induction l as [|a l IH]; intros i; simpl.
  - split; [done|]. intros [(x & ? & ?) _]. done.
  - destruct (p a) eqn:Ea.
    + split.
      * intros [= <-]. split; [by eauto|]. intros. lia.
      * intros [_ Hmin]. destruct i as [|i]; [done|].
        specialize (Hmin O a ltac:(lia) eq_refl). congruence.
    + destruct i as [|i].
      * split; [by destruct (position p l)|].
        intros [(x & Hx & Hp) _]. simplify_eq/=. congruence.
      * transitivity (position p l = Some i).
        { destruct (position p l); simpl; naive_solver. }
        rewrite IH. split; intros [Hx Hmin]; split; try done.
        { intros [|j] y Hj Hy; simplify_eq/=; [done|]. apply (Hmin j); [lia|done]. }
        intros j y Hj Hy. apply (Hmin (S j) y); [lia|done].
Qed.

Lemma position_None p l :
  position p l = None ↔ ∀ i x, l !! i = Some x → p x = false.
Proof.
  induction l as [|a l IH]; simpl; [split; [intros _ i x; done|done]|].
  destruct (p a) eqn:Ea.
  - split; [done|]. intros H. specialize (H O a eq_refl). congruence.
  - transitivity (position p l = None); [destruct (position p l); simpl; naive_solver|].
    rewrite IH. split.
    + intros H [|i] x Hx; simplify_eq/=; eauto.
    + intros H i x Hx. apply (H (S i) x Hx).
Qed.

Lemma position_lookup p l i :
  position p l = Some i → ∃ x, l !! i = Some x ∧ p x = true.
Proof. intros H. apply position_Some in H. tauto. Qed.

Lemma position_lt p l i : position p l = Some i → (i < length l)%nat.
Proof. intros (x & Hx & _)%position_lookup. by eapply lookup_lt_Some. Qed.

(** When at most one element satisfies [p], any index that does is the one
    the scan finds. *)
Lemma position_unique p l i x :
  l !! i = Some x → p x = true →
  (∀ j y, l !! j = Some y → p y = true → j = i) →
  position p l = Some i.
Proof.
  intros Hi Hp Huniq. apply position_Some. split; [by eauto|].
  intros j y Hj Hy. destruct (p y) eqn:E; [|done].
  apply Huniq in Hy; [lia|done].
Qed.

Lemma find_by_position p l : find_by p l = position p l ≫= λ i, l !! i.
Proof.
  induction l as [|a l IH]; simpl; [done|].
  destruct (p a); simpl; [done|]. rewrite IH. by destruct (position p l).
Qed.

Lemma find_by_Some p l x :
  find_by p l = Some x → p x = true ∧ ∃ i, l !! i = Some x.
Proof.
  rewrite find_by_position. destruct (position p l) as [i|] eqn:E; [|done].
  simpl. apply position_lookup in E as (y & Hy & Hp).
  intros Hx. simplify_eq. eauto.
Qed.

Lemma find_by_None p l : find_by p l = None ↔ ∀ i x, l !! i = Some x → p x = false.
Proof.
  rewrite find_by_position, <-position_None.
  destruct (position p l) as [i|] eqn:E; simpl; [|done].
  apply position_lookup in E as (y & Hy & Hp). rewrite Hy. naive_solver.
Qed.

Lemma count_by_le p l : (count_by p l ≤ length l)%nat.
Proof. induction l; simpl; [lia|]. destruct (p a); lia. Qed.

(** Overwriting one array cell changes the count by the cell's own change. *)
Lemma count_by_insert p l i x y :
  l !! i = Some x →
  (count_by p (<[i:=y]> l) + (if p x then 1 else 0) =
   count_by p l + (if p y then 1 else 0))%nat.
Proof.
  revert i. induction l as [|a l IH]; intros [|i] Hi; simplify_eq/=.
  - lia.
  - specialize (IH i Hi). lia.
Qed.

Lemma count_by_pos p l i x : l !! i = Some x → p x = true → (0 < count_by p l)%nat.
Proof.
  revert i. induction l as [|a l IH]; intros [|i] Hi Hp; simplify_eq/=.
  - rewrite Hp. lia.
  - specialize (IH i Hi Hp). lia.
Qed.

Lemma count_by_zero p l : count_by p l = O → ∀ i x, l !! i = Some x → p x = false.
Proof.
  intros H i x Hi. destruct (p x) eqn:E; [|done].
  pose proof (count_by_pos p l i x Hi E). lia.
Qed.

(** A count below the capacity leaves a cell that does not satisfy [p]. *)
Lemma count_by_lt p l :
  (count_by p l < length l)%nat → ∃ i x, l !! i = Some x ∧ p x = false.
Proof.
  induction l as [|a l IH]; simpl; intros H; [lia|].
  destruct (p a) eqn:E.
  - destruct IH as (i & x & ? & ?); [lia|]. by exists (S i), x.
  - by exists O, a.
Qed.

Lemma count_by_full p l :
  (∀ i x, l !! i = Some x → p x = true) → count_by p l = length l.
Proof.
  intros H. pose proof (count_by_le p l).
  destruct (decide (count_by p l < length l)%nat) as [Hlt|]; [|lia].
  apply count_by_lt in Hlt as (i & x & Hi & Hp). apply H in Hi. congruence.
Qed.

Lemma count_by_all p l :
  (length l ≤ count_by p l)%nat → ∀ i x, l !! i = Some x → p x = true.
Proof.
  induction l as [|a l IH]; simpl; intros H i x Hi; [done|]. pose proof (count_by_le p l).
  destruct (p a) eqn:E; [|lia]. destruct i as [|i]; simplify_eq/=; [done|]. apply (IH ltac:(lia) i x Hi).
Qed.

Lemma count_by_replicate p n x : p x = false → count_by p (replicate n x) = O.
Proof. intros Hp. induction n; simpl; [done|]. by rewrite Hp. Qed.
End scans.

(** Counting slots of an [Option] array: a free slot exists below capacity. *)
Lemma position_none_below_capacity {A} (l : list (option A)) :
  (count_by is_some l < length l)%nat → ∃ i, position is_none l = Some i.
Proof.
  intros H. destruct (position is_none l) as [i|] eqn:E; [by eauto|].
  apply count_by_lt in H as (i & x & Hi & Hx).
  rewrite position_None in E. specialize (E i x Hi). by destruct x.
Qed.

(* ------------------------------------------------------------------ *)
(** ** Ring indices *)

(** Two positions less than a capacity apart fall into different ring cells. *)
Lemma mod_window_ne (n i j : nat) :
  (i < j < i + n)%nat → (i mod n)%nat ≠ (j mod n)%nat.
Proof.
  intros Hij E. pose proof (Nat.div_mod_eq i n). pose proof (Nat.div_mod_eq j n).
  assert (n * (i / n) < n * (j / n))%nat by lia.
  assert (i / n < j / n)%nat by (apply (Nat.mul_lt_mono_pos_l n); lia). nia.
Qed.

Lemma drop_app_snoc {A} (k : nat) (l : list A) (x : A) :
  (k ≤ length l)%nat → drop k (l ++ [x]) = drop k l ++ [x].
Proof. intros. by rewrite drop_app_le. Qed.

(** Writing the cell after the first [n] and taking one more. *)
Lemma take_insert_snoc {A} (n : nat) (l : list A) (x : A) :
  (n < length l)%nat → take (n + 1) (<[n := x]> l) = take n l ++ [x].
Proof.
  intros H. rewrite Nat.add_1_r. erewrite take_S_r; [|by apply list_lookup_insert_eq].
  by rewrite take_insert_ge by lia.
Qed.

Lemma imap_count_by {A B} (p : B → bool) (q : A → bool) (f : nat → A → B) (l : list A) :
  (∀ i x, p (f i x) = q x) → count_by p (imap f l) = count_by q l.
Proof.
  revert f. induction l as [|x l IH]; intros f H; simpl; [done|].
  rewrite H. f_equal. apply IH. intros i y. apply H.
Qed.

Lemma count_by_split {A} (p : A → bool) (l : list A) :
  (count_by p l + count_by (λ x, negb (p x)) l = length l)%nat.
Proof. induction l as [|x l IH]; simpl; [done|]. destruct (p x); simpl; lia. Qed.

(** An early [return Err(e)] was not taken. *)
Lemma guard_Ok {E A} (b : bool) (e : E) (k : result E A) x :
  (if b then Err e else k) = Ok x → b = false ∧ k = Ok x.
Proof. by destruct b. Qed.

(** Run a chain of early returns backwards. *)
Ltac inv_guards H :=
  repeat match type of H with
  | (if _ then Err _ else _) = Ok _ => let E := fresh "E" in apply guard_Ok in H as [E H]
  end.
