(* ===== verification/Text.v ===== *)
(** Text as bytes: the operations of Rust's [str] and of byte slices the
    parsers use.

    A [&str] is the list of its UTF-8 bytes.  Separators are ASCII, so
    splitting at a character is splitting at its byte. *)

From stdpp Require Import base numbers list option strings.
From Stdlib Require Import ZArith Lia.
From S2P Require Import Prelude.

(** The bytes of a literal. *)
Definition lit (s : string) : list Z :=
  (λ a, Z.of_N (Ascii.N_of_ascii a)) <$> String.list_ascii_of_string s.
Arguments lit s%_string.

(** [str::split(sep)]: the pieces between separators, at least one. *)
Fixpoint split_on (sep : Z) (l : list Z) : list (list Z) :=
  match l with
  | [] => [[]]
  | b :: l =>
      match split_on sep l with
      | [] => [[]]
      | w :: ws => if b =? sep then [] :: w :: ws else (b :: w) :: ws
      end
  end.

(** The inverse of splitting. *)
Fixpoint join_with (sep : Z) (ws : list (list Z)) : list Z :=
  match ws with
  | [] => []
  | [w] => w
  | w :: ws => w ++ sep :: join_with sep ws
  end.

(** [str::split_once(sep)]. *)
Fixpoint split_once (sep : Z) (l : list Z) : option (list Z * list Z) :=
  match l with
  | [] => None
  | b :: l => if b =? sep then Some ([], l)
              else '(w, rest) ← split_once sep l; Some (b :: w, rest)
  end.

(** [str::strip_prefix(p)]. *)
Fixpoint strip_prefix (p l : list Z) : option (list Z) :=
  match p, l with
  | [], _ => Some l
  | a :: p, b :: l => if a =? b then strip_prefix p l else None
  | _ :: _, [] => None
  end.

(** [slice.contains(&b)]. *)
Definition contains_byte (b : Z) (l : list Z) : bool := existsb (Z.eqb b) l.

(** [str::ends_with(c)]. *)
Definition ends_with_byte (b : Z) (l : list Z) : bool :=
  match last l with Some x => x =? b | None => false end.

(** [slice.starts_with(p)]. *)
Definition starts_with (p l : list Z) : bool := is_some (strip_prefix p l).

(* ------------------------------------------------------------------ *)
(** ** Lemmas *)

(** [iter().all(p)] as a predicate. *)
Lemma forallb_Forall {A} (p : A → bool) (l : list A) :
  forallb p l = true ↔ Forall (λ x, p x = true) l.
Proof.
  rewrite forallb_forall, Forall_forall. split; intros H x Hx; apply H; by apply list_elem_of_In.
Qed.

Lemma split_on_cons sep b l w ws :
  split_on sep l = w :: ws →
  split_on sep (b :: l) = if b =? sep then [] :: w :: ws else (b :: w) :: ws.
Proof. intros H. cbn [split_on]. by rewrite H. Qed.

Lemma split_on_nonempty sep l : ∃ w ws, split_on sep l = w :: ws.
Proof.
  induction l as [|b l (w & ws & IH)]; [by exists [], []|].
  rewrite (split_on_cons _ _ _ _ _ IH). destruct (b =? sep); eauto.
Qed.

Lemma join_split sep l : join_with sep (split_on sep l) = l.
Proof.
  induction l as [|b l IH]; [done|].
  destruct (split_on_nonempty sep l) as (w & ws & E). rewrite (split_on_cons _ _ _ _ _ E).
  rewrite E in IH. destruct (b =? sep) eqn:Eb; split_bool; subst.
  - by cbn [join_with app].
  - destruct ws as [|w' ws]; cbn [join_with app]; done.
Qed.

Lemma split_on_absent sep w : sep ∉ w → split_on sep w = [w].
Proof.
  induction w as [|b w IH]; intros H; [done|].
  apply not_elem_of_cons in H as [Hb Hw]. rewrite (split_on_cons _ _ _ _ _ (IH Hw)).
  destruct (b =? sep) eqn:E; split_bool; [by subst|done].
Qed.

Lemma split_on_app sep w l :
  sep ∉ w → split_on sep (w ++ sep :: l) = w :: split_on sep l.
Proof.
  intros Hw. destruct (split_on_nonempty sep l) as (v & vs & E). rewrite E. revert Hw.
  induction w as [|b w IH]; intros Hw; cbn [app].
  - rewrite (split_on_cons _ _ _ _ _ E). by rewrite Z.eqb_refl.
  - apply not_elem_of_cons in Hw as [Hb Hw]. rewrite (split_on_cons _ _ _ _ _ (IH Hw)).
    destruct (b =? sep) eqn:E'; split_bool; [by subst|done].
Qed.

Lemma split_join sep ws :
  ws ≠ [] → Forall (λ w, sep ∉ w) ws → split_on sep (join_with sep ws) = ws.
Proof.
  intros Hne H. induction H as [|w ws Hw H IH]; [done|].
  destruct ws as [|w' ws]; cbn [join_with].
  - by apply split_on_absent.
  - rewrite split_on_app by done. f_equal. by apply IH.
Qed.

Lemma split_on_pieces sep l : Forall (λ w, sep ∉ w) (split_on sep l).
Proof.
  induction l as [|b l IH]; [by repeat constructor; apply not_elem_of_nil|].
  destruct (split_on_nonempty sep l) as (w & ws & E). rewrite (split_on_cons _ _ _ _ _ E).
  rewrite E in IH. apply Forall_cons in IH as [Hw Hws].
  destruct (b =? sep) eqn:Eb; split_bool.
  - repeat constructor; [apply not_elem_of_nil|done|done].
  - constructor; [|done]. apply not_elem_of_cons. by split; [apply not_eq_sym|].
Qed.

Lemma join_with_cons sep w w' ws :
  join_with sep (w :: w' :: ws) = w ++ sep :: join_with sep (w' :: ws).
Proof. done. Qed.

(** A tail of pieces, each preceded by the separator. *)
Lemma join_with_app sep w ws :
  join_with sep (w :: ws) = w ++ concat ((λ v, sep :: v) <$> ws).
Proof.
  revert w. induction ws as [|v ws IH]; intros w.
  - cbn. by rewrite app_nil_r.
  - rewrite join_with_cons, IH. by cbn.
Qed.

Lemma split_once_Some sep l w rest :
  split_once sep l = Some (w, rest) ↔ l = w ++ sep :: rest ∧ sep ∉ w.
Proof.
  revert w. induction l as [|b l IH]; intros w; cbn [split_once].
  - split; [done|]. by intros [H%(f_equal length) _]; rewrite length_app in H; simpl in H; lia.
  - destruct (b =? sep) eqn:E; split_bool.
    + subst. split.
      * intros [= <- <-]. split; [done|apply not_elem_of_nil].
      * intros [H Hw]. destruct w as [|c w]; [by injection H as ->|].
        injection H as -> _. exfalso. apply Hw, list_elem_of_here.
    + destruct (split_once sep l) as [[v r]|]; cbn [mbind option_bind].
      * split.
        { intros [= <- <-]. destruct (proj1 (IH v) eq_refl) as [-> Hv]. split; [done|].
          apply not_elem_of_cons. by split; [apply not_eq_sym|]. }
        intros [H Hw]. destruct w as [|c w]; [by injection H as ->|]. injection H as -> H.
        apply not_elem_of_cons in Hw as [_ Hw].
        pose proof (proj2 (IH w) (conj H Hw)) as [= -> ->]. done.
      * split; [done|]. intros [H Hw]. destruct w as [|c w]; [by injection H as ->|].
        injection H as -> H. apply not_elem_of_cons in Hw as [_ Hw].
        by pose proof (proj2 (IH w) (conj H Hw)).
Qed.

Lemma split_once_None sep l : split_once sep l = None ↔ sep ∉ l.
Proof.
  induction l as [|b l IH]; cbn [split_once].
  - split; [intros _; apply not_elem_of_nil|done].
  - rewrite not_elem_of_cons. destruct (b =? sep) eqn:E; split_bool.
    + subst. by split; [|intros [? _]].
    + destruct (split_once sep l) as [[v r]|]; cbn [mbind option_bind].
      * split; [done|]. intros [_ H]. by apply IH in H.
      * split; [intros _; split; [by apply not_eq_sym|by apply IH]|done].
Qed.

Lemma strip_prefix_Some p l rest : strip_prefix p l = Some rest ↔ l = p ++ rest.
Proof.
  revert l. induction p as [|a p IH]; intros l; cbn [strip_prefix app].
  - split; [by intros [= ->]|by intros ->].
  - destruct l as [|b l]; [done|]. destruct (a =? b) eqn:E; split_bool.
    + subst. rewrite IH. split; [by intros ->|by intros [= ->]].
    + split; [done|]. by intros [= ->].
Qed.

Lemma contains_byte_true b l : contains_byte b l = true ↔ b ∈ l.
Proof.
  unfold contains_byte. rewrite existsb_exists. split.
  - intros (x & Hx & E). split_bool. subst. by apply list_elem_of_In.
  - intros H. exists b. split; [by apply list_elem_of_In|apply Z.eqb_refl].
Qed.

Lemma contains_byte_false b l : contains_byte b l = false ↔ b ∉ l.
Proof. rewrite <-not_true_iff_false, contains_byte_true. done. Qed.

Lemma ends_with_snoc b l x : ends_with_byte b (l ++ [x]) = (x =? b).
Proof. unfold ends_with_byte. by rewrite last_snoc. Qed.

(** A text ends with the separator exactly when its last piece is empty. *)
Lemma ends_with_split sep l :
  ends_with_byte sep l = true → ∃ ws, split_on sep l = ws ++ [[]].
Proof.
  unfold ends_with_byte. destruct (last l) as [x|] eqn:E; [|done].
  intros ?; split_bool; subst. apply last_Some in E as [l' ->].
  induction l' as [|b l' (ws & IH)]; cbn [app].
  - exists [[]]. cbn. by rewrite Z.eqb_refl.
  - destruct ws as [|w ws]; rewrite (split_on_cons _ _ _ _ _ IH); destruct (b =? sep).
    + by exists [[]].
    + exfalso. destruct l' as [|c l']; cbn [app] in IH.
      { cbn in IH. by rewrite Z.eqb_refl in IH. }
      destruct (split_on_nonempty sep (l' ++ [sep])) as (w & ws & E').
      rewrite (split_on_cons _ _ _ _ _ E') in IH. by destruct (c =? sep).
    + by exists ([] :: w :: ws).
    + by exists ((b :: w) :: ws).
Qed.
