(* ===== verification/Bytes.v ===== *)
(** Byte layouts: slices of a buffer, writes into it, little-endian fields, and
    the lemmas that read a field back from a concatenation of fields. *)

From stdpp Require Import base numbers list option.
From Stdlib Require Import ZArith Lia.
From S2P Require Import Prelude.

(** [&l[off..off + n]]. *)
Definition slice (off n : nat) (l : list Z) : list Z := take n (drop off l).

(** [dst[off..off + src.len()].copy_from_slice(src)]. *)
Definition write_at (off : nat) (src dst : list Z) : list Z :=
  take off dst ++ src ++ drop (off + length src) dst.

(** [uN::from_le_bytes] of a slice. *)
Definition read_le (off n : nat) (l : list Z) : Z := of_le_bytes (slice off n l).

Lemma slice_app_mid (a b c : list Z) off n :
  length a = off → length b = n → slice off n (a ++ b ++ c) = b.
Proof. intros <- <-. unfold slice. rewrite drop_app_length. apply take_app_length. Qed.

Lemma slice_skip k (a b : list Z) off n :
  length a = k → (k <=? off)%nat = true → slice off n (a ++ b) = slice (off - k) n b.
Proof. intros <- H%Nat.leb_le. unfold slice. by rewrite drop_app_ge. Qed.

Lemma slice_here (a b : list Z) n : length a = n → slice 0 n (a ++ b) = a.
Proof. intros <-. unfold slice. by rewrite drop_0, take_app_length. Qed.
Lemma slice_all (a : list Z) n : length a = n → slice 0 n a = a.
Proof. intros <-. unfold slice. by rewrite drop_0, firstn_all. Qed.

(** A list is the concatenation of its slices. *)
Lemma take_slice off n (l : list Z) : take (off + n) l = take off l ++ slice off n l.
Proof. unfold slice. by rewrite take_take_drop. Qed.
Lemma drop_slice off n (l : list Z) : drop off l = slice off n l ++ drop (off + n) l.
Proof. unfold slice. by rewrite <-drop_drop, take_drop. Qed.

Lemma slice_length off n (l : list Z) : (off + n ≤ length l)%nat → length (slice off n l) = n.
Proof. intros H. unfold slice. rewrite length_take, length_drop. lia. Qed.

Lemma slice_of_take off n m (l : list Z) : (off + n ≤ m)%nat → slice off n (take m l) = slice off n l.
Proof. intros H. unfold slice. rewrite skipn_firstn_comm, take_take. by rewrite Nat.min_l by lia. Qed.

Lemma slice_bytes off n l : Forall is_byte l → Forall is_byte (slice off n l).
Proof. intros H. by apply Forall_take, Forall_drop. Qed.

Lemma le_bytes_of_le_bytes l : Forall is_byte l → le_bytes (length l) (of_le_bytes l) = l.
Proof.
  induction 1 as [|b l Hb _ IH]; [done|]. cbn [length le_bytes of_le_bytes]. unfold is_byte in Hb.
  rewrite (Z.mul_comm 256), Z.mod_add, Z.mod_small, Z.div_add, Z.div_small, Z.add_0_l by lia. by rewrite IH.
Qed.

Lemma le_bytes_read off n l :
  Forall is_byte l → (off + n ≤ length l)%nat → le_bytes n (read_le off n l) = slice off n l.
Proof.
  intros Hl Hn. unfold read_le. rewrite <-(slice_length off n l Hn) at 1.
  by apply le_bytes_of_le_bytes, slice_bytes.
Qed.

Lemma read_le_range off n l :
  Forall is_byte l → (off + n ≤ length l)%nat → 0 ≤ read_le off n l < 256 ^ Z.of_nat n.
Proof.
  intros Hl Hn. unfold read_le. pose proof (of_le_bytes_range (slice off n l) (slice_bytes off n l Hl)) as H.
  by rewrite slice_length in H.
Qed.

(** Zero bytes, checked with [iter().any(|b| *b != 0)]. *)
Lemma existsb_nonzero l : existsb (λ b, negb (b =? 0)) l = false ↔ l = replicate (length l) 0.
Proof.
  induction l as [|b l IH]; [done|]. cbn. rewrite orb_false_iff, IH, negb_false_iff, Z.eqb_eq.
  split; [by intros [-> <-]|by intros [= -> <-]].
Qed.

(** Read the field at an offset of a concatenation [a ++ b ++ ...]: walk past
    the fields before it, whose lengths are evident or hypotheses. *)
Ltac field_len :=
  first [apply length_le_bytes | apply length_replicate | eassumption | reflexivity].
Ltac skip_field := erewrite slice_skip; [|field_len|reflexivity]; cbn [Nat.sub].
Ltac read_field :=
  repeat skip_field; first [apply slice_here; field_len | apply slice_all; field_len].
