(* ===== verification/Sorting.v ===== *)
(** Orderings and sorting: Rust's [Ord], [sort_by] and [Iterator::max_by].

    A comparison function returns [Lt], [Eq] or [Gt]; [CmpOrder] are the laws
    of a total order up to [Eq].  [sort_by] is the stable sort. *)

From stdpp Require Import base numbers list option sorting.
From Stdlib Require Import ZArith Lia.
From S2P Require Import Prelude.

(** [Ordering::then]. *)
Definition cmp_then (c d : comparison) : comparison := match c with Eq => d | _ => c end.

Section comparisons.
Context {A : Type}.

(** Derived [Ord] on slices: lexicographic, shorter first. *)
Fixpoint list_cmp (c : A → A → comparison) (l l' : list A) : comparison :=
  match l, l' with
  | [], [] => Eq
  | [], _ :: _ => Lt
  | _ :: _, [] => Gt
  | x :: l, y :: l' => cmp_then (c x y) (list_cmp c l l')
  end.

(** Derived [Ord] on [Option]: [None] first. *)
Definition option_cmp (c : A → A → comparison) (o o' : option A) : comparison :=
  match o, o' with
  | None, None => Eq
  | None, Some _ => Lt
  | Some _, None => Gt
  | Some x, Some y => c x y
  end.

Fixpoint insert_by (c : A → A → comparison) (x : A) (l : list A) : list A :=
  match l with
  | [] => [x]
  | y :: l' => match c x y with Gt => y :: insert_by c x l' | _ => x :: l end
  end.
(** [slice::sort_by]. *)
Definition sort_by (c : A → A → comparison) (l : list A) : list A := foldr (insert_by c) [] l.

(** [Iterator::max_by] over the positions of a list: the last maximum. *)
Fixpoint max_index_from (c : A → A → comparison) (i best : nat) (m : A) (l : list A) : nat :=
  match l with
  | [] => best
  | x :: l => match c m x with
              | Gt => max_index_from c (S i) best m l
              | _ => max_index_from c (S i) i x l
              end
  end.
Definition max_index_by (c : A → A → comparison) (l : list A) : option nat :=
  match l with
  | [] => None
  | x :: l => Some (max_index_from c 1 0 x l)
  end.
End comparisons.

(** Compare by a key. *)
Definition cmp_by {A B} (f : A → B) (c : B → B → comparison) (x y : A) : comparison := c (f x) (f y).

(** The laws of a total preorder. *)
Class CmpOrder {A} (c : A → A → comparison) : Prop := {
  cmp_flip x y : c y x = CompOpp (c x y);
  cmp_lt_trans x y z : c x y = Lt → c y z = Lt → c x z = Lt;
  cmp_eq_subst x y z : c x y = Eq → c x z = c y z;
}.
(** [Eq] is equality. *)
Class CmpExact {A} (c : A → A → comparison) : Prop := cmp_eq x y : c x y = Eq → x = y.

Arguments cmp_flip {A} c {_} x y.
Arguments cmp_lt_trans {A} c {_} x y z.
Arguments cmp_eq_subst {A} c {_} x y z.
Arguments cmp_eq {A} c {_} x y.

(** ** Lemmas *)

#[export] Instance Z_cmp_order : CmpOrder Z.compare.
Proof.
  split.
  - intros x y. apply Z.compare_antisym.
  - intros x y z. rewrite !Z.compare_lt_iff. lia.
  - by intros x y z ->%Z.compare_eq_iff.
Qed.
#[export] Instance Z_cmp_exact : CmpExact Z.compare.
Proof. intros x y. apply Z.compare_eq_iff. Qed.

#[export] Instance nat_cmp_order : CmpOrder Nat.compare.
Proof.
  split.
  - intros x y. apply Nat.compare_antisym.
  - intros x y z. rewrite !Nat.compare_lt_iff. lia.
  - by intros x y z ->%Nat.compare_eq_iff.
Qed.

Section laws.
Context {A : Type} (c : A → A → comparison) {CO : CmpOrder c}.

Lemma cmp_refl x : c x x = Eq.
Proof. pose proof (cmp_flip c x x) as H. by destruct (c x x). Qed.

Lemma cmp_eq_subst_r x y z : c y z = Eq → c x y = c x z.
Proof.
  intros H. rewrite (cmp_flip c y x), (cmp_flip c z x), (cmp_eq_subst c y z x H). done.
Qed.

Lemma cmp_le_trans x y z : c x y ≠ Gt → c y z ≠ Gt → c x z ≠ Gt.
Proof.
  intros H1 H2. destruct (c x y) eqn:E1; [by rewrite (cmp_eq_subst c x y z E1)| |done].
  destruct (c y z) eqn:E2; [by rewrite <-(cmp_eq_subst_r x y z E2), E1| |done].
  by rewrite (cmp_lt_trans c x y z E1 E2).
Qed.

Lemma cmp_gt x y : c x y = Gt ↔ c y x = Lt.
Proof. rewrite (cmp_flip c x y). destruct (c x y); by split. Qed.

Lemma list_cmp_order_aux : CmpOrder (list_cmp c).
Proof.
  split.
  - induction x as [|a x IH]; intros [|b y]; cbn; try done. rewrite (cmp_flip c a b), IH.
    by destruct (c a b).
  - induction x as [|a x IH]; intros [|b y] [|d z]; cbn; try done. unfold cmp_then.
    destruct (c a b) eqn:E1, (c b d) eqn:E2; try done; intros H1 H2.
    + rewrite (cmp_eq_subst c a b d E1), E2. by eapply IH.
    + by rewrite (cmp_eq_subst c a b d E1), E2.
    + by rewrite <-(cmp_eq_subst_r a b d E2), E1.
    + by rewrite (cmp_lt_trans c a b d E1 E2).
  - induction x as [|a x IH]; intros [|b y] [|d z]; cbn; try done. unfold cmp_then.
    destruct (c a b) eqn:E1; try done. intros H. rewrite (cmp_eq_subst c a b d E1), (IH y z H). done.
Qed.

Lemma option_cmp_order_aux : CmpOrder (option_cmp c).
Proof.
  split.
  - intros [x|] [y|]; cbn; try done. apply (cmp_flip c).
  - intros [x|] [y|] [z|]; cbn; try done. apply (cmp_lt_trans c).
  - intros [x|] [y|] [z|]; cbn; try done. apply (cmp_eq_subst c).
Qed.

Lemma cmp_by_order_aux {B} (f : B → A) : CmpOrder (cmp_by f c).
Proof.
  unfold cmp_by. split; intros.
  - apply (cmp_flip c).
  - by eapply (cmp_lt_trans c).
  - by apply (cmp_eq_subst c).
Qed.

Lemma flip_order_aux : CmpOrder (λ x y, c y x).
Proof.
  split; intros.
  - apply (cmp_flip c).
  - by eapply (cmp_lt_trans c).
  - apply cmp_eq_subst_r. rewrite (cmp_flip c y x), H. done.
Qed.
End laws.

#[export] Instance list_cmp_order {A} (c : A → A → comparison) `{!CmpOrder c} : CmpOrder (list_cmp c) :=
  list_cmp_order_aux c.
#[export] Instance option_cmp_order {A} (c : A → A → comparison) `{!CmpOrder c} : CmpOrder (option_cmp c) :=
  option_cmp_order_aux c.
#[export] Instance cmp_by_order {A B} (f : B → A) (c : A → A → comparison) `{!CmpOrder c} :
  CmpOrder (cmp_by f c) := cmp_by_order_aux c f.

#[export] Instance cmp_then_order {A} (c d : A → A → comparison) `{!CmpOrder c, !CmpOrder d} :
  CmpOrder (λ x y, cmp_then (c x y) (d x y)).
Proof.
  unfold cmp_then. split.
  - intros x y. rewrite (cmp_flip c x y), (cmp_flip d x y). by destruct (c x y).
  - intros x y z. destruct (c x y) eqn:E1, (c y z) eqn:E2; try done; intros H1 H2.
    + rewrite (cmp_eq_subst c x y z E1), E2. by eapply (cmp_lt_trans d).
    + by rewrite (cmp_eq_subst c x y z E1), E2.
    + by rewrite <-(cmp_eq_subst_r c x y z E2), E1.
    + by rewrite (cmp_lt_trans c x y z E1 E2).
  - intros x y z. destruct (c x y) eqn:E1; try done. intros H.
    by rewrite (cmp_eq_subst c x y z E1), (cmp_eq_subst d x y z H).
Qed.

#[export] Instance list_cmp_exact {A} (c : A → A → comparison) `{!CmpExact c} : CmpExact (list_cmp c).
Proof.
  intros l. induction l as [|x l IH]; intros [|y l']; cbn; try done. unfold cmp_then.
  destruct (c x y) eqn:E; try done. intros H. by rewrite (cmp_eq c x y E), (IH l' H).
Qed.
#[export] Instance option_cmp_exact {A} (c : A → A → comparison) `{!CmpExact c} : CmpExact (option_cmp c).
Proof. intros [x|] [y|]; cbn; try done. intros H. by rewrite (cmp_eq c x y H). Qed.

Section sorting.
Context {A : Type} (c : A → A → comparison) {CO : CmpOrder c}.

Definition cmp_le (x y : A) : Prop := c x y ≠ Gt.

Lemma insert_by_Permutation x l : insert_by c x l ≡ₚ x :: l.
Proof.
  induction l as [|y l IH]; cbn; [done|]. destruct (c x y); [done..|].
  rewrite IH. apply Permutation_swap.
Qed.
Lemma sort_by_Permutation l : sort_by c l ≡ₚ l.
Proof. induction l as [|x l IH]; cbn; [done|]. by rewrite insert_by_Permutation, IH. Qed.

Lemma insert_by_sorted x l : StronglySorted cmp_le l → StronglySorted cmp_le (insert_by c x l).
Proof.
  induction 1 as [|y l Hs IH Hf]; cbn; [by repeat constructor|].
  destruct (c x y) eqn:E.
  1,2: constructor; [by constructor|]; constructor; [unfold cmp_le; by rewrite E|];
    eapply Forall_impl; [exact Hf|]; intros z Hz; apply (cmp_le_trans c x y z); [by rewrite E|done].
  constructor; [done|]. rewrite insert_by_Permutation. constructor; [|done].
  unfold cmp_le. apply (cmp_gt c) in E. by rewrite E.
Qed.
Lemma sort_by_sorted l : StronglySorted cmp_le (sort_by c l).
Proof. induction l as [|x l IH]; cbn; [constructor|by apply insert_by_sorted]. Qed.

(** A sorted list is left as it is. *)
Lemma sort_by_id l : StronglySorted cmp_le l → sort_by c l = l.
Proof.
  induction 1 as [|x l Hs IH Hf]; cbn; [done|]. fold (sort_by c l). rewrite IH.
  destruct l as [|y l]; [done|]. apply Forall_cons in Hf as [Hxy _]. cbn. unfold cmp_le in Hxy. by destruct (c x y).
Qed.

(** The list holds no two elements the order does not tell apart. *)
Definition cmp_distinct (l : list A) : Prop := ∀ i j x y, l !! i = Some x → l !! j = Some y → c x y = Eq → i = j.

(** Two sorted arrangements of distinct elements are the same. *)
Lemma sorted_unique l l' :
  (∀ x y, x ∈ l → y ∈ l → c x y = Eq → x = y) →
  StronglySorted cmp_le l → StronglySorted cmp_le l' → l ≡ₚ l' → l = l'.
Proof.
  intros Hd Hs. revert l' Hd. induction Hs as [|x l Hs IH Hf]; intros l' Hd Hs' Hp.
  { by apply Permutation_nil_l in Hp. }
  destruct Hs' as [|y l' Hs' Hf']; [by apply Permutation_nil_r in Hp|].
  assert (x = y) as <-.
  { assert (x ∈ y :: l') as Hx by (rewrite <-Hp; apply list_elem_of_here).
    assert (y ∈ x :: l) as Hy by (rewrite Hp; apply list_elem_of_here).
    apply elem_of_cons in Hx as [?|Hx]; [done|]. apply elem_of_cons in Hy as [?|Hy]; [done|].
    rewrite Forall_forall in Hf, Hf'. specialize (Hf y Hy). specialize (Hf' x Hx). unfold cmp_le in *.
    apply Hd; [by left|by right|]. destruct (c x y) eqn:E; [done| |done].
    by rewrite (cmp_flip c x y), E in Hf'. }
  f_equal. apply IH; [|done|by apply Permutation_cons_inv in Hp].
  intros a b Ha Hb. apply Hd; by right.
Qed.

(** [max_index_by] finds a greatest element. *)
Lemma max_index_from_spec l : ∀ pre best m,
  pre !! best = Some m → Forall (λ x, cmp_le x m) pre →
  ∃ k, max_index_from c (length pre) best m l = k ∧
    ∃ m', (pre ++ l) !! k = Some m' ∧ Forall (λ x, cmp_le x m') (pre ++ l).
Proof.
  induction l as [|x l IH]; intros pre best m Hb Hm; cbn [max_index_from].
  { exists best. split; [done|]. exists m. by rewrite app_nil_r. }
  assert (length (pre ++ [x]) = S (length pre)) as Hl by (rewrite length_app; cbn; lia).
  destruct (c m x) eqn:E.
  3:{ destruct (IH (pre ++ [x]) best m) as (k & H1 & H2).
      - by apply lookup_app_l_Some.
      - apply Forall_app. split; [done|]. constructor; [|done]. unfold cmp_le.
        apply (cmp_gt c) in E. by rewrite E.
      - rewrite Hl in H1. rewrite <-app_assoc in H2. by exists k. }
  all: destruct (IH (pre ++ [x]) (length pre) x) as (k & H1 & H2);
    [by rewrite lookup_app_r, Nat.sub_diag by lia
    |apply Forall_app; split; [eapply Forall_impl; [exact Hm|]; intros y Hy;
       apply (cmp_le_trans c y m x); [exact Hy|by rewrite E]|constructor; [|done]; unfold cmp_le; by rewrite (cmp_refl c x)]
    |rewrite Hl in H1; rewrite <-app_assoc in H2; by exists k].
Qed.

Lemma max_index_by_spec l : l ≠ [] →
  ∃ k m, max_index_by c l = Some k ∧ l !! k = Some m ∧ Forall (λ x, cmp_le x m) l.
Proof.
  destruct l as [|x l]; [done|]. intros _. cbn [max_index_by].
  destruct (max_index_from_spec l [x] 0 x) as (k & H1 & m & H2 & H3); [done| |].
  - constructor; [|done]. unfold cmp_le. by rewrite (cmp_refl c x).
  - cbn in H1. exists k, m. by rewrite H1.
Qed.
End sorting.
