(* ===== verification/SlotMap.v ===== *)
(** Fixed arrays of slots used as maps.  Most tables of the program are arrays
    whose occupied cells carry a key; this file gives the finite map such an
    array stands for ([view]) and the effect on it of the writes the tables
    make: into a free cell, over a cell of the same key, and clearing a cell. *)

From stdpp Require Import base numbers list option sets gmap fin_maps.
From Stdlib Require Import ZArith Lia.
From S2P Require Import Prelude.

Section slot_map.
Context {K S : Type} `{Countable K}.
Variable key : S → option K.

(** No two cells hold the same key. *)
Definition slots_ok (l : list S) : Prop :=
  ∀ i j s t k, l !! i = Some s → l !! j = Some t → key s = Some k → key t = Some k → i = j.

Fixpoint view (l : list S) : gmap K S :=
  match l with
  | [] => ∅
  | s :: l => match key s with Some k => <[k := s]> (view l) | None => view l end
  end.

Lemma slots_ok_tail s l : slots_ok (s :: l) → slots_ok l.
Proof.
  intros Hok i j a b k Hi Hj Ha Hb.
  assert (Datatypes.S i = Datatypes.S j) by by eapply (Hok _ _ a b k). lia.
Qed.

Lemma slots_ok_nil : slots_ok [].
Proof. intros i j s t k Hi. by rewrite lookup_nil in Hi. Qed.

Lemma view_elem l k s : view l !! k = Some s → ∃ i, l !! i = Some s ∧ key s = Some k.
Proof.
  induction l as [|a l IH]; simpl; [by rewrite lookup_empty|].
  destruct (key a) as [k'|] eqn:Ek.
  - destruct (decide (k' = k)) as [->|Hne].
    + rewrite lookup_insert_eq. intros [= <-]. by exists O.
    + rewrite lookup_insert_ne by done. intros [i Hi]%IH. by exists (Datatypes.S i).
  - intros [i Hi]%IH. by exists (Datatypes.S i).
Qed.

Lemma view_lookup l i s k :
  slots_ok l → l !! i = Some s → key s = Some k → view l !! k = Some s.
Proof.
  revert i. induction l as [|a l IH]; intros i Hok Hi Hk; [done|].
  destruct i as [|i]; simpl in *.
  - injection Hi as ->. by rewrite Hk, lookup_insert_eq.
  - specialize (IH i (slots_ok_tail _ _ Hok) Hi Hk). destruct (key a) as [k'|] eqn:Ek; [|done].
    destruct (decide (k' = k)) as [->|Hne]; [|by rewrite lookup_insert_ne].
    assert (O = Datatypes.S i) by by eapply (Hok O (Datatypes.S i) a s k). lia.
Qed.

Lemma view_spec l k s :
  slots_ok l → view l !! k = Some s ↔ ∃ i, l !! i = Some s ∧ key s = Some k.
Proof. intros Hok. split; [apply view_elem|]. intros (i & ? & ?). by eapply view_lookup. Qed.

Lemma view_None l k :
  view l !! k = None → ∀ i s, l !! i = Some s → key s ≠ Some k.
Proof.
  induction l as [|a l IH]; simpl; intros Hv i s Hi; [done|].
  destruct (key a) as [k'|] eqn:Ek.
  - destruct (decide (k' = k)) as [->|Hne]; [by rewrite lookup_insert_eq in Hv|].
    rewrite lookup_insert_ne in Hv by done.
    destruct i as [|i]; simpl in Hi; [injection Hi as <-; congruence|by eapply IH].
  - destruct i as [|i]; simpl in Hi; [injection Hi as <-; congruence|by eapply IH].
Qed.

Lemma view_None_iff l k :
  view l !! k = None ↔ ∀ i s, l !! i = Some s → key s ≠ Some k.
Proof.
  split; [apply view_None|]. intros Hno. destruct (view l !! k) as [s|] eqn:E; [|done].
  apply view_elem in E as (i & Hi & Hk). by destruct (Hno i s Hi).
Qed.

(** Two views agree when they hold the same keyed cells. *)
Lemma view_ext l (m : gmap K S) :
  slots_ok l →
  (∀ k s, m !! k = Some s ↔ ∃ i, l !! i = Some s ∧ key s = Some k) → view l = m.
Proof.
  intros Hok Hm. apply map_eq. intros k. apply option_eq. intros s.
  by rewrite Hm, view_spec.
Qed.

Lemma slots_ok_insert l i s :
  slots_ok l →
  (∀ k j t, key s = Some k → l !! j = Some t → key t = Some k → j = i) →
  slots_ok (<[i := s]> l).
Proof.
  intros Hok Hnew a b x y k Ha Hb Hx Hy.
  apply list_lookup_insert_Some in Ha as [(-> & <- & _)|[Ha1 Ha2]];
    apply list_lookup_insert_Some in Hb as [(-> & <- & _)|[Hb1 Hb2]].
  - done.
  - symmetry. by eapply Hnew.
  - by eapply Hnew.
  - by eapply Hok.
Qed.

(** A write to cell [i]: what the cell held leaves the view, what is written
    joins it. *)
Lemma view_write l i s0 s :
  slots_ok l → l !! i = Some s0 →
  (∀ k j t, key s = Some k → l !! j = Some t → key t = Some k → j = i) →
  let without := match key s0 with Some k => delete k (view l) | None => view l end in
  view (<[i := s]> l) =
    match key s with Some k => <[k := s]> without | None => without end.
Proof.
  intros Hok Hi Hnew without. pose proof (lookup_lt_Some _ _ _ Hi) as Hlt.
  assert (∀ k t, without !! k = Some t ↔ ∃ j, j ≠ i ∧ l !! j = Some t ∧ key t = Some k) as Hw.
  { intros k t. unfold without. destruct (key s0) as [k0|] eqn:E0.
    - rewrite lookup_delete_Some, view_spec by done. split.
      + intros [Hne (j & Hj & Hk)]. exists j. split_and!; [|done|done].
        intros ->. rewrite Hi in Hj. congruence.
      + intros (j & Hji & Hj & Hk). split; [|by exists j].
        intros ->. apply Hji. by eapply (Hok j i t s0 k).
    - rewrite view_spec by done. split.
      + intros (j & Hj & Hk). exists j. split_and!; [|done|done].
        intros ->. rewrite Hi in Hj. congruence.
      + intros (j & _ & Hj & Hk). by exists j. }
  apply view_ext; [by apply slots_ok_insert|]. intros k t.
  transitivity ((t = s ∧ key s = Some k) ∨ (∃ j, j ≠ i ∧ l !! j = Some t ∧ key t = Some k)).
  - destruct (key s) as [ks|] eqn:Es; [|rewrite Hw; naive_solver].
    destruct (decide (ks = k)) as [->|Hne].
    + rewrite lookup_insert_eq. split; [intros [= <-]; by left|].
      intros [[-> _]|(j & Hji & Hj & Hk)]; [done|]. destruct Hji. by eapply Hnew.
    + rewrite lookup_insert_ne, Hw by done. naive_solver.
  - split.
    + intros [[-> Hk]|(j & Hji & Hj & Hk)].
      * exists i. by rewrite list_lookup_insert_eq.
      * exists j. by rewrite list_lookup_insert_ne.
    + intros (j & Hj & Hk).
      apply list_lookup_insert_Some in Hj as [(-> & <- & _)|[Hji Hj]]; [by left|].
      right. exists j. by split_and!.
Qed.

(** Filling a free cell. *)
Lemma view_fill l i s0 s k :
  slots_ok l → l !! i = Some s0 → key s0 = None → key s = Some k → view l !! k = None →
  slots_ok (<[i := s]> l) ∧ view (<[i := s]> l) = <[k := s]> (view l).
Proof.
  intros Hok Hi H0 Hs Hk.
  assert (∀ k' j t, key s = Some k' → l !! j = Some t → key t = Some k' → j = i) as Hnew.
  { intros k' j t Hk' Hj Ht. rewrite Hs in Hk'. injection Hk' as <-.
    by destruct (view_None l k Hk j t Hj). }
  split; [by apply slots_ok_insert|]. erewrite view_write by done. by rewrite H0, Hs.
Qed.

(** Overwriting a cell under the same key. *)
Lemma view_update l i s0 s k :
  slots_ok l → l !! i = Some s0 → key s0 = Some k → key s = Some k →
  slots_ok (<[i := s]> l) ∧ view (<[i := s]> l) = <[k := s]> (view l).
Proof.
  intros Hok Hi H0 Hs.
  assert (∀ k' j t, key s = Some k' → l !! j = Some t → key t = Some k' → j = i) as Hnew.
  { intros k' j t Hk' Hj Ht. rewrite Hs in Hk'. injection Hk' as <-. by eapply (Hok j i t s0 k). }
  split; [by apply slots_ok_insert|]. erewrite view_write by done.
  by rewrite H0, Hs, insert_delete_eq.
Qed.

(** Clearing a cell. *)
Lemma view_clear l i s0 s k :
  slots_ok l → l !! i = Some s0 → key s0 = Some k → key s = None →
  slots_ok (<[i := s]> l) ∧ view (<[i := s]> l) = delete k (view l).
Proof.
  intros Hok Hi H0 Hs.
  assert (∀ k' j t, key s = Some k' → l !! j = Some t → key t = Some k' → j = i) as Hnew
    by (intros ?? ? Hk'; congruence).
  split; [by apply slots_ok_insert|]. erewrite view_write by done. by rewrite H0, Hs.
Qed.

(** A pass over all cells that keeps the keys. *)
Lemma view_fmap (f : S → S) l :
  (∀ s, key (f s) = key s) → view (f <$> l) = f <$> view l.
Proof.
  intros Hf. induction l as [|s l IH]; [symmetry; apply fmap_empty|].
  rewrite fmap_cons. cbn [view]. rewrite Hf, IH. destruct (key s); [|done]. by rewrite fmap_insert.
Qed.

Lemma slots_ok_fmap (f : S → S) l :
  (∀ s, key (f s) = key s) → slots_ok l → slots_ok (f <$> l).
Proof.
  intros Hf Hok i j s t k Hi Hj Hs Ht.
  apply list_lookup_fmap_Some in Hi as (s' & -> & Hi).
  apply list_lookup_fmap_Some in Hj as (t' & -> & Hj).
  rewrite Hf in Hs, Ht. by eapply Hok.
Qed.

(** The occupied cells are as many as the keys. *)
Lemma view_size l : slots_ok l → size (view l) = count_by (λ s, is_some (key s)) l.
Proof.
  induction l as [|s l IH]; intros Hok; simpl; [apply map_size_empty|].
  rewrite <- IH by by eapply slots_ok_tail. destruct (key s) as [k|] eqn:Ek; simpl; [|done].
  apply map_size_insert_None. apply view_None_iff. intros i t Hi Ht.
  assert (O = Datatypes.S i) by by eapply (Hok O (Datatypes.S i) s t k). lia.
Qed.

Lemma view_empty l : (∀ i s, l !! i = Some s → key s = None) → slots_ok l ∧ view l = ∅.
Proof.
  intros Hno. split.
  - intros i j s t k Hi _ Hs _. apply Hno in Hi. congruence.
  - apply map_eq. intros k. rewrite lookup_empty. apply view_None_iff.
    intros i s Hi. by rewrite (Hno i s Hi).
Qed.

Lemma view_replicate n s : key s = None → slots_ok (replicate n s) ∧ view (replicate n s) = ∅.
Proof. intros Hs. apply view_empty. by intros i t [-> _]%lookup_replicate. Qed.

(** The scan for a key. *)
Lemma find_key p l k :
  slots_ok l → (∀ s, p s = true ↔ key s = Some k) →
  match position p l with
  | Some i => ∃ s, l !! i = Some s ∧ key s = Some k ∧ view l !! k = Some s
  | None => view l !! k = None
  end.
Proof.
  intros Hok Hp. destruct (position p l) as [i|] eqn:E.
  - apply position_lookup in E as (s & Hi & Hs). apply Hp in Hs.
    exists s. split_and!; [done|done|]. by eapply view_lookup.
  - rewrite position_None in E. apply view_None_iff. intros i s Hi Hs.
    apply Hp in Hs. by rewrite (E i s Hi) in Hs.
Qed.

(** The scan for a free cell. *)
Lemma find_free p l :
  slots_ok l → (∀ s, p s = true ↔ key s = None) →
  match position p l with
  | Some i => (∃ s, l !! i = Some s ∧ key s = None) ∧ (size (view l) < length l)%nat
  | None => size (view l) = length l
  end.
Proof.
  intros Hok Hp. rewrite view_size by done. destruct (position p l) as [i|] eqn:E.
  - apply position_lookup in E as (s & Hi & Hs). apply Hp in Hs.
    split; [by exists s|].
    destruct (decide (count_by (λ s, is_some (key s)) l < length l)%nat) as [|Hge]; [done|].
    pose proof (count_by_all (λ s, is_some (key s)) l ltac:(lia) i s Hi) as Hc.
    cbn beta in Hc. by rewrite Hs in Hc.
  - rewrite position_None in E. apply count_by_full. intros i s Hi. specialize (E i s Hi).
    destruct (key s) as [k|] eqn:Ek; [done|]. assert (p s = true) by by apply Hp. congruence.
Qed.

(** The keys in the order of the cells. *)
Lemma elem_of_keys l k : k ∈ omap key l ↔ is_Some (view l !! k).
Proof.
  rewrite list_elem_of_omap. split.
  - intros (s & [i Hi]%list_elem_of_lookup & Hk). destruct (view l !! k) eqn:E; [done|].
    by destruct (view_None l k E i s Hi).
  - intros [s (i & Hi & Hk)%view_elem]. exists s. split; [|done]. by eapply list_elem_of_lookup_2.
Qed.

Lemma keys_NoDup l : slots_ok l → NoDup (omap key l).
Proof.
  induction l as [|s l IH]; intros Hok; cbn; [constructor|].
  specialize (IH (slots_ok_tail _ _ Hok)). destruct (key s) as [k|] eqn:Ek; [|done].
  apply NoDup_cons. split; [|done]. intros (t & [j Hj]%list_elem_of_lookup & Ht)%list_elem_of_omap.
  assert (O = Datatypes.S j) by by eapply (Hok O (Datatypes.S j) s t k). lia.
Qed.

(** The view lists the occupied cells. *)
Lemma view_to_list l :
  slots_ok l → map_to_list (view l) ≡ₚ omap (λ s, (λ k, (k, s)) <$> key s) l.
Proof.
  induction l as [|s l IH]; intros Hok; cbn; [by rewrite map_to_list_empty|].
  specialize (IH (slots_ok_tail _ _ Hok)). destruct (key s) as [k|] eqn:Ek; cbn; [|done].
  rewrite map_to_list_insert, IH; [done|].
  apply view_None_iff. intros i t Hi Ht.
  assert (O = Datatypes.S i) by by eapply (Hok O (Datatypes.S i) s t k). lia.
Qed.

Lemma view_size_le l : slots_ok l → (size (view l) ≤ length l)%nat.
Proof. intros Hok. rewrite view_size by done. apply count_by_le. Qed.
End slot_map.

(** Updating a cell in place is writing the updated value. *)
Lemma alter_as_insert {A} (f : A → A) (l : list A) i x :
  l !! i = Some x → alter f i l = <[i := f x]> l.
Proof. revert i. induction l as [|a l IH]; intros [|i] Hi; simplify_eq/=; [done|]. f_equal. by apply IH. Qed.
