(* ===== verification/Types.v ===== *)
(** Foundation types of [crates/rvm-types]: error codes, identifiers, access
    rights and capability tokens, coherence metrics, privileged-action kinds,
    witness records and the FNV-1a hash.  Every other file builds on these. *)

From stdpp Require Import base numbers list option sets gmap.
From Stdlib Require Import ZArith Lia.
From S2P Require Import Prelude.

(* ------------------------------------------------------------------ *)
(** ** Errors ([error.rs]) *)

Inductive RvmError : Set :=
| PartitionNotFound
| InvalidPartitionState
| PartitionLimitExceeded
| SplitPreconditionFailed
| MergePreconditionFailed
| MigrationTimeout
| VcpuNotFound
| VcpuLimitReached
| InsufficientCapability
| StaleCapability
| CapabilityTypeMismatch
| DelegationDepthExceeded
| CapabilityConsumed
| WitnessVerificationFailed
| WitnessChainBroken
| WitnessLogFull
| ProofInvalid
| ProofTierInsufficient
| ProofBudgetExceeded
| CoherenceBelowThreshold
| MinCutBudgetExceeded
| MemoryOverlap
| AlignmentError
| InvalidTierTransition
| OutOfMemory
| DeviceLeaseNotFound
| DeviceLeaseExpired
| DeviceLeaseConflict
| CheckpointNotFound
| CheckpointCorrupted
| FailureEscalated
| ResourceLimitExceeded
| Unsupported
| InternalError.

#[export] Instance RvmError_eq_dec : EqDecision RvmError.
Proof. solve_decision. Defined.

Notation RvmResult := (result RvmError).

(* ------------------------------------------------------------------ *)
(** ** Identifiers ([ids.rs]) *)

(** [PartitionId(u32)]. *)
Notation PartitionId := Z (only parsing).

Definition HYPERVISOR : PartitionId := 0.
Definition MAX_LOGICAL : Z := 4096.

Definition partition_id_try_new (id : Z) : option PartitionId :=
  if (id =? 0) || (MAX_LOGICAL <? id) then None else Some id.

(** [(self.0 & 0xFF) as u16]. *)
Definition vmid (id : PartitionId) : Z := wrap16 (Z.land id 255).

Definition is_hypervisor (id : PartitionId) : bool := id =? 0.

Record VcpuId : Set := mkVcpuId { vcpu_partition : PartitionId; vcpu_index : Z }.

(* ------------------------------------------------------------------ *)
(** ** Access rights ([capability.rs])

    [CapRights] is declared with the external [bitflags!] macro over [u8].
    What the code uses of the macro are the methods [contains], [difference]
    and [union]; they are an interface here, with the bit-wise meaning the
    crate documents as laws. *)

Notation CapRights := Z (only parsing).

Definition READ : CapRights := 1.
Definition WRITE : CapRights := 2.
Definition GRANT : CapRights := 4.
Definition REVOKE : CapRights := 8.
Definition EXECUTE : CapRights := 16.
Definition PROVE : CapRights := 32.
Definition GRANT_ONCE : CapRights := 64.

Class Bitflags : Set := {
  contains : CapRights → CapRights → bool;
  difference : CapRights → CapRights → CapRights;
}.

Class BitflagsLaws `{!Bitflags} : Prop := {
  contains_spec a b :
    contains a b = true ↔ ∀ i, 0 ≤ i → Z.testbit b i = true → Z.testbit a i = true;
  difference_spec a b i :
    0 ≤ i → Z.testbit (difference a b) i = Z.testbit a i && negb (Z.testbit b i);
}.

(** [CapRights::union] and [CapRights::empty] of the bitflags crate. *)
Class BitflagsUnion : Set := rights_union : CapRights → CapRights → CapRights.
Class BitflagsUnionLaws `{!BitflagsUnion} : Prop :=
  rights_union_spec a b i :
    0 ≤ i → Z.testbit (rights_union a b) i = Z.testbit a i || Z.testbit b i.
Definition RIGHTS_EMPTY : CapRights := 0.

Inductive CapType : Set :=
| CtPartition | CtRegion | CtCommEdge | CtDevice | CtScheduler
| CtWitnessLog | CtProof | CtVcpu | CtCoherence | CtContext.

#[export] Instance CapType_eq_dec : EqDecision CapType.
Proof. solve_decision. Defined.

Record CapToken : Set := mkCapToken {
  tok_id : Z;
  tok_type : CapType;
  tok_rights : CapRights;
  tok_epoch : Z;
}.

#[export] Instance CapToken_eq_dec : EqDecision CapToken.
Proof. solve_decision. Defined.

Definition has_rights `{!Bitflags} (t : CapToken) (required : CapRights) : bool :=
  contains (tok_rights t) required.

(** [h = id as u32; h ^= (id >> 32) as u32; h ^= epoch; h ^= rights << 24]. *)
Definition truncated_hash (t : CapToken) : Z :=
  let h := wrap32 (tok_id t) in
  let h := Z.lxor h (wrap32 (Z.shiftr (tok_id t) 32)) in
  let h := Z.lxor h (tok_epoch t) in
  Z.lxor h (wrap32 (Z.shiftl (tok_rights t) 24)).

Definition MAX_DELEGATION_DEPTH : Z := 8.

(* ------------------------------------------------------------------ *)
(** ** Coherence metrics ([coherence.rs]) *)

Notation CoherenceScore := Z (only parsing).
Notation CutPressure := Z (only parsing).

Definition COHERENCE_MAX : CoherenceScore := 10000.
Definition DEFAULT_THRESHOLD : CoherenceScore := 3000.
Definition DEFAULT_MERGE_THRESHOLD : CoherenceScore := 7000.

Definition from_basis_points (bp : Z) : CoherenceScore :=
  if 10000 <? bp then 10000 else bp.

Definition meets_threshold (s threshold : CoherenceScore) : bool := threshold <=? s.
Definition is_coherent (s : CoherenceScore) : bool := DEFAULT_THRESHOLD <=? s.

Definition PRESSURE_ZERO : CutPressure := 0.
Definition DEFAULT_SPLIT_THRESHOLD : CutPressure := 8000.
Definition exceeds_threshold (p threshold : CutPressure) : bool := threshold <? p.

(* ------------------------------------------------------------------ *)
(** ** Privileged actions ([witness.rs]) *)

Inductive ActionKind : Set :=
| AkPartitionCreate
| AkPartitionDestroy
| AkPartitionSuspend
| AkPartitionResume
| AkPartitionSplit
| AkPartitionMerge
| AkPartitionHibernate
| AkPartitionReconstruct
| AkPartitionMigrate
| AkCapabilityGrant
| AkCapabilityRevoke
| AkCapabilityDelegate
| AkCapabilityEscalate
| AkCapabilityAttenuated
| AkRegionCreate
| AkRegionDestroy
| AkRegionTransfer
| AkRegionShare
| AkRegionUnshare
| AkRegionPromote
| AkRegionDemote
| AkRegionMap
| AkRegionUnmap
| AkCommEdgeCreate
| AkCommEdgeDestroy
| AkIpcSend
| AkIpcReceive
| AkZeroCopyShare
| AkNotificationSignal
| AkDeviceLeaseGrant
| AkDeviceLeaseRevoke
| AkDeviceLeaseExpire
| AkDeviceLeaseRenew
| AkProofVerifiedP1
| AkProofVerifiedP2
| AkProofVerifiedP3
| AkProofRejected
| AkProofEscalated
| AkSchedulerEpoch
| AkSchedulerModeSwitch
| AkTaskSpawn
| AkTaskTerminate
| AkStructuralSplit
| AkStructuralMerge
| AkRecoveryEnter
| AkRecoveryExit
| AkCheckpointCreated
| AkCheckpointRestored
| AkMinCutBudgetExceeded
| AkDegradedModeEntered
| AkDegradedModeExited
| AkBootAttestation
| AkBootComplete
| AkTeeAttestation
| AkVectorPut
| AkVectorDelete
| AkGraphMutation
| AkCoherenceRecomputed
| AkVmidReclaim
| AkMigrationTimeout
| AkAnchorExternalReceipt
| AkContextResolve
| AkContextRead
| AkContextSearch
| AkContextPut
| AkContextAliasUpdate
| AkContextForget
| AkContextExecute
| AkContextEpochSeal.

(** The [repr(u8)] discriminant, [action as u8]. *)
Definition action_code (a : ActionKind) : Z :=
  match a with
  | AkPartitionCreate => 1
  | AkPartitionDestroy => 2
  | AkPartitionSuspend => 3
  | AkPartitionResume => 4
  | AkPartitionSplit => 5
  | AkPartitionMerge => 6
  | AkPartitionHibernate => 7
  | AkPartitionReconstruct => 8
  | AkPartitionMigrate => 9
  | AkCapabilityGrant => 16
  | AkCapabilityRevoke => 17
  | AkCapabilityDelegate => 18
  | AkCapabilityEscalate => 19
  | AkCapabilityAttenuated => 20
  | AkRegionCreate => 32
  | AkRegionDestroy => 33
  | AkRegionTransfer => 34
  | AkRegionShare => 35
  | AkRegionUnshare => 36
  | AkRegionPromote => 37
  | AkRegionDemote => 38
  | AkRegionMap => 39
  | AkRegionUnmap => 40
  | AkCommEdgeCreate => 48
  | AkCommEdgeDestroy => 49
  | AkIpcSend => 50
  | AkIpcReceive => 51
  | AkZeroCopyShare => 52
  | AkNotificationSignal => 53
  | AkDeviceLeaseGrant => 64
  | AkDeviceLeaseRevoke => 65
  | AkDeviceLeaseExpire => 66
  | AkDeviceLeaseRenew => 67
  | AkProofVerifiedP1 => 80
  | AkProofVerifiedP2 => 81
  | AkProofVerifiedP3 => 82
  | AkProofRejected => 83
  | AkProofEscalated => 84
  | AkSchedulerEpoch => 96
  | AkSchedulerModeSwitch => 97
  | AkTaskSpawn => 98
  | AkTaskTerminate => 99
  | AkStructuralSplit => 100
  | AkStructuralMerge => 101
  | AkRecoveryEnter => 112
  | AkRecoveryExit => 113
  | AkCheckpointCreated => 114
  | AkCheckpointRestored => 115
  | AkMinCutBudgetExceeded => 116
  | AkDegradedModeEntered => 117
  | AkDegradedModeExited => 118
  | AkBootAttestation => 128
  | AkBootComplete => 129
  | AkTeeAttestation => 130
  | AkVectorPut => 144
  | AkVectorDelete => 145
  | AkGraphMutation => 146
  | AkCoherenceRecomputed => 147
  | AkVmidReclaim => 160
  | AkMigrationTimeout => 161
  | AkAnchorExternalReceipt => 176
  | AkContextResolve => 192
  | AkContextRead => 193
  | AkContextSearch => 194
  | AkContextPut => 195
  | AkContextAliasUpdate => 196
  | AkContextForget => 197
  | AkContextExecute => 198
  | AkContextEpochSeal => 199
  end.

(** [(self as u8) >> 4]. *)
Definition subsystem (a : ActionKind) : Z := Z.shiftr (action_code a) 4.

(* ------------------------------------------------------------------ *)
(** ** Witness records ([witness.rs]) *)

Record WitnessRecord : Set := mkWitnessRecord {
  wr_sequence : Z;
  wr_timestamp_ns : Z;
  wr_action_kind : Z;
  wr_proof_tier : Z;
  wr_flags : Z;
  wr_reserved : Z;
  wr_actor_partition_id : Z;
  wr_target_object_id : Z;
  wr_capability_hash : Z;
  wr_payload : list Z;
  wr_prev_hash : Z;
  wr_record_hash : Z;
  wr_aux : list Z;
  wr_pad : list Z;
}.

Definition record_zeroed : WitnessRecord :=
  mkWitnessRecord 0 0 0 0 0 0 0 0 0 (replicate 8 0) 0 0 (replicate 8 0) (replicate 4 0).

(** [WitnessHash { bytes: [u8; 32] }]. *)
Record WitnessHash : Set := mkWitnessHash { wh_bytes : list Z }.

Definition WITNESS_HASH_ZERO : WitnessHash := mkWitnessHash (replicate 32 0).

(** The loop [while i < 32 { if bytes[i] != 0 { return false } .. }]. *)
Fixpoint all_zero (bs : list Z) : bool :=
  match bs with
  | [] => true
  | b :: bs => if b =? 0 then all_zero bs else false
  end.
Definition witness_hash_is_zero (h : WitnessHash) : bool := all_zero (wh_bytes h).

(* ------------------------------------------------------------------ *)
(** ** FNV-1a ([witness.rs]) *)

Definition FNV_OFFSET : Z := 14695981039346656037.
Definition FNV_PRIME : Z := 1099511628211.

(** [hash ^= byte; hash = hash.wrapping_mul(FNV_PRIME)]. *)
Definition fnv_step (hash b : Z) : Z := wrap64 (Z.lxor hash b * FNV_PRIME).

(** The trailing loop, one byte at a time. *)
Fixpoint fnv_tail (hash : Z) (data : list Z) : Z :=
  match data with
  | [] => hash
  | b :: data => fnv_tail (fnv_step hash b) data
  end.

(** The unrolled loop: while eight bytes remain, consume them in one round. *)
Fixpoint fnv_unrolled (hash : Z) (data : list Z) : Z :=
  match data with
  | b0 :: b1 :: b2 :: b3 :: b4 :: b5 :: b6 :: b7 :: rest =>
      let hash := fnv_step hash b0 in
      let hash := fnv_step hash b1 in
      let hash := fnv_step hash b2 in
      let hash := fnv_step hash b3 in
      let hash := fnv_step hash b4 in
      let hash := fnv_step hash b5 in
      let hash := fnv_step hash b6 in
      let hash := fnv_step hash b7 in
      fnv_unrolled hash rest
  | _ => fnv_tail hash data
  end.

Definition fnv1a_64 (data : list Z) : Z := fnv_unrolled FNV_OFFSET data.

(** [fnv1a_64(data) as u32]. *)
Definition fnv1a_32 (data : list Z) : Z := wrap32 (fnv1a_64 data).

(** The reference FNV-1a: a left fold of the step over the bytes. *)
Definition fnv1a_spec (data : list Z) : Z := foldl fnv_step FNV_OFFSET data.

(* ------------------------------------------------------------------ *)
(** ** The standard meaning of the flags interface *)

#[export] Instance bitflags_u8 : Bitflags := {
  contains a b := Z.land a b =? b;
  difference a b := Z.ldiff a b;
}.

#[export] Instance bitflags_u8_laws : @BitflagsLaws bitflags_u8.
Proof.
  split; intros; cbn [contains difference bitflags_u8].
  - rewrite Z.eqb_eq. split.
    + intros H i _ Hb. rewrite <- H, Z.land_spec in Hb.
      by apply andb_true_iff in Hb as [].
    + intros H. apply Z.bits_inj'. intros n Hn. rewrite Z.land_spec.
      destruct (Z.testbit b n) eqn:E; [by rewrite (H n Hn E)|by rewrite andb_false_r].
  - by apply Z.ldiff_spec.
Qed.

Section rights.
Context {BF : Bitflags} {BL : BitflagsLaws}.

Lemma contains_refl a : contains a a = true.
Proof. by rewrite contains_spec. Qed.

Lemma contains_trans a b c :
  contains a b = true → contains b c = true → contains a c = true.
Proof. rewrite !contains_spec. eauto. Qed.

(** Removing a flag gives a subset. *)
Lemma contains_difference a b : contains a (difference a b) = true.
Proof.
  apply contains_spec. intros i Hi. rewrite difference_spec by done.
  by intros [? _]%andb_true_iff.
Qed.

(** A single flag [2 ^ k] is held exactly when bit [k] is set. *)
Lemma contains_flag a k : 0 ≤ k → contains a (2 ^ k) = Z.testbit a k.
Proof.
  intros Hk. apply eq_iff_eq_true. rewrite contains_spec. split.
  - intros H. apply H; [done|]. by rewrite Z.pow2_bits_true.
  - intros H i Hi Hb. destruct (decide (i = k)) as [->|]; [done|].
    by rewrite Z.pow2_bits_false in Hb.
Qed.

Lemma difference_flag a k : 0 ≤ k → contains (difference a (2 ^ k)) (2 ^ k) = false.
Proof.
  intros Hk. rewrite contains_flag, difference_spec, Z.pow2_bits_true by done.
  by rewrite andb_false_r.
Qed.

Lemma difference_other a k j :
  0 ≤ k → 0 ≤ j → j ≠ k → contains (difference a (2 ^ k)) (2 ^ j) = contains a (2 ^ j).
Proof.
  intros. rewrite !contains_flag, difference_spec, Z.pow2_bits_false by done.
  by rewrite andb_true_r.
Qed.
End rights.

#[export] Hint Resolve contains_refl contains_difference : rvm.

(* ------------------------------------------------------------------ *)
(** ** Facts *)

Lemma fnv_tail_foldl hash data : fnv_tail hash data = foldl fnv_step hash data.
Proof. revert hash. induction data; intros; simpl; auto. Qed.

Lemma fnv_unrolled_foldl n data hash :
  (length data ≤ n)%nat → fnv_unrolled hash data = foldl fnv_step hash data.
Proof.
  revert data hash. induction (lt_wf n) as [m _ IH]. intros data hash Hn.
  do 8 (destruct data as [|? data]; [by rewrite <- fnv_tail_foldl|]).
  simpl in Hn. simpl. by rewrite (IH (length data)) by lia.
Qed.

Lemma fnv_step_range hash b : is_u64 (fnv_step hash b).
Proof. apply wrap64_range. Qed.

Lemma fnv_foldl_range hash data : is_u64 hash → is_u64 (foldl fnv_step hash data).
Proof.
  revert hash. induction data; intros; simpl; [done|].
  apply IHdata, fnv_step_range.
Qed.

(** The eight-way unrolled [fnv1a_64] computes the standard byte-at-a-time
    FNV-1a hash on every input, and the result fits a [u64]. *)
Theorem fnv1a_64_refines_spec data :
  fnv1a_64 data = fnv1a_spec data ∧ is_u64 (fnv1a_64 data).
Proof.
  assert (fnv1a_64 data = fnv1a_spec data) as -> by by eapply fnv_unrolled_foldl.
  split; [done|]. by apply fnv_foldl_range.
Qed.

Lemma all_zero_spec bs : all_zero bs = true ↔ Forall (λ b, b = 0) bs.
Proof.
  induction bs as [|b bs IH]; simpl; [by split|].
  rewrite Forall_cons, <- IH. destruct (b =? 0) eqn:E; split_bool; naive_solver.
Qed.

(** The audit code of a privileged action identifies it, fits a [u8] and
    carries its subsystem in the high nibble, so a filter on [code >> 4]
    selects exactly the actions of a subsystem. *)
Theorem action_code_faithful (a b : ActionKind) :
  (action_code a = action_code b → a = b) ∧
  is_u8 (action_code a) ∧
  0 ≤ action_code a - 16 * subsystem a < 16.
Proof.
  split; [|by destruct a; vm_compute].
  destruct a; destruct b; vm_compute; intros [=]; done.
Qed.

Lemma from_basis_points_range bp : 0 ≤ bp → 0 ≤ from_basis_points bp ≤ COHERENCE_MAX.
Proof.
  unfold from_basis_points, COHERENCE_MAX. intros.
  destruct (10000 <? bp) eqn:E; split_bool; lia.
Qed.

Lemma vmid_mod id : vmid id = id mod 256.
Proof.
  unfold vmid, wrap16. change 255 with (Z.ones 8). rewrite Z.land_ones by lia.
  change (2 ^ 8) with 256. apply Z.mod_small. pose proof (Z.mod_pos_bound id 256). lia.
Qed.

(** Two logical partition identifiers accepted by [try_new] share a
    hardware VMID exactly when they agree modulo 256; in particular some
    accepted identifiers carry VMID 0, the one reserved for the hypervisor. *)
Theorem vmid_multiplexing id1 id2 :
  (vmid id1 = vmid id2 ↔ (id1 - id2) mod 256 = 0) ∧
  (∃ id, partition_id_try_new id = Some id ∧ is_hypervisor id = false ∧
         vmid id = vmid HYPERVISOR).
Proof.
  rewrite !vmid_mod. split.
  - rewrite Zminus_mod. pose proof (Z.mod_pos_bound id1 256).
    pose proof (Z.mod_pos_bound id2 256). split.
    + intros ->. by rewrite Z.sub_diag.
    + intros Hd. apply Z.mod_divide in Hd as [q Hq]; [|lia]. lia.
  - by exists 256.
Qed.
