(* ===== verification/CapTable.v ===== *)
(** The per-partition capability table, [crates/rvm-cap/src/table.rs], with
    the errors of [crates/rvm-cap/src/error.rs].

    A table is an array of slots with generation counters.  A handle is an
    (index, generation) pair; generation 0 marks a free slot, which keeps the
    generation of its next occupant in [parent_index].  The capacity [N] of
    the array is its length. *)

From stdpp Require Import base numbers list option sets gmap.
From Stdlib Require Import ZArith Lia.
From S2P Require Import Prelude.
From S2P Require Import Types.

(* ------------------------------------------------------------------ *)
(** ** Errors *)

Inductive CapError : Set :=
| CeInvalidHandle | CeStaleHandle | CeTableFull | CeRevoked
| CeDelegationDepthExceeded | CeGrantNotPermitted | CeRightsEscalation
| CeTreeFull | CeTypeMismatch | CeConsumed.

#[export] Instance CapError_eq_dec : EqDecision CapError.
Proof. solve_decision. Defined.

Notation CapResult := (result CapError).

(** [impl From<CapError> for RvmError]. *)
Definition rvm_of_cap_error (e : CapError) : RvmError :=
  match e with
  | CeInvalidHandle | CeGrantNotPermitted | CeRightsEscalation => InsufficientCapability
  | CeStaleHandle | CeRevoked => StaleCapability
  | CeTableFull | CeTreeFull => ResourceLimitExceeded
  | CeDelegationDepthExceeded => DelegationDepthExceeded
  | CeTypeMismatch => CapabilityTypeMismatch
  | CeConsumed => CapabilityConsumed
  end.

Inductive ProofError : Set :=
| PeInvalidHandle | PeStaleCapability | PeInsufficientRights
| PePolicyViolation | PeP3NotImplemented | PeDerivationChainBroken.

#[export] Instance ProofError_eq_dec : EqDecision ProofError.
Proof. solve_decision. Defined.

(** [impl From<ProofError> for RvmError]. *)
Definition rvm_of_proof_error (e : ProofError) : RvmError :=
  match e with
  | PeInvalidHandle | PeInsufficientRights => InsufficientCapability
  | PeStaleCapability => StaleCapability
  | PePolicyViolation | PeDerivationChainBroken => ProofInvalid
  | PeP3NotImplemented => Unsupported
  end.

(* ------------------------------------------------------------------ *)
(** ** Slots *)

Record CapSlot : Set := mkCapSlot {
  sl_token : CapToken;
  sl_generation : Z;
  sl_owner : PartitionId;
  sl_depth : Z;
  sl_parent_index : Z;
  sl_badge : Z;
}.

#[export] Instance CapSlot_eq_dec : EqDecision CapSlot.
Proof. solve_decision. Defined.

Definition slot_empty : CapSlot :=
  mkCapSlot (mkCapToken 0 CtRegion 0 0) 0 0 0 u32_max 0.

Definition slot_is_valid (s : CapSlot) : bool := negb (sl_generation s =? 0).

Definition slot_matches (s : CapSlot) (generation : Z) : bool :=
  slot_is_valid s && (sl_generation s =? generation).

(** The next generation, skipping the free sentinel, is stashed in
    [parent_index]; the slot becomes free. *)
Definition slot_invalidate (s : CapSlot) : CapSlot :=
  let next_gen := wrap32 (sl_generation s + 1) in
  let safe_gen := if next_gen =? 0 then 1 else next_gen in
  mkCapSlot (sl_token s) 0 (sl_owner s) (sl_depth s) safe_gen (sl_badge s).

Definition slot_next_generation (s : CapSlot) : Z :=
  if negb (sl_generation s =? 0) then sl_generation s
  else if sl_parent_index s =? u32_max then 1
  else sl_parent_index s.

(* ------------------------------------------------------------------ *)
(** ** The table *)

Record CapabilityTable : Set := mkCapabilityTable {
  tb_slots : list CapSlot;
  tb_count : nat;
  tb_free_hint : nat;
}.

Definition table_new (N : nat) : CapabilityTable :=
  mkCapabilityTable (replicate N slot_empty) 0 0.

Definition table_capacity (t : CapabilityTable) : nat := length (tb_slots t).
Definition table_len (t : CapabilityTable) : nat := tb_count t.
Definition table_is_empty (t : CapabilityTable) : bool := (tb_count t =? 0)%nat.
Definition table_is_full (t : CapabilityTable) : bool :=
  (table_capacity t <=? tb_count t)%nat.

Definition slot_free (s : CapSlot) : bool := negb (slot_is_valid s).

(** The two [for] loops over [free_hint..N] and [0..free_hint]; a hit moves
    the hint past it. *)
Definition find_free_slot : prog CapabilityTable CapError nat := λ t,
  match position slot_free (drop (tb_free_hint t) (tb_slots t)) with
  | Some k =>
      let i := (tb_free_hint t + k)%nat in
      (Ok i, mkCapabilityTable (tb_slots t) (tb_count t) (i + 1))
  | None =>
      match position slot_free (take (tb_free_hint t) (tb_slots t)) with
      | Some i => (Ok i, mkCapabilityTable (tb_slots t) (tb_count t) (i + 1))
      | None => (Err CeTableFull, t)
      end
  end.

Definition set_slot (index : nat) (s : CapSlot) (t : CapabilityTable) : CapabilityTable :=
  mkCapabilityTable (<[index:=s]> (tb_slots t)) (tb_count t) (tb_free_hint t).

Open Scope rvm_scope.

Definition insert_derived (token : CapToken) (owner : PartitionId) (depth : Z)
    (parent_index : Z) (badge : Z) : prog CapabilityTable CapError (Z * Z) :=
  let? index := find_free_slot in
  let? generation := pgets (λ t,
    match tb_slots t !! index with Some s => slot_next_generation s | None => 0 end) in
  pmodify (set_slot index (mkCapSlot token generation owner depth parent_index badge)) ;;;
  pmodify (λ t, mkCapabilityTable (tb_slots t) (tb_count t + 1) (tb_free_hint t)) ;;;
  pret (wrap32 (Z.of_nat index), generation).

Definition insert_root (token : CapToken) (owner : PartitionId) (badge : Z)
    : prog CapabilityTable CapError (Z * Z) :=
  let? index := find_free_slot in
  let? generation := pgets (λ t,
    match tb_slots t !! index with Some s => slot_next_generation s | None => 0 end) in
  pmodify (set_slot index (mkCapSlot token generation owner 0 u32_max badge)) ;;;
  pmodify (λ t, mkCapabilityTable (tb_slots t) (tb_count t + 1) (tb_free_hint t)) ;;;
  pret (wrap32 (Z.of_nat index), generation).

(** An index at or beyond [N] has no slot. *)
Definition table_lookup (t : CapabilityTable) (index generation : Z) : CapResult CapSlot :=
  match get_at (tb_slots t) index with
  | None => Err CeInvalidHandle
  | Some slot =>
      if negb (slot_is_valid slot) then Err CeInvalidHandle
      else if negb (sl_generation slot =? generation) then Err CeStaleHandle
      else Ok slot
  end.

(** [lookup_mut]: on success the caller writes through the returned borrow. *)
Definition lookup_mut (index generation : Z) (f : CapSlot → CapSlot)
    : prog CapabilityTable CapError unit := λ t,
  match table_lookup t index generation with
  | Err e => (Err e, t)
  | Ok slot => (Ok tt, set_slot (Z.to_nat index) (f slot) t)
  end.

(** Invalidate the slot, decrement the count, lower the hint. *)
Definition release_slot (idx : nat) (slot : CapSlot) (t : CapabilityTable) : CapabilityTable :=
  mkCapabilityTable (<[idx:=slot_invalidate slot]> (tb_slots t)) (tb_count t - 1)
    (if (idx <? tb_free_hint t)%nat then idx else tb_free_hint t).

Definition table_remove (index generation : Z) : prog CapabilityTable CapError unit := λ t,
  match get_at (tb_slots t) index with
  | None => (Err CeInvalidHandle, t)
  | Some slot =>
      if negb (slot_is_valid slot) then (Err CeInvalidHandle, t)
      else if negb (sl_generation slot =? generation) then (Err CeStaleHandle, t)
      else (Ok tt, release_slot (Z.to_nat index) slot t)
  end.

Definition force_invalidate (index : Z) (t : CapabilityTable) : CapabilityTable :=
  match get_at (tb_slots t) index with
  | None => t
  | Some slot =>
      if slot_is_valid slot then release_slot (Z.to_nat index) slot t else t
  end.

(** [iter()]: the valid entries with their indices. *)
Definition table_iter (t : CapabilityTable) : list (Z * CapSlot) :=
  (λ p, (wrap32 (Z.of_nat p.1), p.2)) <$>
    filter (λ p, slot_is_valid p.2 = true) (imap (λ i s, (i, s)) (tb_slots t)).

(* ------------------------------------------------------------------ *)
(** ** Histories of table operations *)

Inductive table_op : Set :=
| TopInsert (token : CapToken) (owner depth parent_index badge : Z)
| TopRemove (index generation : Z)
| TopForce (index : Z).

Definition run_op (op : table_op) (t : CapabilityTable) : CapabilityTable :=
  match op with
  | TopInsert token owner depth parent badge =>
      (insert_derived token owner depth parent badge t).2
  | TopRemove index generation => (table_remove index generation t).2
  | TopForce index => force_invalidate index t
  end.

Definition run_ops (ops : list table_op) (t : CapabilityTable) : CapabilityTable :=
  foldl (λ t op, run_op op t) t ops.

(* ------------------------------------------------------------------ *)
(** ** The table invariant *)

(** Generations are [u32]; a free slot remembers a non-zero next generation. *)
Definition slot_wf (s : CapSlot) : Prop :=
  is_u32 (sl_generation s) ∧
  (sl_generation s = 0 → 1 ≤ sl_parent_index s ≤ u32_max).

Record table_inv (t : CapabilityTable) : Prop := {
  ti_count : tb_count t = count_by slot_is_valid (tb_slots t);
  ti_hint : (tb_free_hint t ≤ length (tb_slots t))%nat;
  ti_slots : ∀ i s, tb_slots t !! i = Some s → slot_wf s;
  ti_capacity : Z.of_nat (length (tb_slots t)) ≤ u32_max;
}.

(** The generation of the current occupant of a slot, or of its next one. *)
Definition slot_stamp (s : CapSlot) : Z := slot_next_generation s.

(* ------------------------------------------------------------------ *)
(** ** Slots *)

Lemma slot_is_valid_true s : slot_is_valid s = true ↔ sl_generation s ≠ 0.
Proof. unfold slot_is_valid. rewrite negb_true_iff, Z.eqb_neq. done. Qed.

Lemma slot_is_valid_false s : slot_is_valid s = false ↔ sl_generation s = 0.
Proof. unfold slot_is_valid. rewrite negb_false_iff, Z.eqb_eq. done. Qed.

Lemma slot_free_valid s : slot_free s = true ↔ slot_is_valid s = false.
Proof. unfold slot_free. by rewrite negb_true_iff. Qed.

Lemma slot_invalidate_free s : slot_is_valid (slot_invalidate s) = false.
Proof. done. Qed.

Lemma slot_wf_empty : slot_wf slot_empty.
Proof. split; vm_compute; naive_solver. Qed.

Lemma slot_wf_invalidate s : slot_wf (slot_invalidate s).
Proof.
  split; [by vm_compute|]. intros _. cbn [sl_parent_index slot_invalidate].
  pose proof (wrap32_range (sl_generation s + 1)) as H. unfold is_u32 in H.
  destruct (_ =? 0) eqn:E; split_bool; unfold u32_max in *; lia.
Qed.

Lemma slot_next_generation_range s : slot_wf s → 1 ≤ slot_next_generation s ≤ u32_max.
Proof.
  unfold slot_wf, slot_next_generation, is_u32, u32_max. intros [Hg Hp].
  destruct (sl_generation s =? 0) eqn:E; simpl; split_bool; [|lia].
  specialize (Hp E). destruct (_ =? 4294967295) eqn:E2; lia.
Qed.

Lemma slot_stamp_valid s : slot_is_valid s = true → slot_stamp s = sl_generation s.
Proof.
  unfold slot_stamp, slot_next_generation, slot_is_valid. by intros ->.
Qed.

(** Freeing a slot moves its stamp one generation up; at the top of the
    counter it restarts from 1. *)
Lemma slot_stamp_invalidate s :
  slot_is_valid s = true → is_u32 (sl_generation s) →
  slot_stamp (slot_invalidate s) =
    (if sl_generation s + 1 <? u32_max then sl_generation s + 1 else 1).
Proof.
  rewrite slot_is_valid_true. unfold is_u32, u32_max. intros Hne Hr.
  unfold slot_stamp, slot_next_generation, slot_invalidate, wrap32, u32_max.
  cbn [sl_generation sl_parent_index].
  destruct (decide (sl_generation s = 4294967295)) as [->|]; [done|].
  rewrite Z.mod_small by lia.
  destruct (sl_generation s + 1 =? 0) eqn:E1; split_bool; [lia|]. simpl.
  destruct (_ =? 4294967295) eqn:E2, (_ <? 4294967295) eqn:E3; split_bool; lia.
Qed.

#[export] Hint Resolve slot_wf_empty slot_wf_invalidate : rvm.

(* ------------------------------------------------------------------ *)
(** ** The free-slot search *)

(** A successful search returns a free slot and changes only the hint; it
    fails exactly when every slot is taken. *)
Lemma find_free_slot_spec t :
  (tb_free_hint t ≤ length (tb_slots t))%nat →
  match find_free_slot t with
  | (Ok i, t') =>
      ∃ s, tb_slots t !! i = Some s ∧ slot_is_valid s = false ∧
           t' = mkCapabilityTable (tb_slots t) (tb_count t) (i + 1)
  | (Err e, t') =>
      e = CeTableFull ∧ t' = t ∧ ∀ i s, tb_slots t !! i = Some s → slot_is_valid s = true
  end.
Proof.
  intros Hh. unfold find_free_slot.
  destruct (position slot_free (drop _ _)) as [k|] eqn:E1.
  { apply position_lookup in E1 as (s & Hs & Hf). rewrite lookup_drop in Hs.
    exists s. by rewrite <- slot_free_valid. }
  destruct (position slot_free (take _ _)) as [k|] eqn:E2.
  { apply position_lookup in E2 as (s & Hs & Hf).
    apply lookup_take_Some in Hs as [Hs _]. exists s. by rewrite <- slot_free_valid. }
  split_and!; [done..|]. intros i s Hs. apply negb_false_iff. fold (slot_free s).
  destruct (decide (i < tb_free_hint t)%nat).
  - rewrite position_None in E2. apply (E2 i). by rewrite lookup_take_lt.
  - rewrite position_None in E1. apply (E1 (i - tb_free_hint t)%nat).
    rewrite lookup_drop. by replace (tb_free_hint t + _)%nat with i by lia.
Qed.

(** Insertion, unfolded once and for all. *)
Lemma insert_derived_spec token owner depth parent badge t :
  (tb_free_hint t ≤ length (tb_slots t))%nat →
  match insert_derived token owner depth parent badge t with
  | (Ok (idx, g), t') =>
      ∃ i s, tb_slots t !! i = Some s ∧ slot_is_valid s = false ∧
        idx = wrap32 (Z.of_nat i) ∧ g = slot_next_generation s ∧
        t' = mkCapabilityTable
               (<[i := mkCapSlot token g owner depth parent badge]> (tb_slots t))
               (tb_count t + 1) (i + 1)
  | (Err e, t') =>
      e = CeTableFull ∧ t' = t ∧ ∀ i s, tb_slots t !! i = Some s → slot_is_valid s = true
  end.
Proof.
  intros Hh. pose proof (find_free_slot_spec t Hh) as H.
  unfold insert_derived, pbind. destruct (find_free_slot t) as [[i|e] t']; [|done].
  destruct H as (s & Hs & Hf & ->). cbn. rewrite Hs. by exists i, s.
Qed.

Lemma insert_root_derived token owner badge :
  insert_root token owner badge = insert_derived token owner 0 u32_max badge.
Proof. done. Qed.

(** Handles returned by the table are in range. *)
Lemma table_index_small t i s :
  table_inv t → tb_slots t !! i = Some s → Z.to_nat (wrap32 (Z.of_nat i)) = i.
Proof.
  intros Hi Hs. apply lookup_lt_Some in Hs. pose proof (ti_capacity t Hi).
  rewrite wrap32_id; [by rewrite Nat2Z.id|]. unfold is_u32. lia.
Qed.

(* ------------------------------------------------------------------ *)
(** ** Preservation of the invariant *)

Lemma table_new_inv N : Z.of_nat N ≤ u32_max → table_inv (table_new N).
Proof.
  intros HN. split; cbn.
  - by rewrite count_by_replicate.
  - lia.
  - intros i s [-> _]%lookup_replicate. apply slot_wf_empty.
  - by rewrite length_replicate.
Qed.

(** Filling a free slot. *)
Lemma table_inv_fill t i s s' h :
  table_inv t → tb_slots t !! i = Some s → slot_is_valid s = false →
  slot_is_valid s' = true → slot_wf s' → (h ≤ length (tb_slots t))%nat →
  table_inv (mkCapabilityTable (<[i:=s']> (tb_slots t)) (tb_count t + 1) h).
Proof.
  intros Hi Hs Hf Hv Hwf Hh. split; cbn; rewrite ?length_insert.
  - pose proof (count_by_insert slot_is_valid _ i s s' Hs) as Hc.
    rewrite Hf, Hv in Hc. rewrite (ti_count t Hi). lia.
  - done.
  - intros j s0 [(-> & <- & _)|(? & Hj)]%list_lookup_insert_Some; [done|].
    by eapply ti_slots.
  - by apply ti_capacity.
Qed.

Lemma table_inv_release t i s :
  table_inv t → tb_slots t !! i = Some s → slot_is_valid s = true →
  table_inv (release_slot i s t).
Proof.
  intros Hi Hs Hv. unfold release_slot. split; cbn; rewrite ?length_insert.
  - pose proof (count_by_insert slot_is_valid _ i s (slot_invalidate s) Hs) as Hc.
    rewrite Hv, slot_invalidate_free in Hc. rewrite (ti_count t Hi). lia.
  - pose proof (ti_hint t Hi). apply lookup_lt_Some in Hs. case_match; lia.
  - intros j s0 [(-> & <- & _)|(? & Hj)]%list_lookup_insert_Some;
      [apply slot_wf_invalidate|]. by eapply ti_slots.
  - by apply ti_capacity.
Qed.

(** The decrement [count -= 1] never underflows. *)
Lemma release_count_pos t i s :
  table_inv t → tb_slots t !! i = Some s → slot_is_valid s = true → (0 < tb_count t)%nat.
Proof. intros Hi Hs Hv. rewrite (ti_count t Hi). by eapply count_by_pos. Qed.

Lemma insert_derived_inv token owner depth parent badge t :
  table_inv t → table_inv (insert_derived token owner depth parent badge t).2.
Proof.
  intros Hi. pose proof (insert_derived_spec token owner depth parent badge t (ti_hint t Hi)) as H.
  destruct (insert_derived _ _ _ _ _ t) as [[[idx g]|e] t']; cbn.
  - destruct H as (i & s & Hs & Hf & -> & -> & ->).
    pose proof (ti_slots t Hi i s Hs) as Hwf.
    pose proof (slot_next_generation_range s Hwf).
    eapply table_inv_fill; try done.
    + apply slot_is_valid_true. cbn. lia.
    + split; cbn; unfold is_u32, u32_max in *; lia.
    + apply lookup_lt_Some in Hs. lia.
  - by destruct H as (_ & -> & _).
Qed.

Lemma force_invalidate_inv index t : table_inv t → table_inv (force_invalidate index t).
Proof.
  intros Hi. unfold force_invalidate. rewrite ?get_at_eq. destruct (tb_slots t !! _) as [s|] eqn:Hs; [|done].
  destruct (slot_is_valid s) eqn:Hv; [|done]. by apply table_inv_release.
Qed.

(** [remove] is the guarded form of [force_invalidate]. *)
Lemma table_remove_spec index generation t :
  table_remove index generation t =
    match table_lookup t index generation with
    | Ok _ => (Ok tt, force_invalidate index t)
    | Err e => (Err e, t)
    end.
Proof.
  unfold table_remove, table_lookup, force_invalidate. rewrite ?get_at_eq.
  destruct (tb_slots t !! _) as [s|]; [|done].
  destruct (slot_is_valid s) eqn:Hv; cbn; [|done].
  by destruct (sl_generation s =? generation).
Qed.

Lemma table_remove_inv index generation t :
  table_inv t → table_inv (table_remove index generation t).2.
Proof.
  intros Hi. rewrite table_remove_spec. destruct (table_lookup _ _ _); cbn; [|done].
  by apply force_invalidate_inv.
Qed.

#[export] Hint Resolve insert_derived_inv force_invalidate_inv table_remove_inv : rvm.

Lemma run_op_inv op t : table_inv t → table_inv (run_op op t).
Proof. destruct op; simpl; auto with rvm. Qed.

(** Every history of insertions, removals and forced invalidations from
    the empty table keeps the table consistent: the entry count is the number
    of live slots, the search hint stays in range, and every free slot holds a
    usable next generation. *)
Theorem table_history_inv N ops :
  Z.of_nat N ≤ u32_max → table_inv (run_ops ops (table_new N)).
Proof.
  intros HN. assert (table_inv (table_new N)) as H by by apply table_new_inv.
  revert H. generalize (table_new N). unfold run_ops.
  induction ops as [|op ops IH]; intros t Ht; simpl; [done|]. by apply IH, run_op_inv.
Qed.

Lemma table_history_inv_witness :
  Z.of_nat 2 ≤ u32_max ∧
  table_inv (run_ops [TopInsert (mkCapToken 1 CtRegion 3 0) 7 0 u32_max 5; TopRemove 0 1;
                      TopInsert (mkCapToken 2 CtRegion 1 0) 7 0 u32_max 5; TopForce 0] (table_new 2)).
Proof. split; [by vm_compute|]. apply table_history_inv. by vm_compute. Defined.

(* ------------------------------------------------------------------ *)
(** ** Lookup *)

Lemma table_lookup_Ok t index generation s :
  table_lookup t index generation = Ok s ↔
  tb_slots t !! Z.to_nat index = Some s ∧ slot_is_valid s = true ∧
  sl_generation s = generation.
Proof.
  unfold table_lookup. rewrite ?get_at_eq. destruct (tb_slots t !! _) as [s'|]; [|naive_solver].
  destruct (slot_is_valid s') eqn:Hv; cbn.
  - destruct (sl_generation s' =? generation) eqn:E; cbn; split_bool; naive_solver.
  - split; [done|]. intros ([= ->] & Hv' & _). congruence.
Qed.

(** Inserting fails exactly when the table is full, leaving it untouched;
    otherwise the returned handle resolves to the stored capability, no other
    handle changes its meaning, and the count grows by one. *)
Theorem insert_derived_functional token owner depth parent badge t :
  table_inv t →
  match insert_derived token owner depth parent badge t with
  | (Ok (index, generation), t') =>
      table_is_full t = false ∧ table_len t' = (table_len t + 1)%nat ∧
      table_lookup t' index generation =
        Ok (mkCapSlot token generation owner depth parent badge) ∧
      (∀ g, is_ok (table_lookup t index g) = false) ∧
      (∀ j g, Z.to_nat j ≠ Z.to_nat index → table_lookup t' j g = table_lookup t j g)
  | (Err e, t') => e = CeTableFull ∧ t' = t ∧ table_is_full t = true
  end.
Proof.
  intros Hi. pose proof (insert_derived_spec token owner depth parent badge t (ti_hint t Hi)) as H.
  destruct (insert_derived _ _ _ _ _ t) as [[[idx g]|e] t'].
  - destruct H as (i & s & Hs & Hf & -> & -> & ->).
    pose proof (table_index_small t i s Hi Hs) as Hidx.
    pose proof (slot_next_generation_range s (ti_slots t Hi i s Hs)).
    pose proof (lookup_lt_Some _ _ _ Hs) as Hlt.
    split_and!.
    + unfold table_is_full, table_capacity. rewrite (ti_count t Hi).
      apply Nat.leb_gt. destruct (decide (count_by slot_is_valid (tb_slots t) < length (tb_slots t))%nat);
        [done|].
      exfalso. pose proof (count_by_insert slot_is_valid _ i s slot_empty Hs) as Hc.
      pose proof (count_by_insert slot_is_valid _ i s
        (mkCapSlot token 1 owner depth parent badge) Hs) as Hc2.
      rewrite Hf in Hc2. simpl in Hc2.
      pose proof (count_by_le slot_is_valid (<[i:=mkCapSlot token 1 owner depth parent badge]> (tb_slots t))) as Hle.
      rewrite length_insert in Hle. lia.
    + done.
    + apply table_lookup_Ok. rewrite Hidx. cbn. rewrite list_lookup_insert_eq by done.
      split_and!; [done| |done]. apply slot_is_valid_true. cbn. lia.
    + intros g. unfold table_lookup. rewrite ?get_at_eq. by rewrite Hidx, Hs, Hf.
    + intros j g Hj. unfold table_lookup. rewrite ?get_at_eq. cbn. rewrite Hidx in Hj.
      by rewrite list_lookup_insert_ne by done.
  - destruct H as (-> & -> & Hall). split_and!; [done..|].
    unfold table_is_full, table_capacity. rewrite (ti_count t Hi).
    rewrite count_by_full by done. apply Nat.leb_refl.
Qed.

Lemma insert_derived_functional_witness :
  let tok := mkCapToken 1 CtRegion 3 0 in
  let t' := (insert_derived tok 7 0 u32_max 5 (table_new 2)).2 in
  table_inv (table_new 2) ∧ table_len t' = 1%nat ∧
  table_lookup t' 0 1 = Ok (mkCapSlot tok 1 7 0 u32_max 5).
Proof.
  intros tok t'. assert (table_inv (table_new 2)) as Hi by by apply table_new_inv.
  pose proof (insert_derived_functional tok 7 0 u32_max 5 _ Hi) as H. hnf in H.
  destruct H as (_ & Hlen & Hlook & _). split; [exact Hi|]. split; [exact Hlen|exact Hlook].
Defined.

(** [remove] refuses bad handles without touching the table, and on
    success frees exactly the named slot: its handle is dead, every other
    handle keeps its meaning. *)
Theorem table_remove_functional index generation t :
  table_inv t →
  match table_remove index generation t with
  | (Ok _, t') =>
      is_ok (table_lookup t index generation) = true ∧
      (table_len t' + 1 = table_len t)%nat ∧
      (∀ g, table_lookup t' index g = Err CeInvalidHandle) ∧
      (∀ j g, Z.to_nat j ≠ Z.to_nat index → table_lookup t' j g = table_lookup t j g)
  | (Err e, t') => table_lookup t index generation = Err e ∧ t' = t
  end.
Proof.
  intros Hi. rewrite table_remove_spec.
  destruct (table_lookup t index generation) as [s|e] eqn:E; [|done].
  apply table_lookup_Ok in E as (Hs & Hv & Hg). unfold force_invalidate. rewrite ?get_at_eq. rewrite Hs, Hv.
  pose proof (release_count_pos t _ s Hi Hs Hv). pose proof (lookup_lt_Some _ _ _ Hs).
  split_and!; [done|unfold table_len; cbn; lia| |].
  - intros g. unfold table_lookup. rewrite ?get_at_eq. cbn. by rewrite list_lookup_insert_eq.
  - intros j g Hj. unfold table_lookup. rewrite ?get_at_eq. cbn. by rewrite list_lookup_insert_ne by done.
Qed.

Lemma table_remove_functional_witness :
  let t := (insert_derived (mkCapToken 1 CtRegion 3 0) 7 0 u32_max 5 (table_new 2)).2 in
  let t' := (table_remove 0 1 t).2 in
  table_inv t ∧ (table_len t' + 1 = table_len t)%nat ∧
  table_lookup t' 0 1 = Err CeInvalidHandle.
Proof.
  intros t t'. assert (table_inv t) as Hi by by apply insert_derived_inv, table_new_inv.
  pose proof (table_remove_functional 0 1 t Hi) as H. hnf in H.
  destruct H as (_ & Hlen & Hdead & _). split; [exact Hi|]. split; [exact Hlen|apply Hdead].
Defined.

(* ------------------------------------------------------------------ *)
(** ** Stale handles *)

(** The stamp of slot [i], when it exists. *)
Definition stamp_above (g : Z) (i : nat) (t : CapabilityTable) : Prop :=
  ∃ s, tb_slots t !! i = Some s ∧ g < slot_stamp s.

Lemma stamp_above_dead t index generation :
  stamp_above generation (Z.to_nat index) t → is_ok (table_lookup t index generation) = false.
Proof.
  intros (s & Hs & Hlt). destruct (table_lookup t index generation) eqn:E; [|done].
  apply table_lookup_Ok in E as (Hs' & Hv & Hg). simplify_eq.
  rewrite slot_stamp_valid in Hlt by done. lia.
Qed.

(** One operation lifts a stamp by at most one, and never lowers it below the
    top of the counter. *)
Lemma run_op_stamp op t i s :
  table_inv t → tb_slots t !! i = Some s → slot_stamp s + 1 < u32_max →
  ∃ s', tb_slots (run_op op t) !! i = Some s' ∧
        slot_stamp s ≤ slot_stamp s' ≤ slot_stamp s + 1.
Proof.
  intros Hi Hs Hbound.
  assert (∀ index, ∃ s', tb_slots (force_invalidate index t) !! i = Some s' ∧
            slot_stamp s ≤ slot_stamp s' ≤ slot_stamp s + 1) as Hforce.
  { intros index. unfold force_invalidate. rewrite ?get_at_eq.
    destruct (tb_slots t !! Z.to_nat index) as [s1|] eqn:H1; [|exists s; split; [done|lia]].
    destruct (slot_is_valid s1) eqn:Hv; [|exists s; split; [done|lia]].
    cbn. destruct (decide (Z.to_nat index = i)) as [<-|Hne].
    - rewrite Hs in H1. injection H1 as <-.
      rewrite list_lookup_insert_eq by (by eapply lookup_lt_Some).
      exists (slot_invalidate s). split; [done|].
      rewrite slot_stamp_invalidate by (done || apply (ti_slots t Hi _ _ Hs)).
      rewrite slot_stamp_valid in Hbound |- * by done. case_match; split_bool; lia.
    - rewrite list_lookup_insert_ne by done. exists s. split; [done|lia]. }
  destruct op as [token owner depth parent badge|index generation|index]; simpl.
  - pose proof (insert_derived_spec token owner depth parent badge t (ti_hint t Hi)) as H.
    destruct (insert_derived _ _ _ _ _ t) as [[[idx g]|e] t']; cbn.
    + destruct H as (k & s1 & Hk & Hf & -> & -> & ->). cbn.
      destruct (decide (k = i)) as [->|Hne].
      * rewrite Hs in Hk. injection Hk as <-.
        rewrite list_lookup_insert_eq by (by eapply lookup_lt_Some).
        eexists. split; [done|].
        pose proof (slot_next_generation_range s (ti_slots t Hi _ _ Hs)).
        rewrite (slot_stamp_valid (mkCapSlot _ _ _ _ _ _)).
        { cbn. fold (slot_stamp s). lia. }
        apply slot_is_valid_true. cbn. lia.
      * rewrite list_lookup_insert_ne by done. exists s. split; [done|lia].
    + destruct H as (_ & -> & _). exists s. split; [done|lia].
  - rewrite table_remove_spec. destruct (table_lookup _ _ _); cbn; [apply Hforce|].
    exists s. split; [done|lia].
  - apply Hforce.
Qed.

Lemma run_ops_stamp ops t i s g :
  table_inv t → tb_slots t !! i = Some s → g < slot_stamp s →
  slot_stamp s + Z.of_nat (length ops) < u32_max →
  stamp_above g i (run_ops ops t).
Proof.
  revert t s. induction ops as [|op ops IH]; intros t s Hi Hs Hg Hb; [by exists s|].
  simpl in Hb. destruct (run_op_stamp op t i s Hi Hs) as (s' & Hs' & Hr); [lia|].
  apply (IH (run_op op t) s'); [by apply run_op_inv|done|lia|lia].
Qed.

(** A removed handle stays dead.  Whatever operations follow, the handle
    [(index, generation)] never resolves again until its slot's generation
    counter can have wrapped, that is for as long as
    [generation + 1 + #operations < u32::MAX]. *)
Theorem stale_handle_never_resolves index generation t ops :
  table_inv t → is_ok (table_remove index generation t).1 = true →
  generation + 1 + Z.of_nat (length ops) < u32_max →
  is_ok (table_lookup (run_ops ops (table_remove index generation t).2) index generation) = false.
Proof.
  intros Hi Hok Hb. rewrite table_remove_spec in Hok |- *.
  destruct (table_lookup t index generation) as [s|] eqn:E; [|done].
  apply table_lookup_Ok in E as (Hs & Hv & Hg). apply stamp_above_dead. cbn.
  pose proof (ti_slots t Hi _ _ Hs) as [Hu _].
  assert (slot_stamp (slot_invalidate s) = generation + 1) as Hst.
  { rewrite slot_stamp_invalidate by done. case_match; split_bool; lia. }
  apply (run_ops_stamp _ _ _ (slot_invalidate s)).
  - by apply force_invalidate_inv.
  - unfold force_invalidate. rewrite ?get_at_eq. rewrite Hs, Hv. cbn.
    by rewrite list_lookup_insert_eq by (by eapply lookup_lt_Some).
  - lia.
  - lia.
Qed.

Lemma stale_handle_never_resolves_witness :
  let tok := mkCapToken 1 CtRegion 3 0 in
  let t := (insert_derived tok 7 0 u32_max 5 (table_new 2)).2 in
  let ops := [TopInsert tok 8 0 u32_max 6; TopInsert tok 9 0 u32_max 6; TopForce 1] in
  table_inv t ∧ is_ok (table_remove 0 1 t).1 = true ∧
  is_ok (table_lookup (run_ops ops (table_remove 0 1 t).2) 0 1) = false.
Proof.
  intros tok t ops. assert (table_inv t) as Hi by by apply insert_derived_inv, table_new_inv.
  split; [exact Hi|]. split; [by vm_compute|].
  apply stale_handle_never_resolves; [exact Hi|by vm_compute|by vm_compute].
Defined.

(** The generation a freed slot gives its next occupant is the successor
    of the freed one, except at the top of the counter: [u32::MAX - 1] is
    followed by 1, because a stashed [u32::MAX] reads back as "never used". *)
Theorem next_generation_after_free s :
  slot_is_valid s = true → is_u32 (sl_generation s) →
  slot_next_generation (slot_invalidate s) =
    (if sl_generation s + 1 <? u32_max then sl_generation s + 1 else 1) ∧
  sl_parent_index (slot_invalidate s) =
    (if sl_generation s =? u32_max then 1 else sl_generation s + 1).
Proof.
  intros Hv Hu. split; [by apply slot_stamp_invalidate|].
  apply slot_is_valid_true in Hv. unfold is_u32, u32_max in *. cbn. unfold wrap32.
  destruct (sl_generation s =? 4294967295) eqn:E; split_bool.
  - by rewrite E.
  - rewrite Z.mod_small by lia. case_match; split_bool; lia.
Qed.

Lemma next_generation_after_free_witness :
  let s := mkCapSlot (mkCapToken 1 CtRegion 3 0) 4294967294 7 0 u32_max 5 in
  slot_is_valid s = true ∧ slot_next_generation (slot_invalidate s) = 1 ∧
  sl_parent_index (slot_invalidate s) = u32_max.
Proof.
  intros s. split; [by vm_compute|].
  destruct (next_generation_after_free s) as [H1 H2]; [by vm_compute|by vm_compute|].
  split; [exact H1|exact H2].
Defined.
