(* ===== verification/Derivation.v ===== *)
(** The derivation tree, [crates/rvm-cap/src/derivation.rs].

    Nodes live in an array indexed by capability slot; children hang off
    their parent in a first-child / next-sibling list of [u32] links, with
    [u32::MAX] for "none".  The loops that follow links run on fuel and return
    [None] when it is used up before the loop exits.

    The second half of the file proves that on well-formed trees
    [collect_subtree] and [revoke] compute exactly the descendants of a node
    with fuel [N + 1], and that re-linking a revoked child breaks the
    discipline the loops rely on. *)

From stdpp Require Import base numbers list option sets gmap relations.
From Stdlib Require Import ZArith Lia.
From S2P Require Import Prelude.
From S2P Require Import Types.
From S2P Require Import CapTable.

(* ------------------------------------------------------------------ *)
(** ** Nodes and trees *)

Record DerivationNode : Set := mkDerivationNode {
  nd_is_valid : bool;
  nd_depth : Z;
  nd_epoch : Z;
  nd_first_child : Z;
  nd_next_sibling : Z;
  nd_parent_index : Z;
}.

#[export] Instance DerivationNode_eq_dec : EqDecision DerivationNode.
Proof. solve_decision. Defined.

Definition node_empty : DerivationNode :=
  mkDerivationNode false 0 0 u32_max u32_max u32_max.
Definition node_new_root (epoch : Z) : DerivationNode :=
  mkDerivationNode true 0 epoch u32_max u32_max u32_max.
Definition node_new_child (depth epoch : Z) : DerivationNode :=
  mkDerivationNode true depth epoch u32_max u32_max u32_max.
Definition node_has_children (n : DerivationNode) : bool :=
  negb (nd_first_child n =? u32_max).

Definition set_first_child (c : Z) (n : DerivationNode) : DerivationNode :=
  mkDerivationNode (nd_is_valid n) (nd_depth n) (nd_epoch n) c
    (nd_next_sibling n) (nd_parent_index n).
Definition set_invalid (n : DerivationNode) : DerivationNode :=
  mkDerivationNode false (nd_depth n) (nd_epoch n) (nd_first_child n)
    (nd_next_sibling n) (nd_parent_index n).

Record DerivationTree : Set := mkDerivationTree {
  dt_nodes : list DerivationNode;
  dt_count : nat;
}.

Definition tree_new (N : nat) : DerivationTree :=
  mkDerivationTree (replicate N node_empty) 0.
Definition tree_len (t : DerivationTree) : nat := dt_count t.
Definition tree_is_empty (t : DerivationTree) : bool := (dt_count t =? 0)%nat.

(** [self.nodes[i as usize]]: [None] when the index is out of bounds, which
    every use below guards against first. *)
Definition node_at (nodes : list DerivationNode) (index : Z) : option DerivationNode :=
  get_at nodes index.

Definition add_root (index epoch : Z) : prog DerivationTree CapError unit := λ t,
  match node_at (dt_nodes t) index with
  | None => (Err CeTreeFull, t)
  | Some _ =>
      (Ok tt, mkDerivationTree (<[Z.to_nat index := node_new_root epoch]> (dt_nodes t))
                (dt_count t + 1))
  end.

(** The child is prepended to its parent's list; the parent's link is written
    first, then the child's node. *)
Definition add_child (parent_index child_index depth epoch : Z)
    : prog DerivationTree CapError unit := λ t,
  match node_at (dt_nodes t) parent_index, node_at (dt_nodes t) child_index with
  | Some parent, Some _ =>
      if negb (nd_is_valid parent) then (Err CeRevoked, t)
      else
        let child := mkDerivationNode true depth epoch u32_max
                       (nd_first_child parent) parent_index in
        let nodes := <[Z.to_nat parent_index := set_first_child child_index parent]> (dt_nodes t) in
        let nodes := <[Z.to_nat child_index := child]> nodes in
        (Ok tt, mkDerivationTree nodes (dt_count t + 1))
  | _, _ => (Err CeTreeFull, t)
  end.

Definition tree_depth (t : DerivationTree) (index : Z) : CapResult Z :=
  match node_at (dt_nodes t) index with
  | Some n => if nd_is_valid n then Ok (nd_depth n) else Err CeInvalidHandle
  | None => Err CeInvalidHandle
  end.

Definition tree_is_valid (t : DerivationTree) (index : Z) : bool :=
  match node_at (dt_nodes t) index with Some n => nd_is_valid n | None => false end.

Definition tree_get (t : DerivationTree) (index : Z) : option DerivationNode :=
  match node_at (dt_nodes t) index with
  | Some n => if nd_is_valid n then Some n else None
  | None => None
  end.

(* ------------------------------------------------------------------ *)
(** ** The loops *)

(** [while child != u32::MAX { .. }]: push every valid child of the list onto
    the stack, whose top is the head of the Rocq list and whose room is [N]. *)
Fixpoint push_children (fuel : nat) (nodes : list DerivationNode) (child : Z)
    (stack : list Z) : option (list Z) :=
  match fuel with
  | O => None
  | S fuel =>
      if child =? u32_max then Some stack
      else match node_at nodes child with
           | None => Some stack
           | Some c =>
               push_children fuel nodes (nd_next_sibling c)
                 (if nd_is_valid c && (length stack <? length nodes)%nat
                  then child :: stack else stack)
           end
  end.

(** The outer loop of [collect_subtree]; [walk] is the fuel of each inner
    walk. *)
Fixpoint collect_loop (walk fuel : nat) (nodes : list DerivationNode)
    (stack result : list Z) : option (list Z) :=
  match stack with
  | [] => Some result
  | current :: stack =>
      match fuel with
      | O => None
      | S fuel =>
          match node_at nodes current with
          | None => collect_loop walk fuel nodes stack result
          | Some n =>
              if negb (nd_is_valid n) then collect_loop walk fuel nodes stack result
              else
                let result := if (length result <? length nodes)%nat
                              then result ++ [current] else result in
                stack ← push_children walk nodes (nd_first_child n) stack;
                collect_loop walk fuel nodes stack result
          end
      end
  end.

(** The fixed-size result array is padded with [u32::MAX]. *)
Definition pad_result (N : nat) (l : list Z) : list Z :=
  l ++ replicate (N - length l) u32_max.

Definition collect_subtree (fuel : nat) (t : DerivationTree) (index : Z) : option (list Z) :=
  let nodes := dt_nodes t in
  let stack := match node_at nodes index with
               | Some n => if nd_is_valid n then [index] else []
               | None => []
               end in
  pad_result (length nodes) <$> collect_loop fuel fuel nodes stack [].

(** The outer loop of [revoke_subtree]: [nodes] and the active [count] change,
    [k] counts the revoked nodes. *)
Fixpoint revoke_loop (walk fuel : nat) (nodes : list DerivationNode) (count : nat)
    (stack : list Z) (k : nat) : option (nat * DerivationTree) :=
  match stack with
  | [] => Some (k, mkDerivationTree nodes count)
  | current :: stack =>
      match fuel with
      | O => None
      | S fuel =>
          match node_at nodes current with
          | None => revoke_loop walk fuel nodes count stack k
          | Some n =>
              if negb (nd_is_valid n) then revoke_loop walk fuel nodes count stack k
              else
                let nodes := <[Z.to_nat current := set_invalid n]> nodes in
                stack ← push_children walk nodes (nd_first_child n) stack;
                revoke_loop walk fuel nodes (count - 1) stack (k + 1)
          end
      end
  end.

Definition revoke_subtree (fuel : nat) (t : DerivationTree) (index : Z)
    : option (nat * DerivationTree) :=
  match node_at (dt_nodes t) index with
  | Some n =>
      if negb (nd_is_valid n) then Some (O, t)
      else revoke_loop fuel fuel (dt_nodes t) (dt_count t) [index] 0
  | None => Some (O, t)
  end.

Definition tree_revoke (fuel : nat) (t : DerivationTree) (index : Z)
    : option (CapResult nat * DerivationTree) :=
  match node_at (dt_nodes t) index with
  | None => Some (Err CeInvalidHandle, t)
  | Some n =>
      if negb (nd_is_valid n) then Some (Err CeRevoked, t)
      else '(k, t') ← revoke_subtree fuel t index; Some (Ok k, t')
  end.

(** Does the sibling list starting at [cursor] contain [child_index]? *)
Fixpoint chain_contains (fuel : nat) (nodes : list DerivationNode) (cursor child_index : Z)
    : option bool :=
  match fuel with
  | O => None
  | S fuel =>
      if cursor =? u32_max then Some false
      else if cursor =? child_index then Some true
      else match node_at nodes cursor with
           | None => Some false
           | Some c => chain_contains fuel nodes (nd_next_sibling c) child_index
           end
  end.

(** The fallback scan [for i in 0..N] of [find_parent]. *)
Fixpoint find_parent_scan (fuel : nat) (nodes : list DerivationNode) (rest : list DerivationNode)
    (i : nat) (child_index : Z) : option (option Z) :=
  match rest with
  | [] => Some None
  | n :: rest =>
      if negb (nd_is_valid n) then find_parent_scan fuel nodes rest (i + 1) child_index
      else
        found ← chain_contains fuel nodes (nd_first_child n) child_index;
        if found : bool then Some (Some (Z.min (Z.of_nat i) u32_max))
        else find_parent_scan fuel nodes rest (i + 1) child_index
  end.

Definition find_parent (fuel : nat) (t : DerivationTree) (child_index : Z) : option (option Z) :=
  match node_at (dt_nodes t) child_index with
  | None => Some None
  | Some n =>
      if negb (nd_is_valid n) then Some None
      else if nd_depth n =? 0 then Some None
      else
        let pidx := nd_parent_index n in
        if negb (pidx =? u32_max) && tree_is_valid t pidx then Some (Some pidx)
        else find_parent_scan fuel (dt_nodes t) (dt_nodes t) 0 child_index
  end.

(* ------------------------------------------------------------------ *)
(** ** Well-formed trees *)

(** The sibling list starting at link [start] visits exactly [l]. *)
Fixpoint chain (nodes : list DerivationNode) (start : Z) (l : list nat) : Prop :=
  match l with
  | [] => start = u32_max
  | c :: l => start = Z.of_nat c ∧ ∃ n, nodes !! c = Some n ∧ chain nodes (nd_next_sibling n) l
  end.

Definition valid_at (nodes : list DerivationNode) (i : nat) : bool :=
  match nodes !! i with Some n => nd_is_valid n | None => false end.

(** [x] is a live child of the live node [p]. *)
Definition child_of (nodes : list DerivationNode) (p x : nat) : Prop :=
  ∃ np nx, nodes !! p = Some np ∧ nodes !! x = Some nx ∧
    nd_is_valid np = true ∧ nd_is_valid nx = true ∧
    nd_depth nx ≠ 0 ∧ nd_parent_index nx = Z.of_nat p.

(** The same as a test. *)
Definition child_ofb (nodes : list DerivationNode) (p x : nat) : bool :=
  match nodes !! p, nodes !! x with
  | Some np, Some nx =>
      nd_is_valid np && nd_is_valid nx && negb (nd_depth nx =? 0) &&
      (nd_parent_index nx =? Z.of_nat p)
  | _, _ => false
  end.

Definition descendant (nodes : list DerivationNode) : nat → nat → Prop := rtc (child_of nodes).

(** What the list of a live node must satisfy. *)
Definition node_wf (nodes : list DerivationNode) (i : nat) (n : DerivationNode) : Prop :=
  ∃ l, chain nodes (nd_first_child n) l ∧ NoDup l ∧
    ∀ x nx, x ∈ l → nodes !! x = Some nx →
      nd_parent_index nx = Z.of_nat i ∧ nd_depth n < nd_depth nx.

(** A live non-root is on the list of its live parent. *)
Definition linked (nodes : list DerivationNode) (x : nat) (nx : DerivationNode) : Prop :=
  nd_depth nx ≠ 0 → ∃ p np l, nd_parent_index nx = Z.of_nat p ∧
    nodes !! p = Some np ∧ nd_is_valid np = true ∧
    chain nodes (nd_first_child np) l ∧ x ∈ l.

Record tree_wf (t : DerivationTree) : Prop := {
  tw_nodes i n : dt_nodes t !! i = Some n → nd_is_valid n = true →
                 0 ≤ nd_depth n ∧ node_wf (dt_nodes t) i n ∧ linked (dt_nodes t) i n;
  tw_count : dt_count t = count_by nd_is_valid (dt_nodes t);
  tw_size : Z.of_nat (length (dt_nodes t)) ≤ u32_max;
}.

(** Slot [c] is not on the list of any live node, so it can be filled. *)
Definition unlinked (nodes : list DerivationNode) (c : nat) : Prop :=
  ∀ i n l, nodes !! i = Some n → nd_is_valid n = true →
    chain nodes (nd_first_child n) l → c ∉ l.

(** Every node on a live node's list is live. *)
Definition no_dangling (nodes : list DerivationNode) : Prop :=
  ∀ i n l x, nodes !! i = Some n → nd_is_valid n = true →
    chain nodes (nd_first_child n) l → x ∈ l → valid_at nodes x = true.

(* ------------------------------------------------------------------ *)
(** ** Sibling lists *)

Lemma node_at_nat nodes i : node_at nodes (Z.of_nat i) = nodes !! i.
Proof. unfold node_at. by rewrite get_at_eq, Nat2Z.id. Qed.

Lemma valid_at_true nodes i :
  valid_at nodes i = true ↔ ∃ n, nodes !! i = Some n ∧ nd_is_valid n = true.
Proof. unfold valid_at. destruct (nodes !! i); naive_solver. Qed.

Lemma child_ofb_true nodes p x : child_ofb nodes p x = true → child_of nodes p x.
Proof.
  unfold child_ofb. destruct (nodes !! p) as [np|] eqn:Hp; [|done].
  destruct (nodes !! x) as [nx|] eqn:Hx; [|done]. intros. split_bool. by exists np, nx.
Qed.

Lemma index_not_max (nodes : list DerivationNode) i n :
  Z.of_nat (length nodes) ≤ u32_max → nodes !! i = Some n → Z.of_nat i < u32_max.
Proof. intros ? Hi%lookup_lt_Some. lia. Qed.

Lemma chain_fun nodes s l l' :
  Z.of_nat (length nodes) ≤ u32_max → chain nodes s l → chain nodes s l' → l = l'.
Proof.
  intros Hsz. revert s l'. induction l as [|c l IH]; intros s [|c' l'] H H'; simpl in *.
  - done.
  - destruct H' as (-> & n & Hn & _). pose proof (index_not_max _ _ _ Hsz Hn). lia.
  - destruct H as (-> & n & Hn & _). pose proof (index_not_max _ _ _ Hsz Hn). lia.
  - destruct H as (-> & n & Hn & H), H' as (Hc & n' & Hn' & H').
    apply Nat2Z.inj in Hc as <-. simplify_eq. f_equal. by eapply IH.
Qed.

Lemma chain_lookup nodes s l x : chain nodes s l → x ∈ l → ∃ n, nodes !! x = Some n.
Proof.
  revert s. induction l as [|c l IH]; intros s H Hx; [by apply not_elem_of_nil in Hx|].
  destruct H as (_ & n & Hn & H). apply elem_of_cons in Hx as [->|Hx]; eauto.
Qed.

(** A list only depends on the sibling links of its own nodes. *)
Lemma chain_ext nodes nodes' s l :
  (∀ x, x ∈ l → nd_next_sibling <$> nodes !! x = nd_next_sibling <$> nodes' !! x) →
  chain nodes s l → chain nodes' s l.
Proof.
  revert s. induction l as [|c l IH]; intros s Hext; simpl; [done|].
  intros (-> & n & Hn & H). split; [done|].
  pose proof (Hext c ltac:(set_solver)) as Hc. rewrite Hn in Hc. simpl in Hc.
  destruct (nodes' !! c) as [n'|] eqn:Hn'; [|done]. exists n'. split; [done|].
  injection Hc as <-. apply IH; [set_solver|done].
Qed.

Lemma chain_insert_ne nodes s l c m :
  c ∉ l → chain nodes s l → chain (<[c:=m]> nodes) s l.
Proof.
  intros Hc. apply chain_ext. intros x Hx. by rewrite list_lookup_insert_ne by set_solver.
Qed.

(** Rewriting a node without touching its sibling link. *)
Lemma chain_insert_link nodes s l c n m :
  nodes !! c = Some n → nd_next_sibling m = nd_next_sibling n →
  chain nodes s l → chain (<[c:=m]> nodes) s l.
Proof.
  intros Hc Hm. apply chain_ext. intros x Hx. destruct (decide (c = x)) as [->|].
  - rewrite list_lookup_insert_eq by (by eapply lookup_lt_Some). by rewrite Hc; cbn; rewrite Hm.
  - by rewrite list_lookup_insert_ne.
Qed.

Lemma chain_length nodes s l : chain nodes s l → NoDup l → (length l ≤ length nodes)%nat.
Proof.
  intros H Hnd. rewrite <-(length_seq (length nodes) 0).
  apply submseteq_length, NoDup_submseteq; [done|].
  intros x Hx. destruct (chain_lookup _ _ _ _ H Hx) as [n Hn%lookup_lt_Some].
  apply elem_of_seq. lia.
Qed.

(* ------------------------------------------------------------------ *)
(** ** Invalidating a set of nodes *)

Definition inval (R : list nat) (nodes : list DerivationNode) : list DerivationNode :=
  imap (λ i n, if decide (i ∈ R) then set_invalid n else n) nodes.

Lemma inval_lookup R nodes i :
  inval R nodes !! i = (λ n, if decide (i ∈ R) then set_invalid n else n) <$> nodes !! i.
Proof. unfold inval. by rewrite list_lookup_imap. Qed.

Lemma length_inval R nodes : length (inval R nodes) = length nodes.
Proof. apply length_imap. Qed.

Lemma inval_nil nodes : inval [] nodes = nodes.
Proof.
  apply list_eq. intros i. rewrite inval_lookup. destruct (nodes !! i); [|done].
  cbn [fmap option_fmap option_map]. rewrite decide_False; [done|]. apply not_elem_of_nil.
Qed.

Lemma inval_snoc R nodes c n :
  nodes !! c = Some n → c ∉ R →
  <[c := set_invalid n]> (inval R nodes) = inval (R ++ [c]) nodes.
Proof.
  intros Hn Hc. apply list_eq. intros i. rewrite inval_lookup.
  destruct (decide (c = i)) as [->|].
  - rewrite list_lookup_insert_eq by (rewrite length_inval; by eapply lookup_lt_Some).
    rewrite Hn. simpl. by rewrite decide_True by set_solver.
  - rewrite list_lookup_insert_ne by done. rewrite inval_lookup.
    destruct (nodes !! i); [simpl|done].
    destruct (decide (i ∈ R)); [by rewrite decide_True by set_solver|].
    by rewrite decide_False by set_solver.
Qed.

Lemma inval_chain R nodes s l : chain nodes s l → chain (inval R nodes) s l.
Proof.
  apply chain_ext. intros x _. rewrite inval_lookup.
  destruct (nodes !! x); simpl; [|done]. by destruct (decide _).
Qed.

Lemma inval_valid_at R nodes x :
  valid_at (inval R nodes) x = valid_at nodes x && negb (bool_decide (x ∈ R)).
Proof.
  unfold valid_at. rewrite inval_lookup. destruct (nodes !! x); simpl; [|done].
  destruct (decide (x ∈ R)).
  - rewrite bool_decide_eq_true_2 by done. by rewrite andb_false_r.
  - rewrite bool_decide_eq_false_2 by done. by rewrite andb_true_r.
Qed.

(** Invalidating distinct live nodes lowers the live count by their number. *)
Lemma inval_count R nodes :
  NoDup R → (∀ x, x ∈ R → valid_at nodes x = true) →
  (count_by nd_is_valid (inval R nodes) + length R = count_by nd_is_valid nodes)%nat.
Proof.
  induction R as [|c R IH] using rev_ind; intros Hnd Hv.
  - rewrite inval_nil. simpl. lia.
  - apply NoDup_app in Hnd as (Hnd & Hc & _).
    assert (c ∉ R) as HcR by set_solver.
    destruct (proj1 (valid_at_true nodes c) (Hv c ltac:(set_solver))) as (n & Hn & Hnv).
    rewrite <-(inval_snoc R nodes c n Hn HcR), length_app. simpl.
    assert (inval R nodes !! c = Some n) as Hl.
    { rewrite inval_lookup, Hn. simpl. by rewrite decide_False. }
    pose proof (count_by_insert nd_is_valid _ c n (set_invalid n) Hl) as H. simpl in H.
    rewrite Hnv in H. specialize (IH Hnd ltac:(set_solver)). lia.
Qed.

(* ------------------------------------------------------------------ *)
(** ** Pushing the children of one node *)

Definition live (nodes : list DerivationNode) (l : list nat) : list nat :=
  filter (λ x, valid_at nodes x = true) l.

Lemma live_cons nodes c l :
  live nodes (c :: l) = if valid_at nodes c then c :: live nodes l else live nodes l.
Proof.
  unfold live. rewrite filter_cons. by destruct (valid_at nodes c).
Qed.

Lemma push_children_chain fuel nodes start l S :
  chain nodes start l → (length l < fuel)%nat → Z.of_nat (length nodes) ≤ u32_max →
  (length (live nodes l) + length S ≤ length nodes)%nat →
  push_children fuel nodes start (Z.of_nat <$> S) =
    Some (Z.of_nat <$> (reverse (live nodes l) ++ S)).
Proof.
  revert fuel start S. induction l as [|c l IH]; intros [|fuel] start S Hch Hf Hsz Hroom;
    simpl in Hf; try lia; simpl in Hch.
  - by rewrite Hch.
  - destruct Hch as (-> & n & Hn & Hch). simpl. rewrite node_at_nat, Hn.
    pose proof (index_not_max _ _ _ Hsz Hn).
    destruct (Z.of_nat c =? u32_max) eqn:E; split_bool; [lia|].
    rewrite live_cons in Hroom |- *.
    assert (valid_at nodes c = nd_is_valid n) as Hvc by (unfold valid_at; by rewrite Hn).
    rewrite Hvc in Hroom |- *.
    destruct (nd_is_valid n) eqn:Hv; simpl.
    + simpl in Hroom. rewrite length_fmap.
      destruct (length S <? length nodes)%nat eqn:E2; split_bool; [|lia].
      change (Z.of_nat c :: (Z.of_nat <$> S)) with (Z.of_nat <$> (c :: S)).
      rewrite IH; simpl; try done; try lia.
      by rewrite reverse_cons, <-app_assoc.
    + rewrite IH; try done; lia.
Qed.

(* ------------------------------------------------------------------ *)
(** ** Children in well-formed trees *)

Section wf.
Context (t : DerivationTree) (Ht : tree_wf t).
Local Notation nodes := (dt_nodes t).

Lemma wf_children i n :
  nodes !! i = Some n → nd_is_valid n = true →
  ∃ l, chain nodes (nd_first_child n) l ∧ NoDup l ∧
    ∀ x, x ∈ live nodes l ↔ child_of nodes i x.
Proof.
  intros Hn Hv. destruct (tw_nodes t Ht i n Hn Hv) as (Hd & (l & Hch & Hnd & Hl) & _).
  exists l. split_and!; [done..|]. intros x. unfold live.
  rewrite list_elem_of_filter, valid_at_true. split.
  - intros [(nx & Hnx & Hvx) Hx]. destruct (Hl x nx Hx Hnx).
    exists n, nx. split_and!; [done..| |done]. lia.
  - intros (np & nx & Hnp & Hnx & _ & Hvx & Hdx & Hpx). simplify_eq.
    split; [by eauto|]. destruct (tw_nodes t Ht x nx Hnx Hvx) as (_ & _ & Hlk).
    destruct (Hlk Hdx) as (p & np' & l' & Hp & Hnp' & _ & Hch' & Hx).
    rewrite Hpx in Hp. apply Nat2Z.inj in Hp as <-. simplify_eq.
    by rewrite (chain_fun _ _ _ _ (tw_size t Ht) Hch Hch').
Qed.

Lemma child_of_depth p x np nx :
  child_of nodes p x → nodes !! p = Some np → nodes !! x = Some nx → nd_depth np < nd_depth nx.
Proof.
  intros Hc Hp Hx. pose proof Hc as (np' & nx' & Hp' & Hx' & Hv & _). simplify_eq.
  destruct (wf_children p np Hp Hv) as (l & Hch & _ & Hl).
  apply Hl, list_elem_of_filter in Hc as [_ Hxl].
  destruct (tw_nodes t Ht p np Hp Hv) as (_ & (l' & Hch' & _ & Hl') & _).
  rewrite (chain_fun _ _ _ _ (tw_size t Ht) Hch Hch') in Hxl.
  by apply (Hl' x nx).
Qed.

Lemma child_of_parent_unique p p' x : child_of nodes p x → child_of nodes p' x → p = p'.
Proof.
  intros (? & nx & _ & Hx & _ & _ & _ & E) (? & nx' & _ & Hx' & _ & _ & _ & E'). simplify_eq.
  rewrite E in E'. by apply Nat2Z.inj.
Qed.

Lemma descendant_depth i x ni nx :
  descendant nodes i x → nodes !! i = Some ni → nodes !! x = Some nx →
  nd_depth ni ≤ nd_depth nx.
Proof.
  intros H Hi. revert x H nx. refine (rtc_ind_r _ i _ _); [|intros y x' Hy Hd IH]; intros nx Hx.
  - simplify_eq. lia.
  - pose proof Hd as (ny & ? & Hny & _). specialize (IH ny Hny).
    pose proof (child_of_depth _ _ ny nx Hd Hny Hx). lia.
Qed.

Lemma child_of_valid p x : child_of nodes p x → valid_at nodes x = true.
Proof. intros (np & nx & _ & Hx & _ & Hv & _). apply valid_at_true. eauto. Qed.

(** No node is the child of one of its descendants. *)
Lemma descendant_acyclic i c : descendant nodes i c → child_of nodes c i → False.
Proof.
  intros Hd Hc. pose proof Hc as (nc & ni & Hnc & Hni & _).
  pose proof (descendant_depth _ _ _ _ Hd Hni Hnc).
  pose proof (child_of_depth _ _ _ _ Hc Hnc Hni). lia.
Qed.

(* ------------------------------------------------------------------ *)
(** ** The depth-first search *)

(** Visited nodes [R], pending nodes [S] of a search from [i]. *)
Record dfs_inv (i : nat) (R S : list nat) : Prop := {
  di_nodup : NoDup (R ++ S);
  di_root : i ∈ R ++ S;
  di_sound x : x ∈ R ++ S → valid_at nodes x = true ∧ descendant nodes i x;
  di_closed x y : x ∈ R → child_of nodes x y → y ∈ R ++ S;
  di_parent x : x ∈ R ++ S → x = i ∨ ∃ p, p ∈ R ∧ child_of nodes p x;
}.

Lemma dfs_init i : valid_at nodes i = true → dfs_inv i [] [i].
Proof.
  intros Hv. split; simpl.
  - apply NoDup_singleton.
  - by apply list_elem_of_singleton.
  - intros x ->%list_elem_of_singleton. split; [done|apply rtc_refl].
  - intros x y Hx. by apply not_elem_of_nil in Hx.
  - intros x ->%list_elem_of_singleton. by left.
Qed.

(** The live children of a node just popped have not been seen. *)
Lemma dfs_fresh i R c S y :
  dfs_inv i R (c :: S) → child_of nodes c y → y ∉ R ++ c :: S.
Proof.
  intros Hi Hc Hy. destruct (di_sound _ _ _ Hi c ltac:(set_solver)) as [_ Hd].
  destruct (di_parent _ _ _ Hi y Hy) as [->|(p & Hp & Hpy)].
  - by eapply descendant_acyclic.
  - rewrite (child_of_parent_unique _ _ _ Hpy Hc) in Hp.
    pose proof (di_nodup _ _ _ Hi) as Hnd. apply NoDup_app in Hnd as (_ & Hnd & _).
    by apply (Hnd c Hp), list_elem_of_here.
Qed.

Lemma dfs_step i R c S L :
  dfs_inv i R (c :: S) → NoDup L → (∀ x, x ∈ L ↔ child_of nodes c x) →
  dfs_inv i (R ++ [c]) (reverse L ++ S).
Proof.
  intros Hi HL Hch. pose proof (dfs_fresh i R c S) as Hfr.
  assert (∀ x, x ∈ (R ++ [c]) ++ reverse L ++ S ↔ x ∈ R ++ c :: S ∨ child_of nodes c x) as Hel.
  { intros x. rewrite <-Hch. set_solver. }
  split.
  - rewrite <-app_assoc. simpl. pose proof (di_nodup _ _ _ Hi) as Hnd.
    assert (R ++ c :: reverse L ++ S ≡ₚ L ++ (R ++ c :: S)) as ->.
    { rewrite reverse_Permutation. solve_Permutation. }
    apply NoDup_app. split_and!; [done| |done]. intros x Hx. by apply Hfr, Hch.
  - apply Hel. left. apply Hi.
  - intros x [Hx|Hx]%Hel; [by apply Hi|]. split; [by eapply child_of_valid|].
    destruct (di_sound _ _ _ Hi c ltac:(set_solver)) as [_ Hd].
    eapply rtc_r; done.
  - intros x y [Hx| ->%list_elem_of_singleton]%elem_of_app Hxy; apply Hel; [|by right].
    left. by eapply di_closed.
  - intros x [Hx|Hx]%Hel.
    + destruct (di_parent _ _ _ Hi x Hx) as [|(p & ? & ?)]; [by left|].
      right. exists p. split; [set_solver|done].
    + right. exists c. split; [set_solver|done].
Qed.

(** When nothing is pending the visited nodes are the descendants of [i]. *)
Lemma dfs_done i R : dfs_inv i R [] → NoDup R ∧ ∀ x, x ∈ R ↔ descendant nodes i x.
Proof.
  intros Hi. pose proof (di_nodup _ _ _ Hi) as Hnd. pose proof (di_root _ _ _ Hi) as Hr.
  rewrite app_nil_r in Hnd, Hr. split; [done|]. intros x. split.
  - intros Hx. apply (di_sound _ _ _ Hi). by rewrite app_nil_r.
  - revert x. refine (rtc_ind_r _ i _ _); [done|]. intros y z Hy Hc IH.
    pose proof (di_closed _ _ _ Hi y z IH Hc) as Hz. by rewrite app_nil_r in Hz.
Qed.

(** A search never holds more nodes than the array. *)
Lemma dfs_bound i R S : dfs_inv i R S → (length R + length S ≤ length nodes)%nat.
Proof.
  intros Hi. rewrite <-length_app, <-(length_seq (length nodes) 0).
  apply submseteq_length, NoDup_submseteq; [apply Hi|].
  intros x Hx. apply (di_sound _ _ _ Hi), proj1, valid_at_true in Hx as (n & Hn & _).
  apply lookup_lt_Some in Hn. apply elem_of_seq. lia.
Qed.

(** One iteration of either loop, on the tree with the visited nodes already
    invalidated or not. *)
Lemma dfs_pop i R c S (V : list nat) :
  dfs_inv i R (c :: S) → (∀ x, x ∈ V → x ∈ R ++ [c]) →
  ∃ n l, nodes !! c = Some n ∧ nd_is_valid n = true ∧ c ∉ R ∧
    chain nodes (nd_first_child n) l ∧ (length l ≤ length nodes)%nat ∧
    live (inval V nodes) l = live nodes l ∧
    dfs_inv i (R ++ [c]) (reverse (live nodes l) ++ S).
Proof.
  intros Hi HV. destruct (di_sound _ _ _ Hi c ltac:(set_solver)) as [Hv _].
  apply valid_at_true in Hv as (n & Hn & Hv).
  destruct (wf_children c n Hn Hv) as (l & Hch & Hnd & Hl).
  exists n, l. split_and!; try done.
  - pose proof (di_nodup _ _ _ Hi) as Hdup. apply NoDup_app in Hdup as (_ & Hdup & _).
    intros Hc. by apply (Hdup c Hc), list_elem_of_here.
  - by eapply chain_length.
  - clear Hch Hnd. assert (∀ x, child_of nodes c x → x ∉ V) as Hfr.
    { intros x Hx HxV. apply (dfs_fresh _ _ _ _ _ Hi Hx). apply HV in HxV. set_solver. }
    assert (∀ x, x ∈ l → valid_at nodes x = true → x ∉ V) as Hl'.
    { intros x Hxl Hxv. apply Hfr, Hl. by apply list_elem_of_filter. }
    clear Hl Hfr. induction l as [|x l IH]; [done|].
    rewrite !live_cons, inval_valid_at, IH by set_solver.
    destruct (valid_at nodes x) eqn:Ex; simpl; [|done].
    rewrite bool_decide_eq_false_2 by (apply Hl'; [set_solver|done]). done.
  - apply dfs_step; [done| |done]. by apply NoDup_filter.
Qed.

Lemma collect_loop_spec walk fuel i R S :
  dfs_inv i R S → (length nodes - length R ≤ fuel)%nat → (length nodes < walk)%nat →
  ∃ R', collect_loop walk fuel nodes (Z.of_nat <$> S) (Z.of_nat <$> R) =
          Some (Z.of_nat <$> R') ∧ dfs_inv i R' [].
Proof.
  intros Hi Hf Hw. revert R S Hi Hf. induction fuel as [|fuel IH]; intros R S Hi Hf;
    pose proof (dfs_bound _ _ _ Hi) as Hb.
  { destruct S; simpl in Hb; [by exists R|lia]. }
  destruct S as [|c S]; [by exists R|]. cbn [fmap list_fmap]. simpl in Hb.
  destruct (dfs_pop i R c S [] Hi ltac:(set_solver))
    as (n & l & Hn & Hv & HcR & Hch & Hlen & _ & Hi').
  pose proof (dfs_bound _ _ _ Hi') as Hb'. rewrite !length_app, length_reverse in Hb'.
  cbn [length] in Hb'. cbn [collect_loop]. rewrite node_at_nat, Hn, Hv. cbn [negb].
  rewrite length_fmap. destruct (length R <? length nodes)%nat eqn:E; split_bool; [|lia].
  fold (list_fmap nat Z Z.of_nat). fold (fmap (M:=list) Z.of_nat S).
  rewrite (push_children_chain walk nodes _ l S Hch) by (lia || apply (tw_size t Ht)).
  cbn [mbind option_bind].
  assert ((Z.of_nat <$> R) ++ [Z.of_nat c] = Z.of_nat <$> (R ++ [c])) as ->
    by by rewrite fmap_app.
  apply IH; [done|]. rewrite length_app. simpl. lia.
Qed.

Lemma revoke_loop_spec walk fuel i R S :
  dfs_inv i R S → (length nodes - length R ≤ fuel)%nat → (length nodes < walk)%nat →
  ∃ R', revoke_loop walk fuel (inval R nodes) (dt_count t - length R) (Z.of_nat <$> S) (length R) =
          Some (length R', mkDerivationTree (inval R' nodes) (dt_count t - length R')) ∧
        dfs_inv i R' [].
Proof.
  intros Hi Hf Hw. revert R S Hi Hf. induction fuel as [|fuel IH]; intros R S Hi Hf;
    pose proof (dfs_bound _ _ _ Hi) as Hb.
  { destruct S; simpl in Hb; [by exists R|lia]. }
  destruct S as [|c S]; [by exists R|]. cbn [fmap list_fmap]. simpl in Hb.
  destruct (dfs_pop i R c S (R ++ [c]) Hi ltac:(done))
    as (n & l & Hn & Hv & HcR & Hch & Hlen & Hlive & Hi').
  pose proof (dfs_bound _ _ _ Hi') as Hb'. rewrite !length_app, length_reverse in Hb'.
  cbn [length] in Hb'. cbn [revoke_loop]. rewrite node_at_nat, inval_lookup, Hn.
  cbn [fmap option_fmap option_map]. rewrite decide_False by done. rewrite Hv. cbn [negb].
  rewrite Nat2Z.id, (inval_snoc R nodes c n Hn HcR).
  fold (list_fmap nat Z Z.of_nat). fold (fmap (M:=list) Z.of_nat S).
  rewrite (push_children_chain walk _ _ l S (inval_chain _ _ _ _ Hch));
    rewrite ?length_inval, ?Hlive; [|lia|apply (tw_size t Ht)|lia].
  cbn [mbind option_bind].
  replace (dt_count t - length R - 1)%nat with (dt_count t - length (R ++ [c]))%nat
    by (rewrite length_app; simpl; lia).
  replace (length R + 1)%nat with (length (R ++ [c])) by (rewrite length_app; simpl; lia).
  apply IH; [done|]. rewrite length_app. simpl. lia.
Qed.

(** The nodes a search from a live node visits. *)
Lemma revoke_subtree_spec fuel i :
  valid_at nodes i = true → (length nodes < fuel)%nat →
  ∃ R, NoDup R ∧ (∀ x, x ∈ R ↔ descendant nodes i x) ∧
    (∀ x, x ∈ R → valid_at nodes x = true) ∧
    revoke_subtree fuel t (Z.of_nat i) =
      Some (length R, mkDerivationTree (inval R nodes) (dt_count t - length R)) ∧
    ∃ R', R' ≡ₚ R ∧ collect_subtree fuel t (Z.of_nat i) =
      Some (pad_result (length nodes) (Z.of_nat <$> R')).
Proof.
  intros Hv Hf. pose proof (dfs_init i Hv) as Hi.
  destruct (revoke_loop_spec fuel fuel i [] [i] Hi) as (R & HR & HiR); [simpl; lia|lia|].
  destruct (collect_loop_spec fuel fuel i [] [i] Hi) as (R' & HR' & HiR'); [simpl; lia|lia|].
  exists R. destruct (dfs_done _ _ HiR) as [Hnd Hel], (dfs_done _ _ HiR') as [Hnd' Hel'].
  rewrite inval_nil, Nat.sub_0_r in HR. apply valid_at_true in Hv as (n & Hn & Hv).
  split_and!; [done..| | |].
  - intros x Hx. apply (di_sound _ _ _ HiR). set_solver.
  - unfold revoke_subtree. by rewrite node_at_nat, Hn, Hv.
  - exists R'. split; [apply NoDup_Permutation; [done..|]; intros x; by rewrite Hel, Hel'|].
    unfold collect_subtree. rewrite node_at_nat, Hn, Hv. cbn [fmap list_fmap] in HR'.
    cbn [negb]. by rewrite HR'.
Qed.
End wf.

(* ------------------------------------------------------------------ *)
(** ** Preservation of well-formedness *)

Lemma valid_at_nat t i : tree_is_valid t (Z.of_nat i) = valid_at (dt_nodes t) i.
Proof. unfold tree_is_valid, valid_at. by rewrite node_at_nat. Qed.

Lemma tree_new_wf N : Z.of_nat N ≤ u32_max → tree_wf (tree_new N).
Proof.
  intros HN. split; cbn.
  - intros i n [-> _]%lookup_replicate Hv. done.
  - by rewrite count_by_replicate.
  - by rewrite length_replicate.
Qed.

Lemma tree_new_no_dangling N : no_dangling (dt_nodes (tree_new N)).
Proof. intros i n l x [-> _]%lookup_replicate Hv. done. Qed.

Lemma no_dangling_unlinked nodes c :
  no_dangling nodes → valid_at nodes c = false → unlinked nodes c.
Proof.
  intros Hnd Hc i n l Hi Hv Hch Hin. specialize (Hnd i n l c Hi Hv Hch Hin). congruence.
Qed.

(** Filling a dead slot raises the live count by one. *)
Lemma count_by_fill nodes c m :
  (c < length nodes)%nat → valid_at nodes c = false → nd_is_valid m = true →
  count_by nd_is_valid (<[c:=m]> nodes) = (count_by nd_is_valid nodes + 1)%nat.
Proof.
  intros Hlt Hc Hm. destruct (lookup_lt_is_Some_2 nodes c Hlt) as [n Hn].
  unfold valid_at in Hc. rewrite Hn in Hc.
  pose proof (count_by_insert nd_is_valid nodes c n m Hn) as H. rewrite Hc, Hm in H. lia.
Qed.

(** Filling slot [c], unlinked before, leaves every other live node as it was. *)
Lemma node_wf_fill nodes c m i n :
  unlinked nodes c → nodes !! i = Some n → nd_is_valid n = true →
  node_wf nodes i n → node_wf (<[c:=m]> nodes) i n.
Proof.
  intros Hun Hi Hv (l & Hch & Hnd & Hl). exists l.
  pose proof (Hun i n l Hi Hv Hch) as Hc. split_and!; [by apply chain_insert_ne|done|].
  intros x nx Hx. rewrite list_lookup_insert_ne by set_solver. by apply Hl.
Qed.

Lemma linked_fill nodes c m x nx :
  unlinked nodes c → valid_at nodes c = false →
  linked nodes x nx → linked (<[c:=m]> nodes) x nx.
Proof.
  intros Hun Hc Hlk Hd. destruct (Hlk Hd) as (p & np & l & Hp & Hnp & Hv & Hch & Hx).
  exists p, np, l. split_and!; try done.
  - rewrite list_lookup_insert_ne; [done|]. intros ->. unfold valid_at in Hc.
    rewrite Hnp in Hc. congruence.
  - apply chain_insert_ne; [by eapply Hun|done].
Qed.

Lemma add_root_wf t c epoch :
  tree_wf t → (c < length (dt_nodes t))%nat → valid_at (dt_nodes t) c = false →
  unlinked (dt_nodes t) c →
  let t' := (add_root (Z.of_nat c) epoch t).2 in
  dt_nodes t' = <[c := node_new_root epoch]> (dt_nodes t) ∧ tree_wf t' ∧
  (no_dangling (dt_nodes t) → no_dangling (dt_nodes t')).
Proof.
  intros Ht Hlt Hc Hun. unfold add_root. rewrite node_at_nat.
  destruct (lookup_lt_is_Some_2 _ _ Hlt) as [n0 Hn0]. rewrite Hn0, Nat2Z.id. cbn.
  split_and!; [done| |].
  - split; cbn; rewrite ?length_insert.
    + intros i n [(-> & <- & _)|(Hne & Hi)]%list_lookup_insert_Some Hv.
      * split_and!; [done| |by intros []]. exists []. split_and!; [done|apply NoDup_nil_2|].
        intros x nx Hx. by apply not_elem_of_nil in Hx.
      * destruct (tw_nodes t Ht i n Hi Hv) as (? & ? & ?).
        split_and!; [done|by apply node_wf_fill|by apply linked_fill].
    + rewrite count_by_fill by done. by rewrite (tw_count t Ht).
    + apply (tw_size t Ht).
  - intros Hnd i n l x [(-> & <- & _)|(Hne & Hi)]%list_lookup_insert_Some Hv Hch Hx.
    + destruct l as [|y l]; [by apply not_elem_of_nil in Hx|].
      pose proof Hch as [Hy _]. cbn in Hy. pose proof (tw_size t Ht).
      destruct (chain_lookup (<[i:=node_new_root epoch]> (dt_nodes t)) u32_max (y :: l) y)
        as [ny Hny%lookup_lt_Some]; [exact Hch|by apply list_elem_of_here|].
      rewrite length_insert in Hny. lia.
    + assert (c ∉ l) as Hcl.
      { intros Hcl. destruct (tw_nodes t Ht i n Hi Hv) as (_ & (l' & Hch' & _ & _) & _).
        pose proof (Hun i n l' Hi Hv Hch') as Hcl'.
        apply (chain_insert_ne _ _ _ c (node_new_root epoch)) in Hch'; [|done].
        assert (l = l'); [|by subst]. eapply chain_fun; [|exact Hch|exact Hch'].
        rewrite length_insert. apply (tw_size t Ht). }
      unfold valid_at. rewrite list_lookup_insert_ne by set_solver.
      apply (Hnd i n l x Hi Hv); [|done].
      eapply chain_ext; [|exact Hch]. intros y Hy. by rewrite list_lookup_insert_ne by set_solver.
Qed.

Section add_child.
Context (t : DerivationTree) (p c : nat) (np : DerivationNode) (depth epoch : Z).
Context (Ht : tree_wf t) (Hp : dt_nodes t !! p = Some np) (Hpv : nd_is_valid np = true).
Context (Hlt : (c < length (dt_nodes t))%nat) (Hc : valid_at (dt_nodes t) c = false).
Context (Hun : unlinked (dt_nodes t) c) (Hdepth : nd_depth np < depth).
Local Notation nodes := (dt_nodes t).

Definition new_child_node : DerivationNode :=
  mkDerivationNode true depth epoch u32_max (nd_first_child np) (Z.of_nat p).
Definition add_child_nodes : list DerivationNode :=
  <[c := new_child_node]> (<[p := set_first_child (Z.of_nat c) np]> nodes).

Lemma add_child_ne : c ≠ p.
Proof using Hp Hpv Hc.
  intros E. assert (valid_at nodes c = true); [|congruence].
  apply valid_at_true. exists np. by rewrite E.
Qed.

Lemma add_child_eq :
  add_child (Z.of_nat p) (Z.of_nat c) depth epoch t =
    (Ok tt, mkDerivationTree add_child_nodes (dt_count t + 1)).
Proof.
  unfold add_child. rewrite !node_at_nat, Hp.
  destruct (lookup_lt_is_Some_2 _ _ Hlt) as [n0 ->]. rewrite Hpv. cbn.
  by rewrite !Nat2Z.id.
Qed.

Lemma add_child_lookup_c : add_child_nodes !! c = Some new_child_node.
Proof.
  unfold add_child_nodes. rewrite list_lookup_insert_eq; [done|]. by rewrite length_insert.
Qed.

Lemma add_child_lookup_p : add_child_nodes !! p = Some (set_first_child (Z.of_nat c) np).
Proof using Hp Hpv Hc.
  unfold add_child_nodes. rewrite list_lookup_insert_ne by apply add_child_ne.
  rewrite list_lookup_insert_eq; [done|]. by eapply lookup_lt_Some.
Qed.

Lemma add_child_lookup_ne x : x ≠ c → x ≠ p → add_child_nodes !! x = nodes !! x.
Proof. intros. unfold add_child_nodes. by rewrite !list_lookup_insert_ne. Qed.

(** Apart from the new node, only the parent's child link changes. *)
Lemma add_child_lookup_old x nx :
  x ≠ c → add_child_nodes !! x = Some nx →
  ∃ nx0, nodes !! x = Some nx0 ∧ nd_is_valid nx = nd_is_valid nx0 ∧
    nd_depth nx = nd_depth nx0 ∧ nd_parent_index nx = nd_parent_index nx0.
Proof.
  intros Hx. destruct (decide (x = p)) as [->|].
  - rewrite add_child_lookup_p. intros [= <-]. by exists np.
  - rewrite add_child_lookup_ne by done. intros Hnx. by exists nx.
Qed.

Lemma add_child_chain s l : c ∉ l → chain nodes s l → chain add_child_nodes s l.
Proof. intros Hcl Hch. apply chain_insert_ne; [done|]. by eapply chain_insert_link. Qed.

Lemma add_child_parent_wf : node_wf add_child_nodes p (set_first_child (Z.of_nat c) np).
Proof.
  destruct (tw_nodes t Ht p np Hp Hpv) as (_ & (l & Hch & Hnd & Hl) & _).
  pose proof (Hun p np l Hp Hpv Hch) as Hcl. exists (c :: l). split_and!.
  - cbn. split; [done|]. exists new_child_node. split; [apply add_child_lookup_c|].
    by apply add_child_chain.
  - by constructor.
  - intros x nx Hx Hnx. destruct (decide (x = c)) as [->|Hne].
    + rewrite add_child_lookup_c in Hnx. injection Hnx as <-. by split.
    + destruct (add_child_lookup_old x nx Hne Hnx) as (nx0 & Hnx0 & _ & -> & ->).
      apply (Hl x nx0); [set_solver|done].
Qed.

Lemma add_child_other_wf i n :
  i ≠ p → nodes !! i = Some n → nd_is_valid n = true → node_wf add_child_nodes i n.
Proof.
  intros Hne Hi Hv. destruct (tw_nodes t Ht i n Hi Hv) as (_ & (l & Hch & Hnd & Hl) & _).
  pose proof (Hun i n l Hi Hv Hch) as Hcl. exists l.
  split_and!; [by apply add_child_chain|done|]. intros x nx Hx Hnx.
  destruct (add_child_lookup_old x nx ltac:(set_solver) Hnx) as (nx0 & Hnx0 & _ & -> & ->).
  by apply (Hl x nx0).
Qed.

Lemma add_child_linked i n n' :
  nodes !! i = Some n → nd_is_valid n = true → nd_depth n' = nd_depth n →
  nd_parent_index n' = nd_parent_index n → linked add_child_nodes i n'.
Proof.
  intros Hi Hv Ed Ep Hd. destruct (tw_nodes t Ht i n Hi Hv) as (_ & _ & Hlk).
  rewrite Ed in Hd. destruct (Hlk Hd) as (q & nq & l & Hq & Hnq & Hqv & Hch & Hx).
  rewrite <-Ep in Hq. pose proof (Hun q nq l Hnq Hqv Hch) as Hcl.
  destruct (decide (q = p)) as [->|Hne].
  - assert (nq = np) as -> by congruence.
    exists p, (set_first_child (Z.of_nat c) np), (c :: l).
    split_and!; [done|apply add_child_lookup_p|done| |set_solver].
    cbn. split; [done|]. exists new_child_node. split; [apply add_child_lookup_c|].
    by apply add_child_chain.
  - exists q, nq, l. split_and!; [done| |done|by apply add_child_chain|done].
    rewrite add_child_lookup_ne; [done| |done]. intros ->. unfold valid_at in Hc.
    rewrite Hnq in Hc. congruence.
Qed.

Lemma add_child_wf : tree_wf (mkDerivationTree add_child_nodes (dt_count t + 1)).
Proof.
  split; cbn.
  - intros i n Hi Hv. destruct (decide (i = c)) as [->|Hic].
    { rewrite add_child_lookup_c in Hi. injection Hi as <-.
      destruct (tw_nodes t Ht p np Hp Hpv) as (Hd0 & (l & Hch & _ & _) & _).
      pose proof (Hun p np l Hp Hpv Hch) as Hcl. split_and!.
      - cbn. lia.
      - exists []. split_and!; [done|apply NoDup_nil_2|].
        intros x nx Hx. by apply not_elem_of_nil in Hx.
      - intros _. exists p, (set_first_child (Z.of_nat c) np), (c :: l).
        split_and!; [done|apply add_child_lookup_p|done| |set_solver].
        cbn. split; [done|]. exists new_child_node. split; [apply add_child_lookup_c|].
        by apply add_child_chain. }
    destruct (add_child_lookup_old i n Hic Hi) as (n0 & Hn0 & Ev & Ed & Ep).
    rewrite Ev in Hv. rewrite Ed. split_and!.
    + by apply (tw_nodes t Ht i n0 Hn0 Hv).
    + destruct (decide (i = p)) as [->|Hip].
      * rewrite add_child_lookup_p in Hi. injection Hi as <-. apply add_child_parent_wf.
      * rewrite add_child_lookup_ne in Hi by done. simplify_eq. by apply add_child_other_wf.
    + by eapply add_child_linked.
  - unfold add_child_nodes. rewrite count_by_fill; [|by rewrite length_insert| |done].
    + rewrite (tw_count t Ht). f_equal.
      pose proof (count_by_insert nd_is_valid nodes p np (set_first_child (Z.of_nat c) np) Hp) as H.
      cbn in H. rewrite Hpv in H. lia.
    + unfold valid_at. by rewrite list_lookup_insert_ne by (symmetry; apply add_child_ne).
  - unfold add_child_nodes. rewrite !length_insert. apply (tw_size t Ht).
Qed.

Lemma add_child_no_dangling : no_dangling nodes → no_dangling add_child_nodes.
Proof.
  intros Hnd i n l x Hi Hv Hch Hx. apply valid_at_true.
  assert (∀ y, valid_at nodes y = true → ∃ ny, add_child_nodes !! y = Some ny ∧ nd_is_valid ny = true)
    as Hold.
  { intros y (ny & Hny & Hyv)%valid_at_true. destruct (decide (y = p)) as [->|].
    - eexists. split; [apply add_child_lookup_p|]. by simplify_eq.
    - exists ny. rewrite add_child_lookup_ne; [done| |done]. intros ->.
      unfold valid_at in Hc. rewrite Hny in Hc. congruence. }
  destruct (decide (x = c)) as [->|Hxc].
  { eexists. split; [apply add_child_lookup_c|done]. }
  apply Hold. pose proof (tw_size _ add_child_wf) as Hsz. cbn in Hsz.
  destruct (decide (i = c)) as [->|Hic].
  { rewrite add_child_lookup_c in Hi. injection Hi as <-. cbn in Hch.
    assert (l = []) as ->; [|by apply not_elem_of_nil in Hx].
    by apply (chain_fun add_child_nodes u32_max). }
  destruct (decide (i = p)) as [->|Hip].
  - rewrite add_child_lookup_p in Hi. injection Hi as <-. cbn in Hch.
    destruct (tw_nodes t Ht p np Hp Hpv) as (_ & (l' & Hch' & _ & _) & _).
    pose proof (Hun p np l' Hp Hpv Hch') as Hcl.
    assert (l = c :: l') as ->.
    { eapply (chain_fun add_child_nodes); [done|exact Hch|]. cbn. split; [done|].
      exists new_child_node. split; [apply add_child_lookup_c|]. by apply add_child_chain. }
    apply (Hnd p np l' x Hp Hpv Hch'). set_solver.
  - rewrite add_child_lookup_ne in Hi by done.
    destruct (tw_nodes t Ht i n Hi Hv) as (_ & (l' & Hch' & _ & _) & _).
    assert (l = l') as ->; [|by apply (Hnd i n l' x)].
    eapply (chain_fun add_child_nodes); [done|exact Hch|].
    apply add_child_chain; [|done]. by apply (Hun i n l').
Qed.
End add_child.

(** Invalidating a set closed under children keeps the tree well formed. *)
Lemma inval_wf t R :
  tree_wf t → NoDup R → (∀ x, x ∈ R → valid_at (dt_nodes t) x = true) →
  (∀ x y, x ∈ R → child_of (dt_nodes t) x y → y ∈ R) →
  tree_wf (mkDerivationTree (inval R (dt_nodes t)) (dt_count t - length R)).
Proof.
  intros Ht Hnd HRv Hcl. split; cbn.
  - intros i n Hi Hv. rewrite inval_lookup in Hi.
    destruct (dt_nodes t !! i) as [n0|] eqn:Hn0; [|done]. cbn in Hi.
    destruct (decide (i ∈ R)) as [|HiR]; [by simplify_eq|]. injection Hi as ->.
    destruct (tw_nodes t Ht i n Hn0 Hv) as (Hd & (l & Hch & Hnd' & Hl) & Hlk).
    split_and!; [done| |].
    + exists l. split_and!; [by apply inval_chain|done|]. intros x nx Hx Hnx.
      rewrite inval_lookup in Hnx. destruct (dt_nodes t !! x) as [nx0|] eqn:Hnx0; [|done].
      cbn in Hnx. pose proof (Hl x nx0 Hx Hnx0). destruct (decide _); by simplify_eq.
    + intros Hd'. destruct (Hlk Hd') as (p & np & l' & Hp & Hnp & Hpv & Hch' & Hx).
      assert (p ∉ R) as HpR.
      { intros HpR. apply HiR. apply (Hcl p i HpR). exists np, n. by split_and!. }
      exists p, np, l'. split_and!; [done| |done|by apply inval_chain|done].
      rewrite inval_lookup, Hnp. cbn. by rewrite decide_False.
  - pose proof (inval_count R (dt_nodes t) Hnd HRv). rewrite (tw_count t Ht). lia.
  - rewrite length_inval. apply (tw_size t Ht).
Qed.

(* ------------------------------------------------------------------ *)
(** ** Revocation *)

Lemma tree_revoke_spec fuel t i :
  tree_wf t → valid_at (dt_nodes t) i = true → (length (dt_nodes t) < fuel)%nat →
  ∃ R, NoDup R ∧ (∀ x, x ∈ R ↔ descendant (dt_nodes t) i x) ∧
    (∀ x, x ∈ R → valid_at (dt_nodes t) x = true) ∧
    let t' := mkDerivationTree (inval R (dt_nodes t)) (dt_count t - length R) in
    tree_revoke fuel t (Z.of_nat i) = Some (Ok (length R), t') ∧ tree_wf t' ∧
    (∃ R', R' ≡ₚ R ∧ collect_subtree fuel t (Z.of_nat i) =
      Some (pad_result (length (dt_nodes t)) (Z.of_nat <$> R'))).
Proof.
  intros Ht Hv Hf. destruct (revoke_subtree_spec t Ht fuel i Hv Hf)
    as (R & Hnd & Hel & HRv & Hrev & Hcol).
  exists R. cbv zeta. do 3 (split; [done|]). split_and!; [| |by eauto].
  - unfold tree_revoke. apply valid_at_true in Hv as (n & Hn & Hv).
    rewrite node_at_nat, Hn, Hv. cbn [negb]. by rewrite Hrev.
  - apply inval_wf; [done..|]. intros x y Hx Hxy. apply Hel. apply Hel in Hx.
    by eapply rtc_r.
Qed.

(** C27: Revoking a live node of a well-formed tree returns, with one unit of
    fuel more than the array has slots, and kills exactly the node's
    descendants: every other node keeps its state, the count drops by the
    number returned, [collect_subtree] lists the same nodes once each, and the
    tree stays well formed.  Trees of which only dead slots were filled and only
    roots revoked are well formed ([tree_history_wf]); other histories can leave
    that set, and revoking then need not return ([add_child_relink_diverges]). *)
Theorem tree_revoke_exact fuel t i :
  tree_wf t → tree_is_valid t (Z.of_nat i) = true → (length (dt_nodes t) < fuel)%nat →
  ∃ k t' l,
    tree_revoke fuel t (Z.of_nat i) = Some (Ok k, t') ∧ tree_wf t' ∧
    (∀ x, tree_is_valid t' (Z.of_nat x) = true ↔
          tree_is_valid t (Z.of_nat x) = true ∧ ¬ descendant (dt_nodes t) i x) ∧
    (tree_len t' + k = tree_len t)%nat ∧ (1 ≤ k)%nat ∧
    collect_subtree fuel t (Z.of_nat i) =
      Some (pad_result (length (dt_nodes t)) (Z.of_nat <$> l)) ∧
    NoDup l ∧ length l = k ∧ ∀ x, x ∈ l ↔ descendant (dt_nodes t) i x.
Proof.
  intros Ht Hv Hf. rewrite valid_at_nat in Hv.
  destruct (tree_revoke_spec fuel t i Ht Hv Hf)
    as (R & Hnd & Hel & HRv & Hrev & Hwf & R' & HR' & Hcol).
  eexists (length R), _, R'. split_and!; [exact Hrev|done| | | |exact Hcol| | |].
  - intros x. rewrite !valid_at_nat. cbn [dt_nodes]. rewrite inval_valid_at, andb_true_iff.
    rewrite negb_true_iff, bool_decide_eq_false, Hel. done.
  - pose proof (inval_count R (dt_nodes t) Hnd HRv). pose proof (tw_count t Ht).
    unfold tree_len. cbn. lia.
  - assert (i ∈ R) as Hi by (apply Hel, rtc_refl). destruct R; [|simpl; lia].
    by apply not_elem_of_nil in Hi.
  - by rewrite HR'.
  - by rewrite HR'.
  - intros x. by rewrite HR', Hel.
Qed.

(** A tree grown by its operations: roots and children go into dead slots,
    and only roots are revoked. *)
Inductive tree_step (t : DerivationTree) : DerivationTree → Prop :=
| step_add_root c epoch :
    (c < length (dt_nodes t))%nat → tree_is_valid t (Z.of_nat c) = false →
    tree_step t (add_root (Z.of_nat c) epoch t).2
| step_add_child p np c depth epoch :
    dt_nodes t !! p = Some np → nd_is_valid np = true → nd_depth np < depth →
    (c < length (dt_nodes t))%nat → tree_is_valid t (Z.of_nat c) = false →
    tree_step t (add_child (Z.of_nat p) (Z.of_nat c) depth epoch t).2
| step_revoke_root i n k t' :
    dt_nodes t !! i = Some n → nd_depth n = 0 →
    tree_revoke (S (length (dt_nodes t))) t (Z.of_nat i) = Some (Ok k, t') →
    tree_step t t'.

Lemma revoke_root_no_dangling t i n R :
  tree_wf t → no_dangling (dt_nodes t) → dt_nodes t !! i = Some n → nd_depth n = 0 →
  (∀ x, x ∈ R ↔ descendant (dt_nodes t) i x) → no_dangling (inval R (dt_nodes t)).
Proof.
  intros Ht Hnd Hi Hd Hel j nj l x Hj Hjv Hch Hx. rewrite inval_lookup in Hj.
  destruct (dt_nodes t !! j) as [nj0|] eqn:Hnj; [|done]. cbn in Hj.
  destruct (decide (j ∈ R)) as [|HjR]; [by simplify_eq|]. injection Hj as ->.
  destruct (wf_children t Ht j nj Hnj Hjv) as (l' & Hch' & _ & Hl').
  assert (l = l') as ->.
  { eapply (chain_fun (inval R (dt_nodes t))); [|exact Hch|by apply inval_chain].
    rewrite length_inval. apply (tw_size t Ht). }
  pose proof (Hnd j nj l' x Hnj Hjv Hch' Hx) as Hxv.
  assert (child_of (dt_nodes t) j x) as Hjx by (apply Hl'; by apply list_elem_of_filter).
  rewrite inval_valid_at, Hxv. apply negb_true_iff, bool_decide_eq_false. rewrite Hel.
  intros Hdesc. apply rtc_inv_r in Hdesc as [->|(y & Hy & Hyx)].
  - destruct Hjx as (? & nx & _ & Hnx & _ & _ & Hne & _). by simplify_eq.
  - apply HjR, Hel. by rewrite (child_of_parent_unique _ _ _ _ Hjx Hyx).
Qed.

Lemma tree_step_inv t t' :
  tree_step t t' → tree_wf t ∧ no_dangling (dt_nodes t) → tree_wf t' ∧ no_dangling (dt_nodes t').
Proof.
  intros Hs [Ht Hnd]. destruct Hs as [c epoch Hlt Hc|p np c depth epoch Hp Hpv Hd Hlt Hc|i n k t' Hi Hd Hr].
  - rewrite valid_at_nat in Hc.
    destruct (add_root_wf t c epoch Ht Hlt Hc) as (_ & ? & ?); [|by auto].
    by apply no_dangling_unlinked.
  - rewrite valid_at_nat in Hc. rewrite (add_child_eq t p c np depth epoch Hp Hpv Hlt). cbn.
    pose proof (no_dangling_unlinked _ c Hnd Hc) as Hun.
    split; [by eapply add_child_wf|by eapply add_child_no_dangling].
  - assert (valid_at (dt_nodes t) i = true) as Hv.
    { unfold tree_revoke in Hr. rewrite node_at_nat, Hi in Hr. unfold valid_at. rewrite Hi.
      destruct (nd_is_valid n); [done|]. by simplify_eq/=. }
    destruct (tree_revoke_spec _ t i Ht Hv (Nat.lt_succ_diag_r _))
      as (R & Hnd' & Hel & HRv & Hrev & Hwf & _).
    rewrite Hrev in Hr. injection Hr as <- <-. split; [done|]. cbn.
    by eapply revoke_root_no_dangling.
Qed.

Lemma tree_steps_inv t t' :
  rtc tree_step t t' → tree_wf t ∧ no_dangling (dt_nodes t) → tree_wf t' ∧ no_dangling (dt_nodes t').
Proof. induction 1; eauto using tree_step_inv. Qed.

(** Every history that fills dead slots and revokes only roots keeps the
    tree well formed, with nothing but live nodes on the lists of live nodes;
    so each of its revocations is exact. *)
Theorem tree_history_wf N t :
  Z.of_nat N ≤ u32_max → rtc tree_step (tree_new N) t →
  tree_wf t ∧ no_dangling (dt_nodes t).
Proof.
  intros HN Hs. apply (tree_steps_inv _ _ Hs).
  split; [by apply tree_new_wf|apply tree_new_no_dangling].
Qed.

(** A sample history: root 0, its child 1, its grandchild 2, a second root 3. *)
Definition sample_tree : DerivationTree :=
  let t := (add_root 0 0 (tree_new 4)).2 in
  let t := (add_child 0 1 1 0 t).2 in
  let t := (add_child 1 2 2 0 t).2 in
  (add_root 3 0 t).2.

Lemma sample_tree_steps : rtc tree_step (tree_new 4) sample_tree.
Proof.
  eapply rtc_l; [apply (step_add_root _ 0 0); by vm_compute; try lia|].
  eapply rtc_l; [eapply (step_add_child _ 0 _ 1 1 0); by vm_compute; try lia|].
  eapply rtc_l; [eapply (step_add_child _ 1 _ 2 2 0); by vm_compute; try lia|].
  eapply rtc_l; [eapply (step_add_root _ 3 0); by vm_compute; try lia|].
  apply rtc_refl.
Qed.

Lemma sample_tree_wf : tree_wf sample_tree.
Proof.
  apply (tree_steps_inv _ _ sample_tree_steps).
  split; [by apply tree_new_wf|apply tree_new_no_dangling].
Qed.

Lemma tree_history_wf_witness :
  Z.of_nat 4 ≤ u32_max ∧ tree_wf sample_tree ∧ no_dangling (dt_nodes sample_tree).
Proof.
  split; [by vm_compute|].
  apply (tree_history_wf 4); [by vm_compute|exact sample_tree_steps].
Defined.

Lemma tree_revoke_exact_witness :
  tree_wf sample_tree ∧
  ∃ k t', tree_revoke 5 sample_tree (Z.of_nat 1) = Some (Ok k, t') ∧ k = 2%nat ∧
    tree_is_valid t' (Z.of_nat 0) = true ∧ tree_len t' = 2%nat.
Proof.
  split; [exact sample_tree_wf|].
  destruct (tree_revoke_exact 5 sample_tree 1 sample_tree_wf eq_refl ltac:(vm_compute; lia))
    as (k & t' & l & Hr & _ & _ & Hlen & _).
  exists k, t'. split; [exact Hr|]. vm_compute in Hr. injection Hr as <- <-. by vm_compute.
Defined.

(** In a well-formed tree [find_parent] needs only its cached fast path:
    whatever the fuel it returns, and it answers exactly the parent relation. *)
Theorem find_parent_spec fuel t x :
  tree_wf t →
  ∃ r, find_parent fuel t (Z.of_nat x) = Some r ∧
    ∀ p, r = Some (Z.of_nat p) ↔ child_of (dt_nodes t) p x.
Proof.
  intros Ht. unfold find_parent. rewrite node_at_nat.
  destruct (dt_nodes t !! x) as [n|] eqn:Hn.
  2: { exists None. split; [done|]. intros p. split; [done|].
       intros (? & ? & _ & ? & _). congruence. }
  destruct (nd_is_valid n) eqn:Hv; cbn [negb].
  2: { exists None. split; [done|]. intros p. split; [done|].
       intros (? & ? & _ & ? & _ & ? & _). congruence. }
  destruct (nd_depth n =? 0) eqn:Hd; split_bool.
  { exists None. split; [done|]. intros p. split; [done|].
    intros (? & ? & _ & ? & _ & _ & ? & _). congruence. }
  destruct (tw_nodes t Ht x n Hn Hv) as (_ & _ & Hlk).
  destruct (Hlk Hd) as (p & np & l & Hp & Hnp & Hpv & _).
  pose proof (index_not_max _ _ _ (tw_size t Ht) Hnp) as Hmax.
  rewrite Hp, valid_at_nat. unfold valid_at. rewrite Hnp, Hpv.
  destruct (Z.of_nat p =? u32_max) eqn:E; split_bool; [lia|]. cbn.
  exists (Some (Z.of_nat p)). split; [done|]. intros p'. split.
  - intros [= ->%Nat2Z.inj]. by exists np, n.
  - intros (? & n' & _ & Hn' & _ & _ & _ & E'). simplify_eq. by rewrite <-Hp, E'.
Qed.

Lemma find_parent_spec_witness :
  tree_wf sample_tree ∧
  ∃ r, find_parent 0 sample_tree (Z.of_nat 2) = Some r ∧ r = Some (Z.of_nat 1).
Proof.
  split; [exact sample_tree_wf|].
  destruct (find_parent_spec 0 sample_tree 2 sample_tree_wf) as (r & Hr & Hp).
  exists r. split; [exact Hr|]. apply Hp.
  eexists _, _. by vm_compute.
Defined.

(** The inner walk never leaves a node that is its own next sibling. *)
Lemma push_children_self_loop fuel nodes c n stack :
  nodes !! c = Some n → nd_next_sibling n = Z.of_nat c → Z.of_nat c ≠ u32_max →
  push_children fuel nodes (Z.of_nat c) stack = None.
Proof.
  intros Hn Hs Hm. revert stack. induction fuel as [|fuel IH]; intros stack; [done|]. simpl.
  destruct (Z.of_nat c =? u32_max) eqn:E; split_bool; [done|].
  rewrite node_at_nat, Hn, Hs. apply IH.
Qed.

(** Granting again into the slot of a revoked child that is still at the
    head of its parent's list makes that child its own next sibling.  From
    then on neither [revoke] nor [collect_subtree] of the parent returns,
    whatever the fuel. *)
Theorem add_child_relink_diverges t p c np depth epoch fuel :
  tree_wf t → dt_nodes t !! p = Some np → nd_is_valid np = true →
  nd_first_child np = Z.of_nat c → tree_is_valid t (Z.of_nat c) = false →
  (c < length (dt_nodes t))%nat →
  let t' := (add_child (Z.of_nat p) (Z.of_nat c) depth epoch t).2 in
  (add_child (Z.of_nat p) (Z.of_nat c) depth epoch t).1 = Ok tt ∧
  tree_revoke fuel t' (Z.of_nat p) = None ∧ collect_subtree fuel t' (Z.of_nat p) = None.
Proof.
  intros Ht Hp Hpv Hfc Hc Hlt. rewrite valid_at_nat in Hc.
  rewrite (add_child_eq t p c np depth epoch Hp Hpv Hlt). cbn [fst snd]. split; [done|].
  pose proof (tw_size t Ht) as Hsz. assert (Z.of_nat c ≠ u32_max) as Hmax by lia.
  assert (c ≠ p) as Hne by (intros ->; unfold valid_at in Hc; rewrite Hp in Hc; congruence).
  assert (add_child_nodes t p c np depth epoch !! c = Some (new_child_node p np depth epoch)) as Hlc
    by by apply add_child_lookup_c.
  assert (add_child_nodes t p c np depth epoch !! p = Some (set_first_child (Z.of_nat c) np)) as Hlp
    by by apply add_child_lookup_p.
  set (nodes := add_child_nodes t p c np depth epoch) in *.
  assert (∀ nodes' stack, nodes' !! c = nodes !! c →
            push_children fuel nodes' (Z.of_nat c) stack = None) as Hloop.
  { intros nodes' stack E. eapply push_children_self_loop; [by rewrite E|done|done]. }
  split.
  - unfold tree_revoke, revoke_subtree. cbn [dt_nodes dt_count].
    rewrite node_at_nat, Hlp. cbn [set_first_child nd_is_valid negb]. rewrite Hpv. cbn [negb].
    destruct fuel as [|f]; [done|]. cbn [revoke_loop]. rewrite node_at_nat, Hlp.
    cbn [set_first_child nd_is_valid nd_first_child negb]. rewrite Hpv. cbn [negb].
    rewrite Hloop; [done|]. by rewrite list_lookup_insert_ne by (rewrite Nat2Z.id; done).
  - unfold collect_subtree. cbn [dt_nodes]. rewrite node_at_nat, Hlp.
    cbn [set_first_child nd_is_valid]. rewrite Hpv.
    destruct fuel as [|f]; [done|]. cbn [collect_loop]. rewrite node_at_nat, Hlp.
    cbn [set_first_child nd_is_valid nd_first_child negb]. rewrite Hpv. cbn [negb].
    by rewrite Hloop.
Qed.

(** Root 0 grants child 1 and revokes it. *)
Definition sample_granted : DerivationTree := (add_child 0 1 1 0 (add_root 0 0 (tree_new 4)).2).2.
Definition sample_revoked : DerivationTree :=
  match tree_revoke 5 sample_granted 1 with Some (_, t) => t | None => sample_granted end.

Lemma sample_revoked_wf : tree_wf sample_revoked.
Proof.
  assert (tree_wf sample_granted) as Ht0.
  { apply (tree_steps_inv (tree_new 4)).
    - eapply rtc_l; [apply (step_add_root _ 0 0); by vm_compute; try lia|].
      eapply rtc_l; [eapply (step_add_child _ 0 _ 1 1 0); by vm_compute; try lia|].
      apply rtc_refl.
    - split; [by apply tree_new_wf|apply tree_new_no_dangling]. }
  destruct (tree_revoke_spec 5 sample_granted 1 Ht0 eq_refl ltac:(vm_compute; lia))
    as (R & _ & _ & _ & Hr & Hwf & _).
  unfold sample_revoked. change 1 with (Z.of_nat 1). by rewrite Hr.
Qed.

(** Granting from root 0 again reuses slot 1. *)
Lemma add_child_relink_diverges_witness :
  tree_wf sample_revoked ∧
  tree_revoke 1000 (add_child (Z.of_nat 0) (Z.of_nat 1) 1 0 sample_revoked).2 (Z.of_nat 0) = None.
Proof.
  split; [exact sample_revoked_wf|].
  destruct (add_child_relink_diverges sample_revoked 0 1 (mkDerivationNode true 0 0 1 u32_max u32_max)
    1 0 1000 sample_revoked_wf eq_refl eq_refl eq_refl eq_refl ltac:(vm_compute; lia)) as (_ & H & _).
  exact H.
Defined.
