(* ===== verification/CapVerify.v ===== *)
(** Granting and the three proof layers: [crates/rvm-cap/src/grant.rs] and
    [crates/rvm-cap/src/verify.rs].

    P1 looks a handle up and compares epoch and rights, P2 checks a policy
    context and consumes a nonce, P3 walks the derivation tree to a root.  The
    nonce tracker is a 4096-entry ring with a direct-mapped index and a
    watermark. *)

From stdpp Require Import base numbers list option sets gmap relations.
From Stdlib Require Import ZArith Lia.
From S2P Require Import Prelude.
From S2P Require Import Types.
From S2P Require Import CapTable.
From S2P Require Import Derivation.

(* ------------------------------------------------------------------ *)
(** ** Granting *)

Definition DEFAULT_MAX_DELEGATION_DEPTH : Z := 8.

Record GrantPolicy : Set := mkGrantPolicy {
  gp_max_depth : Z;
  gp_allow_grant_once : bool;
}.

Definition grant_policy_new : GrantPolicy := mkGrantPolicy DEFAULT_MAX_DELEGATION_DEPTH true.
Definition grant_policy_with_max_depth (d : Z) : GrantPolicy := mkGrantPolicy d true.

(** The derived token, its depth, and whether the source loses [GRANT_ONCE]. *)
Definition validate_grant `{!Bitflags} (source : CapSlot) (requested_rights : CapRights)
    (new_id badge epoch : Z) (policy : GrantPolicy) : CapResult (CapToken * Z * bool) :=
  let source_rights := tok_rights (sl_token source) in
  let has_grant := contains source_rights GRANT in
  let has_grant_once := gp_allow_grant_once policy && contains source_rights GRANT_ONCE in
  if negb has_grant && negb has_grant_once then Err CeGrantNotPermitted
  else if negb (contains source_rights requested_rights) then Err CeRightsEscalation
  else
    new_depth ← ok_or (checked_add u8_max (sl_depth source) 1) CeDelegationDepthExceeded;
    if gp_max_depth policy <? new_depth then Err CeDelegationDepthExceeded
    else
      let derived_token := mkCapToken new_id (tok_type (sl_token source)) requested_rights epoch in
      Ok (derived_token, new_depth, negb has_grant && has_grant_once).

(* ------------------------------------------------------------------ *)
(** ** The verifier *)

Definition NONCE_RING_SIZE : nat := 4096.

Record PolicyContext : Set := mkPolicyContext {
  pc_expected_owner : Z;
  pc_region_base : Z;
  pc_region_limit : Z;
  pc_lease_expiry_ns : Z;
  pc_current_time_ns : Z;
  pc_max_delegation_depth : Z;
  pc_nonce : Z;
}.

Record ProofVerifier : Set := mkProofVerifier {
  pv_current_epoch : Z;
  pv_nonce_ring : list Z;
  pv_nonce_hash : list Z;
  pv_nonce_write_pos : nat;
  pv_nonce_watermark : Z;
  pv_allow_zero_nonce : bool;
}.

Definition verifier_new (epoch : Z) : ProofVerifier :=
  mkProofVerifier epoch (replicate NONCE_RING_SIZE 0) (replicate NONCE_RING_SIZE 0) 0 0 false.

Definition set_allow_zero_nonce (allow : bool) (v : ProofVerifier) : ProofVerifier :=
  mkProofVerifier (pv_current_epoch v) (pv_nonce_ring v) (pv_nonce_hash v)
    (pv_nonce_write_pos v) (pv_nonce_watermark v) allow.

Definition set_epoch (epoch : Z) (v : ProofVerifier) : ProofVerifier :=
  mkProofVerifier epoch (pv_nonce_ring v) (pv_nonce_hash v)
    (pv_nonce_write_pos v) (pv_nonce_watermark v) (pv_allow_zero_nonce v).

(** P1: every check contributes a bit of [fail_mask], decoded in order. *)
Definition verify_p1 `{!Bitflags} (v : ProofVerifier) (table : CapabilityTable)
    (cap_index cap_generation : Z) (required_rights : CapRights) : result ProofError unit :=
  let fail_mask := 0 in
  let '(fail_mask, epoch_match, rights_match) :=
    match table_lookup table cap_index cap_generation with
    | Ok slot => (fail_mask, tok_epoch (sl_token slot) =? pv_current_epoch v,
                  has_rights (sl_token slot) required_rights)
    | Err _ => (Z.lor fail_mask 1, false, false)
    end in
  let fail_mask := if negb epoch_match then Z.lor fail_mask 2 else fail_mask in
  let fail_mask := if negb rights_match then Z.lor fail_mask 4 else fail_mask in
  if fail_mask =? 0 then Ok tt
  else if negb (Z.land fail_mask 1 =? 0) then Err PeInvalidHandle
  else if negb (Z.land fail_mask 2 =? 0) then Err PeStaleCapability
  else Err PeInsufficientRights.

Definition hash_slot (nonce : Z) : nat := Z.to_nat (nonce mod Z.of_nat NONCE_RING_SIZE).

Definition check_nonce (v : ProofVerifier) (nonce : Z) : bool :=
  if nonce =? 0 then pv_allow_zero_nonce v
  else if nonce <=? pv_nonce_watermark v then false
  else if default 0 (pv_nonce_hash v !! hash_slot nonce) =? nonce then false
  else true.

(** The smallest non-zero entry, [u64::MAX] when there is none. *)
Definition ring_min (ring : list Z) : Z :=
  foldl (λ min_val entry, if negb (entry =? 0) && (entry <? min_val) then entry else min_val)
    u64_max ring.

Definition mark_nonce (nonce : Z) (v : ProofVerifier) : ProofVerifier :=
  if nonce =? 0 then v
  else
    let ring := <[pv_nonce_write_pos v := nonce]> (pv_nonce_ring v) in
    let hash := <[hash_slot nonce := nonce]> (pv_nonce_hash v) in
    let write_pos := ((pv_nonce_write_pos v + 1) mod NONCE_RING_SIZE)%nat in
    let watermark :=
      if (write_pos =? 0)%nat then
        let min_val := ring_min ring in
        if negb (min_val =? u64_max) && (pv_nonce_watermark v <? min_val)
        then min_val else pv_nonce_watermark v
      else pv_nonce_watermark v in
    mkProofVerifier (pv_current_epoch v) ring hash write_pos watermark (pv_allow_zero_nonce v).

(** P2: all five checks are evaluated, then the nonce is consumed. *)
Definition verify_p2 (table : CapabilityTable) (tree : DerivationTree)
    (cap_index cap_generation : Z) (ctx : PolicyContext) : prog ProofVerifier ProofError unit := λ v,
  let valid := true in
  let owner_ok := is_ok_and (table_lookup table cap_index cap_generation)
                    (λ slot, sl_owner slot =? pc_expected_owner ctx) in
  let valid := valid && owner_ok in
  let valid := valid && (pc_region_base ctx <? pc_region_limit ctx) in
  let valid := valid && (pc_current_time_ns ctx <=? pc_lease_expiry_ns ctx) in
  let depth_ok := is_ok_and (tree_depth tree cap_index)
                    (λ d, d <=? pc_max_delegation_depth ctx) in
  let valid := valid && depth_ok in
  let nonce_ok := check_nonce v (pc_nonce ctx) in
  let valid := valid && nonce_ok in
  if valid then (Ok tt, mark_nonce (pc_nonce ctx) v) else (Err PePolicyViolation, v).

(** P3's [loop]; [steps] is a [u8]. *)
Fixpoint p3_loop (fuel : nat) (tree : DerivationTree)
    (current_idx current_depth current_epoch steps max_depth : Z)
    : option (result ProofError unit) :=
  match fuel with
  | O => None
  | S fuel' =>
      let steps := wrap8 (steps + 1) in
      if max_depth <? steps then Some (Err PeDerivationChainBroken)
      else
        parent_idx ← find_parent fuel tree current_idx;
        match parent_idx with
        | None => Some (Err PeDerivationChainBroken)
        | Some pidx =>
            match tree_get tree pidx with
            | None => Some (Err PeDerivationChainBroken)
            | Some parent =>
                if negb (nd_is_valid parent) then Some (Err PeDerivationChainBroken)
                else if current_depth <=? nd_depth parent then Some (Err PeDerivationChainBroken)
                else if current_epoch <? nd_epoch parent then Some (Err PeDerivationChainBroken)
                else if nd_depth parent =? 0 then Some (Ok tt)
                else p3_loop fuel' tree pidx (nd_depth parent) (nd_epoch parent) steps max_depth
            end
        end
  end.

Definition verify_p3 (fuel : nat) (table : CapabilityTable) (tree : DerivationTree)
    (cap_index cap_generation max_depth : Z) : option (result ProofError unit) :=
  match table_lookup table cap_index cap_generation with
  | Err _ => Some (Err PeDerivationChainBroken)
  | Ok _ =>
      match tree_get tree cap_index with
      | None => Some (Err PeDerivationChainBroken)
      | Some node =>
          if negb (nd_is_valid node) then Some (Err PeDerivationChainBroken)
          else if nd_depth node =? 0 then Some (Ok tt)
          else p3_loop fuel tree cap_index (nd_depth node) (nd_epoch node) 0 max_depth
      end
  end.

(* ------------------------------------------------------------------ *)
(** ** Granting attenuates *)

Section grant.
Context {BF : Bitflags} {BL : BitflagsLaws}.

(** A grant is accepted exactly when the source may delegate, holds every
    requested right and is below the depth limit (and below the [u8] limit);
    the derived token has the source's type, exactly the requested rights and
    depth one more, and [GRANT_ONCE] is consumed exactly when it was the only
    authority.  The error names the first check that fails. *)
Theorem validate_grant_spec source requested new_id badge epoch policy :
  let rights := tok_rights (sl_token source) in
  let may_grant := contains rights GRANT in
  let may_once := gp_allow_grant_once policy && contains rights GRANT_ONCE in
  match validate_grant source requested new_id badge epoch policy with
  | Ok (token, depth, consume) =>
      (may_grant = true ∨ may_once = true) ∧
      token = mkCapToken new_id (tok_type (sl_token source)) requested epoch ∧
      (∀ r, contains requested r = true → contains rights r = true) ∧
      depth = sl_depth source + 1 ∧ depth ≤ u8_max ∧ depth ≤ gp_max_depth policy ∧
      consume = negb may_grant
  | Err CeGrantNotPermitted => may_grant = false ∧ may_once = false
  | Err CeRightsEscalation =>
      (may_grant = true ∨ may_once = true) ∧ contains rights requested = false
  | Err CeDelegationDepthExceeded =>
      contains rights requested = true ∧
      (u8_max < sl_depth source + 1 ∨ gp_max_depth policy < sl_depth source + 1)
  | Err _ => False
  end.
Proof.
  cbv zeta. unfold validate_grant.
  set (g := contains (tok_rights (sl_token source)) GRANT).
  set (o := gp_allow_grant_once policy && contains (tok_rights (sl_token source)) GRANT_ONCE).
  destruct (negb g && negb o) eqn:E1.
  { apply andb_true_iff in E1 as [E1 E2]. by rewrite !negb_true_iff in E1, E2. }
  assert (g = true ∨ o = true) as Hgo by (destruct g, o; naive_solver).
  destruct (contains (tok_rights (sl_token source)) requested) eqn:E2; cbn [negb]; [|done].
  destruct (checked_add u8_max (sl_depth source) 1) as [d|] eqn:E3; cbn.
  2: { apply checked_add_None in E3. split; [done|]. by left. }
  apply checked_add_Some in E3 as [-> Hmax].
  destruct (gp_max_depth policy <? sl_depth source + 1) eqn:E4; split_bool.
  { split; [done|]. right. lia. }
  split_and!; try done; try lia.
  - intros r Hr. by eapply contains_trans.
  - destruct g, o; naive_solver.
Qed.
End grant.

Lemma validate_grant_spec_witness :
  let source := mkCapSlot (mkCapToken 1 CtRegion 65 0) 1 7 2 u32_max 0 in
  validate_grant source 1 9 5 0 grant_policy_new = Ok (mkCapToken 9 CtRegion 1 0, 3, true) ∧
  contains (tok_rights (sl_token source)) 1 = true.
Proof.
  intros source. split; [by vm_compute|].
  pose proof (validate_grant_spec source 1 9 5 0 grant_policy_new) as H.
  replace (validate_grant source 1 9 5 0 grant_policy_new)
    with (Ok (E:=CapError) (mkCapToken 9 CtRegion 1 0, 3, true)) in H by by vm_compute.
  destruct H as (_ & _ & Hsub & _). by apply Hsub.
Defined.

(* ------------------------------------------------------------------ *)
(** ** P1 *)

Section p1.
Context {BF : Bitflags} {BL : BitflagsLaws}.

(** P1's mask of failures decides like a chain of checks: the handle must
    resolve, then the epoch must be current, then the rights must cover what
    is required; the error is that of the first check that fails. *)
Theorem verify_p1_spec v table index generation required :
  verify_p1 v table index generation required =
    match table_lookup table index generation with
    | Err _ => Err PeInvalidHandle
    | Ok slot =>
        if negb (tok_epoch (sl_token slot) =? pv_current_epoch v) then Err PeStaleCapability
        else if negb (contains (tok_rights (sl_token slot)) required) then Err PeInsufficientRights
        else Ok tt
    end.
Proof.
  unfold verify_p1, has_rights. destruct (table_lookup table index generation) as [slot|e]; [|done].
  destruct (tok_epoch (sl_token slot) =? pv_current_epoch v),
    (contains (tok_rights (sl_token slot)) required); done.
Qed.

Lemma verify_p1_Ok v table index generation required :
  verify_p1 v table index generation required = Ok tt ↔
  ∃ slot, table_lookup table index generation = Ok slot ∧
    tok_epoch (sl_token slot) = pv_current_epoch v ∧
    contains (tok_rights (sl_token slot)) required = true.
Proof.
  unfold verify_p1, has_rights. destruct (table_lookup table index generation) as [slot|e];
    [|split; [done|by intros (? & ? & _)]].
  destruct (tok_epoch (sl_token slot) =? pv_current_epoch v) eqn:E1,
    (contains (tok_rights (sl_token slot)) required) eqn:E2; cbn; split_bool;
    (split; [intros ?; try discriminate; by exists slot|intros (s' & [= <-] & ? & ?); congruence]).
Qed.
End p1.

(* ------------------------------------------------------------------ *)
(** ** Nonces *)

Record verifier_wf (v : ProofVerifier) : Prop := {
  vw_ring : length (pv_nonce_ring v) = NONCE_RING_SIZE;
  vw_hash : length (pv_nonce_hash v) = NONCE_RING_SIZE;
  vw_pos : (pv_nonce_write_pos v < NONCE_RING_SIZE)%nat;
}.

Lemma verifier_new_wf epoch : verifier_wf (verifier_new epoch).
Proof. split; cbn; rewrite ?length_replicate; unfold NONCE_RING_SIZE; done || lia. Qed.

Lemma hash_slot_lt n : (hash_slot n < NONCE_RING_SIZE)%nat.
Proof.
  unfold hash_slot. pose proof (Z.mod_pos_bound n (Z.of_nat NONCE_RING_SIZE)).
  assert (0 < Z.of_nat NONCE_RING_SIZE) by (unfold NONCE_RING_SIZE; lia). lia.
Qed.

Lemma hash_slot_eq a b :
  hash_slot a = hash_slot b ↔ a mod Z.of_nat NONCE_RING_SIZE = b mod Z.of_nat NONCE_RING_SIZE.
Proof.
  unfold hash_slot. assert (0 < Z.of_nat NONCE_RING_SIZE) as Hp by (unfold NONCE_RING_SIZE; lia).
  pose proof (Z.mod_pos_bound a _ Hp). pose proof (Z.mod_pos_bound b _ Hp).
  split; [intros ?%Z2Nat.inj|intros ->]; done || lia.
Qed.

Lemma mark_nonce_wf n v : verifier_wf v → verifier_wf (mark_nonce n v).
Proof.
  intros [Hr Hh Hp]. unfold mark_nonce. destruct (n =? 0); [done|].
  split; cbn [pv_nonce_ring pv_nonce_hash pv_nonce_write_pos]; rewrite ?length_insert; try done.
  apply Nat.mod_upper_bound. done.
Qed.

(** The watermark only moves up. *)
Lemma mark_nonce_watermark n v : pv_nonce_watermark v ≤ pv_nonce_watermark (mark_nonce n v).
Proof.
  unfold mark_nonce. destruct (n =? 0); [done|]. cbn [pv_nonce_watermark].
  destruct (_ =? 0)%nat; [|done]. destruct (_ && _) eqn:E; [|done]. split_bool. lia.
Qed.

Lemma mark_nonce_hash n v :
  n ≠ 0 → pv_nonce_hash (mark_nonce n v) = <[hash_slot n := n]> (pv_nonce_hash v).
Proof. intros Hn. unfold mark_nonce. by apply Z.eqb_neq in Hn as ->. Qed.

(** What makes a nonce rejected. *)
Lemma check_nonce_false v n :
  n ≠ 0 →
  check_nonce v n = false ↔
  n ≤ pv_nonce_watermark v ∨ pv_nonce_hash v !! hash_slot n = Some n.
Proof.
  intros Hn. unfold check_nonce. pose proof Hn as ->%Z.eqb_neq.
  destruct (n <=? pv_nonce_watermark v) eqn:E1; split_bool; [by split; [left|]|].
  destruct (pv_nonce_hash v !! hash_slot n) as [m|]; cbn [default from_option id].
  - destruct (m =? n) eqn:E2; split_bool.
    + split; [intros _; right; congruence|done].
    + split; [by intros ?|]. intros [?|[= ?]]; lia.
  - destruct (0 =? n) eqn:E2; split_bool; [lia|].
    split; [by intros ?|]. intros [?|?]; [lia|done].
Qed.

(** The nonces two marked nonces share a cell with. *)
Definition collides (a b : Z) : Prop :=
  a ≠ b ∧ a mod Z.of_nat NONCE_RING_SIZE = b mod Z.of_nat NONCE_RING_SIZE.

Lemma mark_nonce_keeps v n m :
  verifier_wf v → n ≠ 0 → ¬ collides m n →
  check_nonce v n = false → check_nonce (mark_nonce m v) n = false.
Proof.
  intros Hv Hn Hc. rewrite !check_nonce_false by done.
  pose proof (mark_nonce_watermark m v). intros [Hw|Hh]; [left; lia|].
  destruct (decide (m = 0)) as [->|Hm]; [by right|]. right.
  rewrite mark_nonce_hash by done. destruct (decide (hash_slot m = hash_slot n)) as [E|E].
  - destruct (decide (m = n)) as [->|].
    + apply list_lookup_insert_eq. rewrite (vw_hash v Hv). apply hash_slot_lt.
    + exfalso. apply Hc. split; [done|]. by apply hash_slot_eq.
  - by rewrite list_lookup_insert_ne.
Qed.

Definition mark_all (ns : list Z) (v : ProofVerifier) : ProofVerifier :=
  foldl (λ v n, mark_nonce n v) v ns.

Lemma mark_all_keeps v n ns :
  verifier_wf v → n ≠ 0 → Forall (λ m, ¬ collides m n) ns →
  check_nonce v n = false → check_nonce (mark_all ns v) n = false.
Proof.
  revert v. induction ns as [|m ns IH]; intros v Hv Hn; [done|].
  intros [Hm Hns]%Forall_cons Hc. cbn. apply IH; [by apply mark_nonce_wf|done..|].
  by apply mark_nonce_keeps.
Qed.

Lemma check_nonce_marked v n :
  verifier_wf v → n ≠ 0 → check_nonce (mark_nonce n v) n = false.
Proof.
  intros Hv Hn. apply check_nonce_false; [done|]. right. rewrite mark_nonce_hash by done.
  apply list_lookup_insert_eq. rewrite (vw_hash v Hv). apply hash_slot_lt.
Qed.

(** A consumed nonce is rejected from then on, as long as no other nonce
    of the same residue modulo 4096 is consumed after it; zero aside, a nonce
    at or below the watermark is rejected forever. *)
Theorem nonce_replay_rejected v n ns :
  verifier_wf v → n ≠ 0 → Forall (λ m, ¬ collides m n) ns →
  check_nonce (mark_all ns (mark_nonce n v)) n = false.
Proof.
  intros Hv Hn Hns. apply mark_all_keeps; [by apply mark_nonce_wf|done..|].
  by apply check_nonce_marked.
Qed.

Lemma nonce_replay_rejected_witness :
  verifier_wf (verifier_new 0) ∧
  check_nonce (mark_all [2; 3; 4099] (mark_nonce 1 (verifier_new 0))) 1 = false.
Proof.
  split; [apply verifier_new_wf|].
  apply nonce_replay_rejected; [apply verifier_new_wf|done|].
  repeat constructor; by intros [_ ?].
Defined.

(** The protection ends with a collision.  Consuming [n] and then
    [n + 4096] makes [n] acceptable again while it is still in the ring,
    because the index keeps one nonce per residue and the watermark moves only
    when the ring wraps. *)
Theorem nonce_replay_after_collision epoch n :
  0 < n → n + 4096 ≤ u64_max →
  let v := mark_nonce (n + 4096) (mark_nonce n (verifier_new epoch)) in
  check_nonce (mark_nonce n (verifier_new epoch)) (n + 4096) = true ∧
  n ∈ pv_nonce_ring v ∧ check_nonce v n = true.
Proof.
  intros Hn Hmax. set (v1 := mark_nonce n (verifier_new epoch)).
  assert (hash_slot (n + 4096) = hash_slot n) as Hh.
  { apply hash_slot_eq. change (Z.of_nat NONCE_RING_SIZE) with 4096.
    by rewrite <-(Z.mod_add n 1 4096) at 1. }
  assert (n =? 0 = false) as En by lia. assert (n + 4096 =? 0 = false) as En' by lia.
  assert (pv_nonce_hash v1 = <[hash_slot n := n]> (replicate NONCE_RING_SIZE 0)) as Hh1.
  { unfold v1. rewrite mark_nonce_hash by lia. done. }
  assert (pv_nonce_watermark v1 = 0) as Hw1 by (unfold v1, mark_nonce; by rewrite En).
  assert (pv_nonce_write_pos v1 = 1%nat) as Hp1 by (unfold v1, mark_nonce; by rewrite En).
  assert (pv_nonce_ring v1 = <[0%nat := n]> (replicate NONCE_RING_SIZE 0)) as Hr1
    by (unfold v1, mark_nonce; by rewrite En).
  pose proof (hash_slot_lt n) as Hlt. cbv zeta. split_and!.
  - apply not_false_iff_true. rewrite check_nonce_false by lia.
    rewrite Hw1, Hh1, Hh. intros [?|Hl]; [lia|].
    rewrite list_lookup_insert_eq in Hl by (by rewrite length_replicate). simplify_eq. lia.
  - unfold mark_nonce at 1. rewrite En'. cbn [pv_nonce_ring]. rewrite Hr1, Hp1.
    apply (list_elem_of_lookup_2 _ 0). rewrite list_lookup_insert_ne by done.
    apply list_lookup_insert_eq. rewrite length_replicate. unfold NONCE_RING_SIZE. lia.
  - apply not_false_iff_true. rewrite check_nonce_false by lia.
    assert (pv_nonce_watermark (mark_nonce (n + 4096) v1) = 0) as Hw2.
    { unfold mark_nonce at 1. rewrite En'. cbn [pv_nonce_watermark]. by rewrite Hp1, Hw1. }
    rewrite mark_nonce_hash, Hh1, Hh, Hw2 by lia. rewrite list_insert_insert_eq.
    intros [?|Hl]; [lia|].
    rewrite list_lookup_insert_eq in Hl by (by rewrite length_replicate). simplify_eq. lia.
Qed.

Lemma nonce_replay_after_collision_witness :
  0 < 1 ∧ 1 + 4096 ≤ u64_max ∧
  check_nonce (mark_nonce (1 + 4096) (mark_nonce 1 (verifier_new 0))) 1 = true.
Proof.
  split; [done|]. split; [done|].
  apply (nonce_replay_after_collision 0 1); done.
Defined.

(* ------------------------------------------------------------------ *)
(** ** P3 *)

(** [x] reaches a root in [k] parent steps, with epochs that do not decrease
    from root to leaf. *)
Inductive rooted (nodes : list DerivationNode) : nat → nat → Prop :=
| rooted_root x n :
    nodes !! x = Some n → nd_is_valid n = true → nd_depth n = 0 → rooted nodes 0 x
| rooted_child k p x np nx :
    child_of nodes p x → nodes !! p = Some np → nodes !! x = Some nx →
    nd_epoch np ≤ nd_epoch nx → rooted nodes k p → rooted nodes (S k) x.

Section p3.
Context (t : DerivationTree) (Ht : tree_wf t).
Local Notation nodes := (dt_nodes t).

Lemma find_parent_fast fuel p x np :
  child_of nodes p x → nodes !! p = Some np →
  find_parent fuel t (Z.of_nat x) = Some (Some (Z.of_nat p)) ∧ tree_get t (Z.of_nat p) = Some np.
Proof using Ht.
  intros (np' & nx & Hp & Hx & Hpv & Hxv & Hd & Hpar) Hp'. simplify_eq.
  pose proof (index_not_max _ _ _ (tw_size t Ht) Hp) as Hmax. split.
  - unfold find_parent. rewrite node_at_nat, Hx, Hxv. cbn [negb].
    destruct (nd_depth nx =? 0) eqn:E; split_bool; [done|].
    rewrite Hpar. destruct (Z.of_nat p =? u32_max) eqn:E2; split_bool; [lia|].
    rewrite valid_at_nat. unfold valid_at. by rewrite Hp, Hpv.
  - unfold tree_get. by rewrite node_at_nat, Hp, Hpv.
Qed.

Lemma parent_exists x n :
  nodes !! x = Some n → nd_is_valid n = true → nd_depth n ≠ 0 →
  ∃ p np, child_of nodes p x ∧ nodes !! p = Some np ∧ nd_is_valid np = true ∧
    0 ≤ nd_depth np < nd_depth n.
Proof using Ht.
  intros Hx Hv Hd. destruct (tw_nodes t Ht x n Hx Hv) as (_ & _ & Hlk).
  destruct (Hlk Hd) as (p & np & l & Hp & Hnp & Hpv & _).
  assert (child_of nodes p x) as Hc by (by exists np, n).
  exists p, np. split_and!; try done.
  - by apply (tw_nodes t Ht p np).
  - by eapply child_of_depth.
Qed.

Lemma rooted_zero_inv k x n :
  rooted nodes k x → nodes !! x = Some n → nd_depth n = 0 → k = O.
Proof.
  intros Hr Hx Hd. destruct Hr as [|k p x np nx Hc]; [done|].
  destruct Hc as (? & ? & _ & ? & _ & _ & ? & _). simplify_eq.
Qed.

Lemma rooted_step_inv k p x np nx :
  rooted nodes k x → child_of nodes p x → nodes !! p = Some np → nodes !! x = Some nx →
  ∃ k', k = S k' ∧ rooted nodes k' p ∧ nd_epoch np ≤ nd_epoch nx.
Proof.
  intros Hr Hc Hp Hx. destruct Hr as [x n Hn _ Hd|k p' x np' nx' Hc' Hp' Hx' He Hr].
  - destruct Hc as (? & ? & _ & ? & _ & _ & ? & _). simplify_eq.
  - rewrite (child_of_parent_unique t _ _ _ Hc Hc') in *. simplify_eq. eauto.
Qed.

(** The walk from [x] with [s] steps done decides whether a root is at most
    [max_depth - s] steps away. *)
Lemma p3_loop_spec fuel x n s max_depth :
  nodes !! x = Some n → nd_is_valid n = true → nd_depth n ≠ 0 →
  nd_depth n < Z.of_nat fuel → 0 ≤ s → s + nd_depth n ≤ u8_max → s ≤ max_depth →
  ∃ r, p3_loop fuel t (Z.of_nat x) (nd_depth n) (nd_epoch n) s max_depth = Some r ∧
    (r = Ok tt ∨ r = Err PeDerivationChainBroken) ∧
    (r = Ok tt ↔ ∃ k, rooted nodes k x ∧ s + Z.of_nat k ≤ max_depth).
Proof using Ht.
  revert x n s. induction fuel as [|fuel IH]; intros x n s Hx Hv Hd Hf Hs Hu Hmax.
  { pose proof (tw_nodes t Ht x n Hx Hv) as [? _]. lia. }
  destruct (parent_exists x n Hx Hv Hd) as (p & np & Hc & Hp & Hpv & Hpd).
  destruct (find_parent_fast (S fuel) p x np Hc Hp) as [Hfp Hget].
  assert (∀ k, rooted nodes k x → ∃ k', k = S k' ∧ rooted nodes k' p ∧ nd_epoch np ≤ nd_epoch n)
    as Hinv by (intros k Hr; by eapply rooted_step_inv).
  cbn [p3_loop]. unfold u8_max in *. unfold wrap8. rewrite Z.mod_small by lia.
  destruct (max_depth <? s + 1) eqn:E1; split_bool.
  { eexists. split_and!; [done|by right|]. split; [done|].
    intros (k & (k' & -> & _)%Hinv & ?). lia. }
  rewrite Hfp. cbn [mbind option_bind]. rewrite Hget, Hpv. cbn [negb].
  destruct (nd_depth n <=? nd_depth np) eqn:E2; split_bool; [lia|].
  destruct (nd_epoch n <? nd_epoch np) eqn:E3; split_bool.
  { eexists. split_and!; [done|by right|]. split; [done|].
    intros (k & (k' & -> & _ & ?)%Hinv & ?). lia. }
  destruct (nd_depth np =? 0) eqn:E4; split_bool.
  { eexists. split_and!; [done|by left|]. split; [|done]. intros _.
    exists 1%nat. split; [|lia]. eapply rooted_child; [done..|]. by eapply rooted_root. }
  destruct (IH p np (s + 1) Hp Hpv E4 ltac:(lia) ltac:(lia) ltac:(lia) ltac:(lia)) as (r & Hr & Hrr & Hspec).
  exists r. split_and!; [done..|]. rewrite Hspec. split.
  - intros (k & Hk & ?). exists (S k). split; [by eapply rooted_child|lia].
  - intros (k & (k' & -> & Hk & _)%Hinv & ?). exists k'. split; [done|lia].
Qed.
End p3.

(** On a well-formed tree P3 always returns, for any fuel above the
    capability's depth, and accepts exactly the resolvable capabilities whose
    ancestors lead to a root within [max_depth] steps with epochs that never
    decrease towards the leaf; every other outcome is a broken chain. *)
Theorem verify_p3_spec fuel table t index generation max_depth :
  tree_wf t → 0 ≤ max_depth →
  (∀ n, dt_nodes t !! index = Some n → nd_depth n ≤ u8_max ∧ nd_depth n < Z.of_nat fuel) →
  ∃ r, verify_p3 fuel table t (Z.of_nat index) generation max_depth = Some r ∧
    (r = Ok tt ∨ r = Err PeDerivationChainBroken) ∧
    (r = Ok tt ↔
      is_ok (table_lookup table (Z.of_nat index) generation) = true ∧
      ∃ k, rooted (dt_nodes t) k index ∧ Z.of_nat k ≤ max_depth).
Proof.
  intros Ht Hmax Hf. unfold verify_p3.
  destruct (table_lookup table (Z.of_nat index) generation) as [slot|e]; cbn [is_ok].
  2: { eexists. split_and!; [done|by right|]. split; [done|by intros [? _]]. }
  unfold tree_get. rewrite node_at_nat. destruct (dt_nodes t !! index) as [n|] eqn:Hn.
  2: { eexists. split_and!; [done|by right|]. split; [done|]. intros (_ & k & Hr & _).
       exfalso. destruct Hr as [|k p x np nx]; congruence. }
  destruct (nd_is_valid n) eqn:Hv; cbn [negb].
  2: { eexists. split_and!; [done|by right|]. split; [done|]. intros (_ & k & Hr & _).
       exfalso. destruct Hr as [|k p x np nx (? & ? & _ & ? & _ & ? & _)]; congruence. }
  rewrite Hv. cbn [negb]. destruct (nd_depth n =? 0) eqn:Hd; split_bool.
  { eexists. split_and!; [done|by left|]. split; [|done]. intros _. split; [done|].
    exists O. split; [by eapply rooted_root|]. lia. }
  destruct (Hf n eq_refl) as [Hu Hfn].
  destruct (p3_loop_spec t Ht fuel index n 0 max_depth Hn Hv Hd Hfn ltac:(lia) ltac:(lia) ltac:(lia))
    as (r & Hr & Hrr & Hspec).
  exists r. split_and!; [done..|]. rewrite Hspec. split; intros; [split; [done|]|]; naive_solver lia.
Qed.

Lemma verify_p3_spec_witness :
  let table := (insert_derived (mkCapToken 1 CtRegion 3 0) 7 2 1 5
                 (mkCapabilityTable (replicate 4 slot_empty) 0 2)).2 in
  tree_wf sample_tree ∧ verify_p3 3 table sample_tree (Z.of_nat 2) 1 2 = Some (Ok tt).
Proof.
  intros table. split; [exact sample_tree_wf|].
  destruct (verify_p3_spec 3 table sample_tree 2 1 2 sample_tree_wf) as (r & Hr & _ & Hok).
  - lia.
  - intros n Hn. vm_compute in Hn. injection Hn as <-. by vm_compute.
  - rewrite Hr. f_equal. apply Hok. split; [by vm_compute|]. exists 2%nat. split; [|lia].
    eapply (rooted_child _ _ 1); [eexists _, _; by vm_compute|done|done|cbn; lia|].
    eapply (rooted_child _ _ 0); [eexists _, _; by vm_compute|done|done|cbn; lia|].
    by eapply rooted_root.
Defined.

(* ------------------------------------------------------------------ *)
(** ** P2 *)


(** The five conditions of P2, in the order of the code. *)
Definition p2_policy (table : CapabilityTable) (tree : DerivationTree)
    (index generation : Z) (ctx : PolicyContext) (v : ProofVerifier) : Prop :=
  (∃ slot, table_lookup table index generation = Ok slot ∧ sl_owner slot = pc_expected_owner ctx) ∧
  pc_region_base ctx < pc_region_limit ctx ∧
  pc_current_time_ns ctx ≤ pc_lease_expiry_ns ctx ∧
  (∃ d, tree_depth tree index = Ok d ∧ d ≤ pc_max_delegation_depth ctx) ∧
  check_nonce v (pc_nonce ctx) = true.

Lemma is_ok_and_true {E A} (r : result E A) p :
  is_ok_and r p = true ↔ ∃ a, r = Ok a ∧ p a = true.
Proof. destruct r; cbn; split; [by eauto|by intros (? & [= <-] & ?)|done|by intros (? & ? & ?)]. Qed.

(** P2 accepts exactly when the handle resolves to the expected owner, the
    region is non-empty, the lease has not expired, the derivation depth is
    within the limit and the nonce is fresh; it then consumes the nonce, so
    the same context is refused next time, and on refusal it reports only a
    policy violation and changes nothing. *)
Theorem verify_p2_spec table tree index generation ctx v :
  verifier_wf v →
  match verify_p2 table tree index generation ctx v with
  | (Ok _, v') =>
      p2_policy table tree index generation ctx v ∧ v' = mark_nonce (pc_nonce ctx) v ∧
      (pc_nonce ctx ≠ 0 →
       verify_p2 table tree index generation ctx v' = (Err PePolicyViolation, v'))
  | (Err e, v') =>
      ¬ p2_policy table tree index generation ctx v ∧ e = PePolicyViolation ∧ v' = v
  end.
Proof.
  intros Hv. unfold verify_p2 at 1. cbn [andb].
  match goal with |- context [if ?b then _ else _] => destruct b eqn:E end.
  - split_and!; [|done|].
    + rewrite !andb_true_iff, !is_ok_and_true in E. unfold p2_policy.
      destruct E as [[[[(s & ? & ?) ?] ?] (d & ? & ?)] ?]. split_bool. eauto 10.
    + intros Hn. unfold verify_p2. rewrite check_nonce_marked by done. by rewrite andb_false_r.
  - split_and!; [|done..]. intros ((s & Hs & Ho) & Hb & Ht & (d & Hd & Hm) & Hn).
    rewrite Hs, Hd, Hn in E. cbn in E. rewrite Ho, Z.eqb_refl in E. split_bool.
    repeat match type of E with _ && _ = false => apply andb_false_iff in E as [E|E] end;
      split_bool; done || lia.
Qed.

Lemma verify_p2_spec_witness :
  let tok := mkCapToken 1 CtRegion 3 0 in
  let table := (insert_derived tok 7 0 u32_max 5 (table_new 4)).2 in
  let ctx := mkPolicyContext 7 0 10 100 50 8 42 in
  let v := verifier_new 0 in
  verifier_wf v ∧ (verify_p2 table sample_tree 0 1 ctx v).1 = Ok tt ∧
  (verify_p2 table sample_tree 0 1 ctx (mark_nonce 42 v)).1 = Err PePolicyViolation.
Proof.
  intros tok table ctx v. split; [apply verifier_new_wf|].
  pose proof (verify_p2_spec table sample_tree 0 1 ctx v (verifier_new_wf 0)) as H.
  assert (verify_p2 table sample_tree 0 1 ctx v = (Ok tt, mark_nonce 42 v)) as Hok by by vm_compute.
  rewrite Hok in H. destruct H as (_ & _ & H). split; [by rewrite Hok|]. rewrite H; [done|]. done.
Defined.
