(* ===== verification/CapManager.v ===== *)
(** The capability manager: [crates/rvm-cap/src/manager.rs] and
    [crates/rvm-cap/src/revoke.rs].

    The manager keeps the table, the derivation tree and the verifier in step.
    [mgr_inv] states what "in step" means; the file proves that creation,
    granting, revocation of roots, P2 and epoch changes keep it, that
    revocation kills exactly the subtree in the table, and that what a
    partition can reach by delegation is bounded by the roots. *)

From stdpp Require Import base numbers list option sets gmap relations.
From Stdlib Require Import ZArith Lia.
From S2P Require Import Prelude.
From S2P Require Import Types.
From S2P Require Import CapTable.
From S2P Require Import Derivation.
From S2P Require Import CapVerify.

Open Scope rvm_scope.

(* ------------------------------------------------------------------ *)
(** ** Revocation over table and tree *)

Record RevokeResult : Set := mkRevokeResult { rr_revoked_count : nat }.

(** The table is synchronised with every collected index, padding included. *)
Definition revoke_capability (fuel : nat) (table : CapabilityTable) (tree : DerivationTree)
    (index generation : Z) : option (CapResult RevokeResult * (CapabilityTable * DerivationTree)) :=
  match table_lookup table index generation with
  | Err e => Some (Err e, (table, tree))
  | Ok _ =>
      revoked_indices ← collect_subtree fuel tree index;
      '(r, tree') ← tree_revoke fuel tree index;
      match map_err (λ _, CeRevoked) r with
      | Err e => Some (Err e, (table, tree'))
      | Ok revoked =>
          Some (Ok (mkRevokeResult revoked),
                (foldl (λ t idx, force_invalidate idx t) table revoked_indices, tree'))
      end
  end.

Definition revoke_single (index generation : Z) : prog CapabilityTable CapError unit :=
  table_remove index generation.

(* ------------------------------------------------------------------ *)
(** ** The manager *)

Record CapManagerConfig : Set := mkCapManagerConfig {
  cc_max_delegation_depth : Z;
  cc_track_derivation : bool;
  cc_initial_epoch : Z;
}.

Definition cap_config_new : CapManagerConfig :=
  mkCapManagerConfig DEFAULT_MAX_DELEGATION_DEPTH true 0.
Definition with_max_depth (depth : Z) (c : CapManagerConfig) : CapManagerConfig :=
  mkCapManagerConfig depth (cc_track_derivation c) (cc_initial_epoch c).

Record ManagerStats : Set := mkManagerStats {
  ms_caps_created : Z;
  ms_caps_granted : Z;
  ms_caps_revoked : Z;
  ms_revoke_operations : Z;
  ms_max_depth_reached : Z;
}.

Record CapabilityManager : Set := mkCapabilityManager {
  mg_table : CapabilityTable;
  mg_derivation : DerivationTree;
  mg_verifier : ProofVerifier;
  mg_config : CapManagerConfig;
  mg_grant_policy : GrantPolicy;
  mg_epoch : Z;
  mg_next_id : Z;
  mg_stats : ManagerStats;
}.

Definition manager_new (N : nat) (config : CapManagerConfig) : CapabilityManager :=
  mkCapabilityManager (table_new N) (tree_new N) (verifier_new (cc_initial_epoch config))
    config (mkGrantPolicy (cc_max_delegation_depth config) true)
    (cc_initial_epoch config) 1 (mkManagerStats 0 0 0 0 0).
Definition manager_with_defaults (N : nat) : CapabilityManager := manager_new N cap_config_new.

Definition manager_len (m : CapabilityManager) : nat := table_len (mg_table m).
Definition manager_is_empty (m : CapabilityManager) : bool := table_is_empty (mg_table m).

Definition set_mg_table (t : CapabilityTable) (m : CapabilityManager) : CapabilityManager :=
  mkCapabilityManager t (mg_derivation m) (mg_verifier m) (mg_config m) (mg_grant_policy m)
    (mg_epoch m) (mg_next_id m) (mg_stats m).
Definition set_mg_derivation (t : DerivationTree) (m : CapabilityManager) : CapabilityManager :=
  mkCapabilityManager (mg_table m) t (mg_verifier m) (mg_config m) (mg_grant_policy m)
    (mg_epoch m) (mg_next_id m) (mg_stats m).
Definition set_mg_verifier (v : ProofVerifier) (m : CapabilityManager) : CapabilityManager :=
  mkCapabilityManager (mg_table m) (mg_derivation m) v (mg_config m) (mg_grant_policy m)
    (mg_epoch m) (mg_next_id m) (mg_stats m).
Definition set_mg_next_id (id : Z) (m : CapabilityManager) : CapabilityManager :=
  mkCapabilityManager (mg_table m) (mg_derivation m) (mg_verifier m) (mg_config m)
    (mg_grant_policy m) (mg_epoch m) id (mg_stats m).
Definition set_mg_stats (s : ManagerStats) (m : CapabilityManager) : CapabilityManager :=
  mkCapabilityManager (mg_table m) (mg_derivation m) (mg_verifier m) (mg_config m)
    (mg_grant_policy m) (mg_epoch m) (mg_next_id m) s.

(** Method calls on the fields. *)
Definition on_table {A} (op : prog CapabilityTable CapError A)
    : prog CapabilityManager CapError A := pzoom mg_table set_mg_table op.
Definition on_derivation {A} (op : prog DerivationTree CapError A)
    : prog CapabilityManager CapError A := pzoom mg_derivation set_mg_derivation op.

Definition increment_epoch (m : CapabilityManager) : CapabilityManager :=
  let epoch := wrap32 (mg_epoch m + 1) in
  mkCapabilityManager (mg_table m) (mg_derivation m) (set_epoch epoch (mg_verifier m))
    (mg_config m) (mg_grant_policy m) epoch (mg_next_id m) (mg_stats m).

(** [self.next_id = self.next_id.checked_add(1).ok_or(TableFull)?]. *)
Definition take_id : prog CapabilityManager CapError Z :=
  let? id := pgets mg_next_id in
  let? next := plift (ok_or (checked_add u64_max id 1) CeTableFull) in
  pmodify (set_mg_next_id next) ;;;
  pret id.

Definition bump_created (s : ManagerStats) : ManagerStats :=
  mkManagerStats (wrap64 (ms_caps_created s + 1)) (ms_caps_granted s) (ms_caps_revoked s)
    (ms_revoke_operations s) (ms_max_depth_reached s).
Definition bump_granted (depth : Z) (s : ManagerStats) : ManagerStats :=
  mkManagerStats (ms_caps_created s) (wrap64 (ms_caps_granted s + 1)) (ms_caps_revoked s)
    (ms_revoke_operations s)
    (if ms_max_depth_reached s <? depth then depth else ms_max_depth_reached s).
Definition bump_revoked (k : nat) (s : ManagerStats) : ManagerStats :=
  mkManagerStats (ms_caps_created s) (ms_caps_granted s)
    (wrap64 (ms_caps_revoked s + Z.of_nat k)) (wrap64 (ms_revoke_operations s + 1))
    (ms_max_depth_reached s).

Definition create_root_capability_inner (cap_type : CapType) (rights : CapRights) (badge : Z)
    (owner : PartitionId) : prog CapabilityManager CapError (Z * Z) :=
  let? id := take_id in
  let? epoch := pgets mg_epoch in
  let? handle := on_table (insert_root (mkCapToken id cap_type rights epoch) owner badge) in
  let? track := pgets (λ m, cc_track_derivation (mg_config m)) in
  (if track : bool then on_derivation (add_root handle.1 epoch) else pret tt) ;;;
  pmodify (λ m, set_mg_stats (bump_created (mg_stats m)) m) ;;;
  pret handle.

Definition create_root_capability : CapType → CapRights → Z → PartitionId →
    prog CapabilityManager CapError (Z * Z) := create_root_capability_inner.

Definition create_root_capability_checked (cap_type : CapType) (rights : CapRights) (badge : Z)
    (owner caller_id : PartitionId) : prog CapabilityManager CapError (Z * Z) :=
  if negb (is_hypervisor caller_id) then pfail CeGrantNotPermitted
  else create_root_capability_inner cap_type rights badge owner.

(** On a tree error the table insertion is rolled back. *)
Definition track_child (source_index child_index depth epoch : Z)
    : prog CapabilityManager CapError unit := λ m,
  match on_derivation (add_child source_index child_index depth epoch) m with
  | (Ok _, m') => (Ok tt, m')
  | (Err e, m') => (Err e, set_mg_table (force_invalidate child_index (mg_table m')) m')
  end.

Definition strip_grant_once `{!Bitflags} (slot : CapSlot) : CapSlot :=
  let token := sl_token slot in
  mkCapSlot (mkCapToken (tok_id token) (tok_type token)
      (difference (tok_rights token) GRANT_ONCE) (tok_epoch token))
    (sl_generation slot) (sl_owner slot) (sl_depth slot) (sl_parent_index slot) (sl_badge slot).

(** [if let Ok(slot) = lookup_mut(..) { .. }]: a failed lookup is ignored. *)
Definition consume_source `{!Bitflags} (index generation : Z)
    : prog CapabilityManager CapError unit := λ m,
  (Ok tt, (on_table (lookup_mut index generation strip_grant_once) m).2).

Definition grant_with_caller `{!Bitflags} (source_index source_generation : Z)
    (requested_rights : CapRights) (badge : Z) (target_owner : PartitionId)
    (caller_id : option PartitionId) : prog CapabilityManager CapError (Z * Z) :=
  let? source_copy := λ m, (table_lookup (mg_table m) source_index source_generation, m) in
  (match caller_id with
   | Some caller => if negb (sl_owner source_copy =? caller) then pfail CeGrantNotPermitted
                    else pret tt
   | None => pret tt
   end) ;;;
  let? id := take_id in
  let? epoch := pgets mg_epoch in
  let? policy := pgets mg_grant_policy in
  let? granted := plift (validate_grant source_copy requested_rights id badge epoch policy) in
  let '(derived_token, depth, consume_grant_once) := granted in
  let? child := on_table (insert_derived derived_token target_owner depth source_index badge) in
  let? track := pgets (λ m, cc_track_derivation (mg_config m)) in
  (if track : bool then track_child source_index child.1 depth epoch else pret tt) ;;;
  (if consume_grant_once : bool then consume_source source_index source_generation else pret tt) ;;;
  pmodify (λ m, set_mg_stats (bump_granted depth (mg_stats m)) m) ;;;
  pret child.

Definition grant `{!Bitflags} (source_index source_generation : Z) (requested_rights : CapRights)
    (badge : Z) (target_owner : PartitionId) : prog CapabilityManager CapError (Z * Z) :=
  grant_with_caller source_index source_generation requested_rights badge target_owner None.

Definition grant_checked `{!Bitflags} (source_index source_generation : Z)
    (requested_rights : CapRights) (badge : Z) (target_owner caller_id : PartitionId)
    : prog CapabilityManager CapError (Z * Z) :=
  grant_with_caller source_index source_generation requested_rights badge target_owner
    (Some caller_id).

Definition manager_revoke (fuel : nat) (index generation : Z) (m : CapabilityManager)
    : option (CapResult RevokeResult * CapabilityManager) :=
  '(r, (table, tree)) ← revoke_capability fuel (mg_table m) (mg_derivation m) index generation;
  let m := set_mg_derivation tree (set_mg_table table m) in
  match r with
  | Err e => Some (Err e, m)
  | Ok result => Some (Ok result,
      set_mg_stats (bump_revoked (rr_revoked_count result) (mg_stats m)) m)
  end.

Definition manager_verify_p1 `{!Bitflags} (m : CapabilityManager) (index generation : Z)
    (required : CapRights) : result ProofError unit :=
  verify_p1 (mg_verifier m) (mg_table m) index generation required.

Definition manager_verify_p2 (index generation : Z) (ctx : PolicyContext)
    : prog CapabilityManager ProofError unit := λ m,
  pzoom mg_verifier set_mg_verifier
    (verify_p2 (mg_table m) (mg_derivation m) index generation ctx) m.

Definition manager_verify_p3 (fuel : nat) (m : CapabilityManager) (index generation max_depth : Z)
    : option (result ProofError unit) :=
  verify_p3 fuel (mg_table m) (mg_derivation m) index generation max_depth.

(* ------------------------------------------------------------------ *)
(** ** Table and tree in step *)

(** [a] grants nothing [b] does not, the one-shot delegation right (bit 6)
    aside. *)
Definition attenuated (a b : CapRights) : Prop :=
  ∀ i, 0 ≤ i → i ≠ 6 → Z.testbit a i = true → Z.testbit b i = true.

Definition derives (sp sx : CapSlot) (p : nat) : Prop :=
  sl_parent_index sx = Z.of_nat p ∧ sl_depth sx = sl_depth sp + 1 ∧
  tok_type (sl_token sx) = tok_type (sl_token sp) ∧
  attenuated (tok_rights (sl_token sx)) (tok_rights (sl_token sp)) ∧
  tok_epoch (sl_token sp) ≤ tok_epoch (sl_token sx).

Record sync (maxd epoch : Z) (slots : list CapSlot) (nodes : list DerivationNode) : Prop := {
  sy_size : length slots = length nodes;
  sy_valid i s : slots !! i = Some s → valid_at nodes i = slot_is_valid s;
  sy_node i s n : slots !! i = Some s → nodes !! i = Some n → slot_is_valid s = true →
    sl_depth s = nd_depth n ∧ nd_depth n ≤ maxd ∧
    nd_epoch n = tok_epoch (sl_token s) ∧ nd_epoch n ≤ epoch;
  sy_child p x sp sx : child_of nodes p x → slots !! p = Some sp → slots !! x = Some sx →
    derives sp sx p;
}.

Record mgr_inv (m : CapabilityManager) : Prop := {
  mi_table : table_inv (mg_table m);
  mi_tree : tree_wf (mg_derivation m);
  mi_verifier : verifier_wf (mg_verifier m);
  mi_track : cc_track_derivation (mg_config m) = true;
  mi_policy : mg_grant_policy m = mkGrantPolicy (cc_max_delegation_depth (mg_config m)) true;
  mi_maxd : 0 ≤ cc_max_delegation_depth (mg_config m) ≤ u8_max;
  mi_epoch : pv_current_epoch (mg_verifier m) = mg_epoch m;
  mi_sync : sync (cc_max_delegation_depth (mg_config m)) (mg_epoch m)
              (tb_slots (mg_table m)) (dt_nodes (mg_derivation m));
}.

Lemma attenuated_refl a : attenuated a a.
Proof. by intros i. Qed.

Lemma attenuated_trans a b c : attenuated a b → attenuated b c → attenuated a c.
Proof. intros Hab Hbc i Hi Hne Ha. by apply Hbc, Hab. Qed.

Lemma sync_epoch maxd e e' slots nodes :
  e ≤ e' → sync maxd e slots nodes → sync maxd e' slots nodes.
Proof.
  intros He [Hs Hv Hn Hc]. split; [done|done| |done].
  intros i s n Hi Hni Hvi. destruct (Hn i s n Hi Hni Hvi) as (? & ? & ? & ?).
  split_and!; done || lia.
Qed.

Section children.
Context (t : DerivationTree) (Ht : tree_wf t).
Local Notation nodes := (dt_nodes t).

(** A live non-root was already the child of its parent. *)
Lemma old_child x p nx :
  nodes !! x = Some nx → nd_is_valid nx = true → nd_depth nx ≠ 0 →
  nd_parent_index nx = Z.of_nat p → child_of nodes p x.
Proof using Ht.
  intros Hx Hv Hd Hp. destruct (parent_exists t Ht x nx Hx Hv Hd) as (q & nq & Hq & _).
  pose proof Hq as (? & nx' & _ & Hx' & _ & _ & _ & Hpar). simplify_eq.
  rewrite Hp in Hpar. by apply Nat2Z.inj in Hpar as <-.
Qed.

Lemma child_of_ne p x c : valid_at nodes c = false → child_of nodes p x → p ≠ c ∧ x ≠ c.
Proof.
  intros Hc (np & nx & Hp & Hx & Hpv & Hxv & _). unfold valid_at in Hc.
  split; intros ->; [rewrite Hp in Hc|rewrite Hx in Hc]; congruence.
Qed.

Lemma child_of_fill_root c epoch p x :
  valid_at nodes c = false → child_of (<[c:=node_new_root epoch]> nodes) p x →
  child_of nodes p x.
Proof using Ht.
  intros Hc (np & nx & Hp & Hx & Hpv & Hxv & Hd & Hpar).
  apply list_lookup_insert_Some in Hx as [(_ & <- & _)|(Hne & Hx)]; [done|].
  by eapply old_child.
Qed.

Lemma child_of_add_child p c np depth epoch q x :
  nodes !! p = Some np → nd_is_valid np = true →
  (c < length nodes)%nat → valid_at nodes c = false →
  child_of (add_child_nodes t p c np depth epoch) q x →
  (q = p ∧ x = c) ∨ child_of nodes q x.
Proof using Ht.
  intros Hp Hpv Hlt Hc (nq & nx & Hq & Hx & Hqv & Hxv & Hd & Hpar).
  destruct (decide (x = c)) as [->|Hne].
  - rewrite add_child_lookup_c in Hx by done. injection Hx as <-. cbn in Hpar.
    apply Nat2Z.inj in Hpar. by left.
  - right. edestruct (add_child_lookup_old t p c np) as (nx0 & Hx0 & Ev & Ed & Ep); [done..|].
    rewrite Ev in Hxv. rewrite Ed in Hd. rewrite Ep in Hpar. by eapply old_child.
Qed.

Lemma child_of_inval R p x : child_of (inval R nodes) p x → child_of nodes p x.
Proof.
  intros (np & nx & Hp & Hx & Hpv & Hxv & Hd & Hpar). rewrite inval_lookup in Hp, Hx.
  destruct (nodes !! p) as [np0|] eqn:Hp0, (nodes !! x) as [nx0|] eqn:Hx0; try done.
  exists np0, nx0. cbn in *. destruct (decide (p ∈ R)), (decide (x ∈ R)); by simplify_eq.
Qed.
End children.

Section sync.
Context (maxd epoch : Z) (slots : list CapSlot) (t : DerivationTree).
Context (Ht : tree_wf t) (Hs : sync maxd epoch slots (dt_nodes t)).
Local Notation nodes := (dt_nodes t).

Lemma sync_slot_valid i n : nodes !! i = Some n → nd_is_valid n = true →
  ∃ s, slots !! i = Some s ∧ slot_is_valid s = true.
Proof using Hs.
  intros Hi Hv. destruct (lookup_lt_is_Some_2 slots i) as [s Hsi].
  { rewrite (sy_size _ _ _ _ Hs). by eapply lookup_lt_Some. }
  exists s. split; [done|]. rewrite <-(sy_valid _ _ _ _ Hs i s Hsi). apply valid_at_true. eauto.
Qed.

Lemma sync_node i s : slots !! i = Some s → ∃ n, nodes !! i = Some n ∧ nd_is_valid n = slot_is_valid s.
Proof using Hs.
  intros Hi. destruct (lookup_lt_is_Some_2 nodes i) as [n Hn].
  { rewrite <-(sy_size _ _ _ _ Hs). by eapply lookup_lt_Some. }
  exists n. split; [done|]. pose proof (sy_valid _ _ _ _ Hs i s Hi) as Hv.
  unfold valid_at in Hv. by rewrite Hn in Hv.
Qed.

Lemma sync_fill_root c s' e :
  valid_at nodes c = false → slot_is_valid s' = true → sl_depth s' = 0 →
  tok_epoch (sl_token s') = e → e ≤ epoch → 0 ≤ maxd →
  sync maxd epoch (<[c:=s']> slots) (<[c:=node_new_root e]> nodes).
Proof using Ht Hs.
  intros Hc Hv' Hd He Hle Hmax. split.
  - by rewrite !length_insert, (sy_size _ _ _ _ Hs).
  - intros i s [(-> & -> & Hlt)|(Hne & Hi)]%list_lookup_insert_Some.
    + unfold valid_at. rewrite list_lookup_insert_eq by (by rewrite <-(sy_size _ _ _ _ Hs)). done.
    + unfold valid_at. rewrite list_lookup_insert_ne by done. by apply (sy_valid _ _ _ _ Hs).
  - intros i s n [(-> & -> & Hlt)|(Hne & Hi)]%list_lookup_insert_Some Hn Hvs.
    + rewrite list_lookup_insert_eq in Hn by (by rewrite <-(sy_size _ _ _ _ Hs)).
      injection Hn as <-. cbn. split_and!; done || lia.
    + rewrite list_lookup_insert_ne in Hn by done. by apply (sy_node _ _ _ _ Hs i s n).
  - intros p x sp sx Hpx%child_of_fill_root; [|done..].
    destruct (child_of_ne t p x c Hc Hpx) as [Hp Hx].
    rewrite !list_lookup_insert_ne by done. by apply (sy_child _ _ _ _ Hs).
Qed.

Lemma sync_fill_child p np sp c s' e :
  nodes !! p = Some np → nd_is_valid np = true → slots !! p = Some sp →
  valid_at nodes c = false → (c < length nodes)%nat → slot_is_valid s' = true →
  derives sp s' p → tok_epoch (sl_token s') = e → e ≤ epoch → sl_depth s' ≤ maxd →
  sync maxd epoch (<[c:=s']> slots) (add_child_nodes t p c np (sl_depth s') e).
Proof using Ht Hs.
  intros Hp Hpv Hsp Hc Hlt Hv' Hd He Hle Hmax.
  set (nodes' := add_child_nodes t p c np (sl_depth s') e).
  assert (c ≠ p) as Hcp by (intros ->; unfold valid_at in Hc; rewrite Hp in Hc; congruence).
  assert (nodes' !! c = Some (new_child_node p np (sl_depth s') e)) as Hlc
    by by apply add_child_lookup_c.
  assert (∀ i n, i ≠ c → nodes' !! i = Some n → ∃ n0, nodes !! i = Some n0 ∧
    nd_is_valid n = nd_is_valid n0 ∧ nd_depth n = nd_depth n0 ∧ nd_epoch n = nd_epoch n0) as Hold.
  { intros i n Hic Hi. destruct (decide (i = p)) as [->|Hip].
    - unfold nodes' in Hi. rewrite add_child_lookup_p in Hi by done. injection Hi as <-. by exists np.
    - unfold nodes' in Hi. rewrite add_child_lookup_ne in Hi by done. by exists n. }
  assert (length nodes' = length nodes) as Hlen by (unfold nodes', add_child_nodes; by rewrite !length_insert).
  split.
  - by rewrite length_insert, Hlen, (sy_size _ _ _ _ Hs).
  - intros i s [(-> & -> & _)|(Hne & Hi)]%list_lookup_insert_Some.
    + unfold valid_at. by rewrite Hlc.
    + rewrite <-(sy_valid _ _ _ _ Hs i s Hi). destruct (sync_node i s Hi) as (n0 & Hn0 & _).
      destruct (lookup_lt_is_Some_2 nodes' i) as [n Hn].
      { rewrite Hlen. by eapply lookup_lt_Some. }
      destruct (Hold i n ltac:(done) Hn) as (n0' & Hn0' & Ev & _). simplify_eq.
      unfold valid_at. by rewrite Hn, Hn0.
  - intros i s n [(-> & -> & _)|(Hne & Hi)]%list_lookup_insert_Some Hn Hvs.
    + rewrite Hlc in Hn. injection Hn as <-. cbn. split_and!; done || lia.
    + destruct (Hold i n ltac:(done) Hn) as (n0 & Hn0 & Ev & Ed & Ee). rewrite Ed, Ee.
      by apply (sy_node _ _ _ _ Hs i s n0).
  - intros q x sq sx Hqx Hq Hx.
    apply child_of_add_child in Hqx as [[-> ->]|Hqx]; [| |done..].
    + rewrite list_lookup_insert_ne in Hq by done. simplify_eq.
      rewrite list_lookup_insert_eq in Hx by (by rewrite (sy_size _ _ _ _ Hs)). by simplify_eq.
    + destruct (child_of_ne t q x c Hc Hqx). rewrite !list_lookup_insert_ne in Hq, Hx by done.
      by apply (sy_child _ _ _ _ Hs q x).
Qed.

(** Rewriting a slot's rights up to the one-shot bit. *)
Lemma sync_reslot i s s' :
  slots !! i = Some s → slot_is_valid s' = slot_is_valid s → sl_depth s' = sl_depth s →
  sl_parent_index s' = sl_parent_index s →
  tok_type (sl_token s') = tok_type (sl_token s) → tok_epoch (sl_token s') = tok_epoch (sl_token s) →
  attenuated (tok_rights (sl_token s')) (tok_rights (sl_token s)) →
  attenuated (tok_rights (sl_token s)) (tok_rights (sl_token s')) →
  sync maxd epoch (<[i:=s']> slots) nodes.
Proof using Hs.
  intros Hi Ev Ed Ep Et Ee Ha Hb. split.
  - by rewrite length_insert, (sy_size _ _ _ _ Hs).
  - intros j sj [(-> & -> & _)|(Hne & Hj)]%list_lookup_insert_Some.
    + rewrite Ev. by apply (sy_valid _ _ _ _ Hs).
    + by apply (sy_valid _ _ _ _ Hs).
  - intros j sj n [(-> & -> & _)|(Hne & Hj)]%list_lookup_insert_Some Hn Hvj.
    + rewrite Ev in Hvj. rewrite Ed, Ee. by eapply (sy_node _ _ _ _ Hs _ s).
    + by apply (sy_node _ _ _ _ Hs j).
  - assert (∀ j sj, <[i:=s']> slots !! j = Some sj → ∃ sj0, slots !! j = Some sj0 ∧
      sl_depth sj = sl_depth sj0 ∧ sl_parent_index sj = sl_parent_index sj0 ∧
      tok_type (sl_token sj) = tok_type (sl_token sj0) ∧
      tok_epoch (sl_token sj) = tok_epoch (sl_token sj0) ∧
      attenuated (tok_rights (sl_token sj)) (tok_rights (sl_token sj0)) ∧
      attenuated (tok_rights (sl_token sj0)) (tok_rights (sl_token sj))) as Hold.
    { intros j sj [(-> & -> & _)|(Hne & Hj)]%list_lookup_insert_Some.
      - by exists s.
      - exists sj. split_and!; done || apply attenuated_refl. }
    intros p x sp sx Hpx (sp0 & Hp0 & Edp & _ & Etp & Eep & Hap & Hbp)%Hold
      (sx0 & Hx0 & Edx & Epx & Etx & Eex & Hax & Hbx)%Hold.
    destruct (sy_child _ _ _ _ Hs p x sp0 sx0 Hpx Hp0 Hx0) as (? & ? & ? & Hatt & ?).
    unfold derives. split_and!; try congruence; try lia.
    eapply attenuated_trans; [done|]. by eapply attenuated_trans.
Qed.

(** Killing the same set on both sides. *)
Lemma sync_inval R slots' :
  length slots' = length slots →
  (∀ i, slots' !! i = (λ s, if decide (i ∈ R) then slot_invalidate s else s) <$> slots !! i) →
  sync maxd epoch slots' (inval R nodes).
Proof using Hs.
  intros Hlen Hl. split.
  - by rewrite length_inval, Hlen, (sy_size _ _ _ _ Hs).
  - intros i s Hi. rewrite Hl in Hi. destruct (slots !! i) as [s0|] eqn:Hs0; [|done].
    rewrite inval_valid_at, (sy_valid _ _ _ _ Hs i s0 Hs0). cbn in Hi.
    destruct (decide (i ∈ R)); injection Hi as <-.
    + rewrite bool_decide_eq_true_2 by done. by rewrite andb_false_r.
    + rewrite bool_decide_eq_false_2 by done. by rewrite andb_true_r.
  - intros i s n Hi Hn Hv. rewrite Hl in Hi. rewrite inval_lookup in Hn.
    destruct (slots !! i) as [s0|] eqn:Hs0, (nodes !! i) as [n0|] eqn:Hn0; try done.
    cbn in Hi, Hn. destruct (decide (i ∈ R)); injection Hi as <-; injection Hn as <-; [done|].
    by apply (sy_node _ _ _ _ Hs i).
  - intros p x sp sx Hpx Hp Hx. rewrite Hl in Hp, Hx.
    assert (p ∉ R ∧ x ∉ R) as [HpR HxR].
    { destruct Hpx as (np & nx & Hnp & Hnx & Hpv & Hxv & _). rewrite inval_lookup in Hnp, Hnx.
      destruct (nodes !! p), (nodes !! x); try done. cbn in Hnp, Hnx.
      destruct (decide (p ∈ R)), (decide (x ∈ R)); by simplify_eq. }
    destruct (slots !! p) as [sp0|] eqn:Hp0, (slots !! x) as [sx0|] eqn:Hx0; try done.
    cbn in Hp, Hx. rewrite decide_False in Hp by done. rewrite decide_False in Hx by done.
    simplify_eq.
    apply (sy_child _ _ _ _ Hs p x); [|done..]. by eapply child_of_inval.
Qed.
End sync.

(* ------------------------------------------------------------------ *)
(** ** Operations keep the invariant *)

(** In step, and nothing dead hangs on a live list. *)
Definition mgr_clean (m : CapabilityManager) : Prop :=
  mgr_inv m ∧ no_dangling (dt_nodes (mg_derivation m)).

Lemma mgr_inv_next_id id m : mgr_inv m → mgr_inv (set_mg_next_id id m).
Proof. by intros []. Qed.
Lemma mgr_inv_stats s m : mgr_inv m → mgr_inv (set_mg_stats s m).
Proof. by intros []. Qed.
#[export] Hint Resolve mgr_inv_next_id mgr_inv_stats : rvm.

Lemma manager_new_clean N config :
  Z.of_nat N ≤ u32_max → is_u8 (cc_max_delegation_depth config) →
  cc_track_derivation config = true → mgr_clean (manager_new N config).
Proof.
  intros HN Hd Ht. split; [|apply tree_new_no_dangling].
  split; cbn; try done.
  - by apply table_new_inv.
  - by apply tree_new_wf.
  - apply verifier_new_wf.
  - split.
    + by rewrite !length_replicate.
    + intros i s [-> Hi]%lookup_replicate. unfold valid_at. by rewrite lookup_replicate_2.
    + intros i s n [-> _]%lookup_replicate _ Hv. done.
    + intros p x sp sx (np & nx & [-> _]%lookup_replicate & _ & Hv & _). done.
Qed.

(** The manager with a new table and tree. *)
Definition with_caps (table : CapabilityTable) (tree : DerivationTree) (m : CapabilityManager)
    : CapabilityManager := set_mg_derivation tree (set_mg_table table m).

Lemma with_caps_inv m table tree :
  mgr_inv m → table_inv table → tree_wf tree →
  sync (cc_max_delegation_depth (mg_config m)) (mg_epoch m) (tb_slots table) (dt_nodes tree) →
  mgr_inv (with_caps table tree m).
Proof. intros [] ???. by split. Qed.

Section clean.
Context (m : CapabilityManager) (Hm : mgr_clean m).
Local Notation slots := (tb_slots (mg_table m)).
Local Notation nodes := (dt_nodes (mg_derivation m)).
Local Notation maxd := (cc_max_delegation_depth (mg_config m)).

(** A free table slot is a dead, unlinked tree node. *)
Lemma free_slot_node i s :
  slots !! i = Some s → slot_is_valid s = false →
  (i < length nodes)%nat ∧ valid_at nodes i = false ∧ unlinked nodes i.
Proof using Hm.
  destruct Hm as [Hi Hnd]. intros Hs Hf. pose proof (mi_sync m Hi) as Hsy.
  assert (valid_at nodes i = false) as Hv by (by rewrite (sy_valid _ _ _ _ Hsy i s Hs)).
  split_and!; [|done|by apply no_dangling_unlinked].
  rewrite <-(sy_size _ _ _ _ Hsy). by eapply lookup_lt_Some.
Qed.

Lemma fill_table_inv i s s' h :
  slots !! i = Some s → slot_is_valid s = false → slot_is_valid s' = true →
  is_u32 (sl_generation s') → (h ≤ length slots)%nat →
  table_inv (mkCapabilityTable (<[i:=s']> slots) (tb_count (mg_table m) + 1) h).
Proof using Hm.
  intros Hs Hf Hv Hg Hh. eapply table_inv_fill; try done; [apply (mi_table m), Hm|].
  split; [done|]. intros E. apply slot_is_valid_true in Hv. congruence.
Qed.

Lemma create_fill_clean i s s' h :
  slots !! i = Some s → slot_is_valid s = false → slot_is_valid s' = true →
  is_u32 (sl_generation s') → (h ≤ length slots)%nat →
  sl_depth s' = 0 → tok_epoch (sl_token s') = mg_epoch m →
  mgr_clean (with_caps (mkCapabilityTable (<[i:=s']> slots) (tb_count (mg_table m) + 1) h)
    (add_root (Z.of_nat i) (mg_epoch m) (mg_derivation m)).2 m).
Proof using Hm.
  intros Hs Hf Hv Hg Hh Hd He. destruct (free_slot_node i s Hs Hf) as (Hlt & Hdead & Hun).
  destruct Hm as [Hi Hnd].
  destruct (add_root_wf _ i (mg_epoch m) (mi_tree m Hi) Hlt Hdead Hun) as (En & Hwf & Hnd').
  split; [|by apply Hnd']. apply with_caps_inv; [done|by eapply fill_table_inv|done|].
  cbn [tb_slots]. rewrite En. apply sync_fill_root; try done.
  - apply (mi_tree m Hi).
  - apply (mi_sync m Hi).
  - apply (mi_maxd m Hi).
Qed.

Lemma grant_fill_clean p np sp i s s' h :
  nodes !! p = Some np → nd_is_valid np = true → slots !! p = Some sp →
  slots !! i = Some s → slot_is_valid s = false → slot_is_valid s' = true →
  is_u32 (sl_generation s') → (h ≤ length slots)%nat →
  derives sp s' p → tok_epoch (sl_token s') = mg_epoch m → sl_depth s' ≤ maxd →
  add_child (Z.of_nat p) (Z.of_nat i) (sl_depth s') (mg_epoch m) (mg_derivation m) =
    (Ok tt, mkDerivationTree (add_child_nodes (mg_derivation m) p i np (sl_depth s') (mg_epoch m))
              (dt_count (mg_derivation m) + 1)) ∧
  mgr_clean (with_caps (mkCapabilityTable (<[i:=s']> slots) (tb_count (mg_table m) + 1) h)
    (mkDerivationTree (add_child_nodes (mg_derivation m) p i np (sl_depth s') (mg_epoch m))
       (dt_count (mg_derivation m) + 1)) m).
Proof using Hm.
  intros Hp Hpv Hsp Hs Hf Hv Hg Hh Hd He Hle.
  destruct (free_slot_node i s Hs Hf) as (Hlt & Hdead & Hun).
  pose proof Hm as [Hi Hnd]. pose proof (mi_sync m Hi) as Hsy. pose proof (mi_tree m Hi) as Ht.
  assert (nd_depth np < sl_depth s') as Hdlt.
  { destruct (sync_node maxd (mg_epoch m) slots (mg_derivation m) Hsy p sp Hsp) as (np' & Hp' & Ev).
    simplify_eq. rewrite Hpv in Ev.
    destruct (sy_node _ _ _ _ Hsy p sp np Hsp Hp (eq_sym Ev)) as (Ed & _).
    destruct Hd as (_ & Ed' & _). lia. }
  split; [by apply add_child_eq|].
  split; [|by eapply add_child_no_dangling].
  apply with_caps_inv; [done|by eapply fill_table_inv|by eapply add_child_wf|].
  cbn [tb_slots dt_nodes]. by eapply sync_fill_child.
Qed.
End clean.

Lemma take_id_spec m :
  take_id m =
    (if mg_next_id m + 1 <=? u64_max then (Ok (mg_next_id m), set_mg_next_id (mg_next_id m + 1) m)
     else (Err CeTableFull, m)).
Proof. unfold take_id, pbind, pgets, plift, checked_add. by destruct (_ <=? _). Qed.

(** Where a successful insertion put its slot. *)
Definition inserted (m : CapabilityManager) (index generation : Z) (s' : CapSlot) (m' : CapabilityManager)
    : Prop :=
  ∃ i s, tb_slots (mg_table m) !! i = Some s ∧ slot_is_valid s = false ∧
    index = Z.of_nat i ∧ generation = slot_next_generation s ∧ sl_generation s' = generation ∧
    tb_slots (mg_table m') = <[i := s']> (tb_slots (mg_table m)).

Lemma index_wrap m i s :
  mgr_inv m → tb_slots (mg_table m) !! i = Some s → wrap32 (Z.of_nat i) = Z.of_nat i.
Proof.
  intros Hm Hs. apply wrap32_id. apply lookup_lt_Some in Hs.
  pose proof (ti_capacity _ (mi_table m Hm)). unfold is_u32. lia.
Qed.

Lemma next_generation_ok m i s :
  mgr_inv m → tb_slots (mg_table m) !! i = Some s →
  is_u32 (slot_next_generation s) ∧ slot_next_generation s ≠ 0.
Proof.
  intros Hm Hs. pose proof (slot_next_generation_range s (ti_slots _ (mi_table m Hm) i s Hs)).
  unfold is_u32. lia.
Qed.

Lemma create_root_spec m ct rights badge owner :
  mgr_clean m →
  match create_root_capability_inner ct rights badge owner m with
  | (Ok (index, g), m') =>
      mgr_clean m' ∧
      inserted m index g
        (mkCapSlot (mkCapToken (mg_next_id m) ct rights (mg_epoch m)) g owner 0 u32_max badge) m'
  | (Err e, m') => mgr_clean m' ∧ e = CeTableFull ∧ mg_table m' = mg_table m
  end.
Proof.
  intros Hm. pose proof Hm as [Hi Hnd]. unfold create_root_capability_inner, pbind.
  rewrite take_id_spec. destruct (mg_next_id m + 1 <=? u64_max); [|done].
  set (m1 := set_mg_next_id (mg_next_id m + 1) m).
  assert (mgr_clean m1) as Hm1 by (split; [by apply mgr_inv_next_id|exact Hnd]). cbn [pgets].
  unfold on_table, pzoom at 1. rewrite insert_root_derived.
  pose proof (insert_derived_spec (mkCapToken (mg_next_id m) ct rights (mg_epoch m1)) owner 0
    u32_max badge (mg_table m1) (ti_hint _ (mi_table m Hi))) as H.
  destruct (insert_derived _ owner 0 u32_max badge (mg_table m1)) as [[[idx g]|e] tab] eqn:Hins.
  2: { destruct H as (-> & -> & _). by split_and!. }
  destruct H as (i & s & Hs & Hf & -> & -> & ->).
  destruct (next_generation_ok m i s Hi Hs) as [Hg Hg0]. pose proof (lookup_lt_Some _ _ _ Hs) as Hlt.
  assert (slot_is_valid (mkCapSlot (mkCapToken (mg_next_id m) ct rights (mg_epoch m))
    (slot_next_generation s) owner 0 u32_max badge) = true) as Hv' by by apply slot_is_valid_true.
  pose proof (create_fill_clean m1 Hm1 i s _ (i + 1) Hs Hf Hv' Hg ltac:(cbn in *; lia) eq_refl eq_refl)
    as Hc.
  assert (cc_track_derivation (mg_config m) = true) as Htr by apply (mi_track m Hi).
  cbn [pgets set_mg_table mg_config set_mg_next_id m1]. rewrite Htr.
  unfold on_derivation, pzoom. cbn [fst]. rewrite (index_wrap m i s Hi Hs).
  destruct (free_slot_node m1 Hm1 i s Hs Hf) as (Hltn & _).
  destruct (lookup_lt_is_Some_2 _ _ Hltn) as [n0 Hn0].
  assert (add_root (Z.of_nat i) (mg_epoch m) (mg_derivation m) =
    (Ok tt, (add_root (Z.of_nat i) (mg_epoch m) (mg_derivation m)).2)) as Hadd.
  { unfold add_root. rewrite node_at_nat. cbn in Hn0. by rewrite Hn0. }
  cbn [mg_epoch mg_derivation set_mg_next_id set_mg_table m1] in *. rewrite Hadd.
  cbn [pmodify pret]. split.
  - destruct Hc as [Hc1 Hc2]. split; [|exact Hc2]. apply mgr_inv_stats. exact Hc1.
  - by exists i, s.
Qed.

(** Rewriting a live slot in place. *)
Lemma table_inv_reslot t i s s' :
  table_inv t → tb_slots t !! i = Some s → sl_generation s' = sl_generation s →
  sl_parent_index s' = sl_parent_index s → table_inv (set_slot i s' t).
Proof.
  intros Ht Hs Eg Ep. assert (slot_is_valid s' = slot_is_valid s) as Ev
    by (unfold slot_is_valid; by rewrite Eg).
  split; cbn; rewrite ?length_insert.
  - pose proof (count_by_insert slot_is_valid _ i s s' Hs). rewrite Ev in *.
    rewrite (ti_count t Ht). lia.
  - apply (ti_hint t Ht).
  - intros j sj [(-> & <- & _)|(Hne & Hj)]%list_lookup_insert_Some; [|by eapply ti_slots].
    unfold slot_wf. rewrite Eg, Ep. by eapply ti_slots.
  - apply (ti_capacity t Ht).
Qed.

Section granting.
Context {BF : Bitflags} {BL : BitflagsLaws}.

Lemma strip_attenuated s :
  attenuated (tok_rights (sl_token (strip_grant_once s))) (tok_rights (sl_token s)) ∧
  attenuated (tok_rights (sl_token s)) (tok_rights (sl_token (strip_grant_once s))).
Proof.
  split; intros i Hi Hne; cbn; rewrite difference_spec by done.
  - by intros [? _]%andb_true_iff.
  - intros ->. change GRANT_ONCE with (2 ^ 6). by rewrite Z.pow2_bits_false.
Qed.

Lemma consume_source_spec m index generation s :
  mgr_clean m → table_lookup (mg_table m) index generation = Ok s →
  mgr_clean (consume_source index generation m).2 ∧
  tb_slots (mg_table (consume_source index generation m).2) =
    <[Z.to_nat index := strip_grant_once s]> (tb_slots (mg_table m)).
Proof.
  intros [Hi Hnd] Hl. unfold consume_source, on_table, pzoom, lookup_mut. rewrite Hl. cbn [snd].
  split; [|done]. apply table_lookup_Ok in Hl as (Hs & Hv & Hg). split; [|done].
  destruct (strip_attenuated s). destruct Hi. split; try done; cbn -[set_slot].
  - by eapply table_inv_reslot.
  - by eapply (sync_reslot _ _ _ _ mi_sync0).
Qed.

(** A successful call to the delegation check, as the slot it fills. *)
Lemma validate_grant_derives m sp p gen id req badge tok depth consume g owner :
  mgr_inv m → 0 ≤ p → table_lookup (mg_table m) p gen = Ok sp →
  validate_grant sp req id badge (mg_epoch m) (mg_grant_policy m) = Ok (tok, depth, consume) →
  depth ≤ cc_max_delegation_depth (mg_config m) ∧ tok_epoch tok = mg_epoch m ∧
  derives sp (mkCapSlot tok g owner depth p badge) (Z.to_nat p).
Proof.
  intros Hi Hp Hl Hvg. unfold validate_grant in Hvg.
  destruct (negb _ && negb _); [done|].
  destruct (contains _ req) eqn:Hsub; [|done]. cbn [negb] in Hvg.
  destruct (checked_add u8_max (sl_depth sp) 1) as [d|] eqn:Hd; [|done].
  cbn [ok_or mbind result_bind] in Hvg.
  destruct (gp_max_depth (mg_grant_policy m) <? d) eqn:Hmax; [done|]. injection Hvg as <- <- <-.
  split_bool. apply checked_add_Some in Hd as [-> _]. rewrite (mi_policy m Hi) in Hmax. cbn in Hmax.
  apply table_lookup_Ok in Hl as (Hs & Hv & _).
  destruct (sync_node _ _ _ (mg_derivation m) (mi_sync m Hi) _ _ Hs) as (n & Hn & _).
  destruct (sy_node _ _ _ _ (mi_sync m Hi) _ _ _ Hs Hn Hv) as (_ & _ & E & ?).
  split_and!; [done|done|]. unfold derives. cbn. split_and!; try done; try lia.
  intros i Hi0 _. revert i Hi0. by apply contains_spec.
Qed.

(** Granting, unfolded once: a success fills a free slot with the derived
    capability and, when the one-shot right was used, strips it from the
    source; a failure leaves the table alone. *)
Lemma grant_spec m p gen req badge owner caller :
  mgr_clean m → 0 ≤ p →
  match grant_with_caller p gen req badge owner caller m with
  | (Ok (ci, cg), m') =>
      mgr_clean m' ∧ ∃ sp tok depth consume m1,
        table_lookup (mg_table m) p gen = Ok sp ∧
        (∀ c, caller = Some c → sl_owner sp = c) ∧
        validate_grant sp req (mg_next_id m) badge (mg_epoch m) (mg_grant_policy m) =
          Ok (tok, depth, consume) ∧
        inserted m ci cg (mkCapSlot tok cg owner depth p badge) m1 ∧
        ci ≠ p ∧ mg_verifier m' = mg_verifier m ∧
        tb_slots (mg_table m') =
          (if consume then <[Z.to_nat p := strip_grant_once sp]> (tb_slots (mg_table m1))
           else tb_slots (mg_table m1))
  | (Err e, m') => mgr_clean m' ∧ mg_table m' = mg_table m
  end.
Proof.
  intros Hm Hp. pose proof Hm as [Hi Hnd]. unfold grant_with_caller, pbind at 1.
  destruct (table_lookup (mg_table m) p gen) as [sp|e] eqn:Hl; [|done].
  unfold pbind at 1.
  assert (∃ r, (match caller with
     | Some c => if negb (sl_owner sp =? c) then pfail CeGrantNotPermitted else pret tt
     | None => pret tt end) m = (r, m) ∧
     (r = Ok tt → ∀ c, caller = Some c → sl_owner sp = c)) as (r & -> & Hown).
  { destruct caller as [c|]; [|by exists (Ok tt)].
    destruct (sl_owner sp =? c) eqn:E; [exists (Ok tt)|by eexists].
    split; [done|]. intros _ ? [= <-]. by apply Z.eqb_eq. }
  destruct r as [[]|e]; [|done]. unfold pbind at 1. rewrite take_id_spec.
  destruct (mg_next_id m + 1 <=? u64_max); [|done].
  set (m1 := set_mg_next_id (mg_next_id m + 1) m).
  assert (mgr_clean m1) as Hm1 by (split; [by apply mgr_inv_next_id|exact Hnd]).
  unfold pbind at 1, pgets at 1. unfold pbind at 1, pgets at 1. unfold pbind at 1, plift.
  change (mg_epoch m1) with (mg_epoch m). change (mg_grant_policy m1) with (mg_grant_policy m).
  destruct (validate_grant sp req (mg_next_id m) badge (mg_epoch m) (mg_grant_policy m))
    as [[[tok depth] consume]|e] eqn:Hvg; [|done].
  unfold pbind at 1. unfold on_table at 1, pzoom at 1.
  pose proof (insert_derived_spec tok owner depth p badge (mg_table m) (ti_hint _ (mi_table m Hi))) as H.
  change (mg_table m1) with (mg_table m).
  destruct (insert_derived tok owner depth p badge (mg_table m)) as [[[ci cg]|e] tab].
  2: { by destruct H as (-> & -> & _). }
  destruct H as (i & s & Hs & Hf & Eci & Ecg & ->).
  rewrite (index_wrap m i s Hi Hs) in Eci. destruct (next_generation_ok m i s Hi Hs) as [Hg Hg0].
  rewrite <-Ecg in Hg, Hg0.
  destruct (validate_grant_derives m sp p gen _ req badge tok depth consume cg owner Hi Hp Hl Hvg)
    as (Hmaxd & Htok & Hder).
  pose proof Hl as (Hsp & Hspv & Hspg)%table_lookup_Ok.
  destruct (sync_node _ _ _ (mg_derivation m) (mi_sync m Hi) _ _ Hsp) as (np & Hnp & Hnpv).
  rewrite Hspv in Hnpv.
  assert (Z.to_nat p ≠ i) as Hpi by (intros <-; congruence).
  destruct (grant_fill_clean m1 Hm1 (Z.to_nat p) np sp i s (mkCapSlot tok cg owner depth p badge) (i + 1))
    as [Hadd Hc]; try done.
  { by apply slot_is_valid_true. }
  { apply lookup_lt_Some in Hs. cbn. lia. }
  rewrite Z2Nat.id in Hadd by done.
  cbn [sl_depth] in Hadd, Hc. change (mg_epoch m1) with (mg_epoch m) in *.
  unfold pbind at 1, pgets at 1. cbn [mg_config set_mg_table m1 set_mg_next_id].
  rewrite (mi_track m Hi). unfold pbind at 1. unfold track_child, on_derivation, pzoom.
  cbn [fst]. rewrite Eci. cbn [mg_derivation set_mg_table m1 set_mg_next_id] in *.
  rewrite Hadd.
  match type of Hc with mgr_clean ?x => set (m2 := x) in * end.
  match goal with |- context [pbind _ _ ?x] => change x with m2 end.
  assert (inserted m (Z.of_nat i) cg (mkCapSlot tok cg owner depth p badge) m2) as Hins
    by by exists i, s.
  assert (Z.of_nat i ≠ p) as Hne by lia.
  unfold pbind at 1. destruct consume.
  - destruct (consume_source_spec m2 p gen sp Hc) as [Hc3 Hs3].
    { apply table_lookup_Ok. split_and!; [|done|done]. cbn.
      by rewrite list_lookup_insert_ne by done. }
    destruct (consume_source p gen m2) as [[[]|e] m3] eqn:E3; [|done].
    cbn [snd] in Hc3, Hs3. unfold pbind, pmodify, pret. split.
    + destruct Hc3. split; [by apply mgr_inv_stats|done].
    + exists sp, tok, depth, true, m2. split_and!; try done; [by apply Hown|].
      unfold consume_source, on_table, pzoom in E3. destruct (lookup_mut _ _ _ _) in E3.
      by injection E3 as <-.
  - unfold pbind, pmodify, pret. split.
    + destruct Hc. split; [by apply mgr_inv_stats|done].
    + exists sp, tok, depth, false, m2. split_and!; try done. by apply Hown.
Qed.
End granting.

(* ------------------------------------------------------------------ *)
(** ** Revocation *)

Definition force_all (l : list Z) (t : CapabilityTable) : CapabilityTable :=
  foldl (λ t idx, force_invalidate idx t) t l.

Lemma force_all_inv l t : table_inv t → table_inv (force_all l t).
Proof.
  revert t. induction l as [|x l IH]; intros t Ht; [done|]. cbn.
  by apply IH, force_invalidate_inv.
Qed.

(** The padding of the result array names no slot. *)
Lemma force_all_padding k t :
  table_inv t → force_all (replicate k u32_max) t = t.
Proof.
  intros Ht. induction k as [|k IH]; [done|]. cbn. rewrite <-IH at 2. f_equal.
  unfold force_invalidate. rewrite ?get_at_eq, lookup_ge_None_2; [done|].
  pose proof (ti_capacity t Ht). lia.
Qed.

Lemma force_all_slots R t :
  NoDup R → (∀ x, x ∈ R → ∃ s, tb_slots t !! x = Some s ∧ slot_is_valid s = true) →
  length (tb_slots (force_all (Z.of_nat <$> R) t)) = length (tb_slots t) ∧
  ∀ i, tb_slots (force_all (Z.of_nat <$> R) t) !! i =
    (λ s, if decide (i ∈ R) then slot_invalidate s else s) <$> tb_slots t !! i.
Proof.
  revert t. induction R as [|r R IH]; intros t Hnd Hv.
  { split; [done|]. intros i. cbn -[decide]. destruct (tb_slots t !! i); [|done].
    cbn -[decide]. rewrite decide_False; [done|]. apply not_elem_of_nil. }
  apply NoDup_cons in Hnd as [Hr Hnd]. destruct (Hv r ltac:(set_solver)) as (s & Hs & Hsv).
  rewrite fmap_cons. change (force_all (?a :: ?l) t) with (force_all l (force_invalidate a t)).
  set (t' := force_invalidate (Z.of_nat r) t).
  assert (tb_slots t' = <[r := slot_invalidate s]> (tb_slots t)) as Ht'.
  { unfold t', force_invalidate. by rewrite ?get_at_eq, Nat2Z.id, Hs, Hsv. }
  destruct (IH t' Hnd) as [Hlen Hl].
  { intros x Hx. rewrite Ht', list_lookup_insert_ne by set_solver. apply Hv. set_solver. }
  split; [by rewrite Hlen, Ht', length_insert|]. intros i. rewrite Hl, Ht'.
  destruct (decide (r = i)) as [->|Hne].
  - rewrite list_lookup_insert_eq by (by eapply lookup_lt_Some). rewrite Hs.
    cbn -[decide]. rewrite decide_False by done. by rewrite decide_True by set_solver.
  - rewrite list_lookup_insert_ne by done. destruct (tb_slots t !! i); [|done].
    cbn -[decide]. destruct (decide (i ∈ R)).
    + by rewrite decide_True by set_solver.
    + by rewrite decide_False by set_solver.
Qed.

Lemma force_all_app l l' t : force_all (l ++ l') t = force_all l' (force_all l t).
Proof. apply foldl_app. Qed.

(** A revocation of a live handle, unfolded once. *)
Lemma manager_revoke_spec fuel m p gen s :
  mgr_inv m → 0 ≤ p → table_lookup (mg_table m) p gen = Ok s →
  (length (dt_nodes (mg_derivation m)) < fuel)%nat →
  ∃ R m', manager_revoke fuel p gen m = Some (Ok (mkRevokeResult (length R)), m') ∧
    NoDup R ∧ (∀ x, x ∈ R ↔ descendant (dt_nodes (mg_derivation m)) (Z.to_nat p) x) ∧
    mgr_inv m' ∧
    (∀ i, tb_slots (mg_table m') !! i =
       (λ s, if decide (i ∈ R) then slot_invalidate s else s) <$> tb_slots (mg_table m) !! i) ∧
    (sl_depth s = 0 → mgr_clean m → mgr_clean m') ∧ mg_verifier m' = mg_verifier m.
Proof.
  intros Hi Hp Hl Hf. pose proof Hl as (Hs & Hv & _)%table_lookup_Ok.
  pose proof (mi_tree m Hi) as Ht. pose proof (mi_sync m Hi) as Hsy.
  pose proof (sy_valid _ _ _ _ Hsy _ _ Hs) as Hnv. rewrite Hv in Hnv.
  destruct (tree_revoke_spec fuel (mg_derivation m) (Z.to_nat p) Ht Hnv Hf)
    as (R & Hnd & Hel & HRv & Hrev & Hwf & R' & HR' & Hcol).
  rewrite Z2Nat.id in Hrev, Hcol by done.
  assert (∀ x, x ∈ R' → ∃ s, tb_slots (mg_table m) !! x = Some s ∧ slot_is_valid s = true) as HRs.
  { intros x Hx. rewrite HR' in Hx. apply HRv, valid_at_true in Hx as (n & Hn & Hnv').
    by eapply sync_slot_valid. }
  assert (NoDup R') as Hnd' by by rewrite HR'.
  destruct (force_all_slots R' (mg_table m) Hnd' HRs) as [Hlen Hsl].
  set (tab := force_all (Z.of_nat <$> R') (mg_table m)) in *.
  assert (table_inv tab) as Htab by (apply force_all_inv, Hi).
  assert (∀ i, tb_slots tab !! i =
       (λ s, if decide (i ∈ R) then slot_invalidate s else s) <$> tb_slots (mg_table m) !! i) as Hsl'.
  { intros i. rewrite Hsl. destruct (tb_slots (mg_table m) !! i); [|done]. cbn -[decide].
    destruct (decide (i ∈ R')) as [Hin|Hin]; rewrite HR' in Hin.
    - by rewrite decide_True.
    - by rewrite decide_False. }
  assert (mgr_inv (with_caps tab (mkDerivationTree (inval R (dt_nodes (mg_derivation m)))
    (dt_count (mg_derivation m) - length R)) m)) as Hm'.
  { apply with_caps_inv; [done..|]. cbn [dt_nodes]. by eapply sync_inval. }
  eexists R, (set_mg_stats _ (with_caps tab _ m)). split; [|split_and!].
  - unfold manager_revoke, revoke_capability. rewrite Hl, Hcol. cbn [mbind option_bind].
    rewrite Hrev. cbn [mbind option_bind map_err rr_revoked_count].
    fold (force_all (pad_result (length (dt_nodes (mg_derivation m))) (Z.of_nat <$> R')) (mg_table m)).
    unfold pad_result. rewrite force_all_app. fold tab. by rewrite force_all_padding.
  - done.
  - exact Hel.
  - by apply mgr_inv_stats.
  - exact Hsl'.
  - intros Hd [_ Hnd0]. split; [by apply mgr_inv_stats|]. cbn.
    destruct (sync_node _ _ _ _ Hsy _ _ Hs) as (n & Hn & _).
    destruct (sy_node _ _ _ _ Hsy _ _ _ Hs Hn Hv) as (Ed & _).
    eapply revoke_root_no_dangling; [done..| |done]. lia.
  - done.
Qed.

(** Killing distinct live slots lowers the live count by their number. *)
Lemma count_kill R l l' :
  NoDup R → (∀ x, x ∈ R → ∃ s, l !! x = Some s ∧ slot_is_valid s = true) →
  (∀ i, l' !! i = (λ s, if decide (i ∈ R) then slot_invalidate s else s) <$> l !! i) →
  (count_by slot_is_valid l' + length R = count_by slot_is_valid l)%nat.
Proof.
  revert l. induction R as [|r R IH]; intros l Hnd HRv Hl.
  - cbn [length]. rewrite Nat.add_0_r. f_equal. apply list_eq. intros i. rewrite Hl.
    destruct (l !! i) as [s|]; [|done]. cbn [fmap option_fmap option_map].
    destruct (decide (i ∈ [])) as [Hi|]; [by apply not_elem_of_nil in Hi|done].
  - apply NoDup_cons in Hnd as [Hr Hnd]. destruct (HRv r ltac:(set_solver)) as (s & Hs & Hv).
    pose proof (count_by_insert slot_is_valid l r s (slot_invalidate s) Hs) as Hc.
    rewrite Hv, slot_invalidate_free in Hc. cbn [length].
    specialize (IH (<[r := slot_invalidate s]> l) Hnd). cut (count_by slot_is_valid l' + length R =
      count_by slot_is_valid (<[r := slot_invalidate s]> l))%nat; [lia|]. apply IH.
    + intros x Hx. rewrite list_lookup_insert_ne by set_solver. apply HRv. set_solver.
    + intros i. rewrite Hl. destruct (decide (r = i)) as [->|Hne].
      * rewrite list_lookup_insert_eq by (by eapply lookup_lt_Some). rewrite Hs.
        cbn [fmap option_fmap option_map].
        rewrite decide_True by set_solver. by rewrite decide_False.
      * rewrite list_lookup_insert_ne by done. destruct (l !! i); [|done].
        cbn [fmap option_fmap option_map]. destruct (decide (i ∈ R)).
        { by rewrite decide_True by set_solver. }
        by rewrite decide_False by set_solver.
Qed.

(** C1: Revoking a live capability kills its whole derivation subtree and
    nothing else, on a manager whose table and tree are in step ([mgr_inv]): the
    call returns (fuel: one more than the table size), every handle of a
    descendant stops resolving, so it fails P1, P2 and P3 alike, every other
    handle resolves as before, the number reported is the number of capabilities
    killed, and the manager stays in step.  A manager whose history has
    revoked only roots is in step ([manager_history_inv]).  Revoking a derived
    capability can leave it out of step, and the conclusion then fails:
    [reused_slot_misdirects_revocation], [add_child_relink_diverges]. *)
Theorem manager_revoke_complete fuel m p gen s :
  mgr_inv m → 0 ≤ p → table_lookup (mg_table m) p gen = Ok s →
  (length (dt_nodes (mg_derivation m)) < fuel)%nat →
  ∃ k m', manager_revoke fuel p gen m = Some (Ok (mkRevokeResult k), m') ∧ mgr_inv m' ∧
    (manager_len m' + k = manager_len m)%nat ∧
    (∀ x g, descendant (dt_nodes (mg_derivation m)) (Z.to_nat p) (Z.to_nat x) →
       is_ok (table_lookup (mg_table m') x g) = false) ∧
    (∀ x g, ¬ descendant (dt_nodes (mg_derivation m)) (Z.to_nat p) (Z.to_nat x) →
       table_lookup (mg_table m') x g = table_lookup (mg_table m) x g).
Proof.
  intros Hi Hp Hl Hf.
  destruct (manager_revoke_spec fuel m p gen s Hi Hp Hl Hf) as (R & m' & Hr & Hnd & Hel & Hi' & Hsl & _).
  exists (length R), m'. split_and!; [done..| | |].
  - unfold manager_len, table_len. rewrite (ti_count _ (mi_table m Hi)), (ti_count _ (mi_table m' Hi')).
    assert (∀ x, x ∈ R → ∃ s0, tb_slots (mg_table m) !! x = Some s0 ∧ slot_is_valid s0 = true) as HRv.
    { intros x Hx%Hel. pose proof Hl as (Hs & Hv & _)%table_lookup_Ok.
      apply rtc_inv_r in Hx as [<-|(y & _ & Hyx)]; [by eauto|].
      pose proof (child_of_valid _ _ _ Hyx) as (n & Hn & Hnv)%valid_at_true.
      eapply sync_slot_valid; [apply (mi_sync m Hi)|done|done]. }
    by eapply count_kill.
  - intros x g Hx%Hel. unfold table_lookup. rewrite ?get_at_eq, Hsl.
    destruct (tb_slots (mg_table m) !! Z.to_nat x); [|done]. cbn -[decide].
    by rewrite decide_True.
  - intros x g Hx. unfold table_lookup. rewrite ?get_at_eq, Hsl.
    destruct (tb_slots (mg_table m) !! Z.to_nat x); [|done]. cbn -[decide].
    rewrite decide_False; [done|]. by rewrite Hel.
Qed.

(* ------------------------------------------------------------------ *)
(** ** Histories *)

Section history.
Context {BF : Bitflags} {BL : BitflagsLaws}.

(** One call on the manager.  Revocations name roots; the epoch has not
    reached [u32::MAX]. *)
Inductive mgr_step (m : CapabilityManager) : CapabilityManager → Prop :=
| mstep_create ct rights badge owner :
    mgr_step m (create_root_capability ct rights badge owner m).2
| mstep_create_checked ct rights badge owner caller :
    mgr_step m (create_root_capability_checked ct rights badge owner caller m).2
| mstep_grant p gen req badge owner :
    0 ≤ p → mgr_step m (grant p gen req badge owner m).2
| mstep_grant_checked p gen req badge owner caller :
    0 ≤ p → mgr_step m (grant_checked p gen req badge owner caller m).2
| mstep_revoke p gen r m' :
    0 ≤ p → (∀ s, table_lookup (mg_table m) p gen = Ok s → sl_depth s = 0) →
    manager_revoke (S (length (dt_nodes (mg_derivation m)))) p gen m = Some (r, m') →
    mgr_step m m'
| mstep_verify_p2 index gen ctx :
    mgr_step m (manager_verify_p2 index gen ctx m).2
| mstep_epoch :
    mg_epoch m < u32_max → 0 ≤ mg_epoch m → mgr_step m (increment_epoch m).

Lemma verify_p2_wf table tree index gen ctx v :
  verifier_wf v → verifier_wf (verify_p2 table tree index gen ctx v).2 ∧
  pv_current_epoch (verify_p2 table tree index gen ctx v).2 = pv_current_epoch v.
Proof.
  intros Hv. unfold verify_p2. case_match; cbn [snd]; [|done].
  split; [by apply mark_nonce_wf|]. unfold mark_nonce. by destruct (_ =? 0).
Qed.

Lemma create_root_clean m ct rights badge owner :
  mgr_clean m → mgr_clean (create_root_capability_inner ct rights badge owner m).2.
Proof.
  intros Hm. pose proof (create_root_spec m ct rights badge owner Hm) as H.
  destruct (create_root_capability_inner ct rights badge owner m) as [[[??]|?] ?]; apply H.
Qed.

Lemma grant_clean m p gen req badge owner caller :
  mgr_clean m → 0 ≤ p → mgr_clean (grant_with_caller p gen req badge owner caller m).2.
Proof.
  intros Hm Hp. pose proof (grant_spec m p gen req badge owner caller Hm Hp) as H.
  destruct (grant_with_caller p gen req badge owner caller m) as [[[??]|?] ?]; apply H.
Qed.

Lemma set_epoch_wf e v : verifier_wf v → verifier_wf (set_epoch e v).
Proof. by intros []. Qed.

Lemma mgr_step_clean m m' : mgr_step m m' → mgr_clean m → mgr_clean m'.
Proof.
  intros Hs Hm. destruct Hs as [| |p gen req badge owner Hp|p gen req badge owner caller Hp
    |p gen r m' Hp Hroot Hr|index gen ctx|Hlt H0].
  - by apply create_root_clean.
  - unfold create_root_capability_checked. destruct (negb _); [done|]. by apply create_root_clean.
  - by apply grant_clean.
  - by apply grant_clean.
  - destruct (table_lookup (mg_table m) p gen) as [s|e] eqn:Hl.
    + destruct (manager_revoke_spec _ m p gen s (proj1 Hm) Hp Hl (Nat.lt_succ_diag_r _))
        as (R & m1 & Hr1 & _ & _ & _ & _ & Hc & _).
      rewrite Hr1 in Hr. injection Hr as _ <-. auto.
    + unfold manager_revoke, revoke_capability in Hr. rewrite Hl in Hr. cbn in Hr.
      injection Hr as _ <-. destruct Hm as [Hi Hnd]. split; [|done]. by destruct Hi.
  - destruct Hm as [Hi Hnd]. unfold manager_verify_p2, pzoom.
    destruct (verify_p2_wf (mg_table m) (mg_derivation m) index gen ctx (mg_verifier m)
      (mi_verifier m Hi)) as [Hw He].
    destruct (verify_p2 _ _ _ _ _ _) as [r v]. cbn [snd] in *.
    split; [|done]. destruct Hi. split; try done. cbn. congruence.
  - destruct Hm as [Hi Hnd]. split; [|done]. destruct Hi.
    assert (wrap32 (mg_epoch m + 1) = mg_epoch m + 1) as E.
    { apply wrap32_id. unfold is_u32. lia. }
    unfold increment_epoch. split; cbn [mg_table mg_derivation mg_verifier mg_config mg_epoch
      mg_grant_policy]; try done.
    + by apply set_epoch_wf.
    + rewrite E. eapply sync_epoch; [|done]. lia.
Qed.

Lemma mgr_steps_clean m m' : rtc mgr_step m m' → mgr_clean m → mgr_clean m'.
Proof. induction 1; eauto using mgr_step_clean. Qed.

(** C26: Whatever partitions create, grant and verify, and whichever roots are
    revoked, with derivations tracked and an epoch that does not wrap, table,
    derivation tree and verifier stay in step: a slot is live
    exactly when its node is, depths and epochs agree and respect the limit,
    and each derived capability records a live parent of the same type, one
    level up, whose rights it does not exceed. *)
Theorem manager_history_inv N config m :
  Z.of_nat N ≤ u32_max → is_u8 (cc_max_delegation_depth config) →
  cc_track_derivation config = true →
  rtc mgr_step (manager_new N config) m → mgr_inv m.
Proof. intros HN Hd Ht Hs. by apply (mgr_steps_clean _ _ Hs), manager_new_clean. Qed.

(** The live slot of a live node. *)
Lemma child_slots m p x sx :
  mgr_inv m → child_of (dt_nodes (mg_derivation m)) p x →
  tb_slots (mg_table m) !! x = Some sx →
  ∃ sp, tb_slots (mg_table m) !! p = Some sp ∧ slot_is_valid sp = true ∧ derives sp sx p.
Proof.
  intros Hi Hc Hx. pose proof (mi_sync m Hi) as Hsy.
  pose proof Hc as (np & nx & Hp & _ & Hpv & _).
  destruct (sync_slot_valid _ _ _ (mg_derivation m) Hsy p np Hp Hpv) as (sp & Hsp & Hspv).
  exists sp. split_and!; [done..|]. by eapply sy_child.
Qed.

Lemma live_slot_has_root m x sx :
  mgr_inv m → tb_slots (mg_table m) !! x = Some sx → slot_is_valid sx = true →
  ∃ r sr, tb_slots (mg_table m) !! r = Some sr ∧ slot_is_valid sr = true ∧ sl_depth sr = 0 ∧
    descendant (dt_nodes (mg_derivation m)) r x ∧
    tok_type (sl_token sx) = tok_type (sl_token sr) ∧
    attenuated (tok_rights (sl_token sx)) (tok_rights (sl_token sr)) ∧
    0 ≤ sl_depth sx ≤ cc_max_delegation_depth (mg_config m).
Proof.
  intros Hi Hx Hv. pose proof (mi_sync m Hi) as Hsy.
  assert (∀ k x sx, tb_slots (mg_table m) !! x = Some sx → slot_is_valid sx = true →
    sl_depth sx < Z.of_nat k → ∃ r sr, tb_slots (mg_table m) !! r = Some sr ∧
    slot_is_valid sr = true ∧ sl_depth sr = 0 ∧
    descendant (dt_nodes (mg_derivation m)) r x ∧ tok_type (sl_token sx) = tok_type (sl_token sr) ∧
    attenuated (tok_rights (sl_token sx)) (tok_rights (sl_token sr)) ∧
    0 ≤ sl_depth sx ≤ cc_max_delegation_depth (mg_config m)) as Hk.
  2: { apply (Hk (S (Z.to_nat (sl_depth sx)))); [done..|lia]. }
  clear x sx Hx Hv. induction k as [|k IH]; intros x sx Hx Hv Hd;
    destruct (sync_node _ _ _ (mg_derivation m) Hsy x sx Hx) as (n & Hn & Hnv); rewrite Hv in Hnv;
    destruct (sy_node _ _ _ _ Hsy x sx n Hx Hn Hv) as (Ed & Hmax & _);
    destruct (tw_nodes _ (mi_tree m Hi) x n Hn Hnv) as (Hd0 & _).
  { lia. }
  destruct (decide (sl_depth sx = 0)) as [Hz|Hz].
  - exists x, sx. split_and!; try done; try lia; apply rtc_refl || apply attenuated_refl.
  - destruct (parent_exists _ (mi_tree m Hi) x n Hn Hnv ltac:(lia)) as (p & np & Hc & _).
    destruct (child_slots m p x sx Hi Hc Hx) as (sp & Hp & Hpv & _ & Hdep & Hty & Hatt & _).
    destruct (IH p sp Hp Hpv ltac:(lia)) as (r & sr & Hr & Hrv & Hrz & Hdesc & Hty' & Hatt' & _).
    exists r, sr. split_and!; try done; try lia; try congruence; try (by eapply rtc_r).
    by eapply attenuated_trans.
Qed.

(** C2: Delegation cannot amplify authority.  In every manager that tracks
    derivations and is reached from a fresh one by creations, grants, revocations
    of roots, verifications and epoch changes that do not wrap, every live
    capability descends from a live root capability of the same type, holds no
    right, the one-shot delegation right aside, that the root does not hold,
    and lies within the configured delegation depth.  Histories that revoke
    derived capabilities are excluded: [reused_slot_misdirects_revocation] leaves
    a live child under a dead root. *)
Theorem authority_bounded_by_root N config m x sx :
  Z.of_nat N ≤ u32_max → is_u8 (cc_max_delegation_depth config) →
  cc_track_derivation config = true → rtc mgr_step (manager_new N config) m →
  tb_slots (mg_table m) !! x = Some sx → slot_is_valid sx = true →
  ∃ r sr, tb_slots (mg_table m) !! r = Some sr ∧ slot_is_valid sr = true ∧ sl_depth sr = 0 ∧
    descendant (dt_nodes (mg_derivation m)) r x ∧
    tok_type (sl_token sx) = tok_type (sl_token sr) ∧
    attenuated (tok_rights (sl_token sx)) (tok_rights (sl_token sr)) ∧
    0 ≤ sl_depth sx ≤ cc_max_delegation_depth (mg_config m).
Proof.
  intros HN Hd Ht Hs. apply live_slot_has_root.
  by apply (mgr_steps_clean _ _ Hs), manager_new_clean.
Qed.

(** P3 has no false alarms: on a manager in step every resolvable handle
    passes P3 when the limit is at least the configured delegation depth. *)
Theorem manager_p3_accepts fuel m index gen max_depth :
  mgr_inv m → 0 ≤ index → is_ok (table_lookup (mg_table m) index gen) = true →
  cc_max_delegation_depth (mg_config m) ≤ max_depth → 256 ≤ Z.of_nat fuel →
  manager_verify_p3 fuel m index gen max_depth = Some (Ok tt).
Proof.
  intros Hi H0 Hok Hmax Hf. pose proof (mi_sync m Hi) as Hsy. pose proof (mi_maxd m Hi) as Hmd.
  destruct (table_lookup (mg_table m) index gen) as [s|e] eqn:Hl; [|done].
  pose proof Hl as (Hs & Hv & _)%table_lookup_Ok.
  destruct (sync_node _ _ _ (mg_derivation m) Hsy _ s Hs) as (n & Hn & Hnv). rewrite Hv in Hnv.
  destruct (sy_node _ _ _ _ Hsy _ s n Hs Hn Hv) as (Ed & Hdm & _).
  assert (∀ k x nx, dt_nodes (mg_derivation m) !! x = Some nx → nd_is_valid nx = true →
    nd_depth nx = Z.of_nat k → rooted (dt_nodes (mg_derivation m)) k x) as Hroot.
  { induction k as [|k IH]; intros x nx Hx Hxv Hxd; [by eapply rooted_root|].
    destruct (parent_exists _ (mi_tree m Hi) x nx Hx Hxv ltac:(lia)) as (p & np & Hc & Hp & Hpv & _).
    destruct (sync_slot_valid _ _ _ _ Hsy x nx Hx Hxv) as (sx & Hsx & Hsxv).
    destruct (child_slots m p x sx Hi Hc Hsx) as (sp & Hsp & Hspv & _ & Hdep & _ & _ & He).
    destruct (sy_node _ _ _ _ Hsy x sx nx Hsx Hx Hsxv) as (Edx & _ & Eex & _).
    destruct (sy_node _ _ _ _ Hsy p sp np Hsp Hp Hspv) as (Edp & _ & Eep & _).
    eapply (rooted_child _ k p x np nx); [done..|lia|]. apply (IH p np Hp Hpv). lia. }
  destruct (tw_nodes _ (mi_tree m Hi) _ n Hn Hnv) as (Hd0 & _).
  unfold manager_verify_p3, verify_p3, tree_get. rewrite Hl. unfold node_at. rewrite get_at_eq, Hn, Hnv.
  rewrite Hnv. cbn [negb].
  destruct (nd_depth n =? 0) eqn:Hz; split_bool; [done|]. unfold u8_max in *.
  destruct (p3_loop_spec _ (mi_tree m Hi) fuel (Z.to_nat index) n 0 max_depth Hn Hnv Hz
    ltac:(lia) ltac:(lia) ltac:(unfold u8_max; lia) ltac:(lia)) as (r & Hr & _ & Hspec).
  rewrite Z2Nat.id in Hr by done. rewrite Hr. f_equal. apply Hspec.
  exists (Z.to_nat (nd_depth n)). split; [|lia]. apply (Hroot _ _ n Hn Hnv). lia.
Qed.

(** A one-shot delegation right is spent by the grant that uses it: after
    a source holding [GRANT_ONCE] but not [GRANT] has granted once, no further
    grant from that handle succeeds. *)
Theorem grant_once_is_spent m p gen sp req badge owner caller h m' :
  mgr_clean m → 0 ≤ p → table_lookup (mg_table m) p gen = Ok sp →
  contains (tok_rights (sl_token sp)) GRANT = false →
  grant_with_caller p gen req badge owner caller m = (Ok h, m') →
  ∀ req' badge' owner' caller',
    is_ok (grant_with_caller p gen req' badge' owner' caller' m').1 = false.
Proof.
  intros Hm Hp Hl Hng Hg req' badge' owner' caller'.
  pose proof (grant_spec m p gen req badge owner caller Hm Hp) as H. rewrite Hg in H.
  destruct h as [ci cg]. destruct H as (Hm' & sp' & tok & depth & consume & m1 & Hl' & _ & Hvg & Hins
    & Hne & _ & Hsl).
  assert (sp' = sp) as -> by congruence.
  assert (consume = true) as ->.
  { unfold validate_grant in Hvg. rewrite Hng in Hvg. cbn [negb andb] in Hvg.
    destruct (gp_allow_grant_once _ && contains _ GRANT_ONCE) eqn:Eo; cbn [negb] in Hvg; [|done].
    destruct (contains _ req); [|done]. cbn [negb] in Hvg.
    destruct (checked_add _ _ _); [|done]. cbn in Hvg. destruct (_ <? _); [done|].
    by injection Hvg as _ _ <-. }
  pose proof Hl as (Hsp & Hspv & Hspg)%table_lookup_Ok.
  destruct Hins as (i & s & Hs & Hf & -> & _ & _ & Hm1).
  assert (table_lookup (mg_table m') p gen = Ok (strip_grant_once sp)) as Hl2.
  { apply table_lookup_Ok. split_and!; [|done|done]. rewrite Hsl, Hm1.
    rewrite list_lookup_insert_eq; [done|]. rewrite length_insert. by eapply lookup_lt_Some. }
  pose proof (grant_spec m' p gen req' badge' owner' caller' Hm' Hp) as H2.
  destruct (grant_with_caller p gen req' badge' owner' caller' m') as [[[ci2 cg2]|e] m2]; [|done].
  exfalso. destruct H2 as (_ & sp2 & tok2 & depth2 & consume2 & _ & Hl3 & _ & Hvg2 & _).
  rewrite Hl2 in Hl3. injection Hl3 as <-. unfold validate_grant in Hvg2. cbn [sl_token strip_grant_once tok_rights] in Hvg2.
  change GRANT with (2 ^ 2) in *. change GRANT_ONCE with (2 ^ 6) in *.
  rewrite difference_other, Hng, difference_flag in Hvg2 by lia.
  by rewrite andb_false_r in Hvg2.
Qed.
End history.

(* ------------------------------------------------------------------ *)
(** ** A sample manager

    Root 0 with every right, its child 1, its grandchild 2 holding the one-shot
    right only, and a second root 3. *)

Definition sample_m1 : CapabilityManager :=
  (create_root_capability CtRegion 127 10 7 (manager_new 5 cap_config_new)).2.
Definition sample_m2 : CapabilityManager := (grant 0 1 79 11 8 sample_m1).2.
Definition sample_m3 : CapabilityManager := (grant 1 1 65 12 9 sample_m2).2.
Definition sample_manager : CapabilityManager :=
  (create_root_capability CtDevice 127 13 7 sample_m3).2.

Lemma sample_manager_steps : rtc mgr_step (manager_new 5 cap_config_new) sample_manager.
Proof.
  apply (rtc_l _ _ sample_m1); [exact (mstep_create _ CtRegion 127 10 7)|].
  apply (rtc_l _ _ sample_m2); [exact (mstep_grant _ 0 1 79 11 8 (Z.le_refl 0))|].
  apply (rtc_l _ _ sample_m3); [exact (mstep_grant _ 1 1 65 12 9 Z.le_0_1)|].
  apply rtc_once. exact (mstep_create _ CtDevice 127 13 7).
Qed.

Lemma sample_manager_clean : mgr_clean sample_manager.
Proof.
  refine (mgr_steps_clean _ _ sample_manager_steps (manager_new_clean 5 cap_config_new _ _ eq_refl));
    by vm_compute.
Qed.

Lemma manager_history_inv_witness :
  is_u8 (cc_max_delegation_depth cap_config_new) ∧ mgr_inv sample_manager.
Proof.
  split; [done|].
  apply (manager_history_inv 5 cap_config_new); [done|done|done|exact sample_manager_steps].
Defined.

Lemma manager_revoke_complete_witness :
  mgr_inv sample_manager ∧
  ∃ m', manager_revoke 6 1 1 sample_manager = Some (Ok (mkRevokeResult 2), m') ∧
    is_ok (table_lookup (mg_table m') 2 1) = false.
Proof.
  split; [apply sample_manager_clean|].
  destruct (manager_revoke_complete 6 sample_manager 1 1
    (mkCapSlot (mkCapToken 2 CtRegion 79 0) 1 8 1 0 11) (proj1 sample_manager_clean))
    as (k & m' & Hr & _ & _ & Hdead & _); [done|by vm_compute|by apply Nat.ltb_lt; vm_compute|].
  exists m'. split.
  - assert (fst <$> manager_revoke 6 1 1 sample_manager = Some (Ok (mkRevokeResult 2))) as E
      by by vm_compute.
    rewrite Hr in E |- *. by injection E as ->.
  - apply Hdead. apply rtc_once, child_ofb_true. by vm_compute.
Defined.

Lemma authority_bounded_by_root_witness :
  rtc mgr_step (manager_new 5 cap_config_new) sample_manager ∧ ∃ sx sr r,
    tb_slots (mg_table sample_manager) !! 2%nat = Some sx ∧
    tb_slots (mg_table sample_manager) !! r = Some sr ∧
    attenuated (tok_rights (sl_token sx)) (tok_rights (sl_token sr)).
Proof.
  split; [exact sample_manager_steps|].
  destruct (authority_bounded_by_root 5 cap_config_new sample_manager 2
    (mkCapSlot (mkCapToken 3 CtRegion 65 0) 1 9 2 1 12)) as (r & sr & Hr & _ & _ & _ & _ & Ha & _);
    [by vm_compute|by vm_compute|done|exact sample_manager_steps|by vm_compute|by vm_compute|].
  exists (mkCapSlot (mkCapToken 3 CtRegion 65 0) 1 9 2 1 12), sr, r. split; [by vm_compute|]. split; [exact Hr|exact Ha].
Defined.

Lemma manager_p3_accepts_witness :
  mgr_inv sample_manager ∧ manager_verify_p3 256 sample_manager 2 1 8 = Some (Ok tt).
Proof.
  split; [apply sample_manager_clean|].
  apply manager_p3_accepts; [apply sample_manager_clean|done|by vm_compute|by vm_compute|done].
Defined.

Lemma grant_once_is_spent_witness :
  mgr_clean sample_manager ∧
  let m' := (grant_with_caller 2 1 1 0 10 None sample_manager).2 in
  is_ok (grant_with_caller 2 1 1 0 10 None sample_manager).1 = true ∧
  is_ok (grant_with_caller 2 1 1 0 11 None m').1 = false.
Proof.
  split; [apply sample_manager_clean|]. cbv zeta. split; [by vm_compute|].
  eapply (grant_once_is_spent sample_manager 2 1 (mkCapSlot (mkCapToken 3 CtRegion 65 0) 1 9 2 1 12) 1 0 10
    None (4, 1)); [apply sample_manager_clean|done|by vm_compute|by vm_compute|by vm_compute].
Defined.

(* ------------------------------------------------------------------ *)
(** ** Slot reuse after the revocation of a child *)

Definition run_revoke (p gen : Z) (m : CapabilityManager) : CapabilityManager :=
  match manager_revoke 100 p gen m with Some (_, m') => m' | None => m end.

(** Root 0 grants 1 and then 2; 2 is revoked; an unrelated root takes slot 2. *)
Definition reuse_manager : CapabilityManager :=
  let m := manager_with_defaults 4 in
  let m := (create_root_capability CtRegion 127 0 7 m).2 in
  let m := (grant 0 1 1 0 8 m).2 in
  let m := (grant 0 1 1 0 8 m).2 in
  let m := run_revoke 2 1 m in
  (create_root_capability CtDevice 127 0 9 m).2.

(** Revoking a parent after a revoked child's slot was reused goes wrong
    both ways: the unrelated root capability that took the slot is killed, and
    the remaining child of the revoked parent stays alive and still passes
    P1. *)
Theorem reused_slot_misdirects_revocation :
  let handle := (2, 2) in
  let m' := run_revoke 0 1 reuse_manager in
  (∃ s, table_lookup (mg_table reuse_manager) handle.1 handle.2 = Ok s ∧
        sl_depth s = 0 ∧ tok_type (sl_token s) = CtDevice) ∧
  (∃ s, table_lookup (mg_table reuse_manager) 1 1 = Ok s ∧ sl_parent_index s = 0) ∧
  is_ok (table_lookup (mg_table m') 0 1) = false ∧
  table_lookup (mg_table m') handle.1 handle.2 = Err CeInvalidHandle ∧
  manager_verify_p1 m' 1 1 READ = Ok tt.
Proof.
  cbv zeta. split; [eexists; by vm_compute|]. split; [eexists; by vm_compute|]. by vm_compute.
Qed.

(** The capability derived with the one-shot right can carry that right on:
    the holder of a one-shot grant obtained by a one-shot grant delegates in
    its turn. *)
Lemma grant_once_is_transitive :
  let m1 := (grant 2 1 65 0 10 sample_manager).2 in
  contains (tok_rights (mkCapToken 3 CtRegion 65 0)) GRANT = false ∧
  is_ok (grant 4 1 1 0 11 m1).1 = false ∧ is_ok (grant 2 1 65 0 10 sample_manager).1 = true ∧
  (∃ s, table_lookup (mg_table m1) 4 1 = Ok s ∧ contains (tok_rights (sl_token s)) GRANT_ONCE = true).
Proof.
  cbv zeta. split; [by vm_compute|]. split; [by vm_compute|]. split; [by vm_compute|].
  eexists. by vm_compute.
Qed.
