(* ===== verification/WitnessLog.v ===== *)
(** The witness log: [crates/rvm-witness/src] ([hash.rs], [log.rs],
    [replay.rs], [emit.rs], [signer.rs]).

    A ring of the last [N] records carries a hash chain over all records ever
    emitted.  Every method of [WitnessLog] runs under one mutex, so each is one
    atomic state transformer here.  The file proves that the ring refines the
    unbounded history ([log_repr]), that an epoch copied out of it verifies,
    and what verification does and does not cover. *)

From stdpp Require Import base numbers list option sets gmap.
From Stdlib Require Import ZArith Lia.
From S2P Require Import Prelude.
From S2P Require Import Types.

(* ------------------------------------------------------------------ *)
(** ** Hashing ([hash.rs]) *)

(** [sha2::Sha256::digest], outside the repository: 32 bytes of output. *)
Class Sha256 : Type := sha256 : list Z → list Z.
Class Sha256Laws `{!Sha256} : Prop := {
  sha256_length data : length (sha256 data) = 32%nat;
  sha256_bytes data : Forall is_byte (sha256 data);
}.

Definition xor_fold_256_to_u64 (digest : list Z) : Z :=
  let w0 := of_le_bytes (take 8 digest) in
  let w1 := of_le_bytes (take 8 (drop 8 digest)) in
  let w2 := of_le_bytes (take 8 (drop 16 digest)) in
  let w3 := of_le_bytes (take 8 (drop 24 digest)) in
  Z.lxor (Z.lxor (Z.lxor w0 w1) w2) w3.

Definition chain_input (prev_hash sequence : Z) : list Z :=
  le_bytes 8 prev_hash ++ le_bytes 8 sequence.

(** The two builds of [compute_chain_hash]: feature [crypto-sha256] on, off. *)
Definition compute_chain_hash_sha256 `{!Sha256} (prev_hash sequence : Z) : Z :=
  xor_fold_256_to_u64 (sha256 (chain_input prev_hash sequence)).
Definition compute_chain_hash_fnv (prev_hash sequence : Z) : Z :=
  fnv1a_64 (chain_input prev_hash sequence).

Definition compute_record_hash_sha256 `{!Sha256} (data : list Z) : Z :=
  xor_fold_256_to_u64 (sha256 data).
Definition compute_record_hash_fnv (data : list Z) : Z := fnv1a_64 data.

(** What the log needs of a build. *)
Class ChainHasher : Type := compute_chain_hash : Z → Z → Z.
Class ChainHasherLaws `{!ChainHasher} : Prop :=
  compute_chain_hash_range prev seq : is_u64 (compute_chain_hash prev seq).

(** [((h >> 32) ^ h) as u32]. *)
Definition fold_u64_to_u32 (h : Z) : Z := wrap32 (Z.lxor (Z.shiftr h 32) h).

(* ------------------------------------------------------------------ *)
(** ** Signing ([signer.rs]) *)

Definition record_to_bytes (r : WitnessRecord) : list Z :=
  le_bytes 8 (wr_sequence r) ++ le_bytes 8 (wr_timestamp_ns r) ++
  [wr_action_kind r; wr_proof_tier r; wr_flags r; 0] ++
  le_bytes 4 (wr_actor_partition_id r) ++ le_bytes 8 (wr_target_object_id r) ++
  le_bytes 4 (wr_capability_hash r) ++ wr_payload r ++
  le_bytes 4 (wr_prev_hash r) ++ le_bytes 4 (wr_record_hash r) ++
  wr_aux r ++ replicate 4 0.

Definition set_aux (aux : list Z) (r : WitnessRecord) : WitnessRecord :=
  mkWitnessRecord (wr_sequence r) (wr_timestamp_ns r) (wr_action_kind r) (wr_proof_tier r)
    (wr_flags r) (wr_reserved r) (wr_actor_partition_id r) (wr_target_object_id r)
    (wr_capability_hash r) (wr_payload r) (wr_prev_hash r) (wr_record_hash r) aux (wr_pad r).

(** [trait WitnessSigner]. *)
Class WitnessSigner (S : Type) : Type := {
  sign : S → WitnessRecord → list Z;
  verify : S → WitnessRecord → bool;
}.

(** What the log's client expects: a record carrying its own signature
    verifies. *)
Class WitnessSignerLaws (S : Type) `{!WitnessSigner S} : Prop :=
  verify_signed (s : S) (r : WitnessRecord) :
    length (wr_payload r) = 8%nat → verify s (set_aux (sign s r) r) = true.

Inductive NullSigner : Set := mkNullSigner.
#[export] Instance null_signer : WitnessSigner NullSigner := {
  sign _ _ := replicate 8 0;
  verify _ _ := true;
}.

(** The signer's own FNV loop, one byte at a time. *)
Definition signer_fnv1a_64 (data : list Z) : Z := foldl fnv_step FNV_OFFSET data.

Inductive StrictSigner : Set := mkStrictSigner.
Definition strict_compute_signature (r : WitnessRecord) : list Z :=
  le_bytes 8 (signer_fnv1a_64 (take 52 (record_to_bytes r))).
#[export] Instance strict_signer : WitnessSigner StrictSigner := {
  sign _ r := strict_compute_signature r;
  verify _ r := bool_decide (wr_aux r = strict_compute_signature r);
}.

(** HMAC-SHA256 of a key and a message, outside the repository. *)
Class HmacSha256 : Type := hmac_sha256 : list Z → list Z → list Z.
Class HmacSha256Laws `{!HmacSha256} : Prop :=
  hmac_sha256_length key msg : length (hmac_sha256 key msg) = 32%nat.

Record HmacWitnessSigner : Set := mkHmacWitnessSigner { hs_key : list Z }.

Definition hmac_compute_signature `{!HmacSha256} (s : HmacWitnessSigner) (r : WitnessRecord) : list Z :=
  take 8 (hmac_sha256 (hs_key s) (take 52 (record_to_bytes r))).

(** [diff |= expected[i] ^ aux[i]] for [i] in [0..8]. *)
Definition constant_time_diff (expected aux : list Z) : Z :=
  foldl (λ diff i, Z.lor diff (Z.lxor (default 0 (expected !! i)) (default 0 (aux !! i)))) 0 (seq 0 8).

#[export] Instance hmac_signer `{!HmacSha256} : WitnessSigner HmacWitnessSigner := {
  sign s r := hmac_compute_signature s r;
  verify s r := constant_time_diff (hmac_compute_signature s r) (wr_aux r) =? 0;
}.

Definition record_to_digest `{!Sha256} (r : WitnessRecord) : list Z :=
  sha256 (take 52 (record_to_bytes r)).

(* ------------------------------------------------------------------ *)
(** ** The log ([log.rs]) *)

Record WitnessLog : Set := mkWitnessLog {
  wl_records : list WitnessRecord;
  wl_write_pos : nat;
  wl_chain_hash : Z;
  wl_sequence : Z;
  wl_total_emitted : Z;
}.

Record WitnessCheckpoint : Set := mkWitnessCheckpoint {
  cp_next_sequence : Z;
  cp_chain_hash : Z;
}.

Record WitnessSnapshot : Set := mkWitnessSnapshot {
  sn_count : Z;
  sn_end_checkpoint : WitnessCheckpoint;
}.

Inductive SnapshotSinceError : Set :=
| FutureCheckpoint | RecordsOverwritten | OutputTooSmall (required : Z) | SequenceMismatch.

Definition log_new (N : nat) : WitnessLog := mkWitnessLog (replicate N record_zeroed) 0 0 0 0.

(** [N] of the const generic. *)
Definition log_capacity (l : WitnessLog) : nat := length (wl_records l).

Section log.
Context `{!ChainHasher}.

(** The fields [append] fills in. *)
Definition stamp (seq prev_hash chain : Z) (r : WitnessRecord) : WitnessRecord :=
  mkWitnessRecord seq (wr_timestamp_ns r) (wr_action_kind r) (wr_proof_tier r)
    (wr_flags r) (wr_reserved r) (wr_actor_partition_id r) (wr_target_object_id r)
    (wr_capability_hash r) (wr_payload r) (fold_u64_to_u32 prev_hash) (fold_u64_to_u32 chain)
    (wr_aux r) (wr_pad r).

Definition push_record (record : WitnessRecord) (chain : Z) (l : WitnessLog) : WitnessLog :=
  let pos := wl_write_pos l in
  mkWitnessLog (<[pos := record]> (wl_records l)) ((pos + 1) mod log_capacity l) chain
    (wrap64 (wl_sequence l + 1)) (wrap64 (wl_total_emitted l + 1)).

Definition log_append (record : WitnessRecord) (l : WitnessLog) : Z * WitnessLog :=
  let seq := wl_sequence l in
  let prev_hash := wl_chain_hash l in
  let chain := compute_chain_hash prev_hash seq in
  (seq, push_record (stamp seq prev_hash chain record) chain l).

(** The record is signed with its chain fields in place. *)
Definition signed_append {Sg : Type} `{!WitnessSigner Sg} (record : WitnessRecord) (signer : Sg) (l : WitnessLog)
    : Z * WitnessLog :=
  let seq := wl_sequence l in
  let prev_hash := wl_chain_hash l in
  let chain := compute_chain_hash prev_hash seq in
  let record := stamp seq prev_hash chain record in
  let record := set_aux (sign signer record) record in
  (seq, push_record record chain l).

Definition total_emitted (l : WitnessLog) : Z := wl_total_emitted l.

Definition checkpoint (l : WitnessLog) : WitnessCheckpoint :=
  mkWitnessCheckpoint (wl_sequence l) (wl_chain_hash l).

(** [self.records[i]]: in bounds wherever it is used. *)
Definition ring_at (l : WitnessLog) (i : nat) : WitnessRecord :=
  default record_zeroed (wl_records l !! i).

(** The copying loop of [snapshot_since]; a failure leaves the records copied
    so far in the output. *)
Fixpoint since_loop (l : WitnessLog) (next : Z) (offset n : nat) (out : list WitnessRecord)
    : result SnapshotSinceError unit * list WitnessRecord :=
  match n with
  | O => (Ok tt, out)
  | S n =>
      match checked_add u64_max next (Z.of_nat offset) with
      | None => (Err SequenceMismatch, out)
      | Some sequence =>
          let record := ring_at l (Z.to_nat (sequence mod Z.of_nat (log_capacity l))) in
          if negb (wr_sequence record =? sequence) then (Err SequenceMismatch, out)
          else since_loop l next (offset + 1) n (<[offset := record]> out)
      end
  end.

Definition snapshot_since (cp : WitnessCheckpoint) (out : list WitnessRecord) (l : WitnessLog)
    : result SnapshotSinceError WitnessSnapshot * list WitnessRecord :=
  if wl_sequence l <? cp_next_sequence cp then (Err FutureCheckpoint, out)
  else
    let retained_start := sat_sub (wl_sequence l) (Z.of_nat (log_capacity l)) in
    if cp_next_sequence cp <? retained_start then (Err RecordsOverwritten, out)
    else
      let required := wl_sequence l - cp_next_sequence cp in
      if Z.of_nat (length out) <? required then (Err (OutputTooSmall required), out)
      else
        match since_loop l (cp_next_sequence cp) 0 (Z.to_nat required) out with
        | (Err e, out) => (Err e, out)
        | (Ok _, out) => (Ok (mkWitnessSnapshot required (checkpoint l)), out)
        end.

Definition log_len (l : WitnessLog) : Z :=
  if Z.of_nat (log_capacity l) <=? wl_total_emitted l then Z.of_nat (log_capacity l)
  else wl_total_emitted l.

Definition log_is_empty (l : WitnessLog) : bool := wl_total_emitted l =? 0.

Definition log_get (ring_index : nat) (l : WitnessLog) : option WitnessRecord :=
  if (log_capacity l <=? ring_index)%nat then None
  else if wl_total_emitted l =? 0 then None
  else Some (ring_at l ring_index).

Fixpoint snapshot_loop (l : WitnessLog) (base i n : nat) (buf : list WitnessRecord)
    : list WitnessRecord :=
  match n with
  | O => buf
  | S n => snapshot_loop l base (i + 1) n
             (<[i := ring_at l ((base + i) mod log_capacity l)%nat]> buf)
  end.

Definition snapshot (buf : list WitnessRecord) (l : WitnessLog) : nat * list WitnessRecord :=
  let available := Z.to_nat (log_len l) in
  let to_copy := Nat.min (length buf) available in
  if (to_copy =? 0)%nat then (O, buf)
  else
    let start := if Z.of_nat (log_capacity l) <=? wl_total_emitted l then wl_write_pos l else O in
    (to_copy, snapshot_loop l (start + (available - to_copy)) 0 to_copy buf).

(* ------------------------------------------------------------------ *)
(** ** Verification ([replay.rs]) *)

Inductive ChainIntegrityError : Set :=
| ChainBreak (sequence : Z) | RecordCorrupted (sequence : Z) | EmptyLog.

Fixpoint verify_loop (records : list WitnessRecord) (prev_chain_hash expected_sequence : Z)
    : result ChainIntegrityError unit :=
  match records with
  | [] => Ok tt
  | record :: records =>
      if negb (wr_sequence record =? expected_sequence) then Err (ChainBreak (wr_sequence record))
      else if negb (wr_prev_hash record =? fold_u64_to_u32 prev_chain_hash)
      then Err (ChainBreak (wr_sequence record))
      else
        let chain := compute_chain_hash prev_chain_hash (wr_sequence record) in
        if negb (wr_record_hash record =? fold_u64_to_u32 chain)
        then Err (RecordCorrupted (wr_sequence record))
        else verify_loop records chain (wrap64 (expected_sequence + 1))
  end.

Definition verify_chain_from (records : list WitnessRecord) (initial_chain_hash expected_first_sequence : Z)
    : result ChainIntegrityError nat :=
  match records with
  | [] => Err EmptyLog
  | _ => (λ _, length records) <$> verify_loop records initial_chain_hash expected_first_sequence
  end.

Definition verify_chain (records : list WitnessRecord) : result ChainIntegrityError nat :=
  verify_chain_from records 0 0.

Definition query_by_partition (records : list WitnessRecord) (partition_id : Z) : list WitnessRecord :=
  filter (λ r, wr_actor_partition_id r = partition_id) records.
Definition query_by_action_kind (records : list WitnessRecord) (kind : Z) : list WitnessRecord :=
  filter (λ r, wr_action_kind r = kind) records.
Definition query_by_time_range (records : list WitnessRecord) (start_ns end_ns : Z) : list WitnessRecord :=
  filter (λ r, start_ns ≤ wr_timestamp_ns r ∧ wr_timestamp_ns r ≤ end_ns) records.

(* ------------------------------------------------------------------ *)
(** ** The emitter ([emit.rs]) *)

(** A zeroed record with the fields an emitter sets. *)
Definition emitted (action : ActionKind) (tier actor target cap_hash ts : Z) (payload : list Z)
    : WitnessRecord :=
  mkWitnessRecord 0 ts (action_code action) tier 0 0 actor target cap_hash payload 0 0
    (replicate 8 0) (replicate 4 0).

Definition emit_partition_create (actor new_partition_id cap_hash ts : Z) (l : WitnessLog) :=
  log_append (emitted AkPartitionCreate 1 actor new_partition_id cap_hash ts (replicate 8 0)) l.
Definition emit_partition_destroy (actor partition_id cap_hash ts : Z) (l : WitnessLog) :=
  log_append (emitted AkPartitionDestroy 1 actor partition_id cap_hash ts (replicate 8 0)) l.
Definition emit_capability_grant (actor target cap_hash : Z) (payload : list Z) (ts : Z) (l : WitnessLog) :=
  log_append (emitted AkCapabilityGrant 1 actor target cap_hash ts payload) l.
Definition emit_capability_revoke (actor target cap_hash ts : Z) (l : WitnessLog) :=
  log_append (emitted AkCapabilityRevoke 1 actor target cap_hash ts (replicate 8 0)) l.
Definition emit_memory_map (actor region_id cap_hash : Z) (payload : list Z) (ts : Z) (l : WitnessLog) :=
  log_append (emitted AkRegionMap 2 actor region_id cap_hash ts payload) l.
Definition emit_proof_rejected (actor target cap_hash ts : Z) (l : WitnessLog) :=
  log_append (emitted AkProofRejected 0 actor target cap_hash ts (replicate 8 0)) l.
End log.

(* ------------------------------------------------------------------ *)
(** ** The history behind the ring *)

Section refinement.
Context {CH : ChainHasher}.

(** The chain hash after [k] records: it depends on nothing but [k]. *)
Fixpoint chain_at (k : nat) : Z :=
  match k with O => 0 | S k => compute_chain_hash (chain_at k) (Z.of_nat k) end.

Definition stamped (i : nat) (r : WitnessRecord) : Prop :=
  wr_sequence r = Z.of_nat i ∧
  wr_prev_hash r = fold_u64_to_u32 (chain_at i) ∧
  wr_record_hash r = fold_u64_to_u32 (chain_at (S i)).

(** Log [l] holds the tail of history [h]. *)
Record log_repr (l : WitnessLog) (h : list WitnessRecord) : Prop := {
  lr_cap : (0 < log_capacity l)%nat;
  lr_seq : wl_sequence l = Z.of_nat (length h);
  lr_total : wl_total_emitted l = Z.of_nat (length h);
  lr_max : Z.of_nat (length h) ≤ u64_max;
  lr_pos : wl_write_pos l = (length h mod log_capacity l)%nat;
  lr_chain : wl_chain_hash l = chain_at (length h);
  lr_window i r : h !! i = Some r → (length h ≤ i + log_capacity l)%nat →
    wl_records l !! (i mod log_capacity l)%nat = Some r;
  lr_stamped i r : h !! i = Some r → stamped i r;
}.

Lemma log_new_repr N : (0 < N)%nat → log_repr (log_new N) [].
Proof.
  intros HN. assert (log_capacity (log_new N) = N) as HC by apply length_replicate.
  split; try done; [by rewrite HC|]. rewrite HC. simpl. by rewrite Nat.mod_0_l by lia.
Qed.

Lemma push_repr l h r :
  log_repr l h → stamped (length h) r → Z.of_nat (length h) < u64_max →
  log_repr (push_record r (chain_at (S (length h))) l) (h ++ [r]).
Proof.
  intros Hl Hr Hmax. pose proof (lr_cap l h Hl) as Hc.
  assert (log_capacity (push_record r (chain_at (S (length h))) l) = log_capacity l) as HC
    by apply length_insert.
  assert (length (h ++ [r]) = S (length h)) as Hlen by (rewrite length_app; simpl; lia).
  assert (wrap64 (Z.of_nat (length h) + 1) = Z.of_nat (S (length h))) as Hw.
  { rewrite wrap64_id; [lia|]. unfold is_u64, u64_max in *. lia. }
  split; rewrite ?HC, ?Hlen; cbn [wl_sequence wl_total_emitted wl_write_pos wl_chain_hash
    wl_records push_record]; try done.
  - by rewrite (lr_seq l h Hl).
  - by rewrite (lr_total l h Hl).
  - lia.
  - rewrite (lr_pos l h Hl), Nat.Div0.add_mod_idemp_l. f_equal. lia.
  - intros i r0 Hi Hwin. rewrite (lr_pos l h Hl).
    destruct (decide (i = length h)) as [->|Hne].
    + rewrite lookup_app_r, Nat.sub_diag in Hi by done. injection Hi as <-.
      apply list_lookup_insert_eq. apply Nat.mod_upper_bound. unfold log_capacity in Hc. lia.
    + pose proof (lookup_lt_Some _ _ _ Hi) as Hlt. rewrite Hlen in Hlt.
      rewrite lookup_app_l in Hi by lia. rewrite list_lookup_insert_ne.
      * apply (lr_window l h Hl); [done|lia].
      * apply not_eq_sym, mod_window_ne. lia.
  - intros i r0 Hi. destruct (decide (i = length h)) as [->|Hne].
    + rewrite lookup_app_r, Nat.sub_diag in Hi by done. by injection Hi as <-.
    + pose proof (lookup_lt_Some _ _ _ Hi) as Hlt. rewrite Hlen in Hlt.
      rewrite lookup_app_l in Hi by lia. by apply (lr_stamped l h Hl).
Qed.

(** The record a call stores, for history length [k]. *)
Definition stamp_at (k : nat) (r : WitnessRecord) : WitnessRecord :=
  stamp (Z.of_nat k) (chain_at k) (chain_at (S k)) r.

Lemma stamp_at_stamped k r : stamped k (stamp_at k r).
Proof. done. Qed.

Lemma append_repr l h r :
  log_repr l h → Z.of_nat (length h) < u64_max →
  (log_append r l).1 = Z.of_nat (length h) ∧
  log_repr (log_append r l).2 (h ++ [stamp_at (length h) r]).
Proof.
  intros Hl Hmax. unfold log_append. rewrite (lr_seq l h Hl), (lr_chain l h Hl). cbn [fst snd].
  split; [done|]. by apply push_repr.
Qed.

(** The log refines an unbounded history.  Appending returns the number of
    records emitted before, and extends the history by the given record with
    its sequence and chain hashes filled in and every other field untouched;
    the signing variant additionally puts in [aux] a signature over the filled
    record, which then verifies. *)
Theorem log_append_refines {Sg : Type} `{!WitnessSigner Sg, !WitnessSignerLaws Sg}
    (signer : Sg) l h r :
  log_repr l h → Z.of_nat (length h) < u64_max → length (wr_payload r) = 8%nat →
  let stored := stamp_at (length h) r in
  let signed := set_aux (sign signer stored) stored in
  (log_append r l).1 = Z.of_nat (length h) ∧
  log_repr (log_append r l).2 (h ++ [stored]) ∧
  (signed_append r signer l).1 = Z.of_nat (length h) ∧
  log_repr (signed_append r signer l).2 (h ++ [signed]) ∧
  verify signer signed = true.
Proof.
  intros Hl Hmax Hpay. destruct (append_repr l h r Hl Hmax) as [H1 H2].
  split_and!; [done|done| | |by apply verify_signed].
  - unfold signed_append. by rewrite (lr_seq l h Hl).
  - unfold signed_append. rewrite (lr_seq l h Hl), (lr_chain l h Hl). cbn [snd].
    by apply push_repr.
Qed.

(* ------------------------------------------------------------------ *)
(** ** Snapshots *)

Lemma ring_at_history l h i r :
  log_repr l h → h !! i = Some r → (length h ≤ i + log_capacity l)%nat →
  ring_at l (i mod log_capacity l) = r.
Proof. intros Hl Hi Hwin. unfold ring_at. by rewrite (lr_window l h Hl i r). Qed.

(** Overwriting a run of cells with a run of the history. *)
Lemma since_loop_spec l h next offset n out :
  log_repr l h → (next + offset + n = length h)%nat →
  (length h ≤ next + offset + log_capacity l)%nat → (offset + n ≤ length out)%nat →
  since_loop l (Z.of_nat next) offset n out =
    (Ok tt, take offset out ++ drop (next + offset) h ++ drop (offset + n) out).
Proof.
  intros Hl. revert offset out. induction n as [|n IH]; intros offset out Hlen Hwin Hout.
  - cbn [since_loop]. rewrite (drop_ge h) by lia. rewrite Nat.add_0_r. cbn [app].
    by rewrite take_drop.
  - cbn [since_loop].
    assert (checked_add u64_max (Z.of_nat next) (Z.of_nat offset) = Some (Z.of_nat (next + offset))) as ->.
    { apply checked_add_Some. pose proof (lr_max l h Hl). lia. }
    destruct (lookup_lt_is_Some_2 h (next + offset)) as [r Hr]; [lia|].
    rewrite <-Nat2Z.inj_mod, Nat2Z.id.
    rewrite (ring_at_history l h _ r Hl Hr) by lia.
    destruct (lr_stamped l h Hl _ _ Hr) as [-> _]. rewrite Z.eqb_refl. cbn [negb].
    rewrite IH; rewrite ?length_insert; [|lia..].
    f_equal. rewrite (drop_S _ _ _ Hr).
    replace (next + (offset + 1))%nat with (S (next + offset)) by lia.
    replace (offset + 1 + n)%nat with (offset + S n)%nat by lia.
    rewrite drop_insert_lt by lia.
    rewrite Nat.add_1_r, (take_S_r _ _ r) by (apply list_lookup_insert_eq; lia).
    rewrite take_insert_ge by lia. by rewrite <-!app_assoc.
Qed.

(** A checkpoint-relative snapshot is all or nothing and exact.  It is
    refused for a checkpoint in the future, for one whose records have been
    overwritten and for an output that is too small, in that order and with
    the output untouched; otherwise it returns every record emitted since the
    checkpoint, in order, and the boundary of the next epoch.  The internal
    sequence check never fails. *)
Theorem snapshot_since_refines l h next ch out :
  log_repr l h →
  match snapshot_since (mkWitnessCheckpoint (Z.of_nat next) ch) out l with
  | (Err FutureCheckpoint, out') => (length h < next)%nat ∧ out' = out
  | (Err RecordsOverwritten, out') => (next + log_capacity l < length h)%nat ∧ out' = out
  | (Err (OutputTooSmall required), out') =>
      required = Z.of_nat (length h - next) ∧ (length out < length h - next)%nat ∧ out' = out
  | (Err SequenceMismatch, _) => False
  | (Ok s, out') =>
      (next ≤ length h ≤ next + log_capacity l)%nat ∧
      sn_count s = Z.of_nat (length h - next) ∧
      sn_end_checkpoint s = mkWitnessCheckpoint (Z.of_nat (length h)) (chain_at (length h)) ∧
      out' = drop next h ++ drop (length h - next) out
  end.
Proof.
  intros Hl. unfold snapshot_since. cbn [cp_next_sequence]. rewrite (lr_seq l h Hl). unfold sat_sub.
  destruct (Z.of_nat (length h) <? Z.of_nat next) eqn:E1; split_bool; [split; [lia|done]|].
  destruct (Z.of_nat next <? _) eqn:E2; split_bool; [split; [lia|done]|].
  destruct (Z.of_nat (length out) <? _) eqn:E3; split_bool; [split_and!; [lia..|done]|].
  replace (Z.to_nat (Z.of_nat (length h) - Z.of_nat next)) with (length h - next)%nat by lia.
  rewrite (since_loop_spec l h next 0) by (done || lia). cbn [sn_count sn_end_checkpoint].
  split_and!; try lia.
  - unfold checkpoint. by rewrite (lr_seq l h Hl), (lr_chain l h Hl).
  - by rewrite take_0, Nat.add_0_r, Nat.add_0_l.
Qed.

Lemma snapshot_loop_spec l h start i n buf :
  log_repr l h → (start + i + n = length h)%nat → (length h ≤ start + i + log_capacity l)%nat →
  (i + n ≤ length buf)%nat → ∀ base : nat, ((base + i) mod log_capacity l = (start + i) mod log_capacity l)%nat →
  snapshot_loop l base i n buf = take i buf ++ drop (start + i) h ++ drop (i + n) buf.
Proof.
  intros Hl. revert i buf. induction n as [|n IH]; intros i buf Hlen Hwin Hout base Hb.
  - cbn [snapshot_loop]. rewrite (drop_ge h) by lia. rewrite Nat.add_0_r. cbn [app]. by rewrite take_drop.
  - cbn [snapshot_loop]. destruct (lookup_lt_is_Some_2 h (start + i)) as [r Hr]; [lia|].
    rewrite Hb, (ring_at_history l h _ r Hl Hr) by lia.
    rewrite IH; rewrite ?length_insert; [|lia..|].
    + rewrite (drop_S _ _ _ Hr). replace (start + (i + 1))%nat with (S (start + i)) by lia.
      replace (i + 1 + n)%nat with (i + S n)%nat by lia. rewrite drop_insert_lt by lia.
      rewrite Nat.add_1_r, (take_S_r _ _ r) by (apply list_lookup_insert_eq; lia).
      rewrite take_insert_ge by lia. by rewrite <-!app_assoc.
    + rewrite !Nat.add_assoc, <-(Nat.Div0.add_mod_idemp_l (base + i)), Hb.
      by rewrite Nat.Div0.add_mod_idemp_l.
Qed.

(** [snapshot] fills the buffer with the most recent records, oldest
    first, as many as both the ring and the buffer hold. *)
Theorem snapshot_refines l h buf :
  log_repr l h →
  let k := Nat.min (length buf) (Nat.min (log_capacity l) (length h)) in
  log_len l = Z.of_nat (Nat.min (log_capacity l) (length h)) ∧
  snapshot buf l = (k, drop (length h - k) h ++ drop k buf).
Proof.
  intros Hl. cbv zeta. assert (log_len l = Z.of_nat (Nat.min (log_capacity l) (length h))) as Hlen.
  { unfold log_len. rewrite (lr_total l h Hl). destruct (_ <=? _) eqn:E; split_bool; lia. }
  split; [done|]. unfold snapshot. rewrite Hlen, Nat2Z.id.
  set (k := Nat.min (length buf) (Nat.min (log_capacity l) (length h))).
  pose proof (lr_cap l h Hl) as Hcap.
  destruct (k =? 0)%nat eqn:Ek; split_bool.
  { by rewrite Ek, Nat.sub_0_r, drop_all, drop_0. }
  rewrite (lr_total l h Hl).
  rewrite (snapshot_loop_spec l h (length h - k) 0 k buf); try lia; try done.
  - by rewrite !Nat.add_0_l, Nat.add_0_r.
  - rewrite !Nat.add_0_r. destruct (_ <=? _) eqn:E; split_bool.
    + rewrite (lr_pos l h Hl), Nat.Div0.add_mod_idemp_l.
      replace (length h + (Nat.min (log_capacity l) (length h) - k))%nat
        with (length h - k + 1 * log_capacity l)%nat by lia.
      by rewrite Nat.Div0.mod_add.
    + f_equal. lia.
Qed.
End refinement.

(* ------------------------------------------------------------------ *)
(** ** Chain verification *)

Section verification.
Context {CH : ChainHasher}.

(** The chain hash [n] records after hash [c] at sequence [s]. *)
Fixpoint chain_from (c s : Z) (n : nat) : Z :=
  match n with
  | O => c
  | S n => chain_from (compute_chain_hash c s) (wrap64 (s + 1)) n
  end.

(** Record [i] of an epoch starting at hash [c] and sequence [s]. *)
Definition linked_at (c s : Z) (i : nat) (r : WitnessRecord) : Prop :=
  wr_sequence r = wrap64 (s + Z.of_nat i) ∧
  wr_prev_hash r = fold_u64_to_u32 (chain_from c s i) ∧
  wr_record_hash r = fold_u64_to_u32 (chain_from c s (S i)).

Lemma wrap64_shift s i : wrap64 (wrap64 (s + 1) + Z.of_nat i) = wrap64 (s + Z.of_nat (S i)).
Proof. unfold wrap64. rewrite Zplus_mod_idemp_l. f_equal. lia. Qed.

Lemma linked_at_S c s i r :
  linked_at (compute_chain_hash c s) (wrap64 (s + 1)) i r ↔ linked_at c s (S i) r.
Proof. unfold linked_at. by rewrite wrap64_shift. Qed.

Lemma verify_loop_spec rs c s :
  is_u64 s →
  verify_loop rs c s = Ok tt ↔ ∀ i r, rs !! i = Some r → linked_at c s i r.
Proof.
  revert c s. induction rs as [|r rs IH]; intros c s Hs; [split; done|]. cbn [verify_loop].
  assert (linked_at c s 0 r ↔ wr_sequence r = s ∧ wr_prev_hash r = fold_u64_to_u32 c ∧
    wr_record_hash r = fold_u64_to_u32 (compute_chain_hash c s)) as H0.
  { unfold linked_at. rewrite Z.add_0_r, wrap64_id by done. done. }
  destruct (wr_sequence r =? s) eqn:E1; cbn [negb]; split_bool.
  2: { split; [done|]. intros H. specialize (H O r eq_refl). tauto. }
  rewrite E1. destruct (wr_prev_hash r =? _) eqn:E2; cbn [negb]; split_bool.
  2: { split; [done|]. intros H. specialize (H O r eq_refl). tauto. }
  destruct (wr_record_hash r =? _) eqn:E3; cbn [negb]; split_bool.
  2: { split; [done|]. intros H. specialize (H O r eq_refl). tauto. }
  rewrite IH by apply wrap64_range. split.
  - intros H [|i] r' Hi; [injection Hi as <-; tauto|]. by apply linked_at_S, H.
  - intros H i r' Hi. by apply linked_at_S, (H (S i)).
Qed.

(** The verifier accepts a slice exactly when it is non-empty and its
    records are numbered without gaps from the expected sequence, each linked
    to the hash before it and carrying the hash after it; it then returns the
    number of records.  Omission, duplication and reordering are rejected. *)
Theorem verify_chain_from_spec rs c s :
  is_u64 s →
  (∀ n, verify_chain_from rs c s = Ok n ↔
    n = length rs ∧ rs ≠ [] ∧ ∀ i r, rs !! i = Some r → linked_at c s i r) ∧
  (rs = [] ↔ verify_chain_from rs c s = Err EmptyLog).
Proof.
  intros Hs. unfold verify_chain_from. pose proof (verify_loop_spec rs c s Hs) as H.
  assert (verify_loop rs c s ≠ Err EmptyLog) as Hne.
  { clear. revert c s. induction rs as [|r rs IH]; intros c s; [done|]. cbn [verify_loop].
    repeat case_match; try done. }
  destruct rs as [|r rs].
  { split; [|done]. intros n. split; [done|]. by intros (_ & ? & _). }
  destruct (verify_loop (r :: rs) c s) as [[]|e] eqn:E; cbn [fmap result_fmap].
  - split; [|done]. intros n. split.
    + intros [= <-]. split_and!; [done|done|]. by apply H.
    + by intros [-> _].
  - split; [|split; [done|congruence]]. intros n. split; [done|]. intros (_ & _ & Hl).
    by apply H in Hl.
Qed.

(** Two records the verifier cannot tell apart. *)
Definition same_chain_fields (r r' : WitnessRecord) : Prop :=
  wr_sequence r = wr_sequence r' ∧ wr_prev_hash r = wr_prev_hash r' ∧
  wr_record_hash r = wr_record_hash r'.

(** The chain covers only the sequence number and the two hashes.  Any
    change to a record's action, actor, target, payload, time, capability hash
    or signature leaves the verdict of the verifier unchanged, although the
    layout comment calls [record_hash] a hash of bytes 0 to 44. *)
Theorem verify_chain_ignores_contents rs rs' c s :
  Forall2 same_chain_fields rs rs' → verify_chain_from rs c s = verify_chain_from rs' c s.
Proof.
  intros H. assert (∀ c s, verify_loop rs c s = verify_loop rs' c s) as Hloop.
  { clear c s. induction H as [|r r' rs rs' (Es & Ep & Er) H IH]; intros c s; [done|].
    cbn [verify_loop]. rewrite Es, Ep, Er. repeat case_match; try done. }
  unfold verify_chain_from. rewrite Hloop. destruct H as [|r r' rs rs' _ H%Forall2_length]; [done|].
  cbn [length]. by rewrite H.
Qed.

(** Chain hashes of a suffix of the history. *)
Lemma chain_from_at k n :
  Z.of_nat (k + n) ≤ u64_max → chain_from (chain_at k) (Z.of_nat k) n = chain_at (k + n).
Proof.
  revert k. induction n as [|n IH]; intros k Hk; [by rewrite Nat.add_0_r|].
  cbn [chain_from]. rewrite wrap64_id by (unfold is_u64; lia).
  replace (Z.of_nat k + 1) with (Z.of_nat (S k)) by lia.
  change (compute_chain_hash (chain_at k) (Z.of_nat k)) with (chain_at (S k)).
  rewrite IH by lia. f_equal. lia.
Qed.

Lemma history_linked l h k i r :
  log_repr l h → drop k h !! i = Some r → linked_at (chain_at k) (Z.of_nat k) i r.
Proof.
  intros Hl Hi. rewrite lookup_drop in Hi. pose proof (lookup_lt_Some _ _ _ Hi).
  pose proof (lr_max l h Hl). destruct (lr_stamped l h Hl _ _ Hi) as (Es & Ep & Er).
  unfold linked_at. rewrite !chain_from_at by lia. split_and!.
  - rewrite wrap64_id; [lia|]. unfold is_u64. lia.
  - done.
  - by rewrite Nat.add_succ_r.
Qed.

Lemma history_verifies l h k :
  log_repr l h → (k ≤ length h)%nat → verify_loop (drop k h) (chain_at k) (Z.of_nat k) = Ok tt.
Proof.
  intros Hl Hk. apply verify_loop_spec; [pose proof (lr_max l h Hl); unfold is_u64; lia|].
  intros i r. by eapply history_linked.
Qed.

(** Verification of a concatenation, part by part. *)
Lemma verify_loop_app a b c s :
  is_u64 s → verify_loop a c s = Ok tt →
  verify_loop (a ++ b) c s = verify_loop b (chain_from c s (length a)) (wrap64 (s + Z.of_nat (length a))).
Proof.
  revert c s. induction a as [|r a IH]; intros c s Hs; cbn [app verify_loop length chain_from].
  { intros _. rewrite Z.add_0_r, wrap64_id by done. done. }
  destruct (wr_sequence r =? s) eqn:E; cbn [negb]; [|done]. destruct (negb (wr_prev_hash r =? _)); [done|].
  destruct (negb (wr_record_hash r =? _)); [done|]. intros H. split_bool.
  rewrite IH by (apply wrap64_range || done). by rewrite wrap64_shift, E.
Qed.

(** A snapshot from a boundary the ring still holds is the rest of the history. *)
Lemma snapshot_since_suffix l h k ch out :
  log_repr l h → (k ≤ length h ≤ k + log_capacity l)%nat → (length h - k ≤ length out)%nat →
  snapshot_since (mkWitnessCheckpoint (Z.of_nat k) ch) out l =
    (Ok (mkWitnessSnapshot (Z.of_nat (length h - k)) (checkpoint l)),
     drop k h ++ drop (length h - k) out).
Proof.
  intros Hl Hk Hout. unfold snapshot_since. cbn [cp_next_sequence]. rewrite (lr_seq l h Hl). unfold sat_sub.
  destruct (_ <? _) eqn:E1; split_bool; [lia|].
  destruct (Z.of_nat k <? _) eqn:E2; split_bool; [lia|].
  destruct (Z.of_nat (length out) <? _) eqn:E3; split_bool; [lia|].
  replace (Z.of_nat (length h) - Z.of_nat k) with (Z.of_nat (length h - k)) by lia. rewrite Nat2Z.id.
  rewrite (since_loop_spec l h k 0) by (done || lia). by rewrite take_0, Nat.add_0_r, Nat.add_0_l.
Qed.

(** And no other snapshot succeeds. *)
Lemma snapshot_since_Ok l h k ch out s out' :
  log_repr l h → snapshot_since (mkWitnessCheckpoint (Z.of_nat k) ch) out l = (Ok s, out') →
  (k ≤ length h)%nat ∧ s = mkWitnessSnapshot (Z.of_nat (length h - k)) (checkpoint l) ∧
  out' = drop k h ++ drop (length h - k) out.
Proof.
  intros Hl H. pose proof H as H'. unfold snapshot_since in H'. cbn [cp_next_sequence] in H'.
  rewrite (lr_seq l h Hl) in H'. unfold sat_sub in H'.
  destruct (_ <? _) eqn:E1 in H'; [done|]. destruct (Z.of_nat k <? _) eqn:E2 in H'; [done|].
  destruct (Z.of_nat (length out) <? _) eqn:E3 in H'; [done|]. split_bool. clear H'.
  rewrite (snapshot_since_suffix l h k) in H by (done || lia). injection H as <- <-. split; [lia|done].
Qed.

(** A sealed epoch verifies.  When a checkpoint was taken after [k]
    records and the ring still holds everything emitted since, the snapshot
    taken relative to it succeeds and the records it returns pass
    [verify_chain_from] from that checkpoint; the boundary it returns is again
    a checkpoint of the history, so epochs chain without gaps. *)
Theorem epoch_snapshot_verifies l0 l h k out :
  log_repr l0 (take k h) → (k < length h)%nat → log_repr l h →
  (length h ≤ k + log_capacity l)%nat → length out = (length h - k)%nat →
  ∃ s out', snapshot_since (checkpoint l0) out l = (Ok s, out') ∧
    verify_chain_from out' (cp_chain_hash (checkpoint l0)) (cp_next_sequence (checkpoint l0)) =
      Ok (length h - k)%nat ∧
    sn_end_checkpoint s = checkpoint l.
Proof.
  intros Hl0 Hk Hl Hwin Hout. assert (length (take k h) = k) as Hlen by (rewrite length_take; lia).
  assert (checkpoint l0 = mkWitnessCheckpoint (Z.of_nat k) (chain_at k)) as ->.
  { unfold checkpoint. by rewrite (lr_seq _ _ Hl0), (lr_chain _ _ Hl0), Hlen. }
  rewrite (snapshot_since_suffix l h k (chain_at k) out Hl) by lia.
  rewrite (drop_ge out) by lia. rewrite app_nil_r.
  eexists _, _. split; [done|]. cbn [cp_chain_hash cp_next_sequence sn_end_checkpoint]. split; [|done].
  assert (verify_loop (drop k h) (chain_at k) (Z.of_nat k) = Ok tt) as Hv.
  { apply verify_loop_spec; [pose proof (lr_max l h Hl); unfold is_u64; lia|].
    intros i r. by eapply history_linked. }
  unfold verify_chain_from. rewrite Hv. cbn [fmap result_fmap].
  destruct (drop k h) as [|r rs] eqn:Ed.
  - apply (f_equal length) in Ed. rewrite length_drop in Ed. simpl in Ed. lia.
  - by rewrite <-Ed, length_drop.
Qed.
End verification.

(* ------------------------------------------------------------------ *)
(** ** The two hashers *)

Lemma chain_input_bytes prev seq :
  length (chain_input prev seq) = 16%nat ∧ Forall is_byte (chain_input prev seq).
Proof.
  unfold chain_input. rewrite length_app, !length_le_bytes. split; [done|].
  apply Forall_app. split; apply le_bytes_byte.
Qed.

Lemma xor_fold_range digest :
  length digest = 32%nat → Forall is_byte digest → is_u64 (xor_fold_256_to_u64 digest).
Proof.
  intros Hlen Hb.
  assert (∀ n, (n + 8 ≤ 32)%nat → is_u64 (of_le_bytes (take 8 (drop n digest)))) as Hw.
  { intros n Hn. pose proof (of_le_bytes_range (take 8 (drop n digest))) as H.
    rewrite length_take, length_drop, Hlen in H.
    replace (Z.of_nat (8 `min` (32 - n))) with 8 in H by lia.
    unfold is_u64, u64_max. assert (Forall is_byte (take 8 (drop n digest))) by
      (by apply Forall_take, Forall_drop). specialize (H ltac:(done)). lia. }
  unfold xor_fold_256_to_u64. rewrite <-(drop_0 digest) at 1.
  repeat apply lxor_u64_range; apply Hw; lia.
Qed.

Definition fnv_hasher : ChainHasher := compute_chain_hash_fnv.
Definition sha256_hasher `{!Sha256} : ChainHasher := compute_chain_hash_sha256.

Lemma fnv_hasher_laws : @ChainHasherLaws fnv_hasher.
Proof.
  intros prev seq. change (is_u64 (fnv1a_64 (chain_input prev seq))). unfold fnv1a_64.
  rewrite (fnv_unrolled_foldl _ _ _ (Nat.le_refl _)). by apply fnv_foldl_range.
Qed.

Lemma sha256_hasher_laws `{!Sha256, !Sha256Laws} : @ChainHasherLaws sha256_hasher.
Proof. intros prev seq. apply xor_fold_range; [apply sha256_length|apply sha256_bytes]. Qed.

(* ------------------------------------------------------------------ *)
(** ** The signers *)

(** The 52 bytes a signature covers. *)
Definition record_content (r : WitnessRecord) : list Z :=
  le_bytes 8 (wr_sequence r) ++ le_bytes 8 (wr_timestamp_ns r) ++
  [wr_action_kind r; wr_proof_tier r; wr_flags r; 0] ++
  le_bytes 4 (wr_actor_partition_id r) ++ le_bytes 8 (wr_target_object_id r) ++
  le_bytes 4 (wr_capability_hash r) ++ wr_payload r ++
  le_bytes 4 (wr_prev_hash r) ++ le_bytes 4 (wr_record_hash r).

Lemma record_content_take r :
  length (wr_payload r) = 8%nat → take 52 (record_to_bytes r) = record_content r.
Proof.
  intros Hp. assert (record_to_bytes r = record_content r ++ wr_aux r ++ replicate 4 0) as ->.
  { unfold record_to_bytes, record_content. by rewrite <-!app_assoc. }
  apply take_app_length'. unfold record_content. rewrite !length_app, !length_le_bytes, Hp. done.
Qed.

#[export] Instance null_signer_laws : WitnessSignerLaws NullSigner.
Proof. done. Qed.

#[export] Instance strict_signer_laws : WitnessSignerLaws StrictSigner.
Proof.
  intros s r Hp.
  change (bool_decide (strict_compute_signature r =
    strict_compute_signature (set_aux (strict_compute_signature r) r)) = true).
  apply bool_decide_eq_true. unfold strict_compute_signature.
  by rewrite !record_content_take.
Qed.

Lemma lor_fold_zero (f : nat → Z) l d :
  foldl (λ d i, Z.lor d (f i)) d l = 0 ↔ d = 0 ∧ Forall (λ i, f i = 0) l.
Proof.
  revert d. induction l as [|i l IH]; intros d; cbn; [by split; [|intros []]|].
  rewrite IH, Forall_cons, Z.lor_eq_0_iff. tauto.
Qed.

(** The constant-time comparison of two 8-byte signatures is equality. *)
Lemma constant_time_diff_eq a b :
  length a = 8%nat → length b = 8%nat → constant_time_diff a b = 0 ↔ a = b.
Proof.
  intros Ha Hb. unfold constant_time_diff. rewrite lor_fold_zero, Forall_forall. split.
  - intros [_ H]. apply list_eq. intros i. destruct (decide (i < 8)%nat) as [Hi|Hi].
    + specialize (H i ltac:(apply elem_of_seq; lia)). apply Z.lxor_eq in H.
      destruct (lookup_lt_is_Some_2 a i) as [x Hx]; [lia|].
      destruct (lookup_lt_is_Some_2 b i) as [y Hy]; [lia|].
      rewrite Hx, Hy in H |- *. by f_equal.
    + by rewrite !lookup_ge_None_2 by lia.
  - intros ->. split; [done|]. intros i _. apply Z.lxor_nilpotent.
Qed.

#[export] Instance hmac_signer_laws `{!HmacSha256} : WitnessSignerLaws HmacWitnessSigner.
Proof.
  intros s r Hp.
  change ((constant_time_diff (hmac_compute_signature s (set_aux (hmac_compute_signature s r) r))
    (hmac_compute_signature s r) =? 0) = true).
  apply Z.eqb_eq. unfold hmac_compute_signature.
  rewrite !record_content_take by done. unfold constant_time_diff. apply lor_fold_zero.
  split; [done|]. apply Forall_forall. intros i _. apply Z.lxor_nilpotent.
Qed.

(** The constant-time check of the HMAC signer decides equality of the
    stored signature with the MAC of the record's first 52 bytes, so it
    rejects every other value of [aux]. *)
Theorem hmac_verify_spec `{!HmacSha256, !HmacSha256Laws} (s : HmacWitnessSigner) r :
  length (wr_payload r) = 8%nat → length (wr_aux r) = 8%nat →
  verify s r = true ↔ wr_aux r = take 8 (hmac_sha256 (hs_key s) (record_content r)).
Proof.
  intros Hp Ha.
  change (verify s r) with (constant_time_diff (hmac_compute_signature s r) (wr_aux r) =? 0).
  rewrite Z.eqb_eq, constant_time_diff_eq; [|..|done].
  - unfold hmac_compute_signature. by rewrite record_content_take.
  - unfold hmac_compute_signature. rewrite length_take, hmac_sha256_length. done.
Qed.

(* ------------------------------------------------------------------ *)
(** ** The 64-byte layout *)

Definition bytes_to_record (b : list Z) : WitnessRecord :=
  let field off n := of_le_bytes (take n (drop off b)) in
  mkWitnessRecord (field 0 8)%nat (field 8 8)%nat (field 16 1)%nat (field 17 1)%nat (field 18 1)%nat
    0 (field 20 4)%nat (field 24 8)%nat (field 32 4)%nat (take 8 (drop 36 b)) (field 44 4)%nat
    (field 48 4)%nat (take 8 (drop 52 b)) (replicate 4 0).

Record record_wf (r : WitnessRecord) : Prop := {
  rw_sequence : is_u64 (wr_sequence r); rw_timestamp : is_u64 (wr_timestamp_ns r);
  rw_action : is_u8 (wr_action_kind r); rw_tier : is_u8 (wr_proof_tier r);
  rw_flags : is_u8 (wr_flags r); rw_reserved : wr_reserved r = 0;
  rw_actor : is_u32 (wr_actor_partition_id r); rw_target : is_u64 (wr_target_object_id r);
  rw_cap : is_u32 (wr_capability_hash r); rw_payload : length (wr_payload r) = 8%nat;
  rw_prev : is_u32 (wr_prev_hash r); rw_hash : is_u32 (wr_record_hash r);
  rw_aux : length (wr_aux r) = 8%nat; rw_pad : wr_pad r = replicate 4 0;
}.

Lemma field_at {A} (pre x post : list A) off n :
  length pre = off → length x = n → take n (drop off (pre ++ x ++ post)) = x.
Proof. intros <- <-. by rewrite drop_app_length, take_app_length. Qed.

(** The 64-byte serialisation loses nothing: it has exactly 64 bytes and
    every well-formed record is read back from it at the documented
    offsets. *)
Theorem record_to_bytes_roundtrip r :
  record_wf r → length (record_to_bytes r) = 64%nat ∧ bytes_to_record (record_to_bytes r) = r.
Proof.
  intros []. split.
  { unfold record_to_bytes. rewrite !length_app, !length_le_bytes, length_replicate.
    rewrite rw_payload0, rw_aux0. done. }
  destruct r as [sq ts ak pt fl rs ac tg ch pl ph rh ax pd]. cbn in *. subst rs pd.
  unfold is_u8, u8_max in *.
  do 8 (destruct pl as [|? pl]; [done|]). destruct pl; [|done].
  do 8 (destruct ax as [|? ax]; [done|]). destruct ax; [|done].
  unfold bytes_to_record, record_to_bytes. cbn -[of_le_bytes Z.div Z.modulo Z.add Z.mul].
  f_equal;
    first [ by apply (of_le_bytes_8 8) | by apply (of_le_bytes_4 4) | cbn; lia ].
Qed.

(* ------------------------------------------------------------------ *)
(** ** A sample log: three records in a ring of two, hashed with FNV *)

#[local] Existing Instance fnv_hasher.

Definition sample_record (ts : Z) : WitnessRecord := emitted AkIpcSend 1 7 9 3 ts (replicate 8 0).
Definition sample_history (n : nat) : list WitnessRecord :=
  (λ k, stamp_at k (sample_record (Z.of_nat k))) <$> seq 0 n.
Definition sample_log (n : nat) : WitnessLog :=
  foldl (λ l k, (log_append (sample_record (Z.of_nat k)) l).2) (log_new 2) (seq 0 n).

Lemma sample_log_repr n : (n < 1000)%nat → log_repr (sample_log n) (sample_history n).
Proof.
  induction n as [|n IH]; intros Hn; [by apply log_new_repr; lia|].
  unfold sample_log, sample_history. rewrite seq_S, foldl_app, fmap_app. cbn [foldl fmap list_fmap].
  destruct (append_repr _ _ (sample_record (Z.of_nat n)) (IH ltac:(lia))) as [_ H].
  - unfold sample_history. rewrite length_fmap, length_seq. unfold u64_max. lia.
  - unfold sample_history in H at 2. rewrite length_fmap, length_seq in H. exact H.
Qed.

Lemma log_append_refines_witness :
  log_repr (log_new 2) [] ∧ (log_append (sample_record 5) (log_new 2)).1 = 0 ∧
  verify mkStrictSigner (set_aux (sign mkStrictSigner (stamp_at 0 (sample_record 5)))
    (stamp_at 0 (sample_record 5))) = true.
Proof.
  assert (log_repr (log_new 2) []) as Hl by (apply log_new_repr; lia).
  destruct (log_append_refines mkStrictSigner (log_new 2) [] (sample_record 5) Hl eq_refl eq_refl)
    as (H1 & _ & _ & _ & H2).
  split; [exact Hl|]. split; [exact H1|exact H2].
Defined.

Lemma snapshot_since_refines_witness :
  log_repr (sample_log 3) (sample_history 3) ∧
  ∃ s out, snapshot_since (mkWitnessCheckpoint (Z.of_nat 1) 0) (replicate 2 record_zeroed) (sample_log 3) =
      (Ok s, out) ∧ sn_count s = 2 ∧ out = drop 1 (sample_history 3).
Proof.
  assert (log_repr (sample_log 3) (sample_history 3)) as Hl by (apply sample_log_repr; lia).
  split; [exact Hl|].
  pose proof (snapshot_since_refines _ _ 1 0 (replicate 2 record_zeroed) Hl) as H.
  destruct (snapshot_since _ _ (sample_log 3)) as [[s|e] out] eqn:E.
  - exists s, out. split; [done|]. destruct H as (_ & H1 & _ & H2).
    split; [exact H1|exact H2].
  - exfalso. vm_compute in E. discriminate E.
Defined.

Lemma snapshot_refines_witness :
  log_repr (sample_log 3) (sample_history 3) ∧
  snapshot (replicate 1 record_zeroed) (sample_log 3) = (1%nat, drop 2 (sample_history 3)).
Proof.
  assert (log_repr (sample_log 3) (sample_history 3)) as Hl by (apply sample_log_repr; lia).
  split; [exact Hl|].
  destruct (snapshot_refines _ _ (replicate 1 record_zeroed) Hl) as [_ H]. exact H.
Defined.

Lemma verify_chain_from_spec_witness :
  is_u64 0 ∧ verify_chain_from (sample_history 2) 0 0 = Ok 2%nat.
Proof.
  split; [done|]. apply (verify_chain_from_spec (sample_history 2) 0 0 ltac:(done)).
  split; [done|]. split; [done|]. intros i r Hi.
  destruct i as [|[|i]]; [..|done]; injection Hi as <-; by vm_compute.
Defined.

Lemma verify_chain_ignores_contents_witness :
  let tampered := set_aux (replicate 8 9) <$> sample_history 2 in
  Forall2 same_chain_fields (sample_history 2) tampered ∧
  verify_chain_from tampered 0 0 = Ok 2%nat.
Proof.
  intros tampered. assert (Forall2 same_chain_fields (sample_history 2) tampered) as H.
  { unfold tampered. apply Forall2_fmap_r, Forall_Forall2_diag, Forall_true. done. }
  split; [exact H|]. rewrite <-(verify_chain_ignores_contents _ _ 0 0 H). by vm_compute.
Defined.

Lemma epoch_snapshot_verifies_witness :
  log_repr (sample_log 3) (sample_history 3) ∧
  ∃ s out, snapshot_since (checkpoint (sample_log 1)) (replicate 2 record_zeroed) (sample_log 3) = (Ok s, out) ∧
    verify_chain_from out (cp_chain_hash (checkpoint (sample_log 1)))
      (cp_next_sequence (checkpoint (sample_log 1))) = Ok 2%nat.
Proof.
  assert (log_repr (sample_log 3) (sample_history 3)) as Hl by (apply sample_log_repr; lia).
  split; [exact Hl|].
  destruct (epoch_snapshot_verifies (sample_log 1) (sample_log 3) (sample_history 3) 1
    (replicate 2 record_zeroed)) as (s & out & H1 & H2 & _).
  - apply (sample_log_repr 1). lia.
  - vm_compute. lia.
  - exact Hl.
  - vm_compute. lia.
  - done.
  - exists s, out. split; [exact H1|exact H2].
Defined.

#[local] Instance sample_hmac : HmacSha256 := λ _ _, replicate 32 7.
#[local] Instance sample_hmac_laws : HmacSha256Laws.
Proof. done. Qed.

Lemma hmac_verify_spec_witness :
  let r := set_aux (replicate 8 7) (sample_record 0) in
  length (wr_aux r) = 8%nat ∧ verify (mkHmacWitnessSigner [1]) r = true.
Proof.
  intros r. split; [done|].
  apply (hmac_verify_spec (mkHmacWitnessSigner [1]) r); [done|done|]. by vm_compute.
Defined.

Lemma record_to_bytes_roundtrip_witness :
  record_wf (sample_record 5) ∧ bytes_to_record (record_to_bytes (sample_record 5)) = sample_record 5.
Proof.
  assert (record_wf (sample_record 5)) as H by (split; done).
  split; [exact H|]. apply (record_to_bytes_roundtrip _ H).
Defined.
