(* ===== verification/Ipc.v ===== *)
(** Inter-partition messages, [crates/rvm-partition/src/ipc.rs].

    A channel owns a ring queue of [QUEUE_SIZE] messages; the manager keeps
    [MAX_EDGES] channel slots and a hash index from edge id to slot.  The
    specification is a finite map from edge ids to channels holding unbounded
    lists: the file proves that the ring is a bounded FIFO and that every
    history of manager calls answers as the map does. *)

From stdpp Require Import base numbers list option sets gmap.
From Stdlib Require Import ZArith Lia.
From S2P Require Import Prelude.
From S2P Require Import Types.

Open Scope rvm_scope.

(* ------------------------------------------------------------------ *)
(** ** Messages and queues *)

Record IpcMessage : Set := mkIpcMessage {
  im_sender : PartitionId;
  im_receiver : PartitionId;
  im_edge_id : Z;
  im_payload_len : Z;
  im_msg_type : Z;
  im_sequence : Z;
  im_capability_hash : Z;
}.

#[export] Instance IpcMessage_eq_dec : EqDecision IpcMessage.
Proof. solve_decision. Defined.

Record MessageQueue : Set := mkMessageQueue {
  mq_buffer : list (option IpcMessage);
  mq_head : nat;
  mq_tail : nat;
  mq_count : nat;
}.

Definition queue_capacity (q : MessageQueue) : nat := length (mq_buffer q).

Definition queue_new (capacity : nat) : MessageQueue :=
  mkMessageQueue (replicate capacity None) 0 0 0.

(** [(i + 1) & (CAPACITY - 1)]. *)
Definition ring_next (capacity i : nat) : nat := Nat.land (i + 1) (capacity - 1).

Definition queue_send (msg : IpcMessage) : prog MessageQueue RvmError unit := λ q,
  if (queue_capacity q <=? mq_count q)%nat then (Err ResourceLimitExceeded, q)
  else (Ok tt, mkMessageQueue (<[mq_tail q := Some msg]> (mq_buffer q)) (mq_head q)
                 (ring_next (queue_capacity q) (mq_tail q)) (mq_count q + 1)).

Definition queue_receive (q : MessageQueue) : option IpcMessage * MessageQueue :=
  if (mq_count q =? 0)%nat then (None, q)
  else
    let msg := default None (mq_buffer q !! mq_head q) in
    (msg, mkMessageQueue (<[mq_head q := None]> (mq_buffer q))
            (ring_next (queue_capacity q) (mq_head q)) (mq_tail q) (mq_count q - 1)).

Definition queue_is_full (q : MessageQueue) : bool := (queue_capacity q <=? mq_count q)%nat.
Definition queue_is_empty (q : MessageQueue) : bool := (mq_count q =? 0)%nat.
Definition queue_len (q : MessageQueue) : nat := mq_count q.

(* ------------------------------------------------------------------ *)
(** ** The manager *)

Record ChannelMeta : Set := mkChannelMeta {
  ch_edge_id : Z;
  ch_source : PartitionId;
  ch_dest : PartitionId;
  ch_queue : MessageQueue;
  ch_weight : Z;
}.

Record IpcManager : Set := mkIpcManager {
  ip_queues : list (option ChannelMeta);
  ip_edge_index : list (option nat);
  ip_edge_count : nat;
  ip_next_edge_id : Z;
}.

Definition ipc_max_edges (m : IpcManager) : nat := length (ip_queues m).

Definition ipc_new (max_edges : nat) : IpcManager :=
  mkIpcManager (replicate max_edges None) (replicate max_edges None) 0 1.

(** [edge_id % MAX_EDGES]. *)
Definition edge_hash (m : IpcManager) (edge_id : Z) : nat :=
  Z.to_nat (edge_id mod Z.of_nat (ipc_max_edges m)).

(** The const generic [QUEUE_SIZE] is the argument [qsize]. *)
Definition create_channel (qsize : nat) (from to : PartitionId) : prog IpcManager RvmError Z := λ m,
  if (ipc_max_edges m <=? ip_edge_count m)%nat then (Err ResourceLimitExceeded, m)
  else
    let edge_id := ip_next_edge_id m in
    let next := wrap64 (ip_next_edge_id m + 1) in
    match position is_none (ip_queues m) with
    | Some i =>
        (Ok edge_id,
         mkIpcManager
           (<[i := Some (mkChannelMeta edge_id from to (queue_new qsize) 0)]> (ip_queues m))
           (<[edge_hash m edge_id := Some i]> (ip_edge_index m))
           (ip_edge_count m + 1) next)
    | None => (Err InternalError, mkIpcManager (ip_queues m) (ip_edge_index m) (ip_edge_count m) next)
    end.

Definition has_edge (edge_id : Z) (slot : option ChannelMeta) : bool :=
  is_some_and (λ ch, ch_edge_id ch =? edge_id) slot.

(** [find] and [find_mut]: the slot of an edge, by the index or by a scan. *)
Definition ipc_find (m : IpcManager) (edge_id : Z) : RvmResult nat :=
  let fallback := ok_or (position (has_edge edge_id) (ip_queues m)) PartitionNotFound in
  match default None (ip_edge_index m !! edge_hash m edge_id) with
  | Some idx => if has_edge edge_id (default None (ip_queues m !! idx)) then Ok idx else fallback
  | None => fallback
  end.

(** A write through the borrow [find_mut] returns. *)
Definition set_channel (i : nat) (ch : ChannelMeta) (m : IpcManager) : IpcManager :=
  mkIpcManager (<[i := Some ch]> (ip_queues m)) (ip_edge_index m) (ip_edge_count m)
    (ip_next_edge_id m).

Definition with_channel {A} (edge_id : Z) (op : prog ChannelMeta RvmError A)
    : prog IpcManager RvmError A := λ m,
  match ipc_find m edge_id with
  | Err e => (Err e, m)
  | Ok i =>
      match default None (ip_queues m !! i) with
      | None => (Err PartitionNotFound, m)
      | Some ch => match op ch with (r, ch') => (r, set_channel i ch' m) end
      end
  end.

Definition set_ch_queue (q : MessageQueue) (ch : ChannelMeta) : ChannelMeta :=
  mkChannelMeta (ch_edge_id ch) (ch_source ch) (ch_dest ch) q (ch_weight ch).
Definition bump_weight (ch : ChannelMeta) : ChannelMeta :=
  mkChannelMeta (ch_edge_id ch) (ch_source ch) (ch_dest ch) (ch_queue ch)
    (sat_add u64_max (ch_weight ch) 1).

Definition channel_send (msg : IpcMessage) : prog ChannelMeta RvmError unit :=
  pzoom ch_queue set_ch_queue (queue_send msg) ;;;
  pmodify bump_weight.

Definition ipc_send (edge_id : Z) (msg : IpcMessage) (caller_id : PartitionId)
    : prog IpcManager RvmError unit :=
  if negb (im_sender msg =? caller_id) then pfail InsufficientCapability
  else with_channel edge_id
    (let? source := pgets ch_source in
     if negb (source =? caller_id) then pfail InsufficientCapability
     else channel_send msg).

Definition ipc_send_unchecked (edge_id : Z) (msg : IpcMessage) : prog IpcManager RvmError unit :=
  with_channel edge_id (channel_send msg).

Definition ipc_receive (edge_id : Z) : prog IpcManager RvmError (option IpcMessage) :=
  with_channel edge_id (λ ch,
    match queue_receive (ch_queue ch) with (msg, q) => (Ok msg, set_ch_queue q ch) end).

Definition destroy_channel (edge_id : Z) : prog IpcManager RvmError unit := λ m,
  match position (has_edge edge_id) (ip_queues m) with
  | None => (Err PartitionNotFound, m)
  | Some i =>
      let hash_slot := edge_hash m edge_id in
      let index :=
        if bool_decide (default None (ip_edge_index m !! hash_slot) = Some i)
        then <[hash_slot := None]> (ip_edge_index m) else ip_edge_index m in
      (Ok tt, mkIpcManager (<[i := None]> (ip_queues m)) index (ip_edge_count m - 1)
                (ip_next_edge_id m))
  end.

Definition comm_weight (edge_id : Z) : prog IpcManager RvmError Z :=
  with_channel edge_id (pgets ch_weight).

Definition channel_count (m : IpcManager) : nat := ip_edge_count m.

(* ------------------------------------------------------------------ *)
(** ** The ring is a bounded FIFO *)

Record queue_repr (q : MessageQueue) (msgs : list IpcMessage) : Prop := {
  qr_pow2 : ∃ k, queue_capacity q = (2 ^ k)%nat;
  qr_count : mq_count q = length msgs;
  qr_bound : (length msgs ≤ queue_capacity q)%nat;
  qr_head : (mq_head q < queue_capacity q)%nat;
  qr_tail : mq_tail q = ((mq_head q + length msgs) mod queue_capacity q)%nat;
  qr_cells i msg : msgs !! i = Some msg →
    mq_buffer q !! ((mq_head q + i) mod queue_capacity q)%nat = Some (Some msg);
}.

Lemma ring_next_mod k i : ring_next (2 ^ k) i = ((i + 1) mod 2 ^ k)%nat.
Proof. unfold ring_next. by rewrite Nat.sub_1_r, <-Nat.ones_equiv, Nat.land_ones. Qed.

Lemma queue_new_repr k : queue_repr (queue_new (2 ^ k)) [].
Proof.
  assert (queue_capacity (queue_new (2 ^ k)) = 2 ^ k)%nat as HC by apply length_replicate.
  assert (2 ^ k ≠ 0)%nat by (apply Nat.pow_nonzero; lia).
  split; rewrite ?HC; cbn; try done; [by exists k|lia|lia|]. by rewrite Nat.mod_0_l.
Qed.

Lemma queue_send_repr q msgs msg :
  queue_repr q msgs →
  queue_send msg q =
    (if (queue_capacity q <=? length msgs)%nat then (Err ResourceLimitExceeded, q)
     else (Ok tt, (queue_send msg q).2)) ∧
  ((length msgs < queue_capacity q)%nat → queue_repr (queue_send msg q).2 (msgs ++ [msg])).
Proof.
  intros Hq. unfold queue_send. rewrite (qr_count q msgs Hq).
  destruct (queue_capacity q <=? length msgs)%nat eqn:E; split_bool; split; try done; [lia|].
  intros Hlt. cbn [snd]. pose proof (qr_head q msgs Hq) as Hh.
  destruct (qr_pow2 q msgs Hq) as [k Hk].
  match goal with |- queue_repr ?q' _ => set (q1 := q') end.
  assert (queue_capacity q1 = queue_capacity q) as HC by apply length_insert.
  split; rewrite ?HC; try (unfold q1; cbn [mq_count mq_head mq_tail mq_buffer]);
    rewrite ?length_app; cbn [length]; try done; try lia.
  - by exists k.
  - rewrite (qr_tail q msgs Hq), Hk, ring_next_mod, Nat.Div0.add_mod_idemp_l. f_equal. lia.
  - intros i m Hi. rewrite (qr_tail q msgs Hq).
    destruct (decide (i = length msgs)) as [->|Hne].
    + rewrite lookup_app_r, Nat.sub_diag in Hi by done. injection Hi as <-.
      apply list_lookup_insert_eq. apply Nat.mod_upper_bound. unfold queue_capacity in *. lia.
    + pose proof (lookup_lt_Some _ _ _ Hi) as Hi2. rewrite length_app in Hi2. cbn in Hi2.
      rewrite lookup_app_l in Hi by lia. rewrite list_lookup_insert_ne.
      * by apply (qr_cells q msgs Hq).
      * apply not_eq_sym, mod_window_ne. lia.
Qed.

Lemma queue_receive_repr q msgs :
  queue_repr q msgs →
  (queue_receive q).1 = head msgs ∧ queue_repr (queue_receive q).2 (tail msgs) ∧
  queue_capacity (queue_receive q).2 = queue_capacity q.
Proof.
  intros Hq. unfold queue_receive. rewrite (qr_count q msgs Hq).
  destruct msgs as [|m msgs]; [done|]. cbn [length Nat.eqb fst snd tail head].
  pose proof (qr_head q _ Hq) as Hh. pose proof (qr_bound q _ Hq) as Hb. cbn [length] in Hb.
  destruct (qr_pow2 q _ Hq) as [k Hk].
  pose proof (qr_cells q _ Hq O m eq_refl) as H0. rewrite Nat.add_0_r, Nat.mod_small in H0 by done.
  split; [by rewrite H0|]. split; [|apply length_insert].
  match goal with |- queue_repr ?q' _ => set (q1 := q') end.
  assert (queue_capacity q1 = queue_capacity q) as HC by apply length_insert.
  assert (mq_head q1 = ((mq_head q + 1) mod queue_capacity q)%nat) as Hh1.
  { unfold q1. cbn [mq_head]. by rewrite Hk, ring_next_mod. }
  split; rewrite ?HC, ?Hh1.
  - by exists k.
  - unfold q1. cbn [mq_count]. lia.
  - lia.
  - apply Nat.mod_upper_bound. lia.
  - unfold q1. cbn [mq_tail]. rewrite (qr_tail q _ Hq), Nat.Div0.add_mod_idemp_l. cbn [length]. f_equal. lia.
  - intros i m' Hi. pose proof (lookup_lt_Some _ _ _ Hi) as Hlt. unfold q1. cbn [mq_buffer].
    rewrite Nat.Div0.add_mod_idemp_l. replace (mq_head q + 1 + i)%nat with (mq_head q + S i)%nat by lia.
    rewrite list_lookup_insert_ne; [by apply (qr_cells q _ Hq (S i))|].
    rewrite <-(Nat.mod_small (mq_head q) (queue_capacity q)) at 1 by done.
    apply mod_window_ne. lia.
Qed.

(** The ring with its masked indices is a bounded FIFO queue: [send]
    appends when fewer than [CAPACITY] messages wait and otherwise fails
    without effect, [receive] returns and removes the oldest message, and a
    fresh queue is empty. *)
Theorem message_queue_fifo q msgs msg :
  queue_repr q msgs →
  queue_send msg q =
    (if (queue_capacity q <=? length msgs)%nat then (Err ResourceLimitExceeded, q)
     else (Ok tt, (queue_send msg q).2)) ∧
  ((length msgs < queue_capacity q)%nat → queue_repr (queue_send msg q).2 (msgs ++ [msg])) ∧
  (queue_receive q).1 = head msgs ∧ queue_repr (queue_receive q).2 (tail msgs) ∧
  queue_len q = length msgs ∧ ∀ k, queue_repr (queue_new (2 ^ k)) [].
Proof.
  intros Hq. destruct (queue_send_repr q msgs msg Hq), (queue_receive_repr q msgs Hq) as (? & ? & _).
  split_and!; try done; [by apply (qr_count q msgs)|]. apply queue_new_repr.
Qed.

Definition sample_msg (n : Z) : IpcMessage := mkIpcMessage 1 2 1 8 0 n 0.

Lemma message_queue_fifo_witness :
  queue_repr (queue_new (2 ^ 1)) [] ∧ queue_send (sample_msg 1) (queue_new (2 ^ 1)) =
    (Ok tt, (queue_send (sample_msg 1) (queue_new (2 ^ 1))).2) ∧
  (queue_receive (queue_new (2 ^ 1))).1 = None.
Proof.
  assert (queue_repr (queue_new (2 ^ 1)) []) as Hq by apply queue_new_repr.
  destruct (message_queue_fifo _ _ (sample_msg 1) Hq) as (H1 & _ & H2 & _).
  split; [exact Hq|]. split; [exact H1|exact H2].
Defined.

(* ------------------------------------------------------------------ *)
(** ** Specification: a finite map of channels *)

Record AbsChannel : Set := mkAbsChannel {
  ac_source : PartitionId;
  ac_dest : PartitionId;
  ac_msgs : list IpcMessage;
  ac_weight : Z;
}.

Record AbsIpc : Set := mkAbsIpc {
  ai_channels : gmap Z AbsChannel;
  ai_next : Z;
}.

Inductive ipc_op : Set :=
| IoCreate (from to : PartitionId)
| IoSend (edge_id : Z) (msg : IpcMessage) (caller : PartitionId)
| IoSendUnchecked (edge_id : Z) (msg : IpcMessage)
| IoReceive (edge_id : Z)
| IoDestroy (edge_id : Z)
| IoWeight (edge_id : Z).

Inductive ipc_response : Set :=
| IrNumber (r : RvmResult Z)
| IrUnit (r : RvmResult unit)
| IrMsg (r : RvmResult (option IpcMessage)).

Definition run_ipc (qsize : nat) (op : ipc_op) (m : IpcManager) : ipc_response * IpcManager :=
  match op with
  | IoCreate from to => let '(r, m) := create_channel qsize from to m in (IrNumber r, m)
  | IoSend e msg caller => let '(r, m) := ipc_send e msg caller m in (IrUnit r, m)
  | IoSendUnchecked e msg => let '(r, m) := ipc_send_unchecked e msg m in (IrUnit r, m)
  | IoReceive e => let '(r, m) := ipc_receive e m in (IrMsg r, m)
  | IoDestroy e => let '(r, m) := destroy_channel e m in (IrUnit r, m)
  | IoWeight e => let '(r, m) := comm_weight e m in (IrNumber r, m)
  end.

Definition abs_push (qsize : nat) (msg : IpcMessage) (a : AbsChannel) : RvmResult AbsChannel :=
  if (qsize <=? length (ac_msgs a))%nat then Err ResourceLimitExceeded
  else Ok (mkAbsChannel (ac_source a) (ac_dest a) (ac_msgs a ++ [msg])
             (sat_add u64_max (ac_weight a) 1)).

Definition abs_update (e : Z) (f : AbsChannel → RvmResult AbsChannel) (s : AbsIpc)
    : RvmResult unit * AbsIpc :=
  match ai_channels s !! e with
  | None => (Err PartitionNotFound, s)
  | Some a => match f a with
              | Ok a' => (Ok tt, mkAbsIpc (<[e := a']> (ai_channels s)) (ai_next s))
              | Err err => (Err err, s)
              end
  end.

Definition run_abs (cap qsize : nat) (op : ipc_op) (s : AbsIpc) : ipc_response * AbsIpc :=
  match op with
  | IoCreate from to =>
      if (cap <=? size (ai_channels s))%nat then (IrNumber (Err ResourceLimitExceeded), s)
      else (IrNumber (Ok (ai_next s)),
            mkAbsIpc (<[ai_next s := mkAbsChannel from to [] 0]> (ai_channels s)) (ai_next s + 1))
  | IoSend e msg caller =>
      if negb (im_sender msg =? caller) then (IrUnit (Err InsufficientCapability), s)
      else let '(r, s) := abs_update e (λ a,
             if negb (ac_source a =? caller) then Err InsufficientCapability
             else abs_push qsize msg a) s in (IrUnit r, s)
  | IoSendUnchecked e msg =>
      let '(r, s) := abs_update e (abs_push qsize msg) s in (IrUnit r, s)
  | IoReceive e =>
      match ai_channels s !! e with
      | None => (IrMsg (Err PartitionNotFound), s)
      | Some a => (IrMsg (Ok (head (ac_msgs a))),
          mkAbsIpc (<[e := mkAbsChannel (ac_source a) (ac_dest a) (tail (ac_msgs a)) (ac_weight a)]>
                      (ai_channels s)) (ai_next s))
      end
  | IoDestroy e =>
      match ai_channels s !! e with
      | None => (IrUnit (Err PartitionNotFound), s)
      | Some _ => (IrUnit (Ok tt), mkAbsIpc (delete e (ai_channels s)) (ai_next s))
      end
  | IoWeight e =>
      match ai_channels s !! e with
      | None => (IrNumber (Err PartitionNotFound), s)
      | Some a => (IrNumber (Ok (ac_weight a)), s)
      end
  end.

(* ------------------------------------------------------------------ *)
(** ** The invariant and the representation *)

Record ipc_inv (m : IpcManager) : Prop := {
  ii_index_len : length (ip_edge_index m) = length (ip_queues m);
  ii_count : ip_edge_count m = count_by is_some (ip_queues m);
  ii_index h i : ip_edge_index m !! h = Some (Some i) → (i < length (ip_queues m))%nat;
  ii_unique i j a b : ip_queues m !! i = Some (Some a) → ip_queues m !! j = Some (Some b) →
    ch_edge_id a = ch_edge_id b → i = j;
  ii_fresh i a : ip_queues m !! i = Some (Some a) → ch_edge_id a < ip_next_edge_id m;
}.

Record chan_repr (qsize : nat) (ch : ChannelMeta) (a : AbsChannel) : Prop := {
  cr_source : ch_source ch = ac_source a;
  cr_dest : ch_dest ch = ac_dest a;
  cr_weight : ch_weight ch = ac_weight a;
  cr_queue : queue_repr (ch_queue ch) (ac_msgs a);
  cr_cap : queue_capacity (ch_queue ch) = qsize;
}.

Record ipc_repr (cap qsize : nat) (m : IpcManager) (s : AbsIpc) : Prop := {
  ir_inv : ipc_inv m;
  ir_cap : length (ip_queues m) = cap;
  ir_next : ip_next_edge_id m = ai_next s;
  ir_size : ip_edge_count m = size (ai_channels s);
  ir_some e a : ai_channels s !! e = Some a →
    ∃ i ch, ip_queues m !! i = Some (Some ch) ∧ ch_edge_id ch = e ∧ chan_repr qsize ch a;
  ir_slot i ch : ip_queues m !! i = Some (Some ch) → is_Some (ai_channels s !! ch_edge_id ch);
}.

Lemma has_edge_true e slot : has_edge e slot = true ↔ ∃ ch, slot = Some ch ∧ ch_edge_id ch = e.
Proof.
  destruct slot as [ch|]; cbn; [rewrite Z.eqb_eq|]; split.
  - intros. by exists ch.
  - by intros (? & [= <-] & ?).
  - done.
  - by intros (? & ? & _).
Qed.

Lemma position_edge m i ch :
  ipc_inv m → ip_queues m !! i = Some (Some ch) →
  position (has_edge (ch_edge_id ch)) (ip_queues m) = Some i.
Proof.
  intros Hm Hi. eapply position_unique; [done|by apply has_edge_true; eauto|].
  intros j y Hj (ch' & -> & E)%has_edge_true. by eapply (ii_unique m Hm).
Qed.

(** The hash index is only a shortcut: with or without a collision the
    lookup answers like the linear scan. *)
Lemma ipc_find_scan m e :
  ipc_inv m → ipc_find m e = ok_or (position (has_edge e) (ip_queues m)) PartitionNotFound.
Proof.
  intros Hm. unfold ipc_find.
  destruct (default None (ip_edge_index m !! edge_hash m e)) as [idx|]; [|done].
  destruct (has_edge e (default None (ip_queues m !! idx))) eqn:E; [|done].
  apply has_edge_true in E as (ch & Hch & <-).
  destruct (ip_queues m !! idx) as [[ch'|]|] eqn:Hi; cbn in Hch; try done. injection Hch as ->.
  by rewrite (position_edge m idx ch).
Qed.

(** A call that leaves the channel as it is. *)
Lemma set_channel_same m i ch :
  ip_queues m !! i = Some (Some ch) → set_channel i ch m = m.
Proof. intros Hi. unfold set_channel. rewrite list_insert_id by done. by destruct m. Qed.

Section repr.
Context (cap qsize : nat) (m : IpcManager) (s : AbsIpc) (Hr : ipc_repr cap qsize m s).

Lemma with_channel_none {A} e (op : prog ChannelMeta RvmError A) :
  ai_channels s !! e = None → with_channel e op m = (Err PartitionNotFound, m).
Proof using Hr.
  intros He. unfold with_channel. rewrite ipc_find_scan by apply (ir_inv _ _ _ _ Hr).
  destruct (position (has_edge e) (ip_queues m)) as [i|] eqn:E; [|done]. exfalso.
  apply position_lookup in E as (slot & Hi & (ch & -> & <-)%has_edge_true).
  apply (ir_slot _ _ _ _ Hr) in Hi as [a Ha]. congruence.
Qed.

Lemma with_channel_some {A} e (op : prog ChannelMeta RvmError A) a :
  ai_channels s !! e = Some a →
  ∃ i ch, ip_queues m !! i = Some (Some ch) ∧ ch_edge_id ch = e ∧ chan_repr qsize ch a ∧
    with_channel e op m = ((op ch).1, set_channel i (op ch).2 m).
Proof using Hr.
  intros (i & ch & Hi & <- & Hch)%(ir_some _ _ _ _ Hr). exists i, ch. split_and!; [done..|].
  unfold with_channel. rewrite ipc_find_scan by apply (ir_inv _ _ _ _ Hr).
  rewrite (position_edge m i ch (ir_inv _ _ _ _ Hr) Hi). cbn [ok_or]. rewrite Hi. cbn.
  by destruct (op ch).
Qed.

(** Writing a channel back. *)
Lemma set_channel_repr i ch ch' a' :
  ip_queues m !! i = Some (Some ch) → ch_edge_id ch' = ch_edge_id ch → chan_repr qsize ch' a' →
  ipc_repr cap qsize (set_channel i ch' m)
    (mkAbsIpc (<[ch_edge_id ch := a']> (ai_channels s)) (ai_next s)).
Proof using Hr.
  intros Hi He Ha'. pose proof (ir_inv _ _ _ _ Hr) as Hm.
  assert (∀ j b, <[i := Some ch']> (ip_queues m) !! j = Some (Some b) →
    ∃ b0, ip_queues m !! j = Some (Some b0) ∧ ch_edge_id b = ch_edge_id b0) as Hold.
  { intros j b [(-> & [= <-] & _)|(Hne & Hj)]%list_lookup_insert_Some; eauto. }
  split; cbn [ai_channels ai_next set_channel ip_queues ip_next_edge_id ip_edge_count].
  - split; cbn; rewrite ?length_insert.
    + apply (ii_index_len m Hm).
    + pose proof (count_by_insert is_some _ i _ (Some ch') Hi) as Hc. cbn in Hc.
      rewrite (ii_count m Hm). lia.
    + apply (ii_index m Hm).
    + intros j k a b (a0 & Ha0 & Ea)%Hold (b0 & Hb0 & Eb)%Hold E.
      apply (ii_unique m Hm j k a0 b0); congruence.
    + intros j b (b0 & Hb0 & Eb)%Hold. rewrite Eb. by eapply ii_fresh.
  - rewrite length_insert. apply (ir_cap _ _ _ _ Hr).
  - apply (ir_next _ _ _ _ Hr).
  - rewrite (ir_size _ _ _ _ Hr), map_size_insert.
    destruct (ir_slot _ _ _ _ Hr i ch Hi) as [a ->]. done.
  - intros e a [(<- & <-)|(Hne & He')]%lookup_insert_Some.
    + exists i, ch'. split_and!; [|done..]. apply list_lookup_insert_eq. by eapply lookup_lt_Some.
    + apply (ir_some _ _ _ _ Hr) in He' as (j & b & Hj & <- & Hb). exists j, b.
      split_and!; [|done..]. rewrite list_lookup_insert_ne; [done|]. intros <-. congruence.
  - intros j b (b0 & Hb0 & ->)%Hold. destruct (decide (ch_edge_id ch = ch_edge_id b0)) as [->|Hne].
    + by rewrite lookup_insert_eq.
    + rewrite lookup_insert_ne by done. by eapply ir_slot.
Qed.

Lemma channel_send_repr ch a msg :
  chan_repr qsize ch a →
  match abs_push qsize msg a with
  | Ok a' => (channel_send msg ch).1 = Ok tt ∧ chan_repr qsize (channel_send msg ch).2 a' ∧
             ch_edge_id (channel_send msg ch).2 = ch_edge_id ch
  | Err e => channel_send msg ch = (Err e, ch)
  end.
Proof.
  intros [Es Ed Ew Hq Hc]. destruct (queue_send_repr (ch_queue ch) (ac_msgs a) msg Hq) as [Hs Hok].
  unfold abs_push, channel_send, pbind, pzoom. rewrite Hc in Hs, Hok.
  destruct (qsize <=? length (ac_msgs a))%nat eqn:E; split_bool.
  - rewrite Hs. by destruct ch.
  - rewrite Hs. specialize (Hok ltac:(lia)). cbn [fst snd pmodify]. split_and!; [done| |done].
    split; cbn; try done; [by rewrite Ew|].
    unfold queue_send in *. destruct (_ <=? _)%nat; cbn [snd]; [done|].
    unfold queue_capacity in *. cbn. by rewrite length_insert.
Qed.
End repr.

(* ------------------------------------------------------------------ *)
(** ** Simulation *)

Section simulation.
Context (cap k : nat).
Local Notation qsize := (2 ^ k)%nat.
Context (m : IpcManager) (s : AbsIpc) (Hr : ipc_repr cap qsize m s).

(** One call answers as the specification and keeps the representation. *)
Definition simulates (op : ipc_op) : Prop :=
  (run_ipc qsize op m).1 = (run_abs cap qsize op s).1 ∧
  ipc_repr cap qsize (run_ipc qsize op m).2 (run_abs cap qsize op s).2.

Lemma push_simulates e msg (guard : AbsChannel → option RvmError)
    (op : prog ChannelMeta RvmError unit) :
  (∀ ch a, chan_repr qsize ch a →
    op ch = match guard a with Some err => (Err err, ch) | None => channel_send msg ch end) →
  let r := with_channel e op m in
  let r' := abs_update e (λ a, match guard a with Some err => Err err | None => abs_push qsize msg a end) s in
  r.1 = r'.1 ∧ ipc_repr cap qsize r.2 r'.2.
Proof using Hr.
  intros Hop. cbv zeta. unfold abs_update. destruct (ai_channels s !! e) as [a|] eqn:He.
  - destruct (with_channel_some cap qsize m s Hr e op a He) as (i & ch & Hi & <- & Hch & ->).
    rewrite (Hop ch a Hch). cbn [fst snd]. destruct (guard a) as [err|].
    + cbn. by rewrite (set_channel_same m i ch Hi).
    + pose proof (channel_send_repr qsize ch a msg Hch) as H.
      destruct (abs_push qsize msg a) as [a'|err].
      * destruct H as (H1 & H2 & H3). split; [done|]. by apply set_channel_repr.
      * rewrite H. cbn. by rewrite (set_channel_same m i ch Hi).
  - rewrite (with_channel_none cap qsize m s Hr e op He). done.
Qed.

Lemma send_simulates e msg caller : simulates (IoSend e msg caller).
Proof using Hr.
  unfold simulates. cbn [run_ipc run_abs]. unfold ipc_send.
  destruct (negb (im_sender msg =? caller)); [done|].
  pose proof (push_simulates e msg
    (λ a, if negb (ac_source a =? caller) then Some InsufficientCapability else None)
    (let? source := pgets ch_source in
     if negb (source =? caller) then pfail InsufficientCapability else channel_send msg)) as H.
  destruct H as [H1 H2].
  { intros ch a Hch. unfold pbind, pgets. rewrite (cr_source _ _ _ Hch).
    by destruct (negb (ac_source a =? caller)). }
  assert (∀ a, match (if negb (ac_source a =? caller) then Some InsufficientCapability else None) with
    | Some err => Err err | None => abs_push qsize msg a end =
    (if negb (ac_source a =? caller) then Err InsufficientCapability else abs_push qsize msg a)) as E
    by (intros a; by destruct (negb (ac_source a =? caller))).
  assert (abs_update e (λ a, match (if negb (ac_source a =? caller) then Some InsufficientCapability else None) with
    | Some err => Err err | None => abs_push qsize msg a end) s =
    abs_update e (λ a, if negb (ac_source a =? caller) then Err InsufficientCapability
      else abs_push qsize msg a) s) as E2.
  { unfold abs_update. destruct (ai_channels s !! e); [|done]. by rewrite E. }
  rewrite E2 in H1, H2.
  destruct (with_channel e _ m) as [r m'], (abs_update e _ s) as [r' s'].
  cbn in H1, H2 |- *. by rewrite H1.
Qed.

Lemma send_unchecked_simulates e msg : simulates (IoSendUnchecked e msg).
Proof using Hr.
  unfold simulates. cbn [run_ipc run_abs]. unfold ipc_send_unchecked.
  destruct (push_simulates e msg (λ _, None) (channel_send msg)) as [H1 H2]; [done|].
  destruct (with_channel e _ m) as [r m'].
  change (λ a, abs_push qsize msg a) with (abs_push qsize msg) in H1, H2.
  destruct (abs_update e (abs_push qsize msg) s) as [r' s']. cbn in H1, H2 |- *. by rewrite H1.
Qed.

Lemma receive_simulates e : simulates (IoReceive e).
Proof using Hr.
  unfold simulates. cbn [run_ipc run_abs]. unfold ipc_receive.
  destruct (ai_channels s !! e) as [a|] eqn:He.
  - destruct (with_channel_some cap qsize m s Hr e (λ ch,
      match queue_receive (ch_queue ch) with (msg, q) => (Ok msg, set_ch_queue q ch) end) a He)
      as (i & ch & Hi & <- & Hch & ->).
    destruct (queue_receive_repr (ch_queue ch) (ac_msgs a) (cr_queue _ _ _ Hch)) as (H1 & H2 & H3).
    destruct (queue_receive (ch_queue ch)) as [msg q]. cbn in H1, H2, H3 |- *. subst msg.
    split; [done|]. eapply set_channel_repr; [done..|]. destruct Hch.
    split; cbn; try done. congruence.
  - by rewrite (with_channel_none cap qsize m s Hr e _ He).
Qed.

Lemma weight_simulates e : simulates (IoWeight e).
Proof using Hr.
  unfold simulates. cbn [run_ipc run_abs]. unfold comm_weight.
  destruct (ai_channels s !! e) as [a|] eqn:He.
  - destruct (with_channel_some cap qsize m s Hr e (pgets ch_weight) a He)
      as (i & ch & Hi & <- & Hch & ->). cbn. rewrite (cr_weight _ _ _ Hch).
    by rewrite (set_channel_same m i ch Hi).
  - by rewrite (with_channel_none cap qsize m s Hr e _ He).
Qed.

Lemma create_simulates from to : 1 ≤ ip_next_edge_id m < u64_max → simulates (IoCreate from to).
Proof using Hr.
  intros Hnext. pose proof (ir_inv _ _ _ _ Hr) as Hm. unfold simulates. cbn [run_ipc run_abs].
  unfold create_channel, ipc_max_edges. rewrite (ir_cap _ _ _ _ Hr), (ir_size _ _ _ _ Hr).
  destruct (cap <=? size (ai_channels s))%nat eqn:E; split_bool; [done|].
  destruct (position_none_below_capacity (ip_queues m)) as [i Hpos].
  { rewrite <-(ii_count m Hm), (ir_cap _ _ _ _ Hr), (ir_size _ _ _ _ Hr). lia. }
  rewrite Hpos. apply position_lookup in Hpos as (slot & Hi & Hnone).
  destruct slot as [ch|]; [done|]. rewrite <-(ir_next _ _ _ _ Hr). split; [done|].
  assert (wrap64 (ip_next_edge_id m + 1) = ip_next_edge_id m + 1) as Hw
    by (apply wrap64_id; unfold is_u64; lia).
  assert (ai_channels s !! ip_next_edge_id m = None) as Hfresh.
  { destruct (ai_channels s !! ip_next_edge_id m) as [a|] eqn:Ha; [|done].
    apply (ir_some _ _ _ _ Hr) in Ha as (j & b & Hj & Hb & _).
    pose proof (ii_fresh m Hm j b Hj). lia. }
  pose proof (lookup_lt_Some _ _ _ Hi) as Hlt.
  cbn [fst snd]. rewrite Hw. split; cbn.
  - split; cbn; rewrite ?length_insert.
    + apply (ii_index_len m Hm).
    + match goal with |- context [<[i:=?x]>] => pose proof (count_by_insert is_some _ i _ x Hi) as Hc end.
      cbn in Hc. rewrite <-(ii_count m Hm) in Hc. rewrite (ir_size _ _ _ _ Hr) in Hc. lia.
    + intros h j [(_ & [= <-] & _)|(? & Hj)]%list_lookup_insert_Some; [done|]. by eapply ii_index.
    + intros j j' a b [(-> & [= <-] & _)|(Hne & Hj)]%list_lookup_insert_Some
        [(-> & [= <-] & _)|(Hne' & Hj')]%list_lookup_insert_Some Eab; cbn in Eab; try done.
      * pose proof (ii_fresh m Hm _ _ Hj'). lia.
      * pose proof (ii_fresh m Hm _ _ Hj). lia.
      * by eapply (ii_unique m Hm).
    + intros j a [(-> & [= <-] & _)|(Hne & Hj)]%list_lookup_insert_Some; cbn; [lia|].
      pose proof (ii_fresh m Hm _ _ Hj). lia.
  - rewrite length_insert. apply (ir_cap _ _ _ _ Hr).
  - done.
  - rewrite map_size_insert_None by done. lia.
  - intros e a [(<- & <-)|(Hne & He)]%lookup_insert_Some.
    + eexists i, _. split_and!; [by apply list_lookup_insert_eq|done|].
      split; try done; [apply queue_new_repr|]. apply length_replicate.
    + apply (ir_some _ _ _ _ Hr) in He as (j & b & Hj & <- & Hb). exists j, b.
      split_and!; [|done..]. rewrite list_lookup_insert_ne; [done|]. intros <-. congruence.
  - intros j b [(-> & [= <-] & _)|(Hne & Hj)]%list_lookup_insert_Some; cbn.
    + by rewrite lookup_insert_eq.
    + pose proof (ii_fresh m Hm _ _ Hj). rewrite lookup_insert_ne by lia. by eapply ir_slot.
Qed.

Lemma destroy_simulates e : simulates (IoDestroy e).
Proof using Hr.
  pose proof (ir_inv _ _ _ _ Hr) as Hm. unfold simulates. cbn [run_ipc run_abs]. unfold destroy_channel.
  destruct (ai_channels s !! e) as [a|] eqn:He.
  2: { destruct (position (has_edge e) (ip_queues m)) as [i|] eqn:Hpos; [|done]. exfalso.
       apply position_lookup in Hpos as (slot & Hi & (ch & -> & <-)%has_edge_true).
       apply (ir_slot _ _ _ _ Hr) in Hi as [a Ha]. congruence. }
  pose proof He as (i & ch & Hi & Hce & Hch)%(ir_some _ _ _ _ Hr). subst e.
  rewrite (position_edge m i ch Hm Hi). split; [done|].
  pose proof (lookup_lt_Some _ _ _ Hi) as Hlt.
  assert (∀ j b, <[i := None]> (ip_queues m) !! j = Some (Some b) →
    j ≠ i ∧ ip_queues m !! j = Some (Some b)) as Hold.
  { intros j b [(-> & ? & _)|(Hne & Hj)]%list_lookup_insert_Some; [done|]. split; [|done]. done. }
  cbn [fst snd]. split; cbn.
  - split; cbn; rewrite ?length_insert.
    + case_bool_decide; rewrite ?length_insert; apply (ii_index_len m Hm).
    + pose proof (count_by_insert is_some _ i _ None Hi) as Hc. cbn in Hc.
      rewrite <-(ii_count m Hm) in Hc. rewrite (ir_size _ _ _ _ Hr) in *. lia.
    + intros h j Hj. case_bool_decide; [|by eapply ii_index].
      apply list_lookup_insert_Some in Hj as [(_ & ? & _)|(_ & Hj)]; [done|]. by eapply ii_index.
    + intros j j' x y [_ Hx]%Hold [_ Hy]%Hold. by apply (ii_unique m Hm).
    + intros j x [_ Hx]%Hold. by eapply ii_fresh.
  - rewrite length_insert. apply (ir_cap _ _ _ _ Hr).
  - apply (ir_next _ _ _ _ Hr).
  - rewrite map_size_delete, He, (ir_size _ _ _ _ Hr). cbn. lia.
  - intros e b [Hne Hb]%lookup_delete_Some.
    apply (ir_some _ _ _ _ Hr) in Hb as (j & x & Hj & <- & Hx). exists j, x.
    split_and!; [|done..]. rewrite list_lookup_insert_ne; [done|]. intros <-. congruence.
  - intros j x [Hne Hx]%Hold. destruct (ir_slot _ _ _ _ Hr j x Hx) as [b Hb].
    rewrite lookup_delete_ne; [by eexists|]. intros E. apply Hne. by eapply (ii_unique m Hm).
Qed.
End simulation.

Lemma ipc_op_simulates cap k op m s :
  ipc_repr cap (2 ^ k) m s → 1 ≤ ip_next_edge_id m < u64_max →
  (run_ipc (2 ^ k) op m).1 = (run_abs cap (2 ^ k) op s).1 ∧
  ipc_repr cap (2 ^ k) (run_ipc (2 ^ k) op m).2 (run_abs cap (2 ^ k) op s).2.
Proof.
  intros Hr Hn. destruct op; [by apply create_simulates|by apply send_simulates
    |by apply send_unchecked_simulates|by apply receive_simulates|by apply destroy_simulates
    |by apply weight_simulates].
Qed.

Lemma ipc_new_repr cap qsize : ipc_repr cap qsize (ipc_new cap) (mkAbsIpc ∅ 1).
Proof.
  split; cbn; try done.
  - split; cbn.
    + by rewrite !length_replicate.
    + by rewrite count_by_replicate.
    + intros h i [? _]%lookup_replicate. done.
    + intros i j a b [? _]%lookup_replicate. done.
    + intros i a [? _]%lookup_replicate. done.
  - apply length_replicate.
  - intros i ch [? _]%lookup_replicate. done.
Qed.

(** The answers to a list of calls. *)
Fixpoint ipc_trace (qsize : nat) (ops : list ipc_op) (m : IpcManager) : list ipc_response :=
  match ops with
  | [] => []
  | op :: ops => (run_ipc qsize op m).1 :: ipc_trace qsize ops (run_ipc qsize op m).2
  end.
Fixpoint abs_trace (cap qsize : nat) (ops : list ipc_op) (s : AbsIpc) : list ipc_response :=
  match ops with
  | [] => []
  | op :: ops => (run_abs cap qsize op s).1 :: abs_trace cap qsize ops (run_abs cap qsize op s).2
  end.

Lemma run_abs_next cap qsize op s : ai_next s ≤ ai_next (run_abs cap qsize op s).2 ≤ ai_next s + 1.
Proof.
  destruct op; cbn; unfold abs_update; repeat case_match; simplify_eq/=; lia.
Qed.

Lemma ipc_trace_simulates cap k ops m s :
  ipc_repr cap (2 ^ k) m s → 1 ≤ ai_next s → ai_next s + Z.of_nat (length ops) ≤ u64_max →
  ipc_trace (2 ^ k) ops m = abs_trace cap (2 ^ k) ops s.
Proof.
  revert m s. induction ops as [|op ops IH]; intros m s Hr H1 Hn; [done|]. cbn [length] in Hn.
  destruct (ipc_op_simulates cap k op m s Hr) as [E Hr'].
  { rewrite (ir_next _ _ _ _ Hr). lia. }
  pose proof (run_abs_next cap (2 ^ k) op s). cbn [ipc_trace abs_trace].
  rewrite E. f_equal. apply IH; [done|lia|lia].
Qed.

(** C28: The IPC manager refines a finite map from edge ids to unbounded-list
    channels.  From a fresh manager, every history of creations, checked and
    unchecked sends, receives, destructions and weight queries (fewer than
    2^64 calls) gets exactly the answers of the map: ids are never reused,
    only the source endpoint can send under its own name, messages arrive
    once and in order, full queues and missing edges are refused, weights
    count the accepted sends.  (With no edges at all the model answers like the
    map of no channels, where the code would take a remainder by zero.) *)
Theorem ipc_manager_refines_map max_edges k ops :
  Z.of_nat (length ops) < u64_max →
  ipc_trace (2 ^ k) ops (ipc_new max_edges) = abs_trace max_edges (2 ^ k) ops (mkAbsIpc ∅ 1).
Proof.
  intros Hn. apply ipc_trace_simulates; [apply ipc_new_repr|done|]. cbn. lia.
Qed.

Lemma ipc_manager_refines_map_witness :
  let ops := [IoCreate 1 2; IoSend 1 (sample_msg 1) 1; IoSend 1 (sample_msg 2) 9; IoReceive 1;
              IoWeight 1; IoDestroy 1; IoReceive 1] in
  Z.of_nat (length ops) < u64_max ∧
  ipc_trace (2 ^ 1) ops (ipc_new 4) =
    [IrNumber (Ok 1); IrUnit (Ok tt); IrUnit (Err InsufficientCapability);
     IrMsg (Ok (Some (sample_msg 1))); IrNumber (Ok 1); IrUnit (Ok tt);
     IrMsg (Err PartitionNotFound)].
Proof.
  intros ops. split; [done|]. rewrite (ipc_manager_refines_map 4 1 ops ltac:(done)). by vm_compute.
Defined.

Lemma ipc_ops_inv cap k ops m s :
  ipc_repr cap (2 ^ k) m s → 1 ≤ ai_next s → ai_next s + Z.of_nat (length ops) ≤ u64_max →
  ipc_inv (foldl (λ m op, (run_ipc (2 ^ k) op m).2) m ops).
Proof.
  revert m s. induction ops as [|op ops IH]; intros m s Hr H1 Hn; [apply (ir_inv _ _ _ _ Hr)|].
  cbn [length] in Hn. destruct (ipc_op_simulates cap k op m s Hr) as [_ Hr'].
  { rewrite (ir_next _ _ _ _ Hr). lia. }
  pose proof (run_abs_next cap (2 ^ k) op s). eapply IH; [exact Hr'|lia|lia].
Qed.

(** The O(1) index never changes an answer: after any history the lookup
    through the hash index, colliding or stale, finds what the linear scan
    finds. *)
Theorem ipc_find_refines_scan max_edges k ops e :
  Z.of_nat (length ops) < u64_max →
  let m := foldl (λ m op, (run_ipc (2 ^ k) op m).2) (ipc_new max_edges) ops in
  ipc_find m e = ok_or (position (has_edge e) (ip_queues m)) PartitionNotFound.
Proof.
  intros Hn m. apply ipc_find_scan. unfold m.
  apply (ipc_ops_inv max_edges k ops _ (mkAbsIpc ∅ 1)); [apply ipc_new_repr|done|]. cbn. lia.
Qed.

Lemma ipc_find_refines_scan_witness :
  Z.of_nat (length [IoCreate 1 2]) < u64_max ∧
  ipc_find (run_ipc (2 ^ 1) (IoCreate 1 2) (ipc_new 2)).2 1 = Ok O.
Proof.
  split; [done|].
  pose proof (ipc_find_refines_scan 2 1 [IoCreate 1 2] 1 ltac:(done)) as H. exact H.
Defined.
