(* ===== verification/Device.v ===== *)
(** Device leases, [crates/rvm-partition/src/device.rs].

    A registered device is either available or leased to one partition until
    an epoch.  The central invariant says that the [available] flags and the
    lease table tell the same story. *)

From stdpp Require Import base numbers list option sets gmap.
From Stdlib Require Import ZArith Lia.
From S2P Require Import Prelude.
From S2P Require Import Types.

(* ------------------------------------------------------------------ *)
(** ** Devices and leases *)

(** [DeviceClass] of [rvm-types], carried but never examined. *)
Notation DeviceClass := Z (only parsing).

Record DeviceInfo : Set := mkDeviceInfo {
  dv_id : Z;
  dv_class : DeviceClass;
  dv_mmio_base : Z;
  dv_mmio_size : Z;
  dv_irq : option Z;
  dv_available : bool;
}.

Record ActiveLease : Set := mkActiveLease {
  le_lease_id : Z;
  le_device_id : Z;
  le_partition_id : PartitionId;
  le_granted_epoch : Z;
  le_expiry_epoch : Z;
  le_capability_hash : Z;
}.

Record DeviceLeaseManager : Set := mkDeviceLeaseManager {
  dm_devices : list (option DeviceInfo);
  dm_leases : list (option ActiveLease);
  dm_device_count : nat;
  dm_lease_count : nat;
  dm_next_lease_id : Z;
}.

Definition device_manager_new (max_devices max_leases : nat) : DeviceLeaseManager :=
  mkDeviceLeaseManager (replicate max_devices None) (replicate max_leases None) 0 0 1.

Definition has_device (device_id : Z) (slot : option DeviceInfo) : bool :=
  is_some_and (λ d, dv_id d =? device_id) slot.
Definition has_lease (lease_id : Z) (slot : option ActiveLease) : bool :=
  is_some_and (λ l, le_lease_id l =? lease_id) slot.

Definition find_device_index (device_id : Z) (m : DeviceLeaseManager) : option nat :=
  position (has_device device_id) (dm_devices m).
Definition find_device (device_id : Z) (m : DeviceLeaseManager) : option DeviceInfo :=
  default None (find_by (has_device device_id) (dm_devices m)).

Definition set_available (b : bool) (d : DeviceInfo) : DeviceInfo :=
  mkDeviceInfo (dv_id d) (dv_class d) (dv_mmio_base d) (dv_mmio_size d) (dv_irq d) b.
Definition set_dv_id (id : Z) (d : DeviceInfo) : DeviceInfo :=
  mkDeviceInfo id (dv_class d) (dv_mmio_base d) (dv_mmio_size d) (dv_irq d) (dv_available d).

(** [if let Some(dev) = self.devices[idx].as_mut() { dev.available = b }]. *)
Definition mark_device (idx : nat) (b : bool) (devices : list (option DeviceInfo))
    : list (option DeviceInfo) :=
  match devices !! idx with
  | Some (Some d) => <[idx := Some (set_available b d)]> devices
  | _ => devices
  end.

Definition register_device (info : DeviceInfo) : prog DeviceLeaseManager RvmError Z := λ m,
  if (length (dm_devices m) <=? dm_device_count m)%nat then (Err ResourceLimitExceeded, m)
  else
    match position is_none (dm_devices m) with
    | None => (Err InternalError, m)
    | Some i =>
        let id := wrap32 (Z.of_nat (dm_device_count m)) in
        let info := set_available true (set_dv_id id info) in
        (Ok id, mkDeviceLeaseManager (<[i := Some info]> (dm_devices m)) (dm_leases m)
                  (dm_device_count m + 1) (dm_lease_count m) (dm_next_lease_id m))
    end.

Definition grant_lease (device_id : Z) (partition : PartitionId)
    (duration_epochs current_epoch cap_hash : Z) : prog DeviceLeaseManager RvmError Z := λ m,
  match find_device_index device_id m with
  | None => (Err DeviceLeaseNotFound, m)
  | Some dev_idx =>
      match default None (dm_devices m !! dev_idx) with
      | None => (Err InternalError, m)
      | Some device =>
          if negb (dv_available device) then (Err DeviceLeaseConflict, m)
          else if (length (dm_leases m) <=? dm_lease_count m)%nat then (Err ResourceLimitExceeded, m)
          else
            let lease_id := dm_next_lease_id m in
            let next := wrap64 (dm_next_lease_id m + 1) in
            let lease := mkActiveLease lease_id device_id partition current_epoch
                           (sat_add u64_max current_epoch duration_epochs) cap_hash in
            let devices := mark_device dev_idx false (dm_devices m) in
            match position is_none (dm_leases m) with
            | None => (Err InternalError, mkDeviceLeaseManager devices (dm_leases m)
                         (dm_device_count m) (dm_lease_count m) next)
            | Some i => (Ok lease_id,
                mkDeviceLeaseManager devices (<[i := Some lease]> (dm_leases m))
                  (dm_device_count m) (dm_lease_count m + 1) next)
            end
      end
  end.

(** Release a device by id, when it is registered. *)
Definition release_device (device_id : Z) (devices : list (option DeviceInfo))
    : list (option DeviceInfo) :=
  match position (has_device device_id) devices with
  | Some idx => mark_device idx true devices
  | None => devices
  end.

Definition revoke_lease (lease_id : Z) : prog DeviceLeaseManager RvmError unit := λ m,
  match position (has_lease lease_id) (dm_leases m) with
  | None => (Err DeviceLeaseNotFound, m)
  | Some i =>
      match default None (dm_leases m !! i) with
      | None => (Err DeviceLeaseNotFound, m)
      | Some lease =>
          (Ok tt, mkDeviceLeaseManager (release_device (le_device_id lease) (dm_devices m))
                    (<[i := None]> (dm_leases m)) (dm_device_count m) (dm_lease_count m - 1)
                    (dm_next_lease_id m))
      end
  end.

Definition check_lease (lease_id current_epoch : Z) (m : DeviceLeaseManager) : RvmResult ActiveLease :=
  match default None (find_by (has_lease lease_id) (dm_leases m)) with
  | None => Err DeviceLeaseNotFound
  | Some lease =>
      if le_expiry_epoch lease <=? current_epoch then Err DeviceLeaseExpired else Ok lease
  end.

Definition lease_expired (current_epoch : Z) (slot : option ActiveLease) : bool :=
  is_some_and (λ l, le_expiry_epoch l <=? current_epoch) slot.

(** The first loop of [expire_leases]: clear the expired slots, collecting
    their device ids, the new lease count and the number expired. *)
Fixpoint expire_loop (current_epoch : Z) (leases : list (option ActiveLease)) (lease_count : nat)
    (expired : Z) (ids : list Z) : list (option ActiveLease) * nat * Z * list Z :=
  match leases with
  | [] => ([], lease_count, expired, ids)
  | slot :: leases =>
      match slot with
      | Some l =>
          if le_expiry_epoch l <=? current_epoch then
            let '(leases, c, e, ids) := expire_loop current_epoch leases (lease_count - 1)
              (wrap32 (expired + 1)) (ids ++ [le_device_id l]) in
            (None :: leases, c, e, ids)
          else
            let '(leases, c, e, ids) := expire_loop current_epoch leases lease_count expired ids in
            (slot :: leases, c, e, ids)
      | None =>
          let '(leases, c, e, ids) := expire_loop current_epoch leases lease_count expired ids in
          (slot :: leases, c, e, ids)
      end
  end.

Definition expire_leases (current_epoch : Z) (m : DeviceLeaseManager) : Z * DeviceLeaseManager :=
  let '(leases, count, expired, ids) :=
    expire_loop current_epoch (dm_leases m) (dm_lease_count m) 0 [] in
  let devices := foldl (λ devices id, release_device id devices) (dm_devices m) ids in
  (expired, mkDeviceLeaseManager devices leases (dm_device_count m) count (dm_next_lease_id m)).

Definition get_lease_holder (device_id : Z) (m : DeviceLeaseManager) : option PartitionId :=
  le_partition_id <$>
    default None (find_by (is_some_and (λ l, le_device_id l =? device_id)) (dm_leases m)).

Definition is_device_available (device_id : Z) (m : DeviceLeaseManager) : bool :=
  is_some_and dv_available (find_device device_id m).

(* ------------------------------------------------------------------ *)
(** ** The invariant *)

Definition leased_in (leases : list (option ActiveLease)) (device_id : Z) : Prop :=
  ∃ j l, leases !! j = Some (Some l) ∧ le_device_id l = device_id.

(** Devices are never removed, so device [i] sits in slot [i]. *)
Record devices_wf (devices : list (option DeviceInfo)) (count : nat) : Prop := {
  dw_bound : Z.of_nat (length devices) ≤ u32_max;
  dw_some i d : devices !! i = Some (Some d) → (i < count)%nat ∧ dv_id d = Z.of_nat i;
  dw_none i : devices !! i = Some None → (count ≤ i)%nat;
  dw_count : (count ≤ length devices)%nat;
}.

Record device_inv (m : DeviceLeaseManager) : Prop := {
  vi_devices : devices_wf (dm_devices m) (dm_device_count m);
  vi_lease_count : dm_lease_count m = count_by is_some (dm_leases m);
  vi_fresh j l : dm_leases m !! j = Some (Some l) → le_lease_id l < dm_next_lease_id m;
  vi_unique j k l l' : dm_leases m !! j = Some (Some l) → dm_leases m !! k = Some (Some l') →
    le_lease_id l = le_lease_id l' → j = k;
  vi_exclusive j k l l' : dm_leases m !! j = Some (Some l) → dm_leases m !! k = Some (Some l') →
    le_device_id l = le_device_id l' → j = k;
  vi_leased j l : dm_leases m !! j = Some (Some l) →
    ∃ i d, dm_devices m !! i = Some (Some d) ∧ le_device_id l = Z.of_nat i;
  vi_flag i d : dm_devices m !! i = Some (Some d) →
    dv_available d = false ↔ leased_in (dm_leases m) (Z.of_nat i);
}.

Lemma device_manager_new_inv nd nl :
  Z.of_nat nd ≤ u32_max → device_inv (device_manager_new nd nl).
Proof.
  intros Hn. split; cbn.
  - split; rewrite ?length_replicate; try done; [|lia..].
    intros i d [? _]%lookup_replicate. done.
  - by rewrite count_by_replicate.
  - intros j l [? _]%lookup_replicate. done.
  - intros j k l l' [? _]%lookup_replicate. done.
  - intros j k l l' [? _]%lookup_replicate. done.
  - intros j l [? _]%lookup_replicate. done.
  - intros i d [? _]%lookup_replicate. done.
Qed.

Lemma has_device_true id slot : has_device id slot = true ↔ ∃ d, slot = Some d ∧ dv_id d = id.
Proof.
  destruct slot as [d|]; cbn; [rewrite Z.eqb_eq|]; split.
  - intros. by exists d.
  - by intros (? & [= <-] & ?).
  - done.
  - by intros (? & ? & _).
Qed.

Lemma has_lease_true id slot : has_lease id slot = true ↔ ∃ l, slot = Some l ∧ le_lease_id l = id.
Proof.
  destruct slot as [d|]; cbn; [rewrite Z.eqb_eq|]; split.
  - intros. by exists d.
  - by intros (? & [= <-] & ?).
  - done.
  - by intros (? & ? & _).
Qed.

(** Looking a device up by id is looking its slot up. *)
Lemma find_device_slot devices count i d :
  devices_wf devices count → devices !! i = Some (Some d) →
  position (has_device (Z.of_nat i)) devices = Some i.
Proof.
  intros Hw Hi. eapply position_unique; [done| |].
  - apply has_device_true. exists d. split; [done|]. by apply (dw_some _ _ Hw).
  - intros j y Hj (d' & -> & E)%has_device_true.
    destruct (dw_some _ _ Hw j d' Hj) as [_ E']. lia.
Qed.

Lemma find_device_Some devices count id i :
  devices_wf devices count → position (has_device id) devices = Some i →
  ∃ d, devices !! i = Some (Some d) ∧ id = Z.of_nat i.
Proof.
  intros Hw (slot & Hi & (d & -> & <-)%has_device_true)%position_lookup.
  exists d. split; [done|]. by apply (dw_some _ _ Hw).
Qed.

(** Flipping one availability flag. *)
Lemma set_available_wf devices count i d b :
  devices_wf devices count → devices !! i = Some (Some d) →
  devices_wf (<[i := Some (set_available b d)]> devices) count.
Proof.
  intros Hw Hi. destruct (dw_some _ _ Hw i d Hi) as [Hlt Hid]. destruct Hw.
  split; rewrite ?length_insert; try done.
  - intros j d' [(<- & [= <-] & _)|(? & ?)]%list_lookup_insert_Some; [done|by apply dw_some0].
  - intros j [(_ & ? & _)|(? & ?)]%list_lookup_insert_Some; [done|by apply dw_none0].
Qed.

Lemma release_device_slot devices count i d :
  devices_wf devices count → devices !! i = Some (Some d) →
  release_device (Z.of_nat i) devices = <[i := Some (set_available true d)]> devices.
Proof.
  intros Hw Hi. unfold release_device, mark_device.
  by rewrite (find_device_slot devices count i d), Hi.
Qed.

Lemma device_available_slot m i d :
  device_inv m → dm_devices m !! i = Some (Some d) →
  is_device_available (Z.of_nat i) m = dv_available d.
Proof.
  intros Hm Hi. unfold is_device_available, find_device.
  by rewrite find_by_position, (find_device_slot _ _ i d (vi_devices m Hm) Hi); cbn; rewrite Hi.
Qed.

(* ------------------------------------------------------------------ *)
(** ** Registration *)

Lemma register_device_inv info m : device_inv m → device_inv (register_device info m).2.
Proof.
  intros Hm. unfold register_device. destruct (_ <=? _)%nat eqn:E; [done|]. split_bool.
  destruct (position is_none (dm_devices m)) as [i|] eqn:Hp; [|done].
  apply position_Some in Hp as [(slot & Hi & Hn) Hmin]. destruct slot; [done|].
  pose proof (vi_devices m Hm) as Hw.
  assert (i = dm_device_count m) as ->.
  { pose proof (dw_none _ _ Hw i Hi). destruct (decide (dm_device_count m < i)%nat) as [Hlt|]; [|lia].
    destruct (lookup_lt_is_Some_2 (dm_devices m) (dm_device_count m)) as [s Hs]; [lia|].
    pose proof (Hmin _ s Hlt Hs) as Hs2. destruct s as [d|]; [|done].
    apply (dw_some _ _ Hw) in Hs. lia. }
  set (n := dm_device_count m) in *. pose proof (dw_bound _ _ Hw).
  assert (wrap32 (Z.of_nat n) = Z.of_nat n) as Hid by (apply wrap32_id; unfold is_u32; lia).
  rewrite Hid. cbn [snd]. destruct Hm. split; cbn; try done.
  - split; rewrite ?length_insert; [done| | |lia].
    + intros j d [(<- & [= <-] & _)|(? & Hj)]%list_lookup_insert_Some; [cbn; split; lia|].
      apply (dw_some _ _ Hw) in Hj. split; [lia|tauto].
    + intros j [(_ & ? & _)|(Hne & Hj)]%list_lookup_insert_Some; [done|].
      apply (dw_none _ _ Hw) in Hj. fold n in Hj. lia.
  - intros j l Hj. destruct (vi_leased0 j l Hj) as (k & d & Hk & E'). exists k, d.
    split; [|done]. rewrite list_lookup_insert_ne; [done|]. intros <-. congruence.
  - intros j d [(<- & [= <-] & _)|(? & Hj)]%list_lookup_insert_Some; [|by apply vi_flag0].
    cbn. split; [done|]. intros (k & l & Hk & El).
    destruct (vi_leased0 k l Hk) as (k' & d & Hk' & E'). rewrite El in E'.
    apply Nat2Z.inj in E' as <-. congruence.
Qed.

(* ------------------------------------------------------------------ *)
(** ** Granting *)

Section queries.
Context (m : DeviceLeaseManager) (Hm : device_inv m).

Lemma lease_holder_Some j l :
  dm_leases m !! j = Some (Some l) → get_lease_holder (le_device_id l) m = Some (le_partition_id l).
Proof using Hm.
  intros Hj. unfold get_lease_holder. rewrite find_by_position.
  rewrite (position_unique _ _ j (Some l)); [by cbn; rewrite Hj|done|cbn; by apply Z.eqb_refl|].
  intros k [l'|] Hk E; [|done]. apply Z.eqb_eq in E. by eapply vi_exclusive.
Qed.

Lemma lease_holder_None id : ¬ leased_in (dm_leases m) id → get_lease_holder id m = None.
Proof using.
  intros Hn. unfold get_lease_holder.
  assert (find_by (is_some_and (λ l, le_device_id l =? id)) (dm_leases m) = None) as ->; [|done].
  apply find_by_None. intros j [l|] Hj; [|done]. cbn. apply Z.eqb_neq. intros E. apply Hn. by exists j, l.
Qed.

Lemma check_lease_slot j l now :
  dm_leases m !! j = Some (Some l) →
  check_lease (le_lease_id l) now m =
    (if le_expiry_epoch l <=? now then Err DeviceLeaseExpired else Ok l).
Proof using Hm.
  intros Hj. unfold check_lease. rewrite find_by_position.
  rewrite (position_unique _ _ j (Some l)); [by cbn; rewrite Hj|done|cbn; by apply Z.eqb_refl|].
  intros k y Hk (l' & -> & E)%has_lease_true. by eapply vi_unique.
Qed.
End queries.

(** Granting, unfolded once. *)
Lemma grant_lease_spec m device_id partition duration epoch cap :
  device_inv m →
  match grant_lease device_id partition duration epoch cap m with
  | (Ok lease, m') => ∃ i d j,
      dm_devices m !! i = Some (Some d) ∧ device_id = Z.of_nat i ∧ dv_available d = true ∧
      dm_leases m !! j = Some None ∧ lease = dm_next_lease_id m ∧
      m' = mkDeviceLeaseManager (<[i := Some (set_available false d)]> (dm_devices m))
        (<[j := Some (mkActiveLease lease device_id partition epoch (sat_add u64_max epoch duration) cap)]>
           (dm_leases m))
        (dm_device_count m) (dm_lease_count m + 1) (wrap64 (dm_next_lease_id m + 1))
  | (Err e, m') =>
      m' = m ∧
      ((e = DeviceLeaseNotFound ∧ ∀ i, device_id = Z.of_nat i → (dm_device_count m ≤ i)%nat) ∨
       (e = DeviceLeaseConflict ∧ leased_in (dm_leases m) device_id) ∨
       (e = ResourceLimitExceeded ∧ length (dm_leases m) = dm_lease_count m))
  end.
Proof.
  intros Hm. pose proof (vi_devices m Hm) as Hw. unfold grant_lease, find_device_index.
  destruct (position (has_device device_id) (dm_devices m)) as [i|] eqn:Hp.
  2: { split; [done|]. left. split; [done|]. intros i ->.
       destruct (decide (dm_device_count m ≤ i)%nat) as [|Hlt]; [done|exfalso].
       pose proof (dw_count _ _ Hw).
       destruct (lookup_lt_is_Some_2 (dm_devices m) i) as [[d|] Hi]; [lia| |].
       - pose proof (find_device_slot _ _ i d Hw Hi). congruence.
       - apply (dw_none _ _ Hw) in Hi. lia. }
  destruct (find_device_Some _ _ _ _ Hw Hp) as (d & Hi & ->). rewrite Hi. cbn [default from_option id].
  destruct (dv_available d) eqn:Ha; cbn [negb].
  2: { split; [done|]. right; left. split; [done|]. by apply (vi_flag m Hm i d Hi). }
  pose proof (count_by_le is_some (dm_leases m)) as Hle. rewrite <-(vi_lease_count m Hm) in Hle.
  destruct (length (dm_leases m) <=? dm_lease_count m)%nat eqn:E; split_bool.
  { split; [done|]. right; right. split; [done|]. lia. }
  destruct (position_none_below_capacity (dm_leases m)) as [j Hj].
  { rewrite <-(vi_lease_count m Hm). lia. }
  rewrite Hj. apply position_lookup in Hj as ([l|] & Hj & Hn); [done|].
  exists i, d, j. split_and!; try done. unfold mark_device. by rewrite Hi.
Qed.

(** Leasing a free device. *)
Lemma lease_fill_inv m i d j l :
  device_inv m → dm_devices m !! i = Some (Some d) → dv_available d = true →
  dm_leases m !! j = Some None → le_device_id l = Z.of_nat i → le_lease_id l = dm_next_lease_id m →
  0 ≤ dm_next_lease_id m < u64_max →
  device_inv (mkDeviceLeaseManager (<[i := Some (set_available false d)]> (dm_devices m))
    (<[j := Some l]> (dm_leases m)) (dm_device_count m) (dm_lease_count m + 1)
    (wrap64 (dm_next_lease_id m + 1))).
Proof.
  intros Hm Hi Ha Hj Hdev Hid Hn. pose proof (vi_devices m Hm) as Hw.
  assert (wrap64 (dm_next_lease_id m + 1) = dm_next_lease_id m + 1) as ->
    by (apply wrap64_id; unfold is_u64; lia).
  assert (¬ leased_in (dm_leases m) (Z.of_nat i)) as Hfree.
  { intros Hl. apply (vi_flag m Hm i d Hi) in Hl. congruence. }
  destruct Hm. split; cbn.
  - by apply set_available_wf.
  - pose proof (count_by_insert is_some _ j _ (Some l) Hj) as Hc. cbn in Hc. lia.
  - intros k x [(_ & [= <-] & _)|(? & Hk)]%list_lookup_insert_Some; [lia|].
    apply vi_fresh0 in Hk. lia.
  - intros k k' x x' [(<- & [= <-] & _)|(? & Hk)]%list_lookup_insert_Some
      [(<- & [= <-] & _)|(? & Hk')]%list_lookup_insert_Some E; [done| | |by eapply vi_unique0].
    + apply vi_fresh0 in Hk'. lia.
    + apply vi_fresh0 in Hk. lia.
  - intros k k' x x' [(<- & [= <-] & _)|(? & Hk)]%list_lookup_insert_Some
      [(<- & [= <-] & _)|(? & Hk')]%list_lookup_insert_Some E; [done| | |by eapply vi_exclusive0].
    + exfalso. apply Hfree. exists k', x'. split; [done|lia].
    + exfalso. apply Hfree. exists k, x. split; [done|lia].
  - intros k x Hk. assert (∃ i0 d0, dm_devices m !! i0 = Some (Some d0) ∧ le_device_id x = Z.of_nat i0)
      as (i0 & d0 & Hi0 & E).
    { apply list_lookup_insert_Some in Hk as [(_ & [= <-] & _)|(_ & Hk)]; eauto. }
    destruct (decide (i = i0)) as [<-|].
    + exists i, (set_available false d). split; [|done]. apply list_lookup_insert_eq. by eapply lookup_lt_Some.
    + exists i0, d0. by rewrite list_lookup_insert_ne.
  - intros i0 d0 [(<- & [= <-] & _)|(Hne & Hi0)]%list_lookup_insert_Some.
    + cbn. split; [|done]. intros _. exists j, l. split; [|done].
      apply list_lookup_insert_eq. by eapply lookup_lt_Some.
    + rewrite (vi_flag0 i0 d0 Hi0). unfold leased_in. split; intros (k & x & Hk & E).
      * exists k, x. split; [|done]. rewrite list_lookup_insert_ne; [done|]. congruence.
      * apply list_lookup_insert_Some in Hk as [(_ & [= <-] & _)|(_ & Hk)]; [lia|by exists k, x].
Qed.

(** A lease is granted exactly when the device is registered, nobody holds
    it and a lease slot is free; the device then belongs to the partition,
    becomes unavailable, and the lease is accepted until its expiry epoch and
    refused from it on.  Every failure leaves the manager as it was and names
    its reason. *)
Theorem grant_lease_functional m device_id partition duration epoch cap :
  device_inv m → 0 ≤ dm_next_lease_id m < u64_max →
  match grant_lease device_id partition duration epoch cap m with
  | (Ok lease, m') =>
      device_inv m' ∧ is_device_available device_id m = true ∧
      get_lease_holder device_id m = None ∧
      is_device_available device_id m' = false ∧ get_lease_holder device_id m' = Some partition ∧
      (∀ now, is_ok (check_lease lease now m') = (now <? sat_add u64_max epoch duration))
  | (Err e, m') =>
      m' = m ∧
      ((e = DeviceLeaseNotFound ∧ ∀ i, device_id = Z.of_nat i → (dm_device_count m ≤ i)%nat) ∨
       (e = DeviceLeaseConflict ∧ leased_in (dm_leases m) device_id) ∨
       (e = ResourceLimitExceeded ∧ length (dm_leases m) = dm_lease_count m))
  end.
Proof.
  intros Hm Hn. pose proof (grant_lease_spec m device_id partition duration epoch cap Hm) as H.
  destruct (grant_lease device_id partition duration epoch cap m) as [[lease|e] m']; [|done].
  destruct H as (i & d & j & Hi & -> & Ha & Hj & -> & ->).
  set (l := mkActiveLease (dm_next_lease_id m) (Z.of_nat i) partition epoch
    (sat_add u64_max epoch duration) cap).
  pose proof (lease_fill_inv m i d j l Hm Hi Ha Hj eq_refl eq_refl Hn) as Hm'.
  match type of Hm' with device_inv ?x => set (m' := x) in * end.
  assert (dm_leases m' !! j = Some (Some l)) as Hj'.
  { apply list_lookup_insert_eq. by eapply lookup_lt_Some. }
  assert (dm_devices m' !! i = Some (Some (set_available false d))) as Hi'.
  { apply list_lookup_insert_eq. by eapply lookup_lt_Some. }
  split_and!; [done| | | | |].
  - by rewrite (device_available_slot m i d).
  - apply lease_holder_None. intros Hl. apply (vi_flag m Hm i d Hi) in Hl. congruence.
  - by rewrite (device_available_slot m' i _ Hm' Hi').
  - exact (lease_holder_Some m' Hm' j l Hj').
  - intros now. change (dm_next_lease_id m) with (le_lease_id l).
    rewrite (check_lease_slot m' Hm' j l now Hj'). cbn [le_expiry_epoch l].
    destruct (_ <=? now) eqn:E, (now <? _) eqn:E2; split_bool; done || lia.
Qed.

(* ------------------------------------------------------------------ *)
(** ** Ending leases *)

(** Clearing the lease of a device and releasing it. *)
Lemma lease_clear_inv m i d j l :
  device_inv m → dm_leases m !! j = Some (Some l) → le_device_id l = Z.of_nat i →
  dm_devices m !! i = Some (Some d) →
  device_inv (mkDeviceLeaseManager (<[i := Some (set_available true d)]> (dm_devices m))
    (<[j := None]> (dm_leases m)) (dm_device_count m) (dm_lease_count m - 1) (dm_next_lease_id m)).
Proof.
  intros Hm Hj Hdev Hi. pose proof (vi_devices m Hm) as Hw.
  assert (∀ k x, <[j := None]> (dm_leases m) !! k = Some (Some x) →
    k ≠ j ∧ dm_leases m !! k = Some (Some x)) as Hold.
  { intros k x [(_ & ? & _)|(Hne & Hk)]%list_lookup_insert_Some; [done|]. split; [congruence|done]. }
  destruct Hm. split; cbn.
  - by apply set_available_wf.
  - pose proof (count_by_insert is_some _ j _ None Hj) as Hc. cbn in Hc. lia.
  - intros k x [_ Hk]%Hold. by eapply vi_fresh0.
  - intros k k' x x' [_ Hk]%Hold [_ Hk']%Hold. by apply vi_unique0.
  - intros k k' x x' [_ Hk]%Hold [_ Hk']%Hold. by apply vi_exclusive0.
  - intros k x [_ Hk]%Hold. destruct (vi_leased0 k x Hk) as (i0 & d0 & Hi0 & E).
    destruct (decide (i = i0)) as [<-|].
    + exists i, (set_available true d). split; [|done]. apply list_lookup_insert_eq. by eapply lookup_lt_Some.
    + exists i0, d0. by rewrite list_lookup_insert_ne.
  - intros i0 d0 [(<- & [= <-] & _)|(Hne & Hi0)]%list_lookup_insert_Some.
    + cbn. split; [done|]. intros (k & x & [Hkj Hk]%Hold & E). exfalso. apply Hkj.
      eapply vi_exclusive0; [done..|]. congruence.
    + rewrite (vi_flag0 i0 d0 Hi0). unfold leased_in. split; intros (k & x & Hk & E).
      * exists k, x. split; [|done]. rewrite list_lookup_insert_ne; [done|]. intros <-.
        simplify_eq. apply Hne. apply Nat2Z.inj. congruence.
      * apply Hold in Hk as [_ Hk]. by exists k, x.
Qed.

Lemma revoke_lease_spec m lease_id :
  device_inv m →
  match revoke_lease lease_id m with
  | (Ok _, m') => ∃ j l i d, dm_leases m !! j = Some (Some l) ∧ le_lease_id l = lease_id ∧
      le_device_id l = Z.of_nat i ∧ dm_devices m !! i = Some (Some d) ∧
      m' = mkDeviceLeaseManager (<[i := Some (set_available true d)]> (dm_devices m))
        (<[j := None]> (dm_leases m)) (dm_device_count m) (dm_lease_count m - 1) (dm_next_lease_id m)
  | (Err e, m') => e = DeviceLeaseNotFound ∧ m' = m ∧
      ∀ j l, dm_leases m !! j = Some (Some l) → le_lease_id l ≠ lease_id
  end.
Proof.
  intros Hm. unfold revoke_lease.
  destruct (position (has_lease lease_id) (dm_leases m)) as [j|] eqn:Hp.
  - apply position_lookup in Hp as (slot & Hj & (l & -> & <-)%has_lease_true). rewrite Hj. cbn.
    destruct (vi_leased m Hm j l Hj) as (i & d & Hi & E). exists j, l, i, d. split_and!; try done.
    by rewrite E, (release_device_slot _ _ i d (vi_devices m Hm) Hi).
  - split_and!; [done..|]. intros j l Hj E. rewrite position_None in Hp.
    specialize (Hp j (Some l) Hj). cbn in Hp. split_bool. done.
Qed.

(** Revoking a lease ends exactly that lease: it is no longer accepted at
    any epoch, its device has no holder and can be leased again, all other
    leases stand; an unknown lease is refused without effect. *)
Theorem revoke_lease_functional m lease_id :
  device_inv m →
  match revoke_lease lease_id m with
  | (Ok _, m') =>
      device_inv m' ∧ (∃ l j, dm_leases m !! j = Some (Some l) ∧ le_lease_id l = lease_id ∧
        is_device_available (le_device_id l) m' = true ∧ get_lease_holder (le_device_id l) m' = None) ∧
      (∀ now, check_lease lease_id now m' = Err DeviceLeaseNotFound) ∧
      (∀ j l, dm_leases m !! j = Some (Some l) → le_lease_id l ≠ lease_id →
         dm_leases m' !! j = Some (Some l))
  | (Err e, m') => e = DeviceLeaseNotFound ∧ m' = m ∧ ∀ now, check_lease lease_id now m = Err DeviceLeaseNotFound
  end.
Proof.
  intros Hm. pose proof (revoke_lease_spec m lease_id Hm) as H.
  assert (∀ m0, (∀ j l, dm_leases m0 !! j = Some (Some l) → le_lease_id l ≠ lease_id) →
    ∀ now, check_lease lease_id now m0 = Err DeviceLeaseNotFound) as Hgone.
  { intros m0 H0 now. unfold check_lease.
    assert (find_by (has_lease lease_id) (dm_leases m0) = None) as ->; [|done].
    apply find_by_None. intros j slot Hj. apply not_true_iff_false. rewrite has_lease_true.
    intros (l & -> & E). by apply (H0 j l). }
  destruct (revoke_lease lease_id m) as [[[]|e] m'].
  - destruct H as (j & l & i & d & Hj & <- & Hdev & Hi & ->).
    pose proof (lease_clear_inv m i d j l Hm Hj Hdev Hi) as Hm'.
    match type of Hm' with device_inv ?x => set (m' := x) in * end.
    assert (dm_devices m' !! i = Some (Some (set_available true d))) as Hi'.
    { apply list_lookup_insert_eq. by eapply lookup_lt_Some. }
    split_and!; [done| | |].
    + exists l, j. split_and!; [done..| |].
      * by rewrite Hdev, (device_available_slot m' i _ Hm' Hi').
      * apply lease_holder_None. rewrite Hdev. intros Hl. by apply (vi_flag m' Hm' i _ Hi') in Hl.
    + apply Hgone. intros k x Hk E.
      apply list_lookup_insert_Some in Hk as [(_ & ? & _)|(Hne & Hk)]; [done|].
      apply Hne. by eapply (vi_unique m Hm).
    + intros k x Hk E. cbn. rewrite list_lookup_insert_ne; [done|]. intros <-. congruence.
  - destruct H as (-> & -> & H). split_and!; [done..|]. by apply Hgone.
Qed.

(* ------------------------------------------------------------------ *)
(** ** Expiry *)

Definition expire_slot (epoch : Z) (slot : option ActiveLease) : option ActiveLease :=
  if lease_expired epoch slot then None else slot.
Definition expired_ids (epoch : Z) (leases : list (option ActiveLease)) : list Z :=
  omap (λ slot, if lease_expired epoch slot then le_device_id <$> slot else None) leases.

Lemma expire_loop_spec epoch leases c e ids :
  0 ≤ e → e + Z.of_nat (length leases) ≤ u32_max →
  expire_loop epoch leases c e ids =
    (expire_slot epoch <$> leases, (c - count_by (lease_expired epoch) leases)%nat,
     e + Z.of_nat (count_by (lease_expired epoch) leases), ids ++ expired_ids epoch leases).
Proof.
  revert c e ids. induction leases as [|slot leases IH]; intros c e ids He Hmax.
  - cbn. by rewrite Nat.sub_0_r, Z.add_0_r, app_nil_r.
  - cbn [length] in Hmax. destruct slot as [l|].
    + cbn [expire_loop]. destruct (le_expiry_epoch l <=? epoch) eqn:E.
      * rewrite wrap32_id by (unfold is_u32; lia). rewrite IH by lia.
        unfold expired_ids. cbn [fmap list_fmap count_by omap list_omap lease_expired is_some_and
          expire_slot]. unfold expire_slot at 2. cbn [lease_expired is_some_and]. rewrite E, <-app_assoc.
        replace (c - (1 + count_by (lease_expired epoch) leases))%nat
          with (c - 1 - count_by (lease_expired epoch) leases)%nat by lia.
        replace (e + Z.of_nat (1 + count_by (lease_expired epoch) leases))
          with (e + 1 + Z.of_nat (count_by (lease_expired epoch) leases)) by lia. done.
      * rewrite IH by lia. unfold expire_slot at 2, expired_ids. cbn. by rewrite E.
    + cbn [expire_loop]. rewrite IH by lia. done.
Qed.

Definition release_all (ids : list Z) (devices : list (option DeviceInfo)) : list (option DeviceInfo) :=
  foldl (λ devices id, release_device id devices) devices ids.

Lemma release_all_spec ids devices count :
  devices_wf devices count →
  (∀ id, id ∈ ids → ∃ i d, devices !! i = Some (Some d) ∧ id = Z.of_nat i) →
  devices_wf (release_all ids devices) count ∧
  (∀ i, release_all ids devices !! i =
    (λ slot, if bool_decide (Z.of_nat i ∈ ids) then set_available true <$> slot else slot) <$> devices !! i).
Proof.
  revert devices. induction ids as [|id ids IH]; intros devices Hw Hids.
  { split; [done|]. intros i. cbn. by destruct (devices !! i). }
  destruct (Hids id ltac:(set_solver)) as (i & d & Hi & ->).
  change (release_all (Z.of_nat i :: ids) devices) with
    (release_all ids (release_device (Z.of_nat i) devices)).
  rewrite (release_device_slot devices count i d Hw Hi).
  destruct (IH (<[i := Some (set_available true d)]> devices)) as [Hw' Hl].
  - by apply set_available_wf.
  - intros id Hid. destruct (Hids id ltac:(set_solver)) as (j & d' & Hj & ->).
    destruct (decide (i = j)) as [<-|].
    + exists i, (set_available true d). split; [|done]. apply list_lookup_insert_eq. by eapply lookup_lt_Some.
    + exists j, d'. by rewrite list_lookup_insert_ne.
  - split; [done|]. intros j. rewrite Hl. destruct (decide (i = j)) as [<-|Hne].
    + rewrite list_lookup_insert_eq by (by eapply lookup_lt_Some). rewrite Hi. cbn.
      rewrite (bool_decide_eq_true_2 (Z.of_nat i ∈ Z.of_nat i :: ids)) by set_solver.
      by destruct (bool_decide (Z.of_nat i ∈ ids)).
    + rewrite list_lookup_insert_ne by done. destruct (devices !! j) as [slot|]; [|done]. cbn. f_equal.
      destruct (decide (Z.of_nat j ∈ ids)).
      * by rewrite !bool_decide_eq_true_2 by set_solver.
      * rewrite !bool_decide_eq_false_2; [done| |done].
        intros [?%Nat2Z.inj|?]%elem_of_cons; by subst.
Qed.

Lemma expired_ids_elem epoch leases id :
  id ∈ expired_ids epoch leases ↔
  ∃ j l, leases !! j = Some (Some l) ∧ le_expiry_epoch l ≤ epoch ∧ le_device_id l = id.
Proof.
  unfold expired_ids. rewrite list_elem_of_omap. split.
  - intros (slot & (j & Hj)%list_elem_of_lookup & H). destruct slot as [l|]; cbn in H; [|done].
    destruct (_ <=? _) eqn:E; [|done]. split_bool. injection H as <-. by exists j, l.
  - intros (j & l & Hj & E & <-). exists (Some l). split; [by eapply list_elem_of_lookup_2|].
    cbn. by apply Z.leb_le in E as ->.
Qed.

Lemma expire_slot_Some epoch slot l :
  expire_slot epoch slot = Some l ↔ slot = Some l ∧ epoch < le_expiry_epoch l.
Proof.
  unfold expire_slot. destruct slot as [x|]; cbn; [|naive_solver].
  destruct (_ <=? _) eqn:E; split_bool; split; try done.
  - intros [[= <-] ?]. lia.
  - intros [= <-]. done.
  - by intros [[= <-] _].
Qed.

Lemma count_expired epoch leases :
  (count_by is_some (expire_slot epoch <$> leases) + count_by (lease_expired epoch) leases =
   count_by is_some leases)%nat.
Proof.
  induction leases as [|slot leases IH]; [done|]. cbn. unfold expire_slot at 1.
  destruct slot as [l|]; cbn; [|lia]. destruct (_ <=? _); cbn; lia.
Qed.

(** Expiry, unfolded once. *)
Lemma expire_leases_spec m epoch :
  device_inv m → Z.of_nat (length (dm_leases m)) ≤ u32_max →
  let m' := (expire_leases epoch m).2 in
  device_inv m' ∧
  (expire_leases epoch m).1 = Z.of_nat (dm_lease_count m - dm_lease_count m') ∧
  (∀ j l, dm_leases m' !! j = Some (Some l) ↔
     dm_leases m !! j = Some (Some l) ∧ epoch < le_expiry_epoch l) ∧
  (∀ i d, dm_devices m !! i = Some (Some d) →
     is_device_available (Z.of_nat i) m' = true ↔
     is_device_available (Z.of_nat i) m = true ∨
     ∃ j l, dm_leases m !! j = Some (Some l) ∧ le_device_id l = Z.of_nat i ∧ le_expiry_epoch l ≤ epoch).
Proof.
  intros Hm Hmax. pose proof (vi_devices m Hm) as Hw. cbv zeta. unfold expire_leases.
  rewrite expire_loop_spec by lia. cbn [fst snd]. rewrite app_nil_l, Z.add_0_l.
  fold (release_all (expired_ids epoch (dm_leases m)) (dm_devices m)).
  destruct (release_all_spec (expired_ids epoch (dm_leases m)) _ _ Hw) as [Hw' Hl].
  { intros id (j & l & Hj & _ & <-)%expired_ids_elem. by apply (vi_leased m Hm j). }
  match goal with |- device_inv ?x ∧ _ => set (m' := x) end.
  pose proof (count_expired epoch (dm_leases m)) as Hcount.
  assert (∀ j l, dm_leases m' !! j = Some (Some l) ↔
     dm_leases m !! j = Some (Some l) ∧ epoch < le_expiry_epoch l) as Hleases.
  { intros j l. cbn [dm_leases m']. rewrite list_lookup_fmap, fmap_Some. split.
    - intros (slot & Hj & E). symmetry in E. apply expire_slot_Some in E as [-> ?]. done.
    - intros [Hj E]. exists (Some l). split; [done|]. symmetry. by apply expire_slot_Some. }
  assert (∀ i d, dm_devices m' !! i = Some (Some d) → ∃ d0, dm_devices m !! i = Some (Some d0) ∧
    dv_available d = bool_decide (Z.of_nat i ∈ expired_ids epoch (dm_leases m)) || dv_available d0) as Hdev.
  { intros i d Hi. cbn [dm_devices m'] in Hi. rewrite Hl in Hi.
    destruct (dm_devices m !! i) as [[d0|]|] eqn:Hi0; try done; cbn in Hi.
    - exists d0. split; [done|]. destruct (bool_decide _); by simplify_eq/=.
    - by destruct (bool_decide _). }
  assert (∀ i d0, dm_devices m !! i = Some (Some d0) → ∃ d, dm_devices m' !! i = Some (Some d)) as Hdev2.
  { intros i d0 Hi. cbn [dm_devices m']. rewrite Hl, Hi. cbn. destruct (bool_decide _); by eexists. }
  assert (device_inv m') as Hm'.
  { destruct Hm. split; try done.
    - cbn. lia.
    - intros j l [Hj _]%Hleases. by eapply vi_fresh0.
    - intros j k l l' [Hj _]%Hleases [Hk _]%Hleases. by apply vi_unique0.
    - intros j k l l' [Hj _]%Hleases [Hk _]%Hleases. by apply vi_exclusive0.
    - intros j l [Hj _]%Hleases. destruct (vi_leased0 j l Hj) as (i & d0 & Hi & E).
      destruct (Hdev2 i d0 Hi) as [d Hd]. by exists i, d.
    - intros i d Hi. destruct (Hdev i d Hi) as (d0 & Hi0 & ->).
      rewrite orb_false_iff, bool_decide_eq_false, expired_ids_elem, (vi_flag0 i d0 Hi0). split.
      + intros [Hn (j & l & Hj & E)]. exists j, l. split; [|done]. apply Hleases. split; [done|].
        destruct (decide (epoch < le_expiry_epoch l)); [done|]. exfalso. apply Hn.
        exists j, l. split_and!; [done|lia|done].
      + intros (j & l & [Hj Hlt]%Hleases & E). split; [|by exists j, l].
        intros (j' & l' & Hj' & Hle & E'). assert (j' = j) as -> by (eapply vi_exclusive0; [done..|congruence]).
        simplify_eq. lia. }
  split_and!; [done| |done|].
  - cbn. f_equal. rewrite <-(vi_lease_count m Hm) in Hcount. lia.
  - intros i d0 Hi. destruct (Hdev2 i d0 Hi) as [d Hd].
    rewrite (device_available_slot m' i d Hm' Hd), (device_available_slot m i d0 Hm Hi).
    destruct (Hdev i d Hd) as (d0' & Hi' & ->). simplify_eq.
    rewrite orb_true_iff, bool_decide_eq_true, expired_ids_elem. naive_solver.
Qed.

(** Expiry is exact.  [expire_leases] ends precisely the leases whose
    expiry epoch has been reached, returns their number, and makes precisely
    their devices available again; all other leases and devices are as before
    and the invariant holds. *)
Theorem expire_leases_functional m epoch :
  device_inv m → Z.of_nat (length (dm_leases m)) ≤ u32_max →
  let m' := (expire_leases epoch m).2 in
  device_inv m' ∧
  (expire_leases epoch m).1 = Z.of_nat (dm_lease_count m - dm_lease_count m') ∧
  (∀ j l, dm_leases m' !! j = Some (Some l) ↔
     dm_leases m !! j = Some (Some l) ∧ epoch < le_expiry_epoch l) ∧
  (∀ i d, dm_devices m !! i = Some (Some d) →
     is_device_available (Z.of_nat i) m' = true ↔
     is_device_available (Z.of_nat i) m = true ∨
     ∃ j l, dm_leases m !! j = Some (Some l) ∧ le_device_id l = Z.of_nat i ∧ le_expiry_epoch l ≤ epoch).
Proof. apply expire_leases_spec. Qed.

(* ------------------------------------------------------------------ *)
(** ** Histories *)

Inductive device_op : Set :=
| DoRegister (info : DeviceInfo)
| DoGrant (device_id : Z) (partition : PartitionId) (duration epoch cap : Z)
| DoRevoke (lease_id : Z)
| DoExpire (epoch : Z).

Definition run_device (op : device_op) (m : DeviceLeaseManager) : DeviceLeaseManager :=
  match op with
  | DoRegister info => (register_device info m).2
  | DoGrant d p n e c => (grant_lease d p n e c m).2
  | DoRevoke l => (revoke_lease l m).2
  | DoExpire e => (expire_leases e m).2
  end.

Record device_ready (m : DeviceLeaseManager) : Prop := {
  dr_inv : device_inv m;
  dr_next : 0 ≤ dm_next_lease_id m;
  dr_leases : Z.of_nat (length (dm_leases m)) ≤ u32_max;
}.

Lemma device_step_ready op m :
  device_ready m → dm_next_lease_id m < u64_max →
  device_ready (run_device op m) ∧ dm_next_lease_id (run_device op m) ≤ dm_next_lease_id m + 1.
Proof.
  intros [Hm Hn Hl] Hmax. destruct op as [info|d p n e c|l|e]; cbn [run_device].
  - pose proof (register_device_inv info m Hm) as H. unfold register_device in *.
    repeat case_match; cbn in *; (split; [split; done|lia]).
  - pose proof (grant_lease_spec m d p n e c Hm) as H.
    destruct (grant_lease d p n e c m) as [[lease|err] m'].
    + destruct H as (i & dv & j & Hi & -> & Ha & Hj & -> & ->). cbn [snd dm_next_lease_id].
      assert (wrap64 (dm_next_lease_id m + 1) = dm_next_lease_id m + 1) as E
        by (apply wrap64_id; unfold is_u64; lia).
      split; [|lia]. split; cbn; [|lia|by rewrite length_insert].
      by apply lease_fill_inv.
    + destruct H as [-> _]. cbn. split; [done|lia].
  - pose proof (revoke_lease_spec m l Hm) as H. destruct (revoke_lease l m) as [[[]|err] m'].
    + destruct H as (j & x & i & dv & Hj & <- & Hd & Hi & ->). cbn [snd dm_next_lease_id].
      split; [|lia]. split; cbn; [|lia|by rewrite length_insert]. by eapply lease_clear_inv.
    + destruct H as (_ & -> & _). cbn. split; [done|lia].
  - destruct (expire_leases_spec m e Hm Hl) as (Hm' & _). unfold expire_leases in *.
    rewrite expire_loop_spec in Hm' |- * by lia. cbn [snd dm_next_lease_id] in *.
    split; [|lia]. split; [done|done|]. cbn. by rewrite length_fmap.
Qed.

Lemma device_ops_inv ops m :
  device_ready m → dm_next_lease_id m + Z.of_nat (length ops) ≤ u64_max →
  device_inv (foldl (λ m op, run_device op m) m ops).
Proof.
  revert m. induction ops as [|op ops IH]; intros m Hm Hn; [apply Hm|]. cbn [length] in Hn.
  destruct (device_step_ready op m Hm ltac:(lia)). apply IH; [done|lia].
Qed.

(** At most one lease per device, always.  After any history of
    registrations, grants, revocations and expiries, no device has two leases,
    no two leases share an id, every lease names a registered device, and a
    device is unavailable exactly while it is leased. *)
Theorem device_history_inv max_devices max_leases ops :
  Z.of_nat max_devices ≤ u32_max → Z.of_nat max_leases ≤ u32_max →
  Z.of_nat (length ops) < u64_max →
  device_inv (foldl (λ m op, run_device op m) (device_manager_new max_devices max_leases) ops).
Proof.
  intros Hd Hl Hn.
  apply device_ops_inv; [|cbn; lia]. split; cbn; [by apply device_manager_new_inv|done|by rewrite length_replicate].
Qed.

Definition sample_info : DeviceInfo := mkDeviceInfo 0 0 4096 4096 None false.
Definition sample_devices : DeviceLeaseManager :=
  foldl (λ m op, run_device op m) (device_manager_new 2 2)
    [DoRegister sample_info; DoRegister sample_info; DoGrant 1 7 10 5 0].

Lemma sample_devices_inv : device_inv sample_devices.
Proof.
  apply device_ops_inv; [|by vm_compute]. split; [by apply device_manager_new_inv|done|done].
Qed.

Lemma device_history_inv_witness :
  Z.of_nat 2 ≤ u32_max ∧ device_inv (run_device (DoExpire 15) sample_devices).
Proof.
  split; [done|].
  exact (device_history_inv 2 2 [DoRegister sample_info; DoRegister sample_info; DoGrant 1 7 10 5 0;
    DoExpire 15] ltac:(done) ltac:(done) ltac:(done)).
Defined.

Lemma grant_lease_functional_witness :
  device_inv sample_devices ∧
  get_lease_holder 0 (grant_lease 0 8 10 5 0 sample_devices).2 = Some 8.
Proof.
  split; [exact sample_devices_inv|].
  pose proof (grant_lease_functional sample_devices 0 8 10 5 0 sample_devices_inv ltac:(done)) as H.
  destruct (grant_lease 0 8 10 5 0 sample_devices) as [[l|e] m'] eqn:E.
  - destruct H as (_ & _ & _ & _ & H & _). exact H.
  - exfalso. vm_compute in E. discriminate E.
Defined.

Lemma revoke_lease_functional_witness :
  device_inv sample_devices ∧
  check_lease 1 6 (revoke_lease 1 sample_devices).2 = Err DeviceLeaseNotFound.
Proof.
  split; [exact sample_devices_inv|].
  pose proof (revoke_lease_functional sample_devices 1 sample_devices_inv) as H.
  destruct (revoke_lease 1 sample_devices) as [[u|e] m'] eqn:E.
  - destruct H as (_ & _ & H & _). apply H.
  - exfalso. vm_compute in E. discriminate E.
Defined.

Lemma expire_leases_functional_witness :
  device_inv sample_devices ∧ is_device_available 1 (expire_leases 15 sample_devices).2 = true.
Proof.
  split; [exact sample_devices_inv|].
  destruct (expire_leases_functional sample_devices 15 sample_devices_inv ltac:(done)) as (_ & _ & _ & H).
  apply (H 1%nat (mkDeviceInfo 1 0 4096 4096 None false) eq_refl). right.
  exists O, (mkActiveLease 1 1 7 5 15 0). done.
Defined.
