(* ===== verification/Partition.v ===== *)
(** Partitions: [crates/rvm-partition/src] ([partition.rs], [lifecycle.rs],
    [manager.rs], [cap_table.rs], [split.rs], [merge.rs]).

    The manager keeps 256 slots and a direct index for ids below 4096; it is
    proved to behave as a finite map from ids to partitions.  The lifecycle is
    a transition table, studied as a state machine. *)

From stdpp Require Import base numbers list option sets gmap relations.
From Stdlib Require Import ZArith Lia.
From S2P Require Import Prelude.
From S2P Require Import Types.

(* ------------------------------------------------------------------ *)
(** ** Partitions ([partition.rs]) *)

Definition MAX_PARTITIONS : nat := 256.

Inductive PartitionState : Set := Created | Running | Suspended | Destroyed | Hibernated.
#[export] Instance PartitionState_eq_dec : EqDecision PartitionState.
Proof. solve_decision. Defined.

Inductive PartitionType : Set := Agent | Infrastructure | Root.

Record Partition : Set := mkPartition {
  pt_id : PartitionId;
  pt_state : PartitionState;
  pt_type : PartitionType;
  pt_coherence : CoherenceScore;
  pt_cut_pressure : CutPressure;
  pt_vcpu_count : Z;
  pt_cpu_affinity : Z;
  pt_epoch : Z;
}.

Definition partition_new (id : PartitionId) (ty : PartitionType) (vcpu_count epoch : Z) : Partition :=
  mkPartition id Created ty (from_basis_points 5000) PRESSURE_ZERO vcpu_count u64_max epoch.

(* ------------------------------------------------------------------ *)
(** ** Lifecycle ([lifecycle.rs]) *)

Definition valid_transition (from to : PartitionState) : bool :=
  match from, to with
  | Created, Running | Suspended, Running => true
  | Running, Suspended => true
  | Created, Destroyed | Running, Destroyed | Suspended, Destroyed | Hibernated, Destroyed => true
  | Running, Hibernated | Suspended, Hibernated => true
  | Hibernated, Created => true
  | _, _ => false
  end.

Definition lifecycle_step (a b : PartitionState) : Prop := valid_transition a b = true.

(* ------------------------------------------------------------------ *)
(** ** The partition manager ([manager.rs]) *)

Definition ID_INDEX_SIZE : Z := 4096.

Record PartitionManager : Set := mkPartitionManager {
  pm_partitions : list (option Partition);
  pm_id_to_slot : list (option Z);
  pm_count : nat;
  pm_next_id : Z;
}.

Definition partition_manager_new : PartitionManager :=
  mkPartitionManager (replicate MAX_PARTITIONS None) (replicate (Z.to_nat ID_INDEX_SIZE) None) 0 1.

Definition has_id (id : PartitionId) (slot : option Partition) : bool :=
  is_some_and (λ p, pt_id p =? id) slot.

(** Write the direct index, for ids it covers. *)
Definition set_index (id : PartitionId) (v : option Z) (index : list (option Z)) : list (option Z) :=
  if id <? ID_INDEX_SIZE then <[Z.to_nat id := v]> index else index.

Definition pm_create (ty : PartitionType) (vcpu_count epoch : Z) : prog PartitionManager RvmError PartitionId :=
  λ m,
  if (MAX_PARTITIONS <=? pm_count m)%nat then (Err PartitionLimitExceeded, m)
  else
    let id := pm_next_id m in
    let partition := partition_new id ty vcpu_count epoch in
    match position is_none (pm_partitions m) with
    | None => (Err InternalError, m)
    | Some i =>
        (Ok id, mkPartitionManager (<[i := Some partition]> (pm_partitions m))
                  (set_index id (Some (Z.min (Z.of_nat i) u8_max)) (pm_id_to_slot m))
                  (pm_count m + 1) (wrap32 (pm_next_id m + 1)))
    end.

(** The slot [get] and [get_mut] find: by the index, else by a scan. *)
Definition pm_find (id : PartitionId) (m : PartitionManager) : option nat :=
  let fallback := position (has_id id) (pm_partitions m) in
  match default None (get_at (pm_id_to_slot m) id) with
  | Some slot_idx =>
      if has_id id (default None (get_at (pm_partitions m) slot_idx)) then Some (Z.to_nat slot_idx)
      else fallback
  | None => fallback
  end.

Definition pm_get (id : PartitionId) (m : PartitionManager) : option Partition :=
  pm_find id m ≫= λ i, default None (pm_partitions m !! i).

(** A write through the borrow [get_mut] returns. *)
Definition pm_update (id : PartitionId) (f : Partition → Partition) (m : PartitionManager) : PartitionManager :=
  match pm_find id m with
  | Some i => mkPartitionManager (alter (fmap f) i (pm_partitions m)) (pm_id_to_slot m)
                (pm_count m) (pm_next_id m)
  | None => m
  end.

Definition active_ids (m : PartitionManager) : list PartitionId :=
  omap (fmap pt_id) (pm_partitions m).

Definition pm_remove (id : PartitionId) : prog PartitionManager RvmError unit := λ m,
  match position (has_id id) (pm_partitions m) with
  | None => (Err PartitionNotFound, m)
  | Some i =>
      (Ok tt, mkPartitionManager (<[i := None]> (pm_partitions m))
                (set_index id None (pm_id_to_slot m)) (pm_count m - 1) (pm_next_id m))
  end.

(* ------------------------------------------------------------------ *)
(** ** The per-partition capability table ([cap_table.rs]) *)

Definition MAX_CAPS_PER_PARTITION : nat := 256.

Record PartitionCaps : Set := mkPartitionCaps {
  pcp_entries : list (option CapToken);
  pcp_count : nat;
}.

Definition pcaps_new : PartitionCaps := mkPartitionCaps (replicate MAX_CAPS_PER_PARTITION None) 0.

Definition pcaps_insert (token : CapToken) : prog PartitionCaps RvmError nat := λ t,
  match position is_none (pcp_entries t) with
  | Some i => (Ok i, mkPartitionCaps (<[i := Some token]> (pcp_entries t)) (pcp_count t + 1))
  | None => (Err ResourceLimitExceeded, t)
  end.

Definition pcaps_get (index : nat) (t : PartitionCaps) : option CapToken :=
  pcp_entries t !! index ≫= id.

Definition pcaps_remove (index : nat) : prog PartitionCaps RvmError CapToken := λ t,
  match pcp_entries t !! index with
  | Some (Some token) =>
      (Ok token, mkPartitionCaps (<[index := None]> (pcp_entries t)) (pcp_count t - 1))
  | _ => (Err InsufficientCapability, t)
  end.

Definition pcaps_len (t : PartitionCaps) : nat := pcp_count t.
Definition pcaps_is_empty (t : PartitionCaps) : bool := (pcp_count t =? 0)%nat.

(* ------------------------------------------------------------------ *)
(** ** Split and merge ([split.rs], [merge.rs]) *)

Definition score_diff (a b : CoherenceScore) : Z := if b <=? a then a - b else b - a.

Definition scored_region_assignment (region left right : CoherenceScore) : Z :=
  if score_diff region left <=? score_diff region right then 7500 else 2500.

Inductive MergePreconditionError : Set :=
| MpInsufficientCoherence | MpNotAdjacent | MpResourceLimitExceeded.

Definition merge_preconditions_met (a b : CoherenceScore) : result MergePreconditionError unit :=
  let threshold := DEFAULT_MERGE_THRESHOLD in
  if negb (meets_threshold a threshold) || negb (meets_threshold b threshold)
  then Err MpInsufficientCoherence else Ok tt.

Definition merge_preconditions_full (a b : CoherenceScore) (are_adjacent : bool)
    (combined_cap_count max_caps_per_partition : nat) : result MergePreconditionError unit :=
  _ ← merge_preconditions_met a b;
  if negb are_adjacent then Err MpNotAdjacent
  else if (max_caps_per_partition <? combined_cap_count)%nat then Err MpResourceLimitExceeded
  else Ok tt.

(* ------------------------------------------------------------------ *)
(** ** The lifecycle as a state machine *)

(** [Destroyed] is the only final state and every other state can reach
    it in one step; a partition that reaches it never leaves it; [Running] is
    entered only from [Created] or [Suspended], so a hibernated partition must
    be recreated first; and every live state can get back to [Running]. *)
Theorem lifecycle_state_machine :
  (∀ t, rtc lifecycle_step Destroyed t → t = Destroyed) ∧
  (∀ s, s ≠ Destroyed → lifecycle_step s Destroyed) ∧
  (∀ s, lifecycle_step s Running → s = Created ∨ s = Suspended) ∧
  (∀ s, s ≠ Destroyed → rtc lifecycle_step s Running) ∧
  (∀ s, ¬ lifecycle_step s s).
Proof.
  split_and!.
  - intros t Hr. inversion Hr as [|u t' y Hs]; [done|]. by destruct t'.
  - by intros [].
  - intros []; unfold lifecycle_step; cbn; auto; done.
  - intros s Hs. destruct s; [by apply rtc_once|apply rtc_refl|by apply rtc_once|done|].
    apply (rtc_l _ _ Created); [done|]. by apply rtc_once.
  - by intros [].
Qed.

(* ------------------------------------------------------------------ *)
(** ** The manager is a finite map *)

Record AbsPartitions : Set := mkAbsPartitions {
  ap_map : gmap Z Partition;
  ap_next : Z;
}.

Record pm_repr (m : PartitionManager) (s : AbsPartitions) : Prop := {
  pr_len : length (pm_partitions m) = MAX_PARTITIONS;
  pr_count : pm_count m = count_by is_some (pm_partitions m);
  pr_size : pm_count m = size (ap_map s);
  pr_next : pm_next_id m = ap_next s;
  pr_some id p : ap_map s !! id = Some p → ∃ i, pm_partitions m !! i = Some (Some p) ∧ pt_id p = id;
  pr_slot i p : pm_partitions m !! i = Some (Some p) → ap_map s !! pt_id p = Some p;
  pr_unique i j p q : pm_partitions m !! i = Some (Some p) → pm_partitions m !! j = Some (Some q) →
    pt_id p = pt_id q → i = j;
  pr_fresh i p : pm_partitions m !! i = Some (Some p) → 1 ≤ pt_id p < pm_next_id m;
}.

Lemma has_id_true id slot : has_id id slot = true ↔ ∃ p, slot = Some p ∧ pt_id p = id.
Proof.
  destruct slot as [p|]; cbn; [rewrite Z.eqb_eq|]; split.
  - intros. by exists p.
  - by intros (? & [= <-] & ?).
  - done.
  - by intros (? & ? & _).
Qed.

Section pm.
Context (m : PartitionManager) (s : AbsPartitions) (Hr : pm_repr m s).

Lemma pm_position i p :
  pm_partitions m !! i = Some (Some p) → position (has_id (pt_id p)) (pm_partitions m) = Some i.
Proof using Hr.
  intros Hi. eapply position_unique; [done|by apply has_id_true; eauto|].
  intros j y Hj (q & -> & E)%has_id_true. by eapply (pr_unique m s Hr).
Qed.

(** The direct index never changes the answer of the scan. *)
Lemma pm_find_scan id : pm_find id m = position (has_id id) (pm_partitions m).
Proof using Hr.
  unfold pm_find. destruct (default None (get_at (pm_id_to_slot m) id)) as [slot|]; [|done].
  rewrite get_at_eq.
  destruct (has_id id (default None (pm_partitions m !! Z.to_nat slot))) eqn:E; [|done].
  apply has_id_true in E as (p & Hp & <-).
  destruct (pm_partitions m !! Z.to_nat slot) as [[q|]|] eqn:Hi; cbn in Hp; try done.
  injection Hp as ->. by rewrite (pm_position _ p Hi).
Qed.

Lemma pm_find_map id :
  match ap_map s !! id with
  | Some p => ∃ i, pm_find id m = Some i ∧ pm_partitions m !! i = Some (Some p) ∧ pt_id p = id
  | None => pm_find id m = None
  end.
Proof using Hr.
  rewrite pm_find_scan. destruct (ap_map s !! id) as [p|] eqn:He.
  - apply (pr_some m s Hr) in He as (i & Hi & <-). exists i. by rewrite (pm_position i p Hi).
  - destruct (position (has_id id) (pm_partitions m)) as [i|] eqn:Hp; [|done].
    apply position_lookup in Hp as (slot & Hi & (p & -> & <-)%has_id_true).
    apply (pr_slot m s Hr) in Hi. congruence.
Qed.

Lemma pm_get_map id : pm_get id m = ap_map s !! id.
Proof using Hr.
  unfold pm_get. pose proof (pm_find_map id) as H. destruct (ap_map s !! id) as [p|].
  - destruct H as (i & -> & Hi & _). cbn. by rewrite Hi.
  - by rewrite H.
Qed.

Lemma pm_create_repr ty vcpus epoch :
  1 ≤ pm_next_id m < u32_max →
  match pm_create ty vcpus epoch m with
  | (Ok id, m') =>
      id = ap_next s ∧ ap_map s !! id = None ∧ (size (ap_map s) < MAX_PARTITIONS)%nat ∧
      pm_repr m' (mkAbsPartitions (<[id := partition_new id ty vcpus epoch]> (ap_map s)) (ap_next s + 1))
  | (Err e, m') => e = PartitionLimitExceeded ∧ m' = m ∧ (MAX_PARTITIONS ≤ size (ap_map s))%nat
  end.
Proof using Hr.
  intros Hn. unfold pm_create. destruct (MAX_PARTITIONS <=? pm_count m)%nat eqn:E; split_bool.
  { rewrite (pr_size m s Hr) in E. done. }
  destruct (position_none_below_capacity (pm_partitions m)) as [i Hp].
  { rewrite <-(pr_count m s Hr), (pr_len m s Hr). done. }
  rewrite Hp. apply position_lookup in Hp as ([p|] & Hi & Hnone); [done|].
  assert (wrap32 (pm_next_id m + 1) = pm_next_id m + 1) as Hw by (apply wrap32_id; unfold is_u32; lia).
  assert (ap_map s !! pm_next_id m = None) as Hfresh.
  { destruct (ap_map s !! pm_next_id m) as [p|] eqn:Hs; [|done].
    apply (pr_some m s Hr) in Hs as (j & Hj & Hid). pose proof (pr_fresh m s Hr j p Hj). lia. }
  split; [apply (pr_next m s Hr)|]. split; [done|]. split; [rewrite <-(pr_size m s Hr); done|].
  rewrite Hw, (pr_next m s Hr) in *. set (p := partition_new (ap_next s) ty vcpus epoch).
  assert (∀ j q, <[i := Some p]> (pm_partitions m) !! j = Some (Some q) →
    (j = i ∧ q = p) ∨ (j ≠ i ∧ pm_partitions m !! j = Some (Some q))) as Hold.
  { intros j q [(-> & [= <-] & _)|(Hne & Hj)]%list_lookup_insert_Some; [by left|]. right. split; [congruence|done]. }
  split; cbn [pm_partitions pm_count pm_next_id ap_map ap_next].
  - rewrite length_insert. apply (pr_len m s Hr).
  - pose proof (count_by_insert is_some _ i _ (Some p) Hi) as Hc. cbn in Hc.
    rewrite (pr_count m s Hr). lia.
  - rewrite map_size_insert_None by done. rewrite (pr_size m s Hr). lia.
  - done.
  - intros id q [(<- & <-)|(Hne & Hq)]%lookup_insert_Some.
    + exists i. split; [|done]. apply list_lookup_insert_eq. by eapply lookup_lt_Some.
    + apply (pr_some m s Hr) in Hq as (j & Hj & E'). exists j. split; [|done].
      rewrite list_lookup_insert_ne; [done|]. intros <-. congruence.
  - intros j q [[-> ->]|[Hne Hj]]%Hold; [by rewrite lookup_insert_eq|].
    pose proof (pr_fresh m s Hr j q Hj). rewrite lookup_insert_ne; [by eapply pr_slot|].
    rewrite (pr_next m s Hr) in *. lia.
  - intros j k q q' [[-> ->]|[Hne Hj]]%Hold [[-> ->]|[Hne' Hk]]%Hold E'; [done| | |by eapply (pr_unique m s Hr)].
    + pose proof (pr_fresh m s Hr k q' Hk) as Hf. rewrite (pr_next m s Hr) in Hf. cbn in E'. lia.
    + pose proof (pr_fresh m s Hr j q Hj) as Hf. rewrite (pr_next m s Hr) in Hf. cbn in E'. lia.
  - intros j q [[-> ->]|[Hne Hj]]%Hold; [cbn; lia|].
    pose proof (pr_fresh m s Hr j q Hj) as Hf. rewrite (pr_next m s Hr) in Hf. lia.
Qed.

Lemma pm_remove_repr id :
  match pm_remove id m with
  | (Ok _, m') => is_Some (ap_map s !! id) ∧ pm_repr m' (mkAbsPartitions (delete id (ap_map s)) (ap_next s))
  | (Err e, m') => e = PartitionNotFound ∧ m' = m ∧ ap_map s !! id = None
  end.
Proof using Hr.
  unfold pm_remove. pose proof (pm_find_map id) as Hf. rewrite pm_find_scan in Hf.
  destruct (ap_map s !! id) as [p|] eqn:Hid; [|by rewrite Hf].
  destruct Hf as (i & Hp & Hi & <-). rewrite Hp. split; [by eexists|].
  assert (∀ j q, <[i := None]> (pm_partitions m) !! j = Some (Some q) →
    j ≠ i ∧ pm_partitions m !! j = Some (Some q)) as Hold.
  { intros j q [(-> & ? & _)|(Hne & Hj)]%list_lookup_insert_Some; [done|]. split; [congruence|done]. }
  split; cbn [pm_partitions pm_count pm_next_id ap_map ap_next].
  - rewrite length_insert. apply (pr_len m s Hr).
  - pose proof (count_by_insert is_some _ i _ None Hi) as Hc. cbn in Hc.
    rewrite (pr_count m s Hr). lia.
  - rewrite map_size_delete, Hid, (pr_size m s Hr). cbn. lia.
  - apply (pr_next m s Hr).
  - intros id q [Hne Hq]%lookup_delete_Some. apply (pr_some m s Hr) in Hq as (j & Hj & E').
    exists j. split; [|done]. rewrite list_lookup_insert_ne; [done|]. intros <-. congruence.
  - intros j q [Hne Hj]%Hold. rewrite lookup_delete_ne; [by eapply pr_slot|].
    intros E. apply Hne. by eapply (pr_unique m s Hr).
  - intros j k q q' [_ Hj]%Hold [_ Hk]%Hold. by apply (pr_unique m s Hr).
  - intros j q [_ Hj]%Hold. by eapply pr_fresh.
Qed.

Lemma pm_update_repr id f :
  (∀ p, pt_id (f p) = pt_id p) →
  pm_repr (pm_update id f m) (mkAbsPartitions (alter f id (ap_map s)) (ap_next s)).
Proof using Hr.
  intros Hfid. unfold pm_update. pose proof (pm_find_map id) as Hf.
  destruct (ap_map s !! id) as [p|] eqn:Hid.
  2: { rewrite Hf. assert (alter f id (ap_map s) = ap_map s) as ->; [|by destruct s].
       apply map_eq. intros k. destruct (decide (id = k)) as [<-|].
       - by rewrite lookup_alter_eq, Hid.
       - by rewrite lookup_alter_ne. }
  destruct Hf as (i & -> & Hi & <-).
  assert (alter (fmap f) i (pm_partitions m) = <[i := Some (f p)]> (pm_partitions m)) as ->.
  { apply list_eq. intros j. destruct (decide (i = j)) as [<-|].
    - rewrite list_lookup_alter_eq, Hi, list_lookup_insert_eq; [done|]. by eapply lookup_lt_Some.
    - by rewrite list_lookup_alter_ne, list_lookup_insert_ne. }
  assert (∀ j q, <[i := Some (f p)]> (pm_partitions m) !! j = Some (Some q) →
    ∃ q0, pm_partitions m !! j = Some (Some q0) ∧ pt_id q = pt_id q0 ∧
      q = (if decide (j = i) then f q0 else q0)) as Hold.
  { intros j q [(-> & [= <-] & _)|(Hne & Hj)]%list_lookup_insert_Some.
    - exists p. by rewrite decide_True.
    - exists q. by rewrite decide_False. }
  split; cbn [pm_partitions pm_count pm_next_id ap_map ap_next].
  - rewrite length_insert. apply (pr_len m s Hr).
  - pose proof (count_by_insert is_some _ i _ (Some (f p)) Hi) as Hc. cbn in Hc.
    rewrite (pr_count m s Hr). lia.
  - rewrite <-size_dom, dom_alter_L, size_dom. apply (pr_size m s Hr).
  - apply (pr_next m s Hr).
  - intros id q Hq. apply lookup_alter_Some in Hq as [(<- & q0 & Hq0 & ->)|(Hne & Hq)].
    + exists i. assert (q0 = p) as -> by congruence. split; [|by rewrite Hfid].
      apply list_lookup_insert_eq. by eapply lookup_lt_Some.
    + apply (pr_some m s Hr) in Hq as (j & Hj & E'). exists j. split; [|done].
      rewrite list_lookup_insert_ne; [done|]. intros <-. congruence.
  - intros j q (q0 & Hq0 & E & ->)%Hold. rewrite E. destruct (decide (j = i)) as [->|Hne].
    + simplify_eq. by rewrite lookup_alter_eq, Hid.
    + rewrite lookup_alter_ne; [by eapply pr_slot|].
      intros E'. apply Hne. by eapply (pr_unique m s Hr).
  - intros j k q q' (q0 & Hq0 & E & _)%Hold (q0' & Hq0' & E' & _)%Hold Eq.
    apply (pr_unique m s Hr j k q0 q0'); congruence.
  - intros j q (q0 & Hq0 & E & _)%Hold. rewrite E. by eapply pr_fresh.
Qed.
End pm.

Lemma partition_manager_new_repr : pm_repr partition_manager_new (mkAbsPartitions ∅ 1).
Proof.
  assert (∀ i p, replicate MAX_PARTITIONS (None : option Partition) !! i ≠ Some (Some p)) as H.
  { intros i p [? _]%lookup_replicate. done. }
  split; cbn [pm_partitions pm_count pm_next_id ap_map ap_next partition_manager_new]; try done.
  all: intros; exfalso; by eapply H.
Qed.

Lemma pm_active_ids_map m s id :
  pm_repr m s → id ∈ active_ids m ↔ is_Some (ap_map s !! id).
Proof.
  intros Hr. unfold active_ids. rewrite list_elem_of_omap. split.
  - intros ([p|] & [i Hi]%list_elem_of_lookup & [= <-]). eexists. by eapply pr_slot.
  - intros [p (i & Hi & <-)%(pr_some m s Hr)]. exists (Some p). split; [|done].
    by eapply list_elem_of_lookup_2.
Qed.

(** *** Histories *)

(** The mutating calls; [get_mut] is the write its caller makes. *)
Inductive PmOp : Type :=
| PmCreate (ty : PartitionType) (vcpu_count epoch : Z)
| PmRemove (id : PartitionId)
| PmWrite (id : PartitionId) (f : Partition → Partition).

(** No caller writes through the borrow to the [id] field. *)
Definition pm_op_ok (op : PmOp) : Prop :=
  match op with PmWrite _ f => ∀ p, pt_id (f p) = pt_id p | _ => True end.

Definition pm_exec (op : PmOp) (m : PartitionManager) : result RvmError PartitionId * PartitionManager :=
  match op with
  | PmCreate ty v e => pm_create ty v e m
  | PmRemove id => let '(r, m') := pm_remove id m in (_ ← r; Ok id, m')
  | PmWrite id f => (Ok id, pm_update id f m)
  end.

(** The specification: a finite map of at most 256 partitions and a counter. *)
Definition ap_exec (op : PmOp) (s : AbsPartitions) : result RvmError PartitionId * AbsPartitions :=
  match op with
  | PmCreate ty v e =>
      if decide (size (ap_map s) < MAX_PARTITIONS)%nat
      then (Ok (ap_next s),
            mkAbsPartitions (<[ap_next s := partition_new (ap_next s) ty v e]> (ap_map s)) (ap_next s + 1))
      else (Err PartitionLimitExceeded, s)
  | PmRemove id =>
      match ap_map s !! id with
      | Some _ => (Ok id, mkAbsPartitions (delete id (ap_map s)) (ap_next s))
      | None => (Err PartitionNotFound, s)
      end
  | PmWrite id f => (Ok id, mkAbsPartitions (alter f id (ap_map s)) (ap_next s))
  end.

Fixpoint pm_run (ops : list PmOp) (m : PartitionManager) : list (result RvmError PartitionId) * PartitionManager :=
  match ops with
  | [] => ([], m)
  | op :: ops => let '(r, m) := pm_exec op m in let '(rs, m) := pm_run ops m in (r :: rs, m)
  end.

Fixpoint ap_run (ops : list PmOp) (s : AbsPartitions) : list (result RvmError PartitionId) * AbsPartitions :=
  match ops with
  | [] => ([], s)
  | op :: ops => let '(r, s) := ap_exec op s in let '(rs, s) := ap_run ops s in (r :: rs, s)
  end.

Lemma pm_exec_refines op m s :
  pm_repr m s → pm_op_ok op → 1 ≤ ap_next s < u32_max →
  (pm_exec op m).1 = (ap_exec op s).1 ∧ pm_repr (pm_exec op m).2 (ap_exec op s).2 ∧
  1 ≤ ap_next (ap_exec op s).2 ≤ ap_next s + 1.
Proof.
  intros Hr Hok Hn. destruct op as [ty v e|id|id f]; cbn [pm_exec ap_exec].
  - pose proof (pm_create_repr m s Hr ty v e) as H. rewrite (pr_next m s Hr) in H. specialize (H Hn).
    destruct (pm_create ty v e m) as [[id|err] m'].
    + destruct H as (-> & _ & Hsz & Hr'). rewrite decide_True by done. cbn. split_and!; [done|done|lia|lia].
    + destruct H as (-> & -> & Hsz). rewrite decide_False by lia. cbn. split_and!; [done|done|lia|lia].
  - pose proof (pm_remove_repr m s Hr id) as H. destruct (pm_remove id m) as [[[]|err] m'].
    + destruct H as ([p ->] & Hr'). cbn. split_and!; [done|done|lia|lia].
    + destruct H as (-> & -> & ->). cbn. split_and!; [done|done|lia|lia].
  - cbn. split_and!; [done|by apply pm_update_repr|lia|lia].
Qed.

Lemma pm_run_refines ops : ∀ m s,
  pm_repr m s → Forall pm_op_ok ops → 1 ≤ ap_next s → ap_next s + Z.of_nat (length ops) ≤ u32_max →
  (pm_run ops m).1 = (ap_run ops s).1 ∧ pm_repr (pm_run ops m).2 (ap_run ops s).2.
Proof.
  induction ops as [|op ops IH]; intros m s Hr Hok Hn Hlen; [done|].
  apply Forall_cons in Hok as [Hok Hoks]. cbn [length] in Hlen.
  destruct (pm_exec_refines op m s Hr Hok) as (Hres & Hr' & Hb); [lia|]. cbn [pm_run ap_run].
  destruct (pm_exec op m) as [r m'], (ap_exec op s) as [r' s']; cbn [fst snd] in *; subst r'.
  destruct (IH m' s' Hr' Hoks) as [Hrs Hr'']; [lia..|].
  destruct (pm_run ops m'), (ap_run ops s'); cbn in *. by subst.
Qed.

(** From an empty manager, any sequence of creations, removals and writes
    behaves as a finite map of at most 256 partitions with consecutive fresh
    ids: the same results and error codes, and afterwards [get] through the
    4096-entry index (or past it) agrees with the map on every id, [count] is
    its size and [active_ids] its domain.  Ids are never reused, so an index
    entry left by a removed partition is never believed. *)
Theorem partition_manager_refines_map (ops : list PmOp)
    (Hok : Forall pm_op_ok ops) (Hlen : Z.of_nat (length ops) < u32_max) :
  let m := pm_run ops partition_manager_new in
  let s := ap_run ops (mkAbsPartitions ∅ 1) in
  m.1 = s.1 ∧ (∀ id, pm_get id m.2 = ap_map s.2 !! id) ∧
  pm_count m.2 = size (ap_map s.2) ∧
  (∀ id, id ∈ active_ids m.2 ↔ is_Some (ap_map s.2 !! id)).
Proof.
  intros m s. destruct (pm_run_refines ops partition_manager_new (mkAbsPartitions ∅ 1)) as [Hres Hr];
    [apply partition_manager_new_repr|done|cbn; lia|cbn; lia|].
  split_and!; [done|by apply pm_get_map|by apply pr_size|intros; by apply pm_active_ids_map].
Qed.

Definition suspend_partition (p : Partition) : Partition :=
  mkPartition (pt_id p) Suspended (pt_type p) (pt_coherence p) (pt_cut_pressure p)
    (pt_vcpu_count p) (pt_cpu_affinity p) (pt_epoch p).

Lemma partition_manager_refines_map_witness :
  let m := pm_run [PmCreate Agent 2 0; PmCreate Root 1 0; PmRemove 1;
                   PmWrite 2 suspend_partition; PmRemove 1; PmCreate Agent 1 7] partition_manager_new in
  m.1 = [Ok 1; Ok 2; Ok 1; Ok 2; Err PartitionNotFound; Ok 3] ∧ pm_get 1 m.2 = None ∧
  pt_state <$> pm_get 2 m.2 = Some Suspended ∧ pm_count m.2 = 2%nat.
Proof.
  intros m.
  destruct (partition_manager_refines_map [PmCreate Agent 2 0; PmCreate Root 1 0; PmRemove 1;
    PmWrite 2 suspend_partition; PmRemove 1; PmCreate Agent 1 7]) as (Hres & Hget & Hcount & _).
  - repeat constructor.
  - vm_compute. reflexivity.
  - subst m. rewrite Hres, !Hget, Hcount. split_and!; vm_compute; reflexivity.
Defined.
