(* ===== verification/Sched.v ===== *)
(** The scheduler: [crates/rvm-sched/src] ([priority.rs], [epoch.rs],
    [per_cpu.rs], [modes.rs], [scheduler.rs], [smp.rs], [switch.rs]).

    Each CPU has a run queue of 32 entries kept as a binary max-heap; it is
    proved to behave as a bag from which the most urgent entry is taken.  The
    SMP coordinator tracks which CPU runs what; the switch context packs a
    VMID and a stage-2 table base in one register. *)

From stdpp Require Import base numbers list option sorting relations.
From Stdlib Require Import ZArith Lia.
From S2P Require Import Prelude.
From S2P Require Import Types.

(* ------------------------------------------------------------------ *)
(** ** Priorities, modes and epochs ([priority.rs], [modes.rs], [epoch.rs]) *)

Definition compute_priority (deadline_urgency : Z) (cut_pressure : CutPressure) : Z :=
  let pressure_boost := wrap16 (Z.min (Z.shiftr cut_pressure 16) u16_max) in
  wrap32 (deadline_urgency + pressure_boost).

Inductive SchedulerMode : Set := Reflex | Flow | Recovery.

Record EpochSummary : Set := mkEpochSummary {
  es_epoch : Z;
  es_switch_count : Z;
  es_runnable_count : Z;
}.

Record EpochTracker : Set := mkEpochTracker {
  et_current_epoch : Z;
  et_switch_count : Z;
}.

Definition epoch_tracker_new : EpochTracker := mkEpochTracker 0 0.

Definition record_switch (t : EpochTracker) : EpochTracker :=
  mkEpochTracker (et_current_epoch t) (sat_add u16_max (et_switch_count t) 1).

Definition epoch_advance (runnable_count : Z) (t : EpochTracker) : EpochSummary * EpochTracker :=
  (mkEpochSummary (et_current_epoch t) (et_switch_count t) runnable_count,
   mkEpochTracker (wrap32 (et_current_epoch t + 1)) 0).

(* ------------------------------------------------------------------ *)
(** ** Run queues ([scheduler.rs]) *)

Definition MAX_RUN_QUEUE : nat := 32.

Record RunQueueEntry : Set := mkRunQueueEntry {
  rq_partition_id : PartitionId;
  rq_deadline_urgency : Z;
  rq_cut_pressure : CutPressure;
  rq_priority : Z;
}.

Definition RQ_EMPTY : RunQueueEntry := mkRunQueueEntry HYPERVISOR 0 PRESSURE_ZERO 0.

Definition rq_is_empty (e : RunQueueEntry) : bool := is_hypervisor (rq_partition_id e).

Definition queue_at (q : list RunQueueEntry) (i : nat) : RunQueueEntry := default RQ_EMPTY (q !! i).

(** [queue.swap(i, j)]. *)
Definition swap (i j : nat) (q : list RunQueueEntry) : list RunQueueEntry :=
  <[i := queue_at q j]> (<[j := queue_at q i]> q).

(** The sift-up loop of [enqueue]. *)
Fixpoint sift_up (fuel : nat) (queue : list RunQueueEntry) (pos : nat) : option (list RunQueueEntry) :=
  match fuel with
  | O => None
  | S fuel =>
      if (0 <? pos)%nat then
        let parent := ((pos - 1) `div` 2)%nat in
        if rq_priority (queue_at queue parent) <? rq_priority (queue_at queue pos)
        then sift_up fuel (swap pos parent queue) parent
        else Some queue
      else Some queue
  end.

(** The sift-down loop of [switch_next]. *)
Fixpoint sift_down (fuel : nat) (queue : list RunQueueEntry) (new_len pos : nat) : option (list RunQueueEntry) :=
  match fuel with
  | O => None
  | S fuel =>
      let left := (2 * pos + 1)%nat in
      let right := (2 * pos + 2)%nat in
      let largest := pos in
      let largest :=
        if (left <? new_len)%nat && (rq_priority (queue_at queue largest) <? rq_priority (queue_at queue left))
        then left else largest in
      let largest :=
        if (right <? new_len)%nat && (rq_priority (queue_at queue largest) <? rq_priority (queue_at queue right))
        then right else largest in
      if (largest =? pos)%nat then Some queue
      else sift_down fuel (swap pos largest queue) new_len largest
  end.

Definition heap_push (fuel : nat) (entry : RunQueueEntry) (queue : list RunQueueEntry) (len : nat)
    : option (list RunQueueEntry) :=
  sift_up fuel (<[len := entry]> queue) len.

Definition heap_pop (fuel : nat) (queue : list RunQueueEntry) (len : nat) : option (list RunQueueEntry) :=
  let queue := if (1 <? len)%nat then <[0%nat := queue_at queue (len - 1)]> queue else queue in
  sift_down fuel (<[(len - 1)%nat := RQ_EMPTY]> queue) (len - 1) 0.

(** ** The scheduler *)

Record PerCpuScheduler : Set := mkPerCpuScheduler {
  pc_cpu_id : Z;
  pc_current : option PartitionId;
  pc_mode : SchedulerMode;
  pc_idle : bool;
}.

Definition per_cpu_new (cpu_id : Z) : PerCpuScheduler := mkPerCpuScheduler cpu_id None Flow true.

Record Scheduler : Set := mkScheduler {
  sc_per_cpu : list PerCpuScheduler;
  sc_run_queues : list (list RunQueueEntry);
  sc_queue_lens : list nat;
  sc_mode : SchedulerMode;
  sc_epoch : EpochTracker;
  sc_degraded : bool;
}.

Definition scheduler_new (max_cpus : nat) : Scheduler :=
  mkScheduler ((λ i, per_cpu_new (wrap16 (Z.of_nat i))) <$> seq 0 max_cpus)
    (replicate max_cpus (replicate MAX_RUN_QUEUE RQ_EMPTY)) (replicate max_cpus 0%nat)
    Flow epoch_tracker_new false.

Definition set_mode (mode : SchedulerMode) (s : Scheduler) : Scheduler :=
  mkScheduler (sc_per_cpu s) (sc_run_queues s) (sc_queue_lens s) mode (sc_epoch s) (sc_degraded s).

Definition set_degraded (b : bool) (s : Scheduler) : Scheduler :=
  mkScheduler (sc_per_cpu s) (sc_run_queues s) (sc_queue_lens s) (sc_mode s) (sc_epoch s) b.
Definition enter_degraded : Scheduler → Scheduler := set_degraded true.
Definition exit_degraded : Scheduler → Scheduler := set_degraded false.

Definition tick_epoch (s : Scheduler) : EpochSummary * Scheduler :=
  let runnable := foldl (λ a l, wrap32 (a + wrap32 (Z.of_nat l))) 0 (sc_queue_lens s) in
  let clamped := if u16_max <? runnable then u16_max else wrap16 runnable in
  let '(summary, epoch) := epoch_advance clamped (sc_epoch s) in
  (summary, mkScheduler (sc_per_cpu s) (sc_run_queues s) (sc_queue_lens s) (sc_mode s) epoch (sc_degraded s)).

Definition make_entry (degraded : bool) (pid : PartitionId) (urgency : Z) (pressure : CutPressure) : RunQueueEntry :=
  let effective_pressure := if degraded then PRESSURE_ZERO else pressure in
  mkRunQueueEntry pid urgency effective_pressure (compute_priority urgency effective_pressure).

Definition enqueue (fuel cpu : nat) (partition_id : PartitionId) (deadline_urgency : Z)
    (cut_pressure : CutPressure) (s : Scheduler) : option (bool * Scheduler) :=
  match sc_queue_lens s !! cpu, sc_run_queues s !! cpu with
  | Some len, Some queue =>
      if (MAX_RUN_QUEUE <=? len)%nat then Some (false, s)
      else
        let entry := make_entry (sc_degraded s) partition_id deadline_urgency cut_pressure in
        queue ← heap_push fuel entry queue len;
        Some (true, mkScheduler (sc_per_cpu s) (<[cpu := queue]> (sc_run_queues s))
                      (<[cpu := (len + 1)%nat]> (sc_queue_lens s)) (sc_mode s) (sc_epoch s) (sc_degraded s))
  | _, _ => Some (false, s)
  end.

Definition run_on (pid : PartitionId) (pc : PerCpuScheduler) : PerCpuScheduler :=
  mkPerCpuScheduler (pc_cpu_id pc) (Some pid) (pc_mode pc) false.

Definition switch_next (fuel cpu : nat) (s : Scheduler)
    : option (option (option PartitionId * PartitionId) * Scheduler) :=
  match sc_queue_lens s !! cpu, sc_run_queues s !! cpu with
  | Some len, Some queue =>
      if (len =? 0)%nat then Some (None, s)
      else
        let entry := queue_at queue 0 in
        if rq_is_empty entry then Some (None, s)
        else
          queue ← heap_pop fuel queue len;
          let old := sc_per_cpu s !! cpu ≫= pc_current in
          Some (Some (old, rq_partition_id entry),
                mkScheduler (alter (run_on (rq_partition_id entry)) cpu (sc_per_cpu s))
                  (<[cpu := queue]> (sc_run_queues s)) (<[cpu := (len - 1)%nat]> (sc_queue_lens s))
                  (sc_mode s) (record_switch (sc_epoch s)) (sc_degraded s))
  | _, _ => Some (None, s)
  end.

Definition sched_queue_len (s : Scheduler) (cpu : nat) : nat := default O (sc_queue_lens s !! cpu).

(* ------------------------------------------------------------------ *)
(** ** The SMP coordinator ([smp.rs]) *)

Record CpuState : Set := mkCpuState {
  cs_cpu_id : Z;
  cs_online : bool;
  cs_current_partition : option PartitionId;
  cs_idle : bool;
  cs_epoch_ticks : Z;
}.

Definition cpu_offline (cpu_id : Z) : CpuState := mkCpuState cpu_id false None true 0.

Record SmpCoordinator : Set := mkSmpCoordinator {
  sm_cpu_states : list CpuState;
  sm_cpu_count : Z;
}.

Definition smp_new (max_cpus : nat) (cpu_count : Z) : SmpCoordinator :=
  let clamped := if Z.of_nat max_cpus <? cpu_count then wrap16 (Z.of_nat max_cpus) else cpu_count in
  mkSmpCoordinator ((λ i, cpu_offline (wrap8 (Z.of_nat i))) <$> seq 0 max_cpus) clamped.

(** Run [op] on the state of a CPU, as through [get_state_mut]. *)
Definition with_cpu {A} (cpu_id : Z) (op : prog CpuState RvmError A) : prog SmpCoordinator RvmError A := λ m,
  match get_at (sm_cpu_states m) cpu_id with
  | None => (Err ResourceLimitExceeded, m)
  | Some st =>
      let '(r, st') := op st in
      (r, mkSmpCoordinator (<[Z.to_nat cpu_id := st']> (sm_cpu_states m)) (sm_cpu_count m))
  end.

Definition bring_online (cpu_id : Z) : prog SmpCoordinator RvmError unit := λ m,
  if sm_cpu_count m <=? cpu_id then (Err ResourceLimitExceeded, m)
  else with_cpu cpu_id (λ st,
    if cs_online st then (Err InvalidPartitionState, st)
    else (Ok tt, mkCpuState (cs_cpu_id st) true None true (cs_epoch_ticks st))) m.

Definition take_offline (cpu_id : Z) : prog SmpCoordinator RvmError unit :=
  with_cpu cpu_id (λ st,
    if negb (cs_online st) then (Err InvalidPartitionState, st)
    else if is_some (cs_current_partition st) then (Err InvalidPartitionState, st)
    else (Ok tt, mkCpuState (cs_cpu_id st) false (cs_current_partition st) true (cs_epoch_ticks st))).

Definition assign_partition (cpu_id : Z) (partition : PartitionId) : prog SmpCoordinator RvmError unit :=
  with_cpu cpu_id (λ st,
    if negb (cs_online st) then (Err InvalidPartitionState, st)
    else if is_some (cs_current_partition st) then (Err InvalidPartitionState, st)
    else (Ok tt, mkCpuState (cs_cpu_id st) (cs_online st) (Some partition) false
                   (sat_add u64_max (cs_epoch_ticks st) 1))).

Definition release_partition (cpu_id : Z) (m : SmpCoordinator) : option PartitionId * SmpCoordinator :=
  match with_cpu cpu_id (λ st,
    let prev := cs_current_partition st in
    (Ok prev, mkCpuState (cs_cpu_id st) (cs_online st) None
                (if is_some prev then true else cs_idle st) (cs_epoch_ticks st))) m with
  | (Ok prev, m) => (prev, m)
  | (Err _, m) => (None, m)
  end.

Definition find_idle_cpu (m : SmpCoordinator) : option Z :=
  cs_cpu_id <$> find_by (λ st, cs_online st && cs_idle st) (sm_cpu_states m).

Definition partition_affinity (partition : PartitionId) (m : SmpCoordinator) : option Z :=
  cs_cpu_id <$> find_by (λ st, cs_online st && is_some_and (Z.eqb partition) (cs_current_partition st))
                  (sm_cpu_states m).

Definition active_count (m : SmpCoordinator) : Z :=
  wrap16 (Z.of_nat (count_by cs_online (sm_cpu_states m))).

(** [Iterator::max_by_key]: the last of the elements with the greatest key. *)
Definition max_by_ticks (l : list CpuState) : option CpuState :=
  foldl (λ best st,
    match best with
    | Some b => if cs_epoch_ticks st <? cs_epoch_ticks b then Some b else Some st
    | None => Some st
    end) None l.

Definition busy_cpu (st : CpuState) : bool := cs_online st && is_some (cs_current_partition st).

Definition rebalance_hint (m : SmpCoordinator) : option (Z * Z) :=
  idle_cpu ← find_idle_cpu m;
  overloaded ← max_by_ticks (List.filter busy_cpu (sm_cpu_states m));
  Some (cs_cpu_id overloaded, idle_cpu).

(* ------------------------------------------------------------------ *)
(** ** The switch context ([switch.rs]) *)

Record SwitchContext : Set := mkSwitchContext {
  sw_vttbr_el2 : Z;
  sw_elr_el2 : Z;
  sw_spsr_el2 : Z;
  sw_sp_el1 : Z;
  sw_gp_regs : list Z;
}.

Definition switch_context_new : SwitchContext := mkSwitchContext 0 0 0 0 (replicate 31 0).

Definition S2_BASE_MASK : Z := 0x0000FFFFFFFFFFFE.
Definition HYPERVISOR_BASE : Z := 0xFFFF000000000000.

Definition switch_context_init (entry_point stack_pointer vmid s2_table_base : Z) (c : SwitchContext) : SwitchContext :=
  mkSwitchContext (Z.lor (wrap64 (Z.shiftl vmid 48)) (Z.land s2_table_base S2_BASE_MASK))
    entry_point 0x3C5 stack_pointer (sw_gp_regs c).

Definition context_vmid (c : SwitchContext) : Z := wrap16 (Z.shiftr (sw_vttbr_el2 c) 48).
Definition s2_table_base (c : SwitchContext) : Z := Z.land (sw_vttbr_el2 c) S2_BASE_MASK.
Definition is_valid_entry (c : SwitchContext) : bool :=
  negb (sw_elr_el2 c =? 0) && negb (sw_vttbr_el2 c =? 0).

Definition validate_for_switch (c : SwitchContext) : RvmResult unit :=
  if sw_elr_el2 c =? 0 then Err InvalidPartitionState
  else if HYPERVISOR_BASE <=? sw_elr_el2 c then Err InvalidPartitionState
  else Ok tt.

Record SwitchResult : Set := mkSwitchResult {
  sr_from_vmid : Z;
  sr_to_vmid : Z;
  sr_elapsed_ns : Z;
}.

Definition partition_switch (from to : SwitchContext) : RvmResult SwitchResult :=
  _ ← validate_for_switch to;
  Ok (mkSwitchResult (context_vmid from) (context_vmid to) 0).

(* ------------------------------------------------------------------ *)
(** ** The heap *)

Definition parent (i : nat) : nat := ((i - 1) `div` 2)%nat.

Lemma parent_iff i k : (0 < i)%nat → parent i = k ↔ i = (2 * k + 1)%nat ∨ i = (2 * k + 2)%nat.
Proof.
  intros Hi. unfold parent. pose proof (Nat.div_mod_eq (i - 1) 2).
  pose proof (Nat.mod_upper_bound (i - 1) 2 ltac:(lia)). lia.
Qed.

Lemma parent_lt i : (0 < i)%nat → (parent i < i)%nat.
Proof. intros Hi. pose proof (proj1 (parent_iff i (parent i) Hi) eq_refl). lia. Qed.

(** The priority at an index, and the order of the first [n] entries. *)
Definition prio (q : list RunQueueEntry) (i : nat) : Z := rq_priority (queue_at q i).

Definition heap_ordered (p : nat → Z) (n : nat) : Prop :=
  ∀ i, (0 < i < n)%nat → p i ≤ p (parent i).

(** In order except that the entry at [pos] may exceed its parent. *)
Definition up_ok (p : nat → Z) (n pos : nat) : Prop :=
  (∀ i, (0 < i < n)%nat → i ≠ pos → p i ≤ p (parent i)) ∧
  ((0 < pos)%nat → ∀ i, (0 < i < n)%nat → parent i = pos → p i ≤ p (parent pos)).

(** In order except that the entry at [pos] may be below its children. *)
Definition down_ok (p : nat → Z) (n pos : nat) : Prop :=
  (∀ i, (0 < i < n)%nat → parent i ≠ pos → p i ≤ p (parent i)) ∧
  ((0 < pos)%nat → ∀ i, (0 < i < n)%nat → parent i = pos → p i ≤ p (parent pos)).

Definition swapped (p : nat → Z) (i j k : nat) : Z :=
  if decide (k = i) then p j else if decide (k = j) then p i else p k.

Lemma heap_root_max p n : heap_ordered p n → ∀ i, (i < n)%nat → p i ≤ p 0%nat.
Proof.
  intros Hh i. induction i as [i IH] using lt_wf_ind. intros Hi.
  destruct (decide (i = 0%nat)) as [->|]; [lia|]. pose proof (parent_lt i ltac:(lia)).
  etrans; [apply Hh; lia|]. apply IH; lia.
Qed.

Lemma up_ok_swap p n pos :
  (0 < pos < n)%nat → up_ok p n pos → p (parent pos) < p pos →
  up_ok (swapped p pos (parent pos)) n (parent pos).
Proof.
  intros Hpos [H1 H2] Hlt. pose proof (parent_lt pos ltac:(lia)) as Hpp. unfold swapped. split.
  - intros i Hi Hne. pose proof (parent_lt i ltac:(lia)).
    destruct (decide (i = pos)) as [->|Hip].
    { rewrite decide_False by lia. rewrite decide_True by done. lia. }
    rewrite (decide_False (P := i = parent pos)) by done.
    pose proof (H1 i ltac:(lia) Hip) as Hq.
    case_decide as E; [by apply H2; [lia|lia|]|].
    case_decide as E'; [rewrite E' in Hq; lia|done].
  - intros H0 i Hi Hpi. pose proof (parent_lt i ltac:(lia)).
    pose proof (parent_lt (parent pos) H0).
    pose proof (H1 (parent pos) ltac:(lia) ltac:(lia)).
    rewrite (decide_False (P := parent (parent pos) = pos)) by lia.
    rewrite (decide_False (P := parent (parent pos) = parent pos)) by lia.
    destruct (decide (i = pos)) as [->|Hip]; [done|].
    rewrite decide_False by lia. pose proof (H1 i ltac:(lia) Hip) as Hq. rewrite Hpi in Hq. lia.
Qed.

Lemma down_ok_swap p n pos c :
  (0 < c < n)%nat → parent c = pos → down_ok p n pos → p pos < p c →
  (∀ i, (0 < i < n)%nat → parent i = pos → p i ≤ p c) →
  down_ok (swapped p pos c) n c.
Proof.
  intros Hc Hpc [H1 H2] Hlt Hmax. pose proof (parent_lt c ltac:(lia)) as Hpp. unfold swapped. split.
  - intros i Hi Hne. pose proof (parent_lt i ltac:(lia)).
    rewrite (decide_False (P := parent i = c)) by done.
    destruct (decide (i = pos)) as [->|Hip].
    { rewrite decide_False by lia. apply H2; [lia|lia|done]. }
    destruct (decide (i = c)) as [->|Hic]; [rewrite decide_True by done; lia|].
    case_decide; [by apply Hmax|]. by apply H1.
  - intros _ i Hi Hpi. pose proof (parent_lt i ltac:(lia)).
    rewrite (decide_False (P := i = pos)), (decide_False (P := i = c)) by lia.
    rewrite (decide_True (P := parent c = pos)) by done. rewrite <-Hpi. apply H1; lia.
Qed.

(** *** Swapping entries *)

Lemma insert_Permutation {A} (l : list A) i x y : l !! i = Some x → x :: <[i:=y]> l ≡ₚ y :: l.
Proof.
  intros Hi. assert (<[i:=y]> l !! i = Some y) as Hy.
  { apply list_lookup_insert_eq. by eapply lookup_lt_Some. }
  assert (delete i (<[i:=y]> l) = delete i l) as Hdel.
  { rewrite !delete_take_drop, take_insert_ge, drop_insert_lt by lia. done. }
  apply delete_Permutation in Hy. rewrite Hdel in Hy. apply delete_Permutation in Hi.
  etrans; [by apply perm_skip|]. etrans; [apply perm_swap|]. by apply perm_skip.
Qed.

Lemma queue_at_lookup q i : (i < length q)%nat → q !! i = Some (queue_at q i).
Proof. intros [x Hx]%lookup_lt_is_Some. unfold queue_at. by rewrite Hx. Qed.

Lemma swap_length i j q : length (swap i j q) = length q.
Proof. unfold swap. by rewrite !length_insert. Qed.

Lemma swap_prio i j q k :
  (i < length q)%nat → (j < length q)%nat → prio (swap i j q) k = swapped (prio q) i j k.
Proof.
  intros Hi Hj. unfold prio, swapped, swap. unfold queue_at at 1.
  destruct (decide (k = i)) as [->|].
  { by rewrite list_lookup_insert_eq by by rewrite length_insert. }
  rewrite list_lookup_insert_ne by done. destruct (decide (k = j)) as [->|].
  - by rewrite list_lookup_insert_eq.
  - by rewrite list_lookup_insert_ne.
Qed.

Lemma swap_Permutation i j q : (i < length q)%nat → (j < length q)%nat → swap i j q ≡ₚ q.
Proof.
  intros Hi Hj. unfold swap. apply (Permutation_cons_inv (a := queue_at q i)).
  destruct (decide (i = j)) as [<-|Hne].
  - rewrite list_insert_insert_eq. apply insert_Permutation. by apply queue_at_lookup.
  - rewrite (insert_Permutation (<[j:=queue_at q i]> q) i (queue_at q i)).
    2: { rewrite list_lookup_insert_ne by done. by apply queue_at_lookup. }
    apply insert_Permutation. by apply queue_at_lookup.
Qed.

Lemma queue_at_take n q i : (i < n)%nat → queue_at (take n q) i = queue_at q i.
Proof. intros. unfold queue_at. by rewrite lookup_take_lt. Qed.

Lemma swap_take n i j q : (i < n)%nat → (j < n)%nat → take n (swap i j q) = swap i j (take n q).
Proof. intros. unfold swap. rewrite !take_insert_lt, !queue_at_take by done. done. Qed.

Lemma swap_drop n i j q : (i < n)%nat → (j < n)%nat → drop n (swap i j q) = drop n q.
Proof. intros. unfold swap. by rewrite !drop_insert_lt. Qed.

(** What a sift does to a queue whose first [n] entries are in use. *)
Record sifted (n : nat) (q q' : list RunQueueEntry) : Prop := {
  si_heap : heap_ordered (prio q') n;
  si_perm : take n q' ≡ₚ take n q;
  si_drop : drop n q' = drop n q;
  si_len : length q' = length q;
}.

Lemma sifted_swap n i j q q' :
  (i < n)%nat → (j < n)%nat → (n ≤ length q)%nat → sifted n (swap i j q) q' → sifted n q q'.
Proof.
  intros Hi Hj Hn [Hh Hp Hd Hl]. split; [done| | |].
  - rewrite Hp, swap_take by done. apply swap_Permutation; rewrite length_take; lia.
  - rewrite Hd. by apply swap_drop.
  - by rewrite Hl, swap_length.
Qed.

Lemma sift_up_spec fuel : ∀ q n pos,
  (n ≤ length q)%nat → (pos < n)%nat → (pos < fuel)%nat → up_ok (prio q) n pos →
  ∃ q', sift_up fuel q pos = Some q' ∧ sifted n q q'.
Proof.
  induction fuel as [|fuel IH]; intros q n pos Hn Hpos Hf Hup; [lia|]. cbn [sift_up].
  fold (parent pos). fold (prio q (parent pos)). fold (prio q pos).
  destruct (0 <? pos)%nat eqn:E0; split_bool.
  2: { exists q. split; [done|]. split; try done. intros i Hi. apply Hup; lia. }
  pose proof (parent_lt pos E0) as Hlt.
  destruct (prio q (parent pos) <? prio q pos) eqn:E; split_bool.
  - destruct (IH (swap pos (parent pos) q) n (parent pos)) as (q' & Hq' & Hs);
      [by rewrite swap_length|lia|lia| |].
    + pose proof (up_ok_swap _ n pos ltac:(lia) Hup E) as [Ha Hb].
      split; intros; rewrite !swap_prio by lia; auto.
    + exists q'. split; [done|]. by apply (sifted_swap n pos (parent pos)); try lia.
  - exists q. split; [done|]. split; try done. intros i Hi.
    destruct (decide (i = pos)) as [->|]; [done|]. by apply Hup.
Qed.

(** The child chosen by the sift-down step. *)
Definition largest_child (q : list RunQueueEntry) (n pos : nat) : nat :=
  let l := if (2 * pos + 1 <? n)%nat && (prio q pos <? prio q (2 * pos + 1))
           then (2 * pos + 1)%nat else pos in
  if (2 * pos + 2 <? n)%nat && (prio q l <? prio q (2 * pos + 2)) then (2 * pos + 2)%nat else l.

Lemma largest_child_spec q n pos :
  (∀ i, (0 < i < n)%nat → parent i = pos → prio q i ≤ prio q (largest_child q n pos)) ∧
  (largest_child q n pos = pos ∨
   (0 < largest_child q n pos < n)%nat ∧ parent (largest_child q n pos) = pos ∧
   prio q pos < prio q (largest_child q n pos)).
Proof.
  unfold largest_child.
  destruct (Nat.ltb_spec (2 * pos + 1) n), (Z.ltb_spec (prio q pos) (prio q (2 * pos + 1))),
    (Nat.ltb_spec (2 * pos + 2) n); cbn [andb]; try case Z.ltb_spec; intros; split.
  all: try (intros i Hi Hp; apply (parent_iff i pos) in Hp; [|lia]; destruct Hp as [-> | ->]; lia).
  all: try (by left).
  all: right; split; [lia|]; split; [apply parent_iff; lia|lia].
Qed.

Lemma sift_down_spec fuel : ∀ q n pos,
  (n ≤ length q)%nat → (pos ≤ n)%nat → (n < fuel + pos)%nat → down_ok (prio q) n pos →
  ∃ q', sift_down fuel q n pos = Some q' ∧ sifted n q q'.
Proof.
  induction fuel as [|fuel IH]; intros q n pos Hn Hpos Hf Hd; [lia|]. cbn [sift_down].
  change (if (2 * pos + 2 <? n)%nat && _ then _ else _) with (largest_child q n pos).
  destruct (largest_child_spec q n pos) as [Hmax [E|(Hc & Hpc & Hlt)]].
  - rewrite E, Nat.eqb_refl in *. exists q. split; [done|]. split; try done. intros i Hi.
    destruct (decide (parent i = pos)) as [<-|]; [by apply Hmax|by apply Hd].
  - set (c := largest_child q n pos) in *. pose proof (parent_lt c ltac:(lia)) as Hcp.
    replace (c =? pos)%nat with false by (symmetry; apply Nat.eqb_neq; lia).
    destruct (IH (swap pos c q) n c) as (q' & Hq' & Hs); [by rewrite swap_length|lia|lia| |].
    + pose proof (down_ok_swap _ n pos c Hc Hpc Hd Hlt Hmax) as [Ha Hb].
      split; intros; rewrite !swap_prio by lia; auto.
    + exists q'. split; [done|]. by apply (sifted_swap n pos c); try lia.
Qed.

(* ------------------------------------------------------------------ *)
(** ** Run queues *)

(** A 32-slot queue whose first [len] entries are a heap and whose other
    slots hold the sentinel. *)
Record queue_ok (q : list RunQueueEntry) (len : nat) : Prop := {
  qo_length : length q = MAX_RUN_QUEUE;
  qo_len : (len ≤ MAX_RUN_QUEUE)%nat;
  qo_heap : heap_ordered (prio q) len;
  qo_rest : drop len q = replicate (MAX_RUN_QUEUE - len) RQ_EMPTY;
}.

Lemma queue_ok_empty : queue_ok (replicate MAX_RUN_QUEUE RQ_EMPTY) 0.
Proof. split; [done|unfold MAX_RUN_QUEUE; lia|intros i Hi; lia|done]. Qed.

Lemma prio_insert_ne q i j e : i ≠ j → prio (<[i:=e]> q) j = prio q j.
Proof. intros. unfold prio, queue_at. by rewrite list_lookup_insert_ne. Qed.

Lemma heap_push_spec fuel e q len :
  queue_ok q len → (len < MAX_RUN_QUEUE)%nat → (len < fuel)%nat →
  ∃ q', heap_push fuel e q len = Some q' ∧ queue_ok q' (len + 1) ∧
    take (len + 1) q' ≡ₚ e :: take len q.
Proof.
  intros [Hl Hn Hh Hr] Hlt Hf. unfold heap_push.
  destruct (sift_up_spec fuel (<[len:=e]> q) (len + 1) len) as (q' & Hq' & [Hh' Hp Hd Hl']);
    [rewrite length_insert; lia|lia|done| |].
  - split.
    + intros i Hi Hne. pose proof (parent_lt i ltac:(lia)).
      rewrite !prio_insert_ne by lia. apply Hh. lia.
    + intros H0 i Hi Hpi. pose proof (parent_lt i ltac:(lia)). lia.
  - exists q'. split; [done|]. rewrite length_insert in Hl'. split.
    + split; [lia|lia|done|]. rewrite Hd, drop_insert_lt by lia.
      rewrite <-drop_drop, Hr.
      by replace (MAX_RUN_QUEUE - len)%nat with (S (MAX_RUN_QUEUE - (len + 1)))%nat by lia.
    + rewrite Hp. replace (len + 1)%nat with (S len) by lia.
      rewrite (take_S_r _ _ e) by (apply list_lookup_insert_eq; lia).
      rewrite take_insert_ge by lia. by rewrite Permutation_app_comm.
Qed.

Lemma heap_pop_spec fuel q len :
  queue_ok q len → (0 < len)%nat → (len ≤ fuel)%nat →
  ∃ q', heap_pop fuel q len = Some q' ∧ queue_ok q' (len - 1) ∧
    take len q ≡ₚ queue_at q 0 :: take (len - 1) q'.
Proof.
  intros [Hl Hn Hh Hr] H0 Hf. unfold heap_pop.
  set (q1 := if (1 <? len)%nat then <[0%nat := queue_at q (len - 1)]> q else q).
  assert (length q1 = length q) as Hl1 by (subst q1; case_match; by rewrite ?length_insert).
  assert (∀ i, (0 < i)%nat → prio q1 i = prio q i) as Hpr.
  { intros i Hi. subst q1. case_match; [apply prio_insert_ne; lia|done]. }
  assert (drop len q1 = drop len q) as Hd1.
  { subst q1. case_match; [|done]. rewrite drop_insert_lt by lia. done. }
  destruct (sift_down_spec fuel (<[(len - 1)%nat:=RQ_EMPTY]> q1) (len - 1) 0)
    as (q' & Hq' & [Hh' Hp Hd Hl']); [rewrite length_insert; lia|lia|lia| |].
  { split; [|lia]. intros i Hi Hne. pose proof (parent_lt i ltac:(lia)).
    rewrite !prio_insert_ne by lia. rewrite !Hpr by lia. apply Hh. lia. }
  exists q'. split; [done|]. rewrite length_insert in Hl'. split.
  - split; [lia|lia|done|]. rewrite Hd.
    rewrite (drop_S _ RQ_EMPTY) by (apply list_lookup_insert_eq; lia).
    rewrite drop_insert_lt by lia. replace (S (len - 1)) with len by lia. rewrite Hd1, Hr.
    by replace (MAX_RUN_QUEUE - (len - 1))%nat with (S (MAX_RUN_QUEUE - len))%nat by lia.
  - rewrite Hp, take_insert_ge by lia. subst q1.
    replace len with (S (len - 1)) at 1 by lia.
    rewrite (take_S_r _ _ (queue_at q (len - 1))) by (apply queue_at_lookup; lia).
    destruct (1 <? len)%nat eqn:E; split_bool.
    + rewrite take_insert_lt by lia. rewrite (insert_Permutation _ _ (queue_at q 0)).
      * by rewrite Permutation_app_comm.
      * rewrite lookup_take_lt by lia. apply queue_at_lookup. lia.
    + replace (len - 1)%nat with 0%nat by lia. done.
Qed.

(* ------------------------------------------------------------------ *)
(** ** The scheduler: invariant and specifications *)

(** The runnable entries of a CPU, as a bag. *)
Definition run_bag (s : Scheduler) (cpu : nat) : list RunQueueEntry :=
  take (sched_queue_len s cpu) (default [] (sc_run_queues s !! cpu)).

Definition cached_priority (e : RunQueueEntry) : Prop :=
  rq_priority e = compute_priority (rq_deadline_urgency e) (rq_cut_pressure e).

Record sched_inv (s : Scheduler) : Prop := {
  sv_cpus : length (sc_per_cpu s) = length (sc_queue_lens s);
  sv_queues : length (sc_run_queues s) = length (sc_queue_lens s);
  sv_queue cpu q len : sc_run_queues s !! cpu = Some q → sc_queue_lens s !! cpu = Some len → queue_ok q len;
  sv_cached cpu : Forall cached_priority (run_bag s cpu);
  sv_idle cpu pc : sc_per_cpu s !! cpu = Some pc → pc_idle pc = is_none (pc_current pc);
}.

Lemma run_bag_insert s cpu q len per mode epoch deg c :
  (cpu < length (sc_run_queues s))%nat → (cpu < length (sc_queue_lens s))%nat →
  run_bag (mkScheduler per (<[cpu:=q]> (sc_run_queues s)) (<[cpu:=len]> (sc_queue_lens s)) mode epoch deg) c =
  if decide (c = cpu) then take len q else run_bag s c.
Proof.
  intros Hq Hn. unfold run_bag, sched_queue_len. cbn [sc_run_queues sc_queue_lens].
  destruct (decide (c = cpu)) as [->|].
  - by rewrite !list_lookup_insert_eq.
  - by rewrite !list_lookup_insert_ne.
Qed.

(** Replacing one CPU's queue keeps the invariant. *)
Lemma sched_inv_set_queue s cpu q len per mode epoch deg :
  sched_inv s → (cpu < length (sc_queue_lens s))%nat → queue_ok q len →
  Forall cached_priority (take len q) → length per = length (sc_per_cpu s) →
  (∀ c pc, per !! c = Some pc → pc_idle pc = is_none (pc_current pc)) →
  sched_inv (mkScheduler per (<[cpu:=q]> (sc_run_queues s)) (<[cpu:=len]> (sc_queue_lens s)) mode epoch deg).
Proof.
  intros [H1 H2 H3 H4 H5] Hc Hq Hcp Hper Hidle.
  split; cbn [sc_per_cpu sc_run_queues sc_queue_lens]; rewrite ?length_insert; try lia; [| |done].
  - intros c q' len' [(<- & <- & _)|(Hne & Hq')]%list_lookup_insert_Some [(E & <- & _)|(Hne' & Hl')]%list_lookup_insert_Some;
      try done. by eapply H3.
  - intros c. rewrite run_bag_insert by lia. by case_decide.
Qed.

Lemma make_entry_cached deg pid u p : cached_priority (make_entry deg pid u p).
Proof. done. Qed.

Lemma enqueue_spec fuel cpu pid urgency pressure s :
  sched_inv s → (MAX_RUN_QUEUE ≤ fuel)%nat →
  ∃ b s', enqueue fuel cpu pid urgency pressure s = Some (b, s') ∧ sched_inv s' ∧
    sc_per_cpu s' = sc_per_cpu s ∧ sc_degraded s' = sc_degraded s ∧
    (if b then
       run_bag s' cpu ≡ₚ make_entry (sc_degraded s) pid urgency pressure :: run_bag s cpu ∧
       ∀ c, c ≠ cpu → run_bag s' c = run_bag s c
     else s' = s ∧ ((length (sc_queue_lens s) ≤ cpu)%nat ∨ length (run_bag s cpu) = MAX_RUN_QUEUE)).
Proof.
  intros Hi Hf. unfold enqueue.
  destruct (sc_queue_lens s !! cpu) as [len|] eqn:Hlen.
  2: { exists false, s. split_and!; try done. left. by apply lookup_ge_None. }
  assert (cpu < length (sc_queue_lens s))%nat as Hc by by eapply lookup_lt_Some.
  destruct (lookup_lt_is_Some_2 (sc_run_queues s) cpu) as [q Hq]; [by rewrite (sv_queues s Hi)|].
  rewrite Hq. pose proof (sv_queue s Hi cpu q len Hq Hlen) as Hok.
  destruct (MAX_RUN_QUEUE <=? len)%nat eqn:E; split_bool.
  { exists false, s. split_and!; try done. right. unfold run_bag, sched_queue_len. rewrite Hq, Hlen. cbn.
    rewrite length_take, (qo_length q len Hok). pose proof (qo_len q len Hok). lia. }
  destruct (heap_push_spec fuel (make_entry (sc_degraded s) pid urgency pressure) q len Hok E ltac:(lia))
    as (q' & -> & Hok' & Hp). cbn [mbind option_bind].
  assert (run_bag s cpu = take len q) as Hbag by (unfold run_bag, sched_queue_len; by rewrite Hq, Hlen).
  eexists true, _. split; [done|]. split; [|split; [done|split; [done|split]]].
  - apply sched_inv_set_queue; try done.
    + rewrite Hp. constructor; [done|]. rewrite <-Hbag. by apply sv_cached.
    + by apply sv_idle.
  - rewrite run_bag_insert, decide_True, Hbag by (done || by rewrite (sv_queues s Hi)). done.
  - intros c Hne. by rewrite run_bag_insert, decide_False by (done || by rewrite (sv_queues s Hi)).
Qed.

Lemma switch_next_spec fuel cpu s :
  sched_inv s → (MAX_RUN_QUEUE ≤ fuel)%nat →
  ∃ r s', switch_next fuel cpu s = Some (r, s') ∧ sched_inv s' ∧
    match r with
    | None => s' = s ∧ (run_bag s cpu = [] ∨
        ∃ e, e ∈ run_bag s cpu ∧ rq_is_empty e = true ∧
             ∀ e', e' ∈ run_bag s cpu → rq_priority e' ≤ rq_priority e)
    | Some (old, pid) => ∃ e,
        run_bag s cpu ≡ₚ e :: run_bag s' cpu ∧ rq_partition_id e = pid ∧ rq_is_empty e = false ∧
        (∀ e', e' ∈ run_bag s cpu → rq_priority e' ≤ rq_priority e) ∧
        old = sc_per_cpu s !! cpu ≫= pc_current ∧
        sc_per_cpu s' = alter (run_on pid) cpu (sc_per_cpu s) ∧
        (∀ c, c ≠ cpu → run_bag s' c = run_bag s c)
    end.
Proof.
  intros Hi Hf. unfold switch_next.
  destruct (sc_queue_lens s !! cpu) as [len|] eqn:Hlen.
  2: { exists None, s. split_and!; try done. left. unfold run_bag, sched_queue_len. by rewrite Hlen. }
  assert (cpu < length (sc_queue_lens s))%nat as Hc by by eapply lookup_lt_Some.
  destruct (lookup_lt_is_Some_2 (sc_run_queues s) cpu) as [q Hq]; [by rewrite (sv_queues s Hi)|].
  rewrite Hq. pose proof (sv_queue s Hi cpu q len Hq Hlen) as Hok.
  assert (run_bag s cpu = take len q) as Hbag by (unfold run_bag, sched_queue_len; by rewrite Hq, Hlen).
  destruct (len =? 0)%nat eqn:E0; split_bool.
  { exists None, s. split_and!; try done. left. by rewrite Hbag, E0. }
  pose proof (qo_len q len Hok). pose proof (qo_length q len Hok).
  assert (∀ e', e' ∈ run_bag s cpu → rq_priority e' ≤ rq_priority (queue_at q 0)) as Hmax.
  { intros e' He'. rewrite Hbag in He'. apply list_elem_of_lookup in He' as [i He'].
    apply lookup_take_Some in He' as [He' Hil].
    pose proof (heap_root_max _ _ (qo_heap q len Hok) i Hil) as Hp. unfold prio, queue_at at 1 in Hp.
    by rewrite He' in Hp. }
  destruct (rq_is_empty (queue_at q 0)) eqn:Ee.
  { exists None, s. split_and!; try done. right. exists (queue_at q 0). split_and!; try done.
    rewrite Hbag. apply (list_elem_of_lookup_2 _ 0). rewrite lookup_take_lt by lia.
    apply queue_at_lookup. lia. }
  destruct (heap_pop_spec fuel q len Hok ltac:(lia) ltac:(lia)) as (q' & -> & Hok' & Hp).
  cbn [mbind option_bind]. eexists _, _. split; [done|]. split.
  { apply sched_inv_set_queue; try done.
    - eapply Forall_cons_1. rewrite <-Hp, <-Hbag. by apply sv_cached.
    - by rewrite length_alter.
    - intros c pc Hpc. destruct (decide (cpu = c)) as [<-|].
      + rewrite list_lookup_alter_eq in Hpc. destruct (sc_per_cpu s !! cpu); [|done].
        by injection Hpc as <-.
      + rewrite list_lookup_alter_ne in Hpc by done. by eapply sv_idle. }
  exists (queue_at q 0). split_and!; try done.
  - by rewrite run_bag_insert, decide_True, Hbag by (done || by rewrite (sv_queues s Hi)).
  - intros c Hne. by rewrite run_bag_insert, decide_False by (done || by rewrite (sv_queues s Hi)).
Qed.

(** *** Histories *)

Inductive sched_step (fuel : nat) (s : Scheduler) : Scheduler → Prop :=
| sstep_enqueue cpu pid u p b s' : enqueue fuel cpu pid u p s = Some (b, s') → sched_step fuel s s'
| sstep_switch cpu r s' : switch_next fuel cpu s = Some (r, s') → sched_step fuel s s'
| sstep_tick : sched_step fuel s (tick_epoch s).2
| sstep_mode mode : sched_step fuel s (set_mode mode s)
| sstep_enter : sched_step fuel s (enter_degraded s)
| sstep_exit : sched_step fuel s (exit_degraded s).

Lemma sched_inv_new n : sched_inv (scheduler_new n).
Proof.
  split; cbn [scheduler_new sc_per_cpu sc_run_queues sc_queue_lens];
    rewrite ?length_fmap, ?length_seq, ?length_replicate; try done.
  - intros cpu q len [-> _]%lookup_replicate [-> _]%lookup_replicate. apply queue_ok_empty.
  - intros cpu. unfold run_bag, sched_queue_len. cbn [scheduler_new sc_run_queues sc_queue_lens].
    destruct (replicate n 0%nat !! cpu) eqn:E; [apply lookup_replicate in E as [-> _]|]; constructor.
  - intros cpu pc (i & -> & _)%list_lookup_fmap_Some. done.
Qed.

Lemma sched_inv_meta s mode epoch deg :
  sched_inv s → sched_inv (mkScheduler (sc_per_cpu s) (sc_run_queues s) (sc_queue_lens s) mode epoch deg).
Proof. by intros []; split. Qed.

Lemma sched_step_inv fuel s s' :
  (MAX_RUN_QUEUE ≤ fuel)%nat → sched_step fuel s s' → sched_inv s → sched_inv s'.
Proof.
  intros Hf [cpu pid u p b t H|cpu r t H| | | |] Hi; try by apply sched_inv_meta.
  - destruct (enqueue_spec fuel cpu pid u p s Hi Hf) as (? & ? & E & ? & _). congruence.
  - destruct (switch_next_spec fuel cpu s Hi Hf) as (? & ? & E & ? & _). congruence.
Qed.

Lemma sched_steps_inv fuel n s :
  (MAX_RUN_QUEUE ≤ fuel)%nat → rtc (sched_step fuel) (scheduler_new n) s → sched_inv s.
Proof.
  intros Hf Hs. pose proof (sched_inv_new n) as Hi. revert Hi.
  induction Hs; [done|]. eauto using sched_step_inv.
Qed.

(** [enqueue] returns in every reachable scheduler and is exact.  It
    refuses, without effect, only an unknown CPU and a full queue; otherwise
    the CPU's runnable entries gain exactly the new one, with its pressure
    zeroed in degraded mode and its priority computed from it, and no other
    CPU is touched. *)
Theorem enqueue_functional n fuel cpu pid urgency pressure s :
  (MAX_RUN_QUEUE ≤ fuel)%nat → rtc (sched_step fuel) (scheduler_new n) s →
  ∃ b s', enqueue fuel cpu pid urgency pressure s = Some (b, s') ∧
    (if b then
       run_bag s' cpu ≡ₚ make_entry (sc_degraded s) pid urgency pressure :: run_bag s cpu ∧
       ∀ c, c ≠ cpu → run_bag s' c = run_bag s c
     else s' = s ∧ ((length (sc_queue_lens s) ≤ cpu)%nat ∨ length (run_bag s cpu) = MAX_RUN_QUEUE)).
Proof.
  intros Hf Hs. destruct (enqueue_spec fuel cpu pid urgency pressure s) as (b & s' & He & _ & _ & _ & Hb);
    [by eapply sched_steps_inv|done|]. by exists b, s'.
Qed.

(** [switch_next] runs the most urgent partition.  In every reachable
    scheduler it returns, and takes from the CPU's runnable entries one of
    greatest priority, which becomes the CPU's current partition; the previous
    one is reported and the other CPUs are untouched.  It declines, without
    effect, only when nothing is runnable or when the most urgent entry is the
    hypervisor's sentinel id. *)
Theorem switch_next_functional n fuel cpu s :
  (MAX_RUN_QUEUE ≤ fuel)%nat → rtc (sched_step fuel) (scheduler_new n) s →
  ∃ r s', switch_next fuel cpu s = Some (r, s') ∧
    match r with
    | None => s' = s ∧ (run_bag s cpu = [] ∨
        ∃ e, e ∈ run_bag s cpu ∧ rq_is_empty e = true ∧
             ∀ e', e' ∈ run_bag s cpu → rq_priority e' ≤ rq_priority e)
    | Some (old, pid) => ∃ e,
        run_bag s cpu ≡ₚ e :: run_bag s' cpu ∧ rq_partition_id e = pid ∧ rq_is_empty e = false ∧
        (∀ e', e' ∈ run_bag s cpu → rq_priority e' ≤ rq_priority e) ∧
        old = sc_per_cpu s !! cpu ≫= pc_current ∧
        sc_per_cpu s' = alter (run_on pid) cpu (sc_per_cpu s) ∧
        (∀ c, c ≠ cpu → run_bag s' c = run_bag s c)
    end.
Proof.
  intros Hf Hs. destruct (switch_next_spec fuel cpu s) as (r & s' & He & _ & Hr);
    [by eapply sched_steps_inv|done|]. by exists r, s'.
Qed.

(** *** Draining a queue *)

Fixpoint drain (fuel cpu k : nat) (s : Scheduler) : option (list PartitionId * Scheduler) :=
  match k with
  | O => Some ([], s)
  | S k =>
      '(r, s) ← switch_next fuel cpu s;
      '(_, pid) ← r;
      '(pids, s) ← drain fuel cpu k s;
      Some (pid :: pids, s)
  end.

Definition more_urgent (e e' : RunQueueEntry) : Prop := rq_priority e' ≤ rq_priority e.

Lemma drain_spec fuel cpu : ∀ k s,
  sched_inv s → (MAX_RUN_QUEUE ≤ fuel)%nat → length (run_bag s cpu) = k →
  Forall (λ e, rq_is_empty e = false) (run_bag s cpu) →
  ∃ es s', drain fuel cpu k s = Some (rq_partition_id <$> es, s') ∧ es ≡ₚ run_bag s cpu ∧
    StronglySorted more_urgent es ∧ run_bag s' cpu = [].
Proof.
  induction k as [|k IH]; intros s Hi Hf Hk Hne.
  { exists [], s. apply nil_length_inv in Hk. rewrite Hk. split_and!; try done. constructor. }
  cbn [drain]. destruct (switch_next_spec fuel cpu s Hi Hf) as (r & s1 & -> & Hi1 & Hr).
  destruct r as [[old pid]|].
  2: { destruct Hr as (_ & [E|(e & He & Hemp & _)]); [by rewrite E in Hk|].
       rewrite Forall_forall in Hne. by rewrite (Hne e He) in Hemp. }
  destruct Hr as (e & Hp & <- & _ & Hmax & _). cbn [mbind option_bind].
  rewrite Hp in Hne, Hk. apply Forall_cons in Hne as [_ Hne].
  destruct (IH s1 Hi1 Hf ltac:(cbn in Hk; lia) Hne) as (es & s' & -> & Hperm & Hsort & Hnil).
  exists (e :: es), s'. split_and!; [done|by rewrite Hp, Hperm| |done].
  constructor; [done|]. rewrite Forall_forall. intros e' He'. apply Hmax.
  rewrite Hp, Hperm in *. by right.
Qed.

(** No runnable partition is lost or starved by the heap.  As many calls
    of [switch_next] as a CPU has runnable entries run each of them exactly
    once, in order of decreasing priority, and leave the queue empty. *)
Theorem drain_sorted n fuel cpu s :
  (MAX_RUN_QUEUE ≤ fuel)%nat → rtc (sched_step fuel) (scheduler_new n) s →
  Forall (λ e, rq_is_empty e = false) (run_bag s cpu) →
  ∃ es s', drain fuel cpu (length (run_bag s cpu)) s = Some (rq_partition_id <$> es, s') ∧
    es ≡ₚ run_bag s cpu ∧ StronglySorted more_urgent es ∧ run_bag s' cpu = [].
Proof. intros Hf Hs Hne. apply drain_spec; [by eapply sched_steps_inv|done..]. Qed.

(* ------------------------------------------------------------------ *)
(** ** Priorities and epochs *)

(** The priority is the urgency plus the integer part of the pressure,
    computed without overflow and monotone in both; it exceeds the documented
    bound 65535 and reaches 131070. *)
Theorem compute_priority_spec u p :
  is_u16 u → is_u32 p →
  compute_priority u p = u + p `div` 65536 ∧ 0 ≤ compute_priority u p ≤ 131070 ∧
  (∀ u' p', is_u16 u' → is_u32 p' → u ≤ u' → p ≤ p' → compute_priority u p ≤ compute_priority u' p') ∧
  compute_priority u16_max u32_max = 131070.
Proof.
  assert (∀ u p, is_u16 u → is_u32 p →
    compute_priority u p = u + p `div` 65536 ∧ 0 ≤ p `div` 65536 ≤ 65535) as H.
  { unfold is_u16, is_u32, u16_max, u32_max. intros u1 p1 Hu Hp.
    assert (0 ≤ p1 `div` 65536 ≤ 65535) as Hd
      by (split; [apply Z.div_pos; lia|apply Z.lt_succ_r, Z.div_lt_upper_bound; lia]).
    split; [|done]. unfold compute_priority. rewrite Z.shiftr_div_pow2 by lia.
    change (2 ^ 16) with 65536. rewrite Z.min_l by (unfold u16_max; lia).
    rewrite wrap16_id by (unfold is_u16, u16_max; lia).
    apply wrap32_id. unfold is_u32, u32_max. lia. }
  intros Hu Hp. destruct (H u p Hu Hp) as [E Hd]. unfold is_u16, u16_max in *.
  split_and!; [done|lia|lia| |done].
  intros u' p' Hu' Hp' Hle Hle'. destruct (H u' p' Hu' Hp') as [E' _].
  rewrite E, E'. pose proof (Z.div_le_mono p p' 65536 ltac:(lia) Hle'). lia.
Qed.

Lemma runnable_sum l : ∀ a,
  0 ≤ a → a + Z.of_nat (sum_list l) ≤ u32_max →
  foldl (λ a l, wrap32 (a + wrap32 (Z.of_nat l))) a l = a + Z.of_nat (sum_list l).
Proof.
  induction l as [|n l IH]; intros a Ha Hs; cbn [sum_list sum_list_with foldl] in *; [lia|].
  change (sum_list_with id l) with (sum_list l) in *. unfold id in *.
  rewrite (wrap32_id (Z.of_nat n)) by (unfold is_u32; lia).
  rewrite wrap32_id by (unfold is_u32; lia). rewrite IH by lia. lia.
Qed.

(** The summary of an epoch: its number, its switches, and the number of
    runnable entries, saturated at 65535. *)
Lemma tick_epoch_spec s :
  Z.of_nat (sum_list (sc_queue_lens s)) ≤ u32_max →
  (tick_epoch s).1 = mkEpochSummary (et_current_epoch (sc_epoch s)) (et_switch_count (sc_epoch s))
    (Z.min u16_max (Z.of_nat (sum_list (sc_queue_lens s)))) ∧
  sc_epoch (tick_epoch s).2 = mkEpochTracker (wrap32 (et_current_epoch (sc_epoch s) + 1)) 0 ∧
  ∀ cpu, run_bag (tick_epoch s).2 cpu = run_bag s cpu.
Proof.
  intros Hs. unfold tick_epoch. rewrite runnable_sum by lia. cbn [fst snd epoch_advance].
  split_and!; [|done|done]. f_equal. rewrite Z.add_0_l. destruct (u16_max <? _) eqn:E; split_bool; [lia|].
  rewrite wrap16_id by (unfold is_u16; lia). lia.
Qed.

(* ------------------------------------------------------------------ *)
(** ** The SMP coordinator *)

Record smp_inv (m : SmpCoordinator) : Prop := {
  sp_bound : Z.of_nat (length (sm_cpu_states m)) ≤ 256;
  sp_id i st : sm_cpu_states m !! i = Some st → cs_cpu_id st = Z.of_nat i;
  sp_idle i st : sm_cpu_states m !! i = Some st → cs_idle st = is_none (cs_current_partition st);
  sp_offline i st : sm_cpu_states m !! i = Some st → cs_online st = false → cs_current_partition st = None;
  sp_online i st : sm_cpu_states m !! i = Some st → cs_online st = true → Z.of_nat i < sm_cpu_count m;
}.

Inductive smp_step (m : SmpCoordinator) : SmpCoordinator → Prop :=
| smp_online c : 0 ≤ c → smp_step m (bring_online c m).2
| smp_offline c : 0 ≤ c → smp_step m (take_offline c m).2
| smp_assign c p : 0 ≤ c → smp_step m (assign_partition c p m).2
| smp_release c : 0 ≤ c → smp_step m (release_partition c m).2.

(** Replacing one CPU's state. *)
Lemma smp_inv_set m i st st' :
  smp_inv m → sm_cpu_states m !! i = Some st → cs_cpu_id st' = cs_cpu_id st →
  cs_idle st' = is_none (cs_current_partition st') →
  (cs_online st' = false → cs_current_partition st' = None) →
  (cs_online st' = true → Z.of_nat i < sm_cpu_count m) →
  smp_inv (mkSmpCoordinator (<[i:=st']> (sm_cpu_states m)) (sm_cpu_count m)).
Proof.
  intros [H1 H2 H3 H4 H5] Hi Hid Hidle Hoff Hon.
  split; cbn [sm_cpu_states sm_cpu_count]; [by rewrite length_insert| | | |];
    intros j s [(<- & <- & _)|(Hne & Hj)]%list_lookup_insert_Some; eauto.
  rewrite Hid. eauto.
Qed.

Lemma smp_step_inv m m' : smp_step m m' → smp_inv m → smp_inv m'.
Proof.
  intros [c Hc|c Hc|c p Hc|c Hc] Hi.
  - unfold bring_online. destruct (sm_cpu_count m <=? c) eqn:E; split_bool; [done|].
    unfold with_cpu. rewrite get_at_eq. destruct (sm_cpu_states m !! Z.to_nat c) as [st|] eqn:Hst; [|done].
    destruct (cs_online st) eqn:Eo; cbn [snd].
    + rewrite list_insert_id by done. by destruct m.
    + eapply smp_inv_set; try done. cbn. lia.
  - unfold take_offline, with_cpu. rewrite get_at_eq.
    destruct (sm_cpu_states m !! Z.to_nat c) as [st|] eqn:Hst; [|done].
    destruct (cs_online st) eqn:Eo; cbn [negb snd].
    2: { rewrite list_insert_id by done. by destruct m. }
    destruct (cs_current_partition st) eqn:Ec; cbn [is_some snd].
    { rewrite list_insert_id by done. by destruct m. }
    by eapply smp_inv_set.
  - unfold assign_partition, with_cpu. rewrite get_at_eq.
    destruct (sm_cpu_states m !! Z.to_nat c) as [st|] eqn:Hst; [|done].
    destruct (cs_online st) eqn:Eo; cbn [negb snd].
    2: { rewrite list_insert_id by done. by destruct m. }
    destruct (cs_current_partition st) eqn:Ec; cbn [is_some snd].
    { rewrite list_insert_id by done. by destruct m. }
    eapply smp_inv_set; try done. intros _. by eapply sp_online.
  - unfold release_partition, with_cpu. rewrite get_at_eq.
    destruct (sm_cpu_states m !! Z.to_nat c) as [st|] eqn:Hst; [|done].
    cbn [snd]. eapply smp_inv_set; try done; cbn.
    + pose proof (sp_idle m Hi _ _ Hst) as Hid. by destruct (cs_current_partition st).
    + intros Ho. by eapply sp_online.
Qed.

Lemma smp_inv_new n count : Z.of_nat n ≤ 256 → smp_inv (smp_new n count).
Proof.
  intros Hn. unfold smp_new.
  split; cbn [sm_cpu_states sm_cpu_count]; [by rewrite length_fmap, length_seq| | | |];
    intros i st (j & -> & [-> Hj]%lookup_seq)%list_lookup_fmap_Some; try done.
  cbn. unfold wrap8. by rewrite Z.mod_small by lia.
Qed.

Lemma smp_steps_inv n count m :
  Z.of_nat n ≤ 256 → rtc smp_step (smp_new n count) m → smp_inv m.
Proof.
  intros Hn Hs. pose proof (smp_inv_new n count Hn) as Hi. revert Hi.
  induction Hs; [done|]. eauto using smp_step_inv.
Qed.

(** When an assignment succeeds and what it leaves. *)
Lemma assign_partition_ok m c p :
  is_ok (assign_partition c p m).1 = true ↔
  ∃ st, sm_cpu_states m !! Z.to_nat c = Some st ∧ cs_online st = true ∧ cs_current_partition st = None.
Proof.
  unfold assign_partition, with_cpu. rewrite get_at_eq.
  destruct (sm_cpu_states m !! Z.to_nat c) as [st|] eqn:Hst.
  2: { split; [done|]. by intros (? & ? & _). }
  destruct (cs_online st) eqn:Eo, (cs_current_partition st) eqn:Ec; cbn; split; try done.
  all: try (intros (? & [= <-] & ? & ?); congruence). eauto.
Qed.

Lemma max_by_ticks_spec l :
  match max_by_ticks l with
  | None => l = []
  | Some b => b ∈ l ∧ ∀ st, st ∈ l → cs_epoch_ticks st ≤ cs_epoch_ticks b
  end.
Proof.
  unfold max_by_ticks. induction l as [|x l IH] using rev_ind; [done|]. rewrite foldl_snoc.
  destruct (foldl _ None l) as [b|].
  - destruct IH as [Hb Hmax]. destruct (cs_epoch_ticks x <? cs_epoch_ticks b) eqn:E; split_bool.
    + split; [set_solver|]. intros st [H| ->%list_elem_of_singleton]%elem_of_app; [auto|lia].
    + split; [set_solver|]. intros st [H| ->%list_elem_of_singleton]%elem_of_app; [|lia].
      specialize (Hmax st H). lia.
  - subst l. split; [set_solver|]. by intros st ->%list_elem_of_singleton.
Qed.

Lemma find_idle_cpu_spec m :
  smp_inv m →
  match find_idle_cpu m with
  | Some c => 0 ≤ c ∧ ∃ st, sm_cpu_states m !! Z.to_nat c = Some st ∧ cs_online st = true ∧
                cs_current_partition st = None
  | None => ∀ i st, sm_cpu_states m !! i = Some st → cs_online st = true → cs_current_partition st ≠ None
  end.
Proof.
  intros Hi. unfold find_idle_cpu. destruct (find_by _ _) as [st|] eqn:E; cbn.
  - apply find_by_Some in E as (Hp & i & Hst). split_bool.
    rewrite (sp_id m Hi i st Hst). split; [lia|]. exists st. rewrite Nat2Z.id. split_and!; try done.
    pose proof (sp_idle m Hi i st Hst). destruct (cs_current_partition st); cbn in *; congruence.
  - intros i st Hst Ho Hc. rewrite find_by_None in E. specialize (E i st Hst).
    pose proof (sp_idle m Hi i st Hst) as Hid. rewrite Hc in Hid. cbn in *. by rewrite Ho, Hid in E.
Qed.

(** The coordinator's view of the CPUs is exact after any history.  An
    assignment succeeds exactly on an online CPU that runs nothing;
    [find_idle_cpu] names such a CPU whenever there is one; a successful
    assignment makes its CPU run the partition, shows up in
    [partition_affinity] and is undone by [release_partition]; and a
    rebalancing hint pairs an online busy CPU of greatest load with a CPU that
    can take an assignment. *)
Theorem smp_assignment_exact n count m c p :
  Z.of_nat n ≤ 256 → rtc smp_step (smp_new n count) m → 0 ≤ c →
  (is_ok (assign_partition c p m).1 = true ↔
    ∃ st, sm_cpu_states m !! Z.to_nat c = Some st ∧ cs_online st = true ∧ cs_current_partition st = None) ∧
  match find_idle_cpu m with
  | Some i => is_ok (assign_partition i p m).1 = true
  | None => is_ok (assign_partition c p m).1 = false
  end ∧
  (is_ok (assign_partition c p m).1 = true →
    let m' := (assign_partition c p m).2 in
    partition_affinity p m' ≠ None ∧ is_ok (assign_partition c p m').1 = false ∧
    (release_partition c m').1 = Some p ∧
    is_ok (assign_partition c p (release_partition c m').2).1 = true) ∧
  match rebalance_hint m with
  | Some (o, i) => is_ok (assign_partition i p m).1 = true ∧
      ∃ st, sm_cpu_states m !! Z.to_nat o = Some st ∧ busy_cpu st = true ∧
        ∀ j st', sm_cpu_states m !! j = Some st' → busy_cpu st' = true → cs_epoch_ticks st' ≤ cs_epoch_ticks st
  | None => True
  end.
Proof.
  intros Hn Hs Hc. pose proof (smp_steps_inv n count m Hn Hs) as Hi.
  pose proof (find_idle_cpu_spec m Hi) as Hidle.
  assert (match find_idle_cpu m with Some i => is_ok (assign_partition i p m).1 = true | None => True end) as Hassign.
  { destruct (find_idle_cpu m) as [i|]; [|done]. apply assign_partition_ok. by destruct Hidle as [_ ?]. }
  split; [apply assign_partition_ok|]. split.
  { destruct (find_idle_cpu m) as [i|]; [done|]. apply not_true_is_false. rewrite assign_partition_ok.
    intros (st & Hst & Ho & Hp). by eapply Hidle. }
  split.
  - rewrite assign_partition_ok. intros (st & Hst & Ho & Hp).
    assert (Z.to_nat c < length (sm_cpu_states m))%nat as Hlt by by eapply lookup_lt_Some.
    set (st' := mkCpuState (cs_cpu_id st) true (Some p) false (sat_add u64_max (cs_epoch_ticks st) 1)).
    assert ((assign_partition c p m).2 =
      mkSmpCoordinator (<[Z.to_nat c := st']> (sm_cpu_states m)) (sm_cpu_count m)) as ->.
    { unfold assign_partition, with_cpu. rewrite get_at_eq, Hst. cbn. by rewrite Ho, Hp. }
    assert (<[Z.to_nat c := st']> (sm_cpu_states m) !! Z.to_nat c = Some st') as Hst'
      by by apply list_lookup_insert_eq.
    cbn zeta. split_and!.
    + unfold partition_affinity. cbn [sm_cpu_states]. destruct (find_by _ _) eqn:E; [done|].
      rewrite find_by_None in E. specialize (E _ _ Hst'). cbn in E. by rewrite Z.eqb_refl in E.
    + apply not_true_is_false. rewrite assign_partition_ok. cbn [sm_cpu_states].
      rewrite Hst'. by intros (? & [= <-] & _ & ?).
    + unfold release_partition, with_cpu. rewrite get_at_eq. cbn [sm_cpu_states]. by rewrite Hst'.
    + apply assign_partition_ok. unfold release_partition, with_cpu. rewrite get_at_eq.
      cbn [sm_cpu_states]. rewrite Hst'. cbn. eexists.
      split; [apply list_lookup_insert_eq; by rewrite length_insert|done].
  - unfold rebalance_hint. destruct (find_idle_cpu m) as [i|]; cbn [mbind option_bind]; [|done].
    pose proof (max_by_ticks_spec (List.filter busy_cpu (sm_cpu_states m))) as Hmax.
    destruct (max_by_ticks _) as [b|]; cbn [mbind option_bind]; [|done]. split; [done|].
    destruct Hmax as [Hb Hmax]. apply list_elem_of_In, filter_In in Hb as [Hb Hbusy].
    apply list_elem_of_In, list_elem_of_lookup in Hb as [j Hj].
    exists b. rewrite (sp_id m Hi j b Hj), Nat2Z.id. split_and!; try done.
    intros k st' Hst' Hb'. apply Hmax, list_elem_of_In, filter_In. split; [|done].
    apply list_elem_of_In. by eapply list_elem_of_lookup_2.
Qed.

(* ------------------------------------------------------------------ *)
(** ** The switch context *)

(** [init] packs the VMID and the stage-2 base without interference: both
    are read back from the one register, the base with the bits outside
    [47:1] dropped, and the context is accepted by [validate_for_switch] and
    [partition_switch] exactly when the entry point is neither zero nor in the
    hypervisor's half of the address space. *)
Theorem switch_context_roundtrip entry sp vmid base c from :
  is_u16 vmid → is_u64 base →
  let c' := switch_context_init entry sp vmid base c in
  is_u64 (sw_vttbr_el2 c') ∧ context_vmid c' = vmid ∧ s2_table_base c' = Z.land base S2_BASE_MASK ∧
  (validate_for_switch c' = Ok tt ↔ entry ≠ 0 ∧ entry < HYPERVISOR_BASE) ∧
  (partition_switch from c' = Ok (mkSwitchResult (context_vmid from) vmid 0) ↔
    validate_for_switch c' = Ok tt).
Proof.
  intros Hv Hb c'. unfold is_u16, u16_max in Hv.
  assert (0 ≤ Z.land base S2_BASE_MASK < 2 ^ 48) as Hm.
  { apply land_lt_pow2; [apply Hb|unfold S2_BASE_MASK; lia|lia]. }
  assert (Z.shiftl vmid 48 = vmid * 2 ^ 48) as Hsh by (apply Z.shiftl_mul_pow2; lia).
  assert (wrap64 (Z.shiftl vmid 48) = Z.shiftl vmid 48) as Hw.
  { apply wrap64_id. rewrite Hsh. unfold is_u64, u64_max. lia. }
  assert (Z.land (Z.shiftl vmid 48) S2_BASE_MASK = 0) as Hdis.
  { apply Z.bits_inj'. intros n Hn. rewrite Z.land_spec, Z.shiftl_spec, Z.bits_0 by done.
    destruct (decide (n < 48)); [by rewrite Z.testbit_neg_r by lia|].
    rewrite (testbit_lt_pow2 S2_BASE_MASK 48 n); [by rewrite andb_false_r| |lia].
    unfold S2_BASE_MASK. lia. }
  assert (sw_vttbr_el2 c' = vmid * 2 ^ 48 + Z.land base S2_BASE_MASK) as Hvt.
  { cbn. rewrite Hw, <-Hsh. symmetry.
    rewrite <-Z.lxor_lor by (by rewrite (Z.land_comm base), Z.land_assoc, Hdis).
    apply Z.add_nocarry_lxor. by rewrite (Z.land_comm base), Z.land_assoc, Hdis. }
  assert (context_vmid c' = vmid) as Hcv.
  { unfold context_vmid. rewrite Hvt, Z.shiftr_div_pow2 by lia.
    rewrite Z.div_add_l, Z.div_small by lia. rewrite Z.add_0_r. apply wrap16_id. done. }
  split_and!; [rewrite Hvt; unfold is_u64, u64_max; lia|done| | |].
  - unfold s2_table_base. cbn. rewrite Hw, Z.land_lor_distr_l, Hdis, <-Z.land_assoc, Z.land_diag. done.
  - unfold validate_for_switch. cbn [switch_context_init sw_elr_el2 c'].
    destruct (entry =? 0) eqn:E0, (HYPERVISOR_BASE <=? entry) eqn:E1; split_bool; split; try done; lia.
  - unfold partition_switch. destruct (validate_for_switch c') as [[]|]; cbn; rewrite ?Hcv; [done|].
    split; done.
Qed.

(* ------------------------------------------------------------------ *)
(** ** Samples *)

(** Run [enqueue] on CPU 0 for each (partition, urgency). *)
Definition enqueue_all (fuel : nat) (l : list (Z * Z)) (s : Scheduler) : option Scheduler :=
  foldl (λ o '(pid, u), s ← o; snd <$> enqueue fuel 0 pid u 0 s) (Some s) l.

Definition sample_sched : Scheduler :=
  default (scheduler_new 2) (enqueue_all 32 [(1, 10); (2, 30); (3, 20); (4, 30); (5, 25)] (scheduler_new 2)).

Lemma enqueue_all_steps fuel l : ∀ s s',
  enqueue_all fuel l s = Some s' → rtc (sched_step fuel) s s'.
Proof.
  unfold enqueue_all. induction l as [|[pid u] l IH]; intros s s'; cbn [foldl]; [by intros [= <-]; apply rtc_refl|].
  cbn [mbind option_bind]. destruct (enqueue fuel 0 pid u 0 s) as [[b s1]|] eqn:E; cbn.
  - intros H. apply (rtc_l _ _ s1); [by eapply sstep_enqueue|by apply IH].
  - assert (foldl (λ (o : option Scheduler) '(pid0, u0), s0 ← o; snd <$> enqueue fuel 0 pid0 u0 0 s0) None l = None) as ->; [|done].
    clear. by induction l as [|[] l IH].
Qed.

Lemma sample_sched_steps : rtc (sched_step 32) (scheduler_new 2) sample_sched.
Proof.
  apply (enqueue_all_steps _ [(1, 10); (2, 30); (3, 20); (4, 30); (5, 25)]). vm_compute. reflexivity.
Qed.

Lemma enqueue_functional_witness :
  rtc (sched_step 32) (scheduler_new 2) sample_sched ∧
  ∃ s', enqueue 32 0 6 40 65536 sample_sched = Some (true, s') ∧
    run_bag s' 0 ≡ₚ mkRunQueueEntry 6 40 65536 41 :: run_bag sample_sched 0.
Proof.
  split; [exact sample_sched_steps|].
  destruct (enqueue_functional 2 32 0 6 40 65536 sample_sched (le_n _) sample_sched_steps)
    as (b & s' & He & Hb).
  assert (fst <$> enqueue 32 0 6 40 65536 sample_sched = Some true) as E by (vm_compute; reflexivity).
  rewrite He in E. injection E as ->. exists s'. split; [exact He|].
  destruct Hb as [Hb _]. exact Hb.
Defined.

Lemma switch_next_functional_witness :
  rtc (sched_step 32) (scheduler_new 2) sample_sched ∧
  ∃ s' e, switch_next 32 0 sample_sched = Some (Some (None, 2), s') ∧
    run_bag sample_sched 0 ≡ₚ e :: run_bag s' 0 ∧ rq_partition_id e = 2.
Proof.
  split; [exact sample_sched_steps|].
  destruct (switch_next_functional 2 32 0 sample_sched (le_n _) sample_sched_steps)
    as (r & s' & He & Hr).
  assert (fst <$> switch_next 32 0 sample_sched = Some (Some (None, 2))) as E by (vm_compute; reflexivity).
  rewrite He in E. injection E as ->. destruct Hr as (e & Hp & Hid & _).
  exists s', e. split; [exact He|]. split; [exact Hp|exact Hid].
Defined.

Lemma drain_sorted_witness :
  Forall (λ e, rq_is_empty e = false) (run_bag sample_sched 0) ∧
  ∃ s', drain 32 0 5 sample_sched = Some ([2; 4; 5; 3; 1], s') ∧ run_bag s' 0 = [].
Proof.
  assert (Forall (λ e, rq_is_empty e = false) (run_bag sample_sched 0)) as Hne
    by (vm_compute; repeat constructor).
  split; [exact Hne|].
  destruct (drain_sorted 2 32 0 sample_sched (le_n _) sample_sched_steps Hne) as (es & s' & Hd & _ & _ & Hnil).
  assert (length (run_bag sample_sched 0) = 5%nat) as El by (vm_compute; reflexivity).
  rewrite El in Hd.
  assert (fst <$> drain 32 0 5 sample_sched = Some [2; 4; 5; 3; 1]) as E by (vm_compute; reflexivity).
  rewrite Hd in E. cbn [fmap option_fmap option_map fst] in E. injection E as E. rewrite E in Hd.
  exists s'. split; [exact Hd|exact Hnil].
Defined.

Lemma compute_priority_spec_witness :
  is_u16 100 ∧ is_u32 131072 ∧ compute_priority 100 131072 = 102.
Proof.
  assert (is_u16 100) as H1 by (unfold is_u16, u16_max; lia).
  assert (is_u32 131072) as H2 by (unfold is_u32, u32_max; lia).
  split; [exact H1|]. split; [exact H2|].
  rewrite (proj1 (compute_priority_spec 100 131072 H1 H2)). reflexivity.
Defined.

Definition sample_smp : SmpCoordinator :=
  (assign_partition 0 7 (bring_online 1 (bring_online 0 (smp_new 4 2)).2).2).2.

Lemma sample_smp_steps : rtc smp_step (smp_new 4 2) sample_smp.
Proof.
  apply (rtc_l _ _ (bring_online 0 (smp_new 4 2)).2); [by apply smp_online|].
  apply (rtc_l _ _ (bring_online 1 (bring_online 0 (smp_new 4 2)).2).2); [by apply smp_online|].
  apply rtc_once. by apply smp_assign.
Qed.

Lemma smp_assignment_exact_witness :
  rtc smp_step (smp_new 4 2) sample_smp ∧ rebalance_hint sample_smp = Some (0, 1) ∧
  is_ok (assign_partition 1 9 sample_smp).1 = true ∧
  (release_partition 1 (assign_partition 1 9 sample_smp).2).1 = Some 9.
Proof.
  split; [exact sample_smp_steps|]. split; [vm_compute; reflexivity|].
  assert (is_ok (assign_partition 1 9 sample_smp).1 = true) as Hok by (vm_compute; reflexivity).
  split; [exact Hok|].
  destruct (smp_assignment_exact 4 2 sample_smp 1 9) as (_ & _ & H & _);
    [lia|exact sample_smp_steps|lia|]. apply (H Hok).
Defined.

Lemma switch_context_roundtrip_witness :
  is_u16 5 ∧ is_u64 0x80001000 ∧
  context_vmid (switch_context_init 0x4000 0x8000 5 0x80001000 switch_context_new) = 5.
Proof.
  assert (is_u16 5) as H1 by (unfold is_u16, u16_max; lia).
  assert (is_u64 0x80001000) as H2 by (unfold is_u64, u64_max; lia).
  split; [exact H1|]. split; [exact H2|].
  apply (switch_context_roundtrip 0x4000 0x8000 5 0x80001000 switch_context_new switch_context_new H1 H2).
Defined.

Definition blocked_sched : Scheduler :=
  default (scheduler_new 1) (enqueue_all 32 [(1, 10); (HYPERVISOR, 65535)] (scheduler_new 1)).

(** An enqueued sentinel id blocks its CPU: with the greatest urgency it is
    accepted, and from then on nothing on that CPU runs although a partition
    is waiting. *)
Lemma hypervisor_entry_blocks_queue :
  enqueue_all 32 [(1, 10); (HYPERVISOR, 65535)] (scheduler_new 1) = Some blocked_sched ∧
  sched_queue_len blocked_sched 0 = 2%nat ∧ switch_next 32 0 blocked_sched = Some (None, blocked_sched).
Proof. split_and!; vm_compute; reflexivity. Qed.
