(* ===== verification/Region.v ===== *)
(** Memory regions: [crates/rvm-memory/src] ([region.rs], [lib.rs]) with the
    address types of [crates/rvm-types/src/addr.rs].

    The region table maps ranges of guest-physical addresses of partitions to
    host-physical addresses.  It is proved to isolate partitions: no host
    address is reachable from two places, as long as no region wraps around
    the end of the address space, which the code does not check. *)

From stdpp Require Import base numbers list option relations.
From Stdlib Require Import ZArith Lia.
From S2P Require Import Prelude.
From S2P Require Import Types.

(* ------------------------------------------------------------------ *)
(** ** Addresses and regions *)

(** [u64::trailing_zeros], counting at most [bits]. *)
Fixpoint trailing_zeros (bits : nat) (z : Z) : Z :=
  match bits with
  | O => 0
  | S bits => if Z.odd z then 0 else 1 + trailing_zeros bits (Z.div2 z)
  end.

Definition is_page_aligned (addr : Z) : bool := 12 <=? trailing_zeros 64 addr.

Definition PAGE_SIZE : Z := 4096.

Inductive Tier : Set := Hot | Warm | Dormant | Cold.
#[export] Instance Tier_eq_dec : EqDecision Tier.
Proof. solve_decision. Defined.

Record MemoryPermissions : Set := mkMemoryPermissions {
  mp_read : bool;
  mp_write : bool;
  mp_execute : bool;
}.
Definition READ_ONLY : MemoryPermissions := mkMemoryPermissions true false false.
Definition READ_WRITE : MemoryPermissions := mkMemoryPermissions true true false.
Definition READ_EXECUTE : MemoryPermissions := mkMemoryPermissions true false true.

Record OwnedRegion : Set := mkOwnedRegion {
  or_id : Z;
  or_owner : PartitionId;
  or_guest_base : Z;
  or_host_base : Z;
  or_page_count : Z;
  or_tier : Tier;
  or_permissions : MemoryPermissions;
  or_occupied : bool;
}.

Definition REGION_EMPTY : OwnedRegion := mkOwnedRegion 0 0 0 0 0 Warm READ_ONLY false.

Definition size_bytes (r : OwnedRegion) : Z := wrap64 (or_page_count r * PAGE_SIZE).
Definition guest_end (r : OwnedRegion) : Z := wrap64 (or_guest_base r + size_bytes r).
Definition host_end (r : OwnedRegion) : Z := wrap64 (or_host_base r + size_bytes r).

Definition contains_guest (addr : Z) (r : OwnedRegion) : bool :=
  (or_guest_base r <=? addr) && (addr <? guest_end r).

Record RegionConfig : Set := mkRegionConfig {
  rc_id : Z;
  rc_owner : PartitionId;
  rc_guest_base : Z;
  rc_host_base : Z;
  rc_page_count : Z;
  rc_tier : Tier;
  rc_permissions : MemoryPermissions;
}.

Record AddressMapping : Set := mkAddressMapping {
  am_guest : Z;
  am_host : Z;
  am_permissions : MemoryPermissions;
}.

Record RegionManager : Set := mkRegionManager {
  rm_regions : list OwnedRegion;
  rm_count : nat;
  rm_next_id : Z;
}.

Definition region_manager_new (max : nat) : RegionManager :=
  mkRegionManager (replicate max REGION_EMPTY) 0 1.

(* ------------------------------------------------------------------ *)
(** ** Operations *)

(** Half-open ranges [a, b) and [c, d) meet. *)
Definition overlaps (a b c d : Z) : bool := (a <? d) && (c <? b).

(** The combined overlap and free-slot scan of [create]. *)
Fixpoint create_scan (config : RegionConfig) (new_start new_end new_host_start new_host_end : Z)
    (i : nat) (first_free_slot : option nat) (regions : list OwnedRegion) : RvmResult (option nat) :=
  match regions with
  | [] => Ok first_free_slot
  | region :: regions =>
      let continue := create_scan config new_start new_end new_host_start new_host_end (S i) in
      if negb (or_occupied region) then
        continue (if is_none first_free_slot then Some i else first_free_slot) regions
      else if (or_owner region =? rc_owner config) &&
              overlaps new_start new_end (or_guest_base region) (guest_end region) then Err MemoryOverlap
      else if overlaps new_host_start new_host_end (or_host_base region) (host_end region) then Err MemoryOverlap
      else continue first_free_slot regions
  end.

Definition region_of_config (config : RegionConfig) : OwnedRegion :=
  mkOwnedRegion (rc_id config) (rc_owner config) (rc_guest_base config) (rc_host_base config)
    (rc_page_count config) (rc_tier config) (rc_permissions config) true.

Definition region_create (config : RegionConfig) : prog RegionManager RvmError Z := λ m,
  if negb (is_page_aligned (rc_guest_base config)) then (Err AlignmentError, m)
  else if negb (is_page_aligned (rc_host_base config)) then (Err AlignmentError, m)
  else if rc_page_count config =? 0 then (Err ResourceLimitExceeded, m)
  else if (length (rm_regions m) <=? rm_count m)%nat then (Err ResourceLimitExceeded, m)
  else
    let new_start := rc_guest_base config in
    let new_end := wrap64 (new_start + wrap64 (rc_page_count config * PAGE_SIZE)) in
    let new_host_start := rc_host_base config in
    let new_host_end := wrap64 (new_host_start + wrap64 (rc_page_count config * PAGE_SIZE)) in
    match create_scan config new_start new_end new_host_start new_host_end 0 None (rm_regions m) with
    | Err e => (Err e, m)
    | Ok (Some idx) =>
        (Ok (rc_id config), mkRegionManager (<[idx := region_of_config config]> (rm_regions m))
                              (rm_count m + 1) (rm_next_id m))
    | Ok None => (Err ResourceLimitExceeded, m)
    end.

Definition region_create_auto_id (owner : PartitionId) (guest_base host_base page_count : Z)
    (tier : Tier) (permissions : MemoryPermissions) : prog RegionManager RvmError Z := λ m,
  let id := rm_next_id m in
  let m := mkRegionManager (rm_regions m) (rm_count m) (wrap64 (rm_next_id m + 1)) in
  region_create (mkRegionConfig id owner guest_base host_base page_count tier permissions) m.

Definition find_slot (region_id : Z) (m : RegionManager) : option nat :=
  position (λ r, or_occupied r && (or_id r =? region_id)) (rm_regions m).

Definition region_destroy (region_id : Z) : prog RegionManager RvmError OwnedRegion := λ m,
  match find_slot region_id m with
  | Some idx =>
      (Ok (default REGION_EMPTY (rm_regions m !! idx)),
       mkRegionManager (<[idx := REGION_EMPTY]> (rm_regions m)) (rm_count m - 1) (rm_next_id m))
  | None => (Err PartitionNotFound, m)
  end.

Definition set_owner (owner : PartitionId) (r : OwnedRegion) : OwnedRegion :=
  mkOwnedRegion (or_id r) owner (or_guest_base r) (or_host_base r) (or_page_count r) (or_tier r)
    (or_permissions r) (or_occupied r).

(** The loop of [transfer]: a region of the new owner in the way. *)
Fixpoint transfer_blocked (new_owner : PartitionId) (idx i : nat) (xfer_start xfer_end : Z)
    (regions : list OwnedRegion) : bool :=
  match regions with
  | [] => false
  | region :: regions =>
      if (i =? idx)%nat || negb (or_occupied region) || negb (or_owner region =? new_owner)
      then transfer_blocked new_owner idx (S i) xfer_start xfer_end regions
      else if overlaps xfer_start xfer_end (or_guest_base region) (guest_end region) then true
      else transfer_blocked new_owner idx (S i) xfer_start xfer_end regions
  end.

Definition region_transfer (region_id : Z) (new_owner : PartitionId) : prog RegionManager RvmError unit := λ m,
  match find_slot region_id m with
  | None => (Err PartitionNotFound, m)
  | Some idx =>
      let r := default REGION_EMPTY (rm_regions m !! idx) in
      if transfer_blocked new_owner idx 0 (or_guest_base r) (guest_end r) (rm_regions m)
      then (Err MemoryOverlap, m)
      else (Ok tt, mkRegionManager (alter (set_owner new_owner) idx (rm_regions m)) (rm_count m) (rm_next_id m))
  end.

Definition region_get (region_id : Z) (m : RegionManager) : option OwnedRegion :=
  find_slot region_id m ≫= λ idx, rm_regions m !! idx.

(** A write through the borrow [get_mut] returns. *)
Definition region_update (region_id : Z) (f : OwnedRegion → OwnedRegion) (m : RegionManager) : RegionManager :=
  match find_slot region_id m with
  | Some idx => mkRegionManager (alter f idx (rm_regions m)) (rm_count m) (rm_next_id m)
  | None => m
  end.

Fixpoint translate_loop (owner : PartitionId) (guest : Z) (regions : list OwnedRegion) : option AddressMapping :=
  match regions with
  | [] => None
  | region :: regions =>
      if negb (or_occupied region) || negb (or_owner region =? owner) then translate_loop owner guest regions
      else if contains_guest guest region then
        let offset := guest - or_guest_base region in
        Some (mkAddressMapping guest (wrap64 (or_host_base region + offset)) (or_permissions region))
      else translate_loop owner guest regions
  end.

Definition translate (owner : PartitionId) (guest : Z) (m : RegionManager) : option AddressMapping :=
  translate_loop owner guest (rm_regions m).

Definition count_for_partition (owner : PartitionId) (m : RegionManager) : nat :=
  count_by (λ r, or_occupied r && (or_owner r =? owner)) (rm_regions m).

(** The ids of a partition's regions, cut to the length of the output. *)
Definition regions_for_partition (owner : PartitionId) (out : list Z) (m : RegionManager) : nat * list Z :=
  let ids := take (length out)
    (or_id <$> List.filter (λ r, or_occupied r && (or_owner r =? owner)) (rm_regions m)) in
  (length ids, ids ++ drop (length ids) out).

(** *** Legacy descriptors ([lib.rs]) *)

Record MemoryRegion : Set := mkMemoryRegion {
  mr_guest_base : Z;
  mr_host_base : Z;
  mr_page_count : Z;
  mr_permissions : MemoryPermissions;
  mr_owner : PartitionId;
}.

Definition validate_region (r : MemoryRegion) : RvmResult unit :=
  if negb (is_page_aligned (mr_guest_base r)) then Err AlignmentError
  else if negb (is_page_aligned (mr_host_base r)) then Err AlignmentError
  else if mr_page_count r =? 0 then Err ResourceLimitExceeded
  else if negb (mp_read (mr_permissions r)) && negb (mp_write (mr_permissions r)) &&
          negb (mp_execute (mr_permissions r)) then Err Unsupported
  else Ok tt.

Definition mr_end (base : Z) (r : MemoryRegion) : Z :=
  wrap64 (base + wrap64 (mr_page_count r * PAGE_SIZE)).

Definition regions_overlap (a b : MemoryRegion) : bool :=
  if negb (mr_owner a =? mr_owner b) then false
  else overlaps (mr_guest_base a) (mr_end (mr_guest_base a) a) (mr_guest_base b) (mr_end (mr_guest_base b) b).

Definition regions_overlap_host (a b : MemoryRegion) : bool :=
  overlaps (mr_host_base a) (mr_end (mr_host_base a) a) (mr_host_base b) (mr_end (mr_host_base b) b).

(* ------------------------------------------------------------------ *)
(** ** Alignment *)

Lemma trailing_zeros_spec k : ∀ bits z,
  (k ≤ bits)%nat → Z.of_nat k ≤ trailing_zeros bits z ↔ z mod 2 ^ Z.of_nat k = 0.
Proof.
  assert (∀ bits z, 0 ≤ trailing_zeros bits z) as Hpos.
  { induction bits as [|bits IH]; intros z; cbn [trailing_zeros]; [lia|].
    specialize (IH (Z.div2 z)). destruct (Z.odd z); lia. }
  induction k as [|k IH]; intros bits z Hk.
  { rewrite Z.mod_1_r. specialize (Hpos bits z). split; [done|lia]. }
  destruct bits as [|bits]; [lia|]. cbn [trailing_zeros].
  rewrite Nat2Z.inj_succ, Z.pow_succ_r by lia. rewrite Z.rem_mul_r by lia.
  rewrite Zmod_odd, <-Z.div2_div.
  pose proof (Z.mod_pos_bound (Z.div2 z) (2 ^ Z.of_nat k) ltac:(lia)).
  specialize (IH bits (Z.div2 z) ltac:(lia)).
  destruct (Z.odd z); [lia|]. rewrite Z.add_0_l. split; [|lia].
  intros H1. rewrite (proj1 IH) by lia. done.
Qed.

Lemma is_page_aligned_spec a : is_page_aligned a = true ↔ a mod 4096 = 0.
Proof. unfold is_page_aligned. rewrite Z.leb_le. apply (trailing_zeros_spec 12). lia. Qed.

(* ------------------------------------------------------------------ *)
(** ** The invariant *)

(** A range of pages that does not reach the end of the address space. *)
Definition fits (base pages : Z) : Prop :=
  0 ≤ base ∧ 1 ≤ pages ≤ u32_max ∧ base + pages * PAGE_SIZE ≤ u64_max.

Definition in_pages (base pages x : Z) : Prop := base ≤ x < base + pages * PAGE_SIZE.

Definition guest_range (r : OwnedRegion) : Z → Prop := in_pages (or_guest_base r) (or_page_count r).
Definition host_range (r : OwnedRegion) : Z → Prop := in_pages (or_host_base r) (or_page_count r).

Record region_wf (r : OwnedRegion) : Prop := {
  rw_guest : fits (or_guest_base r) (or_page_count r);
  rw_host : fits (or_host_base r) (or_page_count r);
  rw_guest_aligned : or_guest_base r mod 4096 = 0;
  rw_host_aligned : or_host_base r mod 4096 = 0;
}.

Record region_inv (m : RegionManager) : Prop := {
  rg_count : rm_count m = count_by or_occupied (rm_regions m);
  rg_wf i r : rm_regions m !! i = Some r → or_occupied r = true → region_wf r;
  rg_guest i j r r' : rm_regions m !! i = Some r → rm_regions m !! j = Some r' → i ≠ j →
    or_occupied r = true → or_occupied r' = true → or_owner r = or_owner r' →
    ∀ x, guest_range r x → ¬ guest_range r' x;
  rg_host i j r r' : rm_regions m !! i = Some r → rm_regions m !! j = Some r' → i ≠ j →
    or_occupied r = true → or_occupied r' = true →
    ∀ x, host_range r x → ¬ host_range r' x;
}.

Lemma fits_end base pages :
  fits base pages → wrap64 (base + wrap64 (pages * PAGE_SIZE)) = base + pages * PAGE_SIZE.
Proof.
  unfold fits, PAGE_SIZE, u32_max, u64_max. intros (H0 & Hp & He).
  rewrite (wrap64_id (pages * 4096)) by (unfold is_u64, u64_max; lia).
  apply wrap64_id. unfold is_u64, u64_max. lia.
Qed.

Lemma region_wf_ends r :
  region_wf r → guest_end r = or_guest_base r + or_page_count r * PAGE_SIZE ∧
                host_end r = or_host_base r + or_page_count r * PAGE_SIZE.
Proof. intros [H1 H2 _ _]. split; by apply fits_end. Qed.

(** For ranges that fit, the overlap test is exact. *)
Lemma overlaps_spec a n b k :
  fits a n → fits b k →
  overlaps a (a + n * PAGE_SIZE) b (b + k * PAGE_SIZE) = false ↔ ∀ x, in_pages a n x → ¬ in_pages b k x.
Proof.
  unfold fits, overlaps, in_pages, PAGE_SIZE. intros Ha Hb.
  rewrite andb_false_iff, !Z.ltb_ge. split; [lia|].
  intros H. destruct (Z.le_gt_cases a b).
  - destruct (Z.le_gt_cases (a + n * 4096) b); [lia|]. exfalso. apply (H b); lia.
  - destruct (Z.le_gt_cases (b + k * 4096) a); [lia|]. exfalso. apply (H a); lia.
Qed.

Lemma region_manager_new_inv max : region_inv (region_manager_new max).
Proof.
  split; cbn [region_manager_new rm_regions rm_count].
  - by rewrite count_by_replicate.
  - by intros i r [-> _]%lookup_replicate.
  - by intros i j r r' [-> _]%lookup_replicate.
  - by intros i j r r' [-> _]%lookup_replicate.
Qed.

(** Writing one slot keeps the invariant when the new region is clear of the
    others. *)
Lemma region_inv_set m i r0 r :
  region_inv m → rm_regions m !! i = Some r0 →
  (or_occupied r = true → region_wf r ∧ ∀ j r', j ≠ i → rm_regions m !! j = Some r' →
    or_occupied r' = true →
    (or_owner r = or_owner r' → ∀ x, guest_range r x → ¬ guest_range r' x) ∧
    (∀ x, host_range r x → ¬ host_range r' x)) →
  ∀ n k, (n + Nat.b2n (or_occupied r0) = rm_count m + Nat.b2n (or_occupied r))%nat →
  region_inv (mkRegionManager (<[i:=r]> (rm_regions m)) n k).
Proof.
  intros [Hc Hw Hg Hh] Hi Hr n k Hn. split; cbn [rm_regions rm_count].
  - pose proof (count_by_insert or_occupied _ i _ r Hi) as Hc'.
    rewrite Hc in Hn. destruct (or_occupied r0), (or_occupied r); cbn in *; lia.
  - intros j s [(<- & <- & _)|(Hne & Hj)]%list_lookup_insert_Some Ho; [by apply Hr|by eapply Hw].
  - intros j j' s s' [(<- & <- & _)|(Hne & Hj)]%list_lookup_insert_Some
      [(E & <- & _)|(Hne' & Hj')]%list_lookup_insert_Some Hjj Ho Ho' Hown x Hx Hx'; try done.
    + destruct (Hr Ho) as [_ Hcl]. destruct (Hcl j' s') as [Hgc _]; [done..|]. by apply (Hgc Hown x).
    + destruct (Hr Ho') as [_ Hcl]. destruct (Hcl j s) as [Hgc _]; [congruence|done..|].
      by apply (Hgc (eq_sym Hown) x).
    + by apply (Hg j j' s s' Hj Hj' Hjj Ho Ho' Hown x).
  - intros j j' s s' [(<- & <- & _)|(Hne & Hj)]%list_lookup_insert_Some
      [(E & <- & _)|(Hne' & Hj')]%list_lookup_insert_Some Hjj Ho Ho' x Hx Hx'; try done.
    + destruct (Hr Ho) as [_ Hcl]. destruct (Hcl j' s') as [_ Hhc]; [done..|]. by apply (Hhc x).
    + destruct (Hr Ho') as [_ Hcl]. destruct (Hcl j s) as [_ Hhc]; [congruence|done..|]. by apply (Hhc x).
    + by apply (Hh j j' s s' Hj Hj' Hjj Ho Ho' x).
Qed.

(* ------------------------------------------------------------------ *)
(** ** Creation *)

Definition blocks (c : RegionConfig) (ns ne hs he : Z) (r : OwnedRegion) : bool :=
  or_occupied r &&
  ((or_owner r =? rc_owner c) && overlaps ns ne (or_guest_base r) (guest_end r) ||
   overlaps hs he (or_host_base r) (host_end r)).

Lemma create_scan_spec c ns ne hs he regions : ∀ i ff,
  match create_scan c ns ne hs he i ff regions with
  | Err e => e = MemoryOverlap ∧ ∃ j r, regions !! j = Some r ∧ blocks c ns ne hs he r = true
  | Ok ff' =>
      (∀ j r, regions !! j = Some r → blocks c ns ne hs he r = false) ∧
      match ff with
      | Some _ => ff' = ff
      | None => ff' = (λ j, i + j)%nat <$> position (λ r, negb (or_occupied r)) regions
      end
  end.
Proof.
  induction regions as [|r regions IH]; intros i ff; cbn [create_scan].
  { split; [done|]. by destruct ff. }
  assert (∀ P : nat → OwnedRegion → Prop, P O r → (∀ j s, regions !! j = Some s → P (S j) s) →
    ∀ j s, (r :: regions) !! j = Some s → P j s) as Hcons.
  { intros P H0 HS [|j] s; cbn; [by intros [= <-]|apply HS]. }
  destruct (or_occupied r) eqn:Eo; cbn [negb].
  - destruct ((or_owner r =? rc_owner c) && overlaps ns ne (or_guest_base r) (guest_end r)) eqn:E1.
    { split; [done|]. exists O, r. split; [done|]. unfold blocks. by rewrite Eo, E1. }
    destruct (overlaps hs he (or_host_base r) (host_end r)) eqn:E2.
    { split; [done|]. exists O, r. split; [done|]. unfold blocks. by rewrite Eo, E1, E2. }
    specialize (IH (S i) ff). destruct (create_scan _ _ _ _ _ _ _ _) as [ff'|e].
    + destruct IH as [Hb Hff]. split.
      * apply Hcons; [|done]. unfold blocks. by rewrite Eo, E1, E2.
      * destruct ff; [done|]. cbn [position]. rewrite Eo. cbn [negb]. rewrite Hff.
        destruct (position _ regions); cbn; [f_equal; lia|done].
    + destruct IH as (-> & j & s & Hj & Hs). split; [done|]. by exists (S j), s.
  - specialize (IH (S i) (if is_none ff then Some i else ff)).
    destruct (create_scan _ _ _ _ _ _ _ _) as [ff'|e].
    + destruct IH as [Hb Hff]. split.
      * apply Hcons; [|done]. unfold blocks. by rewrite Eo.
      * destruct ff; cbn [is_none] in Hff; [done|]. cbn [position]. rewrite Eo. cbn.
        rewrite Hff. f_equal. lia.
    + destruct IH as (-> & j & s & Hj & Hs). split; [done|]. by exists (S j), s.
Qed.

(** The addresses of a configuration do not wrap around. *)
Definition config_in_space (c : RegionConfig) : Prop :=
  0 ≤ rc_guest_base c ∧ 0 ≤ rc_host_base c ∧ 0 ≤ rc_page_count c ≤ u32_max ∧
  rc_guest_base c + rc_page_count c * PAGE_SIZE ≤ u64_max ∧
  rc_host_base c + rc_page_count c * PAGE_SIZE ≤ u64_max.

Lemma overlaps_true a n b k :
  fits a n → fits b k →
  overlaps a (a + n * PAGE_SIZE) b (b + k * PAGE_SIZE) = true → ∃ x, in_pages a n x ∧ in_pages b k x.
Proof.
  unfold fits, overlaps, in_pages, PAGE_SIZE. intros Ha Hb (H1 & H2)%andb_true_iff.
  rewrite Z.ltb_lt in *. exists (Z.max a b). lia.
Qed.

Lemma blocks_false c r :
  config_in_space c → rc_page_count c ≠ 0 → or_occupied r = true → region_wf r →
  blocks c (rc_guest_base c) (wrap64 (rc_guest_base c + wrap64 (rc_page_count c * PAGE_SIZE)))
    (rc_host_base c) (wrap64 (rc_host_base c + wrap64 (rc_page_count c * PAGE_SIZE))) r = false →
  (rc_owner c = or_owner r → ∀ x, guest_range (region_of_config c) x → ¬ guest_range r x) ∧
  (∀ x, host_range (region_of_config c) x → ¬ host_range r x).
Proof.
  intros (Hg & Hh & Hp & Hge & Hhe) Hp0 Ho Hw. destruct (region_wf_ends r Hw) as [Eg Eh].
  assert (fits (rc_guest_base c) (rc_page_count c)) as Fg by (unfold fits; lia).
  assert (fits (rc_host_base c) (rc_page_count c)) as Fh by (unfold fits; lia).
  unfold blocks. rewrite Ho, Eg, Eh, !fits_end by done. cbn [andb]. intros [H1 H2]%orb_false_iff. split.
  - intros E. rewrite E, Z.eqb_refl in H1. cbn [andb] in H1.
    exact (proj1 (overlaps_spec _ _ _ _ Fg (rw_guest r Hw)) H1).
  - exact (proj1 (overlaps_spec _ _ _ _ Fh (rw_host r Hw)) H2).
Qed.

Lemma blocks_true c r :
  config_in_space c → rc_page_count c ≠ 0 → (or_occupied r = true → region_wf r) →
  blocks c (rc_guest_base c) (wrap64 (rc_guest_base c + wrap64 (rc_page_count c * PAGE_SIZE)))
    (rc_host_base c) (wrap64 (rc_host_base c + wrap64 (rc_page_count c * PAGE_SIZE))) r = true →
  or_occupied r = true ∧
  ((rc_owner c = or_owner r ∧ ∃ x, guest_range (region_of_config c) x ∧ guest_range r x) ∨
   ∃ x, host_range (region_of_config c) x ∧ host_range r x).
Proof.
  intros (Hg & Hh & Hp & Hge & Hhe) Hp0 Hw'. unfold blocks. intros [Ho H]%andb_true_iff.
  specialize (Hw' Ho). destruct (region_wf_ends r Hw') as [Eg Eh].
  assert (fits (rc_guest_base c) (rc_page_count c)) as Fg by (unfold fits; lia).
  assert (fits (rc_host_base c) (rc_page_count c)) as Fh by (unfold fits; lia).
  split; [done|]. rewrite Eg, Eh, !fits_end in H by done. apply orb_true_iff in H as [H|H]; split_bool.
  - left. split; [done|]. exact (overlaps_true _ _ _ _ Fg (rw_guest r Hw') H0).
  - right. exact (overlaps_true _ _ _ _ Fh (rw_host r Hw') H).
Qed.

(** [create] refuses exactly what it should and otherwise fills a free slot
    with a region clear of all others. *)
Lemma region_create_spec c m :
  region_inv m → config_in_space c →
  match region_create c m with
  | (Ok id, m') => id = rc_id c ∧ region_inv m' ∧ region_wf (region_of_config c) ∧
      ∃ i r0, rm_regions m !! i = Some r0 ∧ or_occupied r0 = false ∧
        rm_regions m' = <[i := region_of_config c]> (rm_regions m)
  | (Err e, m') => m' = m ∧
      match e with
      | AlignmentError => ¬ (rc_guest_base c mod 4096 = 0 ∧ rc_host_base c mod 4096 = 0)
      | ResourceLimitExceeded =>
          rc_page_count c = 0 ∨ ∀ i r, rm_regions m !! i = Some r → or_occupied r = true
      | MemoryOverlap => ∃ i r, rm_regions m !! i = Some r ∧ or_occupied r = true ∧
          ((rc_owner c = or_owner r ∧ ∃ x, guest_range (region_of_config c) x ∧ guest_range r x) ∨
           ∃ x, host_range (region_of_config c) x ∧ host_range r x)
      | _ => False
      end
  end.
Proof.
  intros Hi Hc. unfold region_create.
  destruct (is_page_aligned (rc_guest_base c)) eqn:Ag; cbn [negb].
  2: { split; [done|]. rewrite <-!is_page_aligned_spec, Ag. by intros [? _]. }
  destruct (is_page_aligned (rc_host_base c)) eqn:Ah; cbn [negb].
  2: { split; [done|]. rewrite <-!is_page_aligned_spec, Ah. by intros [_ ?]. }
  apply is_page_aligned_spec in Ag, Ah.
  destruct (rc_page_count c =? 0) eqn:E0; split_bool; [split; [done|by left]|].
  destruct (length (rm_regions m) <=? rm_count m)%nat eqn:Ef; split_bool.
  { split; [done|]. right. intros i r Hr. rewrite (rg_count m Hi) in Ef.
    by apply (count_by_all or_occupied (rm_regions m) Ef i r Hr). }
  pose proof (create_scan_spec c (rc_guest_base c)
    (wrap64 (rc_guest_base c + wrap64 (rc_page_count c * PAGE_SIZE))) (rc_host_base c)
    (wrap64 (rc_host_base c + wrap64 (rc_page_count c * PAGE_SIZE))) (rm_regions m) 0 None) as Hs.
  destruct (create_scan _ _ _ _ _ _ _ _) as [ff|e].
  - destruct Hs as [Hb ->]. destruct (position _ _) as [i|] eqn:Hpos; cbn.
    + apply position_lookup in Hpos as (r0 & Hr0 & Ho0). split_bool.
      assert (region_wf (region_of_config c)) as Hwf.
      { destruct Hc as (? & ? & ? & ? & ?). split; try done; unfold fits; cbn; lia. }
      split; [done|]. split; [|split; [done|by exists i, r0]].
      eapply region_inv_set; [done|done| |rewrite Ho0; cbn; lia].
      intros _. split; [done|]. intros j r' Hne Hj Ho'.
      apply (blocks_false c r' Hc E0 Ho' (rg_wf m Hi j r' Hj Ho') (Hb j r' Hj)).
    + split; [done|]. right. intros j r Hr. rewrite position_None in Hpos.
      specialize (Hpos j r Hr). by split_bool.
  - destruct Hs as (-> & j & r & Hj & Hbl). split; [done|]. exists j, r. split; [done|].
    by apply (blocks_true c r Hc E0 (rg_wf m Hi j r Hj)).
Qed.

(* ------------------------------------------------------------------ *)
(** ** Translation *)

Definition accesses (p : PartitionId) (g : Z) (r : OwnedRegion) : Prop :=
  or_occupied r = true ∧ or_owner r = p ∧ guest_range r g.

Definition mapping_of (g : Z) (r : OwnedRegion) : AddressMapping :=
  mkAddressMapping g (or_host_base r + (g - or_guest_base r)) (or_permissions r).

Lemma translate_loop_find p g l :
  translate_loop p g l =
  (λ r, mkAddressMapping g (wrap64 (or_host_base r + (g - or_guest_base r))) (or_permissions r)) <$>
    find_by (λ r, or_occupied r && (or_owner r =? p) && contains_guest g r) l.
Proof.
  induction l as [|r l IH]; [done|]. cbn [translate_loop find_by].
  by destruct (or_occupied r), (or_owner r =? p), (contains_guest g r).
Qed.

Lemma contains_guest_spec g r : region_wf r → contains_guest g r = true ↔ guest_range r g.
Proof.
  intros Hw. unfold contains_guest, guest_range, in_pages. rewrite (proj1 (region_wf_ends r Hw)).
  by rewrite andb_true_iff, Z.leb_le, Z.ltb_lt.
Qed.

Lemma mapping_of_host g r :
  region_wf r → guest_range r g →
  wrap64 (or_host_base r + (g - or_guest_base r)) = am_host (mapping_of g r) ∧
  host_range r (am_host (mapping_of g r)).
Proof.
  intros [Hg Hh _ _]. unfold guest_range, host_range, in_pages, mapping_of, fits in *. cbn.
  intros Hr. split; [apply wrap64_id; unfold is_u64; lia|lia].
Qed.

Lemma translate_iff m p g a :
  region_inv m →
  translate p g m = Some a ↔ ∃ i r, rm_regions m !! i = Some r ∧ accesses p g r ∧ a = mapping_of g r.
Proof.
  intros Hi. unfold translate. rewrite translate_loop_find, fmap_Some.
  assert (∀ i r, rm_regions m !! i = Some r →
    or_occupied r && (or_owner r =? p) && contains_guest g r = true ↔ accesses p g r) as Hacc.
  { intros i r Hr. unfold accesses. rewrite !andb_true_iff, Z.eqb_eq. split.
    - intros ((Ho & Hp) & Hc). apply contains_guest_spec in Hc; [done|by eapply rg_wf].
    - intros (Ho & Hp & Hc). split_and!; try done. apply contains_guest_spec; [by eapply rg_wf|done]. }
  assert (∀ i r, rm_regions m !! i = Some r → accesses p g r →
    mkAddressMapping g (wrap64 (or_host_base r + (g - or_guest_base r))) (or_permissions r) = mapping_of g r) as Hmap.
  { intros i r Hr (Ho & _ & Hg). unfold mapping_of.
    by rewrite (proj1 (mapping_of_host g r (rg_wf m Hi i r Hr Ho) Hg)). }
  split.
  - intros (r & [Hb (i & Hr)]%find_by_Some & ->). apply (Hacc i r Hr) in Hb.
    exists i, r. split_and!; [done..|by eapply Hmap].
  - intros (i & r & Hr & Ha & ->). destruct (find_by _ _) as [r'|] eqn:E.
    + apply find_by_Some in E as [Hb (j & Hr')]. pose proof (proj1 (Hacc j r' Hr') Hb) as Ha'.
      destruct (decide (i = j)) as [<-|Hne].
      * assert (r' = r) as -> by congruence. exists r. split; [done|]. symmetry. by eapply Hmap.
      * destruct Ha as (Ho & Hp & Hg), Ha' as (Ho' & Hp' & Hg').
        exfalso. by apply (rg_guest m Hi i j r r' Hr Hr' Hne Ho Ho' ltac:(congruence) g).
    + rewrite find_by_None in E. specialize (E i r Hr). apply (Hacc i r Hr) in Ha. congruence.
Qed.

(** What a write to one slot does to translation. *)
Lemma translate_set m m' i r0 r q h :
  region_inv m → region_inv m' → rm_regions m !! i = Some r0 → rm_regions m' = <[i:=r]> (rm_regions m) →
  (accesses q h r → translate q h m' = Some (mapping_of h r)) ∧
  (¬ accesses q h r → accesses q h r0 → translate q h m' = None) ∧
  (¬ accesses q h r → ¬ accesses q h r0 → translate q h m' = translate q h m).
Proof.
  intros Hi Hi' Hr0 E. assert (i < length (rm_regions m))%nat as Hlt by by eapply lookup_lt_Some.
  split; [|split].
  - intros Ha. apply translate_iff; [done|]. exists i, r. split_and!; try done.
    rewrite E. by apply list_lookup_insert_eq.
  - intros Hna Ha. destruct (translate q h m') as [a|] eqn:Et; [|done]. exfalso.
    apply translate_iff in Et as (j & s & Hj & Hs & _); [|done]. rewrite E in Hj.
    apply list_lookup_insert_Some in Hj as [(<- & <- & _)|(Hne & Hj)]; [done|].
    destruct Ha as (Ho & Hp & Hg), Hs as (Ho' & Hp' & Hg').
    by apply (rg_guest m Hi i j r0 s Hr0 Hj Hne Ho Ho' ltac:(congruence) h).
  - intros Hna Hna0. apply option_eq. intros a. rewrite !translate_iff by done. rewrite E. split.
    + intros (j & s & [(<- & <- & _)|(Hne & Hj)]%list_lookup_insert_Some & Hs & ->); [done|]. by exists j, s.
    + intros (j & s & Hj & Hs & ->). exists j, s. split_and!; try done.
      rewrite list_lookup_insert_ne; [done|]. intros <-. congruence.
Qed.

(* ------------------------------------------------------------------ *)
(** ** Destruction, transfer and updates *)

Lemma find_slot_spec id m :
  match find_slot id m with
  | Some i => ∃ r, rm_regions m !! i = Some r ∧ or_occupied r = true ∧ or_id r = id
  | None => ∀ i r, rm_regions m !! i = Some r → or_occupied r = true → or_id r ≠ id
  end.
Proof.
  unfold find_slot. destruct (position _ _) as [i|] eqn:E.
  - apply position_lookup in E as (r & Hr & Hb). split_bool. eauto.
  - intros i r Hr Ho Hid. rewrite position_None in E. specialize (E i r Hr).
    rewrite Ho, Hid, Z.eqb_refl in E. done.
Qed.

Lemma region_destroy_spec id m :
  region_inv m →
  match region_destroy id m with
  | (Ok r, m') => region_inv m' ∧ or_id r = id ∧ ∃ i, rm_regions m !! i = Some r ∧ or_occupied r = true ∧
      rm_regions m' = <[i := REGION_EMPTY]> (rm_regions m)
  | (Err e, m') => e = PartitionNotFound ∧ m' = m ∧
      ∀ i r, rm_regions m !! i = Some r → or_occupied r = true → or_id r ≠ id
  end.
Proof.
  intros Hi. unfold region_destroy. pose proof (find_slot_spec id m) as H.
  destruct (find_slot id m) as [i|]; [|done]. destruct H as (r & Hr & Ho & Hid). rewrite Hr. cbn [default].
  split; [|split; [done|by exists i]]. eapply region_inv_set; [done|done|done|].
  rewrite Ho. cbn [Nat.b2n REGION_EMPTY or_occupied]. rewrite (rg_count m Hi).
  pose proof (count_by_pos or_occupied _ i r Hr Ho). lia.
Qed.

Lemma transfer_blocked_spec no idx s e l : ∀ i,
  transfer_blocked no idx i s e l = true ↔
  ∃ j r, l !! j = Some r ∧ (i + j)%nat ≠ idx ∧ or_occupied r = true ∧ or_owner r = no ∧
    overlaps s e (or_guest_base r) (guest_end r) = true.
Proof.
  induction l as [|r l IH]; intros i; cbn [transfer_blocked].
  { split; [done|]. by intros (j & r & ? & _). }
  assert ((∃ j s', l !! j = Some s' ∧ (S i + j)%nat ≠ idx ∧ or_occupied s' = true ∧ or_owner s' = no ∧
    overlaps s e (or_guest_base s') (guest_end s') = true) ↔
    ∃ j s', (r :: l) !! S j = Some s' ∧ (i + S j)%nat ≠ idx ∧ or_occupied s' = true ∧ or_owner s' = no ∧
    overlaps s e (or_guest_base s') (guest_end s') = true) as Hsh.
  { split; intros (j & s' & ? & ? & ?); exists j, s'; destruct_and?; split_and!; try done; lia. }
  destruct ((i =? idx)%nat || negb (or_occupied r) || negb (or_owner r =? no)) eqn:E;
    [|destruct (overlaps s e (or_guest_base r) (guest_end r)) eqn:Eo].
  - rewrite IH, Hsh. split; [intros (j & s' & H); by exists (S j), s'|].
    intros ([|j] & s' & Hj & Hrest); [|by exists j, s'].
    injection Hj as <-. destruct Hrest as (Hne & Ho & Hw & _). rewrite Ho, Hw, Z.eqb_refl, Nat.add_0_r in *.
    by apply orb_true_iff in E as [[E|?]%orb_true_iff|?]; [apply Nat.eqb_eq in E|..].
  - split; [intros _|done]. apply orb_false_iff in E as [[E1 E2]%orb_false_iff E3].
    split_bool. exists O, r. rewrite Nat.add_0_r. done.
  - rewrite IH, Hsh. split; [intros (j & s' & H); by exists (S j), s'|].
    intros ([|j] & s' & Hj & Hrest); [|by exists j, s'].
    injection Hj as <-. destruct Hrest as (_ & _ & _ & Hov). congruence.
Qed.

(** Changing what does not place the region. *)
Definition same_place (f : OwnedRegion → OwnedRegion) : Prop := ∀ r,
  or_occupied (f r) = or_occupied r ∧ or_owner (f r) = or_owner r ∧ or_guest_base (f r) = or_guest_base r ∧
  or_host_base (f r) = or_host_base r ∧ or_page_count (f r) = or_page_count r.

Lemma alter_insert {A} (f : A → A) (l : list A) i x : l !! i = Some x → alter f i l = <[i := f x]> l.
Proof.
  intros Hx. apply list_eq. intros j. destruct (decide (i = j)) as [<-|].
  - rewrite list_lookup_alter_eq, Hx, list_lookup_insert_eq; [done|]. by eapply lookup_lt_Some.
  - by rewrite list_lookup_alter_ne, list_lookup_insert_ne.
Qed.

Lemma region_update_inv id f m : same_place f → region_inv m → region_inv (region_update id f m).
Proof.
  intros Hf Hi. unfold region_update. pose proof (find_slot_spec id m) as H.
  destruct (find_slot id m) as [i|]; [|done]. destruct H as (r & Hr & Ho & _).
  rewrite (alter_insert _ _ _ _ Hr). destruct (Hf r) as (Eo & Ew & Eg & Eh & Ep).
  eapply region_inv_set; [done|done| |rewrite Eo; lia].
  intros _. destruct (rg_wf m Hi i r Hr Ho) as [W1 W2 W3 W4].
  split; [split; rewrite ?Eg, ?Eh, ?Ep; done|].
  unfold guest_range, host_range. rewrite Ew, Eg, Eh, Ep. intros j r' Hne Hj Ho'. split.
  - intros E. by apply (rg_guest m Hi i j r r').
  - by apply (rg_host m Hi i j r r').
Qed.

Lemma region_transfer_spec id no m :
  region_inv m →
  match region_transfer id no m with
  | (Ok _, m') => region_inv m' ∧ ∃ i r, rm_regions m !! i = Some r ∧ or_occupied r = true ∧ or_id r = id ∧
      rm_regions m' = <[i := set_owner no r]> (rm_regions m)
  | (Err e, m') => m' = m ∧
      match e with
      | PartitionNotFound => ∀ i r, rm_regions m !! i = Some r → or_occupied r = true → or_id r ≠ id
      | MemoryOverlap => ∃ i r j r', rm_regions m !! i = Some r ∧ or_id r = id ∧ j ≠ i ∧
          rm_regions m !! j = Some r' ∧ or_occupied r' = true ∧ or_owner r' = no ∧
          ∃ x, guest_range r x ∧ guest_range r' x
      | _ => False
      end
  end.
Proof.
  intros Hi. unfold region_transfer. pose proof (find_slot_spec id m) as H.
  destruct (find_slot id m) as [i|]; [|done]. destruct H as (r & Hr & Ho & Hid). rewrite Hr.
  change (default REGION_EMPTY (Some r)) with r. cbv zeta. pose proof (rg_wf m Hi i r Hr Ho) as Hw. destruct (region_wf_ends r Hw) as [Eg _].
  destruct (transfer_blocked no i 0 (or_guest_base r) (guest_end r) (rm_regions m)) eqn:E.
  - split; [done|]. apply transfer_blocked_spec in E as (j & r' & Hj & Hne & Ho' & Hw' & Hov).
    pose proof (rg_wf m Hi j r' Hj Ho') as Hwf'. rewrite Eg, (proj1 (region_wf_ends r' Hwf')) in Hov.
    apply overlaps_true in Hov; [|apply Hw|apply Hwf']. by exists i, r, j, r'.
  - rewrite (alter_insert _ _ _ _ Hr). split; [|by exists i, r].
    eapply region_inv_set; [done|done| |cbn [set_owner or_occupied]; rewrite Ho; lia].
    intros _. split; [by destruct Hw|]. intros j r' Hne Hj Ho'. split.
    + cbn. intros Hno. pose proof (rg_wf m Hi j r' Hj Ho') as Hwf'.
      apply (overlaps_spec _ _ _ _ (rw_guest r Hw) (rw_guest r' Hwf')).
      rewrite <-Eg, <-(proj1 (region_wf_ends r' Hwf')). apply not_true_is_false. intros Hov.
      apply not_true_iff_false in E. apply E, transfer_blocked_spec. by exists j, r'.
    + by apply (rg_host m Hi i j r r').
Qed.

(* ------------------------------------------------------------------ *)
(** ** Histories *)

Definition set_tier (t : Tier) (r : OwnedRegion) : OwnedRegion :=
  mkOwnedRegion (or_id r) (or_owner r) (or_guest_base r) (or_host_base r) (or_page_count r) t
    (or_permissions r) (or_occupied r).
Definition set_permissions (p : MemoryPermissions) (r : OwnedRegion) : OwnedRegion :=
  mkOwnedRegion (or_id r) (or_owner r) (or_guest_base r) (or_host_base r) (or_page_count r) (or_tier r)
    p (or_occupied r).

Inductive region_op : Set :=
| RopCreate (c : RegionConfig)
| RopCreateAuto (owner : PartitionId) (guest_base host_base page_count : Z) (tier : Tier) (perms : MemoryPermissions)
| RopDestroy (id : Z)
| RopTransfer (id : Z) (new_owner : PartitionId)
| RopSetTier (id : Z) (t : Tier)
| RopSetPermissions (id : Z) (p : MemoryPermissions).

Definition region_op_in_space (op : region_op) : Prop :=
  match op with
  | RopCreate c => config_in_space c
  | RopCreateAuto owner g h n t p => config_in_space (mkRegionConfig 0 owner g h n t p)
  | _ => True
  end.

Definition run_region (m : RegionManager) (op : region_op) : RegionManager :=
  match op with
  | RopCreate c => (region_create c m).2
  | RopCreateAuto owner g h n t p => (region_create_auto_id owner g h n t p m).2
  | RopDestroy id => (region_destroy id m).2
  | RopTransfer id no => (region_transfer id no m).2
  | RopSetTier id t => region_update id (set_tier t) m
  | RopSetPermissions id p => region_update id (set_permissions p) m
  end.

Definition run_regions (max : nat) (ops : list region_op) : RegionManager :=
  foldl run_region (region_manager_new max) ops.

Lemma region_inv_next_id m k : region_inv m → region_inv (mkRegionManager (rm_regions m) (rm_count m) k).
Proof. by intros []; split. Qed.

Lemma run_region_inv m op : region_inv m → region_op_in_space op → region_inv (run_region m op).
Proof.
  intros Hi Hok. destruct op as [c|owner g h n t p|id|id no|id t|id p]; cbn [run_region].
  - pose proof (region_create_spec c m Hi Hok) as H. destruct (region_create c m) as [[?|?] m'];
      [by destruct H as (_ & ? & _)|by destruct H as [-> _]].
  - unfold region_create_auto_id. cbv zeta.
    pose proof (region_create_spec (mkRegionConfig (rm_next_id m) owner g h n t p) _
      (region_inv_next_id m (wrap64 (rm_next_id m + 1)) Hi) Hok) as H.
    destruct (region_create _ _) as [[?|?] m'];
      [by destruct H as (_ & ? & _)|destruct H as [-> _]; by apply region_inv_next_id].
  - pose proof (region_destroy_spec id m Hi) as H. destruct (region_destroy id m) as [[?|?] m'];
      [by destruct H as (? & _)|by destruct H as (_ & -> & _)].
  - pose proof (region_transfer_spec id no m Hi) as H. destruct (region_transfer id no m) as [[?|?] m'];
      [by destruct H as (? & _)|by destruct H as (-> & _)].
  - by apply region_update_inv.
  - by apply region_update_inv.
Qed.

Lemma run_regions_inv max ops : Forall region_op_in_space ops → region_inv (run_regions max ops).
Proof.
  intros Hok. unfold run_regions. pose proof (region_manager_new_inv max) as Hi. revert Hi.
  generalize (region_manager_new max). induction Hok as [|op ops Hop Hok IH]; intros m Hi; [done|].
  cbn [foldl]. apply IH. by apply run_region_inv.
Qed.

(** C13: Partitions are isolated.  After any history of creations,
    destructions, transfers and changes of tier or permissions in which no
    region wraps around the address space, a host address is reachable from at
    most one guest address of at most one partition. *)
Theorem region_isolation max ops p q g h a b :
  Forall region_op_in_space ops →
  translate p g (run_regions max ops) = Some a → translate q h (run_regions max ops) = Some b →
  am_host a = am_host b → p = q ∧ g = h ∧ a = b.
Proof.
  intros Hok. pose proof (run_regions_inv max ops Hok) as Hi.
  rewrite !translate_iff by done. intros (i & r & Hr & Ha & ->) (j & s & Hs & Hb & ->) E.
  destruct Ha as (Ho & Hp & Hg), Hb as (Ho' & Hq & Hh).
  pose proof (proj2 (mapping_of_host g r (rg_wf _ Hi i r Hr Ho) Hg)) as H1.
  pose proof (proj2 (mapping_of_host h s (rg_wf _ Hi j s Hs Ho') Hh)) as H2. rewrite E in H1.
  destruct (decide (i = j)) as [<-|Hne].
  - assert (s = r) as -> by congruence. cbn in E. assert (g = h) as -> by lia. split_and!; congruence.
  - exfalso. by apply (rg_host _ Hi i j r s Hr Hs Hne Ho Ho' _ H1).
Qed.

(** [create] is exact.  It succeeds only for aligned bases, at least one
    page, a free slot and a range that meets neither the owner's guest ranges
    nor anyone's host range, and each error names its reason and changes
    nothing.  A created region is translated linearly with its permissions,
    and no other translation changes. *)
Theorem region_create_functional c m :
  region_inv m → config_in_space c →
  match region_create c m with
  | (Ok id, m') => id = rc_id c ∧ region_inv m' ∧
      (rc_guest_base c mod 4096 = 0 ∧ rc_host_base c mod 4096 = 0) ∧
      ∀ q g, translate q g m' =
        if decide (q = rc_owner c ∧ rc_guest_base c ≤ g < rc_guest_base c + rc_page_count c * PAGE_SIZE)
        then Some (mkAddressMapping g (rc_host_base c + (g - rc_guest_base c)) (rc_permissions c))
        else translate q g m
  | (Err e, m') => m' = m ∧
      match e with
      | AlignmentError => ¬ (rc_guest_base c mod 4096 = 0 ∧ rc_host_base c mod 4096 = 0)
      | ResourceLimitExceeded =>
          rc_page_count c = 0 ∨ ∀ i r, rm_regions m !! i = Some r → or_occupied r = true
      | MemoryOverlap => ∃ i r, rm_regions m !! i = Some r ∧ or_occupied r = true ∧
          ((rc_owner c = or_owner r ∧ ∃ x, guest_range (region_of_config c) x ∧ guest_range r x) ∨
           ∃ x, host_range (region_of_config c) x ∧ host_range r x)
      | _ => False
      end
  end.
Proof.
  intros Hi Hc. pose proof (region_create_spec c m Hi Hc) as H.
  destruct (region_create c m) as [[id|e] m']; [|done].
  destruct H as (-> & Hi' & Hw & i & r0 & Hr0 & Ho0 & E).
  split_and!; [done|done|apply Hw|apply Hw|]. intros q g.
  destruct (translate_set m m' i r0 (region_of_config c) q g Hi Hi' Hr0 E) as (H1 & _ & H3).
  case_decide as Hd.
  - apply H1. destruct Hd as [-> Hd]. done.
  - apply H3; [|intros (Ho & _); congruence]. intros (_ & <- & Hg). by apply Hd.
Qed.

(** [transfer] moves a region and nothing else.  On success every address
    of the region translates as before but for the new owner only, and all
    other translations stand; it fails, without effect, only for an unknown
    region or one that would meet a range of the new owner. *)
Theorem region_transfer_functional id no m :
  region_inv m →
  match region_transfer id no m with
  | (Ok _, m') => region_inv m' ∧ ∃ i r, rm_regions m !! i = Some r ∧ or_occupied r = true ∧ or_id r = id ∧
      (∀ g, guest_range r g → translate no g m' = translate (or_owner r) g m) ∧
      (∀ g, guest_range r g → or_owner r ≠ no → translate (or_owner r) g m' = None) ∧
      (∀ q g, ¬ (guest_range r g ∧ (q = or_owner r ∨ q = no)) → translate q g m' = translate q g m)
  | (Err e, m') => m' = m ∧
      match e with
      | PartitionNotFound => ∀ i r, rm_regions m !! i = Some r → or_occupied r = true → or_id r ≠ id
      | MemoryOverlap => ∃ i r j r', rm_regions m !! i = Some r ∧ or_id r = id ∧ j ≠ i ∧
          rm_regions m !! j = Some r' ∧ or_occupied r' = true ∧ or_owner r' = no ∧
          ∃ x, guest_range r x ∧ guest_range r' x
      | _ => False
      end
  end.
Proof.
  intros Hi. pose proof (region_transfer_spec id no m Hi) as H.
  destruct (region_transfer id no m) as [[[]|e] m']; [|done].
  destruct H as (Hi' & i & r & Hr & Ho & Hid & E). split; [done|]. exists i, r.
  split; [done|]. split; [done|]. split; [done|].
  assert (∀ q g, _) as Ht by (intros q g; exact (translate_set m m' i r (set_owner no r) q g Hi Hi' Hr E)).
  split_and!.
  - intros g Hg. destruct (Ht no g) as (H1 & _). rewrite H1 by done.
    symmetry. apply translate_iff; [done|]. by exists i, r.
  - intros g Hg Hne. apply (Ht (or_owner r) g); [|done]. intros (_ & Hw & _). by apply Hne.
  - intros q g Hn. apply (Ht q g).
    + intros (_ & <- & Hg). apply Hn. split; [done|by right].
    + intros (_ & <- & Hg). apply Hn. split; [done|by left].
Qed.

(** The additions of [create] and [host_end] are unchecked.  A region whose
    host range wraps around passes the overlap test, and its second page is
    the first page of the address space, which another partition owns. *)
Definition wrapped_regions : RegionManager :=
  run_regions 2
    [RopCreate (mkRegionConfig 1 1 4096 0 1 Warm READ_WRITE);
     RopCreate (mkRegionConfig 2 2 65536 (u64_max - 4095) 2 Warm READ_WRITE)].

Lemma region_wraparound_breaks_isolation :
  translate 1 4096 wrapped_regions = Some (mkAddressMapping 4096 0 READ_WRITE) ∧
  translate 2 (65536 + 4096) wrapped_regions = Some (mkAddressMapping 69632 0 READ_WRITE).
Proof. split; vm_compute; reflexivity. Qed.

(* ------------------------------------------------------------------ *)
(** ** Samples *)

Definition sample_config (id owner guest host : Z) : RegionConfig :=
  mkRegionConfig id owner guest host 4 Warm READ_WRITE.

Definition sample_region_ops : list region_op :=
  [RopCreate (sample_config 1 1 0x1000 0x20000); RopCreate (sample_config 2 2 0x1000 0x30000);
   RopTransfer 1 3; RopCreateAuto 1 0x1000 0x40000 4 Hot READ_ONLY].

Lemma sample_region_ops_ok : Forall region_op_in_space sample_region_ops.
Proof.
  repeat constructor; unfold config_in_space; cbn; unfold PAGE_SIZE, u32_max, u64_max; lia.
Qed.

Lemma region_isolation_witness :
  translate 3 0x1008 (run_regions 4 sample_region_ops) = Some (mkAddressMapping 0x1008 0x20008 READ_WRITE) ∧
  ∀ q h b, translate q h (run_regions 4 sample_region_ops) = Some b → am_host b = 0x20008 → q = 3 ∧ h = 0x1008.
Proof.
  assert (translate 3 0x1008 (run_regions 4 sample_region_ops) = Some (mkAddressMapping 0x1008 0x20008 READ_WRITE))
    as Ha by (vm_compute; reflexivity).
  split; [exact Ha|]. intros q h b Hb Eh.
  destruct (region_isolation 4 sample_region_ops 3 q 0x1008 h _ b sample_region_ops_ok Ha Hb (eq_sym Eh))
    as (Eq & Eg & _). split; [exact (eq_sym Eq)|exact (eq_sym Eg)].
Defined.

Lemma sample_regions_inv : region_inv (run_regions 4 sample_region_ops).
Proof. apply run_regions_inv, sample_region_ops_ok. Qed.

Lemma region_create_functional_witness :
  config_in_space (sample_config 9 5 0x8000 0x80000) ∧
  translate 5 0x9000 (region_create (sample_config 9 5 0x8000 0x80000) (run_regions 4 sample_region_ops)).2
    = Some (mkAddressMapping 0x9000 0x81000 READ_WRITE).
Proof.
  assert (config_in_space (sample_config 9 5 0x8000 0x80000)) as Hc
    by (unfold config_in_space; cbn; unfold PAGE_SIZE, u32_max, u64_max; lia).
  split; [exact Hc|].
  pose proof (region_create_functional (sample_config 9 5 0x8000 0x80000) _ sample_regions_inv Hc) as H.
  assert (is_ok (region_create (sample_config 9 5 0x8000 0x80000) (run_regions 4 sample_region_ops)).1 = true)
    as Hok by (vm_compute; reflexivity).
  destruct (region_create _ _) as [[id|e] m']; [|discriminate Hok].
  destruct H as (_ & _ & _ & Ht). cbn [snd]. rewrite Ht. vm_compute. reflexivity.
Defined.

Lemma region_transfer_functional_witness :
  is_ok (region_transfer 2 7 (run_regions 4 sample_region_ops)).1 = true ∧
  region_inv (region_transfer 2 7 (run_regions 4 sample_region_ops)).2.
Proof.
  assert (is_ok (region_transfer 2 7 (run_regions 4 sample_region_ops)).1 = true) as Hok
    by (vm_compute; reflexivity).
  split; [exact Hok|].
  pose proof (region_transfer_functional 2 7 _ sample_regions_inv) as H.
  destruct (region_transfer 2 7 _) as [[[]|e] m']; [|discriminate Hok]. apply H.
Defined.
