(* ===== verification/Reconstruct.v ===== *)
(** Dormant memory: [crates/rvm-memory/src/reconstruction.rs].

    A dormant region is kept as a run-length compressed checkpoint and a list
    of witnessed writes.  Compression is proved lossless and decompression
    total; reconstruction is proved to yield the checkpointed contents with
    the writes applied in order, or an error. *)

From stdpp Require Import base numbers list option sorting.
From Stdlib Require Import ZArith Lia.
From S2P Require Import Prelude.
From S2P Require Import Types.

(* ------------------------------------------------------------------ *)
(** ** Data *)

Record WitnessDelta : Set := mkWitnessDelta {
  wd_sequence : Z;
  wd_offset : Z;
  wd_length : Z;
  wd_data_hash : Z;
}.

Record CompressedCheckpoint : Set := mkCompressedCheckpoint {
  ck_id : Z;
  ck_region_id : Z;
  ck_witness_sequence : Z;
  ck_uncompressed_hash : Z;
  ck_uncompressed_size : Z;
  ck_compressed_size : Z;
}.

Record ReconstructionResult : Set := mkReconstructionResult {
  rr_region_id : Z;
  rr_size_bytes : Z;
  rr_deltas_applied : Z;
  rr_final_hash : Z;
}.

(** [buf[pos..pos + data.len()].copy_from_slice(data)], within bounds. *)
Definition copy_at (pos : nat) (data buf : list Z) : list Z :=
  take pos buf ++ data ++ drop (pos + length data) buf.

Definition fnv1a_hash (data : list Z) : Z := foldl fnv_step FNV_OFFSET data.

(* ------------------------------------------------------------------ *)
(** ** Compression *)

Definition TAG_ZERO_RUN : Z := 0.
Definition TAG_LITERAL : Z := 1.

(** The inner loops: extend a run of [n] bytes over the bytes satisfying [p],
    up to 0xFFFF. *)
Fixpoint run_end (p : Z → bool) (n : nat) (rest : list Z) : nat :=
  match rest with
  | [] => n
  | b :: rest => if p b && (Z.of_nat n <? 0xFFFF) then run_end p (S n) rest else n
  end.

Definition is_zero (b : Z) : bool := b =? 0.
Definition is_nonzero (b : Z) : bool := negb (b =? 0).

(** The outer loop; [rest] is [input[in_pos..]]. *)
Fixpoint compress_loop (fuel : nat) (rest : list Z) (out_pos : nat) (output : list Z)
    : option (RvmResult nat * list Z) :=
  match fuel with
  | O => None
  | S fuel =>
      match rest with
      | [] => Some (Ok out_pos, output)
      | b :: _ =>
          if b =? 0 then
            let run_len := run_end is_zero 0 rest in
            if (length output <? out_pos + 3)%nat then Some (Err ResourceLimitExceeded, output)
            else compress_loop fuel (drop run_len rest) (out_pos + 3)
                   (copy_at out_pos (TAG_ZERO_RUN :: le_bytes 2 (wrap16 (Z.of_nat run_len))) output)
          else
            let lit_len := run_end is_nonzero 0 rest in
            if (length output <? out_pos + 3 + lit_len)%nat then Some (Err ResourceLimitExceeded, output)
            else compress_loop fuel (drop lit_len rest) (out_pos + 3 + lit_len)
                   (copy_at (out_pos + 3) (take lit_len rest)
                      (copy_at out_pos (TAG_LITERAL :: le_bytes 2 (wrap16 (Z.of_nat lit_len))) output))
      end
  end.

Definition compress (fuel : nat) (input output : list Z) : option (RvmResult nat * list Z) :=
  if (length output <? 4)%nat then Some (Err ResourceLimitExceeded, output)
  else compress_loop fuel input 4 (copy_at 0 (le_bytes 4 (wrap32 (Z.of_nat (length input)))) output).

(* ------------------------------------------------------------------ *)
(** ** Decompression *)

Definition byte_at (l : list Z) (i : nat) : Z := default 0 (l !! i).

Fixpoint decompress_loop (fuel : nat) (input : list Z) (uncompressed_len in_pos out_pos : nat) (output : list Z)
    : option (RvmResult nat * list Z) :=
  match fuel with
  | O => None
  | S fuel =>
      if (in_pos <? length input)%nat && (out_pos <? uncompressed_len)%nat then
        if (length input <? in_pos + 3)%nat then Some (Err CheckpointCorrupted, output)
        else
          let tag := byte_at input in_pos in
          let block_len := Z.to_nat (of_le_bytes [byte_at input (in_pos + 1); byte_at input (in_pos + 2)]) in
          let in_pos := (in_pos + 3)%nat in
          if tag =? TAG_ZERO_RUN then
            if (uncompressed_len <? out_pos + block_len)%nat then Some (Err CheckpointCorrupted, output)
            else decompress_loop fuel input uncompressed_len in_pos (out_pos + block_len)
                   (copy_at out_pos (replicate block_len 0) output)
          else if tag =? TAG_LITERAL then
            if (length input <? in_pos + block_len)%nat then Some (Err CheckpointCorrupted, output)
            else if (uncompressed_len <? out_pos + block_len)%nat then Some (Err CheckpointCorrupted, output)
            else decompress_loop fuel input uncompressed_len (in_pos + block_len) (out_pos + block_len)
                   (copy_at out_pos (take block_len (drop in_pos input)) output)
          else Some (Err CheckpointCorrupted, output)
      else if negb (out_pos =? uncompressed_len)%nat then Some (Err CheckpointCorrupted, output)
      else Some (Ok uncompressed_len, output)
  end.

Definition decompress (fuel : nat) (input output : list Z) : option (RvmResult nat * list Z) :=
  if (length input <? 4)%nat then Some (Err CheckpointCorrupted, output)
  else
    let uncompressed_len := of_le_bytes (take 4 input) in
    if Z.of_nat (length output) <? uncompressed_len then Some (Err ResourceLimitExceeded, output)
    else decompress_loop fuel input (Z.to_nat uncompressed_len) 4 0 output.

(* ------------------------------------------------------------------ *)
(** ** Checkpoints *)

Definition create_checkpoint (fuel : nat) (region_id checkpoint_id witness_sequence : Z)
    (data compressed_out : list Z) : option (RvmResult (CompressedCheckpoint * nat) * list Z) :=
  if (length data =? 0)%nat then Some (Err ResourceLimitExceeded, compressed_out)
  else
    let uncompressed_hash := fnv1a_hash data in
    '(r, out) ← compress fuel data compressed_out;
    Some (compressed_size ← r;
          Ok (mkCompressedCheckpoint checkpoint_id region_id witness_sequence uncompressed_hash
                (wrap32 (Z.of_nat (length data))) (wrap32 (Z.of_nat compressed_size)), compressed_size), out).

(* ------------------------------------------------------------------ *)
(** ** The pipeline *)

Record ReconstructionPipeline : Set := mkReconstructionPipeline {
  rp_deltas : list (option WitnessDelta);
  rp_delta_count : nat;
}.

Definition pipeline_new (max_deltas : nat) : ReconstructionPipeline :=
  mkReconstructionPipeline (replicate max_deltas None) 0.

Definition pipeline_clear (p : ReconstructionPipeline) : ReconstructionPipeline :=
  mkReconstructionPipeline (replicate (length (rp_deltas p)) None) 0.

Definition add_delta (delta : WitnessDelta) : prog ReconstructionPipeline RvmError unit := λ p,
  let push := (Ok tt, mkReconstructionPipeline (<[rp_delta_count p := Some delta]> (rp_deltas p))
                        (rp_delta_count p + 1)) in
  if (length (rp_deltas p) <=? rp_delta_count p)%nat then (Err ResourceLimitExceeded, p)
  else if (0 <? rp_delta_count p)%nat then
    match rp_deltas p !! (rp_delta_count p - 1)%nat with
    | Some (Some last) => if wd_sequence delta <=? wd_sequence last then (Err WitnessChainBroken, p) else push
    | _ => push
    end
  else push.

(** The checks and the write of one delta. *)
Definition apply_delta (uncompressed_size : nat) (delta_data : WitnessDelta → list Z) (delta : WitnessDelta)
    : prog (list Z) RvmError unit := λ output,
  let data := delta_data delta in
  let offset := Z.to_nat (wd_offset delta) in
  let length_ := Z.to_nat (wd_length delta) in
  if (uncompressed_size <? offset + length_)%nat then (Err CheckpointCorrupted, output)
  else if (length data <? length_)%nat then (Err CheckpointCorrupted, output)
  else if negb (fnv1a_hash (take length_ data) =? wd_data_hash delta) then (Err WitnessVerificationFailed, output)
  else (Ok tt, copy_at offset (take length_ data) output).

(** Step 3: the loop over the buffered deltas. *)
Fixpoint apply_deltas (uncompressed_size : nat) (delta_data : WitnessDelta → list Z)
    (deltas : list (option WitnessDelta)) (deltas_applied : Z) (output : list Z) : RvmResult Z * list Z :=
  match deltas with
  | [] => (Ok deltas_applied, output)
  | None :: deltas => apply_deltas uncompressed_size delta_data deltas deltas_applied output
  | Some delta :: deltas =>
      match apply_delta uncompressed_size delta_data delta output with
      | (Err e, output) => (Err e, output)
      | (Ok _, output) => apply_deltas uncompressed_size delta_data deltas (wrap32 (deltas_applied + 1)) output
      end
  end.

Definition reconstruct (fuel : nat) (p : ReconstructionPipeline) (checkpoint : CompressedCheckpoint)
    (compressed_data : list Z) (output : list Z) (delta_data : WitnessDelta → list Z)
    : option (RvmResult ReconstructionResult * list Z) :=
  let uncompressed_size := ck_uncompressed_size checkpoint in
  if Z.of_nat (length compressed_data) <? ck_compressed_size checkpoint then Some (Err CheckpointCorrupted, output)
  else if Z.of_nat (length output) <? uncompressed_size then Some (Err ResourceLimitExceeded, output)
  else
    let size := Z.to_nat uncompressed_size in
    '(r, head) ← decompress fuel (take (Z.to_nat (ck_compressed_size checkpoint)) compressed_data) (take size output);
    let output := head ++ drop size output in
    match r with
    | Err e => Some (Err e, output)
    | Ok decompressed_size =>
        if negb (decompressed_size =? size)%nat then Some (Err CheckpointCorrupted, output)
        else if negb (fnv1a_hash (take size output) =? ck_uncompressed_hash checkpoint)
        then Some (Err CheckpointCorrupted, output)
        else
          match apply_deltas size delta_data (take (rp_delta_count p) (rp_deltas p)) 0 output with
          | (Err e, output) => Some (Err e, output)
          | (Ok deltas_applied, output) =>
              Some (Ok (mkReconstructionResult (ck_region_id checkpoint) (wrap32 uncompressed_size)
                          deltas_applied (fnv1a_hash (take size output))), output)
          end
    end.

(* ------------------------------------------------------------------ *)
(** ** Copies and runs *)

Lemma length_copy_at pos data buf :
  (pos + length data ≤ length buf)%nat → length (copy_at pos data buf) = length buf.
Proof. intros H. unfold copy_at. rewrite !length_app, length_take, length_drop. lia. Qed.

Lemma copy_at_nil pos buf : copy_at pos [] buf = buf.
Proof. unfold copy_at. cbn. by rewrite Nat.add_0_r, take_drop. Qed.

Lemma copy_at_copy_at pos d1 d2 buf k :
  k = (pos + length d1)%nat → (pos + length d1 + length d2 ≤ length buf)%nat →
  copy_at k d2 (copy_at pos d1 buf) = copy_at pos (d1 ++ d2) buf.
Proof.
  intros -> H. unfold copy_at. rewrite (app_assoc (take pos buf) d1).
  assert (length (take pos buf ++ d1) = (pos + length d1)%nat) as Hl by (rewrite length_app, length_take; lia).
  rewrite take_app_length', drop_app_ge, Hl, drop_drop by lia.
  rewrite length_app, <-!app_assoc. do 4 f_equal. lia.
Qed.

Lemma take_copy_at n pos data buf :
  n = (pos + length data)%nat → (n ≤ length buf)%nat → take n (copy_at pos data buf) = take pos buf ++ data.
Proof.
  intros -> H. unfold copy_at. rewrite app_assoc.
  apply take_app_length'. rewrite length_app, length_take. lia.
Qed.

Lemma copy_at_app pos data b1 b2 :
  (pos + length data ≤ length b1)%nat → copy_at pos data (b1 ++ b2) = copy_at pos data b1 ++ b2.
Proof.
  intros H. unfold copy_at. rewrite take_app_le, drop_app_le by lia. by rewrite <-!app_assoc.
Qed.

Lemma run_end_spec p rest : ∀ n,
  (Z.of_nat n ≤ 65535) →
  (n ≤ run_end p n rest ≤ n + length rest)%nat ∧ Z.of_nat (run_end p n rest) ≤ 65535 ∧
  Forall (λ b, p b = true) (take (run_end p n rest - n) rest).
Proof.
  induction rest as [|b rest IH]; intros n Hn; cbn [run_end length].
  { split_and!; [lia|lia|done|]. by rewrite take_nil. }
  destruct (p b && (Z.of_nat n <? 0xFFFF)) eqn:E; split_bool.
  - destruct (IH (S n)) as ((H1 & H2) & H3 & H4); [lia|]. split_and!; [lia|lia|done|].
    replace (run_end p (S n) rest - n)%nat with (S (run_end p (S n) rest - S n)) by lia. by constructor.
  - split_and!; [lia|lia|done|]. by rewrite Nat.sub_diag.
Qed.

Lemma run_end_pos p b rest : p b = true → (1 ≤ run_end p 0 (b :: rest))%nat.
Proof.
  intros Hp. cbn [run_end]. rewrite Hp. cbn. apply (run_end_spec p rest 1). lia.
Qed.

(** The run at the head of a non-empty input. *)
Lemma run_spec p b rest :
  p b = true →
  let n := run_end p 0 (b :: rest) in
  (1 ≤ n ≤ length (b :: rest))%nat ∧ wrap16 (Z.of_nat n) = Z.of_nat n ∧ Z.of_nat n ≤ 65535 ∧
  Forall (λ b, p b = true) (take n (b :: rest)).
Proof.
  intros Hp n. pose proof (run_end_pos p b rest Hp) as H1.
  destruct (run_end_spec p (b :: rest) 0) as (H2 & H3 & H4); [lia|].
  rewrite Nat.sub_0_r in H4. fold n in H1, H2, H3, H4. split_and!; [done|lia| |done|done].
  apply wrap16_id. unfold is_u16, u16_max. lia.
Qed.

(* ------------------------------------------------------------------ *)
(** ** The encoder *)

(** What [compress_loop] writes, as a list. *)
Fixpoint encode (fuel : nat) (rest : list Z) : list Z :=
  match fuel, rest with
  | S fuel, b :: _ =>
      if b =? 0 then
        let n := run_end is_zero 0 rest in
        (TAG_ZERO_RUN :: le_bytes 2 (Z.of_nat n)) ++ encode fuel (drop n rest)
      else
        let n := run_end is_nonzero 0 rest in
        (TAG_LITERAL :: le_bytes 2 (Z.of_nat n)) ++ take n rest ++ encode fuel (drop n rest)
  | _, _ => []
  end.

Lemma is_zero_nonzero b : is_zero b = (b =? 0) ∧ is_nonzero b = negb (b =? 0).
Proof. done. Qed.

Lemma encode_length fuel : ∀ rest, (length (encode fuel rest) ≤ 4 * length rest)%nat.
Proof.
  induction fuel as [|fuel IH]; intros [|b rest]; cbn [encode]; [cbn; lia..|].
  destruct (b =? 0) eqn:E.
  - destruct (run_spec is_zero b rest E) as (Hn & _). set (n := run_end is_zero 0 (b :: rest)) in *.
    specialize (IH (drop n (b :: rest))). rewrite length_drop in IH.
    rewrite length_app. cbn [length]. rewrite length_le_bytes. cbn [length] in *. lia.
  - destruct (run_spec is_nonzero b rest) as (Hn & _); [unfold is_nonzero; by rewrite E|].
    set (n := run_end is_nonzero 0 (b :: rest)) in *.
    specialize (IH (drop n (b :: rest))). rewrite length_drop in IH.
    rewrite !length_app, length_take. cbn [length]. rewrite length_le_bytes. cbn [length] in *. lia.
Qed.

Lemma compress_loop_spec fuel : ∀ rest pos out,
  (length rest < fuel)%nat → (pos ≤ length out)%nat →
  ∃ r out', compress_loop fuel rest pos out = Some (r, out') ∧ length out' = length out ∧
    if decide (pos + length (encode fuel rest) ≤ length out)%nat
    then r = Ok (pos + length (encode fuel rest))%nat ∧ out' = copy_at pos (encode fuel rest) out
    else r = Err ResourceLimitExceeded.
Proof.
  induction fuel as [|fuel IH]; intros rest pos out Hf Hpos; [lia|]. cbn [compress_loop encode].
  destruct rest as [|b rest].
  { exists (Ok pos), out. cbn [length]. rewrite Nat.add_0_r, decide_True, copy_at_nil by done. done. }
  destruct (b =? 0) eqn:E.
  - destruct (run_spec is_zero b rest E) as (Hn & Hw & _). cbv zeta in Hw. rewrite Hw.
    set (n := run_end is_zero 0 (b :: rest)) in *. set (hd := TAG_ZERO_RUN :: le_bytes 2 (Z.of_nat n)).
    assert (length hd = 3%nat) as Hhd by (subst hd; cbn [length]; by rewrite length_le_bytes).
    rewrite length_app, Hhd. destruct (length out <? pos + 3)%nat eqn:El; split_bool.
    { eexists _, out. split; [done|]. split; [done|]. by rewrite decide_False by lia. }
    destruct (IH (drop n (b :: rest)) (pos + 3)%nat (copy_at pos hd out)) as (r & out' & -> & Hl & Hr).
    { rewrite length_drop. lia. }
    { rewrite length_copy_at by lia. lia. }
    rewrite length_copy_at in Hl, Hr by lia. exists r, out'. split; [done|]. split; [done|].
    rewrite Nat.add_assoc. case_decide; [|done]. destruct Hr as [-> ->]. split; [done|].
    apply copy_at_copy_at; lia.
  - destruct (run_spec is_nonzero b rest) as (Hn & Hw & _); [unfold is_nonzero; by rewrite E|].
    cbv zeta in Hw. rewrite Hw.
    set (n := run_end is_nonzero 0 (b :: rest)) in *. set (hd := TAG_LITERAL :: le_bytes 2 (Z.of_nat n)).
    assert (length hd = 3%nat) as Hhd by (subst hd; cbn [length]; by rewrite length_le_bytes).
    assert (length (take n (b :: rest)) = n) as Ht by (rewrite length_take; lia).
    rewrite !length_app, Hhd, Ht. destruct (length out <? pos + 3 + n)%nat eqn:El; split_bool.
    { eexists _, out. split; [done|]. split; [done|]. by rewrite decide_False by lia. }
    rewrite (copy_at_copy_at pos hd (take n (b :: rest)) out (pos + 3)) by lia.
    assert (length (hd ++ take n (b :: rest)) = (3 + n)%nat) as Hblk by (rewrite length_app; lia).
    destruct (IH (drop n (b :: rest)) (pos + 3 + n)%nat (copy_at pos (hd ++ take n (b :: rest)) out))
      as (r & out' & -> & Hl & Hr).
    { rewrite length_drop. lia. }
    { rewrite length_copy_at by lia. lia. }
    rewrite length_copy_at in Hl, Hr by lia. exists r, out'. split; [done|]. split; [done|].
    replace (pos + (3 + (n + length (encode fuel (drop n (b :: rest))))))%nat
      with (pos + 3 + n + length (encode fuel (drop n (b :: rest))))%nat by lia.
    case_decide; [|done]. destruct Hr as [-> ->]. split; [done|].
    rewrite app_assoc. apply copy_at_copy_at; lia.
Qed.

(* ------------------------------------------------------------------ *)
(** ** The decoder *)

(** Reading a block header behind a prefix. *)
Lemma read_header pre tag n body :
  0 ≤ n ≤ 65535 →
  let input := pre ++ (tag :: le_bytes 2 n) ++ body in
  byte_at input (length pre) = tag ∧
  Z.to_nat (of_le_bytes [byte_at input (length pre + 1); byte_at input (length pre + 2)]) = Z.to_nat n ∧
  drop (length pre + 3) input = body ∧ length input = (length pre + 3 + length body)%nat.
Proof.
  intros Hn input. subst input. unfold byte_at.
  rewrite !(lookup_app_r pre) by lia. rewrite Nat.sub_diag.
  replace (length pre + 1 - length pre)%nat with 1%nat by lia.
  replace (length pre + 2 - length pre)%nat with 2%nat by lia.
  split_and!; [done| | |].
  - change [default 0 (((tag :: le_bytes 2 n) ++ body) !! 1%nat);
            default 0 (((tag :: le_bytes 2 n) ++ body) !! 2%nat)] with (le_bytes 2 n).
    by rewrite of_le_bytes_le_bytes by lia.
  - rewrite drop_app_ge by lia. by replace (length pre + 3 - length pre)%nat with 3%nat by lia.
  - rewrite !length_app. cbn [length]. rewrite length_le_bytes. lia.
Qed.

Lemma take_run_zero n rest :
  (n ≤ length rest)%nat → Forall (λ b, is_zero b = true) (take n rest) → replicate n 0 = take n rest.
Proof.
  intros Hn H. apply replicate_as_elem_of. split; [rewrite length_take; lia|].
  intros b Hb. exact (proj1 (Z.eqb_eq b 0) (proj1 (Forall_forall _ _) H b Hb)).
Qed.

Lemma decompress_loop_encode f : ∀ fuel rest pre op out ulen,
  (length rest < f)%nat → (length rest < fuel)%nat → (op + length rest)%nat = ulen → (ulen ≤ length out)%nat →
  decompress_loop fuel (pre ++ encode f rest) ulen (length pre) op out = Some (Ok ulen, copy_at op rest out).
Proof.
  induction f as [|f IH]; intros [|fuel] rest pre op out ulen Hf Hfuel Hop Hul; try lia. cbn [decompress_loop].
  destruct rest as [|b rest].
  { cbn [encode length] in *. rewrite app_nil_r, Nat.ltb_irrefl. cbn [andb].
    rewrite Nat.add_0_r in Hop. subst op. by rewrite Nat.eqb_refl, copy_at_nil. }
  assert (∀ tag n body, 0 ≤ n ≤ 65535 →
    (length pre <? length (pre ++ (tag :: le_bytes 2 n) ++ body))%nat && (op <? ulen)%nat = true ∧
    (length (pre ++ (tag :: le_bytes 2 n) ++ body) <? length pre + 3)%nat = false) as Hguard.
  { intros tag n body Hn. destruct (read_header pre tag n body Hn) as (_ & _ & _ & ->). cbn [length] in Hop.
    rewrite andb_true_iff, !Nat.ltb_lt, Nat.ltb_ge. lia. }
  cbn [encode]. destruct (b =? 0) eqn:E.
  - destruct (run_spec is_zero b rest E) as (Hn & _ & Hm & Hz).
    set (n := run_end is_zero 0 (b :: rest)) in *.
    cbn [length] in Hn, Hf, Hfuel, Hop.
    destruct (Hguard TAG_ZERO_RUN (Z.of_nat n) (encode f (drop n (b :: rest)))) as [-> ->]; [lia|].
    destruct (read_header pre TAG_ZERO_RUN (Z.of_nat n) (encode f (drop n (b :: rest))))
      as (-> & -> & Hd & _); [lia|]. cbn [Z.eqb TAG_ZERO_RUN]. rewrite Nat2Z.id.
    replace (ulen <? op + n)%nat with false by (symmetry; apply Nat.ltb_ge; lia).
    pose proof (IH fuel (drop n (b :: rest)) (pre ++ TAG_ZERO_RUN :: le_bytes 2 (Z.of_nat n))
      (op + n)%nat (copy_at op (replicate n 0) out) ulen) as IH'.
    rewrite length_app in IH'. cbn [length] in IH'. rewrite length_le_bytes, <-app_assoc in IH'.
    rewrite IH'; [|rewrite length_drop; cbn [length]; lia..|rewrite length_copy_at; rewrite ?length_replicate; lia].
    rewrite (take_run_zero n (b :: rest)) by (done || (cbn [length]; lia)).
    rewrite copy_at_copy_at; [by rewrite take_drop|rewrite length_take; cbn [length]; lia|].
    rewrite length_take, length_drop. cbn [length]. lia.
  - destruct (run_spec is_nonzero b rest) as (Hn & _ & Hm & _); [unfold is_nonzero; by rewrite E|].
    set (n := run_end is_nonzero 0 (b :: rest)) in *.
    cbn [length] in Hn, Hf, Hfuel, Hop.
    set (body := take n (b :: rest) ++ encode f (drop n (b :: rest))).
    assert (length (take n (b :: rest)) = n) as Ht by (rewrite length_take; cbn [length]; lia).
    destruct (Hguard TAG_LITERAL (Z.of_nat n) body) as [-> ->]; [lia|].
    destruct (read_header pre TAG_LITERAL (Z.of_nat n) body) as (-> & -> & Hd & Hl); [lia|].
    cbn [Z.eqb TAG_LITERAL TAG_ZERO_RUN Pos.eqb]. rewrite Nat2Z.id, Hd, Hl.
    assert (length body = (n + length (encode f (drop n (b :: rest))))%nat) as Hb
      by (subst body; rewrite length_app; lia).
    replace (length pre + 3 + length body <? length pre + 3 + n)%nat with false by (symmetry; apply Nat.ltb_ge; lia).
    replace (ulen <? op + n)%nat with false by (symmetry; apply Nat.ltb_ge; lia).
    assert (take n body = take n (b :: rest)) as -> by (subst body; by apply take_app_length').
    pose proof (IH fuel (drop n (b :: rest)) (pre ++ (TAG_LITERAL :: le_bytes 2 (Z.of_nat n)) ++ take n (b :: rest))
      (op + n)%nat (copy_at op (take n (b :: rest)) out) ulen) as IH'.
    rewrite !length_app, Ht in IH'. cbn [length] in IH'. rewrite length_le_bytes in IH'.
    replace (length pre + (S 2 + n))%nat with (length pre + 3 + n)%nat in IH' by lia.
    rewrite <-!app_assoc in IH'. cbn [app] in IH' |- *. subst body.
    rewrite IH'; [|rewrite length_drop; cbn [length]; lia..|rewrite length_copy_at; lia].
    rewrite copy_at_copy_at; [by rewrite take_drop|lia|rewrite length_drop; cbn [length]; lia].
Qed.

Lemma drop_copy_at n pos data buf :
  (pos + length data ≤ n)%nat → (n ≤ length buf)%nat → drop n (copy_at pos data buf) = drop n buf.
Proof.
  intros H1 H2. unfold copy_at. rewrite app_assoc.
  assert (length (take pos buf ++ data) = (pos + length data)%nat) as Hl by (rewrite length_app, length_take; lia).
  rewrite drop_app_ge, Hl, drop_drop by lia. f_equal. lia.
Qed.

Lemma decompress_loop_total fuel : ∀ input ulen ip op out,
  (ip ≤ length input)%nat → (length input < fuel + ip)%nat → (op ≤ ulen)%nat → (ulen ≤ length out)%nat →
  ∃ r out', decompress_loop fuel input ulen ip op out = Some (r, out') ∧
    length out' = length out ∧ drop ulen out' = drop ulen out ∧ (r = Ok ulen ∨ r = Err CheckpointCorrupted).
Proof.
  assert (∀ o : list Z, ∀ n r, r = Err CheckpointCorrupted →
    ∃ r' o', Some (r, o) = Some (r', o') ∧ length o' = length o ∧ drop n o' = drop n o ∧
      (r' = Ok n ∨ r' = Err CheckpointCorrupted)) as Hstop by (intros o n r ->; eauto 8).
  induction fuel as [|fuel IH]; intros input ulen ip op out Hip0 Hf Hop Hul; cbn [decompress_loop].
  - lia.
  - destruct ((ip <? length input)%nat && (op <? ulen)%nat) eqn:E; split_bool.
    2: { destruct (op =? ulen)%nat eqn:E'; cbn [negb]; [eauto 8|by apply Hstop]. }
    destruct (length input <? ip + 3)%nat eqn:E3; split_bool; [by apply Hstop|].
    set (k := Z.to_nat _). assert (∀ d ip', (length d ≤ k)%nat → (ip < ip' ≤ length input)%nat → (op + k ≤ ulen)%nat →
      ∃ r out', decompress_loop fuel input ulen ip' (op + k) (copy_at op d out) = Some (r, out') ∧
        length out' = length out ∧ drop ulen out' = drop ulen out ∧ (r = Ok ulen ∨ r = Err CheckpointCorrupted)) as Hgo.
    { intros d ip' Hd Hip Hk.
      destruct (IH input ulen ip' (op + k)%nat (copy_at op d out)) as (r & out' & -> & Hl & Hdr & Hr);
        [lia|lia|lia|rewrite length_copy_at by lia; lia|].
      exists r, out'. rewrite length_copy_at in Hl by lia. rewrite drop_copy_at in Hdr by lia. done. }
    destruct (_ =? TAG_ZERO_RUN).
    { destruct (ulen <? op + k)%nat eqn:E4; split_bool; [by apply Hstop|].
      apply Hgo; [by rewrite length_replicate|lia|done]. }
    destruct (_ =? TAG_LITERAL); [|by apply Hstop].
    destruct (length input <? ip + 3 + k)%nat eqn:E4; split_bool; [by apply Hstop|].
    destruct (ulen <? op + k)%nat eqn:E5; split_bool; [by apply Hstop|].
    apply Hgo; [rewrite length_take; lia|lia|done].
Qed.

(** Decompression is safe on every input, corrupt ones included.  With
    one unit of fuel more than the input has bytes it returns; it reports the
    declared length or an error, and writes nothing beyond that length. *)
Theorem decompress_total fuel input out :
  (length input < fuel)%nat → Forall is_byte input →
  ∃ r out', decompress fuel input out = Some (r, out') ∧ length out' = length out ∧
    match r with
    | Ok n => Z.of_nat n = of_le_bytes (take 4 input) ∧ (n ≤ length out)%nat ∧ drop n out' = drop n out
    | Err e => (e = CheckpointCorrupted ∨ e = ResourceLimitExceeded ∧ out' = out)
    end.
Proof.
  intros Hf Hb. unfold decompress. destruct (length input <? 4)%nat eqn:E4; split_bool.
  { eexists _, out. split; [done|]. split; [done|]. by left. }
  assert (0 ≤ of_le_bytes (take 4 input)) as H0 by (apply of_le_bytes_range; by apply Forall_take).
  destruct (Z.of_nat (length out) <? of_le_bytes (take 4 input)) eqn:El; split_bool.
  { eexists _, out. split; [done|]. split; [done|]. by right. }
  destruct (decompress_loop_total fuel input (Z.to_nat (of_le_bytes (take 4 input))) 4 0 out)
    as (r & out' & -> & Hl & Hd & [-> | ->]); [lia..| |].
  - eexists _, out'. split; [done|]. split; [done|]. split_and!; [lia|lia|done].
  - eexists _, out'. split; [done|]. split; [done|]. by left.
Qed.

(* ------------------------------------------------------------------ *)
(** ** Round trip *)

Lemma compress_spec fuel input out :
  (length input < fuel)%nat →
  let enc := le_bytes 4 (wrap32 (Z.of_nat (length input))) ++ encode fuel input in
  ∃ r out', compress fuel input out = Some (r, out') ∧ length out' = length out ∧
    if decide (length enc ≤ length out)%nat
    then r = Ok (length enc) ∧ out' = copy_at 0 enc out
    else r = Err ResourceLimitExceeded.
Proof.
  intros Hf enc. unfold compress. assert (length enc = (4 + length (encode fuel input))%nat) as He
    by (subst enc; by rewrite length_app, length_le_bytes).
  destruct (length out <? 4)%nat eqn:E; split_bool.
  { eexists _, out. split; [done|]. split; [done|]. by rewrite decide_False by lia. }
  set (hd := le_bytes 4 (wrap32 (Z.of_nat (length input)))) in *.
  assert (length hd = 4%nat) as Hhd by apply length_le_bytes.
  destruct (compress_loop_spec fuel input 4 (copy_at 0 hd out) Hf) as (r & out' & -> & Hl & Hr);
    [rewrite length_copy_at by lia; lia|].
  rewrite length_copy_at in Hl, Hr by lia. exists r, out'. split; [done|]. split; [done|].
  rewrite He. case_decide; [|done]. destruct Hr as [-> ->]. split; [done|].
  apply copy_at_copy_at; lia.
Qed.

Lemma decompress_encoded fuel fuel' input buf :
  (length input < fuel)%nat → (length input < fuel')%nat → Z.of_nat (length input) ≤ u32_max →
  (length input ≤ length buf)%nat →
  decompress fuel' (le_bytes 4 (wrap32 (Z.of_nat (length input))) ++ encode fuel input) buf =
    Some (Ok (length input), copy_at 0 input buf).
Proof.
  intros Hf Hf' H32 Hbuf. unfold decompress.
  set (hd := le_bytes 4 (wrap32 (Z.of_nat (length input)))).
  assert (length hd = 4%nat) as Hhd by apply length_le_bytes.
  replace (length (hd ++ encode fuel input) <? 4)%nat with false
    by (symmetry; apply Nat.ltb_ge; rewrite length_app; lia).
  assert (of_le_bytes (take 4 (hd ++ encode fuel input)) = Z.of_nat (length input)) as ->.
  { rewrite take_app_length' by done. unfold hd.
    rewrite wrap32_id by (unfold is_u32; lia). apply of_le_bytes_4; [done|unfold is_u32; lia]. }
  replace (Z.of_nat (length buf) <? Z.of_nat (length input)) with false by (symmetry; apply Z.ltb_ge; lia).
  rewrite Nat2Z.id, <-Hhd. by apply decompress_loop_encode.
Qed.

(** Compression is total and lossless.  With enough fuel it returns,
    never grows the data beyond [4 + 4 * len] bytes and fails only when the
    output is too small; and what it wrote decompresses, into any buffer that
    is large enough, to the original bytes. *)
Theorem compress_roundtrip fuel fuel' input out buf :
  (length input < fuel)%nat → (length input < fuel')%nat → Z.of_nat (length input) ≤ u32_max →
  (length input ≤ length buf)%nat →
  ∃ r out', compress fuel input out = Some (r, out') ∧ length out' = length out ∧
    match r with
    | Ok n => (n ≤ 4 + 4 * length input)%nat ∧ (n ≤ length out)%nat ∧
        decompress fuel' (take n out') buf = Some (Ok (length input), input ++ drop (length input) buf)
    | Err e => e = ResourceLimitExceeded ∧ (length out < 4 + 4 * length input)%nat
    end.
Proof.
  intros Hf Hf' H32 Hbuf. destruct (compress_spec fuel input out Hf) as (r & out' & Hc & Hl & Hr).
  set (enc := le_bytes 4 _ ++ _) in *. pose proof (encode_length fuel input) as Hel.
  assert (length enc = (4 + length (encode fuel input))%nat) as He
    by (subst enc; by rewrite length_app, length_le_bytes).
  exists r, out'. split; [done|]. split; [done|]. case_decide as Hd.
  - destruct Hr as [-> ->]. split; [lia|]. split; [lia|].
    rewrite take_copy_at by lia. rewrite take_0. by apply decompress_encoded.
  - subst r. split; [done|]. lia.
Qed.

(* ------------------------------------------------------------------ *)
(** ** The pipeline's buffer *)

Definition delta_before (d d' : WitnessDelta) : Prop := wd_sequence d < wd_sequence d'.

#[export] Instance delta_before_trans : Transitive delta_before.
Proof. unfold delta_before. intros ???. lia. Qed.

(** The pipeline holds [ds], in strictly increasing sequence order. *)
Record pipe_repr (p : ReconstructionPipeline) (ds : list WitnessDelta) : Prop := {
  pp_count : rp_delta_count p = length ds;
  pp_deltas : take (length ds) (rp_deltas p) = Some <$> ds;
  pp_sorted : StronglySorted delta_before ds;
}.

Lemma pipe_repr_le p ds : pipe_repr p ds → (length ds ≤ length (rp_deltas p))%nat.
Proof.
  intros [_ Hd _]. apply (f_equal length) in Hd. rewrite length_take, length_fmap in Hd. lia.
Qed.

Lemma pipeline_new_repr n : pipe_repr (pipeline_new n) [].
Proof. split; [done|done|constructor]. Qed.

Lemma pipe_snoc p ds d :
  pipe_repr p ds → (length ds < length (rp_deltas p))%nat →
  (∀ d', last ds = Some d' → delta_before d' d) →
  pipe_repr (mkReconstructionPipeline (<[rp_delta_count p := Some d]> (rp_deltas p)) (rp_delta_count p + 1))
    (ds ++ [d]).
Proof.
  intros [Hc Hd Hs] Hlt Hlast. split; cbn [rp_deltas rp_delta_count].
  - rewrite length_app, Hc. done.
  - rewrite length_app. cbn [length]. replace (length ds + 1)%nat with (S (length ds)) by lia.
    rewrite Hc, (take_S_r _ _ (Some d)) by (by apply list_lookup_insert_eq).
    by rewrite take_insert_ge, Hd, fmap_app by lia.
  - apply StronglySorted_app. split_and!; [|done|repeat constructor].
    intros d1 d2 H1 ->%list_elem_of_singleton. apply list_elem_of_lookup in H1 as [i Hi].
    destruct (last ds) as [d'|] eqn:El; [|by apply last_None in El as ->].
    specialize (Hlast d' eq_refl). apply last_Some in El as [ds' ->].
    apply StronglySorted_app in Hs as (Hsd & _ & _).
    apply lookup_app_Some in Hi as [Hi|[_ Hi]].
    + etrans; [|done]. apply Hsd; [by eapply list_elem_of_lookup_2|by apply list_elem_of_singleton].
    + by apply list_lookup_singleton_Some in Hi as [_ <-].
Qed.

(** The delta buffer is an ordered log.  [add_delta] appends, and refuses
    without effect exactly when the buffer is full or the new sequence number
    does not exceed the last one; so whatever is buffered is strictly
    increasing, and [clear] empties it. *)
Theorem add_delta_functional p ds d :
  pipe_repr p ds →
  match add_delta d p with
  | (Ok _, p') => pipe_repr p' (ds ++ [d]) ∧ length (rp_deltas p') = length (rp_deltas p)
  | (Err ResourceLimitExceeded, p') => p' = p ∧ length ds = length (rp_deltas p)
  | (Err WitnessChainBroken, p') => p' = p ∧ ∃ d', last ds = Some d' ∧ wd_sequence d ≤ wd_sequence d'
  | (Err _, _) => False
  end ∧ pipe_repr (pipeline_clear p) [].
Proof.
  intros Hr. split; [|split; [done|done|constructor]].
  pose proof (pipe_repr_le p ds Hr) as Hle. unfold add_delta. cbv zeta.
  destruct (length (rp_deltas p) <=? rp_delta_count p)%nat eqn:E; split_bool.
  { split; [done|]. rewrite (pp_count p ds Hr) in E. lia. }
  pose proof (pp_count p ds Hr) as Hc. rewrite Hc in E.
  assert (∀ d', last ds = Some d' → rp_deltas p !! (rp_delta_count p - 1)%nat = Some (Some d') ∧ (0 < length ds)%nat) as Hlast.
  { intros d' Hl. rewrite last_lookup in Hl. pose proof (lookup_lt_Some _ _ _ Hl).
    split; [|lia]. rewrite Hc. rewrite <-(lookup_take_lt _ (length ds)) by lia.
    rewrite (pp_deltas p ds Hr), list_lookup_fmap. replace (length ds - 1)%nat with (pred (length ds)) by lia.
    by rewrite Hl. }
  assert ((∀ d', last ds = Some d' → delta_before d' d) →
    pipe_repr (mkReconstructionPipeline (<[rp_delta_count p:=Some d]> (rp_deltas p)) (rp_delta_count p + 1)) (ds ++ [d]) ∧
    length (<[rp_delta_count p:=Some d]> (rp_deltas p)) = length (rp_deltas p)) as Hpush.
  { intros Hl. split; [by apply pipe_snoc|by rewrite length_insert]. }
  destruct (last ds) as [d'|] eqn:El.
  - destruct (Hlast d' eq_refl) as [-> H0]. rewrite (proj2 (Nat.ltb_lt _ _)) by lia.
    destruct (wd_sequence d <=? wd_sequence d') eqn:Es; split_bool.
    + split; [done|]. by exists d'.
    + apply Hpush. by intros ? [= <-].
  - apply last_None in El as ->. rewrite Hc. cbn [Nat.ltb Nat.leb length]. rewrite Hc in Hpush. by apply Hpush.
Qed.

(* ------------------------------------------------------------------ *)
(** ** Reconstruction *)

(** What a delta must satisfy to be applied to [size] bytes. *)
Record delta_ok (size : nat) (f : WitnessDelta → list Z) (d : WitnessDelta) : Prop := {
  do_bounds : (Z.to_nat (wd_offset d) + Z.to_nat (wd_length d) ≤ size)%nat;
  do_data : (Z.to_nat (wd_length d) ≤ length (f d))%nat;
  do_hash : fnv1a_hash (take (Z.to_nat (wd_length d)) (f d)) = wd_data_hash d;
}.

(** The recorded write. *)
Definition apply_write (f : WitnessDelta → list Z) (contents : list Z) (d : WitnessDelta) : list Z :=
  copy_at (Z.to_nat (wd_offset d)) (take (Z.to_nat (wd_length d)) (f d)) contents.

Lemma apply_delta_spec size f d base tail_ :
  length base = size →
  match apply_delta size f d (base ++ tail_) with
  | (Ok _, out) => delta_ok size f d ∧ out = apply_write f base d ++ tail_ ∧ length (apply_write f base d) = size
  | (Err e, out) => ¬ delta_ok size f d ∧ out = base ++ tail_ ∧
      (e = CheckpointCorrupted ∨ e = WitnessVerificationFailed)
  end.
Proof.
  intros Hb. unfold apply_delta.
  destruct (size <? Z.to_nat (wd_offset d) + Z.to_nat (wd_length d))%nat eqn:E1; split_bool.
  { split; [|by auto]. intros []. lia. }
  destruct (length (f d) <? Z.to_nat (wd_length d))%nat eqn:E2; split_bool.
  { split; [|by auto]. intros []. lia. }
  destruct (fnv1a_hash (take (Z.to_nat (wd_length d)) (f d)) =? wd_data_hash d) eqn:E3; cbn [negb]; split_bool.
  2: { split; [|by auto]. by intros []. }
  assert (length (take (Z.to_nat (wd_length d)) (f d)) = Z.to_nat (wd_length d)) as Hl by (rewrite length_take; lia).
  split; [done|]. unfold apply_write. split; [apply copy_at_app; lia|]. rewrite length_copy_at; lia.
Qed.

Lemma apply_deltas_spec size f tail_ ds : ∀ base k,
  length base = size → 0 ≤ k → k + Z.of_nat (length ds) ≤ u32_max →
  match apply_deltas size f (Some <$> ds) k (base ++ tail_) with
  | (Ok n, out) => Forall (delta_ok size f) ds ∧ n = k + Z.of_nat (length ds) ∧
      out = foldl (apply_write f) base ds ++ tail_ ∧ length (foldl (apply_write f) base ds) = size
  | (Err e, out) => ¬ Forall (delta_ok size f) ds ∧ (e = CheckpointCorrupted ∨ e = WitnessVerificationFailed) ∧
      length out = length (base ++ tail_)
  end.
Proof.
  induction ds as [|d ds IH]; intros base k Hb Hk Hn; cbn [fmap list_fmap apply_deltas foldl length] in *.
  { split_and!; [constructor|lia|done|done]. }
  pose proof (apply_delta_spec size f d base tail_ Hb) as Hd.
  destruct (apply_delta size f d (base ++ tail_)) as [[[]|e] out].
  - destruct Hd as (Hok & -> & Hl). rewrite wrap32_id by (unfold is_u32; lia).
    specialize (IH (apply_write f base d) (k + 1) Hl ltac:(lia) ltac:(lia)).
    change (list_fmap WitnessDelta (option WitnessDelta) Some ds) with (Some <$> ds).
    destruct (apply_deltas _ _ _ _ _) as [[n|e] out].
    + destruct IH as (Hoks & -> & -> & Hl'). split_and!; [by constructor|lia|done|done].
    + destruct IH as (Hoks & He & Hl'). split_and!; [by intros [_ ?]%Forall_cons|done|].
      rewrite Hl', !length_app. lia.
  - destruct Hd as (Hno & -> & He). split_and!; [by intros [? _]%Forall_cons|done|done].
Qed.

Lemma reconstruct_body f p ds head size buf :
  pipe_repr p ds → Z.of_nat (length ds) ≤ u32_max → length head = size → (size ≤ length buf)%nat →
  match apply_deltas size f (take (rp_delta_count p) (rp_deltas p)) 0 (head ++ drop size buf) with
  | (Err e, output) => ¬ Forall (delta_ok size f) ds ∧ length output = length buf
  | (Ok n, output) => Forall (delta_ok size f) ds ∧ n = Z.of_nat (length ds) ∧
      output = foldl (apply_write f) head ds ++ drop size buf ∧
      take size output = foldl (apply_write f) head ds ∧ length (foldl (apply_write f) head ds) = size
  end.
Proof.
  intros Hr Hn Hh Hb. rewrite (pp_count p ds Hr), (pp_deltas p ds Hr).
  pose proof (apply_deltas_spec size f (drop size buf) ds head 0 Hh ltac:(lia) ltac:(lia)) as H.
  destruct (apply_deltas _ _ _ _ _) as [[n|e] out].
  - destruct H as (Hok & -> & -> & Hl). split_and!; try done. by apply take_app_length'.
  - destruct H as (Hno & _ & Hl). split; [done|]. rewrite Hl, length_app, length_drop. lia.
Qed.

(** C36: Hibernation loses nothing.  A checkpoint made from [data], together
    with valid deltas in the pipeline, reconstructs into any large enough
    buffer exactly [data] with the recorded writes applied in order, reports
    their number and the hash of the result, and leaves the rest of the buffer
    alone. *)
Theorem checkpoint_reconstructs fuel fuel' rid cid seq data out ck n out' p ds f buf :
  4 + 4 * Z.of_nat (length data) ≤ u32_max → (length data < fuel)%nat → (length data < fuel')%nat →
  create_checkpoint fuel rid cid seq data out = Some (Ok (ck, n), out') →
  pipe_repr p ds → Z.of_nat (length ds) ≤ u32_max → Forall (delta_ok (length data) f) ds →
  (length data ≤ length buf)%nat →
  let final := foldl (apply_write f) data ds in
  reconstruct fuel' p ck out' buf f =
    Some (Ok (mkReconstructionResult rid (Z.of_nat (length data)) (Z.of_nat (length ds)) (fnv1a_hash final)),
          final ++ drop (length data) buf).
Proof.
  intros H32 Hf Hf' Hck Hr Hds Hok Hbuf final. unfold create_checkpoint in Hck.
  destruct (length data =? 0)%nat; [done|].
  destruct (compress_spec fuel data out Hf) as (r & o & Hc & Hl & Hres). rewrite Hc in Hck.
  cbn [mbind option_bind] in Hck. set (enc := le_bytes 4 _ ++ _) in *.
  pose proof (encode_length fuel data) as Hel.
  assert (length enc = (4 + length (encode fuel data))%nat) as He
    by (subst enc; by rewrite length_app, length_le_bytes).
  remember (length enc) as len eqn:Elen.
  case_decide as Hd; [|by subst r]. destruct Hres as [-> ->]. injection Hck as <- <- <-.
  unfold reconstruct. cbn [ck_compressed_size ck_uncompressed_size ck_uncompressed_hash ck_region_id].
  rewrite !wrap32_id by (unfold is_u32; lia). rewrite length_copy_at in * by lia.
  replace (Z.of_nat (length out) <? Z.of_nat len) with false by (symmetry; apply Z.ltb_ge; lia).
  replace (Z.of_nat (length buf) <? Z.of_nat (length data)) with false by (symmetry; apply Z.ltb_ge; lia).
  rewrite !Nat2Z.id, take_copy_at, take_0 by lia.
  change ([] ++ enc) with enc. unfold enc. rewrite decompress_encoded; [|done|done|lia|rewrite length_take; lia].
  cbn [mbind option_bind]. rewrite Nat.eqb_refl. cbn [negb].
  assert (copy_at 0 data (take (length data) buf) = data) as ->.
  { unfold copy_at. rewrite take_0, Nat.add_0_l, drop_ge; [by rewrite app_nil_r|rewrite length_take; lia]. }
  rewrite take_app_length, Z.eqb_refl. cbn [negb].
  pose proof (reconstruct_body f p ds data (length data) buf Hr Hds eq_refl Hbuf) as H.
  destruct (apply_deltas _ _ _ _ _) as [[k|e] o'].
  - destruct H as (_ & -> & -> & Ht & _). by rewrite Ht.
  - by destruct H as [? _].
Qed.

(** A corrupt checkpoint or delta is never accepted.  When
    [reconstruct] succeeds, the decompressed checkpoint has the recorded size
    and hash, every buffered delta is in bounds with data of the recorded
    hash, and the output is the checkpoint with exactly those writes applied;
    otherwise it returns an error.  It returns on every input. *)
Theorem reconstruct_sound fuel p ds ck compressed buf f :
  pipe_repr p ds → Z.of_nat (length ds) ≤ u32_max → Forall is_byte compressed →
  is_u32 (ck_uncompressed_size ck) → 0 ≤ ck_compressed_size ck → (length compressed < fuel)%nat →
  let size := Z.to_nat (ck_uncompressed_size ck) in
  ∃ r out, reconstruct fuel p ck compressed buf f = Some (r, out) ∧ length out = length buf ∧
    ∀ res, r = Ok res →
      ∃ base, decompress fuel (take (Z.to_nat (ck_compressed_size ck)) compressed) (take size buf) =
                Some (Ok size, base) ∧
        length base = size ∧ fnv1a_hash base = ck_uncompressed_hash ck ∧ Forall (delta_ok size f) ds ∧
        out = foldl (apply_write f) base ds ++ drop size buf ∧
        res = mkReconstructionResult (ck_region_id ck) (ck_uncompressed_size ck) (Z.of_nat (length ds))
                (fnv1a_hash (foldl (apply_write f) base ds)).
Proof.
  intros Hr Hds Hby H32 Hcs Hf size. unfold reconstruct.
  destruct (Z.of_nat (length compressed) <? ck_compressed_size ck) eqn:E1; split_bool.
  { eexists _, buf. split; [done|]. by split. }
  destruct (Z.of_nat (length buf) <? ck_uncompressed_size ck) eqn:E2; split_bool.
  { eexists _, buf. split; [done|]. by split. }
  fold size. assert (size ≤ length buf)%nat as Hsz by (unfold is_u32 in H32; lia).
  destruct (decompress_total fuel (take (Z.to_nat (ck_compressed_size ck)) compressed) (take size buf))
    as (r & head & Hd & Hl & Hres); [rewrite length_take; lia|by apply Forall_take|].
  rewrite Hd. cbn [mbind option_bind]. rewrite length_take, Nat.min_l in Hl by lia.
  assert (length (head ++ drop size buf) = length buf) as Hlen by (rewrite length_app, length_drop; lia).
  destruct r as [k|e]; [|eexists _, _; split; [done|]; by split].
  destruct (k =? size)%nat eqn:Ek; cbn [negb]; [|eexists _, _; split; [done|]; by split].
  split_bool. subst k.
  rewrite take_app_length' by done.
  destruct (fnv1a_hash head =? ck_uncompressed_hash ck) eqn:Eh; cbn [negb]; [|eexists _, _; split; [done|]; by split].
  split_bool. pose proof (reconstruct_body f p ds head size buf Hr Hds Hl Hsz) as H.
  destruct (apply_deltas _ _ _ _ _) as [[k|e] o'].
  - destruct H as (Hok & -> & -> & Ht & Hfl). rewrite Ht. eexists _, _. split; [done|].
    split; [rewrite length_app, length_drop; lia|]. intros res [= <-]. exists head. split_and!; try done.
    by rewrite wrap32_id.
  - destruct H as [_ Hl']. eexists _, _. split; [done|]. by split.
Qed.

(* ------------------------------------------------------------------ *)
(** ** Samples *)

Definition sample_data : list Z := [0; 0; 0; 7; 8; 0; 9; 0; 0; 0].
Definition sample_patch (d : WitnessDelta) : list Z := if wd_sequence d =? 1 then [5; 6] else [0].
Definition sample_deltas : list WitnessDelta :=
  [mkWitnessDelta 1 1 2 (fnv1a_hash [5; 6]); mkWitnessDelta 2 3 1 (fnv1a_hash [0])].
Definition sample_pipeline : ReconstructionPipeline :=
  (add_delta (mkWitnessDelta 2 3 1 (fnv1a_hash [0]))
    (add_delta (mkWitnessDelta 1 1 2 (fnv1a_hash [5; 6])) (pipeline_new 4)).2).2.

Lemma sample_pipeline_repr : pipe_repr sample_pipeline sample_deltas.
Proof.
  split; [by vm_compute|by vm_compute|]. repeat constructor.
Qed.

Lemma compress_roundtrip_witness :
  ∃ n out', compress 11 sample_data (replicate 44 1) = Some (Ok n, out') ∧
    decompress 11 (take n out') (replicate 12 3) = Some (Ok 10%nat, sample_data ++ [3; 3]).
Proof.
  destruct (compress_roundtrip 11 11 sample_data (replicate 44 1) (replicate 12 3))
    as (r & out' & Hc & _ & Hr); [cbn; lia|cbn; lia|cbn; unfold u32_max; lia|cbn; lia|].
  destruct r as [n|e].
  - exists n, out'. split; [exact Hc|]. destruct Hr as (_ & _ & Hr). exact Hr.
  - exfalso. destruct Hr as [_ Hr]. cbn in Hr. lia.
Defined.

Lemma decompress_total_witness :
  Forall is_byte [10; 0; 0; 0; 1; 255] ∧
  ∃ r out', decompress 7 [10; 0; 0; 0; 1; 255] (replicate 12 3) = Some (r, out') ∧ length out' = 12%nat.
Proof.
  assert (Forall is_byte [10; 0; 0; 0; 1; 255]) as Hb
    by (repeat (constructor; [unfold is_byte; lia|]); constructor).
  split; [exact Hb|].
  destruct (decompress_total 7 [10; 0; 0; 0; 1; 255] (replicate 12 3)) as (r & out' & Hd & Hl & _);
    [cbn; lia|exact Hb|]. exists r, out'. split; [exact Hd|exact Hl].
Defined.

Lemma add_delta_functional_witness :
  pipe_repr sample_pipeline sample_deltas ∧
  add_delta (mkWitnessDelta 2 0 0 0) sample_pipeline = (Err WitnessChainBroken, sample_pipeline).
Proof.
  split; [exact sample_pipeline_repr|].
  pose proof (add_delta_functional sample_pipeline sample_deltas (mkWitnessDelta 2 0 0 0) sample_pipeline_repr) as [H _].
  assert ((add_delta (mkWitnessDelta 2 0 0 0) sample_pipeline).1 = Err WitnessChainBroken) as E by (vm_compute; reflexivity).
  destruct (add_delta _ _) as [r p']. cbn [fst] in E. subst r. destruct H as [-> _]. reflexivity.
Defined.

Definition sample_checkpoint : option (RvmResult (CompressedCheckpoint * nat) * list Z) :=
  create_checkpoint 11 7 1 100 sample_data (replicate 44 0).

Lemma sample_deltas_ok : Forall (delta_ok 10 sample_patch) sample_deltas.
Proof. repeat constructor; vm_compute; try reflexivity; lia. Qed.

Lemma checkpoint_reconstructs_witness :
  ∃ ck n out' res, sample_checkpoint = Some (Ok (ck, n), out') ∧
    reconstruct 11 sample_pipeline ck out' (replicate 12 3) sample_patch =
      Some (Ok res, [0; 5; 6; 0; 8; 0; 9; 0; 0; 0; 3; 3]) ∧ rr_deltas_applied res = 2.
Proof.
  destruct sample_checkpoint as [[[[ck n]|e] out']|] eqn:E; [|vm_compute in E; discriminate E..].
  exists ck, n, out'. eexists. split; [reflexivity|].
  rewrite (checkpoint_reconstructs 11 11 7 1 100 sample_data (replicate 44 0) ck n out' sample_pipeline
    sample_deltas sample_patch (replicate 12 3)).
  - split; reflexivity.
  - cbn. unfold u32_max. lia.
  - cbn. lia.
  - cbn. lia.
  - exact E.
  - exact sample_pipeline_repr.
  - cbn. unfold u32_max. lia.
  - exact sample_deltas_ok.
  - cbn. lia.
Defined.

Lemma reconstruct_sound_witness :
  ∃ r out, reconstruct 7 sample_pipeline (mkCompressedCheckpoint 1 7 100 0 10 6) [10; 0; 0; 0; 1; 255]
    (replicate 12 3) sample_patch = Some (r, out) ∧ length out = 12%nat ∧ is_ok r = false.
Proof.
  destruct (reconstruct_sound 7 sample_pipeline sample_deltas (mkCompressedCheckpoint 1 7 100 0 10 6)
    [10; 0; 0; 0; 1; 255] (replicate 12 3) sample_patch) as (r & out & Hr & Hl & Hok).
  - exact sample_pipeline_repr.
  - cbn. unfold u32_max. lia.
  - repeat (constructor; [unfold is_byte; lia|]); constructor.
  - unfold is_u32, u32_max. cbn. lia.
  - cbn. lia.
  - cbn. lia.
  - exists r, out. split; [exact Hr|]. split; [exact Hl|].
    assert (is_ok <$> (fst <$> reconstruct 7 sample_pipeline (mkCompressedCheckpoint 1 7 100 0 10 6)
      [10; 0; 0; 0; 1; 255] (replicate 12 3) sample_patch) = Some false) as E by (vm_compute; reflexivity).
    rewrite Hr in E. injection E as E. exact E.
Defined.
