(* ===== verification/TierManager.v ===== *)
(** Memory tiers: [crates/rvm-memory/src/tier.rs].

    A tier manager tracks up to [MAX_REGIONS] regions; a region's residency
    score (cut value plus recency) drives its promotion and demotion.  The file
    proves that the manager is a finite map from region identifiers, that
    scores stay in range, and that the demotion scan and the two transitions
    agree with each other. *)

From stdpp Require Import base numbers list option sets gmap.
From Stdlib Require Import ZArith Lia.
From S2P Require Import Prelude.
From S2P Require Import SlotMap.
From S2P Require Import Types.
From S2P Require Import Region.

Local Open Scope rvm_scope.

(* ------------------------------------------------------------------ *)
(** ** Data *)

(** [Tier::index], which is also the derived order. *)
Definition tier_index (t : Tier) : Z :=
  match t with Hot => 0 | Warm => 1 | Dormant => 2 | Cold => 3 end.

Definition tier_from_u8 (val : Z) : option Tier :=
  if val =? 0 then Some Hot else if val =? 1 then Some Warm
  else if val =? 2 then Some Dormant else if val =? 3 then Some Cold else None.

Record TierThresholds : Set := mkTierThresholds {
  hot_to_warm : Z;
  warm_to_dormant : Z;
  dormant_to_cold : Z;
  warm_to_hot : Z;
  dormant_to_warm : Z;
}.

Definition TIER_THRESHOLDS_DEFAULT : TierThresholds := mkTierThresholds 7000 4000 1000 8000 5000.

Record RegionTierState : Set := mkRegionTierState {
  ts_region_id : Z;
  ts_tier : Tier;
  ts_last_access_epoch : Z;
  ts_cut_value : Z;
  ts_recency_score : Z;
  ts_occupied : bool;
}.

Definition tier_state_empty : RegionTierState := mkRegionTierState 0 Warm 0 0 0 false.

Definition residency_score (s : RegionTierState) : Z :=
  sat_add u16_max (ts_cut_value s) (ts_recency_score s).

Record TierManager : Set := mkTierManager {
  tm_regions : list RegionTierState;
  tm_count : nat;
  tm_thresholds : TierThresholds;
  tm_current_epoch : Z;
}.

Definition tier_with_thresholds (MAX_REGIONS : nat) (t : TierThresholds) : TierManager :=
  mkTierManager (replicate MAX_REGIONS tier_state_empty) 0 t 0.
Definition tier_new (MAX_REGIONS : nat) : TierManager :=
  tier_with_thresholds MAX_REGIONS TIER_THRESHOLDS_DEFAULT.

(* ------------------------------------------------------------------ *)
(** ** Operations *)

Definition set_regions (r : list RegionTierState) (m : TierManager) : TierManager :=
  mkTierManager r (tm_count m) (tm_thresholds m) (tm_current_epoch m).
Definition set_tm_count (n : nat) (m : TierManager) : TierManager :=
  mkTierManager (tm_regions m) n (tm_thresholds m) (tm_current_epoch m).

Definition advance_tier_epoch (m : TierManager) : TierManager :=
  mkTierManager (tm_regions m) (tm_count m) (tm_thresholds m)
    (sat_add u32_max (tm_current_epoch m) 1).

Definition tier_find_slot (id : Z) (m : TierManager) : option nat :=
  position (λ s, ts_occupied s && (ts_region_id s =? id)) (tm_regions m).

(** [self.regions[idx]] for an index [find_slot] returned. *)
Definition tier_slot (idx : nat) (m : TierManager) : RegionTierState :=
  default tier_state_empty (tm_regions m !! idx).

Definition tier_register (id : Z) (initial_tier : Tier) : prog TierManager RvmError unit := λ m,
  if (length (tm_regions m) <=? tm_count m)%nat then (Err ResourceLimitExceeded, m)
  else if is_some (tier_find_slot id m) then (Err MemoryOverlap, m)
  else
    match position (λ s, negb (ts_occupied s)) (tm_regions m) with
    | Some i =>
        let slot := mkRegionTierState id initial_tier (tm_current_epoch m) 0 5000 true in
        (Ok tt, set_tm_count (tm_count m + 1) (set_regions (<[i := slot]> (tm_regions m)) m))
    | None => (Err ResourceLimitExceeded, m)
    end.

Definition tier_unregister (id : Z) : prog TierManager RvmError unit := λ m,
  match tier_find_slot id m with
  | Some idx =>
      (Ok tt, set_tm_count (tm_count m - 1)
                (set_regions (<[idx := tier_state_empty]> (tm_regions m)) m))
  | None => (Err PartitionNotFound, m)
  end.

(** Write to the slot of a region, or fail. *)
Definition tier_modify (id : Z) (f : RegionTierState → RegionTierState)
    : prog TierManager RvmError unit := λ m,
  match tier_find_slot id m with
  | Some idx => (Ok tt, set_regions (<[idx := f (tier_slot idx m)]> (tm_regions m)) m)
  | None => (Err PartitionNotFound, m)
  end.

Definition touch (epoch : Z) (s : RegionTierState) : RegionTierState :=
  mkRegionTierState (ts_region_id s) (ts_tier s) epoch (ts_cut_value s)
    (Z.min (sat_add u16_max (ts_recency_score s) 1000) 10000) (ts_occupied s).

Definition tier_record_access (id : Z) : prog TierManager RvmError unit := λ m,
  tier_modify id (touch (tm_current_epoch m)) m.

Definition with_cut (cut_value : Z) (s : RegionTierState) : RegionTierState :=
  mkRegionTierState (ts_region_id s) (ts_tier s) (ts_last_access_epoch s) (Z.min cut_value 10000)
    (ts_recency_score s) (ts_occupied s).

Definition update_cut_value (id cut_value : Z) : prog TierManager RvmError unit :=
  tier_modify id (with_cut cut_value).

Definition promotion_threshold (target : Tier) (t : TierThresholds) : Z :=
  match target with
  | Hot => warm_to_hot t
  | Warm => dormant_to_warm t
  | Dormant | Cold => u16_max
  end.

Definition with_tier (t : Tier) (s : RegionTierState) : RegionTierState :=
  mkRegionTierState (ts_region_id s) t (ts_last_access_epoch s) (ts_cut_value s)
    (ts_recency_score s) (ts_occupied s).
Definition with_access (epoch : Z) (s : RegionTierState) : RegionTierState :=
  mkRegionTierState (ts_region_id s) (ts_tier s) epoch (ts_cut_value s)
    (ts_recency_score s) (ts_occupied s).

Definition promote (id : Z) (target : Tier) : prog TierManager RvmError Tier := λ m,
  match tier_find_slot id m with
  | None => (Err PartitionNotFound, m)
  | Some idx =>
      let s := tier_slot idx m in
      let current := ts_tier s in
      if tier_index current <=? tier_index target then (Err InvalidTierTransition, m)
      else if bool_decide (current = Cold) then (Err InvalidTierTransition, m)
      else if residency_score s <? promotion_threshold target (tm_thresholds m)
      then (Err CoherenceBelowThreshold, m)
      else (Ok current,
            set_regions (<[idx := with_access (tm_current_epoch m) (with_tier target s)]>
                           (tm_regions m)) m)
  end.

Definition demote (id : Z) (target : Tier) : prog TierManager RvmError Tier := λ m,
  match tier_find_slot id m with
  | None => (Err PartitionNotFound, m)
  | Some idx =>
      let s := tier_slot idx m in
      let current := ts_tier s in
      if tier_index target <=? tier_index current then (Err InvalidTierTransition, m)
      else (Ok current, set_regions (<[idx := with_tier target s]> (tm_regions m)) m)
  end.

Definition tier_get (id : Z) (m : TierManager) : option RegionTierState :=
  (λ idx, tier_slot idx m) <$> tier_find_slot id m.

Definition decay (amount : Z) (s : RegionTierState) : RegionTierState :=
  if ts_occupied s
  then mkRegionTierState (ts_region_id s) (ts_tier s) (ts_last_access_epoch s) (ts_cut_value s)
         (sat_sub (ts_recency_score s) amount) (ts_occupied s)
  else s.

Definition decay_recency (amount : Z) (m : TierManager) : TierManager :=
  set_regions (decay amount <$> tm_regions m) m.

Definition demotion_target (t : TierThresholds) (s : RegionTierState) : option Tier :=
  let score := residency_score s in
  match ts_tier s with
  | Hot => if score <? hot_to_warm t then Some Warm else None
  | Warm => if score <? warm_to_dormant t then Some Dormant else None
  | Dormant => if score <? dormant_to_cold t then Some Cold else None
  | Cold => None
  end.

(** The scan, with the caller's buffer and the number of entries written. *)
Fixpoint demotion_loop (t : TierThresholds) (slots : list RegionTierState)
    (written : nat) (out : list (Z * Tier)) : nat * list (Z * Tier) :=
  match slots with
  | [] => (written, out)
  | slot :: slots =>
      if negb (ts_occupied slot) || (length out <=? written)%nat
      then demotion_loop t slots written out
      else
        match demotion_target t slot with
        | Some target => demotion_loop t slots (written + 1) (<[written := (ts_region_id slot, target)]> out)
        | None => demotion_loop t slots written out
        end
  end.

Definition find_demotion_candidates (out : list (Z * Tier)) (m : TierManager)
    : nat * list (Z * Tier) :=
  demotion_loop (tm_thresholds m) (tm_regions m) 0 out.

(* ------------------------------------------------------------------ *)
(** ** The manager is a finite map *)

Definition tier_key (s : RegionTierState) : option Z :=
  if ts_occupied s then Some (ts_region_id s) else None.

Notation tier_view m := (view tier_key (tm_regions m)).

Definition in_basis_points (z : Z) : Prop := 0 ≤ z ≤ 10000.
Definition scores_ok (s : RegionTierState) : Prop :=
  in_basis_points (ts_cut_value s) ∧ in_basis_points (ts_recency_score s).

Record tier_inv (m : TierManager) : Prop := {
  ti_ok : slots_ok tier_key (tm_regions m);
  ti_count : tm_count m = size (tier_view m);
  ti_scores id s : tier_view m !! id = Some s → scores_ok s;
}.

Lemma tier_key_spec id s : ts_occupied s && (ts_region_id s =? id) = true ↔ tier_key s = Some id.
Proof.
  unfold tier_key. destruct (ts_occupied s); simpl; [|done]. rewrite Z.eqb_eq. naive_solver.
Qed.

Lemma tier_free_spec s : negb (ts_occupied s) = true ↔ tier_key s = None.
Proof. unfold tier_key. by destruct (ts_occupied s). Qed.

(** What [find_slot] finds, in terms of the map. *)
Lemma tier_find_spec id m :
  slots_ok tier_key (tm_regions m) →
  match tier_find_slot id m with
  | Some i => tm_regions m !! i = Some (tier_slot i m) ∧ tier_key (tier_slot i m) = Some id ∧
              tier_view m !! id = Some (tier_slot i m)
  | None => tier_view m !! id = None
  end.
Proof.
  intros Hok. unfold tier_find_slot, tier_slot.
  pose proof (find_key tier_key _ (tm_regions m) id Hok (tier_key_spec id)) as H.
  destruct (position _ _) as [i|]; [|done]. destruct H as (s & Hi & Hk & Hv). by rewrite Hi.
Qed.

Lemma tier_inv_update m i s id :
  tier_inv m → tm_regions m !! i = Some (tier_slot i m) → tier_key (tier_slot i m) = Some id →
  tier_key s = Some id → scores_ok s →
  let m' := set_regions (<[i := s]> (tm_regions m)) m in
  tier_inv m' ∧ tier_view m' = <[id := s]> (tier_view m).
Proof.
  intros [Hok Hc Hs] Hi H0 H1 Hsc m'.
  destruct (view_update tier_key _ i _ s id Hok Hi H0 H1) as [Hok' Hv]. split; [|done].
  split; unfold m'; cbn [tm_regions tm_count set_regions]; rewrite ?Hv; [done| |].
  - rewrite Hc. symmetry. apply map_size_insert_Some. eexists. by eapply view_lookup.
  - intros id' s'. destruct (decide (id' = id)) as [->|Hne].
    + rewrite lookup_insert_eq. by intros [= <-].
    + rewrite lookup_insert_ne by done. apply Hs.
Qed.

Inductive TierOp : Set :=
| TRegister (id : Z) (t : Tier) | TUnregister (id : Z) | TAccess (id : Z)
| TCut (id cut_value : Z) | TPromote (id : Z) (t : Tier) | TDemote (id : Z) (t : Tier)
| TDecay (amount : Z) | TEpoch.

(** A call's answer: an error, or the tier reported by [promote] and [demote]. *)
Notation TierAnswer := (RvmResult (option Tier)).

Definition answer_unit (r : RvmResult unit) : TierAnswer := (λ _, None) <$> r.
Definition answer_tier (r : RvmResult Tier) : TierAnswer := Some <$> r.

Definition tier_exec (op : TierOp) (m : TierManager) : TierAnswer * TierManager :=
  match op with
  | TRegister id t => let '(r, m) := tier_register id t m in (answer_unit r, m)
  | TUnregister id => let '(r, m) := tier_unregister id m in (answer_unit r, m)
  | TAccess id => let '(r, m) := tier_record_access id m in (answer_unit r, m)
  | TCut id c => let '(r, m) := update_cut_value id c m in (answer_unit r, m)
  | TPromote id t => let '(r, m) := promote id t m in (answer_tier r, m)
  | TDemote id t => let '(r, m) := demote id t m in (answer_tier r, m)
  | TDecay a => (Ok None, decay_recency a m)
  | TEpoch => (Ok None, advance_tier_epoch m)
  end.

(** The specification: a finite map of region states and an epoch. *)
Record AbsTiers : Type := mkAbsTiers { at_map : gmap Z RegionTierState; at_epoch : Z }.

Definition abs_modify (id : Z) (f : RegionTierState → RegionTierState) (a : AbsTiers)
    : TierAnswer * AbsTiers :=
  match at_map a !! id with
  | Some s => (Ok None, mkAbsTiers (<[id := f s]> (at_map a)) (at_epoch a))
  | None => (Err PartitionNotFound, a)
  end.

Definition abs_tier_exec (capacity : nat) (t : TierThresholds) (op : TierOp) (a : AbsTiers)
    : TierAnswer * AbsTiers :=
  match op with
  | TRegister id tier =>
      if (capacity <=? size (at_map a))%nat then (Err ResourceLimitExceeded, a)
      else if is_some (at_map a !! id) then (Err MemoryOverlap, a)
      else (Ok None, mkAbsTiers (<[id := mkRegionTierState id tier (at_epoch a) 0 5000 true]> (at_map a))
                       (at_epoch a))
  | TUnregister id =>
      if is_some (at_map a !! id) then (Ok None, mkAbsTiers (delete id (at_map a)) (at_epoch a))
      else (Err PartitionNotFound, a)
  | TAccess id => abs_modify id (touch (at_epoch a)) a
  | TCut id c => abs_modify id (with_cut c) a
  | TPromote id target =>
      match at_map a !! id with
      | None => (Err PartitionNotFound, a)
      | Some s =>
          if (tier_index (ts_tier s) <=? tier_index target) || bool_decide (ts_tier s = Cold)
          then (Err InvalidTierTransition, a)
          else if residency_score s <? promotion_threshold target t
          then (Err CoherenceBelowThreshold, a)
          else (Ok (Some (ts_tier s)),
                mkAbsTiers (<[id := with_access (at_epoch a) (with_tier target s)]> (at_map a)) (at_epoch a))
      end
  | TDemote id target =>
      match at_map a !! id with
      | None => (Err PartitionNotFound, a)
      | Some s =>
          if tier_index target <=? tier_index (ts_tier s) then (Err InvalidTierTransition, a)
          else (Ok (Some (ts_tier s)), mkAbsTiers (<[id := with_tier target s]> (at_map a)) (at_epoch a))
      end
  | TDecay amount => (Ok None, mkAbsTiers (decay amount <$> at_map a) (at_epoch a))
  | TEpoch => (Ok None, mkAbsTiers (at_map a) (sat_add u32_max (at_epoch a) 1))
  end.

Fixpoint tier_run (ops : list TierOp) (m : TierManager) : list TierAnswer * TierManager :=
  match ops with
  | [] => ([], m)
  | op :: ops =>
      let '(r, m) := tier_exec op m in let '(rs, m) := tier_run ops m in (r :: rs, m)
  end.

Fixpoint abs_tier_run (capacity : nat) (t : TierThresholds) (ops : list TierOp) (a : AbsTiers)
    : list TierAnswer * AbsTiers :=
  match ops with
  | [] => ([], a)
  | op :: ops =>
      let '(r, a) := abs_tier_exec capacity t op a in
      let '(rs, a) := abs_tier_run capacity t ops a in (r :: rs, a)
  end.

Definition tier_abs (m : TierManager) : AbsTiers := mkAbsTiers (tier_view m) (tm_current_epoch m).

(** Arguments a [u16] can hold. *)
Definition tier_op_ok (op : TierOp) : Prop :=
  match op with TCut _ z | TDecay z => is_u16 z | _ => True end.

(** One call: the answer of the map, the map's new state, nothing else changed. *)
Definition tier_agrees (op : TierOp) (m : TierManager) : Prop :=
  let '(r, m') := tier_exec op m in
  abs_tier_exec (length (tm_regions m)) (tm_thresholds m) op (tier_abs m) = (r, tier_abs m') ∧
  tier_inv m' ∧ length (tm_regions m') = length (tm_regions m) ∧ tm_thresholds m' = tm_thresholds m.

Lemma tier_modify_agrees id f m :
  tier_inv m →
  (∀ s, tier_key (f s) = tier_key s) → (∀ s, scores_ok s → scores_ok (f s)) →
  let '(r, m') := tier_modify id f m in
  abs_modify id f (tier_abs m) = (answer_unit r, tier_abs m') ∧
  tier_inv m' ∧ length (tm_regions m') = length (tm_regions m) ∧ tm_thresholds m' = tm_thresholds m.
Proof.
  intros Hinv Hk Hs. pose proof (tier_find_spec id m (ti_ok m Hinv)) as Hf.
  unfold tier_modify, abs_modify, tier_abs. cbn [at_map at_epoch].
  destruct (tier_find_slot id m) as [i|]; [|by rewrite Hf].
  destruct Hf as (Hi & Hki & ->).
  assert (scores_ok (tier_slot i m)) as Hsc by (eapply (ti_scores m Hinv id), view_lookup; eauto using ti_ok).
  destruct (tier_inv_update m i (f (tier_slot i m)) id Hinv Hi Hki) as [Hinv' Hv];
    [by rewrite Hk|by apply Hs|].
  split_and!; [by rewrite Hv|done|by cbn; rewrite length_insert|done].
Qed.

Lemma tier_register_agrees id t m : tier_inv m → tier_agrees (TRegister id t) m.
Proof.
  intros Hinv. destruct Hinv as [Hok Hc Hs]. unfold tier_agrees, tier_exec, tier_register.
  cbn [abs_tier_exec]. unfold tier_abs at 1 2 3 4 5 6. cbn [at_map at_epoch].
  pose proof (tier_find_spec id m Hok) as Hf. rewrite Hc.
  destruct (length (tm_regions m) <=? size (tier_view m))%nat eqn:Ecap;
    [split_and!; done|].
  split_bool. destruct (tier_find_slot id m) as [i|]; cbn [is_some].
  { destruct Hf as (_ & _ & ->). split_and!; done. }
  rewrite Hf. cbn [is_some].
  pose proof (find_free tier_key _ (tm_regions m) Hok tier_free_spec) as Hfree.
  destruct (position _ _) as [j|]; [|lia]. destruct Hfree as [(s0 & Hj & H0) _].
  set (s := mkRegionTierState id t (tm_current_epoch m) 0 5000 true).
  destruct (view_fill tier_key _ j s0 s id Hok Hj H0 eq_refl Hf) as [Hok' Hv].
  unfold answer_unit, tier_abs. cbn [fmap result_fmap tm_regions tm_current_epoch set_tm_count set_regions].
  split_and!; [by rewrite Hv| |by rewrite length_insert|done].
  split; cbn [tm_regions tm_count set_tm_count set_regions]; rewrite ?Hv; [done| |].
  - rewrite map_size_insert_None by done. lia.
  - intros id' s'. destruct (decide (id' = id)) as [->|Hne].
    + rewrite lookup_insert_eq. intros [= <-]. unfold scores_ok, in_basis_points. simpl. lia.
    + rewrite lookup_insert_ne by done. apply Hs.
Qed.

Lemma tier_unregister_agrees id m : tier_inv m → tier_agrees (TUnregister id) m.
Proof.
  intros Hinv. destruct Hinv as [Hok Hc Hs]. unfold tier_agrees, tier_exec, tier_unregister.
  cbn [abs_tier_exec]. unfold tier_abs at 1 2 3 4. cbn [at_map at_epoch].
  pose proof (tier_find_spec id m Hok) as Hf.
  destruct (tier_find_slot id m) as [i|]; [|by rewrite Hf].
  destruct Hf as (Hi & Hk & Hl). rewrite Hl. cbn [is_some].
  destruct (view_clear tier_key _ i _ tier_state_empty id Hok Hi Hk eq_refl) as [Hok' Hv].
  unfold answer_unit, tier_abs. cbn [fmap result_fmap tm_regions tm_current_epoch set_tm_count set_regions].
  split_and!; [by rewrite Hv| |by rewrite length_insert|done].
  split; cbn [tm_regions tm_count set_tm_count set_regions]; rewrite ?Hv; [done| |].
  - rewrite map_size_delete, Hl. cbn. lia.
  - intros id' s' [_ H]%lookup_delete_Some. by eapply Hs.
Qed.

Lemma tier_transition_agrees op m :
  tier_inv m → (∃ id t, op = TPromote id t ∨ op = TDemote id t) → tier_agrees op m.
Proof.
  intros Hinv (id & t & Hop). pose proof (tier_find_spec id m (ti_ok m Hinv)) as Hf.
  destruct Hop as [-> | ->]; unfold tier_agrees, tier_exec, promote, demote; cbn [abs_tier_exec];
    unfold tier_abs at 1; cbn [at_map];
    (destruct (tier_find_slot id m) as [i|]; [|rewrite Hf; split_and!; done]);
    destruct Hf as (Hi & Hk & Hl); rewrite Hl.
  - destruct (tier_index _ <=? _) eqn:E1; cbn [orb]; [split_and!; done|].
    destruct (bool_decide _) eqn:E2; [split_and!; done|].
    destruct (_ <? _) eqn:E3; [split_and!; done|].
    destruct (tier_inv_update m i (with_access (tm_current_epoch m) (with_tier t (tier_slot i m))) id Hinv Hi Hk)
      as [Hinv' Hv]; [by rewrite <- Hk|exact (ti_scores m Hinv id _ Hl)|].
    unfold tier_abs. cbn [at_epoch at_map]. rewrite <- Hv. split_and!; [done|done|by cbn; rewrite length_insert|done].
  - destruct (_ <=? _) eqn:E1; [split_and!; done|].
    destruct (tier_inv_update m i (with_tier t (tier_slot i m)) id Hinv Hi Hk)
      as [Hinv' Hv]; [by rewrite <- Hk|exact (ti_scores m Hinv id _ Hl)|].
    unfold tier_abs. cbn [at_epoch at_map]. rewrite <- Hv. split_and!; [done|done|by cbn; rewrite length_insert|done].
Qed.

Lemma decay_key a s : tier_key (decay a s) = tier_key s.
Proof. unfold decay, tier_key. by destruct (ts_occupied s) eqn:E; cbn; rewrite ?E. Qed.

Lemma decay_scores a s : is_u16 a → scores_ok s → scores_ok (decay a s).
Proof.
  unfold decay, scores_ok, in_basis_points, sat_sub, is_u16. intros.
  destruct (ts_occupied s); cbn; lia.
Qed.

Lemma tier_exec_agrees op m : tier_inv m → tier_op_ok op → tier_agrees op m.
Proof.
  intros Hinv Hop. destruct op as [id t|id|id|id c|id t|id t|a|].
  - by apply tier_register_agrees.
  - by apply tier_unregister_agrees.
  - unfold tier_agrees, tier_exec, tier_record_access.
    pose proof (tier_modify_agrees id (touch (tm_current_epoch m)) m Hinv) as H.
    destruct (tier_modify _ _ m). apply H; [done|].
    unfold scores_ok, in_basis_points, touch, sat_add, u16_max. cbn. lia.
  - unfold tier_agrees, tier_exec, update_cut_value.
    pose proof (tier_modify_agrees id (with_cut c) m Hinv) as H.
    destruct (tier_modify _ _ m). apply H; [done|]. cbn in Hop. unfold is_u16 in Hop.
    unfold scores_ok, in_basis_points, with_cut. cbn. lia.
  - apply tier_transition_agrees; eauto.
  - apply tier_transition_agrees; eauto.
  - destruct Hinv as [Hok Hc Hs]. unfold tier_agrees, tier_exec, decay_recency. cbn [abs_tier_exec].
    pose proof (view_fmap tier_key (decay a) (tm_regions m) (decay_key a)) as Hv.
    unfold tier_abs. cbn [tm_regions set_regions at_map at_epoch tm_current_epoch]. rewrite Hv.
    split_and!; [done| |by cbn; rewrite length_fmap|done].
    split; cbn [tm_regions tm_count set_regions]; rewrite ?Hv.
    + apply slots_ok_fmap; [apply decay_key|done].
    + by rewrite map_size_fmap.
    + intros id s Hl. rewrite lookup_fmap in Hl. apply fmap_Some in Hl as (s' & Hl & ->).
      apply decay_scores; [done|]. by eapply Hs.
  - split_and!; [done|by destruct Hinv|done|done].
Qed.

Lemma tier_run_refines ops m :
  tier_inv m → Forall tier_op_ok ops →
  let '(rs, m') := tier_run ops m in
  abs_tier_run (length (tm_regions m)) (tm_thresholds m) ops (tier_abs m) = (rs, tier_abs m') ∧
  tier_inv m' ∧ length (tm_regions m') = length (tm_regions m).
Proof.
  revert m. induction ops as [|op ops IH]; intros m Hinv Hops; cbn [tier_run abs_tier_run]; [done|].
  apply Forall_cons in Hops as [Hop Hops].
  pose proof (tier_exec_agrees op m Hinv Hop) as Ha. unfold tier_agrees in Ha.
  destruct (tier_exec op m) as [r m1]. destruct Ha as (-> & Hinv1 & Hlen & Hth).
  specialize (IH m1 Hinv1 Hops). rewrite Hlen, Hth in IH.
  destruct (tier_run ops m1) as [rs m2]. by destruct IH as (-> & IH).
Qed.

Lemma tier_get_view id m : tier_inv m → tier_get id m = tier_view m !! id.
Proof.
  intros Hinv. pose proof (tier_find_spec id m (ti_ok m Hinv)) as Hf. unfold tier_get.
  destruct (tier_find_slot id m); cbn; [|done]. by destruct Hf as (_ & _ & ->).
Qed.

Lemma tier_new_inv MAX_REGIONS thresholds :
  tier_inv (tier_with_thresholds MAX_REGIONS thresholds) ∧
  tier_view (tier_with_thresholds MAX_REGIONS thresholds) = ∅.
Proof.
  destruct (view_replicate tier_key MAX_REGIONS tier_state_empty eq_refl) as [Hok0 Hv0].
  split; [|done]. split; cbn; [done|by rewrite Hv0|]. intros id s. by rewrite Hv0, lookup_empty.
Qed.

(** The tier manager is a finite map from region identifiers to tier
    states.  Every history of calls on a fresh manager gets the answers the map
    gives (registration is refused exactly at capacity or for a known region,
    every other call exactly for an unknown one, promotion and demotion by the
    documented rules), ends in the map's state, counts the regions exactly, and
    keeps cut values and recency scores within 0..10000. *)
Theorem tier_manager_refines_map MAX_REGIONS thresholds ops :
  Forall tier_op_ok ops →
  let '(rs, m) := tier_run ops (tier_with_thresholds MAX_REGIONS thresholds) in
  abs_tier_run MAX_REGIONS thresholds ops (mkAbsTiers ∅ 0) = (rs, tier_abs m) ∧
  tm_count m = size (tier_view m) ∧ (tm_count m ≤ MAX_REGIONS)%nat ∧
  (∀ id, tier_get id m = tier_view m !! id) ∧
  (∀ id s, tier_view m !! id = Some s → scores_ok s).
Proof.
  intros Hops. destruct (tier_new_inv MAX_REGIONS thresholds) as [Hinv Hv0].
  pose proof (tier_run_refines ops _ Hinv Hops) as H. unfold tier_abs in H at 1.
  rewrite Hv0 in H. cbn [tm_regions tm_thresholds tm_current_epoch tier_with_thresholds] in H.
  rewrite length_replicate in H.
  destruct (tier_run ops _) as [rs m]. destruct H as (-> & Hinv' & Hlen).
  split_and!; [done|apply Hinv'| |by intros; apply tier_get_view|apply Hinv'].
  rewrite (ti_count m Hinv'), <- Hlen. apply view_size_le, Hinv'.
Qed.

Lemma tier_manager_refines_map_witness :
  let ops := [TRegister 7 Warm; TRegister 7 Hot; TAccess 7; TPromote 7 Hot; TCut 7 9000;
              TPromote 7 Hot; TDemote 7 Cold; TPromote 7 Hot; TRegister 8 Hot; TUnregister 9;
              TUnregister 7] in
  (tier_run ops (tier_new 1)).1 =
    [Ok None; Err ResourceLimitExceeded; Ok None; Err CoherenceBelowThreshold; Ok None;
     Ok (Some Warm); Ok (Some Hot); Err InvalidTierTransition; Err ResourceLimitExceeded;
     Err PartitionNotFound; Ok None] ∧
  (tm_count (tier_run ops (tier_new 1)).2 ≤ 1)%nat.
Proof.
  intros ops. split; [reflexivity|].
  assert (Forall tier_op_ok ops) as Hops by (repeat constructor; done).
  pose proof (tier_manager_refines_map 1 TIER_THRESHOLDS_DEFAULT ops Hops) as H.
  unfold tier_new. destruct (tier_run ops _) as [rs m]. by destruct H as (_ & _ & H & _).
Defined.

(* ------------------------------------------------------------------ *)
(** ** The demotion scan *)

Definition candidate (t : TierThresholds) (s : RegionTierState) : option (Z * Tier) :=
  if ts_occupied s then (λ target, (ts_region_id s, target)) <$> demotion_target t s else None.

Lemma demotion_loop_spec t slots written out :
  (written ≤ length out)%nat →
  let found := take (length out - written) (omap (candidate t) slots) in
  demotion_loop t slots written out =
    ((written + length found)%nat, take written out ++ found ++ drop (written + length found) out).
Proof.
  revert written out. induction slots as [|s slots IH]; intros written out Hw; cbn [demotion_loop].
  { simpl. rewrite take_nil. cbn. by rewrite Nat.add_0_r, take_drop. }
  change (omap (candidate t) (s :: slots)) with
    (match candidate t s with Some c => c :: omap (candidate t) slots | None => omap (candidate t) slots end).
  destruct (length out <=? written)%nat eqn:E; split_bool.
  { rewrite orb_true_r, IH by done. by replace (length out - written)%nat with O by lia. }
  rewrite orb_false_r. destruct (candidate t s) as [c|] eqn:Hc; unfold candidate in Hc;
    (destruct (ts_occupied s); [destruct (demotion_target t s) as [target|]|]; try done);
    cbn [negb]; try by apply IH.
  injection Hc as Hc. rewrite Hc. rewrite IH; rewrite length_insert; [|lia].
  replace (length out - written)%nat with (S (length out - (written + 1))) by lia.
  cbn [take length]. set (f := take _ (omap _ _)). f_equal; [lia|].
  rewrite take_insert_snoc, <- app_assoc by lia. f_equal. cbn. f_equal. f_equal.
  rewrite drop_insert_lt by lia. f_equal. lia.
Qed.

Lemma candidate_spec t slots id target :
  slots_ok tier_key slots →
  (id, target) ∈ omap (candidate t) slots ↔
  ∃ s, view tier_key slots !! id = Some s ∧ demotion_target t s = Some target.
Proof.
  intros Hok. rewrite list_elem_of_omap. unfold candidate. split.
  - intros (s & Hs & Hc). destruct (ts_occupied s) eqn:Eo; [|done].
    destruct (demotion_target t s) eqn:Et; [|done]. injection Hc as <- <-.
    apply list_elem_of_lookup in Hs as [i Hi]. exists s. split; [|done].
    eapply view_lookup; [done|done|]. unfold tier_key. by rewrite Eo.
  - intros (s & (i & Hi & Hk)%view_elem & Ht). exists s.
    split; [by eapply list_elem_of_lookup_2|].
    unfold tier_key in Hk. destruct (ts_occupied s); [|done]. by rewrite Ht; simplify_eq/=.
Qed.

(** The demotion scan writes, in the caller's buffer and nowhere past the
    count it returns, exactly the tracked regions whose residency score is below
    the threshold of their tier, each with the next tier down; it stops short
    only when the buffer is full.  Every recommendation is one [demote] accepts. *)
Theorem demotion_scan_exact m out :
  tier_inv m →
  let '(n, out') := find_demotion_candidates out m in
  let found := take n out' in
  (n ≤ length out)%nat ∧ length out' = length out ∧ drop n out' = drop n out ∧
  (∀ id target, (id, target) ∈ found →
     ∃ s, tier_get id m = Some s ∧ demotion_target (tm_thresholds m) s = Some target ∧
          (demote id target m).1 = Ok (ts_tier s)) ∧
  ((n < length out)%nat → ∀ id s target,
     tier_get id m = Some s → demotion_target (tm_thresholds m) s = Some target →
     (id, target) ∈ found).
Proof.
  intros Hinv. unfold find_demotion_candidates.
  rewrite demotion_loop_spec, Nat.sub_0_r by lia. cbn [Nat.add take app].
  set (cands := omap _ _). set (found := take (length out) cands).
  assert (length found ≤ length out)%nat as Hlen by (unfold found; rewrite length_take; lia).
  rewrite take_0, app_nil_l, take_app_length, drop_app_length. split_and!; [done| |done| |].
  - rewrite length_app, length_drop. lia.
  - intros id target (i & Hi)%list_elem_of_lookup.
    apply lookup_take_Some in Hi as [Hi _]. apply list_elem_of_lookup_2 in Hi.
    apply (candidate_spec _ _ _ _ (ti_ok m Hinv)) in Hi as (s & Hv & Ht).
    exists s. rewrite tier_get_view by done. split_and!; [done|done|].
    pose proof (tier_find_spec id m (ti_ok m Hinv)) as Hf. unfold demote.
    destruct (tier_find_slot id m) as [j|]; [|congruence].
    destruct Hf as (_ & _ & Hv'). rewrite Hv in Hv'. injection Hv' as <-.
    unfold demotion_target in Ht. cbv zeta.
    destruct (ts_tier (tier_slot j m)); try done; destruct_guards Ht; done.
  - intros Hn id s target Hg Ht. unfold found in *. rewrite length_take in Hn.
    rewrite take_ge by lia. apply candidate_spec; [apply Hinv|].
    exists s. by rewrite <- tier_get_view.
Qed.

(** Promotion and demotion do not undo each other: when the promotion
    thresholds are above the demotion thresholds, as in the default
    configuration, a region just promoted is not a demotion candidate. *)
Lemma promoted_not_demoted id target m old m' :
  tier_inv m →
  hot_to_warm (tm_thresholds m) ≤ warm_to_hot (tm_thresholds m) →
  warm_to_dormant (tm_thresholds m) ≤ dormant_to_warm (tm_thresholds m) →
  promote id target m = (Ok old, m') →
  ∃ s, tier_get id m' = Some s ∧ ts_tier s = target ∧ demotion_target (tm_thresholds m') s = None.
Proof.
  intros Hinv Hhw Hwd Hp.
  pose proof (tier_exec_agrees (TPromote id target) m Hinv I) as Ha.
  unfold tier_agrees, tier_exec in Ha. rewrite Hp in Ha. destruct Ha as (Ha & Hinv' & _ & Hth).
  cbn [abs_tier_exec tier_abs at_map at_epoch] in Ha.
  destruct (tier_view m !! id) as [s|] eqn:Hs; [|done].
  destruct (_ || _) eqn:E1; [done|]. destruct (_ <? _) eqn:E2; [done|]. split_bool.
  injection Ha as _ Hv _. rewrite tier_get_view, <- Hv, lookup_insert_eq by done.
  eexists. split_and!; [done|done|]. rewrite Hth.
  assert (residency_score s ≤ u16_max) as Hmax by (unfold residency_score, sat_add; lia).
  unfold demotion_target, residency_score in *. cbn [ts_tier ts_cut_value ts_recency_score with_access with_tier].
  destruct target; cbn [promotion_threshold] in E2.
  - by rewrite (proj2 (Z.ltb_ge _ _)) by lia.
  - by rewrite (proj2 (Z.ltb_ge _ _)) by lia.
  - destruct (ts_tier s); cbn in *; try lia; done.
  - done.
Qed.

Definition sample_tiers : TierManager :=
  (tier_run [TRegister 7 Warm; TRegister 8 Warm; TDecay 2000; TAccess 8] (tier_new 4)).2.

Lemma sample_tiers_inv : tier_inv sample_tiers.
Proof.
  pose proof (tier_run_refines [TRegister 7 Warm; TRegister 8 Warm; TDecay 2000; TAccess 8] (tier_new 4)) as H.
  unfold sample_tiers. destruct (tier_run _ _) as [rs m]. apply H.
  - apply tier_new_inv.
  - repeat constructor; done.
Qed.

Lemma demotion_scan_exact_witness :
  let '(n, out') := find_demotion_candidates [(0, Hot); (0, Hot)] sample_tiers in
  n = 1%nat ∧ take n out' = [(7, Dormant)] ∧
  (demote 7 Dormant sample_tiers).1 = Ok Warm.
Proof.
  pose proof (demotion_scan_exact sample_tiers [(0, Hot); (0, Hot)] sample_tiers_inv) as H.
  destruct (find_demotion_candidates _ _) as [n out'] eqn:E.
  assert ((n, out') = (1%nat, [(7, Dormant); (0, Hot)])) as [= -> ->]
    by (rewrite <- E; reflexivity).
  destruct H as (_ & _ & _ & H & _). split_and!; [done|done|].
  destruct (H 7 Dormant) as (s & Hs & _ & Hd); [by left|].
  rewrite Hd. f_equal. revert Hs. vm_compute. by intros [= <-].
Defined.
