(* ===== verification/Buddy.v ===== *)
(** The buddy allocator: [crates/rvm-memory/src/allocator.rs].

    One flat bitmap holds a bit per block of every order; a set bit means the
    block is free.  The file first shows that the word-level operations and the
    [trailing_zeros] scan read and write single bits, then that free and
    allocated blocks always partition the managed pages, so that no page is
    handed out twice, none is lost, and an allocation fails only when no aligned
    free range of the size exists. *)

From stdpp Require Import base numbers list option sets gmap.
From Stdlib Require Import ZArith Lia.
From S2P Require Import Prelude.
From S2P Require Import Types.
From S2P Require Import Region.

Local Open Scope nat_scope.

Definition MAX_ORDER : nat := 10.
Definition BUDDY_PAGE_SIZE : Z := 4096.

(** [bits.div_ceil(64)]. *)
Definition words_for_bits (bits : nat) : nat := (bits + 63) / 64.

(** [total_pages >> order] summed over [0..=MAX_ORDER]. *)
Definition total_bitmap_bits (total_pages : nat) : nat :=
  foldl (λ bits order, bits + Nat.shiftr total_pages order) 0 (seq 0 (MAX_ORDER + 1)).

Record BuddyAllocator : Set := mkBuddyAllocator {
  ba_base : Z;
  ba_bitmap : list Z;
  ba_bit_offsets : list nat;
}.

Definition set_bitmap (bm : list Z) (m : BuddyAllocator) : BuddyAllocator :=
  mkBuddyAllocator (ba_base m) bm (ba_bit_offsets m).

(** The word [bitmap[i]], behind the comparison with [BITMAP_WORDS]. *)
Definition bitmap_word (bm : list Z) (i : nat) : Z := default 0%Z (bm !! i).

(* ------------------------------------------------------------------ *)
(** ** Bitmap helpers *)

Definition bit_offset (order blk : nat) (m : BuddyAllocator) : nat :=
  default 0 (ba_bit_offsets m !! order) + blk.

Definition is_free (order blk : nat) (m : BuddyAllocator) : bool :=
  let bit := bit_offset order blk m in
  let word := bit / 64 in
  let bit_in_word := bit mod 64 in
  if length (ba_bitmap m) <=? word then false
  else (Z.land (Z.shiftr (bitmap_word (ba_bitmap m) word) (Z.of_nat bit_in_word)) 1 =? 1)%Z.

Definition set_free (order blk : nat) (m : BuddyAllocator) : BuddyAllocator :=
  let bit := bit_offset order blk m in
  let word := bit / 64 in
  let bit_in_word := bit mod 64 in
  if word <? length (ba_bitmap m)
  then set_bitmap
         (<[word := Z.lor (bitmap_word (ba_bitmap m) word) (Z.shiftl 1 (Z.of_nat bit_in_word))]>
            (ba_bitmap m)) m
  else m.

(** [!x] on a [u64]. *)
Definition not64 (x : Z) : Z := Z.lxor u64_max x.

Definition clear_free (order blk : nat) (m : BuddyAllocator) : BuddyAllocator :=
  let bit := bit_offset order blk m in
  let word := bit / 64 in
  let bit_in_word := bit mod 64 in
  if word <? length (ba_bitmap m)
  then set_bitmap
         (<[word := Z.land (bitmap_word (ba_bitmap m) word)
                      (not64 (Z.shiftl 1 (Z.of_nat bit_in_word)))]> (ba_bitmap m)) m
  else m.

(** [u64::trailing_zeros() as usize]. *)
Definition tz64 (w : Z) : nat := Z.to_nat (trailing_zeros 64 w).

(** The loop over whole words; [n] is [BITMAP_WORDS - word_idx]. *)
Fixpoint scan_words (bm : list Z) (n word_idx remaining bit_offset_in_level : nat) : option nat :=
  match n with
  | O => None
  | S n =>
      if remaining =? 0 then None
      else
        let word := bitmap_word bm word_idx in
        let consumed := Nat.min remaining 64 in
        let next := scan_words bm n (word_idx + 1) (remaining - consumed)
                      (bit_offset_in_level + consumed) in
        if (word =? 0)%Z then next
        else if tz64 word <? Nat.min remaining 64 then Some (bit_offset_in_level + tz64 word)
        else next
  end.

Section allocator.
Variable TOTAL_PAGES : nat.

Definition find_first_free (order : nat) (m : BuddyAllocator) : option nat :=
  let bm := ba_bitmap m in
  let block_count := Nat.shiftr TOTAL_PAGES order in
  if block_count =? 0 then None
  else
    let base_bit := default 0 (ba_bit_offsets m !! order) in
    let start_word := base_bit / 64 in
    let start_bit_in_word := base_bit mod 64 in
    if negb (start_bit_in_word =? 0) && (start_word <? length bm) then
      let mask := Z.shiftr (bitmap_word bm start_word) (Z.of_nat start_bit_in_word) in
      let tz := tz64 mask in
      if negb (mask =? 0)%Z && ((tz <? block_count) && (start_bit_in_word + tz <? 64))
      then Some tz
      else
        let consumed := Nat.min (64 - start_bit_in_word) block_count in
        scan_words bm (length bm - (start_word + 1)) (start_word + 1) (block_count - consumed) consumed
    else scan_words bm (length bm - start_word) start_word block_count 0.

(** [while order > 0 && (1 << order) > TOTAL_PAGES { order -= 1 }]. *)
Fixpoint usable_order (order : nat) : nat :=
  match order with
  | O => O
  | S o => if TOTAL_PAGES <? Nat.shiftl 1 order then usable_order o else order
  end.
Definition max_usable_order : nat := usable_order MAX_ORDER.

(** The cumulative sums that fill [bit_offsets]. *)
Fixpoint offsets_loop (n o cumulative : nat) : list nat :=
  match n with
  | O => []
  | S n => cumulative :: offsets_loop n (o + 1) (cumulative + Nat.shiftr TOTAL_PAGES o)
  end.
Definition buddy_bit_offsets : list nat := offsets_loop (MAX_ORDER + 1) 0 0.

Definition REQUIRED_BITMAP_WORDS : nat := words_for_bits (total_bitmap_bits TOTAL_PAGES).

Definition init_free_all (m : BuddyAllocator) : BuddyAllocator :=
  let m := set_bitmap (replicate (length (ba_bitmap m)) 0%Z) m in
  foldl (λ m blk, set_free max_usable_order blk m) m
    (seq 0 (Nat.shiftr TOTAL_PAGES max_usable_order)).

Definition buddy_new (BITMAP_WORDS : nat) (base : Z) : RvmResult BuddyAllocator :=
  if negb (is_page_aligned base) then Err AlignmentError
  else if BITMAP_WORDS <? REQUIRED_BITMAP_WORDS then Err ResourceLimitExceeded
  else Ok (init_free_all (mkBuddyAllocator base (replicate BITMAP_WORDS 0%Z) buddy_bit_offsets)).

(* ------------------------------------------------------------------ *)
(** ** Allocation *)

(** [PhysAddr::new(base + page_offset * PAGE_SIZE)]. *)
Definition block_addr (base : Z) (page_offset : nat) : Z :=
  wrap64 (base + wrap64 (Z.of_nat page_offset * BUDDY_PAGE_SIZE)).

(** [n] rounds of splitting: free the right child, go on with the left. *)
Fixpoint split_down (n current_order current_blk : nat) (m : BuddyAllocator) : nat * BuddyAllocator :=
  match n with
  | O => (current_blk, m)
  | S n =>
      let current_order := current_order - 1 in
      let left_child := current_blk * 2 in
      let right_child := left_child + 1 in
      split_down n current_order left_child (set_free current_order right_child m)
  end.

(** The search for a block to split; [n] is the number of orders left. *)
Fixpoint split_search (n order split_order : nat) : prog BuddyAllocator RvmError Z := λ m,
  match n with
  | O => (Err OutOfMemory, m)
  | S n =>
      match find_first_free split_order m with
      | Some blk =>
          let m := clear_free split_order blk m in
          let '(blk, m) := split_down (split_order - order) split_order blk m in
          (Ok (block_addr (ba_base m) (Nat.shiftl blk order)), m)
      | None => split_search n order (split_order + 1) m
      end
  end.

Definition alloc_pages (order : nat) : prog BuddyAllocator RvmError Z := λ m,
  if max_usable_order <? order then (Err OutOfMemory, m)
  else
    match find_first_free order m with
    | Some blk => (Ok (block_addr (ba_base m) (Nat.shiftl blk order)), clear_free order blk m)
    | None => split_search (max_usable_order - order) order (order + 1) m
    end.

(* ------------------------------------------------------------------ *)
(** ** Release *)

(** [n] is [max_usable_order - current_order]. *)
Fixpoint coalesce_loop (n current_order current_blk : nat) (m : BuddyAllocator) : BuddyAllocator :=
  match n with
  | O => m
  | S n =>
      let buddy := Nat.lxor current_blk 1 in
      let block_count := Nat.shiftr TOTAL_PAGES current_order in
      if block_count <=? buddy then m
      else if negb (is_free current_order buddy m) then m
      else
        let m := clear_free current_order current_blk m in
        let m := clear_free current_order buddy m in
        let m := set_free (current_order + 1) (current_blk / 2) m in
        coalesce_loop n (current_order + 1) (current_blk / 2) m
  end.

Definition coalesce (order block_index : nat) (m : BuddyAllocator) : BuddyAllocator :=
  coalesce_loop (max_usable_order - order) order block_index m.

(** The ancestor walk; [n] orders are left. *)
Fixpoint ancestor_free (n o blk : nat) (m : BuddyAllocator) : bool :=
  match n with
  | O => false
  | S n => if is_free o blk m then true else ancestor_free n (o + 1) (blk / 2) m
  end.

Definition is_block_free (order block_index : nat) (m : BuddyAllocator) : bool :=
  if is_free order block_index m then true
  else ancestor_free (max_usable_order - order) (order + 1) (block_index / 2) m.

Definition free_pages (addr : Z) (order : nat) : prog BuddyAllocator RvmError unit := λ m,
  if max_usable_order <? order then (Err InvalidTierTransition, m)
  else if (addr <? ba_base m)%Z then (Err AlignmentError, m)
  else
    let offset_bytes := (addr - ba_base m)%Z in
    if negb (offset_bytes mod BUDDY_PAGE_SIZE =? 0)%Z then (Err AlignmentError, m)
    else
      let page_offset := Z.to_nat (offset_bytes / BUDDY_PAGE_SIZE) in
      if TOTAL_PAGES <=? page_offset then (Err AlignmentError, m)
      else
        let block_index := Nat.shiftr page_offset order in
        if negb (Nat.shiftl block_index order =? page_offset) then (Err AlignmentError, m)
        else if is_block_free order block_index m then (Err InternalError, m)
        else (Ok tt, coalesce order block_index (set_free order block_index m)).

Definition free_page_count (m : BuddyAllocator) : nat :=
  foldl (λ count order,
           foldl (λ count blk, if is_free order blk m then count + Nat.shiftl 1 order else count)
             count (seq 0 (Nat.shiftr TOTAL_PAGES order)))
    0 (seq 0 (max_usable_order + 1)).
End allocator.

Example buddy_runs :
  match buddy_new 16 2 4096%Z with
  | Ok m =>
      let '(a, m) := alloc_pages 16 1 m in
      let '(b, m) := alloc_pages 16 0 m in
      let n1 := free_page_count 16 m in
      let '(r1, m) := free_pages 16 4096%Z 1 m in
      let '(r2, m) := free_pages 16 4096%Z 1 m in
      let '(r3, m) := free_pages 16 12288%Z 0 m in
      a = Ok 4096%Z ∧ b = Ok 12288%Z ∧ n1 = 13 ∧ r1 = Ok tt ∧ r2 = Err InternalError ∧ r3 = Ok tt ∧
      free_page_count 16 m = 16
  | Err _ => False
  end.
Proof. vm_compute. split_and!; reflexivity. Qed.

(* ------------------------------------------------------------------ *)
(** ** Words and bits *)

Definition words_ok (bm : list Z) : Prop := Forall is_u64 bm.

(** Bit [i] of the bitmap. *)
Definition bit (bm : list Z) (i : nat) : bool :=
  Z.testbit (bitmap_word bm (i / 64)) (Z.of_nat (i mod 64)).

Lemma bitmap_word_u64 bm i : words_ok bm → is_u64 (bitmap_word bm i).
Proof.
  intros Hok. unfold bitmap_word. destruct (bm !! i) as [w|] eqn:E; [|done].
  eapply Forall_lookup_1; [done|]. exact E.
Qed.

Lemma bit_outside bm i : length bm ≤ i / 64 → bit bm i = false.
Proof. intros H. unfold bit, bitmap_word. by rewrite lookup_ge_None_2, Z.bits_0 by done. Qed.

Lemma divmod64 q r : r < 64 → (q * 64 + r) / 64 = q ∧ (q * 64 + r) mod 64 = r.
Proof.
  intros. split.
  - rewrite Nat.div_add_l, Nat.div_small by lia. lia.
  - rewrite Nat.add_comm, Nat.Div0.mod_add. by apply Nat.mod_small.
Qed.

Lemma bit_in_word bm q r : r < 64 → bit bm (q * 64 + r) = Z.testbit (bitmap_word bm q) (Z.of_nat r).
Proof. intros H. unfold bit. by destruct (divmod64 q r H) as [-> ->]. Qed.

Lemma land_1_testbit w k : (0 ≤ k)%Z → (Z.land (Z.shiftr w k) 1 =? 1)%Z = Z.testbit w k.
Proof.
  intros Hk. change 1%Z with (Z.ones 1). rewrite Z.land_ones by lia. change (2 ^ 1)%Z with 2%Z.
  rewrite <- Z.bit0_mod, Z.shiftr_spec by lia. rewrite Z.add_0_l. by destruct (Z.testbit w k).
Qed.

Lemma is_free_bit order blk m : is_free order blk m = bit (ba_bitmap m) (bit_offset order blk m).
Proof.
  unfold is_free. case_guards; split_bool; [by rewrite bit_outside|].
  rewrite land_1_testbit by lia. done.
Qed.

Lemma testbit_shiftl_1 k j : (0 ≤ k)%Z → (0 ≤ j)%Z → Z.testbit (Z.shiftl 1 k) j = (j =? k)%Z.
Proof.
  intros. rewrite Z.shiftl_1_l. destruct (j =? k)%Z eqn:E; split_bool.
  - subst. by apply Z.pow2_bits_true.
  - by apply Z.pow2_bits_false.
Qed.

Lemma testbit_not64 x j : (0 ≤ j < 64)%Z → Z.testbit (not64 x) j = negb (Z.testbit x j).
Proof.
  intros. unfold not64. change u64_max with (Z.ones 64).
  rewrite Z.lxor_spec, Z.ones_spec_low by lia. by destruct (Z.testbit x j).
Qed.

(** Writing a word whose bits differ from the old ones as [f] says. *)
Lemma bit_insert bm i j w (b : bool) :
  i / 64 < length bm →
  (∀ k, (0 ≤ k < 64)%Z → Z.testbit w k =
     if (k =? Z.of_nat (i mod 64))%Z then b else Z.testbit (bitmap_word bm (i / 64)) k) →
  bit (<[i / 64 := w]> bm) j = if i =? j then b else bit bm j.
Proof.
  intros Hi Hw. unfold bit. pose proof (Nat.mod_upper_bound j 64 ltac:(lia)) as Hj.
  pose proof (Nat.div_mod_eq i 64). pose proof (Nat.div_mod_eq j 64).
  unfold bitmap_word at 1. destruct (decide (i / 64 = j / 64)) as [Heq|Hne].
  - rewrite <- Heq, list_lookup_insert_eq by done. cbn [default]. rewrite Hw by lia.
    destruct (i =? j) eqn:E1, (Z.of_nat (j mod 64) =? Z.of_nat (i mod 64))%Z eqn:E2; split_bool;
      done || lia.
  - rewrite list_lookup_insert_ne by done. destruct (i =? j) eqn:E1; split_bool; [congruence|done].
Qed.

Lemma u64_of_bits w : (0 ≤ w)%Z → (∀ k, (64 ≤ k)%Z → Z.testbit w k = false) → is_u64 w.
Proof.
  intros H0 Hb. split; [done|]. unfold u64_max.
  assert (w = Z.land w (Z.ones 64)) as ->.
  { apply Z.bits_inj'. intros k Hk. rewrite Z.land_spec.
    destruct (decide (k < 64)%Z); [rewrite Z.ones_spec_low by lia; by rewrite andb_true_r|].
    by rewrite Hb by lia. }
  rewrite Z.land_ones by lia. pose proof (Z.mod_pos_bound w (2 ^ 64) ltac:(lia)).
  change (2 ^ 64)%Z with 18446744073709551616%Z in *. lia.
Qed.

Lemma u64_high_bits w k : is_u64 w → (64 ≤ k)%Z → Z.testbit w k = false.
Proof. intros Hw Hk. apply (testbit_lt_pow2 w 64); [|lia]. unfold is_u64, u64_max in Hw. lia. Qed.

(** What the two writes do to the bits. *)
Lemma set_free_bits order blk m :
  words_ok (ba_bitmap m) → bit_offset order blk m / 64 < length (ba_bitmap m) →
  let m' := set_free order blk m in
  words_ok (ba_bitmap m') ∧ length (ba_bitmap m') = length (ba_bitmap m) ∧
  ba_base m' = ba_base m ∧ ba_bit_offsets m' = ba_bit_offsets m ∧
  ∀ j, bit (ba_bitmap m') j = if bit_offset order blk m =? j then true else bit (ba_bitmap m) j.
Proof.
  intros Hok Hlt. unfold set_free. rewrite (proj2 (Nat.ltb_lt _ _)) by done.
  set (i := bit_offset order blk m) in *. set (w := bitmap_word (ba_bitmap m) (i / 64)).
  pose proof (bitmap_word_u64 _ (i / 64) Hok) as Hw. fold w in Hw.
  pose proof (Nat.mod_upper_bound i 64 ltac:(lia)).
  split_and!; cbn [ba_bitmap ba_base ba_bit_offsets set_bitmap]; [|by rewrite length_insert|done|done|].
  - apply Forall_insert; [done|]. apply u64_of_bits.
    + apply Z.lor_nonneg. split; [apply Hw|]. apply Z.shiftl_nonneg. lia.
    + intros k Hk. rewrite Z.lor_spec, (u64_high_bits w) by done.
      rewrite testbit_shiftl_1 by lia. apply Z.eqb_neq. lia.
  - intros j. apply bit_insert; [done|]. intros k Hk.
    rewrite Z.lor_spec, testbit_shiftl_1 by lia. fold w. by destruct (k =? _)%Z; rewrite ?orb_true_r, ?orb_false_r.
Qed.

Lemma clear_free_bits order blk m :
  words_ok (ba_bitmap m) → bit_offset order blk m / 64 < length (ba_bitmap m) →
  let m' := clear_free order blk m in
  words_ok (ba_bitmap m') ∧ length (ba_bitmap m') = length (ba_bitmap m) ∧
  ba_base m' = ba_base m ∧ ba_bit_offsets m' = ba_bit_offsets m ∧
  ∀ j, bit (ba_bitmap m') j = if bit_offset order blk m =? j then false else bit (ba_bitmap m) j.
Proof.
  intros Hok Hlt. unfold clear_free. rewrite (proj2 (Nat.ltb_lt _ _)) by done.
  set (i := bit_offset order blk m) in *. set (w := bitmap_word (ba_bitmap m) (i / 64)).
  pose proof (bitmap_word_u64 _ (i / 64) Hok) as Hw. fold w in Hw.
  pose proof (Nat.mod_upper_bound i 64 ltac:(lia)).
  split_and!; cbn [ba_bitmap ba_base ba_bit_offsets set_bitmap]; [|by rewrite length_insert|done|done|].
  - apply Forall_insert; [done|]. apply u64_of_bits.
    + apply Z.land_nonneg. left. apply Hw.
    + intros k Hk. by rewrite Z.land_spec, (u64_high_bits w).
  - intros j. apply bit_insert; [done|]. intros k Hk.
    rewrite Z.land_spec, testbit_not64, testbit_shiftl_1 by lia. fold w.
    by destruct (k =? _)%Z; rewrite ?andb_true_r, ?andb_false_r.
Qed.

(** [trailing_zeros] is the index of the lowest set bit. *)
Lemma tz64_spec w :
  is_u64 w → w ≠ 0%Z →
  tz64 w < 64 ∧ Z.testbit w (Z.of_nat (tz64 w)) = true ∧
  ∀ j, j < tz64 w → Z.testbit w (Z.of_nat j) = false.
Proof.
  intros Hw Hnz.
  assert (∀ k, (k ≤ 64)%nat → k ≤ tz64 w ↔ (w mod 2 ^ Z.of_nat k = 0)%Z) as Htz.
  { intros k Hk. rewrite <- (trailing_zeros_spec k 64 w Hk). unfold tz64.
    pose proof (proj2 (trailing_zeros_spec 0 64 w ltac:(lia)) (Z.mod_1_r w)). lia. }
  assert (tz64 w < 64) as Hlt.
  { destruct (decide (tz64 w < 64)) as [|Hge]; [done|].
    assert (w mod 2 ^ Z.of_nat 64 = 0)%Z as H by (apply Htz; lia).
    rewrite Z.mod_small in H; [done|]. unfold is_u64, u64_max in Hw.
    change (2 ^ Z.of_nat 64)%Z with 18446744073709551616%Z. lia. }
  assert (∀ k j, (k ≤ 64)%nat → (w mod 2 ^ Z.of_nat k = 0)%Z → j < k →
            Z.testbit w (Z.of_nat j) = false) as Hlow.
  { intros k j Hk H Hj. rewrite <- (Z.mod_pow2_bits_low w (Z.of_nat k)) by lia. by rewrite H, Z.bits_0. }
  split_and!; [done| |].
  - destruct (Z.testbit w (Z.of_nat (tz64 w))) eqn:E; [done|]. exfalso.
    assert (S (tz64 w) ≤ tz64 w); [|lia]. apply Htz; [lia|].
    apply Z.bits_inj'. intros k Hk. rewrite Z.bits_0.
    destruct (decide (k < Z.of_nat (S (tz64 w)))%Z).
    + rewrite Z.mod_pow2_bits_low by lia. destruct (decide (k = Z.of_nat (tz64 w))) as [->|]; [done|].
      replace k with (Z.of_nat (Z.to_nat k)) by lia.
      apply (Hlow (tz64 w)); [lia|apply Htz; lia|lia].
    + apply Z.mod_pow2_bits_high. lia.
  - intros j Hj. apply (Hlow (tz64 w)); [lia|apply Htz; lia|done].
Qed.

(* ------------------------------------------------------------------ *)
(** ** The scan finds the first set bit *)

(** [r] is the least index below [count] satisfying [p]. *)
Definition first_set (p : nat → bool) (count : nat) (r : option nat) : Prop :=
  match r with
  | Some k => k < count ∧ p k = true ∧ ∀ j, j < k → p j = false
  | None => ∀ j, j < count → p j = false
  end.

Lemma first_set_ext p q count r : (∀ k, p k = q k) → first_set p count r → first_set q count r.
Proof.
  intros Hpq. destruct r as [k|]; cbn [first_set].
  - rewrite Hpq. intros (? & ? & H). split_and!; [done|done|]. intros. rewrite <- Hpq. by apply H.
  - intros H j Hj. rewrite <- Hpq. by apply H.
Qed.

(** The first [n] indices hold nothing: continue after them. *)
Lemma first_set_skip p n count r :
  n ≤ count → (∀ j, j < n → p j = false) → first_set (λ k, p (n + k)) (count - n) r →
  first_set p count (Nat.add n <$> r).
Proof.
  intros Hn Hno H.
  assert (∀ j, n ≤ j → (p (n + (j - n)) = false) → p j = false) as Hsh.
  { intros j Hj. by replace (n + (j - n)) with j by lia. }
  destruct r as [k|]; cbn in *.
  - destruct H as (H1 & H2 & H3). split_and!; [lia|done|]. intros j Hj.
    destruct (decide (j < n)); [by apply Hno|]. apply Hsh; [lia|]. apply H3. lia.
  - intros j Hj. destruct (decide (j < n)); [by apply Hno|]. apply Hsh; [lia|]. apply H. lia.
Qed.

(** The tail of a word: bits [sb..64), of which [count] are of interest. *)
Lemma word_scan w sb count :
  is_u64 w → sb < 64 →
  let mask := Z.shiftr w (Z.of_nat sb) in
  let p k := Z.testbit w (Z.of_nat (sb + k)) in
  if negb (mask =? 0)%Z && ((tz64 mask <? count) && (sb + tz64 mask <? 64))
  then first_set p count (Some (tz64 mask))
  else ∀ j, j < Nat.min (64 - sb) count → p j = false.
Proof.
  intros Hw Hsb mask p.
  assert (∀ j, Z.testbit mask (Z.of_nat j) = p j) as Hp.
  { intros j. unfold mask, p. rewrite Z.shiftr_spec by lia. f_equal. lia. }
  assert (is_u64 mask) as Hm.
  { apply u64_of_bits; [apply Z.shiftr_nonneg, Hw|]. intros k Hk. unfold mask.
    rewrite Z.shiftr_spec by lia. apply u64_high_bits; [done|lia]. }
  destruct (mask =? 0)%Z eqn:E0; cbn [negb andb]; split_bool.
  { intros j _. by rewrite <- Hp, E0, Z.bits_0. }
  destruct (tz64_spec mask Hm E0) as (Hlt & Hset & Hlow).
  assert (sb + tz64 mask < 64) as H64.
  { destruct (decide (sb + tz64 mask < 64)) as [|Hge]; [done|].
    rewrite Hp in Hset. unfold p in Hset. rewrite u64_high_bits in Hset by (done || lia). done. }
  rewrite (proj2 (Nat.ltb_lt (sb + _) 64)), andb_true_r by done.
  destruct (tz64 mask <? count) eqn:Ec; split_bool.
  - split_and!; [done|by rewrite <- Hp|]. intros j Hj. rewrite <- Hp. by apply Hlow.
  - intros j Hj. rewrite <- Hp. apply Hlow. lia.
Qed.

Lemma scan_words_spec bm n wi remaining off :
  words_ok bm → n = length bm - wi →
  ∃ r, scan_words bm n wi remaining off = Nat.add off <$> r ∧
       first_set (λ k, bit bm (wi * 64 + k)) remaining r.
Proof.
  intros Hok. revert wi remaining off. induction n as [|n IH]; intros wi remaining off Hn.
  { exists None. split; [done|]. intros j Hj. apply bit_outside.
    transitivity wi; [lia|]. apply Nat.div_le_lower_bound; lia. }
  cbn [scan_words]. destruct (remaining =? 0) eqn:E0; split_bool.
  { exists None. split; [done|]. intros j Hj. lia. }
  set (w := bitmap_word bm wi). set (c := Nat.min remaining 64).
  destruct (IH (wi + 1) (remaining - c) (off + c) ltac:(lia)) as (r & Hr & Hf).
  assert (∀ k, k < 64 → bit bm (wi * 64 + k) = Z.testbit w (Z.of_nat k)) as Hb
    by (intros; by apply bit_in_word).
  pose proof (word_scan w 0 c (bitmap_word_u64 bm wi Hok) ltac:(lia)) as Hscan.
  cbn [Z.of_nat] in Hscan. rewrite Z.shiftr_0_r in Hscan. cbn [Nat.add] in Hscan.
  assert ((if (w =? 0)%Z then scan_words bm n (wi + 1) (remaining - c) (off + c)
           else if tz64 w <? c then Some (off + tz64 w)
                else scan_words bm n (wi + 1) (remaining - c) (off + c)) =
          if negb (w =? 0)%Z && (tz64 w <? c) then Some (off + tz64 w)
          else scan_words bm n (wi + 1) (remaining - c) (off + c)) as ->
    by (destruct (w =? 0)%Z; [done|by destruct (tz64 w <? c)]).
  destruct (negb (w =? 0)%Z && (tz64 w <? c)) eqn:Ec.
  - apply andb_true_iff in Ec as [Enz Etz].
    rewrite Enz, Etz in Hscan. cbn [andb] in Hscan.
    apply Nat.ltb_lt in Etz. rewrite (proj2 (Nat.ltb_lt _ 64)) in Hscan by lia.
    destruct Hscan as (H1 & H2 & H3).
    exists (Some (tz64 w)). split; [done|]. split_and!; [lia|by rewrite Hb by lia|].
    intros j Hj. rewrite Hb by lia. by apply H3.
  - assert (∀ j, j < c → bit bm (wi * 64 + j) = false) as Hno.
    { assert (negb (w =? 0)%Z && ((tz64 w <? c) && (tz64 w <? 64)) = false) as Hc.
      { by rewrite andb_assoc, Ec. }
      rewrite Hc in Hscan. intros j Hj. rewrite Hb by lia. apply Hscan. lia. }
    exists (Nat.add c <$> r). split.
    + rewrite Hr. destruct r; [cbn; f_equal; lia|done].
    + destruct (decide (remaining ≤ 64)) as [Hle|Hgt].
      * assert (c = remaining) as Hcr by lia. rewrite Hcr, Nat.sub_diag in Hf. rewrite <- Hcr at 1.
        apply first_set_skip; [done|done|]. rewrite Nat.sub_diag.
        destruct r as [k|]; [cbn in Hf; lia|]. intros j Hj. lia.
      * apply first_set_skip; [lia|done|]. eapply first_set_ext; [|exact Hf].
        intros k. cbn beta. f_equal. lia.
Qed.

Section allocator_proofs.
Variable T : nat.
Notation M := (max_usable_order T).
Notation blocks o := (Nat.shiftr T o).

(** The scan of an order returns its first free block. *)
Lemma find_first_free_spec o m :
  words_ok (ba_bitmap m) →
  first_set (λ b, is_free o b m) (blocks o) (find_first_free T o m).
Proof.
  intros Hok. unfold find_first_free.
  destruct (blocks o =? 0) eqn:E0; split_bool.
  { intros j Hj. lia. }
  set (base := default 0 (ba_bit_offsets m !! o)). set (bm := ba_bitmap m).
  pose proof (Nat.mod_upper_bound base 64 ltac:(lia)) as Hsb.
  pose proof (Nat.div_mod_eq base 64) as Hbase.
  set (sw := base / 64) in *. set (sb := base mod 64) in *.
  assert (∀ b, is_free o b m = bit bm (sw * 64 + (sb + b))) as Hfree.
  { intros b. rewrite is_free_bit. unfold bit_offset. fold base. f_equal. lia. }
  assert (∀ k, sb + k < 64 → is_free o k m = Z.testbit (bitmap_word bm sw) (Z.of_nat (sb + k))) as Hw.
  { intros k Hk. by rewrite Hfree, bit_in_word. }
  destruct (negb (sb =? 0) && (sw <? length bm)) eqn:E1.
  - pose proof (word_scan (bitmap_word bm sw) sb (blocks o) (bitmap_word_u64 bm sw Hok) Hsb) as Hs.
    clear E1. cbv zeta in Hs |- *. destruct (negb _ && _) eqn:E2.
    + destruct Hs as (H1 & H2 & H3). split_bool. split_and!; [done|by rewrite Hw|].
      intros j Hj. rewrite Hw by lia. by apply H3.
    + set (c := Nat.min (64 - sb) (blocks o)) in *.
      destruct (scan_words_spec bm (length bm - (sw + 1)) (sw + 1) (blocks o - c) c Hok eq_refl)
        as (r & -> & Hf).
      assert (∀ j, j < c → is_free o j m = false) as Hno.
      { intros j Hj. rewrite Hw by lia. by apply Hs. }
      destruct (decide (blocks o ≤ 64 - sb)) as [Hle|Hgt].
      * assert (c = blocks o) as Hc by lia. rewrite Hc, Nat.sub_diag in Hf.
        apply first_set_skip; [lia|done|]. rewrite Hc, Nat.sub_diag.
        destruct r as [k|]; [cbn in Hf; lia|]. intros j Hj. lia.
      * apply first_set_skip; [lia|done|]. eapply first_set_ext; [|exact Hf].
        intros k. cbn beta. rewrite Hfree. f_equal. lia.
  - destruct (scan_words_spec bm (length bm - sw) sw (blocks o) 0 Hok eq_refl) as (r & -> & Hf).
    assert (first_set (λ b, is_free o b m) (blocks o) r) as H.
    { apply andb_false_iff in E1 as [E1|E1]; split_bool.
      - eapply first_set_ext; [|exact Hf]. intros k. cbn beta. rewrite Hfree. f_equal. lia.
      - destruct r as [k|].
        + destruct Hf as (_ & Hf & _). rewrite bit_outside in Hf; [done|].
          transitivity sw; [lia|]. apply Nat.div_le_lower_bound; lia.
        + intros j Hj. rewrite Hfree. apply bit_outside.
          transitivity sw; [lia|]. apply Nat.div_le_lower_bound; lia. }
    by destruct r.
Qed.
End allocator_proofs.

(* ------------------------------------------------------------------ *)
(** ** Blocks *)

Notation block := (nat * nat)%type.

(** The sibling index. *)
Lemma buddy_spec b : Nat.lxor b 1 = if Nat.even b then b + 1 else b - 1.
Proof.
  assert (∀ q, Nat.lxor (2 * q) 1 = 2 * q + 1) as He.
  { intros q. apply Nat.bits_inj. intros [|n]; rewrite Nat.lxor_spec.
    - by rewrite Nat.testbit_even_0, Nat.testbit_odd_0.
    - rewrite Nat.testbit_even_succ, Nat.testbit_odd_succ by lia.
      replace 1 with (2 * 0 + 1) by lia.
      rewrite Nat.testbit_odd_succ, Nat.bits_0, xorb_false_r by lia. done. }
  destruct (Nat.Even_or_Odd b) as [[q ->]|[q ->]].
  - rewrite He. by rewrite Nat.even_even.
  - rewrite Nat.even_odd. rewrite <- He at 1.
    rewrite Nat.lxor_assoc, Nat.lxor_nilpotent, Nat.lxor_0_r. lia.
Qed.

Lemma buddy_facts b :
  Nat.lxor b 1 / 2 = b / 2 ∧ Nat.lxor b 1 ≠ b ∧ Nat.lxor (Nat.lxor b 1) 1 = b ∧
  (∀ c, c / 2 = b / 2 → c = b ∨ c = Nat.lxor b 1).
Proof.
  split_and!.
  3: by rewrite Nat.lxor_assoc, Nat.lxor_nilpotent, Nat.lxor_0_r.
  all: rewrite buddy_spec; destruct (Nat.Even_or_Odd b) as [[q ->]|[q ->]];
    rewrite ?Nat.even_even, ?Nat.even_odd; try lia.
  - rewrite Nat.add_comm, Nat.mul_comm, Nat.div_add, Nat.div_mul by lia. done.
  - replace (2 * q + 1 - 1) with (q * 2) by lia. replace (2 * q + 1) with (1 + q * 2) by lia.
    rewrite Nat.div_add, Nat.div_mul by lia. done.
  - intros c Hc. rewrite (Nat.mul_comm 2 q), Nat.div_mul in Hc by lia.
    pose proof (Nat.div_mod_eq c 2). pose proof (Nat.mod_upper_bound c 2). lia.
  - intros c Hc. replace (2 * q + 1) with (1 + q * 2) in Hc by lia.
    rewrite Nat.div_add in Hc by lia. change (1 / 2) with 0 in Hc.
    pose proof (Nat.div_mod_eq c 2). pose proof (Nat.mod_upper_bound c 2). lia.
Qed.

(** Block [x] contains page [p]. *)
Definition covers (x : block) (p : nat) : Prop := p / 2 ^ x.1 = x.2.

Lemma covers_bounds x p : covers x p ↔ x.2 * 2 ^ x.1 ≤ p < (x.2 + 1) * 2 ^ x.1.
Proof.
  unfold covers. pose proof (Nat.pow_nonzero 2 x.1 ltac:(lia)) as Hn.
  pose proof (Nat.div_mod_eq p (2 ^ x.1)). pose proof (Nat.mod_upper_bound p (2 ^ x.1) Hn).
  split; [intros <-; nia|]. intros [H1 H2]. symmetry. apply (Nat.div_unique _ _ _ (p - x.2 * 2 ^ x.1)); lia.
Qed.

Lemma div_pow_S p o : p / 2 ^ S o = p / 2 ^ o / 2.
Proof. rewrite Nat.pow_succ_r', (Nat.mul_comm 2), Nat.Div0.div_div. done. Qed.

(** A block is the union of its two children. *)
Lemma covers_children o b p : covers (S o, b) p ↔ covers (o, 2 * b) p ∨ covers (o, 2 * b + 1) p.
Proof.
  unfold covers. cbn [fst snd]. rewrite div_pow_S. set (q := p / 2 ^ o).
  pose proof (Nat.div_mod_eq q 2). pose proof (Nat.mod_upper_bound q 2). lia.
Qed.

Lemma covers_first o b : covers (o, b) (b * 2 ^ o).
Proof. unfold covers. cbn. apply Nat.div_mul, Nat.pow_nonzero. lia. Qed.

(** A set of blocks that covers every page below [T] exactly once. *)
Record tiling (T M : nat) (B : block → Prop) : Prop := {
  tl_valid x : B x → x.1 ≤ M ∧ x.2 < Nat.shiftr T x.1;
  tl_cover p : p < T → ∃ x, B x ∧ covers x p;
  tl_unique x y p : B x → B y → covers x p → covers y p → x = y;
}.

Lemma tiling_ext T M (B B' : block → Prop) : (∀ x, B x ↔ B' x) → tiling T M B → tiling T M B'.
Proof.
  intros HB [Hv Hc Hu]. split.
  - intros x Hx. by apply Hv, HB.
  - intros p Hp. destruct (Hc p Hp) as (x & Hx & ?). exists x. by rewrite <- HB.
  - intros x y p Hx Hy. apply Hu; by apply HB.
Qed.

Section block_proofs.
Context (T : nat).
Notation M := (max_usable_order T).
Notation blocks o := (Nat.shiftr T o).
Context (HT : 0 < T) (Hdiv : (2 ^ M | T)).

Definition valid (x : block) : Prop := x.1 ≤ M ∧ x.2 < blocks x.1.

Lemma max_usable_le : M ≤ MAX_ORDER.
Proof.
  unfold max_usable_order. induction MAX_ORDER as [|o IH]; cbn [usable_order]; [done|].
  destruct (_ <? _); lia.
Qed.

Lemma blocks_pages o : o ≤ M → blocks o * 2 ^ o = T.
Proof.
  intros Ho. rewrite Nat.shiftr_div_pow2.
  assert (2 ^ o | T) as [q Hq].
  { transitivity (2 ^ M); [|done]. exists (2 ^ (M - o)). rewrite <- Nat.pow_add_r. f_equal. lia. }
  rewrite Hq at 1. rewrite Nat.div_mul by (apply Nat.pow_nonzero; lia). lia.
Qed.

Lemma blocks_S o : S o ≤ M → blocks o = 2 * blocks (S o).
Proof.
  intros Ho. pose proof (blocks_pages o ltac:(lia)) as H1. pose proof (blocks_pages (S o) Ho) as H2.
  rewrite Nat.pow_succ_r' in H2. pose proof (Nat.pow_nonzero 2 o ltac:(lia)). nia.
Qed.

Lemma valid_page x p : valid x → covers x p → p < T.
Proof.
  intros [Ho Hb] Hc. apply covers_bounds in Hc. pose proof (blocks_pages x.1 Ho).
  pose proof (Nat.pow_nonzero 2 x.1 ltac:(lia)). nia.
Qed.

Lemma valid_child o b : valid (S o, b) → valid (o, 2 * b) ∧ valid (o, 2 * b + 1).
Proof.
  intros [Ho Hb]. cbn [fst snd] in *. pose proof (blocks_S o Ho).
  unfold valid. cbn [fst snd]. lia.
Qed.

Lemma valid_parent o b : S o ≤ M → valid (o, b) → valid (S o, b / 2) ∧ valid (o, Nat.lxor b 1).
Proof.
  intros HoM [Ho Hb]. cbn [fst snd] in *. pose proof (blocks_S o HoM) as HS. unfold valid. cbn [fst snd].
  split; (split; [lia|]).
  - apply Nat.Div0.div_lt_upper_bound. lia.
  - rewrite buddy_spec. destruct (Nat.Even_or_Odd b) as [[q ->]|[q ->]];
      rewrite ?Nat.even_even, ?Nat.even_odd; lia.
Qed.

(** Splitting a block of a tiling, and merging two buddies. *)
Lemma tiling_split (B : block → Prop) o b :
  tiling T M B → B (S o, b) →
  tiling T M (λ x, (B x ∧ x ≠ (S o, b)) ∨ x = (o, 2 * b) ∨ x = (o, 2 * b + 1)).
Proof.
  intros [Hv Hc Hu] HB. destruct (valid_child o b (Hv _ HB)) as [Hl Hr].
  assert (∀ x p, B x → covers x p →
            covers (o, 2 * b) p ∨ covers (o, 2 * b + 1) p → x = (S o, b)) as Hin.
  { intros x p Hx Hp Hch. apply (Hu x (S o, b) p); [done|done|done|]. by apply covers_children. }
  split.
  - intros x [[Hx _]|[-> | ->]]; [by apply Hv|done|done].
  - intros p Hp. destruct (Hc p Hp) as (x & Hx & Hxp).
    destruct (decide (x = (S o, b))) as [->|Hne]; [|by exists x; eauto].
    apply covers_children in Hxp as [|]; eexists; eauto.
  - intros x y p Hx Hy Hxp Hyp.
    destruct Hx as [[Hx Hxn]|[-> | ->]], Hy as [[Hy Hyn]|[-> | ->]]; try done;
      try (by exfalso; eauto); [by eapply Hu| |]; unfold covers in *; cbn in *; lia.
Qed.

Lemma tiling_merge (B : block → Prop) o b :
  S o ≤ M → tiling T M B → B (o, b) → B (o, Nat.lxor b 1) →
  tiling T M (λ x, (B x ∧ x ≠ (o, b) ∧ x ≠ (o, Nat.lxor b 1)) ∨ x = (S o, b / 2)).
Proof.
  intros HoM [Hv Hc Hu] HB HB'. destruct (buddy_facts b) as (Hpar & _ & _ & Hsib).
  assert (∀ p, covers (S o, b / 2) p ↔ covers (o, b) p ∨ covers (o, Nat.lxor b 1) p) as Hcov.
  { intros p. unfold covers. cbn [fst snd]. rewrite div_pow_S. split.
    - intros H. by apply Hsib.
    - intros [-> | ->]; [done|]. by rewrite Hpar. }
  destruct (valid_parent o b HoM (Hv _ HB)) as [Hvp _].
  split.
  - intros x [[Hx _]| ->]; [by apply Hv|done].
  - intros p Hp. destruct (Hc p Hp) as (x & Hx & Hxp).
    destruct (decide (x = (o, b))) as [->|Hn1];
      [exists (S o, b / 2); rewrite Hcov; eauto|].
    destruct (decide (x = (o, Nat.lxor b 1))) as [->|Hn2];
      [exists (S o, b / 2); rewrite Hcov; eauto|].
    exists x. eauto.
  - assert (∀ x p, B x → x ≠ (o, b) → x ≠ (o, Nat.lxor b 1) → covers x p →
              covers (S o, b / 2) p → False) as Hno.
    { intros x p Hx H1 H2 Hxp [H|H]%Hcov; [apply H1|apply H2]; by eapply Hu. }
    intros x y p Hx Hy Hxp Hyp.
    destruct Hx as [(Hx & Hx1 & Hx2)| ->], Hy as [(Hy & Hy1 & Hy2)| ->];
      [by eapply Hu|by exfalso; eauto|by exfalso; eauto|done].
Qed.

(* ------------------------------------------------------------------ *)
(** ** The bitmap holds one bit per block *)

(** The offset of an order: the blocks of the orders below it. *)
Fixpoint order_offset (o : nat) : nat :=
  match o with O => 0 | S o => order_offset o + blocks o end.

Lemma offsets_loop_lookup n o i :
  i < n → offsets_loop T n o (order_offset o) !! i = Some (order_offset (o + i)).
Proof.
  revert o i. induction n as [|n IH]; intros o i Hi; [lia|]. cbn [offsets_loop].
  destruct i as [|i]; [by rewrite Nat.add_0_r|]. cbn [lookup list_lookup].
  change (order_offset o + blocks o) with (order_offset (S o)).
  rewrite Nat.add_1_r, IH by lia. f_equal. f_equal. lia.
Qed.

Lemma order_offset_mono o o' : o ≤ o' → order_offset o ≤ order_offset o'.
Proof. induction 1; cbn; lia. Qed.

(** A bitmap of the required size, with the precomputed offsets. *)
Record layout (m : BuddyAllocator) : Prop := {
  ly_words : words_ok (ba_bitmap m);
  ly_offsets : ba_bit_offsets m = buddy_bit_offsets T;
  ly_size : order_offset (S MAX_ORDER) ≤ 64 * length (ba_bitmap m);
}.

Lemma layout_offset m x : layout m → valid x → bit_offset x.1 x.2 m = order_offset x.1 + x.2.
Proof.
  intros Hly [Ho _]. unfold bit_offset, buddy_bit_offsets. rewrite (ly_offsets m Hly).
  change (buddy_bit_offsets T) with (offsets_loop T (MAX_ORDER + 1) 0 (order_offset 0)).
  rewrite offsets_loop_lookup; [done|]. pose proof max_usable_le. lia.
Qed.

Lemma layout_in_range m x :
  layout m → valid x → bit_offset x.1 x.2 m / 64 < length (ba_bitmap m).
Proof.
  intros Hly Hx. rewrite layout_offset by done. destruct Hx as [Ho Hb].
  pose proof (order_offset_mono (S x.1) (S MAX_ORDER)) as Hm. change (order_offset (S x.1)) with (order_offset x.1 + blocks x.1) in Hm.
  pose proof max_usable_le. pose proof (ly_size m Hly).
  apply Nat.Div0.div_lt_upper_bound. lia.
Qed.

Lemma offset_inj x y :
  valid x → valid y → order_offset x.1 + x.2 = order_offset y.1 + y.2 → x = y.
Proof.
  destruct x as [o b], y as [o' b']. intros [Ho Hb] [Ho' Hb']. cbn [fst snd] in *. intros Heq.
  assert (o = o') as ->; [|f_equal; lia].
  destruct (decide (o < o')).
  - pose proof (order_offset_mono (S o) o' ltac:(lia)) as H.
    change (order_offset (S o)) with (order_offset o + blocks o) in H. lia.
  - destruct (decide (o' < o)); [|lia].
    pose proof (order_offset_mono (S o') o ltac:(lia)) as H.
    change (order_offset (S o')) with (order_offset o' + blocks o') in H. lia.
Qed.

Notation free m x := (is_free x.1 x.2 m = true).

(** Writing the bit of one block leaves the bits of the others. *)
Lemma set_free_spec m x :
  layout m → valid x →
  let m' := set_free x.1 x.2 m in
  layout m' ∧ ba_base m' = ba_base m ∧ ∀ y, valid y → free m' y ↔ y = x ∨ free m y.
Proof.
  intros Hly Hx. pose proof (layout_in_range m x Hly Hx) as Hlt.
  destruct (set_free_bits x.1 x.2 m (ly_words m Hly) Hlt) as (H1 & H2 & H3 & H4 & H5).
  assert (layout (set_free x.1 x.2 m)) as Hly'.
  { destruct Hly. split; [done|by rewrite H4|by rewrite H2]. }
  split_and!; [done|done|]. intros y Hy.
  rewrite !is_free_bit, H5, !layout_offset by done. case_guards; split_bool.
  - split; [|done]. left. symmetry. by apply offset_inj.
  - split; [by right|]. by intros [->|?].
Qed.

Lemma clear_free_spec m x :
  layout m → valid x →
  let m' := clear_free x.1 x.2 m in
  layout m' ∧ ba_base m' = ba_base m ∧ ∀ y, valid y → free m' y ↔ y ≠ x ∧ free m y.
Proof.
  intros Hly Hx. pose proof (layout_in_range m x Hly Hx) as Hlt.
  destruct (clear_free_bits x.1 x.2 m (ly_words m Hly) Hlt) as (H1 & H2 & H3 & H4 & H5).
  assert (layout (clear_free x.1 x.2 m)) as Hly'.
  { destruct Hly. split; [done|by rewrite H4|by rewrite H2]. }
  split_and!; [done|done|]. intros y Hy.
  rewrite !is_free_bit, H5, !layout_offset by done. case_guards; split_bool.
  - split; [done|]. intros [Hn _]. destruct Hn. symmetry. by apply offset_inj.
  - split; [|by intros [_ ?]]. intros Hf. split; [by intros ->|done].
Qed.

(* ------------------------------------------------------------------ *)
(** ** Free and allocated blocks partition the pages *)

(** Allocator [m] with the allocated blocks [A]. *)
Record buddy_wf (m : BuddyAllocator) (A : list block) : Prop := {
  bw_layout : layout m;
  bw_tiling : tiling T M (λ x, (valid x ∧ free m x) ∨ x ∈ A);
  bw_disjoint x : valid x → free m x → x ∉ A;
  bw_nodup : NoDup A;
}.

(** Two free buddies below the top order exist only around [x]. *)
Definition coalesced_around (m : BuddyAllocator) (P : block → Prop) : Prop :=
  ∀ o b, o < M → valid (o, b) → free m (o, b) → free m (o, Nat.lxor b 1) →
    P (o, b) ∨ P (o, Nat.lxor b 1).

Record buddy_inv (m : BuddyAllocator) (A : list block) : Prop := {
  bi_wf : buddy_wf m A;
  bi_coalesced : coalesced_around m (λ _, False);
}.

Lemma wf_valid m A x : buddy_wf m A → x ∈ A → valid x.
Proof. intros Hwf Hx. apply (tl_valid _ _ _ (bw_tiling m A Hwf)). by right. Qed.

(** Taking a free block. *)
Lemma take_block m A x :
  buddy_inv m A → valid x → free m x → buddy_inv (clear_free x.1 x.2 m) (x :: A).
Proof.
  intros [[Hly Ht Hd Hn] Hco] Hx Hf.
  destruct (clear_free_spec m x Hly Hx) as (Hly' & _ & Hfr). split.
  - split; [done| | |].
    + eapply tiling_ext; [|exact Ht]. intros y. rewrite elem_of_cons. split.
      * intros [[Hy Hfy]|Hy]; [|by right; right].
        destruct (decide (y = x)) as [->|]; [by right; left|]. left. rewrite Hfr by done. done.
      * intros [[Hy Hfy]|[->|Hy]]; [|by left|by right].
        apply Hfr in Hfy as [_ Hfy]; [by left|done].
    + intros y Hy [Hne Hfy]%Hfr; [|done]. rewrite elem_of_cons.
      intros [->|?]; [done|]. by eapply Hd.
    + constructor; [by apply Hd|done].
  - intros o b Ho Hv [_ H1]%Hfr H2; [|done].
    destruct (valid_parent o b Ho Hv) as [_ Hv']. apply (Hfr (o, Nat.lxor b 1) Hv') in H2 as [_ H2].
    exact (Hco o b Ho Hv H1 H2).
Qed.

(** Splitting the block in hand: keep the left child, free the right. *)
Lemma split_block m A o b :
  buddy_inv m ((S o, b) :: A) →
  buddy_inv (set_free o (2 * b + 1) m) ((o, 2 * b) :: A) ∧
  ba_base (set_free o (2 * b + 1) m) = ba_base m.
Proof.
  intros [Hwf Hco]. assert (valid (S o, b)) as Hx by (eapply wf_valid; [done|by left]).
  destruct Hwf as [Hly Ht Hd Hn]. destruct (valid_child o b Hx) as [Hl Hr].
  destruct (set_free_spec m (o, 2 * b + 1) Hly Hr) as (Hly' & Hb & Hfr). split; [|done].
  apply NoDup_cons in Hn as [HxA Hn].
  pose proof (tl_unique _ _ _ Ht) as Hu.
  assert (∀ z, z = (o, 2 * b) ∨ z = (o, 2 * b + 1) → ∀ y, ((valid y ∧ free m y) ∨ y ∈ (S o, b) :: A) →
            ∀ p, covers z p → covers y p → y = (S o, b)) as Hin.
  { intros z Hz y Hy p Hzp Hyp. apply (Hu y (S o, b) p); [done|right; by left|done|].
    apply covers_children. destruct Hz as [-> | ->]; eauto. }
  assert (∀ z, z = (o, 2 * b) ∨ z = (o, 2 * b + 1) → z ∉ A ∧ ¬ (valid z ∧ free m z)) as Hnot.
  { intros z Hz. pose proof (Hin z Hz z) as H.
    assert (covers z (z.2 * 2 ^ z.1)) as Hcz by (destruct z; apply covers_first).
    split; [intros HA|intros Hf]; assert (z = (S o, b)) as ->
      by (eapply H; [set_solver|exact Hcz|exact Hcz]); destruct Hz as [Hz|Hz]; injection Hz; lia. }
  destruct (Hnot (o, 2 * b) ltac:(by left)) as [HlA Hlf].
  destruct (Hnot (o, 2 * b + 1) ltac:(by right)) as [HrA Hrf]. clear Hnot Hin Hu.
  split.
  - split; [done| | |].
    + eapply tiling_ext; [|eapply tiling_split; [exact Ht|right; by left]].
      intros y. rewrite !elem_of_cons. split.
      * intros [[[[Hy Hf]|[->|Hy]] Hne]|[-> | ->]].
        -- left. split; [done|]. apply Hfr; [done|]. by right.
        -- done.
        -- by right; right.
        -- by right; left.
        -- left. split; [done|]. apply Hfr; [done|]. by left.
      * intros [[Hy Hf]|[->|Hy]].
        -- apply Hfr in Hf as [->|Hf]; [by right; right| |done].
           left. split; [by left|]. intros ->. by eapply (Hd (S o, b)); [| |left].
        -- by right; left.
        -- left. split; [by right; right|]. by intros ->.
    + intros y Hy [->|Hf]%Hfr; [| |done]; rewrite elem_of_cons; intros [Heq|HA].
      * injection Heq. lia.
      * done.
      * subst y. by destruct Hlf.
      * eapply (Hd y); [done|done|by right].
    + by constructor.
  - intros o' b' Ho' Hv Hf1 Hf2. destruct (valid_parent o' b' Ho' Hv) as [_ Hv'].
    apply Hfr in Hf1; [|done]. apply (Hfr (o', Nat.lxor b' 1) Hv') in Hf2.
    assert (Nat.lxor (2 * b + 1) 1 = 2 * b) as Hsib.
    { rewrite buddy_spec, Nat.even_odd. lia. }
    destruct Hf1 as [[-> ->]%pair_eq|Hf1].
    + rewrite Hsib in Hf2. destruct Hf2 as [[_ ?]%pair_eq|Hf2]; [lia|]. by destruct Hlf.
    + destruct Hf2 as [[-> Hf2]%pair_eq|Hf2]; [|exact (Hco o' b' Ho' Hv Hf1 Hf2)].
      assert (b' = 2 * b) as ->.
      { rewrite <- Hsib, <- Hf2. by destruct (buddy_facts b') as (_ & _ & -> & _). }
      by destruct Hlf.
Qed.

(** Merging a free block with its free buddy. *)
Lemma merge_blocks m A o c :
  buddy_wf m A → S o ≤ M → valid (o, c) → free m (o, c) → free m (o, Nat.lxor c 1) →
  let m' := set_free (S o) (c / 2) (clear_free o (Nat.lxor c 1) (clear_free o c m)) in
  buddy_wf m' A ∧ ba_base m' = ba_base m ∧
  ∀ y, valid y → free m' y ↔
    y = (S o, c / 2) ∨ (y ≠ (o, c) ∧ y ≠ (o, Nat.lxor c 1) ∧ free m y).
Proof.
  intros [Hly Ht Hd Hn] HoM Hv Hf1 Hf2 m'. destruct (valid_parent o c HoM Hv) as [Hp Hv2].
  destruct (clear_free_spec m (o, c) Hly Hv) as (Hly1 & Hb1 & Hfr1).
  destruct (clear_free_spec _ (o, Nat.lxor c 1) Hly1 Hv2) as (Hly2 & Hb2 & Hfr2).
  destruct (set_free_spec _ (S o, c / 2) Hly2 Hp) as (Hly3 & Hb3 & Hfr3).
  assert (∀ y, valid y → free m' y ↔
            y = (S o, c / 2) ∨ (y ≠ (o, c) ∧ y ≠ (o, Nat.lxor c 1) ∧ free m y)) as Hfr.
  { intros y Hy. unfold m'. rewrite (Hfr3 y Hy), (Hfr2 y Hy), (Hfr1 y Hy). tauto. }
  split_and!; [|by unfold m'; etransitivity; [exact Hb3|]; etransitivity; [exact Hb2|exact Hb1]|done].
  assert (tiling T M (λ x, (((valid x ∧ free m x) ∨ x ∈ A) ∧ x ≠ (o, c) ∧ x ≠ (o, Nat.lxor c 1))
                           ∨ x = (S o, c / 2))) as Htm.
  { apply (tiling_merge _ o c HoM Ht); left; by split. }
  assert (∀ y, y ∈ A → y ≠ (o, c) ∧ y ≠ (o, Nat.lxor c 1)) as HA.
  { intros y Hy. split; intros ->; [by apply (Hd _ Hv Hf1)|by apply (Hd _ Hv2 Hf2)]. }
  assert ((S o, c / 2) ∉ A) as HpA.
  { intros HpA.
    assert ((S o, c / 2) = (o, c)) as [=]; [|lia].
    apply (tl_unique _ _ _ Ht _ _ (c * 2 ^ o)); [by right|by left| |apply covers_first].
    unfold covers. cbn [fst snd]. rewrite div_pow_S. f_equal. apply (covers_first o c). }
  split; [done| | |done].
  - eapply tiling_ext; [|exact Htm]. intros y. split.
    + intros [([[Hy Hfy]|Hy] & H1 & H2)| ->].
      * left. split; [done|]. apply Hfr; [done|]. by right.
      * by right.
      * left. split; [done|]. apply Hfr; [done|]. by left.
    + intros [[Hy Hfy]|Hy].
      * apply Hfr in Hfy as [->|(H1 & H2 & H3)]; [by right| |done]. left. split_and!; [by left|done|done].
      * left. destruct (HA y Hy). split_and!; [by right|done|done].
  - intros y Hy Hfy. apply Hfr in Hfy as [->|(_ & _ & H3)]; [done|by apply Hd|done].
Qed.

Lemma coalesce_spec n o c m A :
  n = M - o → buddy_wf m A → valid (o, c) → free m (o, c) →
  coalesced_around m (λ x, x = (o, c)) →
  buddy_inv (coalesce_loop T n o c m) A ∧ ba_base (coalesce_loop T n o c m) = ba_base m.
Proof.
  revert o c m. induction n as [|n IH]; intros o c m Hn Hwf Hv Hf Hco; cbn [coalesce_loop].
  { split; [|done]. split; [done|]. intros o' b' Ho' Hv' H1 H2.
    assert (o = M) as -> by (destruct Hv; cbn [fst snd] in *; lia).
    destruct (Hco o' b' Ho' Hv' H1 H2) as [[-> _]%pair_eq|[-> _]%pair_eq]; lia. }
  assert (S o ≤ M) as HoM by lia.
  destruct (valid_parent o c HoM Hv) as [Hp Hv2].
  assert (blocks o <=? Nat.lxor c 1 = false) as -> by (destruct Hv2; cbn [fst snd] in *; apply Nat.leb_gt; lia).
  destruct (is_free o (Nat.lxor c 1) m) eqn:E; cbn [negb].
  - destruct (merge_blocks m A o c Hwf HoM Hv Hf E) as (Hwf' & Hb' & Hfr).
    rewrite !Nat.add_1_r. edestruct IH as [IH1 IH2]; [| | | |  |split; [exact IH1|by rewrite IH2]].
    + lia.
    + done.
    + done.
    + apply Hfr; [done|by left].
    + intros o' b' Ho' Hv' H1 H2. destruct (valid_parent o' b' Ho' Hv') as [_ Hv2'].
      apply Hfr in H1; [|done]. apply (Hfr (o', Nat.lxor b' 1) Hv2') in H2.
      destruct H1 as [H1|(H1 & H1' & H1f)]; [by left|].
      destruct H2 as [H2|(H2 & H2' & H2f)]; [by right|].
      destruct (Hco o' b' Ho' Hv' H1f H2f) as [?|?]; done.
  - split; [|done]. split; [done|]. intros o' b' Ho' Hv' H1 H2.
    destruct (Hco o' b' Ho' Hv' H1 H2) as [[-> ->]%pair_eq|[-> <-]%pair_eq].
    + cbn [fst snd] in H2. congruence.
    + destruct (buddy_facts b') as (_ & _ & Hinv & _). rewrite Hinv in E. cbn [fst snd] in H1. congruence.
Qed.

(** The order of the allocated blocks does not matter. *)
Lemma buddy_inv_perm m A A' : A ≡ₚ A' → buddy_inv m A → buddy_inv m A'.
Proof.
  intros HA [[Hly Ht Hd Hn] Hco]. split; [|done]. split; [done| | |by rewrite <- HA].
  - eapply tiling_ext; [|exact Ht]. intros x. cbn beta. by rewrite HA.
  - intros x. rewrite <- HA. apply Hd.
Qed.

(** Giving a block back. *)
Lemma release_block m A o b :
  buddy_inv m ((o, b) :: A) →
  let m' := coalesce T o b (set_free o b m) in
  buddy_inv m' A ∧ ba_base m' = ba_base m.
Proof.
  intros [Hwf Hco]. assert (valid (o, b)) as Hv by (eapply wf_valid; [done|by left]).
  destruct Hwf as [Hly Ht Hd Hn]. apply NoDup_cons in Hn as [HxA Hn].
  destruct (set_free_spec m (o, b) Hly Hv) as (Hly' & Hb & Hfr).
  destruct (coalesce_spec (M - o) o b (set_free o b m) A eq_refl) as [H1 H2].
  - split; [done| | |done].
    + eapply tiling_ext; [|exact Ht]. intros y. cbn beta. rewrite elem_of_cons. split.
      * intros [[Hy Hf]|[->|Hy]]; [|by left; split; [|apply Hfr; [|left]]|by right].
        left. split; [done|]. apply Hfr; [done|by right].
      * intros [[Hy Hf]|Hy]; [|by right; right].
        apply Hfr in Hf as [->|Hf]; [by right; left|by left|done].
    + intros y Hy Hf. apply Hfr in Hf as [->|Hf]; [done| |done].
      intros HA. eapply (Hd y); [done|done|by right].
  - done.
  - apply (Hfr (o, b) Hv). by left.
  - intros o' b' Ho' Hv' Hf1 Hf2. destruct (valid_parent o' b' Ho' Hv') as [_ Hv2'].
    apply Hfr in Hf1 as [?|Hf1]; [by left| |done].
    apply (Hfr (o', Nat.lxor b' 1) Hv2') in Hf2 as [?|Hf2]; [by right|].
    by destruct (Hco o' b' Ho' Hv' Hf1 Hf2).
  - split; [done|]. by etransitivity; [exact H2|].
Qed.

(* ------------------------------------------------------------------ *)
(** ** Allocation *)

Lemma split_down_spec n so b m A :
  n ≤ so → buddy_inv m ((so, b) :: A) →
  let '(b', m') := split_down n so b m in
  buddy_inv m' ((so - n, b') :: A) ∧ ba_base m' = ba_base m ∧ b' = b * 2 ^ n.
Proof.
  revert so b m. induction n as [|n IH]; intros so b m Hn Hinv; cbn [split_down].
  { rewrite Nat.sub_0_r, Nat.pow_0_r, Nat.mul_1_r. done. }
  destruct so as [|so]; [lia|]. replace (S so - 1) with so by lia.
  destruct (split_block m A so b Hinv) as [Hinv' Hb]. rewrite (Nat.mul_comm b 2).
  specialize (IH so (2 * b) (set_free so (2 * b + 1) m) ltac:(lia) Hinv').
  destruct (split_down n so (2 * b) _) as [b' m']. destruct IH as (IH1 & IH2 & ->).
  replace (S so - S n) with (so - n) by lia. rewrite Nat.pow_succ_r'. split_and!; [done|by rewrite IH2|lia].
Qed.

Definition no_free_from (m : BuddyAllocator) (o : nat) : Prop :=
  ∀ x, valid x → o ≤ x.1 → ¬ free m x.

Lemma split_search_spec n o so m A :
  n = S M - so → o ≤ so → buddy_inv m A →
  (∀ x, valid x → o ≤ x.1 → x.1 < so → ¬ free m x) →
  match split_search T n o so m with
  | (Ok a, m') => ∃ b, a = block_addr (ba_base m) (Nat.shiftl b o) ∧
                       buddy_inv m' ((o, b) :: A) ∧ ba_base m' = ba_base m
  | (Err e, m') => e = OutOfMemory ∧ m' = m ∧ no_free_from m o
  end.
Proof.
  revert so. induction n as [|n IH]; intros so Hn Hso Hinv Hno; cbn [split_search].
  { split_and!; [done|done|]. intros x Hx Hox. apply Hno; [done|done|]. destruct Hx. lia. }
  pose proof (find_first_free_spec T so m (ly_words _ (bw_layout _ _ (bi_wf _ _ Hinv)))) as Hfind.
  destruct (find_first_free T so m) as [blk|]; cbn [first_set] in Hfind.
  - destruct Hfind as (Hblk & Hf & _).
    assert (valid (so, blk)) as Hv by (split; cbn [fst snd]; lia).
    pose proof (take_block m A (so, blk) Hinv Hv Hf) as Htake. cbn [fst snd] in Htake.
    destruct (clear_free_spec m (so, blk) (bw_layout _ _ (bi_wf _ _ Hinv)) Hv) as (_ & Hb & _).
    cbn [fst snd] in Hb.
    pose proof (split_down_spec (so - o) so blk _ A ltac:(lia) Htake) as Hs.
    destruct (split_down _ _ _ _) as [b' m']. destruct Hs as (Hs & Hb' & _).
    replace (so - (so - o)) with o in Hs by lia.
    exists b'. rewrite Hb', Hb. done.
  - rewrite Nat.add_1_r. apply IH; [lia|lia|done|]. intros x Hx Hox Hlt.
    destruct (decide (x.1 = so)) as [Heq|]; [|apply Hno; [done|done|lia]].
    destruct x as [ox bx]. cbn [fst snd] in *. subst ox. rewrite Hfind; [done|]. by destruct Hx.
Qed.

(** [alloc_pages] hands out one block of the order asked for, or finds no free
    block of that order or a higher one. *)
Lemma alloc_pages_spec o m A :
  buddy_inv m A →
  match alloc_pages T o m with
  | (Ok a, m') => ∃ b, a = block_addr (ba_base m) (Nat.shiftl b o) ∧
                       buddy_inv m' ((o, b) :: A) ∧ ba_base m' = ba_base m
  | (Err e, m') => e = OutOfMemory ∧ m' = m ∧ no_free_from m o
  end.
Proof.
  intros Hinv. unfold alloc_pages. destruct (M <? o) eqn:E; split_bool.
  { split_and!; [done|done|]. intros x [Hx _] Hox. lia. }
  pose proof (find_first_free_spec T o m (ly_words _ (bw_layout _ _ (bi_wf _ _ Hinv)))) as Hfind.
  destruct (find_first_free T o m) as [blk|]; cbn [first_set] in Hfind.
  - destruct Hfind as (Hblk & Hf & _). assert (valid (o, blk)) as Hv by (split; cbn [fst snd]; lia).
    exists blk. split_and!; [done|apply (take_block m A (o, blk) Hinv Hv Hf)|].
    apply (clear_free_spec m (o, blk) (bw_layout _ _ (bi_wf _ _ Hinv)) Hv).
  - apply split_search_spec; [lia|lia|done|]. intros x Hx Hox Hlt.
    assert (x.1 = o) as Heq by lia. destruct x as [ox bx]. cbn [fst snd] in *. subst ox.
    rewrite Hfind; [done|]. by destruct Hx.
Qed.

(** A block all of whose pages are free lies in a free block: there is no
    fragmentation among buddies. *)
Lemma free_range_covered m A o b :
  buddy_inv m A → valid (o, b) →
  (∀ p, covers (o, b) p → ∃ x, valid x ∧ free m x ∧ covers x p) →
  ∃ x, valid x ∧ free m x ∧ o ≤ x.1 ∧ x.2 = b / 2 ^ (x.1 - o).
Proof.
  intros Hinv. revert b. induction o as [|o IH]; intros b Hv Hall.
  { destruct (Hall (b * 2 ^ 0) (covers_first 0 b)) as (x & Hx & Hf & Hc).
    exists x. unfold covers in Hc. rewrite Nat.pow_0_r, Nat.mul_1_r in Hc.
    rewrite Nat.sub_0_r. split_and!; [done|done|lia|done]. }
  destruct (valid_child o b Hv) as [Hl Hr].
  destruct (IH (2 * b) Hl) as (x & Hx & Hfx & Hox & Hbx); [intros; apply Hall, covers_children; by left|].
  destruct (IH (2 * b + 1) Hr) as (y & Hy & Hfy & Hoy & Hby); [intros; apply Hall, covers_children; by right|].
  assert (∀ k c, c / 2 = b → o < k → c / 2 ^ (k - o) = b / 2 ^ (k - S o)) as Hpow.
  { intros k c Hc Hk. replace (k - o) with (S (k - S o)) by lia.
    rewrite Nat.pow_succ_r', <- Nat.Div0.div_div, Hc. done. }
  destruct (decide (o < x.1)).
  { exists x. split_and!; [done|done|lia|]. rewrite Hbx. apply Hpow; [|done].
    rewrite Nat.mul_comm. by apply Nat.div_mul. }
  destruct (decide (o < y.1)).
  { exists y. split_and!; [done|done|lia|]. rewrite Hby. apply Hpow; [|done].
    rewrite Nat.add_comm, Nat.mul_comm, Nat.div_add by lia. done. }
  exfalso. destruct x as [ox bx], y as [oy by']. cbn [fst snd] in *.
  assert (ox = o) as -> by lia. assert (oy = o) as -> by lia.
  rewrite Nat.sub_diag, Nat.pow_0_r, Nat.div_1_r in Hbx, Hby. subst bx by'.
  assert (o < M) as HoM by (destruct Hv; cbn [fst snd] in *; lia).
  assert (False ∨ False) as Hf; [|tauto]. apply (bi_coalesced m A Hinv o (2 * b) HoM Hl Hfx).
  cbn [fst snd]. by rewrite buddy_spec, Nat.even_even.
Qed.

(* ------------------------------------------------------------------ *)
(** ** Release *)

Lemma ancestor_free_spec n o b m :
  ancestor_free n o b m = true ↔ ∃ k, k < n ∧ is_free (o + k) (b / 2 ^ k) m = true.
Proof.
  revert o b. induction n as [|n IH]; intros o b; cbn [ancestor_free]; [split; [done|]; intros (k & ? & _); lia|].
  destruct (is_free o b m) eqn:E.
  - split; [|done]. intros _. exists 0. rewrite Nat.add_0_r, Nat.pow_0_r, Nat.div_1_r. split; [lia|done].
  - rewrite IH. split; intros (k & Hk & Hf).
    + exists (S k). rewrite Nat.pow_succ_r', <- Nat.Div0.div_div. split; [lia|].
      by replace (o + S k) with (o + 1 + k) by lia.
    + destruct k as [|k]; [rewrite Nat.add_0_r, Nat.pow_0_r, Nat.div_1_r in Hf; congruence|].
      exists k. rewrite Nat.pow_succ_r', <- Nat.Div0.div_div in Hf. split; [lia|].
      by replace (o + 1 + k) with (o + S k) by lia.
Qed.

(** A block counts as free when a free block contains it. *)
Lemma is_block_free_spec m o b :
  valid (o, b) →
  is_block_free T o b m = true ↔
  ∃ x, valid x ∧ free m x ∧ o ≤ x.1 ∧ x.2 = b / 2 ^ (x.1 - o).
Proof.
  intros [Ho Hb]. cbn [fst snd] in *.
  assert (∀ k, o + k ≤ M → valid (o + k, b / 2 ^ k)) as Hanc.
  { intros k Hk. split; [done|]. cbn [fst snd]. pose proof (blocks_pages o Ho).
    pose proof (blocks_pages (o + k) Hk) as H2. rewrite Nat.pow_add_r in H2.
    pose proof (Nat.pow_nonzero 2 o ltac:(lia)). pose proof (Nat.pow_nonzero 2 k ltac:(lia)).
    apply Nat.Div0.div_lt_upper_bound. nia. }
  unfold is_block_free. destruct (is_free o b m) eqn:E.
  - split; [|done]. intros _. exists (o, b). cbn [fst snd].
    rewrite Nat.sub_diag, Nat.pow_0_r, Nat.div_1_r. done.
  - rewrite ancestor_free_spec. split.
    + intros (k & Hk & Hf). rewrite Nat.Div0.div_div in Hf. change 2 with (2 ^ 1) in Hf at 1.
      rewrite <- Nat.pow_add_r in Hf.
      exists (o + 1 + k, b / 2 ^ (1 + k)). cbn [fst snd].
      replace (o + 1 + k - o) with (1 + k) by lia.
      replace (o + 1 + k) with (o + (1 + k)) in * by lia.
      split_and!; [apply Hanc; lia|done|lia|done].
    + intros ([o' b'] & [Ho' _] & Hf & Hle & Hb'). cbn [fst snd] in *.
      destruct (decide (o' = o)) as [->|Hne].
      { rewrite Nat.sub_diag, Nat.pow_0_r, Nat.div_1_r in Hb'. congruence. }
      exists (o' - o - 1). split; [lia|]. rewrite Nat.Div0.div_div.
      replace (o + 1 + (o' - o - 1)) with o' by lia.
      replace (2 * 2 ^ (o' - o - 1)) with (2 ^ (o' - o)); [by rewrite <- Hb'|].
      rewrite <- Nat.pow_succ_r'. f_equal. lia.
Qed.

(** Address of a block, when the managed range ends below [2^64]. *)
Definition in_space (base : Z) : Prop :=
  (0 ≤ base ∧ base + Z.of_nat T * BUDDY_PAGE_SIZE ≤ u64_max + 1)%Z.

Lemma block_page_lt x : valid x → Nat.shiftl x.2 x.1 = x.2 * 2 ^ x.1 ∧ x.2 * 2 ^ x.1 + 2 ^ x.1 ≤ T.
Proof.
  intros [Ho Hb]. rewrite Nat.shiftl_mul_pow2. split; [done|]. pose proof (blocks_pages x.1 Ho). nia.
Qed.

Lemma block_addr_eq base o b :
  in_space base → valid (o, b) →
  block_addr base (Nat.shiftl b o) = (base + Z.of_nat (b * 2 ^ o) * BUDDY_PAGE_SIZE)%Z.
Proof.
  intros [H0 H1] Hx. destruct (block_page_lt (o, b) Hx) as [Heq Hle]. cbn [fst snd] in *. rewrite Heq.
  pose proof (Nat.pow_nonzero 2 o ltac:(lia)) as Hk. clear Hx Heq. revert Hk Hle.
  generalize (b * 2 ^ o) as q. generalize (2 ^ o) as k. intros k q Hk Hq.
  unfold block_addr, BUDDY_PAGE_SIZE, u64_max in *.
  rewrite (wrap64_id (Z.of_nat q * 4096)), wrap64_id; unfold is_u64, u64_max in *; lia.
Qed.

(** The guards of [free_pages], on the address of page [p]. *)
Lemma free_pages_guards m p o :
  p < T → o ≤ M → (0 ≤ ba_base m)%Z →
  free_pages T (ba_base m + Z.of_nat p * BUDDY_PAGE_SIZE) o m =
    if negb (p / 2 ^ o * 2 ^ o =? p) then (Err AlignmentError, m)
    else if is_block_free T o (p / 2 ^ o) m then (Err InternalError, m)
    else (Ok tt, coalesce T o (p / 2 ^ o) (set_free o (p / 2 ^ o) m)).
Proof.
  intros Hp Ho Hb. unfold free_pages. rewrite (proj2 (Nat.ltb_ge M o)) by done.
  unfold BUDDY_PAGE_SIZE. rewrite (proj2 (Z.ltb_ge _ _)) by lia. cbv zeta.
  replace (ba_base m + Z.of_nat p * 4096 - ba_base m)%Z with (Z.of_nat p * 4096)%Z by lia.
  rewrite Z.mod_mul, Z.div_mul by lia. cbn [Z.eqb negb]. rewrite Nat2Z.id.
  rewrite (proj2 (Nat.leb_gt T p)), Nat.shiftr_div_pow2, Nat.shiftl_mul_pow2 by done. done.
Qed.

(** Releasing an allocated block succeeds. *)
Lemma free_pages_allocated m A o b :
  in_space (ba_base m) → buddy_inv m ((o, b) :: A) →
  let '(r, m') := free_pages T (block_addr (ba_base m) (Nat.shiftl b o)) o m in
  r = Ok tt ∧ buddy_inv m' A ∧ ba_base m' = ba_base m.
Proof.
  intros Hsp Hinv. assert (valid (o, b)) as Hv by (eapply wf_valid; [apply Hinv|by left]).
  rewrite block_addr_eq by done.
  destruct (block_page_lt _ Hv) as [_ Hle]. cbn [fst snd] in Hle.
  pose proof (Nat.pow_nonzero 2 o ltac:(lia)) as Hnz.
  rewrite free_pages_guards; [|lia|by destruct Hv|by destruct Hsp].
  rewrite Nat.div_mul, Nat.eqb_refl by done. cbn [negb].
  destruct (is_block_free T o b m) eqn:E.
  - exfalso. apply is_block_free_spec in E as (x & Hx & Hf & Hox & Hbx); [|done].
    assert (covers x (b * 2 ^ o)) as Hc.
    { unfold covers. rewrite Hbx. replace x.1 with (o + (x.1 - o)) at 1 by lia.
      rewrite Nat.pow_add_r, <- Nat.Div0.div_div, Nat.div_mul by done. done. }
    assert (x = (o, b)) as ->.
    { apply (tl_unique _ _ _ (bw_tiling _ _ (bi_wf _ _ Hinv)) _ _ (b * 2 ^ o));
        [by left|right; by left|done|apply covers_first]. }
    eapply (bw_disjoint _ _ (bi_wf _ _ Hinv)); [exact Hx|done|by left].
  - destruct (release_block m A o b Hinv) as [H1 H2]. done.
Qed.

(** Releasing a range no page of which is allocated is refused. *)
Lemma free_pages_double m A o b :
  in_space (ba_base m) → buddy_inv m A → valid (o, b) →
  (∀ p x, covers (o, b) p → x ∈ A → ¬ covers x p) →
  free_pages T (block_addr (ba_base m) (Nat.shiftl b o)) o m = (Err InternalError, m).
Proof.
  intros Hsp Hinv Hv Hno. rewrite block_addr_eq by done.
  destruct (block_page_lt _ Hv) as [_ Hle]. cbn [fst snd] in Hle.
  pose proof (Nat.pow_nonzero 2 o ltac:(lia)) as Hnz.
  rewrite free_pages_guards; [|lia|by destruct Hv|by destruct Hsp].
  rewrite Nat.div_mul, Nat.eqb_refl by done. cbn [negb].
  rewrite (proj2 (is_block_free_spec m o b Hv)); [done|].
  eapply free_range_covered; [done|done|]. intros p Hp.
  destruct (tl_cover _ _ _ (bw_tiling _ _ (bi_wf _ _ Hinv)) p) as (x & [[Hx Hf]|HA] & Hc);
    [by eapply valid_page|by exists x|by destruct (Hno p x Hp HA)].
Qed.

(* ------------------------------------------------------------------ *)
(** ** A fresh allocator *)

Lemma init_loop_spec n m :
  layout m → n ≤ blocks M →
  let m' := foldl (λ m blk, set_free M blk m) m (seq 0 n) in
  layout m' ∧ ba_base m' = ba_base m ∧
  ∀ y, valid y → free m' y ↔ (y.1 = M ∧ y.2 < n) ∨ free m y.
Proof.
  intros Hly. induction n as [|n IH]; intros Hn; [split_and!; [done|done|]; intros; split; [by right|intros [[_ ?]|?]; [lia|done]]|].
  rewrite seq_S, foldl_app. cbn [foldl]. destruct IH as (IH1 & IH2 & IH3); [lia|].
  cbn [Nat.add]. set (m1 := foldl _ m (seq 0 n)) in *.
  destruct (set_free_spec m1 (M, n) IH1) as (H1 & H2 & H3); [split; cbn [fst snd]; lia|].
  split_and!; [done|by rewrite <- IH2|]. intros y Hy. rewrite (H3 y Hy), (IH3 y Hy).
  destruct y as [oy by']. cbn [fst snd]. rewrite pair_eq, Nat.lt_succ_r, Nat.le_lteq. tauto.
Qed.

Lemma buddy_new_inv W base :
  match buddy_new T W base with
  | Ok m => buddy_inv m [] ∧ ba_base m = base
  | Err e => (e = AlignmentError ∧ is_page_aligned base = false) ∨
             (e = ResourceLimitExceeded ∧ W < REQUIRED_BITMAP_WORDS T)
  end.
Proof.
  unfold buddy_new. destruct (is_page_aligned base); cbn [negb]; [|by left].
  destruct (W <? REQUIRED_BITMAP_WORDS T) eqn:EW; split_bool; [by right|].
  unfold init_free_all. cbn [set_bitmap ba_base ba_bitmap ba_bit_offsets].
  rewrite length_replicate. set (m0 := mkBuddyAllocator base (replicate W 0%Z) (buddy_bit_offsets T)).
  assert (layout m0) as Hly.
  { split; [apply Forall_replicate; done|done|].
    change (ba_bitmap m0) with (replicate W 0%Z). rewrite length_replicate.
    change (order_offset (S MAX_ORDER)) with (total_bitmap_bits T).
    unfold REQUIRED_BITMAP_WORDS, words_for_bits in EW.
    pose proof (Nat.div_mod_eq (total_bitmap_bits T + 63) 64).
    pose proof (Nat.mod_upper_bound (total_bitmap_bits T + 63) 64). lia. }
  destruct (init_loop_spec (blocks M) m0 Hly ltac:(lia)) as (Hly' & Hb & Hfr).
  set (m := foldl _ m0 _) in *. split; [|done].
  assert (∀ y, valid y → ¬ free m0 y) as H0.
  { intros y Hy. rewrite is_free_bit. unfold bit, bitmap_word.
    change (ba_bitmap m0) with (replicate W 0%Z).
    destruct (replicate W 0%Z !! _) as [w|] eqn:E; [apply lookup_replicate in E as [-> _]|];
      cbn [default]; by rewrite Z.bits_0. }
  assert (∀ y, valid y → free m y ↔ y.1 = M) as Hfree.
  { intros y Hy. rewrite (Hfr y Hy). pose proof (H0 y Hy). destruct Hy as [_ Hy]. split.
    - intros [[? _]|?]; [done|tauto].
    - intros Heq. left. by rewrite Heq in Hy. }
  split; [split; [done| |by intros; apply not_elem_of_nil|constructor]|].
  - split.
    + intros x [[Hx _]|Hx]; [done|by apply not_elem_of_nil in Hx].
    + intros p Hp. exists (M, p / 2 ^ M). split; [|done]. left.
      assert (valid (M, p / 2 ^ M)) as Hv.
      { split; [done|]. cbn [fst snd]. apply Nat.Div0.div_lt_upper_bound.
        pose proof (blocks_pages M ltac:(lia)). lia. }
      split; [done|]. by apply Hfree.
    + intros x y p [[Hx Hfx]|Hx] [[Hy Hfy]|Hy]; try (by apply not_elem_of_nil in Hx);
        try (by apply not_elem_of_nil in Hy).
      apply Hfree in Hfx, Hfy; [|done..]. unfold covers. destruct x, y. cbn [fst snd] in *.
      subst. congruence.
  - intros o b Ho Hv Hf _. apply Hfree in Hf; [|done]. cbn [fst] in Hf. lia.
Qed.

(* ------------------------------------------------------------------ *)
(** ** Counting pages *)

Definition block_pages (x : block) : list nat := seq (x.2 * 2 ^ x.1) (2 ^ x.1).

Lemma block_pages_covers x p : p ∈ block_pages x ↔ covers x p.
Proof. unfold block_pages. rewrite elem_of_seq, covers_bounds. lia. Qed.

Lemma length_bind {A B} (f : A → list B) (l : list A) :
  length (l ≫= f) = sum_list_with (length ∘ f) l.
Proof. induction l as [|x l IH]; [done|]. by rewrite bind_cons, length_app, IH. Qed.

Lemma sum_ext {A} (f g : A → nat) l : (∀ x, f x = g x) → sum_list_with f l = sum_list_with g l.
Proof. intros H. induction l as [|x l IH]; [done|]. cbn. by rewrite H, IH. Qed.

(** The blocks of a tiling have [T] pages together. *)
Lemma tiling_pages (L : list block) :
  NoDup L → tiling T M (λ x, x ∈ L) → sum_list_with (λ x, 2 ^ x.1) L = T.
Proof.
  intros Hn [Hv Hc Hu].
  assert (L ≫= block_pages ≡ₚ seq 0 T) as Hperm.
  { apply NoDup_Permutation; [|apply NoDup_seq|].
    - apply NoDup_bind; [|intros; apply NoDup_seq|done].
      intros x y p Hx Hy Hp Hp'. eapply Hu; [done|done| |]; by apply block_pages_covers.
    - intros p. rewrite elem_of_seq, list_elem_of_bind. split.
      + intros (x & Hp%block_pages_covers & Hx). split; [lia|].
        apply Nat.lt_le_trans with T; [|lia]. eapply valid_page; [by apply Hv|done].
      + intros [_ Hp]. destruct (Hc p) as (x & Hx & Hxp); [lia|].
        exists x. by rewrite block_pages_covers. }
  apply Permutation_length in Hperm. rewrite length_bind, length_seq in Hperm.
  rewrite <- Hperm. apply sum_ext. intros x. unfold compose, block_pages. by rewrite length_seq.
Qed.

Definition all_blocks : list block := seq 0 (M + 1) ≫= λ o, pair o <$> seq 0 (blocks o).

Lemma all_blocks_spec x : x ∈ all_blocks ↔ valid x.
Proof.
  unfold all_blocks, valid. rewrite list_elem_of_bind. setoid_rewrite list_elem_of_fmap.
  setoid_rewrite elem_of_seq. destruct x as [o b]. cbn [fst snd]. split.
  - intros (o' & (b' & [= -> ->] & Hb) & Ho). lia.
  - intros [Ho Hb]. exists o. split; [exists b; split; [done|lia]|lia].
Qed.

Lemma all_blocks_nodup : NoDup all_blocks.
Proof.
  apply NoDup_bind; [| |apply NoDup_seq].
  - intros o1 o2 y _ _ (b1 & -> & _)%list_elem_of_fmap (b2 & [= ->] & _)%list_elem_of_fmap. done.
  - intros o _. apply NoDup_fmap_2; [by intros ?? [=]|apply NoDup_seq].
Qed.

Definition free_blocks (m : BuddyAllocator) : list block := filter (λ x, free m x) all_blocks.

Lemma foldl_sum {A} (f : nat → A → nat) (g : A → nat) l c :
  (∀ c x, f c x = c + g x) → foldl f c l = c + sum_list_with g l.
Proof. intros Hf. revert c. induction l as [|x l IH]; intros c; cbn; [lia|]. rewrite IH, Hf. lia. Qed.

Lemma sum_filter {A} (P : A → Prop) `{∀ x, Decision (P x)} (g : A → nat) l :
  sum_list_with g (filter P l) = sum_list_with (λ x, if decide (P x) then g x else 0) l.
Proof. induction l as [|x l IH]; [done|]. rewrite filter_cons. case_decide; cbn; rewrite IH; case_decide; done. Qed.

Lemma sum_bind {A B} (g : B → nat) (f : A → list B) l :
  sum_list_with g (l ≫= f) = sum_list_with (λ x, sum_list_with g (f x)) l.
Proof. induction l as [|x l IH]; [done|]. by rewrite bind_cons, sum_list_with_app, IH. Qed.

Lemma sum_fmap {A B} (g : B → nat) (f : A → B) l :
  sum_list_with g (f <$> l) = sum_list_with (λ x, g (f x)) l.
Proof. induction l as [|x l IH]; [done|]. cbn. by rewrite IH. Qed.

(** [free_page_count] adds up the free blocks. *)
Lemma free_page_count_sum m :
  free_page_count T m = sum_list_with (λ x, 2 ^ x.1) (free_blocks m).
Proof.
  unfold free_page_count, free_blocks, all_blocks. rewrite sum_filter, sum_bind.
  rewrite (foldl_sum _ (λ o, sum_list_with (λ b, if is_free o b m then 2 ^ o else 0) (seq 0 (blocks o)))).
  - apply sum_ext. intros o. rewrite sum_fmap. apply sum_ext. intros b. cbn [fst snd].
    destruct (is_free o b m); [by rewrite decide_True|by rewrite decide_False].
  - intros c o. apply foldl_sum. intros c' b. rewrite Nat.shiftl_1_l. by destruct (is_free o b m).
Qed.

(** Free and allocated pages add up to all pages. *)
Lemma free_page_count_spec m A :
  buddy_wf m A → free_page_count T m + sum_list_with (λ x, 2 ^ x.1) A = T.
Proof.
  intros [Hly Ht Hd Hn]. rewrite free_page_count_sum, <- sum_list_with_app. apply tiling_pages.
  - apply NoDup_app. split_and!; [by apply NoDup_filter, all_blocks_nodup| |done].
    intros x [Hf Hx%all_blocks_spec]%list_elem_of_filter. by apply Hd.
  - eapply tiling_ext; [|exact Ht]. intros x. cbn beta. unfold free_blocks.
    rewrite elem_of_app, list_elem_of_filter, all_blocks_spec. tauto.
Qed.

(* ------------------------------------------------------------------ *)
(** ** Histories of calls *)

(** [BFree i] releases the [i]-th outstanding block; [BRelease a o] is any call
    of [free_pages]. *)
Inductive BuddyOp : Set := BAlloc (order : nat) | BFree (index : nat) | BRelease (addr : Z) (order : nat).

Definition forget (x : Z * nat) (live : list (Z * nat)) : list (Z * nat) :=
  match list_find (x =.) live with Some (i, _) => delete i live | None => live end.

(** The allocator and the outstanding allocations, each an address and an
    order. *)
Definition buddy_exec (op : BuddyOp) (s : BuddyAllocator * list (Z * nat))
    : RvmResult unit * (BuddyAllocator * list (Z * nat)) :=
  let '(m, live) := s in
  match op with
  | BAlloc o =>
      match alloc_pages T o m with
      | (Ok a, m) => (Ok tt, (m, live ++ [(a, o)]))
      | (Err e, m) => (Err e, (m, live))
      end
  | BFree i =>
      match live !! i with
      | Some (a, o) => let '(r, m) := free_pages T a o m in (r, (m, delete i live))
      | None => (Ok tt, (m, live))
      end
  | BRelease a o =>
      match free_pages T a o m with
      | (Ok _, m) => (Ok tt, (m, forget (a, o) live))
      | (Err e, m) => (Err e, (m, live))
      end
  end.

Fixpoint buddy_run (ops : list BuddyOp) (s : BuddyAllocator * list (Z * nat))
    : list (RvmResult unit) * (BuddyAllocator * list (Z * nat)) :=
  match ops with
  | [] => ([], s)
  | op :: ops =>
      let '(r, s) := buddy_exec op s in let '(rs, s) := buddy_run ops s in (r :: rs, s)
  end.

Definition live_of (base : Z) (x : block) : Z * nat := (block_addr base (Nat.shiftl x.2 x.1), x.1).

Definition buddy_state (base : Z) (s : BuddyAllocator * list (Z * nat)) : Prop :=
  ∃ A, buddy_inv s.1 A ∧ ba_base s.1 = base ∧ s.2 = live_of base <$> A.

(** The ranges of two allocations do not overlap. *)
Definition apart (x y : Z * nat) : Prop :=
  (x.1 + 2 ^ Z.of_nat x.2 * BUDDY_PAGE_SIZE ≤ y.1 ∨ y.1 + 2 ^ Z.of_nat y.2 * BUDDY_PAGE_SIZE ≤ x.1)%Z.

(** The documented contract of [free_pages]: the range named is an outstanding
    block under the order it was allocated with, or meets no outstanding block
    (and is then to be refused). *)
Definition release_contract (op : BuddyOp) (live : list (Z * nat)) : Prop :=
  match op with
  | BRelease a o => Forall (λ x, x = (a, o) ∨ apart x (a, o)) live
  | _ => True
  end.

Fixpoint buddy_contract (ops : list BuddyOp) (s : BuddyAllocator * list (Z * nat)) : Prop :=
  match ops with
  | [] => True
  | op :: ops => release_contract op s.2 ∧ buddy_contract ops (buddy_exec op s).2
  end.

#[export] Instance release_contract_dec op live : Decision (release_contract op live).
Proof. destruct op; cbn; unfold apart; apply _. Defined.
#[export] Instance buddy_contract_dec ops s : Decision (buddy_contract ops s).
Proof. revert s. induction ops as [|op ops IH]; intros s; cbn; apply _. Defined.

(** Is [addr] the start of a block of this order in the managed range? *)
Definition block_start (base addr : Z) (o : nat) : Prop :=
  (0 ≤ addr - base < Z.of_nat T * BUDDY_PAGE_SIZE)%Z ∧ (2 ^ Z.of_nat o * BUDDY_PAGE_SIZE | addr - base)%Z.

Lemma block_start_dec base addr o : block_start base addr o ∨ ¬ block_start base addr o.
Proof.
  unfold block_start. destruct (Znumtheory.Zdivide_dec (2 ^ Z.of_nat o * BUDDY_PAGE_SIZE) (addr - base)); [|tauto].
  destruct (decide (0 ≤ addr - base < Z.of_nat T * BUDDY_PAGE_SIZE)%Z); tauto.
Qed.

(** What a call is to answer: an allocation fails for want of memory only, the
    release of an outstanding block succeeds, and any other release is refused
    with the documented error and changes nothing. *)
Definition buddy_answer (base : Z) (op : BuddyOp) (s : BuddyAllocator * list (Z * nat))
    (r : RvmResult unit) (s' : BuddyAllocator * list (Z * nat)) : Prop :=
  match op with
  | BAlloc _ => r = Ok tt ∨ r = Err OutOfMemory ∧ s' = s
  | BFree _ => r = Ok tt
  | BRelease a o =>
      ((a, o) ∈ s.2 → r = Ok tt) ∧
      ((a, o) ∉ s.2 → s' = s ∧
         (M < o → r = Err InvalidTierTransition) ∧
         (o ≤ M → ¬ block_start base a o → r = Err AlignmentError) ∧
         (o ≤ M → block_start base a o → r = Err InternalError))
  end.

Fixpoint buddy_answers (base : Z) (ops : list BuddyOp) (s : BuddyAllocator * list (Z * nat)) : Prop :=
  match ops with
  | [] => True
  | op :: ops => buddy_answer base op s (buddy_exec op s).1 (buddy_exec op s).2 ∧ buddy_answers base ops (buddy_exec op s).2
  end.

(** Two blocks overlap in addresses exactly when they share a page. *)
Lemma live_meet base x y : in_space base → valid x → valid y →
  ((live_of base x).1 < (live_of base y).1 + 2 ^ Z.of_nat y.1 * BUDDY_PAGE_SIZE ∧
   (live_of base y).1 < (live_of base x).1 + 2 ^ Z.of_nat x.1 * BUDDY_PAGE_SIZE)%Z ↔
  ∃ p, covers x p ∧ covers y p.
Proof.
  intros Hsp Hx Hy. destruct x as [o1 b1], y as [o2 b2]. unfold live_of. cbn [fst snd].
  rewrite !block_addr_eq by done. change 2%Z with (Z.of_nat 2). rewrite <- !Nat2Z.inj_pow.
  setoid_rewrite covers_bounds. cbn [fst snd].
  pose proof (Nat.pow_nonzero 2 o1 ltac:(lia)) as H1. pose proof (Nat.pow_nonzero 2 o2 ltac:(lia)) as H2.
  rewrite !Nat.mul_add_distr_r, !Nat.mul_1_l. revert H1 H2. unfold BUDDY_PAGE_SIZE.
  generalize (b1 * 2 ^ o1) as q1. generalize (b2 * 2 ^ o2) as q2.
  generalize (2 ^ o1) as k1. generalize (2 ^ o2) as k2. intros k2 k1 q2 q1 H1 H2. split.
  - intros [? ?]. exists (Nat.max q1 q2). lia.
  - intros (p & ? & ?). lia.
Qed.

(** The arguments [free_pages] refuses before it looks at the bitmap. *)
Lemma free_pages_order addr o m : M < o → free_pages T addr o m = (Err InvalidTierTransition, m).
Proof. intros Ho. unfold free_pages. by rewrite (proj2 (Nat.ltb_lt _ _)). Qed.

Lemma free_pages_misplaced addr o m : o ≤ M → ¬ block_start (ba_base m) addr o →
  free_pages T addr o m = (Err AlignmentError, m).
Proof.
  intros Ho Hbad. unfold free_pages. rewrite (proj2 (Nat.ltb_ge _ _)) by done.
  destruct (addr <? ba_base m)%Z eqn:E1; [done|]. cbv zeta. split_bool.
  destruct ((addr - ba_base m) mod BUDDY_PAGE_SIZE =? 0)%Z eqn:E2; cbn [negb]; [|done]. split_bool.
  set (p := Z.to_nat ((addr - ba_base m) / BUDDY_PAGE_SIZE)).
  assert (addr - ba_base m = Z.of_nat p * BUDDY_PAGE_SIZE)%Z as Hp.
  { unfold p. unfold BUDDY_PAGE_SIZE in *.
    pose proof (Z.div_mod (addr - ba_base m) 4096 ltac:(lia)).
    pose proof (Z.div_pos (addr - ba_base m) 4096). rewrite Z2Nat.id by lia. lia. }
  destruct (T <=? p) eqn:E3; [done|]. split_bool.
  rewrite Nat.shiftr_div_pow2, Nat.shiftl_mul_pow2.
  destruct (p / 2 ^ o * 2 ^ o =? p) eqn:E4; cbn [negb]; [|done]. split_bool. destruct Hbad.
  unfold block_start. rewrite Hp. unfold BUDDY_PAGE_SIZE. split; [lia|].
  exists (Z.of_nat (p / 2 ^ o)). rewrite <- E4 at 1.
  rewrite Nat2Z.inj_mul, Nat2Z.inj_pow. change (Z.of_nat 2) with 2%Z. ring.
Qed.

Lemma block_start_block base addr o : in_space base → o ≤ M → block_start base addr o →
  ∃ b, valid (o, b) ∧ addr = block_addr base (Nat.shiftl b o).
Proof.
  intros Hsp Ho [Hr [q Hq]]. unfold BUDDY_PAGE_SIZE in *.
  pose proof (Nat.pow_nonzero 2 o ltac:(lia)) as Hk. pose proof (blocks_pages o Ho) as HB.
  change 2%Z with (Z.of_nat 2) in Hq. rewrite <- Nat2Z.inj_pow in Hq.
  assert (valid (o, Z.to_nat q)) as Hv.
  { split; [done|]. cbn [fst snd]. revert HB Hk Hq. generalize (2 ^ o) as k. generalize (blocks o) as n.
    intros n k HB Hk Hq. rewrite Hq, <- HB, Nat2Z.inj_mul in Hr. nia. }
  exists (Z.to_nat q). split; [done|]. rewrite block_addr_eq by done. unfold BUDDY_PAGE_SIZE.
  rewrite Nat2Z.inj_mul. assert (0 ≤ q)%Z by nia. rewrite Z2Nat.id by done. lia.
Qed.

(** A call of [free_pages] within its contract. *)
Lemma release_state base a o m A :
  in_space base → buddy_inv m A → ba_base m = base → release_contract (BRelease a o) (live_of base <$> A) →
  buddy_state base (buddy_exec (BRelease a o) (m, live_of base <$> A)).2 ∧
  buddy_answer base (BRelease a o) (m, live_of base <$> A) (buddy_exec (BRelease a o) (m, live_of base <$> A)).1
    (buddy_exec (BRelease a o) (m, live_of base <$> A)).2.
Proof.
  intros Hsp Hinv Hb Hc. cbn [buddy_exec buddy_answer snd].
  destruct (decide ((a, o) ∈ live_of base <$> A)) as [Hin|Hout].
  - unfold forget. destruct (list_find _ _) as [[i x]|] eqn:E.
    2: { apply list_find_None in E. rewrite Forall_forall in E. by destruct (E _ Hin). }
    apply list_find_Some in E as (Hi & <- & _). rewrite list_lookup_fmap in Hi.
    apply fmap_Some in Hi as ([o' b] & Hi & [= -> ->]).
    assert (buddy_inv m ((o', b) :: delete i A)) as Hinv'.
    { eapply buddy_inv_perm; [|exact Hinv]. by apply delete_Permutation. }
    pose proof (free_pages_allocated m (delete i A) o' b) as Hf. rewrite Hb in Hf.
    destruct (free_pages T _ o' m) as [r m']. destruct Hf as (-> & Hinv'' & Hb'); [done|done|].
    cbn [fst snd]. split; [|by split]. exists (delete i A). cbn [fst snd]. by rewrite list_fmap_delete.
  - destruct (decide (M < o)) as [Ho|Ho].
    { rewrite free_pages_order by done. cbn [fst snd]. split; [by exists A|]. repeat split; [done|lia|lia]. }
    destruct (block_start_dec base a o) as [Hbs|Hbs].
    2: { rewrite free_pages_misplaced by (lia || by rewrite Hb). cbn [fst snd].
         split; [by exists A|]. repeat split; [done|lia|done]. }
    assert (free_pages T a o m = (Err InternalError, m)) as ->.
    { destruct (block_start_block base a o) as (b & Hv & ->); [done|lia|done|].
      rewrite <- Hb in *. apply (free_pages_double m A); [done..|]. intros p x Hp Hx Hxp.
      assert (valid x) as Hvx by (eapply wf_valid; [apply Hinv|done]).
      destruct (proj2 (live_meet (ba_base m) x (o, b) Hsp Hvx Hv)) as [H1 H2]; [by exists p|].
      cbn [release_contract] in Hc. rewrite Forall_forall in Hc.
      destruct (Hc (live_of (ba_base m) x)) as [E|[?|?]]; [apply list_elem_of_fmap; by exists x| | |].
      - apply Hout. rewrite <- E. apply list_elem_of_fmap. by exists x.
      - cbn [fst snd live_of] in *. lia.
      - cbn [fst snd live_of] in *. lia. }
    cbn [fst snd]. split; [by exists A|]. repeat split; [done|lia|done].
Qed.

Lemma buddy_exec_state base op s :
  in_space base → buddy_state base s → release_contract op s.2 →
  buddy_state base (buddy_exec op s).2 ∧ buddy_answer base op s (buddy_exec op s).1 (buddy_exec op s).2.
Proof.
  intros Hsp (A & Hinv & Hb & Hl) Hc. destruct s as [m live]. cbn [fst snd] in *. subst live.
  destruct op as [o|i|a o]; [| |by apply release_state]; cbn [buddy_exec buddy_answer]; clear Hc.
  - pose proof (alloc_pages_spec o m A Hinv) as Ha.
    destruct (alloc_pages T o m) as [[a|e] m'].
    + destruct Ha as (b & -> & Hinv' & Hb'). split; [|by left].
      exists (A ++ [(o, b)]). cbn [fst snd]. split_and!.
      * eapply buddy_inv_perm; [|exact Hinv']. apply Permutation_cons_append.
      * by rewrite Hb'.
      * rewrite fmap_app. unfold live_of at 3. cbn. by rewrite Hb.
    + destruct Ha as (-> & -> & _). split; [|by right]. by exists A.
  - rewrite list_lookup_fmap. destruct (A !! i) as [[o b]|] eqn:Hi; cbn [fmap option_fmap option_map];
      [|split; [by exists A|done]].
    unfold live_of at 1 3. cbn [fst snd].
    assert (buddy_inv m ((o, b) :: delete i A)) as Hinv'.
    { eapply buddy_inv_perm; [|exact Hinv]. by apply delete_Permutation. }
    pose proof (free_pages_allocated m (delete i A) o b) as Hf. rewrite Hb in Hf.
    destruct (free_pages T _ o m) as [r m']. destruct Hf as (-> & Hinv'' & Hb'); [done|done|].
    split; [|done]. exists (delete i A). cbn [fst snd]. rewrite list_fmap_delete. done.
Qed.

Lemma buddy_run_state base ops s :
  in_space base → buddy_state base s → buddy_contract ops s →
  buddy_state base (buddy_run ops s).2 ∧ buddy_answers base ops s.
Proof.
  intros Hsp. revert s. induction ops as [|op ops IH]; intros s Hs Hc; cbn [buddy_run buddy_answers buddy_contract] in *; [by split|].
  destruct Hc as [Hc Hcs]. destruct (buddy_exec_state base op s Hsp Hs Hc) as [Hs1 Hr].
  destruct (buddy_exec op s) as [r s1]. cbn [fst snd] in *. destruct (IH s1 Hs1 Hcs) as [Hs2 Hr2].
  destruct (buddy_run ops s1) as [rs s2]. done.
Qed.

(** Two blocks of a state do not overlap, in pages and so in addresses. *)
Lemma live_disjoint m A i j x y :
  buddy_wf m A → A !! i = Some x → A !! j = Some y → i ≠ j →
  (x.2 + 1) * 2 ^ x.1 ≤ y.2 * 2 ^ y.1 ∨ (y.2 + 1) * 2 ^ y.1 ≤ x.2 * 2 ^ x.1.
Proof.
  intros Hwf Hi Hj Hij.
  assert (∀ p, covers x p → covers y p → False) as Hno.
  { intros p Hx Hy. assert (x = y) as ->.
    { apply (tl_unique _ _ _ (bw_tiling _ _ Hwf) _ _ p); [right|right|done|done];
        by eapply list_elem_of_lookup_2. }
    apply Hij. eapply NoDup_lookup; [apply Hwf|done|done]. }
  pose proof (Nat.pow_nonzero 2 x.1 ltac:(lia)). pose proof (Nat.pow_nonzero 2 y.1 ltac:(lia)).
  destruct (decide ((x.2 + 1) * 2 ^ x.1 ≤ y.2 * 2 ^ y.1)) as [|H1]; [by left|].
  destruct (decide ((y.2 + 1) * 2 ^ y.1 ≤ x.2 * 2 ^ x.1)) as [|H2]; [by right|].
  exfalso. apply (Hno (Nat.max (x.2 * 2 ^ x.1) (y.2 * 2 ^ y.1))); apply covers_bounds; nia.
Qed.

(** A history on a fresh allocator. *)
Lemma history_state W base m0 ops :
  in_space base → buddy_new T W base = Ok m0 → buddy_contract ops (m0, []) →
  buddy_state base (buddy_run ops (m0, [])).2 ∧ buddy_answers base ops (m0, []).
Proof.
  intros Hsp Hnew Hc. pose proof (buddy_new_inv W base) as Hm0. rewrite Hnew in Hm0.
  destruct Hm0 as [Hinv0 Hb0]. apply buddy_run_state; [done| |done]. by exists [].
Qed.

(* ------------------------------------------------------------------ *)
(** ** What the allocator promises *)

(** C18: No page is handed out twice and none is lost.  Take any history of calls
    on a fresh allocator in which [free_pages] is never asked for a range that
    meets an outstanding block without being that block under the order it was
    allocated with: its documented contract, which leaves room for calls that are
    to be refused, double frees among them.  Then the outstanding blocks lie
    inside the managed range, aligned to their size, and do not overlap; the
    free-page count and the outstanding pages add up to the managed pages; and
    every call answered as it should: an allocation fails with [OutOfMemory]
    only, the release of an outstanding block succeeds, and any other release, of
    a block released before in particular, is refused with its error and changes
    nothing. *)
Theorem buddy_history_safe W base m0 ops :
  in_space base → buddy_new T W base = Ok m0 → buddy_contract ops (m0, []) →
  let '(m, live) := (buddy_run ops (m0, [])).2 in
  (∀ a o, (a, o) ∈ live →
     (base ≤ a ∧ a + 2 ^ Z.of_nat o * BUDDY_PAGE_SIZE ≤ base + Z.of_nat T * BUDDY_PAGE_SIZE ∧
      (2 ^ Z.of_nat o * BUDDY_PAGE_SIZE | a - base))%Z) ∧
  (∀ i j x y, i ≠ j → live !! i = Some x → live !! j = Some y → apart x y) ∧
  free_page_count T m + sum_list_with (λ x, 2 ^ x.2) live = T ∧
  buddy_answers base ops (m0, []).
Proof.
  intros Hsp Hnew Hc. destruct (history_state W base m0 ops Hsp Hnew Hc) as [(A & Hinv & Hb & Hl) Hrs].
  destruct (buddy_run ops (m0, [])) as [rs [m live]].
  cbn [fst snd] in *. subst live. pose proof (bi_wf m A Hinv) as Hwf.
  assert (∀ o, 2 ^ Z.of_nat o = Z.of_nat (2 ^ o))%Z as Hpow by (intros; by rewrite Nat2Z.inj_pow).
  assert (∀ x, x ∈ A → valid x ∧ (live_of base x).1 = (base + Z.of_nat (x.2 * 2 ^ x.1) * BUDDY_PAGE_SIZE)%Z) as Haddr.
  { intros [o b] Hx. assert (valid (o, b)) as Hv by by eapply wf_valid.
    split; [done|]. by apply block_addr_eq. }
  split_and!; [| | |done].
  - intros a o ([o' b] & [= -> ->] & Hx)%list_elem_of_fmap. destruct (Haddr _ Hx) as [Hv Ha].
    cbn [fst snd live_of] in *. rewrite Ha, Hpow. destruct (block_page_lt _ Hv) as [_ Hle]. cbn [fst snd] in Hle.
    unfold BUDDY_PAGE_SIZE. split_and!; [lia| |].
    + revert Hle. generalize (b * 2 ^ o') as q. generalize (2 ^ o') as k. lia.
    + exists (Z.of_nat b). rewrite Nat2Z.inj_mul. ring.
  - intros i j a a' Hij Hi Hj. rewrite list_lookup_fmap in Hi, Hj.
    apply fmap_Some in Hi as ([ox bx] & Hx & ->), Hj as ([oy by'] & Hy & ->). unfold apart.
    pose proof (live_disjoint m A i j _ _ Hwf Hx Hy Hij) as Hd.
    destruct (Haddr (ox, bx)) as [_ Ha]; [by eapply list_elem_of_lookup_2|].
    destruct (Haddr (oy, by')) as [_ Ha']; [by eapply list_elem_of_lookup_2|].
    cbn [fst snd live_of] in *. rewrite Ha, Ha', !Hpow. unfold BUDDY_PAGE_SIZE. revert Hd.
    rewrite !Nat.mul_add_distr_r, !Nat.mul_1_l.
    generalize (bx * 2 ^ ox) as q. generalize (2 ^ ox) as k. generalize (by' * 2 ^ oy) as q'.
    generalize (2 ^ oy) as k'. lia.
  - rewrite sum_fmap. by apply free_page_count_spec.
Qed.

(** C40: An allocation succeeds exactly when it can: whatever the history of
    calls within the contract of [free_pages],
    [alloc_pages] fails if and only if every aligned range of the size asked for
    meets an outstanding block.  Coalescing therefore leaves no fragmentation
    that a buddy system could avoid. *)
Theorem alloc_pages_complete W base m0 ops o :
  in_space base → buddy_new T W base = Ok m0 → buddy_contract ops (m0, []) →
  let '(_, (m, live)) := buddy_run ops (m0, []) in
  (∃ e m', alloc_pages T o m = (Err e, m')) ↔
  ∀ b, o ≤ M → b < blocks o →
    ∃ a' o', (a', o') ∈ live ∧
      (let a := block_addr base (Nat.shiftl b o) in
       a < a' + 2 ^ Z.of_nat o' * BUDDY_PAGE_SIZE ∧ a' < a + 2 ^ Z.of_nat o * BUDDY_PAGE_SIZE)%Z.
Proof.
  intros Hsp Hnew Hc. destruct (history_state W base m0 ops Hsp Hnew Hc) as [(A & Hinv & Hb & Hl) _].
  destruct (buddy_run ops (m0, [])) as [rs [m live]].
  cbn [fst snd] in *. subst live. pose proof (bi_wf m A Hinv) as Hwf.
  pose proof (λ x y, live_meet base x y Hsp) as Hmeet.
  pose proof (alloc_pages_spec o m A Hinv) as Ha.
  destruct (alloc_pages T o m) as [[a|e] m'] eqn:Ealloc; split.
  - by intros (? & ? & ?).
  - intros Hall. destruct Ha as (b & -> & Hinv' & _).
    assert (valid (o, b)) as Hv by (eapply wf_valid; [apply Hinv'|by left]).
    destruct (Hall b) as (a' & o' & Hin & Hlt); [by destruct Hv..|].
    apply list_elem_of_fmap in Hin as (y & [= -> ->] & Hy).
    assert (valid y) as Hvy by by eapply wf_valid.
    destruct (proj1 (Hmeet (o, b) y Hv Hvy) Hlt) as (p & Hp & Hp').
    assert (y = (o, b)) as ->.
    { apply (tl_unique _ _ _ (bw_tiling _ _ (bi_wf _ _ Hinv')) _ _ p); [by right; right|by right; left|done|done]. }
    pose proof (bw_nodup _ _ (bi_wf _ _ Hinv')) as Hnd. by apply NoDup_cons in Hnd as [? _].
  - intros _ b Ho Hblk. destruct Ha as (_ & _ & Hno).
    assert (valid (o, b)) as Hv by by split.
    destruct (decide (Exists (λ y,
      ((live_of base (o, b)).1 < (live_of base y).1 + 2 ^ Z.of_nat y.1 * BUDDY_PAGE_SIZE)%Z ∧
      ((live_of base y).1 < (live_of base (o, b)).1 + 2 ^ Z.of_nat o * BUDDY_PAGE_SIZE)%Z) A)) as [Hex|Hnex].
    + apply Exists_exists in Hex as (y & Hy & Hlt).
      exists (live_of base y).1, y.1. split; [apply list_elem_of_fmap; by exists y|done].
    + exfalso. destruct (free_range_covered m A o b Hinv Hv) as (x & Hx & Hf & Hox & _).
      * intros p Hp. destruct (tl_cover _ _ _ (bw_tiling _ _ Hwf) p) as (y & [[Hy Hfy]|Hy] & Hyp);
          [by eapply valid_page|by exists y|]. destruct Hnex. apply Exists_exists. exists y.
        split; [done|]. apply (Hmeet (o, b) y Hv); [by eapply wf_valid|by exists p].
      * by apply (Hno x Hx Hox).
  - intros _. by eauto.
Qed.

(** [free_pages] refuses what it documents, without touching the bitmap:
    orders that are too large; addresses outside the managed range or not at a
    multiple of the block size; and, in any reachable state, ranges no page of
    which is outstanding, so a second release of a block is always caught.  On
    an outstanding block it never fails. *)
Theorem free_pages_errors W base m0 ops o addr :
  in_space base → buddy_new T W base = Ok m0 → buddy_contract ops (m0, []) → is_u64 addr →
  let '(_, (m, live)) := buddy_run ops (m0, []) in
  (M < o → free_pages T addr o m = (Err InvalidTierTransition, m)) ∧
  (o ≤ M → ¬ block_start base addr o → free_pages T addr o m = (Err AlignmentError, m)) ∧
  (∀ b, valid (o, b) → addr = block_addr base (Nat.shiftl b o) →
   (∀ p x, covers (o, b) p → live_of base x ∈ live → valid x → ¬ covers x p) →
   free_pages T addr o m = (Err InternalError, m)) ∧
  ((addr, o) ∈ live → (free_pages T addr o m).1 = Ok tt).
Proof.
  intros Hsp Hnew Hc Haddr. destruct (history_state W base m0 ops Hsp Hnew Hc) as [(A & Hinv & Hb & Hl) _].
  destruct (buddy_run ops (m0, [])) as [rs [m live]]. cbn [fst snd] in *. subst live. split_and!.
  - apply free_pages_order.
  - rewrite <- Hb. apply free_pages_misplaced.
  - intros b Hv -> Hno. rewrite <- Hb in *. apply (free_pages_double m A); [done|done|done|].
    intros p x Hp Hx. apply Hno; [done| |by eapply wf_valid; [apply Hinv|]].
    apply list_elem_of_fmap. by exists x.
  - intros ([o' b] & [= -> ->] & Hx)%list_elem_of_fmap. cbn [fst snd].
    apply list_elem_of_lookup in Hx as [i Hi].
    assert (buddy_inv m ((o', b) :: delete i A)) as Hinv'.
    { eapply buddy_inv_perm; [|exact Hinv]. by apply delete_Permutation. }
    pose proof (free_pages_allocated m (delete i A) o' b) as Hf. rewrite Hb in Hf.
    destruct (free_pages T _ o' m) as [r m']. by destruct Hf as (-> & _); [done|done|].
Qed.
End block_proofs.

(** A power of two, as the type's documentation asks, satisfies the divisibility
    the theorems need. *)
Lemma power_of_two_ok t : 0 < 2 ^ t ∧ (2 ^ max_usable_order (2 ^ t) | 2 ^ t).
Proof.
  split; [pose proof (Nat.pow_nonzero 2 t); lia|].
  assert (max_usable_order (2 ^ t) ≤ t) as Hle.
  { unfold max_usable_order. induction MAX_ORDER as [|o IH]; [cbn; lia|]. cbn [usable_order].
    destruct (_ <? _) eqn:E; split_bool; [done|]. rewrite Nat.shiftl_1_l in E.
    apply (Nat.pow_le_mono_r_iff 2); [lia|done]. }
  exists (2 ^ (t - max_usable_order (2 ^ t))). rewrite <- Nat.pow_add_r. f_equal. lia.
Qed.

(** The documented contract of [free_pages] matters: a block released under
    another order than it was allocated with is accepted, and the pages of the
    larger range are free twice over. *)
Example free_wrong_order :
  match buddy_new 16 2 4096%Z with
  | Ok m =>
      let '(a, m) := alloc_pages 16 0 m in
      let '(b, m) := alloc_pages 16 0 m in
      let '(r, m) := free_pages 16 4096%Z 0 m in
      let '(r', m) := free_pages 16 4096%Z 1 m in
      a = Ok 4096%Z ∧ b = Ok 8192%Z ∧ r = Ok tt ∧ r' = Ok tt ∧ free_page_count 16 m = 17
  | Err _ => False
  end.
Proof. vm_compute. split_and!; reflexivity. Qed.

(** *** Sixteen pages at 4096 *)

(** A block is released twice, and once under a misplaced address. *)
Definition sample_buddy_ops : list BuddyOp :=
  [BAlloc 0; BAlloc 2; BAlloc 3; BRelease 4096%Z 0; BRelease 4096%Z 0; BRelease 4097%Z 0; BAlloc 1; BFree 2; BAlloc 3].

Lemma sample_buddy_new : ∃ m0, buddy_new 16 2 4096%Z = Ok m0 ∧ buddy_contract 16 sample_buddy_ops (m0, []).
Proof.
  eexists. split; [reflexivity|]. apply (bool_decide_unpack _). vm_compute. exact I.
Qed.

Lemma sample_in_space : in_space 16 4096%Z.
Proof. split; done. Qed.

Lemma buddy_history_safe_witness :
  ∃ m0, buddy_new 16 2 4096%Z = Ok m0 ∧
  (buddy_run 16 sample_buddy_ops (m0, [])).1 =
    [Ok tt; Ok tt; Ok tt; Ok tt; Err InternalError; Err AlignmentError; Ok tt; Ok tt; Err OutOfMemory] ∧
  (buddy_run 16 sample_buddy_ops (m0, [])).2.2 = [(20480%Z, 2); (36864%Z, 3)] ∧
  let '(m, live) := (buddy_run 16 sample_buddy_ops (m0, [])).2 in
  free_page_count 16 m + sum_list_with (λ x, 2 ^ x.2) live = 16.
Proof.
  destruct sample_buddy_new as (m0 & H0 & Hc). exists m0. split; [done|].
  destruct (power_of_two_ok 4) as [HT Hdiv].
  pose proof (buddy_history_safe 16 HT Hdiv 2 4096%Z m0 sample_buddy_ops sample_in_space H0 Hc) as H.
  split; [injection H0 as <-; vm_compute; reflexivity|]. split; [injection H0 as <-; vm_compute; reflexivity|].
  destruct (buddy_run 16 sample_buddy_ops (m0, [])).2 as [m live]. by destruct H as (_ & _ & H & _).
Defined.

Lemma alloc_pages_complete_witness :
  ∃ m0, buddy_new 16 2 4096%Z = Ok m0 ∧
  let '(_, (m, live)) := buddy_run 16 sample_buddy_ops (m0, []) in
  ∀ b, 3 ≤ max_usable_order 16 → b < Nat.shiftr 16 3 →
    ∃ a' o', (a', o') ∈ live ∧
      (let a := block_addr 4096 (Nat.shiftl b 3) in
       a < a' + 2 ^ Z.of_nat o' * BUDDY_PAGE_SIZE ∧ a' < a + 2 ^ 3 * BUDDY_PAGE_SIZE)%Z.
Proof.
  destruct sample_buddy_new as (m0 & H0 & Hc). exists m0. split; [done|].
  destruct (power_of_two_ok 4) as [HT Hdiv].
  pose proof (alloc_pages_complete 16 HT Hdiv 2 4096%Z m0 sample_buddy_ops 3 sample_in_space H0 Hc) as H.
  assert ((alloc_pages 16 3 (buddy_run 16 sample_buddy_ops (m0, [])).2.1).1 = Err OutOfMemory) as Ha
    by (injection H0 as <-; vm_compute; reflexivity).
  destruct (buddy_run 16 sample_buddy_ops (m0, [])) as [rs [m live]]. cbn [fst snd] in Ha.
  apply H. destruct (alloc_pages 16 3 m) as [r m']. cbn [fst] in Ha. subst r. by exists OutOfMemory, m'.
Defined.

Lemma free_pages_errors_witness :
  ∃ m0, buddy_new 16 2 4096%Z = Ok m0 ∧
  let '(_, (m, _)) := buddy_run 16 sample_buddy_ops (m0, []) in
  free_pages 16 4097%Z 0 m = (Err AlignmentError, m).
Proof.
  destruct sample_buddy_new as (m0 & H0 & Hc). exists m0. split; [done|].
  destruct (power_of_two_ok 4) as [HT Hdiv].
  pose proof (free_pages_errors 16 HT Hdiv 2 4096%Z m0 sample_buddy_ops 0 4097%Z sample_in_space H0 Hc) as H.
  destruct (buddy_run 16 sample_buddy_ops (m0, [])) as [rs [m live]].
  destruct H as (_ & H & _); [done|]. apply H; [lia|]. intros [_ [q Hq]].
  unfold BUDDY_PAGE_SIZE in Hq. cbn in Hq. lia.
Defined.
