(* ===== verification/Security.v ===== *)
(** The security layer: [crates/rvm-security/src] ([budget.rs],
    [validation.rs], [lib.rs], [gate.rs], [attestation.rs]).

    Quotas are counters guarded by [checked_add]; the file proves that no
    history of requests exceeds a limit.  The gate decides a request and writes
    one witness record for it, whatever the decision; the attestation chain
    folds measurements into a root that binds them. *)

From stdpp Require Import base numbers list option sets gmap.
From Stdlib Require Import ZArith Lia.
From S2P Require Import Prelude.
From S2P Require Import Types.
From S2P Require Import WitnessLog.

Local Open Scope rvm_scope.

(* ------------------------------------------------------------------ *)
(** ** Budgets ([budget.rs]) *)

(** [used.checked_add(requested).ok_or(e)?], then the comparison with the
    limit: the new total, or the error. *)
Definition charge {E} (max used requested : Z) (e : E) : result E Z :=
  match checked_add u64_max used requested with
  | None => Err e
  | Some new_total => if max <? new_total then Err e else Ok new_total
  end.

Record DmaBudget : Set := mkDmaBudget {
  max_bytes_per_epoch : Z;
  used_bytes : Z;
}.

Definition dma_new (max : Z) : DmaBudget := mkDmaBudget max 0.

Definition check_dma (requested_bytes : Z) : prog DmaBudget RvmError unit := λ b,
  if requested_bytes =? 0 then (Ok tt, b)
  else match charge (max_bytes_per_epoch b) (used_bytes b) requested_bytes ResourceLimitExceeded with
       | Err e => (Err e, b)
       | Ok new_total => (Ok tt, mkDmaBudget (max_bytes_per_epoch b) new_total)
       end.

Definition dma_remaining (b : DmaBudget) : Z := sat_sub (max_bytes_per_epoch b) (used_bytes b).
Definition dma_reset (b : DmaBudget) : DmaBudget := mkDmaBudget (max_bytes_per_epoch b) 0.
Definition dma_is_exhausted (b : DmaBudget) : bool := max_bytes_per_epoch b <=? used_bytes b.

Record ResourceQuota : Set := mkResourceQuota {
  cpu_time_ns : Z;
  cpu_time_used_ns : Z;
  memory_bytes : Z;
  memory_used_bytes : Z;
  ipc_rate : Z;
  ipc_used : Z;
  rq_dma : DmaBudget;
}.

Definition resource_quota_new (cpu_time memory ipc dma_max : Z) : ResourceQuota :=
  mkResourceQuota cpu_time 0 memory 0 ipc 0 (dma_new dma_max).

Definition check_cpu_time (requested_ns : Z) : prog ResourceQuota RvmError unit := λ q,
  match charge (cpu_time_ns q) (cpu_time_used_ns q) requested_ns ResourceLimitExceeded with
  | Err e => (Err e, q)
  | Ok new_total =>
      (Ok tt, mkResourceQuota (cpu_time_ns q) new_total (memory_bytes q) (memory_used_bytes q)
                (ipc_rate q) (ipc_used q) (rq_dma q))
  end.

Definition rq_set_memory (used : Z) (q : ResourceQuota) : ResourceQuota :=
  mkResourceQuota (cpu_time_ns q) (cpu_time_used_ns q) (memory_bytes q) used
    (ipc_rate q) (ipc_used q) (rq_dma q).

Definition check_memory (requested_bytes : Z) : prog ResourceQuota RvmError unit := λ q,
  match charge (memory_bytes q) (memory_used_bytes q) requested_bytes OutOfMemory with
  | Err e => (Err e, q)
  | Ok new_total => (Ok tt, rq_set_memory new_total q)
  end.

Definition check_ipc : prog ResourceQuota RvmError unit := λ q,
  if ipc_rate q <=? ipc_used q then (Err ResourceLimitExceeded, q)
  else (Ok tt, mkResourceQuota (cpu_time_ns q) (cpu_time_used_ns q) (memory_bytes q)
                 (memory_used_bytes q) (ipc_rate q) (wrap32 (ipc_used q + 1)) (rq_dma q)).

(** [quota.dma.check_dma(..)]: the field is public. *)
Definition quota_check_dma (requested_bytes : Z) : prog ResourceQuota RvmError unit :=
  pzoom rq_dma
    (λ d q, mkResourceQuota (cpu_time_ns q) (cpu_time_used_ns q) (memory_bytes q)
              (memory_used_bytes q) (ipc_rate q) (ipc_used q) d)
    (check_dma requested_bytes).

Definition release_memory (bytes : Z) (q : ResourceQuota) : ResourceQuota :=
  rq_set_memory (sat_sub (memory_used_bytes q) bytes) q.

Definition reset_epoch (q : ResourceQuota) : ResourceQuota :=
  mkResourceQuota (cpu_time_ns q) 0 (memory_bytes q) (memory_used_bytes q)
    (ipc_rate q) 0 (dma_reset (rq_dma q)).

(** *** GPU quotas *)

Record GpuQuota : Set := mkGpuQuota {
  compute_ns_max : Z;
  compute_ns_used : Z;
  gq_memory_max : Z;
  gq_memory_used : Z;
  transfer_bytes_max : Z;
  transfer_bytes_used : Z;
  kernel_launches_max : Z;
  kernel_launches_used : Z;
}.

Definition gpu_quota_new (compute_ns memory transfer_bytes kernel_launches : Z) : GpuQuota :=
  mkGpuQuota compute_ns 0 memory 0 transfer_bytes 0 kernel_launches 0.

(** The four counters replaced, the four limits kept. *)
Definition gq_set (c m t k : Z) (g : GpuQuota) : GpuQuota :=
  mkGpuQuota (compute_ns_max g) c (gq_memory_max g) m (transfer_bytes_max g) t
    (kernel_launches_max g) k.

Definition gq_check_compute (ns : Z) : prog GpuQuota RvmError unit := λ g,
  match charge (compute_ns_max g) (compute_ns_used g) ns ResourceLimitExceeded with
  | Err e => (Err e, g)
  | Ok n => (Ok tt, gq_set n (gq_memory_used g) (transfer_bytes_used g) (kernel_launches_used g) g)
  end.

Definition gq_check_memory (bytes : Z) : prog GpuQuota RvmError unit := λ g,
  match charge (gq_memory_max g) (gq_memory_used g) bytes ResourceLimitExceeded with
  | Err e => (Err e, g)
  | Ok n => (Ok tt, gq_set (compute_ns_used g) n (transfer_bytes_used g) (kernel_launches_used g) g)
  end.

Definition gq_check_transfer (bytes : Z) : prog GpuQuota RvmError unit := λ g,
  if bytes =? 0 then (Ok tt, g)
  else match charge (transfer_bytes_max g) (transfer_bytes_used g) bytes ResourceLimitExceeded with
       | Err e => (Err e, g)
       | Ok n => (Ok tt, gq_set (compute_ns_used g) (gq_memory_used g) n (kernel_launches_used g) g)
       end.

Definition gq_check_launch : prog GpuQuota RvmError unit := λ g,
  if kernel_launches_max g <=? kernel_launches_used g then (Err ResourceLimitExceeded, g)
  else (Ok tt, gq_set (compute_ns_used g) (gq_memory_used g) (transfer_bytes_used g)
                 (wrap32 (kernel_launches_used g + 1)) g).

Definition gq_record_transfer (bytes : Z) : prog GpuQuota RvmError unit := gq_check_transfer bytes.
Definition gq_record_launch : prog GpuQuota RvmError unit := gq_check_launch.

Definition gq_release_memory (bytes : Z) (g : GpuQuota) : GpuQuota :=
  gq_set (compute_ns_used g) (sat_sub (gq_memory_used g) bytes) (transfer_bytes_used g)
    (kernel_launches_used g) g.

Definition gq_reset_epoch (g : GpuQuota) : GpuQuota := gq_set 0 (gq_memory_used g) 0 0 g.

(* ------------------------------------------------------------------ *)
(** ** Validation ([validation.rs]) *)

Definition MAX_PARTITION_ID : Z := 4096.
Definition VALIDATION_PAGE_SIZE : Z := 4096.

Definition validate_partition_id (id : Z) : RvmResult unit :=
  if id =? 0 then Err InvalidPartitionState
  else if MAX_PARTITION_ID <? id then Err PartitionLimitExceeded
  else Ok tt.

Definition validate_region_bounds (addr size : Z) : RvmResult unit :=
  if size =? 0 then Err AlignmentError
  else if negb (addr mod VALIDATION_PAGE_SIZE =? 0) then Err AlignmentError
  else if negb (size mod VALIDATION_PAGE_SIZE =? 0) then Err AlignmentError
  else if is_none (checked_add u64_max addr size) then Err MemoryOverlap
  else Ok tt.

Definition validate_capability_rights `{!Bitflags} (requested held : CapRights) : RvmResult unit :=
  if contains held requested then Ok tt else Err InsufficientCapability.

Definition validate_lease_expiry (lease_expiry_epoch current_epoch : Z) : RvmResult unit :=
  if lease_expiry_epoch <=? current_epoch then Err DeviceLeaseExpired else Ok tt.

(* ------------------------------------------------------------------ *)
(** ** Policy decisions ([lib.rs]) *)

Inductive PolicyDecision : Set := Allow | Deny (e : RvmError).

Record PolicyRequest : Set := mkPolicyRequest {
  pq_token : CapToken;
  pq_required_type : CapType;
  pq_required_rights : CapRights;
  pq_proof_commitment : option WitnessHash;
  pq_current_epoch : option Z;
}.

Definition evaluate `{!Bitflags} (q : PolicyRequest) : PolicyDecision :=
  if is_some_and (λ epoch, negb (tok_epoch (pq_token q) =? epoch)) (pq_current_epoch q)
  then Deny InsufficientCapability
  else if bool_decide (tok_type (pq_token q) ≠ pq_required_type q) then Deny CapabilityTypeMismatch
  else if negb (has_rights (pq_token q) (pq_required_rights q)) then Deny InsufficientCapability
  else if is_some_and witness_hash_is_zero (pq_proof_commitment q) then Deny ProofInvalid
  else Allow.

Definition enforce `{!Bitflags} (q : PolicyRequest) : RvmResult unit :=
  match evaluate q with Allow => Ok tt | Deny e => Err e end.

(* ------------------------------------------------------------------ *)
(** ** The gate ([gate.rs]) *)

Inductive SecurityError : Set :=
| SeCapabilityTypeMismatch
| SeInsufficientRights
| SePolicyViolation
| SeDerivationChainBroken
| SeInternal (e : RvmError).

(** A link is [[prev_hash, record_hash]]; a signature is 8 bytes. *)
Record P3WitnessChain : Set := mkP3WitnessChain {
  p3_links : list (Z * Z);
  p3_signatures : list (list Z);
  p3_link_count : Z;
}.

Definition p3_chain_empty : P3WitnessChain :=
  mkP3WitnessChain (replicate 4 (0, 0)) (replicate 4 (replicate 8 0)) 0.

Record GateRequest : Set := mkGateRequest {
  gr_token : CapToken;
  gr_required_type : CapType;
  gr_required_rights : CapRights;
  gr_proof_commitment : option WitnessHash;
  gr_require_p3 : bool;
  gr_p3_chain_valid : bool;
  gr_p3_witness_data : option P3WitnessChain;
  gr_action : ActionKind;
  gr_target_object_id : Z;
  gr_timestamp_ns : Z;
}.

Record GateResponse : Set := mkGateResponse {
  witness_sequence : Z;
  resp_proof_tier : Z;
}.

(** [chain.links[i]]: the callers stay below four. *)
Definition link_at (c : P3WitnessChain) (i : nat) : Z * Z := default (0, 0) (p3_links c !! i).

(** [chain.link_count.min(4) as usize]. *)
Definition p3_count (c : P3WitnessChain) : nat := Z.to_nat (Z.min (p3_link_count c) 4).

Fixpoint p3_links_loop (c : P3WitnessChain) (i n : nat) : bool :=
  match n with
  | O => true
  | S n =>
      let record_hash := (link_at c i).2 in
      let next_prev_hash := (link_at c (i + 1)).1 in
      if negb (record_hash =? next_prev_hash) then false
      else p3_links_loop c (i + 1) n
  end.

Definition verify_p3_chain (c : P3WitnessChain) : bool :=
  if p3_link_count c =? 0 then false
  else p3_links_loop c 0 (p3_count c - 1).

(** The record of a decision. *)
Definition gate_record (action : ActionKind) (tier : Z) (r : GateRequest) : WitnessRecord :=
  mkWitnessRecord 0 (gr_timestamp_ns r) (action_code action) tier 0 0 0
    (gr_target_object_id r) (truncated_hash (gr_token r)) (replicate 8 0) 0 0
    (replicate 8 0) (replicate 4 0).

Section gate.
Context `{!Bitflags, !ChainHasher}.

Definition emit_allowed (r : GateRequest) (tier : Z) (l : WitnessLog) : Z * WitnessLog :=
  log_append (gate_record (gr_action r) tier r) l.
Definition emit_rejection (r : GateRequest) (l : WitnessLog) : WitnessLog :=
  (log_append (gate_record AkProofRejected 0 r) l).2.

Definition check_and_execute (r : GateRequest) : prog WitnessLog SecurityError GateResponse := λ l,
  if bool_decide (tok_type (gr_token r) ≠ gr_required_type r)
  then (Err SeCapabilityTypeMismatch, emit_rejection r l)
  else if negb (has_rights (gr_token r) (gr_required_rights r))
  then (Err SeInsufficientRights, emit_rejection r l)
  else if is_some_and witness_hash_is_zero (gr_proof_commitment r)
  then (Err SePolicyViolation, emit_rejection r l)
  else
    let proof_tier := if is_some (gr_proof_commitment r) then 2 else 1 in
    let chain_ok := is_some_and verify_p3_chain (gr_p3_witness_data r) in
    if gr_require_p3 r && negb chain_ok
    then (Err SeDerivationChainBroken, emit_rejection r l)
    else
      let proof_tier := if gr_require_p3 r then 3 else proof_tier in
      let '(seq, l) := emit_allowed r proof_tier l in
      (Ok (mkGateResponse seq proof_tier), l).

Context {Sg : Type} `{!WitnessSigner Sg}.

(** The record rebuilt from a link, for the signer. *)
Definition link_record (c : P3WitnessChain) (i : nat) (sig : list Z) : WitnessRecord :=
  mkWitnessRecord (Z.of_nat i) 0 0 0 0 0 0 0 0 (replicate 8 0)
    (wrap32 (link_at c i).1) (wrap32 (link_at c i).2) sig (replicate 4 0).

Definition signature_at (c : P3WitnessChain) (i : nat) : list Z :=
  default (replicate 8 0) (p3_signatures c !! i).

Fixpoint signatures_loop (signer : Sg) (c : P3WitnessChain) (i n : nat) : bool :=
  match n with
  | O => true
  | S n =>
      let sig := signature_at c i in
      if bool_decide (sig = replicate 8 0) then signatures_loop signer c (i + 1) n
      else if negb (verify signer (link_record c i sig)) then false
      else signatures_loop signer c (i + 1) n
  end.

Definition verify_chain_signatures (signer : Sg) (c : P3WitnessChain) : bool :=
  signatures_loop signer c 0 (p3_count c).

Definition emit_allowed_signed (signer : Sg) (r : GateRequest) (tier : Z) (l : WitnessLog)
    : Z * WitnessLog :=
  signed_append (gate_record (gr_action r) tier r) signer l.
Definition emit_rejection_signed (signer : Sg) (r : GateRequest) (l : WitnessLog) : WitnessLog :=
  (signed_append (gate_record AkProofRejected 0 r) signer l).2.

Definition signed_check_and_execute (signer : Sg) (r : GateRequest)
    : prog WitnessLog SecurityError GateResponse := λ l,
  if bool_decide (tok_type (gr_token r) ≠ gr_required_type r)
  then (Err SeCapabilityTypeMismatch, emit_rejection_signed signer r l)
  else if negb (has_rights (gr_token r) (gr_required_rights r))
  then (Err SeInsufficientRights, emit_rejection_signed signer r l)
  else if is_some_and witness_hash_is_zero (gr_proof_commitment r)
  then (Err SePolicyViolation, emit_rejection_signed signer r l)
  else
    let proof_tier := if is_some (gr_proof_commitment r) then 2 else 1 in
    let chain_ok :=
      is_some_and (λ c, verify_p3_chain c && verify_chain_signatures signer c)
        (gr_p3_witness_data r) in
    if gr_require_p3 r && negb chain_ok
    then (Err SeDerivationChainBroken, emit_rejection_signed signer r l)
    else
      let proof_tier := if gr_require_p3 r then 3 else proof_tier in
      let '(seq, l) := emit_allowed_signed signer r proof_tier l in
      (Ok (mkGateResponse seq proof_tier), l).
End gate.

(* ------------------------------------------------------------------ *)
(** ** Attestation ([attestation.rs]) *)

Definition MAX_ATTESTATION_ENTRIES : nat := 64.

Record AttestationEntry : Set := mkAttestationEntry {
  ae_sequence : Z;
  ae_hash : list Z;
  ae_source_tag : Z;
}.

Definition attestation_entry_zeroed : AttestationEntry := mkAttestationEntry 0 (replicate 32 0) 0.

Record AttestationChain : Set := mkAttestationChain {
  ac_entries : list AttestationEntry;
  ac_count : nat;
  ac_chain_hash : list Z;
}.

Record AttestationReport : Set := mkAttestationReport {
  entry_count : Z;
  chain_root : list Z;
  report_boot_count : Z;
  report_runtime_count : Z;
}.

Definition attestation_new : AttestationChain :=
  mkAttestationChain (replicate MAX_ATTESTATION_ENTRIES attestation_entry_zeroed) 0
    (replicate 32 0).

(** The two builds of [extend_chain_hash]. *)
Class ExtendChainHash : Type := extend_chain_hash : list Z → list Z → list Z.

Definition extend_chain_hash_sha256 `{!Sha256} (chain hash : list Z) : list Z :=
  sha256 (chain ++ hash).
Definition extend_chain_hash_fnv (chain hash : list Z) : list Z :=
  let input := chain ++ hash in
  le_bytes 8 (fnv1a_64 input) ++ le_bytes 8 (fnv1a_64 (drop 8 input)) ++
  le_bytes 8 (fnv1a_64 (drop 16 input)) ++ le_bytes 8 (fnv1a_64 (drop 24 input)).

Section attestation.
Context `{!ExtendChainHash}.

Definition add_entry (hash : list Z) (source_tag : Z) (c : AttestationChain)
    : bool * AttestationChain :=
  if (MAX_ATTESTATION_ENTRIES <=? ac_count c)%nat then (false, c)
  else
    let seq := wrap32 (Z.of_nat (ac_count c)) in
    (true, mkAttestationChain
             (<[ac_count c := mkAttestationEntry seq hash source_tag]> (ac_entries c))
             (ac_count c + 1) (extend_chain_hash (ac_chain_hash c) hash)).

Definition add_boot_measurement (hash : list Z) (c : AttestationChain) : bool * AttestationChain :=
  add_entry hash 0 c.
Definition add_runtime_witness (hash : list Z) (c : AttestationChain) : bool * AttestationChain :=
  add_entry hash 1 c.

(** The counting loops over [entries[0..count]]. *)
Definition boot_measurement_count (c : AttestationChain) : Z :=
  Z.of_nat (count_by (λ e, ae_source_tag e =? 0) (take (ac_count c) (ac_entries c))).
Definition runtime_witness_count (c : AttestationChain) : Z :=
  Z.of_nat (count_by (λ e, ae_source_tag e =? 1) (take (ac_count c) (ac_entries c))).

Definition generate_attestation_report (c : AttestationChain) : AttestationReport :=
  mkAttestationReport (wrap32 (Z.of_nat (ac_count c))) (ac_chain_hash c)
    (boot_measurement_count c) (runtime_witness_count c).
End attestation.

(** [subtle::ConstantTimeEq::ct_eq] on byte arrays, outside the repository. *)
Class ConstantTimeEq : Type := ct_eq : list Z → list Z → bool.
Class ConstantTimeEqLaws `{!ConstantTimeEq} : Prop :=
  ct_eq_spec a b : ct_eq a b = true ↔ a = b.

Definition verify_attestation `{!ConstantTimeEq} (report : AttestationReport) (expected_root : list Z)
    : bool :=
  ct_eq (chain_root report) expected_root.

(* ------------------------------------------------------------------ *)
(** ** Quotas never exceed their limits *)

(** Within the limits the overflow check and the limit check are one
    comparison of integers. *)
Lemma charge_spec {E} max used requested (e : E) :
  0 ≤ used → 0 ≤ requested → max ≤ u64_max →
  charge max used requested e =
    if used + requested <=? max then Ok (used + requested) else Err e.
Proof.
  intros. unfold charge, checked_add.
  destruct (used + requested <=? u64_max) eqn:E1, (used + requested <=? max) eqn:E2;
    split_bool; try lia; [|by destruct (max <? _) eqn:E3; split_bool; try lia|done].
  destruct (max <? used + requested) eqn:E3; split_bool; [lia|done].
Qed.

(** Requests against a quota, and what they do. *)
Inductive QuotaOp : Set :=
| OpCpu (ns : Z) | OpMemory (bytes : Z) | OpIpc | OpDma (bytes : Z)
| OpRelease (bytes : Z) | OpReset.

Definition quota_apply (op : QuotaOp) : prog ResourceQuota RvmError unit :=
  match op with
  | OpCpu ns => check_cpu_time ns
  | OpMemory b => check_memory b
  | OpIpc => check_ipc
  | OpDma b => quota_check_dma b
  | OpRelease b => pmodify (release_memory b)
  | OpReset => pmodify reset_epoch
  end.

Fixpoint quota_run (ops : list QuotaOp) (q : ResourceQuota)
    : list (RvmResult unit) * ResourceQuota :=
  match ops with
  | [] => ([], q)
  | op :: ops =>
      let '(r, q) := quota_apply op q in
      let '(rs, q) := quota_run ops q in
      (r :: rs, q)
  end.

(** The specification: a ledger of unbounded integers. *)
Record Ledger : Set := mkLedger { lg_cpu : Z; lg_memory : Z; lg_ipc : Z; lg_dma : Z }.

Definition spend (limit used amount : Z) : option Z :=
  if used + amount <=? limit then Some (used + amount) else None.

Definition ledger_step (limit : Ledger) (op : QuotaOp) (u : Ledger) : RvmResult unit * Ledger :=
  match op with
  | OpCpu ns =>
      match spend (lg_cpu limit) (lg_cpu u) ns with
      | Some c => (Ok tt, mkLedger c (lg_memory u) (lg_ipc u) (lg_dma u))
      | None => (Err ResourceLimitExceeded, u)
      end
  | OpMemory b =>
      match spend (lg_memory limit) (lg_memory u) b with
      | Some m => (Ok tt, mkLedger (lg_cpu u) m (lg_ipc u) (lg_dma u))
      | None => (Err OutOfMemory, u)
      end
  | OpIpc =>
      match spend (lg_ipc limit) (lg_ipc u) 1 with
      | Some i => (Ok tt, mkLedger (lg_cpu u) (lg_memory u) i (lg_dma u))
      | None => (Err ResourceLimitExceeded, u)
      end
  | OpDma b =>
      match spend (lg_dma limit) (lg_dma u) b with
      | Some d => (Ok tt, mkLedger (lg_cpu u) (lg_memory u) (lg_ipc u) d)
      | None => (Err ResourceLimitExceeded, u)
      end
  | OpRelease b => (Ok tt, mkLedger (lg_cpu u) (Z.max 0 (lg_memory u - b)) (lg_ipc u) (lg_dma u))
  | OpReset => (Ok tt, mkLedger 0 (lg_memory u) 0 0)
  end.

Fixpoint ledger_run (limit : Ledger) (ops : list QuotaOp) (u : Ledger)
    : list (RvmResult unit) * Ledger :=
  match ops with
  | [] => ([], u)
  | op :: ops =>
      let '(r, u) := ledger_step limit op u in
      let '(rs, u) := ledger_run limit ops u in
      (r :: rs, u)
  end.

Definition quota_limits (q : ResourceQuota) : Ledger :=
  mkLedger (cpu_time_ns q) (memory_bytes q) (ipc_rate q) (max_bytes_per_epoch (rq_dma q)).
Definition quota_usage (q : ResourceQuota) : Ledger :=
  mkLedger (cpu_time_used_ns q) (memory_used_bytes q) (ipc_used q) (used_bytes (rq_dma q)).

Definition op_u64 (op : QuotaOp) : Prop :=
  match op with
  | OpCpu z | OpMemory z | OpDma z | OpRelease z => is_u64 z
  | OpIpc | OpReset => True
  end.

Definition ledger_le (u v : Ledger) : Prop :=
  0 ≤ lg_cpu u ≤ lg_cpu v ∧ 0 ≤ lg_memory u ≤ lg_memory v ∧
  0 ≤ lg_ipc u ≤ lg_ipc v ∧ 0 ≤ lg_dma u ≤ lg_dma v.

Definition limits_fit (l : Ledger) : Prop :=
  is_u64 (lg_cpu l) ∧ is_u64 (lg_memory l) ∧ is_u32 (lg_ipc l) ∧ is_u64 (lg_dma l).

Lemma spend_charge {E} limit used amount (e : E) :
  0 ≤ used → 0 ≤ amount → limit ≤ u64_max →
  charge limit used amount e =
    match spend limit used amount with Some n => Ok n | None => Err e end.
Proof. intros. rewrite charge_spec by done. unfold spend. by destruct (_ <=? _). Qed.

Lemma spend_Some limit used amount n :
  spend limit used amount = Some n → n = used + amount ∧ used + amount ≤ limit.
Proof. unfold spend. destruct (_ <=? _) eqn:E; split_bool; naive_solver. Qed.

(** One request: same answer, same counters, same limits, still within them. *)
Lemma quota_apply_spec op q :
  limits_fit (quota_limits q) → ledger_le (quota_usage q) (quota_limits q) → op_u64 op →
  let '(r, q') := quota_apply op q in
  ledger_step (quota_limits q) op (quota_usage q) = (r, quota_usage q') ∧
  quota_limits q' = quota_limits q ∧ ledger_le (quota_usage q') (quota_limits q').
Proof.
  destruct q as [cm cu mm mu im iu [dm du]].
  unfold limits_fit, ledger_le, is_u64, is_u32, quota_limits, quota_usage.
  cbn. intros (? & ? & ? & ?) (? & ? & ? & ?) Hop.
  destruct op as [z|z| |z|z|]; cbn in Hop; unfold is_u64 in *; cbn.
  - unfold check_cpu_time. cbn. rewrite spend_charge by lia.
    destruct (spend cm cu z) eqn:E; cbn; [|split_and!; done || lia].
    apply spend_Some in E as [-> ?]. split_and!; done || lia.
  - unfold check_memory. cbn. rewrite spend_charge by lia.
    destruct (spend mm mu z) eqn:E; cbn; [|split_and!; done || lia].
    apply spend_Some in E as [-> ?]. split_and!; done || lia.
  - unfold check_ipc, spend. cbn.
    destruct (im <=? iu) eqn:E1, (iu + 1 <=? im) eqn:E2; split_bool; try lia; cbn.
    + split_and!; done || lia.
    + rewrite wrap32_id by (unfold is_u32, u32_max in *; lia). split_and!; done || lia.
  - unfold quota_check_dma, pzoom, check_dma. cbn. destruct (z =? 0) eqn:E0; split_bool.
    + subst z. unfold spend. destruct (du + 0 <=? dm) eqn:E; split_bool; [|lia].
      cbn. rewrite Z.add_0_r. split_and!; done || lia.
    + rewrite spend_charge by lia. destruct (spend dm du z) eqn:E; cbn; [|split_and!; done || lia].
      apply spend_Some in E as [-> ?]. split_and!; done || lia.
  - unfold sat_sub. split_and!; done || lia.
  - split_and!; done || lia.
Qed.

Lemma quota_run_spec ops q :
  limits_fit (quota_limits q) → ledger_le (quota_usage q) (quota_limits q) → Forall op_u64 ops →
  let '(rs, q') := quota_run ops q in
  ledger_run (quota_limits q) ops (quota_usage q) = (rs, quota_usage q') ∧
  quota_limits q' = quota_limits q ∧ ledger_le (quota_usage q') (quota_limits q').
Proof.
  revert q. induction ops as [|op ops IH]; intros q Hf Hle Hops; simpl; [done|].
  apply Forall_cons in Hops as [Hop Hops].
  pose proof (quota_apply_spec op q Hf Hle Hop) as Hs.
  destruct (quota_apply op q) as [r q1]. destruct Hs as (Hs & Hlim & Hle1). rewrite Hs.
  rewrite <- Hlim in Hf. pose proof (IH q1 Hf Hle1 Hops) as Hr.
  destruct (quota_run ops q1) as [rs q2]. rewrite Hlim in Hr.
  destruct Hr as (-> & Hl2 & Hle2). done.
Qed.

(** A resource quota is exact for every history of requests: run from a
    fresh quota it gives the answers of a ledger of unbounded integers (a
    request is refused exactly when it would pass the limit, with the error the
    code documents), ends with the ledger's counters, never changes a limit and
    never exceeds one.  In particular no request, however large, gets past a
    limit by overflowing a counter. *)
Theorem quota_history_bounded ops cpu memory ipc dma :
  is_u64 cpu → is_u64 memory → is_u32 ipc → is_u64 dma → Forall op_u64 ops →
  let q0 := resource_quota_new cpu memory ipc dma in
  let '(rs, q) := quota_run ops q0 in
  ledger_run (mkLedger cpu memory ipc dma) ops (mkLedger 0 0 0 0) = (rs, quota_usage q) ∧
  quota_limits q = mkLedger cpu memory ipc dma ∧
  ledger_le (quota_usage q) (mkLedger cpu memory ipc dma).
Proof.
  intros Hc Hm Hi Hd Hops q0.
  assert (ledger_le (quota_usage q0) (quota_limits q0)) as Hle.
  { unfold is_u64, is_u32, ledger_le in *. cbn. lia. }
  pose proof (quota_run_spec ops q0 (conj Hc (conj Hm (conj Hi Hd))) Hle Hops) as H.
  destruct (quota_run ops q0) as [rs q]. destruct H as (H1 & H2 & H3).
  rewrite H2 in H3. done.
Qed.

Lemma quota_history_bounded_witness :
  let ops := [OpCpu 60; OpCpu u64_max; OpIpc; OpIpc; OpMemory 5; OpReset; OpCpu 100; OpDma 0] in
  (quota_run ops (resource_quota_new 100 4 1 0)).1 =
    [Ok tt; Err ResourceLimitExceeded; Ok tt; Err ResourceLimitExceeded; Err OutOfMemory;
     Ok tt; Ok tt; Ok tt] ∧
  ledger_le (quota_usage (quota_run ops (resource_quota_new 100 4 1 0)).2) (mkLedger 100 4 1 0).
Proof.
  intros ops. split; [reflexivity|].
  refine (proj2 (proj2 (quota_history_bounded ops 100 4 1 0 _ _ _ _ _))).
  1-4: done.
  subst ops. repeat constructor; done.
Defined.

(** *** GPU quotas *)

Definition gq_usage_ok (g : GpuQuota) : Prop :=
  0 ≤ compute_ns_used g ≤ compute_ns_max g ∧ compute_ns_max g ≤ u64_max ∧
  0 ≤ gq_memory_used g ≤ gq_memory_max g ∧ gq_memory_max g ≤ u64_max ∧
  0 ≤ transfer_bytes_used g ≤ transfer_bytes_max g ∧ transfer_bytes_max g ≤ u64_max ∧
  0 ≤ kernel_launches_used g ≤ kernel_launches_max g ∧ kernel_launches_max g ≤ u32_max.

Inductive gq_step : GpuQuota → GpuQuota → Prop :=
| gq_step_compute g ns : is_u64 ns → gq_step g (gq_check_compute ns g).2
| gq_step_memory g b : is_u64 b → gq_step g (gq_check_memory b g).2
| gq_step_transfer g b : is_u64 b → gq_step g (gq_record_transfer b g).2
| gq_step_launch g : gq_step g (gq_record_launch g).2
| gq_step_release g b : is_u64 b → gq_step g (gq_release_memory b g)
| gq_step_reset g : gq_step g (gq_reset_epoch g).

(** The four GPU counters stay within their limits under every operation. *)
Lemma gq_step_ok g g' : gq_usage_ok g → gq_step g g' → gq_usage_ok g'.
Proof.
  unfold gq_usage_ok. intros Hok Hs.
  destruct Hs as [g ns Hu|g b Hu|g b Hu|g|g b Hu|g]; unfold is_u64 in *;
    destruct g as [cm cu mm mu tm tu km ku]; cbn in Hok |- *.
  - unfold gq_check_compute. cbn. rewrite charge_spec by lia.
    destruct (cu + ns <=? cm) eqn:E; cbn; split_bool; lia.
  - unfold gq_check_memory. cbn. rewrite charge_spec by lia.
    destruct (mu + b <=? mm) eqn:E; cbn; split_bool; lia.
  - unfold gq_record_transfer, gq_check_transfer. cbn. destruct (b =? 0); cbn; [lia|].
    rewrite charge_spec by lia. destruct (tu + b <=? tm) eqn:E; cbn; split_bool; lia.
  - unfold gq_record_launch, gq_check_launch. cbn.
    destruct (km <=? ku) eqn:E; cbn; split_bool; [lia|].
    rewrite wrap32_id by (unfold is_u32, u32_max in *; lia). lia.
  - unfold sat_sub. lia.
  - lia.
Qed.

(** ** Validation *)

(** The four validators accept exactly what they document: identifiers
    1..4096, non-empty page-aligned regions whose end does not pass [u64::MAX],
    rights that are held, leases whose epoch is still ahead. *)
Lemma validation_spec `{!Bitflags, !BitflagsLaws} id addr size requested held expiry now :
  is_u32 id → is_u64 addr → is_u64 size →
  (validate_partition_id id = Ok tt ↔ 1 ≤ id ≤ 4096) ∧
  (validate_region_bounds addr size = Ok tt ↔
     (4096 | addr) ∧ (4096 | size) ∧ 0 < size ∧ addr + size ≤ u64_max) ∧
  (validate_capability_rights requested held = Ok tt ↔
     ∀ i, 0 ≤ i → Z.testbit requested i = true → Z.testbit held i = true) ∧
  (validate_lease_expiry expiry now = Ok tt ↔ now < expiry).
Proof.
  intros Hid Ha Hs. unfold is_u32, is_u64, u32_max, u64_max in *. split_and!.
  - unfold validate_partition_id, MAX_PARTITION_ID.
    case_guards; split_bool; split; intros; try done; lia.
  - unfold validate_region_bounds, VALIDATION_PAGE_SIZE. rewrite <- !Z.mod_divide by lia.
    destruct (checked_add u64_max addr size) eqn:E;
      [apply checked_add_Some in E|apply checked_add_None in E]; unfold u64_max in E; cbn [is_none];
      case_guards; split_bool; split; intros; try done; try lia; exfalso; lia.
  - unfold validate_capability_rights. rewrite <- contains_spec.
    by destruct (contains held requested).
  - unfold validate_lease_expiry. case_guards; split_bool; split; intros; try done; lia.
Qed.

(* ------------------------------------------------------------------ *)
(** ** The gate decides, and writes one record *)

Definition rights_held (held required : CapRights) : Prop :=
  ∀ i, 0 ≤ i → Z.testbit required i = true → Z.testbit held i = true.

(** A chain with at least one link whose hashes connect. *)
Definition p3_linked (c : P3WitnessChain) : Prop :=
  p3_link_count c ≠ 0 ∧
  ∀ i, (i + 1 < p3_count c)%nat → (link_at c i).2 = (link_at c (i + 1)).1.

Lemma p3_links_loop_spec c i n :
  p3_links_loop c i n = true ↔
  ∀ j, (i ≤ j < i + n)%nat → (link_at c j).2 = (link_at c (j + 1)).1.
Proof.
  revert i. induction n as [|n IH]; intros i; simpl; [split; [lia|done]|].
  destruct ((link_at c i).2 =? (link_at c (i + 1)).1) eqn:E; simpl; split_bool.
  - rewrite IH. split; intros H j Hj; [|apply H; lia].
    destruct (decide (j = i)) as [->|]; [done|apply H; lia].
  - split; [done|]. intros H. destruct E. apply H. lia.
Qed.

Lemma verify_p3_chain_spec c : verify_p3_chain c = true ↔ p3_linked c.
Proof.
  unfold verify_p3_chain, p3_linked. destruct (p3_link_count c =? 0) eqn:E; split_bool.
  - naive_solver.
  - rewrite p3_links_loop_spec. split; [intros H; split; [done|]|intros [_ H]];
      intros i Hi; apply H; lia.
Qed.

(** A chain whose signed links carry signatures the signer accepts. *)
Definition p3_signed {Sg} `{!WitnessSigner Sg} (signer : Sg) (c : P3WitnessChain) : Prop :=
  ∀ i, (i < p3_count c)%nat → signature_at c i ≠ replicate 8 0 →
    verify signer (link_record c i (signature_at c i)) = true.

Lemma signatures_loop_spec {Sg} `{!WitnessSigner Sg} (signer : Sg) c i n :
  signatures_loop signer c i n = true ↔
  ∀ j, (i ≤ j < i + n)%nat → signature_at c j ≠ replicate 8 0 →
    verify signer (link_record c j (signature_at c j)) = true.
Proof.
  revert i. induction n as [|n IH]; intros i; cbn [signatures_loop]; [split; [lia|done]|].
  assert (∀ P : nat → Prop, (∀ j, (i ≤ j < i + S n)%nat → P j) ↔
            P i ∧ ∀ j, (i + 1 ≤ j < i + 1 + n)%nat → P j) as Hsplit.
  { intros P. split; [intros H; split; intros; apply H; lia|].
    intros [H0 H] j Hj. destruct (decide (j = i)) as [->|]; [done|apply H; lia]. }
  rewrite Hsplit, <- IH.
  destruct (decide (signature_at c i = replicate 8 0)) as [Hz|Hz].
  - rewrite bool_decide_true by done. naive_solver.
  - rewrite bool_decide_false by done. destruct (verify signer _) eqn:Hv; simpl; naive_solver.
Qed.

Lemma verify_chain_signatures_spec {Sg} `{!WitnessSigner Sg} (signer : Sg) c :
  verify_chain_signatures signer c = true ↔ p3_signed signer c.
Proof.
  unfold verify_chain_signatures, p3_signed. rewrite signatures_loop_spec.
  split; intros H i Hi; apply H; lia.
Qed.

Section gate_proofs.
Context {BF : Bitflags} {BL : BitflagsLaws}.

(** What the gate is asked to enforce: [p3] is its test of a P3 chain. *)
Record gate_authorises (p3 : P3WitnessChain → Prop) (r : GateRequest) (tier : Z) : Prop := {
  ga_type : tok_type (gr_token r) = gr_required_type r;
  ga_rights : rights_held (tok_rights (gr_token r)) (gr_required_rights r);
  ga_commitment h : gr_proof_commitment r = Some h → ¬ Forall (λ b, b = 0) (wh_bytes h);
  ga_p3 : gr_require_p3 r = true → ∃ c, gr_p3_witness_data r = Some c ∧ p3 c;
  ga_tier : tier = if gr_require_p3 r then 3 else if is_some (gr_proof_commitment r) then 2 else 1;
}.

(** Why a request is refused: the first check that fails. *)
Definition gate_refuses (p3 : P3WitnessChain → Prop) (r : GateRequest) (e : SecurityError) : Prop :=
  let type_ok := tok_type (gr_token r) = gr_required_type r in
  let rights_ok := rights_held (tok_rights (gr_token r)) (gr_required_rights r) in
  let zero := ∃ h, gr_proof_commitment r = Some h ∧ Forall (λ b, b = 0) (wh_bytes h) in
  match e with
  | SeCapabilityTypeMismatch => ¬ type_ok
  | SeInsufficientRights => type_ok ∧ ¬ rights_ok
  | SePolicyViolation => type_ok ∧ rights_ok ∧ zero
  | SeDerivationChainBroken =>
      type_ok ∧ rights_ok ∧ ¬ zero ∧ gr_require_p3 r = true ∧
      ∀ c, gr_p3_witness_data r = Some c → ¬ p3 c
  | SeInternal _ => False
  end.

Lemma gate_refuses_not_authorises p3 r e tier :
  gate_refuses p3 r e → ¬ gate_authorises p3 r tier.
Proof.
  intros He [Ht Hr Hc Hp _]. destruct e; simpl in He; naive_solver.
Qed.

(** The checks the two gates share, as one decision. *)
Definition gate_decide (p3 : P3WitnessChain → bool) (r : GateRequest) : result SecurityError Z :=
  if bool_decide (tok_type (gr_token r) ≠ gr_required_type r) then Err SeCapabilityTypeMismatch
  else if negb (has_rights (gr_token r) (gr_required_rights r)) then Err SeInsufficientRights
  else if is_some_and witness_hash_is_zero (gr_proof_commitment r) then Err SePolicyViolation
  else if gr_require_p3 r && negb (is_some_and p3 (gr_p3_witness_data r))
  then Err SeDerivationChainBroken
  else Ok (if gr_require_p3 r then 3 else if is_some (gr_proof_commitment r) then 2 else 1).

Lemma gate_decide_spec p3 (P3 : P3WitnessChain → Prop) r :
  (∀ c, p3 c = true ↔ P3 c) →
  match gate_decide p3 r with
  | Ok tier => gate_authorises P3 r tier
  | Err e => gate_refuses P3 r e
  end.
Proof.
  intros Hp3. unfold gate_decide.
  case_bool_decide as Ht; [done|].
  unfold has_rights. destruct (contains _ _) eqn:Hr; simpl.
  2:{ split; [done|]. unfold rights_held. rewrite <- contains_spec. by rewrite Hr. }
  rewrite contains_spec in Hr.
  destruct (is_some_and witness_hash_is_zero (gr_proof_commitment r)) eqn:Hz.
  { split_and!; [done|done|]. destruct (gr_proof_commitment r) as [h|]; [|done].
    exists h. split; [done|]. by apply all_zero_spec. }
  assert (∀ h, gr_proof_commitment r = Some h → ¬ Forall (λ b, b = 0) (wh_bytes h)) as Hnz.
  { intros h Hh. rewrite Hh in Hz. simpl in Hz. rewrite <- all_zero_spec.
    unfold witness_hash_is_zero in Hz. by rewrite Hz. }
  destruct (gr_require_p3 r) eqn:H3; simpl.
  2:{ by split; rewrite ?H3. }
  destruct (gr_p3_witness_data r) as [c|] eqn:Hd; simpl.
  - destruct (p3 c) eqn:Hc; simpl.
    + split; rewrite ?H3; try done. intros _. exists c. split; [done|]. by apply Hp3.
    + split_and!; [done|done|naive_solver|done|].
      intros c' Hc'. rewrite Hd in Hc'. injection Hc' as <-. rewrite <- Hp3. by rewrite Hc.
  - split_and!; [done|done|naive_solver|done|]. intros c' Hc'. by rewrite Hd in Hc'.
Qed.

Context {CH : ChainHasher}.

Lemma check_and_execute_decide r l :
  check_and_execute r l =
    match gate_decide verify_p3_chain r with
    | Err e => (Err e, emit_rejection r l)
    | Ok tier => (Ok (mkGateResponse (emit_allowed r tier l).1 tier), (emit_allowed r tier l).2)
    end.
Proof.
  unfold check_and_execute, gate_decide. case_bool_decide; [done|].
  destruct (negb _); [done|]. destruct (is_some_and witness_hash_is_zero _); [done|].
  by destruct (gr_require_p3 r && _).
Qed.

Lemma signed_check_and_execute_decide {Sg} `{!WitnessSigner Sg} (signer : Sg) r l :
  signed_check_and_execute signer r l =
    match gate_decide (λ c, verify_p3_chain c && verify_chain_signatures signer c) r with
    | Err e => (Err e, emit_rejection_signed signer r l)
    | Ok tier => (Ok (mkGateResponse (emit_allowed_signed signer r tier l).1 tier),
                  (emit_allowed_signed signer r tier l).2)
    end.
Proof.
  unfold signed_check_and_execute, gate_decide. case_bool_decide; [done|].
  destruct (negb _); [done|]. destruct (is_some_and witness_hash_is_zero _); [done|].
  by destruct (gr_require_p3 r && _).
Qed.

(** C29: The gate decides exactly and always leaves a trace.  It answers with a
    proof tier if and only if the token has the type and the rights asked for,
    a commitment, when given, is not all zeros, and a P3 request comes with a
    non-empty chain whose hashes connect; otherwise it answers with the error of
    the first check that fails.  Either way the witness log grows by exactly
    one record: the action with its tier, under the sequence number the caller
    gets back, or a [ProofRejected]. *)
Theorem gate_decision_exact r l h :
  log_repr l h → Z.of_nat (length h) < u64_max →
  match check_and_execute r l with
  | (Ok resp, l') =>
      gate_authorises p3_linked r (resp_proof_tier resp) ∧
      witness_sequence resp = Z.of_nat (length h) ∧
      log_repr l' (h ++ [stamp_at (length h) (gate_record (gr_action r) (resp_proof_tier resp) r)])
  | (Err e, l') =>
      gate_refuses p3_linked r e ∧ (∀ tier, ¬ gate_authorises p3_linked r tier) ∧
      log_repr l' (h ++ [stamp_at (length h) (gate_record AkProofRejected 0 r)])
  end.
Proof.
  intros Hl Hmax. rewrite check_and_execute_decide.
  pose proof (gate_decide_spec verify_p3_chain p3_linked r verify_p3_chain_spec) as Hd.
  destruct (gate_decide verify_p3_chain r) as [tier|e]; cbn [resp_proof_tier witness_sequence].
  - split; [done|]. by apply append_repr.
  - split_and!; [done|by intros; eapply gate_refuses_not_authorises|]. by apply append_repr.
Qed.
End gate_proofs.

Lemma signed_append_repr {CH : ChainHasher} {Sg} `{!WitnessSigner Sg} (signer : Sg) l h r :
  log_repr l h → Z.of_nat (length h) < u64_max →
  let stored := stamp_at (length h) r in
  (signed_append r signer l).1 = Z.of_nat (length h) ∧
  log_repr (signed_append r signer l).2 (h ++ [set_aux (sign signer stored) stored]).
Proof.
  intros Hl Hmax stored. unfold signed_append.
  rewrite (lr_seq l h Hl), (lr_chain l h Hl). cbn [fst snd]. split; [done|]. by apply push_repr.
Qed.

(** The signing gate: the same decision with signatures checked, and a log
    record that carries a verifying signature.  Whatever it grants, the plain
    gate grants. *)
Lemma signed_gate_exact {BF : Bitflags} {BL : BitflagsLaws} {CH : ChainHasher}
    {Sg} {WS : WitnessSigner Sg} {WL : WitnessSignerLaws Sg} (signer : Sg) r l h :
  log_repr l h → Z.of_nat (length h) < u64_max →
  let p3 c := p3_linked c ∧ p3_signed signer c in
  let signed rec := set_aux (sign signer (stamp_at (length h) rec)) (stamp_at (length h) rec) in
  match signed_check_and_execute signer r l with
  | (Ok resp, l') =>
      gate_authorises p3 r (resp_proof_tier resp) ∧
      gate_authorises p3_linked r (resp_proof_tier resp) ∧
      witness_sequence resp = Z.of_nat (length h) ∧
      let stored := signed (gate_record (gr_action r) (resp_proof_tier resp) r) in
      log_repr l' (h ++ [stored]) ∧ verify signer stored = true
  | (Err e, l') =>
      gate_refuses p3 r e ∧
      let stored := signed (gate_record AkProofRejected 0 r) in
      log_repr l' (h ++ [stored]) ∧ verify signer stored = true
  end.
Proof.
  intros Hl Hmax p3 signed. rewrite signed_check_and_execute_decide.
  assert (∀ c, verify_p3_chain c && verify_chain_signatures signer c = true ↔ p3 c) as Hp3.
  { intros c. by rewrite andb_true_iff, verify_p3_chain_spec, verify_chain_signatures_spec. }
  pose proof (gate_decide_spec _ p3 r Hp3) as Hd.
  destruct (gate_decide _ r) as [tier|e]; cbn [resp_proof_tier witness_sequence].
  - destruct (signed_append_repr signer l h (gate_record (gr_action r) tier r) Hl Hmax) as [H1 H2].
    split_and!; [done| |done|done|by apply verify_signed].
    destruct Hd as [Ht Hr Hc Hp ->]. split; try done. intros H.
    destruct (Hp H) as (c & ? & ? & ?). by exists c.
  - destruct (signed_append_repr signer l h (gate_record AkProofRejected 0 r) Hl Hmax) as [_ H2].
    split_and!; [done|done|by apply verify_signed].
Qed.

(** The P3 test never looks beyond the links it is given: a chain of one link
    passes whatever its hashes are, unsigned links pass the signing gate, and
    both gates then grant tier 3 to a request that fails nothing else. *)
Lemma p3_single_link_accepted {Sg} `{!WitnessSigner Sg} (signer : Sg) links sigs :
  let c := mkP3WitnessChain links sigs 1 in
  verify_p3_chain c = true ∧
  (signature_at c 0 = replicate 8 0 → verify_chain_signatures signer c = true).
Proof.
  intros c. split; [done|]. intros Hz. change (signatures_loop signer c 0 1 = true).
  cbn [signatures_loop]. by rewrite bool_decide_true.
Qed.

Definition sample_gate_request : GateRequest :=
  mkGateRequest (mkCapToken 1 CtPartition 3 1) CtPartition READ None true false
    (Some (mkP3WitnessChain [(7, 9); (9, 4); (0, 0); (0, 0)] (replicate 4 (replicate 8 0)) 2))
    AkPartitionCreate 42 1000.

Lemma gate_decision_exact_witness :
  let chash : ChainHasher := compute_chain_hash_fnv in
  let '(res, l') := check_and_execute sample_gate_request (log_new 4) in
  res = Ok (mkGateResponse 0 3) ∧
  log_repr l' [stamp_at 0 (gate_record AkPartitionCreate 3 sample_gate_request)].
Proof.
  intros chash.
  assert (log_repr (log_new 4) []) as Hl by (apply log_new_repr; lia).
  pose proof (gate_decision_exact sample_gate_request (log_new 4) [] Hl) as H.
  assert (Z.of_nat (length (@nil WitnessRecord)) < u64_max) as Hmax by reflexivity.
  specialize (H Hmax).
  destruct (check_and_execute sample_gate_request (log_new 4)) as [res l'] eqn:E.
  assert (res = Ok (mkGateResponse 0 3)) as -> by (revert E; vm_compute; congruence).
  split; [done|]. apply H.
Defined.

(* ------------------------------------------------------------------ *)
(** ** Attestation histories *)

Inductive Measurement : Set := Boot (hash : list Z) | Runtime (hash : list Z).

Definition m_hash (m : Measurement) : list Z := match m with Boot h | Runtime h => h end.
Definition m_is_boot (m : Measurement) : bool := match m with Boot _ => true | Runtime _ => false end.
Definition m_entry (i : nat) (m : Measurement) : AttestationEntry :=
  mkAttestationEntry (Z.of_nat i) (m_hash m) (if m_is_boot m then 0 else 1).

Section attestation_proofs.
Context {EC : ExtendChainHash}.

Definition attest_apply (m : Measurement) (c : AttestationChain) : bool * AttestationChain :=
  match m with
  | Boot h => add_boot_measurement h c
  | Runtime h => add_runtime_witness h c
  end.

Fixpoint attest_run (ms : list Measurement) (c : AttestationChain) : list bool * AttestationChain :=
  match ms with
  | [] => ([], c)
  | m :: ms =>
      let '(b, c) := attest_apply m c in
      let '(bs, c) := attest_run ms c in
      (b :: bs, c)
  end.

(** The root of a list of measurements. *)
Definition root_of (ms : list Measurement) : list Z :=
  foldl (λ c m, extend_chain_hash c (m_hash m)) (replicate 32 0) ms.

(** Chain [c] holds the measurements [ms]. *)
Record attest_repr (c : AttestationChain) (ms : list Measurement) : Prop := {
  ar_cap : length (ac_entries c) = MAX_ATTESTATION_ENTRIES;
  ar_count : ac_count c = length ms;
  ar_max : (length ms ≤ MAX_ATTESTATION_ENTRIES)%nat;
  ar_entries : take (length ms) (ac_entries c) = imap m_entry ms;
  ar_root : ac_chain_hash c = root_of ms;
}.

Lemma attest_new_repr : attest_repr attestation_new [].
Proof. split; [apply length_replicate|done|unfold MAX_ATTESTATION_ENTRIES; simpl; lia|done|done]. Qed.

Lemma attest_apply_repr m c ms :
  attest_repr c ms →
  let '(b, c') := attest_apply m c in
  if decide (length ms < MAX_ATTESTATION_ENTRIES)%nat
  then b = true ∧ attest_repr c' (ms ++ [m]) else b = false ∧ c' = c.
Proof.
  intros [Hcap Hcnt Hmax Hent Hroot].
  assert (attest_apply m c = add_entry (m_hash m) (if m_is_boot m then 0 else 1) c) as ->
    by by destruct m.
  unfold add_entry. rewrite Hcnt. destruct (decide _) as [Hlt|Hge].
  2:{ by rewrite (proj2 (Nat.leb_le _ _)) by lia. }
  rewrite (proj2 (Nat.leb_gt _ _)) by lia. split; [done|].
  split; cbn [ac_entries ac_count ac_chain_hash]; rewrite ?length_insert, ?length_app; simpl length.
  - done.
  - done.
  - lia.
  - rewrite imap_app. simpl. rewrite Nat.add_0_r.
    rewrite take_insert_snoc by (rewrite Hcap; lia). rewrite Hent. do 2 f_equal.
    unfold m_entry. f_equal. apply wrap32_id.
    unfold is_u32, u32_max, MAX_ATTESTATION_ENTRIES in *. lia.
  - unfold root_of. by rewrite Hroot, foldl_app.
Qed.

Lemma attest_run_repr ms c old :
  attest_repr c old →
  let '(bs, c') := attest_run ms c in
  let room := (MAX_ATTESTATION_ENTRIES - length old)%nat in
  bs = imap (λ i _, bool_decide (i < room)%nat) ms ∧
  attest_repr c' (old ++ take room ms).
Proof.
  revert c old. induction ms as [|m ms IH]; intros c old Hc; simpl.
  { by rewrite take_nil, app_nil_r. }
  pose proof (attest_apply_repr m c old Hc) as Hm.
  destruct (attest_apply m c) as [b c1]. pose proof (ar_max _ _ Hc) as Hmax.
  destruct (decide _) as [Hlt|Hge]; destruct Hm as [-> Hc1].
  - specialize (IH c1 (old ++ [m]) Hc1). destruct (attest_run ms c1) as [bs c'].
    rewrite length_app in IH. simpl in IH. destruct IH as [-> IH].
    destruct (MAX_ATTESTATION_ENTRIES - length old)%nat as [|k] eqn:Ek; [lia|].
    replace (MAX_ATTESTATION_ENTRIES - (length old + 1))%nat with k in * by lia.
    split; [|by rewrite <- app_assoc in IH].
    rewrite (bool_decide_true (0 < S k)%nat) by lia. f_equal. apply imap_ext. intros i x _. simpl.
    apply bool_decide_ext. lia.
  - subst c1. specialize (IH c old Hc). destruct (attest_run ms c) as [bs c'].
    destruct IH as [-> IH].
    replace (MAX_ATTESTATION_ENTRIES - length old)%nat with O in * by lia.
    split; [|by rewrite take_0 in *]. f_equal.
Qed.

(** An attestation chain keeps exactly the first 64 measurements offered
    to it and refuses the rest.  Its report counts them, splits the count by
    origin with nothing lost, and carries the fold of their hashes, which is the
    only root the verifier accepts. *)
Theorem attestation_history `{!ConstantTimeEq, !ConstantTimeEqLaws} ms root :
  let '(bs, c) := attest_run ms attestation_new in
  let kept := take MAX_ATTESTATION_ENTRIES ms in
  let report := generate_attestation_report c in
  bs = imap (λ i _, bool_decide (i < MAX_ATTESTATION_ENTRIES)%nat) ms ∧
  entry_count report = Z.of_nat (length kept) ∧
  report_boot_count report = Z.of_nat (count_by m_is_boot kept) ∧
  report_boot_count report + report_runtime_count report = entry_count report ∧
  (verify_attestation report root = true ↔ root = root_of kept).
Proof.
  pose proof (attest_run_repr ms attestation_new [] attest_new_repr) as Hrun.
  destruct (attest_run ms attestation_new) as [bs c]. cbn zeta in Hrun.
  change (length (@nil Measurement)) with O in Hrun. rewrite Nat.sub_0_r, app_nil_l in Hrun.
  destruct Hrun as [-> [Hcap Hcnt Hmax Hent Hroot]].
  set (kept := take MAX_ATTESTATION_ENTRIES ms) in *. cbn.
  unfold boot_measurement_count, runtime_witness_count, verify_attestation. cbn [chain_root].
  rewrite Hcnt, Hent, wrap32_id
    by (unfold is_u32, u32_max, MAX_ATTESTATION_ENTRIES in *; lia).
  rewrite !(imap_count_by _ m_is_boot) by by intros ? [].
  rewrite (imap_count_by _ (λ m, negb (m_is_boot m))) by by intros ? [].
  split_and!; [done|done|done| |rewrite ct_eq_spec; naive_solver].
  pose proof (count_by_split m_is_boot kept). lia.
Qed.
End attestation_proofs.

(** The attestation root binds the measurements.  Two chains of the same
    length with the same SHA-256 root hold the same measurements in the same
    order, or else they exhibit two different 64-byte inputs with the same
    SHA-256 digest. *)
Theorem attestation_binding `{!Sha256, !Sha256Laws} ms1 ms2 :
  length ms1 = length ms2 →
  Forall (λ m, length (m_hash m) = 32%nat) (ms1 ++ ms2) →
  let EC : ExtendChainHash := extend_chain_hash_sha256 in
  root_of ms1 = root_of ms2 →
  m_hash <$> ms1 = m_hash <$> ms2 ∨
  ∃ x y, x ≠ y ∧ length x = 64%nat ∧ length y = 64%nat ∧ sha256 x = sha256 y.
Proof.
  intros Hlen Hall EC. revert ms2 Hlen Hall.
  assert (∀ ms, length (root_of ms) = 32%nat) as Hrl.
  { intros ms. destruct ms as [|m ms _] using rev_ind; [done|].
    unfold root_of. rewrite foldl_app. apply sha256_length. }
  induction ms1 as [|m1 ms1 IH] using rev_ind; intros ms2 Hlen Hall Hroot.
  { destruct ms2; [by left|done]. }
  destruct ms2 as [|m2 ms2 _] using rev_ind; [by rewrite length_app in Hlen; simpl in Hlen; lia|].
  rewrite !length_app in Hlen. simpl in Hlen.
  rewrite !Forall_app, !Forall_singleton in Hall. destruct Hall as [[Hf1 Hm1] [Hf2 Hm2]].
  assert (∀ ms m, root_of (ms ++ [m]) = sha256 (root_of ms ++ m_hash m)) as Hsnoc.
  { intros ms m. unfold root_of. by rewrite foldl_app. }
  rewrite !Hsnoc in Hroot.
  destruct (decide (root_of ms1 ++ m_hash m1 = root_of ms2 ++ m_hash m2)) as [Heq|Hne].
  - apply app_inj_1 in Heq as [Hr Hh]; [|by rewrite !Hrl].
    destruct (IH ms2) as [He|?]; [lia|by apply Forall_app|done| |by right].
    left. by rewrite !fmap_app, He, !list_fmap_singleton, Hh.
  - right. exists (root_of ms1 ++ m_hash m1), (root_of ms2 ++ m_hash m2).
    rewrite !length_app, !Hrl, Hm1, Hm2. done.
Qed.

(** A stand-in digest for concrete runs: the sum of the bytes, 32 times. *)
#[local] Instance sample_sha256 : Sha256 := λ data, replicate 32 (foldl Z.add 0 data mod 256).
#[local] Instance sample_sha256_laws : Sha256Laws.
Proof.
  split; intros data; [apply length_replicate|].
  apply Forall_replicate. unfold is_byte. apply Z.mod_pos_bound. lia.
Qed.
#[local] Instance sample_ct_eq : ConstantTimeEq := λ a b, bool_decide (a = b).
#[local] Instance sample_ct_eq_laws : ConstantTimeEqLaws.
Proof. intros a b. apply bool_decide_eq_true. Qed.

Definition sample_measurements : list Measurement :=
  [Boot (replicate 32 1); Runtime (replicate 32 2); Boot (replicate 32 3)].

Lemma attestation_history_witness :
  let EC : ExtendChainHash := extend_chain_hash_sha256 in
  let '(bs, c) := attest_run sample_measurements attestation_new in
  bs = [true; true; true] ∧
  verify_attestation (generate_attestation_report c) (root_of sample_measurements) = true.
Proof.
  intros EC. pose proof (attestation_history sample_measurements (root_of sample_measurements)) as H.
  destruct (attest_run sample_measurements attestation_new) as [bs c].
  destruct H as (-> & _ & _ & _ & H). split; [reflexivity|]. apply H. reflexivity.
Defined.

Lemma attestation_binding_witness :
  let EC : ExtendChainHash := extend_chain_hash_sha256 in
  m_hash <$> sample_measurements = m_hash <$> sample_measurements ∨
  ∃ x y, x ≠ y ∧ length x = 64%nat ∧ length y = 64%nat ∧ sha256 x = sha256 y.
Proof.
  intros EC. apply (attestation_binding sample_measurements sample_measurements); [done| |done].
  repeat constructor.
Defined.
