(* ===== verification/CoherenceGraph.v ===== *)
(** The coherence graph: [crates/rvm-coherence/src/graph.rs].

    A fixed-size directed multigraph of partitions: slots for nodes and edges,
    a linked list of outgoing edges per node, a direct index for lookups, and
    cached sums (adjacency matrix, outgoing and incoming weight per node).  The
    file proves that lists, index and caches stay exact under every history. *)

From stdpp Require Import base numbers list option sets gmap.
From Stdlib Require Import ZArith Lia.
From S2P Require Import Prelude.
From S2P Require Import SlotMap.
From S2P Require Import Types.

Local Open Scope nat_scope.

(** The sentinel [u16::MAX]. *)
Definition INVALID : nat := Z.to_nat 65535.
Definition NODE_INDEX_SIZE : nat := 256.
Definition ADJ_DIM : nat := 32.

Record Node : Set := mkNode { gn_partition : option PartitionId; gn_first_edge : nat }.
Definition node_empty_slot : Node := mkNode None INVALID.

Record Edge : Set := mkEdge {
  ge_from : nat;
  ge_to : nat;
  ge_weight : Z;
  ge_next_from : nat;
  ge_active : bool;
}.
Definition edge_empty : Edge := mkEdge 0 0 0 INVALID false.

Inductive GraphError : Set :=
| NodeCapacityExhausted | EdgeCapacityExhausted | NodeNotFound | EdgeNotFound | DuplicateNode.

Record CoherenceGraph : Set := mkCoherenceGraph {
  cg_nodes : list Node;
  cg_edges : list Edge;
  cg_id_to_node : list (option nat);
  cg_adj_matrix : list (list Z);
  cg_cached_outgoing : list Z;
  cg_cached_incoming : list Z;
  cg_node_count : nat;
  cg_edge_count : nat;
}.

Definition graph_new (MAX_NODES MAX_EDGES : nat) : CoherenceGraph :=
  mkCoherenceGraph (replicate MAX_NODES node_empty_slot) (replicate MAX_EDGES edge_empty)
    (replicate NODE_INDEX_SIZE None) (replicate ADJ_DIM (replicate ADJ_DIM 0%Z))
    (replicate ADJ_DIM 0%Z) (replicate ADJ_DIM 0%Z) 0 0.

(** Array accesses: the indices come from the graph itself. *)
Definition gnode_at (g : CoherenceGraph) (i : nat) : Node := default node_empty_slot (cg_nodes g !! i).
Definition edge_at (g : CoherenceGraph) (i : nat) : Edge := default edge_empty (cg_edges g !! i).
Definition cell (l : list Z) (i : nat) : Z := default 0%Z (l !! i).
Definition adj_at (adj : list (list Z)) (f t : nat) : Z := cell (default [] (adj !! f)) t.
Definition adj_set (adj : list (list Z)) (f t : nat) (w : Z) : list (list Z) :=
  alter (λ row, <[t := w]> row) f adj.

Definition set_nodes (n : list Node) (g : CoherenceGraph) : CoherenceGraph :=
  mkCoherenceGraph n (cg_edges g) (cg_id_to_node g) (cg_adj_matrix g) (cg_cached_outgoing g)
    (cg_cached_incoming g) (cg_node_count g) (cg_edge_count g).
Definition set_edges (e : list Edge) (g : CoherenceGraph) : CoherenceGraph :=
  mkCoherenceGraph (cg_nodes g) e (cg_id_to_node g) (cg_adj_matrix g) (cg_cached_outgoing g)
    (cg_cached_incoming g) (cg_node_count g) (cg_edge_count g).
Definition set_id_index (x : list (option nat)) (g : CoherenceGraph) : CoherenceGraph :=
  mkCoherenceGraph (cg_nodes g) (cg_edges g) x (cg_adj_matrix g) (cg_cached_outgoing g)
    (cg_cached_incoming g) (cg_node_count g) (cg_edge_count g).
Definition set_counts (n e : nat) (g : CoherenceGraph) : CoherenceGraph :=
  mkCoherenceGraph (cg_nodes g) (cg_edges g) (cg_id_to_node g) (cg_adj_matrix g)
    (cg_cached_outgoing g) (cg_cached_incoming g) n e.

(** The three caches of an edge, changed by [f]. *)
Definition update_caches (from to : nat) (f : Z → Z) (g : CoherenceGraph) : CoherenceGraph :=
  mkCoherenceGraph (cg_nodes g) (cg_edges g) (cg_id_to_node g)
    (adj_set (cg_adj_matrix g) from to (f (adj_at (cg_adj_matrix g) from to)))
    (<[from := f (cell (cg_cached_outgoing g) from)]> (cg_cached_outgoing g))
    (<[to := f (cell (cg_cached_incoming g) to)]> (cg_cached_incoming g))
    (cg_node_count g) (cg_edge_count g).

(** [x.saturating_add(w)] and [x.saturating_sub(w)] on [u64]. *)
Definition add64 (w x : Z) : Z := sat_add u64_max x w.
Definition sub64 (w x : Z) : Z := sat_sub x w.

Definition set_first_edge (i : nat) (e : nat) (g : CoherenceGraph) : CoherenceGraph :=
  set_nodes (alter (λ n, mkNode (gn_partition n) e) i (cg_nodes g)) g.

(* ------------------------------------------------------------------ *)
(** ** Lookups *)

Definition node_hash (p : PartitionId) : nat := Z.to_nat p mod NODE_INDEX_SIZE.

Definition has_partition (p : PartitionId) (n : Node) : bool := bool_decide (gn_partition n = Some p).

Definition find_node (p : PartitionId) (g : CoherenceGraph) : option nat :=
  match default None (cg_id_to_node g !! node_hash p) with
  | Some i =>
      if (i <? length (cg_nodes g)) && has_partition p (gnode_at g i) then Some i
      else position (has_partition p) (cg_nodes g)
  | None => position (has_partition p) (cg_nodes g)
  end.

Definition partition_at (i : nat) (g : CoherenceGraph) : option PartitionId :=
  if i <? length (cg_nodes g) then gn_partition (gnode_at g i) else None.

Definition alloc_edge (g : CoherenceGraph) : result GraphError nat :=
  ok_or (position (λ e, negb (ge_active e)) (cg_edges g)) EdgeCapacityExhausted.

(** [i] behind the test [idx >= MAX_EDGES || !active]. *)
Definition live_edge (i : nat) (g : CoherenceGraph) : bool :=
  (i <? length (cg_edges g)) && ge_active (edge_at g i).

Definition edge_weight (i : nat) (g : CoherenceGraph) : option Z :=
  if live_edge i g then Some (ge_weight (edge_at g i)) else None.

Definition edge_endpoints (i : nat) (g : CoherenceGraph) : option (PartitionId * PartitionId) :=
  if negb (live_edge i g) then None
  else
    match gn_partition (gnode_at g (ge_from (edge_at g i))) with
    | None => None
    | Some f => (λ t, (f, t)) <$> gn_partition (gnode_at g (ge_to (edge_at g i)))
    end.

(** [NeighborIter]: the items of the walk, in order. *)
Fixpoint neighbor_iter (fuel : nat) (g : CoherenceGraph) (cur : nat) : option (list (nat * Z)) :=
  match fuel with
  | O => None
  | S fuel =>
      if cur =? INVALID then Some []
      else if length (cg_edges g) <=? cur then Some []
      else
        let edge := edge_at g cur in
        let rest := neighbor_iter fuel g (ge_next_from edge) in
        if ge_active edge then (λ l, (ge_to edge, ge_weight edge) :: l) <$> rest else rest
  end.

Definition walk_fuel (g : CoherenceGraph) : nat := S (S (length (cg_edges g))).

(** [None]: unknown partition; the inner option is the fuel's. *)
Definition neighbors (p : PartitionId) (g : CoherenceGraph) : option (option (list (nat * Z))) :=
  (λ i, neighbor_iter (walk_fuel g) g (gn_first_edge (gnode_at g i))) <$> find_node p g.

Definition total_weight (p : PartitionId) (g : CoherenceGraph) : Z :=
  match find_node p g with
  | Some i => sat_add u64_max (cell (cg_cached_outgoing g) i) (cell (cg_cached_incoming g) i)
  | None => 0
  end%Z.

Definition internal_weight (p : PartitionId) (g : CoherenceGraph) : Z :=
  match find_node p g with
  | None => 0%Z
  | Some i =>
      foldl (λ sum e, if ge_active e && (ge_from e =? i) && (ge_to e =? i)
                      then sat_add u64_max sum (ge_weight e) else sum) 0%Z (cg_edges g)
  end.

Definition edge_weight_between (a b : PartitionId) (g : CoherenceGraph) : Z :=
  match find_node a g with
  | None => 0%Z
  | Some i =>
      match find_node b g with
      | None => 0%Z
      | Some j => sat_add u64_max (adj_at (cg_adj_matrix g) i j) (adj_at (cg_adj_matrix g) j i)
      end
  end.

Fixpoint find_edge_walk (fuel : nat) (g : CoherenceGraph) (to cur : nat) : option (option nat) :=
  match fuel with
  | O => None
  | S fuel =>
      if cur =? INVALID then Some None
      else if length (cg_edges g) <=? cur then Some None
      else if ge_active (edge_at g cur) && (ge_to (edge_at g cur) =? to) then Some (Some cur)
      else find_edge_walk fuel g to (ge_next_from (edge_at g cur))
  end.

(** The outer option is the fuel's. *)
Definition find_directed_edge (from to : PartitionId) (g : CoherenceGraph) : option (option nat) :=
  match find_node from g with
  | None => Some None
  | Some f =>
      match find_node to g with
      | None => Some None
      | Some t =>
          if (adj_at (cg_adj_matrix g) f t =? 0)%Z then Some None
          else find_edge_walk (walk_fuel g) g t (gn_first_edge (gnode_at g f))
      end
  end.

Definition active_nodes (g : CoherenceGraph) : list (nat * PartitionId) :=
  omap (λ '(i, n), (λ p, (i, p)) <$> gn_partition n) (imap pair (cg_nodes g)).
Definition active_edges (g : CoherenceGraph) : list (nat * nat * nat * Z) :=
  omap (λ '(i, e), if ge_active e then Some (i, ge_from e, ge_to e, ge_weight e) else None)
    (imap pair (cg_edges g)).

(* ------------------------------------------------------------------ *)
(** ** Updates *)

Definition add_node (p : PartitionId) : prog CoherenceGraph GraphError nat := λ g,
  if is_some (find_node p g) then (Err DuplicateNode, g)
  else
    match position (λ n, bool_decide (gn_partition n = None)) (cg_nodes g) with
    | None => (Err NodeCapacityExhausted, g)
    | Some i =>
        let g := set_nodes (<[i := mkNode (Some p) INVALID]> (cg_nodes g)) g in
        let g := set_counts (cg_node_count g + 1) (cg_edge_count g) g in
        (Ok i, set_id_index (<[node_hash p := Some i]> (cg_id_to_node g)) g)
    end.

Definition add_edge (from to : PartitionId) (weight : Z) : prog CoherenceGraph GraphError nat := λ g,
  match find_node from g with
  | None => (Err NodeNotFound, g)
  | Some f =>
      match find_node to g with
      | None => (Err NodeNotFound, g)
      | Some t =>
          match alloc_edge g with
          | Err e => (Err e, g)
          | Ok i =>
              let old_head := gn_first_edge (gnode_at g f) in
              let g := set_edges (<[i := mkEdge f t weight old_head true]> (cg_edges g)) g in
              let g := set_first_edge f i g in
              let g := set_counts (cg_node_count g) (cg_edge_count g + 1) g in
              (Ok i, update_caches f t (add64 weight) g)
          end
      end
  end.

Definition with_weight (w : Z) (e : Edge) : Edge :=
  mkEdge (ge_from e) (ge_to e) w (ge_next_from e) (ge_active e).

Definition update_weight (i : nat) (delta : Z) : prog CoherenceGraph GraphError unit := λ g,
  if negb (live_edge i g) then (Err EdgeNotFound, g)
  else
    let e := edge_at g i in
    let old_weight := ge_weight e in
    let new_weight := if (0 <=? delta)%Z then sat_add u64_max old_weight delta
                      else sat_sub old_weight (- delta) in
    let g := set_edges (<[i := with_weight new_weight e]> (cg_edges g)) g in
    (Ok tt, update_caches (ge_from e) (ge_to e) (λ x, add64 new_weight (sub64 old_weight x)) g).

Definition with_next (n : nat) (e : Edge) : Edge :=
  mkEdge (ge_from e) (ge_to e) (ge_weight e) n (ge_active e).
Definition deactivate (e : Edge) : Edge :=
  mkEdge (ge_from e) (ge_to e) (ge_weight e) (ge_next_from e) false.

(** The walk to the predecessor of [idx], and its new successor. *)
Fixpoint unlink_walk (fuel : nat) (idx next cur : nat) (g : CoherenceGraph) : option CoherenceGraph :=
  match fuel with
  | O => None
  | S fuel =>
      if cur =? INVALID then Some g
      else if ge_next_from (edge_at g cur) =? idx
      then Some (set_edges (alter (with_next next) cur (cg_edges g)) g)
      else unlink_walk fuel idx next (ge_next_from (edge_at g cur)) g
  end.

Definition remove_edge_by_index (idx : nat) (g : CoherenceGraph) : option CoherenceGraph :=
  if negb (live_edge idx g) then Some g
  else
    let e := edge_at g idx in
    let g := update_caches (ge_from e) (ge_to e) (sub64 (ge_weight e)) g in
    let first := gn_first_edge (gnode_at g (ge_from e)) in
    g ← (if first =? idx then Some (set_first_edge (ge_from e) (ge_next_from e) g)
         else unlink_walk (walk_fuel g) idx (ge_next_from e) first g);
    let g := set_edges (alter deactivate idx (cg_edges g)) g in
    Some (set_counts (cg_node_count g) (cg_edge_count g - 1) g).

(** The loop over [0..MAX_EDGES] of [remove_node]. *)
Definition remove_incident (idx : nat) (idxs : list nat) (g : CoherenceGraph) : option CoherenceGraph :=
  foldl (λ og i, g ← og;
    let e := edge_at g i in
    if ge_active e && ((ge_from e =? idx) || (ge_to e =? idx)) then remove_edge_by_index i g
    else Some g) (Some g) idxs.

(** Row and column [i] of the matrix, and both sums, set to zero. *)
Definition clear_node_caches (i : nat) (g : CoherenceGraph) : CoherenceGraph :=
  mkCoherenceGraph (cg_nodes g) (cg_edges g) (cg_id_to_node g)
    (imap (λ f row, imap (λ t w, if (f =? i) || (t =? i) then 0%Z else w) row) (cg_adj_matrix g))
    (<[i := 0%Z]> (cg_cached_outgoing g)) (<[i := 0%Z]> (cg_cached_incoming g))
    (cg_node_count g) (cg_edge_count g).

Definition remove_node (p : PartitionId) (g : CoherenceGraph)
    : option (result GraphError unit * CoherenceGraph) :=
  match find_node p g with
  | None => Some (Err NodeNotFound, g)
  | Some idx =>
      g ← remove_incident idx (seq 0 (length (cg_edges g))) g;
      let hash := node_hash p in
      let g := if bool_decide (default None (cg_id_to_node g !! hash) = Some idx)
               then set_id_index (<[hash := None]> (cg_id_to_node g)) g else g in
      let g := set_nodes (<[idx := mkNode None INVALID]> (cg_nodes g)) g in
      let g := clear_node_caches idx g in
      Some (Ok tt, set_counts (cg_node_count g - 1) (cg_edge_count g) g)
  end.

Definition decayed (decay_bp w : Z) : Z :=
  (Z.min u64_max (w * sat_sub 10000 decay_bp) / 10000)%Z.

(** One iteration of [decay_weights]. *)
Definition decay_edge (decay_bp : Z) (i : nat) (s : CoherenceGraph * Z) : option (CoherenceGraph * Z) :=
  let '(g, pruned) := s in
  let e := edge_at g i in
  if negb (ge_active e) then Some (g, pruned)
  else
    let new_w := decayed decay_bp (ge_weight e) in
    if (new_w =? 0)%Z then (λ g, (g, wrap16 (pruned + 1))) <$> remove_edge_by_index i g
    else
      let diff := (ge_weight e - new_w)%Z in
      let g := set_edges (alter (with_weight new_w) i (cg_edges g)) g in
      Some (update_caches (ge_from e) (ge_to e) (sub64 diff) g, pruned).

Definition decay_weights (decay_bp : Z) (g : CoherenceGraph) : option (Z * CoherenceGraph) :=
  (λ s, (s.2, s.1)) <$>
    foldl (λ os i, s ← os; decay_edge decay_bp i s) (Some (g, 0%Z)) (seq 0 (length (cg_edges g))).

(* ------------------------------------------------------------------ *)
(** ** Sums of weights *)

Local Open Scope Z_scope.

(** The weight of an edge, counted when the edge is active and its endpoints
    satisfy [q]. *)
Definition weight_if (q : nat → nat → bool) (e : Edge) : Z :=
  if ge_active e && q (ge_from e) (ge_to e) then ge_weight e else 0.

Fixpoint wsum (q : nat → nat → bool) (es : list Edge) : Z :=
  match es with [] => 0 | e :: es => weight_if q e + wsum q es end.

Definition any : nat → nat → bool := λ _ _, true.
Definition from_is (f : nat) : nat → nat → bool := λ x _, (x =? f)%nat.
Definition to_is (t : nat) : nat → nat → bool := λ _ y, (y =? t)%nat.
Definition ends_are (f t : nat) : nat → nat → bool := λ x y, (x =? f)%nat && (y =? t)%nat.

Definition weights_ok (es : list Edge) : Prop := ∀ i e, es !! i = Some e → 0 ≤ ge_weight e.

Lemma wsum_insert q es i e e' :
  es !! i = Some e → wsum q (<[i := e']> es) = wsum q es - weight_if q e + weight_if q e'.
Proof.
  revert i. induction es as [|a es IH]; intros [|i] Hi; simplify_eq/=; [lia|]. rewrite IH by done. lia.
Qed.

Lemma wsum_alter q es i e f :
  es !! i = Some e → wsum q (alter f i es) = wsum q es - weight_if q e + weight_if q (f e).
Proof. intros Hi. rewrite (alter_as_insert f es i e Hi). by apply wsum_insert. Qed.

Lemma weight_if_nonneg q e : 0 ≤ ge_weight e → 0 ≤ weight_if q e.
Proof. unfold weight_if. by destruct (_ && _). Qed.

Lemma wsum_bounds q es : weights_ok es → 0 ≤ wsum q es ≤ wsum any es.
Proof.
  induction es as [|e es IH]; intros Hw; simpl; [lia|].
  assert (0 ≤ ge_weight e) by by apply (Hw O). specialize (IH (λ i, Hw (S i))).
  assert (0 ≤ weight_if q e ≤ weight_if any e); [|lia].
  unfold weight_if, any. destruct (ge_active e); cbn [andb]; [|lia]. destruct (q _ _); lia.
Qed.

Lemma wsum_mono q r es : weights_ok es → (∀ x y, q x y = true → r x y = true) → wsum q es ≤ wsum r es.
Proof.
  intros Hw Hqr. induction es as [|e es IH]; cbn; [done|].
  assert (0 ≤ ge_weight e) by (by apply (Hw 0%nat)).
  assert (wsum q es ≤ wsum r es) by (apply IH; intros i; apply (Hw (S i))).
  unfold weight_if. destruct (ge_active e); cbn; [|lia]. specialize (Hqr (ge_from e) (ge_to e)).
  destruct (q _ _), (r _ _); lia.
Qed.

Lemma wsum_ge q es i e :
  weights_ok es → es !! i = Some e → weight_if q e ≤ wsum q es.
Proof.
  intros Hw Hi. pose proof (wsum_insert q es i e edge_empty Hi) as H.
  assert (weights_ok (<[i := edge_empty]> es)) as Hw'.
  { intros j e' [(-> & <- & _)|[_ Hj]]%list_lookup_insert_Some; [done|by eapply Hw]. }
  pose proof (wsum_bounds q _ Hw'). change (weight_if q edge_empty) with 0 in H. lia.
Qed.

(* ------------------------------------------------------------------ *)
(** ** The caches *)

Record caches_ok (es : list Edge) (adj : list (list Z)) (out inc : list Z) : Prop := {
  co_rows : length adj = ADJ_DIM;
  co_cols f row : adj !! f = Some row → length row = ADJ_DIM;
  co_out_len : length out = ADJ_DIM;
  co_inc_len : length inc = ADJ_DIM;
  co_adj f t : (f < ADJ_DIM)%nat → (t < ADJ_DIM)%nat → adj_at adj f t = wsum (ends_are f t) es;
  co_out f : (f < ADJ_DIM)%nat → cell out f = wsum (from_is f) es;
  co_inc t : (t < ADJ_DIM)%nat → cell inc t = wsum (to_is t) es;
}.

Lemma cell_insert l i j w :
  (i < length l)%nat → cell (<[i := w]> l) j = if (i =? j)%nat then w else cell l j.
Proof.
  intros Hi. unfold cell. destruct (i =? j)%nat eqn:E; split_bool.
  - subst. by rewrite list_lookup_insert_eq.
  - by rewrite list_lookup_insert_ne.
Qed.

Lemma adj_at_set adj f t w f' t' :
  length adj = ADJ_DIM → (∀ f row, adj !! f = Some row → length row = ADJ_DIM) →
  (f < ADJ_DIM)%nat → (t < ADJ_DIM)%nat →
  adj_at (adj_set adj f t w) f' t' = if (f =? f')%nat && (t =? t')%nat then w else adj_at adj f' t'.
Proof.
  intros Hl Hc Hf Ht. unfold adj_at, adj_set. destruct (f =? f')%nat eqn:E; split_bool; cbn [andb].
  - subst f'. rewrite list_lookup_alter_eq.
    destruct (adj !! f) as [row|] eqn:Er; [|apply lookup_ge_None_1 in Er; lia].
    simpl. apply cell_insert. by rewrite (Hc f row Er).
  - by rewrite list_lookup_alter_ne.
Qed.

(** An edit that moves every sum containing [(f, t)] by [d]. *)
Lemma caches_update es es' adj out inc f t d F :
  caches_ok es adj out inc → (f < ADJ_DIM)%nat → (t < ADJ_DIM)%nat →
  (∀ q, wsum q es' = wsum q es + if q f t then d else 0) →
  (∀ q, q f t = true → F (wsum q es) = wsum q es + d) →
  caches_ok es' (adj_set adj f t (F (adj_at adj f t))) (<[f := F (cell out f)]> out)
    (<[t := F (cell inc t)]> inc).
Proof.
  intros [Hr Hc Ho Hi Ha Hout Hin] Hf Ht Hes HF. split.
  - unfold adj_set. by rewrite length_alter.
  - intros g row Hg. unfold adj_set in Hg. destruct (decide (f = g)) as [->|].
    + rewrite list_lookup_alter_eq in Hg. destruct (adj !! g) as [row'|] eqn:E; [|done].
      cbn in Hg. injection Hg as <-. rewrite length_insert. by eapply Hc.
    + rewrite list_lookup_alter_ne in Hg by done. by eapply Hc.
  - by rewrite length_insert.
  - by rewrite length_insert.
  - intros g u Hg Hu. rewrite adj_at_set by done. rewrite (Hes (ends_are g u)), <- Ha by done.
    unfold ends_are. destruct ((f =? g)%nat && (t =? u)%nat) eqn:E; [|lia].
    split_bool. subst g u. rewrite Ha by done. apply HF. unfold ends_are. by rewrite !Nat.eqb_refl.
  - intros g Hg. rewrite cell_insert by lia. rewrite (Hes (from_is g)), <- Hout by done.
    unfold from_is. destruct (f =? g)%nat eqn:E; [|lia]. split_bool. subst g.
    rewrite Hout by done. apply HF. unfold from_is. by rewrite Nat.eqb_refl.
  - intros u Hu. rewrite cell_insert by lia. rewrite (Hes (to_is u)), <- Hin by done.
    unfold to_is. destruct (t =? u)%nat eqn:E; [|lia]. split_bool. subst u.
    rewrite Hin by done. apply HF. unfold to_is. by rewrite Nat.eqb_refl.
Qed.

Lemma caches_ext es es' adj out inc :
  (∀ q, wsum q es' = wsum q es) → caches_ok es adj out inc → caches_ok es' adj out inc.
Proof.
  intros Hq [Hr Hc Ho Hi Ha Hout Hin]. split; [done|done|done|done| | |]; intros; rewrite Hq; auto.
Qed.

(* ------------------------------------------------------------------ *)
(** ** The linked lists *)

Fixpoint edge_chain (es : list Edge) (head : nat) (l : list nat) : Prop :=
  match l with
  | [] => head = INVALID
  | i :: l => head = i ∧ ∃ e, es !! i = Some e ∧ edge_chain es (ge_next_from e) l
  end.

(** [l] lists the active edges that leave node [f], each once. *)
Definition out_list (es : list Edge) (head f : nat) (l : list nat) : Prop :=
  edge_chain es head l ∧ NoDup l ∧
  ∀ i, i ∈ l ↔ ∃ e, es !! i = Some e ∧ ge_active e = true ∧ ge_from e = f.

Lemma chain_frame es es' head l :
  (∀ i e, i ∈ l → es !! i = Some e → ∃ e', es' !! i = Some e' ∧ ge_next_from e' = ge_next_from e) →
  edge_chain es head l → edge_chain es' head l.
Proof.
  revert head. induction l as [|i l IH]; intros head Hf; [done|]. intros [-> (e & He & Hc)].
  destruct (Hf i e ltac:(by left) He) as (e' & He' & Hn). split; [done|]. exists e'. split; [done|].
  rewrite Hn. apply IH; [|done]. intros j a Hj. apply Hf. by right.
Qed.

Lemma edge_chain_lookup es head l i : edge_chain es head l → i ∈ l → is_Some (es !! i).
Proof.
  revert head. induction l as [|j l IH]; intros head Hc Hi; [by apply not_elem_of_nil in Hi|].
  destruct Hc as [-> (e & He & Hc)]. apply elem_of_cons in Hi as [->|Hi]; [by exists e|by eapply IH].
Qed.

Lemma chain_short es head l : edge_chain es head l → NoDup l → (length l ≤ length es)%nat.
Proof.
  intros Hc Hn. rewrite <- (length_seq (length es) 0). apply submseteq_length, NoDup_submseteq; [done|].
  intros i Hi. apply elem_of_seq. destruct (edge_chain_lookup es head l i Hc Hi) as [e He].
  apply lookup_lt_Some in He. lia.
Qed.

(** The walk that unlinks [idx] from a list in which it is not the head. *)
Lemma unlink_walk_spec idx next l1 l2 fuel g cur :
  (length (cg_edges g) ≤ INVALID)%nat →
  edge_chain (cg_edges g) cur (l1 ++ idx :: l2) → edge_chain (cg_edges g) next l2 →
  NoDup (l1 ++ idx :: l2) → l1 ≠ [] → (length l1 < fuel)%nat →
  ∃ k, k ∈ l1 ∧
    let es' := alter (with_next next) k (cg_edges g) in
    unlink_walk fuel idx next cur g = Some (set_edges es' g) ∧ edge_chain es' cur (l1 ++ l2).
Proof.
  intros HE. revert fuel cur. induction l1 as [|i l1 IH]; intros fuel cur Hc Hn Hd Hl1 Hfuel; [done|].
  destruct fuel as [|fuel]; [cbn in Hfuel; lia|]. cbn [unlink_walk]. rewrite <- app_comm_cons in *.
  destruct Hc as [-> (e & He & Hc)]. pose proof (lookup_lt_Some _ _ _ He) as Hlt.
  rewrite (proj2 (Nat.eqb_neq i INVALID)) by lia. replace (edge_at g i) with e by (unfold edge_at; by rewrite He).
  apply NoDup_cons in Hd as [Hi Hd].
  destruct l1 as [|j l1].
  - cbn [app] in *. destruct Hc as [Hne (e2 & He2 & Hc2)]. rewrite Hne, Nat.eqb_refl.
    exists i. split; [by left|]. split; [done|]. cbn [app]. split; [done|].
    exists (with_next next e). split; [by rewrite list_lookup_alter_eq, He|].
    cbn [with_next ge_next_from].
    eapply chain_frame; [|exact Hn]. intros a x Ha Hx. exists x. split; [|done].
    rewrite list_lookup_alter_ne; [done|]. intros ->. apply Hi. by right.
  - assert (ge_next_from e = j) as Hj by by destruct Hc as [? _].
    rewrite Hj in Hc |- *.
    assert ((j =? idx)%nat = false) as ->.
    { apply Nat.eqb_neq. intros ->. rewrite <- app_comm_cons in Hd. apply NoDup_cons in Hd as [Hd _].
      apply Hd, elem_of_app. right. by left. }
    destruct (IH fuel j Hc Hn Hd) as (k & Hk & Hw & Hc'); [done|cbn in *; lia|].
    exists k. split; [by right|]. split; [done|]. rewrite <- app_comm_cons. split; [done|].
    exists e. split; [|by rewrite Hj]. rewrite list_lookup_alter_ne; [done|].
    intros ->. apply Hi. apply elem_of_app. by left.
Qed.

(* ------------------------------------------------------------------ *)
(** ** The invariant *)

Record graph_inv (g : CoherenceGraph) : Prop := {
  gi_nodes : (length (cg_nodes g) ≤ ADJ_DIM)%nat;
  gi_edges : (length (cg_edges g) ≤ INVALID)%nat;
  gi_uniq : slots_ok gn_partition (cg_nodes g);
  gi_ends i e : cg_edges g !! i = Some e → ge_active e = true →
    is_Some (gn_partition (gnode_at g (ge_from e))) ∧ is_Some (gn_partition (gnode_at g (ge_to e)));
  gi_weights : weights_ok (cg_edges g);
  gi_total : wsum any (cg_edges g) ≤ u64_max;
  gi_caches : caches_ok (cg_edges g) (cg_adj_matrix g) (cg_cached_outgoing g) (cg_cached_incoming g);
  gi_lists f : (f < length (cg_nodes g))%nat →
    ∃ l, out_list (cg_edges g) (gn_first_edge (gnode_at g f)) f l;
  gi_ncount : cg_node_count g = count_by (λ n, is_some (gn_partition n)) (cg_nodes g);
  gi_ecount : cg_edge_count g = count_by ge_active (cg_edges g);
}.

Lemma occupied_bound g i :
  is_Some (gn_partition (gnode_at g i)) → (i < length (cg_nodes g))%nat.
Proof.
  unfold gnode_at. destruct (cg_nodes g !! i) eqn:E; [by apply lookup_lt_Some in E|]. cbn. by intros [? ?].
Qed.

Lemma gi_end_bounds g i e :
  graph_inv g → cg_edges g !! i = Some e → ge_active e = true →
  (ge_from e < length (cg_nodes g))%nat ∧ (ge_to e < length (cg_nodes g))%nat ∧
  (ge_from e < ADJ_DIM)%nat ∧ (ge_to e < ADJ_DIM)%nat.
Proof.
  intros Hg Hi Ha. destruct (gi_ends g Hg i e Hi Ha) as [H1%occupied_bound H2%occupied_bound].
  pose proof (gi_nodes g Hg). lia.
Qed.

Lemma node_at_lookup g i : (i < length (cg_nodes g))%nat → cg_nodes g !! i = Some (gnode_at g i).
Proof.
  intros Hi. unfold gnode_at. destruct (cg_nodes g !! i) eqn:E; [done|]. apply lookup_ge_None_1 in E. lia.
Qed.

(** [find_node] finds the one slot of a partition, whatever the index holds. *)
Lemma find_node_spec g p i :
  graph_inv g → find_node p g = Some i ↔ gn_partition (gnode_at g i) = Some p.
Proof.
  intros Hg. assert (∀ n, has_partition p n = true ↔ gn_partition n = Some p) as Hp
    by (intros; apply bool_decide_eq_true).
  assert (∀ i, gn_partition (gnode_at g i) = Some p → position (has_partition p) (cg_nodes g) = Some i) as Hpos.
  { intros j Hj. assert (j < length (cg_nodes g))%nat as Hlt by (apply occupied_bound; by rewrite Hj).
    apply (position_unique _ _ j (gnode_at g j)); [by apply node_at_lookup|by apply Hp|].
    intros k y Hk Hy%Hp. by eapply (gi_uniq g Hg k j y (gnode_at g j) p); [|apply node_at_lookup| |]. }
  assert (position (has_partition p) (cg_nodes g) = Some i → gn_partition (gnode_at g i) = Some p) as Hinv.
  { intros (n & Hn & Hh)%position_lookup. apply Hp in Hh. unfold gnode_at. by rewrite Hn. }
  unfold find_node. destruct (default None _) as [j|]; [|split; auto].
  destruct ((j <? length (cg_nodes g))%nat && has_partition p (gnode_at g j)) eqn:E; [|split; auto].
  apply andb_true_iff in E as [_ Ej%Hp]. split; [by intros [= <-]|].
  intros Hi. apply Hpos in Hi, Ej. congruence.
Qed.

Lemma find_node_None g p :
  graph_inv g → find_node p g = None → ∀ i, gn_partition (gnode_at g i) ≠ Some p.
Proof. intros Hg Hf i Hi. apply (find_node_spec g p i Hg) in Hi. congruence. Qed.

(* ------------------------------------------------------------------ *)
(** ** Updates keep the invariant *)

(** The edge an index names: endpoints and weight, when active. *)
Definition edge_view (g : CoherenceGraph) (i : nat) : option (nat * nat * Z) :=
  match cg_edges g !! i with
  | Some e => if ge_active e then Some (ge_from e, ge_to e, ge_weight e) else None
  | None => None
  end.

Definition node_view (g : CoherenceGraph) (i : nat) : option PartitionId := gn_partition (gnode_at g i).

(** Two edge arrays with the same links and endpoints. *)
Definition same_links (es es' : list Edge) : Prop :=
  ∀ i, (λ e, (ge_from e, ge_to e, ge_next_from e, ge_active e)) <$> es !! i =
       (λ e, (ge_from e, ge_to e, ge_next_from e, ge_active e)) <$> es' !! i.

Lemma same_links_lookup es es' i e :
  same_links es es' → es !! i = Some e →
  ∃ e', es' !! i = Some e' ∧ ge_from e' = ge_from e ∧ ge_to e' = ge_to e ∧
        ge_next_from e' = ge_next_from e ∧ ge_active e' = ge_active e.
Proof.
  intros Hs He. specialize (Hs i). rewrite He in Hs. destruct (es' !! i) as [e'|]; [|done].
  cbn in Hs. injection Hs as -> -> -> ->. by exists e'.
Qed.

Lemma same_links_sym es es' : same_links es es' → same_links es' es.
Proof. intros H i. by rewrite H. Qed.

Lemma out_list_same es es' h f l : same_links es es' → out_list es h f l → out_list es' h f l.
Proof.
  intros Hs (Hc & Hn & Hl). split_and!; [|done|].
  - eapply chain_frame; [|exact Hc]. intros i e _ He.
    destruct (same_links_lookup _ _ _ _ Hs He) as (e' & ? & ? & ? & ? & ?). by exists e'.
  - intros i. rewrite Hl. split; intros (e & He & Ha & Hf).
    + destruct (same_links_lookup _ _ _ _ Hs He) as (e' & ? & ? & ? & ? & ?). exists e'. by split_and!; [|congruence..].
    + destruct (same_links_lookup _ _ _ _ (same_links_sym _ _ Hs) He) as (e' & ? & ? & ? & ? & ?).
      exists e'. by split_and!; [|congruence..].
Qed.

Lemma count_by_same {A} (p : A → bool) l i x y :
  l !! i = Some x → p x = p y → count_by p (<[i := y]> l) = count_by p l.
Proof. intros Hi Hp. pose proof (count_by_insert p l i x y Hi). rewrite Hp in *. lia. Qed.

(** Changing the weight of an edge, the caches following. *)
Lemma reweigh_inv g i e w F :
  graph_inv g → cg_edges g !! i = Some e → ge_active e = true → 0 ≤ w →
  wsum any (cg_edges g) - ge_weight e + w ≤ u64_max →
  (∀ q, q (ge_from e) (ge_to e) = true →
     F (wsum q (cg_edges g)) = wsum q (cg_edges g) + (w - ge_weight e)) →
  let g' := update_caches (ge_from e) (ge_to e) F (set_edges (<[i := with_weight w e]> (cg_edges g)) g) in
  graph_inv g' ∧ cg_nodes g' = cg_nodes g ∧
  (∀ j, edge_view g' j = if (j =? i)%nat then Some (ge_from e, ge_to e, w) else edge_view g j) ∧
  wsum any (cg_edges g') = wsum any (cg_edges g) + (w - ge_weight e).
Proof.
  intros Hg Hi Ha Hw Hmax HF g'. destruct (gi_end_bounds g i e Hg Hi Ha) as (_ & _ & Hf & Ht).
  assert (∀ q, wsum q (<[i := with_weight w e]> (cg_edges g)) =
            wsum q (cg_edges g) + if q (ge_from e) (ge_to e) then w - ge_weight e else 0) as Hsum.
  { intros q. rewrite (wsum_insert q _ i e) by done. unfold weight_if. cbn. rewrite Ha. cbn [andb].
    destruct (q _ _); lia. }
  assert (same_links (cg_edges g) (<[i := with_weight w e]> (cg_edges g))) as Hsl.
  { intros j. destruct (decide (j = i)) as [->|]; [|by rewrite list_lookup_insert_ne].
    rewrite list_lookup_insert_eq, Hi by (by eapply lookup_lt_Some). done. }
  split_and!; [|done| |apply (Hsum any)].
  - destruct Hg as [? ? ? Hends Hwt ? Hca Hli ? Hec].
    split; cbn [cg_nodes cg_edges cg_adj_matrix cg_cached_outgoing cg_cached_incoming cg_node_count
                cg_edge_count update_caches set_edges g']; try done.
    + by rewrite length_insert.
    + intros j e' Hj Ha'. destruct (same_links_lookup _ _ _ _ (same_links_sym _ _ Hsl) Hj) as (e0 & H0 & <- & <- & _ & Hact).
      eapply Hends; [done|congruence].
    + intros j e' [(-> & <- & _)|[_ Hj]]%list_lookup_insert_Some; [done|by eapply Hwt].
    + rewrite Hsum. unfold any at 2. lia.
    + by eapply caches_update.
    + intros f Hlt. destruct (Hli f Hlt) as [l Hl]. exists l. by eapply out_list_same.
    + rewrite Hec. symmetry. by eapply count_by_same.
  - intros j. unfold edge_view. cbn. destruct (j =? i)%nat eqn:E; split_bool.
    + subst j. rewrite list_lookup_insert_eq by (by eapply lookup_lt_Some). cbn. by rewrite Ha.
    + by rewrite list_lookup_insert_ne.
Qed.

Lemma live_edge_spec i g :
  live_edge i g = true ↔ ∃ e, cg_edges g !! i = Some e ∧ ge_active e = true ∧ edge_at g i = e.
Proof.
  unfold live_edge, edge_at. rewrite andb_true_iff, Nat.ltb_lt. split.
  - intros [Hlt Ha]. destruct (cg_edges g !! i) as [e|] eqn:E; [by exists e|].
    apply lookup_ge_None_1 in E. lia.
  - intros (e & He & Ha & _). rewrite He. split; [by eapply lookup_lt_Some|done].
Qed.

Lemma live_edge_false i g : live_edge i g = false ↔ edge_view g i = None.
Proof.
  unfold live_edge, edge_view, edge_at. rewrite andb_false_iff, Nat.ltb_ge. split.
  - intros [H|H]; [by rewrite lookup_ge_None_2|].
    destruct (cg_edges g !! i); [cbn in H; by rewrite H|done].
  - intros H. destruct (cg_edges g !! i) as [e|] eqn:E; [|left; by apply lookup_ge_None_1].
    right. cbn. by destruct (ge_active e).
Qed.

Lemma update_weight_spec g i delta :
  graph_inv g → wsum any (cg_edges g) + Z.max 0 delta ≤ u64_max →
  match update_weight i delta g with
  | (Ok _, g') =>
      ∃ f t w, edge_view g i = Some (f, t, w) ∧ graph_inv g' ∧ cg_nodes g' = cg_nodes g ∧
        (∀ j, edge_view g' j = if (j =? i)%nat then Some (f, t, Z.max 0 (w + delta)) else edge_view g j) ∧
        wsum any (cg_edges g') ≤ wsum any (cg_edges g) + Z.max 0 delta
  | (Err e, g') => e = EdgeNotFound ∧ g' = g ∧ edge_view g i = None
  end.
Proof.
  intros Hg Hmax. unfold update_weight. destruct (live_edge i g) eqn:El; cbn [negb].
  2:{ by apply live_edge_false in El. }
  apply live_edge_spec in El as (e & Hi & Ha & ->).
  assert (0 ≤ ge_weight e) as Hw0 by by eapply (gi_weights g Hg).
  assert (∀ q, q (ge_from e) (ge_to e) = true →
            ge_weight e ≤ wsum q (cg_edges g) ≤ wsum any (cg_edges g)) as Hq.
  { intros q Hq. pose proof (wsum_ge q _ i e (gi_weights g Hg) Hi) as H. unfold weight_if in H.
    rewrite Ha, Hq in H. pose proof (wsum_bounds q _ (gi_weights g Hg)). cbn in H. lia. }
  pose proof (Hq any eq_refl) as Hany.
  assert ((if 0 <=? delta then sat_add u64_max (ge_weight e) delta else sat_sub (ge_weight e) (- delta)) =
          Z.max 0 (ge_weight e + delta)) as ->.
  { unfold sat_add, sat_sub. destruct (0 <=? delta) eqn:E; split_bool; lia. }
  destruct (reweigh_inv g i e (Z.max 0 (ge_weight e + delta))
              (λ x, add64 (Z.max 0 (ge_weight e + delta)) (sub64 (ge_weight e) x)) Hg Hi Ha)
    as (H1 & H2 & H3 & H4); [lia|lia| |].
  - intros q Hqt. specialize (Hq q Hqt). unfold add64, sub64, sat_add, sat_sub. lia.
  - exists (ge_from e), (ge_to e), (ge_weight e). split_and!; [|done|done|done|].
    + unfold edge_view. by rewrite Hi, Ha.
    + etransitivity; [apply Z.eq_le_incl; exact H4|]. lia.
Qed.

Lemma node_at_set_first f e g j :
  gnode_at (set_first_edge f e g) j =
    if (j =? f)%nat && (j <? length (cg_nodes g))%nat then mkNode (gn_partition (gnode_at g j)) e
    else gnode_at g j.
Proof.
  unfold gnode_at, set_first_edge. cbn [cg_nodes set_nodes].
  destruct (j =? f)%nat eqn:E; split_bool; cbn [andb].
  - subst j. rewrite list_lookup_alter_eq. destruct (cg_nodes g !! f) eqn:En; simpl.
    + by rewrite (proj2 (Nat.ltb_lt _ _)) by (by eapply lookup_lt_Some).
    + apply lookup_ge_None_1 in En. by rewrite (proj2 (Nat.ltb_ge _ _)) by lia.
  - by rewrite list_lookup_alter_ne.
Qed.

Lemma node_view_set_first f e g j : node_view (set_first_edge f e g) j = node_view g j.
Proof. unfold node_view. rewrite node_at_set_first. by destruct (_ && _). Qed.

Lemma set_first_uniq f e g :
  slots_ok gn_partition (cg_nodes g) → slots_ok gn_partition (cg_nodes (set_first_edge f e g)).
Proof.
  intros Hok i j s t k Hi Hj Hs Ht. cbn in Hi, Hj.
  assert (∀ a n, alter (λ n, mkNode (gn_partition n) e) f (cg_nodes g) !! a = Some n →
            ∃ n0, cg_nodes g !! a = Some n0 ∧ gn_partition n0 = gn_partition n) as Hl.
  { intros a n Ha. destruct (decide (f = a)) as [->|].
    - rewrite list_lookup_alter_eq in Ha. destruct (cg_nodes g !! a) as [n0|]; [|done].
      cbn in Ha. injection Ha as <-. by exists n0.
    - rewrite list_lookup_alter_ne in Ha by done. by exists n. }
  destruct (Hl i s Hi) as (s0 & Hi0 & Hs0), (Hl j t Hj) as (t0 & Hj0 & Ht0).
  eapply (Hok i j s0 t0 k); congruence.
Qed.

Lemma count_by_alter_same {A} (p : A → bool) (f : A → A) l i :
  (∀ x, p (f x) = p x) → count_by p (alter f i l) = count_by p l.
Proof.
  intros Hp. revert i. induction l as [|a l IH]; intros [|i]; simpl; [done|done|by rewrite Hp|].
  f_equal. apply IH.
Qed.

Lemma edge_view_Some g i e :
  cg_edges g !! i = Some e → ge_active e = true →
  edge_view g i = Some (ge_from e, ge_to e, ge_weight e).
Proof. intros Hi Ha. unfold edge_view. by rewrite Hi, Ha. Qed.

Lemma edge_view_inv g i f t w :
  edge_view g i = Some (f, t, w) →
  ∃ e, cg_edges g !! i = Some e ∧ ge_active e = true ∧ ge_from e = f ∧ ge_to e = t ∧ ge_weight e = w.
Proof.
  unfold edge_view. destruct (cg_edges g !! i) as [e|]; [|done].
  destruct (ge_active e) eqn:Ha; [|done]. intros [= <- <- <-]. by exists e.
Qed.

Lemma add_node_spec g p :
  graph_inv g →
  match add_node p g with
  | (Ok i, g') =>
      graph_inv g' ∧ node_view g i = None ∧ cg_edges g' = cg_edges g ∧
      length (cg_nodes g') = length (cg_nodes g) ∧
      (∀ j, node_view g' j = if (j =? i)%nat then Some p else node_view g j)
  | (Err e, g') =>
      g' = g ∧
      ((e = DuplicateNode ∧ ∃ i, node_view g i = Some p) ∨
       (e = NodeCapacityExhausted ∧ (∀ i, node_view g i ≠ Some p) ∧
          ∀ i, (i < length (cg_nodes g))%nat → node_view g i ≠ None))
  end.
Proof.
  intros Hg. unfold add_node. destruct (find_node p g) as [i|] eqn:Ef; cbn [is_some].
  { apply find_node_spec in Ef; [|done]. split; [done|]. left. split; [done|]. by exists i. }
  pose proof (find_node_None g p Hg Ef) as Hno.
  destruct (position _ (cg_nodes g)) as [i|] eqn:Ep.
  2:{ rewrite position_None in Ep. split; [done|]. right. split_and!; [done|done|]. intros i Hi Hn.
      specialize (Ep i (gnode_at g i) (node_at_lookup g i Hi)).
      apply bool_decide_eq_false in Ep. by apply Ep. }
  apply position_lookup in Ep as (n & Hn & Hfree). apply bool_decide_eq_true in Hfree.
  pose proof (lookup_lt_Some _ _ _ Hn) as Hlt.
  assert (gnode_at g i = n) as Hni by (unfold gnode_at; by rewrite Hn).
  set (g' := set_id_index _ _).
  assert (∀ j, gnode_at g' j = if (j =? i)%nat then mkNode (Some p) INVALID else gnode_at g j) as Hat.
  { intros j. unfold gnode_at, g'. cbn. destruct (j =? i)%nat eqn:E; split_bool.
    - subst j. by rewrite list_lookup_insert_eq.
    - by rewrite list_lookup_insert_ne. }
  assert (∀ j, node_view g' j = if (j =? i)%nat then Some p else node_view g j) as Hnv.
  { intros j. unfold node_view. rewrite Hat. by destruct (j =? i)%nat. }
  assert (node_view g i = None) as Hvi by (unfold node_view; by rewrite Hni).
  split_and!; [|done|done|by unfold g'; cbn; rewrite length_insert|done].
  destruct Hg as [? ? Hu Hends ? ? Hca Hli Hnc Hec].
  split; try done.
  - unfold g'. cbn. by rewrite length_insert.
  - apply slots_ok_insert; [done|]. intros k j t [= <-] Hj Ht.
    exfalso. apply (Hno j). unfold gnode_at. by rewrite Hj.
  - intros j e Hj Ha. rewrite !Hat. destruct (Hends j e Hj Ha) as [H1 H2].
    destruct (ge_from e =? i)%nat, (ge_to e =? i)%nat; cbn; eauto.
  - intros f Hf. unfold g' in Hf. cbn in Hf. rewrite length_insert in Hf.
    change (cg_edges g') with (cg_edges g). rewrite Hat. destruct (f =? i)%nat eqn:E; split_bool; [|by apply Hli].
    subst f. exists []. split_and!; [done|constructor|]. intros j. split; [by intros ?%not_elem_of_nil|].
    intros (e & He & Ha & Hfrom). destruct (Hends j e He Ha) as [[x H1] _].
    rewrite Hfrom, Hni, Hfree in H1. done.
  - unfold g'. cbn. rewrite Hnc. pose proof (count_by_insert (λ n, is_some (gn_partition n)) _ i n
      (mkNode (Some p) INVALID) Hn) as H. cbn in H. rewrite Hfree in H. cbn in H. lia.
Qed.

Lemma add_edge_spec g from to w :
  graph_inv g → 0 ≤ w → wsum any (cg_edges g) + w ≤ u64_max →
  match add_edge from to w g with
  | (Ok i, g') =>
      ∃ f t, node_view g f = Some from ∧ node_view g t = Some to ∧ edge_view g i = None ∧
        graph_inv g' ∧ (∀ j, node_view g' j = node_view g j) ∧
        length (cg_nodes g') = length (cg_nodes g) ∧
        (∀ j, edge_view g' j = if (j =? i)%nat then Some (f, t, w) else edge_view g j) ∧
        wsum any (cg_edges g') = wsum any (cg_edges g) + w
  | (Err e, g') =>
      g' = g ∧
      ((e = NodeNotFound ∧ ((∀ i, node_view g i ≠ Some from) ∨ (∀ i, node_view g i ≠ Some to))) ∨
       (e = EdgeCapacityExhausted ∧ ∀ i, (i < length (cg_edges g))%nat → edge_view g i ≠ None))
  end.
Proof.
  intros Hg Hw Hmax. unfold add_edge.
  destruct (find_node from g) as [f|] eqn:Ef.
  2:{ split; [done|]. left. split; [done|]. left. by apply find_node_None. }
  destruct (find_node to g) as [t|] eqn:Et.
  2:{ split; [done|]. left. split; [done|]. right. by apply find_node_None. }
  apply find_node_spec in Ef, Et; [|done..]. unfold alloc_edge.
  destruct (position _ (cg_edges g)) as [i|] eqn:Ep; cbn [ok_or].
  2:{ split; [done|]. right. split; [done|]. rewrite position_None in Ep. intros i Hi.
      destruct (lookup_lt_is_Some_2 _ _ Hi) as [e He]. specialize (Ep i e He).
      apply negb_false_iff in Ep. by rewrite (edge_view_Some g i e). }
  apply position_lookup in Ep as (e0 & Hi & Hfree). apply negb_true_iff in Hfree.
  pose proof (lookup_lt_Some _ _ _ Hi) as Hlt.
  assert (f < length (cg_nodes g))%nat as HfN by (apply occupied_bound; by rewrite Ef).
  assert (t < length (cg_nodes g))%nat as HtN by (apply occupied_bound; by rewrite Et).
  pose proof (gi_nodes g Hg) as HN.
  set (e := mkEdge f t w (gn_first_edge (gnode_at g f)) true).
  set (es' := <[i := e]> (cg_edges g)). set (g' := update_caches _ _ _ _).
  assert (∀ j, gnode_at g' j = gnode_at (set_first_edge f i g) j) as Hat by done.
  assert (∀ j, node_view g' j = node_view g j) as Hnv.
  { intros j. unfold node_view. rewrite Hat. apply (node_view_set_first f i g j). }
  assert (∀ q, wsum q es' = wsum q (cg_edges g) + if q f t then w else 0) as Hsum.
  { intros q. unfold es'. rewrite (wsum_insert q _ i e0) by done. unfold weight_if. rewrite Hfree. cbn. lia. }
  assert (∀ j, edge_view g' j = if (j =? i)%nat then Some (f, t, w) else edge_view g j) as Hev.
  { intros j. unfold edge_view. change (cg_edges g') with es'. unfold es'.
    destruct (j =? i)%nat eqn:E; split_bool; [subst j; by rewrite list_lookup_insert_eq|].
    by rewrite list_lookup_insert_ne. }
  assert (length (cg_nodes g') = length (cg_nodes g)) as HNl
    by (unfold g'; cbn; by rewrite length_alter).
  exists f, t. split_and!; [done|done|by unfold edge_view; rewrite Hi, Hfree| |done|done|done|apply (Hsum any)].
  pose proof (set_first_uniq f i g (gi_uniq g Hg)) as Huq.
  destruct Hg as [? HE Hu Hends Hwt ? Hca Hli Hnc Hec]. split.
  - by rewrite HNl.
  - change (cg_edges g') with es'. unfold es'. by rewrite length_insert.
  - exact Huq.
  - intros j e' Hj Ha. fold (node_view g' (ge_from e')). fold (node_view g' (ge_to e')). rewrite !Hnv.
    change (cg_edges g') with es' in Hj. unfold es' in Hj.
    apply list_lookup_insert_Some in Hj as [(-> & <- & _)|[_ Hj]].
    + unfold node_view. cbn. rewrite Ef, Et. eauto.
    + unfold node_view. by eapply Hends.
  - intros j e' Hj. change (cg_edges g') with es' in Hj. unfold es' in Hj.
    apply list_lookup_insert_Some in Hj as [(-> & <- & _)|[_ Hj]]; [done|by eapply Hwt].
  - change (cg_edges g') with es'. rewrite Hsum. cbn. lia.
  - change (cg_edges g') with es'. unfold g'.
    cbn [cg_adj_matrix cg_cached_outgoing cg_cached_incoming update_caches].
    apply (caches_update (cg_edges g) es' _ _ _ f t w (add64 w)); [done|lia|lia|done|].
    intros q Hq. pose proof (wsum_bounds q (cg_edges g) Hwt). unfold add64, sat_add. lia.
  - intros h Hh. rewrite HNl in Hh. change (cg_edges g') with es'. rewrite Hat, node_at_set_first.
    destruct (Hli h Hh) as (l & Hc & Hd & Hl). rewrite (proj2 (Nat.ltb_lt _ _)), andb_true_r by done.
    assert (i ∉ l) as Hil.
    { intros Hin. apply Hl in Hin as (x & Hx & Hax & _). congruence. }
    assert (edge_chain es' (gn_first_edge (gnode_at g h)) l) as Hc'.
    { eapply chain_frame; [|exact Hc]. intros a x Ha Hx. exists x. split; [|done].
      unfold es'. rewrite list_lookup_insert_ne; [done|]. by intros ->. }
    destruct (h =? f)%nat eqn:E; split_bool.
    + subst h. exists (i :: l). cbn [gn_first_edge]. split_and!.
      * split; [done|]. exists e. split; [|done]. unfold es'. by apply list_lookup_insert_eq.
      * by constructor.
      * intros j. rewrite elem_of_cons, Hl. unfold es'. split.
        -- intros [->|(x & Hx & Hax & Hfx)]; [exists e; by rewrite list_lookup_insert_eq|].
           exists x. rewrite list_lookup_insert_ne by (intros ->; congruence). done.
        -- intros (x & Hx & Hax & Hfx).
           apply list_lookup_insert_Some in Hx as [(-> & <- & _)|[_ Hx]]; [by left|].
           right. by exists x.
    + exists l. split_and!; [done|done|]. intros j. rewrite Hl. unfold es'. split.
      * intros (x & Hx & Hax & Hfx). exists x. rewrite list_lookup_insert_ne by (intros ->; congruence). done.
      * intros (x & Hx & Hax & Hfx).
        apply list_lookup_insert_Some in Hx as [(-> & <- & _)|[_ Hx]]; [by destruct E|by exists x].
  - unfold g'. cbn. rewrite Hnc. symmetry. by apply count_by_alter_same.
  - change (cg_edges g') with es'. change (cg_edge_count g') with (cg_edge_count g + 1)%nat.
    rewrite Hec. pose proof (count_by_insert ge_active (cg_edges g) i e0 e Hi) as H. fold es' in H.
    rewrite Hfree in H. change (ge_active e) with true in H. cbn iota in H. lia.
Qed.

(** The array after unlinking [idx]: the cells outside [ks] are untouched, the
    others changed their successor only. *)
Definition relinked (ks : list nat) (es es' : list Edge) : Prop :=
  length es' = length es ∧
  ∀ j x, es' !! j = Some x → ∃ y, es !! j = Some y ∧ ge_from x = ge_from y ∧ ge_to x = ge_to y ∧
    ge_weight x = ge_weight y ∧ ge_active x = ge_active y ∧ (j ∉ ks → x = y).

Lemma relinked_refl ks es : relinked ks es es.
Proof. split; [done|]. intros j x Hx. by exists x. Qed.

Lemma relinked_next ks es k n : k ∈ ks → relinked ks es (alter (with_next n) k es).
Proof.
  intros Hk. split; [by rewrite length_alter|]. intros j x Hx. destruct (decide (k = j)) as [->|Hkj].
  - rewrite list_lookup_alter_eq in Hx. destruct (es !! j) as [y|] eqn:Ey; [|done].
    cbn in Hx. injection Hx as <-. exists y. by split_and!.
  - rewrite list_lookup_alter_ne in Hx by done. by exists x.
Qed.

Lemma relinked_weights ks es es' q :
  relinked ks es es' →
  wsum q es' = wsum q es ∧ count_by ge_active es' = count_by ge_active es.
Proof.
  intros [Hlen Hes].
  assert (∀ j x, es' !! j = Some x → ∃ y, es !! j = Some y ∧
            weight_if q x = weight_if q y ∧ ge_active x = ge_active y) as H.
  { intros j x Hx. destruct (Hes j x Hx) as (y & Hy & H1 & H2 & H3 & H4 & _). exists y.
    split_and!; [done| |done]. unfold weight_if. by rewrite H1, H2, H3, H4. }
  clear Hes. revert es Hlen H. induction es' as [|b es' IH]; intros [|a es] Hlen H; try done. cbn.
  destruct (H O b eq_refl) as (y & Hy & H1 & H2). injection Hy as <-.
  destruct (IH es) as [-> ->]; [by injection Hlen|intros j x; apply (H (S j))|].
  by rewrite H1, H2.
Qed.

Lemma relinked_lookup ks es es' j y :
  relinked ks es es' → es !! j = Some y → j ∉ ks → es' !! j = Some y.
Proof.
  intros [Hlen Hes] Hy Hj. destruct (lookup_lt_is_Some_2 es' j) as [x Hx];
    [rewrite Hlen; by eapply lookup_lt_Some|].
  destruct (Hes j x Hx) as (y' & Hy' & _ & _ & _ & _ & Heq). rewrite Hy in Hy'. injection Hy' as <-.
  by rewrite <- Heq.
Qed.

(** The tail of a edge_chain after an element of it. *)
Lemma chain_tail es l1 idx l2 head e :
  edge_chain es head (l1 ++ idx :: l2) → es !! idx = Some e → edge_chain es (ge_next_from e) l2.
Proof.
  intros Hc Hi. revert head Hc. induction l1 as [|b l IH]; intros h; cbn.
  - intros [_ (e' & He' & Hc)]. rewrite Hi in He'. by injection He' as <-.
  - intros [_ (e' & _ & Hc)]. by eapply IH.
Qed.

(** What is left after [idx] is edge_unlinked from the list of node [f]. *)
Record edge_unlinked (g g2 : CoherenceGraph) (f : nat) (ks l : list nat) : Prop := {
  un_edges : relinked ks (cg_edges g) (cg_edges g2);
  un_rest : g2 = set_edges (cg_edges g2) (set_nodes (cg_nodes g2) g);
  un_view j : node_view g2 j = node_view g j;
  un_len : length (cg_nodes g2) = length (cg_nodes g);
  un_uniq : slots_ok gn_partition (cg_nodes g2);
  un_other h : h ≠ f → gnode_at g2 h = gnode_at g h;
  un_chain : edge_chain (cg_edges g2) (gn_first_edge (gnode_at g2 f)) l;
  un_count : count_by (λ n, is_some (gn_partition n)) (cg_nodes g2) =
             count_by (λ n, is_some (gn_partition n)) (cg_nodes g);
}.

Lemma unlink_spec g f idx e l1 l2 :
  (f < length (cg_nodes g))%nat → (length (cg_edges g) ≤ INVALID)%nat →
  slots_ok gn_partition (cg_nodes g) → cg_edges g !! idx = Some e →
  edge_chain (cg_edges g) (gn_first_edge (gnode_at g f)) (l1 ++ idx :: l2) → NoDup (l1 ++ idx :: l2) →
  ∃ g2,
    (if (gn_first_edge (gnode_at g f) =? idx)%nat then Some (set_first_edge f (ge_next_from e) g)
     else unlink_walk (walk_fuel g) idx (ge_next_from e) (gn_first_edge (gnode_at g f)) g) = Some g2 ∧
    edge_unlinked g g2 f l1 (l1 ++ l2).
Proof.
  intros HfN HE Hok Hi Hc Hd. pose proof (chain_tail _ _ _ _ _ _ Hc Hi) as Htail.
  destruct l1 as [|a l1].
  - cbn [app] in *. destruct Hc as [Hfirst _]. rewrite Hfirst, Nat.eqb_refl.
    exists (set_first_edge f (ge_next_from e) g). split; [done|]. split; try done.
    + apply relinked_refl.
    + intros j. apply node_view_set_first.
    + cbn. by rewrite length_alter.
    + by apply set_first_uniq.
    + intros h Hh. rewrite node_at_set_first. by rewrite (proj2 (Nat.eqb_neq _ _)).
    + rewrite node_at_set_first, Nat.eqb_refl. by rewrite (proj2 (Nat.ltb_lt _ _)).
    + cbn. by apply count_by_alter_same.
  - destruct (unlink_walk_spec idx (ge_next_from e) (a :: l1) l2 (walk_fuel g) g
                (gn_first_edge (gnode_at g f))) as (k & Hk & Hw & Hch); try done.
    + unfold walk_fuel. pose proof (chain_short _ _ _ Hc Hd) as Hs.
      rewrite length_app in Hs. cbn in *. lia.
    + assert ((gn_first_edge (gnode_at g f) =? idx)%nat = false) as ->.
      { apply Nat.eqb_neq. intros Heq. rewrite <- app_comm_cons in Hc, Hd. destruct Hc as [Hc _].
        apply NoDup_cons in Hd as [Hd _]. apply Hd, elem_of_app. right. rewrite <- Hc, Heq. by left. }
      eexists. split; [exact Hw|]. split; try done. by apply relinked_next.
Qed.

(** Removing one edge: the walk ends, the edge leaves its list and the caches. *)
Section remove_edge.
Context (g g2 : CoherenceGraph) (idx : nat) (e : Edge) (l1 l2 : list nat).
Context (Hg : graph_inv g) (Hi : cg_edges g !! idx = Some e) (Ha : ge_active e = true).
Notation f := (ge_from e).
Notation t := (ge_to e).
Notation g1 := (update_caches f t (sub64 (ge_weight e)) g).
Context (Hl : out_list (cg_edges g) (gn_first_edge (gnode_at g f)) f (l1 ++ idx :: l2)).
Context (Hu : edge_unlinked g1 g2 f l1 (l1 ++ l2)).
Notation es3 := (alter deactivate idx (cg_edges g2)).
Notation g' := (set_counts (cg_node_count g2) (cg_edge_count g2 - 1) (set_edges es3 g2)).

Lemma idx_notin : idx ∉ l1 ∧ idx ∉ l2 ∧ (∀ j, j ∈ l1 → j ∉ l2) ∧ NoDup l1 ∧ NoDup l2.
Proof.
  destruct Hl as (_ & Hd & _). apply NoDup_app in Hd as (Hd1 & Hd12 & Hd2).
  apply NoDup_cons in Hd2 as [Hd2 Hd2']. split_and!; try done.
  - intros H. apply (Hd12 _ H). by left.
  - intros j H H2. apply (Hd12 _ H). by right.
Qed.

Lemma cut_idx : cg_edges g2 !! idx = Some e.
Proof.
  destruct idx_notin as (H1 & _). by eapply relinked_lookup; [apply (un_edges _ _ _ _ _ Hu)| |].
Qed.

Lemma cut_cell j x :
  es3 !! j = Some x → ∃ y, cg_edges g !! j = Some y ∧ ge_from x = ge_from y ∧
    ge_to x = ge_to y ∧ ge_weight x = ge_weight y ∧
    ge_active x = (if (j =? idx)%nat then false else ge_active y).
Proof.
  intros Hx. destruct (decide (idx = j)) as [<-|Hij].
  - rewrite list_lookup_alter_eq, cut_idx in Hx. cbn in Hx. injection Hx as <-.
    exists e. by rewrite Nat.eqb_refl.
  - rewrite list_lookup_alter_ne in Hx by done.
    destruct (proj2 (un_edges _ _ _ _ _ Hu) j x Hx) as (y & ? & ? & ? & ? & ? & _).
    exists y. by rewrite (proj2 (Nat.eqb_neq j idx)) by done.
Qed.

Lemma cut_length : length es3 = length (cg_edges g).
Proof. rewrite length_alter. apply (un_edges _ _ _ _ _ Hu). Qed.

Lemma cut_cell' j y :
  cg_edges g !! j = Some y → ∃ x, es3 !! j = Some x ∧ ge_from x = ge_from y ∧
    ge_active x = (if (j =? idx)%nat then false else ge_active y).
Proof.
  intros Hy. destruct (lookup_lt_is_Some_2 es3 j) as [x Hx];
    [rewrite cut_length; by eapply lookup_lt_Some|].
  destruct (cut_cell j x Hx) as (y' & Hy' & H1 & _ & _ & H2). rewrite Hy in Hy'. injection Hy' as <-.
  by exists x.
Qed.

Lemma cut_wsum q : wsum q es3 = wsum q (cg_edges g) + if q f t then - ge_weight e else 0.
Proof.
  rewrite (wsum_alter q _ idx e) by apply cut_idx.
  rewrite (proj1 (relinked_weights _ _ _ q (un_edges _ _ _ _ _ Hu))).
  change (cg_edges g1) with (cg_edges g). unfold weight_if. cbn. rewrite Ha. cbn. destruct (q f t); lia.
Qed.

Lemma cut_list_self : out_list es3 (gn_first_edge (gnode_at g2 f)) f (l1 ++ l2).
Proof.
  destruct idx_notin as (H1 & H2 & H12 & Hd1 & Hd2). destruct Hl as (_ & _ & Hmem). split_and!.
  - eapply chain_frame; [|exact (un_chain _ _ _ _ _ Hu)]. intros j x Hj Hx. exists x. split; [|done].
    rewrite list_lookup_alter_ne; [done|]. intros ->. apply elem_of_app in Hj. tauto.
  - by apply NoDup_app.
  - intros j. rewrite elem_of_app. split.
    + intros Hj. assert (j ∈ l1 ++ idx :: l2) as Hj' by (rewrite elem_of_app, elem_of_cons; tauto).
      apply Hmem in Hj' as (y & Hy & Hay & Hfy). destruct (cut_cell' j y Hy) as (x & Hx & Hfx & Hax).
      exists x. rewrite (proj2 (Nat.eqb_neq _ _)) in Hax by (intros ->; tauto). split_and!; congruence.
    + intros (x & Hx & Hax & Hfx). destruct (cut_cell j x Hx) as (y & Hy & Hfy & _ & _ & Hay).
      destruct (j =? idx)%nat eqn:E; [congruence|]. split_bool.
      assert (j ∈ l1 ++ idx :: l2) as Hj' by (apply Hmem; exists y; split_and!; congruence).
      rewrite elem_of_app, elem_of_cons in Hj'. naive_solver.
Qed.

Lemma cut_list_other h l :
  h ≠ f → out_list (cg_edges g) (gn_first_edge (gnode_at g h)) h l →
  out_list es3 (gn_first_edge (gnode_at g2 h)) h l.
Proof.
  intros Hhf (Hc & Hd & Hmem). rewrite (un_other _ _ _ _ _ Hu h Hhf).
  change (gnode_at g1 h) with (gnode_at g h). split_and!; [|done|].
  - eapply chain_frame; [|exact Hc]. intros j y Hj Hy. apply Hmem in Hj as (y' & Hy' & Hay & Hfy).
    rewrite Hy in Hy'. injection Hy' as <-.
    assert (j ∉ l1 ++ idx :: l2) as Hnj.
    { intros Hj. apply Hl in Hj as (z & Hz & _ & Hfz). congruence. }
    rewrite elem_of_app, elem_of_cons in Hnj. exists y. split; [|done].
    rewrite list_lookup_alter_ne by (intros ->; tauto).
    eapply relinked_lookup; [apply (un_edges _ _ _ _ _ Hu)|done|tauto].
  - intros j. rewrite Hmem. split.
    + intros (y & Hy & Hay & Hfy). destruct (cut_cell' j y Hy) as (x & Hx & Hfx & Hax).
      exists x. destruct (j =? idx)%nat eqn:E; split_bool; [|split_and!; congruence].
      subst j. congruence.
    + intros (x & Hx & Hax & Hfx). destruct (cut_cell j x Hx) as (y & Hy & Hfy & _ & _ & Hay).
      exists y. destruct (j =? idx)%nat; [congruence|]. split_and!; congruence.
Qed.

Lemma cut_caches : caches_ok es3 (cg_adj_matrix g') (cg_cached_outgoing g') (cg_cached_incoming g').
Proof.
  destruct (gi_end_bounds g idx e Hg Hi Ha) as (_ & _ & HfA & HtA).
  rewrite (un_rest _ _ _ _ _ Hu).
  cbn [cg_adj_matrix cg_cached_outgoing cg_cached_incoming set_counts set_edges set_nodes update_caches cg_edges].
  apply (caches_update (cg_edges g) _ _ _ _ f t (- ge_weight e) (sub64 (ge_weight e)));
    [apply Hg|done|done|apply cut_wsum|].
  intros q Hq. pose proof (wsum_ge q _ idx e (gi_weights g Hg) Hi) as H. unfold weight_if in H.
  rewrite Ha, Hq in H. cbn in H. unfold sub64, sat_sub. lia.
Qed.

Lemma cut_inv : graph_inv g'.
Proof.
  pose proof (un_len _ _ _ _ _ Hu) as HN2. change (length (cg_nodes g1)) with (length (cg_nodes g)) in HN2.
  split.
  - cbn. rewrite HN2. apply Hg.
  - change (cg_edges g') with es3. rewrite cut_length. apply Hg.
  - exact (un_uniq _ _ _ _ _ Hu).
  - intros j x Hx Hax. destruct (cut_cell j x Hx) as (y & Hy & -> & -> & _ & Hact).
    rewrite Hax in Hact. destruct (j =? idx)%nat; [done|].
    change (is_Some (node_view g2 (ge_from y)) ∧ is_Some (node_view g2 (ge_to y))).
    rewrite !(un_view _ _ _ _ _ Hu). by eapply (gi_ends g Hg).
  - intros j x Hx. destruct (cut_cell j x Hx) as (y & Hy & _ & _ & -> & _). by eapply (gi_weights g Hg).
  - change (cg_edges g') with es3. rewrite cut_wsum. cbn. pose proof (gi_total g Hg).
    assert (0 ≤ ge_weight e) by by eapply (gi_weights g Hg). lia.
  - exact cut_caches.
  - intros h Hh. change (cg_nodes g') with (cg_nodes g2) in Hh. rewrite HN2 in Hh.
    destruct (decide (h = f)) as [->|Hhf]; [exists (l1 ++ l2); exact cut_list_self|].
    destruct (gi_lists g Hg h Hh) as [l Hll]. exists l. by apply cut_list_other.
  - change (cg_node_count g') with (cg_node_count g2). rewrite (un_rest _ _ _ _ _ Hu) at 1.
    cbn [cg_node_count set_edges set_nodes update_caches]. rewrite (gi_ncount g Hg).
    symmetry. apply (un_count _ _ _ _ _ Hu).
  - change (cg_edge_count g') with (cg_edge_count g2 - 1)%nat. rewrite (un_rest _ _ _ _ _ Hu) at 1.
    cbn [cg_edge_count set_edges set_nodes update_caches]. rewrite (gi_ecount g Hg).
    change (cg_edges g') with es3. rewrite (alter_as_insert deactivate _ idx e cut_idx).
    pose proof (count_by_insert ge_active (cg_edges g2) idx e (deactivate e) cut_idx) as H.
    rewrite Ha, (proj2 (relinked_weights _ _ _ any (un_edges _ _ _ _ _ Hu))) in H.
    change (cg_edges g1) with (cg_edges g) in H. cbn in H. lia.
Qed.
End remove_edge.

Lemma remove_edge_spec g idx e :
  graph_inv g → cg_edges g !! idx = Some e → ge_active e = true →
  ∃ g', remove_edge_by_index idx g = Some g' ∧ graph_inv g' ∧
    (∀ j, node_view g' j = node_view g j) ∧ length (cg_nodes g') = length (cg_nodes g) ∧
    length (cg_edges g') = length (cg_edges g) ∧
    (∀ j, edge_view g' j = if (j =? idx)%nat then None else edge_view g j) ∧
    cg_edge_count g = S (cg_edge_count g').
Proof.
  intros Hg Hi Ha. unfold remove_edge_by_index.
  assert (live_edge idx g = true) as -> by (apply live_edge_spec; exists e; unfold edge_at; by rewrite Hi).
  cbn [negb]. assert (edge_at g idx = e) as -> by (unfold edge_at; by rewrite Hi).
  destruct (gi_end_bounds g idx e Hg Hi Ha) as (HfN & _ & _ & _).
  destruct (gi_lists g Hg (ge_from e) HfN) as (l & Hl).
  assert (idx ∈ l) as Hin by (apply Hl; by exists e).
  apply list_elem_of_split in Hin as (l1 & l2 & ->).
  destruct (unlink_spec (update_caches (ge_from e) (ge_to e) (sub64 (ge_weight e)) g) (ge_from e) idx e l1 l2)
    as (g2 & -> & Hu); [done|apply Hg|apply Hg|done|apply Hl|apply Hl|].
  cbn [mbind option_bind]. eexists. split; [reflexivity|].
  split_and!.
  - exact (cut_inv g g2 idx e l1 l2 Hg Hi Ha Hl Hu).
  - intros j. exact (un_view _ _ _ _ _ Hu j).
  - exact (un_len _ _ _ _ _ Hu).
  - exact (cut_length g g2 idx e l1 l2 Hu).
  - intros j. unfold edge_view at 1. cbn [cg_edges set_counts set_edges].
    destruct (alter deactivate idx (cg_edges g2) !! j) as [x|] eqn:Ex.
    + destruct (cut_cell g g2 idx e l1 l2 Hi Hl Hu j x Ex) as (y & Hy & -> & -> & -> & ->).
      unfold edge_view. rewrite Hy. by destruct (j =? idx)%nat.
    + apply lookup_ge_None_1 in Ex. rewrite (cut_length g g2 idx e l1 l2 Hu) in Ex.
      unfold edge_view. rewrite lookup_ge_None_2 by done. by destruct (j =? idx)%nat.
  - cbn [cg_edge_count set_counts set_edges]. rewrite (un_rest _ _ _ _ _ Hu).
    cbn [cg_edge_count set_counts set_edges set_nodes update_caches].
    pose proof (count_by_pos ge_active (cg_edges g) idx e Hi Ha). rewrite (gi_ecount g Hg). lia.
Qed.

Lemma edge_view_lt g i v : edge_view g i = Some v → (i < length (cg_edges g))%nat.
Proof. destruct v as [[f t] w]. intros (e & He & _)%edge_view_inv. by eapply lookup_lt_Some. Qed.

(** [v] is an edge at node [idx]. *)
Definition incident (idx : nat) (v : option (nat * nat * Z)) : bool :=
  match v with Some (f, t, _) => (f =? idx)%nat || (t =? idx)%nat | None => false end.

Lemma remove_incident_spec idx idxs g :
  graph_inv g →
  ∃ g', remove_incident idx idxs g = Some g' ∧ graph_inv g' ∧
    (∀ j, node_view g' j = node_view g j) ∧ length (cg_nodes g') = length (cg_nodes g) ∧
    length (cg_edges g') = length (cg_edges g) ∧
    (∀ j, edge_view g' j =
       if bool_decide (j ∈ idxs) && incident idx (edge_view g j) then None else edge_view g j).
Proof.
  intros Hg. induction idxs as [|i idxs IH] using rev_ind.
  { exists g. split_and!; done. }
  destruct IH as (g1 & Hr & Hg1 & Hv1 & Hn1 & He1 & Hev1).
  unfold remove_incident in *. rewrite foldl_app, Hr. cbn [foldl mbind option_bind].
  assert (∀ j, bool_decide (j ∈ idxs ++ [i]) = bool_decide (j ∈ idxs) || (j =? i)%nat) as Hin.
  { intros j. apply eq_iff_eq_true. rewrite orb_true_iff, !bool_decide_eq_true, Nat.eqb_eq, elem_of_app, list_elem_of_singleton. done. }
  destruct (cg_edges g1 !! i) as [e|] eqn:Ei.
  - assert (edge_at g1 i = e) as -> by (unfold edge_at; by rewrite Ei).
    destruct (ge_active e && _) eqn:Ec.
    + apply andb_true_iff in Ec as [Ha Hinc].
      destruct (remove_edge_spec g1 i e Hg1 Ei Ha) as (g2 & -> & Hg2 & Hv2 & Hn2 & He2 & Hev2 & _).
      exists g2. split_and!; [done|done|by intros; rewrite Hv2|congruence|congruence|].
      intros j. rewrite Hev2, Hev1, Hin. destruct (j =? i)%nat eqn:E; [|by rewrite orb_false_r].
      split_bool. subst j. rewrite orb_true_r. cbn [andb].
      assert (edge_view g1 i = Some (ge_from e, ge_to e, ge_weight e)) as H by by apply edge_view_Some.
      rewrite Hev1 in H. destruct (bool_decide (i ∈ idxs) && _); [done|]. rewrite H. cbn. by rewrite Hinc.
    + exists g1. split_and!; try done. intros j. rewrite Hev1, Hin.
      destruct (j =? i)%nat eqn:E; [|by rewrite orb_false_r]. split_bool. subst j. rewrite orb_true_r.
      cbn [andb]. specialize (Hev1 i). unfold edge_view at 1 in Hev1. rewrite Ei in Hev1.
      destruct (ge_active e) eqn:Ha.
      * destruct (bool_decide (i ∈ idxs) && incident idx (edge_view g i)); [done|].
        rewrite <- Hev1. cbn in *. by rewrite Ec.
      * destruct (bool_decide (i ∈ idxs) && incident idx (edge_view g i)) eqn:E2.
        -- apply andb_true_iff in E2 as [_ ->]. done.
        -- by rewrite <- Hev1.
  - assert (edge_at g1 i = edge_empty) as -> by (unfold edge_at; by rewrite Ei).
    exists g1. split_and!; try done. intros j. rewrite Hev1, Hin.
    destruct (j =? i)%nat eqn:E; [|by rewrite orb_false_r]. split_bool. subst j. rewrite orb_true_r.
    assert (edge_view g i = None) as ->; [|by rewrite andb_false_r].
    destruct (edge_view g i) as [v|] eqn:Ev; [|done]. apply edge_view_lt in Ev.
    apply lookup_ge_None_1 in Ei. lia.
Qed.

Lemma wsum_zero q es :
  (∀ i e, es !! i = Some e → ge_active e = true → q (ge_from e) (ge_to e) = false) → wsum q es = 0.
Proof.
  induction es as [|e es IH]; intros H; [done|]. cbn. rewrite IH by (intros i; apply (H (S i))).
  unfold weight_if. destruct (ge_active e) eqn:Ha; [|done]. by rewrite (H O e eq_refl Ha).
Qed.

(** The one edge of a selection. *)
Lemma wsum_single q es i e :
  es !! i = Some e →
  (∀ j e', es !! j = Some e' → ge_active e' = true → q (ge_from e') (ge_to e') = true → j = i) →
  wsum q es = weight_if q e.
Proof.
  revert i. induction es as [|x es IH]; intros i Hi Hu; [done|]. destruct i as [|i]; cbn [wsum].
  - injection Hi as ->. rewrite wsum_zero; [lia|]. intros j e' Hj Ha.
    apply not_true_is_false. intros Hq. by specialize (Hu (S j) e' Hj Ha Hq).
  - rewrite (IH i Hi).
    + assert (weight_if q x = 0) as ->; [|lia]. unfold weight_if.
      destruct (ge_active x && q (ge_from x) (ge_to x)) eqn:E; [|done].
      apply andb_prop in E as [Ha Hq]. by specialize (Hu O x eq_refl Ha Hq).
    + intros j e' Hj Ha Hq. specialize (Hu (S j) e' Hj Ha Hq). congruence.
Qed.

Lemma cell_imap (F : nat → Z → Z) l j : (j < length l)%nat → cell (imap F l) j = F j (cell l j).
Proof.
  intros Hj. unfold cell. rewrite list_lookup_imap. destruct (lookup_lt_is_Some_2 _ _ Hj) as [x ->]. done.
Qed.

(** Clearing the caches of a node that has no edges changes nothing. *)
Lemma clear_caches_ok g i :
  caches_ok (cg_edges g) (cg_adj_matrix g) (cg_cached_outgoing g) (cg_cached_incoming g) →
  (i < ADJ_DIM)%nat →
  (∀ j e, cg_edges g !! j = Some e → ge_active e = true → ge_from e ≠ i ∧ ge_to e ≠ i) →
  let g' := clear_node_caches i g in
  caches_ok (cg_edges g') (cg_adj_matrix g') (cg_cached_outgoing g') (cg_cached_incoming g').
Proof.
  intros [Hr Hc Ho Hi Ha Hout Hin] HiA Hno g'.
  assert (∀ q, (∀ f t, f ≠ i → t ≠ i → q f t = false) → wsum q (cg_edges g) = 0) as Hz.
  { intros q Hq. apply wsum_zero. intros j e Hj Hae. destruct (Hno j e Hj Hae). by apply Hq. }
  split; cbn [cg_adj_matrix cg_cached_outgoing cg_cached_incoming cg_edges clear_node_caches g'].
  - by rewrite length_imap.
  - intros f row Hf. rewrite list_lookup_imap in Hf. apply fmap_Some in Hf as (row0 & Hf & ->).
    rewrite length_imap. by eapply Hc.
  - by rewrite length_insert.
  - by rewrite length_insert.
  - intros f t Hf Ht. unfold adj_at. rewrite list_lookup_imap.
    destruct (lookup_lt_is_Some_2 (cg_adj_matrix g) f) as [row Hrow]; [lia|]. rewrite Hrow. simpl.
    rewrite cell_imap by (rewrite (Hc f row Hrow); lia).
    destruct ((f =? i)%nat || (t =? i)%nat) eqn:E.
    + symmetry. apply Hz. intros x y Hx Hy. unfold ends_are.
      apply orb_true_iff in E as [E|E]; split_bool; subst;
        [rewrite (proj2 (Nat.eqb_neq x i)) by done; done|].
      rewrite (proj2 (Nat.eqb_neq y i)) by done. apply andb_false_r.
    + rewrite <- Ha by done. unfold adj_at. by rewrite Hrow.
  - intros f Hf. rewrite cell_insert by lia. destruct (i =? f)%nat eqn:E; [|by apply Hout].
    split_bool. subst f. symmetry. apply Hz. intros x y Hx _. unfold from_is. by apply Nat.eqb_neq.
  - intros t Ht. rewrite cell_insert by lia. destruct (i =? t)%nat eqn:E; [|by apply Hin].
    split_bool. subst t. symmetry. apply Hz. intros x y _ Hy. unfold to_is. by apply Nat.eqb_neq.
Qed.

(** Freeing the slot of a node without edges. *)
Lemma free_node_inv g idx p ix :
  graph_inv g → node_view g idx = Some p →
  (∀ j, incident idx (edge_view g j) = false) →
  let g1 := clear_node_caches idx (set_nodes (<[idx := mkNode None INVALID]> (cg_nodes g)) (set_id_index ix g)) in
  let g' := set_counts (cg_node_count g - 1) (cg_edge_count g) g1 in
  graph_inv g' ∧ length (cg_nodes g') = length (cg_nodes g) ∧ cg_edges g' = cg_edges g ∧
  (∀ j, node_view g' j = if (j =? idx)%nat then None else node_view g j).
Proof.
  intros Hg Hp Hno g1 g'.
  assert (idx < length (cg_nodes g))%nat as Hlt by (apply occupied_bound; unfold node_view in Hp; by rewrite Hp).
  assert (∀ j e, cg_edges g !! j = Some e → ge_active e = true → ge_from e ≠ idx ∧ ge_to e ≠ idx) as Hfree.
  { intros j e Hj Ha. specialize (Hno j). rewrite (edge_view_Some g j e) in Hno by done.
    apply orb_false_iff in Hno as [H1 H2]. split_bool. done. }
  assert (∀ j, gnode_at g' j = if (j =? idx)%nat then mkNode None INVALID else gnode_at g j) as Hat.
  { intros j. unfold gnode_at, g', g1. cbn. destruct (j =? idx)%nat eqn:E; split_bool.
    - subst j. by rewrite list_lookup_insert_eq.
    - by rewrite list_lookup_insert_ne. }
  assert (∀ j, node_view g' j = if (j =? idx)%nat then None else node_view g j) as Hnv.
  { intros j. unfold node_view. rewrite Hat. by destruct (j =? idx)%nat. }
  assert (length (cg_nodes g') = length (cg_nodes g)) as HN by (unfold g', g1; cbn; by rewrite length_insert).
  split_and!; [|done|done|done].
  pose proof (node_at_lookup g idx Hlt) as Hidx.
  destruct Hg as [HNA ? Hu Hends ? ? Hca Hli Hnc Hec]. split; try done.
  - by rewrite HN.
  - apply slots_ok_insert; [done|]. by intros.
  - intros j e Hj Ha. destruct (Hfree j e Hj Ha). rewrite !Hat.
    rewrite !(proj2 (Nat.eqb_neq _ idx)) by done. by eapply Hends.
  - apply (clear_caches_ok (set_nodes (<[idx := mkNode None INVALID]> (cg_nodes g)) (set_id_index ix g)));
      [done|lia|done].
  - intros f Hf. rewrite HN in Hf. change (cg_edges g') with (cg_edges g). rewrite Hat.
    destruct (f =? idx)%nat eqn:E; split_bool; [|by apply Hli].
    subst f. exists []. split_and!; [done|constructor|]. intros j. split; [by intros ?%not_elem_of_nil|].
    intros (e & He & Ha & Hfr). by destruct (Hfree j e He Ha).
  - change (cg_nodes g') with (<[idx := mkNode None INVALID]> (cg_nodes g)).
    change (cg_node_count g') with (cg_node_count g - 1)%nat. rewrite Hnc.
    pose proof (count_by_insert (λ n, is_some (gn_partition n)) _ idx _ (mkNode None INVALID) Hidx) as H.
    cbn beta in H.
    unfold node_view in Hp. rewrite Hp in H. cbn in H. lia.
Qed.

Lemma remove_node_spec g p :
  graph_inv g →
  match remove_node p g with
  | None => False
  | Some (Ok _, g') =>
      ∃ idx, node_view g idx = Some p ∧ graph_inv g' ∧ length (cg_nodes g') = length (cg_nodes g) ∧
        length (cg_edges g') = length (cg_edges g) ∧
        (∀ j, node_view g' j = if (j =? idx)%nat then None else node_view g j) ∧
        (∀ j, edge_view g' j = if incident idx (edge_view g j) then None else edge_view g j)
  | Some (Err e, g') => e = NodeNotFound ∧ g' = g ∧ ∀ i, node_view g i ≠ Some p
  end.
Proof.
  intros Hg. unfold remove_node. destruct (find_node p g) as [idx|] eqn:Ef.
  2:{ split_and!; [done|done|by apply find_node_None]. }
  apply find_node_spec in Ef; [|done].
  destruct (remove_incident_spec idx (seq 0 (length (cg_edges g))) g Hg) as (g1 & -> & Hg1 & Hv1 & Hn1 & He1 & Hev1).
  cbn [mbind option_bind].
  assert (∀ j, edge_view g1 j = if incident idx (edge_view g j) then None else edge_view g j) as Hev.
  { intros j. rewrite Hev1. destruct (edge_view g j) as [v|] eqn:Ev; [|by rewrite andb_false_r].
    rewrite bool_decide_true; [done|]. apply elem_of_seq. apply edge_view_lt in Ev. lia. }
  assert (∀ j, incident idx (edge_view g1 j) = false) as Hno.
  { intros j. rewrite Hev. by destruct (incident idx (edge_view g j)) eqn:E. }
  assert (node_view g1 idx = Some p) as Hp by (rewrite Hv1; exact Ef).
  exists idx. split; [exact Ef|].
  assert (∀ ix, let g2 := clear_node_caches idx (set_nodes (<[idx := mkNode None INVALID]> (cg_nodes g1)) (set_id_index ix g1)) in
          let g' := set_counts (cg_node_count g1 - 1) (cg_edge_count g1) g2 in
          graph_inv g' ∧ length (cg_nodes g') = length (cg_nodes g) ∧ length (cg_edges g') = length (cg_edges g) ∧
          (∀ j, node_view g' j = if (j =? idx)%nat then None else node_view g j) ∧
          (∀ j, edge_view g' j = if incident idx (edge_view g j) then None else edge_view g j)) as Hfin.
  { intros ix g2 g'. destruct (free_node_inv g1 idx p ix Hg1 Hp Hno) as (H1 & H2 & H3 & H4).
    split_and!; [exact H1|by rewrite <- Hn1|by rewrite <- He1| |exact Hev].
    intros j. rewrite <- Hv1. apply H4. }
  destruct (bool_decide _).
  - exact (Hfin (<[node_hash p := None]> (cg_id_to_node g1))).
  - assert (g1 = set_id_index (cg_id_to_node g1) g1) as Heq by by destruct g1.
    rewrite Heq at 1 2 3 4 5. exact (Hfin (cg_id_to_node g1)).
Qed.

(* ------------------------------------------------------------------ *)
(** ** Decay *)

Lemma decayed_bounds bp w : 0 ≤ bp → 0 ≤ w ≤ u64_max → 0 ≤ decayed bp w ≤ w.
Proof.
  intros Hbp Hw. unfold decayed, sat_sub. set (k := Z.max 0 (10000 - bp)). assert (0 ≤ k ≤ 10000) by lia.
  split; [apply Z.div_pos; [|lia]; apply Z.min_glb; [done|nia]|].
  apply Z.div_le_upper_bound; [lia|]. nia.
Qed.

Definition decay_view (bp : Z) (v : option (nat * nat * Z)) : option (nat * nat * Z) :=
  match v with
  | Some (f, t, w) => if decayed bp w =? 0 then None else Some (f, t, decayed bp w)
  | None => None
  end.

Lemma decay_edge_spec bp i g pruned :
  graph_inv g → 0 ≤ bp →
  ∃ g' pruned', decay_edge bp i (g, pruned) = Some (g', pruned') ∧ graph_inv g' ∧
    (∀ j, node_view g' j = node_view g j) ∧ length (cg_nodes g') = length (cg_nodes g) ∧
    length (cg_edges g') = length (cg_edges g) ∧
    (∀ j, edge_view g' j = if (j =? i)%nat then decay_view bp (edge_view g i) else edge_view g j) ∧
    ((pruned' = pruned ∧ cg_edge_count g' = cg_edge_count g) ∨
     (pruned' = wrap16 (pruned + 1) ∧ cg_edge_count g = S (cg_edge_count g'))).
Proof.
  intros Hg Hbp. unfold decay_edge.
  destruct (ge_active (edge_at g i)) eqn:Ha; cbn [negb].
  2:{ exists g, pruned. split_and!; try done; [|by left]. intros j. destruct (j =? i)%nat eqn:E; [|done].
      split_bool. subst j. unfold edge_view, edge_at in *. destruct (cg_edges g !! i); [|done].
      simpl in Ha. by rewrite Ha. }
  destruct (cg_edges g !! i) as [e|] eqn:Hi; [|unfold edge_at in Ha; by rewrite Hi in Ha].
  assert (edge_at g i = e) as Hat by (unfold edge_at; by rewrite Hi). rewrite Hat in *.
  assert (edge_view g i = Some (ge_from e, ge_to e, ge_weight e)) as Hv by by apply edge_view_Some.
  assert (0 ≤ ge_weight e) as Hw0 by by eapply (gi_weights g Hg).
  assert (∀ q, q (ge_from e) (ge_to e) = true → ge_weight e ≤ wsum q (cg_edges g)) as Hq.
  { intros q Hq. pose proof (wsum_ge q _ i e (gi_weights g Hg) Hi) as H. unfold weight_if in H.
    by rewrite Ha, Hq in H. }
  pose proof (Hq any eq_refl). pose proof (gi_total g Hg) as Htot.
  destruct (decayed_bounds bp (ge_weight e) Hbp ltac:(lia)) as [Hd0 Hd].
  destruct (decayed bp (ge_weight e) =? 0) eqn:E0; split_bool.
  - destruct (remove_edge_spec g i e Hg Hi Ha) as (g' & Hr & H1 & H2 & H3 & H4 & H5 & H6).
    exists g', (wrap16 (pruned + 1)). rewrite Hr. split_and!; try done; [|by right].
    intros j. rewrite H5, Hv. cbn. by rewrite E0.
  - rewrite (alter_as_insert _ _ i e Hi).
    destruct (reweigh_inv g i e (decayed bp (ge_weight e)) (sub64 (ge_weight e - decayed bp (ge_weight e)))
                Hg Hi Ha Hd0) as (H1 & H2 & H3 & _); [lia| |].
    { intros q Hqt. specialize (Hq q Hqt). unfold sub64, sat_sub. lia. }
    eexists _, pruned. split; [reflexivity|].
    split_and!; [exact H1| | | | |by left].
    + intros j. unfold node_view, gnode_at. by rewrite H2.
    + by rewrite H2.
    + cbn. by rewrite length_insert.
    + intros j. rewrite H3, Hv. cbn. by rewrite (proj2 (Z.eqb_neq _ _)).
Qed.

Lemma decay_weights_spec g bp :
  graph_inv g → 0 ≤ bp →
  ∃ pruned g', decay_weights bp g = Some (pruned, g') ∧ graph_inv g' ∧
    (∀ j, node_view g' j = node_view g j) ∧ length (cg_nodes g') = length (cg_nodes g) ∧
    length (cg_edges g') = length (cg_edges g) ∧
    (∀ j, edge_view g' j = decay_view bp (edge_view g j)) ∧
    pruned = Z.of_nat (cg_edge_count g) - Z.of_nat (cg_edge_count g').
Proof.
  intros Hg Hbp. unfold decay_weights.
  assert (∀ n, (n ≤ length (cg_edges g))%nat → ∃ g' pruned,
    foldl (λ os i, s ← os; decay_edge bp i s) (Some (g, 0)) (seq 0 n) = Some (g', pruned) ∧ graph_inv g' ∧
    (∀ j, node_view g' j = node_view g j) ∧ length (cg_nodes g') = length (cg_nodes g) ∧
    length (cg_edges g') = length (cg_edges g) ∧
    (∀ j, edge_view g' j = if (j <? n)%nat then decay_view bp (edge_view g j) else edge_view g j) ∧
    pruned = Z.of_nat (cg_edge_count g) - Z.of_nat (cg_edge_count g') ∧ 0 ≤ pruned) as Hloop.
  { induction n as [|n IH]; intros Hn; [exists g, 0; split_and!; try done; lia|].
    destruct IH as (g1 & pr & Hr & Hg1 & Hv1 & Hn1 & He1 & Hev1 & Hpr & Hpr0); [lia|].
    rewrite seq_S, foldl_app, Hr. cbn [foldl mbind option_bind Nat.add].
    destruct (decay_edge_spec bp n g1 pr Hg1 Hbp) as (g2 & pr2 & -> & Hg2 & Hv2 & Hn2 & He2 & Hev2 & Hcnt).
    assert (pr2 = Z.of_nat (cg_edge_count g) - Z.of_nat (cg_edge_count g2) ∧ 0 ≤ pr2) as [Hp2 Hp20].
    { destruct Hcnt as [[-> Hc]|[-> Hc]]; [rewrite Hc; lia|].
      assert (cg_edge_count g ≤ length (cg_edges g))%nat as Hle
        by (rewrite (gi_ecount g Hg); apply count_by_le).
      pose proof (gi_edges g Hg) as HE. unfold INVALID in HE.
      rewrite wrap16_id; [lia|]. unfold is_u16, u16_max. lia. }
    exists g2, pr2. split_and!; [done|done|by intros; rewrite Hv2|congruence|congruence| |done|done].
    intros j. rewrite Hev2. destruct (j =? n)%nat eqn:E; split_bool.
    - subst j. rewrite Hev1, (proj2 (Nat.ltb_ge n n)), (proj2 (Nat.ltb_lt n (S n))) by lia. done.
    - rewrite Hev1. destruct (j <? n)%nat eqn:E2, (j <? S n)%nat eqn:E3; split_bool; done || lia. }
  destruct (Hloop _ (le_n _)) as (g' & pr & Hr & H1 & H2 & H3 & H4 & H5 & H6 & _).
  exists pr, g'. rewrite Hr. split_and!; try done. intros j. rewrite H5.
  destruct (j <? length (cg_edges g))%nat eqn:E; [done|]. split_bool.
  unfold edge_view. by rewrite lookup_ge_None_2.
Qed.

(* ------------------------------------------------------------------ *)
(** ** Queries *)

Lemma internal_weight_spec g p i :
  graph_inv g → find_node p g = Some i → internal_weight p g = wsum (ends_are i i) (cg_edges g).
Proof.
  intros Hg Hf. unfold internal_weight. rewrite Hf.
  assert (∀ es acc, weights_ok es → 0 ≤ acc → acc + wsum any es ≤ u64_max →
    foldl (λ sum e, if ge_active e && (ge_from e =? i)%nat && (ge_to e =? i)%nat
                    then sat_add u64_max sum (ge_weight e) else sum) acc es =
    acc + wsum (ends_are i i) es) as H.
  { induction es as [|e es IH]; intros acc Hw Hacc Hmax; cbn [foldl wsum]; [lia|].
    assert (weights_ok es) as Hw' by (intros j; apply (Hw (S j))).
    assert (0 ≤ ge_weight e) as He by by apply (Hw O). cbn [wsum] in Hmax.
    pose proof (wsum_bounds (ends_are i i) es Hw').
    unfold weight_if, any, ends_are in *. cbn beta. rewrite <- andb_assoc.
    destruct (ge_active e); cbn [andb] in *.
    - destruct ((ge_from e =? i)%nat && (ge_to e =? i)%nat).
      + rewrite IH; unfold sat_add; try done; lia.
      + rewrite IH; try done; lia.
    - rewrite IH; try done; lia. }
  rewrite H; [lia|apply Hg|lia|]. pose proof (gi_total g Hg). lia.
Qed.

(** The walk over an adjacency list visits exactly the list. *)
Lemma neighbor_iter_spec g cur l fuel :
  (length (cg_edges g) ≤ INVALID)%nat → edge_chain (cg_edges g) cur l →
  (∀ k, k ∈ l → ge_active (edge_at g k) = true) → (length l < fuel)%nat →
  neighbor_iter fuel g cur = Some ((λ k, (ge_to (edge_at g k), ge_weight (edge_at g k))) <$> l).
Proof.
  intros HE. revert cur fuel. induction l as [|k l IH]; intros cur fuel Hc Ha Hfuel;
    (destruct fuel as [|fuel]; [lia|]); cbn [neighbor_iter].
  - cbn in Hc. by rewrite Hc, Nat.eqb_refl.
  - destruct Hc as [-> (e & He & Hc)]. pose proof (lookup_lt_Some _ _ _ He) as Hlt.
    rewrite (proj2 (Nat.eqb_neq _ _)), (proj2 (Nat.leb_gt _ _)) by lia.
    assert (edge_at g k = e) as Hat by (unfold edge_at; by rewrite He).
    rewrite (Ha k) by by left. rewrite Hat. cbn in Hfuel.
    rewrite (IH (ge_next_from e) fuel Hc); [|intros; apply Ha; by right|lia].
    cbn. by rewrite Hat.
Qed.

Lemma find_edge_walk_spec g to cur l fuel :
  (length (cg_edges g) ≤ INVALID)%nat → edge_chain (cg_edges g) cur l → (length l < fuel)%nat →
  find_edge_walk fuel g to cur =
    Some (find_by (λ k, ge_active (edge_at g k) && (ge_to (edge_at g k) =? to)%nat) l).
Proof.
  intros HE. revert cur fuel. induction l as [|k l IH]; intros cur fuel Hc Hfuel;
    (destruct fuel as [|fuel]; [lia|]); cbn [find_edge_walk find_by].
  - cbn in Hc. by rewrite Hc, Nat.eqb_refl.
  - destruct Hc as [-> (e & He & Hc)]. pose proof (lookup_lt_Some _ _ _ He) as Hlt.
    rewrite (proj2 (Nat.eqb_neq _ _)), (proj2 (Nat.leb_gt _ _)) by lia.
    assert (edge_at g k = e) as -> by (unfold edge_at; by rewrite He). cbn in Hfuel.
    destruct (ge_active e && _); [done|]. apply IH; [done|lia].
Qed.

(** The outgoing edges of node [i], as indices. *)
Lemma node_list g i :
  graph_inv g → (i < length (cg_nodes g))%nat →
  ∃ l, edge_chain (cg_edges g) (gn_first_edge (gnode_at g i)) l ∧ NoDup l ∧
    (length l < walk_fuel g)%nat ∧ (∀ k, k ∈ l → ge_active (edge_at g k) = true) ∧
    (∀ k, k ∈ l ↔ ∃ t w, edge_view g k = Some (i, t, w)).
Proof.
  intros Hg Hi. destruct (gi_lists g Hg i Hi) as (l & Hc & Hd & Hl). exists l.
  pose proof (chain_short _ _ _ Hc Hd). split_and!; [done|done|unfold walk_fuel; lia| |].
  - intros k (e & He & Ha & _)%Hl. unfold edge_at. by rewrite He.
  - intros k. rewrite Hl. split.
    + intros (e & He & Ha & <-). exists (ge_to e), (ge_weight e). by apply edge_view_Some.
    + intros (t & w & (e & He & Ha & Hf & _)%edge_view_inv). by exists e.
Qed.

Lemma find_directed_edge_spec g a b f t :
  graph_inv g → find_node a g = Some f → find_node b g = Some t →
  ∃ r, find_directed_edge a b g = Some r ∧
    match r with
    | Some k => ∃ w, edge_view g k = Some (f, t, w)
    | None => ∀ k w, edge_view g k = Some (f, t, w) → w = 0
    end.
Proof.
  intros Hg Hf Ht. unfold find_directed_edge. rewrite Hf, Ht.
  apply find_node_spec in Hf, Ht; [|done..].
  assert (f < length (cg_nodes g))%nat as HfN by (apply occupied_bound; by rewrite Hf).
  assert (t < length (cg_nodes g))%nat as HtN by (apply occupied_bound; by rewrite Ht).
  pose proof (gi_nodes g Hg).
  rewrite (co_adj _ _ _ _ (gi_caches g Hg) f t) by lia.
  destruct (wsum (ends_are f t) (cg_edges g) =? 0) eqn:E; split_bool.
  - exists None. split; [done|]. intros k w (e & He & Ha & <- & <- & <-)%edge_view_inv.
    pose proof (wsum_ge (ends_are (ge_from e) (ge_to e)) _ k e (gi_weights g Hg) He) as Hw.
    unfold weight_if in Hw. rewrite Ha in Hw. unfold ends_are in Hw at 1.
    rewrite !Nat.eqb_refl in Hw. cbn in Hw.
    pose proof (gi_weights g Hg k e He). lia.
  - destruct (node_list g f Hg HfN) as (l & Hc & Hd & Hfuel & Hact & Hl).
    rewrite (find_edge_walk_spec g t _ l _ (gi_edges g Hg) Hc Hfuel).
    eexists. split; [reflexivity|].
    destruct (find_by _ l) as [k|] eqn:Ek.
    + apply find_by_Some in Ek as [Hk (j & Hj)]. apply andb_true_iff in Hk as [Hk1 Hk2]. split_bool.
      apply list_elem_of_lookup_2, Hl in Hj as (t' & w & Hv). exists w.
      destruct (edge_view_inv _ _ _ _ _ Hv) as (e & He & _ & _ & Hto & _).
      unfold edge_at in Hk2. rewrite He in Hk2. simpl in Hk2. congruence.
    + intros k w Hv. assert (k ∈ l) as Hk by (apply Hl; eauto).
      apply list_elem_of_lookup in Hk as [j Hj]. rewrite find_by_None in Ek. specialize (Ek j k Hj).
      destruct (edge_view_inv _ _ _ _ _ Hv) as (e & He & Ha & _ & Hto & _).
      unfold edge_at in Ek. rewrite He in Ek. simpl in Ek. rewrite Ha, Hto, Nat.eqb_refl in Ek. done.
Qed.

(* ------------------------------------------------------------------ *)
(** ** Histories *)

Inductive GraphOp : Set :=
| GAddNode (p : PartitionId) | GRemoveNode (p : PartitionId)
| GAddEdge (from to : PartitionId) (weight : Z) | GUpdate (edge : nat) (delta : Z)
| GDecay (decay_bp : Z).

(** [None]: a loop did not end. *)
Definition graph_exec (op : GraphOp) (g : CoherenceGraph) : option CoherenceGraph :=
  match op with
  | GAddNode p => Some (add_node p g).2
  | GRemoveNode p => snd <$> remove_node p g
  | GAddEdge f t w => Some (add_edge f t w g).2
  | GUpdate i d => Some (update_weight i d g).2
  | GDecay bp => snd <$> decay_weights bp g
  end.

Definition graph_run (ops : list GraphOp) (g : CoherenceGraph) : option CoherenceGraph :=
  foldl (λ og op, g ← og; graph_exec op g) (Some g) ops.

(** The weight an operation may add. *)
Definition added (op : GraphOp) : Z :=
  match op with GAddEdge _ _ w => w | GUpdate _ d => Z.max 0 d | _ => 0 end.

Definition graph_op_ok (op : GraphOp) : Prop :=
  match op with GAddEdge _ _ w => 0 ≤ w | GDecay bp => 0 ≤ bp | _ => True end.

(** Sums over the view: the total weight is that of the active edges. *)
Lemma wsum_total_le g g' :
  length (cg_edges g') = length (cg_edges g) → weights_ok (cg_edges g) → weights_ok (cg_edges g') →
  (∀ j f t w, edge_view g' j = Some (f, t, w) → ∃ f' t' w', edge_view g j = Some (f', t', w') ∧ w ≤ w') →
  wsum any (cg_edges g') ≤ wsum any (cg_edges g).
Proof.
  unfold edge_view. generalize (cg_edges g') (cg_edges g). clear g g'.
  intros l. induction l as [|a l IH]; intros [|b es] Hlen Hw Hw' Hv; try done. cbn.
  assert (wsum any l ≤ wsum any es).
  { apply IH; [by injection Hlen|intros j; apply (Hw (S j))|intros j; apply (Hw' (S j))|].
    intros j. apply (Hv (S j)). }
  specialize (Hv O). cbn in Hv. unfold weight_if, any in *. cbn.
  assert (0 ≤ ge_weight b) by by apply (Hw O).
  destruct (ge_active a); cbn; [|by destruct (ge_active b); cbn; lia].
  destruct (Hv _ _ _ eq_refl) as (f' & t' & w' & Hb & Hle).
  destruct (ge_active b); [|done]. injection Hb as <- <- <-. cbn. lia.
Qed.

Lemma graph_exec_inv op g :
  graph_inv g → graph_op_ok op → wsum any (cg_edges g) + added op ≤ u64_max →
  ∃ g', graph_exec op g = Some g' ∧ graph_inv g' ∧
    wsum any (cg_edges g') ≤ wsum any (cg_edges g) + added op ∧
    length (cg_nodes g') = length (cg_nodes g).
Proof.
  intros Hg Hok Hmax. destruct op as [p|p|f t w|i d|bp]; cbn [graph_exec added] in *.
  - exists (add_node p g).2. pose proof (add_node_spec g p Hg) as H.
    destruct (add_node p g) as [[i|e] g']; cbn.
    + destruct H as (? & _ & -> & ? & _). split_and!; try done. lia.
    + destruct H as [-> _]. split_and!; try done. lia.
  - pose proof (remove_node_spec g p Hg) as H.
    destruct (remove_node p g) as [[[[]|e] g']|]; [| |done]; exists g'; (split; [done|]).
    + destruct H as (idx & _ & Hg' & Hn & He & _ & Hev). split_and!; [done| |done].
      rewrite Z.add_0_r. apply wsum_total_le; [done|apply Hg|apply Hg'|].
      intros j a b w Hv. rewrite Hev in Hv. destruct (incident idx (edge_view g j)); [done|].
      by exists a, b, w.
    + destruct H as (_ & -> & _). split_and!; try done. lia.
  - exists (add_edge f t w g).2. cbn in Hok. pose proof (add_edge_spec g f t w Hg Hok Hmax) as H.
    destruct (add_edge f t w g) as [[i|e] g']; cbn.
    + destruct H as (a & b & _ & _ & _ & Hg' & _ & Hn & _ & ->). by split_and!.
    + destruct H as [-> _]. split_and!; try done. lia.
  - exists (update_weight i d g).2. pose proof (update_weight_spec g i d Hg Hmax) as H.
    destruct (update_weight i d g) as [[[]|e] g']; cbn.
    + destruct H as (f & t & w & _ & Hg' & -> & _ & Hle). by split_and!.
    + destruct H as (_ & -> & _). split_and!; try done. lia.
  - cbn in Hok. destruct (decay_weights_spec g bp Hg Hok) as (pr & g' & -> & Hg' & _ & Hn & He & Hev & _).
    exists g'. split_and!; [done|done| |done]. rewrite Z.add_0_r.
    apply wsum_total_le; [done|apply Hg|apply Hg'|].
    intros j a b w Hv. rewrite Hev in Hv. destruct (edge_view g j) as [[[f t] w0]|] eqn:Ev; [|done].
    cbn in Hv. destruct (decayed bp w0 =? 0); [done|]. injection Hv as <- <- <-.
    exists f, t, w0. split; [done|]. apply decayed_bounds; [done|].
    apply edge_view_inv in Ev as (e & Hj & Ha & _ & _ & <-).
    pose proof (wsum_ge any _ j e (gi_weights g Hg) Hj) as H. unfold weight_if in H. rewrite Ha in H.
    cbn in H. pose proof (gi_weights g Hg j e Hj). pose proof (gi_total g Hg). lia.
Qed.

Lemma cell_replicate n i : cell (replicate n 0) i = 0.
Proof.
  unfold cell. destruct (replicate n 0 !! i) eqn:En; [|done]. by apply lookup_replicate in En as [-> _].
Qed.

Lemma adj_at_replicate n m f t : adj_at (replicate n (replicate m 0)) f t = 0.
Proof.
  unfold adj_at. destruct (replicate n (replicate m 0) !! f) as [r|] eqn:En; [|done].
  apply lookup_replicate in En as [-> _]. apply cell_replicate.
Qed.

Lemma graph_new_inv N E :
  (N ≤ ADJ_DIM)%nat → (E ≤ INVALID)%nat →
  graph_inv (graph_new N E) ∧ wsum any (cg_edges (graph_new N E)) = 0.
Proof.
  intros HN HE.
  assert (∀ i e, replicate E edge_empty !! i = Some e → e = edge_empty) as Hem
    by by intros i e [-> _]%lookup_replicate.
  assert (∀ q, wsum q (replicate E edge_empty) = 0) as Hz.
  { intros q. apply wsum_zero. by intros i e ->%Hem. }
  assert (∀ i, gnode_at (graph_new N E) i = node_empty_slot) as Hat.
  { intros i. unfold gnode_at. cbn. destruct (replicate N node_empty_slot !! i) eqn:En; [|done].
    by apply lookup_replicate in En as [-> _]. }
  split; [|apply Hz]. split; cbn [cg_nodes cg_edges cg_adj_matrix cg_cached_outgoing cg_cached_incoming
    cg_node_count cg_edge_count graph_new].
  - by rewrite length_replicate.
  - by rewrite length_replicate.
  - by apply view_replicate.
  - by intros i e ->%Hem.
  - by intros i e ->%Hem.
  - by rewrite Hz.
  - split; [done| |done|done| | |].
    + intros f row [-> _]%lookup_replicate. done.
    + intros f t _ _. rewrite Hz. apply adj_at_replicate.
    + intros f _. rewrite Hz. apply cell_replicate.
    + intros f _. rewrite Hz. apply cell_replicate.
  - intros f _. exists []. rewrite Hat. split_and!; [done|constructor|]. intros i.
    split; [by intros ?%not_elem_of_nil|]. by intros (e & ->%Hem & ? & _).
  - by rewrite count_by_replicate.
  - by rewrite count_by_replicate.
Qed.

Lemma graph_run_inv ops g :
  graph_inv g → Forall graph_op_ok ops →
  wsum any (cg_edges g) + foldr Z.add 0 (added <$> ops) ≤ u64_max →
  ∃ g', graph_run ops g = Some g' ∧ graph_inv g' ∧ length (cg_nodes g') = length (cg_nodes g).
Proof.
  assert (∀ ops, Forall graph_op_ok ops → 0 ≤ foldr Z.add 0 (added <$> ops)) as Hpos.
  { induction 1 as [|op l Hop _ IH]; cbn; [lia|]. destruct op; cbn in *; lia. }
  unfold graph_run. revert g. induction ops as [|op ops IH]; intros g Hg Hok Hmax; [by exists g|].
  apply Forall_cons in Hok as [Hop Hops]. cbn in Hmax. specialize (Hpos ops Hops).
  destruct (graph_exec_inv op g Hg Hop) as (g1 & Hr & Hg1 & Hle & Hn); [lia|].
  cbn [foldl mbind option_bind]. rewrite Hr.
  destruct (IH g1 Hg1 Hops) as (g2 & ? & ? & ?); [lia|]. exists g2. split_and!; [done|done|congruence].
Qed.

Lemma node_view_inj g i j p :
  graph_inv g → node_view g i = Some p → node_view g j = Some p → i = j.
Proof. intros Hg Hi Hj. apply (find_node_spec g p _ Hg) in Hi, Hj. congruence. Qed.

Lemma node_view_small g i p : graph_inv g → node_view g i = Some p → (i < ADJ_DIM)%nat.
Proof.
  intros Hg Hi. pose proof (gi_nodes g Hg). pose proof (occupied_bound g i (mk_is_Some _ _ Hi)). lia.
Qed.

(** Iterating the neighbours visits the outgoing edges, each once. *)
Lemma neighbors_spec g p i :
  graph_inv g → find_node p g = Some i →
  ∃ l, neighbors p g = Some (Some ((λ k, (ge_to (edge_at g k), ge_weight (edge_at g k))) <$> l)) ∧
    NoDup l ∧ ∀ k, k ∈ l ↔ ∃ t w, edge_view g k = Some (i, t, w).
Proof.
  intros Hg Hi. pose proof (node_view_small g i p Hg) as Hlt. unfold neighbors. rewrite Hi.
  apply (find_node_spec g p i Hg) in Hi.
  assert (i < length (cg_nodes g))%nat as Hb by (apply occupied_bound; by rewrite Hi).
  destruct (node_list g i Hg Hb) as (l & Hc & Hd & Hfuel & Hact & Hl). exists l. split; [|done].
  exact (f_equal Some (neighbor_iter_spec g _ l _ (gi_edges g Hg) Hc Hact Hfuel)).
Qed.

Lemma elem_of_active_edges g k f t w : (k, f, t, w) ∈ active_edges g ↔ edge_view g k = Some (f, t, w).
Proof.
  unfold active_edges, edge_view. rewrite list_elem_of_omap. split.
  - intros ([i e] & Hin & He). apply list_elem_of_lookup in Hin as [j Hj].
    rewrite list_lookup_imap in Hj. destruct (cg_edges g !! j) as [e'|] eqn:Ej; [|done].
    cbn in Hj. injection Hj as <- <-. destruct (ge_active e') eqn:Ha; [|done].
    injection He as <- <- <- <-. by rewrite Ej, Ha.
  - destruct (cg_edges g !! k) as [e|] eqn:Ek; [|done]. destruct (ge_active e) eqn:Ha; [|done].
    intros [= <- <- <-]. exists (k, e). rewrite Ha. split; [|done].
    apply list_elem_of_lookup. exists k. by rewrite list_lookup_imap, Ek.
Qed.

(** The coherence graph's lists, index and caches are exact.  Run any
    history of operations on a fresh graph, as long as the weights ever added
    fit 64 bits: every loop ends; [find_node] finds exactly the slot of each
    partition; the cached totals, the self-loop weight and the weight between
    two nodes are the sums over the active edges; iterating the neighbours of a
    node visits its outgoing edges, each once; and the lookup of a directed edge
    finds one whenever an edge of positive weight exists. *)
Theorem graph_history_exact N E ops :
  (N ≤ ADJ_DIM)%nat → (E ≤ INVALID)%nat → Forall graph_op_ok ops →
  foldr Z.add 0 (added <$> ops) ≤ u64_max →
  ∃ g, graph_run ops (graph_new N E) = Some g ∧
    (∀ p i, find_node p g = Some i ↔ node_view g i = Some p) ∧
    (∀ p i, find_node p g = Some i →
       total_weight p g = sat_add u64_max (wsum (from_is i) (cg_edges g)) (wsum (to_is i) (cg_edges g)) ∧
       internal_weight p g = wsum (ends_are i i) (cg_edges g) ∧
       ∃ l, neighbors p g = Some (Some ((λ k, (ge_to (edge_at g k), ge_weight (edge_at g k))) <$> l)) ∧
            NoDup l ∧ ∀ k, k ∈ l ↔ ∃ t w, edge_view g k = Some (i, t, w)) ∧
    (∀ a b f t, find_node a g = Some f → find_node b g = Some t →
       edge_weight_between a b g =
         sat_add u64_max (wsum (ends_are f t) (cg_edges g)) (wsum (ends_are t f) (cg_edges g)) ∧
       ∃ r, find_directed_edge a b g = Some r ∧
         match r with
         | Some k => ∃ w, edge_view g k = Some (f, t, w)
         | None => ∀ k w, edge_view g k = Some (f, t, w) → w = 0
         end).
Proof.
  intros HN HE Hok Hmax. destruct (graph_new_inv N E HN HE) as [Hg0 H0].
  destruct (graph_run_inv ops (graph_new N E) Hg0 Hok) as (g & Hr & Hg & _); [by rewrite H0|].
  exists g. split; [done|]. pose proof (gi_nodes g Hg) as HA.
  assert (∀ p i, find_node p g = Some i → (i < length (cg_nodes g))%nat) as Hb.
  { intros p i Hi. apply find_node_spec in Hi; [|done]. apply occupied_bound. by rewrite Hi. }
  split_and!.
  - intros p i. by apply find_node_spec.
  - intros p i Hi. specialize (Hb p i Hi). split_and!.
    + unfold total_weight. rewrite Hi.
      by rewrite (co_out _ _ _ _ (gi_caches g Hg)), (co_inc _ _ _ _ (gi_caches g Hg)) by lia.
    + by apply internal_weight_spec.
    + by apply neighbors_spec.
  - intros a b f t Hf Ht. pose proof (Hb a f Hf). pose proof (Hb b t Ht). split.
    + unfold edge_weight_between. rewrite Hf, Ht.
      by rewrite !(co_adj _ _ _ _ (gi_caches g Hg)) by lia.
    + by apply find_directed_edge_spec.
Qed.

(** What the operations do to a well-formed graph.  Adding takes a free slot
    and touches nothing else; changing a weight changes that weight, clipped at
    zero; removing a partition removes it and exactly the edges at it; decay
    scales every edge, drops those that reach zero and reports how many.  Each
    error leaves the graph alone and names its cause. *)
Theorem graph_ops_functional g :
  graph_inv g →
  (∀ p, match add_node p g with
        | (Ok i, g') => graph_inv g' ∧ node_view g i = None ∧ cg_edges g' = cg_edges g ∧
            ∀ j, node_view g' j = if (j =? i)%nat then Some p else node_view g j
        | (Err e, g') => g' = g ∧
            ((e = DuplicateNode ∧ ∃ i, node_view g i = Some p) ∨
             (e = NodeCapacityExhausted ∧ (∀ i, node_view g i ≠ Some p) ∧
          ∀ i, (i < length (cg_nodes g))%nat → node_view g i ≠ None))
        end) ∧
  (∀ from to w, 0 ≤ w → wsum any (cg_edges g) + w ≤ u64_max →
        match add_edge from to w g with
        | (Ok i, g') => graph_inv g' ∧ edge_view g i = None ∧
            ∃ f t, node_view g f = Some from ∧ node_view g t = Some to ∧
              ∀ j, edge_view g' j = if (j =? i)%nat then Some (f, t, w) else edge_view g j
        | (Err e, g') => g' = g
        end) ∧
  (∀ p, match remove_node p g with
        | None => False
        | Some (Ok _, g') => graph_inv g' ∧ ∃ idx, node_view g idx = Some p ∧
            (∀ j, node_view g' j = if (j =? idx)%nat then None else node_view g j) ∧
            (∀ j, edge_view g' j = if incident idx (edge_view g j) then None else edge_view g j)
        | Some (Err e, g') => e = NodeNotFound ∧ g' = g ∧ ∀ i, node_view g i ≠ Some p
        end) ∧
  (∀ bp, 0 ≤ bp → ∃ pruned g', decay_weights bp g = Some (pruned, g') ∧ graph_inv g' ∧
        (∀ j, node_view g' j = node_view g j) ∧
        (∀ j, edge_view g' j = decay_view bp (edge_view g j)) ∧
        pruned = Z.of_nat (cg_edge_count g) - Z.of_nat (cg_edge_count g')).
Proof.
  intros Hg. split_and!.
  - intros p. pose proof (add_node_spec g p Hg) as H. destruct (add_node p g) as [[i|e] g'];
      [by destruct H as (? & ? & ? & _ & ?)|done].
  - intros from to w Hw Hmax. pose proof (add_edge_spec g from to w Hg Hw Hmax) as H.
    destruct (add_edge from to w g) as [[i|e] g']; [|by destruct H].
    destruct H as (f & t & ? & ? & ? & ? & _ & _ & ? & _). split_and!; [done|done|by exists f, t].
  - intros p. pose proof (remove_node_spec g p Hg) as H.
    destruct (remove_node p g) as [[[[]|e] g']|]; [|done|done].
    destruct H as (idx & ? & ? & _ & _ & ? & ?). split; [done|by exists idx].
  - intros bp Hbp. destruct (decay_weights_spec g bp Hg Hbp) as (pr & g' & ? & ? & ? & _ & _ & ? & ?).
    by exists pr, g'.
Qed.

(** *** A small graph *)

Definition sample_graph_ops : list GraphOp :=
  [GAddNode 1; GAddNode 257; GAddNode 3; GAddEdge 1 257 10; GAddEdge 1 3 20; GAddEdge 257 1 5;
   GAddEdge 1 1 7; GUpdate 0 90; GRemoveNode 3; GDecay 1000].

Lemma graph_history_exact_witness :
  ∃ g, graph_run sample_graph_ops (graph_new 4 8) = Some g ∧
    edge_weight_between 1 257 g = 94 ∧ total_weight 1 g = 106 ∧
    (∀ p i, find_node p g = Some i ↔ node_view g i = Some p).
Proof.
  destruct (graph_history_exact 4 8 sample_graph_ops) as (g & Hr & Hf & _).
  - unfold ADJ_DIM. lia.
  - unfold INVALID. lia.
  - repeat constructor; done.
  - by vm_compute.
  - assert (option_map (λ g, (edge_weight_between 1 257 g, total_weight 1 g))
      (graph_run sample_graph_ops (graph_new 4 8)) = Some (94, 106)) as Hc by (vm_compute; reflexivity).
    rewrite Hr in Hc. cbn [option_map] in Hc. apply (inj Some) in Hc. apply pair_eq in Hc as [H1 H2].
    exists g. exact (conj Hr (conj H1 (conj H2 Hf))).
Defined.

Lemma graph_ops_functional_witness :
  ∃ g, graph_run sample_graph_ops (graph_new 4 8) = Some g ∧
    match remove_node 257 g with
    | Some (Ok _, g') => ∃ idx, node_view g idx = Some 257 ∧ node_view g' idx = None
    | _ => False
    end.
Proof.
  destruct (graph_new_inv 4 8) as [Hg0 H0]; [unfold ADJ_DIM; lia|unfold INVALID; lia|].
  destruct (graph_run_inv sample_graph_ops (graph_new 4 8) Hg0) as (g & Hr & Hg & _);
    [repeat constructor; done|by vm_compute|].
  exists g. split; [exact Hr|]. destruct (graph_ops_functional g Hg) as (_ & _ & H & _).
  specialize (H 257). destruct (remove_node 257 g) as [[[[]|e] g']|] eqn:E; [| |exact H].
  - destruct H as (_ & idx & Hi & Hv & _). exists idx. split; [exact Hi|].
    by rewrite Hv, Nat.eqb_refl.
  - destruct H as (_ & _ & Hno). apply (Hno 1%nat).
    assert (option_map (λ g, node_view g 1) (graph_run sample_graph_ops (graph_new 4 8)) = Some (Some 257))
      as Hc by (vm_compute; reflexivity).
    rewrite Hr in Hc. cbn [option_map] in Hc. apply (inj Some) in Hc. exact Hc.
Defined.

(** A zero-weight edge is invisible to the lookup, although it exists. *)
Example zero_weight_edge_not_found :
  match graph_run [GAddNode 1; GAddNode 2; GAddEdge 1 2 0] (graph_new 4 8) with
  | Some g => edge_view g 0 = Some (0%nat, 1%nat, 0) ∧ find_directed_edge 1 2 g = Some None
  | None => False
  end.
Proof. vm_compute. done. Qed.
