(* ===== verification/Coherence.v ===== *)
(** Coherence scores, cut pressure, adaptive recomputation and the engine:
    [crates/rvm-coherence/src/] [lib.rs], [scoring.rs], [pressure.rs],
    [adaptive.rs], [bridge.rs] (the scoring backends) and [engine.rs].

    The engine keeps the communication graph, a cached score and pressure per
    partition and the controller that decides when to recompute them.  It is
    proved to implement a map from pairs of partitions to traffic. *)

From stdpp Require Import base numbers list option sets gmap.
From Stdlib Require Import ZArith Lia.
From S2P Require Import Prelude.
From S2P Require Import SlotMap.
From S2P Require Import Types.
From S2P Require Import Partition.
From S2P Require Import CoherenceGraph.

Local Open Scope Z_scope.

(* ------------------------------------------------------------------ *)
(** ** Smoothing ([lib.rs]) *)

Record EmaFilter : Set := mkEmaFilter { ema_current_bp : Z; ema_alpha_bp : Z; ema_initialized : bool }.

Definition ema_new (alpha_bp : Z) : EmaFilter :=
  mkEmaFilter 0 (if 10000 <? alpha_bp then 10000 else alpha_bp) false.

Definition ema_current (f : EmaFilter) : CoherenceScore :=
  from_basis_points (if 10000 <? ema_current_bp f then 10000 else wrap16 (ema_current_bp f)).

Definition ema_update (sample_bp : Z) (f : EmaFilter) : CoherenceScore * EmaFilter :=
  let f :=
    if negb (ema_initialized f) then mkEmaFilter sample_bp (ema_alpha_bp f) true
    else
      let alpha := ema_alpha_bp f in
      let one_minus_alpha := sat_sub 10000 alpha in
      mkEmaFilter
        (wrap32 (wrap32 (alpha * sample_bp) + wrap32 (one_minus_alpha * ema_current_bp f)) / 10000)
        alpha true in
  (ema_current f, f).

Definition phi_to_coherence_bp (phi : Z) : Z := if 10000 <=? phi then 10000 else wrap16 phi.

(* ------------------------------------------------------------------ *)
(** ** Scores and pressure ([scoring.rs], [pressure.rs]) *)

Record PartitionCoherenceResult : Set := mkCoherenceResult {
  cr_partition : PartitionId;
  cr_score : CoherenceScore;
  cr_internal_weight : Z;
  cr_total_weight : Z;
}.

(** [((part as u128) * 10_000 / (total as u128))], before the final cast. *)
Definition ratio_bp (part total : Z) : Z := part * 10000 / total.

Definition compute_coherence_score (p : PartitionId) (g : CoherenceGraph) : PartitionCoherenceResult :=
  let total := total_weight p g in
  let internal := internal_weight p g in
  let score := if total =? 0 then COHERENCE_MAX
               else from_basis_points (wrap16 (ratio_bp internal total)) in
  mkCoherenceResult p score internal total.

(** The scores of the first [out] active nodes, then [None]. *)
Definition recompute_all_scores (g : CoherenceGraph) (out : nat)
    : list (option PartitionCoherenceResult) * Z :=
  let l := take out ((λ '(_, pid), compute_coherence_score pid g) <$> active_nodes g) in
  ((Some <$> l) ++ replicate (out - length l) None, Z.of_nat (length l)).

Definition SPLIT_THRESHOLD_BP : Z := 8000.
Definition MERGE_COHERENCE_THRESHOLD_BP : Z := 4000.

Record PressureResult : Set := mkPressureResult {
  pr_partition : PartitionId;
  pr_pressure : CutPressure;
  pr_should_split : bool;
  pr_external_weight : Z;
  pr_internal_weight : Z;
}.

Definition compute_cut_pressure (p : PartitionId) (g : CoherenceGraph) : PressureResult :=
  let total := total_weight p g in
  let internal := internal_weight p g in
  let external := sat_sub total internal in
  let pressure_bp := if total =? 0 then 0 else wrap32 (ratio_bp external total) in
  mkPressureResult p pressure_bp (SPLIT_THRESHOLD_BP <? pressure_bp) external internal.

Record MergeSignal : Set := mkMergeSignal {
  ms_partition_a : PartitionId;
  ms_partition_b : PartitionId;
  ms_mutual_coherence : CoherenceScore;
  ms_should_merge : bool;
}.

Definition evaluate_merge (a b : PartitionId) (g : CoherenceGraph) : MergeSignal :=
  let mutual_weight := edge_weight_between a b g in
  let combined := sat_add u64_max (total_weight a g) (total_weight b g) in
  let mutual_bp :=
    if combined =? 0 then 0
    else let bp := wrap16 (ratio_bp mutual_weight combined) in if 10000 <? bp then 10000 else bp in
  mkMergeSignal a b (from_basis_points mutual_bp) (MERGE_COHERENCE_THRESHOLD_BP <=? mutual_bp).

(* ------------------------------------------------------------------ *)
(** ** Adaptive recomputation ([adaptive.rs]) *)

Definition LOAD_HIGH : Z := 80.
Definition LOAD_MEDIUM : Z := 60.
Definition INTERVAL_HIGH : Z := 4.
Definition INTERVAL_MEDIUM : Z := 2.
Definition INTERVAL_LOW : Z := 1.

Record AdaptiveCoherenceEngine : Set := mkAdaptive {
  ad_last_compute_epoch : Z;
  ad_compute_count : Z;
  ad_budget_exceeded_count : Z;
  ad_current_interval : Z;
  ad_current_epoch : Z;
}.

Definition adaptive_new : AdaptiveCoherenceEngine := mkAdaptive 0 0 0 INTERVAL_LOW 0.

Definition load_interval (cpu_load_percent : Z) : Z :=
  if LOAD_HIGH <? cpu_load_percent then INTERVAL_HIGH
  else if LOAD_MEDIUM <? cpu_load_percent then INTERVAL_MEDIUM
  else INTERVAL_LOW.

Definition adaptive_tick (cpu_load_percent : Z) (a : AdaptiveCoherenceEngine)
    : bool * AdaptiveCoherenceEngine :=
  let a := mkAdaptive (ad_last_compute_epoch a) (ad_compute_count a) (ad_budget_exceeded_count a)
             (load_interval cpu_load_percent) (wrap32 (ad_current_epoch a + 1)) in
  (if ad_compute_count a =? 0 then true
   else ad_current_interval a <=? wrap32 (ad_current_epoch a - ad_last_compute_epoch a), a).

Definition record_computation (a : AdaptiveCoherenceEngine) : AdaptiveCoherenceEngine :=
  mkAdaptive (ad_current_epoch a) (wrap32 (ad_compute_count a + 1)) (ad_budget_exceeded_count a)
    (ad_current_interval a) (ad_current_epoch a).

Definition record_budget_exceeded (a : AdaptiveCoherenceEngine) : AdaptiveCoherenceEngine :=
  mkAdaptive (ad_last_compute_epoch a) (ad_compute_count a) (wrap32 (ad_budget_exceeded_count a + 1))
    (ad_current_interval a) (ad_current_epoch a).

Definition duty_cycle_bp (a : AdaptiveCoherenceEngine) : Z :=
  if ad_current_interval a =? 0 then 10000 else wrap16 (10000 / ad_current_interval a).

Definition adaptive_reset (_ : AdaptiveCoherenceEngine) : AdaptiveCoherenceEngine := adaptive_new.

(* ------------------------------------------------------------------ *)
(** ** Scoring backends ([bridge.rs]) *)

(** What the engine asks of a scoring backend. *)
Class CoherenceBackend := compute_score : PartitionId → CoherenceGraph → CoherenceScore.

Definition BuiltinCoherence : CoherenceBackend := λ p g, cr_score (compute_coherence_score p g).
(** The stub of the [ruvector] feature. *)
Definition SpectralCoherence : CoherenceBackend := λ p g, BuiltinCoherence p g.

(* ------------------------------------------------------------------ *)
(** ** The engine ([engine.rs]) *)

Definition ENGINE_MAX_NODES : nat := 32.
Definition ENGINE_MAX_EDGES : nat := 128.
Definition EDGE_DECAY_BP : Z := 500.

Inductive CoherenceDecision : Set :=
| NoAction
| SplitRecommended (partition : PartitionId) (pressure : CutPressure)
| MergeRecommended (a b : PartitionId) (mutual_coherence : CoherenceScore).

Record PartitionEntry : Set := mkPartitionEntry {
  en_id : PartitionId;
  en_score : CoherenceScore;
  en_pressure : CutPressure;
  en_active : bool;
}.
Definition entry_empty : PartitionEntry := mkPartitionEntry 0 COHERENCE_MAX PRESSURE_ZERO false.

(** The min-cut backend is a type parameter: no operation of the engine looks
    at it. *)
Record CoherenceEngine {MCB : Type} : Type := mkCoherenceEngine {
  ce_graph : CoherenceGraph;
  ce_adaptive : AdaptiveCoherenceEngine;
  ce_mincut_backend : MCB;
  ce_entries : list PartitionEntry;
  ce_epoch : Z;
}.
Arguments CoherenceEngine : clear implicits.
Arguments mkCoherenceEngine {MCB}.

Definition clear_active (e : PartitionEntry) : PartitionEntry :=
  mkPartitionEntry (en_id e) (en_score e) (en_pressure e) false.

Definition entry_is (id : PartitionId) (e : PartitionEntry) : bool := en_active e && (en_id e =? id).

(** The loop over the entries of [recommend]'s first part. *)
Definition split_step (best : option (PartitionId * CutPressure)) (e : PartitionEntry)
    : option (PartitionId * CutPressure) :=
  if negb (en_active e) then best
  else if SPLIT_THRESHOLD_BP <? en_pressure e then
    match best with
    | None => Some (en_id e, en_pressure e)
    | Some (_, prev) => if prev <? en_pressure e then Some (en_id e, en_pressure e) else best
    end
  else best.

Definition merge_step (g : CoherenceGraph) (best : option MergeSignal) (ab : PartitionId * PartitionId)
    : option MergeSignal :=
  let signal := evaluate_merge ab.1 ab.2 g in
  if ms_should_merge signal then
    match best with
    | None => Some signal
    | Some prev => if ms_mutual_coherence prev <? ms_mutual_coherence signal then Some signal else best
    end
  else best.

(** The pairs of two nested loops over [i] and [j > i], inactive slots skipped. *)
Fixpoint pairs_in_order (ids : list PartitionId) : list (PartitionId * PartitionId) :=
  match ids with
  | [] => []
  | a :: ids => ((λ b, (a, b)) <$> ids) ++ pairs_in_order ids
  end.

Definition active_ids_of (entries : list PartitionEntry) : list PartitionId :=
  omap (λ e, if en_active e then Some (en_id e) else None) entries.

Definition to_decision (split : option (PartitionId * CutPressure)) (merge : option MergeSignal)
    : CoherenceDecision :=
  match split with
  | Some (p, pr) => SplitRecommended p pr
  | None =>
      match merge with
      | Some s => MergeRecommended (ms_partition_a s) (ms_partition_b s) (ms_mutual_coherence s)
      | None => NoAction
      end
  end.

Definition add_partition_error (e : GraphError) : RvmError :=
  match e with
  | DuplicateNode => InvalidPartitionState
  | NodeCapacityExhausted => ResourceLimitExceeded
  | _ => InternalError
  end.

Definition add_edge_error (e : GraphError) : RvmError :=
  match e with
  | EdgeCapacityExhausted => ResourceLimitExceeded
  | NodeNotFound => PartitionNotFound
  | _ => InternalError
  end.

Definition i64_max : Z := 9223372036854775807.

Section engine.
Context {MCB : Type} `{CoherenceBackend}.
Notation Engine := (CoherenceEngine MCB).

Definition set_graph (g : CoherenceGraph) (e : Engine) : Engine :=
  mkCoherenceEngine g (ce_adaptive e) (ce_mincut_backend e) (ce_entries e) (ce_epoch e).
Definition set_entries (l : list PartitionEntry) (e : Engine) : Engine :=
  mkCoherenceEngine (ce_graph e) (ce_adaptive e) (ce_mincut_backend e) l (ce_epoch e).

Definition engine_new (mincut_backend : MCB) : Engine :=
  mkCoherenceEngine (graph_new ENGINE_MAX_NODES ENGINE_MAX_EDGES) adaptive_new mincut_backend
    (replicate ENGINE_MAX_NODES entry_empty) 0.

Definition engine_add_partition (id : PartitionId) : prog Engine RvmError unit := λ e,
  match add_node id (ce_graph e) with
  | (Err x, g) => (Err (add_partition_error x), set_graph g e)
  | (Ok _, g) =>
      let e := set_graph g e in
      match position (λ x, negb (en_active x)) (ce_entries e) with
      | None => (Err ResourceLimitExceeded, e)
      | Some i =>
          (Ok tt, set_entries
             (<[i := mkPartitionEntry id COHERENCE_MAX PRESSURE_ZERO true]> (ce_entries e)) e)
      end
  end.

(** [None] is the fuel of the graph's walk. *)
Definition engine_remove_partition (id : PartitionId) (e : Engine)
    : option (result RvmError unit * Engine) :=
  r ← remove_node id (ce_graph e);
  match r with
  | (Err _, g) => Some (Err PartitionNotFound, set_graph g e)
  | (Ok _, g) =>
      let e := set_graph g e in
      match position (entry_is id) (ce_entries e) with
      | None => Some (Ok tt, e)
      | Some i => Some (Ok tt, set_entries (alter clear_active i (ce_entries e)) e)
      end
  end.

Definition record_communication (from to : PartitionId) (weight : Z) (e : Engine)
    : option (result RvmError unit * Engine) :=
  found ← find_directed_edge from to (ce_graph e);
  match found with
  | Some eidx =>
      let '(r, g) := update_weight eidx (if weight <=? i64_max then weight else i64_max) (ce_graph e) in
      Some (map_err (λ _, InternalError) r, set_graph g e)
  | None =>
      let '(r, g) := add_edge from to weight (ce_graph e) in
      Some (map_err add_edge_error ((λ _, tt) <$> r), set_graph g e)
  end.

Definition recommend (e : Engine) : CoherenceDecision :=
  to_decision (foldl split_step None (ce_entries e))
    (foldl (merge_step (ce_graph e)) None (pairs_in_order (active_ids_of (ce_entries e)))).

(** One entry of the recomputation loop of [tick]. *)
Definition refresh (g : CoherenceGraph) (x : PartitionEntry) : PartitionEntry :=
  if negb (en_active x) then x
  else mkPartitionEntry (en_id x) (compute_score (en_id x) g)
         (pr_pressure (compute_cut_pressure (en_id x) g)) (en_active x).

Definition engine_tick (cpu_load_percent : Z) (e : Engine) : option (CoherenceDecision * Engine) :=
  '(_, g) ← decay_weights EDGE_DECAY_BP (ce_graph e);
  let '(should_recompute, ad) := adaptive_tick cpu_load_percent (ce_adaptive e) in
  let e := mkCoherenceEngine g ad (ce_mincut_backend e) (ce_entries e) (wrap64 (ce_epoch e + 1)) in
  if negb should_recompute then Some (recommend e, e)
  else
    let e := mkCoherenceEngine g (record_computation ad) (ce_mincut_backend e)
               (refresh g <$> ce_entries e) (ce_epoch e) in
    Some (recommend e, e).

Definition engine_score (id : PartitionId) (e : Engine) : CoherenceScore :=
  match find_by (entry_is id) (ce_entries e) with Some x => en_score x | None => COHERENCE_MAX end.

Definition engine_pressure (id : PartitionId) (e : Engine) : CutPressure :=
  match find_by (entry_is id) (ce_entries e) with Some x => en_pressure x | None => PRESSURE_ZERO end.

Definition partition_count (e : Engine) : nat := cg_node_count (ce_graph e).

End engine.

(* ------------------------------------------------------------------ *)
(** ** Scores and pressure: what they are *)

Lemma ratio_bp_bounds part total : 0 ≤ part ≤ total → 0 < total → 0 ≤ ratio_bp part total ≤ 10000.
Proof.
  intros Hp Ht. unfold ratio_bp. split; [apply Z.div_pos; lia|].
  apply Z.div_le_upper_bound; nia.
Qed.

Lemma ratio_bp_compl part total :
  0 ≤ part ≤ total → 0 < total → 9999 ≤ ratio_bp part total + ratio_bp (total - part) total ≤ 10000.
Proof.
  intros Hp Ht. unfold ratio_bp.
  pose proof (Z.div_mod (part * 10000) total). pose proof (Z.mod_pos_bound (part * 10000) total Ht).
  pose proof (Z.div_mod ((total - part) * 10000) total).
  pose proof (Z.mod_pos_bound ((total - part) * 10000) total Ht). nia.
Qed.

Lemma from_basis_points_id bp : bp ≤ 10000 → from_basis_points bp = bp.
Proof. intros H. unfold from_basis_points. destruct (10000 <? bp) eqn:E; [lia|done]. Qed.

(** The weights of a partition: the internal weight is part of the outgoing and
    of the incoming weight. *)
Lemma partition_weights g p :
  graph_inv g →
  0 ≤ internal_weight p g ≤ total_weight p g ≤ u64_max ∧
  (total_weight p g < u64_max → 2 * internal_weight p g ≤ total_weight p g).
Proof.
  intros Hg. unfold total_weight. destruct (find_node p g) as [i|] eqn:Hi.
  - rewrite (internal_weight_spec g p i Hg Hi). pose proof (gi_nodes g Hg) as HA.
    apply find_node_spec in Hi; [|done].
    assert (i < ADJ_DIM)%nat as Hlt by (pose proof (occupied_bound g i ltac:(by rewrite Hi)); lia).
    rewrite (co_out _ _ _ _ (gi_caches g Hg)), (co_inc _ _ _ _ (gi_caches g Hg)) by done.
    pose proof (gi_weights g Hg) as Hw.
    pose proof (wsum_mono (ends_are i i) (from_is i) (cg_edges g) Hw) as H1.
    pose proof (wsum_mono (ends_are i i) (to_is i) (cg_edges g) Hw) as H2.
    pose proof (wsum_bounds (ends_are i i) _ Hw). pose proof (wsum_bounds (from_is i) _ Hw).
    pose proof (wsum_bounds (to_is i) _ Hw). pose proof (gi_total g Hg).
    assert (wsum (ends_are i i) (cg_edges g) ≤ wsum (from_is i) (cg_edges g)).
    { apply H1. unfold ends_are, from_is. intros x y. by intros [? _]%andb_prop. }
    assert (wsum (ends_are i i) (cg_edges g) ≤ wsum (to_is i) (cg_edges g)).
    { apply H2. unfold ends_are, to_is. intros x y. by intros [_ ?]%andb_prop. }
    unfold sat_add. lia.
  - unfold internal_weight. rewrite Hi. unfold u64_max. lia.
Qed.

Lemma compute_score_spec g p :
  graph_inv g → 0 < total_weight p g →
  cr_score (compute_coherence_score p g) = ratio_bp (internal_weight p g) (total_weight p g) ∧
  pr_pressure (compute_cut_pressure p g) =
    ratio_bp (total_weight p g - internal_weight p g) (total_weight p g).
Proof.
  intros Hg Ht. destruct (partition_weights g p Hg) as [Hw _].
  assert (0 ≤ internal_weight p g ≤ total_weight p g) as Hi by lia.
  unfold compute_coherence_score, compute_cut_pressure. cbn [cr_score pr_pressure].
  rewrite (proj2 (Z.eqb_neq (total_weight p g) 0)) by lia.
  pose proof (ratio_bp_bounds _ _ Hi Ht) as H1.
  pose proof (ratio_bp_bounds (total_weight p g - internal_weight p g) (total_weight p g)) as H2.
  unfold sat_sub. rewrite Z.max_r by lia.
  rewrite wrap16_id by (unfold is_u16, u16_max; lia).
  rewrite wrap32_id by (unfold is_u32, u32_max; lia).
  by rewrite from_basis_points_id by lia.
Qed.

(** Scores and pressure stay in range, and a communicating partition is
    never coherent enough to merge.  The score is the integer share of the
    internal weight, the pressure that of the rest, both between 0 and 10000 and
    adding up to 10000 less a rounding of one.  Self-loops count twice in the
    total, so once a partition has any traffic (and the total has not
    saturated), its score is at most 5000 and its pressure at least 5000: two
    such partitions always fail the merge precondition. *)
Theorem score_pressure_bounds g p q :
  graph_inv g → 0 < total_weight p g →
  let score := cr_score (compute_coherence_score p g) in
  let pressure := pr_pressure (compute_cut_pressure p g) in
  score = internal_weight p g * 10000 / total_weight p g ∧
  0 ≤ score ≤ 10000 ∧ 0 ≤ pressure ≤ 10000 ∧ 9999 ≤ score + pressure ≤ 10000 ∧
  (total_weight p g < u64_max →
     score ≤ 5000 ∧ 5000 ≤ pressure ∧
     ∀ other, merge_preconditions_met score other = Err MpInsufficientCoherence ∧
              merge_preconditions_met other score = Err MpInsufficientCoherence) ∧
  (total_weight q g = 0 →
     cr_score (compute_coherence_score q g) = 10000 ∧ pr_pressure (compute_cut_pressure q g) = 0).
Proof.
  intros Hg Ht score pressure. destruct (compute_score_spec g p Hg Ht) as [Hs Hp].
  destruct (partition_weights g p Hg) as [Hw Hhalf].
  assert (0 ≤ internal_weight p g ≤ total_weight p g) as Hi by lia. subst score pressure. rewrite Hs, Hp.
  pose proof (ratio_bp_bounds _ _ Hi Ht) as H1.
  pose proof (ratio_bp_compl _ _ Hi Ht) as H2.
  pose proof (ratio_bp_bounds (total_weight p g - internal_weight p g) (total_weight p g)) as H3.
  split_and!; try done; try lia.
  - intros Hlt. specialize (Hhalf Hlt).
    assert (ratio_bp (internal_weight p g) (total_weight p g) ≤ 5000).
    { unfold ratio_bp. apply Z.div_le_upper_bound; lia. }
    assert (5000 ≤ ratio_bp (total_weight p g - internal_weight p g) (total_weight p g)).
    { unfold ratio_bp. apply Z.div_le_lower_bound; lia. }
    split_and!; try done. intros other. unfold merge_preconditions_met, meets_threshold.
    rewrite (proj2 (Z.leb_gt DEFAULT_MERGE_THRESHOLD (ratio_bp _ _))) by (unfold DEFAULT_MERGE_THRESHOLD; lia).
    cbn. rewrite orb_true_r. done.
  - intros Hz. unfold compute_coherence_score, compute_cut_pressure. cbn [cr_score pr_pressure].
    by rewrite Hz.
Qed.

(* ------------------------------------------------------------------ *)
(** ** Smoothing *)

Lemma ema_step_bounds (alpha sample cur hi lo : Z) :
  0 ≤ alpha ≤ 10000 → 0 ≤ lo → lo ≤ sample ≤ hi → lo ≤ cur ≤ hi → hi ≤ u16_max →
  let cur' := wrap32 (wrap32 (alpha * sample) + wrap32 (sat_sub 10000 alpha * cur)) / 10000 in
  cur' = (alpha * sample + (10000 - alpha) * cur) / 10000 ∧ lo ≤ cur' ≤ hi.
Proof.
  intros Ha Hlo Hs Hc Hhi cur'. subst cur'. unfold sat_sub, u16_max in *. rewrite Z.max_r by lia.
  rewrite (wrap32_id (alpha * sample)) by (unfold is_u32, u32_max; nia).
  rewrite (wrap32_id ((10000 - alpha) * cur)) by (unfold is_u32, u32_max; nia).
  rewrite wrap32_id by (unfold is_u32, u32_max; nia). split; [done|].
  split; [apply Z.div_le_lower_bound; nia|apply Z.div_le_upper_bound; nia].
Qed.

Definition ema_run (samples : list Z) (f : EmaFilter) : EmaFilter :=
  foldl (λ f s, (ema_update s f).2) f samples.

(** The smoothing filter never leaves the range of its samples and its
    32-bit arithmetic never wraps: fed 16-bit samples between [lo] and [hi], the
    filter's value after any history is between [lo] and [hi], each step is the
    exact weighted mean rounded down, and the score read is that value clipped
    at 10000. *)
Theorem ema_history_bounded alpha lo hi samples s :
  0 ≤ alpha → 0 ≤ lo ≤ hi → hi ≤ u16_max →
  Forall (λ x, lo ≤ x ≤ hi) (samples ++ [s]) →
  let f := ema_run samples (ema_new alpha) in
  let a := Z.min alpha 10000 in
  let '(score, f') := ema_update s f in
  ema_current_bp f' =
    (if decide (samples = []) then s else (a * s + (10000 - a) * ema_current_bp f) / 10000) ∧
  lo ≤ ema_current_bp f' ≤ hi ∧ score = Z.min 10000 (ema_current_bp f').
Proof.
  intros Halpha Hlo Hhi [Hsamples Hs]%Forall_app. inversion Hs as [|? ? Hs1 _]; subst.
  assert (ema_alpha_bp (ema_new alpha) = Z.min alpha 10000) as Ha0.
  { unfold ema_new. cbn. destruct (10000 <? alpha) eqn:E; lia. }
  assert (∀ l f, Forall (λ x, lo ≤ x ≤ hi) l → ema_alpha_bp f = Z.min alpha 10000 →
    (ema_initialized f = true → lo ≤ ema_current_bp f ≤ hi) →
    let f' := ema_run l f in
    ema_alpha_bp f' = Z.min alpha 10000 ∧ ema_initialized f' = ema_initialized f || negb (bool_decide (l = [])) ∧
    (ema_initialized f' = true → lo ≤ ema_current_bp f' ≤ hi)) as Hrun.
  { induction l as [|x l IH]; intros f Hl Hfa Hf f'; [subst f'; cbn; by rewrite orb_false_r|].
    apply Forall_cons in Hl as [Hx Hl]. subst f'. unfold ema_run in *. cbn [foldl].
    destruct (IH (ema_update x f).2 Hl) as (H1 & H2 & H3).
    - unfold ema_update. destruct (ema_initialized f); done.
    - intros _. unfold ema_update. destruct (ema_initialized f) eqn:E; cbn; [|done].
      apply (ema_step_bounds (ema_alpha_bp f)); try done; [lia|lia|by apply Hf].
    - split_and!; [done| |done]. rewrite H2. unfold ema_update. destruct (ema_initialized f); cbn; done. }
  destruct (Hrun samples (ema_new alpha) Hsamples Ha0 ltac:(done)) as (Hfa & Hfi & Hfc).
  cbn [ema_new ema_initialized orb] in Hfi. cbv zeta. set (f := ema_run samples (ema_new alpha)) in *.
  assert (lo ≤ ema_current_bp (ema_update s f).2 ≤ hi ∧ ema_current_bp (ema_update s f).2 =
    if decide (samples = []) then s
    else (Z.min alpha 10000 * s + (10000 - Z.min alpha 10000) * ema_current_bp f) / 10000) as [[H1 H1'] H2].
  { unfold ema_update. destruct (decide (samples = [])) as [->|Hne]; [done|].
    rewrite bool_decide_eq_false_2 in Hfi by done. cbn in Hfi. rewrite Hfi. cbn [negb snd ema_current_bp].
    destruct (ema_step_bounds (ema_alpha_bp f) s (ema_current_bp f) hi lo) as [He Hb]; try lia; try done.
    { by apply Hfc. }
    split; [done|]. rewrite He, Hfa. done. }
  assert ((ema_update s f).1 = ema_current (ema_update s f).2) as Hcur by done.
  destruct (ema_update s f) as [score f']. cbn [fst snd] in *. split_and!; [done|done|done|].
  rewrite Hcur. unfold ema_current, from_basis_points. destruct (10000 <? ema_current_bp f') eqn:E;
    [cbn; lia|]. unfold u16_max in *. rewrite wrap16_id by (unfold is_u16, u16_max; lia). rewrite E. lia.
Qed.

(* ------------------------------------------------------------------ *)
(** ** Adaptive recomputation *)

(** One epoch as the engine drives the controller: tick, and record the
    computation when one is due. *)
Definition adaptive_step (load : Z) (a : AdaptiveCoherenceEngine) : bool * AdaptiveCoherenceEngine :=
  let '(due, a) := adaptive_tick load a in (due, if due then record_computation a else a).

Fixpoint adaptive_results (loads : list Z) (a : AdaptiveCoherenceEngine) : list bool :=
  match loads with
  | [] => []
  | load :: loads => let '(due, a) := adaptive_step load a in due :: adaptive_results loads a
  end.

Definition gap (a : AdaptiveCoherenceEngine) : Z := wrap32 (ad_current_epoch a - ad_last_compute_epoch a).

Lemma load_interval_range load : 1 ≤ load_interval load ≤ 4.
Proof.
  unfold load_interval, INTERVAL_HIGH, INTERVAL_MEDIUM, INTERVAL_LOW. case_guards; lia.
Qed.

Lemma adaptive_step_spec load a :
  0 ≤ gap a ≤ 3 →
  let '(due, a') := adaptive_step load a in
  due = (ad_compute_count a =? 0) || (load_interval load <=? gap a + 1) ∧
  gap a' = (if due then 0 else gap a + 1) ∧ 0 ≤ gap a' ≤ 3 ∧
  ad_compute_count a' = (if due then wrap32 (ad_compute_count a + 1) else ad_compute_count a).
Proof.
  intros Hgap. unfold adaptive_step, adaptive_tick. pose proof (load_interval_range load).
  assert (wrap32 (wrap32 (ad_current_epoch a + 1) - ad_last_compute_epoch a) = gap a + 1) as Hg.
  { unfold gap, wrap32 in *. rewrite Zminus_mod_idemp_l.
    replace (ad_current_epoch a + 1 - ad_last_compute_epoch a)
      with (ad_current_epoch a - ad_last_compute_epoch a + 1) by lia.
    rewrite <- Zplus_mod_idemp_l. apply Z.mod_small. lia. }
  cbn [ad_compute_count ad_current_interval ad_current_epoch ad_last_compute_epoch]. rewrite Hg.
  assert (∀ x, gap (record_computation x) = 0) as Hrec
    by (intros x; unfold gap; cbn; by rewrite Z.sub_diag).
  destruct (ad_compute_count a =? 0) eqn:E; cbn [orb].
  { split_and!; try done; rewrite Hrec; lia. }
  destruct (load_interval load <=? gap a + 1) eqn:E2.
  { split_and!; try done; rewrite Hrec; lia. }
  cut (gap (mkAdaptive (ad_last_compute_epoch a) (ad_compute_count a) (ad_budget_exceeded_count a)
    (load_interval load) (wrap32 (ad_current_epoch a + 1))) = gap a + 1); [|exact Hg].
  intros ->. split_and!; try done; lia.
Qed.

Lemma adaptive_results_false loads a :
  0 ≤ gap a ≤ 3 → (∀ b, b ∈ adaptive_results loads a → b = false) → gap a + Z.of_nat (length loads) ≤ 3.
Proof.
  revert a. induction loads as [|load loads IH]; intros a Hg Hall; cbn [length]; [lia|].
  cbn [adaptive_results] in Hall. pose proof (adaptive_step_spec load a Hg) as H.
  destruct (adaptive_step load a) as [due a']. destruct H as (_ & Hga & Hr & _).
  assert (due = false) as -> by (apply Hall; by left).
  specialize (IH a' Hr). rewrite Hga in IH. cut (gap a + 1 + Z.of_nat (length loads) ≤ 3); [lia|].
  apply IH. intros b Hb. apply Hall. by right.
Qed.

Lemma adaptive_results_drop i loads a :
  0 ≤ gap a ≤ 3 → ∃ a', 0 ≤ gap a' ≤ 3 ∧ drop i (adaptive_results loads a) = adaptive_results (drop i loads) a'.
Proof.
  revert loads a. induction i as [|i IH]; intros [|load loads] a Hg; cbn [adaptive_results drop];
    [by exists a|by exists a|by exists a|].
  pose proof (adaptive_step_spec load a Hg) as H. destruct (adaptive_step load a) as [due a'].
  destruct H as (_ & _ & Hr & _). cbn [drop]. by apply IH.
Qed.

Lemma adaptive_results_take n loads a : take n (adaptive_results loads a) = adaptive_results (take n loads) a.
Proof.
  revert loads a. induction n as [|n IH]; intros [|load loads] a; cbn; try done.
  destruct (adaptive_step load a) as [due a']. cbn. by rewrite IH.
Qed.

Lemma length_adaptive_results loads a : length (adaptive_results loads a) = length loads.
Proof.
  revert a. induction loads as [|load loads IH]; intros a; cbn; [done|].
  destruct (adaptive_step load a) as [due a']. cbn. by rewrite IH.
Qed.

(** Coherence is always recomputed again.  Whatever the CPU load reported in
    each epoch, the first epoch recomputes, every four consecutive epochs contain
    a recomputation, and an epoch with a load of at most 60 percent always
    recomputes. *)
Theorem adaptive_recomputes loads :
  let r := adaptive_results loads adaptive_new in
  (loads ≠ [] → r !! 0%nat = Some true) ∧
  (∀ i, (i + 4 ≤ length loads)%nat → ∃ j, (i ≤ j < i + 4)%nat ∧ r !! j = Some true) ∧
  (∀ i load, loads !! i = Some load → load ≤ 60 → r !! i = Some true).
Proof.
  intros r. subst r. assert (0 ≤ gap adaptive_new ≤ 3) as H0 by done. split_and!.
  - intros Hne. destruct loads as [|load loads]; [done|]. done.
  - intros i Hi. destruct (adaptive_results_drop i loads adaptive_new H0) as (a & Hg & Hd).
    assert (¬ ∀ b, b ∈ adaptive_results (take 4 (drop i loads)) a → b = false) as Hnot.
    { intros Hall. pose proof (adaptive_results_false _ a Hg Hall) as H.
      rewrite length_take, length_drop in H. lia. }
    destruct (decide (Exists (λ b, b = true) (adaptive_results (take 4 (drop i loads)) a))) as [He|Hn].
    + apply Exists_exists in He as (b & [k Hk]%list_elem_of_lookup & ->).
      pose proof (lookup_lt_Some _ _ _ Hk) as Hlt.
      rewrite length_adaptive_results, length_take, length_drop in Hlt.
      exists (i + k)%nat. split; [lia|].
      rewrite <- lookup_drop, Hd. rewrite <- adaptive_results_take in Hk. by apply lookup_take_Some in Hk as [? _].
    + destruct Hnot. intros [] Hb; [|done]. destruct Hn. apply Exists_exists. by exists true.
  - intros i load Hi Hload. destruct (adaptive_results_drop i loads adaptive_new H0) as (a & Hg & Hd).
    replace i with (i + 0)%nat by lia. rewrite <- lookup_drop, Hd.
    rewrite (drop_S _ _ _ Hi). cbn [adaptive_results]. pose proof (adaptive_step_spec load a Hg) as H.
    destruct (adaptive_step load a) as [due a']. destruct H as (-> & _). cbn. f_equal.
    assert (load_interval load = 1) as ->.
    { unfold load_interval, LOAD_HIGH, LOAD_MEDIUM, INTERVAL_LOW. case_guards; lia. }
    rewrite (proj2 (Z.leb_le 1 (gap a + 1))) by lia. apply orb_true_r.
Qed.

(* ------------------------------------------------------------------ *)
(** ** The recommendation *)

Lemma elem_of_pairs_in_order ids a b :
  (a, b) ∈ pairs_in_order ids ↔ ∃ i j, (i < j)%nat ∧ ids !! i = Some a ∧ ids !! j = Some b.
Proof.
  induction ids as [|x ids IH]; cbn [pairs_in_order].
  { split; [by intros ?%not_elem_of_nil|]. by intros (i & j & _ & ? & _). }
  rewrite elem_of_app, IH, list_elem_of_fmap. split.
  - intros [(y & Hy & Hj)|(i & j & ? & ? & ?)].
    + injection Hy as -> ->. apply list_elem_of_lookup in Hj as [j Hj].
      exists 0%nat, (S j). split_and!; [lia|done|done].
    + exists (S i), (S j). split_and!; [lia|done|done].
  - intros (i & j & Hij & Hi & Hj). destruct i as [|i], j as [|j]; try lia.
    + injection Hi as ->. left. exists b. split; [done|]. by eapply list_elem_of_lookup_2.
    + right. exists i, j. split_and!; [lia|done|done].
Qed.

Lemma elem_of_snoc {A} (l : list A) (x y : A) : y ∈ l ++ [x] ↔ y ∈ l ∨ y = x.
Proof. by rewrite elem_of_app, list_elem_of_singleton. Qed.

(** The invariant of the loop: [best] is a strongest candidate of [l]. *)
Definition best_split (l : list PartitionEntry) (best : option (PartitionId * CutPressure)) : Prop :=
  match best with
  | None => ∀ e, e ∈ l → en_active e = true → en_pressure e ≤ 8000
  | Some (p, pr) => 8000 < pr ∧
      (∃ e, e ∈ l ∧ en_active e = true ∧ en_id e = p ∧ en_pressure e = pr) ∧
      ∀ e, e ∈ l → en_active e = true → en_pressure e ≤ pr
  end.

Lemma best_split_keep l best x :
  best_split l best → (en_active x = true → en_pressure x ≤ from_option snd 8000 best) →
  best_split (l ++ [x]) best.
Proof.
  intros Hb Hx. destruct best as [[p pr]|]; cbn in *.
  - destruct Hb as (? & (e & ? & ? & ? & ?) & Hmax). split_and!; [done| |].
    + exists e. rewrite elem_of_snoc. auto.
    + intros y [Hy| ->]%elem_of_snoc; auto.
  - intros y [Hy| ->]%elem_of_snoc; auto.
Qed.

Lemma best_split_take l best x :
  best_split l best → en_active x = true → 8000 < en_pressure x → from_option snd 8000 best < en_pressure x →
  best_split (l ++ [x]) (Some (en_id x, en_pressure x)).
Proof.
  intros Hb Hx H8 Hlt. split_and!; [done| |].
  - exists x. rewrite elem_of_snoc. auto.
  - intros y [Hy| ->]%elem_of_snoc Hay; [|done].
    destruct best as [[p pr]|]; cbn in *; [destruct Hb as (_ & _ & Hb)|]; specialize (Hb y Hy Hay); lia.
Qed.

Lemma split_fold_spec l : best_split l (foldl split_step None l).
Proof.
  induction l as [|x l IH] using rev_ind; cbn; [by intros e ?%not_elem_of_nil|].
  rewrite foldl_snoc. revert IH. generalize (foldl split_step None l). intros best IH.
  unfold split_step, SPLIT_THRESHOLD_BP.
  destruct (en_active x) eqn:Hx; cbn [negb]; [|by apply best_split_keep; [|congruence]].
  destruct (8000 <? en_pressure x) eqn:E.
  - destruct best as [[p pr]|]; [destruct (pr <? en_pressure x) eqn:E2|].
    + apply (best_split_take l (Some (p, pr))); cbn; [done|done|lia|lia].
    + apply best_split_keep; cbn; [done|lia].
    + apply (best_split_take l None); cbn; [done|done|lia|lia].
  - apply best_split_keep; [done|]. intros _. destruct best as [[p pr]|]; cbn in *; lia.
Qed.

Definition mutual_coherence (g : CoherenceGraph) (a b : PartitionId) : Z :=
  ms_mutual_coherence (evaluate_merge a b g).

Lemma should_merge_spec a b g : ms_should_merge (evaluate_merge a b g) = (4000 <=? mutual_coherence g a b).
Proof.
  unfold mutual_coherence, evaluate_merge. cbn. unfold MERGE_COHERENCE_THRESHOLD_BP.
  destruct (sat_add _ _ _ =? 0); [done|].
  destruct (10000 <? wrap16 _) eqn:E; [done|]. unfold from_basis_points. by rewrite E.
Qed.

Definition best_merge (g : CoherenceGraph) (l : list (PartitionId * PartitionId))
    (best : option MergeSignal) : Prop :=
  match best with
  | None => ∀ a b, (a, b) ∈ l → mutual_coherence g a b < 4000
  | Some s => ∃ a b, (a, b) ∈ l ∧ s = evaluate_merge a b g ∧ 4000 ≤ mutual_coherence g a b ∧
      ∀ a' b', (a', b') ∈ l → mutual_coherence g a' b' ≤ mutual_coherence g a b
  end.

Lemma merge_fold_spec g l : best_merge g l (foldl (merge_step g) None l).
Proof.
  induction l as [|[x y] l IH] using rev_ind; cbn; [by intros a b ?%not_elem_of_nil|].
  rewrite foldl_snoc. revert IH. generalize (foldl (merge_step g) None l). intros best IH.
  unfold merge_step. cbn [fst snd]. rewrite should_merge_spec.
  change (ms_mutual_coherence (evaluate_merge x y g)) with (mutual_coherence g x y).
  destruct best as [s|]; cbn [best_merge] in IH.
  - destruct IH as (a & b & Hab & -> & H4 & Hmax).
    change (ms_mutual_coherence (evaluate_merge a b g)) with (mutual_coherence g a b).
    assert (mutual_coherence g x y ≤ mutual_coherence g a b →
      best_merge g (l ++ [(x, y)]) (Some (evaluate_merge a b g))) as Hkeep.
    { intros Hle. exists a, b. split_and!; [apply elem_of_snoc; by left|done|done|].
      intros a' b' [H|H]%elem_of_snoc; [by apply Hmax|]. by injection H as -> ->. }
    destruct (4000 <=? mutual_coherence g x y) eqn:E;
      [destruct (mutual_coherence g a b <? mutual_coherence g x y) eqn:E2|].
    + exists x, y. split_and!; [apply elem_of_snoc; by right|done|lia|].
      intros a' b' [H|H]%elem_of_snoc; [specialize (Hmax a' b' H); lia|]. by injection H as -> ->.
    + apply Hkeep. lia.
    + apply Hkeep. lia.
  - destruct (4000 <=? mutual_coherence g x y) eqn:E.
    + exists x, y. split_and!; [apply elem_of_snoc; by right|done|lia|].
      intros a' b' [H|H]%elem_of_snoc; [specialize (IH a' b' H); lia|]. by injection H as -> ->.
    + intros a' b' [H|H]%elem_of_snoc; [by apply IH|]. injection H as -> ->. lia.
Qed.

(** The recommendation of any engine, over its entries. *)
Lemma recommend_spec {MCB} (e : CoherenceEngine MCB) :
  let ids := active_ids_of (ce_entries e) in
  let mutual := mutual_coherence (ce_graph e) in
  match recommend e with
  | SplitRecommended p pr => 8000 < pr ∧
      (∃ x, x ∈ ce_entries e ∧ en_active x = true ∧ en_id x = p ∧ en_pressure x = pr) ∧
      ∀ x, x ∈ ce_entries e → en_active x = true → en_pressure x ≤ pr
  | MergeRecommended a b s =>
      (∀ x, x ∈ ce_entries e → en_active x = true → en_pressure x ≤ 8000) ∧
      4000 ≤ s ∧ s = mutual a b ∧
      (∃ i j, (i < j)%nat ∧ ids !! i = Some a ∧ ids !! j = Some b) ∧
      ∀ i j a' b', (i < j)%nat → ids !! i = Some a' → ids !! j = Some b' → mutual a' b' ≤ s
  | NoAction =>
      (∀ x, x ∈ ce_entries e → en_active x = true → en_pressure x ≤ 8000) ∧
      ∀ i j a b, (i < j)%nat → ids !! i = Some a → ids !! j = Some b → mutual a b < 4000
  end.
Proof.
  intros ids mutual. unfold recommend. fold ids.
  pose proof (split_fold_spec (ce_entries e)) as Hs.
  pose proof (merge_fold_spec (ce_graph e) (pairs_in_order ids)) as Hm.
  destruct (foldl split_step None (ce_entries e)) as [[p pr]|]; cbn [to_decision]; [done|].
  destruct (foldl (merge_step _) None _) as [s|]; cbn [to_decision].
  - destruct Hm as (a & b & Hab & -> & H4 & Hmax). apply elem_of_pairs_in_order in Hab.
    split_and!; [done|done|done|done|].
    intros i j a' b' ???. apply Hmax, elem_of_pairs_in_order. by exists i, j.
  - split; [done|]. intros i j a b ???. apply Hm, elem_of_pairs_in_order. by exists i, j.
Qed.

(* ------------------------------------------------------------------ *)
(** ** The traffic a graph carries *)

(** Edge [k] carries [w] from partition [a] to partition [b]. *)
Definition flow (g : CoherenceGraph) (k : nat) (a b : PartitionId) (w : Z) : Prop :=
  ∃ f t, edge_view g k = Some (f, t, w) ∧ node_view g f = Some a ∧ node_view g t = Some b.

(** At most one edge per ordered pair of partitions, with a positive weight. *)
Definition one_edge (g : CoherenceGraph) : Prop :=
  ∀ i j a b w w', flow g i a b w → flow g j a b w' → i = j ∧ 0 < w'.

Definition edge_key (g : CoherenceGraph) (e : Edge) : option (PartitionId * PartitionId) :=
  if ge_active e then
    a ← node_view g (ge_from e); b ← node_view g (ge_to e); Some (a, b)
  else None.

Definition traffic (g : CoherenceGraph) : gmap (PartitionId * PartitionId) Z :=
  ge_weight <$> view (edge_key g) (cg_edges g).

Lemma edge_key_Some g e a b :
  edge_key g e = Some (a, b) ↔
  ge_active e = true ∧ node_view g (ge_from e) = Some a ∧ node_view g (ge_to e) = Some b.
Proof.
  unfold edge_key. destruct (ge_active e); [|naive_solver].
  destruct (node_view g (ge_from e)), (node_view g (ge_to e)); cbn; naive_solver.
Qed.

Lemma flow_edge g k a b w :
  flow g k a b w ↔ ∃ e, cg_edges g !! k = Some e ∧ edge_key g e = Some (a, b) ∧ ge_weight e = w.
Proof.
  unfold flow. setoid_rewrite edge_key_Some. split.
  - intros (f & t & Hv & Hf & Ht). apply edge_view_inv in Hv as (e & Hk & Ha & <- & <- & <-).
    by exists e.
  - intros (e & Hk & (Ha & Hf & Ht) & <-). exists (ge_from e), (ge_to e).
    split_and!; [|done|done]. by apply edge_view_Some.
Qed.

Lemma one_edge_slots g : one_edge g → slots_ok (edge_key g) (cg_edges g).
Proof.
  intros H1 i j s t [a b] Hi Hj Hs Ht.
  apply (H1 i j a b (ge_weight s) (ge_weight t)); apply flow_edge; eauto.
Qed.

Lemma traffic_spec g a b w : one_edge g → traffic g !! (a, b) = Some w ↔ ∃ k, flow g k a b w.
Proof.
  intros H1%one_edge_slots. unfold traffic. rewrite lookup_fmap, fmap_Some. split.
  - intros (e & He & ->). apply view_spec in He as (k & Hk & Hkey); [|done].
    exists k. apply flow_edge. by exists e.
  - intros (k & (e & Hk & Hkey & <-)%flow_edge). exists e. split; [|done]. apply view_spec; [done|]. by exists k.
Qed.

Lemma flow_active g k f t w :
  graph_inv g → edge_view g k = Some (f, t, w) →
  ∃ a b, node_view g f = Some a ∧ node_view g t = Some b ∧ flow g k a b w.
Proof.
  intros Hg Hv. pose proof Hv as Hv0. apply edge_view_inv in Hv as (e & Hk & Ha & Hf & Ht & Hw).
  destruct (gi_ends g Hg k e Hk Ha) as [[a Hfa] [b Hta]]. rewrite Hf in Hfa. rewrite Ht in Hta.
  exists a, b. split_and!; [done|done|]. by exists f, t.
Qed.

Lemma traffic_size g : graph_inv g → one_edge g → size (traffic g) = cg_edge_count g.
Proof.
  intros Hg H1. unfold traffic. rewrite map_size_fmap, view_size by by apply one_edge_slots.
  rewrite (gi_ecount g Hg). pose proof (gi_ends g Hg) as He. revert He. generalize (cg_edges g).
  induction l as [|e l IH]; intros He; cbn; [done|].
  rewrite IH by (intros i; apply (He (S i))). unfold edge_key.
  destruct (ge_active e) eqn:Ha; [|done]. destruct (He O e eq_refl Ha) as [[a Hf] [b Ht]].
  unfold node_view. by rewrite Hf, Ht.
Qed.

(** The traffic of the pairs selected by [q]. *)
Definition tsum (q : PartitionId → PartitionId → bool) (T : gmap (PartitionId * PartitionId) Z) : Z :=
  foldr (λ '((a, b), w) s, (if q a b then w else 0) + s) 0 (map_to_list T).

Lemma tsum_wsum g q r :
  graph_inv g → one_edge g →
  (∀ x y a b, node_view g x = Some a → node_view g y = Some b → r x y = q a b) →
  tsum q (traffic g) = wsum r (cg_edges g).
Proof.
  intros Hg H1 Hqr. unfold tsum, traffic. rewrite map_to_list_fmap.
  assert (∀ l l' : list (PartitionId * PartitionId * Edge), l ≡ₚ l' →
    foldr (λ '((a, b), w) s, (if q a b then w else 0) + s) 0 (prod_map id ge_weight <$> l) =
    foldr (λ '((a, b), w) s, (if q a b then w else 0) + s) 0 (prod_map id ge_weight <$> l')) as Hperm.
  { induction 1 as [|[[a b] w] l l' _ IH|[[a b] w] [[c d] v] l|l1 l2 l3 _ IH1 _ IH2]; cbn in *; try lia. }
  rewrite (Hperm _ _ (view_to_list _ _ (one_edge_slots g H1))).
  pose proof (gi_ends g Hg) as He. revert He. generalize (cg_edges g).
  induction l as [|e l IH]; intros He; cbn; [done|].
  assert (∀ i e, l !! i = Some e → ge_active e = true →
    is_Some (gn_partition (gnode_at g (ge_from e))) ∧ is_Some (gn_partition (gnode_at g (ge_to e)))) as He'
    by (intros i; apply (He (S i))).
  specialize (IH He'). unfold edge_key at 1, weight_if.
  destruct (ge_active e) eqn:Ha; cbn [andb]; [|cbn; lia]. destruct (He O e eq_refl Ha) as [[a Hf] [b Ht]].
  unfold node_view at 1 2. rewrite Hf, Ht. cbn. rewrite (Hqr _ _ a b Hf Ht). lia.
Qed.

(* ------------------------------------------------------------------ *)
(** ** The engine as a map of traffic *)

(** The abstract engine: the cached score and pressure of each partition, the
    traffic between ordered pairs, the controller and the epoch. *)
Record TrafficModel : Type := mkModel {
  mo_cached : gmap PartitionId (CoherenceScore * CutPressure);
  mo_traffic : gmap (PartitionId * PartitionId) Z;
  mo_adaptive : AdaptiveCoherenceEngine;
  mo_epoch : Z;
}.

Definition model_new : TrafficModel := mkModel ∅ ∅ adaptive_new 0.

Definition sent_by (p : PartitionId) : PartitionId → PartitionId → bool := λ a _, a =? p.
Definition received_by (p : PartitionId) : PartitionId → PartitionId → bool := λ _ b, b =? p.

Definition model_total (T : gmap (PartitionId * PartitionId) Z) (p : PartitionId) : Z :=
  sat_add u64_max (tsum (sent_by p) T) (tsum (received_by p) T).
Definition model_internal (T : gmap (PartitionId * PartitionId) Z) (p : PartitionId) : Z :=
  default 0 (T !! (p, p)).

Definition model_score (T : gmap (PartitionId * PartitionId) Z) (p : PartitionId) : CoherenceScore :=
  if model_total T p =? 0 then 10000 else model_internal T p * 10000 / model_total T p.
Definition model_pressure (T : gmap (PartitionId * PartitionId) Z) (p : PartitionId) : CutPressure :=
  if model_total T p =? 0 then 0 else (model_total T p - model_internal T p) * 10000 / model_total T p.
Definition model_mutual (T : gmap (PartitionId * PartitionId) Z) (a b : PartitionId) : Z :=
  let combined := sat_add u64_max (model_total T a) (model_total T b) in
  if combined =? 0 then 0
  else sat_add u64_max (default 0 (T !! (a, b))) (default 0 (T !! (b, a))) * 10000 / combined.

(** The decisions a model allows: ties may be broken either way. *)
Definition decides (m : TrafficModel) (d : CoherenceDecision) : Prop :=
  let calm := ∀ q s pr, mo_cached m !! q = Some (s, pr) → pr ≤ 8000 in
  let known p := is_Some (mo_cached m !! p) in
  match d with
  | SplitRecommended p pr => 8000 < pr ∧ (∃ s, mo_cached m !! p = Some (s, pr)) ∧
      ∀ q s' pr', mo_cached m !! q = Some (s', pr') → pr' ≤ pr
  | MergeRecommended a b s => calm ∧ a ≠ b ∧ known a ∧ known b ∧
      4000 ≤ s ∧ s = model_mutual (mo_traffic m) a b ∧
      ∀ c d, c ≠ d → known c → known d → model_mutual (mo_traffic m) c d ≤ s
  | NoAction => calm ∧ ∀ a b, a ≠ b → known a → known b → model_mutual (mo_traffic m) a b < 4000
  end.

Inductive EngineOp : Set :=
| EAdd (p : PartitionId) | ERemove (p : PartitionId)
| ERecord (from to : PartitionId) (weight : Z) | ETick (cpu_load_percent : Z).

Definition touches (p : PartitionId) (ab : PartitionId * PartitionId) : bool := (ab.1 =? p) || (ab.2 =? p).

Definition model_tick (load : Z) (m : TrafficModel) : TrafficModel :=
  let T := omap (λ w, if decayed EDGE_DECAY_BP w =? 0 then None else Some (decayed EDGE_DECAY_BP w))
             (mo_traffic m) in
  let '(due, ad) := adaptive_step load (mo_adaptive m) in
  mkModel (if due then map_imap (λ p _, Some (model_score T p, model_pressure T p)) (mo_cached m)
           else mo_cached m)
    T ad (wrap64 (mo_epoch m + 1)).

(** [None]: the operation is a tick, whose output is a decision. *)
Definition model_exec (op : EngineOp) (m : TrafficModel) : option (result RvmError unit) * TrafficModel :=
  match op with
  | EAdd p =>
      if decide (is_Some (mo_cached m !! p)) then (Some (Err InvalidPartitionState), m)
      else if (size (mo_cached m) =? ENGINE_MAX_NODES)%nat then (Some (Err ResourceLimitExceeded), m)
      else (Some (Ok tt), mkModel (<[p := (10000, 0)]> (mo_cached m)) (mo_traffic m) (mo_adaptive m) (mo_epoch m))
  | ERemove p =>
      if decide (is_Some (mo_cached m !! p)) then
        (Some (Ok tt), mkModel (delete p (mo_cached m))
           (filter (λ '(ab, _), touches p ab = false) (mo_traffic m)) (mo_adaptive m) (mo_epoch m))
      else (Some (Err PartitionNotFound), m)
  | ERecord a b w =>
      if negb (bool_decide (is_Some (mo_cached m !! a)) && bool_decide (is_Some (mo_cached m !! b)))
      then (Some (Err PartitionNotFound), m)
      else
        match mo_traffic m !! (a, b) with
        | None =>
            if (size (mo_traffic m) =? ENGINE_MAX_EDGES)%nat then (Some (Err ResourceLimitExceeded), m)
            else (Some (Ok tt), mkModel (mo_cached m) (<[(a, b) := w]> (mo_traffic m)) (mo_adaptive m) (mo_epoch m))
        | Some w0 => (Some (Ok tt), mkModel (mo_cached m) (<[(a, b) := w0 + w]> (mo_traffic m)) (mo_adaptive m) (mo_epoch m))
        end
  | ETick load => (None, model_tick load m)
  end.

Inductive EngineOut : Set := OResult (r : result RvmError unit) | ODecision (d : CoherenceDecision).

Definition engine_exec {MCB} `{CoherenceBackend} (op : EngineOp) (e : CoherenceEngine MCB)
    : option (EngineOut * CoherenceEngine MCB) :=
  match op with
  | EAdd p => let '(r, e) := engine_add_partition p e in Some (OResult r, e)
  | ERemove p => (λ '(r, e), (OResult r, e)) <$> engine_remove_partition p e
  | ERecord a b w => (λ '(r, e), (OResult r, e)) <$> record_communication a b w e
  | ETick load => (λ '(d, e), (ODecision d, e)) <$> engine_tick load e
  end.

(** What a backend promises the engine: the ratio score on well-formed graphs. *)
Class RatioBackend (B : CoherenceBackend) : Prop :=
  ratio_score g p : graph_inv g → compute_score p g = cr_score (compute_coherence_score p g).

#[export] Instance builtin_ratio : RatioBackend BuiltinCoherence.
Proof. done. Qed.
#[export] Instance spectral_ratio : RatioBackend SpectralCoherence.
Proof. done. Qed.

Definition entry_key (x : PartitionEntry) : option PartitionId :=
  if en_active x then Some (en_id x) else None.
Definition cached_of (x : PartitionEntry) : CoherenceScore * CutPressure := (en_score x, en_pressure x).

Record engine_simulates {MCB} (e : CoherenceEngine MCB) (m : TrafficModel) : Prop := {
  si_graph : graph_inv (ce_graph e);
  si_one : one_edge (ce_graph e);
  si_nodes : length (cg_nodes (ce_graph e)) = ENGINE_MAX_NODES;
  si_edges : length (cg_edges (ce_graph e)) = ENGINE_MAX_EDGES;
  si_entries : slots_ok entry_key (ce_entries e);
  si_length : length (ce_entries e) = ENGINE_MAX_NODES;
  si_cached : cached_of <$> view entry_key (ce_entries e) = mo_cached m;
  si_ids p : is_Some (mo_cached m !! p) ↔ ∃ i, node_view (ce_graph e) i = Some p;
  si_traffic : traffic (ce_graph e) = mo_traffic m;
  si_adaptive : ce_adaptive e = mo_adaptive m;
  si_epoch : ce_epoch e = mo_epoch m;
}.

(** *** What the model says of weights *)

Lemma wsum_pair g a b f t :
  graph_inv g → one_edge g → node_view g f = Some a → node_view g t = Some b →
  wsum (ends_are f t) (cg_edges g) = default 0 (traffic g !! (a, b)).
Proof.
  intros Hg H1 Hf Ht. destruct (traffic g !! (a, b)) as [w|] eqn:E; cbn [default].
  - apply traffic_spec in E as [k Hk]; [|done].
    pose proof Hk as (f' & t' & Hv & Hf' & Ht').
    rewrite <- (node_view_inj g f' f a Hg Hf' Hf), <- (node_view_inj g t' t b Hg Ht' Ht).
    apply edge_view_inv in Hv as (e & He & Ha & Hfe & Hte & Hw).
    rewrite <- Hw. replace (ge_weight e) with (weight_if (ends_are f' t') e)
      by (unfold weight_if, ends_are; by rewrite Ha, Hfe, Hte, !Nat.eqb_refl).
    apply (wsum_single _ _ k); [done|]. intros j e' Hj Ha' Hq.
    unfold ends_are in Hq. apply andb_prop in Hq as [Hq1%Nat.eqb_eq Hq2%Nat.eqb_eq].
    refine (proj1 (H1 j k a b (ge_weight e') w _ Hk)).
    exists f', t'. split_and!; [rewrite <- Hq1, <- Hq2; by apply edge_view_Some|done|done].
  - apply wsum_zero. intros k e He Ha. apply not_true_is_false. intros Hq.
    unfold ends_are in Hq. apply andb_prop in Hq as [Hq1%Nat.eqb_eq Hq2%Nat.eqb_eq].
    assert (traffic g !! (a, b) = Some (ge_weight e)) as Hs; [|congruence].
    apply traffic_spec; [done|]. exists k, f, t.
    split_and!; [rewrite <- Hq1, <- Hq2; by apply edge_view_Some|done|done].
Qed.

Lemma model_total_spec g p :
  graph_inv g → one_edge g → (∃ i, node_view g i = Some p) →
  total_weight p g = model_total (traffic g) p.
Proof.
  intros Hg H1 [i Hi]. pose proof (node_view_small g i p Hg Hi).
  pose proof (proj2 (find_node_spec g p i Hg) Hi) as Hf.
  unfold total_weight, model_total. rewrite Hf.
  rewrite (co_out _ _ _ _ (gi_caches g Hg)), (co_inc _ _ _ _ (gi_caches g Hg)) by done.
  assert (∀ x a, node_view g x = Some a → (x =? i)%nat = (a =? p)) as Hq.
  { intros x a Hx. destruct (a =? p) eqn:E.
    - apply Z.eqb_eq in E as ->. apply Nat.eqb_eq. by eapply node_view_inj.
    - apply Nat.eqb_neq. intros ->. rewrite Hi in Hx. injection Hx as ->. by rewrite Z.eqb_refl in E. }
  f_equal; symmetry; apply tsum_wsum; try done; intros x y a b Hx Hy;
    unfold from_is, to_is, sent_by, received_by; by apply Hq.
Qed.

Lemma model_internal_spec g p :
  graph_inv g → one_edge g → (∃ i, node_view g i = Some p) →
  internal_weight p g = model_internal (traffic g) p.
Proof.
  intros Hg H1 [i Hi]. rewrite (internal_weight_spec g p i Hg) by by apply find_node_spec.
  by apply wsum_pair.
Qed.

Lemma model_score_spec g p :
  graph_inv g → one_edge g → (∃ i, node_view g i = Some p) →
  cr_score (compute_coherence_score p g) = model_score (traffic g) p ∧
  pr_pressure (compute_cut_pressure p g) = model_pressure (traffic g) p.
Proof.
  intros Hg H1 Hi. unfold model_score, model_pressure.
  rewrite <- (model_total_spec g p Hg H1 Hi), <- (model_internal_spec g p Hg H1 Hi).
  destruct (total_weight p g =? 0) eqn:E.
  - unfold compute_coherence_score, compute_cut_pressure. cbn [cr_score pr_pressure]. by rewrite E.
  - apply compute_score_spec; [done|]. destruct (partition_weights g p Hg) as [? _]. lia.
Qed.

(** What a partition exchanges with another is part of its total. *)
Lemma model_pair_weight g a b :
  graph_inv g → one_edge g → a ≠ b →
  (∃ i, node_view g i = Some a) → (∃ i, node_view g i = Some b) →
  0 ≤ sat_add u64_max (default 0 (traffic g !! (a, b))) (default 0 (traffic g !! (b, a))) ≤ model_total (traffic g) a.
Proof.
  intros Hg H1 Hab Ha Hb. rewrite <- (model_total_spec g a Hg H1 Ha). destruct Ha as [i Hi], Hb as [j Hj].
  unfold total_weight. rewrite (proj2 (find_node_spec g a i Hg) Hi).
  rewrite <- (wsum_pair g a b i j Hg H1 Hi Hj), <- (wsum_pair g b a j i Hg H1 Hj Hi).
  rewrite (co_out _ _ _ _ (gi_caches g Hg)), (co_inc _ _ _ _ (gi_caches g Hg)) by by eapply node_view_small.
  pose proof (gi_weights g Hg) as Hw.
  pose proof (wsum_mono (ends_are i j) (from_is i) _ Hw ltac:(intros ??; by intros [??]%andb_prop)).
  pose proof (wsum_mono (ends_are j i) (to_is i) _ Hw ltac:(intros ??; by intros [??]%andb_prop)).
  pose proof (wsum_bounds (ends_are i j) _ Hw). pose proof (wsum_bounds (ends_are j i) _ Hw).
  unfold sat_add, u64_max. lia.
Qed.

Lemma model_mutual_spec g a b :
  graph_inv g → one_edge g → a ≠ b →
  (∃ i, node_view g i = Some a) → (∃ i, node_view g i = Some b) →
  mutual_coherence g a b = model_mutual (traffic g) a b.
Proof.
  intros Hg H1 Hab Ha Hb. unfold mutual_coherence, evaluate_merge, model_mutual. cbn [ms_mutual_coherence].
  rewrite (model_total_spec g a Hg H1 Ha), (model_total_spec g b Hg H1 Hb).
  pose proof (model_total_spec g a Hg H1 Ha) as Hta. pose proof (model_total_spec g b Hg H1 Hb) as Htb.
  destruct (partition_weights g a Hg) as [Hwa _]. destruct (partition_weights g b Hg) as [Hwb _].
  rewrite Hta in Hwa. rewrite Htb in Hwb.
  destruct Ha as [i Hi], Hb as [j Hj].
  assert (edge_weight_between a b g =
    sat_add u64_max (default 0 (traffic g !! (a, b))) (default 0 (traffic g !! (b, a)))) as ->.
  { unfold edge_weight_between. rewrite (proj2 (find_node_spec g a i Hg) Hi), (proj2 (find_node_spec g b j Hg) Hj).
    rewrite !(co_adj _ _ _ _ (gi_caches g Hg)) by by eapply node_view_small.
    by rewrite (wsum_pair g a b i j Hg H1 Hi Hj), (wsum_pair g b a j i Hg H1 Hj Hi). }
  destruct (sat_add u64_max (model_total (traffic g) a) (model_total (traffic g) b) =? 0) eqn:E; [done|].
  pose proof (model_pair_weight g a b Hg H1 Hab (ex_intro _ i Hi) (ex_intro _ j Hj)) as Hle.
  set (x := sat_add u64_max (default 0 _) (default 0 _)) in *.
  set (c := sat_add u64_max (model_total (traffic g) a) (model_total (traffic g) b)) in *.
  assert (model_total (traffic g) a ≤ c) by (subst c; unfold sat_add; lia).
  pose proof (ratio_bp_bounds x c ltac:(lia) ltac:(lia)).
  rewrite wrap16_id by (unfold is_u16, u16_max; lia).
  destruct (10000 <? ratio_bp x c) eqn:E2; [lia|]. by rewrite from_basis_points_id by lia.
Qed.

Lemma wsum_disjoint q r es :
  weights_ok es → (∀ x y, q x y = true → r x y = false) → wsum q es + wsum r es ≤ wsum any es.
Proof.
  intros Hw Hqr. induction es as [|e es IH]; cbn [wsum]; [done|].
  assert (0 ≤ ge_weight e) by (by apply (Hw 0%nat)). specialize (IH (λ i, Hw (S i))).
  assert (weight_if q e + weight_if r e ≤ weight_if any e); [|lia].
  unfold weight_if, any. specialize (Hqr (ge_from e) (ge_to e)).
  destruct (ge_active e); cbn [andb]; [|lia]. destruct (q _ _), (r _ _); first [lia|by specialize (Hqr eq_refl)].
Qed.

(** Two partitions that exchange traffic cannot both be scored 7000 or more. *)
Lemma exchanging_scores g a b :
  graph_inv g → one_edge g → a ≠ b →
  (∃ i, node_view g i = Some a) → (∃ i, node_view g i = Some b) →
  0 < model_mutual (traffic g) a b →
  ¬ (7000 ≤ model_score (traffic g) a ∧ 7000 ≤ model_score (traffic g) b).
Proof.
  intros Hg H1 Hab Ha Hb Hm [Hsa Hsb].
  pose proof (model_pair_weight g a b Hg H1 Hab Ha Hb) as Hpa.
  pose proof (model_pair_weight g b a Hg H1 (not_eq_sym Hab) Hb Ha) as Hpb.
  unfold sat_add in Hpb. rewrite (Z.add_comm (default 0 (traffic g !! (b, a)))) in Hpb.
  assert (0 < model_total (traffic g) a ∧ 0 < model_total (traffic g) b) as [Hta Htb].
  { unfold model_mutual in Hm. destruct (_ =? 0) eqn:E; [done|].
    destruct (decide (sat_add u64_max (default 0 (traffic g !! (a, b))) (default 0 (traffic g !! (b, a))) = 0))
      as [Hz|]; [by rewrite Hz in Hm|]. unfold sat_add in *. lia. }
  unfold model_score in Hsa, Hsb. rewrite (proj2 (Z.eqb_neq (model_total _ a) 0)) in Hsa by lia.
  rewrite (proj2 (Z.eqb_neq (model_total _ b) 0)) in Hsb by lia.
  rewrite <- (model_total_spec g a Hg H1 Ha), <- (model_internal_spec g a Hg H1 Ha) in *.
  rewrite <- (model_total_spec g b Hg H1 Hb), <- (model_internal_spec g b Hg H1 Hb) in *.
  destruct (partition_weights g a Hg) as [Hwa H2a]. destruct (partition_weights g b Hg) as [Hwb H2b].
  pose proof (Z.div_le_upper_bound (internal_weight a g * 10000) (total_weight a g)) as Hda.
  pose proof (Z.div_le_upper_bound (internal_weight b g * 10000) (total_weight b g)) as Hdb.
  assert (internal_weight a g + internal_weight b g ≤ u64_max) as Hsum.
  { destruct Ha as [i Hi], Hb as [j Hj].
    rewrite (internal_weight_spec g a i Hg), (internal_weight_spec g b j Hg) by by apply find_node_spec.
    etrans; [|apply (gi_total g Hg)]. apply wsum_disjoint; [apply Hg|]. unfold ends_are. intros x y.
    intros [Hx%Nat.eqb_eq _]%andb_prop. apply andb_false_iff. left. apply Nat.eqb_neq. intros Hxj. subst.
    rewrite Hi in Hj. congruence. }
  assert (total_weight a g = u64_max) as Ea.
  { destruct (decide (total_weight a g = u64_max)); [done|].
    specialize (H2a ltac:(lia)). pose proof (Hda 5000 ltac:(lia) ltac:(lia)). lia. }
  assert (total_weight b g = u64_max) as Eb.
  { destruct (decide (total_weight b g = u64_max)); [done|].
    specialize (H2b ltac:(lia)). pose proof (Hdb 5000 ltac:(lia) ltac:(lia)). lia. }
  rewrite Ea in *. rewrite Eb in *.
  pose proof (Z.mul_div_le (internal_weight a g * 10000) u64_max ltac:(done)).
  pose proof (Z.mul_div_le (internal_weight b g * 10000) u64_max ltac:(done)). unfold u64_max in *. lia.
Qed.

Lemma model_mutual_sym T a b : model_mutual T a b = model_mutual T b a.
Proof.
  unfold model_mutual, sat_add. rewrite (Z.add_comm (model_total T a)).
  by rewrite (Z.add_comm (default 0 (T !! (a, b)))).
Qed.

(** Pairwise bounds bound the sum. *)
Lemma traffic_bound_wsum g B :
  graph_inv g → one_edge g → 0 ≤ B → (∀ ab w, traffic g !! ab = Some w → w ≤ B) →
  wsum any (cg_edges g) ≤ Z.of_nat (length (cg_edges g)) * B.
Proof.
  intros Hg H1 HB Hb.
  assert (∀ k e, cg_edges g !! k = Some e → ge_active e = true → ge_weight e ≤ B) as He.
  { intros k e Hk Ha. destruct (gi_ends g Hg k e Hk Ha) as [[a Hf] [b Ht]].
    apply (Hb (a, b)). apply traffic_spec; [done|]. exists k, (ge_from e), (ge_to e).
    split_and!; [by apply edge_view_Some|done|done]. }
  revert He. generalize (cg_edges g). induction l as [|e l IH]; intros He; cbn [wsum length]; [lia|].
  specialize (IH (λ k, He (S k))). specialize (He O e eq_refl). unfold weight_if, any at 1.
  destruct (ge_active e); cbn [andb]; [specialize (He eq_refl)|]; lia.
Qed.

(** Unsaturated totals: the exchange with one other partition and twice the
    internal weight are parts of the total. *)
Lemma total_parts g a b :
  graph_inv g → one_edge g → a ≠ b →
  (∃ i, node_view g i = Some a) → (∃ i, node_view g i = Some b) →
  2 * wsum any (cg_edges g) ≤ u64_max →
  2 * internal_weight a g + (default 0 (traffic g !! (a, b)) + default 0 (traffic g !! (b, a))) ≤ total_weight a g ∧
  total_weight a g + total_weight b g ≤ 2 * wsum any (cg_edges g).
Proof.
  intros Hg H1 Hab [i Hi] [j Hj] Hmax. rewrite (internal_weight_spec g a i Hg) by by apply find_node_spec.
  rewrite <- (wsum_pair g a b i j Hg H1 Hi Hj), <- (wsum_pair g b a j i Hg H1 Hj Hi).
  unfold total_weight. rewrite (proj2 (find_node_spec g a i Hg) Hi), (proj2 (find_node_spec g b j Hg) Hj).
  rewrite !(co_out _ _ _ _ (gi_caches g Hg)), !(co_inc _ _ _ _ (gi_caches g Hg)) by by eapply node_view_small.
  pose proof (gi_weights g Hg) as Hw.
  assert (i ≠ j) as Hij by (intros ->; congruence). clear Hi Hj Hab Hg H1.
  pose proof (wsum_bounds (from_is i) _ Hw). pose proof (wsum_bounds (to_is i) _ Hw).
  pose proof (wsum_bounds (from_is j) _ Hw). pose proof (wsum_bounds (to_is j) _ Hw).
  unfold sat_add. rewrite !Z.min_r by lia.
  clear - Hw Hij. revert Hw. generalize (cg_edges g). induction l as [|e l IH]; intros Hw; cbn; [lia|].
  assert (0 ≤ ge_weight e) by (by apply (Hw 0%nat)). specialize (IH (λ i, Hw (S i))).
  assert (2 * weight_if (ends_are i i) e + (weight_if (ends_are i j) e + weight_if (ends_are j i) e)
    ≤ weight_if (from_is i) e + weight_if (to_is i) e ∧
    weight_if (from_is i) e + weight_if (to_is i) e + (weight_if (from_is j) e + weight_if (to_is j) e)
    ≤ 2 * weight_if any e); [|lia].
  unfold weight_if, ends_are, from_is, to_is, any. destruct (ge_active e); cbn [andb]; [|lia].
  destruct (ge_from e =? i)%nat eqn:E1, (ge_to e =? i)%nat eqn:E2, (ge_from e =? j)%nat eqn:E3,
    (ge_to e =? j)%nat eqn:E4; split_bool; cbn [andb]; lia.
Qed.

(** With current pressures and unsaturated weights no merge is recommended:
    the exchange a merge needs puts a partition over the split threshold first. *)
Lemma no_merge_recommended {MCB} (e : CoherenceEngine MCB) m a b s :
  engine_simulates e m → 2 * wsum any (cg_edges (ce_graph e)) ≤ u64_max →
  (∀ p, is_Some (mo_cached m !! p) → ∃ sc, mo_cached m !! p = Some (sc, model_pressure (mo_traffic m) p)) →
  ¬ decides m (MergeRecommended a b s).
Proof.
  intros Hsim Hmax Hfresh (Hcalm & Hab & Ha & Hb & Hs & -> & _).
  pose proof (si_graph e m Hsim) as Hg. pose proof (si_one e m Hsim) as H1. pose proof (si_ids e m Hsim) as Hids.
  pose proof (Hfresh a Ha) as [sa Hsa]. pose proof (Hfresh b Hb) as [sb Hsb].
  apply Hcalm in Hsa, Hsb. rewrite Hids in Ha, Hb.
  rewrite <- (si_traffic e m Hsim) in *. set (g := ce_graph e) in *.
  destruct (total_parts g a b Hg H1 Hab Ha Hb Hmax) as [Hpa Hqa].
  destruct (total_parts g b a Hg H1 (not_eq_sym Hab) Hb Ha Hmax) as [Hpb Hqb].
  destruct (partition_weights g a Hg) as [Hwa _]. destruct (partition_weights g b Hg) as [Hwb _].
  unfold model_pressure in Hsa, Hsb. unfold model_mutual in Hs.
  rewrite <- (model_total_spec g a Hg H1 Ha), <- (model_internal_spec g a Hg H1 Ha) in *.
  rewrite <- (model_total_spec g b Hg H1 Hb), <- (model_internal_spec g b Hg H1 Hb) in *.
  pose proof (model_pair_weight g a b Hg H1 Hab Ha Hb) as Hpw. unfold sat_add in Hs, Hpw.
  set (ta := total_weight a g) in *. set (tb := total_weight b g) in *.
  set (w := default 0 (traffic g !! (a, b)) + default 0 (traffic g !! (b, a))) in *.
  replace (default 0 (traffic g !! (b, a)) + default 0 (traffic g !! (a, b))) with w in Hpb by (unfold w; lia).
  clearbody w ta tb. rewrite !Z.min_r in Hs by lia.
  assert (∀ x c, 0 < c → 4000 ≤ x / c → 4000 * c ≤ x) as Hge.
  { intros x c Hc Hd. pose proof (Z.mul_div_le x c Hc). nia. }
  assert (∀ x c, 0 < c → x / c ≤ 8000 → x < 8001 * c) as Hlt.
  { intros x c Hc Hd. pose proof (Z.mul_succ_div_gt x c Hc). nia. }
  destruct (ta + tb =? 0) eqn:E0; split_bool; [lia|]. apply Hge in Hs; [|lia].
  destruct (ta =? 0) eqn:Ea; split_bool; [lia|]. destruct (tb =? 0) eqn:Eb; split_bool; [lia|].
  apply Hlt in Hsa, Hsb; lia.
Qed.

(** *** The decision *)

Section simulation.
Context {MCB : Type} (e : CoherenceEngine MCB) (m : TrafficModel).
Hypothesis Hsim : engine_simulates e m.

Lemma sim_entry p s pr :
  mo_cached m !! p = Some (s, pr) ↔
  ∃ x, x ∈ ce_entries e ∧ en_active x = true ∧ en_id x = p ∧ en_score x = s ∧ en_pressure x = pr.
Proof.
  rewrite <- (si_cached e m Hsim), lookup_fmap, fmap_Some.
  setoid_rewrite (view_spec entry_key _ _ _ (si_entries e m Hsim)). unfold entry_key, cached_of. split.
  - intros (x & (i & Hi & Hk) & [= -> ->]). exists x. destruct (en_active x); [|done].
    injection Hk as <-. split_and!; try done. by eapply list_elem_of_lookup_2.
  - intros (x & [i Hi]%list_elem_of_lookup & Ha & <- & <- & <-). exists x. split; [|done].
    exists i. by rewrite Ha.
Qed.

Lemma sim_ids p : p ∈ active_ids_of (ce_entries e) ↔ is_Some (mo_cached m !! p).
Proof.
  change (active_ids_of (ce_entries e)) with (omap entry_key (ce_entries e)).
  by rewrite elem_of_keys, <- (si_cached e m Hsim), lookup_fmap, fmap_is_Some.
Qed.

Lemma sim_calm :
  (∀ x, x ∈ ce_entries e → en_active x = true → en_pressure x ≤ 8000) ↔
  ∀ q s pr, mo_cached m !! q = Some (s, pr) → pr ≤ 8000.
Proof.
  split.
  - intros H q s pr (x & Hx & Ha & _ & _ & <-)%sim_entry. by apply H.
  - intros H x Hx Ha. apply (H (en_id x) (en_score x)), sim_entry. by exists x.
Qed.

Lemma sim_mutual a b :
  a ≠ b → is_Some (mo_cached m !! a) → is_Some (mo_cached m !! b) →
  mutual_coherence (ce_graph e) a b = model_mutual (mo_traffic m) a b.
Proof.
  intros Hab Ha%(si_ids e m Hsim) Hb%(si_ids e m Hsim). rewrite <- (si_traffic e m Hsim).
  apply model_mutual_spec; [apply Hsim|apply Hsim|done|done|done].
Qed.

Lemma sim_pair i j a b :
  (i < j)%nat → active_ids_of (ce_entries e) !! i = Some a → active_ids_of (ce_entries e) !! j = Some b →
  a ≠ b ∧ is_Some (mo_cached m !! a) ∧ is_Some (mo_cached m !! b).
Proof.
  intros Hij Hi Hj. split_and!.
  - intros ->. pose proof (keys_NoDup entry_key _ (si_entries e m Hsim)) as Hnd.
    pose proof (NoDup_lookup _ i j b Hnd Hi Hj). lia.
  - apply sim_ids. by eapply list_elem_of_lookup_2.
  - apply sim_ids. by eapply list_elem_of_lookup_2.
Qed.

Lemma sim_unordered (P : PartitionId → PartitionId → Prop) :
  (∀ a b, P a b → P b a) →
  (∀ i j a b, (i < j)%nat → active_ids_of (ce_entries e) !! i = Some a →
     active_ids_of (ce_entries e) !! j = Some b → P a b) →
  ∀ a b, a ≠ b → is_Some (mo_cached m !! a) → is_Some (mo_cached m !! b) → P a b.
Proof.
  intros Hsym Hord a b Hab [i Hi]%sim_ids%list_elem_of_lookup [j Hj]%sim_ids%list_elem_of_lookup.
  destruct (decide (i < j)%nat); [by eapply Hord|]. apply Hsym. eapply (Hord j i); [|done|done].
  assert (i ≠ j) by (intros ->; congruence). lia.
Qed.

Lemma sim_decides : decides m (recommend e).
Proof.
  pose proof (recommend_spec e) as H. cbv zeta in H. destruct (recommend e) as [|p pr|a b s]; cbn [decides].
  - destruct H as [Hcalm Hmerge]. split; [by apply sim_calm|].
    intros a b Hab Ha Hb. rewrite <- (sim_mutual a b Hab Ha Hb).
    apply (sim_unordered (λ a b, a ≠ b → is_Some (mo_cached m !! a) → is_Some (mo_cached m !! b) →
      mutual_coherence (ce_graph e) a b < 4000)); try done.
    + intros c d Hcd Hne Hd Hc. specialize (Hcd (not_eq_sym Hne) Hc Hd).
      rewrite sim_mutual, model_mutual_sym, <- sim_mutual by done. done.
    + intros i j c d ??? _ _ _. by eapply Hmerge.
  - destruct H as (H8 & (x & Hx & Ha & Hid & Hp) & Hmax). split_and!; [done| |].
    + exists (en_score x). apply sim_entry. by exists x.
    + intros q s' pr' (y & Hy & Hay & _ & _ & <-)%sim_entry. by apply Hmax.
  - destruct H as (Hcalm & H4 & -> & (i & j & Hij & Hi & Hj) & Hmax).
    destruct (sim_pair i j a b Hij Hi Hj) as (Hab & Ha & Hb).
    split_and!; [by apply sim_calm|done|done|done|done|by apply sim_mutual|].
    intros c d Hcd Hc Hd.
    apply (sim_unordered (λ c d, c ≠ d → is_Some (mo_cached m !! c) → is_Some (mo_cached m !! d) →
      model_mutual (mo_traffic m) c d ≤ mutual_coherence (ce_graph e) a b)); try done.
    + intros x y Hxy Hne Hy Hx. rewrite model_mutual_sym. by apply Hxy.
    + intros i' j' x y ??? Hne Hx Hy. rewrite <- sim_mutual by done. by eapply Hmax.
Qed.

(** Each partition of the graph has one node. *)
Lemma nodes_size {A} (g : CoherenceGraph) (C : gmap PartitionId A) :
  graph_inv g → (∀ p, is_Some (C !! p) ↔ ∃ i, node_view g i = Some p) →
  size C = size (view gn_partition (cg_nodes g)).
Proof.
  intros Hg HC. rewrite <- !size_dom. f_equal. apply set_eq. intros p.
  rewrite !elem_of_dom, HC. split.
  - intros [i Hi]. assert (i < length (cg_nodes g))%nat as Hlt
      by (apply occupied_bound; by eapply mk_is_Some).
    exists (gnode_at g i). apply view_spec; [apply Hg|]. exists i. split; [by apply node_at_lookup|done].
  - intros [n (i & Hi & Hk)%view_elem]. exists i. unfold node_view, gnode_at. by rewrite Hi.
Qed.

End simulation.

(** *** The operations *)

Lemma flow_ext (g g' : CoherenceGraph) :
  graph_inv g → (∀ k, edge_view g' k = edge_view g k) →
  (∀ i, node_view g i ≠ None → node_view g' i = node_view g i) →
  ∀ k a b w, flow g' k a b w ↔ flow g k a b w.
Proof.
  intros Hg He Hn k a b w. unfold flow. setoid_rewrite He.
  assert (∀ f t w, edge_view g k = Some (f, t, w) → node_view g' f = node_view g f ∧ node_view g' t = node_view g t)
    as Hends.
  { intros f t w' Hv. destruct (flow_active g k f t w' Hg Hv) as (x & y & Hx & Hy & _).
    split; apply Hn; congruence. }
  split; intros (f & t & Hv & Hf & Ht); exists f, t; destruct (Hends f t w Hv); split_and!; congruence.
Qed.

Lemma traffic_change (g g' : CoherenceGraph) (R : PartitionId * PartitionId → Z → Prop) T :
  one_edge g' → (∀ a b w, (∃ k, flow g' k a b w) ↔ R (a, b) w) →
  (∀ ab w, T !! ab = Some w ↔ R ab w) → traffic g' = T.
Proof.
  intros H1 HR HT. apply map_eq. intros [a b]. apply option_eq. intros w.
  by rewrite traffic_spec, HR, HT.
Qed.

Lemma one_edge_ext (g g' : CoherenceGraph) : (∀ k a b w, flow g' k a b w ↔ flow g k a b w) → one_edge g → one_edge g'.
Proof. intros Hf H1 i j a b w w' Hi%Hf Hj%Hf. by eapply H1. Qed.

Lemma traffic_ext (g g' : CoherenceGraph) :
  (∀ k a b w, flow g' k a b w ↔ flow g k a b w) → one_edge g → traffic g' = traffic g.
Proof.
  intros Hf H1. apply map_eq. intros [a b]. apply option_eq. intros w.
  rewrite !traffic_spec by eauto using one_edge_ext. by setoid_rewrite Hf.
Qed.

(** The weight an operation may add. *)
Definition recorded (op : EngineOp) : Z := match op with ERecord _ _ w => w | _ => 0 end.
Definition engine_op_ok (op : EngineOp) : Prop := match op with ERecord _ _ w => 0 < w ≤ i64_max | _ => True end.

(** The outcome the refinement asks of one operation. *)
Definition refined {MCB} (e : CoherenceEngine MCB) (m' : TrafficModel) (w : Z) (e' : CoherenceEngine MCB) : Prop :=
  engine_simulates e' m' ∧ wsum any (cg_edges (ce_graph e')) ≤ wsum any (cg_edges (ce_graph e)) + w.

Lemma sim_same {MCB} (e : CoherenceEngine MCB) m w :
  engine_simulates e m → 0 ≤ w → refined e m w (set_graph (ce_graph e) e).
Proof. intros Hs Hw. split; [by destruct e|]. cbn. lia. Qed.

Lemma sim_add {MCB} (e : CoherenceEngine MCB) m p :
  engine_simulates e m →
  let '(r, e') := engine_add_partition p e in
  (model_exec (EAdd p) m).1 = Some r ∧ refined e (model_exec (EAdd p) m).2 0 e'.
Proof.
  intros Hs. pose proof (si_graph e m Hs) as Hg. cbn [model_exec]. unfold engine_add_partition.
  pose proof (nodes_size (ce_graph e) (mo_cached m) Hg (si_ids e m Hs)) as Hsz.
  pose proof (add_node_spec (ce_graph e) p Hg) as H.
  destruct (add_node p (ce_graph e)) as [[i|x] g'].
  - destruct H as (Hg' & Hi & He & Hn & Hv).
    assert (¬ is_Some (mo_cached m !! p)) as Hp.
    { intros [j Hj]%(si_ids e m Hs).
      assert (i = j) as ->; [|congruence]. apply (node_view_inj g' i j p Hg'); rewrite Hv;
        [by rewrite Nat.eqb_refl|by destruct (j =? i)%nat]. }
    apply eq_None_not_Some in Hp as Hpn.
    set (C' := <[p := (10000, 0)]> (mo_cached m)).
    assert (∀ q, is_Some (C' !! q) ↔ ∃ j, node_view g' j = Some q) as Hids.
    { intros q. unfold C'. rewrite lookup_insert_is_Some'. setoid_rewrite Hv. rewrite (si_ids e m Hs). split.
      - intros [<-|[j Hj]]; [exists i; by rewrite Nat.eqb_refl|].
        exists j. destruct (j =? i)%nat eqn:E; [|done]. apply Nat.eqb_eq in E as ->. congruence.
      - intros [j Hj]. destruct (j =? i)%nat; [injection Hj as ->; by left|right; by exists j]. }
    pose proof (nodes_size g' C' Hg' Hids) as Hsz'.
    pose proof (view_size_le gn_partition (cg_nodes g') (gi_uniq g' Hg')) as Hle.
    rewrite <- Hsz', Hn, (si_nodes e m Hs) in Hle. unfold C' in Hle. rewrite map_size_insert_None in Hle by done.
    rewrite decide_False by done. rewrite (proj2 (Nat.eqb_neq _ _)) by lia.
    cbn [ce_entries set_graph].
    pose proof (find_free entry_key (λ x, negb (en_active x)) (ce_entries e) (si_entries e m Hs)) as Hfree.
    assert (size (view entry_key (ce_entries e)) = size (mo_cached m)) as Hsv
      by by rewrite <- (si_cached e m Hs), map_size_fmap.
    destruct (position (λ x, negb (en_active x)) (ce_entries e)) as [k|].
    2: { exfalso. rewrite Hsv, (si_length e m Hs) in Hfree. pose proof (Hfree ltac:(intros x; unfold entry_key; by destruct (en_active x))). lia. }
    destruct Hfree as [(s0 & Hk & Hs0) _]; [intros x; unfold entry_key; by destruct (en_active x)|].
    destruct (view_fill entry_key (ce_entries e) k s0 (mkPartitionEntry p COHERENCE_MAX PRESSURE_ZERO true) p)
      as [Hok Hvw]; [apply Hs|done|done|done| |].
    { rewrite <- (si_cached e m Hs), lookup_fmap in Hpn. by destruct (view _ _ !! p). }
    split; [done|]. cbn [snd].
    assert (∀ k, edge_view g' k = edge_view (ce_graph e) k) as Hev by (intros; unfold edge_view; by rewrite He).
    assert (∀ k a b w, flow g' k a b w ↔ flow (ce_graph e) k a b w) as Hfl.
    { apply flow_ext; [done|done|]. intros j Hj. rewrite Hv. destruct (j =? i)%nat eqn:E; [|done].
      apply Nat.eqb_eq in E as ->. congruence. }
    split; [split|].
    + done.
    + apply (one_edge_ext _ _ Hfl), Hs.
    + cbn. by rewrite Hn, (si_nodes e m Hs).
    + cbn. by rewrite He, (si_edges e m Hs).
    + done.
    + cbn. by rewrite length_insert, (si_length e m Hs).
    + cbn [ce_entries set_entries set_graph mo_cached]. rewrite Hvw, fmap_insert, (si_cached e m Hs). done.
    + exact Hids.
    + cbn [ce_graph set_entries set_graph mo_traffic]. rewrite (traffic_ext _ _ Hfl) by apply Hs. apply Hs.
    + apply Hs.
    + apply Hs.
    + cbn. rewrite He. lia.
  - destruct H as [-> [[-> [i Hi]]|(-> & Hno & Hfull)]].
    + rewrite decide_True by (apply (si_ids e m Hs); by exists i). split; [done|]. by apply sim_same.
    + assert (size (mo_cached m) = ENGINE_MAX_NODES) as Hfl.
      { rewrite Hsz, view_size, <- (si_nodes e m Hs) by apply Hg. apply count_by_full.
        intros j n Hj. specialize (Hfull j (lookup_lt_Some _ _ _ Hj)).
        unfold node_view, gnode_at in Hfull. rewrite Hj in Hfull. cbn in Hfull. by destruct (gn_partition n). }
      rewrite decide_False by (intros [i Hi]%(si_ids e m Hs); by destruct (Hno i)).
      rewrite (proj2 (Nat.eqb_eq _ _) Hfl). split; [done|]. by apply sim_same.
Qed.

Lemma refined_weight (g g' : CoherenceGraph) op r :
  graph_inv g → graph_op_ok op → wsum any (cg_edges g) + added op ≤ u64_max →
  graph_exec op g = Some g' → r = added op →
  wsum any (cg_edges g') ≤ wsum any (cg_edges g) + r.
Proof.
  intros Hg Hok Hmax Hr ->. destruct (graph_exec_inv op g Hg Hok Hmax) as (g1 & Hr1 & _ & Hle & _).
  rewrite Hr in Hr1. by injection Hr1 as <-.
Qed.

Lemma sim_remove {MCB} (e : CoherenceEngine MCB) m p :
  engine_simulates e m →
  ∃ r e', engine_remove_partition p e = Some (r, e') ∧
    (model_exec (ERemove p) m).1 = Some r ∧ refined e (model_exec (ERemove p) m).2 0 e'.
Proof.
  intros Hs. pose proof (si_graph e m Hs) as Hg. cbn [model_exec]. unfold engine_remove_partition.
  pose proof (remove_node_spec (ce_graph e) p Hg) as H.
  pose proof (λ g, refined_weight (ce_graph e) g (GRemoveNode p) 0 Hg I) as Hw. cbn [graph_exec added] in Hw.
  destruct (remove_node p (ce_graph e)) as [[[u|x] g']|]; [| |done]; cbn [mbind option_bind].
  - destruct H as (idx & Hidx & Hg' & Hn & Hne & Hnv & Hev).
    rewrite decide_True by (apply (si_ids e m Hs); by exists idx).
    assert (∀ k a b w, flow g' k a b w ↔ flow (ce_graph e) k a b w ∧ touches p (a, b) = false) as Hfl.
    { intros k a b w. assert (∀ j q, node_view (ce_graph e) j = Some q → (j =? idx)%nat = (q =? p)) as Hq.
      { intros j q Hj. destruct (q =? p) eqn:E.
        - apply Z.eqb_eq in E as ->. apply Nat.eqb_eq. apply (node_view_inj _ j idx p Hg Hj Hidx).
        - apply Nat.eqb_neq. intros ->. rewrite Hidx in Hj. injection Hj as ->. by rewrite Z.eqb_refl in E. }
      unfold flow, touches. cbn [fst snd]. setoid_rewrite Hev. setoid_rewrite Hnv. split.
      - intros (f & t & Hv & Hf & Ht). destruct (incident idx _) eqn:Ei; [done|].
        destruct (f =? idx)%nat eqn:Ef; [done|]. destruct (t =? idx)%nat eqn:Et; [done|].
        split; [by exists f, t|]. by rewrite <- (Hq f a Hf), <- (Hq t b Ht), Ef, Et.
      - intros [(f & t & Hv & Hf & Ht) Htouch]. exists f, t.
        rewrite <- (Hq f a Hf), <- (Hq t b Ht) in Htouch.
        apply orb_false_iff in Htouch as [Ef Et]. rewrite Hv. cbn [incident].
        rewrite Ef, Et. cbn. by split_and!. }
    assert (one_edge g') as H1.
    { intros i j a b w w' [Hi _]%Hfl [Hj _]%Hfl. by eapply (si_one e m Hs). }
    assert (traffic g' = filter (λ '(ab, _), touches p ab = false) (mo_traffic m)) as Htr.
    { apply map_eq. intros [a b]. apply option_eq. intros w.
      rewrite map_lookup_filter_Some, <- (si_traffic e m Hs), !traffic_spec by (done || apply Hs).
      setoid_rewrite Hfl. naive_solver. }
    pose proof (find_key entry_key (entry_is p) (ce_entries e) p (si_entries e m Hs)) as Hk.
    cbn [ce_entries set_graph].
    assert (∀ q, is_Some (delete p (mo_cached m) !! q) ↔ ∃ i, node_view g' i = Some q) as Hids.
    { intros q. rewrite lookup_delete_is_Some, (si_ids e m Hs). setoid_rewrite Hnv. split.
      - intros [Hpq [j Hj]]. exists j. destruct (j =? idx)%nat eqn:E; [|done].
        apply Nat.eqb_eq in E as ->. congruence.
      - intros [j Hj]. destruct (j =? idx)%nat eqn:E; [done|]. split; [|by exists j].
        intros ->. apply Nat.eqb_neq in E. destruct E. apply (node_view_inj _ j idx q Hg Hj Hidx). }
    destruct (position (entry_is p) (ce_entries e)) as [i|].
    2: { exfalso. assert (is_Some (mo_cached m !! p)) as Hp by (apply (si_ids e m Hs); by exists idx).
         rewrite <- (si_cached e m Hs), lookup_fmap, Hk in Hp; [by destruct Hp|].
         intros s. unfold entry_is, entry_key. destruct (en_active s); cbn; rewrite ?Z.eqb_eq; naive_solver. }
    destruct Hk as (s & Hi & Hsk & _).
    { intros s. unfold entry_is, entry_key. destruct (en_active s); cbn; rewrite ?Z.eqb_eq; naive_solver. }
    rewrite (alter_as_insert clear_active _ i s Hi).
    destruct (view_clear entry_key (ce_entries e) i s (clear_active s) p) as [Hok Hvw]; [apply Hs|done|done|done|].
    eexists _, _. split; [done|]. split; [by destruct u|]. cbn [snd]. split; [split|].
    + done.
    + done.
    + cbn. by rewrite Hn, (si_nodes e m Hs).
    + cbn. by rewrite Hne, (si_edges e m Hs).
    + done.
    + cbn. by rewrite length_insert, (si_length e m Hs).
    + cbn [ce_entries set_entries set_graph mo_cached]. by rewrite Hvw, fmap_delete, (si_cached e m Hs).
    + exact Hids.
    + done.
    + apply Hs.
    + apply Hs.
    + cbn [ce_graph set_entries set_graph]. apply Hw; [|done|done]. pose proof (gi_total _ Hg). lia.
  - destruct H as (-> & -> & Hno).
    rewrite decide_False by (intros [i Hi]%(si_ids e m Hs); by destruct (Hno i)).
    eexists _, _. split; [done|]. split; [done|]. by apply sim_same.
Qed.

Lemma sim_tick {MCB} `{RatioBackend} (e : CoherenceEngine MCB) m load :
  engine_simulates e m → 0 ≤ gap (mo_adaptive m) ≤ 3 →
  ∃ d e', engine_tick load e = Some (d, e') ∧
    (model_exec (ETick load) m).1 = None ∧ decides (model_exec (ETick load) m).2 d ∧
    refined e (model_exec (ETick load) m).2 0 e' ∧ 0 ≤ gap (mo_adaptive (model_exec (ETick load) m).2) ≤ 3.
Proof.
  intros Hs Hgap. pose proof (si_graph e m Hs) as Hg. cbn [model_exec fst snd]. unfold engine_tick.
  destruct (decay_weights_spec (ce_graph e) EDGE_DECAY_BP Hg) as (pr & g' & Hd & Hg' & Hnv & Hn & Hne & Hev & _);
    [done|].
  pose proof (refined_weight (ce_graph e) g' (GDecay EDGE_DECAY_BP) 0 Hg) as Hw.
  cbn [graph_exec added graph_op_ok] in Hw. rewrite Hd in Hw. specialize (Hw ltac:(done)).
  rewrite Hd. cbn [mbind option_bind].
  set (T := omap (λ w, if decayed EDGE_DECAY_BP w =? 0 then None else Some (decayed EDGE_DECAY_BP w)) (mo_traffic m)).
  assert (∀ k a b w, flow g' k a b w ↔ ∃ w0, flow (ce_graph e) k a b w0 ∧
    (if decayed EDGE_DECAY_BP w0 =? 0 then None else Some (decayed EDGE_DECAY_BP w0)) = Some w) as Hfl.
  { intros k a b w. unfold flow. setoid_rewrite Hev. setoid_rewrite Hnv. split.
    - intros (f & t & Hv & Hf & Ht). destruct (edge_view (ce_graph e) k) as [[[f0 t0] w0]|]; [|done].
      cbn [decay_view] in Hv. destruct (decayed EDGE_DECAY_BP w0 =? 0) eqn:E; [done|].
      injection Hv as <- <- <-. exists w0. rewrite E. split; [by exists f0, t0|done].
    - intros (w0 & (f & t & Hv & Hf & Ht) & Hw0). exists f, t. rewrite Hv. cbn [decay_view].
      destruct (decayed EDGE_DECAY_BP w0 =? 0); [done|]. injection Hw0 as <-. by split_and!. }
  assert (one_edge g') as H1.
  { intros i j a b w w' (w0 & Hi & _)%Hfl Hj. pose proof Hj as (w0' & Hj' & Hw')%Hfl.
    destruct (si_one e m Hs i j a b w0 w0' Hi Hj') as [-> Hpos]. split; [done|].
    destruct (decayed EDGE_DECAY_BP w0' =? 0) eqn:E; [done|]. injection Hw' as <-.
    assert (0 ≤ decayed EDGE_DECAY_BP w0'); [|lia].
    unfold decayed. apply Z.div_pos; [|lia]. unfold sat_sub, EDGE_DECAY_BP, u64_max. lia. }
  assert (traffic g' = T) as Htr.
  { apply map_eq. intros [a b]. apply option_eq. intros w. unfold T.
    rewrite traffic_spec, lookup_omap, <- (si_traffic e m Hs) by done. setoid_rewrite Hfl. split.
    - intros (k & w0 & Hk & Hw0). assert (traffic (ce_graph e) !! (a, b) = Some w0) as ->; [|done].
      apply traffic_spec; [apply Hs|]. by exists k.
    - destruct (traffic (ce_graph e) !! (a, b)) as [w0|] eqn:E; [|done]. intros Hw0.
      apply traffic_spec in E as [k Hk]; [|apply Hs]. by exists k, w0. }
  assert (∀ C : gmap PartitionId (CoherenceScore * CutPressure),
    (∀ q, is_Some (C !! q) ↔ is_Some (mo_cached m !! q)) →
    ∀ q, is_Some (C !! q) ↔ ∃ i, node_view g' i = Some q) as Hids.
  { intros C HC q. rewrite HC, (si_ids e m Hs). by setoid_rewrite Hnv. }
  pose proof (adaptive_step_spec load (mo_adaptive m) Hgap) as Hstep.
  unfold adaptive_step in Hstep. unfold model_tick, adaptive_step. fold T.
  rewrite (si_adaptive e m Hs). destruct (adaptive_tick load (mo_adaptive m)) as [due ad].
  destruct Hstep as (_ & _ & Hgap' & _).
  assert (∀ l, slots_ok entry_key l → slots_ok entry_key (refresh g' <$> l) ∧
    view entry_key (refresh g' <$> l) = refresh g' <$> view entry_key l) as Hrefresh.
  { assert (∀ x, entry_key (refresh g' x) = entry_key x) as Hkey.
    { intros x. unfold refresh, entry_key. destruct (en_active x) eqn:E; cbn; by rewrite ?E. }
    intros l Hl. split; [by apply slots_ok_fmap|by apply view_fmap]. }
  destruct due; cbn [negb].
  - assert (cached_of <$> (refresh g' <$> view entry_key (ce_entries e)) =
      map_imap (λ p _, Some (model_score T p, model_pressure T p)) (mo_cached m)) as Hc.
    { apply map_eq. intros q. rewrite map_lookup_imap, <- (si_cached e m Hs), !lookup_fmap.
      destruct (view entry_key (ce_entries e) !! q) as [x|] eqn:E; [|done].
      apply view_elem in E as (i & Hi & Hk). unfold entry_key in Hk.
      assert (∃ i, node_view g' i = Some q) as Hq.
      { apply (Hids (mo_cached m)); [done|]. rewrite <- (si_cached e m Hs), lookup_fmap, fmap_is_Some.
        exists x. apply view_spec; [apply Hs|]. by exists i. }
      change (Some (cached_of (refresh g' x)) = Some (model_score T q, model_pressure T q)).
      unfold refresh, cached_of. destruct (en_active x) eqn:Ea; [|done]. injection Hk as ->.
      cbn [negb en_score en_pressure]. rewrite ratio_score by done. destruct (model_score_spec g' q Hg' H1 Hq) as [-> ->].
      by rewrite Htr. }
    eexists _, _. split; [done|]. split; [done|].
    match goal with |- decides ?m' (recommend ?e') ∧ _ => assert (engine_simulates e' m') as Hs' end.
    { split; cbn [ce_graph ce_entries ce_adaptive ce_epoch mo_cached mo_traffic mo_adaptive mo_epoch].
      - done.
      - done.
      - by rewrite Hn, (si_nodes e m Hs).
      - by rewrite Hne, (si_edges e m Hs).
      - apply Hrefresh, Hs.
      - by rewrite length_fmap, (si_length e m Hs).
      - rewrite (proj2 (Hrefresh _ (si_entries e m Hs))). exact Hc.
      - apply Hids. intros q. rewrite map_lookup_imap. by destruct (mo_cached m !! q).
      - done.
      - done.
      - by rewrite (si_epoch e m Hs). }
    split; [by apply sim_decides|]. split; [split; [done|]|done].
    cbn [ce_graph]. apply Hw; [|done|done]. pose proof (gi_total _ Hg). lia.
  - eexists _, _. split; [done|]. split; [done|].
    match goal with |- decides ?m' (recommend ?e') ∧ _ => assert (engine_simulates e' m') as Hs' end.
    { split; cbn [ce_graph ce_entries ce_adaptive ce_epoch mo_cached mo_traffic mo_adaptive mo_epoch];
        try apply Hs; try done.
      - by rewrite Hn, (si_nodes e m Hs).
      - by rewrite Hne, (si_edges e m Hs).
      - apply Hids. done.
      - by rewrite (si_epoch e m Hs). }
    split; [by apply sim_decides|]. split; [split; [done|]|done].
    cbn [ce_graph]. apply Hw; [|done|done]. pose proof (gi_total _ Hg). lia.
Qed.

Lemma add_edge_length from to w g : length (cg_edges (add_edge from to w g).2) = length (cg_edges g).
Proof.
  unfold add_edge. destruct (find_node from g), (find_node to g), (alloc_edge g); try done.
  cbn. by rewrite length_insert.
Qed.

Lemma update_weight_length i d g : length (cg_edges (update_weight i d g).2) = length (cg_edges g).
Proof. unfold update_weight. destruct (live_edge i g); [|done]. cbn. by rewrite length_insert. Qed.

(** Edge [k0] from [a] to [b] is given the weight [w], the rest stays. *)
Lemma flow_set (g g' : CoherenceGraph) k0 a b w f t :
  graph_inv g → one_edge g → 0 < w → node_view g f = Some a → node_view g t = Some b →
  (∀ i, node_view g' i = node_view g i) →
  (∀ j, edge_view g' j = if (j =? k0)%nat then Some (f, t, w) else edge_view g j) →
  (∀ k w', flow g k a b w' → k = k0) →
  (edge_view g k0 = None ∨ ∃ w0, edge_view g k0 = Some (f, t, w0)) →
  one_edge g' ∧ traffic g' = <[(a, b) := w]> (traffic g).
Proof.
  intros Hg H1 Hw Hf Ht Hnv Hev Honly Hk0.
  assert (∀ k x y v, flow g' k x y v ↔
    (k = k0 ∧ x = a ∧ y = b ∧ v = w) ∨ ((x, y) ≠ (a, b) ∧ flow g k x y v)) as Hfl.
  { intros k x y v. unfold flow at 1. rewrite Hev. setoid_rewrite Hnv.
    destruct (k =? k0)%nat eqn:E; [apply Nat.eqb_eq in E as ->|apply Nat.eqb_neq in E].
    - split.
      + intros (f' & t' & [= <- <- <-] & Hf' & Ht'). left. split_and!; congruence.
      + intros [(_ & -> & -> & ->)|[Hne (f' & t' & Hv & Hf' & Ht')]]; [by exists f, t|].
        destruct Hk0 as [Hk0|[w0 Hk0]]; rewrite Hk0 in Hv; [done|].
        injection Hv as <- <- <-. destruct Hne. congruence.
    - split.
      + intros (f' & t' & Hv & Hf' & Ht'). right. split; [|by exists f', t'].
        intros [= -> ->]. apply E. apply (Honly k v). by exists f', t'.
      + intros [(-> & _)|[_ Hx]]; done. }
  assert (one_edge g') as H1'.
  { intros i j x y v v' Hi%Hfl Hj%Hfl.
    destruct Hi as [(-> & -> & -> & ->)|[Hne Hi]], Hj as [(-> & Ha & Hb & ->)|[Hne' Hj]].
    - done.
    - by destruct Hne'.
    - destruct Hne. congruence.
    - by eapply H1. }
  split; [done|]. apply map_eq. intros [x y]. apply option_eq. intros v.
  rewrite traffic_spec by done. setoid_rewrite Hfl.
  destruct (decide ((x, y) = (a, b))) as [[= -> ->]|Hne].
  - rewrite lookup_insert_eq. split.
    + intros [k [(_ & _ & _ & ->)|[? _]]]; [done|congruence].
    + intros [= ->]. exists k0. left. by split_and!.
  - rewrite lookup_insert_ne, traffic_spec by done. split.
    + intros [k [(_ & -> & -> & _)|[_ ?]]]; [done|by exists k].
    + intros [k Hk]. exists k. by right.
Qed.

Lemma sim_traffic {MCB} (e : CoherenceEngine MCB) m g T :
  engine_simulates e m → graph_inv g → one_edge g → (∀ i, node_view g i = node_view (ce_graph e) i) →
  length (cg_nodes g) = length (cg_nodes (ce_graph e)) →
  length (cg_edges g) = length (cg_edges (ce_graph e)) → traffic g = T →
  engine_simulates (set_graph g e) (mkModel (mo_cached m) T (mo_adaptive m) (mo_epoch m)).
Proof.
  intros Hs Hg H1 Hnv Hn He HT.
  split; cbn [set_graph ce_graph ce_entries ce_adaptive ce_epoch mo_cached mo_traffic mo_adaptive mo_epoch].
  - done.
  - done.
  - by rewrite Hn, (si_nodes e m Hs).
  - by rewrite He, (si_edges e m Hs).
  - apply Hs.
  - apply Hs.
  - apply Hs.
  - intros p. rewrite (si_ids e m Hs). by setoid_rewrite Hnv.
  - done.
  - apply Hs.
  - apply Hs.
Qed.

Lemma sim_record {MCB} (e : CoherenceEngine MCB) m a b w :
  engine_simulates e m → 0 < w ≤ i64_max → wsum any (cg_edges (ce_graph e)) + w ≤ u64_max →
  ∃ r e', record_communication a b w e = Some (r, e') ∧
    (model_exec (ERecord a b w) m).1 = Some r ∧ refined e (model_exec (ERecord a b w) m).2 w e'.
Proof.
  intros Hs Hw Hmax. pose proof (si_graph e m Hs) as Hg. pose proof (si_one e m Hs) as H1.
  cbn [model_exec]. unfold record_communication.
  assert (∀ p, is_Some (mo_cached m !! p) ↔ is_Some (find_node p (ce_graph e))) as Hknown.
  { intros p. rewrite (si_ids e m Hs). split; intros [i Hi]; exists i; by apply (find_node_spec _ p i Hg). }
  assert (¬ (is_Some (mo_cached m !! a) ∧ is_Some (mo_cached m !! b)) →
    find_directed_edge a b (ce_graph e) = Some None ∧ add_edge a b w (ce_graph e) = (Err NodeNotFound, ce_graph e))
    as Hunknown.
  { rewrite !Hknown. intros Hn. unfold find_directed_edge, add_edge.
    destruct (find_node a (ce_graph e)); [|done]. destruct (find_node b (ce_graph e)); [|done].
    by destruct Hn. }
  destruct (decide (is_Some (mo_cached m !! a) ∧ is_Some (mo_cached m !! b))) as [[Ha Hb]|Hn].
  2: { destruct (Hunknown Hn) as [-> ->]. eexists _, _. split; [done|].
       rewrite (proj2 (negb_true_iff _)).
       2: { apply not_true_is_false. intros [?%bool_decide_eq_true ?%bool_decide_eq_true]%andb_prop. by apply Hn. }
       split; [done|]. apply sim_same; [done|lia]. }
  rewrite !bool_decide_eq_true_2 by done. cbn [andb negb].
  apply Hknown in Ha as [f Hff], Hb as [t Hft].
  pose proof (proj1 (find_node_spec _ a f Hg) Hff) as Hf. pose proof (proj1 (find_node_spec _ b t Hg) Hft) as Ht.
  assert (∀ k w', flow (ce_graph e) k a b w' → edge_view (ce_graph e) k = Some (f, t, w')) as Hview.
  { intros k w' (f' & t' & Hv & Hf' & Ht'). by rewrite (node_view_inj _ f f' a Hg Hf Hf'),
      (node_view_inj _ t t' b Hg Ht Ht'). }
  destruct (find_directed_edge_spec _ a b f t Hg Hff Hft) as (r & -> & Hr). cbn [mbind option_bind].
  destruct r as [k|].
  - destruct Hr as [w0 Hk]. assert (flow (ce_graph e) k a b w0) as Hfl by by exists f, t.
    assert (mo_traffic m !! (a, b) = Some w0) as ->.
    { rewrite <- (si_traffic e m Hs). apply traffic_spec; [done|]. by exists k. }
    rewrite (proj2 (Z.leb_le w i64_max)) by lia.
    pose proof (update_weight_spec (ce_graph e) k w Hg ltac:(lia)) as Hu.
    pose proof (update_weight_length k w (ce_graph e)) as Hlen.
    destruct (update_weight k w (ce_graph e)) as [[u|x] g'].
    2: { destruct Hu as (_ & _ & Hu). congruence. }
    destruct Hu as (f' & t' & w1 & Hk' & Hg' & Hn' & Hev & Hle). rewrite Hk in Hk'. injection Hk' as <- <- <-.
    assert (∀ i, node_view g' i = node_view (ce_graph e) i) as Hnv
      by (intros i; unfold node_view, gnode_at; by rewrite Hn').
    destruct (H1 k k a b w0 w0 Hfl Hfl) as [_ Hpos]. rewrite Z.max_r in Hev by lia.
    destruct (flow_set (ce_graph e) g' k a b (w0 + w) f t) as [H1' Htr]; try done; [lia| |by right; exists w0|].
    { intros k' w' Hk'. by destruct (H1 k' k a b w' w0 Hk' Hfl). }
    eexists _, _. split; [done|]. split; [by destruct u|]. split.
    + apply (sim_traffic e m g'); try done; [by rewrite Hn'|]. by rewrite Htr, (si_traffic e m Hs).
    + cbn. rewrite Z.max_r in Hle by lia. done.
  - assert (∀ k w', ¬ flow (ce_graph e) k a b w') as Hno.
    { intros k w' Hk. pose proof (Hr k w' (Hview k w' Hk)) as ->. by destruct (H1 k k a b 0 0 Hk Hk). }
    assert (traffic (ce_graph e) !! (a, b) = None) as Hnone.
    { apply eq_None_not_Some. intros [w' [k Hk]%traffic_spec]; [|done]. by apply (Hno k w'). }
    rewrite <- (si_traffic e m Hs), Hnone.
    pose proof (add_edge_spec (ce_graph e) a b w Hg ltac:(lia) Hmax) as Hadd.
    pose proof (add_edge_length a b w (ce_graph e)) as Hlen.
    pose proof (traffic_size (ce_graph e) Hg H1) as Hsize.
    destruct (add_edge a b w (ce_graph e)) as [[i|x] g'].
    + destruct Hadd as (f' & t' & Hf' & Ht' & Hi & Hg' & Hnv & Hn' & Hev & Hsum).
      rewrite <- (node_view_inj _ f f' a Hg Hf Hf'), <- (node_view_inj _ t t' b Hg Ht Ht') in Hev.
      destruct (flow_set (ce_graph e) g' i a b w f t) as [H1' Htr]; try done; [lia| |by left|].
      { intros k' w' Hk'. by destruct (Hno k' w'). }
      pose proof (traffic_size g' Hg' H1') as Hsize'. rewrite Htr, map_size_insert_None in Hsize' by done.
      pose proof (count_by_le ge_active (cg_edges g')) as Hcle. rewrite <- (gi_ecount g' Hg') in Hcle.
      cbn [snd] in Hlen. rewrite Hlen, (si_edges e m Hs) in Hcle.
      rewrite (proj2 (Nat.eqb_neq _ _)) by lia.
      eexists _, _. split; [done|]. split; [done|]. split.
      * apply (sim_traffic e m g'); try done.
      * cbn. lia.
    + destruct Hadd as [-> [[-> Hnf]|[-> Hfull]]].
      { exfalso. destruct Hnf as [Hnf|Hnf]; [by apply (Hnf f)|by apply (Hnf t)]. }
      assert (size (traffic (ce_graph e)) = ENGINE_MAX_EDGES) as Hfl.
      { rewrite Hsize, (gi_ecount _ Hg), <- (si_edges e m Hs). apply count_by_full.
        intros j ed Hj. specialize (Hfull j (lookup_lt_Some _ _ _ Hj)).
        unfold edge_view in Hfull. rewrite Hj in Hfull. by destruct (ge_active ed). }
      rewrite (proj2 (Nat.eqb_eq _ _) Hfl). eexists _, _. split; [done|]. split; [done|].
      apply sim_same; [done|lia].
Qed.

Lemma sim_new {MCB} (mcb : MCB) : engine_simulates (engine_new mcb) model_new ∧
  wsum any (cg_edges (ce_graph (engine_new mcb))) = 0.
Proof.
  destruct (graph_new_inv ENGINE_MAX_NODES ENGINE_MAX_EDGES) as [Hg H0];
    [unfold ENGINE_MAX_NODES, ADJ_DIM; lia|unfold ENGINE_MAX_EDGES, INVALID; lia|].
  split; [|exact H0].
  assert (∀ k, edge_view (graph_new ENGINE_MAX_NODES ENGINE_MAX_EDGES) k = None) as Hev.
  { intros k. unfold edge_view, graph_new. cbn [cg_edges].
    destruct (replicate ENGINE_MAX_EDGES edge_empty !! k) eqn:E; [|done]. by apply lookup_replicate in E as [-> _]. }
  assert (∀ k, node_view (graph_new ENGINE_MAX_NODES ENGINE_MAX_EDGES) k = None) as Hnv.
  { intros k. unfold node_view, gnode_at, graph_new. cbn [cg_nodes].
    destruct (replicate ENGINE_MAX_NODES node_empty_slot !! k) eqn:E; [|done]. by apply lookup_replicate in E as [-> _]. }
  assert (∀ k a b w, ¬ flow (graph_new ENGINE_MAX_NODES ENGINE_MAX_EDGES) k a b w) as Hfl.
  { intros k a b w (f & t & Hv & _). by rewrite Hev in Hv. }
  assert (one_edge (graph_new ENGINE_MAX_NODES ENGINE_MAX_EDGES)) as H1
    by (intros i j a b w w' Hi; by apply Hfl in Hi).
  destruct (view_replicate entry_key ENGINE_MAX_NODES entry_empty eq_refl) as [Hok Hv].
  split; cbn [engine_new ce_graph ce_entries ce_adaptive ce_epoch model_new mo_cached mo_traffic mo_adaptive mo_epoch].
  - exact Hg.
  - exact H1.
  - apply length_replicate.
  - apply length_replicate.
  - exact Hok.
  - apply length_replicate.
  - rewrite Hv. apply fmap_empty.
  - intros p. rewrite lookup_empty. split; [by intros [? ?]|]. intros [i Hi]. by rewrite Hnv in Hi.
  - apply map_empty. intros [a b]. apply eq_None_not_Some. intros [w [k Hk]%traffic_spec]; [|done].
    by apply Hfl in Hk.
  - done.
  - done.
Qed.

(** *** Histories *)

Fixpoint engine_run {MCB} `{CoherenceBackend} (ops : list EngineOp) (e : CoherenceEngine MCB)
    : option (list EngineOut * CoherenceEngine MCB) :=
  match ops with
  | [] => Some ([], e)
  | op :: ops => '(out, e) ← engine_exec op e; '(outs, e) ← engine_run ops e; Some (out :: outs, e)
  end.

(** The model's outputs: a result, or (for a tick) the model to decide over. *)
Fixpoint model_run (ops : list EngineOp) (m : TrafficModel)
    : list (option (result RvmError unit) * TrafficModel) * TrafficModel :=
  match ops with
  | [] => ([], m)
  | op :: ops =>
      let '(out, m) := model_exec op m in let '(outs, m') := model_run ops m in ((out, m) :: outs, m')
  end.

Definition output_agrees (out : EngineOut) (mo : option (result RvmError unit) * TrafficModel) : Prop :=
  match out, mo with
  | OResult r, (Some r', _) => r = r'
  | ODecision d, (None, m) => decides m d
  | _, _ => False
  end.

Lemma engine_run_simulates {MCB} `{RatioBackend} ops (e : CoherenceEngine MCB) m :
  engine_simulates e m → 0 ≤ gap (mo_adaptive m) ≤ 3 → Forall engine_op_ok ops →
  wsum any (cg_edges (ce_graph e)) + foldr Z.add 0 (recorded <$> ops) ≤ u64_max →
  ∃ outs e', engine_run ops e = Some (outs, e') ∧
    Forall2 output_agrees outs (model_run ops m).1 ∧ engine_simulates e' (model_run ops m).2.
Proof.
  assert (∀ ops, Forall engine_op_ok ops → 0 ≤ foldr Z.add 0 (recorded <$> ops)) as Hpos.
  { induction 1 as [|op l Hop _ IH]; cbn; [lia|]. destruct op; cbn in *; lia. }
  revert e m. induction ops as [|op ops IH]; intros e m Hs Hgap Hok Hmax; [by exists [], e|].
  apply Forall_cons in Hok as [Hop Hops]. cbn [fmap list_fmap foldr] in Hmax. specialize (Hpos ops Hops).
  assert (∃ out e1, engine_exec op e = Some (out, e1) ∧ output_agrees out (model_exec op m) ∧
    refined e (model_exec op m).2 (recorded op) e1 ∧ 0 ≤ gap (mo_adaptive (model_exec op m).2) ≤ 3)
    as (out & e1 & He & Hout & [Hs1 Hw1] & Hgap1).
  { assert (∀ r, (model_exec op m).1 = Some r → output_agrees (OResult r) (model_exec op m)) as Hagree.
    { intros r Hr. destruct (model_exec op m) as [o m']. cbn in *. by subst o. }
    destruct op as [p|p|a b w|load]; cbn [engine_exec].
    - pose proof (sim_add e m p Hs) as H'. destruct (engine_add_partition p e) as [r e1].
      destruct H' as [Hr Href]. exists (OResult r), e1. split_and!; [done|by apply Hagree|exact Href| |];
        cbn [model_exec]; repeat case_match; apply Hgap.
    - destruct (sim_remove e m p Hs) as (r & e1 & -> & Hr & Href). exists (OResult r), e1.
      split_and!; [done|by apply Hagree|exact Href| |]; cbn [model_exec]; repeat case_match; apply Hgap.
    - destruct (sim_record e m a b w Hs Hop) as (r & e1 & -> & Hr & Href); [cbn in Hmax; lia|].
      exists (OResult r), e1. split_and!; [done|by apply Hagree|exact Href| |];
        cbn [model_exec]; repeat case_match; apply Hgap.
    - destruct (sim_tick e m load Hs Hgap) as (d & e1 & -> & Hr & Hd & Href & Hgap').
      exists (ODecision d), e1. split_and!; [done| |exact Href|apply Hgap'|apply Hgap'].
      exact Hd. }
  cbn [engine_run model_run mbind option_bind]. rewrite He. cbn [mbind option_bind].
  destruct (IH e1 (model_exec op m).2 Hs1 Hgap1 Hops) as (outs & e' & Hr & Hf & Hs'); [lia|].
  rewrite Hr. destruct (model_exec op m) as [o m1]. cbn [snd] in *.
  destruct (model_run ops m1) as [mouts m']. cbn [fst snd mbind option_bind] in *.
  exists (out :: outs), e'. split_and!; [done|by constructor|done].
Qed.

(** The scores the engine reports are the cached ones. *)
Lemma sim_scores {MCB} (e : CoherenceEngine MCB) m p :
  engine_simulates e m → (engine_score p e, engine_pressure p e) = default (10000, 0) (mo_cached m !! p).
Proof.
  intros Hs. unfold engine_score, engine_pressure. rewrite find_by_position.
  assert (∀ x, entry_is p x = true ↔ entry_key x = Some p) as Hkey.
  { intros x. unfold entry_is, entry_key. destruct (en_active x); cbn; rewrite ?Z.eqb_eq; naive_solver. }
  pose proof (find_key entry_key (entry_is p) (ce_entries e) p (si_entries e m Hs)) as Hk.
  rewrite <- (si_cached e m Hs), lookup_fmap. destruct (position (entry_is p) (ce_entries e)) as [i|].
  - destruct (Hk Hkey) as (x & Hi & _ & Hv). cbn. by rewrite Hi, Hv.
  - by rewrite (Hk Hkey).
Qed.

(** C16: The coherence engine is a map of traffic.  Over any history of adding and
    removing partitions, recording communication (weights from 1 to [i64_max]
    whose sum fits 64 bits; the engine accepts a weight of zero but then
    diverges from the map, see [zero_weight_edge_not_found]) and ticking, with either scoring backend, every operation
    returns, with the result the abstract model gives: errors exactly for
    duplicate, unknown or surplus partitions and a 129th communicating pair, and
    decisions that are the strongest the model allows.  The model adds traffic
    per ordered pair, decays every pair by five percent per tick and drops it at
    zero, forgets a removed partition's pairs, and recomputes every score and
    pressure from the traffic when the controller says so; the scores and
    pressures the engine reports are the model's. *)
Theorem engine_refines_traffic {MCB} `{RatioBackend} ops (mcb : MCB) :
  Forall engine_op_ok ops → foldr Z.add 0 (recorded <$> ops) ≤ u64_max →
  ∃ outs e mouts m,
    engine_run ops (engine_new mcb) = Some (outs, e) ∧ model_run ops model_new = (mouts, m) ∧
    Forall2 output_agrees outs mouts ∧
    (∀ p, (engine_score p e, engine_pressure p e) = default (10000, 0) (mo_cached m !! p)) ∧
    partition_count e = size (mo_cached m) ∧
    (∀ a b, edge_weight_between a b (ce_graph e) =
      if bool_decide (is_Some (mo_cached m !! a)) && bool_decide (is_Some (mo_cached m !! b))
      then sat_add u64_max (default 0 (mo_traffic m !! (a, b))) (default 0 (mo_traffic m !! (b, a))) else 0) ∧
    ce_epoch e = mo_epoch m.
Proof.
  intros Hok Hmax. destruct (sim_new mcb) as [Hs H0].
  destruct (engine_run_simulates ops (engine_new mcb) model_new Hs) as (outs & e & Hr & Hout & Hs');
    [done|done|by rewrite H0|].
  destruct (model_run ops model_new) as [mouts m]. cbn [fst snd] in *.
  exists outs, e, mouts, m. split; [done|]. split; [done|].
  pose proof (si_graph e m Hs') as Hg. pose proof (si_one e m Hs') as H1.
  split_and!; [done| | | |apply Hs'].
  - intros p. by apply sim_scores.
  - unfold partition_count. rewrite (gi_ncount _ Hg), (nodes_size (ce_graph e) (mo_cached m) Hg (si_ids e m Hs')).
    symmetry. apply view_size, Hg.
  - intros a b. rewrite <- (si_traffic e m Hs'). unfold edge_weight_between.
    assert (∀ p, bool_decide (is_Some (mo_cached m !! p)) = is_some (find_node p (ce_graph e))) as Hb.
    { intros p. destruct (find_node p (ce_graph e)) as [i|] eqn:E; cbn.
      - apply bool_decide_eq_true, (si_ids e m Hs'). exists i. by apply find_node_spec.
      - apply bool_decide_eq_false. intros [i Hi]%(si_ids e m Hs'). by apply (find_node_None _ p Hg E i). }
    rewrite !Hb. destruct (find_node a (ce_graph e)) as [i|] eqn:Ea; [|done].
    destruct (find_node b (ce_graph e)) as [j|] eqn:Eb; [|done]. cbn [is_some andb].
    apply (find_node_spec _ _ _ Hg) in Ea, Eb.
    rewrite !(co_adj _ _ _ _ (gi_caches _ Hg)) by by eapply node_view_small.
    by rewrite (wsum_pair _ a b i j Hg H1 Ea Eb), (wsum_pair _ b a j i Hg H1 Eb Ea).
Qed.

(* ------------------------------------------------------------------ *)
(** ** Runs *)

Definition sample_engine_ops : list EngineOp :=
  [EAdd 1; EAdd 2; EAdd 1; EAdd 3; ERecord 1 1 3000; ERecord 1 2 1000; ERecord 2 1 1000; ERecord 1 7 5; ETick 10;
   ERemove 3; ERecord 1 2 50; ETick 90; ERemove 3].

Definition sample_engine_outs : list EngineOut :=
  [OResult (Ok tt); OResult (Ok tt); OResult (Err InvalidPartitionState); OResult (Ok tt);
   OResult (Ok tt); OResult (Ok tt); OResult (Ok tt); OResult (Err PartitionNotFound);
   ODecision (SplitRecommended 2 10000); OResult (Ok tt); OResult (Ok tt);
   ODecision (SplitRecommended 2 10000); OResult (Err PartitionNotFound)].

Lemma engine_refines_traffic_witness :
  ∃ outs e, engine_run (H := BuiltinCoherence) sample_engine_ops (engine_new tt) = Some (outs, e) ∧
    outs = sample_engine_outs ∧
    edge_weight_between 1 2 (ce_graph e) = 1852 ∧ engine_score 1 e = 3750.
Proof.
  destruct (@engine_refines_traffic unit BuiltinCoherence builtin_ratio sample_engine_ops tt)
    as (outs & e & mouts & m & Hr & Hm & _ & Hsc & _ & Hw & _).
  - repeat constructor; done.
  - by vm_compute.
  - assert (option_map fst (engine_run (H := BuiltinCoherence) sample_engine_ops (engine_new tt)) =
      Some sample_engine_outs) as Hc by (vm_compute; reflexivity).
    rewrite Hr in Hc. cbn [option_map fst] in Hc. apply (inj Some) in Hc.
    assert ((λ m, (bool_decide (is_Some (mo_cached m !! 1)) && bool_decide (is_Some (mo_cached m !! 2)),
      mo_traffic m !! (1, 2), mo_traffic m !! (2, 1), mo_cached m !! 1))
      (model_run sample_engine_ops model_new).2 = (true, Some 950, Some 902, Some (3750, 6250)))
      as Hc2 by (vm_compute; reflexivity).
    rewrite Hm in Hc2. cbn [snd] in Hc2.
    apply pair_eq in Hc2 as [Hc2 Hs1]. apply pair_eq in Hc2 as [Hc2 H21]. apply pair_eq in Hc2 as [Hk H12].
    specialize (Hw 1 2). rewrite Hk, H12, H21 in Hw. specialize (Hsc 1). rewrite Hs1 in Hsc.
    apply pair_eq in Hsc as [Hsc _].
    exists outs, e. exact (conj Hr (conj Hc (conj Hw Hsc))).
Defined.

Lemma ema_history_bounded_witness :
  ema_update 3000 (ema_run [1000; 2000] (ema_new 5000)) =
    (2250, mkEmaFilter 2250 5000 true) ∧ 1000 ≤ 2250 ≤ 3000.
Proof.
  pose proof (ema_history_bounded 5000 1000 3000 [1000; 2000] 3000) as H.
  split; [reflexivity|]. apply H; [lia|lia|unfold u16_max; lia|repeat constructor; lia].
Defined.

(** Three partitions, the first with a self-loop of 300. *)
Definition sample_scored_graph : option CoherenceGraph :=
  graph_run [GAddNode 1; GAddNode 2; GAddNode 3; GAddEdge 1 1 300; GAddEdge 1 2 400] (graph_new 4 8).

Lemma score_pressure_bounds_witness :
  ∃ g, sample_scored_graph = Some g ∧
    cr_score (compute_coherence_score 1 g) = 3000 ∧ pr_pressure (compute_cut_pressure 1 g) = 7000 ∧
    merge_preconditions_met (cr_score (compute_coherence_score 1 g)) 10000 = Err MpInsufficientCoherence ∧
    cr_score (compute_coherence_score 3 g) = 10000.
Proof.
  destruct (graph_new_inv 4 8) as [Hg0 H0]; [unfold ADJ_DIM; lia|unfold INVALID; lia|].
  destruct (graph_run_inv [GAddNode 1; GAddNode 2; GAddNode 3; GAddEdge 1 1 300; GAddEdge 1 2 400] (graph_new 4 8) Hg0)
    as (g & Hr & Hg & _); [repeat constructor; done|by vm_compute|].
  assert (option_map (λ g, (total_weight 1 g, internal_weight 1 g, total_weight 3 g,
    cr_score (compute_coherence_score 1 g), pr_pressure (compute_cut_pressure 1 g))) sample_scored_graph =
    Some (1000, 300, 0, 3000, 7000)) as Hc by (vm_compute; reflexivity).
  unfold sample_scored_graph in Hc. rewrite Hr in Hc. cbn [option_map] in Hc.
  apply (inj Some), pair_eq in Hc as [Hc Hpr]. apply pair_eq in Hc as [Hc Hsc].
  apply pair_eq in Hc as [Hc H3]. apply pair_eq in Hc as [Ht Hi].
  pose proof (score_pressure_bounds g 1 3 Hg) as H. rewrite Ht in H.
  destruct (H ltac:(lia)) as (_ & _ & _ & _ & Hm & Hz).
  destruct (Hm ltac:(unfold u64_max; lia)) as (_ & _ & Hmerge).
  exists g. exact (conj Hr (conj Hsc (conj Hpr (conj (proj1 (Hmerge 10000)) (proj1 (Hz H3)))))).
Defined.

(** With nothing but self-loops a partition scores 5000, not the maximum. *)
Example self_loops_score_half :
  option_map (λ g, (cr_score (compute_coherence_score 1 g), pr_pressure (compute_cut_pressure 1 g)))
    (graph_run [GAddNode 1; GAddEdge 1 1 700] (graph_new 4 8)) = Some (5000, 5000).
Proof. vm_compute. reflexivity. Qed.

(** A controller under full load computes in epochs 1, 5, 9, ... *)
Example full_load_schedule :
  adaptive_results [90; 90; 90; 90; 90; 90; 90; 90; 90] adaptive_new =
  [true; false; false; false; true; false; false; false; true].
Proof. reflexivity. Qed.
