(* ===== verification/MinCut.v ===== *)
(** Minimum cuts: [crates/rvm-coherence/src/mincut.rs] and the min-cut backends of
    [bridge.rs].

    The neighbourhood of a partition is copied into a small weight matrix, and
    Stoer and Wagner's algorithm contracts it phase by phase.  Within its budget
    the cut it returns is proved to be a minimum cut. *)

From stdpp Require Import base numbers list option sets gmap.
From Stdlib Require Import ZArith Lia.
From S2P Require Import Prelude.
From S2P Require Import SlotMap.
From S2P Require Import Types.
From S2P Require Import CoherenceGraph.

Local Open Scope nat_scope.

Definition MINCUT_MAX_NODES : nat := 32.

(** The arrays [left] and [right] up to their counts. *)
Record MinCutResult : Set := mkMinCutResult {
  mc_left : list PartitionId;
  mc_right : list PartitionId;
  mc_cut_weight : Z;
  mc_within_budget : bool;
}.
Definition mincut_empty : MinCutResult := mkMinCutResult [] [] 0 true.

Definition left_count (r : MinCutResult) : nat := length (mc_left r).
Definition right_count (r : MinCutResult) : nat := length (mc_right r).

Record MinCutBridge : Set := mkMinCutBridge {
  mb_last_known_cut : MinCutResult;
  mb_epoch : Z;
  mb_budget_exceeded_count : Z;
  mb_compute_count : Z;
  mb_max_iterations : Z;
}.
Definition bridge_new (max_iterations : Z) : MinCutBridge :=
  mkMinCutBridge mincut_empty 0 0 0 max_iterations.

Definition advance_mincut_epoch (b : MinCutBridge) : MinCutBridge :=
  mkMinCutBridge (mb_last_known_cut b) (wrap32 (mb_epoch b + 1)) (mb_budget_exceeded_count b)
    (mb_compute_count b) (mb_max_iterations b).

(** Array reads of the local matrices. *)
Definition flag (l : list bool) (i : nat) : bool := default false (l !! i).
Definition flag2 (m : list (list bool)) (i j : nat) : bool := flag (default [] (m !! i)) j.

(* ------------------------------------------------------------------ *)
(** ** One phase: maximum adjacency ordering *)

Record PhaseState : Set := mkPhase {
  ph_in_a : list bool;
  ph_key : list Z;
  ph_second_to_last : nat;
  ph_last : nat;
}.

(** [for i in 0..n if active[i] && !in_a[i] { key[i] = f(key[i], i) }] *)
Definition update_keys (active in_a : list bool) (f : Z → nat → Z) (n : nat) (key : list Z) : list Z :=
  foldl (λ key i, if flag active i && negb (flag in_a i) then <[i := f (cell key i) i]> key else key)
    key (seq 0 n).

(** The most tightly connected node outside A: [(max_key, max_node, found)]. *)
Definition select_step (active in_a : list bool) (key : list Z) (s : Z * nat * bool) (i : nat)
    : Z * nat * bool :=
  let '(max_key, max_node, found) := s in
  if flag active i && negb (flag in_a i) && ((max_key <? cell key i)%Z || negb found)
  then (cell key i, i, true) else s.

Definition select_max (active in_a : list bool) (key : list Z) (n : nat) : nat :=
  (foldl (select_step active in_a key) (0%Z, 0, false) (seq 0 n)).1.2.

Definition phase_step (w : list (list Z)) (active : list bool) (n : nat) (s : PhaseState) : PhaseState :=
  let max_node := select_max active (ph_in_a s) (ph_key s) n in
  let in_a := <[max_node := true]> (ph_in_a s) in
  mkPhase in_a
    (update_keys active in_a (λ k i, add64 (adj_at w max_node i) k) n (ph_key s))
    (ph_last s) max_node.

Definition phase_start (w : list (list Z)) (active : list bool) (n : nat) : PhaseState :=
  let start := default 0 (find_by (flag active) (seq 0 n)) in
  let in_a := <[start := true]> (replicate MINCUT_MAX_NODES false) in
  mkPhase in_a
    (update_keys active in_a (λ _ i, adj_at w start i) n (replicate MINCUT_MAX_NODES 0%Z)) 0 start.

(** [(second_to_last, last, cut_of_phase)] *)
Definition minimum_cut_phase (w : list (list Z)) (active : list bool) (active_count n : nat)
    : nat * nat * Z :=
  let s := Nat.iter (active_count - 1) (phase_step w active n) (phase_start w active n) in
  (ph_second_to_last s, ph_last s, cell (ph_key s) (ph_last s)).

(* ------------------------------------------------------------------ *)
(** ** The contraction loop *)

Record CutState : Set := mkCutState {
  cs_w : list (list Z);
  cs_groups : list (list bool);
  cs_active : list bool;
  cs_best_cut_weight : Z;
  cs_best_cut_node : nat;
}.

(** Row and column [t] added to those of [s]. *)
Definition merge_row (active : list bool) (s t : nat) (w : list (list Z)) (i : nat) : list (list Z) :=
  if flag active i && negb (i =? s) && negb (i =? t) then
    let w := adj_set w s i (add64 (adj_at w t i) (adj_at w s i)) in
    adj_set w i s (add64 (adj_at w i t) (adj_at w i s))
  else w.

Definition transfer_group (s t n : nat) (groups : list (list bool)) : list (list bool) :=
  foldl (λ gs i, if flag2 gs t i then alter (λ row, <[i := true]> row) s gs else gs) groups (seq 0 n).

Definition contract_step (active_count n : nat) (c : CutState) : CutState :=
  let '(s, t, cut_of_phase) := minimum_cut_phase (cs_w c) (cs_active c) active_count n in
  let better := (cut_of_phase <? cs_best_cut_weight c)%Z in
  mkCutState
    (foldl (merge_row (cs_active c) s t) (cs_w c) (seq 0 n))
    (transfer_group s t n (cs_groups c))
    (<[t := false]> (cs_active c))
    (if better then cut_of_phase else cs_best_cut_weight c)
    (if better then t else cs_best_cut_node c).

Definition build_result (sub_nodes : list (nat * PartitionId)) (groups : list (list bool))
    (cut_node : nat) (cut_weight : Z) (within_budget : bool) : MinCutResult :=
  let side b := omap (λ '(i, (_, pid)), if Bool.eqb (flag2 groups cut_node i) b then Some pid else None)
                  (imap pair sub_nodes) in
  mkMinCutResult (side true) (side false) cut_weight within_budget.

(** The [while] loop; [k] is [active_count], the budget the iterations left. *)
Fixpoint contract_loop (sub_nodes : list (nat * PartitionId)) (n k : nat) (budget : Z) (c : CutState)
    : result MinCutResult MinCutResult :=
  match k with
  | S (S _ as k') =>
      if (budget <=? 0)%Z
      then Err (build_result sub_nodes (cs_groups c) (cs_best_cut_node c) (cs_best_cut_weight c) false)
      else contract_loop sub_nodes n k' (budget - 1) (contract_step k n c)
  | _ => Ok (build_result sub_nodes (cs_groups c) (cs_best_cut_node c) (cs_best_cut_weight c) true)
  end.

Definition initial_state (adj : list (list Z)) (n : nat) : CutState :=
  mkCutState
    (imap (λ i row, imap (λ j _, if (i <? n) && (j <? n) then adj_at adj i j else 0%Z) row)
       (replicate MINCUT_MAX_NODES (replicate MINCUT_MAX_NODES 0%Z)))
    (imap (λ i row, imap (λ j _, (i <? n) && (i =? j)) row)
       (replicate MINCUT_MAX_NODES (replicate MINCUT_MAX_NODES false)))
    (imap (λ i _, i <? n) (replicate MINCUT_MAX_NODES false))
    u64_max 0.

Definition stoer_wagner_mincut (adj : list (list Z)) (sub_nodes : list (nat * PartitionId))
    (max_iterations : Z) : result MinCutResult MinCutResult :=
  let n := length sub_nodes in
  if n <? 2 then Ok mincut_empty
  else contract_loop sub_nodes n n max_iterations (initial_state adj n).

(* ------------------------------------------------------------------ *)
(** ** The neighbourhood *)

Definition present (idx : nat) (sub : list (nat * PartitionId)) : bool :=
  existsb (λ '(ni, _), ni =? idx) sub.

(** One more node of the subgraph, if there is room and it is new. *)
Definition add_sub_node (g : CoherenceGraph) (sub : list (nat * PartitionId)) (idx : nat)
    : list (nat * PartitionId) :=
  if MINCUT_MAX_NODES <=? length sub then sub
  else
    match partition_at idx g with
    | Some pid => if present idx sub then sub else sub ++ [(idx, pid)]
    | None => sub
    end.

(** [None] is the fuel of the neighbour iterator. *)
Definition collect_subgraph (g : CoherenceGraph) (p : PartitionId) : option (list (nat * PartitionId)) :=
  match find_node p g with
  | None => Some []
  | Some root =>
      ns ← default (Some []) (neighbors p g);
      let sub := foldl (add_sub_node g) [(root, p)] ns.*1 in
      let sources := omap (λ '(_, from, to, _), if to =? root then Some from else None) (active_edges g) in
      Some (foldl (add_sub_node g) sub sources)
  end.

Definition local_weight (g : CoherenceGraph) (sub : list (nat * PartitionId)) (i j : nat) : Z :=
  if i =? j then 0%Z
  else
    match sub !! i, sub !! j with
    | Some (ni, _), Some (nj, _) =>
        match partition_at ni g, partition_at nj g with
        | Some pi, Some pj => edge_weight_between pi pj g
        | _, _ => 0%Z
        end
    | _, _ => 0%Z
    end.

Definition local_matrix (g : CoherenceGraph) (sub : list (nat * PartitionId)) : list (list Z) :=
  (λ i, (λ j, local_weight g sub i j) <$> seq 0 MINCUT_MAX_NODES) <$> seq 0 MINCUT_MAX_NODES.

Definition find_min_cut (g : CoherenceGraph) (p : PartitionId) (b : MinCutBridge) : option MinCutBridge :=
  let b := advance_mincut_epoch b in
  sub ← collect_subgraph g p;
  if length sub <? 2 then
    let cut := mkMinCutResult (sub.*2) [] 0 true in
    Some (mkMinCutBridge cut (mb_epoch b) (mb_budget_exceeded_count b)
            (wrap32 (mb_compute_count b + 1)) (mb_max_iterations b))
  else
    match stoer_wagner_mincut (local_matrix g sub) sub (mb_max_iterations b) with
    | Ok cut =>
        Some (mkMinCutBridge cut (mb_epoch b) (mb_budget_exceeded_count b)
                (wrap32 (mb_compute_count b + 1)) (mb_max_iterations b))
    | Err partial =>
        Some (mkMinCutBridge (mkMinCutResult (mc_left partial) (mc_right partial) (mc_cut_weight partial) false)
                (mb_epoch b) (wrap32 (mb_budget_exceeded_count b + 1)) (mb_compute_count b)
                (mb_max_iterations b))
    end.

(** What a backend hands on ([BackendMinCutResult::from_mincut_result]), less its
    name: at most 32 entries of each side. *)
Definition from_mincut_result (r : MinCutResult) : MinCutResult :=
  mkMinCutResult (take 32 (mc_left r)) (take 32 (mc_right r)) (mc_cut_weight r) (mc_within_budget r).

Definition backend_find_min_cut (g : CoherenceGraph) (p : PartitionId) (b : MinCutBridge)
    : option (MinCutResult * MinCutBridge) :=
  b ← find_min_cut g p b; Some (from_mincut_result (mb_last_known_cut b), b).

Example three_nodes_weakest_link :
  (g ← graph_run [GAddNode 1; GAddNode 2; GAddNode 3; GAddEdge 1 2 1000; GAddEdge 2 1 1000;
                  GAddEdge 2 3 10; GAddEdge 3 2 10; GAddEdge 1 3 5; GAddEdge 3 1 5]%Z (graph_new 8 32);
   mb_last_known_cut <$> find_min_cut g 1 (bridge_new 100)) =
  Some (mkMinCutResult [3%Z] [1%Z; 2%Z] 30 true).
Proof. vm_compute. reflexivity. Qed.

(* ------------------------------------------------------------------ *)
(** ** Sums *)

Local Open Scope Z_scope.

Fixpoint lsum (f : nat → Z) (l : list nat) : Z :=
  match l with [] => 0 | x :: l => f x + lsum f l end.

Lemma lsum_app f l l' : lsum f (l ++ l') = lsum f l + lsum f l'.
Proof. induction l as [|x l IH]; cbn; [done|]. rewrite IH. lia. Qed.

Lemma lsum_ext f g l : (∀ x, x ∈ l → f x = g x) → lsum f l = lsum g l.
Proof.
  induction l as [|x l IH]; intros H; cbn; [done|].
  rewrite (H x), IH; [done| |by left]. intros y Hy. apply H. by right.
Qed.

Lemma lsum_le f g l : (∀ x, x ∈ l → f x ≤ g x) → lsum f l ≤ lsum g l.
Proof.
  induction l as [|x l IH]; intros H; cbn; [done|].
  pose proof (H x ltac:(by left)). assert (lsum f l ≤ lsum g l); [|lia]. apply IH. intros y Hy. apply H. by right.
Qed.

Lemma lsum_zero f l : (∀ x, x ∈ l → f x = 0) → lsum f l = 0.
Proof.
  intros H. rewrite (lsum_ext f (λ _, 0)) by done. clear H. induction l as [|x l IH]; cbn; [done|]. exact IH.
Qed.

Lemma lsum_nonneg f l : (∀ x, x ∈ l → 0 ≤ f x) → 0 ≤ lsum f l.
Proof. intros H. rewrite <- (lsum_zero (λ _, 0) l) by done. by apply lsum_le. Qed.

Lemma lsum_add f g l : lsum (λ x, f x + g x) l = lsum f l + lsum g l.
Proof. induction l as [|x l IH]; cbn; [done|]. rewrite IH. lia. Qed.

Lemma lsum_swap (f : nat → nat → Z) l l' :
  lsum (λ x, lsum (λ y, f x y) l') l = lsum (λ y, lsum (λ x, f x y) l) l'.
Proof.
  induction l as [|x l IH]; cbn; [by rewrite lsum_zero|]. rewrite IH. symmetry. apply lsum_add.
Qed.

Lemma lsum_perm f l l' : l ≡ₚ l' → lsum f l = lsum f l'.
Proof. induction 1 as [|x l l' _ IH|x y l|l1 l2 l3 _ IH1 _ IH2]; cbn; lia. Qed.

Lemma lsum_filter (P : nat → bool) f l :
  lsum (λ x, if P x then f x else 0) l = lsum f (filter (λ x, P x = true) l).
Proof.
  induction l as [|x l IH]; [done|]. rewrite filter_cons. cbn. destruct (P x) eqn:E.
  - rewrite decide_True by done. cbn. by rewrite IH.
  - rewrite decide_False by congruence. by rewrite IH.
Qed.

Lemma filter_all {A} (P : A → Prop) `{∀ x, Decision (P x)} (l : list A) : (∀ x, x ∈ l → P x) → filter P l = l.
Proof.
  induction l as [|x l IH]; intros HP; [done|]. rewrite filter_cons_True by (apply HP; by left).
  f_equal. apply IH. intros y Hy. apply HP. by right.
Qed.

(** One term of a sum over distinct indices. *)
Lemma lsum_single (a : nat) f l : NoDup l → lsum (λ x, if (a =? x)%nat then f x else 0) l =
  if bool_decide (a ∈ l) then f a else 0.
Proof.
  induction 1 as [|x l Hx _ IH]; cbn; [done|]. rewrite IH. destruct (a =? x)%nat eqn:E.
  - apply Nat.eqb_eq in E as ->. rewrite bool_decide_eq_false_2 by done.
    rewrite bool_decide_eq_true_2 by by left. lia.
  - apply Nat.eqb_neq in E. rewrite (bool_decide_ext (a ∈ x :: l) (a ∈ l)); [done|].
    rewrite elem_of_cons. naive_solver.
Qed.

(* ------------------------------------------------------------------ *)
(** ** Weights between sets of nodes *)

(** The weight of the edges from the nodes of [P] to those of [Q]. *)
Definition between (A : nat → nat → Z) (l : list nat) (P Q : nat → bool) : Z :=
  lsum (λ i, if P i then lsum (λ j, if Q j then A i j else 0) l else 0) l.

(** The weight across the cut whose left side is [side]. *)
Definition cut (A : nat → nat → Z) (l : list nat) (side : nat → bool) : Z :=
  between A l side (λ j, negb (side j)).

Section between.
Variables (A : nat → nat → Z) (l : list nat).
Hypothesis A_pos : ∀ i j, 0 ≤ A i j.

Lemma between_ext P Q P' Q' :
  (∀ i, i ∈ l → P i = P' i) → (∀ i, i ∈ l → Q i = Q' i) → between A l P Q = between A l P' Q'.
Proof.
  intros HP HQ. apply lsum_ext. intros i Hi. rewrite HP by done. destruct (P' i); [|done].
  apply lsum_ext. intros j Hj. by rewrite HQ.
Qed.

Lemma between_le P Q P' Q' :
  (∀ i, i ∈ l → P i = true → P' i = true) → (∀ i, i ∈ l → Q i = true → Q' i = true) →
  0 ≤ between A l P Q ≤ between A l P' Q'.
Proof.
  intros HP HQ. split.
  - apply lsum_nonneg. intros i _. destruct (P i); [|done]. apply lsum_nonneg. intros j _.
    by destruct (Q j).
  - apply lsum_le. intros i Hi. specialize (HP i Hi).
    assert (0 ≤ lsum (λ j, if Q j then A i j else 0) l) as H0
      by (apply lsum_nonneg; intros j _; by destruct (Q j)).
    assert (lsum (λ j, if Q j then A i j else 0) l ≤ lsum (λ j, if Q' j then A i j else 0) l) as H1.
    { apply lsum_le. intros j Hj. specialize (HQ j Hj). specialize (A_pos i j).
      destruct (Q j); [rewrite HQ by done; lia|]. destruct (Q' j); lia. }
    destruct (P i); [rewrite HP by done; done|]. destruct (P' i); lia.
Qed.

Lemma between_swap P Q : between A l P Q = between (λ i j, A j i) l Q P.
Proof.
  unfold between.
  rewrite (lsum_ext _ (λ i, lsum (λ j, if P i then if Q j then A i j else 0 else 0) l)).
  2: { intros i _. destruct (P i); [done|]. by rewrite lsum_zero. }
  rewrite lsum_swap. apply lsum_ext. intros j _. destruct (Q j); [done|].
  apply lsum_zero. intros i _. by destruct (P i).
Qed.

Lemma between_sym P Q : (∀ i j, A i j = A j i) → between A l P Q = between A l Q P.
Proof.
  intros Hs. rewrite between_swap. apply lsum_ext. intros i _. destruct (Q i); [|done].
  apply lsum_ext. intros j _. by rewrite (Hs i j).
Qed.

(** A set split along the classes of [rep]. *)
Lemma between_split (rep : nat → nat) V Q :
  NoDup V →
  lsum (λ v, between A l (λ i, (rep i =? v)%nat) Q) V = between A l (λ i, bool_decide (rep i ∈ V)) Q.
Proof.
  intros HV. unfold between. rewrite lsum_swap. apply lsum_ext. intros i _.
  exact (lsum_single (rep i) (λ _, lsum (λ j, if Q j then A i j else 0) l) V HV).
Qed.

Lemma between_zero_l P Q : (∀ i, i ∈ l → P i = false) → between A l P Q = 0.
Proof. intros H. apply lsum_zero. intros i Hi. by rewrite H. Qed.

Lemma cut_ext side side' : (∀ i, i ∈ l → side i = side' i) → cut A l side = cut A l side'.
Proof. intros H. apply between_ext; intros i Hi; by rewrite H. Qed.
End between.

Lemma between_perm A l l' P Q : l ≡ₚ l' → between A l P Q = between A l' P Q.
Proof.
  intros Hp. unfold between. rewrite (lsum_perm _ l l' Hp). apply lsum_ext. intros i _.
  destruct (P i); [|done]. by apply lsum_perm.
Qed.

(** The cut of a node added to an ordering. *)
Lemma cut_snoc A l side v :
  (∀ x, x ∈ l → A x v = A v x) →
  cut A (l ++ [v]) side = cut A l side + lsum (λ x, if Bool.eqb (side x) (side v) then 0 else A x v) l.
Proof.
  intros Hsym. unfold cut, between. rewrite lsum_app. cbn [lsum].
  rewrite (lsum_ext _ (λ i, (if side i then lsum (λ j, if negb (side j) then A i j else 0) l else 0) +
    (if side i then if negb (side v) then A i v else 0 else 0)) l).
  2: { intros i _. destruct (side i); [|done]. rewrite lsum_app. cbn. lia. }
  rewrite lsum_add. rewrite lsum_app. cbn [lsum].
  rewrite <- !Z.add_assoc. f_equal. destruct (side v); cbn [negb].
  - rewrite lsum_zero by (intros x _; by destruct (side x)).
    rewrite Z.add_0_r, Z.add_0_l, Z.add_0_r. apply lsum_ext. intros x Hx.
    destruct (side x); cbn; [done|]. symmetry. by apply Hsym.
  - rewrite Z.add_0_r. apply lsum_ext. intros x _. by destruct (side x).
Qed.

(* ------------------------------------------------------------------ *)
(** ** Array loops *)

Lemma flag_insert l i j b : (i < length l)%nat → flag (<[i := b]> l) j = if (j =? i)%nat then b else flag l j.
Proof.
  intros Hi. unfold flag. destruct (j =? i)%nat eqn:E.
  - apply Nat.eqb_eq in E as ->. by rewrite list_lookup_insert_eq.
  - apply Nat.eqb_neq in E. by rewrite list_lookup_insert_ne.
Qed.

Lemma update_keys_spec active in_a f n key :
  (n ≤ length key)%nat →
  length (update_keys active in_a f n key) = length key ∧
  ∀ i, cell (update_keys active in_a f n key) i =
    if (i <? n)%nat && flag active i && negb (flag in_a i) then f (cell key i) i else cell key i.
Proof.
  intros Hn. unfold update_keys. induction n as [|n IH]; [done|].
  destruct IH as [Hlen IH]; [lia|]. rewrite seq_S, foldl_snoc. cbn [Nat.add].
  set (key' := foldl _ key (seq 0 n)) in *.
  assert (∀ i, (i <? S n)%nat = ((i =? n)%nat || (i <? n)%nat)) as Hlt.
  { intros i. destruct (Nat.eqb_spec i n), (Nat.ltb_spec i n), (Nat.ltb_spec i (S n)); cbn; lia. }
  destruct (flag active n && negb (flag in_a n)) eqn:E.
  - rewrite length_insert. split; [done|]. intros i. rewrite cell_insert by lia. rewrite Hlt, (Nat.eqb_sym n i).
    destruct (i =? n)%nat eqn:Ei; cbn [orb andb].
    + apply Nat.eqb_eq in Ei as ->. rewrite E. cbn [andb]. rewrite IH, Nat.ltb_irrefl. done.
    + apply IH.
  - split; [done|]. intros i. rewrite Hlt, IH. destruct (i =? n)%nat eqn:Ei; cbn [orb andb]; [|done].
    apply Nat.eqb_eq in Ei as ->. by rewrite E, Nat.ltb_irrefl.
Qed.

Lemma select_fold_spec active in_a key l :
  let cand i := flag active i && negb (flag in_a i) in
  match foldl (select_step active in_a key) (0, 0%nat, false) l with
  | (mk, mn, true) => mn ∈ l ∧ cand mn = true ∧ mk = cell key mn ∧
      ∀ u, u ∈ l → cand u = true → cell key u ≤ cell key mn
  | (_, _, false) => ∀ u, u ∈ l → cand u = false
  end.
Proof.
  intros cand. induction l as [|x l IH] using rev_ind; cbn; [by intros u ?%not_elem_of_nil|].
  rewrite foldl_snoc. destruct (foldl _ _ l) as [[mk mn] found]. unfold select_step.
  change (flag active x && negb (flag in_a x)) with (cand x).
  assert (∀ u, u ∈ l ++ [x] ↔ u ∈ l ∨ u = x) as Hin by (intros u; by rewrite elem_of_app, list_elem_of_singleton).
  destruct found.
  - destruct IH as (Hmn & Hc & -> & Hmax). rewrite orb_false_r.
    destruct (cand x && (cell key mn <? cell key x)) eqn:E.
    + apply andb_prop in E as [Hx Hlt]. split_and!; [apply Hin; by right|done|done|].
      intros u [Hu| ->]%Hin Hcu; [|done]. specialize (Hmax u Hu Hcu). lia.
    + split_and!; [apply Hin; by left|done|done|]. intros u [Hu| ->]%Hin Hcu; [by apply Hmax|].
      rewrite Hcu in E. cbn in E. lia.
  - cbn [negb]. rewrite orb_true_r, andb_true_r. destruct (cand x) eqn:E.
    + split_and!; [apply Hin; by right|done|done|]. intros u [Hu| ->]%Hin Hcu; [|done].
      by rewrite (IH u Hu) in Hcu.
    + intros u [Hu| ->]%Hin; auto.
Qed.

Definition active_list (active : list bool) (n : nat) : list nat :=
  filter (λ i, flag active i = true) (seq 0 n).

Lemma elem_of_active active n i : i ∈ active_list active n ↔ (i < n)%nat ∧ flag active i = true.
Proof. unfold active_list. rewrite list_elem_of_filter, elem_of_seq. naive_solver lia. Qed.

Lemma active_NoDup active n : NoDup (active_list active n).
Proof. apply NoDup_filter, NoDup_seq. Qed.

(* ------------------------------------------------------------------ *)
(** ** A phase finds a minimum cut between the last two nodes *)

Section phase.
Variables (w : list (list Z)) (active : list bool) (n : nat).
Notation W := (adj_at w).
Notation V := (active_list active n).
Hypothesis n_max : (n ≤ MINCUT_MAX_NODES)%nat.
Hypothesis W_pos : ∀ u v, u ∈ V → v ∈ V → u ≠ v → 0 ≤ W u v.
Hypothesis W_sym : ∀ u v, u ∈ V → v ∈ V → u ≠ v → W u v = W v u.
(** The weights towards a node fit 64 bits. *)
Hypothesis W_max : ∀ L v, NoDup L → (∀ u, u ∈ L → u ∈ V) → v ∈ V → v ∉ L → lsum (λ u, W u v) L ≤ u64_max.

(** The nodes [L] have been added to A, in order. *)
Record phase_inv (L : list nat) (s : PhaseState) : Prop := {
  pi_nodup : NoDup L;
  pi_sub v : v ∈ L → v ∈ V;
  pi_alen : length (ph_in_a s) = MINCUT_MAX_NODES;
  pi_klen : length (ph_key s) = MINCUT_MAX_NODES;
  pi_in i : flag (ph_in_a s) i = true ↔ i ∈ L;
  pi_key u : u ∈ V → u ∉ L → cell (ph_key s) u = lsum (λ x, W x u) L;
  pi_last : ∃ L0, L = L0 ++ [ph_last s] ∧ cell (ph_key s) (ph_last s) = lsum (λ x, W x (ph_last s)) L0 ∧
    (L0 ≠ [] → ∃ L1, L0 = L1 ++ [ph_second_to_last s]);
  pi_cut side : ∃ X Y, L = X ++ Y ∧ (∀ y, y ∈ Y → side y = side (ph_last s)) ∧
    ∀ u, u ∈ V → u ∉ L → lsum (λ x, W x u) X ≤ cut W L side;
  pi_phase side : (2 ≤ length L)%nat → side (ph_second_to_last s) ≠ side (ph_last s) →
    cell (ph_key s) (ph_last s) ≤ cut W L side;
}.

Lemma cut_grows L v side :
  (∀ u, u ∈ L → u ∈ V) → v ∈ V → v ∉ L → ∀ X Y, L = X ++ Y → (∀ y, y ∈ Y → side y ≠ side v) →
  cut W L side + lsum (λ x, W x v) Y ≤ cut W (L ++ [v]) side.
Proof.
  intros Hsub Hv Hn X Y HL HY.
  assert (∀ x, x ∈ L → x ∈ V ∧ x ≠ v) as Hx by (intros x Hx; split; [by apply Hsub|by intros ->]).
  rewrite cut_snoc by (intros x Hx'; destruct (Hx x Hx'); by apply W_sym).
  apply Z.add_le_mono_l. rewrite HL, lsum_app.
  assert (0 ≤ lsum (λ x, if Bool.eqb (side x) (side v) then 0 else W x v) X) as H0.
  { apply lsum_nonneg. intros x HxX. destruct (Bool.eqb _ _); [done|].
    destruct (Hx x) as [??]; [rewrite HL; apply elem_of_app; by left|]. by apply W_pos. }
  rewrite (lsum_ext (λ x, if Bool.eqb _ _ then 0 else _) (λ x, W x v) Y); [lia|].
  intros y Hy. specialize (HY y Hy). by destruct (side y), (side v).
Qed.

Lemma phase_start_inv v0 :
  v0 ∈ V → ∃ v, phase_inv [v] (phase_start w active n).
Proof.
  intros Hv0. unfold phase_start. destruct (find_by (flag active) (seq 0 n)) as [v|] eqn:Ef.
  2: { exfalso. rewrite find_by_None in Ef. apply elem_of_active in Hv0 as [Hlt Ha].
       specialize (Ef v0 v0). rewrite lookup_seq_lt in Ef by done. rewrite Ef in Ha; done. }
  apply find_by_Some in Ef as [Ha [i Hi]]. apply lookup_seq in Hi as [-> Hlt]. cbn [Nat.add] in *.
  assert (i ∈ V) as Hv by by apply elem_of_active.
  exists i. change (default 0%nat (Some i)) with i.
  set (in_a := <[i := true]> (replicate MINCUT_MAX_NODES false)).
  assert (∀ j, flag in_a j = (j =? i)%nat) as Hin.
  { intros j. unfold in_a. rewrite flag_insert by (rewrite length_replicate; lia).
    destruct (j =? i)%nat; [done|]. unfold flag. destruct (replicate _ _ !! j) eqn:E; [|done].
    by apply lookup_replicate in E as [-> _]. }
  destruct (update_keys_spec active in_a (λ _ i0, adj_at w i i0) n (replicate MINCUT_MAX_NODES 0)) as [Hlen Hkey];
    [by rewrite length_replicate|].
  split; cbn [ph_in_a ph_key ph_last ph_second_to_last].
  - apply NoDup_singleton.
  - by intros v ->%list_elem_of_singleton.
  - unfold in_a. by rewrite length_insert, length_replicate.
  - by rewrite Hlen, length_replicate.
  - intros j. rewrite Hin, Nat.eqb_eq, list_elem_of_singleton. done.
  - intros u Hu Hne. rewrite list_elem_of_singleton in Hne. apply elem_of_active in Hu as [Hul Hua].
    rewrite Hkey, Hua, Hin. rewrite (proj2 (Nat.ltb_lt u n)), (proj2 (Nat.eqb_neq u i)) by done. cbn. lia.
  - exists []. split_and!; [done| |done]. rewrite Hkey, Hin, Nat.eqb_refl. cbn [negb]. rewrite andb_false_r.
    by rewrite cell_replicate.
  - intros side. exists [], [i]. split_and!; [done|by intros y ->%list_elem_of_singleton|].
    intros u _ _. unfold cut. cbn. destruct (side i); cbn; lia.
  - cbn. lia.
Qed.

Lemma phase_step_inv L s u0 :
  phase_inv L s → u0 ∈ V → u0 ∉ L → ∃ v, v ∉ L ∧ phase_inv (L ++ [v]) (phase_step w active n s).
Proof.
  intros Hi Hu0 Hn0. unfold phase_step. set (v := select_max active (ph_in_a s) (ph_key s) n).
  assert (v ∈ V ∧ v ∉ L ∧ ∀ u, u ∈ V → u ∉ L → cell (ph_key s) u ≤ cell (ph_key s) v) as (HvV & HvL & Hvmax).
  { assert (∀ u, u ∈ V → u ∉ L ↔ flag active u && negb (flag (ph_in_a s) u) = true) as Hcand.
    { intros u Hu. rewrite <- (pi_in L s Hi u). apply elem_of_active in Hu as [_ ->].
      destruct (flag (ph_in_a s) u); cbn; naive_solver. }
    pose proof (select_fold_spec active (ph_in_a s) (ph_key s) (seq 0 n)) as Hsel. cbv zeta in Hsel.
    unfold v, select_max. destruct (foldl _ _ (seq 0 n)) as [[mk mn] found]. cbn [fst snd].
    assert (∀ u, u ∈ V → u ∈ seq 0 n) as Hseq by (intros u [Hu _]%elem_of_active; apply elem_of_seq; lia).
    destruct found.
    - destruct Hsel as (Hmn & Hc & _ & Hmax).
      assert (mn ∈ V) as HmV by (apply elem_of_active; apply elem_of_seq in Hmn; apply andb_prop in Hc as [? _]; split; [lia|done]).
      split_and!; [done|by apply Hcand|]. intros u Hu Hn. apply Hmax; [by apply Hseq|by apply Hcand].
    - apply (Hcand u0 Hu0) in Hn0. rewrite (Hsel u0 (Hseq u0 Hu0)) in Hn0. done. }
  clearbody v. assert (v < n)%nat as Hvn by by apply elem_of_active in HvV as [? _].
  exists v. split; [done|]. set (in_a := <[v := true]> (ph_in_a s)).
  assert (∀ j, flag in_a j = ((j =? v)%nat || flag (ph_in_a s) j)) as Hin.
  { intros j. unfold in_a. rewrite flag_insert by (rewrite (pi_alen L s Hi); lia). by destruct (j =? v)%nat. }
  destruct (update_keys_spec active in_a (λ k i, add64 (adj_at w v i) k) n (ph_key s)) as [Hlen Hkey];
    [by rewrite (pi_klen L s Hi)|].
  set (key := update_keys _ _ _ _ _) in *.
  assert (∀ u, u ∈ L ++ [v] → u ∈ V) as Hsub.
  { intros u [Hu| ->%list_elem_of_singleton]%elem_of_app; [by apply (pi_sub L s Hi)|done]. }
  assert (NoDup (L ++ [v])) as Hnd.
  { apply NoDup_app. split_and!; [apply Hi| |apply NoDup_singleton].
    intros x Hx ->%list_elem_of_singleton. done. }
  assert (cell key v = cell (ph_key s) v) as Hkv.
  { rewrite Hkey, Hin, Nat.eqb_refl. cbn [orb negb]. by rewrite andb_false_r. }
  assert (∀ side, side (ph_last s) ≠ side v → cell (ph_key s) v ≤ cut W (L ++ [v]) side) as Hphase.
  { intros side Hside. destruct (pi_cut L s Hi side) as (X & Y & HL & HY & HX).
    rewrite (pi_key L s Hi v HvV HvL). specialize (HX v HvV HvL).
    pose proof (cut_grows L v side (pi_sub L s Hi) HvV HvL X Y HL) as Hg.
    rewrite HL at 1. rewrite lsum_app. cut (cut W L side + lsum (λ x, W x v) Y ≤ cut W (L ++ [v]) side); [lia|].
    apply Hg. intros y Hy. by rewrite HY. }
  split; cbn [ph_in_a ph_key ph_last ph_second_to_last].
  - done.
  - done.
  - unfold in_a. by rewrite length_insert, (pi_alen L s Hi).
  - by rewrite Hlen, (pi_klen L s Hi).
  - intros j. rewrite Hin, orb_true_iff, (pi_in L s Hi), elem_of_app, list_elem_of_singleton, Nat.eqb_eq. tauto.
  - intros u Hu Hnot. assert (u ∉ L ∧ u ≠ v) as [HuL Huv].
    { rewrite elem_of_app, list_elem_of_singleton in Hnot. tauto. }
    rewrite Hkey, Hin. rewrite (proj2 (Nat.eqb_neq u v)) by done. cbn [orb].
    assert (flag (ph_in_a s) u = false) as -> by (apply not_true_is_false; by rewrite (pi_in L s Hi)).
    apply elem_of_active in Hu as Hu'. destruct Hu' as [Hun Hua]. rewrite Hua, (proj2 (Nat.ltb_lt u n)) by done.
    cbn [andb negb]. rewrite (pi_key L s Hi u Hu HuL). unfold add64, sat_add.
    pose proof (W_max (L ++ [v]) u Hnd Hsub Hu Hnot) as Hm. rewrite lsum_app in *. cbn [lsum] in *. lia.
  - exists L. split_and!; [done|by rewrite Hkv; apply Hi|].
    intros _. destruct (pi_last L s Hi) as (L0 & -> & _). by exists L0.
  - intros side. destruct (decide (side (ph_last s) = side v)) as [Heq|Hne].
    + destruct (pi_cut L s Hi side) as (X & Y & HL & HY & HX). exists X, (Y ++ [v]). split_and!.
      * by rewrite HL, app_assoc.
      * intros y [Hy| ->%list_elem_of_singleton]%elem_of_app; [|done]. by rewrite HY.
      * intros u Hu Hnot. assert (u ∉ L) as HuL by (rewrite elem_of_app in Hnot; tauto).
        specialize (HX u Hu HuL).
        pose proof (cut_grows L v side (pi_sub L s Hi) HvV HvL L [] ltac:(by rewrite app_nil_r)
          ltac:(by intros y ?%not_elem_of_nil)) as Hg. cbn [lsum] in Hg. lia.
    + exists L, [v]. split_and!; [done|by intros y ->%list_elem_of_singleton|].
      intros u Hu Hnot. assert (u ∉ L) as HuL by (rewrite elem_of_app in Hnot; tauto).
      rewrite <- (pi_key L s Hi u Hu HuL). specialize (Hvmax u Hu HuL). specialize (Hphase side Hne). lia.
  - intros side _ Hne. rewrite Hkv. by apply Hphase.
Qed.

Lemma phase_run k : (k < length V)%nat →
  ∃ L, length L = S k ∧ phase_inv L (Nat.iter k (phase_step w active n) (phase_start w active n)).
Proof.
  induction k as [|k IH]; intros Hk.
  - destruct V as [|v0 l] eqn:E; [cbn in Hk; lia|].
    destruct (phase_start_inv v0) as [v Hv]; [rewrite E; by left|]. by exists [v].
  - destruct IH as (L & HL & Hi); [lia|].
    destruct (decide (Forall (λ x, x ∈ L) V)) as [Hall|Hex].
    + exfalso. rewrite Forall_forall in Hall.
      pose proof (submseteq_length _ _ (NoDup_submseteq V L (active_NoDup active n) Hall)). lia.
    + apply not_Forall_Exists in Hex; [|apply _]. apply Exists_exists in Hex as (u & Hu & Hn).
      destruct (phase_step_inv L _ u Hi Hu Hn) as (v & _ & Hi'). exists (L ++ [v]).
      split; [rewrite length_app; cbn; lia|]. exact Hi'.
Qed.

Lemma phase_spec :
  (2 ≤ length V)%nat →
  let '(s, t, c) := minimum_cut_phase w active (length V) n in
  s ∈ V ∧ t ∈ V ∧ s ≠ t ∧
  c = lsum (λ x, W x t) (filter (λ x, x ≠ t) V) ∧
  ∀ side, side s ≠ side t → c ≤ cut W V side.
Proof.
  intros H2. unfold minimum_cut_phase.
  destruct (phase_run (length V - 1)) as (L & HL & Hi); [lia|]. set (st := Nat.iter _ _ _) in *.
  assert (L ≡ₚ V) as Hp.
  { apply submseteq_length_Permutation; [|lia].
    apply NoDup_submseteq; [apply Hi|apply Hi]. }
  pose proof (pi_last L st Hi) as (L0 & HL0 & Hkey & Hsec).
  destruct Hsec as [L1 HL1].
  { intros ->. rewrite HL0 in HL. cbn in HL. lia. }
  pose proof (pi_nodup L st Hi) as Hnd. rewrite HL0 in Hnd. apply NoDup_app in Hnd as (Hnd0 & Hdis & _).
  assert (ph_last st ∉ L0) as Hnotin.
  { intros Hin. apply (Hdis _ Hin). by apply list_elem_of_singleton. }
  split_and!.
  - apply (pi_sub L st Hi). rewrite HL0, HL1. rewrite !elem_of_app, !list_elem_of_singleton. auto.
  - apply (pi_sub L st Hi). rewrite HL0. rewrite elem_of_app, list_elem_of_singleton. auto.
  - intros Heq. apply Hnotin. rewrite <- Heq, HL1. rewrite elem_of_app, list_elem_of_singleton. auto.
  - rewrite Hkey. apply lsum_perm. rewrite <- Hp, HL0, filter_app.
    rewrite (filter_cons_False (λ x, x ≠ ph_last st)) by auto. cbn. rewrite app_nil_r.
    symmetry. apply Permutation_refl', filter_all. by intros x Hx ->.
  - intros side Hside. assert (cut W L side = cut W V side) as <- by by apply between_perm.
    apply (pi_phase L st Hi); [lia|done].
Qed.
End phase.

(* ------------------------------------------------------------------ *)
(** ** Contraction *)

Definition square {A} (m : list (list A)) : Prop :=
  length m = MINCUT_MAX_NODES ∧ ∀ i row, m !! i = Some row → length row = MINCUT_MAX_NODES.

Lemma square_adj_set m f t x : square m → square (adj_set m f t x).
Proof.
  intros [Hl Hr]. split; [unfold adj_set; by rewrite length_alter|].
  intros i row. unfold adj_set. rewrite list_lookup_alter. case_decide as E.
  - intros (r & Hi & ->)%fmap_Some. rewrite length_insert. by eapply Hr.
  - apply Hr.
Qed.

Lemma square_row m i : square m → (i < MINCUT_MAX_NODES)%nat →
  ∃ row : list Z, m !! i = Some row ∧ length row = MINCUT_MAX_NODES.
Proof.
  intros [Hl Hr] Hi. destruct (lookup_lt_is_Some_2 m i) as [row Hrow]; [lia|]. exists row. eauto.
Qed.

Lemma adj_at_adj_set m f t x u v :
  square m → (f < MINCUT_MAX_NODES)%nat → (t < MINCUT_MAX_NODES)%nat →
  adj_at (adj_set m f t x) u v = if (u =? f)%nat && (v =? t)%nat then x else adj_at m u v.
Proof.
  intros Hm Hf Ht. destruct (square_row m f Hm Hf) as (row & Hrow & Hlen).
  unfold adj_at, adj_set. rewrite list_lookup_alter. destruct (Nat.eqb_spec u f) as [->|Hne].
  - rewrite decide_True, Hrow by done. cbn. rewrite cell_insert by lia. rewrite (Nat.eqb_sym t v). by destruct (v =? t)%nat.
  - by rewrite decide_False by done.
Qed.

Section merge.
Variables (active : list bool) (s t : nat) (w : list (list Z)).
Hypothesis w_square : square w.
Hypothesis s_small : (s < MINCUT_MAX_NODES)%nat.
Hypothesis st_ne : s ≠ t.

Definition merged (i : nat) : bool := flag active i && negb (i =? s)%nat && negb (i =? t)%nat.

Lemma merge_rows_spec k :
  (k ≤ MINCUT_MAX_NODES)%nat →
  let w' := foldl (merge_row active s t) w (seq 0 k) in
  square w' ∧ ∀ u v, adj_at w' u v =
    if (u =? s)%nat && merged v && (v <? k)%nat then add64 (adj_at w t v) (adj_at w s v)
    else if (v =? s)%nat && merged u && (u <? k)%nat then add64 (adj_at w u t) (adj_at w u s)
    else adj_at w u v.
Proof.
  induction k as [|k IH]; intros Hk; cbv zeta.
  - split; [done|]. intros u v. cbn. rewrite !andb_false_r. done.
  - specialize (IH ltac:(lia)). cbv zeta in IH. rewrite seq_S, foldl_snoc. cbn [Nat.add].
    set (w1 := foldl _ w (seq 0 k)) in *. destruct IH as [Hsq IH].
    assert (∀ i, (i <? S k)%nat = ((i =? k)%nat || (i <? k)%nat)) as Hlt.
    { intros i. destruct (Nat.eqb_spec i k), (Nat.ltb_spec i k), (Nat.ltb_spec i (S k)); cbn; lia. }
    unfold merge_row. change (flag active k && negb (k =? s)%nat && negb (k =? t)%nat) with (merged k).
    destruct (merged k) eqn:Em.
    2: { split; [done|]. intros u v. rewrite IH, !Hlt.
         assert (∀ x, merged x && ((x =? k)%nat || (x <? k)%nat) = merged x && (x <? k)%nat) as Hsame.
         { intros x. destruct (Nat.eqb_spec x k) as [->|]; [by rewrite Em|done]. }
         by rewrite <- !andb_assoc, !Hsame. }
    assert (k ≠ s ∧ k ≠ t) as [Hks Hkt].
    { unfold merged in Em. apply andb_prop in Em as [Em Hkt]. apply andb_prop in Em as [_ Hks].
      split; [apply Nat.eqb_neq; by apply negb_true_iff|apply Nat.eqb_neq; by apply negb_true_iff]. }
    assert (merged s = false ∧ merged t = false) as [Hms Hmt].
    { unfold merged. rewrite !Nat.eqb_refl. cbn. by rewrite !andb_false_r. }
    assert (adj_at w1 t k = adj_at w t k) as Htk.
    { rewrite IH, Hmt, (proj2 (Nat.eqb_neq t s)), Nat.ltb_irrefl by done. cbn. by rewrite !andb_false_r. }
    assert (adj_at w1 s k = adj_at w s k) as Hsk.
    { rewrite IH, Nat.ltb_irrefl, Hms. cbn. by rewrite !andb_false_r. }
    assert (adj_at w1 k t = adj_at w k t) as Hkt'.
    { rewrite IH, Hmt, Nat.ltb_irrefl. cbn. by rewrite !andb_false_r. }
    assert (adj_at w1 k s = adj_at w k s) as Hks'.
    { rewrite IH, Hms, Nat.ltb_irrefl. cbn. by rewrite !andb_false_r. }
    pose proof (square_adj_set w1 s k (add64 (adj_at w1 t k) (adj_at w1 s k)) Hsq) as Hsq1.
    split; [by apply square_adj_set|]. intros u v.
    rewrite !adj_at_adj_set by (done || lia). rewrite Htk, Hsk.
    rewrite (proj2 (Nat.eqb_neq k s)), (proj2 (Nat.eqb_neq s k)), Hkt', Hks' by done. cbn [andb].
    rewrite IH, !Hlt.
    destruct (Nat.eqb_spec u k) as [->|Huk]; destruct (Nat.eqb_spec v k) as [->|Hvk]; cbn [andb orb];
      rewrite ?(proj2 (Nat.eqb_neq k s) Hks), ?Em, ?Nat.ltb_irrefl; cbn [andb orb].
    + done.
    + rewrite !andb_true_r. by destruct (v =? s)%nat.
    + rewrite !andb_true_r. by destruct (u =? s)%nat.
    + by rewrite !andb_false_r.
Qed.
End merge.

Lemma flag2_alter gs s i b u j :
  (s < length gs)%nat → (∀ r row, gs !! r = Some row → (i < length row)%nat) →
  flag2 (alter (λ row, <[i := b]> row) s gs) u j = if (u =? s)%nat && (j =? i)%nat then b else flag2 gs u j.
Proof.
  intros Hs Hrow. unfold flag2. rewrite list_lookup_alter. destruct (Nat.eqb_spec u s) as [->|Hne].
  - rewrite decide_True by done. destruct (lookup_lt_is_Some_2 gs s Hs) as [row Hr]. rewrite Hr. cbn.
    rewrite flag_insert by by eapply Hrow. done.
  - by rewrite decide_False by done.
Qed.

Lemma transfer_group_spec s t n gs :
  square gs → (n ≤ MINCUT_MAX_NODES)%nat → (s < MINCUT_MAX_NODES)%nat → s ≠ t →
  square (transfer_group s t n gs) ∧
  ∀ u i, flag2 (transfer_group s t n gs) u i =
    if (u =? s)%nat && (i <? n)%nat && flag2 gs t i then true else flag2 gs u i.
Proof.
  intros Hsq Hn Hs Hst. unfold transfer_group. induction n as [|n IH].
  { split; [done|]. intros u i. cbn. by rewrite andb_false_r. }
  specialize (IH ltac:(lia)). rewrite seq_S, foldl_snoc. cbn [Nat.add].
  set (gs1 := foldl _ gs (seq 0 n)) in *. destruct IH as [[Hl1 Hr1] IH].
  assert (∀ i, (i <? S n)%nat = ((i =? n)%nat || (i <? n)%nat)) as Hlt.
  { intros i. destruct (Nat.eqb_spec i n), (Nat.ltb_spec i n), (Nat.ltb_spec i (S n)); cbn; lia. }
  assert (flag2 gs1 t n = flag2 gs t n) as Ht.
  { rewrite IH, (proj2 (Nat.eqb_neq t s)) by done. done. }
  rewrite Ht. destruct (flag2 gs t n) eqn:Et.
  - split.
    + split; [by rewrite length_alter|]. intros i row. rewrite list_lookup_alter. case_decide.
      * intros (r & Hi & ->)%fmap_Some. rewrite length_insert. by eapply Hr1.
      * apply Hr1.
    + intros u i. rewrite flag2_alter, IH, Hlt.
      2: { lia. } 2: { intros r row Hrow. rewrite (Hr1 r row Hrow). lia. }
      destruct (Nat.eqb_spec u s); cbn; [|done]. destruct (Nat.eqb_spec i n) as [->|]; cbn; [|done].
      by rewrite Et.
  - split; [done|]. intros u i. rewrite IH, Hlt. destruct (Nat.eqb_spec i n) as [->|]; cbn; [|done].
    by rewrite Et, !andb_false_r.
Qed.

(** *** The invariant of the loop *)

Section contract.
Variables (A : nat → nat → Z) (n : nat).
Notation N := (seq 0 n).
Hypothesis n_max : (n ≤ MINCUT_MAX_NODES)%nat.
Hypothesis A_pos : ∀ i j, 0 ≤ A i j.
Hypothesis A_sym : ∀ i j, A i j = A j i.
(** All the weights together fit 64 bits, with room to spare. *)
Hypothesis A_total : between A N (λ _, true) (λ _, true) < u64_max.

Definition proper (side : nat → bool) : Prop :=
  ∃ i j, (i < n)%nat ∧ (j < n)%nat ∧ side i = true ∧ side j = false.

(** [rep i] is the active node that node [i] has been merged into. *)
Record contract_inv (c : CutState) (rep : nat → nat) : Prop := {
  ci_active : length (cs_active c) = MINCUT_MAX_NODES;
  ci_square : square (cs_w c);
  ci_gsquare : square (cs_groups c);
  ci_rep i : (i < n)%nat → rep i ∈ active_list (cs_active c) n;
  ci_self u : u ∈ active_list (cs_active c) n → rep u = u;
  ci_groups u i : u ∈ active_list (cs_active c) n → (i < n)%nat → flag2 (cs_groups c) u i = (rep i =? u)%nat;
  ci_w u v : u ∈ active_list (cs_active c) n → v ∈ active_list (cs_active c) n → u ≠ v →
    adj_at (cs_w c) u v = between A N (λ i, (rep i =? u)%nat) (λ j, (rep j =? v)%nat);
  ci_best side : proper side →
    cs_best_cut_weight c ≤ cut A N side ∨ ∀ i, (i < n)%nat → side i = side (rep i);
  ci_node : (cs_best_cut_weight c = u64_max ∧ length (active_list (cs_active c) n) = n) ∨
    (cs_best_cut_weight c = cut A N (flag2 (cs_groups c) (cs_best_cut_node c)) ∧
     proper (flag2 (cs_groups c) (cs_best_cut_node c)) ∧
     cs_best_cut_node c ∉ active_list (cs_active c) n);
}.

Lemma between_total P Q : 0 ≤ between A N P Q < u64_max.
Proof. pose proof (between_le A N A_pos P Q (λ _, true) (λ _, true)) as H. destruct H; [done|done|lia]. Qed.

Lemma elem_of_N i : i ∈ N ↔ (i < n)%nat.
Proof. rewrite elem_of_seq. lia. Qed.

(** Classes of the contracted graph against sets of nodes. *)
Lemma class_sum c rep L v :
  contract_inv c rep → NoDup L → (∀ u, u ∈ L → u ∈ active_list (cs_active c) n) →
  v ∈ active_list (cs_active c) n → v ∉ L →
  lsum (λ u, adj_at (cs_w c) u v) L = between A N (λ i, bool_decide (rep i ∈ L)) (λ j, (rep j =? v)%nat).
Proof.
  intros Hi Hnd Hsub Hv Hn. rewrite <- between_split by done. apply lsum_ext. intros u Hu.
  apply (ci_w c rep Hi); [by apply Hsub|done|by intros ->].
Qed.

Lemma contracted_cut c rep side :
  contract_inv c rep →
  cut (adj_at (cs_w c)) (active_list (cs_active c) n) side = cut A N (λ i, side (rep i)).
Proof.
  intros Hi. unfold cut. set (V := active_list (cs_active c) n).
  assert (NoDup V) as Hnd by apply active_NoDup.
  unfold between at 1. rewrite lsum_filter.
  rewrite (lsum_ext _ (λ u, between A N (λ i, (rep i =? u)%nat)
    (λ j, negb (side (rep j))))).
  - rewrite between_split by by apply NoDup_filter. apply between_ext; [|done].
    intros i Hi'%elem_of_N. pose proof (ci_rep c rep Hi i Hi') as Hr.
    destruct (side (rep i)) eqn:E.
    + apply bool_decide_eq_true. by apply list_elem_of_filter.
    + apply bool_decide_eq_false. intros [? _]%list_elem_of_filter. congruence.
  - intros u [Hsu Hu]%list_elem_of_filter. rewrite lsum_filter.
    rewrite (lsum_ext _ (λ v, between A N (λ j, (rep j =? v)%nat) (λ i, (rep i =? u)%nat))).
    2: { intros v [Hsv Hv]%list_elem_of_filter. rewrite (ci_w c rep Hi u v Hu Hv).
         - by apply between_sym.
         - intros ->. rewrite Hsu in Hsv. done. }
    rewrite between_split by by apply NoDup_filter. rewrite between_sym by done. apply between_ext; [done|].
    intros j Hj%elem_of_N. pose proof (ci_rep c rep Hi j Hj) as Hr.
    destruct (side (rep j)) eqn:E; cbn [negb].
    + apply bool_decide_eq_false. intros [Hf _]%list_elem_of_filter. by rewrite E in Hf.
    + apply bool_decide_eq_true. apply list_elem_of_filter. by rewrite E.
Qed.

(** The two classes united. *)
Lemma between_union rep s t Q :
  s ≠ t →
  between A N (λ i, (rep i =? t)%nat) Q + between A N (λ i, (rep i =? s)%nat) Q =
  between A N (λ i, ((if (rep i =? t)%nat then s else rep i) =? s)%nat) Q.
Proof.
  intros Hst.
  replace (between A N (λ i, (rep i =? t)%nat) Q + between A N (λ i, (rep i =? s)%nat) Q)
    with (lsum (λ v, between A N (λ i, (rep i =? v)%nat) Q) [t; s]) by (cbn; lia).
  rewrite between_split.
  2: { constructor; [|apply NoDup_singleton]. by rewrite list_elem_of_singleton. }
  apply between_ext; [|done]. intros i _. rewrite (bool_decide_ext _ (rep i = t ∨ rep i = s))
    by (rewrite elem_of_cons, list_elem_of_singleton; done).
  destruct (Nat.eqb_spec (rep i) t) as [->|Ht].
  - rewrite Nat.eqb_refl. apply bool_decide_eq_true. by left.
  - destruct (Nat.eqb_spec (rep i) s) as [->|Hs]; [apply bool_decide_eq_true; by right|].
    apply bool_decide_eq_false. tauto.
Qed.

Lemma contract_step_inv c rep :
  contract_inv c rep → (2 ≤ length (active_list (cs_active c) n))%nat →
  let c' := contract_step (length (active_list (cs_active c) n)) n c in
  (∃ rep', contract_inv c' rep') ∧
  S (length (active_list (cs_active c') n)) = length (active_list (cs_active c) n).
Proof.
  intros Hi H2. set (V := active_list (cs_active c) n) in *. cbv zeta. unfold contract_step.
  assert (NoDup V) as HVnd by apply active_NoDup.
  assert (∀ u v, u ∈ V → v ∈ V → u ≠ v → 0 ≤ adj_at (cs_w c) u v) as Wpos.
  { intros u v Hu Hv Huv. rewrite (ci_w c rep Hi u v Hu Hv Huv). apply between_total. }
  assert (∀ u v, u ∈ V → v ∈ V → u ≠ v → adj_at (cs_w c) u v = adj_at (cs_w c) v u) as Wsym.
  { intros u v Hu Hv Huv. rewrite (ci_w c rep Hi u v Hu Hv Huv), (ci_w c rep Hi v u Hv Hu) by done.
    by apply between_sym. }
  assert (∀ L v, NoDup L → (∀ u, u ∈ L → u ∈ V) → v ∈ V → v ∉ L →
    lsum (λ u, adj_at (cs_w c) u v) L ≤ u64_max) as Wmax.
  { intros L v Hnd Hsub Hv Hn. rewrite (class_sum c rep L v Hi Hnd Hsub Hv Hn).
    match goal with |- between A N ?P ?Q ≤ _ => pose proof (between_total P Q) end. lia. }
  pose proof (phase_spec (cs_w c) (cs_active c) n n_max Wpos Wsym Wmax H2) as Hph. fold V in Hph.
  destruct (minimum_cut_phase (cs_w c) (cs_active c) (length V) n) as [[s t] cp].
  destruct Hph as (Hs & Ht & Hst & Hcp & Hmin).
  assert (cp = cut A N (λ i, (rep i =? t)%nat)) as Hcp'.
  { rewrite Hcp, (class_sum c rep _ t Hi); [|by apply NoDup_filter| |done|].
    - unfold cut. rewrite between_sym by done. apply between_ext; [done|]. intros i Hi'%elem_of_N.
      pose proof (ci_rep c rep Hi i Hi') as Hr. destruct (Nat.eqb_spec (rep i) t) as [Heq|Hne]; cbn [negb].
      + apply bool_decide_eq_false. by intros [? _]%list_elem_of_filter.
      + apply bool_decide_eq_true. by apply list_elem_of_filter.
    - by intros u [_ ?]%list_elem_of_filter.
    - by intros [? _]%list_elem_of_filter. }
  assert (0 ≤ cp < u64_max) as Hcprange by (rewrite Hcp'; apply between_total).
  clear Hcp. pose proof (proj1 (elem_of_active _ _ _) Hs) as [Hsn Hsa].
  pose proof (proj1 (elem_of_active _ _ _) Ht) as [Htn Hta].
  destruct (merge_rows_spec (cs_active c) s t (cs_w c) (ci_square c rep Hi) ltac:(lia) Hst n n_max) as [Hsq' Hw'].
  destruct (transfer_group_spec s t n (cs_groups c) (ci_gsquare c rep Hi) n_max ltac:(lia) Hst) as [Hgsq' Hg'].
  set (w' := foldl _ (cs_w c) (seq 0 n)) in *. set (gs' := transfer_group s t n (cs_groups c)) in *.
  assert (∀ u, u ∈ active_list (<[t := false]> (cs_active c)) n ↔ u ∈ V ∧ u ≠ t) as HV'.
  { intros u. rewrite elem_of_active, flag_insert by (rewrite (ci_active c rep Hi); lia). unfold V.
    rewrite elem_of_active. destruct (Nat.eqb_spec u t) as [->|Hne]; naive_solver. }
  set (rep' := λ i, if (rep i =? t)%nat then s else rep i).
  assert (rep s = s ∧ rep t = t) as [Hrs Hrt] by (split; by apply (ci_self c rep Hi)).
  assert (∀ u, u ∈ V → u ≠ t → ∀ i, (i < n)%nat → flag2 gs' u i = (rep' i =? u)%nat) as Hgroups.
  { intros u Hu Hut i Hin. rewrite Hg', !(ci_groups c rep Hi) by done.
    rewrite (proj2 (Nat.ltb_lt i n) Hin). unfold rep'.
    destruct (Nat.eqb_spec (rep i) t) as [->|Hne].
    - destruct (Nat.eqb_spec u s) as [->|Hus]; cbn; [by rewrite Nat.eqb_refl|].
      rewrite (proj2 (Nat.eqb_neq t u)), (proj2 (Nat.eqb_neq s u)) by done. done.
    - by rewrite !andb_false_r. }
  assert (∀ i, (i < n)%nat → flag2 gs' t i = (rep i =? t)%nat) as Hgt.
  { intros i Hin. rewrite Hg', (proj2 (Nat.eqb_neq t s)) by done. cbn. by apply (ci_groups c rep Hi). }
  assert (∀ i, (i < n)%nat → rep' i ∈ V ∧ rep' i ≠ t) as Hrep'.
  { intros i Hin. unfold rep'. destruct (Nat.eqb_spec (rep i) t); [done|]. split; [|done]. by apply (ci_rep c rep Hi). }
  assert (∀ side, proper side →
    cs_best_cut_weight c ≤ cut A N side ∨ cp ≤ cut A N side ∨ ∀ i, (i < n)%nat → side i = side (rep' i)) as Hbest.
  { intros side Hp. destruct (ci_best c rep Hi side Hp) as [Hb|Hconst]; [by left|]. right.
    destruct (decide (side s = side t)) as [Heq|Hne].
    - right. intros i Hin. rewrite (Hconst i Hin). unfold rep'. destruct (Nat.eqb_spec (rep i) t) as [->|]; congruence.
    - left. specialize (Hmin side Hne). unfold V in Hmin. rewrite (contracted_cut c rep side Hi) in Hmin.
      rewrite (cut_ext A N side (λ i, side (rep i))); [done|]. intros i Hin%elem_of_N. by apply Hconst. }
  split.
  - exists rep'. split; cbn [cs_w cs_groups cs_active cs_best_cut_weight cs_best_cut_node].
    + by rewrite length_insert, (ci_active c rep Hi).
    + done.
    + done.
    + intros i Hin. apply HV'. by apply Hrep'.
    + intros u [Hu Hut]%HV'. unfold rep'. rewrite (ci_self c rep Hi u Hu).
      by rewrite (proj2 (Nat.eqb_neq u t) Hut).
    + intros u i [Hu Hut]%HV' Hin. by apply Hgroups.
    + intros u v [Hu Hut]%HV' [Hv Hvt]%HV' Huv.
      assert (∀ x, x ∈ V → x ≠ t → x ≠ s → merged (cs_active c) s t x && (x <? n)%nat = true ∧
        ∀ i, (rep' i =? x)%nat = (rep i =? x)%nat) as Hother.
      { intros x Hx Hxt Hxs. apply elem_of_active in Hx as [Hxn Hxa]. unfold merged, rep'.
        rewrite Hxa, (proj2 (Nat.eqb_neq x s)), (proj2 (Nat.eqb_neq x t)), (proj2 (Nat.ltb_lt x n)) by done.
        split; [done|]. intros i. destruct (Nat.eqb_spec (rep i) t) as [->|]; [|done].
        by rewrite (proj2 (Nat.eqb_neq s x)), (proj2 (Nat.eqb_neq t x)). }
      rewrite Hw'. destruct (Nat.eqb_spec u s) as [->|Hus].
      * destruct (Hother v Hv Hvt (not_eq_sym Huv)) as [Hm Hr]. rewrite <- andb_assoc, Hm. cbn [andb].
        rewrite !(ci_w c rep Hi) by done. unfold add64, sat_add. rewrite Z.add_comm, (between_union rep s t) by done.
        rewrite Z.min_r by (match goal with |- between A N ?P ?Q ≤ _ => pose proof (between_total P Q) end; lia).
        apply between_ext; [done|]. intros j _. by rewrite Hr.
      * cbn [andb]. destruct (Nat.eqb_spec v s) as [->|Hvs].
        -- destruct (Hother u Hu Hut Hus) as [Hm Hr]. rewrite <- andb_assoc, Hm. cbn [andb].
           rewrite !(ci_w c rep Hi) by done.
           rewrite (between_sym A N (λ i, (rep i =? u)%nat) (λ j, (rep j =? t)%nat)) by done.
           rewrite (between_sym A N (λ i, (rep i =? u)%nat) (λ j, (rep j =? s)%nat)) by done.
           unfold add64, sat_add. rewrite Z.add_comm, (between_union rep s t) by done.
           rewrite Z.min_r by (match goal with |- between A N ?P ?Q ≤ _ => pose proof (between_total P Q) end; lia).
           rewrite between_sym by done. apply between_ext; [|done]. intros i _. by rewrite Hr.
        -- cbn [andb]. rewrite (ci_w c rep Hi) by done.
           apply between_ext; intros i _; symmetry; by apply Hother.
    + intros side Hp. destruct (Hbest side Hp) as [Hb|[Hb|Hc]]; [| |by right]; left;
        destruct (cp <? cs_best_cut_weight c) eqn:E; lia.
    + right. destruct (cp <? cs_best_cut_weight c) eqn:E.
      * split_and!.
        -- rewrite Hcp'. apply cut_ext. intros i Hin%elem_of_N. symmetry. by apply Hgt.
        -- exists t, s. rewrite !Hgt, Hrs, Hrt, Nat.eqb_refl by done.
           rewrite (proj2 (Nat.eqb_neq s t)) by done. by split_and!.
        -- intros [_ ?]%HV'. done.
      * destruct (ci_node c rep Hi) as [[Hmax _]|(Hb & Hp & Hn)]; [lia|]. fold V in Hn.
        assert (∀ i, flag2 gs' (cs_best_cut_node c) i = flag2 (cs_groups c) (cs_best_cut_node c) i) as Hsame.
        { intros i. rewrite Hg', (proj2 (Nat.eqb_neq (cs_best_cut_node c) s)); [done|].
          intros Heq. apply Hn. by rewrite Heq. }
        split_and!.
        -- rewrite Hb. apply cut_ext. intros i _. by rewrite Hsame.
        -- destruct Hp as (i & j & ?). exists i, j. by rewrite !Hsame.
        -- intros [? _]%HV'. done.
  - assert (V ≡ₚ t :: active_list (<[t := false]> (cs_active c)) n) as ->; [|done].
    apply NoDup_Permutation; [done|constructor; [by intros [_ ?]%HV'|apply active_NoDup]|].
    intros u. rewrite elem_of_cons, HV'. destruct (decide (u = t)) as [->|]; naive_solver.
Qed.

Lemma contract_loop_S sub k budget c :
  contract_loop sub n (S (S k)) budget c =
  if budget <=? 0
  then Err (build_result sub (cs_groups c) (cs_best_cut_node c) (cs_best_cut_weight c) false)
  else contract_loop sub n (S k) (budget - 1) (contract_step (S (S k)) n c).
Proof. reflexivity. Qed.

(** The loop ends with a minimum cut, or out of budget with a real cut (or none
    found yet). *)
Lemma contract_loop_spec sub k budget c rep :
  contract_inv c rep → length (active_list (cs_active c) n) = k → (1 ≤ k)%nat →
  ∃ c' rep', contract_inv c' rep' ∧
    if decide (Z.of_nat k - 1 ≤ Z.max 0 budget) then
      contract_loop sub n k budget c =
        Ok (build_result sub (cs_groups c') (cs_best_cut_node c') (cs_best_cut_weight c') true) ∧
      length (active_list (cs_active c') n) = 1%nat
    else
      contract_loop sub n k budget c =
        Err (build_result sub (cs_groups c') (cs_best_cut_node c') (cs_best_cut_weight c') false) ∧
      (length (active_list (cs_active c') n) ≤ k)%nat ∧
      (0 < budget → (length (active_list (cs_active c') n) < k)%nat).
Proof.
  revert budget c rep. induction k as [|k IH]; intros budget c rep Hi Hk H1; [lia|].
  destruct k as [|k].
  - exists c, rep. split; [done|]. rewrite decide_True by lia. done.
  - destruct (contract_step_inv c rep Hi) as [[rep' Hi'] Hlen]; [lia|]. rewrite Hk in Hi', Hlen.
    rewrite contract_loop_S. destruct (budget <=? 0) eqn:Eb.
    { exists c, rep. split; [done|]. rewrite decide_False by lia. split_and!; [done|lia|lia]. }
    destruct (IH (budget - 1) _ rep' Hi') as (c' & rep'' & Hi'' & Hres); [lia|lia|].
    exists c', rep''. split; [done|].
    destruct (decide (Z.of_nat (S k) - 1 ≤ Z.max 0 (budget - 1))) as [Hle|Hgt].
    + rewrite decide_True by lia. exact Hres.
    + rewrite decide_False by lia. destruct Hres as (-> & Hle & _). split_and!; [done|lia|lia].
Qed.
End contract.

(* ------------------------------------------------------------------ *)
(** ** The cut of a matrix *)

Lemma local_weight_sym g sub i j : graph_inv g → local_weight g sub i j = local_weight g sub j i.
Proof.
  intros Hg. unfold local_weight. rewrite (Nat.eqb_sym j i). destruct (i =? j)%nat; [done|].
  destruct (sub !! i) as [[ni pi]|], (sub !! j) as [[nj pj]|]; try done.
  destruct (partition_at ni g), (partition_at nj g); try done.
  unfold edge_weight_between. destruct (find_node _ g), (find_node _ g); try done.
  unfold sat_add. by rewrite Z.add_comm.
Qed.

Lemma adj_nonneg g i j : graph_inv g → (i < ADJ_DIM)%nat → (j < ADJ_DIM)%nat → 0 ≤ adj_at (cg_adj_matrix g) i j.
Proof.
  intros Hg Hi Hj. rewrite (co_adj _ _ _ _ (gi_caches g Hg)) by done. apply wsum_bounds, Hg.
Qed.

Lemma edge_weight_between_spec g a b i j :
  graph_inv g → node_view g i = Some a → node_view g j = Some b →
  edge_weight_between a b g = sat_add u64_max (wsum (ends_are i j) (cg_edges g)) (wsum (ends_are j i) (cg_edges g)).
Proof.
  intros Hg Hi Hj. unfold edge_weight_between.
  rewrite (proj2 (find_node_spec g a i Hg) Hi), (proj2 (find_node_spec g b j Hg) Hj).
  by rewrite !(co_adj _ _ _ _ (gi_caches g Hg)) by by eapply node_view_small.
Qed.

Lemma edge_weight_between_pos g a b : graph_inv g → 0 ≤ edge_weight_between a b g.
Proof.
  intros Hg. destruct (find_node a g) as [i|] eqn:Ha, (find_node b g) as [j|] eqn:Hb.
  - apply (find_node_spec _ _ _ Hg) in Ha, Hb. rewrite (edge_weight_between_spec g a b i j Hg Ha Hb).
    pose proof (wsum_bounds (ends_are i j) _ (gi_weights g Hg)).
    pose proof (wsum_bounds (ends_are j i) _ (gi_weights g Hg)). unfold sat_add, u64_max. lia.
  - unfold edge_weight_between. by rewrite Ha, Hb.
  - unfold edge_weight_between. by rewrite Ha.
  - unfold edge_weight_between. by rewrite Ha.
Qed.

Lemma local_weight_pos g sub i j : graph_inv g → 0 ≤ local_weight g sub i j.
Proof.
  intros Hg. unfold local_weight. destruct (i =? j)%nat; [done|].
  destruct (sub !! i) as [[ni pi]|], (sub !! j) as [[nj pj]|]; try done.
  destruct (partition_at ni g), (partition_at nj g); try done. by apply edge_weight_between_pos.
Qed.

Lemma adj_at_local g sub i j :
  (i < MINCUT_MAX_NODES)%nat → (j < MINCUT_MAX_NODES)%nat → adj_at (local_matrix g sub) i j = local_weight g sub i j.
Proof.
  intros Hi Hj. unfold adj_at, local_matrix, cell.
  rewrite (list_lookup_fmap _ (seq 0 MINCUT_MAX_NODES) i), lookup_seq_lt by done. cbn [fmap option_fmap option_map].
  change (default [] (Some ?x)) with x.
  by rewrite (list_lookup_fmap _ (seq 0 MINCUT_MAX_NODES) j), lookup_seq_lt by done.
Qed.

Lemma square_imap {A B} (F : nat → nat → A → B) (x : A) :
  square (imap (λ i row, imap (F i) row) (replicate MINCUT_MAX_NODES (replicate MINCUT_MAX_NODES x))).
Proof.
  split; [by rewrite length_imap, length_replicate|]. intros i row Hrow.
  rewrite list_lookup_imap in Hrow. apply fmap_Some in Hrow as (r & Hr & ->).
  apply lookup_replicate in Hr as [-> _]. by rewrite length_imap, length_replicate.
Qed.

Lemma between_point A n u v :
  (u < n)%nat → (v < n)%nat → between A (seq 0 n) (λ i, (i =? u)%nat) (λ j, (j =? v)%nat) = A u v.
Proof.
  intros Hu Hv. unfold between.
  assert (∀ (f : nat → Z) x, (x < n)%nat → lsum (λ i, if (i =? x)%nat then f i else 0) (seq 0 n) = f x) as Hone.
  { intros f x Hx. rewrite (lsum_ext _ (λ i, if (x =? i)%nat then f i else 0))
      by (intros i _; by rewrite Nat.eqb_sym).
    rewrite lsum_single by apply NoDup_seq. rewrite bool_decide_eq_true_2; [done|]. apply elem_of_seq. lia. }
  rewrite Hone by done. by apply (Hone (λ j, A u j)).
Qed.

Lemma lookup2_imap {A B} (F : nat → nat → A → B) (x : A) (n m u v : nat) :
  (u < n)%nat → (v < m)%nat →
  default [] (imap (λ i row, imap (F i) row) (replicate n (replicate m x)) !! u) !! v = Some (F u v x).
Proof.
  intros Hu Hv. rewrite list_lookup_imap, lookup_replicate_2 by done. simpl.
  by rewrite list_lookup_imap, lookup_replicate_2 by done.
Qed.

Lemma initial_inv g sub :
  (length sub ≤ MINCUT_MAX_NODES)%nat →
  contract_inv (local_weight g sub) (length sub) (initial_state (local_matrix g sub) (length sub)) id.
Proof.
  intros Hn. set (n := length sub) in *.
  assert (active_list (cs_active (initial_state (local_matrix g sub) n)) n = seq 0 n) as HV.
  { unfold active_list, initial_state. cbn [cs_active]. apply filter_all. intros i Hi%elem_of_seq.
    unfold flag. rewrite list_lookup_imap, lookup_replicate_2 by lia. cbn. apply Nat.ltb_lt. lia. }
  assert (∀ i, i ∈ active_list (cs_active (initial_state (local_matrix g sub) n)) n ↔ (i < n)%nat) as HinV
    by (intros i; rewrite HV, elem_of_seq; lia).
  split; rewrite ?HinV.
  - unfold initial_state. cbn [cs_active]. by rewrite length_imap, length_replicate.
  - apply (square_imap (λ i j _, if (i <? n)%nat && (j <? n)%nat then adj_at (local_matrix g sub) i j else 0)).
  - apply (square_imap (λ i j _, (i <? n)%nat && (i =? j)%nat)).
  - intros i Hi. by apply HinV.
  - done.
  - intros u i Hu%HinV Hi. unfold initial_state, flag2, flag. cbn [cs_groups].
    rewrite (lookup2_imap (λ i j _, (i <? n)%nat && (i =? j)%nat)) by lia. cbn [default from_option id].
    rewrite (proj2 (Nat.ltb_lt u n)) by done. apply Nat.eqb_sym.
  - intros u v Hu%HinV Hv%HinV Huv. rewrite between_point by done.
    rewrite <- adj_at_local by lia. unfold initial_state. cbn [cs_w]. unfold adj_at at 1, cell at 1.
    rewrite (lookup2_imap (λ i j _, if (i <? n)%nat && (j <? n)%nat then adj_at (local_matrix g sub) i j else 0))
      by lia. cbn [default from_option id].
    by rewrite (proj2 (Nat.ltb_lt u n)), (proj2 (Nat.ltb_lt v n)) by done.
  - intros side _. by right.
  - left. split; [done|]. rewrite HV. apply length_seq.
Qed.

(* ------------------------------------------------------------------ *)
(** ** The two sides *)

Definition pid_at (sub : list (nat * PartitionId)) (i : nat) : PartitionId := default 0 (snd <$> sub !! i).

(** The partitions of the nodes on one side. *)
Definition side_list (sub : list (nat * PartitionId)) (side : nat → bool) (b : bool) : list PartitionId :=
  pid_at sub <$> filter (λ i, Bool.eqb (side i) b = true) (seq 0 (length sub)).

Lemma side_list_omap sub side b :
  omap (λ '(i, (_, pid)), if Bool.eqb (side i) b then Some pid else None) (imap pair sub) = side_list sub side b.
Proof.
  unfold side_list. induction sub as [|[ni pid] sub IH] using rev_ind; [done|].
  rewrite imap_app, omap_app, IH, length_app, Nat.add_1_r, seq_S, filter_app, fmap_app. cbn [Nat.add imap].
  f_equal.
  - apply list_fmap_ext. intros i x Hx. apply list_elem_of_lookup_2, list_elem_of_filter in Hx as [_ Hx].
    apply elem_of_seq in Hx. unfold pid_at. by rewrite lookup_app_l by lia.
  - rewrite Nat.add_0_r. destruct (Bool.eqb (side (length sub)) b) eqn:E.
    + rewrite filter_cons_True by done. cbn. rewrite E. unfold pid_at.
      by rewrite lookup_app_r, Nat.sub_diag by done.
    + rewrite filter_cons_False by congruence. cbn. by rewrite E.
Qed.

Lemma sides_all sub side : side_list sub side true ++ side_list sub side false ≡ₚ sub.*2.
Proof.
  unfold side_list. rewrite <- fmap_app.
  assert (pid_at sub <$> seq 0 (length sub) = sub.*2) as <-.
  { apply list_eq. intros i. rewrite !list_lookup_fmap. destruct (decide (i < length sub)%nat) as [Hi|Hi].
    - rewrite lookup_seq_lt by done. cbn. unfold pid_at. by destruct (lookup_lt_is_Some_2 sub i Hi) as [x ->].
    - rewrite lookup_seq_ge, (lookup_ge_None_2 sub) by lia. done. }
  apply fmap_Permutation.
  assert (∀ l, filter (λ i, Bool.eqb (side i) true = true) l ++ filter (λ i, Bool.eqb (side i) false = true) l ≡ₚ l)
    as H; [|apply H].
  induction l as [|x l IH]; [done|]. destruct (side x) eqn:E.
  - rewrite filter_cons_True, filter_cons_False by by rewrite E. by constructor.
  - rewrite filter_cons_False, filter_cons_True by by rewrite E. rewrite <- Permutation_middle. by constructor.
Qed.

Fixpoint psum (f : PartitionId → Z) (l : list PartitionId) : Z :=
  match l with [] => 0 | x :: l => f x + psum f l end.

(** The traffic between two lists of partitions, in both directions. *)
Definition crossing (g : CoherenceGraph) (l r : list PartitionId) : Z :=
  psum (λ a, psum (λ b, edge_weight_between a b g) r) l.

Lemma psum_perm f l l' : l ≡ₚ l' → psum f l = psum f l'.
Proof. induction 1 as [|x l l' _ IH|x y l|l1 l2 l3 _ IH1 _ IH2]; cbn; lia. Qed.

Lemma psum_ext f h l : (∀ x, f x = h x) → psum f l = psum h l.
Proof. intros H. induction l as [|x l IH]; cbn; [done|]. by rewrite H, IH. Qed.

Lemma crossing_perm g l l' r r' : l ≡ₚ l' → r ≡ₚ r' → crossing g l r = crossing g l' r'.
Proof.
  intros Hl Hr. unfold crossing. rewrite (psum_perm _ l l' Hl). apply psum_ext. intros x. by apply psum_perm.
Qed.

Lemma psum_fmap f (h : nat → PartitionId) l : psum f (h <$> l) = lsum (λ i, f (h i)) l.
Proof. induction l as [|x l IH]; cbn; [done|]. by rewrite IH. Qed.

(** The nodes collected are nodes of the graph, each once. *)
Record subgraph_ok (g : CoherenceGraph) (sub : list (nat * PartitionId)) : Prop := {
  sg_nodes i p : (i, p) ∈ sub → node_view g i = Some p;
  sg_nodup : NoDup sub.*1;
  sg_len : (length sub ≤ MINCUT_MAX_NODES)%nat;
}.

Lemma pid_at_lookup sub i : (i < length sub)%nat → ∃ ni, sub !! i = Some (ni, pid_at sub i).
Proof.
  intros Hi. destruct (lookup_lt_is_Some_2 sub i Hi) as [[ni p] Hs]. exists ni. unfold pid_at. by rewrite Hs.
Qed.

Lemma partition_at_view g i p : node_view g i = Some p → partition_at i g = Some p.
Proof.
  intros Hv. unfold partition_at. rewrite (proj2 (Nat.ltb_lt i (length (cg_nodes g)))); [done|].
  apply occupied_bound. by eapply mk_is_Some.
Qed.

Lemma local_weight_pid g sub i j :
  subgraph_ok g sub → (i < length sub)%nat → (j < length sub)%nat → i ≠ j →
  local_weight g sub i j = edge_weight_between (pid_at sub i) (pid_at sub j) g.
Proof.
  intros Hok Hi Hj Hij. unfold local_weight. rewrite (proj2 (Nat.eqb_neq i j) Hij).
  destruct (pid_at_lookup sub i Hi) as [ni Hsi]. destruct (pid_at_lookup sub j Hj) as [nj Hsj]. rewrite Hsi, Hsj.
  rewrite (partition_at_view g ni (pid_at sub i)), (partition_at_view g nj (pid_at sub j)); [done| |];
    apply (sg_nodes g sub Hok); by eapply list_elem_of_lookup_2.
Qed.

Lemma cut_crossing g sub side :
  subgraph_ok g sub →
  cut (local_weight g sub) (seq 0 (length sub)) side = crossing g (side_list sub side true) (side_list sub side false).
Proof.
  intros Hok. unfold cut, between, crossing, side_list. rewrite psum_fmap, lsum_filter.
  assert (filter (λ i, Bool.eqb (side i) true = true) (seq 0 (length sub)) =
    filter (λ i, side i = true) (seq 0 (length sub))) as ->.
  { apply list_filter_iff. intros i. by destruct (side i). }
  apply lsum_ext. intros i [Hsi Hi]%list_elem_of_filter. rewrite psum_fmap, lsum_filter.
  assert (filter (λ j, Bool.eqb (side j) false = true) (seq 0 (length sub)) =
    filter (λ j, negb (side j) = true) (seq 0 (length sub))) as ->.
  { apply list_filter_iff. intros j. by destruct (side j). }
  apply lsum_ext. intros j [Hsj Hj]%list_elem_of_filter. apply elem_of_seq in Hi, Hj.
  apply local_weight_pid; [done|lia|lia|]. intros ->. by rewrite Hsi in Hsj.
Qed.

Lemma pids_nodup g sub : graph_inv g → subgraph_ok g sub → NoDup sub.*2.
Proof.
  intros Hg Hok. pose proof (sg_nodup g sub Hok) as Hnd. apply NoDup_alt. intros i j p Hi Hj.
  rewrite list_lookup_fmap in Hi, Hj. apply fmap_Some in Hi as ([ni p1] & Hi & ->), Hj as ([nj p2] & Hj & Hp).
  cbn in Hp. subst p2. rewrite NoDup_alt in Hnd. apply (Hnd i j ni); rewrite list_lookup_fmap, ?Hi, ?Hj; [done|].
  cbn. f_equal. apply (node_view_inj g nj ni p1 Hg); apply (sg_nodes g sub Hok); by eapply list_elem_of_lookup_2.
Qed.

(** Any split of the partitions is a split of the nodes. *)
Lemma side_of_split g sub L R :
  graph_inv g → subgraph_ok g sub → L ++ R ≡ₚ sub.*2 →
  let side i := bool_decide (pid_at sub i ∈ L) in
  side_list sub side true ≡ₚ L ∧ side_list sub side false ≡ₚ R.
Proof.
  intros Hg Hok Hp side. pose proof (pids_nodup g sub Hg Hok) as Hnd.
  pose proof (sides_all sub side) as Hall. pose proof Hnd as HndLR. rewrite <- Hp in HndLR.
  pose proof Hnd as Hnds. rewrite <- Hall in Hnds.
  apply NoDup_app in HndLR as (HL & Hdis & HR). apply NoDup_app in Hnds as (Hst & _ & Hsf).
  assert (∀ b x, x ∈ side_list sub side b → Bool.eqb (bool_decide (x ∈ L)) b = true) as Hside.
  { intros b x (i & -> & [Hi _]%list_elem_of_filter)%list_elem_of_fmap. exact Hi. }
  assert (∀ x, x ∈ L ∨ x ∈ R ↔ x ∈ side_list sub side true ∨ x ∈ side_list sub side false) as Hin.
  { intros x. by rewrite <- !elem_of_app, Hp, <- Hall. }
  split; apply NoDup_Permutation; try done; intros x; split; intros Hx.
  - specialize (Hside true x Hx). by case_bool_decide.
  - destruct (proj1 (Hin x) (or_introl Hx)) as [?|Hf]; [done|]. specialize (Hside false x Hf).
    rewrite bool_decide_eq_true_2 in Hside by done. done.
  - destruct (proj2 (Hin x) (or_intror Hx)) as [HxL|?]; [|done]. specialize (Hside false x Hx).
    rewrite bool_decide_eq_true_2 in Hside by done. done.
  - destruct (proj1 (Hin x) (or_intror Hx)) as [Ht|?]; [|done]. specialize (Hside true x Ht).
    case_bool_decide as HxL; [|done]. by destruct (Hdis x HxL).
Qed.

(** All the weights of the subgraph are weights of the graph, each twice. *)
Lemma subgraph_total g sub :
  graph_inv g → subgraph_ok g sub →
  between (local_weight g sub) (seq 0 (length sub)) (λ _, true) (λ _, true) ≤ 2 * wsum any (cg_edges g).
Proof.
  intros Hg Hok. set (N := seq 0 (length sub)).
  set (idx i := default 0%nat (fst <$> sub !! i)).
  assert (∀ i, (i < length sub)%nat → node_view g (idx i) = Some (pid_at sub i) ∧ sub.*1 !! i = Some (idx i)) as Hidx.
  { intros i Hi. destruct (pid_at_lookup sub i Hi) as [ni Hs]. unfold idx. rewrite list_lookup_fmap, Hs. cbn.
    split; [|done]. apply (sg_nodes g sub Hok). by eapply list_elem_of_lookup_2. }
  set (B i j := wsum (ends_are (idx i) (idx j)) (cg_edges g)).
  assert (∀ es, weights_ok es → lsum (λ i, lsum (λ j, wsum (ends_are (idx i) (idx j)) es) N) N ≤ wsum any es) as Hsum.
  { induction es as [|e es IH]; intros Hw; cbn [wsum].
    { rewrite lsum_zero; [done|]. intros i _. by apply lsum_zero. }
    assert (weights_ok es) as Hw' by (intros i; apply (Hw (S i))).
    assert (0 ≤ ge_weight e) as He by by apply (Hw 0%nat).
    rewrite (lsum_ext _ (λ i, lsum (λ j, weight_if (ends_are (idx i) (idx j)) e) N +
      lsum (λ j, wsum (ends_are (idx i) (idx j)) es) N)) by (intros i _; apply lsum_add).
    rewrite lsum_add. specialize (IH Hw').
    cut (lsum (λ i, lsum (λ j, weight_if (ends_are (idx i) (idx j)) e) N) N ≤ weight_if any e); [lia|].
    unfold weight_if, any. destruct (ge_active e); cbn [andb].
    2: { rewrite lsum_zero; [done|]. intros i _. by apply lsum_zero. }
    assert (∀ x w, 0 ≤ w → 0 ≤ lsum (λ j, if (x =? idx j)%nat then w else 0) N ≤ w) as Hone.
    { intros x w Hw0. split; [apply lsum_nonneg; intros j _; by destruct (x =? idx j)%nat|].
      destruct (decide (Exists (λ j, idx j = x) N)) as [Hex|Hnex].
      - apply Exists_exists in Hex as (k & Hk & <-).
        rewrite (lsum_ext _ (λ j, if (k =? j)%nat then w else 0)).
        + rewrite (lsum_single k (λ _, w)) by apply NoDup_seq. case_bool_decide; lia.
        + intros j Hj. apply elem_of_seq in Hj, Hk. destruct (Nat.eqb_spec k j) as [->|Hkj]; [by rewrite Nat.eqb_refl|].
          destruct (Nat.eqb_spec (idx k) (idx j)) as [Heq|]; [|done]. destruct Hkj.
          destruct (Hidx k ltac:(lia)) as [_ Hk1]. destruct (Hidx j ltac:(lia)) as [_ Hj1]. rewrite Heq in Hk1.
          by eapply NoDup_lookup; [apply Hok| |].
      - rewrite lsum_zero; [done|]. intros j Hj. destruct (Nat.eqb_spec x (idx j)) as [->|]; [|done].
        destruct Hnex. apply Exists_exists. by exists j. }
    rewrite (lsum_ext _ (λ i, if (ge_from e =? idx i)%nat then
      lsum (λ j, if (ge_to e =? idx j)%nat then ge_weight e else 0) N else 0)).
    + pose proof (Hone (ge_to e) (ge_weight e) He) as [H1 H2].
      pose proof (Hone (ge_from e) _ H1) as [_ H3]. lia.
    + intros i _. unfold ends_are. destruct (ge_from e =? idx i)%nat; cbn [andb]; [done|]. by apply lsum_zero. }
  specialize (Hsum (cg_edges g) (gi_weights g Hg)).
  assert (between (local_weight g sub) N (λ _, true) (λ _, true) ≤
    lsum (λ i, lsum (λ j, B i j) N) N + lsum (λ i, lsum (λ j, B j i) N) N) as Hle.
  { rewrite <- lsum_add. apply lsum_le. intros i Hi. rewrite <- lsum_add. apply lsum_le. intros j Hj.
    apply elem_of_seq in Hi, Hj. pose proof (wsum_bounds (ends_are (idx i) (idx j)) _ (gi_weights g Hg)).
    pose proof (wsum_bounds (ends_are (idx j) (idx i)) _ (gi_weights g Hg)). unfold B.
    destruct (decide (i = j)) as [->|Hij]; [unfold local_weight; rewrite Nat.eqb_refl; lia|].
    rewrite local_weight_pid; [|done|lia|lia|done].
    rewrite (edge_weight_between_spec g _ _ (idx i) (idx j) Hg) by (apply Hidx; lia). unfold sat_add. lia. }
  assert (lsum (λ i, lsum (λ j, B j i) N) N = lsum (λ i, lsum (λ j, B i j) N) N) as Hsw
    by exact (lsum_swap (λ i j, B j i) N N).
  assert (lsum (λ i, lsum (λ j, B i j) N) N ≤ wsum any (cg_edges g)) as Hsum' by exact Hsum. lia.
Qed.

(* ------------------------------------------------------------------ *)
(** ** The neighbourhood collected *)

Lemma present_spec idx sub : present idx sub = true ↔ idx ∈ sub.*1.
Proof.
  unfold present. rewrite existsb_exists, list_elem_of_fmap. split.
  - intros ([ni p] & Hin & ->%Nat.eqb_eq). exists (idx, p). split; [done|]. by apply list_elem_of_In.
  - intros ([ni p] & -> & Hin). exists (ni, p). split; [by apply list_elem_of_In|apply Nat.eqb_refl].
Qed.

Lemma add_sub_nodes_spec g l sub :
  graph_inv g → subgraph_ok g sub →
  let sub' := foldl (add_sub_node g) sub l in
  subgraph_ok g sub' ∧ sub `prefix_of` sub' ∧
  (∀ x, x ∈ sub' → x ∈ sub ∨ x.1 ∈ l) ∧
  ((length sub' < MINCUT_MAX_NODES)%nat → ∀ i, i ∈ l → is_Some (node_view g i) → i ∈ sub'.*1).
Proof.
  intros Hg Hok. induction l as [|i l IH] using rev_ind; cbv zeta.
  { split_and!; [done|done|auto|]. intros _ i ?%not_elem_of_nil. done. }
  cbv zeta in IH. rewrite foldl_snoc. set (s := foldl (add_sub_node g) sub l) in *.
  destruct IH as (Hs & Hpre & Hfrom & Hall).
  assert (∀ j, j ∈ l ++ [i] ↔ j ∈ l ∨ j = i) as Hin by (intros j; by rewrite elem_of_app, list_elem_of_singleton).
  assert (((length s < MINCUT_MAX_NODES)%nat → is_Some (node_view g i) → i ∈ s.*1) →
    subgraph_ok g s ∧ sub `prefix_of` s ∧ (∀ x, x ∈ s → x ∈ sub ∨ x.1 ∈ l ++ [i]) ∧
    ((length s < MINCUT_MAX_NODES)%nat → ∀ j, j ∈ l ++ [i] → is_Some (node_view g j) → j ∈ s.*1)) as Hkeep.
  { intros Hi. split_and!; [done|done| |].
    - intros x Hx. rewrite Hin. destruct (Hfrom x Hx); auto.
    - intros Hlt j [Hj| ->]%Hin Hv; auto. }
  unfold add_sub_node. destruct (MINCUT_MAX_NODES <=? length s)%nat eqn:El.
  { apply Hkeep. apply Nat.leb_le in El. lia. }
  apply Nat.leb_gt in El. destruct (partition_at i g) as [p|] eqn:Ep.
  2: { apply Hkeep. intros _ [p Hp]. apply partition_at_view in Hp. congruence. }
  destruct (present i s) eqn:Epr.
  { apply Hkeep. intros _ _. by apply present_spec. }
  assert (i ∉ s.*1) as Hni by (rewrite <- present_spec; by rewrite Epr).
  split_and!.
  - split.
    + intros j q [Hj|Hj%list_elem_of_singleton]%elem_of_app; [by apply (sg_nodes g s Hs)|].
      injection Hj as -> ->. unfold partition_at in Ep. by destruct (i <? length (cg_nodes g))%nat.
    + rewrite fmap_app. apply NoDup_app. split_and!; [apply Hs| |apply NoDup_singleton].
      intros x Hx ->%list_elem_of_singleton. done.
    + rewrite length_app. cbn. lia.
  - by apply prefix_app_r.
  - intros x [Hx|Hx%list_elem_of_singleton]%elem_of_app; rewrite Hin; [destruct (Hfrom x Hx); auto|].
    subst x. auto.
  - rewrite length_app. cbn [length]. intros Hlt j [Hj| ->]%Hin Hv; rewrite fmap_app, elem_of_app; [left|right; by left].
    apply Hall; [lia|done|done].
Qed.

(** An edge, in either direction, between two partitions. *)
Definition talks (g : CoherenceGraph) (p q : PartitionId) : Prop :=
  ∃ k i j w, edge_view g k = Some (i, j, w) ∧
    ((node_view g i = Some p ∧ node_view g j = Some q) ∨ (node_view g i = Some q ∧ node_view g j = Some p)).

Lemma collect_subgraph_spec g p root :
  graph_inv g → find_node p g = Some root →
  ∃ sub, collect_subgraph g p = Some sub ∧ subgraph_ok g sub ∧ p ∈ sub.*2 ∧
    (∀ q, q ∈ sub.*2 → q = p ∨ talks g p q) ∧
    ((length sub < MINCUT_MAX_NODES)%nat → ∀ q, talks g p q → q ∈ sub.*2).
Proof.
  intros Hg Hroot. pose proof (proj1 (find_node_spec g p root Hg) Hroot) as Hv.
  unfold collect_subgraph. rewrite Hroot.
  destruct (neighbors_spec g p root Hg Hroot) as (l & -> & _ & Hl). cbn [default mbind option_bind from_option id].
  set (ns := ((λ k, (ge_to (edge_at g k), ge_weight (edge_at g k))) <$> l).*1).
  set (sources := omap (λ '(_, from, to, _), if (to =? root)%nat then Some from else None) (active_edges g)).
  assert (∀ j, j ∈ ns ↔ ∃ k w, edge_view g k = Some (root, j, w)) as Hns.
  { intros j. unfold ns. rewrite <- list_fmap_compose, list_elem_of_fmap. split.
    - intros (k & -> & (t & w & Hk)%Hl). exists k, w. cbn. rewrite Hk.
      apply edge_view_inv in Hk as (e & He & _ & _ & Hte & _). unfold edge_at. rewrite He. simpl. by rewrite Hte.
    - intros (k & w & Hk). exists k. split; [|apply Hl; by exists j, w].
      apply edge_view_inv in Hk as (e & He & _ & _ & Hte & _). cbn. unfold edge_at. by rewrite He. }
  assert (∀ j, j ∈ sources ↔ ∃ k w, edge_view g k = Some (j, root, w)) as Hsrc.
  { intros j. unfold sources. rewrite list_elem_of_omap. split.
    - intros ([[[k f] t] w] & Hk%elem_of_active_edges & Ht). destruct (Nat.eqb_spec t root) as [->|]; [|done].
      injection Ht as ->. by exists k, w.
    - intros (k & w & Hk). exists (k, j, root, w). split; [by apply elem_of_active_edges|]. by rewrite Nat.eqb_refl. }
  assert (subgraph_ok g [(root, p)]) as Hok0.
  { split; [|apply NoDup_singleton|cbn; unfold MINCUT_MAX_NODES; lia].
    intros i q Hi%list_elem_of_singleton. by injection Hi as -> ->. }
  destruct (add_sub_nodes_spec g ns [(root, p)] Hg Hok0) as (Hok1 & Hpre1 & Hfrom1 & Hall1).
  set (sub1 := foldl (add_sub_node g) [(root, p)] ns) in *.
  destruct (add_sub_nodes_spec g sources sub1 Hg Hok1) as (Hok2 & Hpre2 & Hfrom2 & Hall2).
  set (sub2 := foldl (add_sub_node g) sub1 sources) in *.
  assert (∀ j q, j ∈ sub2.*1 → node_view g j = Some q → q ∈ sub2.*2) as Hpid.
  { intros j q ([j' q'] & -> & Hin)%list_elem_of_fmap Hq. apply list_elem_of_fmap. exists (j', q').
    cbn in Hq. rewrite (sg_nodes g sub2 Hok2 j' q' Hin) in Hq. injection Hq as ->. done. }
  assert ((root, p) ∈ sub2) as Hp2.
  { destruct Hpre1 as [x1 Hx1], Hpre2 as [x2 Hx2]. rewrite Hx2, Hx1. rewrite !elem_of_app. left. left. by left. }
  exists sub2. split_and!; [done|done| | |].
  - apply list_elem_of_fmap. by exists (root, p).
  - intros q ([j q'] & -> & Hin)%list_elem_of_fmap. cbn.
    pose proof (sg_nodes g sub2 Hok2 j q' Hin) as Hj.
    destruct (Hfrom2 _ Hin) as [Hin1|(k & w & Hk)%Hsrc].
    + destruct (Hfrom1 _ Hin1) as [Hin0|(k & w & Hk)%Hns].
      * left. apply list_elem_of_singleton in Hin0. by injection Hin0 as _ ->.
      * right. exists k, root, j, w. split; [done|]. by left.
    + right. exists k, j, root, w. split; [done|]. by right.
  - intros Hlt q (k & i & j & w & Hk & [[Hi Hj]|[Hi Hj]]).
    + apply (Hpid j); [|done]. rewrite (node_view_inj g i root p Hg Hi Hv) in Hk.
      destruct Hpre2 as [x Hx]. assert (j ∈ sub1.*1) as Hj1.
      { apply Hall1; [rewrite Hx, length_app in Hlt; lia|apply Hns; by exists k, w|by eexists]. }
      rewrite Hx, fmap_app, elem_of_app. by left.
    + apply (Hpid i); [|done]. rewrite (node_view_inj g j root p Hg Hj Hv) in Hk.
      apply Hall2; [done|apply Hsrc; by exists k, w|by eexists].
Qed.

(* ------------------------------------------------------------------ *)
(** ** The minimum cut *)

Lemma side_list_ne sub side b i :
  (i < length sub)%nat → side i = b → side_list sub side b ≠ [].
Proof.
  intros Hi Hs. unfold side_list. intros He%fmap_nil_inv.
  apply (not_elem_of_nil i). rewrite <- He. apply list_elem_of_filter. rewrite elem_of_seq.
  split; [by destruct (side i), b|lia].
Qed.

Lemma build_result_eq sub groups node weight b :
  build_result sub groups node weight b =
  mkMinCutResult (side_list sub (flag2 groups node) true) (side_list sub (flag2 groups node) false) weight b.
Proof. unfold build_result. by rewrite !side_list_omap. Qed.

(** The run of the algorithm on a subgraph: a minimum cut within the budget,
    some cut (or none yet) without. *)
Lemma stoer_wagner_spec g sub max :
  graph_inv g → subgraph_ok g sub → (2 ≤ length sub)%nat → 2 * wsum any (cg_edges g) < u64_max →
  ∃ side weight,
    let cut b := mkMinCutResult (side_list sub side true) (side_list sub side false) weight b in
    let real := side_list sub side true ≠ [] ∧ side_list sub side false ≠ [] ∧
                weight = crossing g (side_list sub side true) (side_list sub side false) in
    if decide (Z.of_nat (length sub) - 1 ≤ Z.max 0 max) then
      stoer_wagner_mincut (local_matrix g sub) sub max = Ok (cut true) ∧ real ∧
      ∀ L R, L ≠ [] → R ≠ [] → L ++ R ≡ₚ sub.*2 → weight ≤ crossing g L R
    else
      stoer_wagner_mincut (local_matrix g sub) sub max = Err (cut false) ∧
      (0 < max → real).
Proof.
  intros Hg Hok H2 Hmax. set (n := length sub) in *.
  pose proof (sg_len g sub Hok) as Hn.
  pose proof (subgraph_total g sub Hg Hok) as Htot. fold n in Htot.
  pose proof (initial_inv g sub Hn) as Hinit. fold n in Hinit.
  assert (length (active_list (cs_active (initial_state (local_matrix g sub) n)) n) = n) as Hlen.
  { destruct (ci_node _ n _ _ Hinit) as [[_ Hl]|(_ & _ & Hl)]; [done|]. destruct Hl.
    apply elem_of_active. unfold initial_state. cbn [cs_active cs_best_cut_node]. split; [lia|].
    unfold flag. rewrite list_lookup_imap, lookup_replicate_2 by lia.
    change ((0 <? n)%nat = true). apply Nat.ltb_lt. lia. }
  destruct (contract_loop_spec (local_weight g sub) n Hn (λ i j, local_weight_pos g sub i j Hg)
    (λ i j, local_weight_sym g sub i j Hg) ltac:(lia) sub n max _ id Hinit Hlen ltac:(lia))
    as (c & rep & Hi & Hres).
  exists (flag2 (cs_groups c) (cs_best_cut_node c)), (cs_best_cut_weight c). cbv zeta.
  rewrite !build_result_eq in Hres.
  assert (stoer_wagner_mincut (local_matrix g sub) sub max =
    contract_loop sub n n max (initial_state (local_matrix g sub) n)) as ->.
  { unfold stoer_wagner_mincut. fold n. destruct (n <? 2)%nat eqn:E; [apply Nat.ltb_lt in E; lia|done]. }
  assert (length (active_list (cs_active c) n) ≠ n →
    side_list sub (flag2 (cs_groups c) (cs_best_cut_node c)) true ≠ [] ∧
    side_list sub (flag2 (cs_groups c) (cs_best_cut_node c)) false ≠ [] ∧
    cs_best_cut_weight c = crossing g (side_list sub (flag2 (cs_groups c) (cs_best_cut_node c)) true)
      (side_list sub (flag2 (cs_groups c) (cs_best_cut_node c)) false)) as Hreal.
  { intros Hne. destruct (ci_node _ n _ _ Hi) as [[_ Hl]|(Hw & (i & j & Hin & Hjn & Hsi & Hsj) & _)]; [done|].
    split_and!; [by apply (side_list_ne _ _ _ i)|by apply (side_list_ne _ _ _ j)|].
    rewrite <- cut_crossing by done. exact Hw. }
  destruct (decide (Z.of_nat n - 1 ≤ Z.max 0 max)) as [Hb|Hb].
  - destruct Hres as [-> Hone]. split; [done|]. split; [apply Hreal; lia|].
    intros L R HL HR Hp. destruct (side_of_split g sub L R Hg Hok Hp) as [HsL HsR].
    set (side := λ i, bool_decide (pid_at sub i ∈ L)) in *.
    assert (∀ b l, side_list sub side b ≡ₚ l → l ≠ [] → ∃ i, (i < n)%nat ∧ side i = b) as Hex.
    { intros b [|x l] Hl Hne; [done|]. assert (x ∈ side_list sub side b) as Hx by (rewrite Hl; by left).
      apply list_elem_of_fmap in Hx as (i & _ & [Hs Hi']%list_elem_of_filter). apply elem_of_seq in Hi'.
      exists i. split; [lia|]. by destruct (side i), b. }
    destruct (Hex true L HsL HL) as (i & Hin & Hsi). destruct (Hex false R HsR HR) as (j & Hjn & Hsj).
    assert (proper n side) as Hprop by by exists i, j.
    destruct (ci_best _ n _ _ Hi side Hprop) as [Hle|Hconst].
    + rewrite <- (crossing_perm g _ L _ R HsL HsR), <- cut_crossing by done. exact Hle.
    + exfalso. destruct (active_list (cs_active c) n) as [|x [|y l]] eqn:El; try done.
      pose proof (ci_rep _ n _ _ Hi i Hin) as Hri. pose proof (ci_rep _ n _ _ Hi j Hjn) as Hrj.
      rewrite El in Hri, Hrj. apply list_elem_of_singleton in Hri, Hrj.
      pose proof (Hconst i Hin) as Hci. pose proof (Hconst j Hjn) as Hcj. rewrite Hri in Hci. rewrite Hrj in Hcj. congruence.
  - destruct Hres as (-> & _ & Hlt). split; [done|]. intros Hpos. apply Hreal. specialize (Hlt Hpos). lia.
Qed.

(** C17: Within its budget the bridge returns a minimum cut.  On a well-formed
    graph whose weights, counted twice, fit 64 bits, and with a budget of at least
    31 merges, the neighbourhood collected is the partition itself and, while
    there is room for it, exactly the partitions it exchanges edges with, each
    once.  The two sides of the result are a split of that neighbourhood; when it
    has two members or more, both sides are inhabited, the reported weight is the
    traffic between them, and no other split has less. *)
Theorem find_min_cut_minimal g p root b :
  graph_inv g → find_node p g = Some root → 2 * wsum any (cg_edges g) < u64_max →
  31 ≤ mb_max_iterations b →
  ∃ sub b', (sub' ← collect_subgraph g p; Some sub'.*2) = Some sub ∧ find_min_cut g p b = Some b' ∧
    (NoDup sub ∧ p ∈ sub ∧ (∀ q, q ∈ sub → q = p ∨ talks g p q) ∧
     ((length sub < 32)%nat → ∀ q, talks g p q → q ∈ sub)) ∧
    let r := mb_last_known_cut b' in
    mc_within_budget r = true ∧ mc_left r ++ mc_right r ≡ₚ sub ∧
    mb_budget_exceeded_count b' = mb_budget_exceeded_count b ∧
    ((2 ≤ length sub)%nat →
       mc_left r ≠ [] ∧ mc_right r ≠ [] ∧ mc_cut_weight r = crossing g (mc_left r) (mc_right r) ∧
       ∀ L R, L ≠ [] → R ≠ [] → L ++ R ≡ₚ sub → mc_cut_weight r ≤ crossing g L R).
Proof.
  intros Hg Hroot Hmax Hbudget.
  destruct (collect_subgraph_spec g p root Hg Hroot) as (sub & Hsub & Hok & Hp & Hin & Hall).
  pose proof (sg_len g sub Hok) as Hlen. unfold MINCUT_MAX_NODES in *.
  exists sub.*2. unfold find_min_cut. rewrite Hsub. cbn [mbind option_bind mb_max_iterations advance_mincut_epoch].
  rewrite length_fmap. destruct (length sub <? 2)%nat eqn:E.
  - apply Nat.ltb_lt in E. eexists. split; [done|]. split; [done|].
    split; [split_and!; [by apply (pids_nodup g)|done|done|done]|]. cbn.
    split_and!; [done|by rewrite app_nil_r|done|lia].
  - apply Nat.ltb_ge in E.
    destruct (stoer_wagner_spec g sub (mb_max_iterations b) Hg Hok E Hmax) as (side & weight & Hsw).
    cbv zeta in Hsw. rewrite decide_True in Hsw by lia. destruct Hsw as (-> & (HL & HR & Hw) & Hmin).
    eexists. split; [done|]. split; [done|].
    split; [split_and!; [by apply (pids_nodup g)|done|done|done]|]. cbn [mb_last_known_cut mc_within_budget mc_left mc_right mc_cut_weight].
    split_and!; [done|apply sides_all|done|]. intros _. by split_and!.
Qed.

(** *** Runs *)

(** A triangle with a pendant: the cheapest split isolates partition 4. *)
Definition sample_cut_ops : list GraphOp :=
  [GAddNode 1; GAddNode 2; GAddNode 3; GAddNode 4; GAddEdge 1 2 100; GAddEdge 2 3 70; GAddEdge 3 1 80; GAddEdge 4 1 60].

Lemma find_min_cut_minimal_witness :
  ∃ g, graph_run sample_cut_ops (graph_new 8 16) = Some g ∧
    (∃ b', find_min_cut g 1 (bridge_new 31) = Some b' ∧
      mb_last_known_cut b' = mkMinCutResult [4] [1; 2; 3] 60 true) ∧
    60 ≤ crossing g [1; 2] [3; 4].
Proof.
  destruct (graph_new_inv 8 16) as [Hg0 H0]; [unfold ADJ_DIM; lia|unfold INVALID; lia|].
  destruct (graph_run_inv sample_cut_ops (graph_new 8 16) Hg0) as (g & Hr & Hg & _);
    [repeat constructor; done|by vm_compute|].
  assert (option_map (λ g, (find_node 1 g, wsum any (cg_edges g),
      (sub ← collect_subgraph g 1; Some sub.*2),
      mb_last_known_cut <$> find_min_cut g 1 (bridge_new 31))) (graph_run sample_cut_ops (graph_new 8 16)) =
    Some (Some 0%nat, 310, Some [1; 2; 3; 4], Some (mkMinCutResult [4] [1; 2; 3] 60 true)))
    as Hc by (vm_compute; reflexivity).
  rewrite Hr in Hc. cbn [option_map] in Hc.
  apply (inj Some), pair_eq in Hc as [Hc Hcut]. apply pair_eq in Hc as [Hc Hsub].
  apply pair_eq in Hc as [Hfind Hsum].
  destruct (find_min_cut_minimal g 1 0%nat (bridge_new 31) Hg Hfind) as (sub & b' & Hs & Hb & _ & Hres);
    [rewrite Hsum; reflexivity|cbn; lia|].
  rewrite Hs in Hsub. apply (inj Some) in Hsub. subst sub.
  rewrite Hb in Hcut. cbn [fmap option_fmap option_map] in Hcut. apply (inj Some) in Hcut.
  cbv zeta in Hres. rewrite Hcut in Hres. destruct Hres as (_ & _ & _ & Hmin).
  destruct Hmin as (_ & _ & _ & Hmin); [cbn; lia|]. exists g. split; [exact Hr|]. split.
  - exists b'. exact (conj Hb Hcut).
  - apply (Hmin [1; 2] [3; 4]); [discriminate|discriminate|reflexivity].
Defined.

(** Out of budget, the bridge does not keep its last known cut: it replaces it by
    the best cut of the phases it had time for, or (with no time at all) by one
    whose weight is [u64::MAX]. *)
Example over_budget_replaces_last_cut :
  (λ '(c, c0), (mc_within_budget c, mc_cut_weight c, mc_within_budget c0, mc_cut_weight c0)) <$>
    (g ← graph_run sample_cut_ops (graph_new 8 16);
     let known := mkMinCutBridge (mkMinCutResult [9] [1] 7 true) 1 0 1 1 in
     let broke := mkMinCutBridge (mkMinCutResult [9] [1] 7 true) 1 0 1 0 in
     b ← find_min_cut g 1 known; b0 ← find_min_cut g 1 broke;
     Some (mb_last_known_cut b, mb_last_known_cut b0)) =
  Some (false, 60, false, u64_max).
Proof. vm_compute. reflexivity. Qed.
