(* ===== verification/Boot.v ===== *)
(** Booting: [crates/rvm-boot/src/] [lib.rs] (the phase tracker), [sequence.rs],
    [measured.rs], [hal_init.rs] and [entry.rs].

    Seven stages run strictly in order; each extends a hash chain.  The hardware
    is the interface [HalInit], the clock a function. *)

From stdpp Require Import base numbers list option.
From Stdlib Require Import ZArith Lia.
From S2P Require Import Prelude.
From S2P Require Import Types.
From S2P Require Import WitnessLog.

Local Open Scope Z_scope.
Local Open Scope rvm_scope.

(* ------------------------------------------------------------------ *)
(** ** The phase tracker ([lib.rs]) *)

Inductive BootPhase : Set :=
| HalInitPhase | MemoryInit | CapabilityInit | WitnessInit | SchedulerInit | RootPartition | Handoff.
#[export] Instance BootPhase_eq_dec : EqDecision BootPhase.
Proof. solve_decision. Defined.

(** [phase as u8]. *)
Definition phase_index (p : BootPhase) : nat :=
  match p with
  | HalInitPhase => 0 | MemoryInit => 1 | CapabilityInit => 2 | WitnessInit => 3
  | SchedulerInit => 4 | RootPartition => 5 | Handoff => 6
  end.

Definition phase_next (p : BootPhase) : option BootPhase :=
  match p with
  | HalInitPhase => Some MemoryInit
  | MemoryInit => Some CapabilityInit
  | CapabilityInit => Some WitnessInit
  | WitnessInit => Some SchedulerInit
  | SchedulerInit => Some RootPartition
  | RootPartition => Some Handoff
  | Handoff => None
  end.

Record BootTracker : Set := mkBootTracker { bt_current : option BootPhase; bt_completed : list bool }.
Definition boot_tracker_new : BootTracker := mkBootTracker (Some HalInitPhase) (replicate 7 false).

Definition complete_phase (phase : BootPhase) : prog BootTracker RvmError BootPhase := λ t,
  match bt_current t with
  | Some current =>
      if (phase_index current =? phase_index phase)%nat
      then (Ok phase, mkBootTracker (phase_next phase) (<[phase_index phase := true]> (bt_completed t)))
      else (Err InternalError, t)
  | None => (Err Unsupported, t)
  end.

Definition tracker_complete (t : BootTracker) : bool :=
  is_none (bt_current t) && forallb id (bt_completed t).
Definition phase_completed (phase : BootPhase) (t : BootTracker) : bool :=
  default false (bt_completed t !! phase_index phase).

(* ------------------------------------------------------------------ *)
(** ** The boot sequence ([sequence.rs]) *)

Inductive BootStage : Set :=
| ResetVector | HardwareDetect | MmuSetup | HypervisorMode | KernelObjectInit | FirstWitness | SchedulerEntry.
#[export] Instance BootStage_eq_dec : EqDecision BootStage.
Proof. solve_decision. Defined.

Definition BOOT_STAGE_COUNT : nat := 7.

Definition stage_index (s : BootStage) : nat :=
  match s with
  | ResetVector => 0 | HardwareDetect => 1 | MmuSetup => 2 | HypervisorMode => 3
  | KernelObjectInit => 4 | FirstWitness => 5 | SchedulerEntry => 6
  end.

Definition stage_next (s : BootStage) : option BootStage :=
  match s with
  | ResetVector => Some HardwareDetect
  | HardwareDetect => Some MmuSetup
  | MmuSetup => Some HypervisorMode
  | HypervisorMode => Some KernelObjectInit
  | KernelObjectInit => Some FirstWitness
  | FirstWitness => Some SchedulerEntry
  | SchedulerEntry => None
  end.

Definition all_stages : list BootStage :=
  [ResetVector; HardwareDetect; MmuSetup; HypervisorMode; KernelObjectInit; FirstWitness; SchedulerEntry].

Record PhaseTiming : Set := mkPhaseTiming { start_tick : Z; end_tick : Z }.
Definition timing_zeroed : PhaseTiming := mkPhaseTiming 0 0.
Definition duration_ticks (t : PhaseTiming) : Z := sat_sub (end_tick t) (start_tick t).

Record BootSequence : Set := mkBootSequence {
  bs_current : option BootStage;
  bs_completed : list bool;
  bs_timings : list PhaseTiming;
  bs_witness_digests : list (list Z);
}.
Definition boot_sequence_new : BootSequence :=
  mkBootSequence (Some ResetVector) (replicate BOOT_STAGE_COUNT false)
    (replicate BOOT_STAGE_COUNT timing_zeroed) (replicate BOOT_STAGE_COUNT (replicate 32 0)).

Definition begin_stage (stage : BootStage) (tick : Z) : prog BootSequence RvmError unit := λ b,
  match bs_current b with
  | Some expected =>
      if (stage_index expected =? stage_index stage)%nat
      then (Ok tt, mkBootSequence (bs_current b) (bs_completed b)
                     (alter (λ t, mkPhaseTiming tick (end_tick t)) (stage_index stage) (bs_timings b))
                     (bs_witness_digests b))
      else (Err InternalError, b)
  | None => (Err Unsupported, b)
  end.

Definition complete_stage (stage : BootStage) (tick : Z) (digest : list Z)
    : prog BootSequence RvmError BootStage := λ b,
  match bs_current b with
  | Some expected =>
      if (stage_index expected =? stage_index stage)%nat
      then (Ok stage, mkBootSequence (stage_next stage) (<[stage_index stage := true]> (bs_completed b))
                        (alter (λ t, mkPhaseTiming (start_tick t) tick) (stage_index stage) (bs_timings b))
                        (<[stage_index stage := digest]> (bs_witness_digests b)))
      else (Err InternalError, b)
  | None => (Err Unsupported, b)
  end.

Definition sequence_complete (b : BootSequence) : bool :=
  is_none (bs_current b) && forallb id (bs_completed b).
Definition stage_completed (stage : BootStage) (b : BootSequence) : bool :=
  default false (bs_completed b !! stage_index stage).
Definition total_ticks (b : BootSequence) : Z :=
  sat_sub (end_tick (default timing_zeroed (bs_timings b !! (BOOT_STAGE_COUNT - 1)%nat)))
    (start_tick (default timing_zeroed (bs_timings b !! 0%nat))).

(* ------------------------------------------------------------------ *)
(** ** Measured boot ([measured.rs]) *)

Record MeasuredBootState : Set := mkMeasured {
  me_accumulator : list Z;
  me_count : Z;
  me_phase_hashes : list (list Z);
}.
Definition measured_new : MeasuredBootState := mkMeasured (replicate 32 0) 0 (replicate 7 (replicate 32 0)).

(** Four passes over overlapping windows fill 32 bytes. *)
Definition fnv_windows (input : list Z) : list Z :=
  le_bytes 8 (fnv1a_64 input) ++ le_bytes 8 (fnv1a_64 (drop 8 input)) ++
  le_bytes 8 (fnv1a_64 (drop 16 input)) ++ le_bytes 8 (fnv1a_64 (drop 24 input)).

(** The hash of a chain link; feature [crypto-sha256] on, off. *)
Class MeasureHash : Type := measure_hash : list Z → list Z.
Definition measure_sha256 `{!Sha256} : MeasureHash := λ input, sha256 input.
Definition measure_fnv : MeasureHash := fnv_windows.

Definition extend_measurement `{!MeasureHash} (stage : BootStage) (hash : list Z) (s : MeasuredBootState)
    : MeasuredBootState :=
  let idx := stage_index stage in
  mkMeasured (measure_hash (me_accumulator s ++ [Z.of_nat idx] ++ hash)) (wrap32 (me_count s + 1))
    (<[idx := hash]> (me_phase_hashes s)).

Definition is_virgin (s : MeasuredBootState) : bool := bool_decide (me_accumulator s = replicate 32 0).

(** [phase_digest] of [entry.rs]: one byte of stage, up to 63 of data. *)
Definition phase_digest (stage : BootStage) (data : list Z) : list Z :=
  let copied := take 63 data in
  fnv_windows ([Z.of_nat (stage_index stage)] ++ copied ++ replicate (63 - length copied) 0).

(* ------------------------------------------------------------------ *)
(** ** The entry point ([hal_init.rs], [entry.rs]) *)

Record UartConfig : Set := mkUartConfig { ua_base_addr : Z; ua_baud_rate : Z }.
Definition uart_default_qemu : UartConfig := mkUartConfig 0x09000000 115200.
Record MmuConfig : Set := mkMmuConfig { mmu_page_table_base : Z; mmu_levels : Z; mmu_page_size : Z }.
Record InterruptConfig : Set := mkInterruptConfig { int_irq_count : Z }.

Class HalInit (H : Type) := {
  init_uart : UartConfig → prog H RvmError unit;
  init_mmu : MmuConfig → prog H RvmError unit;
  init_interrupts : InterruptConfig → prog H RvmError unit;
}.

(** The no-op implementation. *)
Record StubHal : Set := mkStubHal { uart_initialized : bool; mmu_initialized : bool; interrupts_initialized : bool }.
#[export] Instance stub_hal_init : HalInit StubHal := {
  init_uart _ := λ h, (Ok tt, mkStubHal true (mmu_initialized h) (interrupts_initialized h));
  init_mmu _ := λ h, (Ok tt, mkStubHal (uart_initialized h) true (interrupts_initialized h));
  init_interrupts _ := λ h, (Ok tt, mkStubHal (uart_initialized h) (mmu_initialized h) true);
}.

Record BootContext : Set := mkBootContext {
  bc_sequence : BootSequence;
  bc_measured : MeasuredBootState;
  bc_dtb_ptr : Z;
  bc_ram_size : Z;
  bc_uart_ready : bool;
}.
Definition boot_context_new (dtb_ptr : Z) : BootContext :=
  mkBootContext boot_sequence_new measured_new dtb_ptr 0 false.

Definition set_sequence (b : BootSequence) (c : BootContext) : BootContext :=
  mkBootContext b (bc_measured c) (bc_dtb_ptr c) (bc_ram_size c) (bc_uart_ready c).
Definition set_measured (s : MeasuredBootState) (c : BootContext) : BootContext :=
  mkBootContext (bc_sequence c) s (bc_dtb_ptr c) (bc_ram_size c) (bc_uart_ready c).
Definition set_ram_size (n : Z) (c : BootContext) : BootContext :=
  mkBootContext (bc_sequence c) (bc_measured c) (bc_dtb_ptr c) n (bc_uart_ready c).
Definition set_uart_ready (r : bool) (c : BootContext) : BootContext :=
  mkBootContext (bc_sequence c) (bc_measured c) (bc_dtb_ptr c) (bc_ram_size c) r.

Section run.
Context {H T : Type} `{!HalInit H} `{!MeasureHash}.
Variable tick_fn : T → Z * T.

(** The context, the hardware and the clock. *)
Record World : Type := mkWorld { wo_ctx : BootContext; wo_hal : H; wo_clock : T }.

Definition on_sequence {A} : prog BootSequence RvmError A → prog World RvmError A :=
  pzoom (λ s, bc_sequence (wo_ctx s)) (λ b s, mkWorld (set_sequence b (wo_ctx s)) (wo_hal s) (wo_clock s)).
Definition on_hal {A} : prog H RvmError A → prog World RvmError A :=
  pzoom wo_hal (λ h s, mkWorld (wo_ctx s) h (wo_clock s)).
Definition on_ctx (f : BootContext → BootContext) : prog World RvmError unit :=
  pmodify (λ s, mkWorld (f (wo_ctx s)) (wo_hal s) (wo_clock s)).
Definition read_tick : prog World RvmError Z := λ s,
  let '(t, c) := tick_fn (wo_clock s) in (Ok t, mkWorld (wo_ctx s) (wo_hal s) c).

(** The end of a block of [run_boot_sequence]: the chain is extended with the
    digest of the data, and the stage completed. *)
Definition finish_stage (stage : BootStage) (data : list Z) : prog World RvmError unit :=
  let digest := phase_digest stage data in
  on_ctx (λ c, set_measured (extend_measurement stage digest (bc_measured c)) c) ;;;
  let? tick := read_tick in
  on_sequence (complete_stage stage tick digest) ;;;
  pret tt.

(** One block: [work] does the stage's own part and gives the data it measures. *)
Definition boot_stage (stage : BootStage) (work : prog World RvmError (list Z)) : prog World RvmError unit :=
  let? tick := read_tick in
  on_sequence (begin_stage stage tick) ;;;
  let? data := work in finish_stage stage data.

Definition RAM_SIZE : Z := 128 * 1024 * 1024.
Definition mmu_config : MmuConfig := mkMmuConfig 0 2 4096.
Definition int_config : InterruptConfig := mkInterruptConfig 256.

(** The work of stages 1 to 3. *)
Definition detect_hardware : prog World RvmError (list Z) :=
  on_ctx (set_ram_size RAM_SIZE) ;;;
  on_hal (init_uart uart_default_qemu) ;;;
  on_ctx (set_uart_ready true) ;;;
  pret (le_bytes 8 RAM_SIZE).
Definition setup_mmu : prog World RvmError (list Z) :=
  on_hal (init_mmu mmu_config) ;;; pret (le_bytes 4 (mmu_page_size mmu_config)).
Definition setup_interrupts : prog World RvmError (list Z) :=
  on_hal (init_interrupts int_config) ;;; pret (le_bytes 4 (int_irq_count int_config)).

Definition run_boot_sequence : prog World RvmError unit :=
  boot_stage ResetVector (pret []) ;;;
  boot_stage HardwareDetect detect_hardware ;;;
  boot_stage MmuSetup setup_mmu ;;;
  boot_stage HypervisorMode setup_interrupts ;;;
  boot_stage KernelObjectInit (pret [0xCA; 0xFE]) ;;;
  boot_stage FirstWitness (pgets (λ s, me_accumulator (bc_measured (wo_ctx s)))) ;;;
  boot_stage SchedulerEntry (pret []).

End run.
Arguments World : clear implicits.

(* ------------------------------------------------------------------ *)
(** ** Strictly forward *)

Lemma stage_index_lookup s : all_stages !! stage_index s = Some s.
Proof. by destruct s. Qed.

Lemma stage_lookup_index i s : all_stages !! i = Some s → i = stage_index s.
Proof. do 7 (destruct i as [|i]; [by intros [= <-]|]). done. Qed.

Lemma stage_next_lookup s : stage_next s = all_stages !! S (stage_index s).
Proof. by destruct s. Qed.

Lemma flags_step (k n : nat) : (k < n)%nat →
  <[k := true]> (replicate k true ++ replicate (n - k) false) = replicate (S k) true ++ replicate (n - S k) false.
Proof.
  intros Hk. replace (n - k)%nat with (S (n - S k)) by lia.
  rewrite <- (Nat.add_0_r k) at 1. rewrite <- (length_replicate k true) at 1.
  rewrite insert_app_r. change (replicate (S k) true) with (true :: replicate k true).
  by rewrite replicate_cons_app, <- app_assoc.
Qed.

(** [k] stages are complete, the next one is due. *)
Definition sequence_at (k : nat) (b : BootSequence) : Prop :=
  (k ≤ 7)%nat ∧ bs_current b = all_stages !! k ∧
  bs_completed b = replicate k true ++ replicate (7 - k) false.

Lemma begin_stage_spec k b s tick :
  sequence_at k b →
  let '(r, b') := begin_stage s tick b in
  sequence_at k b' ∧
  r = (if decide (k = 7)%nat then Err Unsupported
       else if decide (k = stage_index s) then Ok tt else Err InternalError).
Proof.
  intros (Hk & Hc & Hd). unfold begin_stage. destruct (bs_current b) as [x|] eqn:E; symmetry in Hc.
  - pose proof (lookup_lt_Some _ _ _ Hc) as Hlt. cbn in Hlt. rewrite (decide_False (P := (k = 7)%nat)) by lia.
    apply stage_lookup_index in Hc as Hx. subst k. destruct (Nat.eqb_spec (stage_index x) (stage_index s)).
    + rewrite decide_True by done. split; [|done]. split_and!; [done|cbn; by rewrite Hc|done].
    + rewrite decide_False by done. split; [|done]. split_and!; [done|by rewrite E, Hc|done].
  - apply lookup_ge_None_1 in Hc as Hge. cbn in Hge. assert (k = 7)%nat as -> by lia.
    split; [|done]. split_and!; [done|by rewrite E|done].
Qed.

Lemma complete_stage_spec k b s tick digest :
  sequence_at k b →
  let '(r, b') := complete_stage s tick digest b in
  if decide (k = 7)%nat then r = Err Unsupported ∧ b' = b
  else if decide (k = stage_index s) then r = Ok s ∧ sequence_at (S k) b'
  else r = Err InternalError ∧ b' = b.
Proof.
  intros (Hk & Hc & Hd). unfold complete_stage. destruct (bs_current b) as [x|] eqn:E; symmetry in Hc.
  - pose proof (lookup_lt_Some _ _ _ Hc) as Hlt. cbn in Hlt. apply stage_lookup_index in Hc as Hx. subst k.
    destruct (Nat.eqb_spec (stage_index x) (stage_index s)) as [He|]; rewrite decide_False by lia.
    + rewrite decide_True by done. split; [done|]. split_and!; [lia| |].
      * cbn [bs_current]. rewrite He. apply stage_next_lookup.
      * cbn [bs_completed]. rewrite Hd, <- He. by apply flags_step.
    + by rewrite decide_False by done.
  - apply lookup_ge_None_1 in Hc as Hge. cbn in Hge. assert (k = 7)%nat as -> by lia. done.
Qed.

Inductive SequenceOp : Set := Begin (s : BootStage) (tick : Z) | Complete (s : BootStage) (tick : Z) (digest : list Z).

(** The stage an operation completes, if it does. *)
Definition sequence_exec (op : SequenceOp) (b : BootSequence) : option BootStage * BootSequence :=
  match op with
  | Begin s tick => (None, (begin_stage s tick b).2)
  | Complete s tick d =>
      match complete_stage s tick d b with (Ok s, b) => (Some s, b) | (Err _, b) => (None, b) end
  end.

Fixpoint sequence_run (ops : list SequenceOp) (b : BootSequence) : list BootStage * BootSequence :=
  match ops with
  | [] => ([], b)
  | op :: ops =>
      let '(o, b) := sequence_exec op b in
      let '(l, b) := sequence_run ops b in (option_list o ++ l, b)
  end.

Lemma sequence_run_at ops k b :
  sequence_at k b →
  let '(l, b') := sequence_run ops b in
  sequence_at (k + length l) b' ∧ l = take (length l) (drop k all_stages).
Proof.
  revert k b. induction ops as [|op ops IH]; intros k b Hb; cbn [sequence_run].
  { cbn. rewrite Nat.add_0_r. by split. }
  destruct op as [s tick|s tick d]; cbn [sequence_exec].
  - pose proof (begin_stage_spec k b s tick Hb) as H. destruct (begin_stage s tick b) as [r b1]. cbn [snd].
    specialize (IH k b1 (proj1 H)). destruct (sequence_run ops b1) as [l b2]. exact IH.
  - pose proof (complete_stage_spec k b s tick d Hb) as H.
    destruct (complete_stage s tick d b) as [r b1].
    destruct (decide (k = 7)%nat); [|destruct (decide (k = stage_index s)) as [->|]].
    + destruct H as [-> ->]. specialize (IH k b Hb). destruct (sequence_run ops b) as [l b2]. exact IH.
    + destruct H as [-> Hb1]. specialize (IH _ b1 Hb1). destruct (sequence_run ops b1) as [l b2].
      destruct IH as [Hat Hl]. cbn [option_list app length]. split.
      * match goal with |- sequence_at ?n _ => replace n with (S (stage_index s) + length l)%nat by (cbn; lia) end.
        exact Hat.
      * rewrite (drop_S _ _ _ (stage_index_lookup s)). cbn. by f_equal.
    + destruct H as [-> ->]. specialize (IH k b Hb). destruct (sequence_run ops b) as [l b2]. exact IH.
Qed.

(** Boot stages only move forward.  Whatever is begun and completed, in
    whatever order, the stages that were completed are an initial part of the
    seven, in their order and each once; the completion flags say exactly which;
    the next stage is due; and the sequence is complete only when all seven were. *)
Theorem boot_sequence_forward ops :
  let '(done, b) := sequence_run ops boot_sequence_new in
  done `prefix_of` all_stages ∧
  bs_current b = all_stages !! length done ∧
  (∀ s, stage_completed s b = true ↔ s ∈ done) ∧
  (sequence_complete b = true ↔ done = all_stages).
Proof.
  pose proof (sequence_run_at ops 0 boot_sequence_new) as H. destruct (sequence_run ops boot_sequence_new) as [l b].
  destruct H as [(Hk & Hc & Hd) Hl]; [split_and!; [lia|done|done]|].
  cbn [Nat.add] in *. rewrite drop_0 in Hl.
  assert (∀ s, stage_completed s b = true ↔ s ∈ l) as Hflag.
  { intros s. unfold stage_completed. rewrite Hd.
    assert (∀ k, (k ≤ 7)%nat → default false ((replicate k true ++ replicate (7 - k) false) !! stage_index s) = true ↔
      s ∈ take k all_stages) as Hk7; [|rewrite Hk7 by done; by rewrite <- Hl].
    intros k Hk7. do 8 (destruct k as [|k]; [destruct s; cbn; rewrite ?elem_of_cons, ?elem_of_nil; naive_solver|]). lia. }
  split_and!; [|done|done|].
  - rewrite Hl at 1. exists (drop (length l) all_stages). by rewrite take_drop.
  - unfold sequence_complete. rewrite Hd, Hc. split.
    + intros [Hn _]%andb_prop. destruct (all_stages !! length l) eqn:E; [done|].
      apply lookup_ge_None_1 in E. cbn in E. rewrite Hl. by replace (length l) with 7%nat by lia.
    + intros ->. done.
Qed.

(** The tracker of the kernel's own boot. *)
Definition all_phases : list BootPhase :=
  [HalInitPhase; MemoryInit; CapabilityInit; WitnessInit; SchedulerInit; RootPartition; Handoff].

Definition tracker_at (k : nat) (t : BootTracker) : Prop :=
  (k ≤ 7)%nat ∧ bt_current t = all_phases !! k ∧
  bt_completed t = replicate k true ++ replicate (7 - k) false.

Lemma phase_lookup_index i p : all_phases !! i = Some p → i = phase_index p.
Proof. do 7 (destruct i as [|i]; [by intros [= <-]|]). done. Qed.

Lemma complete_phase_spec k t p :
  tracker_at k t →
  let '(r, t') := complete_phase p t in
  if decide (k = 7)%nat then r = Err Unsupported ∧ t' = t
  else if decide (k = phase_index p) then r = Ok p ∧ tracker_at (S k) t'
  else r = Err InternalError ∧ t' = t.
Proof.
  intros (Hk & Hc & Hd). unfold complete_phase. destruct (bt_current t) as [x|] eqn:E; symmetry in Hc.
  - pose proof (lookup_lt_Some _ _ _ Hc) as Hlt. cbn in Hlt. apply phase_lookup_index in Hc as Hx. subst k.
    destruct (Nat.eqb_spec (phase_index x) (phase_index p)) as [He|]; rewrite decide_False by lia.
    + rewrite decide_True by done. split; [done|]. split_and!; [lia| |].
      * cbn [bt_current]. rewrite He. by destruct p.
      * cbn [bt_completed]. rewrite Hd, <- He. by apply flags_step.
    + by rewrite decide_False by done.
  - apply lookup_ge_None_1 in Hc as Hge. cbn in Hge. assert (k = 7)%nat as -> by lia. done.
Qed.

Lemma tracker_new_at : tracker_at 0 boot_tracker_new.
Proof. split_and!; [lia|done|done]. Qed.

(* ------------------------------------------------------------------ *)
(** ** The whole boot *)

Section run_spec.
Context {H T : Type} `{!HalInit H} `{!MeasureHash}.
Variable tick_fn : T → Z * T.
Notation BootWorld := (World H T).

(** [k] stages have run, the chain is [ms], and the hardware is [h]. *)
Definition world_at (k : nat) (ms : MeasuredBootState) (ram : Z) (uart : bool) (dtb : Z) (h : H) (s : BootWorld) : Prop :=
  sequence_at k (bc_sequence (wo_ctx s)) ∧ bc_measured (wo_ctx s) = ms ∧ bc_ram_size (wo_ctx s) = ram ∧
  bc_uart_ready (wo_ctx s) = uart ∧ bc_dtb_ptr (wo_ctx s) = dtb ∧ wo_hal s = h.

(** A stage around its work: the work runs with the hardware as it was; if it
    fails, so does the boot, with the stage not completed. *)
Lemma boot_stage_spec k stage work ms ram uart dtb h s :
  world_at k ms ram uart dtb h s → k = stage_index stage →
  ∃ s1, world_at k ms ram uart dtb h s1 ∧
    match work s1 with
    | (Err e, s2) => boot_stage tick_fn stage work s = (Err e, s2)
    | (Ok data, s2) => ∀ ram' uart' h', world_at k ms ram' uart' dtb h' s2 →
        ∃ s3, boot_stage tick_fn stage work s = (Ok tt, s3) ∧
          world_at (S k) (extend_measurement stage (phase_digest stage data) ms) ram' uart' dtb h' s3
    end.
Proof.
  intros (Hseq & Hms & Hram & Hu & Hdtb & Hh) ->.
  destruct (tick_fn (wo_clock s)) as [t1 c1] eqn:Et1.
  pose proof (begin_stage_spec _ _ stage t1 Hseq) as Hb.
  pose proof (lookup_lt_Some _ _ _ (stage_index_lookup stage)) as Hlt. cbn [length all_stages] in Hlt.
  rewrite decide_False, decide_True in Hb by lia.
  destruct (begin_stage stage t1 (bc_sequence (wo_ctx s))) as [r b1] eqn:Eb. destruct Hb as [Hb1 ->].
  set (s1 := mkWorld (set_sequence b1 (wo_ctx s)) (wo_hal s) c1).
  assert (boot_stage tick_fn stage work s = pbind work (finish_stage tick_fn stage) s1) as ->.
  { unfold boot_stage. unfold pbind at 1, read_tick at 1. rewrite Et1.
    unfold pbind at 1, on_sequence at 1, pzoom at 1. cbn [wo_ctx wo_hal wo_clock]. rewrite Eb. reflexivity. }
  exists s1. split; [by split_and!|]. unfold pbind at 1 2. destruct (work s1) as [[data|e] s2]; [|done].
  intros ram' uart' h' (Hseq2 & Hms2 & Hram2 & Hu2 & Hdtb2 & Hh2). unfold finish_stage.
  destruct (tick_fn (wo_clock s2)) as [t2 c2] eqn:Et2.
  pose proof (complete_stage_spec _ _ stage t2 (phase_digest stage data) Hseq2) as Hc.
  destruct (complete_stage stage t2 (phase_digest stage data) (bc_sequence (wo_ctx s2))) as [r b2] eqn:Ec.
  rewrite decide_False, decide_True in Hc by lia. destruct Hc as [-> Hb2].
  eexists. split.
  - unfold pbind at 1, on_ctx, pmodify. unfold pbind at 1, read_tick. cbn [wo_ctx wo_hal wo_clock]. rewrite Et2.
    unfold pbind at 1, on_sequence, pzoom. cbn [wo_ctx wo_hal wo_clock set_measured bc_sequence]. rewrite Ec. reflexivity.
  - split_and!; try done. cbn. by rewrite Hms2.
Qed.

(** The data each stage measures; the sixth measures the chain so far. *)
Definition measured_boot : MeasuredBootState :=
  let extend stage data s := extend_measurement stage (phase_digest stage data) s in
  let s := extend ResetVector [] measured_new in
  let s := extend HardwareDetect (le_bytes 8 RAM_SIZE) s in
  let s := extend MmuSetup (le_bytes 4 4096) s in
  let s := extend HypervisorMode (le_bytes 4 256) s in
  let s := extend KernelObjectInit [0xCA; 0xFE] s in
  let s := extend FirstWitness (me_accumulator s) s in
  extend SchedulerEntry [] s.

(** How far a boot got, and what it left. *)
Definition booted_to (k : nat) (h : H) (r : result RvmError unit) (out : result RvmError unit * BootWorld) : Prop :=
  out.1 = r ∧ wo_hal out.2 = h ∧ sequence_at k (bc_sequence (wo_ctx out.2)).

Lemma pbind_eq_ok {S E A B} (m : prog S E A) (f : A → prog S E B) s a s' :
  m s = (Ok a, s') → pbind m f s = f a s'.
Proof. intros Hm. unfold pbind. by rewrite Hm. Qed.
Lemma pbind_eq_err {S E A B} (m : prog S E A) (f : A → prog S E B) s e s' :
  m s = (Err e, s') → pbind m f s = (Err e, s').
Proof. intros Hm. unfold pbind. by rewrite Hm. Qed.

Lemma detect_hardware_eq (s : BootWorld) :
  detect_hardware s =
  match init_uart uart_default_qemu (wo_hal s) with
  | (Ok _, h) => (Ok (le_bytes 8 RAM_SIZE), mkWorld (set_uart_ready true (set_ram_size RAM_SIZE (wo_ctx s))) h (wo_clock s))
  | (Err e, h) => (Err e, mkWorld (set_ram_size RAM_SIZE (wo_ctx s)) h (wo_clock s))
  end.
Proof.
  unfold detect_hardware, pbind, on_ctx, on_hal, pzoom, pmodify, pret. cbn [wo_ctx wo_hal wo_clock].
  by destruct (init_uart uart_default_qemu (wo_hal s)) as [[u|e] h].
Qed.

Lemma setup_mmu_eq (s : BootWorld) :
  setup_mmu s =
  match init_mmu mmu_config (wo_hal s) with
  | (Ok _, h) => (Ok (le_bytes 4 4096), mkWorld (wo_ctx s) h (wo_clock s))
  | (Err e, h) => (Err e, mkWorld (wo_ctx s) h (wo_clock s))
  end.
Proof.
  unfold setup_mmu, pbind, on_hal, pzoom, pret. by destruct (init_mmu mmu_config (wo_hal s)) as [[u|e] h].
Qed.

Lemma setup_interrupts_eq (s : BootWorld) :
  setup_interrupts s =
  match init_interrupts int_config (wo_hal s) with
  | (Ok _, h) => (Ok (le_bytes 4 256), mkWorld (wo_ctx s) h (wo_clock s))
  | (Err e, h) => (Err e, mkWorld (wo_ctx s) h (wo_clock s))
  end.
Proof.
  unfold setup_interrupts, pbind, on_hal, pzoom, pret.
  by destruct (init_interrupts int_config (wo_hal s)) as [[u|e] h].
Qed.

Lemma run_boot_spec dtb (h : H) (c : T) :
  let out := run_boot_sequence tick_fn (mkWorld (boot_context_new dtb) h c) in
  match init_uart uart_default_qemu h with
  | (Err e, h1) => booted_to 1 h1 (Err e) out
  | (Ok _, h1) =>
      match init_mmu mmu_config h1 with
      | (Err e, h2) => booted_to 2 h2 (Err e) out
      | (Ok _, h2) =>
          match init_interrupts int_config h2 with
          | (Err e, h3) => booted_to 3 h3 (Err e) out
          | (Ok _, h3) => booted_to 7 h3 (Ok tt) out ∧ world_at 7 measured_boot RAM_SIZE true dtb h3 out.2
          end
      end
  end.
Proof.
  cbv zeta. set (s0 := mkWorld (boot_context_new dtb) h c).
  assert (world_at 0 measured_new 0 false dtb h s0) as Hat0 by (unfold world_at, sequence_at; split_and!; (lia || reflexivity)).
  remember (run_boot_sequence tick_fn s0) as out eqn:Hout. unfold run_boot_sequence in Hout.
  (* reset vector *)
  destruct (boot_stage_spec 0 ResetVector (pret []) _ _ _ _ _ s0 Hat0 eq_refl) as (sa & Ha & Hr).
  cbn [pret] in Hr. destruct (Hr _ _ _ Ha) as (s1 & Hs1 & H1). rewrite (pbind_eq_ok _ _ _ _ _ Hs1) in Hout. clear Hr Ha sa Hs1.
  (* hardware *)
  destruct (boot_stage_spec 1 HardwareDetect detect_hardware _ _ _ _ _ s1 H1 eq_refl) as (sa & Ha & Hr).
  destruct Ha as (Ha1 & Ha2 & Ha3 & Ha4 & Ha5 & Ha6).
  rewrite detect_hardware_eq, Ha6 in Hr.
  destruct (init_uart uart_default_qemu h) as [[u|e] h1].
  2: { rewrite (pbind_eq_err _ _ _ _ _ Hr) in Hout. rewrite Hout. by split_and!. }
  destruct (Hr RAM_SIZE true h1) as (s2 & Hs2 & H2); [by split_and!|]. rewrite (pbind_eq_ok _ _ _ _ _ Hs2) in Hout.
  clear Hr Ha1 Ha2 Ha3 Ha4 Ha5 Ha6 sa Hs2 H1 s1.
  (* mmu *)
  destruct (boot_stage_spec 2 MmuSetup setup_mmu _ _ _ _ _ s2 H2 eq_refl) as (sa & Ha & Hr).
  destruct Ha as (Ha1 & Ha2 & Ha3 & Ha4 & Ha5 & Ha6).
  rewrite setup_mmu_eq, Ha6 in Hr.
  destruct (init_mmu mmu_config h1) as [[u2|e] h2].
  2: { rewrite (pbind_eq_err _ _ _ _ _ Hr) in Hout. rewrite Hout. by split_and!. }
  destruct (Hr RAM_SIZE true h2) as (s3 & Hs3 & H3); [by split_and!|]. rewrite (pbind_eq_ok _ _ _ _ _ Hs3) in Hout.
  clear Hr Ha1 Ha2 Ha3 Ha4 Ha5 Ha6 sa Hs3 H2 s2.
  (* interrupts *)
  destruct (boot_stage_spec 3 HypervisorMode setup_interrupts _ _ _ _ _ s3 H3 eq_refl) as (sa & Ha & Hr).
  destruct Ha as (Ha1 & Ha2 & Ha3 & Ha4 & Ha5 & Ha6).
  rewrite setup_interrupts_eq, Ha6 in Hr.
  destruct (init_interrupts int_config h2) as [[u3|e] h3].
  2: { rewrite (pbind_eq_err _ _ _ _ _ Hr) in Hout. rewrite Hout. by split_and!. }
  destruct (Hr RAM_SIZE true h3) as (s4 & Hs4 & H4); [by split_and!|]. rewrite (pbind_eq_ok _ _ _ _ _ Hs4) in Hout.
  clear Hr Ha1 Ha2 Ha3 Ha4 Ha5 Ha6 sa Hs4 H3 s3.
  (* kernel objects, first witness, scheduler *)
  destruct (boot_stage_spec 4 KernelObjectInit (pret [0xCA; 0xFE]) _ _ _ _ _ s4 H4 eq_refl) as (sa & Ha & Hr).
  cbn [pret] in Hr. destruct (Hr _ _ _ Ha) as (s5 & Hs5 & H5). rewrite (pbind_eq_ok _ _ _ _ _ Hs5) in Hout. clear Hr Ha sa Hs5.
  destruct (boot_stage_spec 5 FirstWitness (pgets (λ s, me_accumulator (bc_measured (wo_ctx s)))) _ _ _ _ _
    s5 H5 eq_refl) as (sa & Ha & Hr).
  unfold pgets in Hr. destruct (Hr _ _ _ Ha) as (s6 & Hs6 & H6). rewrite (pbind_eq_ok _ _ _ _ _ Hs6) in Hout.
  rewrite (proj1 (proj2 Ha)) in H6. clear Hr Ha sa Hs6.
  destruct (boot_stage_spec 6 SchedulerEntry (pret []) _ _ _ _ _ s6 H6 eq_refl) as (sa & Ha & Hr).
  cbn [pret] in Hr. destruct (Hr _ _ _ Ha) as (s7 & Hs7 & H7). rewrite Hs7 in Hout.
  rewrite Hout. split; [|exact H7]. split_and!; [done|apply H7|apply H7].
Qed.

(** What booting does, on any hardware and clock.  The hardware is set up in
    the order serial port, memory management, interrupts; the first that fails
    ends the boot with its error, with exactly the stages before it completed and
    no later hardware call made.  Otherwise all seven stages complete, the
    context is ready, and the attestation is one fixed value: neither the device
    tree, nor the hardware, nor the clock enters it. *)
Theorem run_boot_exact dtb (h : H) (c : T) :
  let '(r, s) := run_boot_sequence tick_fn (mkWorld (boot_context_new dtb) h c) in
  let done := bs_completed (bc_sequence (wo_ctx s)) in
  let upto k := replicate k true ++ replicate (7 - k) false in
  match init_uart uart_default_qemu h with
  | (Err e, h1) => r = Err e ∧ wo_hal s = h1 ∧ done = upto 1%nat
  | (Ok _, h1) =>
      match init_mmu mmu_config h1 with
      | (Err e, h2) => r = Err e ∧ wo_hal s = h2 ∧ done = upto 2%nat
      | (Ok _, h2) =>
          match init_interrupts int_config h2 with
          | (Err e, h3) => r = Err e ∧ wo_hal s = h3 ∧ done = upto 3%nat
          | (Ok _, h3) =>
              r = Ok tt ∧ wo_hal s = h3 ∧ sequence_complete (bc_sequence (wo_ctx s)) = true ∧
              bc_measured (wo_ctx s) = measured_boot ∧ bc_ram_size (wo_ctx s) = RAM_SIZE ∧
              bc_uart_ready (wo_ctx s) = true ∧ bc_dtb_ptr (wo_ctx s) = dtb
          end
      end
  end.
Proof.
  pose proof (run_boot_spec dtb h c) as Hrun. cbv zeta in Hrun. cbv zeta.
  destruct (run_boot_sequence tick_fn (mkWorld (boot_context_new dtb) h c)) as [r s].
  unfold booted_to in Hrun. cbn [fst snd] in Hrun.
  destruct (init_uart uart_default_qemu h) as [[u|e] h1]; [|by destruct Hrun as (? & ? & _ & _ & ?)].
  destruct (init_mmu mmu_config h1) as [[u2|e] h2]; [|by destruct Hrun as (? & ? & _ & _ & ?)].
  destruct (init_interrupts int_config h2) as [[u3|e] h3]; [|by destruct Hrun as (? & ? & _ & _ & ?)].
  destruct Hrun as [(Hr & Hh & _ & Hc & Hd) (_ & Hm & Hram & Hu & Hdtb & _)].
  split_and!; try done. unfold sequence_complete. by rewrite Hc, Hd.
Qed.
End run_spec.

(** The stub hardware boots. *)
Example stub_boots :
  let EM : MeasureHash := measure_fnv in
  let '(r, s) := run_boot_sequence (λ t : Z, (t, t + 5)) (mkWorld (boot_context_new 64) (mkStubHal false false false) 100) in
  r = Ok tt ∧ wo_hal s = mkStubHal true true true ∧ total_ticks (bc_sequence (wo_ctx s)) = 65 ∧
  me_count (bc_measured (wo_ctx s)) = 7.
Proof. vm_compute. split_and!; reflexivity. Qed.
