(* ===== verification/Kernel.v ===== *)
(** The kernel: [crates/rvm-kernel/src/lib.rs].

    One record holds every subsystem; each operation calls them in the code's
    order and appends its witness record.  The abstract kernel is the product of
    the subsystems' specifications and of the whole history of records. *)

From stdpp Require Import base numbers list option gmap.
From Stdlib Require Import ZArith Lia.
From S2P Require Import Prelude.
From S2P Require Import SlotMap.
From S2P Require Import Types.
From S2P Require Import CapManager.
From S2P Require Import WitnessLog.
From S2P Require Import Ipc.
From S2P Require Import Device.
From S2P Require Import Partition.
From S2P Require Import Sched.
From S2P Require Import Region.
From S2P Require Import TierManager.
From S2P Require Import Security.
From S2P Require Import CoherenceGraph.
From S2P Require Import Coherence.
From S2P Require Import MinCut.
From S2P Require Import Boot.

Local Open Scope Z_scope.

#[local] Existing Instance BuiltinCoherence.

(* ------------------------------------------------------------------ *)
(** ** Configuration and state *)

Definition DEFAULT_MAX_CPUS : nat := 8.
Definition DEFAULT_WITNESS_CAPACITY : nat := 256.
Definition DEFAULT_CAP_CAPACITY : nat := 256.
Definition DEFAULT_MAX_PARTITIONS : nat := 256.
Definition DEFAULT_MAX_IPC_CHANNELS : nat := 128.
Definition DEFAULT_IPC_QUEUE_SIZE : nat := 2 ^ 4.
Definition DEFAULT_MAX_TIER_REGIONS : nat := 256.
Definition RECENCY_DECAY_PER_EPOCH : Z := 200.
Definition DEFAULT_MAX_DEVICES : nat := 32.
Definition DEFAULT_MAX_LEASES : nat := 64.
Definition DEFAULT_MINCUT_BUDGET : Z := 100.

Record RvmConfig : Set := mkRvmConfig {
  max_partitions : Z;
  coherence_threshold : CoherenceScore;
  witness_ring_capacity : Z;
  epoch_interval_ns : Z;
}.
Definition rvm_config_default : RvmConfig :=
  mkRvmConfig 256 DEFAULT_THRESHOLD 262144 10000000.

Record KernelConfig : Set := mkKernelConfig { kc_rvm : RvmConfig; kc_cap : CapManagerConfig }.
Definition kernel_config_default : KernelConfig := mkKernelConfig rvm_config_default cap_config_new.

(** [rvm_types::PartitionConfig]. *)
Record PartitionConfig : Set := mkPartitionConfig {
  vcpu_count : Z;
  initial_coherence : CoherenceScore;
  cpu_affinity : Z;
  config_type : PartitionType;
}.
Definition partition_config_default : PartitionConfig := mkPartitionConfig 1 5000 u64_max Agent.

Notation DefaultCoherenceEngine := (CoherenceEngine MinCutBridge).

Record Kernel : Type := mkKernel {
  kn_partitions : PartitionManager;
  kn_scheduler : Scheduler;
  kn_witness_log : WitnessLog;
  kn_cap_manager : CapabilityManager;
  kn_coherence : DefaultCoherenceEngine;
  kn_ipc : IpcManager;
  kn_tier_manager : TierManager;
  kn_devices : DeviceLeaseManager;
  kn_boot : BootTracker;
  kn_config : RvmConfig;
  kn_booted : bool;
}.

Record EpochResult : Set := mkEpochResult { er_summary : EpochSummary; er_decision : CoherenceDecision }.

Inductive ApplyResult : Set :=
| ArNoAction
| ArSplit (source child : PartitionId)
| ArMerged (survivor absorbed : PartitionId).

Definition kernel_new (config : KernelConfig) : Kernel :=
  mkKernel partition_manager_new (scheduler_new DEFAULT_MAX_CPUS) (log_new DEFAULT_WITNESS_CAPACITY)
    (manager_new DEFAULT_CAP_CAPACITY (kc_cap config)) (engine_new (bridge_new DEFAULT_MINCUT_BUDGET))
    (ipc_new DEFAULT_MAX_IPC_CHANNELS) (tier_new DEFAULT_MAX_TIER_REGIONS)
    (device_manager_new DEFAULT_MAX_DEVICES DEFAULT_MAX_LEASES) boot_tracker_new (kc_rvm config) false.

(** One setter per field. *)
Definition set_partitions (x : PartitionManager) (k : Kernel) : Kernel :=
  mkKernel x (kn_scheduler k) (kn_witness_log k) (kn_cap_manager k) (kn_coherence k) (kn_ipc k)
    (kn_tier_manager k) (kn_devices k) (kn_boot k) (kn_config k) (kn_booted k).
Definition set_scheduler (x : Scheduler) (k : Kernel) : Kernel :=
  mkKernel (kn_partitions k) x (kn_witness_log k) (kn_cap_manager k) (kn_coherence k) (kn_ipc k)
    (kn_tier_manager k) (kn_devices k) (kn_boot k) (kn_config k) (kn_booted k).
Definition set_witness_log (x : WitnessLog) (k : Kernel) : Kernel :=
  mkKernel (kn_partitions k) (kn_scheduler k) x (kn_cap_manager k) (kn_coherence k) (kn_ipc k)
    (kn_tier_manager k) (kn_devices k) (kn_boot k) (kn_config k) (kn_booted k).
Definition set_cap_manager (x : CapabilityManager) (k : Kernel) : Kernel :=
  mkKernel (kn_partitions k) (kn_scheduler k) (kn_witness_log k) x (kn_coherence k) (kn_ipc k)
    (kn_tier_manager k) (kn_devices k) (kn_boot k) (kn_config k) (kn_booted k).
Definition set_coherence (x : DefaultCoherenceEngine) (k : Kernel) : Kernel :=
  mkKernel (kn_partitions k) (kn_scheduler k) (kn_witness_log k) (kn_cap_manager k) x (kn_ipc k)
    (kn_tier_manager k) (kn_devices k) (kn_boot k) (kn_config k) (kn_booted k).
Definition set_ipc (x : IpcManager) (k : Kernel) : Kernel :=
  mkKernel (kn_partitions k) (kn_scheduler k) (kn_witness_log k) (kn_cap_manager k) (kn_coherence k) x
    (kn_tier_manager k) (kn_devices k) (kn_boot k) (kn_config k) (kn_booted k).
Definition set_tier_manager (x : TierManager) (k : Kernel) : Kernel :=
  mkKernel (kn_partitions k) (kn_scheduler k) (kn_witness_log k) (kn_cap_manager k) (kn_coherence k) (kn_ipc k)
    x (kn_devices k) (kn_boot k) (kn_config k) (kn_booted k).
Definition set_devices (x : DeviceLeaseManager) (k : Kernel) : Kernel :=
  mkKernel (kn_partitions k) (kn_scheduler k) (kn_witness_log k) (kn_cap_manager k) (kn_coherence k) (kn_ipc k)
    (kn_tier_manager k) x (kn_boot k) (kn_config k) (kn_booted k).
Definition set_boot (x : BootTracker) (k : Kernel) : Kernel :=
  mkKernel (kn_partitions k) (kn_scheduler k) (kn_witness_log k) (kn_cap_manager k) (kn_coherence k) (kn_ipc k)
    (kn_tier_manager k) (kn_devices k) x (kn_config k) (kn_booted k).
Definition set_booted (x : bool) (k : Kernel) : Kernel :=
  mkKernel (kn_partitions k) (kn_scheduler k) (kn_witness_log k) (kn_cap_manager k) (kn_coherence k) (kn_ipc k)
    (kn_tier_manager k) (kn_devices k) (kn_boot k) (kn_config k) x.

(* ------------------------------------------------------------------ *)
(** ** Kernel programs *)

(** [None]: a loop of a subsystem's model ran out of fuel (never: see below). *)
Definition kprog (A : Type) : Type := Kernel → option (result RvmError A * Kernel).

Declare Scope kernel_scope.
Local Open Scope kernel_scope.

Definition kret {A} (a : A) : kprog A := λ k, Some (Ok a, k).
Definition kfail {A} (e : RvmError) : kprog A := λ k, Some (Err e, k).
Definition kbind {A B} (m : kprog A) (f : A → kprog B) : kprog B := λ k,
  match m k with
  | Some (Ok a, k) => f a k
  | Some (Err e, k) => Some (Err e, k)
  | None => None
  end.
Notation "'let*' x := m 'in' k" := (kbind m (λ x, k))
  (at level 200, x binder, m at level 100, k at level 200) : kernel_scope.
Notation "m ;* k" := (kbind m (λ _, k)) (at level 100, right associativity) : kernel_scope.

Definition kget {A} (f : Kernel → A) : kprog A := λ k, Some (Ok (f k), k).
(** [Option::ok_or(e)?]. *)
Definition kexpect {A} (o : option A) (e : RvmError) : kprog A :=
  match o with Some a => kret a | None => kfail e end.
Definition krequire (b : bool) (e : RvmError) : kprog unit := if b then kret tt else kfail e.

(** [let _ = ..]: the result is dropped, the effect stays. *)
Definition kignore {A} (m : kprog A) : kprog unit := λ k,
  match m k with Some (_, k) => Some (Ok tt, k) | None => None end.

(** A call of one subsystem. *)
Definition kcall {S A} (get : Kernel → S) (set : S → Kernel → Kernel) (m : prog S RvmError A) : kprog A :=
  λ k, let '(r, s) := m (get k) in Some (r, set s k).
Definition kcall_fuel {S A} (get : Kernel → S) (set : S → Kernel → Kernel)
    (m : S → option (result RvmError A * S)) : kprog A :=
  λ k, '(r, s) ← m (get k); Some (r, set s k).
Definition kmodify {S} (get : Kernel → S) (set : S → Kernel → Kernel) (f : S → S) : kprog unit :=
  λ k, Some (Ok tt, set (f (get k)) k).

Definition on_partitions {A} : prog PartitionManager RvmError A → kprog A := kcall kn_partitions set_partitions.
Definition on_ipc {A} : prog IpcManager RvmError A → kprog A := kcall kn_ipc set_ipc.
Definition on_tiers {A} : prog TierManager RvmError A → kprog A := kcall kn_tier_manager set_tier_manager.
Definition on_devices {A} : prog DeviceLeaseManager RvmError A → kprog A := kcall kn_devices set_devices.
Definition on_boot {A} : prog BootTracker RvmError A → kprog A := kcall kn_boot set_boot.
Definition on_coherence {A} : (DefaultCoherenceEngine → option (result RvmError A * DefaultCoherenceEngine)) → kprog A :=
  kcall_fuel kn_coherence set_coherence.
Definition on_scheduler {A} (m : Scheduler → option (A * Scheduler)) : kprog A :=
  kcall_fuel kn_scheduler set_scheduler (λ s, '(a, s) ← m s; Some (Ok a, s)).

Definition require_booted : kprog unit := λ k,
  if negb (kn_booted k) then Some (Err InvalidPartitionState, k) else Some (Ok tt, k).

(** [self.partitions.get(id).ok_or(PartitionNotFound)?]. *)
Definition get_partition (id : PartitionId) : kprog Partition := λ k,
  kexpect (pm_get id (kn_partitions k)) PartitionNotFound k.

(** The record the operations build by hand. *)
Definition kernel_record (action : ActionKind) (actor target : Z) (payload : list Z) : WitnessRecord :=
  emitted action 1 actor target 0 0 (payload ++ replicate (8 - length payload) 0).

(* ------------------------------------------------------------------ *)
(** ** Operations *)

Section operations.
Context `{!Bitflags, !ChainHasher}.

Definition append_witness (r : WitnessRecord) : kprog unit :=
  kmodify kn_witness_log set_witness_log (λ l, (log_append r l).2).

Definition emit_boot_witness (phase : BootPhase) : kprog unit :=
  let action := match phase with Handoff => AkBootComplete | _ => AkBootAttestation end in
  append_witness (kernel_record action HYPERVISOR 0 [Z.of_nat (phase_index phase)]).

Definition boot_phases : list BootPhase :=
  [HalInitPhase; MemoryInit; CapabilityInit; WitnessInit; SchedulerInit; RootPartition; Handoff].

Fixpoint boot_loop (phases : list BootPhase) : kprog unit :=
  match phases with
  | [] => kret tt
  | phase :: phases =>
      on_boot (complete_phase phase) ;*
      emit_boot_witness phase ;*
      boot_loop phases
  end.

Definition kernel_boot : kprog unit :=
  boot_loop boot_phases ;* (λ k, Some (Ok tt, set_booted true k)).

(** The loop body of [sync_partition_scores]. *)
Definition set_scores (score : CoherenceScore) (pressure : CutPressure) (p : Partition) : Partition :=
  mkPartition (pt_id p) (pt_state p) (pt_type p) score pressure (pt_vcpu_count p) (pt_cpu_affinity p)
    (pt_epoch p).
Definition sync_one (e : DefaultCoherenceEngine) (m : PartitionManager) (id : PartitionId) : PartitionManager :=
  pm_update id (set_scores (engine_score id e) (engine_pressure id e)) m.
Definition sync_partition_scores : kprog unit := λ k,
  let ids := take DEFAULT_MAX_PARTITIONS (active_ids (kn_partitions k)) in
  Some (Ok tt, set_partitions (foldl (sync_one (kn_coherence k)) (kn_partitions k) ids) k).

Definition cpu_load_estimate : Z := 20.

Definition kernel_tick : kprog EpochResult :=
  require_booted ;*
  let* summary := on_scheduler (λ s, Some (tick_epoch s)) in
  let* decision := on_coherence (λ e, '(d, e) ← engine_tick cpu_load_estimate e; Some (Ok d, e)) in
  kmodify kn_tier_manager set_tier_manager advance_tier_epoch ;*
  kmodify kn_tier_manager set_tier_manager (decay_recency RECENCY_DECAY_PER_EPOCH) ;*
  sync_partition_scores ;*
  append_witness (kernel_record AkSchedulerEpoch 0 0 (le_bytes 2 (es_switch_count summary))) ;*
  kret (mkEpochResult summary decision).

Definition kernel_record_communication (from to : PartitionId) (weight : Z) : kprog unit :=
  require_booted ;*
  on_coherence (λ e, '(r, e) ← record_communication from to weight e; Some (map_err (λ _, InternalError) r, e)).

Definition coherence_score (id : PartitionId) (k : Kernel) : CoherenceScore := engine_score id (kn_coherence k).
Definition coherence_pressure (id : PartitionId) (k : Kernel) : CutPressure := engine_pressure id (kn_coherence k).
Definition coherence_recommendation (k : Kernel) : CoherenceDecision := recommend (kn_coherence k).
Definition current_epoch (k : Kernel) : Z := et_current_epoch (sc_epoch (kn_scheduler k)).
Definition kernel_partition_count (k : Kernel) : nat := pm_count (kn_partitions k).
Definition witness_count (k : Kernel) : Z := total_emitted (kn_witness_log k).

Definition create_partition (config : PartitionConfig) : kprog PartitionId :=
  require_booted ;*
  let* epoch := kget current_epoch in
  let* id := on_partitions (pm_create Agent (vcpu_count config) epoch) in
  kignore (on_coherence (λ e, Some (engine_add_partition id e))) ;*
  append_witness (kernel_record AkPartitionCreate HYPERVISOR id []) ;*
  kret id.

Definition destroy_partition (id : PartitionId) : kprog unit :=
  require_booted ;*
  let* p := get_partition id in
  krequire (valid_transition (pt_state p) Destroyed) InvalidPartitionState ;*
  kignore (on_coherence (engine_remove_partition id)) ;*
  on_partitions (pm_remove id) ;*
  append_witness (kernel_record AkPartitionDestroy HYPERVISOR id []).

(** The fuel covers a run queue. *)
Definition enqueue_partition (cpu : nat) (id : PartitionId) (deadline_urgency : Z) : kprog unit :=
  require_booted ;*
  get_partition id ;*
  let* pressure := kget (coherence_pressure id) in
  let* accepted := on_scheduler (enqueue MAX_RUN_QUEUE cpu id deadline_urgency pressure) in
  krequire accepted ResourceLimitExceeded.

Definition kernel_switch_next (cpu : nat) : kprog (option (option PartitionId * PartitionId)) :=
  on_scheduler (switch_next MAX_RUN_QUEUE cpu).

Definition execute_split (source : PartitionId) : kprog PartitionId :=
  require_booted ;*
  let* src := get_partition source in
  let* epoch := kget current_epoch in
  let* child := on_partitions (pm_create Agent (pt_vcpu_count src) epoch) in
  kignore (on_coherence (λ e, Some (engine_add_partition child e))) ;*
  append_witness (kernel_record AkStructuralSplit source child []) ;*
  kret child.

Definition execute_merge (absorber absorbed : PartitionId) : kprog PartitionId :=
  require_booted ;*
  get_partition absorber ;*
  get_partition absorbed ;*
  let* score_a := kget (coherence_score absorber) in
  let* score_b := kget (coherence_score absorbed) in
  krequire (is_ok (merge_preconditions_met score_a score_b)) InvalidPartitionState ;*
  kignore (on_coherence (engine_remove_partition absorbed)) ;*
  append_witness (kernel_record AkStructuralMerge absorber absorbed []) ;*
  kret absorber.

Definition apply_decision (decision : CoherenceDecision) : kprog ApplyResult :=
  match decision with
  | NoAction => kret ArNoAction
  | SplitRecommended partition _ => let* child := execute_split partition in kret (ArSplit partition child)
  | MergeRecommended a b _ => let* survivor := execute_merge a b in kret (ArMerged survivor b)
  end.

Definition kernel_create_channel (from to : PartitionId) : kprog Z :=
  require_booted ;*
  get_partition from ;*
  get_partition to ;*
  let* edge_id := on_ipc (create_channel DEFAULT_IPC_QUEUE_SIZE from to) in
  append_witness (kernel_record AkCommEdgeCreate from to []) ;*
  kret edge_id.

Definition kernel_ipc_send (edge_id : Z) (msg : IpcMessage) (caller_id : PartitionId) : kprog unit :=
  require_booted ;*
  on_ipc (ipc_send edge_id msg caller_id) ;*
  kignore (on_coherence (record_communication (im_sender msg) (im_receiver msg) 1)) ;*
  append_witness (kernel_record AkIpcSend (im_sender msg) (im_receiver msg) []).

Definition kernel_ipc_receive (edge_id : Z) : kprog (option IpcMessage) :=
  require_booted ;* on_ipc (ipc_receive edge_id).

Definition kernel_destroy_channel (edge_id : Z) : kprog unit :=
  require_booted ;*
  on_ipc (destroy_channel edge_id) ;*
  append_witness (kernel_record AkCommEdgeDestroy 0 0 (le_bytes 8 edge_id)).

Definition register_region (region_id : Z) (initial_tier : Tier) : kprog unit :=
  on_tiers (tier_register region_id initial_tier).
Definition record_memory_access (region_id : Z) : kprog unit := on_tiers (tier_record_access region_id).
Definition update_region_cut_value (region_id cut_value : Z) : kprog unit :=
  on_tiers (update_cut_value region_id cut_value).

Definition promote_region (region_id : Z) (target : Tier) : kprog Tier :=
  let* old_tier := on_tiers (promote region_id target) in
  append_witness (kernel_record AkRegionPromote 0 region_id [tier_index old_tier; tier_index target]) ;*
  kret old_tier.
Definition demote_region (region_id : Z) (target : Tier) : kprog Tier :=
  let* old_tier := on_tiers (demote region_id target) in
  append_witness (kernel_record AkRegionDemote 0 region_id [tier_index old_tier; tier_index target]) ;*
  kret old_tier.
Definition region_tier (region_id : Z) (k : Kernel) : option Tier :=
  ts_tier <$> tier_get region_id (kn_tier_manager k).

Definition kernel_register_device (info : DeviceInfo) : kprog Z := on_devices (register_device info).

Definition grant_device_lease (device_id : Z) (partition : PartitionId) (duration_epochs cap_hash : Z) : kprog Z :=
  require_booted ;*
  let* epoch := kget current_epoch in
  let* lease_id := on_devices (grant_lease device_id partition duration_epochs epoch cap_hash) in
  append_witness (kernel_record AkDeviceLeaseGrant partition device_id []) ;*
  kret lease_id.

Definition revoke_device_lease (lease_id : Z) : kprog unit :=
  on_devices (revoke_lease lease_id) ;*
  append_witness (kernel_record AkDeviceLeaseRevoke 0 0 (le_bytes 8 lease_id)).

(** The security gate writes to the kernel's log. *)
Definition on_gate (r : GateRequest) : kprog GateResponse :=
  kcall kn_witness_log set_witness_log
    (λ l, let '(res, l) := check_and_execute r l in (map_err (λ _, InsufficientCapability) res, l)).

Definition create_request (token : CapToken) : GateRequest :=
  mkGateRequest token CtPartition WRITE None false false None AkPartitionCreate 0 0.
Definition send_request (token : CapToken) (receiver : PartitionId) : GateRequest :=
  mkGateRequest token CtPartition WRITE None false false None AkIpcSend receiver 0.

Definition checked_create_partition (config : PartitionConfig) (token : CapToken) : kprog PartitionId :=
  require_booted ;*
  on_gate (create_request token) ;*
  create_partition config.

Definition checked_ipc_send (edge_id : Z) (msg : IpcMessage) (token : CapToken) : kprog unit :=
  require_booted ;*
  on_gate (send_request token (im_receiver msg)) ;*
  kernel_ipc_send edge_id msg (im_sender msg).

Definition enter_degraded_mode : kprog unit :=
  kmodify kn_scheduler set_scheduler enter_degraded ;*
  append_witness (kernel_record AkDegradedModeEntered 0 0 []).
Definition exit_degraded_mode : kprog unit :=
  kmodify kn_scheduler set_scheduler exit_degraded ;*
  append_witness (kernel_record AkDegradedModeExited 0 0 []).
Definition is_degraded (k : Kernel) : bool := sc_degraded (kn_scheduler k).

(** [cap_manager_mut]: what the caller does through the borrow. *)
Definition cap_manager_mut {A} : prog CapabilityManager RvmError A → kprog A :=
  kcall kn_cap_manager set_cap_manager.

End operations.

(* ------------------------------------------------------------------ *)
(** ** Guest calls ([KernelHostContext]) *)

Record KernelHostContext : Set := mkHostContext {
  hc_partition : PartitionId;
  hc_ipc : IpcManager;
  hc_active_channel : option Z;
  hc_next_sequence : Z;
}.
Definition set_hc_ipc (m : IpcManager) (c : KernelHostContext) : KernelHostContext :=
  mkHostContext (hc_partition c) m (hc_active_channel c) (hc_next_sequence c).
Definition bump_sequence (c : KernelHostContext) : KernelHostContext :=
  mkHostContext (hc_partition c) (hc_ipc c) (hc_active_channel c) (wrap64 (hc_next_sequence c + 1)).

Local Open Scope rvm_scope.

Definition host_message (edge target length sequence : Z) (sender : PartitionId) : IpcMessage :=
  mkIpcMessage sender target edge (wrap16 length) 0 sequence 0.

Definition host_send (target length : Z) : prog KernelHostContext RvmError Z :=
  let? channel := pgets hc_active_channel in
  let? edge := plift (ok_or channel PartitionNotFound) in
  if u32_max <? target then pfail ResourceLimitExceeded
  else
    let target := wrap32 target in
    let? me := pgets hc_partition in
    if target =? 0 then pfail InsufficientCapability
    else if target =? me then pfail InsufficientCapability
    else if u16_max <? length then pfail ResourceLimitExceeded
    else
      let? seq := pgets hc_next_sequence in
      pmodify bump_sequence ;;;
      pzoom hc_ipc set_hc_ipc (ipc_send edge (host_message edge target length seq me) me) ;;;
      pret length.

Definition host_receive : prog KernelHostContext RvmError Z :=
  let? channel := pgets hc_active_channel in
  let? edge := plift (ok_or channel PartitionNotFound) in
  let? msg := pzoom hc_ipc set_hc_ipc (ipc_receive edge) in
  match msg with
  | Some msg => pret (im_payload_len msg)
  | None => pret 0
  end.
