(* ===== verification/KernelSpec.v ===== *)
(** What the kernel promises: a specification monad over the abstract kernel,
    the abstract operations, and the proof that every kernel operation refines
    its abstract counterpart.

    The abstract kernel is the product of the subsystems' specifications
    (finite maps of partitions, traffic, channels and regions) and the unbounded
    list of the records appended so far. *)

From stdpp Require Import base numbers list option gmap.
From Stdlib Require Import ZArith Lia.
From S2P Require Import Prelude.
From S2P Require Import SlotMap.
From S2P Require Import Types.
From S2P Require Import CapManager.
From S2P Require Import WitnessLog.
From S2P Require Import Ipc.
From S2P Require Import Device.
From S2P Require Import Partition.
From S2P Require Import Sched.
From S2P Require Import Region.
From S2P Require Import TierManager.
From S2P Require Import Security.
From S2P Require Import CoherenceGraph.
From S2P Require Import Coherence.
From S2P Require Import MinCut.
From S2P Require Import Boot.
From S2P Require Import Kernel.

Local Open Scope Z_scope.
Local Open Scope kernel_scope.

#[local] Existing Instance BuiltinCoherence.

(* ------------------------------------------------------------------ *)
(** ** The abstract kernel *)

Record AbsKernel : Type := mkAbsKernel {
  ak_parts : AbsPartitions;
  ak_traffic : TrafficModel;
  ak_ipc : AbsIpc;
  ak_tiers : AbsTiers;
  ak_devices : DeviceLeaseManager;
  ak_sched : Scheduler;
  ak_booted : bool;
  ak_trail : list WitnessRecord;
}.

Definition abs_kernel_new : AbsKernel :=
  mkAbsKernel (mkAbsPartitions ∅ 1) model_new (mkAbsIpc ∅ 1) (mkAbsTiers ∅ 0)
    (device_manager_new DEFAULT_MAX_DEVICES DEFAULT_MAX_LEASES) (scheduler_new DEFAULT_MAX_CPUS) false [].

Definition with_parts (x : AbsPartitions) (a : AbsKernel) : AbsKernel :=
  mkAbsKernel x (ak_traffic a) (ak_ipc a) (ak_tiers a) (ak_devices a) (ak_sched a) (ak_booted a) (ak_trail a).
Definition with_traffic (x : TrafficModel) (a : AbsKernel) : AbsKernel :=
  mkAbsKernel (ak_parts a) x (ak_ipc a) (ak_tiers a) (ak_devices a) (ak_sched a) (ak_booted a) (ak_trail a).
Definition with_ipc (x : AbsIpc) (a : AbsKernel) : AbsKernel :=
  mkAbsKernel (ak_parts a) (ak_traffic a) x (ak_tiers a) (ak_devices a) (ak_sched a) (ak_booted a) (ak_trail a).
Definition with_tiers (x : AbsTiers) (a : AbsKernel) : AbsKernel :=
  mkAbsKernel (ak_parts a) (ak_traffic a) (ak_ipc a) x (ak_devices a) (ak_sched a) (ak_booted a) (ak_trail a).
Definition with_devices (x : DeviceLeaseManager) (a : AbsKernel) : AbsKernel :=
  mkAbsKernel (ak_parts a) (ak_traffic a) (ak_ipc a) (ak_tiers a) x (ak_sched a) (ak_booted a) (ak_trail a).
Definition with_sched (x : Scheduler) (a : AbsKernel) : AbsKernel :=
  mkAbsKernel (ak_parts a) (ak_traffic a) (ak_ipc a) (ak_tiers a) (ak_devices a) x (ak_booted a) (ak_trail a).
Definition with_booted (x : bool) (a : AbsKernel) : AbsKernel :=
  mkAbsKernel (ak_parts a) (ak_traffic a) (ak_ipc a) (ak_tiers a) (ak_devices a) (ak_sched a) x (ak_trail a).
Definition with_trail (rs : list WitnessRecord) (a : AbsKernel) : AbsKernel :=
  mkAbsKernel (ak_parts a) (ak_traffic a) (ak_ipc a) (ak_tiers a) (ak_devices a) (ak_sched a) (ak_booted a)
    (ak_trail a ++ rs).

(** Abstract programs: relations between a state, a result and a new state. *)
Definition spec (A : Type) : Type := AbsKernel → result RvmError A → AbsKernel → Prop.

Definition sret {A} (x : A) : spec A := λ a r a', r = Ok x ∧ a' = a.
Definition sfail {A} (e : RvmError) : spec A := λ a r a', r = Err e ∧ a' = a.
Definition sbind {A B} (m : spec A) (f : A → spec B) : spec B := λ a r a',
  (∃ x a1, m a (Ok x) a1 ∧ f x a1 r a') ∨ (∃ e, m a (Err e) a' ∧ r = Err e).
Definition sget {A} (f : AbsKernel → A) : spec A := λ a r a', r = Ok (f a) ∧ a' = a.
Definition sexpect {A} (f : AbsKernel → option A) (e : RvmError) : spec A := λ a r a',
  r = ok_or (f a) e ∧ a' = a.
Definition srequire (b : bool) (e : RvmError) : spec unit := if b then sret tt else sfail e.
Definition signore {A} (m : spec A) : spec unit := λ a r a', r = Ok tt ∧ ∃ r0, m a r0 a'.
Definition svoid {A} (m : spec A) : spec unit := λ a r a', ∃ r0, m a r0 a' ∧ r = (λ _, tt) <$> r0.
Definition smodify (f : AbsKernel → AbsKernel) : spec unit := λ a r a', r = Ok tt ∧ a' = f a.

Notation "'let^' x := m 'in' k" := (sbind m (λ x, k))
  (at level 200, x binder, m at level 100, k at level 200) : kernel_scope.
Notation "m ;^ k" := (sbind m (λ _, k)) (at level 100, right associativity) : kernel_scope.

(** The subsystems' specifications as abstract calls. *)
Definition sparts (op : PmOp) : spec PartitionId := λ a r a',
  (r, a') = (λ '(r, p), (r, with_parts p a)) (ap_exec op (ak_parts a)).
Definition straffic (op : EngineOp) : spec unit := λ a r a',
  (model_exec op (ak_traffic a)).1 = Some r ∧ a' = with_traffic (model_exec op (ak_traffic a)).2 a.
Definition sdecide (load : Z) : spec CoherenceDecision := λ a r a', ∃ d, r = Ok d ∧
  decides (model_tick load (ak_traffic a)) d ∧ a' = with_traffic (model_tick load (ak_traffic a)) a.
Definition sipc {A} (inj : RvmResult A → ipc_response) (op : ipc_op) : spec A := λ a r a', ∃ i,
  run_abs DEFAULT_MAX_IPC_CHANNELS DEFAULT_IPC_QUEUE_SIZE op (ak_ipc a) = (inj r, i) ∧ a' = with_ipc i a.
Definition stiers {A} (inj : RvmResult A → TierAnswer) (op : TierOp) : spec A := λ a r a', ∃ t,
  abs_tier_exec DEFAULT_MAX_TIER_REGIONS TIER_THRESHOLDS_DEFAULT op (ak_tiers a) = (inj r, t) ∧ a' = with_tiers t a.
Definition sdevices {A} (m : prog DeviceLeaseManager RvmError A) : spec A := λ a r a', ∃ d,
  m (ak_devices a) = (r, d) ∧ a' = with_devices d a.
Definition ssched {A} (m : Scheduler → option (A * Scheduler)) : spec A := λ a r a', ∃ x s,
  m (ak_sched a) = Some (x, s) ∧ r = Ok x ∧ a' = with_sched s a.
Definition srecord (rs : list WitnessRecord) : spec unit := smodify (with_trail rs).

Definition sbooted : spec unit := λ a r a',
  r = (if ak_booted a then Ok tt else Err InvalidPartitionState) ∧ a' = a.
Definition spartition (id : PartitionId) : spec Partition :=
  sexpect (λ a, ap_map (ak_parts a) !! id) PartitionNotFound.

(* ------------------------------------------------------------------ *)
(** ** The abstract operations *)

(** The score and the pressure a partition has for the engine. *)
Definition cached (a : AbsKernel) (id : PartitionId) : CoherenceScore * CutPressure :=
  default (10000, 0) (mo_cached (ak_traffic a) !! id).

Definition abs_sync (a : AbsKernel) : AbsKernel :=
  with_parts (mkAbsPartitions
    (map_imap (λ id p, Some (set_scores (cached a id).1 (cached a id).2 p)) (ap_map (ak_parts a)))
    (ap_next (ak_parts a))) a.

Definition abs_epoch (a : AbsKernel) : Z := et_current_epoch (sc_epoch (ak_sched a)).

Section abstract.
Context `{!Bitflags}.

Definition boot_record (phase : BootPhase) : WitnessRecord :=
  kernel_record (match phase with Handoff => AkBootComplete | _ => AkBootAttestation end) HYPERVISOR 0
    [Z.of_nat (phase_index phase)].

Definition s_boot : spec unit := λ a r a',
  if ak_booted a then r = Err Unsupported ∧ a' = a
  else r = Ok tt ∧ a' = with_booted true (with_trail (boot_record <$> boot_phases) a).

Definition s_tick : spec EpochResult :=
  sbooted ;^
  let^ summary := ssched (λ s, Some (tick_epoch s)) in
  let^ decision := sdecide cpu_load_estimate in
  stiers answer_unit TEpoch ;^
  stiers answer_unit (TDecay RECENCY_DECAY_PER_EPOCH) ;^
  smodify abs_sync ;^
  srecord [kernel_record AkSchedulerEpoch 0 0 (le_bytes 2 (es_switch_count summary))] ;^
  sret (mkEpochResult summary decision).

Definition s_record_communication (from to : PartitionId) (weight : Z) : spec unit := λ a r a',
  sbind sbooted (λ _ a r a', ∃ r0, straffic (ERecord from to weight) a r0 a' ∧
    r = map_err (λ _, InternalError) r0) a r a'.

(** A new partition: created, known to the engine when it has room, recorded. *)
Definition s_new_partition (vcpus : Z) (record : PartitionId → WitnessRecord) : spec PartitionId :=
  let^ epoch := sget abs_epoch in
  let^ id := sparts (PmCreate Agent vcpus epoch) in
  signore (straffic (EAdd id)) ;^
  srecord [record id] ;^
  sret id.

Definition create_record (id : PartitionId) : WitnessRecord :=
  kernel_record AkPartitionCreate HYPERVISOR id [].
Definition s_create (config : PartitionConfig) : spec PartitionId :=
  sbooted ;^ s_new_partition (vcpu_count config) create_record.

Definition s_destroy (id : PartitionId) : spec unit :=
  sbooted ;^
  let^ p := spartition id in
  srequire (valid_transition (pt_state p) Destroyed) InvalidPartitionState ;^
  signore (straffic (ERemove id)) ;^
  svoid (sparts (PmRemove id)) ;^
  srecord [kernel_record AkPartitionDestroy HYPERVISOR id []].

Definition s_enqueue (cpu : nat) (id : PartitionId) (urgency : Z) : spec unit :=
  sbooted ;^
  spartition id ;^
  let^ pressure := sget (λ a, (cached a id).2) in
  let^ accepted := ssched (enqueue MAX_RUN_QUEUE cpu id urgency pressure) in
  srequire accepted ResourceLimitExceeded.

Definition split_record (source child : PartitionId) : WitnessRecord :=
  kernel_record AkStructuralSplit source child [].
Definition s_split (source : PartitionId) : spec PartitionId :=
  sbooted ;^
  let^ src := spartition source in
  s_new_partition (pt_vcpu_count src) (split_record source).

Definition merge_record (absorber absorbed : PartitionId) : WitnessRecord :=
  kernel_record AkStructuralMerge absorber absorbed [].
Definition s_merge (absorber absorbed : PartitionId) : spec PartitionId :=
  sbooted ;^
  spartition absorber ;^
  spartition absorbed ;^
  let^ score_a := sget (λ a, (cached a absorber).1) in
  let^ score_b := sget (λ a, (cached a absorbed).1) in
  srequire ((7000 <=? score_a) && (7000 <=? score_b)) InvalidPartitionState ;^
  signore (straffic (ERemove absorbed)) ;^
  srecord [merge_record absorber absorbed] ;^
  sret absorber.

Definition s_apply (decision : CoherenceDecision) : spec ApplyResult :=
  match decision with
  | NoAction => sret ArNoAction
  | SplitRecommended p _ => let^ child := s_split p in sret (ArSplit p child)
  | MergeRecommended x y _ => let^ survivor := s_merge x y in sret (ArMerged survivor y)
  end.

Definition s_create_channel (from to : PartitionId) : spec Z :=
  sbooted ;^
  spartition from ;^
  spartition to ;^
  let^ edge := sipc IrNumber (IoCreate from to) in
  srecord [kernel_record AkCommEdgeCreate from to []] ;^
  sret edge.

Definition send_record (msg : IpcMessage) : WitnessRecord :=
  kernel_record AkIpcSend (im_sender msg) (im_receiver msg) [].
Definition s_send (edge : Z) (msg : IpcMessage) (caller : PartitionId) : spec unit :=
  sbooted ;^
  sipc IrUnit (IoSend edge msg caller) ;^
  signore (straffic (ERecord (im_sender msg) (im_receiver msg) 1)) ;^
  srecord [send_record msg].

Definition s_receive (edge : Z) : spec (option IpcMessage) := sbooted ;^ sipc IrMsg (IoReceive edge).
Definition s_close (edge : Z) : spec unit :=
  sbooted ;^
  sipc IrUnit (IoDestroy edge) ;^
  srecord [kernel_record AkCommEdgeDestroy 0 0 (le_bytes 8 edge)].

Definition s_promote (region : Z) (target : Tier) : spec Tier :=
  let^ old := stiers answer_tier (TPromote region target) in
  srecord [kernel_record AkRegionPromote 0 region [tier_index old; tier_index target]] ;^
  sret old.
Definition s_demote (region : Z) (target : Tier) : spec Tier :=
  let^ old := stiers answer_tier (TDemote region target) in
  srecord [kernel_record AkRegionDemote 0 region [tier_index old; tier_index target]] ;^
  sret old.

Definition s_grant_lease (device : Z) (p : PartitionId) (duration cap : Z) : spec Z :=
  sbooted ;^
  let^ epoch := sget abs_epoch in
  let^ lease := sdevices (grant_lease device p duration epoch cap) in
  srecord [kernel_record AkDeviceLeaseGrant p device []] ;^
  sret lease.
Definition s_revoke_lease (lease : Z) : spec unit :=
  sdevices (revoke_lease lease) ;^
  srecord [kernel_record AkDeviceLeaseRevoke 0 0 (le_bytes 8 lease)].

(** The gate: its decision, and always one record. *)
Definition gate_trace (r : GateRequest) : WitnessRecord :=
  match gate_decide verify_p3_chain r with
  | Ok tier => gate_record (gr_action r) tier r
  | Err _ => gate_record AkProofRejected 0 r
  end.
Definition s_gate (r : GateRequest) : spec unit :=
  srecord [gate_trace r] ;^
  srequire (is_ok (gate_decide verify_p3_chain r)) InsufficientCapability.

Definition s_checked_create (config : PartitionConfig) (token : CapToken) : spec PartitionId :=
  sbooted ;^ s_gate (create_request token) ;^ s_create config.
Definition s_checked_send (edge : Z) (msg : IpcMessage) (token : CapToken) : spec unit :=
  sbooted ;^ s_gate (send_request token (im_receiver msg)) ;^ s_send edge msg (im_sender msg).

Definition s_degrade (on : bool) : spec unit :=
  smodify (λ a, with_sched (set_degraded on (ak_sched a)) a) ;^
  srecord [kernel_record (if on then AkDegradedModeEntered else AkDegradedModeExited) 0 0 []].
End abstract.

(* ------------------------------------------------------------------ *)
(** ** Calls as data *)

Inductive KernelOp : Type :=
| KBoot | KTick | KRecord (from to : PartitionId) (weight : Z)
| KCreate (config : PartitionConfig) | KDestroy (id : PartitionId)
| KEnqueue (cpu : nat) (id : PartitionId) (urgency : Z) | KSwitch (cpu : nat)
| KSplit (source : PartitionId) | KMerge (absorber absorbed : PartitionId) | KApply (d : CoherenceDecision)
| KChannel (from to : PartitionId) | KSend (edge : Z) (msg : IpcMessage) (caller : PartitionId)
| KReceive (edge : Z) | KClose (edge : Z)
| KRegion (id : Z) (t : Tier) | KAccess (id : Z) | KCut (id cut_value : Z)
| KPromote (id : Z) (t : Tier) | KDemote (id : Z) (t : Tier)
| KDevice (info : DeviceInfo) | KGrant (device : Z) (p : PartitionId) (duration cap : Z) | KRevoke (lease : Z)
| KCheckedCreate (config : PartitionConfig) (token : CapToken)
| KCheckedSend (edge : Z) (msg : IpcMessage) (token : CapToken)
| KDegrade | KRestore
| KCaps (m : prog CapabilityManager RvmError unit).

Inductive KernelValue : Set :=
| VUnit | VNumber (n : Z) | VMessage (m : option IpcMessage) | VTier (t : Tier)
| VSwitch (s : option (option PartitionId * PartitionId)) | VEpoch (e : EpochResult) | VApplied (x : ApplyResult).

Definition kmap {A} (f : A → KernelValue) (m : kprog A) : kprog KernelValue := let* x := m in kret (f x).
Definition smap {A} (f : A → KernelValue) (m : spec A) : spec KernelValue := let^ x := m in sret (f x).

Definition kernel_exec `{!Bitflags, !ChainHasher} (op : KernelOp) : kprog KernelValue :=
  let done := λ _ : unit, VUnit in
  match op with
  | KBoot => kmap done kernel_boot
  | KTick => kmap VEpoch kernel_tick
  | KRecord a b w => kmap done (kernel_record_communication a b w)
  | KCreate config => kmap VNumber (create_partition config)
  | KDestroy id => kmap done (destroy_partition id)
  | KEnqueue cpu id u => kmap done (enqueue_partition cpu id u)
  | KSwitch cpu => kmap VSwitch (kernel_switch_next cpu)
  | KSplit s => kmap VNumber (execute_split s)
  | KMerge a b => kmap VNumber (execute_merge a b)
  | KApply d => kmap VApplied (apply_decision d)
  | KChannel a b => kmap VNumber (kernel_create_channel a b)
  | KSend e m c => kmap done (kernel_ipc_send e m c)
  | KReceive e => kmap VMessage (kernel_ipc_receive e)
  | KClose e => kmap done (kernel_destroy_channel e)
  | KRegion id t => kmap done (register_region id t)
  | KAccess id => kmap done (record_memory_access id)
  | KCut id c => kmap done (update_region_cut_value id c)
  | KPromote id t => kmap VTier (promote_region id t)
  | KDemote id t => kmap VTier (demote_region id t)
  | KDevice info => kmap VNumber (kernel_register_device info)
  | KGrant d p n c => kmap VNumber (grant_device_lease d p n c)
  | KRevoke l => kmap done (revoke_device_lease l)
  | KCheckedCreate config t => kmap VNumber (checked_create_partition config t)
  | KCheckedSend e m t => kmap done (checked_ipc_send e m t)
  | KDegrade => kmap done enter_degraded_mode
  | KRestore => kmap done exit_degraded_mode
  | KCaps m => kmap done (cap_manager_mut m)
  end.

Definition spec_exec `{!Bitflags} (op : KernelOp) : spec KernelValue :=
  let done := λ _ : unit, VUnit in
  match op with
  | KBoot => smap done s_boot
  | KTick => smap VEpoch s_tick
  | KRecord a b w => smap done (s_record_communication a b w)
  | KCreate config => smap VNumber (s_create config)
  | KDestroy id => smap done (s_destroy id)
  | KEnqueue cpu id u => smap done (s_enqueue cpu id u)
  | KSwitch cpu => smap VSwitch (ssched (switch_next MAX_RUN_QUEUE cpu))
  | KSplit s => smap VNumber (s_split s)
  | KMerge a b => smap VNumber (s_merge a b)
  | KApply d => smap VApplied (s_apply d)
  | KChannel a b => smap VNumber (s_create_channel a b)
  | KSend e m c => smap done (s_send e m c)
  | KReceive e => smap VMessage (s_receive e)
  | KClose e => smap done (s_close e)
  | KRegion id t => smap done (stiers answer_unit (TRegister id t))
  | KAccess id => smap done (stiers answer_unit (TAccess id))
  | KCut id c => smap done (stiers answer_unit (TCut id c))
  | KPromote id t => smap VTier (s_promote id t)
  | KDemote id t => smap VTier (s_demote id t)
  | KDevice info => smap VNumber (sdevices (register_device info))
  | KGrant d p n c => smap VNumber (s_grant_lease d p n c)
  | KRevoke l => smap done (s_revoke_lease l)
  | KCheckedCreate config t => smap VNumber (s_checked_create config t)
  | KCheckedSend e m t => smap done (s_checked_send e m t)
  | KDegrade => smap done (s_degrade true)
  | KRestore => smap done (s_degrade false)
  | KCaps m => λ a r a', a' = a ∧ ∃ c, r = (λ _, VUnit) <$> (m c).1
  end.

(* ------------------------------------------------------------------ *)
(** ** Representation *)

Section refinement.
Context {BF : Bitflags} {CH : ChainHasher}.

(** The records as the log stores them. *)
Definition stamped_trail (rs : list WitnessRecord) : list WitnessRecord := imap stamp_at rs.

Record kernel_repr (k : Kernel) (a : AbsKernel) : Prop := {
  kr_parts : pm_repr (kn_partitions k) (ak_parts a);
  kr_traffic : engine_simulates (kn_coherence k) (ak_traffic a);
  kr_gap : 0 ≤ gap (mo_adaptive (ak_traffic a)) ≤ 3;
  kr_ipc : ipc_repr DEFAULT_MAX_IPC_CHANNELS DEFAULT_IPC_QUEUE_SIZE (kn_ipc k) (ak_ipc a);
  kr_tiers : tier_inv (kn_tier_manager k);
  kr_tiers_abs : tier_abs (kn_tier_manager k) = ak_tiers a;
  kr_tiers_len : length (tm_regions (kn_tier_manager k)) = DEFAULT_MAX_TIER_REGIONS;
  kr_tiers_th : tm_thresholds (kn_tier_manager k) = TIER_THRESHOLDS_DEFAULT;
  kr_devices : device_ready (kn_devices k);
  kr_devices_eq : kn_devices k = ak_devices a;
  kr_sched : sched_inv (kn_scheduler k);
  kr_sched_eq : kn_scheduler k = ak_sched a;
  kr_boot : tracker_at (if ak_booted a then 7 else 0) (kn_boot k);
  kr_booted : kn_booted k = ak_booted a;
  kr_log : log_repr (kn_witness_log k) (stamped_trail (ak_trail a));
}.

(** Room left for [n] more counter increments and traffic of weight [w]. *)
Record room (n w : Z) (k : Kernel) (a : AbsKernel) : Prop := {
  rm_parts : 1 ≤ ap_next (ak_parts a) ≤ u32_max - n;
  rm_ipc : 1 ≤ ai_next (ak_ipc a) ≤ u64_max - n;
  rm_leases : dm_next_lease_id (ak_devices a) ≤ u64_max - n;
  rm_trail : Z.of_nat (length (ak_trail a)) ≤ u64_max - n;
  rm_weight : wsum any (cg_edges (ce_graph (kn_coherence k))) ≤ u64_max - w;
}.

Lemma room_less n w n' w' k a : room n w k a → n' ≤ n → w' ≤ w → room n' w' k a.
Proof. intros [] ??. split; lia. Qed.

(** A kernel program returns, with a result and a state its specification
    allows, spending at most [n] and [w]. *)
Definition refines {A} (n w : Z) (m : kprog A) (s : spec A) : Prop :=
  ∀ k a n0 w0, 0 ≤ n0 → 0 ≤ w0 → kernel_repr k a → room (n + n0) (w + w0) k a →
  ∃ r k' a', m k = Some (r, k') ∧ s a r a' ∧ kernel_repr k' a' ∧ room n0 w0 k' a'.

Lemma refines_weaken {A} n w n' w' (m : kprog A) s :
  refines n w m s → n ≤ n' → w ≤ w' → refines n' w' m s.
Proof. intros H ?? k a n0 w0 ?? Hr Hroom. apply (H k a); [done..|]. eapply room_less; [done|lia..]. Qed.

Lemma refines_ret {A} (x : A) : refines 0 0 (kret x) (sret x).
Proof. intros k a n0 w0 ?? Hr Hroom. by exists (Ok x), k, a. Qed.

Lemma refines_fail {A} e : refines 0 0 (kfail e) (sfail (A:=A) e).
Proof. intros k a n0 w0 ?? Hr Hroom. by exists (Err e), k, a. Qed.

Lemma refines_bind {A B} n w n' w' (m : kprog A) s (f : A → kprog B) g :
  0 ≤ n' → 0 ≤ w' → refines n w m s → (∀ x, refines n' w' (f x) (g x)) →
  refines (n + n') (w + w') (kbind m f) (sbind s g).
Proof.
  intros Hn' Hw' Hm Hf k a n0 w0 ?? Hr Hroom. rewrite <- !Z.add_assoc in Hroom.
  destruct (Hm k a (n' + n0) (w' + w0)) as (r & k1 & a1 & Hk & Hs & Hr1 & Hroom1); [lia..|done|done|].
  unfold kbind, sbind. rewrite Hk. destruct r as [x|e].
  - destruct (Hf x k1 a1 n0 w0) as (r & k' & a' & ? & ? & ? & ?); [done..|].
    exists r, k', a'. split_and!; [done| |done|done]. left. by exists x, a1.
  - exists (Err e), k1, a1. split_and!; [done| |done|].
    + right. by exists e.
    + eapply room_less; [done|lia..].
Qed.

Lemma refines_get {A} (f : Kernel → A) g :
  (∀ k a, kernel_repr k a → f k = g a) → refines 0 0 (kget f) (sget g).
Proof.
  intros Hfg k a n0 w0 ?? Hr Hroom. exists (Ok (f k)), k, a. split_and!; [done| |done|done].
  split; [|done]. by rewrite (Hfg k a Hr).
Qed.

Lemma refines_require b e : refines 0 0 (krequire b e) (srequire b e).
Proof. destruct b; [apply refines_ret|apply refines_fail]. Qed.

Lemma refines_ignore {A} n w (m : kprog A) s : refines n w m s → refines n w (kignore m) (signore s).
Proof.
  intros Hm k a n0 w0 ?? Hr Hroom. destruct (Hm k a n0 w0) as (r & k' & a' & Hk & Hs & Hr' & Hroom'); [done..|].
  exists (Ok tt), k', a'. unfold kignore. rewrite Hk. split_and!; [done| |done|done]. split; [done|]. by exists r.
Qed.

Lemma refines_map {A} n w (f : A → KernelValue) m s : refines n w m s → refines n w (kmap f m) (smap f s).
Proof.
  intros Hm. rewrite <- (Z.add_0_r n), <- (Z.add_0_r w).
  apply refines_bind; [done..|]. intros x. apply refines_ret.
Qed.

Lemma refines_booted : refines 0 0 require_booted sbooted.
Proof.
  intros k a n0 w0 ?? Hr Hroom. unfold require_booted, sbooted. rewrite (kr_booted k a Hr).
  exists (if ak_booted a then Ok tt else Err InvalidPartitionState), k, a.
  split_and!; [by destruct (ak_booted a)|done..].
Qed.

Lemma refines_get_partition id : refines 0 0 (get_partition id) (spartition id).
Proof.
  intros k a n0 w0 ?? Hr Hroom. unfold get_partition, spartition, sexpect, kexpect.
  rewrite (pm_get_map _ _ (kr_parts k a Hr)). exists (ok_or (ap_map (ak_parts a) !! id) PartitionNotFound), k, a.
  split_and!; [by destruct (ap_map (ak_parts a) !! id)|done..].
Qed.

Lemma kernel_score k a id : kernel_repr k a →
  (coherence_score id k, coherence_pressure id k) = cached a id.
Proof. intros Hr. apply sim_scores, (kr_traffic k a Hr). Qed.

(* ------------------------------------------------------------------ *)
(** ** The calls of the subsystems refine their specifications *)

Lemma refines_append r : refines 1 0 (append_witness r) (srecord [r]).
Proof.
  intros k a n0 w0 ?? Hr Hroom. destruct (append_repr _ _ r (kr_log k a Hr)) as [_ Hl].
  { unfold stamped_trail. rewrite length_imap. destruct Hroom. lia. }
  eexists (Ok tt), _, _. split; [done|]. split; [done|]. destruct Hr, Hroom. split.
  - split; cbn; try done. unfold stamped_trail in *. rewrite length_imap in Hl.
    rewrite imap_app. cbn. by rewrite Nat.add_0_r.
  - split; cbn; try done; rewrite ?length_app; cbn; lia.
Qed.

Lemma refines_create ty v epoch :
  refines 1 0 (on_partitions (pm_create ty v epoch)) (sparts (PmCreate ty v epoch)).
Proof.
  intros k a n0 w0 ?? Hr Hroom. unfold on_partitions, kcall, sparts.
  destruct (pm_exec_refines (PmCreate ty v epoch) _ _ (kr_parts k a Hr) I) as (H1 & H2 & H3);
    [destruct Hroom; lia|]. cbn [pm_exec] in H1, H2.
  destruct (pm_create ty v epoch (kn_partitions k)) as [r m]. cbn [fst snd] in *.
  destruct (ap_exec _ (ak_parts a)) as [r' p]. cbn [fst snd] in *. subst r'.
  eexists r, _, _. split; [done|]. split; [done|]. destruct Hr, Hroom. split; split; cbn; try done; lia.
Qed.

Lemma refines_remove id : refines 0 0 (on_partitions (pm_remove id)) (svoid (sparts (PmRemove id))).
Proof.
  intros k a n0 w0 ?? Hr Hroom. unfold on_partitions, kcall, svoid, sparts. cbn [ap_exec].
  pose proof (pm_remove_repr _ _ (kr_parts k a Hr) id) as H1.
  destruct (pm_remove id (kn_partitions k)) as [r m]. exists r, (set_partitions m k).
  destruct r as [[]|e].
  - destruct H1 as ([p Hp] & H1). rewrite Hp. eexists. split; [done|]. split; [by eexists|].
    destruct Hr, Hroom. split; split; cbn; try done; lia.
  - destruct H1 as (-> & -> & Hp). rewrite Hp. eexists. split; [done|]. split; [by eexists|].
    destruct Hr, Hroom. split; split; cbn; try done; lia.
Qed.

(** The engine: an operation the model answers. *)
Lemma refines_engine op w (f : DefaultCoherenceEngine → option (result RvmError unit * DefaultCoherenceEngine)) :
  (∀ e m, engine_simulates e m → wsum any (cg_edges (ce_graph e)) + w ≤ u64_max →
    ∃ r e', f e = Some (r, e') ∧ (model_exec op m).1 = Some r ∧ refined e (model_exec op m).2 w e' ∧
      mo_adaptive (model_exec op m).2 = mo_adaptive m) →
  refines 0 w (on_coherence f) (straffic op).
Proof.
  intros Hf k a n0 w0 ?? Hr Hroom. unfold on_coherence, kcall_fuel, straffic.
  destruct (Hf _ _ (kr_traffic k a Hr)) as (r & e' & -> & Hres & [Hs Hw] & Had); [destruct Hroom; lia|].
  cbn [mbind option_bind]. eexists r, _, _. split; [done|]. split; [done|].
  destruct Hr, Hroom. split; split; cbn; rewrite ?Had; try done; lia.
Qed.

Lemma refines_add id : refines 0 0 (on_coherence (λ e, Some (engine_add_partition id e))) (straffic (EAdd id)).
Proof.
  apply refines_engine. intros e m Hs Hw. pose proof (sim_add e m id Hs) as H1.
  destruct (engine_add_partition id e) as [r e']. destruct H1 as [H1 H2].
  exists r, e'. split_and!; [done|done|done|]. cbn [model_exec]. by repeat case_match.
Qed.

Lemma refines_forget id : refines 0 0 (on_coherence (engine_remove_partition id)) (straffic (ERemove id)).
Proof.
  apply refines_engine. intros e m Hs Hw. destruct (sim_remove e m id Hs) as (r & e' & H1 & H2 & H3).
  exists r, e'. split_and!; [done|done|done|]. cbn [model_exec]. by repeat case_match.
Qed.

Lemma record_refined (e : DefaultCoherenceEngine) m x y w :
  0 < w ≤ i64_max → engine_simulates e m → wsum any (cg_edges (ce_graph e)) + w ≤ u64_max →
  ∃ r e', record_communication x y w e = Some (r, e') ∧ (model_exec (ERecord x y w) m).1 = Some r ∧
    refined e (model_exec (ERecord x y w) m).2 w e' ∧ mo_adaptive (model_exec (ERecord x y w) m).2 = mo_adaptive m.
Proof.
  intros Hok Hs Hw. destruct (sim_record e m x y w Hs Hok Hw) as (r & e' & H1 & H2 & H3).
  exists r, e'. split_and!; [done|done|done|]. cbn [model_exec]. by repeat case_match.
Qed.

Lemma refines_traffic x y w : 0 < w ≤ i64_max →
  refines 0 w (on_coherence (record_communication x y w)) (straffic (ERecord x y w)).
Proof. intros Hw. apply refines_engine. intros e m. by apply record_refined. Qed.

Lemma refines_tick_engine :
  refines 0 0 (on_coherence (λ e, '(d, e) ← engine_tick cpu_load_estimate e; Some (Ok d, e))) (sdecide cpu_load_estimate).
Proof.
  intros k a n0 w0 ?? Hr Hroom. unfold on_coherence, kcall_fuel, sdecide.
  destruct (sim_tick _ _ cpu_load_estimate (kr_traffic k a Hr) (kr_gap k a Hr))
    as (d & e' & -> & _ & Hd & [Hs Hw] & Hgap). cbn [mbind option_bind].
  cbn [model_exec snd] in *. eexists (Ok d), _, _. split; [done|]. split; [by exists d|].
  destruct Hr, Hroom. split; split; cbn; try done; lia.
Qed.

(** Calls of the IPC manager, the tier manager, the devices and the scheduler. *)
Lemma refines_ipc {A} (inj : RvmResult A → ipc_response) op (m : prog IpcManager RvmError A) :
  (∀ i, run_ipc DEFAULT_IPC_QUEUE_SIZE op i = let '(r, i) := m i in (inj r, i)) →
  refines 1 0 (on_ipc m) (sipc inj op).
Proof.
  intros Hm k a n0 w0 ?? Hr Hroom. unfold on_ipc, kcall, sipc.
  destruct (ipc_op_simulates _ 4 op _ _ (kr_ipc k a Hr)) as [H1 H2].
  { rewrite (ir_next _ _ _ _ (kr_ipc k a Hr)). destruct Hroom. lia. }
  pose proof (run_abs_next DEFAULT_MAX_IPC_CHANNELS (2 ^ 4) op (ak_ipc a)) as H3.
  change (2 ^ 4)%nat with DEFAULT_IPC_QUEUE_SIZE in *. rewrite Hm in H1, H2.
  destruct (m (kn_ipc k)) as [r i]. destruct (run_abs _ _ op (ak_ipc a)) as [r' i'] eqn:E.
  cbn [fst snd] in H1, H2, H3.
  eexists r, _, _. split; [done|]. split.
  - exists i'. split; [congruence|done].
  - destruct Hr, Hroom. split; split; cbn; try done; lia.
Qed.

Lemma refines_tiers {A} (inj : RvmResult A → TierAnswer) op (m : prog TierManager RvmError A) :
  tier_op_ok op → (∀ t, tier_exec op t = let '(r, t) := m t in (inj r, t)) →
  refines 0 0 (on_tiers m) (stiers inj op).
Proof.
  intros Hop Hm k a n0 w0 ?? Hr Hroom. unfold on_tiers, kcall, stiers.
  pose proof (tier_exec_agrees op _ (kr_tiers k a Hr) Hop) as H1. unfold tier_agrees in H1. rewrite Hm in H1.
  destruct (m (kn_tier_manager k)) as [r t]. destruct H1 as (H1 & H2 & H3 & H4).
  rewrite (kr_tiers_len k a Hr), (kr_tiers_th k a Hr), (kr_tiers_abs k a Hr) in H1.
  eexists r, _, _. split; [done|]. split; [by eexists|].
  destruct Hr, Hroom. split; split; cbn; try done; try lia; congruence.
Qed.

Lemma refines_devices {A} (m : prog DeviceLeaseManager RvmError A) :
  (∃ op, ∀ d, (m d).2 = run_device op d) → refines 1 0 (on_devices m) (sdevices m).
Proof.
  intros [op Hop] k a n0 w0 ?? Hr Hroom. unfold on_devices, kcall, sdevices.
  pose proof (kr_devices_eq k a Hr) as Heq. specialize (Hop (kn_devices k)).
  destruct (device_step_ready op _ (kr_devices k a Hr)) as [H1 H2]; [destruct Hroom; rewrite Heq; lia|].
  rewrite <- Hop in H1, H2. destruct (m (kn_devices k)) as [r d] eqn:E. cbn [snd] in *.
  eexists r, _, _. split; [done|]. split.
  - eexists. rewrite <- Heq. split; [done|done].
  - destruct Hr, Hroom. rewrite Heq in *. split; split; cbn; try done; lia.
Qed.

Lemma refines_sched {A} (m : Scheduler → option (A * Scheduler)) :
  (∀ s, sched_inv s → ∃ x s', m s = Some (x, s') ∧ sched_inv s') → refines 0 0 (on_scheduler m) (ssched m).
Proof.
  intros Hm k a n0 w0 ?? Hr Hroom. unfold on_scheduler, kcall_fuel, ssched.
  destruct (Hm _ (kr_sched k a Hr)) as (x & s & H1 & H2). rewrite H1. cbn [mbind option_bind].
  rewrite (kr_sched_eq k a Hr) in H1.
  eexists (Ok x), _, _. split; [done|]. split; [by exists x, s|].
  destruct Hr, Hroom. split; split; cbn; try done; lia.
Qed.

Lemma refines_set_degraded b :
  refines 0 0 (kmodify kn_scheduler set_scheduler (set_degraded b))
    (smodify (λ a, with_sched (set_degraded b (ak_sched a)) a)).
Proof.
  intros k a n0 w0 ?? Hr Hroom. eexists (Ok tt), _, _. split; [done|]. split; [done|].
  destruct Hr as [??????????? Heq], Hroom. split; split; cbn; try done; [by apply sched_inv_meta|by rewrite Heq].
Qed.

Lemma refines_tiers_modify op (f : TierManager → TierManager) :
  tier_op_ok op → (∀ t, tier_exec op t = (Ok None, f t)) →
  refines 0 0 (kmodify kn_tier_manager set_tier_manager f) (stiers answer_unit op).
Proof.
  intros Hop Hf. apply (refines_tiers answer_unit op (λ t, (Ok tt, f t)) Hop). intros t. by rewrite Hf.
Qed.

Lemma refines_gate {A} n w r (m : kprog A) s :
  0 ≤ n → 0 ≤ w → refines n w m s → refines (1 + n) w (on_gate r ;* m) (s_gate r ;^ s).
Proof.
  intros Hn Hw Hm k a n0 w0 ?? Hr Hroom. rewrite <- Z.add_assoc in Hroom.
  destruct (refines_append (gate_trace r) k a (n + n0) (w + w0)) as (r1 & k1 & a1 & Hk & [-> ->] & Hr1 & Hroom1);
    [lia..|done|done|]. unfold append_witness, kmodify in Hk. injection Hk as <-.
  unfold on_gate, kcall, kbind. rewrite check_and_execute_decide. unfold s_gate, gate_trace, sbind in *.
  destruct (gate_decide verify_p3_chain r) as [tier|e]; cbn [map_err is_ok srequire].
  - destruct (Hm _ _ n0 w0 ltac:(done) ltac:(done) Hr1 Hroom1) as (r1 & k' & a' & ? & ? & ? & ?).
    exists r1, k', a'. split_and!; [done| |done..]. left. exists tt. eexists. split; [|done].
    left. exists tt. eexists. split; done.
  - eexists (Err _), _, _. split; [done|]. split; [|split; [done|]].
    + right. eexists. split; [|done]. left. exists tt. eexists. split; done.
    + eapply room_less; [done|lia..].
Qed.

Lemma append_all rs : ∀ l h,
  log_repr l (stamped_trail h) → Z.of_nat (length h) + Z.of_nat (length rs) ≤ u64_max →
  log_repr (foldl (λ l r, (log_append r l).2) l rs) (stamped_trail (h ++ rs)).
Proof.
  induction rs as [|r rs IH]; intros l h Hl Hmax; cbn [foldl length] in *; [by rewrite app_nil_r|].
  destruct (append_repr l _ r Hl) as [_ Hl']; [unfold stamped_trail; rewrite length_imap; lia|].
  replace (h ++ r :: rs) with ((h ++ [r]) ++ rs) by by rewrite <- app_assoc.
  apply IH; [|rewrite length_app; cbn; lia].
  unfold stamped_trail in *. rewrite length_imap in Hl'. rewrite imap_app. cbn. by rewrite Nat.add_0_r.
Qed.

Lemma length_omap_le {A B} (f : A → option B) (l : list A) : (length (omap f l) ≤ length l)%nat.
Proof. induction l as [|x l IH]; cbn; [done|]. destruct (f x); cbn; lia. Qed.

(** Writing every partition's scores, in whatever order, is one map over them. *)
Lemma sync_fold (sc : PartitionId → CoherenceScore) (pr : PartitionId → CutPressure) ids m s :
  pm_repr m s →
  pm_repr (foldl (λ m id, pm_update id (set_scores (sc id) (pr id)) m) m ids)
    (mkAbsPartitions
       (map_imap (λ id p, Some (if bool_decide (id ∈ ids) then set_scores (sc id) (pr id) p else p)) (ap_map s))
       (ap_next s)).
Proof.
  revert m s. induction ids as [|id ids IH]; intros m s Hr; cbn [foldl].
  - replace (map_imap _ _) with (ap_map s); [by destruct s|].
    apply map_eq. intros i. rewrite map_lookup_imap. by destruct (ap_map s !! i).
  - specialize (IH _ _ (pm_update_repr m s Hr id (set_scores (sc id) (pr id)) ltac:(done))). cbn [ap_map ap_next] in IH.
    replace (map_imap _ (ap_map s)) with
      (map_imap (λ id p, Some (if bool_decide (id ∈ ids) then set_scores (sc id) (pr id) p else p))
         (alter (set_scores (sc id) (pr id)) id (ap_map s))); [done|].
    apply map_eq. intros i. rewrite !map_lookup_imap. destruct (decide (i = id)) as [->|Hne].
    + rewrite lookup_alter_eq. destruct (ap_map s !! id) as [p|]; cbn; [|done].
      rewrite (bool_decide_eq_true_2 (id ∈ id :: ids)) by by left. by case_bool_decide.
    + rewrite lookup_alter_ne by done. destruct (ap_map s !! i) as [p|]; cbn; [|done].
      do 2 f_equal. repeat case_bool_decide; set_solver.
Qed.

Lemma refines_sync : refines 0 0 sync_partition_scores (smodify abs_sync).
Proof.
  intros k a n0 w0 ?? Hr Hroom. unfold sync_partition_scores.
  eexists (Ok tt), _, _. split; [done|]. split; [done|].
  assert (pm_repr (foldl (sync_one (kn_coherence k)) (kn_partitions k)
    (take DEFAULT_MAX_PARTITIONS (active_ids (kn_partitions k)))) (ak_parts (abs_sync a))) as Hp.
  { pose proof (kr_parts k a Hr) as Hp.
    rewrite take_ge.
    2: { unfold active_ids. etrans; [apply length_omap_le|]. by rewrite (pr_len _ _ Hp). }
    pose proof (sync_fold (λ id, engine_score id (kn_coherence k)) (λ id, engine_pressure id (kn_coherence k))
      (active_ids (kn_partitions k)) _ _ Hp) as Hs.
    cbn [abs_sync with_parts ak_parts]. replace (map_imap _ _) with
      (map_imap (λ id p, Some (if bool_decide (id ∈ active_ids (kn_partitions k))
        then set_scores (engine_score id (kn_coherence k)) (engine_pressure id (kn_coherence k)) p else p))
        (ap_map (ak_parts a))); [done|].
    apply map_eq. intros i. rewrite !map_lookup_imap. destruct (ap_map (ak_parts a) !! i) as [p|] eqn:Hi; [|done].
    cbn. rewrite bool_decide_eq_true_2 by (apply (pm_active_ids_map _ _ i Hp); by eexists).
    by rewrite <- (kernel_score k a i Hr). }
  destruct Hr, Hroom. split; split; cbn; try done; lia.
Qed.

Lemma refines_boot : refines 7 0 kernel_boot s_boot.
Proof.
  intros k a n0 w0 ?? Hr Hroom. unfold kernel_boot, s_boot.
  destruct (ak_booted a) eqn:Hb.
  - pose proof (kr_boot k a Hr) as Ht. rewrite Hb in Ht.
    pose proof (complete_phase_spec 7 (kn_boot k) HalInitPhase Ht) as H1. cbn [decide decide_rel] in H1.
    unfold kbind. cbn [boot_loop boot_phases]. unfold kbind, on_boot, kcall.
    destruct (complete_phase HalInitPhase (kn_boot k)) as [r t]. cbn in H1. destruct H1 as [-> ->].
    exists (Err Unsupported), (set_boot (kn_boot k) k), a. split_and!; [done..| |].
    + by destruct k.
    + eapply room_less; [by destruct k|lia..].
  - assert (kn_boot k = boot_tracker_new) as Ht.
    { pose proof (kr_boot k a Hr) as (_ & Hc & Hd). rewrite Hb in Hc, Hd.
      destruct (kn_boot k) as [c d]. cbn in Hc, Hd. by subst. }
    assert (log_repr (foldl (λ l r, (log_append r l).2) (kn_witness_log k) (boot_record <$> boot_phases))
      (stamped_trail (ak_trail a ++ (boot_record <$> boot_phases)))) as Hl.
    { apply append_all; [apply Hr|]. destruct Hroom. cbn. lia. }
    eexists (Ok tt), (set_booted true (set_boot (mkBootTracker None (replicate 7 true))
      (set_witness_log (foldl (λ l r, (log_append r l).2) (kn_witness_log k) (boot_record <$> boot_phases)) k))), _.
    split; [by destruct k; cbn in Ht; subst|]. split; [done|].
    destruct Hr, Hroom. split; split; cbn -[log_append boot_phases]; try done; try lia.
    rewrite length_app. cbn. lia.
Qed.

(* ------------------------------------------------------------------ *)
(** ** Every operation refines its abstract counterpart *)

Lemma refines_seq {A B} n w n' w' (m : kprog A) s (f : A → kprog B) g :
  refines n w m s → (∀ x, refines n' w' (f x) (g x)) → 0 ≤ n' → 0 ≤ w' →
  refines (n + n') (w + w') (kbind m f) (sbind s g).
Proof. intros. by apply refines_bind. Qed.

Lemma refines_enqueue cpu id u p :
  refines 0 0 (on_scheduler (enqueue MAX_RUN_QUEUE cpu id u p)) (ssched (enqueue MAX_RUN_QUEUE cpu id u p)).
Proof.
  apply refines_sched. intros s Hs. destruct (enqueue_spec MAX_RUN_QUEUE cpu id u p s Hs) as (b & s' & ? & ? & _); [done|].
  by exists b, s'.
Qed.

Lemma refines_switch cpu :
  refines 0 0 (on_scheduler (switch_next MAX_RUN_QUEUE cpu)) (ssched (switch_next MAX_RUN_QUEUE cpu)).
Proof.
  apply refines_sched. intros s Hs. destruct (switch_next_spec MAX_RUN_QUEUE cpu s Hs) as (b & s' & ? & ? & _); [done|].
  by exists b, s'.
Qed.

Lemma refines_tick_sched : refines 0 0 (on_scheduler (λ s, Some (tick_epoch s))) (ssched (λ s, Some (tick_epoch s))).
Proof.
  apply refines_sched. intros s Hs. destruct (tick_epoch s) as [x s'] eqn:E. exists x, s'. split; [done|].
  replace s' with (tick_epoch s).2 by by rewrite E. by apply sched_inv_meta.
Qed.

Lemma merge_test a b : is_ok (merge_preconditions_met a b) = (7000 <=? a) && (7000 <=? b).
Proof.
  unfold merge_preconditions_met, meets_threshold, DEFAULT_MERGE_THRESHOLD.
  by destruct (7000 <=? a), (7000 <=? b).
Qed.

Lemma refines_score id : refines 0 0 (kget (coherence_score id)) (sget (λ a, (cached a id).1)).
Proof. apply refines_get. intros k a Hr. by rewrite <- (kernel_score k a id Hr). Qed.
Lemma refines_pressure id : refines 0 0 (kget (coherence_pressure id)) (sget (λ a, (cached a id).2)).
Proof. apply refines_get. intros k a Hr. by rewrite <- (kernel_score k a id Hr). Qed.
Lemma refines_epoch : refines 0 0 (kget current_epoch) (sget abs_epoch).
Proof. apply refines_get. intros k a Hr. unfold current_epoch, abs_epoch. by rewrite (kr_sched_eq k a Hr). Qed.

Lemma refines_create_channel from to :
  refines 1 0 (on_ipc (create_channel DEFAULT_IPC_QUEUE_SIZE from to)) (sipc IrNumber (IoCreate from to)).
Proof. apply refines_ipc. intros i. cbn [run_ipc]. by destruct (create_channel _ _ _ _). Qed.
Lemma refines_send e msg c : refines 1 0 (on_ipc (ipc_send e msg c)) (sipc IrUnit (IoSend e msg c)).
Proof. apply refines_ipc. intros i. cbn [run_ipc]. by destruct (ipc_send _ _ _ _). Qed.
Lemma refines_receive e : refines 1 0 (on_ipc (ipc_receive e)) (sipc IrMsg (IoReceive e)).
Proof. apply refines_ipc. intros i. cbn [run_ipc]. by destruct (ipc_receive _ _). Qed.
Lemma refines_close e : refines 1 0 (on_ipc (destroy_channel e)) (sipc IrUnit (IoDestroy e)).
Proof. apply refines_ipc. intros i. cbn [run_ipc]. by destruct (destroy_channel _ _). Qed.

Lemma refines_region id t : refines 0 0 (on_tiers (tier_register id t)) (stiers answer_unit (TRegister id t)).
Proof. apply refines_tiers; [done|]. intros i. cbn [tier_exec]. by destruct (tier_register _ _ _). Qed.
Lemma refines_access id : refines 0 0 (on_tiers (tier_record_access id)) (stiers answer_unit (TAccess id)).
Proof. apply refines_tiers; [done|]. intros i. cbn [tier_exec]. by destruct (tier_record_access _ _). Qed.
Lemma refines_cut id c : is_u16 c → refines 0 0 (on_tiers (update_cut_value id c)) (stiers answer_unit (TCut id c)).
Proof. intros Hc. apply refines_tiers; [done|]. intros i. cbn [tier_exec]. by destruct (update_cut_value _ _ _). Qed.
Lemma refines_promote id t : refines 0 0 (on_tiers (promote id t)) (stiers answer_tier (TPromote id t)).
Proof. apply refines_tiers; [done|]. intros i. cbn [tier_exec]. by destruct (promote _ _ _). Qed.
Lemma refines_demote id t : refines 0 0 (on_tiers (demote id t)) (stiers answer_tier (TDemote id t)).
Proof. apply refines_tiers; [done|]. intros i. cbn [tier_exec]. by destruct (demote _ _ _). Qed.
Lemma refines_tier_epoch :
  refines 0 0 (kmodify kn_tier_manager set_tier_manager advance_tier_epoch) (stiers answer_unit TEpoch).
Proof. by apply refines_tiers_modify. Qed.
Lemma refines_decay :
  refines 0 0 (kmodify kn_tier_manager set_tier_manager (decay_recency RECENCY_DECAY_PER_EPOCH))
    (stiers answer_unit (TDecay RECENCY_DECAY_PER_EPOCH)).
Proof. by apply refines_tiers_modify. Qed.

Lemma refines_device info : refines 1 0 (on_devices (register_device info)) (sdevices (register_device info)).
Proof. apply refines_devices. by exists (DoRegister info). Qed.
Lemma refines_grant d p n e c : refines 1 0 (on_devices (grant_lease d p n e c)) (sdevices (grant_lease d p n e c)).
Proof. apply refines_devices. by exists (DoGrant d p n e c). Qed.
Lemma refines_revoke l : refines 1 0 (on_devices (revoke_lease l)) (sdevices (revoke_lease l)).
Proof. apply refines_devices. by exists (DoRevoke l). Qed.

(** Walk down a program: one lemma per call. *)
Ltac refine_call :=
  first
    [ apply refines_ret | apply refines_require | rewrite merge_test; apply refines_require | apply refines_booted | apply refines_get_partition
    | apply refines_append | apply refines_create | apply refines_remove | apply refines_sync
    | apply refines_tick_engine | apply refines_tick_sched | apply refines_enqueue | apply refines_switch
    | apply refines_set_degraded
    | apply refines_ignore; first [apply refines_add | apply refines_forget | apply refines_traffic; done]
    | apply refines_score | apply refines_pressure | apply refines_epoch | apply refines_create_channel
    | apply refines_send | apply refines_receive | apply refines_close | apply refines_promote | apply refines_demote
    | apply refines_tier_epoch | apply refines_decay | apply refines_region | apply refines_access
    | apply refines_device | apply refines_grant | apply refines_revoke ].
Ltac refine_walk :=
  lazymatch goal with
  | |- refines _ _ (kbind _ _) (sbind _ _) => eapply refines_seq; [refine_walk|intros ?; refine_walk| |]
  | |- _ => try refine_call
  end.
Ltac refine_op := eapply refines_weaken; [refine_walk|..]; try lia.

Lemma create_refines config : refines 5 0 (create_partition config) (s_create config).
Proof. unfold create_partition, s_create, s_new_partition. refine_op. Qed.

Lemma destroy_refines id : refines 5 0 (destroy_partition id) (s_destroy id).
Proof. unfold destroy_partition, s_destroy. refine_op. Qed.

Lemma split_refines id : refines 5 0 (execute_split id) (s_split id).
Proof. unfold execute_split, s_split, s_new_partition. refine_op. Qed.

Lemma merge_refines a b : refines 5 0 (execute_merge a b) (s_merge a b).
Proof. unfold execute_merge, s_merge. refine_op. Qed.

Lemma send_refines e msg c : refines 5 1 (kernel_ipc_send e msg c) (s_send e msg c).
Proof. unfold kernel_ipc_send, s_send. refine_op. Qed.

Lemma tick_refines : refines 5 0 kernel_tick s_tick.
Proof. unfold kernel_tick, s_tick. refine_op. Qed.

Lemma record_refines a b w : 0 < w ≤ i64_max → refines 5 w (kernel_record_communication a b w) (s_record_communication a b w).
Proof.
  intros Hw. unfold kernel_record_communication, s_record_communication.
  eapply refines_weaken; [apply (refines_seq 0 0 5 w); [apply refines_booted|intros _|done|lia]|lia|lia].
  intros k s n0 w0 ?? Hr Hroom.
  destruct (refines_traffic a b w Hw k s n0 w0) as (r & k' & s' & Hk & Hs & ? & ?); [done..|eapply room_less; [done|lia..]|].
  unfold on_coherence, kcall_fuel in *. destruct (record_communication a b w (kn_coherence k)) as [[r0 e]|]; [|done].
  cbn in Hk |- *. injection Hk as -> <-. exists (map_err (λ _, InternalError) r). eexists _, s'.
  split; [done|]. split; [by exists r|]. done.
Qed.

Lemma apply_refines d : refines 5 0 (apply_decision d) (s_apply d).
Proof.
  destruct d as [|p pr|a b s]; cbn [apply_decision s_apply].
  - by eapply refines_weaken; [apply refines_ret|..].
  - by eapply refines_weaken; [eapply refines_seq; [apply split_refines|intros; apply refines_ret|..]|..].
  - by eapply refines_weaken; [eapply refines_seq; [apply merge_refines|intros; apply refines_ret|..]|..].
Qed.

Lemma checked_create_refines config t : refines 6 0 (checked_create_partition config t) (s_checked_create config t).
Proof.
  unfold checked_create_partition, s_checked_create.
  eapply refines_weaken; [eapply refines_seq; [apply refines_booted|intros _; apply refines_gate, create_refines; done|..]|..];
    done.
Qed.

Lemma checked_send_refines e m t : refines 6 1 (checked_ipc_send e m t) (s_checked_send e m t).
Proof.
  unfold checked_ipc_send, s_checked_send.
  eapply refines_weaken; [eapply refines_seq; [apply refines_booted|intros _; apply refines_gate, send_refines; done|..]|..];
    done.
Qed.

(** What the arguments' types guarantee, and no empty communication. *)
Definition kernel_op_ok (op : KernelOp) : Prop :=
  match op with
  | KRecord _ _ w => 0 < w ≤ i64_max
  | KCut _ c => is_u16 c
  | _ => True
  end.
Definition op_weight (op : KernelOp) : Z :=
  match op with KRecord _ _ w => w | KSend _ _ _ | KCheckedSend _ _ _ => 1 | _ => 0 end.

Lemma kernel_exec_refines op : kernel_op_ok op → refines 7 (op_weight op) (kernel_exec op) (spec_exec op).
Proof.
  intros Hok. destruct op; cbn [kernel_exec spec_exec op_weight];
    lazymatch goal with
    | |- refines _ _ (kmap _ (cap_manager_mut _)) _ => idtac
    | |- _ => apply refines_map
    end.
  - apply refines_boot.
  - by eapply refines_weaken; [apply tick_refines|..].
  - by eapply refines_weaken; [by apply record_refines|..].
  - by eapply refines_weaken; [apply create_refines|..].
  - by eapply refines_weaken; [apply destroy_refines|..].
  - unfold enqueue_partition, s_enqueue. refine_op.
  - by eapply refines_weaken; [apply refines_switch|..].
  - by eapply refines_weaken; [apply split_refines|..].
  - by eapply refines_weaken; [apply merge_refines|..].
  - by eapply refines_weaken; [apply apply_refines|..].
  - unfold kernel_create_channel, s_create_channel. refine_op.
  - by eapply refines_weaken; [apply send_refines|..].
  - unfold kernel_ipc_receive, s_receive. refine_op.
  - unfold kernel_destroy_channel, s_close. refine_op.
  - by eapply refines_weaken; [apply refines_region|..].
  - by eapply refines_weaken; [apply refines_access|..].
  - by eapply refines_weaken; [by apply refines_cut|..].
  - unfold promote_region, s_promote. refine_op.
  - unfold demote_region, s_demote. refine_op.
  - by eapply refines_weaken; [apply refines_device|..].
  - unfold grant_device_lease, s_grant_lease. refine_op.
  - unfold revoke_device_lease, s_revoke_lease. refine_op.
  - by eapply refines_weaken; [apply checked_create_refines|..].
  - by eapply refines_weaken; [apply checked_send_refines|..].
  - unfold enter_degraded_mode, s_degrade. refine_op.
  - unfold exit_degraded_mode, s_degrade. refine_op.
  - intros k a n0 w0 ?? Hr Hroom. unfold kmap, kbind, cap_manager_mut, kcall.
    destruct (m (kn_cap_manager k)) as [[[]|e] c] eqn:E; eexists _, _, a; (split; [done|]);
      (split; [split; [done|]; exists (kn_cap_manager k); by rewrite E|]);
      destruct Hr, Hroom; split; split; cbn; try done; lia.
Qed.
End refinement.
