(* ===== verification/KernelHistory.v ===== *)
(** Histories of the kernel: every call returns and agrees with the abstract
    kernel, the log is exactly the trail the calls should leave, the subsystems'
    views of the partitions agree, and what the code's merge does. *)

From stdpp Require Import base numbers list option gmap.
From Stdlib Require Import ZArith Lia.
From S2P Require Import Prelude.
From S2P Require Import SlotMap.
From S2P Require Import Types.
From S2P Require Import CapManager.
From S2P Require Import WitnessLog.
From S2P Require Import Ipc.
From S2P Require Import Device.
From S2P Require Import Partition.
From S2P Require Import Sched.
From S2P Require Import Region.
From S2P Require Import TierManager.
From S2P Require Import Security.
From S2P Require Import CoherenceGraph.
From S2P Require Import Coherence.
From S2P Require Import MinCut.
From S2P Require Import Boot.
From S2P Require Import Kernel.
From S2P Require Import KernelSpec.

Local Open Scope Z_scope.
Local Open Scope kernel_scope.

#[local] Existing Instance BuiltinCoherence.

(* ------------------------------------------------------------------ *)
(** ** Histories and what they leave in the log *)

Fixpoint kernel_run `{!Bitflags, !ChainHasher} (ops : list KernelOp) (k : Kernel)
    : option (list (RvmResult KernelValue) * Kernel) :=
  match ops with
  | [] => Some ([], k)
  | op :: ops =>
      '(r, k) ← kernel_exec op k;
      '(rs, k) ← kernel_run ops k;
      Some (r :: rs, k)
  end.

(** The abstract kernel gives the answers [rs] and ends in [a']. *)
Fixpoint spec_run `{!Bitflags} (ops : list KernelOp) (a : AbsKernel) (rs : list (RvmResult KernelValue))
    (a' : AbsKernel) : Prop :=
  match ops, rs with
  | [], [] => a' = a
  | op :: ops, r :: rs => ∃ a1, spec_exec op a r a1 ∧ spec_run ops a1 rs a'
  | _, _ => False
  end.

(** The records a call owes the log, from the call and its answer alone. *)
Definition witnessed `{!Bitflags} (booted : bool) (op : KernelOp) (r : RvmResult KernelValue) : list WitnessRecord :=
  match op, r with
  | KBoot, Ok _ => boot_record <$> boot_phases
  | KTick, Ok (VEpoch e) =>
      [kernel_record AkSchedulerEpoch 0 0 (le_bytes 2 (es_switch_count (er_summary e)))]
  | KCreate _, Ok (VNumber id) => [create_record id]
  | KDestroy id, Ok _ => [kernel_record AkPartitionDestroy HYPERVISOR id []]
  | KSplit s, Ok (VNumber child) => [split_record s child]
  | KApply (SplitRecommended s _), Ok (VApplied (ArSplit _ child)) => [split_record s child]
  | KMerge x y, Ok _ | KApply (MergeRecommended x y _), Ok _ => [merge_record x y]
  | KChannel x y, Ok _ => [kernel_record AkCommEdgeCreate x y []]
  | KSend _ m _, Ok _ => [send_record m]
  | KClose e, Ok _ => [kernel_record AkCommEdgeDestroy 0 0 (le_bytes 8 e)]
  | KPromote id t, Ok (VTier old) => [kernel_record AkRegionPromote 0 id [tier_index old; tier_index t]]
  | KDemote id t, Ok (VTier old) => [kernel_record AkRegionDemote 0 id [tier_index old; tier_index t]]
  | KGrant d p _ _, Ok _ => [kernel_record AkDeviceLeaseGrant p d []]
  | KRevoke l, Ok _ => [kernel_record AkDeviceLeaseRevoke 0 0 (le_bytes 8 l)]
  | KCheckedCreate _ t, _ =>
      if booted then gate_trace (create_request t) :: match r with Ok (VNumber id) => [create_record id] | _ => [] end
      else []
  | KCheckedSend _ m t, _ =>
      if booted then
        gate_trace (send_request t (im_receiver m)) :: match r with Ok _ => [send_record m] | _ => [] end
      else []
  | KDegrade, Ok _ => [kernel_record AkDegradedModeEntered 0 0 []]
  | KRestore, Ok _ => [kernel_record AkDegradedModeExited 0 0 []]
  | _, _ => []
  end.

Definition boots (op : KernelOp) (r : RvmResult KernelValue) : bool :=
  match op, r with KBoot, Ok _ => true | _, _ => false end.

Fixpoint trail_of `{!Bitflags} (booted : bool) (ops : list KernelOp) (rs : list (RvmResult KernelValue))
    : list WitnessRecord :=
  match ops, rs with
  | op :: ops, r :: rs => witnessed booted op r ++ trail_of (booted || boots op r) ops rs
  | _, _ => []
  end.

(* ------------------------------------------------------------------ *)
(** ** Inversion of abstract programs *)

Ltac spec_inv :=
  repeat match goal with
  | H : sbind _ _ _ _ _ |- _ => destruct H as [(? & ? & H & ?)|(? & H & ?)]
  | H : sret _ _ _ _ |- _ => destruct H as [H ?]
  | H : sfail _ _ _ _ |- _ => destruct H as [H ?]
  | H : sget _ _ _ _ |- _ => destruct H as [H ?]
  | H : sexpect _ _ _ _ _ |- _ => destruct H as [H ?]
  | H : spartition _ _ _ _ |- _ => destruct H as [H ?]
  | H : srequire ?b _ _ _ _ |- _ => let E := fresh "Hb" in destruct b eqn:E; destruct H as [H ?]
  | H : signore _ _ _ _ |- _ => destruct H as (H & ? & ?)
  | H : svoid _ _ _ _ |- _ => destruct H as (? & H & ?)
  | H : smodify _ _ _ _ |- _ => destruct H as [H ?]
  | H : srecord _ _ _ _ |- _ => destruct H as [H ?]
  | H : sbooted _ _ _ |- _ => destruct H as [H ?]
  | H : smap _ _ _ _ _ |- _ => unfold smap in H
  | H : s_gate _ _ _ _ |- _ => unfold s_gate in H
  | H : s_new_partition _ _ _ _ _ |- _ => unfold s_new_partition in H
  end; simplify_eq/=.
Ltac spec_calls :=
  repeat match goal with
  | H : sparts ?op ?a _ _ |- _ =>
      let r := fresh "r" in let p := fresh "p" in let E := fresh "Hparts" in
      unfold sparts in H; destruct (ap_exec op (ak_parts a)) as [r p] eqn:E
  | H : straffic _ _ _ _ |- _ => destruct H as [? ?]
  | H : sdecide _ _ _ _ |- _ => destruct H as (? & ? & ? & ?)
  | H : sipc _ _ _ _ _ |- _ => destruct H as (? & ? & ?)
  | H : stiers _ _ _ _ _ |- _ => destruct H as (? & ? & ?)
  | H : sdevices _ _ _ _ |- _ => destruct H as (? & ? & ?)
  | H : ssched _ _ _ _ |- _ => destruct H as (? & ? & ? & ? & ?)
  end; simplify_eq/=.

Section histories.
Context {BF : Bitflags} {CH : ChainHasher}.

(** *** Every call leaves exactly the records it owes *)

Ltac spec_booted :=
  repeat match goal with
  | H : context [if ak_booted ?a then _ else _] |- _ => let E := fresh "Ebooted" in destruct (ak_booted a) eqn:E
  end; simplify_eq/=.

Lemma spec_exec_trail op a r a' :
  spec_exec op a r a' →
  ak_trail a' = ak_trail a ++ witnessed (ak_booted a) op r ∧ ak_booted a' = ak_booted a || boots op r.
Proof.
  intros Hs. destruct op as [| | | | | | | | |d| | | | | | | | | | | | | | | | |]; cbn [spec_exec] in Hs;
    try (destruct d as [|p pr|x y sc]);
    unfold smap, s_apply, s_checked_create, s_checked_send, s_create, s_split, s_merge, s_destroy, s_tick, s_record_communication,
      s_enqueue, s_create_channel, s_send, s_receive, s_close, s_promote, s_demote, s_grant_lease,
      s_revoke_lease, s_degrade, gate_trace in *; spec_inv; spec_calls; spec_booted;
    try (rewrite ?app_nil_r, ?orb_false_r; done).
  all: try by (split; rewrite <- ?app_assoc, ?orb_false_r).
  all: try (unfold s_boot in *; spec_booted).
  all: repeat match goal with
    | H : ∃ _, _ |- _ => destruct H as (? & H)
    | H : _ ∧ _ |- _ => destruct H as [? H]
    end; spec_inv; spec_calls; spec_booted; by rewrite ?app_nil_r, ?orb_false_r.
Qed.

Lemma spec_run_trail ops a rs a' :
  spec_run ops a rs a' → ak_trail a' = ak_trail a ++ trail_of (ak_booted a) ops rs.
Proof.
  revert a rs. induction ops as [|op ops IH]; intros a [|r rs] Hs; cbn in Hs |- *; try done.
  - by rewrite Hs, app_nil_r.
  - destruct Hs as (a1 & H1 & H2). apply spec_exec_trail in H1 as [Ht Hb].
    rewrite (IH a1 rs H2), Ht, Hb. by rewrite <- app_assoc.
Qed.

(** *** The subsystems agree on the partitions *)

(** The engine knows only live partitions; identifiers match; nothing but the
    kernel's own calls changes a partition, so all are in the created state. *)
Record kernel_wf (a : AbsKernel) : Prop := {
  kw_known p : is_Some (mo_cached (ak_traffic a) !! p) → is_Some (ap_map (ak_parts a) !! p);
  kw_parts id p : ap_map (ak_parts a) !! id = Some p → pt_id p = id ∧ pt_state p = Created;
}.

Lemma model_exec_cached op m p :
  is_Some (mo_cached (model_exec op m).2 !! p) ↔
  match op with
  | EAdd q => is_Some (mo_cached m !! p) ∨ (p = q ∧ (model_exec op m).1 = Some (Ok tt))
  | ERemove q => is_Some (mo_cached m !! p) ∧ p ≠ q
  | _ => is_Some (mo_cached m !! p)
  end.
Proof.
  destruct op as [q|q|x y w|load]; cbn [model_exec].
  - repeat case_decide; repeat case_match; cbn; try naive_solver.
    rewrite lookup_insert_is_Some'. naive_solver.
  - case_decide; cbn; [rewrite lookup_delete_is_Some; naive_solver|].
    split; [|naive_solver]. intros Hp. split; [done|]. by intros ->.
  - repeat case_match; done.
  - unfold model_tick. destruct (adaptive_step _ _) as [[] ad]; cbn; [|done].
    rewrite map_lookup_imap. destruct (mo_cached m !! p); cbn; split; intros [? ?]; by eexists.
Qed.

Lemma wf_engine op a : kernel_wf a →
  (match op with EAdd q => is_Some (ap_map (ak_parts a) !! q) | _ => True end) →
  kernel_wf (with_traffic (model_exec op (ak_traffic a)).2 a).
Proof.
  intros [Hk Hp] Hop. split; cbn; [|done]. intros p Hc. apply model_exec_cached in Hc.
  destruct op; naive_solver.
Qed.

Lemma wf_create v epoch a r p : kernel_wf a →
  ap_exec (PmCreate Agent v epoch) (ak_parts a) = (r, p) →
  kernel_wf (with_parts p a) ∧ (∀ id, r = Ok id → is_Some (ap_map p !! id)).
Proof.
  intros [Hk Hp] He. cbn in He. case_decide; simplify_eq.
  - split; [split; cbn|].
    + intros q Hq. rewrite lookup_insert_is_Some'. right. by apply Hk.
    + intros id q [(<- & <-)|[_ Hq]]%lookup_insert_Some; [done|by apply Hp].
    + intros id [= <-]. cbn. rewrite lookup_insert_is_Some'. by left.
  - split; [by split|done].
Qed.

Lemma wf_sync a : kernel_wf a → kernel_wf (abs_sync a).
Proof.
  intros [Hk Hp]. split; cbn.
  - intros q Hq. apply Hk in Hq. rewrite map_lookup_imap. destruct Hq as [p Hq]. rewrite Hq. by eexists.
  - intros id p Hq. rewrite map_lookup_imap in Hq. destruct (ap_map (ak_parts a) !! id) as [p0|] eqn:E; [|done].
    cbn in Hq. simplify_eq. cbn. by apply Hp.
Qed.

(** Programs that keep the invariant. *)
Definition keeps {A} (s : spec A) : Prop := ∀ a r a', kernel_wf a → s a r a' → kernel_wf a'.

Lemma keeps_bind {A B} (m : spec A) (f : A → spec B) : keeps m → (∀ x, keeps (f x)) → keeps (sbind m f).
Proof. intros Hm Hf a r a' Hw [(x & a1 & H1 & H2)|(e & H1 & _)]; [|by eapply Hm]. eapply Hf; [|done]. by eapply Hm. Qed.

Lemma keeps_new_partition v rec : keeps (s_new_partition v rec).
Proof.
  intros a r a' Hw Hs. spec_inv; spec_calls; (edestruct wf_create as [Hw' Hid]; [done..|]).
  - specialize (Hid _ eq_refl).
    pose proof (wf_engine (EAdd x1) (with_parts p a) Hw' Hid) as [Hk Hp]. by split.
  - by destruct Hw'.
Qed.

Lemma keeps_quiet {A} (s : spec A) :
  (∀ a r a', s a r a' → ak_parts a' = ak_parts a ∧ ak_traffic a' = ak_traffic a) → keeps s.
Proof. intros Hs a r a' [Hk Hp] Hr. destruct (Hs a r a' Hr) as [E1 E2]. split; by rewrite E1, ?E2. Qed.

Lemma keeps_ignore {A} (s : spec A) : keeps s → keeps (signore s).
Proof. intros Hs a r a' Hw (_ & r0 & Hr). by eapply Hs. Qed.

Lemma keeps_engine op : (match op with EAdd _ => False | _ => True end) → keeps (straffic op).
Proof. intros Hop a r a' Hw [_ ->]. apply wf_engine; [done|by destruct op]. Qed.

Lemma keeps_decide load : keeps (sdecide load).
Proof. intros a r a' Hw (d & _ & _ & ->). by apply (wf_engine (ETick load)). Qed.

Lemma keeps_sync : keeps (smodify abs_sync).
Proof. intros a r a' Hw [_ ->]. by apply wf_sync. Qed.

Lemma keeps_destroy id : keeps (s_destroy id).
Proof.
  unfold s_destroy. intros a r a' [Hk Hp] Hs.
  assert (∀ q, is_Some (mo_cached (model_exec (ERemove id) (ak_traffic a)).2 !! q) →
    is_Some (ap_map (ak_parts a) !! q) ∧ q ≠ id) as Hk'.
  { intros q [Hq Hne]%model_exec_cached. split; [by apply Hk|done]. }
  spec_inv; spec_calls; try by split.
  all: destruct (ap_map (ak_parts a) !! id) eqn:Hid; simplify_eq/=.
  split; cbn.
  - intros q [Hq Hne]%Hk'. rewrite lookup_delete_is_Some. by split.
  - intros q p [_ Hq]%lookup_delete_Some. by apply Hp.
Qed.

Ltac keeps_walk :=
  lazymatch goal with
  | |- keeps (sbind _ _) => apply keeps_bind; [keeps_walk|intros ?; keeps_walk]
  | |- keeps (signore _) => apply keeps_ignore; keeps_walk
  | |- keeps (straffic _) => by apply keeps_engine
  | |- keeps (sdecide _) => apply keeps_decide
  | |- keeps (smodify abs_sync) => apply keeps_sync
  | |- keeps (s_new_partition _ _) => apply keeps_new_partition
  | |- _ => apply keeps_quiet; intros ? ? ? ?; spec_inv; spec_calls; spec_booted; try done
  end.

Lemma keeps_split id : keeps (s_split id).
Proof. unfold s_split. keeps_walk. Qed.
Lemma keeps_merge x y : keeps (s_merge x y).
Proof. unfold s_merge. keeps_walk. Qed.

Lemma spec_exec_wf op : keeps (spec_exec op).
Proof.
  destruct op as [| | | | | | | | |d| | | | | | | | | | | | | | | | |]; cbn [spec_exec];
    try (unfold smap; apply keeps_bind; [|intros ?; keeps_walk]).
  - apply keeps_quiet. intros b r b'. unfold s_boot. destruct (ak_booted b); by intros [_ ->].
  - unfold s_tick. keeps_walk.
  - intros a r a' Hw [(u & b & [_ ->] & r0 & Hr & _)|(e & [_ ->] & _)]; [|done].
    by eapply (keeps_engine (ERecord from to weight)).
  - unfold s_create. keeps_walk.
  - apply keeps_destroy.
  - unfold s_enqueue. keeps_walk.
  - keeps_walk.
  - apply keeps_split.
  - apply keeps_merge.
  - destruct d; cbn; [keeps_walk|apply keeps_bind; [apply keeps_split|intros ?; keeps_walk]
      |apply keeps_bind; [apply keeps_merge|intros ?; keeps_walk]].
  - unfold s_create_channel. keeps_walk.
  - unfold s_send. keeps_walk.
  - unfold s_receive. keeps_walk.
  - unfold s_close. keeps_walk.
  - keeps_walk.
  - keeps_walk.
  - keeps_walk.
  - unfold s_promote. keeps_walk.
  - unfold s_demote. keeps_walk.
  - keeps_walk.
  - unfold s_grant_lease. keeps_walk.
  - unfold s_revoke_lease. keeps_walk.
  - unfold s_checked_create, s_create, s_gate. keeps_walk.
  - unfold s_checked_send, s_send, s_gate. keeps_walk.
  - unfold s_degrade. keeps_walk.
  - unfold s_degrade. keeps_walk.
  - intros a r a' Hw [-> _]. done.
Qed.

(** *** Runs *)

Lemma kernel_new_repr config : kernel_repr (kernel_new config) abs_kernel_new.
Proof.
  destruct (sim_new (bridge_new DEFAULT_MINCUT_BUDGET)) as [Hs _].
  destruct (tier_new_inv DEFAULT_MAX_TIER_REGIONS TIER_THRESHOLDS_DEFAULT) as [Ht Hv].
  split; cbn -[replicate tier_with_thresholds log_new device_manager_new].
  - apply partition_manager_new_repr.
  - exact Hs.
  - done.
  - apply ipc_new_repr.
  - exact Ht.
  - unfold tier_abs, tier_new. by rewrite Hv.
  - apply length_replicate.
  - done.
  - split; [by apply device_manager_new_inv|done|]. unfold device_manager_new. cbn [dm_leases].
    by rewrite length_replicate.
  - done.
  - apply sched_inv_new.
  - done.
  - apply tracker_new_at.
  - done.
  - apply log_new_repr. unfold DEFAULT_WITNESS_CAPACITY. lia.
Qed.

Definition run_weight (ops : list KernelOp) : Z := foldr (λ op s, op_weight op + s) 0 ops.

Lemma kernel_run_spec ops k a n0 w0 :
  0 ≤ n0 → 0 ≤ w0 → Forall kernel_op_ok ops → kernel_repr k a →
  room (7 * Z.of_nat (length ops) + n0) (run_weight ops + w0) k a →
  ∃ rs k' a', kernel_run ops k = Some (rs, k') ∧ spec_run ops a rs a' ∧ kernel_repr k' a' ∧ room n0 w0 k' a'.
Proof.
  intros Hn Hw. assert (∀ op, kernel_op_ok op → 0 ≤ op_weight op) as Hpos.
  { intros op Hop. destruct op; cbn in *; lia. }
  assert (∀ ops, Forall kernel_op_ok ops → 0 ≤ run_weight ops) as Hrun.
  { induction 1 as [|op l Hop _ IH]; cbn; [done|]. specialize (Hpos op Hop). unfold run_weight in IH. lia. }
  revert k a. induction ops as [|op ops IH]; intros k a Hok Hr Hroom; [by exists [], k, a|].
  apply Forall_cons in Hok as [Hop Hops]. specialize (Hrun ops Hops).
  destruct (kernel_exec_refines op Hop k a (7 * Z.of_nat (length ops) + n0) (run_weight ops + w0))
    as (r & k1 & a1 & Hk & Hs & Hr1 & Hroom1); [lia..|done| |].
  { cbn [length run_weight foldr] in Hroom. eapply room_less; [exact Hroom|lia|unfold run_weight; lia]. }
  destruct (IH k1 a1 Hops Hr1 Hroom1) as (rs & k' & a' & Hk' & Hs' & Hr' & Hroom').
  exists (r :: rs), k', a'. split_and!; [|by exists a1|done|done].
  cbn [kernel_run]. rewrite Hk. cbn [mbind option_bind]. by rewrite Hk'.
Qed.

Lemma spec_run_wf ops a rs a' : kernel_wf a → spec_run ops a rs a' → kernel_wf a'.
Proof.
  revert a rs. induction ops as [|op ops IH]; intros a [|r rs] Hw Hs; cbn in Hs; try done.
  - by subst.
  - destruct Hs as (a1 & H1 & H2). eapply IH; [|done]. by eapply spec_exec_wf.
Qed.

(** Histories short enough for every counter, light enough for the traffic. *)
Definition history_ok (ops : list KernelOp) : Prop :=
  Forall kernel_op_ok ops ∧ 7 * Z.of_nat (length ops) + 13 ≤ u32_max ∧ run_weight ops ≤ u64_max.

Lemma kernel_new_run config ops : history_ok ops →
  ∃ rs k a, kernel_run ops (kernel_new config) = Some (rs, k) ∧ spec_run ops abs_kernel_new rs a ∧
    kernel_repr k a ∧ room 12 0 k a ∧ kernel_wf a.
Proof.
  intros (Hok & Hlen & Hw). destruct (sim_new (bridge_new DEFAULT_MINCUT_BUDGET)) as [_ H0].
  destruct (kernel_run_spec ops (kernel_new config) abs_kernel_new 12 0) as (rs & k & a & Hk & Hs & Hr & Hroom);
    [done|done|done|apply kernel_new_repr| |].
  { unfold u32_max in Hlen. split; cbn -[device_manager_new]; unfold u32_max, u64_max in *; try lia.
    unfold device_manager_new. cbn [dm_next_lease_id]. lia. }
  exists rs, k, a. split_and!; try done. eapply spec_run_wf; [|done].
  split; cbn; [intros p []%lookup_empty_is_Some|]. intros id p Hp. by rewrite lookup_empty in Hp.
Qed.

(** C3: The kernel refines the product of its subsystems' specifications.  Take
    any history of calls from a fresh kernel that records communication with
    weights from 1 to [i64_max] only, whose weights together fit 64 bits, and
    that is short enough for the 32-bit counters ([history_ok]; a weight of
    zero is a call the kernel accepts, but misbehaves on: see
    [zero_weight_edge_not_found]).  Every call returns, answer by answer as the
    abstract kernel allows: partitions, channels and memory regions are finite
    maps, traffic is a map of pairs, the checks, the best-effort updates and
    their order are the code's.  The observable state is the abstract one, the
    coherence engine knows only live partitions, every partition answers to its
    own identifier and none ever leaves the created state. *)
Theorem kernel_refines_spec config ops :
  history_ok ops →
  ∃ rs k a, kernel_run ops (kernel_new config) = Some (rs, k) ∧ spec_run ops abs_kernel_new rs a ∧
    (∀ id, pm_get id (kn_partitions k) = ap_map (ak_parts a) !! id) ∧
    kernel_partition_count k = size (ap_map (ak_parts a)) ∧
    (∀ id, (coherence_score id k, coherence_pressure id k) = cached a id) ∧
    (∀ id, region_tier id k = ts_tier <$> at_map (ak_tiers a) !! id) ∧
    channel_count (kn_ipc k) = size (ai_channels (ak_ipc a)) ∧
    kn_booted k = ak_booted a ∧ kn_scheduler k = ak_sched a ∧ kn_devices k = ak_devices a ∧
    kernel_wf a.
Proof.
  intros Hok. destruct (kernel_new_run config ops Hok) as (rs & k & a & Hk & Hs & Hr & _ & Hwf).
  exists rs, k, a. split; [done|]. split; [done|]. split_and!; [| | | |apply (kr_ipc k a Hr)|apply Hr|apply Hr|apply Hr|done].
  - intros id. apply pm_get_map, Hr.
  - apply (pr_size _ _ (kr_parts k a Hr)).
  - intros id. by apply kernel_score.
  - intros id. unfold region_tier. rewrite tier_get_view by apply Hr. by rewrite <- (kr_tiers_abs k a Hr).
Qed.

(** C4: The audit trail is exact.  After any history from a fresh kernel within the
    bounds of [history_ok], the records emitted, in order, chained and
    numbered, are those [trail_of] computes from the calls and their answers alone;
    the log is a ring and holds the last of them.  A successful boot leaves seven
    records.  One record each, with the call's own actors and targets, is left by
    a successful tick, create, destroy, split, merge and application of
    either, by opening, closing and sending on a channel, by promoting and
    demoting a region, by granting and revoking a device lease, and by entering
    and leaving degraded mode.  A checked call on a booted kernel leaves the gate's
    decision, and the plain call's record when it succeeds.  A refused call leaves
    nothing else.  No record is left by receiving a message, registering or
    accessing a region, setting its cut value, registering a device,
    recording communication, enqueueing, switching and changing the capability
    manager, although they change the state. *)
Theorem kernel_audit_trail config ops :
  history_ok ops →
  ∃ rs k, kernel_run ops (kernel_new config) = Some (rs, k) ∧ length rs = length ops ∧
    log_repr (kn_witness_log k) (stamped_trail (trail_of false ops rs)) ∧
    witness_count k = Z.of_nat (length (trail_of false ops rs)).
Proof.
  intros Hok. destruct (kernel_new_run config ops Hok) as (rs & k & a & Hk & Hs & Hr & _).
  exists rs, k. split; [done|]. pose proof (spec_run_trail _ _ _ _ Hs) as Ht. cbn in Ht.
  pose proof (kr_log k a Hr) as Hl. rewrite Ht in Hl. split_and!; [|done|].
  - clear -Hs. revert Hs. generalize abs_kernel_new. revert rs.
    induction ops as [|op ops IH]; intros [|r rs] a0 Hs; cbn in *; try done.
    destruct Hs as (a1 & _ & Hs). by rewrite (IH rs a1 Hs).
  - unfold witness_count, total_emitted. rewrite (lr_total _ _ Hl). unfold stamped_trail. by rewrite length_imap.
Qed.

(* ------------------------------------------------------------------ *)
(** ** What a tick decides, and what the kernel does with it *)

(** The kernel's load estimate makes every tick recompute. *)
Lemma tick_recomputes m p :
  0 ≤ gap (mo_adaptive m) ≤ 3 →
  mo_cached (model_tick cpu_load_estimate m) !! p =
    (λ _, (model_score (mo_traffic (model_tick cpu_load_estimate m)) p,
           model_pressure (mo_traffic (model_tick cpu_load_estimate m)) p)) <$> mo_cached m !! p.
Proof.
  intros Hgap. unfold model_tick. pose proof (adaptive_step_spec cpu_load_estimate _ Hgap) as H.
  destruct (adaptive_step cpu_load_estimate (mo_adaptive m)) as [due ad]. destruct H as (-> & _).
  replace (load_interval cpu_load_estimate <=? gap (mo_adaptive m) + 1) with true; [rewrite orb_true_r|].
  - cbn. rewrite map_lookup_imap. by destruct (mo_cached m !! p).
  - symmetry. apply Z.leb_le. change (load_interval cpu_load_estimate) with 1. lia.
Qed.

(** The decay caps every pair's traffic, whatever it was. *)
Lemma tick_light m ab w : mo_traffic (model_tick cpu_load_estimate m) !! ab = Some w → w ≤ u64_max / 10000.
Proof.
  unfold model_tick. destruct (adaptive_step _ _) as [due ad]. cbn [mo_traffic].
  rewrite lookup_omap. destruct (mo_traffic m !! ab) as [w0|]; cbn; [|done].
  destruct (decayed EDGE_DECAY_BP w0 =? 0); [done|]. intros [= <-].
  unfold decayed. apply Z.div_le_mono; lia.
Qed.

#[local] Opaque model_tick tick_epoch.

Lemma tick_fresh a e a' :
  0 ≤ gap (mo_adaptive (ak_traffic a)) ≤ 3 → s_tick a (Ok e) a' →
  ak_booted a = true ∧ ak_booted a' = true ∧ decides (ak_traffic a') (er_decision e) ∧
  (∀ id, is_Some (mo_cached (ak_traffic a') !! id) → cached a' id =
     (model_score (mo_traffic (ak_traffic a')) id, model_pressure (mo_traffic (ak_traffic a')) id)) ∧
  (∀ id p, ap_map (ak_parts a') !! id = Some p → (pt_coherence p, pt_cut_pressure p) = cached a' id) ∧
  (∀ ab w, mo_traffic (ak_traffic a') !! ab = Some w → w ≤ u64_max / 10000).
Proof.
  intros Hgap Hs. unfold s_tick in Hs. spec_inv; spec_calls; spec_booted.
  split_and!; try done; cbn.
  - intros id Hid. unfold cached. cbn. rewrite tick_recomputes in Hid |- * by done.
    destruct (mo_cached (ak_traffic a) !! id); [done|by destruct Hid].
  - intros id p Hp. rewrite map_lookup_imap in Hp. destruct (ap_map (ak_parts a) !! id); simplify_eq/=.
    unfold cached. cbn. by destruct (default _ _).
  - intros ab w. apply tick_light.
Qed.

Lemma tick_parts a r a' id : s_tick a r a' →
  is_Some (ap_map (ak_parts a) !! id) ↔ is_Some (ap_map (ak_parts a') !! id).
Proof.
  unfold s_tick. intros Hs. spec_inv; spec_calls; spec_booted; try done.
  all: cbn; rewrite map_lookup_imap; destruct (ap_map (ak_parts a) !! id); cbn; split; intros [? ?]; by eexists.
Qed.

(** A booted kernel always ticks. *)
Lemma tick_succeeds k a : kernel_repr k a → room 12 0 k a → kn_booted k = true →
  ∃ e k' a', kernel_tick k = Some (Ok e, k') ∧ s_tick a (Ok e) a' ∧ kernel_repr k' a' ∧ room 7 0 k' a'.
Proof.
  intros Hr Hroom Hb. destruct (tick_refines k a 7 0) as (r & k' & a' & Hk & Hs & Hr' & Hroom'); [done..|].
  destruct r as [e|e]; [by exists e, k', a'|]. exfalso.
  rewrite (kr_booted k a Hr) in Hb. unfold s_tick in Hs. spec_inv; spec_calls; try (rewrite Hb in *); simplify_eq/=.
Qed.

(** Splitting a live partition fails only when the table is full. *)
Lemma split_outcome k a x p pr :
  kernel_repr k a → room 7 0 k a → kn_booted k = true → pm_get x (kn_partitions k) = Some p →
  ∃ r k2, apply_decision (SplitRecommended x pr) k = Some (r, k2) ∧
    if (kernel_partition_count k <? 256)%nat
    then ∃ child, r = Ok (ArSplit x child) ∧ pm_get child (kn_partitions k) = None ∧
           is_Some (pm_get child (kn_partitions k2))
    else r = Err PartitionLimitExceeded.
Proof.
  intros Hr Hroom Hb Hp. rewrite (kr_booted k a Hr) in Hb. rewrite (pm_get_map _ _ (kr_parts k a Hr)) in Hp.
  unfold kernel_partition_count. rewrite (pr_size _ _ (kr_parts k a Hr)).
  destruct (split_refines x k a 2 0) as (r & k2 & a2 & Hk & Hs & Hr2 & _); [done|done|done|done|].
  cbn [apply_decision]. unfold kbind at 1. rewrite Hk.
  assert (ap_map (ak_parts a) !! ap_next (ak_parts a) = None) as Hfresh.
  { destruct (ap_map (ak_parts a) !! ap_next (ak_parts a)) as [q|] eqn:Hq; [|done].
    apply (pr_some _ _ (kr_parts k a Hr)) in Hq as (i & Hi & Hid).
    pose proof (pr_fresh _ _ (kr_parts k a Hr) i q Hi) as Hlt. rewrite (pr_next _ _ (kr_parts k a Hr)) in Hlt. lia. }
  unfold s_split in Hs. spec_inv; spec_calls; rewrite ?Hb, ?Hp in *; simplify_eq/=; unfold MAX_PARTITIONS in *;
    eexists _, k2; (split; [done|]); destruct (decide (size (ap_map (ak_parts a)) < 256)%nat); simplify_eq.
  - rewrite (proj2 (Nat.ltb_lt _ _)) by done. eexists. split; [done|].
    rewrite (pm_get_map _ _ (kr_parts k a Hr)), (pm_get_map _ _ (kr_parts _ _ Hr2)). split; [done|].
    cbn. rewrite lookup_insert_eq. by eexists.
  - by rewrite (proj2 (Nat.ltb_ge _ _)) by lia.
Qed.

(** A tick never recommends a merge.  After any history, a tick of a booted
    kernel recomputes every score and returns either no action or a split: the
    exchange the merge test asks for always puts one of the two partitions over
    the split threshold, which is looked at first, and the decay keeps every sum
    from saturating.  Applying no action changes nothing; applying the split adds
    a partition, unless there are already 256. *)
Theorem tick_never_recommends_merge config ops :
  history_ok ops →
  ∃ rs k, kernel_run ops (kernel_new config) = Some (rs, k) ∧
    (kn_booted k = true →
     ∃ e k', kernel_tick k = Some (Ok e, k') ∧
       match er_decision e with
       | NoAction => apply_decision (er_decision e) k' = Some (Ok ArNoAction, k')
       | MergeRecommended _ _ _ => False
       | SplitRecommended x pr => 8000 < pr ∧ is_Some (pm_get x (kn_partitions k')) ∧
           ∃ r k2, apply_decision (er_decision e) k' = Some (r, k2) ∧
             if (kernel_partition_count k' <? 256)%nat
             then ∃ child, r = Ok (ArSplit x child) ∧ pm_get child (kn_partitions k') = None ∧
                    is_Some (pm_get child (kn_partitions k2))
             else r = Err PartitionLimitExceeded
       end).
Proof.
  intros Hok. destruct (kernel_new_run config ops Hok) as (rs & k & a & Hk & _ & Hr & Hroom & Hwf).
  exists rs, k. split; [done|]. intros Hb.
  destruct (tick_succeeds k a Hr Hroom Hb) as (e & k' & a' & Ht & Hs & Hr' & Hroom').
  exists e, k'. split; [done|].
  assert (kernel_wf a') as Hwf'.
  { apply (spec_exec_wf KTick a (Ok (VEpoch e)) a' Hwf). left. by exists e, a'. }
  destruct (tick_fresh a e a' (kr_gap k a Hr) Hs) as (_ & Hb' & Hd & Hfresh & _ & Hlight).
  rewrite <- (kr_booted k' a' Hr') in Hb'. pose proof (kr_traffic k' a' Hr') as Hsim.
  destruct (er_decision e) as [|x pr|x y s]; [done| |].
  - destruct Hd as (Hpr & (s & Hx) & _). split; [done|].
    destruct (kw_known a' Hwf' x (ex_intro _ _ Hx)) as [p Hp].
    rewrite <- (pm_get_map _ _ (kr_parts k' a' Hr')) in Hp. split; [by eexists|].
    by apply (split_outcome k' a' x p pr).
  - eapply (no_merge_recommended _ _ x y s Hsim); [| |exact Hd].
    + rewrite <- (si_traffic _ _ Hsim) in Hlight.
      apply (traffic_bound_wsum _ _ (si_graph _ _ Hsim) (si_one _ _ Hsim)) in Hlight; [|done].
      rewrite (si_edges _ _ Hsim) in Hlight.
      assert (2 * (Z.of_nat ENGINE_MAX_EDGES * (u64_max / 10000)) ≤ u64_max) by (vm_compute; discriminate). lia.
    + intros p Hp. specialize (Hfresh p Hp). unfold cached in Hfresh.
      destruct Hp as [c Hc]. rewrite Hc in Hfresh. cbn in Hfresh. rewrite Hc, Hfresh. by eexists.
Qed.

(** Every tick publishes current scores.  After any history, a tick of a
    booted kernel leaves in each live partition the score and the pressure the
    engine reports for it; for a partition the engine tracks these are the
    share of its internal traffic and of the rest, computed from the decayed
    traffic of this very tick, and for any other the defaults. *)
Theorem tick_publishes_scores config ops :
  history_ok ops →
  ∃ rs k, kernel_run ops (kernel_new config) = Some (rs, k) ∧
    (kn_booted k = true →
     ∃ e k' T, kernel_tick k = Some (Ok e, k') ∧
       T = traffic (ce_graph (kn_coherence k')) ∧
       (∀ id, is_Some (pm_get id (kn_partitions k)) ↔ is_Some (pm_get id (kn_partitions k'))) ∧
       ∀ id p, pm_get id (kn_partitions k') = Some p →
         pt_coherence p = coherence_score id k' ∧ pt_cut_pressure p = coherence_pressure id k' ∧
         (pt_coherence p, pt_cut_pressure p) =
           if is_some (find_node id (ce_graph (kn_coherence k')))
           then (model_score T id, model_pressure T id) else (10000, 0)).
Proof.
  intros Hok. destruct (kernel_new_run config ops Hok) as (rs & k & a & Hk & _ & Hr & Hroom & Hwf).
  exists rs, k. split; [done|]. intros Hb.
  destruct (tick_succeeds k a Hr Hroom Hb) as (e & k' & a' & Ht & Hs & Hr' & _).
  destruct (tick_fresh a e a' (kr_gap k a Hr) Hs) as (_ & _ & _ & Hfresh & Hparts & _).
  exists e, k', (traffic (ce_graph (kn_coherence k'))). split; [done|]. split; [done|].
  pose proof (kr_traffic k' a' Hr') as Hsim.
  split.
  - intros id. rewrite (pm_get_map _ _ (kr_parts k a Hr)), (pm_get_map _ _ (kr_parts k' a' Hr')).
    by apply (tick_parts a (Ok e)).
  - intros id p Hp. rewrite (pm_get_map _ _ (kr_parts k' a' Hr')) in Hp. specialize (Hparts id p Hp).
    pose proof (kernel_score k' a' id Hr') as Hsc. rewrite <- Hparts in Hsc. injection Hsc as -> ->.
    split; [done|]. split; [done|]. rewrite Hparts, (si_traffic _ _ Hsim).
    pose proof (si_ids _ _ Hsim id) as Hids.
    destruct (find_node id (ce_graph (kn_coherence k'))) as [i|] eqn:Hi; cbn [is_some].
    + apply Hfresh, Hids. exists i. by apply find_node_spec; [apply Hsim|].
    + unfold cached. destruct (mo_cached (ak_traffic a') !! id) eqn:Hc; [|done].
      destruct (proj1 Hids) as [i Hn]; [by eexists|]. by destruct (find_node_None _ _ (si_graph _ _ Hsim) Hi i).
Qed.

(** The security-checked calls are exactly the plain calls behind the gate.
    On a booted kernel, without a token of partition type that holds the write
    right, creating a partition or sending a message fails with
    [InsufficientCapability] and changes nothing but the log, which gains one
    [ProofRejected]; with one, the call is the plain call after one more record,
    and the message's own sender field serves as the caller. *)
Theorem checked_calls_gated {BL : BitflagsLaws} k token :
  kn_booted k = true →
  let authorised := tok_type token = CtPartition ∧ rights_held (tok_rights token) WRITE in
  let logged r := set_witness_log (log_append r (kn_witness_log k)).2 k in
  (∀ config,
     (authorised → checked_create_partition config token k =
        create_partition config (logged (gate_record AkPartitionCreate 1 (create_request token)))) ∧
     (¬ authorised → checked_create_partition config token k =
        Some (Err InsufficientCapability, logged (gate_record AkProofRejected 0 (create_request token))))) ∧
  (∀ edge msg,
     (authorised → checked_ipc_send edge msg token k =
        kernel_ipc_send edge msg (im_sender msg)
          (logged (gate_record AkIpcSend 1 (send_request token (im_receiver msg))))) ∧
     (¬ authorised → checked_ipc_send edge msg token k =
        Some (Err InsufficientCapability,
              logged (gate_record AkProofRejected 0 (send_request token (im_receiver msg)))))).
Proof.
  intros Hb authorised logged.
  assert (∀ A r (m : kprog A), gr_token r = token → gr_required_type r = CtPartition →
    gr_required_rights r = WRITE → gr_proof_commitment r = None → gr_require_p3 r = false →
    (authorised → (require_booted ;* on_gate r ;* m) k = m (logged (gate_record (gr_action r) 1 r))) ∧
    (¬ authorised → (require_booted ;* on_gate r ;* m) k =
       Some (Err InsufficientCapability, logged (gate_record AkProofRejected 0 r)))) as Hgate.
  { intros A r m Ht Hty Hri Hc Hp.
    assert (gate_decide verify_p3_chain r =
      if bool_decide (tok_type token ≠ CtPartition) then Err SeCapabilityTypeMismatch
      else if negb (has_rights token WRITE) then Err SeInsufficientRights else Ok 1) as Hd.
    { unfold gate_decide. by rewrite Ht, Hty, Hri, Hc, Hp. }
    unfold kbind, require_booted, on_gate, kcall. rewrite Hb. cbn [negb].
    rewrite check_and_execute_decide, Hd. unfold authorised, rights_held. rewrite <- contains_spec.
    unfold has_rights. case_bool_decide as Hty'; cbn; [naive_solver|].
    destruct (contains (tok_rights token) WRITE); cbn; naive_solver. }
  split; intros *; by apply Hgate.
Qed.

(** A guest's send cannot leave its partition's name or its channel.  A
    host call succeeds only with an active channel, for a message to another
    partition than the guest's and the hypervisor, of a length that fits 16
    bits; the message then waits at the end of that channel, whose source is
    the guest's partition, with the guest as its sender and the context's
    sequence number, and the call returns the length.  A refused call leaves
    every channel as it was. *)
Theorem guest_send_confined cap n c s target length :
  ipc_repr cap (2 ^ n) (hc_ipc c) s → 1 ≤ ip_next_edge_id (hc_ipc c) < u64_max → 0 ≤ target → 0 ≤ length →
  let '(r, c') := host_send target length c in
  hc_partition c' = hc_partition c ∧ hc_active_channel c' = hc_active_channel c ∧
  match r with
  | Ok l => l = length ∧ 0 < target ≤ u32_max ∧ target ≠ hc_partition c ∧ length ≤ u16_max ∧
      hc_next_sequence c' = wrap64 (hc_next_sequence c + 1) ∧
      ∃ e ch, hc_active_channel c = Some e ∧ ai_channels s !! e = Some ch ∧
        ac_source ch = hc_partition c ∧ (List.length (ac_msgs ch) < 2 ^ n)%nat ∧
        let msg := mkIpcMessage (hc_partition c) target e length 0 (hc_next_sequence c) 0 in
        ipc_repr cap (2 ^ n) (hc_ipc c') (mkAbsIpc
          (<[e := mkAbsChannel (ac_source ch) (ac_dest ch) (ac_msgs ch ++ [msg]) (sat_add u64_max (ac_weight ch) 1)]>
             (ai_channels s)) (ai_next s))
  | Err _ => ipc_repr cap (2 ^ n) (hc_ipc c') s
  end.
Proof.
  intros Hr Hn Htgt Hlen. unfold host_send, pbind, pgets, plift, pfail. cbn [fst snd].
  destruct (hc_active_channel c) as [e|] eqn:He; cbn; [|done].
  destruct (u32_max <? target) eqn:E1; [done|]. rewrite wrap32_id by (unfold is_u32; split_bool; lia).
  destruct (target =? 0) eqn:E2; [done|]. destruct (target =? hc_partition c) eqn:E3; [done|].
  destruct (u16_max <? length) eqn:E4; [done|]. split_bool.
  unfold pmodify, pzoom, pret. cbn [hc_ipc bump_sequence].
  set (msg := host_message e target length (hc_next_sequence c) (hc_partition c)).
  destruct (ipc_op_simulates cap n (IoSend e msg (hc_partition c)) _ _ Hr Hn) as [H1 H2].
  cbn [run_ipc] in H1, H2. destruct (ipc_send e msg (hc_partition c) (hc_ipc c)) as [r i]. cbn [fst snd] in H1, H2.
  cbn [run_abs] in H1, H2. change (im_sender msg) with (hc_partition c) in H1, H2.
  rewrite Z.eqb_refl in H1, H2. cbn [negb] in H1, H2. unfold abs_update, abs_push in H1, H2.
  assert (msg = mkIpcMessage (hc_partition c) target e length 0 (hc_next_sequence c) 0) as Hmsg.
  { unfold msg, host_message. by rewrite wrap16_id by (unfold is_u16; lia). }
  destruct (ai_channels s !! e) as [ch|] eqn:Hch; cbn in H1, H2; [|by simplify_eq].
  destruct (negb (ac_source ch =? hc_partition c)) eqn:E5; cbn in H1, H2; [by simplify_eq|].
  destruct (2 ^ n <=? List.length (ac_msgs ch))%nat eqn:E6; cbn in H1, H2; [by simplify_eq|].
  simplify_eq. split_bool. cbn. split_and!; try done; try lia.
  exists e, ch. rewrite <- Hmsg. split_and!; done.
Qed.
End histories.

(* ------------------------------------------------------------------ *)
(** ** Runs *)

#[local] Existing Instance fnv_hasher.

Definition kernel_sample_msg (receiver : PartitionId) : IpcMessage := mkIpcMessage 1 receiver 1 8 0 0 0.
Definition kernel_sample_ops : list KernelOp :=
  [KCreate partition_config_default; KBoot; KBoot; KCreate partition_config_default;
   KCreate partition_config_default; KCreate partition_config_default; KChannel 1 2;
   KSend 1 (kernel_sample_msg 2) 1; KSend 1 (kernel_sample_msg 2) 2; KRecord 1 3 100; KTick].
Definition kernel_sample_answers : list (RvmResult KernelValue) :=
  [Err InvalidPartitionState; Ok VUnit; Err Unsupported; Ok (VNumber 1); Ok (VNumber 2); Ok (VNumber 3);
   Ok (VNumber 1); Ok VUnit; Err InsufficientCapability; Ok VUnit;
   Ok (VEpoch (mkEpochResult (mkEpochSummary 0 0 0) (SplitRecommended 1 10000)))].

Lemma history_check ops :
  forallb (λ op, match op with KRecord _ _ w => (0 <? w) && (w <=? i64_max) | KCut _ _ => false | _ => true end) ops &&
  (7 * Z.of_nat (length ops) + 13 <=? u32_max) && (run_weight ops <=? u64_max) = true → history_ok ops.
Proof.
  intros [[H1 H2]%andb_prop H3]%andb_prop. split_bool. split; [|done].
  apply Forall_forall. intros op Hop. apply list_elem_of_In in Hop. rewrite forallb_forall in H1.
  specialize (H1 op Hop). destruct op; cbn in *; try done. split_bool. lia.
Qed.

Lemma kernel_refines_spec_witness :
  history_ok kernel_sample_ops ∧
  ∃ a, spec_run kernel_sample_ops abs_kernel_new kernel_sample_answers a ∧ size (ap_map (ak_parts a)) = 3%nat.
Proof.
  assert (history_ok kernel_sample_ops) as Hok by (apply history_check; vm_compute; reflexivity).
  split; [exact Hok|].
  destruct (kernel_refines_spec kernel_config_default kernel_sample_ops Hok) as (rs & k & a & Hk & Hs & _ & Hn & _).
  assert (option_map (λ '(rs, k), (rs, kernel_partition_count k))
    (kernel_run kernel_sample_ops (kernel_new kernel_config_default)) = Some (kernel_sample_answers, 3%nat)) as Hc
    by (vm_compute; reflexivity).
  rewrite Hk in Hc. cbn [option_map] in Hc. injection Hc as -> Hcount.
  exists a. split; [exact Hs|]. rewrite <- Hn. exact Hcount.
Defined.

Lemma kernel_audit_trail_witness :
  history_ok kernel_sample_ops ∧
  (wr_action_kind <$> trail_of false kernel_sample_ops kernel_sample_answers) =
    [128; 128; 128; 128; 128; 128; 129; 1; 1; 1; 48; 50; 96] ∧
  ∃ k, witness_count k = 13 ∧
    log_repr (kn_witness_log k) (stamped_trail (trail_of false kernel_sample_ops kernel_sample_answers)).
Proof.
  assert (history_ok kernel_sample_ops) as Hok by (apply history_check; vm_compute; reflexivity).
  split; [exact Hok|]. split; [vm_compute; reflexivity|].
  destruct (kernel_audit_trail kernel_config_default kernel_sample_ops Hok) as (rs & k & Hk & _ & Hl & Hn).
  assert (option_map fst (kernel_run kernel_sample_ops (kernel_new kernel_config_default)) =
    Some kernel_sample_answers) as Hc by (vm_compute; reflexivity).
  rewrite Hk in Hc. cbn [option_map fst] in Hc. injection Hc as ->.
  exists k. split; [|exact Hl]. rewrite Hn. vm_compute; reflexivity.
Defined.

Lemma tick_never_recommends_merge_witness :
  history_ok kernel_sample_ops ∧
  ∃ e k k', er_decision e = SplitRecommended 1 10000 ∧
    apply_decision (er_decision e) k = Some (Ok (ArSplit 1 4), k').
Proof.
  assert (history_ok kernel_sample_ops) as Hok by (apply history_check; vm_compute; reflexivity).
  split; [exact Hok|].
  assert (option_map (λ '(_, k), (kn_booted k,
      match kernel_tick k with
      | Some (Ok e, k) => Some (er_decision e, option_map fst (apply_decision (er_decision e) k))
      | _ => None end))
    (kernel_run kernel_sample_ops (kernel_new kernel_config_default)) =
    Some (true, Some (SplitRecommended 1 10000, Some (Ok (ArSplit 1 4))))) as Hc by (vm_compute; reflexivity).
  destruct (tick_never_recommends_merge kernel_config_default kernel_sample_ops Hok) as (rs & k & Hk & Ht).
  rewrite Hk in Hc. cbn [option_map] in Hc. injection Hc as Hb Hd.
  destruct (Ht Hb) as (e & k' & Hk' & Hm). rewrite Hk' in Hd. injection Hd as Hd Hx. rewrite Hd in Hm.
  destruct Hm as (_ & _ & r & k2 & Ha & _). rewrite Hd, Ha in Hx. injection Hx as ->.
  exists e, k', k2. split; [exact Hd|]. rewrite Hd. exact Ha.
Defined.

Lemma tick_publishes_scores_witness :
  history_ok kernel_sample_ops ∧
  ∃ k p, pm_get 1 (kn_partitions k) = Some p ∧ pt_cut_pressure p = coherence_pressure 1 k.
Proof.
  assert (history_ok kernel_sample_ops) as Hok by (apply history_check; vm_compute; reflexivity).
  split; [exact Hok|].
  destruct (tick_publishes_scores kernel_config_default kernel_sample_ops Hok) as (rs & k & Hk & Ht).
  assert (option_map (λ '(_, k), (kn_booted k, is_some (pm_get 1 (kn_partitions k))))
    (kernel_run kernel_sample_ops (kernel_new kernel_config_default)) = Some (true, true)) as Hc by (vm_compute; reflexivity).
  rewrite Hk in Hc. cbn [option_map] in Hc. injection Hc as Hb Hp.
  destruct (Ht Hb) as (e & k' & T & Hk' & _ & Hlive & Hsc).
  destruct (pm_get 1 (kn_partitions k)) as [q|] eqn:Hq; [|discriminate].
  destruct (proj1 (Hlive 1) ltac:(rewrite Hq; by eexists)) as [p Hp'].
  exists k', p. split; [exact Hp'|]. apply (Hsc 1 p Hp').
Defined.

Lemma checked_calls_gated_witness :
  let k := set_booted true (kernel_new kernel_config_default) in
  checked_create_partition partition_config_default (mkCapToken 1 CtPartition READ 0) k =
    Some (Err InsufficientCapability, set_witness_log (log_append
      (gate_record AkProofRejected 0 (create_request (mkCapToken 1 CtPartition READ 0))) (kn_witness_log k)).2 k).
Proof.
  intros k.
  destruct (checked_calls_gated k (mkCapToken 1 CtPartition READ 0) eq_refl) as [Hc _].
  apply Hc. intros [_ Hr]. discriminate (Hr 1 ltac:(lia) eq_refl).
Defined.

Definition guest_sample_ipc : IpcManager := (create_channel 16 7 9 (ipc_new 4)).2.
Definition guest_sample_abs : AbsIpc := (run_abs 4 16 (IoCreate 7 9) (mkAbsIpc ∅ 1)).2.
Lemma guest_sample_repr : ipc_repr 4 (2 ^ 4) guest_sample_ipc guest_sample_abs.
Proof. apply (ipc_op_simulates 4 4 (IoCreate 7 9) _ _ (ipc_new_repr 4 (2 ^ 4))). done. Qed.

Lemma guest_send_confined_witness :
  ipc_repr 4 (2 ^ 4) guest_sample_ipc guest_sample_abs ∧
  ∃ c', host_send 9 100 (mkHostContext 7 guest_sample_ipc (Some 1) 5) = (Ok 100, c') ∧
    hc_next_sequence c' = 6 ∧ hc_partition c' = 7.
Proof.
  split; [exact guest_sample_repr|].
  pose proof (guest_send_confined 4 4 (mkHostContext 7 guest_sample_ipc (Some 1) 5) guest_sample_abs 9 100
    guest_sample_repr ltac:(done) ltac:(done) ltac:(done)) as H.
  assert ((host_send 9 100 (mkHostContext 7 guest_sample_ipc (Some 1) 5)).1 = Ok 100) as Hr by (vm_compute; reflexivity).
  destruct (host_send 9 100 _) as [r c']. cbn [fst] in Hr. subst r. destruct H as (Hp & _ & _ & _ & _ & _ & Hs & _).
  exists c'. split; [reflexivity|]. split; [exact Hs|exact Hp].
Defined.

(** Between ticks the cached pressures are stale, and a merge can be recommended
    and applied. *)
Example stale_recommendation_merges :
  option_map (λ '(_, k), (coherence_recommendation k, option_map fst (apply_decision (coherence_recommendation k) k)))
    (kernel_run [KBoot; KCreate partition_config_default; KCreate partition_config_default; KRecord 1 2 1000]
       (kernel_new kernel_config_default)) =
  Some (MergeRecommended 1 2 5000, Some (Ok (ArMerged 1 2))).
Proof. vm_compute. reflexivity. Qed.

(** The absorbed partition stays in the partition manager after a merge, can be
    merged again, and destroying a partition leaves its channels. *)
Example merge_leaves_absorbed :
  option_map (λ '(rs, k), (rs, kernel_partition_count k, partition_count (kn_coherence k)))
    (kernel_run [KBoot; KCreate partition_config_default; KCreate partition_config_default; KMerge 1 2; KMerge 1 2]
       (kernel_new kernel_config_default)) =
  Some ([Ok VUnit; Ok (VNumber 1); Ok (VNumber 2); Ok (VNumber 1); Ok (VNumber 1)], 2%nat, 1%nat).
Proof. vm_compute. reflexivity. Qed.

Example destroyed_partition_keeps_channel :
  option_map (λ '(rs, k), (rs, channel_count (kn_ipc k)))
    (kernel_run [KBoot; KCreate partition_config_default; KCreate partition_config_default; KChannel 1 2;
                 KDestroy 1; KSend 1 (kernel_sample_msg 2) 1] (kernel_new kernel_config_default)) =
  Some ([Ok VUnit; Ok (VNumber 1); Ok (VNumber 2); Ok (VNumber 1); Ok VUnit; Ok VUnit], 1%nat).
Proof. vm_compute. reflexivity. Qed.

(** A message on the channel from 1 to 2 may name any receiver: the engine then
    counts traffic between 1 and that partition. *)
Example receiver_is_not_checked :
  option_map (λ '(rs, k), (rs, edge_weight_between 1 3 (ce_graph (kn_coherence k))))
    (kernel_run [KBoot; KCreate partition_config_default; KCreate partition_config_default;
                 KCreate partition_config_default; KChannel 1 2; KSend 1 (kernel_sample_msg 3) 1]
       (kernel_new kernel_config_default)) =
  Some ([Ok VUnit; Ok (VNumber 1); Ok (VNumber 2); Ok (VNumber 3); Ok (VNumber 1); Ok VUnit], 1).
Proof. vm_compute. reflexivity. Qed.
