(* ===== verification/Signers.v ===== *)
(** Digest signers and software attestation:
    [crates/rvm-proof/src/signer.rs], [constant_time.rs], [tee.rs],
    [tee_provider.rs], [tee_verifier.rs], [tee_signer.rs].

    A signer maps a 32-byte digest to a 64-byte signature.  The HMAC signers and
    the quote format are the repository's; SHA-256, HMAC-SHA-256, Ed25519 and the
    constant-time comparison are parameters.  Byte arrays are lists of bytes. *)

From stdpp Require Import base numbers list option strings.
From Stdlib Require Import ZArith Lia.
From S2P Require Import Prelude.
From S2P Require Import Text.
From S2P Require Import Bytes.
From S2P Require Import Types.
From S2P Require Import WitnessLog.
From S2P Require Import Security.

(* ------------------------------------------------------------------ *)
(** ** The interface ([trait WitnessSigner] of [rvm-proof]) *)

Inductive SignatureError : Set :=
| BadSignature | UnknownKey | BadMeasurement | ExpiredCollateral | Replay
| UnsupportedPlatform | MalformedInput.

#[export] Instance SignatureError_eq_dec : EqDecision SignatureError.
Proof. solve_decision. Defined.

Notation SignatureResult := (result SignatureError).

Class DigestSigner (S : Type) : Type := {
  digest_sign : S → list Z → list Z;
  digest_verify : S → list Z → list Z → SignatureResult unit;
  signer_id : S → list Z;
}.

(** What a client relies on: sizes, and that a signer accepts what it signs. *)
Class DigestSignerLaws (S : Type) `{!DigestSigner S} (usable : S → list Z → Prop) : Prop := {
  digest_sign_length (s : S) d : length (digest_sign s d) = 64%nat;
  signer_id_length (s : S) : length (signer_id s) = 32%nat;
  digest_verify_signed (s : S) d : usable s d → digest_verify s d (digest_sign s d) = Ok tt;
}.

(** [ct_eq_32], [ct_eq_64] of [constant_time.rs]: the array forms. *)
Definition ct_eq_32 `{!ConstantTimeEq} (a b : list Z) : bool := ct_eq a b.
Definition ct_eq_64 `{!ConstantTimeEq} (a b : list Z) : bool := ct_eq a b.
(** [ct_eq] on slices. *)
Definition ct_eq_slice `{!ConstantTimeEq} (a b : list Z) : bool :=
  if negb (length a =? length b)%nat then false else ct_eq a b.

(* ------------------------------------------------------------------ *)
(** ** HMAC signers *)

Section hmac_signers.
Context `{!HmacSha256, !Sha256, !ConstantTimeEq}.

Record HmacSha256WitnessSigner : Set := mkHmacSha256WitnessSigner { hw_key : list Z }.
Definition HMAC_DOMAIN_TAG : list Z := lit "rvm-witness-hmac".

Definition compute_mac (s : HmacSha256WitnessSigner) (digest : list Z) : list Z :=
  hmac_sha256 (hw_key s) digest.
Definition hmac_digest_sign (s : HmacSha256WitnessSigner) (digest : list Z) : list Z :=
  compute_mac s digest ++ replicate 32 0.
Definition hmac_digest_verify (s : HmacSha256WitnessSigner) (digest signature : list Z)
    : SignatureResult unit :=
  let expected := hmac_digest_sign s digest in
  if ct_eq_64 expected signature then Ok tt else Err BadSignature.
Definition hmac_signer_id (s : HmacSha256WitnessSigner) : list Z :=
  let key_id := sha256 (hw_key s) in
  sha256 ([2] ++ key_id ++ HMAC_DOMAIN_TAG).

#[export] Instance hmac_digest_signer : DigestSigner HmacSha256WitnessSigner := {
  digest_sign := hmac_digest_sign;
  digest_verify := hmac_digest_verify;
  signer_id := hmac_signer_id;
}.

(** The fallback without Ed25519: a tag and the tag of the tag. *)
Record DualHmacSigner : Set := mkDualHmacSigner { dh_key : list Z }.
Definition DUAL_DOMAIN_TAG : list Z := lit "rvm-dual-hmac".

Definition dual_hmac (s : DualHmacSigner) (data : list Z) : list Z := hmac_sha256 (dh_key s) data.
Definition dual_sign (s : DualHmacSigner) (digest : list Z) : list Z :=
  let tag1 := dual_hmac s digest in
  let tag2 := dual_hmac s tag1 in
  tag1 ++ tag2.
Definition dual_verify (s : DualHmacSigner) (digest signature : list Z) : SignatureResult unit :=
  let expected := dual_sign s digest in
  if ct_eq_64 expected signature then Ok tt else Err BadSignature.
Definition dual_signer_id (s : DualHmacSigner) : list Z :=
  let key_hash := sha256 (dh_key s) in
  sha256 ([4] ++ key_hash ++ DUAL_DOMAIN_TAG).

#[export] Instance dual_digest_signer : DigestSigner DualHmacSigner := {
  digest_sign := dual_sign;
  digest_verify := dual_verify;
  signer_id := dual_signer_id;
}.
End hmac_signers.

(* ------------------------------------------------------------------ *)
(** ** Ed25519 and the null signer *)

(** [ed25519_dalek], outside the repository: the public key of a seed, signing,
    decoding a public key, and strict verification. *)
Class Ed25519 : Type := {
  ed_public_key : list Z → list Z;
  ed_sign : list Z → list Z → list Z;
  ed_key_ok : list Z → bool;
  ed_verify_strict : list Z → list Z → list Z → bool;
}.
Class Ed25519Laws `{!Ed25519} : Prop := {
  ed_sign_length seed msg : length (ed_sign seed msg) = 64%nat;
  ed_key_decodes seed : ed_key_ok (ed_public_key seed) = true;
  ed_verify_signed seed msg :
    ed_verify_strict (ed_public_key seed) msg (ed_sign seed msg) = true;
}.

Section ed25519_signer.
Context `{!Ed25519, !Sha256}.

Record Ed25519WitnessSigner : Set := mkEd25519WitnessSigner {
  ew_secret_key : list Z;
  ew_public_key : list Z;
}.
Definition ed25519_from_seed (seed : list Z) : Ed25519WitnessSigner :=
  mkEd25519WitnessSigner seed (ed_public_key seed).

Definition ed25519_digest_sign (s : Ed25519WitnessSigner) (digest : list Z) : list Z :=
  ed_sign (ew_secret_key s) digest.
Definition ed25519_digest_verify (s : Ed25519WitnessSigner) (digest signature : list Z)
    : SignatureResult unit :=
  if negb (ed_key_ok (ew_public_key s)) then Err MalformedInput
  else if ed_verify_strict (ew_public_key s) digest signature then Ok tt
  else Err BadSignature.
Definition ed25519_signer_id (s : Ed25519WitnessSigner) : list Z :=
  sha256 ([1] ++ ew_public_key s).

#[export] Instance ed25519_digest_signer : DigestSigner Ed25519WitnessSigner := {
  digest_sign := ed25519_digest_sign;
  digest_verify := ed25519_digest_verify;
  signer_id := ed25519_signer_id;
}.
End ed25519_signer.

Inductive NullDigestSigner : Set := mkNullDigestSigner.
#[export] Instance null_digest_signer : DigestSigner NullDigestSigner := {
  digest_sign _ _ := replicate 64 0;
  digest_verify _ _ _ := Ok tt;
  signer_id _ := replicate 32 0;
}.

(* ------------------------------------------------------------------ *)
(** ** Key derivation *)

Section keys.
Context `{!Sha256}.

Record KeyBundle : Set := mkKeyBundle {
  kb_witness_key : list Z; kb_attestation_key : list Z; kb_ipc_key : list Z;
}.

Definition derive_key_with_tag (measurement : list Z) (partition_id : Z) (tag : list Z) : list Z :=
  sha256 (measurement ++ le_bytes 4 partition_id ++ tag).
Definition derive_witness_key (measurement : list Z) (partition_id : Z) : list Z :=
  derive_key_with_tag measurement partition_id (lit "rvm-witness-key-v1").
Definition derive_key_bundle (measurement : list Z) (partition_id : Z) : KeyBundle :=
  mkKeyBundle (derive_key_with_tag measurement partition_id (lit "rvm-witness-key-v1"))
    (derive_key_with_tag measurement partition_id (lit "rvm-attestation-key-v1"))
    (derive_key_with_tag measurement partition_id (lit "rvm-ipc-key-v1")).
Definition dev_measurement : list Z := sha256 (lit "rvm-dev-measurement").
End keys.

(* ------------------------------------------------------------------ *)
(** ** Attestation quotes *)

Inductive TeePlatform : Set := Sgx | SevSnp | Tdx | ArmCca.
#[export] Instance TeePlatform_eq_dec : EqDecision TeePlatform.
Proof. solve_decision. Defined.

(** [trait TeeQuoteProvider], [trait TeeQuoteVerifier]. *)
Class TeeQuoteProvider (P : Type) : Type := {
  generate_quote : P → list Z → SignatureResult (list Z);
  provider_platform : P → TeePlatform;
}.
Class TeeQuoteVerifier (V : Type) : Type := {
  verify_quote : V → list Z → list Z → list Z → SignatureResult unit;
  collateral_valid : V → bool;
}.

Definition platform_byte (p : TeePlatform) : Z :=
  match p with Sgx => 1 | SevSnp => 2 | Tdx => 3 | ArmCca => 4 end.
Definition platform_from_byte (b : Z) : option TeePlatform :=
  if b =? 1 then Some Sgx else if b =? 2 then Some SevSnp else if b =? 3 then Some Tdx
  else if b =? 4 then Some ArmCca else None.

Definition QUOTE_MAGIC : list Z := lit "RVMq".
Definition OFFSET_MAGIC : nat := 0.
Definition OFFSET_PLATFORM : nat := 4.
Definition OFFSET_MEASUREMENT : nat := 5.
Definition OFFSET_REPORT_DATA : nat := 37.
Definition OFFSET_HMAC : nat := 101.
Definition QUOTE_LEN : nat := 133.

Section software_tee.
Context `{!HmacSha256, !Sha256, !ConstantTimeEq}.

Record SoftwareTeeProvider : Set := mkSoftwareTeeProvider {
  tp_platform : TeePlatform;
  tp_measurement : list Z;
  tp_signer_key : list Z;
}.

Definition compute_quote_hmac (p : SoftwareTeeProvider) (body : list Z) : list Z :=
  hmac_sha256 (tp_signer_key p) body.

Definition software_generate_quote (p : SoftwareTeeProvider) (report_data : list Z)
    : SignatureResult (list Z) :=
  let quote := replicate 256 0 in
  let quote := write_at OFFSET_MAGIC QUOTE_MAGIC quote in
  let quote := <[OFFSET_PLATFORM := platform_byte (tp_platform p)]> quote in
  let quote := write_at OFFSET_MEASUREMENT (tp_measurement p) quote in
  let quote := write_at OFFSET_REPORT_DATA report_data quote in
  let hmac_tag := compute_quote_hmac p (take OFFSET_HMAC quote) in
  let quote := write_at OFFSET_HMAC hmac_tag quote in
  Ok quote.

#[export] Instance software_provider : TeeQuoteProvider SoftwareTeeProvider := {
  generate_quote := software_generate_quote;
  provider_platform := tp_platform;
}.

Record SoftwareTeeVerifier : Set := mkSoftwareTeeVerifier {
  tv_signer_key : list Z;
  tv_collateral_expiry_epoch : Z;
  tv_current_epoch : Z;
}.
Definition tee_set_epoch (epoch : Z) (v : SoftwareTeeVerifier) : SoftwareTeeVerifier :=
  mkSoftwareTeeVerifier (tv_signer_key v) (tv_collateral_expiry_epoch v) epoch.
Definition refresh_collateral (new_expiry_epoch : Z) (v : SoftwareTeeVerifier) : SoftwareTeeVerifier :=
  mkSoftwareTeeVerifier (tv_signer_key v) new_expiry_epoch (tv_current_epoch v).
Definition verifier_hmac (v : SoftwareTeeVerifier) (body : list Z) : list Z :=
  hmac_sha256 (tv_signer_key v) body.

Definition software_collateral_valid (v : SoftwareTeeVerifier) : bool :=
  if tv_collateral_expiry_epoch v =? 0 then true
  else tv_current_epoch v <? tv_collateral_expiry_epoch v.

(** [diff |= a[i] ^ b[i]] for [i] in [0..64]. *)
Definition report_diff (a b : list Z) : Z :=
  foldl (λ diff i, Z.lor diff (Z.lxor (default 0 (a !! i)) (default 0 (b !! i)))) 0 (seq 0 64).

Definition software_verify_quote (v : SoftwareTeeVerifier)
    (quote expected_measurement expected_report_data : list Z) : SignatureResult unit :=
  if (length quote <? QUOTE_LEN)%nat then Err MalformedInput
  else if bool_decide (take 4 quote ≠ QUOTE_MAGIC) then Err MalformedInput
  else if is_none (platform_from_byte (default 0 (quote !! OFFSET_PLATFORM))) then Err UnsupportedPlatform
  else if negb (software_collateral_valid v) then Err ExpiredCollateral
  else if negb (ct_eq_32 (slice OFFSET_MEASUREMENT 32 quote) expected_measurement)
  then Err BadMeasurement
  else if negb (report_diff (slice OFFSET_REPORT_DATA 64 quote) expected_report_data =? 0)
  then Err BadSignature
  else if negb (ct_eq_32 (verifier_hmac v (take OFFSET_HMAC quote)) (slice OFFSET_HMAC 32 quote))
  then Err BadSignature
  else Ok tt.

#[export] Instance software_verifier : TeeQuoteVerifier SoftwareTeeVerifier := {
  verify_quote := software_verify_quote;
  collateral_valid := software_collateral_valid;
}.
End software_tee.

(* ------------------------------------------------------------------ *)
(** ** The attested signer *)

Section tee_signer.
Context `{!HmacSha256, !Sha256, !ConstantTimeEq} {P V : Type}
  `{!TeeQuoteProvider P, !TeeQuoteVerifier V}.

Record TeeWitnessSigner : Type := mkTeeWitnessSigner {
  tw_provider : P;
  tw_verifier : V;
  tw_hmac_signer : HmacSha256WitnessSigner;
  tw_measurement : list Z;
}.

Definition digest_to_report_data (digest : list Z) : list Z := digest ++ replicate 32 0.

Definition self_attest (s : TeeWitnessSigner) (digest : list Z) : SignatureResult unit :=
  let report_data := digest_to_report_data digest in
  quote ← generate_quote (tw_provider s) report_data;
  verify_quote (tw_verifier s) quote (tw_measurement s) report_data.

Definition tee_digest_sign (s : TeeWitnessSigner) (digest : list Z) : list Z :=
  if negb (is_ok (self_attest s digest)) then replicate 64 0
  else hmac_digest_sign (tw_hmac_signer s) digest.
Definition tee_digest_verify (s : TeeWitnessSigner) (digest signature : list Z)
    : SignatureResult unit :=
  _ ← hmac_digest_verify (tw_hmac_signer s) digest signature;
  self_attest s digest.
Definition tee_signer_id (s : TeeWitnessSigner) : list Z :=
  sha256 ([3] ++ [platform_byte (provider_platform (tw_provider s))] ++ tw_measurement s).

#[export] Instance tee_digest_signer : DigestSigner TeeWitnessSigner := {
  digest_sign := tee_digest_sign;
  digest_verify := tee_digest_verify;
  signer_id := tee_signer_id;
}.
End tee_signer.
Arguments TeeWitnessSigner P V : clear implicits.

(* ------------------------------------------------------------------ *)
(** ** Signers accept what they sign *)

Section signer_laws.
Context `{!HmacSha256, !HmacSha256Laws, !Sha256, !Sha256Laws, !ConstantTimeEq, !ConstantTimeEqLaws}.

Lemma ct_eq_64_spec a b : ct_eq_64 a b = bool_decide (a = b).
Proof. apply eq_true_iff_eq. rewrite bool_decide_eq_true. apply ct_eq_spec. Qed.
Lemma ct_eq_32_spec a b : ct_eq_32 a b = bool_decide (a = b).
Proof. apply eq_true_iff_eq. rewrite bool_decide_eq_true. apply ct_eq_spec. Qed.

(** A signature of the HMAC signers verifies exactly when it is the one the
    signer computes itself. *)
Lemma hmac_digest_verify_spec s d sig :
  hmac_digest_verify s d sig = if decide (sig = hmac_digest_sign s d) then Ok tt else Err BadSignature.
Proof.
  unfold hmac_digest_verify. rewrite ct_eq_64_spec. repeat case_decide; case_bool_decide; congruence.
Qed.
Lemma dual_verify_spec s d sig :
  dual_verify s d sig = if decide (sig = dual_sign s d) then Ok tt else Err BadSignature.
Proof.
  unfold dual_verify. rewrite ct_eq_64_spec. repeat case_decide; case_bool_decide; congruence.
Qed.

#[export] Instance hmac_digest_laws : DigestSignerLaws HmacSha256WitnessSigner (λ _ _, True).
Proof.
  split.
  - intros s d. cbn. unfold hmac_digest_sign, compute_mac.
    by rewrite length_app, hmac_sha256_length, length_replicate.
  - intros s. exact (sha256_length ([2] ++ sha256 (hw_key s) ++ HMAC_DOMAIN_TAG)).
  - intros s d _. cbn. rewrite hmac_digest_verify_spec. by case_decide.
Qed.
#[export] Instance dual_digest_laws : DigestSignerLaws DualHmacSigner (λ _ _, True).
Proof.
  split.
  - intros s d. cbn. unfold dual_sign, dual_hmac. by rewrite length_app, !hmac_sha256_length.
  - intros s. exact (sha256_length ([4] ++ sha256 (dh_key s) ++ DUAL_DOMAIN_TAG)).
  - intros s d _. cbn. rewrite dual_verify_spec. by case_decide.
Qed.
End signer_laws.

#[export] Instance ed25519_digest_laws `{!Ed25519, !Ed25519Laws, !Sha256, !Sha256Laws} :
  DigestSignerLaws Ed25519WitnessSigner (λ s _, ew_public_key s = ed_public_key (ew_secret_key s)).
Proof.
  split.
  - intros s d. apply ed_sign_length.
  - intros s. exact (sha256_length ([1] ++ ew_public_key s)).
  - intros s d E. cbn. unfold ed25519_digest_verify, ed25519_digest_sign.
    by rewrite E, ed_key_decodes, ed_verify_signed.
Qed.
#[export] Instance null_digest_laws : DigestSignerLaws NullDigestSigner (λ _ _, True).
Proof. by split. Qed.

(* ------------------------------------------------------------------ *)
(** ** Quotes *)

Lemma platform_byte_roundtrip p : platform_from_byte (platform_byte p) = Some p.
Proof. by destruct p. Qed.
Lemma platform_from_byte_Some b p : platform_from_byte b = Some p → b = platform_byte p.
Proof.
  unfold platform_from_byte.
  destruct (b =? 1) eqn:E1; [intros [= <-]; cbn; lia|].
  destruct (b =? 2) eqn:E2; [intros [= <-]; cbn; lia|].
  destruct (b =? 3) eqn:E3; [intros [= <-]; cbn; lia|].
  destruct (b =? 4) eqn:E4; [intros [= <-]; cbn; lia|done].
Qed.

Lemma report_diff_zero a b :
  length a = 64%nat → length b = 64%nat → report_diff a b = 0 ↔ a = b.
Proof.
  intros Ha Hb. unfold report_diff. rewrite lor_fold_zero, Forall_forall. split.
  - intros [_ H]. apply list_eq. intros i. destruct (decide (i < 64)%nat) as [Hi|Hi].
    + specialize (H i ltac:(apply elem_of_seq; lia)). apply Z.lxor_eq in H.
      destruct (lookup_lt_is_Some_2 a i) as [x Hx]; [lia|].
      destruct (lookup_lt_is_Some_2 b i) as [y Hy]; [lia|].
      rewrite Hx, Hy in H |- *. by f_equal.
    + by rewrite !lookup_ge_None_2 by lia.
  - intros ->. split; [done|]. intros i _. apply Z.lxor_nilpotent.
Qed.

Lemma report_diff_spec a b :
  length a = 64%nat → length b = 64%nat → (report_diff a b =? 0) = bool_decide (a = b).
Proof.
  intros Ha Hb. apply eq_true_iff_eq. by rewrite bool_decide_eq_true, Z.eqb_eq, report_diff_zero.
Qed.

(** The authenticated bytes of a quote, and the quote. *)
Definition quote_body (platform : TeePlatform) (measurement report_data : list Z) : list Z :=
  QUOTE_MAGIC ++ [platform_byte platform] ++ measurement ++ report_data.

Section quotes.
Context {HM : HmacSha256} {HL : HmacSha256Laws} {SH : Sha256} {CT : ConstantTimeEq} {CL : ConstantTimeEqLaws}.

Definition quote_of (key : list Z) (platform : TeePlatform) (measurement report_data : list Z) : list Z :=
  let body := quote_body platform measurement report_data in body ++ hmac_sha256 key body.

Lemma quote_body_length platform m rd :
  length m = 32%nat → length rd = 64%nat → length (quote_body platform m rd) = OFFSET_HMAC.
Proof. intros Hm Hr. unfold quote_body. by rewrite !length_app, Hm, Hr. Qed.

Lemma quote_of_length key platform m rd :
  length m = 32%nat → length rd = 64%nat → length (quote_of key platform m rd) = QUOTE_LEN.
Proof.
  intros Hm Hr. unfold quote_of. by rewrite length_app, hmac_sha256_length, quote_body_length.
Qed.

Lemma generate_quote_layout p rd :
  length (tp_measurement p) = 32%nat → length rd = 64%nat →
  software_generate_quote p rd =
    Ok (quote_of (tp_signer_key p) (tp_platform p) (tp_measurement p) rd ++ replicate 123 0).
Proof.
  destruct p as [pl m key]. cbn [tp_measurement tp_platform tp_signer_key]. intros Hm Hr.
  unfold software_generate_quote, quote_of. f_equal.
  set (q := write_at OFFSET_REPORT_DATA rd _).
  assert (q = quote_body pl m rd ++ replicate 155 0) as ->.
  { subst q. unfold quote_body. do 32 (destruct m as [|? m]; [done|]). destruct m; [|done].
    do 64 (destruct rd as [|? rd]; [done|]). destruct rd; [|done]. reflexivity. }
  rewrite (take_app_length' (quote_body pl m rd)) by (by rewrite quote_body_length).
  unfold compute_quote_hmac. cbn [tp_signer_key].
  unfold write_at. rewrite (take_app_length' (quote_body pl m rd)) by (by rewrite quote_body_length).
  rewrite hmac_sha256_length, <-app_assoc. do 2 f_equal.
  rewrite drop_app_ge by (rewrite quote_body_length by done; unfold OFFSET_HMAC; lia).
  by rewrite quote_body_length.
Qed.

Lemma quote_prefix q :
  (133 ≤ length q)%nat →
  take 101 q = take 4 q ++ [default 0 (q !! 4%nat)] ++ slice 5 32 q ++ slice 37 64 q.
Proof.
  intros Hq. rewrite (take_slice 37 64), (take_slice 5 32), (take_slice 4 1), <-!app_assoc. do 2 f_equal.
  destruct (lookup_lt_is_Some_2 q 4) as [b Hb]; [lia|]. unfold slice. by rewrite (drop_S _ _ _ Hb), Hb.
Qed.

Lemma quote_split q :
  (133 ≤ length q)%nat →
  q = take 4 q ++ [default 0 (q !! 4%nat)] ++ slice 5 32 q ++ slice 37 64 q ++ slice 101 32 q ++ drop 133 q.
Proof.
  intros Hq. rewrite <-(take_drop 133 q) at 1. rewrite (take_slice 101 32), quote_prefix by done.
  by rewrite <-!app_assoc.
Qed.

Lemma verify_quote_Ok_inv v q m rd :
  length m = 32%nat → length rd = 64%nat → software_verify_quote v q m rd = Ok tt →
  software_collateral_valid v = true ∧
  ∃ platform rest, q = quote_of (tv_signer_key v) platform m rd ++ rest.
Proof.
  intros Hm Hr H. unfold software_verify_quote in H.
  apply guard_Ok in H as [El H]. apply Nat.ltb_ge in El. unfold QUOTE_LEN in El.
  apply guard_Ok in H as [Emg H]. apply bool_decide_eq_false, dec_stable in Emg.
  apply guard_Ok in H as [Ep H]. apply guard_Ok in H as [Ec H]. apply negb_false_iff in Ec.
  apply guard_Ok in H as [Emm H]. rewrite ct_eq_32_spec in Emm. apply negb_false_iff, bool_decide_eq_true in Emm.
  apply guard_Ok in H as [Er H].
  rewrite report_diff_spec in Er;
    [|unfold slice; rewrite length_take, length_drop; unfold OFFSET_REPORT_DATA; lia|done].
  apply negb_false_iff, bool_decide_eq_true in Er.
  apply guard_Ok in H as [Eh _]. rewrite ct_eq_32_spec in Eh. apply negb_false_iff, bool_decide_eq_true in Eh.
  destruct (platform_from_byte _) as [pl|] eqn:Hp; [|done]. apply platform_from_byte_Some in Hp.
  split; [done|]. exists pl, (drop QUOTE_LEN q).
  unfold OFFSET_PLATFORM, OFFSET_MEASUREMENT, OFFSET_REPORT_DATA, OFFSET_HMAC, verifier_hmac in *.
  pose proof (quote_split q El) as Eq. rewrite Emg, Emm, Er, Hp in Eq. rewrite Eq at 1.
  rewrite <-Eh. rewrite (quote_prefix q El), Emg, Emm, Er, Hp. unfold quote_of, quote_body.
  by rewrite <-!app_assoc.
Qed.

(** The verdict on a well-formed quote, whoever made it and whatever follows it. *)
Lemma verify_quote_verdict v key platform m' rd' rest m rd :
  length m' = 32%nat → length rd' = 64%nat → length m = 32%nat → length rd = 64%nat →
  software_verify_quote v (quote_of key platform m' rd' ++ rest) m rd =
    if negb (software_collateral_valid v) then Err ExpiredCollateral
    else if decide (m' = m) then
      if decide (rd' = rd ∧ hmac_sha256 (tv_signer_key v) (quote_body platform m' rd') =
                            hmac_sha256 key (quote_body platform m' rd'))
      then Ok tt else Err BadSignature
    else Err BadMeasurement.
Proof.
  intros Hm' Hr' Hm Hr. unfold software_verify_quote.
  rewrite length_app, quote_of_length by done.
  destruct (QUOTE_LEN + length rest <? QUOTE_LEN)%nat eqn:El; [apply Nat.ltb_lt in El; lia|].
  unfold quote_of. set (h := hmac_sha256 key _).
  assert (length h = 32%nat) as Hh by apply hmac_sha256_length.
  rewrite <-app_assoc. set (q := quote_body platform m' rd' ++ h ++ rest).
  assert (take OFFSET_HMAC q = quote_body platform m' rd') as -> by (by apply take_app_length'; rewrite quote_body_length).
  assert (slice OFFSET_HMAC 32 q = h) as -> by (by apply slice_app_mid; rewrite ?quote_body_length).
  assert (take 4 q = QUOTE_MAGIC) as -> by done.
  rewrite bool_decide_false by tauto.
  assert (q !! OFFSET_PLATFORM = Some (platform_byte platform)) as -> by done.
  cbn [default from_option id]. rewrite platform_byte_roundtrip. cbn [is_none].
  destruct (software_collateral_valid v); cbn [negb]; [|done].
  assert (slice OFFSET_MEASUREMENT 32 q = m') as ->.
  { subst q. unfold quote_body. rewrite <-!app_assoc.
    apply (slice_app_mid (QUOTE_MAGIC ++ [platform_byte platform]) m' (rd' ++ h ++ rest)); done. }
  assert (slice OFFSET_REPORT_DATA 64 q = rd') as ->.
  { subst q. unfold quote_body. rewrite <-!app_assoc.
    rewrite (app_assoc QUOTE_MAGIC), (app_assoc _ m').
    apply slice_app_mid; [by rewrite !length_app, Hm'|done]. }
  rewrite !ct_eq_32_spec. unfold verifier_hmac.
  case_decide as Em; [|by rewrite bool_decide_false]. rewrite bool_decide_true by done. cbn [negb].
  rewrite report_diff_spec by done. repeat case_bool_decide; case_decide; naive_solver.
Qed.
End quotes.

Lemma Ok_inj {E A} (a b : A) : @Ok E A a = Ok b → a = b.
Proof. by intros [= ->]. Qed.

Section quote_theorems.
Context `{!HmacSha256, !HmacSha256Laws, !Sha256, !ConstantTimeEq, !ConstantTimeEqLaws}.

(** A quote is accepted exactly when the collateral is valid and its first
    133 bytes are those the software provider of the verifier's key generates,
    on some platform, for the expected measurement and report data.  Every
    authenticated byte is bound, and nothing after them is looked at. *)
Theorem quote_accepted_exact v q m rd :
  length m = 32%nat → length rd = 64%nat →
  software_verify_quote v q m rd = Ok tt ↔
    software_collateral_valid v = true ∧ (QUOTE_LEN ≤ length q)%nat ∧
    ∃ platform gen,
      software_generate_quote (mkSoftwareTeeProvider platform m (tv_signer_key v)) rd = Ok gen ∧
      take QUOTE_LEN q = take QUOTE_LEN gen.
Proof.
  intros Hm Hr. split.
  - intros (Hc & pl & rest & ->)%verify_quote_Ok_inv; [|done..].
    split_and!; [done|rewrite length_app, quote_of_length by done; lia|].
    eexists pl, _. split; [by apply generate_quote_layout|]. cbn [tp_signer_key tp_platform tp_measurement].
    by rewrite !(take_app_length' (quote_of _ _ _ _)) by (by rewrite quote_of_length).
  - intros (Hc & Hl & pl & gen & Hg & Ht). rewrite generate_quote_layout in Hg by done.
    apply Ok_inj in Hg. subst gen. cbn [tp_signer_key tp_platform tp_measurement] in Ht.
    rewrite (take_app_length' (quote_of _ _ _ _)) in Ht by (by rewrite quote_of_length).
    rewrite <-(take_drop QUOTE_LEN q), Ht, verify_quote_verdict, Hc by done.
    by rewrite !decide_True by done.
Qed.
End quote_theorems.

(* ------------------------------------------------------------------ *)
(** ** The attested signer *)

Section attested.
Context `{!HmacSha256, !HmacSha256Laws, !Sha256, !Sha256Laws, !ConstantTimeEq, !ConstantTimeEqLaws}.
Context {P V : Type} `{!TeeQuoteProvider P, !TeeQuoteVerifier V}.

#[export] Instance tee_digest_laws :
  DigestSignerLaws (TeeWitnessSigner P V) (λ s d, self_attest s d = Ok tt).
Proof.
  split.
  - intros s d. cbn. unfold tee_digest_sign. destruct (is_ok _); [|done].
    cbn [negb]. exact (digest_sign_length (usable := λ _ _, True) (tw_hmac_signer s) d).
  - intros s. exact (sha256_length ([3] ++ [platform_byte (provider_platform (tw_provider s))] ++ tw_measurement s)).
  - intros s d E. cbn. unfold tee_digest_verify, tee_digest_sign. rewrite E. cbn [is_ok negb].
    by rewrite hmac_digest_verify_spec, decide_True by done.
Qed.

(** The attested signer vouches for nothing it cannot attest.  Whatever the
    provider and the verifier of quotes do, a signature is accepted exactly
    when it is the one of the inner key and the attestation succeeds; a failed
    attestation yields the zero signature, and no signature is accepted then. *)
Theorem attested_signer_exact (s : TeeWitnessSigner P V) d sig :
  (digest_verify s d sig = Ok tt ↔
     sig = digest_sign (tw_hmac_signer s) d ∧ self_attest s d = Ok tt) ∧
  (digest_verify s d (digest_sign s d) = Ok tt ↔ self_attest s d = Ok tt) ∧
  (self_attest s d ≠ Ok tt → digest_sign s d = replicate 64 0).
Proof.
  assert (∀ sig', digest_verify s d sig' = Ok tt ↔
     sig' = digest_sign (tw_hmac_signer s) d ∧ self_attest s d = Ok tt) as Hv.
  { intros sig'. cbn. unfold tee_digest_verify. rewrite hmac_digest_verify_spec.
    case_decide; cbn [mbind result_bind]; naive_solver. }
  split_and!; [apply Hv| |].
  - split; [by intros [_ ?]%Hv|]. intros E. by apply (digest_verify_signed (usable := λ s d, self_attest s d = Ok tt)).
  - intros Hn. cbn. unfold tee_digest_sign. destruct (self_attest s d) as [[]|]; [by destruct Hn|done].
Qed.
End attested.

(** The software platform attests itself exactly when keys and measurement
    agree and the collateral is current. *)
Lemma software_self_attest `{!HmacSha256, !HmacSha256Laws, !ConstantTimeEq, !ConstantTimeEqLaws}
    platform m key v k m' d :
  length m = 32%nat → length m' = 32%nat → length d = 32%nat → key = tv_signer_key v →
  self_attest (mkTeeWitnessSigner (mkSoftwareTeeProvider platform m key) v k m') d =
    if negb (software_collateral_valid v) then Err ExpiredCollateral
    else if decide (m = m') then Ok tt else Err BadMeasurement.
Proof.
  intros Hm Hm' Hd ->. unfold self_attest. cbn [tw_provider tw_verifier tw_measurement].
  assert (length (digest_to_report_data d) = 64%nat) as Hr by (unfold digest_to_report_data; by rewrite length_app, Hd).
  change (generate_quote ?p ?rd) with (software_generate_quote p rd).
  rewrite generate_quote_layout by done. cbn [mbind result_bind tp_platform tp_measurement tp_signer_key].
  change (verify_quote ?v ?q ?m ?rd) with (software_verify_quote v q m rd).
  rewrite verify_quote_verdict by done. destruct (negb _); [done|].
  case_decide as E; [|done]. by rewrite decide_True.
Qed.

(* ------------------------------------------------------------------ *)
(** ** Samples *)

Section sample.
#[local] Instance sample_mac : HmacSha256 := λ key msg, replicate 32 ((foldl Z.add 0 key + foldl Z.add 0 msg) mod 256).
#[local] Instance sample_mac_laws : HmacSha256Laws.
Proof. done. Qed.
#[local] Instance sample_digest : Sha256 := λ data, replicate 32 (foldl Z.add 0 data mod 256).
#[local] Instance sample_digest_laws : Sha256Laws.
Proof.
  split; intros data; [done|]. apply Forall_replicate. unfold is_byte.
  pose proof (Z.mod_pos_bound (foldl Z.add 0 data) 256). lia.
Qed.
#[local] Instance sample_ct : ConstantTimeEq := λ a b, bool_decide (a = b).
#[local] Instance sample_ct_laws : ConstantTimeEqLaws.
Proof. intros a b. apply bool_decide_eq_true. Qed.

Definition sample_verifier : SoftwareTeeVerifier := mkSoftwareTeeVerifier (replicate 32 9) 100 7.
Definition sample_quote : list Z :=
  default [] (match software_generate_quote (mkSoftwareTeeProvider Tdx (replicate 32 5) (replicate 32 9)) (replicate 64 1) with
              | Ok q => Some q | Err _ => None end).

(** The padding of a quote may change; nothing before it may. *)
Example quote_padding_is_free :
  software_verify_quote sample_verifier (<[200%nat := 77]> sample_quote) (replicate 32 5) (replicate 64 1) = Ok tt.
Proof. vm_compute. reflexivity. Qed.
Example quote_platform_is_bound :
  software_verify_quote sample_verifier (<[4%nat := 1]> sample_quote) (replicate 32 5) (replicate 64 1) = Err BadSignature.
Proof. vm_compute. reflexivity. Qed.
Example quote_expires :
  software_verify_quote (tee_set_epoch 100 sample_verifier) sample_quote (replicate 32 5) (replicate 64 1) = Err ExpiredCollateral.
Proof. vm_compute. reflexivity. Qed.

Lemma quote_accepted_exact_witness :
  length (replicate 32 5) = 32%nat ∧ length (replicate 64 1) = 64%nat ∧
  (QUOTE_LEN ≤ length (<[200%nat := 77%Z]> sample_quote))%nat.
Proof.
  assert (software_verify_quote sample_verifier (<[200%nat := 77]> sample_quote) (replicate 32 5)
    (replicate 64 1) = Ok tt) as H by (vm_compute; reflexivity).
  split; [reflexivity|]. split; [reflexivity|].
  apply (quote_accepted_exact sample_verifier (<[200%nat := 77]> sample_quote)
    (replicate 32 5) (replicate 64 1) eq_refl eq_refl), H.
Defined.

Definition sample_tee : TeeWitnessSigner SoftwareTeeProvider SoftwareTeeVerifier :=
  mkTeeWitnessSigner (mkSoftwareTeeProvider Tdx (replicate 32 5) (replicate 32 9)) sample_verifier
    (mkHmacSha256WitnessSigner (replicate 32 3)) (replicate 32 5).

Lemma attested_signer_exact_witness :
  digest_verify sample_tee (replicate 32 8) (digest_sign sample_tee (replicate 32 8)) = Ok tt.
Proof.
  assert (self_attest sample_tee (replicate 32 8) = Ok tt) as H by (vm_compute; reflexivity).
  apply (attested_signer_exact sample_tee (replicate 32 8) []), H.
Defined.
End sample.
