(* ===== verification/RvfFormat.v ===== *)
(** The RVF container format: [crates/rvm-rvf/src/format.rs], [hash.rs],
    [container.rs], [error.rs].

    A container is a sequence of segments, each a 64-byte header, a payload and
    an optional signature footer, padded to 64 bytes, optionally followed by a
    4 KiB root page.  The file models the parser and proves that what it
    accepts tiles the buffer. *)

From stdpp Require Import base numbers list option strings.
From Stdlib Require Import ZArith Lia.
From S2P Require Import Prelude.
From S2P Require Import Text.
From S2P Require Import Bytes.
From S2P Require Import Types.
From S2P Require Import WitnessLog.
From S2P Require Import Security.

(* ------------------------------------------------------------------ *)
(** ** Errors ([error.rs]) *)

Inductive CapabilityClass : Set :=
| CcMemory | CcFilesystem | CcNetwork | CcModel | CcMcp | CcProcess | CcClock | CcRandomness
| CcGpu | CcSensor | CcDisplay | CcAudio | CcClipboard | CcPersistentState | CcInterAgentMessaging.
#[export] Instance CapabilityClass_eq_dec : EqDecision CapabilityClass.
Proof. solve_decision. Defined.

Inductive RvfError : Set :=
| BadMagic | Truncated | UnsupportedVersion (v : Z) | PayloadOutOfBounds | PayloadTooLarge
| MalformedFooter | SignedFlagWithoutFooter | NoSegments | TrailingBytes | TooManySegments
| NoForwardProgress | UnsupportedCapability (c : CapabilityClass) | UnknownCapability
| CapabilityTableFull.

Notation RvfResult := (result RvfError).

Definition rvm_of_rvf_error (e : RvfError) : RvmError :=
  match e with
  | UnsupportedCapability _ | UnknownCapability | UnsupportedVersion _ => Unsupported
  | CapabilityTableFull | TooManySegments => ResourceLimitExceeded
  | _ => ProofInvalid
  end.

(* ------------------------------------------------------------------ *)
(** ** Constants and headers ([format.rs]) *)

Definition SEGMENT_MAGIC : Z := 1381385811.
Definition SEGMENT_VERSION : Z := 1.
Definition SEGMENT_HEADER_SIZE : nat := 64.
Definition SEGMENT_ALIGNMENT : nat := 64.
Definition MAX_SEGMENT_PAYLOAD : Z := 4294967296.
Definition MAX_SEGMENTS : Z := 1048576.
Definition SIGNATURE_FOOTER_MIN_SIZE : nat := 8.
Definition MAX_SIGNATURE_LENGTH : Z := 7856.
Definition SIG_ALGO_ED25519 : Z := 0.
Definition ED25519_SIGNATURE_LENGTH : Z := 64.
Definition SIGN_CONTEXT : list Z := lit "RVF-v1-segment".

Definition SEG_TYPE_MANIFEST : Z := 5.
Definition SEG_TYPE_META : Z := 7.
Definition SEG_TYPE_WITNESS : Z := 10.
Definition SEG_TYPE_PROFILE : Z := 11.
Definition SEG_TYPE_KERNEL : Z := 14.
Definition SEG_TYPE_EBPF : Z := 15.
Definition SEG_TYPE_WASM : Z := 16.

Definition FLAG_ENCRYPTED : Z := 2.
Definition FLAG_SIGNED : Z := 4.
Definition FLAG_KNOWN_MASK : Z := 4095.

Definition type_is_executable (seg_type : Z) : bool :=
  (seg_type =? SEG_TYPE_KERNEL) || (seg_type =? SEG_TYPE_EBPF) || (seg_type =? SEG_TYPE_WASM).

Inductive SegmentClass : Set := ClassRuntime | ClassModel | ClassState | ClassMemory.
#[export] Instance SegmentClass_eq_dec : EqDecision SegmentClass.
Proof. solve_decision. Defined.

Definition segment_class (seg_type : Z) : SegmentClass :=
  if type_is_executable seg_type then ClassRuntime
  else if bool_decide (seg_type ∈ [1; 2; 6; 8; 9]) then ClassModel
  else if bool_decide (seg_type ∈ [3; 4]) || ((32 <=? seg_type) && (seg_type <=? 35)) then ClassState
  else ClassMemory.

Record SegmentHeader : Set := mkSegmentHeader {
  sh_magic : Z;
  sh_version : Z;
  sh_seg_type : Z;
  sh_flags : Z;
  sh_segment_id : Z;
  sh_payload_length : Z;
  sh_timestamp_ns : Z;
  sh_checksum_algo : Z;
  sh_compression : Z;
  sh_reserved_0 : Z;
  sh_reserved_1 : Z;
  sh_content_hash : list Z;
  sh_uncompressed_len : Z;
  sh_alignment_pad : Z;
}.

(** [data[i]]. *)
Definition format_byte_at (data : list Z) (i : nat) : Z := default 0 (data !! i).

Definition header_parse (data : list Z) : RvfResult SegmentHeader :=
  if (length data <? SEGMENT_HEADER_SIZE)%nat then Err Truncated
  else
    let magic := read_le 0 4 data in
    if negb (magic =? SEGMENT_MAGIC) then Err BadMagic
    else
      let version := format_byte_at data 4 in
      if negb (version =? SEGMENT_VERSION) then Err (UnsupportedVersion version)
      else
        Ok (mkSegmentHeader magic version (format_byte_at data 5) (read_le 6 2 data) (read_le 8 8 data)
          (read_le 16 8 data) (read_le 24 8 data) (format_byte_at data 32) (format_byte_at data 33)
          (read_le 34 2 data) (read_le 36 4 data) (slice 40 16 data) (read_le 56 4 data)
          (read_le 60 4 data)).

Definition header_to_bytes (h : SegmentHeader) : list Z :=
  le_bytes 4 (sh_magic h) ++ [sh_version h] ++ [sh_seg_type h] ++ le_bytes 2 (sh_flags h) ++
  le_bytes 8 (sh_segment_id h) ++ le_bytes 8 (sh_payload_length h) ++
  le_bytes 8 (sh_timestamp_ns h) ++ [sh_checksum_algo h] ++ [sh_compression h] ++
  le_bytes 2 (sh_reserved_0 h) ++ le_bytes 4 (sh_reserved_1 h) ++ sh_content_hash h ++
  le_bytes 4 (sh_uncompressed_len h) ++ le_bytes 4 (sh_alignment_pad h).

Definition header_is_signed (h : SegmentHeader) : bool :=
  Z.land (Z.land (sh_flags h) FLAG_KNOWN_MASK) FLAG_SIGNED =? FLAG_SIGNED.
Definition header_is_encrypted (h : SegmentHeader) : bool :=
  Z.land (Z.land (sh_flags h) FLAG_KNOWN_MASK) FLAG_ENCRYPTED =? FLAG_ENCRYPTED.
Definition header_is_executable (h : SegmentHeader) : bool := type_is_executable (sh_seg_type h).
Definition header_class (h : SegmentHeader) : SegmentClass := segment_class (sh_seg_type h).

Record SignatureFooter : Set := mkSignatureFooter {
  sf_sig_algo : Z;
  sf_sig_length : Z;
  sf_signature : list Z;
  sf_footer_length : Z;
}.

Definition compute_footer_length (sig_length : Z) : Z := 2 + 2 + sig_length + 4.

Definition decode_signature_footer (data : list Z) : RvfResult SignatureFooter :=
  if (length data <? SIGNATURE_FOOTER_MIN_SIZE)%nat then Err Truncated
  else
    let sig_algo := read_le 0 2 data in
    let sig_length := read_le 2 2 data in
    if MAX_SIGNATURE_LENGTH <? sig_length then Err MalformedFooter
    else
      let sig_len := Z.to_nat sig_length in
      if (length data <? 4 + sig_len + 4)%nat then Err Truncated
      else Ok (mkSignatureFooter sig_algo sig_length (slice 4 sig_len data) (read_le (4 + sig_len) 4 data)).

Definition build_signed_message_from_hash (h : SegmentHeader) (payload_hash : list Z) : list Z :=
  take 40 (header_to_bytes h) ++ sh_content_hash h ++ SIGN_CONTEXT ++ le_bytes 8 (sh_segment_id h) ++
  payload_hash.

Definition align_up (n : nat) : nat :=
  ((n + (SEGMENT_ALIGNMENT - 1)) / SEGMENT_ALIGNMENT * SEGMENT_ALIGNMENT)%nat.

(* ------------------------------------------------------------------ *)
(** ** Hashes ([hash.rs]) *)

(** XXH3-128 and SHAKE-256 with 16 bytes of output, outside the repository. *)
Class SegmentHashes : Type := { xxh3_128 : list Z → list Z; shake256_128 : list Z → list Z }.

Section hashes.
Context `{!SegmentHashes, !ConstantTimeEq}.

Definition build_signed_message (h : SegmentHeader) (payload : list Z) : list Z :=
  build_signed_message_from_hash h (shake256_128 payload).

Definition content_hash (algo : Z) (data : list Z) : list Z :=
  if algo =? 2 then shake256_128 data else xxh3_128 data.
Definition verify_content_hash (h : SegmentHeader) (payload : list Z) : bool :=
  let expected := content_hash (sh_checksum_algo h) payload in
  ct_eq expected (sh_content_hash h).
End hashes.

(* ------------------------------------------------------------------ *)
(** ** Walking a container ([container.rs]) *)

(** A [Range<usize>] is its two ends. *)
Record ParsedSegment : Set := mkParsedSegment {
  ps_index : nat;
  ps_offset : nat;
  ps_header : SegmentHeader;
  ps_payload_range : nat * nat;
  ps_footer : option (nat * nat);
}.

Definition segment_is_signed (s : ParsedSegment) : bool := header_is_signed (ps_header s).
Definition segment_is_executable (s : ParsedSegment) : bool := header_is_executable (ps_header s).
Definition range_of (r : nat * nat) (data : list Z) : list Z := slice r.1 (r.2 - r.1) data.
Definition segment_payload (s : ParsedSegment) (data : list Z) : list Z :=
  range_of (ps_payload_range s) data.

Definition ROOT_PAGE_MAGIC : Z := 1381387568.
Definition ROOT_PAGE_SIZE : nat := 4096.

Record WalkedContainer : Set := mkWalkedContainer {
  wk_segments : list ParsedSegment;
  wk_root_page : option (nat * nat);
}.

(** One bit of the reflected CRC-32C: the mask is all ones when the low bit is set. *)
Definition crc_bit (crc : Z) : Z :=
  Z.lxor (Z.shiftr crc 1) (Z.land 2197175160 (wrap32 (0 - Z.land crc 1))).
Definition crc_byte (crc b : Z) : Z := Nat.iter 8 crc_bit (Z.lxor crc b).
Definition crc32c (data : list Z) : Z := Z.lxor u32_max (foldl crc_byte u32_max data).

Definition is_level0_page (page : list Z) : bool :=
  if negb (length page =? ROOT_PAGE_SIZE)%nat then false
  else
    let stored := read_le 4092 4 page in
    bool_decide (take 4 page = le_bytes 4 ROOT_PAGE_MAGIC) && (read_le 4 2 page =? 1) &&
    (read_le 150 2 page <=? 3688) && (stored =? crc32c (take 4092 page)).

Definition split_root_page (data : list Z) : list Z * option (nat * nat) :=
  if (length data <? ROOT_PAGE_SIZE + SEGMENT_HEADER_SIZE)%nat then (data, None)
  else
    let start := (length data - ROOT_PAGE_SIZE)%nat in
    if is_level0_page (drop start data) then (take start data, Some (start, length data))
    else (data, None).

(** The footer of a signed segment: its range and where the segment ends. *)
Definition walk_footer (data : list Z) (payload_end : nat) : RvfResult (nat * nat) :=
  decoded ← decode_signature_footer (drop payload_end data);
  if sf_sig_length decoded =? 0 then Err SignedFlagWithoutFooter
  else if negb (sf_footer_length decoded =? compute_footer_length (sf_sig_length decoded))
  then Err MalformedFooter
  else
    let footer_len := Z.to_nat (sf_footer_length decoded) in
    let footer_end := (payload_end + footer_len)%nat in
    if (length data <? footer_end)%nat then Err MalformedFooter
    else Ok (payload_end, footer_end).

(** One segment at [offset]: the segment and where the next one starts. *)
Definition walk_one (data : list Z) (offset index : nat) : RvfResult (ParsedSegment * nat) :=
  header ← header_parse (drop offset data);
  if MAX_SEGMENT_PAYLOAD <? sh_payload_length header then Err PayloadTooLarge
  else
    let payload_start := (offset + SEGMENT_HEADER_SIZE)%nat in
    match checked_add u64_max (Z.of_nat payload_start) (sh_payload_length header) with
    | None => Err PayloadOutOfBounds
    | Some e =>
        let payload_end := Z.to_nat e in
        if (length data <? payload_end)%nat then Err PayloadOutOfBounds
        else
          '(footer, end_) ←
            (if header_is_signed header then
               f ← walk_footer data payload_end; Ok (Some f, f.2)
             else Ok (None, payload_end));
          let next := align_up end_ in
          if (next <=? offset)%nat then Err NoForwardProgress
          else Ok (mkParsedSegment index offset header (payload_start, payload_end) footer, next)
    end.

(** [while offset < data.len()], with [segments] read so far. *)
Fixpoint walk_loop (fuel : nat) (data : list Z) (offset : nat) (segments : list ParsedSegment)
    : option (RvfResult (list ParsedSegment)) :=
  if (length data <=? offset)%nat then Some (Ok segments)
  else
    let remaining := (length data - offset)%nat in
    if (remaining <? SEGMENT_HEADER_SIZE)%nat then
      if forallb (λ b, b =? 0) (drop offset data) then Some (Ok segments) else Some (Err TrailingBytes)
    else if MAX_SEGMENTS <=? Z.of_nat (length segments) then Some (Err TooManySegments)
    else
      match walk_one data offset (length segments) with
      | Err e => Some (Err e)
      | Ok (seg, next) =>
          match fuel with
          | O => None
          | S fuel =>
              if (length data <? next)%nat then Some (Ok (segments ++ [seg]))
              else walk_loop fuel data next (segments ++ [seg])
          end
      end.

(** Every segment advances the offset, so fewer than [length data] rounds. *)
Definition walk_segments (data : list Z) : RvfResult (list ParsedSegment) :=
  if (length data <? SEGMENT_HEADER_SIZE)%nat then Err Truncated
  else
    match walk_loop (length data) data 0 [] with
    | None => Err NoForwardProgress
    | Some (Err e) => Err e
    | Some (Ok []) => Err NoSegments
    | Some (Ok segments) => Ok segments
    end.

Definition walk_container (data : list Z) : RvfResult WalkedContainer :=
  let '(body, root_page) := split_root_page data in
  match walk_segments body with
  | Ok segments => Ok (mkWalkedContainer segments root_page)
  | Err e =>
      if is_some root_page then
        map_err (λ _, e) ((λ segments, mkWalkedContainer segments None) <$> walk_segments data)
      else Err e
  end.

Definition walk (data : list Z) : RvfResult (list ParsedSegment) :=
  wk_segments <$> walk_container data.

Definition root_manifest (segments : list ParsedSegment) : option ParsedSegment :=
  find_by (λ s, sh_seg_type (ps_header s) =? SEG_TYPE_MANIFEST) (reverse segments).

(* ------------------------------------------------------------------ *)
(** ** Headers and footers are faithful *)

Record header_wf (h : SegmentHeader) : Prop := {
  hw_magic : sh_magic h = SEGMENT_MAGIC; hw_version : sh_version h = SEGMENT_VERSION;
  hw_type : is_u8 (sh_seg_type h); hw_flags : is_u16 (sh_flags h); hw_id : is_u64 (sh_segment_id h);
  hw_length : is_u64 (sh_payload_length h); hw_time : is_u64 (sh_timestamp_ns h);
  hw_algo : is_u8 (sh_checksum_algo h); hw_compression : is_u8 (sh_compression h);
  hw_r0 : is_u16 (sh_reserved_0 h); hw_r1 : is_u32 (sh_reserved_1 h);
  hw_hash : length (sh_content_hash h) = 16%nat; hw_hash_bytes : Forall is_byte (sh_content_hash h);
  hw_len : is_u32 (sh_uncompressed_len h); hw_pad : is_u32 (sh_alignment_pad h);
}.

Lemma read_le_field off n data z :
  slice off n data = le_bytes n z → 0 ≤ z < 256 ^ Z.of_nat n → read_le off n data = z.
Proof. intros H Hz. unfold read_le. rewrite H. by apply of_le_bytes_le_bytes. Qed.

Lemma byte_at_slice data i b : slice i 1 data = [b] → format_byte_at data i = b.
Proof.
  unfold slice, format_byte_at. intros H. destruct (drop i data) as [|x l] eqn:E; [done|]. injection H as ->.
  assert (data !! i = Some b) as ->; [|done]. rewrite <-(Nat.add_0_r i), <-lookup_drop, E. done.
Qed.
Lemma slice_byte_at data i : (i < length data)%nat → slice i 1 data = [format_byte_at data i].
Proof.
  intros Hi. unfold slice, format_byte_at. destruct (lookup_lt_is_Some_2 data i Hi) as [b Hb].
  by rewrite (drop_S _ _ _ Hb), Hb.
Qed.

Lemma header_parse_to_bytes h : header_wf h → header_parse (header_to_bytes h) = Ok h.
Proof.
  destruct h as [m v ty fl id pl ts al co r0 r1 ch un pad]. intros [H1 H2 H3 H4 H5 H6 H7 H8 H9 H10 H11 H12 _ H13 H14].
  cbn [sh_magic sh_version sh_seg_type sh_flags sh_segment_id sh_payload_length sh_timestamp_ns
    sh_checksum_algo sh_compression sh_reserved_0 sh_reserved_1 sh_content_hash sh_uncompressed_len
    sh_alignment_pad] in *.
  unfold header_to_bytes. cbn [sh_magic sh_version sh_seg_type sh_flags sh_segment_id sh_payload_length
    sh_timestamp_ns sh_checksum_algo sh_compression sh_reserved_0 sh_reserved_1 sh_content_hash
    sh_uncompressed_len sh_alignment_pad].
  match goal with |- header_parse ?d = _ => set (data := d) end.
  assert (length data = SEGMENT_HEADER_SIZE) as Hl
    by (subst data; rewrite !length_app, !length_le_bytes, H12; done).
  assert (slice 40 16 data = ch) as Hch by (subst data; read_field).
  assert (∀ off n z, slice off n data = le_bytes n z → 0 ≤ z < 256 ^ Z.of_nat n → read_le off n data = z)
    as Hf by (intros; by apply read_le_field).
  unfold header_parse. rewrite Hl. unfold is_u8, is_u16, is_u32, is_u64, u8_max, u16_max, u32_max, u64_max in *.
  rewrite (Hf 0%nat 4%nat m) by ((subst data; read_field) || (subst m; unfold SEGMENT_MAGIC; lia)).
  rewrite (byte_at_slice data 4 v) by (subst data; read_field).
  rewrite (byte_at_slice data 5 ty) by (subst data; read_field).
  rewrite (Hf 6%nat 2%nat fl) by ((subst data; read_field) || lia).
  rewrite (Hf 8%nat 8%nat id) by ((subst data; read_field) || lia).
  rewrite (Hf 16%nat 8%nat pl) by ((subst data; read_field) || lia).
  rewrite (Hf 24%nat 8%nat ts) by ((subst data; read_field) || lia).
  rewrite (byte_at_slice data 32 al) by (subst data; read_field).
  rewrite (byte_at_slice data 33 co) by (subst data; read_field).
  rewrite (Hf 34%nat 2%nat r0) by ((subst data; read_field) || lia).
  rewrite (Hf 36%nat 4%nat r1) by ((subst data; read_field) || lia).
  rewrite (Hf 56%nat 4%nat un) by ((subst data; read_field) || lia).
  rewrite (Hf 60%nat 4%nat pad) by ((subst data; read_field) || lia).
  rewrite Hch. subst m v. reflexivity.
Qed.

Lemma header_to_bytes_parse data h :
  Forall is_byte data → header_parse data = Ok h → header_to_bytes h = take 64 data ∧ header_wf h.
Proof.
  intros Hb H. unfold header_parse in H.
  apply guard_Ok in H as [Hl H]. apply Nat.ltb_ge in Hl. unfold SEGMENT_HEADER_SIZE in Hl.
  apply guard_Ok in H as [Hm H]. apply guard_Ok in H as [Hv H]. split_bool.
  injection H as <-.
  assert (∀ off n, (off + n ≤ 64)%nat → le_bytes n (read_le off n data) = slice off n data) as Hr
    by (intros; apply le_bytes_read; [done|lia]).
  assert (∀ off n, (off + n ≤ 64)%nat → 0 ≤ read_le off n data < 256 ^ Z.of_nat n) as Hz
    by (intros; apply read_le_range; [done|lia]).
  assert (∀ i, (i < 64)%nat → is_u8 (format_byte_at data i)) as H8.
  { intros i Hi. unfold format_byte_at. destruct (lookup_lt_is_Some_2 data i) as [b E]; [lia|]. rewrite E.
    pose proof (Forall_lookup_1 _ _ _ _ Hb E) as Hx. unfold is_byte in Hx. cbn. unfold is_u8, u8_max. lia. }
  split.
  - unfold header_to_bytes. cbn [sh_magic sh_version sh_seg_type sh_flags sh_segment_id sh_payload_length
      sh_timestamp_ns sh_checksum_algo sh_compression sh_reserved_0 sh_reserved_1 sh_content_hash
      sh_uncompressed_len sh_alignment_pad].
    rewrite !Hr by lia. rewrite <-!slice_byte_at by lia.
    rewrite (take_slice 60 4), (take_slice 56 4), (take_slice 40 16), (take_slice 36 4), (take_slice 34 2),
      (take_slice 33 1), (take_slice 32 1), (take_slice 24 8), (take_slice 16 8), (take_slice 8 8),
      (take_slice 6 2), (take_slice 5 1), (take_slice 4 1), (take_slice 0 4), <-!app_assoc. done.
  - unfold is_u8, u8_max in H8.
    split; cbn [sh_magic sh_version sh_seg_type sh_flags sh_segment_id sh_payload_length
      sh_timestamp_ns sh_checksum_algo sh_compression sh_reserved_0 sh_reserved_1 sh_content_hash
      sh_uncompressed_len sh_alignment_pad]; try done; try (apply H8; lia);
      try (apply slice_length; lia); try (by apply slice_bytes);
      match goal with |- context [read_le ?o ?n _] => pose proof (Hz o n ltac:(lia)) end;
      unfold is_u8, is_u16, is_u32, is_u64, u16_max, u32_max, u64_max; lia.
Qed.

(* ------------------------------------------------------------------ *)
(** ** What a walk accepts *)

Lemma align_up_spec n : (n ≤ align_up n < n + 64)%nat ∧ (64 | align_up n)%nat.
Proof.
  unfold align_up, SEGMENT_ALIGNMENT. change (64 - 1)%nat with 63%nat. split.
  - pose proof (Nat.div_mod_eq (n + 63) 64). pose proof (Nat.mod_upper_bound (n + 63) 64 ltac:(lia)). lia.
  - by exists ((n + 63) / 64)%nat.
Qed.

(** The end of a segment whose payload ends at [pe]. *)
Definition footer_at (data : list Z) (h : SegmentHeader) (pe : nat) (footer : option (nat * nat)) (end_ : nat)
    : Prop :=
  if header_is_signed h then
    ∃ f, decode_signature_footer (drop pe data) = Ok f ∧ sf_sig_length f ≠ 0 ∧
      sf_footer_length f = compute_footer_length (sf_sig_length f) ∧
      end_ = (pe + Z.to_nat (sf_footer_length f))%nat ∧ footer = Some (pe, end_)
  else footer = None ∧ end_ = pe.

Record segment_at (data : list Z) (o i : nat) (s : ParsedSegment) (next : nat) : Prop := {
  sa_index : ps_index s = i;
  sa_offset : ps_offset s = o;
  sa_header : header_parse (drop o data) = Ok (ps_header s);
  sa_length : sh_payload_length (ps_header s) ≤ MAX_SEGMENT_PAYLOAD;
  sa_payload : ps_payload_range s =
    ((o + 64)%nat, (o + 64 + Z.to_nat (sh_payload_length (ps_header s)))%nat);
  sa_end : ∃ end_, footer_at data (ps_header s) (ps_payload_range s).2 (ps_footer s) end_ ∧
    (end_ ≤ length data)%nat ∧ next = align_up end_;
}.

(** Segments from offset [o] on, each where the one before it ended, rounded
    up to 64; what is left is less than a header and zero. *)
Inductive tiles (data : list Z) : nat → nat → list ParsedSegment → Prop :=
| tiles_end o i : (length data ≤ o)%nat → tiles data o i []
| tiles_pad o i : (o < length data < o + 64)%nat → drop o data = replicate (length data - o) 0 →
    tiles data o i []
| tiles_segment o i s next segs :
    segment_at data o i s next → tiles data next (S i) segs → tiles data o i (s :: segs).

Section walking.
Context (data : list Z) (Hb : Forall is_byte data) (Hsize : Z.of_nat (length data) ≤ u64_max).

Lemma header_parse_length o h : header_parse (drop o data) = Ok h → (o + 64 ≤ length data)%nat.
Proof.
  intros H. unfold header_parse in H. apply guard_Ok in H as [Hl _]. apply Nat.ltb_ge in Hl.
  rewrite length_drop in Hl. unfold SEGMENT_HEADER_SIZE in Hl. lia.
Qed.

Lemma parsed_length_range o h : header_parse (drop o data) = Ok h → is_u64 (sh_payload_length h).
Proof. intros H. apply header_to_bytes_parse in H as [_ []]; [done|by apply Forall_drop]. Qed.

Lemma decode_footer_length d f :
  Forall is_byte d → decode_signature_footer d = Ok f →
  0 ≤ sf_sig_length f ≤ MAX_SIGNATURE_LENGTH ∧
  (4 + Z.to_nat (sf_sig_length f) + 4 ≤ length d)%nat.
Proof.
  intros Hd H. unfold decode_signature_footer in H.
  apply guard_Ok in H as [Hl H]. apply Nat.ltb_ge in Hl. unfold SIGNATURE_FOOTER_MIN_SIZE in Hl.
  apply guard_Ok in H as [Hm H]. apply guard_Ok in H as [Hn H]. apply Nat.ltb_ge in Hn. injection H as <-.
  cbn [sf_sig_length]. pose proof (read_le_range 2 2 d Hd ltac:(lia)). split_bool. lia.
Qed.

Lemma walk_footer_Ok pe r :
  walk_footer data pe = Ok r ↔
  ∃ f, decode_signature_footer (drop pe data) = Ok f ∧ sf_sig_length f ≠ 0 ∧
    sf_footer_length f = compute_footer_length (sf_sig_length f) ∧
    r = (pe, (pe + Z.to_nat (sf_footer_length f))%nat) ∧ (r.2 ≤ length data)%nat.
Proof.
  unfold walk_footer. destruct (decode_signature_footer _) as [f|]; cbn [mbind result_bind]; [|naive_solver].
  split.
  - intros H. apply guard_Ok in H as [H1 H]. apply guard_Ok in H as [H2 H]. apply guard_Ok in H as [H3 H].
    apply Nat.ltb_ge in H3. split_bool. injection H as <-. exists f. split_and!; done.
  - intros (f' & [= <-] & H1 & H2 & -> & H3). cbn [snd] in H3.
    rewrite (proj2 (Z.eqb_neq _ _) H1), (proj2 (Z.eqb_eq _ _) H2). cbn [negb].
    by rewrite (proj2 (Nat.ltb_ge _ _) H3).
Qed.

Lemma walk_one_Ok o i s next : walk_one data o i = Ok (s, next) ↔ segment_at data o i s next.
Proof.
  unfold walk_one. split.
  - intros H. destruct (header_parse (drop o data)) as [h|] eqn:Eh; [|done]. cbn [mbind result_bind] in H.
    apply guard_Ok in H as [Hm H]. pose proof (parsed_length_range _ _ Eh) as Hr. split_bool.
    destruct (checked_add _ _ _) as [e|] eqn:Ee; [|done]. apply checked_add_Some in Ee as [-> _].
    apply guard_Ok in H as [Hp H]. apply Nat.ltb_ge in Hp. unfold SEGMENT_HEADER_SIZE in *.
    unfold is_u64 in Hr.
    replace (Z.to_nat (Z.of_nat (o + 64) + sh_payload_length h))
      with (o + 64 + Z.to_nat (sh_payload_length h))%nat in H, Hp by lia.
    set (pe := (o + 64 + Z.to_nat (sh_payload_length h))%nat) in *.
    destruct (header_is_signed h) eqn:Es.
    + destruct (walk_footer data pe) as [r|] eqn:Ef; [|done]. cbn [mbind result_bind] in H.
      apply walk_footer_Ok in Ef as (f & H1 & H2 & H3 & -> & H4). cbn [snd] in *.
      apply guard_Ok in H as [_ H]. injection H as <- <-.
      split; try done. exists (pe + Z.to_nat (sf_footer_length f))%nat. unfold footer_at. cbn [ps_header].
      rewrite Es. split_and!; [by exists f|done..].
    + cbn [mbind result_bind] in H. apply guard_Ok in H as [_ H]. injection H as <- <-.
      split; try done. exists pe. unfold footer_at. cbn [ps_header]. by rewrite Es.
  - intros [<- <- Eh Hm Hp (e & Hf & He & ->)]. rewrite Eh. cbn [mbind result_bind].
    rewrite (proj2 (Z.ltb_ge _ _) Hm). pose proof (parsed_length_range _ _ Eh) as Hr. unfold is_u64 in Hr.
    rewrite Hp in Hf. cbn [snd] in Hf. set (h := ps_header s) in *.
    set (pe := (ps_offset s + 64 + Z.to_nat (sh_payload_length h))%nat) in *.
    assert (pe ≤ e)%nat as Hpe.
    { unfold footer_at in Hf. destruct (header_is_signed h); [|destruct Hf; lia].
      destruct Hf as (f & _ & _ & _ & -> & _). lia. }
    unfold SEGMENT_HEADER_SIZE.
    rewrite (proj2 (checked_add_Some u64_max (Z.of_nat (ps_offset s + 64)) (sh_payload_length h) (Z.of_nat pe)))
      by (subst pe; lia).
    rewrite Nat2Z.id, (proj2 (Nat.ltb_ge _ _)) by lia.
    assert ((if header_is_signed h then f ← walk_footer data pe; Ok (Some f, f.2) else Ok (None, pe)) =
      Ok (ps_footer s, e)) as ->.
    { unfold footer_at in Hf. destruct (header_is_signed h); [|by destruct Hf as [-> ->]].
      destruct Hf as (f & H1 & H2 & H3 & H4 & ->).
      rewrite (proj2 (walk_footer_Ok pe (pe, e))); [done|]. exists f. subst e. split_and!; done. }
    cbn [mbind result_bind]. destruct (align_up_spec e) as [Ha _].
    rewrite (proj2 (Nat.leb_gt _ _)) by (subst pe; lia).
    destruct s as [i' o' h' p' f']. cbn [ps_offset ps_index ps_header ps_footer ps_payload_range] in *. by rewrite Hp.
Qed.

Lemma segment_at_next o i s next : segment_at data o i s next → (o + 64 ≤ next)%nat.
Proof.
  intros [_ _ _ _ Hp (e & Hf & _ & ->)]. destruct (align_up_spec e) as [Ha _].
  rewrite Hp in Hf. cbn [snd] in Hf. unfold footer_at in Hf.
  destruct (header_is_signed _); [destruct Hf as (f & _ & _ & _ & -> & _)|destruct Hf as [_ ->]]; lia.
Qed.

Lemma forallb_zero l : forallb (λ b, b =? 0) l = true ↔ l = replicate (length l) 0.
Proof.
  induction l as [|b l IH]; [done|]. cbn. rewrite andb_true_iff, IH, Z.eqb_eq.
  split; [by intros [-> <-]|by intros [= -> <-]].
Qed.

Lemma tiles_nil_inv o i :
  tiles data o i [] ↔ (length data ≤ o)%nat ∨
    ((o < length data < o + 64)%nat ∧ drop o data = replicate (length data - o) 0).
Proof.
  split; [inversion 1; auto|]. intros [?|[? ?]]; [by apply tiles_end|by apply tiles_pad].
Qed.

Lemma tiles_cons_inv o i s segs :
  tiles data o i (s :: segs) ↔ ∃ next, segment_at data o i s next ∧ tiles data next (S i) segs.
Proof. split; [inversion 1; eauto|]. intros (next & ? & ?). by eapply tiles_segment. Qed.

Lemma segment_at_start o i s next : segment_at data o i s next → (o + 64 ≤ length data)%nat.
Proof. intros [_ _ H _ _ _]. by eapply header_parse_length. Qed.

(** What is read is determined. *)
Lemma tiles_end_of_data o i segs : (length data ≤ o)%nat → tiles data o i segs → segs = [].
Proof.
  intros Ho H. destruct segs as [|s segs]; [done|]. apply tiles_cons_inv in H as (next & H & _).
  apply segment_at_start in H. lia.
Qed.

(** The loop, whatever was read before. *)
Lemma walk_loop_sound fuel o acc out :
  (length data - o ≤ fuel)%nat → walk_loop fuel data o acc = Some (Ok out) →
  ∃ segs, out = acc ++ segs ∧ tiles data o (length acc) segs ∧
    (segs = [] ∨ Z.of_nat (length out) ≤ MAX_SEGMENTS).
Proof.
  revert o acc. induction fuel as [|fuel IH]; intros o acc Hf; cbn [walk_loop];
    destruct (length data <=? o)%nat eqn:E1;
    try (intros [= <-]; exists []; rewrite app_nil_r; apply Nat.leb_le in E1;
         split_and!; [done|by apply tiles_end|by left]);
    apply Nat.leb_gt in E1; [lia|].
  destruct (_ <? SEGMENT_HEADER_SIZE)%nat eqn:E2.
  { destruct (forallb _ _) eqn:E3; [|done]. intros [= <-]. exists []. rewrite app_nil_r.
    apply Nat.ltb_lt in E2. unfold SEGMENT_HEADER_SIZE in E2. apply forallb_zero in E3.
    rewrite length_drop in E3. split_and!; [done|apply tiles_pad; [lia|done]|by left]. }
  destruct (MAX_SEGMENTS <=? _) eqn:E3; [done|]. split_bool.
  destruct (walk_one data o (length acc)) as [[s next]|e] eqn:Ew; [|done]. apply walk_one_Ok in Ew.
  pose proof (segment_at_next _ _ _ _ Ew).
  destruct (length data <? next)%nat eqn:E4.
  - intros [= <-]. apply Nat.ltb_lt in E4. exists [s]. split_and!; [done| |].
    + eapply tiles_segment; [done|]. apply tiles_end. lia.
    + right. rewrite length_app. cbn. lia.
  - intros Hw. apply IH in Hw as (segs & -> & Ht & Hm); [|lia]. exists (s :: segs).
    rewrite <-app_assoc in *. cbn [app] in *. rewrite length_app in Ht. cbn in Ht.
    replace (length acc + 1)%nat with (S (length acc)) in Ht by lia.
    split_and!; [done|by eapply tiles_segment|]. right. destruct Hm as [->|Hm]; [|done].
    rewrite length_app. cbn. lia.
Qed.

Lemma walk_loop_complete fuel o acc segs :
  (length data - o ≤ fuel)%nat → tiles data o (length acc) segs →
  Z.of_nat (length acc + length segs) ≤ MAX_SEGMENTS →
  walk_loop fuel data o acc = Some (Ok (acc ++ segs)).
Proof.
  revert o acc segs. induction fuel as [|fuel IH]; intros o acc segs Hf Ht Hm; cbn [walk_loop];
    destruct (length data <=? o)%nat eqn:E1;
    try (apply Nat.leb_le in E1; rewrite (tiles_end_of_data _ _ _ E1 Ht), app_nil_r; done);
    apply Nat.leb_gt in E1; [lia|].
  destruct segs as [|s segs].
  { apply tiles_nil_inv in Ht as [?|[Ho Hz]]; [lia|].
    rewrite (proj2 (Nat.ltb_lt _ _)) by (unfold SEGMENT_HEADER_SIZE; lia).
    rewrite (proj2 (forallb_zero _)), app_nil_r; [done|]. by rewrite length_drop. }
  apply tiles_cons_inv in Ht as (next & Hs & Ht). pose proof (segment_at_start _ _ _ _ Hs).
  pose proof (segment_at_next _ _ _ _ Hs).
  rewrite (proj2 (Nat.ltb_ge _ _)) by (unfold SEGMENT_HEADER_SIZE; lia).
  rewrite (proj2 (Z.leb_gt _ _)) by (cbn [length] in Hm; lia).
  rewrite (proj2 (walk_one_Ok o (length acc) s next) Hs).
  destruct (length data <? next)%nat eqn:E4.
  - apply Nat.ltb_lt in E4. rewrite (tiles_end_of_data next (S (length acc)) segs) by (done || lia). done.
  - rewrite (IH next (acc ++ [s]) segs); [by rewrite <-app_assoc|lia| |].
    + rewrite length_app. cbn. by replace (length acc + 1)%nat with (S (length acc)) by lia.
    + rewrite length_app. cbn in *. lia.
Qed.

Lemma walk_loop_total fuel o acc : (length data - o ≤ fuel)%nat → walk_loop fuel data o acc ≠ None.
Proof.
  revert o acc. induction fuel as [|fuel IH]; intros o acc Hf; cbn [walk_loop];
    destruct (length data <=? o)%nat eqn:E1; try done; apply Nat.leb_gt in E1; [lia|].
  repeat case_match; try done. apply IH.
  match goal with H : walk_one _ _ _ = Ok _ |- _ => apply walk_one_Ok, segment_at_next in H end. lia.
Qed.

Lemma walk_one_progress o i : walk_one data o i ≠ Err NoForwardProgress.
Proof.
  unfold walk_one. destruct (header_parse _) as [h|e] eqn:Eh; cbn [mbind result_bind].
  2:{ intros [= ->]. unfold header_parse in Eh. repeat case_match; done. }
  case_match; [done|]. destruct (checked_add _ _ _) as [e|] eqn:Ee; [|done]. case_match; [done|].
  pose proof (parsed_length_range _ _ Eh) as Hr. unfold is_u64 in Hr. apply checked_add_Some in Ee as [-> _].
  assert (∀ pe e, (pe ≤ e)%nat → pe = Z.to_nat (Z.of_nat (o + SEGMENT_HEADER_SIZE) + sh_payload_length h) →
    (align_up e <=? o)%nat = false) as Ha.
  { intros pe e Hpe ->. apply Nat.leb_gt. destruct (align_up_spec e) as [? _].
    unfold SEGMENT_HEADER_SIZE in *. lia. }
  destruct (header_is_signed h).
  - destruct (walk_footer _ _) as [r|er] eqn:Ef; cbn [mbind result_bind].
    + apply walk_footer_Ok in Ef as (f & _ & _ & _ & -> & _). cbn [snd].
      by rewrite (Ha _ _ ltac:(apply Nat.le_add_r) eq_refl).
    + intros [= ->]. unfold walk_footer, decode_signature_footer in Ef.
      repeat case_match; simplify_eq; cbn [mbind result_bind] in *; repeat case_match; done.
  - cbn [mbind result_bind]. by rewrite (Ha _ _ (le_n _) eq_refl).
Qed.

Lemma walk_loop_progress fuel o acc : walk_loop fuel data o acc ≠ Some (Err NoForwardProgress).
Proof.
  revert o acc. induction fuel as [|fuel IH]; intros o acc; cbn [walk_loop]; repeat case_match; try done;
    intros [= ->]; by eapply walk_one_progress.
Qed.
End walking.

Lemma walk_segments_sound data segs :
  Forall is_byte data → Z.of_nat (length data) ≤ u64_max → walk_segments data = Ok segs →
  tiles data 0 0 segs ∧ segs ≠ [] ∧ Z.of_nat (length segs) ≤ MAX_SEGMENTS.
Proof.
  intros Hb Hs H. unfold walk_segments in H. apply guard_Ok in H as [_ H].
  destruct (walk_loop (length data) data 0 []) as [[out|e]|] eqn:E; [|done..].
  apply (walk_loop_sound data Hb Hs) in E as (segs' & -> & Ht & Hm); [|lia]. cbn [app length] in *.
  destruct segs' as [|s segs']; [done|]. injection H as <-. split_and!; [done|done|by destruct Hm].
Qed.

(** C31: The walk accepts exactly the buffers that segments tile.  It returns
    [segs] exactly when these are segments of the buffer from offset zero,
    each with a valid header, a payload and a footer inside the buffer, each
    starting where the one before it ended rounded up to 64, up to a tail of
    fewer than 64 zero bytes, and there are between one and 2^20 of them.  The
    walk sees the bytes without the root page, which its callers cut off. *)
Theorem walk_segments_exact data segs :
  Forall is_byte data → Z.of_nat (length data) ≤ u64_max →
  walk_segments data = Ok segs ↔
    tiles data 0 0 segs ∧ segs ≠ [] ∧ Z.of_nat (length segs) ≤ MAX_SEGMENTS.
Proof.
  intros Hb Hs. split; [by apply walk_segments_sound|].
  intros (Ht & Hn & Hm). unfold walk_segments.
  rewrite (walk_loop_complete data Hb Hs (length data) 0 [] segs); [|lia|done|done].
  destruct segs as [|s segs]; [done|]. cbn [app].
  apply tiles_cons_inv in Ht as (next & H & _). apply segment_at_start in H.
  by rewrite (proj2 (Nat.ltb_ge _ _)) by (unfold SEGMENT_HEADER_SIZE; lia).
Qed.

(** The walk terminates: every round of the loop advances the offset by
    at least 64 bytes, so the fuel of one round per byte is never used up and
    the result does not depend on it; [NoForwardProgress] is never returned. *)
Theorem walk_terminates data :
  Forall is_byte data → Z.of_nat (length data) ≤ u64_max →
  (∀ fuel, (length data ≤ fuel)%nat → is_Some (walk_loop fuel data 0 [])) ∧
  walk_segments data ≠ Err NoForwardProgress.
Proof.
  intros Hb Hs. split.
  - intros fuel Hf. apply not_eq_None_Some. apply walk_loop_total; [done..|lia].
  - unfold walk_segments. destruct (_ <? _)%nat; [done|].
    pose proof (walk_loop_total data Hb Hs (length data) 0 [] ltac:(lia)) as Ht.
    destruct (walk_loop (length data) data 0 []) as [[[|]|e]|] eqn:E; try done.
    intros [= ->]. by apply (walk_loop_progress data Hb) in E.
Qed.

(** A header survives the round trip in both directions: a well-formed
    header is read back from its 64 bytes, and what the parser accepts encodes
    to the bytes it was read from. *)
Theorem header_roundtrip :
  (∀ h, header_wf h → header_parse (header_to_bytes h) = Ok h) ∧
  (∀ data h, Forall is_byte data → header_parse data = Ok h →
     header_to_bytes h = take 64 data ∧ header_wf h).
Proof. split; [exact header_parse_to_bytes|exact header_to_bytes_parse]. Qed.

(** Where the segments of a container are. *)
Lemma tiles_bounds data o i segs :
  tiles data o i segs →
  ∀ k s, segs !! k = Some s →
    ps_index s = (i + k)%nat ∧ (o ≤ ps_offset s)%nat ∧
    (ps_offset s + 64 = (ps_payload_range s).1)%nat ∧
    ((ps_payload_range s).1 ≤ (ps_payload_range s).2 ≤ length data)%nat ∧
    ∀ k' s', (k < k')%nat → segs !! k' = Some s' → ((ps_payload_range s).2 ≤ ps_offset s')%nat.
Proof.
  induction 1 as [o i Ho|o i Ho Hz|o i s next segs Hs Ht IH]; [done..|].
  destruct Hs as [Hi Ho Hh Hl Hp (e & Hf & He & Hn)].
  assert ((ps_payload_range s).2 ≤ e)%nat as Hpe.
  { unfold footer_at in Hf. destruct (header_is_signed _); [destruct Hf as (f & _ & _ & _ & -> & _)|destruct Hf as [_ ->]]; lia. }
  destruct (align_up_spec e) as [Ha _]. subst next.
  assert (o + 64 ≤ (ps_payload_range s).2)%nat as Hpo by (rewrite Hp; cbn; lia).
  intros [|k] s1 Hk; cbn in Hk.
  - injection Hk as <-. split_and!; [lia|lia|rewrite Hp, Ho; done|rewrite Hp; cbn; lia|lia|].
    intros [|k'] s' Hk' Hs'; [lia|]. cbn in Hs'. destruct (IH k' s' Hs') as (_ & H & _). lia.
  - destruct (IH k s1 Hk) as (H1 & H2 & H3 & H4 & H5). split_and!; [lia|lia|done|lia|lia|].
    intros [|k'] s' Hk' Hs'; [lia|]. cbn in Hs'. apply (H5 k' s'); [lia|done].
Qed.

(** The segment area of a container: the buffer, or the buffer without a root
    page at its end. *)
Definition segment_area (data body : list Z) : Prop :=
  body = data ∨
  (ROOT_PAGE_SIZE + SEGMENT_HEADER_SIZE ≤ length data)%nat ∧
  is_level0_page (drop (length data - ROOT_PAGE_SIZE) data) = true ∧
  body = take (length data - ROOT_PAGE_SIZE) data.

Lemma walk_area data segs :
  walk data = Ok segs → ∃ body, segment_area data body ∧ walk_segments body = Ok segs.
Proof.
  unfold walk, walk_container. intros H.
  destruct (split_root_page data) as [body page] eqn:E.
  assert (segment_area data body) as Ha.
  { unfold split_root_page in E. destruct (_ <? _)%nat eqn:E1; [injection E as <- _; by left|].
    apply Nat.ltb_ge in E1. destruct (is_level0_page _) eqn:E2; injection E as <- _; [right|by left].
    split_and!; [lia|done|done]. }
  destruct (walk_segments body) as [s|e] eqn:Ew.
  - injection H as <-. by exists body.
  - destruct (is_some page); [|done]. destruct (walk_segments data) as [s|e'] eqn:Ew'; [|done].
    injection H as <-. exists data. split; [by left|done].
Qed.

(** ** A sample: a manifest segment of three bytes *)
Definition sample_header (seg_type id len : Z) : SegmentHeader :=
  mkSegmentHeader SEGMENT_MAGIC SEGMENT_VERSION seg_type 0 id len 0 0 0 0 0 (replicate 16 0) 0 0.
Definition sample_container : list Z :=
  header_to_bytes (sample_header SEG_TYPE_MANIFEST 1 3) ++ [7; 8; 9] ++ replicate 61 0 ++
  header_to_bytes (sample_header SEG_TYPE_META 2 2) ++ [1; 2].

Example sample_walk :
  match walk sample_container with Ok segs => map ps_payload_range segs | Err _ => [] end = [(64, 67); (192, 194)]%nat.
Proof. vm_compute. reflexivity. Qed.
(** A flag alone does not make a segment signed: the padding after it is no footer. *)
Example signed_flag_needs_footer :
  walk (<[6%nat := 4]> sample_container) = Err SignedFlagWithoutFooter.
Proof. vm_compute. reflexivity. Qed.

Lemma sample_container_bytes : Forall is_byte sample_container.
Proof.
  assert (forallb (λ b, (0 <=? b) && (b <? 256)) sample_container = true) as H by (vm_compute; reflexivity).
  apply forallb_Forall in H. eapply Forall_impl; [exact H|]. intros b Hb. unfold is_byte. cbn in Hb. split_bool. lia.
Qed.

Lemma walk_segments_exact_witness :
  ∃ segs, walk_segments sample_container = Ok segs ∧ tiles sample_container 0 0 segs.
Proof.
  assert (∃ segs, walk_segments sample_container = Ok segs) as [segs H] by (eexists; vm_compute; reflexivity).
  exists segs. split; [exact H|].
  apply (walk_segments_exact sample_container segs); [exact sample_container_bytes|vm_compute; discriminate|exact H].
Defined.

Lemma walk_terminates_witness : is_Some (walk_loop 1000 sample_container 0 []).
Proof.
  apply (walk_terminates sample_container); [exact sample_container_bytes|vm_compute; discriminate|].
  apply Nat.leb_le. vm_compute. reflexivity.
Defined.
