(* ===== verification/RvfPayload.v ===== *)
(** The executable payload scanner: [crates/rvm-rvf/src/wasm_payload.rs].

    A WebAssembly segment is a bare module or a module behind a 64-byte header.
    The scanner is fed in chunks of any size; the file proves that the chunking
    does not matter and what it concludes. *)

From stdpp Require Import base numbers list option.
From Stdlib Require Import ZArith Lia.
From S2P Require Import Prelude.
From S2P Require Import Bytes.
From S2P Require Import Types.
From S2P Require Import WitnessLog.
From S2P Require Import RvfFormat.

Definition WASM_HEADER_LEN : nat := 64.
Definition WASM_HEADER_MAGIC : Z := 1381390157.
Definition MAGIC_BYTES : list Z := le_bytes 4 WASM_HEADER_MAGIC.

Inductive WasmPayloadError : Set :=
| TruncatedHeader | WpUnsupportedVersion (v : Z) | UnknownEnumValue | Compressed | ReservedNonZero
| EmptyBytecode | LengthMismatch.
#[export] Instance WasmPayloadError_eq_dec : EqDecision WasmPayloadError.
Proof. solve_decision. Defined.

Record ModuleSpan : Set := mkModuleSpan { ms_offset : Z; ms_len : Z; ms_sha256 : list Z }.

Inductive WasmPayloadFacts : Set :=
| Bare (span : ModuleSpan) | Headed (span : ModuleSpan) | Rejected (e : WasmPayloadError).

(** The head is 64 bytes long. *)
Definition parse_header (head : list Z) : result WasmPayloadError Z :=
  let version := read_le 4 2 head in
  if negb (version =? 1) then Err (WpUnsupportedVersion version)
  else if (4 <? format_byte_at head 6) || (4 <? format_byte_at head 7) then Err UnknownEnumValue
  else
    let compressed := read_le 16 4 head in
    if negb (compressed =? 0) || negb (format_byte_at head 20 =? 0) then Err Compressed
    else if existsb (λ b, negb (b =? 0)) (slice 58 6 head) then Err ReservedNonZero
    else
      let size := read_le 12 4 head in
      if size =? 0 then Err EmptyBytecode else Ok size.

Inductive Mode : Set :=
| MUndecided | MBare | MHeader | MBody (want : Z) | MFailed (e : WasmPayloadError).

(** [ws_sha] is what the incremental hasher was fed; finalizing it is SHA-256
    of that. *)
Record WasmPayloadScanner : Set := mkScanner {
  ws_mode : Mode;
  ws_head : list Z;
  ws_have : nat;
  ws_len : Z;
  ws_sha : list Z;
}.

Definition scanner_new : WasmPayloadScanner := mkScanner MUndecided (replicate WASM_HEADER_LEN 0) 0 0 [].

(** [sink] collects what the callback was given. *)
Definition scanner_emit (bytes : list Z) (s : WasmPayloadScanner) (sink : list Z)
    : WasmPayloadScanner * list Z :=
  match bytes with
  | [] => (s, sink)
  | _ => (mkScanner (ws_mode s) (ws_head s) (ws_have s) (ws_len s + Z.of_nat (length bytes)) (ws_sha s ++ bytes),
          sink ++ bytes)
  end.

Definition scanner_set_mode (m : Mode) (s : WasmPayloadScanner) : WasmPayloadScanner :=
  mkScanner m (ws_head s) (ws_have s) (ws_len s) (ws_sha s).

Definition mode_is_undecided (m : Mode) : bool := match m with MUndecided => true | _ => false end.

(** The [loop]: each round but the last leaves the undecided or header mode
    for a later one, so four rounds are enough. *)
Fixpoint scanner_loop (fuel : nat) (bytes : list Z) (s : WasmPayloadScanner) (sink : list Z)
    : option (result WasmPayloadError unit * WasmPayloadScanner * list Z) :=
  match fuel with
  | O => None
  | S fuel =>
      match ws_mode s with
      | MFailed e => Some (Err e, s, sink)
      | MBare => let '(s, sink) := scanner_emit bytes s sink in Some (Ok tt, s, sink)
      | MUndecided | MHeader =>
          let take_ := Nat.min (WASM_HEADER_LEN - ws_have s) (length bytes) in
          let head := write_at (ws_have s) (take take_ bytes) (ws_head s) in
          let s := mkScanner (ws_mode s) head (ws_have s + take_) (ws_len s) (ws_sha s) in
          let bytes := drop take_ bytes in
          if mode_is_undecided (ws_mode s) && (length MAGIC_BYTES <=? ws_have s)%nat &&
             negb (bool_decide (take 4 (ws_head s) = MAGIC_BYTES))
          then
            let '(s, sink) := scanner_emit (take (ws_have s) (ws_head s)) (scanner_set_mode MBare s) sink in
            scanner_loop fuel bytes s sink
          else
            let s := if mode_is_undecided (ws_mode s) && (length MAGIC_BYTES <=? ws_have s)%nat
                     then scanner_set_mode MHeader s else s in
            if negb (mode_is_undecided (ws_mode s)) && (ws_have s =? WASM_HEADER_LEN)%nat then
              match parse_header (ws_head s) with
              | Ok want => scanner_loop fuel bytes (scanner_set_mode (MBody want) s) sink
              | Err e => Some (Err e, scanner_set_mode (MFailed e) s, sink)
              end
            else Some (Ok tt, s, sink)
      | MBody want =>
          let room := want - ws_len s in
          if room <? Z.of_nat (length bytes)
          then Some (Err LengthMismatch, scanner_set_mode (MFailed LengthMismatch) s, sink)
          else let '(s, sink) := scanner_emit bytes s sink in Some (Ok tt, s, sink)
      end
  end.

Definition scanner_push (bytes : list Z) (s : WasmPayloadScanner) (sink : list Z)
    : option (result WasmPayloadError unit * WasmPayloadScanner * list Z) :=
  scanner_loop 4 bytes s sink.

Section scanning.
Context {SH : Sha256}.

Definition span_of (s : WasmPayloadScanner) (bare : bool) : WasmPayloadFacts :=
  let span := mkModuleSpan (if bare then 0 else Z.of_nat WASM_HEADER_LEN) (ws_len s) (sha256 (ws_sha s)) in
  if bare then Bare span else Headed span.

Definition scanner_finish (s : WasmPayloadScanner) (sink : list Z) : WasmPayloadFacts * list Z :=
  match ws_mode s with
  | MFailed e => (Rejected e, sink)
  | MUndecided =>
      let '(s, sink) := scanner_emit (take (ws_have s) (ws_head s)) s sink in (span_of s true, sink)
  | MBare => (span_of s true, sink)
  | MHeader => (Rejected TruncatedHeader, sink)
  | MBody want => (if ws_len s =? want then span_of s false else Rejected LengthMismatch, sink)
  end.

Definition scan_payload (payload : list Z) : WasmPayloadFacts :=
  match scanner_push payload scanner_new [] with
  | Some (Ok _, s, sink) => (scanner_finish s sink).1
  | Some (Err e, _, _) => Rejected e
  | None => Rejected TruncatedHeader
  end.

Definition split_wasm_payload (payload : list Z) : result WasmPayloadError (list Z) :=
  match scanner_push payload scanner_new [] with
  | Some (Ok _, s, sink) =>
      match (scanner_finish s sink).1 with
      | Bare _ => Ok payload
      | Headed span => Ok (drop (Z.to_nat (ms_offset span)) payload)
      | Rejected e => Err e
      end
  | Some (Err e, _, _) => Err e
  | None => Err TruncatedHeader
  end.

(* ------------------------------------------------------------------ *)
(** ** What a payload is *)

Definition is_headed (p : list Z) : bool := (4 <=? length p)%nat && bool_decide (take 4 p = MAGIC_BYTES).

(** The facts as a function of the whole payload. *)
Definition payload_facts (p : list Z) : WasmPayloadFacts :=
  if negb (is_headed p) then Bare (mkModuleSpan 0 (Z.of_nat (length p)) (sha256 p))
  else if (length p <? WASM_HEADER_LEN)%nat then Rejected TruncatedHeader
  else
    match parse_header (take WASM_HEADER_LEN p) with
    | Err e => Rejected e
    | Ok want =>
        let body := drop WASM_HEADER_LEN p in
        if Z.of_nat (length body) =? want
        then Headed (mkModuleSpan (Z.of_nat WASM_HEADER_LEN) want (sha256 body))
        else Rejected LengthMismatch
    end.

(** The module behind it, when there is one. *)
Definition payload_module (p : list Z) : list Z := if is_headed p then drop WASM_HEADER_LEN p else p.

(** The scanner after the bytes [p], having passed [sink] on. *)
Definition scanned (p : list Z) (s : WasmPayloadScanner) (sink : list Z) : Prop :=
  match ws_mode s with
  | MUndecided =>
      (length p < 4)%nat ∧ ws_have s = length p ∧ ws_head s = p ++ replicate (WASM_HEADER_LEN - length p) 0 ∧
      ws_len s = 0 ∧ ws_sha s = [] ∧ sink = []
  | MHeader =>
      is_headed p = true ∧ (length p < WASM_HEADER_LEN)%nat ∧ ws_have s = length p ∧
      ws_head s = p ++ replicate (WASM_HEADER_LEN - length p) 0 ∧ ws_len s = 0 ∧ ws_sha s = [] ∧ sink = []
  | MBare =>
      (4 ≤ length p)%nat ∧ is_headed p = false ∧ ws_len s = Z.of_nat (length p) ∧ ws_sha s = p ∧ sink = p
  | MBody want =>
      is_headed p = true ∧ (WASM_HEADER_LEN ≤ length p)%nat ∧ parse_header (take WASM_HEADER_LEN p) = Ok want ∧
      ws_len s = Z.of_nat (length p - WASM_HEADER_LEN) ∧ ws_len s ≤ want ∧ ws_sha s = drop WASM_HEADER_LEN p ∧ sink = drop WASM_HEADER_LEN p
  | MFailed e =>
      is_headed p = true ∧ (WASM_HEADER_LEN ≤ length p)%nat ∧
      (parse_header (take WASM_HEADER_LEN p) = Err e ∨
       e = LengthMismatch ∧ ∃ want, parse_header (take WASM_HEADER_LEN p) = Ok want ∧ want < Z.of_nat (length p - WASM_HEADER_LEN))
  end.

Lemma header_len : WASM_HEADER_LEN = 64%nat.
Proof. done. Qed.

#[local] Opaque WASM_HEADER_LEN.

Lemma is_headed_app p q : (4 ≤ length p)%nat → is_headed (p ++ q) = is_headed p.
Proof.
  intros H. unfold is_headed. rewrite length_app, take_app_le by done.
  by rewrite !(proj2 (Nat.leb_le _ _)) by lia.
Qed.

Lemma scanned_new : scanned [] scanner_new [].
Proof. cbn. split_and!; done || lia. Qed.

(** Filling the head. *)
Lemma write_head (p bytes : list Z) :
  (length p ≤ WASM_HEADER_LEN)%nat →
  let n := Nat.min (WASM_HEADER_LEN - length p) (length bytes) in
  write_at (length p) (take n bytes) (p ++ replicate (WASM_HEADER_LEN - length p) 0) =
    take WASM_HEADER_LEN (p ++ bytes) ++ replicate (WASM_HEADER_LEN - length (p ++ bytes)) 0.
Proof.
  intros Hp n. unfold write_at. rewrite take_app_length, length_take, length_app.
  rewrite drop_app_ge by lia. rewrite drop_replicate, take_app_ge by lia. rewrite <-app_assoc.
  f_equal. subst n. destruct (Nat.min_spec (WASM_HEADER_LEN - length p) (length bytes)) as [[H ->]|[H ->]].
  - f_equal. f_equal. lia.
  - rewrite (take_ge bytes (WASM_HEADER_LEN - length p)) by lia. rewrite take_ge by lia. f_equal. f_equal. lia.
Qed.

(** Body and bare modes only grow. *)
Lemma scanned_tail fuel p bytes s sink :
  (0 < fuel)%nat → scanned p s sink →
  match ws_mode s with MUndecided | MHeader => False | _ => True end →
  ∃ r s' sink', scanner_loop fuel bytes s sink = Some (r, s', sink') ∧
    scanned (p ++ bytes) s' sink' ∧
    (∀ e, r = Err e ↔ ws_mode s' = MFailed e).
Proof.
  pose proof header_len as HN.
  intros Hf Hs Hm. destruct fuel as [|fuel]; [lia|]. destruct s as [m head have len sha].
  unfold scanned in Hs. cbn [ws_mode ws_head ws_have ws_len ws_sha] in *.
  destruct m as [| | |want|e]; try done; cbn [scanner_loop ws_mode].
  - destruct Hs as (H1 & H2 & H3 & H4 & H5). subst len sha sink.
    assert (scanner_emit bytes (mkScanner MBare head have (Z.of_nat (length p)) p) p =
      (mkScanner MBare head have (Z.of_nat (length (p ++ bytes))) (p ++ bytes), p ++ bytes)) as ->.
    { unfold scanner_emit. destruct bytes as [|b bytes]; [by rewrite app_nil_r|].
      cbn [ws_mode ws_head ws_have ws_len ws_sha]. rewrite length_app. do 2 f_equal. lia. }
    eexists _, _, _. split; [done|]. split; [|done]. cbn.
    rewrite is_headed_app by done. split_and!; [rewrite length_app; lia|done..].
  - destruct Hs as (H1 & H2 & H3 & H4 & H5 & H6 & H7). subst sha sink. cbn [ws_len].
    destruct (want - len <? _) eqn:E; split_bool.
    + eexists _, _, _. split; [done|]. split; [|cbn; naive_solver]. cbn. rewrite is_headed_app by lia.
      rewrite length_app, take_app_le by lia. split_and!; [done|lia|]. right. split; [done|].
      exists want. split; [done|]. lia.
    + assert (scanner_emit bytes (mkScanner (MBody want) head have len (drop WASM_HEADER_LEN p)) (drop WASM_HEADER_LEN p) =
        (mkScanner (MBody want) head have (len + Z.of_nat (length bytes)) (drop WASM_HEADER_LEN p ++ bytes), drop WASM_HEADER_LEN p ++ bytes)) as ->.
      { unfold scanner_emit. destruct bytes as [|b bytes]; [|done]. rewrite app_nil_r. do 2 f_equal. cbn. lia. }
      eexists _, _, _. split; [done|]. split; [|done]. cbn. rewrite is_headed_app, take_app_le, drop_app_le by lia.
      rewrite length_app. split_and!; try done; lia.
  - destruct Hs as (H1 & H2 & H3). eexists _, _, _. split; [done|]. split; [|cbn; naive_solver]. cbn.
    rewrite is_headed_app, length_app, take_app_le by lia. split_and!; [done|lia|].
    destruct H3 as [H3|(-> & w & Hw & Hlt)]; [by left|right]. split; [done|]. exists w. split; [done|lia].
Qed.

Lemma parse_header_range head want :
  Forall is_byte head → length head = WASM_HEADER_LEN → parse_header head = Ok want → 0 < want.
Proof.
  pose proof header_len as HN.
  intros Hb Hl H. unfold parse_header in H. do 4 apply guard_Ok in H as [_ H].
  apply guard_Ok in H as [Hz H]. injection H as <-.
  pose proof (read_le_range 12 4 head Hb ltac:(lia)). split_bool. lia.
Qed.

Lemma take_zeros_head (p' : list Z) k :
  (k ≤ WASM_HEADER_LEN)%nat → (k ≤ length p')%nat →
  take k (take WASM_HEADER_LEN p' ++ replicate (WASM_HEADER_LEN - length p') 0) = take k p'.
Proof.
  pose proof header_len as HN.
  intros Hk Hp. rewrite take_app_le by (rewrite length_take; lia). by rewrite take_take, Nat.min_l by lia.
Qed.

(** The bytes that complete the head, and the rest. *)
Lemma split_at_head (p bytes : list Z) :
  (length p ≤ WASM_HEADER_LEN)%nat → let n := Nat.min (WASM_HEADER_LEN - length p) (length bytes) in
  p ++ bytes = take WASM_HEADER_LEN (p ++ bytes) ++ drop n bytes.
Proof.
  intros Hp n. rewrite take_app_ge by lia. rewrite <-app_assoc. f_equal. subst n.
  rewrite <-(take_drop (WASM_HEADER_LEN - length p) bytes) at 1. f_equal.
  destruct (Nat.min_spec (WASM_HEADER_LEN - length p) (length bytes)) as [[_ ->]|[H ->]]; [done|].
  by rewrite !drop_ge by lia.
Qed.

Lemma scanned_head fuel p bytes s sink :
  (0 < fuel)%nat →
  Forall is_byte (p ++ bytes) → scanned p s sink →
  match ws_mode s with MUndecided | MHeader => True | _ => False end →
  ∃ r s' sink', scanner_loop (S fuel) bytes s sink = Some (r, s', sink') ∧
    scanned (p ++ bytes) s' sink' ∧ (∀ e, r = Err e ↔ ws_mode s' = MFailed e).
Proof.
  pose proof header_len as HN.
  intros Hfuel Hb Hs Hm.
  assert ((length p < WASM_HEADER_LEN)%nat ∧ ws_have s = length p ∧ ws_head s = p ++ replicate (WASM_HEADER_LEN - length p) 0 ∧
    ws_len s = 0 ∧ ws_sha s = [] ∧ sink = [] ∧
    (ws_mode s = MUndecided ∧ (length p < 4)%nat ∨ ws_mode s = MHeader ∧ is_headed p = true))
    as (Hp & Eh & Ehd & El & Es & -> & Hmode).
  { destruct s as [m head have len sha]. unfold scanned in Hs. cbn [ws_mode ws_head ws_have ws_len ws_sha] in *.
    destruct m; try done; naive_solver lia. }
  set (p' := p ++ bytes) in *. set (n := Nat.min (WASM_HEADER_LEN - length p) (length bytes)).
  assert (length p' = length p + length bytes)%nat as Hlp' by apply length_app.
  pose proof (split_at_head p bytes ltac:(lia)) as Hsplit. fold p' n in Hsplit.
  pose proof (write_head p bytes ltac:(lia)) as Hw. cbn zeta in Hw. fold p' n in Hw.
  set (head' := take WASM_HEADER_LEN p' ++ replicate (WASM_HEADER_LEN - length p') 0) in *.
  assert (length (take WASM_HEADER_LEN p') = Nat.min WASM_HEADER_LEN (length p')) as Hlt by (rewrite length_take; done).
  cbn [scanner_loop].
  destruct s as [m head have len sha]. cbn [ws_mode ws_head ws_have ws_len ws_sha] in *. subst have head len sha.
  fold n. rewrite Hw.
  assert (length p + n = Nat.min WASM_HEADER_LEN (length p'))%nat as Hn by (subst n; lia).
  change (length MAGIC_BYTES) with 4%nat.
  (* the header mode is reached with the magic in place *)
  assert (∀ r, is_headed p' = true →
    (if (length p + n =? WASM_HEADER_LEN)%nat then
       match parse_header head' with
       | Ok want => scanner_loop fuel (drop n bytes) (scanner_set_mode (MBody want) (mkScanner MHeader head' (length p + n) 0 [])) []
       | Err e => Some (Err e, scanner_set_mode (MFailed e) (mkScanner MHeader head' (length p + n) 0 []), [])
       end
     else Some (Ok tt, mkScanner MHeader head' (length p + n) 0 [], [])) = r →
    ∃ r' s' sink', r = Some (r', s', sink') ∧ scanned p' s' sink' ∧ (∀ e, r' = Err e ↔ ws_mode s' = MFailed e))
    as Hheader.
  { intros r Hh <-. destruct (length p + n =? WASM_HEADER_LEN)%nat eqn:E64; split_bool.
    - assert (head' = take WASM_HEADER_LEN p') as ->.
      { subst head'. replace (WASM_HEADER_LEN - length p')%nat with 0%nat by lia. apply app_nil_r. }
      destruct (parse_header (take WASM_HEADER_LEN p')) as [want|e] eqn:Ep.
      + assert (0 < want) as Hwant by (apply (parse_header_range (take WASM_HEADER_LEN p')); [by apply Forall_take|lia|done]).
        destruct (scanned_tail fuel (take WASM_HEADER_LEN p') (drop n bytes)
          (mkScanner (MBody want) (take WASM_HEADER_LEN p') (length p + n) 0 []) []) as (r' & s' & sink' & H1 & H2 & H3);
          [lia| |done|].
        * cbn. rewrite take_take, Nat.min_id, (drop_ge (take WASM_HEADER_LEN p')), Nat.min_l in * by lia.
          rewrite <-(is_headed_app (take WASM_HEADER_LEN p') (drop n bytes)), <-Hsplit by lia.
          rewrite Hlt. split_and!; try done; lia.
        * exists r', s', sink'. rewrite <-Hsplit in H2. split_and!; [exact H1|exact H2|exact H3].
      + eexists _, _, _. split; [done|]. cbn. split; [|naive_solver]. split_and!; [done|lia|by left].
    - eexists _, _, _. split; [done|]. cbn. split; [|done]. split_and!; try done; try lia.
      subst head'. by rewrite (take_ge p') by lia. }
  destruct Hmode as [[-> Hp4]|[-> Hhd]]; cbn [mode_is_undecided andb ws_mode ws_head ws_have].
  2:{ cbn [negb andb]. apply Hheader; [|done]. subst p'. rewrite is_headed_app; [done|].
      unfold is_headed in Hhd. apply andb_true_iff in Hhd as [H _]. by apply Nat.leb_le in H. }
  destruct (4 <=? length p + n)%nat eqn:E4; cbn [andb].
  2:{ apply Nat.leb_gt in E4. cbn [mode_is_undecided negb andb ws_mode]. eexists _, _, _. split; [done|]. cbn.
      split; [|done]. split_and!; try done; try lia. subst head'. by rewrite (take_ge p') by lia. }
  apply Nat.leb_le in E4. change (take 4 (ws_head _)) with (take 4 head').
  assert (take 4 head' = take 4 p') as -> by (apply take_zeros_head; lia).
  case_bool_decide as Emg; cbn [negb andb scanner_set_mode ws_mode ws_head ws_have ws_len ws_sha mode_is_undecided].
  { apply Hheader; [|done]. unfold is_headed. rewrite (proj2 (Nat.leb_le _ _)), bool_decide_true by (done || lia). done. }
  change (take (ws_have _) (ws_head _)) with (take (length p + n) head').
  assert (take (length p + n) head' = take WASM_HEADER_LEN p') as ->.
  { unfold head'. rewrite take_zeros_head by lia. rewrite Hn.
    destruct (Nat.min_spec WASM_HEADER_LEN (length p')) as [[_ ->]|[? ->]]; [done|]. by rewrite !take_ge by lia. }
  unfold scanner_set_mode. cbn [ws_mode ws_head ws_have ws_len ws_sha].
  assert (scanner_emit (take WASM_HEADER_LEN p') (mkScanner MBare head' (length p + n) 0 []) [] =
    (mkScanner MBare head' (length p + n) (Z.of_nat (length (take WASM_HEADER_LEN p'))) (take WASM_HEADER_LEN p'), take WASM_HEADER_LEN p')) as ->.
  { unfold scanner_emit. destruct (take WASM_HEADER_LEN p') eqn:E; [simpl length in Hlt; lia|].
    done. }
  destruct (scanned_tail fuel (take WASM_HEADER_LEN p') (drop n bytes)
    (mkScanner MBare head' (length p + n) (Z.of_nat (length (take WASM_HEADER_LEN p'))) (take WASM_HEADER_LEN p')) (take WASM_HEADER_LEN p'))
    as (r' & s' & sink' & H1 & H2 & H3); [lia| |done|].
  - cbn. split_and!; [lia| |done..]. rewrite <-(is_headed_app (take WASM_HEADER_LEN p') (drop n bytes)), <-Hsplit by lia.
    unfold is_headed. by rewrite bool_decide_false, andb_false_r.
  - exists r', s', sink'. rewrite <-Hsplit in H2. split_and!; [exact H1|exact H2|exact H3].
Qed.

(** One push from any state the scanner can be in. *)
Lemma scanned_push p bytes s sink :
  Forall is_byte (p ++ bytes) → scanned p s sink →
  ∃ r s' sink', scanner_push bytes s sink = Some (r, s', sink') ∧
    scanned (p ++ bytes) s' sink' ∧ (∀ e, r = Err e ↔ ws_mode s' = MFailed e).
Proof.
  intros Hb Hs. destruct (ws_mode s) eqn:E.
  1,3: apply scanned_head; rewrite ?E; done || lia.
  all: apply scanned_tail; rewrite ?E; done || lia.
Qed.

Lemma scanned_finish p s sink :
  scanned p s sink → (scanner_finish s sink).1 = payload_facts p ∧
  match payload_facts p with Rejected _ => True | _ => (scanner_finish s sink).2 = payload_module p end.
Proof.
  pose proof header_len as HN. intros Hs. destruct s as [m head have len sha].
  unfold scanned, scanner_finish, payload_facts, payload_module in *.
  cbn [ws_mode ws_head ws_have ws_len ws_sha] in *. destruct m as [| | |want|e].
  - destruct Hs as (H4 & -> & -> & -> & -> & ->).
    assert (is_headed p = false) as -> by (unfold is_headed; by rewrite (proj2 (Nat.leb_gt _ _)) by lia).
    rewrite take_app_length. cbn [negb]. by destruct p.
  - destruct Hs as (H4 & -> & -> & -> & ->). done.
  - destruct Hs as (-> & H4 & _). by rewrite (proj2 (Nat.ltb_lt _ _)) by lia.
  - destruct Hs as (-> & H4 & -> & -> & Hle & -> & ->). cbn [negb].
    rewrite (proj2 (Nat.ltb_ge _ _)), length_drop by lia.
    destruct (_ =? want) eqn:E; split_bool; [subst want|]; done.
  - destruct Hs as (-> & H4 & H). cbn [negb]. rewrite (proj2 (Nat.ltb_ge _ _)), length_drop by lia.
    destruct H as [->|(-> & w & -> & Hlt)]; [done|]. by rewrite (proj2 (Z.eqb_neq _ _)) by lia.
Qed.

(** Feed a list of chunks, stopping at the first refusal, as a reader does. *)
Fixpoint push_chunks (chunks : list (list Z)) (s : WasmPayloadScanner) (sink : list Z)
    : option (result WasmPayloadError unit * WasmPayloadScanner * list Z) :=
  match chunks with
  | [] => Some (Ok tt, s, sink)
  | c :: chunks =>
      match scanner_push c s sink with
      | Some (Ok _, s, sink) => push_chunks chunks s sink
      | r => r
      end
  end.

Lemma scanned_fail p q s sink e :
  scanned p s sink → ws_mode s = MFailed e → payload_facts (p ++ q) = Rejected e.
Proof.
  pose proof header_len as HN. unfold scanned. intros H Em. rewrite Em in H. destruct H as (Hh & Hl & H).
  unfold payload_facts. rewrite is_headed_app, Hh by lia. cbn [negb].
  rewrite (proj2 (Nat.ltb_ge _ _)), take_app_le, length_drop, length_app by (rewrite ?length_app; lia).
  destruct H as [->|(-> & w & -> & Hlt)]; [done|]. by rewrite (proj2 (Z.eqb_neq _ _)) by lia.
Qed.

Lemma push_chunks_scanned chunks : ∀ p s sink,
  Forall is_byte (p ++ concat chunks) → scanned p s sink →
  ∃ r s' sink', push_chunks chunks s sink = Some (r, s', sink') ∧
    match r with
    | Ok _ => scanned (p ++ concat chunks) s' sink'
    | Err e => payload_facts (p ++ concat chunks) = Rejected e
    end.
Proof.
  induction chunks as [|c chunks IH]; intros p s sink Hb Hs; cbn [push_chunks concat] in *.
  { eexists _, _, _. split; [done|]. by rewrite app_nil_r. }
  rewrite app_assoc in *.
  destruct (scanned_push p c s sink) as (r & s' & sink' & -> & Hs' & He).
  { by apply Forall_app in Hb as [? _]. } { done. }
  destruct r as [[]|e]; [by apply IH|]. eexists _, _, _. split; [done|].
  eapply scanned_fail; [done|]. by apply He.
Qed.

Lemma facts_span p :
  match payload_facts p with
  | Bare span | Headed span =>
      ms_sha256 span = sha256 (payload_module p) ∧ ms_len span = Z.of_nat (length (payload_module p)) ∧
      ms_offset span = if is_headed p then 64 else 0
  | Rejected _ => True
  end.
Proof.
  unfold payload_facts, payload_module. destruct (is_headed p); cbn [negb]; [|done].
  destruct (_ <? _)%nat; [done|]. destruct (parse_header _); [|done].
  destruct (_ =? _) eqn:E; split_bool; [|done]. by rewrite E.
Qed.

Lemma push_whole p :
  Forall is_byte p →
  ∃ r s sink, scanner_push p scanner_new [] = Some (r, s, sink) ∧
    match r with Ok _ => scanned p s sink | Err e => payload_facts p = Rejected e end.
Proof.
  intros Hb. destruct (scanned_push [] p scanner_new []) as (r & s & sink & E & H & He); [done|apply scanned_new|].
  exists r, s, sink. split; [done|]. destruct r as [|e]; [done|].
  rewrite <-(app_nil_r p). eapply scanned_fail; [done|]. by apply He.
Qed.

Lemma scan_payload_facts p : Forall is_byte p → scan_payload p = payload_facts p.
Proof.
  intros Hb. unfold scan_payload. destruct (push_whole p Hb) as (r & s & sink & -> & H).
  destruct r; [|done]. by apply scanned_finish in H as [-> _].
Qed.

Lemma split_payload_facts p :
  Forall is_byte p →
  split_wasm_payload p = match payload_facts p with Rejected e => Err e | _ => Ok (payload_module p) end.
Proof.
  intros Hb. unfold split_wasm_payload. destruct (push_whole p Hb) as (r & s & sink & -> & H).
  destruct r as [[]|e]; [|by rewrite H]. apply scanned_finish in H as [-> _].
  pose proof (facts_span p) as Hs. unfold payload_module in *.
  destruct (payload_facts p) as [span|span|e] eqn:E; [| |done].
  - unfold payload_facts in E. destruct (is_headed p); [|done]. cbn [negb] in E.
    destruct (_ <? _)%nat; [done|]. destruct (parse_header _); [|done]. by destruct (_ =? _).
  - unfold payload_facts in E. destruct (is_headed p); [|done]. destruct Hs as (_ & _ & ->). done.
Qed.

(** Chunking independence: feeding the payload scanner a payload in pieces
    of any sizes, then finishing, concludes exactly what [payload_facts] says of
    the whole payload: a bare module, a headed module whose declared size is the
    size of the body, or the first refusal; four rounds of the loop are enough,
    and when the payload is accepted, the sink was given exactly the module
    bytes, with the length and the digest reported. *)
Theorem payload_scan_exact chunks :
  Forall is_byte (concat chunks) →
  ∃ r s sink, push_chunks chunks scanner_new [] = Some (r, s, sink) ∧
    match r with
    | Ok _ =>
        (scanner_finish s sink).1 = payload_facts (concat chunks) ∧
        match payload_facts (concat chunks) with
        | Bare span | Headed span =>
            (scanner_finish s sink).2 = payload_module (concat chunks) ∧
            ms_sha256 span = sha256 (payload_module (concat chunks)) ∧
            ms_len span = Z.of_nat (length (payload_module (concat chunks)))
        | Rejected _ => True
        end
    | Err e => payload_facts (concat chunks) = Rejected e
    end ∧
    scan_payload (concat chunks) = payload_facts (concat chunks) ∧
    split_wasm_payload (concat chunks) =
      match payload_facts (concat chunks) with
      | Rejected e => Err e
      | _ => Ok (payload_module (concat chunks))
      end.
Proof.
  intros Hb. destruct (push_chunks_scanned chunks [] scanner_new []) as (r & s & sink & E & H); [done|apply scanned_new|].
  cbn [app] in H. exists r, s, sink. split; [done|].
  set (p := concat chunks) in *. pose proof (facts_span p) as Hspan. split_and!.
  - destruct r as [[]|e]; [|done]. apply scanned_finish in H as [H1 H2]. split; [done|].
    destruct (payload_facts p) as [span|span|e]; naive_solver.
  - exact (scan_payload_facts p Hb).
  - exact (split_payload_facts p Hb).
Qed.
End scanning.

#[local] Instance payload_digest : Sha256 := λ data, replicate 32 (foldl Z.add 0 data mod 256).

(** A headed module of two bytes, cut inside the magic, inside the header and
    inside the body. *)
Definition sample_head : list Z :=
  MAGIC_BYTES ++ [1; 0; 0; 0; 0; 0; 0; 0] ++ le_bytes 4 2 ++ replicate 48 0.
Definition sample_chunks : list (list Z) :=
  [take 3 sample_head; take 40 (drop 3 sample_head); drop 43 sample_head ++ [7]; []; [9]].

Lemma payload_scan_exact_witness :
  ∃ r s sink, push_chunks sample_chunks scanner_new [] = Some (r, s, sink) ∧
    (scanner_finish s sink).2 = [7; 9] ∧
    payload_facts (concat sample_chunks) = Headed (mkModuleSpan 64 2 (sha256 [7; 9])).
Proof.
  destruct (payload_scan_exact sample_chunks) as (r & s & sink & H1 & H2 & _ & _).
  { unfold sample_chunks. vm_compute. repeat constructor; done. }
  exists r, s, sink. split; [exact H1|].
  assert (payload_facts (concat sample_chunks) =
    Headed (mkModuleSpan 64 2 (sha256 [7; 9]))) as Ef by (vm_compute; reflexivity).
  rewrite Ef in H2. destruct r as [u|e]; [|discriminate H2]. destruct H2 as (_ & H2 & _).
  split; [rewrite H2; vm_compute; reflexivity|exact Ef].
Defined.
