(* ===== verification/RvfCapability.v ===== *)
(** Capability declarations and size limits of an RVF container:
    [crates/rvm-rvf/src/capability.rs], [policy.rs].

    A container declares capability classes in its metadata; a class is granted
    when it is declared and representable, and denied otherwise.  Size limits
    bound the sum of each class of payload. *)

From stdpp Require Import base numbers list option strings sorting sets.
From Stdlib Require Import ZArith Lia.
From S2P Require Import Prelude.
From S2P Require Import Text.
From S2P Require Import Types.
From S2P Require Import CapTable.
From S2P Require Import RvfFormat.

(* ------------------------------------------------------------------ *)
(** ** Text as characters

    Trimming removes Unicode white space, so this component decodes UTF-8:
    a [&str] is its list of characters. *)

Definition is_cont (b : Z) : bool := (128 <=? b) && (b <=? 191).
Definition in_range (lo hi b : Z) : bool := (lo <=? b) && (b <=? hi).

(** The second byte of a three- or four-byte sequence (Unicode, table 3-7). *)
Definition second_of_three (b0 b1 : Z) : bool :=
  if b0 =? 224 then in_range 160 191 b1
  else if b0 =? 237 then in_range 128 159 b1
  else in_range 225 239 b0 && is_cont b1.
Definition second_of_four (b0 b1 : Z) : bool :=
  if b0 =? 240 then in_range 144 191 b1
  else if b0 =? 244 then in_range 128 143 b1
  else in_range 241 243 b0 && is_cont b1.

(** [core::str::from_utf8]. *)
Fixpoint from_utf8 (l : list Z) : option (list Z) :=
  match l with
  | [] => Some []
  | b0 :: l0 =>
      if in_range 0 127 b0 then cons b0 <$> from_utf8 l0
      else
        match l0 with
        | [] => None
        | b1 :: l1 =>
            if in_range 194 223 b0 && is_cont b1
            then cons ((b0 - 192) * 64 + (b1 - 128)) <$> from_utf8 l1
            else
              match l1 with
              | [] => None
              | b2 :: l2 =>
                  if second_of_three b0 b1 && is_cont b2
                  then cons ((b0 - 224) * 4096 + (b1 - 128) * 64 + (b2 - 128)) <$> from_utf8 l2
                  else
                    match l2 with
                    | [] => None
                    | b3 :: l3 =>
                        if second_of_four b0 b1 && is_cont b2 && is_cont b3
                        then cons ((b0 - 240) * 262144 + (b1 - 128) * 4096 + (b2 - 128) * 64 + (b3 - 128))
                               <$> from_utf8 l3
                        else None
                    end
              end
        end
  end.

(** [char::is_whitespace]. *)
Definition is_whitespace (c : Z) : bool :=
  in_range 9 13 c || (c =? 32) || (c =? 133) || (c =? 160) || (c =? 5760) || in_range 8192 8202 c ||
  (c =? 8232) || (c =? 8233) || (c =? 8239) || (c =? 8287) || (c =? 12288).

Fixpoint trim_start (l : list Z) : list Z :=
  match l with
  | [] => []
  | c :: l' => if is_whitespace c then trim_start l' else l
  end.
(** [str::trim]. *)
Definition trim (l : list Z) : list Z := reverse (trim_start (reverse (trim_start l))).

(** The carriage return of a line that ended in a line feed is dropped too. *)
Definition strip_cr (l : list Z) : list Z :=
  match last l with Some 13 => take (length l - 1) l | _ => l end.

(** [str::lines]: the pieces between line feeds, the last only if not empty. *)
Fixpoint lines_of (pieces : list (list Z)) : list (list Z) :=
  match pieces with
  | [] => []
  | [w] => match w with [] => [] | _ => [w] end
  | w :: ws => strip_cr w :: lines_of ws
  end.
Definition lines (text : list Z) : list (list Z) := lines_of (split_on 10 text).

(* ------------------------------------------------------------------ *)
(** ** Classes *)

Definition CAPABILITY_DECLARATION_KEY : list Z := lit "rvf.capabilities".

Definition CLASS_ALL : list CapabilityClass :=
  [CcMemory; CcFilesystem; CcNetwork; CcModel; CcMcp; CcProcess; CcClock; CcRandomness; CcGpu; CcSensor;
   CcDisplay; CcAudio; CcClipboard; CcPersistentState; CcInterAgentMessaging].

Definition class_as_str (c : CapabilityClass) : list Z :=
  match c with
  | CcMemory => lit "memory" | CcFilesystem => lit "filesystem" | CcNetwork => lit "network"
  | CcModel => lit "model" | CcMcp => lit "mcp" | CcProcess => lit "process" | CcClock => lit "clock"
  | CcRandomness => lit "randomness" | CcGpu => lit "gpu" | CcSensor => lit "sensor"
  | CcDisplay => lit "display" | CcAudio => lit "audio" | CcClipboard => lit "clipboard"
  | CcPersistentState => lit "persistent-state"
  | CcInterAgentMessaging => lit "inter-agent-messaging"
  end.

Definition class_from_wire (s : list Z) : option CapabilityClass :=
  find_by (λ c, bool_decide (class_as_str c = s)) CLASS_ALL.

(** [class as u64], the declaration order. *)
Definition class_index (c : CapabilityClass) : nat :=
  match c with
  | CcMemory => 0 | CcFilesystem => 1 | CcNetwork => 2 | CcModel => 3 | CcMcp => 4 | CcProcess => 5
  | CcClock => 6 | CcRandomness => 7 | CcGpu => 8 | CcSensor => 9 | CcDisplay => 10 | CcAudio => 11
  | CcClipboard => 12 | CcPersistentState => 13 | CcInterAgentMessaging => 14
  end.

Definition DEV_NETWORK : Z := 0.
Definition DEV_STORAGE : Z := 1.
Definition DEV_GRAPHICS : Z := 2.
Definition DEV_TIMER : Z := 4.
Definition DEV_GENERIC : Z := 255.

Record RvmBinding : Set := mkRvmBinding {
  rb_class : CapabilityClass;
  rb_cap_type : CapType;
  rb_rights : CapRights;
  rb_device_class : option Z;
}.

Section mapping.
Context `{!BitflagsUnion}.

Definition rvm_binding (c : CapabilityClass) : option RvmBinding :=
  let rw := rights_union READ WRITE in
  match c with
  | CcMemory | CcPersistentState => Some (mkRvmBinding c CtRegion rw None)
  | CcModel => Some (mkRvmBinding c CtRegion READ None)
  | CcMcp | CcInterAgentMessaging => Some (mkRvmBinding c CtCommEdge rw None)
  | CcProcess => Some (mkRvmBinding c CtPartition WRITE None)
  | CcFilesystem => Some (mkRvmBinding c CtDevice rw (Some DEV_STORAGE))
  | CcNetwork => Some (mkRvmBinding c CtDevice rw (Some DEV_NETWORK))
  | CcGpu => Some (mkRvmBinding c CtDevice rw (Some DEV_GRAPHICS))
  | CcDisplay => Some (mkRvmBinding c CtDevice WRITE (Some DEV_GRAPHICS))
  | CcClock => Some (mkRvmBinding c CtDevice READ (Some DEV_TIMER))
  | CcSensor => Some (mkRvmBinding c CtDevice READ (Some DEV_GENERIC))
  | CcAudio => Some (mkRvmBinding c CtDevice rw (Some DEV_GENERIC))
  | CcClipboard | CcRandomness => None
  end.
Definition is_representable (c : CapabilityClass) : bool := is_some (rvm_binding c).

Record CapabilityMapping : Set := mkCapabilityMapping {
  cm_granted : list RvmBinding;
  cm_denied : list CapabilityClass;
}.

Definition is_granted (class : CapabilityClass) (m : CapabilityMapping) : bool :=
  existsb (λ b, bool_decide (rb_class b = class)) (cm_granted m).
Definition rights_for (class : CapabilityClass) (m : CapabilityMapping) : CapRights :=
  match find_by (λ b, bool_decide (rb_class b = class)) (cm_granted m) with
  | Some b => rb_rights b
  | None => RIGHTS_EMPTY
  end.

(** [for class in CapabilityClass::ALL]. *)
Fixpoint map_classes (classes declared : list CapabilityClass) (m : CapabilityMapping)
    : RvfResult CapabilityMapping :=
  match classes with
  | [] => Ok m
  | class :: classes =>
      if negb (bool_decide (class ∈ declared))
      then map_classes classes declared (mkCapabilityMapping (cm_granted m) (cm_denied m ++ [class]))
      else
        match rvm_binding class with
        | None => Err (UnsupportedCapability class)
        | Some b => map_classes classes declared (mkCapabilityMapping (cm_granted m ++ [b]) (cm_denied m))
        end
  end.
Definition map_declared (declared : list CapabilityClass) : RvfResult CapabilityMapping :=
  map_classes CLASS_ALL declared (mkCapabilityMapping [] []).

(* ------------------------------------------------------------------ *)
(** ** Installing a mapping *)

(** [for (index, generation) in handles { let _ = table.remove(..) }]. *)
Fixpoint remove_handles (handles : list (Z * Z)) (t : CapabilityTable) : CapabilityTable :=
  match handles with
  | [] => t
  | h :: handles => remove_handles handles (table_remove h.1 h.2 t).2
  end.

Fixpoint install_loop (i : nat) (bindings : list RvmBinding) (owner epoch first_cap_id : Z)
    (handles : list (Z * Z)) (t : CapabilityTable) : RvfResult (list (Z * Z)) * CapabilityTable :=
  match bindings with
  | [] => (Ok handles, t)
  | b :: bindings =>
      let id := wrap64 (first_cap_id + Z.of_nat i) in
      let token := mkCapToken id (rb_cap_type b) (rb_rights b) epoch in
      let badge := Z.of_nat (class_index (rb_class b)) in
      match insert_root token owner badge t with
      | (Ok handle, t) => install_loop (i + 1) bindings owner epoch first_cap_id (handles ++ [handle]) t
      | (Err _, t) => (Err CapabilityTableFull, remove_handles handles t)
      end
  end.

Definition install_tracked (m : CapabilityMapping) (owner epoch first_cap_id : Z)
    : prog CapabilityTable RvfError (list (Z * Z)) :=
  install_loop 0 (cm_granted m) owner epoch first_cap_id [].
Definition install (m : CapabilityMapping) (owner epoch first_cap_id : Z)
    : prog CapabilityTable RvfError nat := λ t,
  match install_tracked m owner epoch first_cap_id t with
  | (Ok handles, t) => (Ok (length handles), t)
  | (Err e, t) => (Err e, t)
  end.
End mapping.

(* ------------------------------------------------------------------ *)
(** ** Reading declarations *)

Definition is_plaintext_meta (s : ParsedSegment) : bool :=
  (sh_seg_type (ps_header s) =? SEG_TYPE_META) && negb (header_is_encrypted (ps_header s)).
Definition plaintext_meta (data : list Z) (segments : list ParsedSegment) : list (list Z) :=
  (λ s, segment_payload s data) <$> filter (λ s, is_plaintext_meta s = true) segments.

(** The names a payload declares, in order. *)
Definition line_names (line : list Z) : list (list Z) :=
  match strip_prefix CAPABILITY_DECLARATION_KEY line with
  | Some (61 :: value) => trim <$> split_on 44 value
  | _ => []
  end.
Definition payload_names (payload : list Z) : list (list Z) :=
  match from_utf8 payload with
  | None => []
  | Some text => concat (line_names <$> lines text)
  end.

Fixpoint collect_classes (names : list (list Z)) (found : list CapabilityClass) : list CapabilityClass :=
  match names with
  | [] => found
  | name :: names =>
      match class_from_wire name with
      | Some class =>
          collect_classes names (if bool_decide (class ∈ found) then found else found ++ [class])
      | None => collect_classes names found
      end
  end.

Definition class_le (a b : CapabilityClass) : Prop := (class_index a ≤ class_index b)%nat.
#[export] Instance class_le_dec a b : Decision (class_le a b) := Nat.le_dec _ _.

Definition declared_classes_in (payloads : list (list Z)) : list CapabilityClass :=
  merge_sort class_le (collect_classes (concat (payload_names <$> payloads)) []).
Definition declared_classes (data : list Z) (segments : list ParsedSegment) : list CapabilityClass :=
  declared_classes_in (plaintext_meta data segments).

Definition has_unknown_class_name_in (payloads : list (list Z)) : bool :=
  existsb (λ payload, existsb (λ name, match name with [] => false | _ => is_none (class_from_wire name) end)
                        (payload_names payload)) payloads.

(* ------------------------------------------------------------------ *)
(** ** Size limits ([policy.rs]) *)

Record SizePolicy : Set := mkSizePolicy {
  sp_max_runtime_bytes : Z;
  sp_max_model_bytes : Z;
  sp_max_state_bytes : Z;
  sp_max_memory_bytes : Z;
  sp_max_container_bytes : Z;
  sp_max_segments : Z;
}.
Definition FAIL_CLOSED : SizePolicy := mkSizePolicy 1048576 67108864 16777216 4194304 134217728 4096.
Definition permissive : SizePolicy :=
  mkSizePolicy u64_max u64_max u64_max u64_max u64_max MAX_SEGMENTS.

Definition budget_for (class : SegmentClass) (p : SizePolicy) : Z :=
  match class with
  | ClassRuntime => sp_max_runtime_bytes p
  | ClassModel => sp_max_model_bytes p
  | ClassState => sp_max_state_bytes p
  | ClassMemory => sp_max_memory_bytes p
  end.

Inductive SizeViolation : Set :=
| ClassBudget (class : SegmentClass) (declared limit : Z)
| ContainerBytes (declared limit : Z)
| SegmentCount (declared limit : Z).

Record SizeTally : Set := mkSizeTally {
  st_runtime_bytes : Z; st_model_bytes : Z; st_state_bytes : Z; st_memory_bytes : Z;
}.
Definition bytes_for (class : SegmentClass) (t : SizeTally) : Z :=
  match class with
  | ClassRuntime => st_runtime_bytes t
  | ClassModel => st_model_bytes t
  | ClassState => st_state_bytes t
  | ClassMemory => st_memory_bytes t
  end.

Definition tally_add (t : SizeTally) (s : ParsedSegment) : SizeTally :=
  let len := sh_payload_length (ps_header s) in
  let '(mkSizeTally r m s' e) := t in
  match header_class (ps_header s) with
  | ClassRuntime => mkSizeTally (sat_add u64_max r len) m s' e
  | ClassModel => mkSizeTally r (sat_add u64_max m len) s' e
  | ClassState => mkSizeTally r m (sat_add u64_max s' len) e
  | ClassMemory => mkSizeTally r m s' (sat_add u64_max e len)
  end.
Definition tally (segments : list ParsedSegment) : SizeTally :=
  foldl tally_add (mkSizeTally 0 0 0 0) segments.

Definition check_class (t : SizeTally) (p : SizePolicy) (class : SegmentClass) : list SizeViolation :=
  let declared := bytes_for class t in
  let limit := budget_for class p in
  if limit <? declared then [ClassBudget class declared limit] else [].

Definition check_sizes (container_bytes : Z) (segments : list ParsedSegment) (p : SizePolicy)
    : list SizeViolation :=
  (if sp_max_container_bytes p <? container_bytes
   then [ContainerBytes container_bytes (sp_max_container_bytes p)] else []) ++
  (if sp_max_segments p <? Z.of_nat (length segments)
   then [SegmentCount (Z.of_nat (length segments)) (sp_max_segments p)] else []) ++
  concat (check_class (tally segments) p <$> [ClassRuntime; ClassModel; ClassState; ClassMemory]).

(* ------------------------------------------------------------------ *)
(** ** Names and classes *)

Lemma class_all c : c ∈ CLASS_ALL.
Proof. by destruct c; vm_compute; repeat constructor. Qed.

Lemma class_index_inj a b : class_index a = class_index b → a = b.
Proof. by destruct a, b. Qed.

Lemma class_as_str_inj a b : class_as_str a = class_as_str b → a = b.
Proof. by destruct a, b. Qed.

(** The wire name is the only text that parses to its class. *)
Lemma class_from_wire_Some s c : class_from_wire s = Some c ↔ s = class_as_str c.
Proof.
  unfold class_from_wire. split.
  - intros [H _]%find_by_Some. by split_bool.
  - intros ->. by destruct c.
Qed.

Lemma elem_of_collect names : ∀ found c,
  c ∈ collect_classes names found ↔ c ∈ found ∨ class_as_str c ∈ names.
Proof.
  induction names as [|name names IH]; intros found c; cbn [collect_classes].
  { split; [by left|]. intros [H|H]; [done|by apply not_elem_of_nil in H]. }
  rewrite elem_of_cons. destruct (class_from_wire name) as [c'|] eqn:E.
  - apply class_from_wire_Some in E as ->. rewrite IH. case_bool_decide as Hc; [|rewrite elem_of_app, list_elem_of_singleton].
    + split; [naive_solver|]. intros [H|[<-%class_as_str_inj|H]]; auto.
    + split; [naive_solver|]. intros [H|[->%class_as_str_inj|H]]; auto.
  - rewrite IH. split; [naive_solver|]. intros [H|[<-|H]]; auto.
    by rewrite (proj2 (class_from_wire_Some _ c) eq_refl) in E.
Qed.

Lemma collect_NoDup names : ∀ found, NoDup found → NoDup (collect_classes names found).
Proof.
  induction names as [|name names IH]; intros found H; cbn [collect_classes]; [done|].
  destruct (class_from_wire name) as [c|]; apply IH; [|done]. case_bool_decide; [done|].
  apply NoDup_app. split_and!; [done|set_solver|apply NoDup_singleton].
Qed.

Lemma elem_of_concat_fmap {A B} (f : A → list B) l x : x ∈ concat (f <$> l) ↔ ∃ a, a ∈ l ∧ x ∈ f a.
Proof.
  induction l as [|a l IH]; cbn [fmap list_fmap concat].
  - split; [by intros H%not_elem_of_nil|]. by intros (? & H%not_elem_of_nil & _).
  - rewrite elem_of_app, IH. setoid_rewrite elem_of_cons. naive_solver.
Qed.

(** A class is declared exactly when a plaintext metadata payload lists its
    name, and the declaration is in class order without repetition. *)
Lemma declared_classes_spec payloads :
  Sorted class_le (declared_classes_in payloads) ∧ NoDup (declared_classes_in payloads) ∧
  ∀ c, c ∈ declared_classes_in payloads ↔
       ∃ payload, payload ∈ payloads ∧ class_as_str c ∈ payload_names payload.
Proof.
  unfold declared_classes_in. set (l := collect_classes _ []).
  pose proof (merge_sort_Permutation class_le l) as Hp. split_and!.
  - apply Sorted_merge_sort. intros a b. unfold class_le. lia.
  - rewrite Hp. apply collect_NoDup, NoDup_nil. done.
  - intros c. rewrite Hp. unfold l. rewrite elem_of_collect, elem_of_concat_fmap. set_solver.
Qed.

Lemma unknown_class_false payloads :
  has_unknown_class_name_in payloads = false ↔
  ∀ payload name, payload ∈ payloads → name ∈ payload_names payload →
    name = [] ∨ ∃ c, name = class_as_str c.
Proof.
  unfold has_unknown_class_name_in. rewrite <-not_true_iff_false, existsb_exists.
  setoid_rewrite existsb_exists. split.
  - intros H payload name Hp Hn. destruct name as [|b name]; [by left|right].
    destruct (class_from_wire (b :: name)) as [c|] eqn:E; [exists c; by apply class_from_wire_Some|].
    exfalso. apply H. exists payload. split; [by apply list_elem_of_In|]. exists (b :: name).
    split; [by apply list_elem_of_In|]. by rewrite E.
  - intros H (payload & Hp & name & Hn & Hu). apply list_elem_of_In in Hp, Hn.
    destruct (H payload name Hp Hn) as [->|[c ->]]; [done|].
    rewrite (proj2 (class_from_wire_Some _ c) eq_refl) in Hu. by destruct (class_as_str c).
Qed.

(* ------------------------------------------------------------------ *)
(** ** The mapping is default-deny *)

Section mapping_lemmas.
Context {BU : BitflagsUnion}.

Lemma binding_class c b : rvm_binding c = Some b → rb_class b = c.
Proof. by destruct c; intros [= <-]. Qed.

Lemma map_classes_spec classes declared : ∀ m,
  match map_classes classes declared m with
  | Ok m' =>
      (∀ c, c ∈ classes → c ∈ declared → is_Some (rvm_binding c)) ∧
      cm_granted m' = cm_granted m ++ omap rvm_binding (filter (.∈ declared) classes) ∧
      cm_denied m' = cm_denied m ++ filter (.∉ declared) classes
  | Err e => ∃ c, e = UnsupportedCapability c ∧ c ∈ classes ∧ c ∈ declared ∧ rvm_binding c = None
  end.
Proof.
  induction classes as [|c classes IH]; intros m; cbn [map_classes].
  { rewrite !app_nil_r. split_and!; [|done..]. intros c H. by apply not_elem_of_nil in H. }
  case_bool_decide as Hc; cbn [negb].
  - destruct (rvm_binding c) as [b|] eqn:Eb; [|exists c; split_and!; [done|set_solver|done..]].
    specialize (IH (mkCapabilityMapping (cm_granted m ++ [b]) (cm_denied m))).
    destruct (map_classes _ _ _) as [m'|e].
    + destruct IH as (H1 & H2 & H3). cbn in H2, H3. rewrite filter_cons_True, (filter_cons_False (.∉ declared)) by auto.
      cbn [omap list_omap]. rewrite Eb, H2, H3, <-app_assoc. split_and!; [|done..].
      intros c' [->|Hc']%elem_of_cons ?; [by rewrite Eb|by apply H1].
    + destruct IH as (c' & ? & ? & ?). exists c'. set_solver.
  - specialize (IH (mkCapabilityMapping (cm_granted m) (cm_denied m ++ [c]))).
    destruct (map_classes _ _ _) as [m'|e].
    + destruct IH as (H1 & H2 & H3). cbn in H2, H3. rewrite filter_cons_False, (filter_cons_True (.∉ declared)) by auto.
      rewrite H2, H3, <-app_assoc. split_and!; [|done..].
      intros c' [->|Hc']%elem_of_cons ?; [done|by apply H1].
    + destruct IH as (c' & ? & ? & ?). exists c'. set_solver.
Qed.

Lemma rights_for_granted m c b :
  (∀ b', b' ∈ cm_granted m → rb_class b' = c → b' = b) → b ∈ cm_granted m → rb_class b = c →
  is_granted c m = true ∧ rights_for c m = rb_rights b.
Proof.
  intros Hu Hb Hc. unfold is_granted, rights_for. split.
  - apply existsb_exists. exists b. split; [by apply list_elem_of_In|by apply bool_decide_eq_true].
  - destruct (find_by _ (cm_granted m)) as [b'|] eqn:E.
    + apply find_by_Some in E as [E (i & Hi)]. split_bool. rewrite (Hu b'); [done| |done].
      by apply list_elem_of_lookup_2 in Hi.
    + apply list_elem_of_lookup in Hb as [i Hi].
      pose proof (proj1 (find_by_None _ _) E i b Hi) as Hf. by apply bool_decide_eq_false in Hf.
Qed.

Lemma rights_for_denied m c :
  (∀ b, b ∈ cm_granted m → rb_class b ≠ c) → is_granted c m = false ∧ rights_for c m = RIGHTS_EMPTY.
Proof.
  intros H. unfold is_granted, rights_for. split.
  - apply not_true_iff_false. rewrite existsb_exists. intros (b & Hb & E). split_bool.
    by apply (H b); [apply list_elem_of_In|].
  - destruct (find_by _ _) as [b|] eqn:E; [|done]. apply find_by_Some in E as [E (i & Hi)]. split_bool.
    exfalso. apply (H b); [by apply list_elem_of_lookup_2 in Hi|done].
Qed.

Lemma map_declared_total declared :
  match map_declared declared with
  | Ok m => ∀ c, c ∈ declared → is_representable c = true
  | Err e => ∃ c, c ∈ declared ∧ is_representable c = false
  end.
Proof.
  unfold map_declared, is_representable.
  pose proof (map_classes_spec CLASS_ALL declared (mkCapabilityMapping [] [])) as H.
  destruct (map_classes _ _ _) as [m|e].
  - destruct H as [H _]. intros c Hc. by destruct (H c (class_all c) Hc) as [b ->].
  - destruct H as (c & _ & _ & Hc & Hb). exists c. by rewrite Hb.
Qed.

Lemma map_declared_granted declared m c :
  map_declared declared = Ok m → is_granted c m = true ↔ c ∈ declared.
Proof.
  unfold map_declared, is_granted.
  pose proof (map_classes_spec CLASS_ALL declared (mkCapabilityMapping [] [])) as H.
  intros E. rewrite E in H. destruct H as (Hrep & -> & _). cbn [cm_granted app].
  rewrite existsb_exists. setoid_rewrite <-list_elem_of_In. setoid_rewrite list_elem_of_omap.
  setoid_rewrite list_elem_of_filter. split.
  - intros (b & (c' & [Hc _] & Hb) & Ec). split_bool. subst c. by rewrite (binding_class _ _ Hb).
  - intros Hc. destruct (Hrep c (class_all c) Hc) as [b Hb]. exists b. split.
    + exists c. auto using class_all.
    + apply bool_decide_eq_true. by apply binding_class.
Qed.

(** Capability mapping is total and default-deny: it succeeds exactly when
    every declared class is representable; then a class is granted exactly when
    it is declared, denied exactly when it is not, and carries its binding's
    rights or none; otherwise the error names a declared class that RVM cannot
    represent. *)
Theorem map_declared_exact declared :
  match map_declared declared with
  | Ok m =>
      (∀ c, c ∈ declared → is_representable c = true) ∧
      ∀ c, (is_granted c m = true ↔ c ∈ declared) ∧ (c ∈ cm_denied m ↔ c ∉ declared) ∧
           rights_for c m =
             match rvm_binding c with
             | Some b => if decide (c ∈ declared) then rb_rights b else RIGHTS_EMPTY
             | None => RIGHTS_EMPTY
             end
  | Err e => ∃ c, e = UnsupportedCapability c ∧ c ∈ declared ∧ is_representable c = false
  end.
Proof.
  unfold map_declared. pose proof (map_classes_spec CLASS_ALL declared (mkCapabilityMapping [] [])) as H.
  destruct (map_classes _ _ _) as [m|e].
  2:{ destruct H as (c & -> & _ & Hc & Hb). exists c. unfold is_representable. by rewrite Hb. }
  destruct H as (Hrep & Hg & Hd). cbn [cm_granted cm_denied app] in Hg, Hd.
  assert (∀ b, b ∈ cm_granted m ↔ rb_class b ∈ declared ∧ rvm_binding (rb_class b) = Some b) as Hgr.
  { intros b. rewrite Hg, list_elem_of_omap. split.
    - intros (c & Hc & Hb). apply list_elem_of_filter in Hc as [Hc _].
      by rewrite (binding_class _ _ Hb).
    - intros [Hc Hb]. exists (rb_class b). split; [|done]. apply list_elem_of_filter. auto using class_all. }
  split.
  { intros c Hc. unfold is_representable. destruct (Hrep c (class_all c) Hc) as [b ->]. done. }
  intros c. assert (c ∈ cm_denied m ↔ c ∉ declared) as Hden.
  { rewrite Hd, list_elem_of_filter. pose proof (class_all c). tauto. }
  destruct (decide (c ∈ declared)) as [Hc|Hc].
  - destruct (Hrep c (class_all c) Hc) as [b Hb]. pose proof (binding_class c b Hb) as Hcl.
    destruct (rights_for_granted m c b) as [H1 H2]; [|apply Hgr; by rewrite Hcl|done|].
    { intros b' [_ Hb']%Hgr Hc'. rewrite Hc', Hb in Hb'. by injection Hb'. }
    rewrite H1, H2, Hb. split_and!; done.
  - destruct (rights_for_denied m c) as [H1 H2]; [intros b [Hb _]%Hgr ?; congruence|].
    rewrite H1, H2. split; [by split|]. split; [done|]. by destruct (rvm_binding c).
Qed.
End mapping_lemmas.

(* ------------------------------------------------------------------ *)
(** ** Installing a mapping *)

Section install_lemmas.

Lemma lookup_free_invalid t index :
  (∀ g, is_ok (table_lookup t index g) = false) → ∀ g, table_lookup t index g = Err CeInvalidHandle.
Proof.
  intros H g. specialize (H (match get_at (tb_slots t) index with Some s => sl_generation s | None => 0 end)).
  unfold table_lookup in *. destruct (get_at (tb_slots t) index) as [s|]; [|done].
  destruct (slot_is_valid s); [|done]. by rewrite Z.eqb_refl in H.
Qed.

(** [t] is [t0] with the handles added, holding these slots. *)
Record added (t0 t : CapabilityTable) (handles : list (Z * Z)) (slots : list CapSlot) : Prop := {
  ad_inv : table_inv t;
  ad_fresh : Forall (λ h, ∀ g, table_lookup t0 h.1 g = Err CeInvalidHandle) handles;
  ad_distinct : NoDup ((λ h, Z.to_nat h.1) <$> handles);
  ad_slots : Forall2 (λ h s, table_lookup t h.1 h.2 = Ok s) handles slots;
  ad_others j g : Z.to_nat j ∉ (λ h : Z * Z, Z.to_nat h.1) <$> handles →
    table_lookup t j g = table_lookup t0 j g;
  ad_len : table_len t = (table_len t0 + length handles)%nat;
  ad_capacity : table_capacity t = table_capacity t0;
}.

Lemma added_nil t : table_inv t → added t t [] [].
Proof. intros H. split; try done; try constructor; cbn; lia. Qed.

Lemma lookup_index t j j' g : Z.to_nat j = Z.to_nat j' → table_lookup t j g = table_lookup t j' g.
Proof. intros E. unfold table_lookup. by rewrite !get_at_eq, E. Qed.

Lemma added_kept t t' (handles : list (Z * Z)) slots :
  Forall2 (λ h s, table_lookup t h.1 h.2 = Ok s) handles slots →
  (∀ h, h ∈ handles → table_lookup t' h.1 h.2 = table_lookup t h.1 h.2) →
  Forall2 (λ h s, table_lookup t' h.1 h.2 = Ok s) handles slots.
Proof.
  intros H Hk. induction H as [|h s handles slots Hh H IH]; constructor.
  - rewrite Hk; [done|apply list_elem_of_here].
  - apply IH. intros h' Hh'. apply Hk. by apply list_elem_of_further.
Qed.

Lemma table_remove_capacity index g t : table_capacity (table_remove index g t).2 = table_capacity t.
Proof.
  rewrite table_remove_spec. destruct (table_lookup _ _ _); [|done]. cbn. unfold force_invalidate.
  destruct (get_at _ _) as [s|]; [|done]. destruct (slot_is_valid s); [|done].
  unfold table_capacity, release_slot. cbn. apply length_insert.
Qed.

Lemma added_insert t0 t handles slots token owner badge t' index g :
  added t0 t handles slots → insert_root token owner badge t = (Ok (index, g), t') →
  added t0 t' (handles ++ [(index, g)]) (slots ++ [mkCapSlot token g owner 0 u32_max badge]).
Proof.
  intros [Hi Hf Hd Hs Ho Hl Hc] E. rewrite insert_root_derived in E.
  assert (table_capacity t' = table_capacity t) as Hcap.
  { pose proof (insert_derived_spec token owner 0 u32_max badge t (ti_hint t Hi)) as H. rewrite E in H.
    destruct H as (i & s & _ & _ & _ & _ & ->). unfold table_capacity. cbn. by rewrite length_insert. }
  pose proof (insert_derived_functional token owner 0 u32_max badge t Hi) as H. 
  pose proof (insert_derived_inv token owner 0 u32_max badge t Hi) as Hi'. rewrite E in H, Hi'.
  destruct H as (_ & Hlen & Hlook & Hfree & Hoth).
  assert (Z.to_nat index ∉ (λ h : Z * Z, Z.to_nat h.1) <$> handles) as Hnew.
  { intros (h & Eh & Hh)%list_elem_of_fmap. apply list_elem_of_lookup in Hh as [k Hk].
    destruct (Forall2_lookup_l _ _ _ _ _ Hs Hk) as (s & _ & Hsk). specialize (Hfree h.2).
    rewrite (lookup_index t index h.1), Hsk in Hfree by done. done. }
  split.
  - done.
  - apply Forall_app. split; [done|]. constructor; [|done]. intros g'. cbn.
    rewrite <-Ho by done. by apply lookup_free_invalid.
  - rewrite fmap_app. apply NoDup_app. split; [done|]. split; [|by apply NoDup_singleton].
    by intros x Hx ->%list_elem_of_singleton.
  - apply Forall2_app.
    + apply (added_kept t); [done|]. intros h Hh. rewrite Hoth; [done|]. intros Eh. apply Hnew.
      apply list_elem_of_fmap. by exists h.
    + by constructor.
  - intros j g' Hj. rewrite fmap_app, not_elem_of_app in Hj. destruct Hj as [Hj Hj2].
    rewrite Hoth; [by apply Ho|]. intros Ej. apply Hj2. rewrite Ej. by apply list_elem_of_singleton.
  - rewrite length_app. cbn. unfold table_len in *. lia.
  - congruence.
Qed.

(** Removing what was added restores every lookup and the count. *)
Lemma added_removed t0 handles : ∀ t slots,
  added t0 t handles slots →
  (∀ j g, table_lookup (remove_handles handles t) j g = table_lookup t0 j g) ∧
  table_len (remove_handles handles t) = table_len t0 ∧ table_inv (remove_handles handles t).
Proof.
  induction handles as [|h handles IH]; intros t slots [Hi Hf Hd Hs Ho Hl Hc]; cbn [remove_handles].
  { split_and!; [|cbn in Hl; lia|done]. intros j g. apply Ho, not_elem_of_nil. }
  apply Forall2_cons_inv_l in Hs as (s & slots' & Hh & Hs & ->).
  apply Forall_cons in Hf as [Hfh Hf]. rewrite fmap_cons in Hd, Ho. apply NoDup_cons in Hd as [Hnin Hd].
  pose proof (table_remove_functional h.1 h.2 t Hi) as H. pose proof (table_remove_inv h.1 h.2 t Hi) as Hi'.
  pose proof (table_remove_capacity h.1 h.2 t) as Hcap.
  destruct (table_remove h.1 h.2 t) as [[[]|e] t'] eqn:E; [|by rewrite Hh in H; destruct H].
  destruct H as (_ & Hlen & Hdead & Hoth). cbn [snd] in *. apply (IH _ slots').
  split; try done; [| |cbn in Hl; lia|congruence].
  - apply (added_kept t); [done|]. intros h' Hh'. rewrite Hoth; [done|]. intros Eh. apply Hnin.
    apply list_elem_of_fmap. by exists h'.
  - intros j g Hj. destruct (decide (Z.to_nat j = Z.to_nat h.1)) as [Ej|Ej].
    + rewrite (lookup_index t' j h.1), (lookup_index t0 j h.1) by done. by rewrite Hdead, Hfh.
    + rewrite Hoth by done. apply Ho. by apply not_elem_of_cons.
Qed.

(** The slot binding number [i] of an installation ends up in. *)
Definition installed_slot (owner epoch first_cap_id : Z) (i : nat) (b : RvmBinding) (g : Z) : CapSlot :=
  mkCapSlot (mkCapToken (wrap64 (first_cap_id + Z.of_nat i)) (rb_cap_type b) (rb_rights b) epoch)
    g owner 0 u32_max (Z.of_nat (class_index (rb_class b))).

Fixpoint installed_slots (owner epoch first_cap_id : Z) (i : nat) (bindings : list RvmBinding)
    (handles : list (Z * Z)) : list CapSlot :=
  match bindings, handles with
  | b :: bindings, h :: handles =>
      installed_slot owner epoch first_cap_id i b h.2 ::
        installed_slots owner epoch first_cap_id (i + 1) bindings handles
  | _, _ => []
  end.

Lemma table_len_le_capacity t : table_inv t → (table_len t ≤ table_capacity t)%nat.
Proof. intros H. unfold table_len, table_capacity. rewrite (ti_count t H). apply count_by_le. Qed.

Lemma install_loop_spec bindings owner epoch first t0 : ∀ i handles slots t,
  added t0 t handles slots →
  match install_loop i bindings owner epoch first handles t with
  | (Ok handles', t') =>
      ∃ new, handles' = handles ++ new ∧ length new = length bindings ∧
        added t0 t' handles' (slots ++ installed_slots owner epoch first i bindings new)
  | (Err e, t') =>
      e = CapabilityTableFull ∧ (∀ j g, table_lookup t' j g = table_lookup t0 j g) ∧
      table_len t' = table_len t0 ∧ table_inv t' ∧
      (table_capacity t0 < table_len t0 + length handles + length bindings)%nat
  end.
Proof.
  induction bindings as [|b bindings IH]; intros i handles slots t H; cbn [install_loop].
  { exists []. by rewrite !app_nil_r. }
  destruct (insert_root _ _ _ t) as [[[index g]|e] t'] eqn:E.
  - pose proof (added_insert _ _ _ _ _ _ _ _ _ _ H E) as H'. specialize (IH (i + 1)%nat _ _ _ H').
    destruct (install_loop (i + 1) bindings owner epoch first _ t') as [[handles'|e'] t''].
    + destruct IH as (new & -> & Hlen & Had). exists ((index, g) :: new). cbn [length installed_slots].
      rewrite <-!app_assoc in *. split_and!; [done|lia|exact Had].
    + rewrite length_app in IH. cbn [length] in *. destruct IH as (? & ? & ? & ? & ?). split_and!; try done. lia.
  - rewrite insert_root_derived in E. 
    pose proof (insert_derived_functional
      (mkCapToken (wrap64 (first + Z.of_nat i)) (rb_cap_type b) (rb_rights b) epoch) owner 0 u32_max
      (Z.of_nat (class_index (rb_class b))) t (ad_inv _ _ _ _ H)) as Hf.
    rewrite E in Hf. destruct Hf as (_ & -> & Hfull).
    destruct (added_removed t0 handles t slots H) as (H1 & H2 & H3). split_and!; try done.
    unfold table_is_full in Hfull. apply Nat.leb_le in Hfull.
    pose proof (ad_len _ _ _ _ H) as Hl. unfold table_len in *. rewrite (ad_capacity _ _ _ _ H) in Hfull. cbn. lia.
Qed.

(** C38: Installing a mapping is all or nothing: if the table has room for every
    granted binding, each gets a root capability with its type and rights, the
    next identifier and its class as badge, under distinct handles, and no other
    handle changes its meaning; otherwise the call fails, and every handle
    resolves as before, the count included. *)
Theorem install_all_or_nothing m owner epoch first t :
  table_inv t →
  match install_tracked m owner epoch first t with
  | (Ok handles, t') =>
      (table_len t + length (cm_granted m) ≤ table_capacity t)%nat ∧
      length handles = length (cm_granted m) ∧ NoDup ((λ h, Z.to_nat h.1) <$> handles) ∧
      Forall2 (λ h s, table_lookup t' h.1 h.2 = Ok s) handles
        (installed_slots owner epoch first 0 (cm_granted m) handles) ∧
      (∀ j g, Z.to_nat j ∉ (λ h : Z * Z, Z.to_nat h.1) <$> handles →
        table_lookup t' j g = table_lookup t j g) ∧
      table_len t' = (table_len t + length handles)%nat ∧ table_inv t'
  | (Err e, t') =>
      (table_capacity t < table_len t + length (cm_granted m))%nat ∧
      e = CapabilityTableFull ∧ (∀ j g, table_lookup t' j g = table_lookup t j g) ∧
      table_len t' = table_len t ∧ table_inv t'
  end.
Proof.
  intros Hi. unfold install_tracked.
  pose proof (install_loop_spec (cm_granted m) owner epoch first t 0 [] [] t (added_nil t Hi)) as H.
  destruct (install_loop _ _ _ _ _ _ _) as [[handles|e] t'].
  - destruct H as (new & -> & Hlen & [H1 H2 H3 H4 H5 H6 H7]). cbn [app] in *.
    pose proof (table_len_le_capacity _ H1). split_and!; try done. lia.
  - cbn in H. destruct H as (-> & ? & ? & ? & ?). split_and!; try done. lia.
Qed.
End install_lemmas.

(* ------------------------------------------------------------------ *)
(** ** Size limits bound the sums *)

Definition class_bytes (class : SegmentClass) (segments : list ParsedSegment) : Z :=
  foldr (λ s n, (if bool_decide (header_class (ps_header s) = class)
                 then sh_payload_length (ps_header s) else 0) + n) 0 segments.

Lemma class_bytes_nonneg class segments :
  Forall (λ s, 0 ≤ sh_payload_length (ps_header s)) segments → 0 ≤ class_bytes class segments.
Proof.
  induction 1 as [|s segments Hs H IH]; cbn; [lia|]. fold (class_bytes class segments) in *.
  case_bool_decide; lia.
Qed.

Lemma tally_spec segments : ∀ t class,
  Forall (λ s, 0 ≤ sh_payload_length (ps_header s)) segments → bytes_for class t ≤ u64_max →
  bytes_for class (foldl tally_add t segments) = Z.min u64_max (bytes_for class t + class_bytes class segments).
Proof.
  induction segments as [|s segments IH]; intros t class Hs Ht; cbn [foldl]; [cbn; lia|].
  apply Forall_cons in Hs as [Hl Hs]. pose proof (class_bytes_nonneg class segments Hs).
  assert (bytes_for class (tally_add t s) = Z.min u64_max (bytes_for class t +
    if bool_decide (header_class (ps_header s) = class) then sh_payload_length (ps_header s) else 0)) as E.
  { destruct t as [r m s' e]. unfold tally_add, sat_add. case_bool_decide as Ec.
    - rewrite Ec. by destruct class.
    - rewrite Z.add_0_r, (Z.min_r _ (bytes_for _ _)) by exact Ht.
      destruct (header_class _), class; congruence || done. }
  rewrite IH by (done || rewrite E; lia). rewrite E. cbn [class_bytes foldr].
  fold (class_bytes class segments). case_bool_decide; lia.
Qed.

Lemma check_class_nil t p class : check_class t p class = [] ↔ bytes_for class t ≤ budget_for class p.
Proof. unfold check_class. destruct (_ <? _) eqn:E; split_bool; (split; [done || lia|lia || done]). Qed.

(** The limits hold exactly when nothing is reported; the budgets bound the
    (saturated) sum of each class, however it is split into segments. *)
Lemma check_sizes_nil n segments p :
  Forall (λ s, 0 ≤ sh_payload_length (ps_header s)) segments →
  check_sizes n segments p = [] ↔
    n ≤ sp_max_container_bytes p ∧ Z.of_nat (length segments) ≤ sp_max_segments p ∧
    ∀ class, Z.min u64_max (class_bytes class segments) ≤ budget_for class p.
Proof.
  intros Hs. unfold check_sizes. cbn [fmap list_fmap concat]. rewrite app_nil_r, !app_nil, !check_class_nil.
  assert (0 ≤ u64_max) as H0 by (unfold u64_max; lia).
  unfold tally. rewrite !tally_spec by exact Hs || exact H0. cbn [bytes_for st_runtime_bytes st_model_bytes st_state_bytes st_memory_bytes].
  rewrite !Z.add_0_l.
  destruct (_ <? n) eqn:E1, (_ <? Z.of_nat _) eqn:E2; split_bool.
  1-3: split; [by intros (? & ? & _)|lia].
  split.
  - intros (_ & _ & ? & ? & ? & ?). split_and!; [done..|]. by intros [].
  - intros (_ & _ & H). split_and!; auto.
Qed.

(* ------------------------------------------------------------------ *)
(** ** Examples *)

#[local] Instance sample_union : BitflagsUnion := Z.lor.

(** White space around a name is ignored, an unknown name is skipped, another
    key declares nothing. *)
Example declare_some :
  declared_classes_in [lit "rvf.capabilities=clock, network ,warp"; lit "rvf.capabilitiesX=gpu"] =
    [CcNetwork; CcClock].
Proof. vm_compute. done. Qed.
Example unknown_name : has_unknown_class_name_in [lit "rvf.capabilities=clock, network ,warp"] = true.
Proof. vm_compute. done. Qed.
Example clipboard_refused : map_declared [CcClock; CcClipboard] = Err (UnsupportedCapability CcClipboard).
Proof. vm_compute. done. Qed.

Definition sample_mapping : CapabilityMapping :=
  default (mkCapabilityMapping [] []) (match map_declared [CcClock; CcMemory] with Ok m => Some m | _ => None end).

Lemma install_all_or_nothing_witness :
  table_inv (table_new 1) ∧
  (install_tracked sample_mapping 7 0 u64_max (table_new 1)).1 = Err CapabilityTableFull ∧
  ∀ j g, table_lookup (install_tracked sample_mapping 7 0 u64_max (table_new 1)).2 j g =
         table_lookup (table_new 1) j g.
Proof.
  assert (table_inv (table_new 1)) as Hi by by apply table_new_inv.
  pose proof (install_all_or_nothing sample_mapping 7 0 u64_max (table_new 1) Hi) as H.
  destruct (install_tracked sample_mapping 7 0 u64_max (table_new 1)) as [[handles|e] t'] eqn:E.
  - vm_compute in E. discriminate E.
  - destruct H as (_ & -> & H & _). split; [exact Hi|]. split; [reflexivity|exact H].
Defined.
