(* ===== verification/RvfVerify.v ===== *)
(** Verification of an RVF container before it is loaded:
    [crates/rvm-rvf/src/report.rs], [verify.rs], [detail.rs],
    [stream/error.rs].

    Facts about each segment are turned into one record per check, and the
    report is admissible when no record failed and the identity is confirmed.
    The file proves what admissibility means for the bytes. *)

From stdpp Require Import base numbers list option strings sets.
From Stdlib Require Import ZArith Lia.
From S2P Require Import Prelude.
From S2P Require Import Text.
From S2P Require Import Bytes.
From S2P Require Import Types.
From S2P Require Import WitnessLog.
From S2P Require Import Security.
From S2P Require Import Signers.
From S2P Require Import RvfFormat.
From S2P Require Import RvfPayload.
From S2P Require Import RvfCapability.

(* ------------------------------------------------------------------ *)
(** ** Streaming refusals ([stream/error.rs]) *)

Inductive StreamError : Set :=
| SeUnknownSigner | SeDescriptorTruncated | SeBadMagic | SeUnsupportedVersion | SeBadFlags
| SeLimitExceeded | SeTableInvalid | SeBadSignature | SeStaleEpoch | SeEpochConflict | SeExpired
| SePolicyMismatch | SeChunkHashMismatch | SeTableHashMismatch | SeUnexpectedFrame | SeFrameSizeLie
| SeRequirementsUnmet | SeIdentityMismatch | SeWeakChecksum | SePoisoned | SeBadState
| SeDuplicateFlood | SeSegmentMalformed | SeSegmentMismatch | SeIdentityRequired
| SeTooManyOpenSegments | SeClockRequired.
#[export] Instance StreamError_eq_dec : EqDecision StreamError.
Proof. solve_decision. Defined.

Definition stream_error_code (e : StreamError) : Z :=
  match e with
  | SeUnknownSigner => 2050 | SeDescriptorTruncated => 2053 | SeBadMagic => 2054
  | SeUnsupportedVersion => 2055 | SeBadFlags => 2056 | SeLimitExceeded => 2057
  | SeTableInvalid => 2058 | SeBadSignature => 2059 | SeStaleEpoch => 2060 | SeEpochConflict => 2061
  | SeExpired => 2062 | SePolicyMismatch => 2063 | SeChunkHashMismatch => 2064
  | SeTableHashMismatch => 2065 | SeUnexpectedFrame => 2066 | SeFrameSizeLie => 2067
  | SeRequirementsUnmet => 2068 | SeIdentityMismatch => 2069 | SeWeakChecksum => 2070
  | SePoisoned => 2071 | SeBadState => 2073 | SeDuplicateFlood => 2074
  | SeSegmentMalformed => 3840 | SeSegmentMismatch => 3841 | SeIdentityRequired => 3842
  | SeTooManyOpenSegments => 3843 | SeClockRequired => 3844
  end.

Definition rvm_of_stream_error (e : StreamError) : RvmError :=
  match e with
  | SeLimitExceeded | SeTooManyOpenSegments => ResourceLimitExceeded
  | SeUnsupportedVersion | SeBadFlags => Unsupported
  | _ => ProofInvalid
  end.

(* ------------------------------------------------------------------ *)
(** ** Records *)

Inductive CheckKind : Set :=
| CkIdentity | CkRootManifestPresent | CkContentHash | CkExecutableSigned | CkSignature
| CkSizePolicy | CkCapabilityMapping | CkStreamProfile | CkStreamDescriptor | CkStreamSegment
| CkStreamPoisoned | CkStreamComplete | CkStreamModule | CkStreamFault | CkWasmHeader.
#[export] Instance CheckKind_eq_dec : EqDecision CheckKind.
Proof. solve_decision. Defined.

Inductive Outcome : Set := OutPass | OutFail | OutSkip.
#[export] Instance Outcome_eq_dec : EqDecision Outcome.
Proof. solve_decision. Defined.

Inductive DetailCode : Set :=
| DcIdentityMatches | DcIdentityMismatch | DcRootManifestFound | DcRootManifestMissing
| DcContentHashMatches | DcContentHashMismatch | DcExecutableIsSigned | DcExecutableIsUnsigned
| DcUnsignedExecutablePermitted | DcSignatureVerifies | DcSignatureRejected | DcNoTrustedKey
| DcUnsupportedSignatureAlgorithm | DcFooterMalformed | DcWithinSizePolicy | DcExceedsSizePolicy
| DcCapabilitiesMapped | DcCapabilityUnsupported | DcCapabilityUnknown | DcStreamProfileDowngrade
| DcStreamProfilePermitted | DcStreamProfileSatisfied | DcIdentityNotPinned
| DcStreamDescriptorAccepted | DcStreamSegmentAccepted | DcStreamCompleted | DcStreamModuleValidated
| DcStreamModuleRejected | DcWasmHeaderAccepted | DcWasmHeaderRejected (e : WasmPayloadError)
| DcStreamRefused (e : StreamError).
#[export] Instance DetailCode_eq_dec : EqDecision DetailCode.
Proof. solve_decision. Defined.

Definition detail_stream_error_code (d : DetailCode) : Z :=
  match d with DcStreamRefused e => stream_error_code e | _ => 0 end.

Record VerificationRecord : Set := mkVerificationRecord {
  vr_check : CheckKind;
  vr_outcome : Outcome;
  vr_segment_index : option nat;
  vr_segment_id : option Z;
  vr_segment_type : Z;
  vr_detail : DetailCode;
}.

Record VerifiedExecutable : Set := mkVerifiedExecutable {
  ve_segment_id : Z;
  ve_segment_type : Z;
  ve_byte_length : Z;
  ve_sha256 : list Z;
  ve_module_offset : Z;
  ve_module_length : Z;
  ve_module_sha256 : list Z;
}.

Record VerificationReport : Set := mkVerificationReport {
  rp_rvf_identity : list Z;
  rp_byte_length : Z;
  rp_ok : bool;
  rp_identity_confirmed : bool;
  rp_segment_count : nat;
  rp_executables : list VerifiedExecutable;
  rp_records : list VerificationRecord;
  rp_capabilities : CapabilityMapping;
  rp_size_violations : list SizeViolation;
}.

Definition admissible (r : VerificationReport) : bool := rp_ok r && rp_identity_confirmed r.

Definition record_failed (r : VerificationRecord) : bool := bool_decide (vr_outcome r = OutFail).
Definition failures (r : VerificationReport) : list VerificationRecord :=
  filter (λ x, record_failed x = true) (rp_records r).
Definition first_failure (check : CheckKind) (r : VerificationReport) : option VerificationRecord :=
  find_by (λ x, record_failed x && bool_decide (vr_check x = check)) (rp_records r).

Record VerifyOptions : Set := mkVerifyOptions {
  vo_trusted_keys : list (list Z);
  vo_allow_unsigned_executable : bool;
  vo_expected_identity : option (list Z);
  vo_size_policy : SizePolicy;
  vo_permit_buffered_stream_profile : bool;
  vo_require_pinned_identity : bool;
}.
Definition default_options : VerifyOptions := mkVerifyOptions [] false None FAIL_CLOSED false false.
Definition with_trusted_keys (keys : list (list Z)) : VerifyOptions :=
  mkVerifyOptions keys false None FAIL_CLOSED false false.
Definition expect_identity (identity : list Z) (o : VerifyOptions) : VerifyOptions :=
  mkVerifyOptions (vo_trusted_keys o) (vo_allow_unsigned_executable o) (Some identity) (vo_size_policy o)
    (vo_permit_buffered_stream_profile o) (vo_require_pinned_identity o).

(* ------------------------------------------------------------------ *)
(** ** Facts *)

Inductive SigFacts : Set :=
| SigUnsigned
| SigMalformed
| SigDecoded (algo length : Z) (signature : option (list Z)) (message : list Z).

Record SegmentFacts : Set := mkSegmentFacts {
  fa_content_hash_ok : bool;
  fa_sig : SigFacts;
  fa_payload_sha256 : option (list Z);
  fa_wasm : option WasmPayloadFacts;
}.

Inductive Delivery : Set := Buffered | Streamed.
#[export] Instance Delivery_eq_dec : EqDecision Delivery.
Proof. solve_decision. Defined.

Record ReportInput : Set := mkReportInput {
  ri_identity : list Z;
  ri_container_bytes : Z;
  ri_segments : list ParsedSegment;
  ri_facts : list SegmentFacts;
  ri_meta : list (list Z);
  ri_delivery : Delivery;
  ri_identity_confirmed : bool;
}.

Definition STREAM_PROFILE_DECLARATION_KEY : list Z := lit "rvm.stream_profile".

Definition declares_stream_profile (payloads : list (list Z)) : bool :=
  existsb (λ p, existsb (λ line,
    is_some_and (λ rest, bool_decide (head rest = Some 61))
      (strip_prefix STREAM_PROFILE_DECLARATION_KEY line)) (split_on 10 p)) payloads.

Definition outcome (passed : bool) : Outcome := if passed then OutPass else OutFail.

Definition container_record (check : CheckKind) (o : Outcome) (d : DetailCode) : VerificationRecord :=
  mkVerificationRecord check o None None 0 d.
Definition segment_record (check : CheckKind) (o : Outcome) (s : ParsedSegment) (d : DetailCode)
    : VerificationRecord :=
  mkVerificationRecord check o (Some (ps_index s)) (Some (sh_segment_id (ps_header s)))
    (sh_seg_type (ps_header s)) d.

Definition root_manifest_record (segments : list ParsedSegment) : VerificationRecord :=
  match root_manifest segments with
  | Some s => segment_record CkRootManifestPresent OutPass s DcRootManifestFound
  | None => container_record CkRootManifestPresent OutFail DcRootManifestMissing
  end.

Definition stream_profile_record (delivery : Delivery) (opts : VerifyOptions) : VerificationRecord :=
  let '(o, d) :=
    match delivery with
    | Streamed => (OutPass, DcStreamProfileSatisfied)
    | Buffered =>
        if vo_permit_buffered_stream_profile opts && is_some (vo_expected_identity opts)
        then (OutPass, DcStreamProfilePermitted)
        else (OutFail, DcStreamProfileDowngrade)
    end in
  container_record CkStreamProfile o d.

Definition wasm_header_record (s : ParsedSegment) (facts : SegmentFacts) : list VerificationRecord :=
  match fa_wasm facts with
  | None | Some (Bare _) => []
  | Some (Headed _) => [segment_record CkWasmHeader OutPass s DcWasmHeaderAccepted]
  | Some (Rejected e) => [segment_record CkWasmHeader OutFail s (DcWasmHeaderRejected e)]
  end.

Definition executable_signed_record (s : ParsedSegment) (opts : VerifyOptions) : VerificationRecord :=
  if segment_is_signed s then segment_record CkExecutableSigned OutPass s DcExecutableIsSigned
  else if vo_allow_unsigned_executable opts
  then segment_record CkExecutableSigned OutSkip s DcUnsignedExecutablePermitted
  else segment_record CkExecutableSigned OutFail s DcExecutableIsUnsigned.

Section verification.
Context `{!BitflagsUnion, !Sha256, !SegmentHashes, !ConstantTimeEq, !Ed25519}.

Definition matches (e : VerifiedExecutable) (module_ : list Z) : bool :=
  (ve_module_length e =? Z.of_nat (length module_)) && bool_decide (ve_module_sha256 e = sha256 module_).
Definition matches_payload (e : VerifiedExecutable) (payload : list Z) : bool :=
  (ve_byte_length e =? Z.of_nat (length payload)) && bool_decide (ve_sha256 e = sha256 payload).

Definition facts_from_buffer (data : list Z) (s : ParsedSegment) : SegmentFacts :=
  let payload := segment_payload s data in
  let sig :=
    if segment_is_signed s then
      match (ps_footer s ≫= λ r,
               match decode_signature_footer (range_of r data) with Ok f => Some f | Err _ => None end) with
      | None => SigMalformed
      | Some f =>
          SigDecoded (sf_sig_algo f) (sf_sig_length f)
            (if (length (sf_signature f) =? 64)%nat then Some (sf_signature f) else None)
            (build_signed_message (ps_header s) payload)
      end
    else SigUnsigned in
  mkSegmentFacts (verify_content_hash (ps_header s) payload) sig
    (if segment_is_executable s then Some (sha256 payload) else None)
    (if (sh_seg_type (ps_header s) =? SEG_TYPE_WASM) && negb (header_is_encrypted (ps_header s))
     then Some (scan_payload payload) else None).

Definition deny_all : CapabilityMapping :=
  match map_declared [] with Ok m => m | Err _ => mkCapabilityMapping [] [] end.

Definition capability_record (meta : list (list Z)) : CapabilityMapping * VerificationRecord :=
  if has_unknown_class_name_in meta
  then (deny_all, container_record CkCapabilityMapping OutFail DcCapabilityUnknown)
  else
    match map_declared (declared_classes_in meta) with
    | Ok mapping => (mapping, container_record CkCapabilityMapping OutPass DcCapabilitiesMapped)
    | Err _ => (deny_all, container_record CkCapabilityMapping OutFail DcCapabilityUnsupported)
    end.

(** Some trusted key accepts the signature. *)
Definition some_key_verifies (keys : list (list Z)) (message signature : list Z) : bool :=
  existsb (λ raw, ed_key_ok raw && ed_verify_strict raw message signature) keys.

Definition signature_record (s : ParsedSegment) (sig : SigFacts) (opts : VerifyOptions) : VerificationRecord :=
  match sig with
  | SigDecoded algo len signature message =>
      if negb (algo =? SIG_ALGO_ED25519) || negb (len =? ED25519_SIGNATURE_LENGTH) then
        segment_record CkSignature (if segment_is_executable s then OutFail else OutSkip) s
          DcUnsupportedSignatureAlgorithm
      else if bool_decide (vo_trusted_keys opts = []) then
        segment_record CkSignature
          (if segment_is_executable s && negb (vo_allow_unsigned_executable opts) then OutFail else OutSkip)
          s DcNoTrustedKey
      else
        let verified := is_some_and (some_key_verifies (vo_trusted_keys opts) message) signature in
        segment_record CkSignature (outcome verified) s
          (if verified then DcSignatureVerifies else DcSignatureRejected)
  | _ => segment_record CkSignature OutFail s DcFooterMalformed
  end.

(** The records of one segment. *)
Definition segment_records (opts : VerifyOptions) (p : ParsedSegment * SegmentFacts)
    : list VerificationRecord :=
  let '(s, facts) := p in
  [segment_record CkContentHash (outcome (fa_content_hash_ok facts)) s
     (if fa_content_hash_ok facts then DcContentHashMatches else DcContentHashMismatch)] ++
  (if segment_is_executable s then [executable_signed_record s opts] else []) ++
  wasm_header_record s facts ++
  (if segment_is_signed s then [signature_record s (fa_sig facts) opts] else []).

Definition verified_executable (p : ParsedSegment * SegmentFacts) : VerifiedExecutable :=
  let '(s, facts) := p in
  let payload_sha := default (replicate 32 0) (fa_payload_sha256 facts) in
  let '(module_offset, module_length, module_sha256) :=
    match fa_wasm facts with
    | Some (Headed span) | Some (Bare span) => (ms_offset span, ms_len span, ms_sha256 span)
    | Some (Rejected _) => (0, 0, replicate 32 0)
    | None => (0, sh_payload_length (ps_header s), payload_sha)
    end in
  mkVerifiedExecutable (sh_segment_id (ps_header s)) (sh_seg_type (ps_header s))
    (sh_payload_length (ps_header s)) payload_sha module_offset module_length module_sha256.

Definition build_report (input : ReportInput) (opts : VerifyOptions) : VerificationReport :=
  let segments := ri_segments input in
  let unpinned :=
    if vo_require_pinned_identity opts && is_none (vo_expected_identity opts) &&
       bool_decide (ri_delivery input = Buffered)
    then [container_record CkIdentity OutFail DcIdentityNotPinned] else [] in
  let pinned :=
    match vo_expected_identity opts with
    | Some expected =>
        let m := bool_decide (expected = ri_identity input) in
        [container_record CkIdentity (outcome m) (if m then DcIdentityMatches else DcIdentityMismatch)]
    | None => []
    end in
  let size_violations := check_sizes (ri_container_bytes input) segments (vo_size_policy opts) in
  let within := bool_decide (length size_violations = 0%nat) in
  let '(capabilities, cap_record) := capability_record (ri_meta input) in
  let profile :=
    if declares_stream_profile (ri_meta input)
    then [stream_profile_record (ri_delivery input) opts] else [] in
  let pairs := zip segments (ri_facts input) in
  let records :=
    unpinned ++ pinned ++ [root_manifest_record segments] ++
    [container_record CkSizePolicy (outcome within)
       (if within then DcWithinSizePolicy else DcExceedsSizePolicy)] ++
    [cap_record] ++ profile ++ concat (segment_records opts <$> pairs) in
  let ok := negb (existsb record_failed records) in
  mkVerificationReport (ri_identity input) (ri_container_bytes input) ok (ri_identity_confirmed input)
    (length segments) (verified_executable <$> filter (λ p, segment_is_executable p.1 = true) pairs)
    records capabilities size_violations.

Definition verify (data : list Z) (opts : VerifyOptions) : RvfResult VerificationReport :=
  segments ← walk data;
  let facts := facts_from_buffer data <$> segments in
  Ok (build_report
        (mkReportInput (sha256 data) (Z.of_nat (length data)) segments facts (plaintext_meta data segments)
           Buffered true) opts).

Definition into_result (r : VerificationReport) : RvfResult VerificationReport :=
  if admissible r then Ok r
  else if is_some (first_failure CkCapabilityMapping r) then
    if existsb (λ x, bool_decide (vr_check x = CkCapabilityMapping) &&
                     bool_decide (vr_detail x = DcCapabilityUnknown)) (rp_records r)
    then Err UnknownCapability
    else Err (UnsupportedCapability
                (default CcClipboard (find_by (λ c, negb (is_representable c)) CLASS_ALL)))
  else Err MalformedFooter.
End verification.

(* ------------------------------------------------------------------ *)
(** ** What an admissible report means *)

Section verification_lemmas.
Context {BU : BitflagsUnion} {SH : Sha256} {HS : SegmentHashes} {CT : ConstantTimeEq} {ED : Ed25519}.

(** The signature rule of one signed segment. *)
Definition signature_acceptable (opts : VerifyOptions) (s : ParsedSegment) (sig : SigFacts) : Prop :=
  match sig with
  | SigDecoded algo len signature message =>
      if decide (algo = SIG_ALGO_ED25519 ∧ len = ED25519_SIGNATURE_LENGTH) then
        if decide (vo_trusted_keys opts = [])
        then segment_is_executable s = true → vo_allow_unsigned_executable opts = true
        else ∃ bytes key, signature = Some bytes ∧ key ∈ vo_trusted_keys opts ∧
             ed_key_ok key = true ∧ ed_verify_strict key message bytes = true
      else segment_is_executable s = false
  | _ => False
  end.

Definition segment_acceptable (opts : VerifyOptions) (p : ParsedSegment * SegmentFacts) : Prop :=
  fa_content_hash_ok p.2 = true ∧
  (segment_is_executable p.1 = true → segment_is_signed p.1 = true ∨ vo_allow_unsigned_executable opts = true) ∧
  (∀ e, fa_wasm p.2 ≠ Some (Rejected e)) ∧
  (segment_is_signed p.1 = true → signature_acceptable opts p.1 (fa_sig p.2)).

Definition capabilities_acceptable (meta : list (list Z)) : Prop :=
  has_unknown_class_name_in meta = false ∧
  ∀ c, c ∈ declared_classes_in meta → is_representable c = true.

Record report_acceptable (input : ReportInput) (opts : VerifyOptions) : Prop := {
  ra_confirmed : ri_identity_confirmed input = true;
  ra_identity : match vo_expected_identity opts with
                | Some expected => expected = ri_identity input
                | None => vo_require_pinned_identity opts = false ∨ ri_delivery input = Streamed
                end;
  ra_manifest : is_Some (root_manifest (ri_segments input));
  ra_sizes : check_sizes (ri_container_bytes input) (ri_segments input) (vo_size_policy opts) = [];
  ra_capabilities : capabilities_acceptable (ri_meta input);
  ra_profile : declares_stream_profile (ri_meta input) = true →
    ri_delivery input = Streamed ∨
    vo_permit_buffered_stream_profile opts = true ∧ is_Some (vo_expected_identity opts);
  ra_segments : Forall (segment_acceptable opts) (zip (ri_segments input) (ri_facts input));
}.

Lemma none_failed_app a b :
  existsb record_failed (a ++ b) = false ↔ existsb record_failed a = false ∧ existsb record_failed b = false.
Proof. by rewrite existsb_app, orb_false_iff. Qed.

Lemma outcome_failed_seg k b s d : record_failed (segment_record k (outcome b) s d) = negb b.
Proof. by destruct b. Qed.
Lemma outcome_failed_con k b d : record_failed (container_record k (outcome b) d) = negb b.
Proof. by destruct b. Qed.

Lemma none_failed_one r : existsb record_failed [r] = false ↔ record_failed r = false.
Proof. cbn. by rewrite orb_false_r. Qed.

Lemma some_key_verifies_true keys message signature :
  some_key_verifies keys message signature = true ↔
  ∃ key, key ∈ keys ∧ ed_key_ok key = true ∧ ed_verify_strict key message signature = true.
Proof.
  unfold some_key_verifies. rewrite existsb_exists. split; intros (k & H1 & H2); exists k.
  - apply andb_true_iff in H2. split; [by apply list_elem_of_In|done].
  - rewrite andb_true_iff. split; [by apply list_elem_of_In|done].
Qed.

Lemma signature_record_ok opts s sig :
  record_failed (signature_record s sig opts) = false ↔ signature_acceptable opts s sig.
Proof.
  unfold signature_record, signature_acceptable. destruct sig as [| |algo len signature message]; [done|done|].
  destruct (decide _) as [[-> ->]|Hne].
  - rewrite !Z.eqb_refl. cbn [negb orb]. case_bool_decide as Ek.
    + rewrite (decide_True _ _ Ek). destruct (segment_is_executable s), (vo_allow_unsigned_executable opts);
        cbn; split; auto; intros H; by discriminate H || exfalso; discriminate (H eq_refl).
    + rewrite (decide_False _ _ Ek), outcome_failed_seg, negb_false_iff.
      destruct signature as [bytes|]; cbn; [|split; [done|by intros (? & ? & ? & _)]].
      rewrite some_key_verifies_true. naive_solver.
  - assert (negb (algo =? SIG_ALGO_ED25519) || negb (len =? ED25519_SIGNATURE_LENGTH) = true) as ->.
    { apply not_false_iff_true. intros H. split_bool. by apply Hne. }
    by destruct (segment_is_executable s).
Qed.

Lemma segment_records_ok opts p :
  existsb record_failed (segment_records opts p) = false ↔ segment_acceptable opts p.
Proof.
  destruct p as [s facts]. unfold segment_records, segment_acceptable. cbn [fst snd].
  rewrite !none_failed_app, none_failed_one, outcome_failed_seg, negb_false_iff.
  assert (existsb record_failed (if segment_is_executable s then [executable_signed_record s opts] else []) = false
    ↔ (segment_is_executable s = true → segment_is_signed s = true ∨ vo_allow_unsigned_executable opts = true)) as ->.
  { unfold executable_signed_record. destruct (segment_is_executable s), (segment_is_signed s),
      (vo_allow_unsigned_executable opts); cbn; split; auto; try done. by intros [?|?]. }
  assert (existsb record_failed (wasm_header_record s facts) = false ↔ ∀ e, fa_wasm facts ≠ Some (Rejected e)) as ->.
  { unfold wasm_header_record. destruct (fa_wasm facts) as [[]|]; cbn; split; try done. intros H. by destruct (H e). }
  assert (existsb record_failed (if segment_is_signed s then [signature_record s (fa_sig facts) opts] else []) = false
    ↔ (segment_is_signed s = true → signature_acceptable opts s (fa_sig facts))) as ->; [|done].
  destruct (segment_is_signed s); [|by split]. rewrite none_failed_one, signature_record_ok. naive_solver.
Qed.

Lemma concat_records_ok opts pairs :
  existsb record_failed (concat (segment_records opts <$> pairs)) = false ↔
  Forall (segment_acceptable opts) pairs.
Proof.
  induction pairs as [|p pairs IH]; cbn [fmap list_fmap concat]; [by split; [intros _; constructor|]|].
  by rewrite none_failed_app, Forall_cons, segment_records_ok, IH.
Qed.

Lemma capability_record_ok meta :
  record_failed (capability_record meta).2 = false ↔ capabilities_acceptable meta.
Proof.
  unfold capability_record, capabilities_acceptable. destruct (has_unknown_class_name_in meta); [by split; [|intros [? _]]|].
  pose proof (map_declared_total (declared_classes_in meta)) as H.
  destruct (map_declared _) as [m|e]; cbn; [by split|]. destruct H as (c & Hc & Hr).
  split; [done|]. intros [_ H]. by rewrite (H c Hc) in Hr.
Qed.

Lemma build_report_capabilities input opts :
  rp_capabilities (build_report input opts) = (capability_record (ri_meta input)).1.
Proof. unfold build_report. by destruct (capability_record _). Qed.

Lemma capability_record_granted meta c :
  is_granted c (capability_record meta).1 = true ↔
  capabilities_acceptable meta ∧ c ∈ declared_classes_in meta.
Proof.
  assert (is_granted c deny_all = false) as Hd by (unfold deny_all; vm_compute; by destruct c).
  unfold capability_record, capabilities_acceptable.
  destruct (has_unknown_class_name_in meta); cbn [fst]; [by rewrite Hd; split; [|intros [[? _] _]]|].
  pose proof (map_declared_total (declared_classes_in meta)) as Ht.
  pose proof (λ m, map_declared_granted (declared_classes_in meta) m c) as Hg.
  destruct (map_declared _) as [m|e]; cbn [fst]; [rewrite (Hg m) by done; naive_solver|].
  rewrite Hd. split; [done|]. intros [[_ H] _]. destruct Ht as (c' & Hc & Hr). by rewrite (H c' Hc) in Hr.
Qed.

Lemma capability_record_check meta : vr_check (capability_record meta).2 = CkCapabilityMapping.
Proof.
  unfold capability_record. destruct (has_unknown_class_name_in meta); [done|]. by destruct (map_declared _).
Qed.

(** The rule set: a report is admissible exactly when the identity is confirmed
    and pinned as required, the manifest is there, the sizes and capabilities
    are acceptable, and every segment is. *)
Lemma build_report_admissible input opts :
  admissible (build_report input opts) = true ↔ report_acceptable input opts.
Proof.
  unfold admissible, build_report. pose proof (capability_record_ok (ri_meta input)) as Hcap.
  destruct (capability_record (ri_meta input)) as [capabilities cap_record].
  cbn [rp_ok rp_identity_confirmed snd] in *.
  rewrite andb_true_iff, negb_true_iff, !none_failed_app, !none_failed_one, Hcap, concat_records_ok,
    outcome_failed_con, negb_false_iff, bool_decide_eq_true, length_zero_iff_nil.
  assert (record_failed (root_manifest_record (ri_segments input)) = false ↔
    is_Some (root_manifest (ri_segments input))) as ->.
  { unfold root_manifest_record. destruct (root_manifest _); [by split|]. split; [done|by intros []]. }
  assert (existsb record_failed (if declares_stream_profile (ri_meta input)
            then [stream_profile_record (ri_delivery input) opts] else []) = false ↔
    (declares_stream_profile (ri_meta input) = true → ri_delivery input = Streamed ∨
      vo_permit_buffered_stream_profile opts = true ∧ is_Some (vo_expected_identity opts))) as ->.
  { destruct (declares_stream_profile _); [|by split]. rewrite none_failed_one. unfold stream_profile_record.
    destruct (ri_delivery input), (vo_permit_buffered_stream_profile opts), (vo_expected_identity opts);
      cbn; split; auto; try done; intros H; destruct (H eq_refl) as [?|[? [? ?]]]; done. }
  set (unpinned := existsb record_failed (if _ && _ then _ else _) = false).
  set (pinned := existsb record_failed (match vo_expected_identity opts with _ => _ end) = false).
  assert (unpinned ∧ pinned ↔
    match vo_expected_identity opts with
    | Some expected => expected = ri_identity input
    | None => vo_require_pinned_identity opts = false ∨ ri_delivery input = Streamed
    end) as Hid.
  { subst unpinned pinned. destruct (vo_expected_identity opts) as [e|]; cbn [is_none].
    - rewrite andb_false_r. cbn [andb]. rewrite none_failed_one, outcome_failed_con, negb_false_iff, bool_decide_eq_true. by split; [intros [_ ?]|].
    - rewrite andb_true_r. destruct (vo_require_pinned_identity opts), (ri_delivery input); cbn; split; auto; try done;
        [by intros [? _]|by intros [?|?]]. }
  split.
  - intros [(H1 & H2 & H3 & H4 & H5 & H6 & H7) Hc]. split; try done. by apply Hid.
  - intros [Hc Hi ? ? ? ? ?]. apply Hid in Hi as [? ?]. done.
Qed.
(** The signature records are those of the signed segments. *)
Lemma signature_records_elem input opts r :
  r ∈ rp_records (build_report input opts) → vr_check r = CkSignature →
  ∃ s facts, (s, facts) ∈ zip (ri_segments input) (ri_facts input) ∧ segment_is_signed s = true ∧
    r = signature_record s (fa_sig facts) opts.
Proof.
  unfold build_report. pose proof (capability_record_check (ri_meta input)) as Hcap.
  destruct (capability_record (ri_meta input)) as [capabilities cap_record]. cbn [rp_records snd] in *.
  rewrite !elem_of_app, !list_elem_of_singleton, elem_of_concat_fmap.
  intros H Hc.
  assert (∃ p, p ∈ zip (ri_segments input) (ri_facts input) ∧ r ∈ segment_records opts p) as ([s facts] & Hin & Hr).
  { destruct H as [H|[H|[H|[H|[H|[H|H]]]]]]; [exfalso..|done].
  - destruct (_ && _); [apply list_elem_of_singleton in H as ->; done|by apply not_elem_of_nil in H].
  - destruct (vo_expected_identity opts); [apply list_elem_of_singleton in H as ->; done|by apply not_elem_of_nil in H].
  - subst r. unfold root_manifest_record in Hc; by destruct (root_manifest _).
  - by subst r.
  - subst r. congruence.
  - destruct (declares_stream_profile _); [apply list_elem_of_singleton in H as ->|by apply not_elem_of_nil in H];
       unfold stream_profile_record in Hc; destruct (ri_delivery input); [|done]; by destruct (_ && _). }
  exists s, facts. split; [done|]. unfold segment_records in Hr.
  rewrite !elem_of_app, list_elem_of_singleton in Hr. destruct Hr as [->|[Hr|[Hr|Hr]]]; [done|..].
  - destruct (segment_is_executable s); [apply list_elem_of_singleton in Hr as ->|by apply not_elem_of_nil in Hr].
    unfold executable_signed_record in Hc. destruct (segment_is_signed s); [done|]. by destruct (vo_allow_unsigned_executable opts).
  - unfold wasm_header_record in Hr. destruct (fa_wasm facts) as [[]|];
      (by apply not_elem_of_nil in Hr) || (apply list_elem_of_singleton in Hr as ->; done).
  - destruct (segment_is_signed s); [by apply list_elem_of_singleton in Hr|by apply not_elem_of_nil in Hr].
Qed.

(** A signature record that passed names a trusted key that accepts it. *)
Lemma signature_record_pass opts s sig :
  vr_outcome (signature_record s sig opts) = OutPass →
  ∃ algo len bytes message key, sig = SigDecoded algo len (Some bytes) message ∧
    key ∈ vo_trusted_keys opts ∧ ed_key_ok key = true ∧ ed_verify_strict key message bytes = true.
Proof.
  unfold signature_record. destruct sig as [| |algo len signature message]; [done|done|].
  destruct (negb _ || negb _); [by destruct (segment_is_executable s)|].
  destruct (bool_decide _); [by destruct (_ && _)|].
  destruct (is_some_and _ signature) eqn:E; [|done]. intros _.
  destruct signature as [bytes|]; [|done]. cbn in E. apply some_key_verifies_true in E as (key & ?).
  by exists algo, len, bytes, message, key.
Qed.
End verification_lemmas.

(* ------------------------------------------------------------------ *)
(** ** What it means for the bytes *)

(** The sum of all payloads fits in the buffer. *)
Lemma tiles_class_bytes data o i segs class :
  Forall is_byte data → tiles data o i segs →
  Forall (λ s, 0 ≤ sh_payload_length (ps_header s)) segs ∧
  class_bytes class segs ≤ Z.of_nat (length data - o).
Proof.
  intros Hb. induction 1 as [o i Ho|o i Ho Hz|o i s next segs Hs Ht [IH1 IH2]].
  1,2: change (class_bytes class []) with 0; split; [constructor|lia].
  destruct Hs as [_ _ Hh Hl Hp (e & Hf & He & ->)]. destruct (align_up_spec e) as [Ha _].
  pose proof (parsed_length_range data Hb o _ Hh) as [Hr _]. split; [by constructor|].
  cbn [class_bytes foldr]. fold (class_bytes class segs).
  assert (o + 64 + Z.to_nat (sh_payload_length (ps_header s)) ≤ e)%nat as Hpe.
  { unfold footer_at in Hf. rewrite Hp in Hf. cbn [snd] in Hf.
    destruct (header_is_signed _); [destruct Hf as (f & _ & _ & _ & -> & _)|destruct Hf as [_ ->]]; lia. }
  case_bool_decide; lia.
Qed.

Lemma segment_area_bytes data body :
  segment_area data body → Forall is_byte data → Forall is_byte body ∧ (length body ≤ length data)%nat.
Proof.
  intros [->|(_ & _ & ->)] H; [done|]. split; [by apply Forall_take|rewrite length_take; lia].
Qed.

Lemma walk_tiles data segs :
  Forall is_byte data → Z.of_nat (length data) ≤ u64_max → walk data = Ok segs →
  ∃ body, segment_area data body ∧ Forall is_byte body ∧ (length body ≤ length data)%nat ∧
    tiles body 0 0 segs.
Proof.
  intros Hb Hs H. apply walk_area in H as (body & Ha & Hw). exists body.
  destruct (segment_area_bytes data body Ha Hb) as [Hbb Hle]. split_and!; try done.
  apply walk_segments_sound in Hw; [by destruct Hw|done|lia].
Qed.

Section container.
Context {BU : BitflagsUnion} {SH : Sha256} {HS : SegmentHashes} {CT : ConstantTimeEq}
  {CL : ConstantTimeEqLaws} {ED : Ed25519}.
Context (data : list Z) (opts : VerifyOptions).

(** What the options ask of one segment of the container. *)
Record segment_loadable (s : ParsedSegment) : Prop := {
  sl_content : content_hash (sh_checksum_algo (ps_header s)) (segment_payload s data) = sh_content_hash (ps_header s);
  sl_executable : segment_is_executable s = true →
    segment_is_signed s = true ∨ vo_allow_unsigned_executable opts = true;
  sl_wasm : sh_seg_type (ps_header s) = SEG_TYPE_WASM → header_is_encrypted (ps_header s) = false →
    is_ok (split_wasm_payload (segment_payload s data)) = true;
  sl_signature : segment_is_signed s = true →
    ∃ r f, ps_footer s = Some r ∧ decode_signature_footer (range_of r data) = Ok f ∧
      if decide (sf_sig_algo f = SIG_ALGO_ED25519 ∧ sf_sig_length f = ED25519_SIGNATURE_LENGTH) then
        if decide (vo_trusted_keys opts = [])
        then segment_is_executable s = true → vo_allow_unsigned_executable opts = true
        else ∃ key, key ∈ vo_trusted_keys opts ∧ ed_key_ok key = true ∧
             ed_verify_strict key (build_signed_message (ps_header s) (segment_payload s data)) (sf_signature f) = true
      else segment_is_executable s = false;
}.

Record loadable (segs : list ParsedSegment) : Prop := {
  ld_identity : match vo_expected_identity opts with
                | Some expected => expected = sha256 data
                | None => vo_require_pinned_identity opts = false
                end;
  ld_manifest : ∃ s, s ∈ segs ∧ sh_seg_type (ps_header s) = SEG_TYPE_MANIFEST;
  ld_container : Z.of_nat (length data) ≤ sp_max_container_bytes (vo_size_policy opts);
  ld_count : Z.of_nat (length segs) ≤ sp_max_segments (vo_size_policy opts);
  ld_classes class : class_bytes class segs ≤ budget_for class (vo_size_policy opts);
  ld_names s name : s ∈ segs → is_plaintext_meta s = true → name ∈ payload_names (segment_payload s data) →
    name = [] ∨ ∃ c, name = class_as_str c ∧ is_representable c = true;
  ld_profile : declares_stream_profile (plaintext_meta data segs) = true →
    vo_permit_buffered_stream_profile opts = true ∧ is_Some (vo_expected_identity opts);
  ld_segments : Forall segment_loadable segs;
}.

Lemma walked_index_inj segs s s' :
  Forall is_byte data → Z.of_nat (length data) ≤ u64_max → walk data = Ok segs →
  s ∈ segs → s' ∈ segs → ps_index s = ps_index s' → s = s'.
Proof.
  intros Hb Hs Hw (k & Hk)%list_elem_of_lookup (k' & Hk')%list_elem_of_lookup E.
  destruct (walk_tiles data segs Hb Hs Hw) as (body & _ & _ & _ & Ht).
  destruct (tiles_bounds _ _ _ _ Ht k s Hk) as [H1 _]. destruct (tiles_bounds _ _ _ _ Ht k' s' Hk') as [H2 _].
  assert (k = k') as -> by lia. congruence.
Qed.

Lemma root_manifest_is_Some segs :
  is_Some (root_manifest segs) ↔ ∃ s, s ∈ segs ∧ sh_seg_type (ps_header s) = SEG_TYPE_MANIFEST.
Proof.
  unfold root_manifest. destruct (find_by _ _) as [s|] eqn:E.
  - split; [|done]. intros _. apply find_by_Some in E as [E (i & Hi)]. split_bool. exists s.
    split; [|done]. apply elem_of_reverse. by eapply list_elem_of_lookup_2.
  - split; [by intros []|]. intros (s & Hs & Ht). apply elem_of_reverse, list_elem_of_lookup in Hs as [i Hi].
    pose proof (proj1 (find_by_None _ _) E i s Hi) as Hf. cbn in Hf. rewrite Ht in Hf. done.
Qed.

Lemma elem_of_plaintext_meta segs payload :
  payload ∈ plaintext_meta data segs ↔
  ∃ s, s ∈ segs ∧ is_plaintext_meta s = true ∧ payload = segment_payload s data.
Proof.
  unfold plaintext_meta. rewrite list_elem_of_fmap. setoid_rewrite list_elem_of_filter. naive_solver.
Qed.

Lemma capabilities_acceptable_names segs :
  capabilities_acceptable (plaintext_meta data segs) ↔
  ∀ s name, s ∈ segs → is_plaintext_meta s = true → name ∈ payload_names (segment_payload s data) →
    name = [] ∨ ∃ c, name = class_as_str c ∧ is_representable c = true.
Proof.
  unfold capabilities_acceptable. rewrite unknown_class_false.
  pose proof (declared_classes_spec (plaintext_meta data segs)) as (_ & _ & Hd). split.
  - intros [Hu Hr] s name Hs Hm Hn.
    assert (segment_payload s data ∈ plaintext_meta data segs) as Hp by (apply elem_of_plaintext_meta; eauto).
    destruct (Hu _ _ Hp Hn) as [->|[c ->]]; [by left|right]. exists c. split; [done|].
    apply Hr, Hd. by exists (segment_payload s data).
  - intros H. split.
    + intros payload name (s & Hs & Hm & ->)%elem_of_plaintext_meta Hn.
      destruct (H s name Hs Hm Hn) as [?|(c & ? & _)]; eauto.
    + intros c (payload & (s & Hs & Hm & ->)%elem_of_plaintext_meta & Hn)%Hd.
      destruct (H s _ Hs Hm Hn) as [Hc|(c' & Hc%class_as_str_inj & Hr)]; [by destruct c|by subst].
Qed.

Lemma footer_signature_length d f :
  Forall is_byte d → decode_signature_footer d = Ok f → length (sf_signature f) = Z.to_nat (sf_sig_length f).
Proof.
  intros Hd H. pose proof (decode_footer_length d d f Hd H) as [_ Hl]. unfold decode_signature_footer in H.
  apply guard_Ok in H as [_ H]. apply guard_Ok in H as [_ H]. apply guard_Ok in H as [_ H]. injection H as <-.
  cbn [sf_signature sf_sig_length] in *. rewrite slice_length; [done|lia].
Qed.

Lemma facts_acceptable s :
  Forall is_byte data →
  segment_acceptable opts (s, facts_from_buffer data s) ↔ segment_loadable s.
Proof.
  intros Hb. assert (∀ r, Forall is_byte (range_of r data)) as Hr by (intros r; by apply slice_bytes).
  unfold segment_acceptable, facts_from_buffer. cbn [fst snd fa_content_hash_ok fa_wasm fa_sig].
  unfold verify_content_hash. rewrite ct_eq_spec.
  assert ((∀ e, (if (sh_seg_type (ps_header s) =? SEG_TYPE_WASM) && negb (header_is_encrypted (ps_header s))
              then Some (scan_payload (segment_payload s data)) else None) ≠ Some (Rejected e)) ↔
    (sh_seg_type (ps_header s) = SEG_TYPE_WASM → header_is_encrypted (ps_header s) = false →
      is_ok (split_wasm_payload (segment_payload s data)) = true)) as ->.
  { rewrite scan_payload_facts, split_payload_facts by apply Hr.
    destruct (sh_seg_type (ps_header s) =? SEG_TYPE_WASM) eqn:E1, (header_is_encrypted (ps_header s)); split_bool;
      cbn; try (by split; intros; congruence).
    destruct (payload_facts _); cbn; naive_solver. }
  assert ((segment_is_signed s = true → signature_acceptable opts s
      (if segment_is_signed s then
         match (ps_footer s ≫= λ r, match decode_signature_footer (range_of r data) with Ok f => Some f | Err _ => None end) with
         | None => SigMalformed
         | Some f => SigDecoded (sf_sig_algo f) (sf_sig_length f)
            (if (length (sf_signature f) =? 64)%nat then Some (sf_signature f) else None)
            (build_signed_message (ps_header s) (segment_payload s data))
         end else SigUnsigned)) ↔
    (segment_is_signed s = true → ∃ r f, ps_footer s = Some r ∧ decode_signature_footer (range_of r data) = Ok f ∧
      if decide (sf_sig_algo f = SIG_ALGO_ED25519 ∧ sf_sig_length f = ED25519_SIGNATURE_LENGTH) then
        if decide (vo_trusted_keys opts = [])
        then segment_is_executable s = true → vo_allow_unsigned_executable opts = true
        else ∃ key, key ∈ vo_trusted_keys opts ∧ ed_key_ok key = true ∧
             ed_verify_strict key (build_signed_message (ps_header s) (segment_payload s data)) (sf_signature f) = true
      else segment_is_executable s = false)) as ->.
  { destruct (segment_is_signed s); [|by split; intros ? [=]].
    destruct (ps_footer s) as [r|]; cbn [mbind option_bind].
    2:{ split; [by intros H; destruct (H eq_refl)|]. intros H. by destruct (H eq_refl) as (? & ? & ? & _). }
    destruct (decode_signature_footer (range_of r data)) as [f|e] eqn:Ef.
    2:{ split; [by intros H; destruct (H eq_refl)|]. intros H. destruct (H eq_refl) as (? & ? & [= <-] & H' & _).
        by rewrite Ef in H'. }
    pose proof (footer_signature_length _ f (Hr r) Ef) as Hl. unfold signature_acceptable. split.
    - intros H _. specialize (H eq_refl). exists r, f. split_and!; [done..|].
      destruct (decide (_ ∧ _)) as [[Ha Hlen]|]; [|done]. destruct (decide (_ = [])); [done|].
      destruct H as (bytes & key & Hsome & ?). exists key. destruct (_ =? 64)%nat; [|done]. by injection Hsome as <-.
    - intros H _. destruct (H eq_refl) as (r' & f' & [= <-] & Ef' & Hrule). rewrite Ef in Ef'. injection Ef' as <-.
      destruct (decide (_ ∧ _)) as [[Ha Hlen]|]; [|done]. destruct (decide (_ = [])); [done|].
      destruct Hrule as (key & ?). exists (sf_signature f), key. rewrite Hl, Hlen. done. }
  split; [by intros (? & ? & ? & ?)|by intros []].
Qed.

Lemma Forall_zip_facts segs :
  Forall is_byte data →
  Forall (segment_acceptable opts) (zip segs (facts_from_buffer data <$> segs)) ↔ Forall segment_loadable segs.
Proof.
  intros Hb. induction segs as [|s segs IH]; cbn; [by split; intros; constructor|].
  by rewrite !Forall_cons, IH, facts_acceptable.
Qed.

Lemma verify_report_loadable segs r :
  Forall is_byte data → Z.of_nat (length data) ≤ u64_max → walk data = Ok segs → verify data opts = Ok r →
  admissible r = true ↔ loadable segs.
Proof.
  intros Hb Hs Ew Hv. unfold verify in Hv. rewrite Ew in Hv. cbn [mbind result_bind] in Hv. apply Ok_inj in Hv as <-.
  destruct (walk_tiles data segs Hb Hs Ew) as (body & _ & Hbb & Hle & Ht).
  assert (Forall (λ s, 0 ≤ sh_payload_length (ps_header s)) segs) as Hlen
    by apply (tiles_class_bytes body 0 0 segs ClassModel Hbb Ht).
  rewrite build_report_admissible.
  assert (∀ class, Z.min u64_max (class_bytes class segs) = class_bytes class segs) as Hmin.
  { intros class. destruct (tiles_class_bytes body 0 0 segs class Hbb Ht) as [_ ?]. lia. }
  split.
  - intros [_ Hid Hman Hsz Hcap Hpr Hseg]. cbn [ri_identity ri_container_bytes ri_segments ri_facts ri_meta ri_delivery] in *.
    apply check_sizes_nil in Hsz as (? & ? & Hcl); [|done].
    split; [| | | | | | |].
    * destruct (vo_expected_identity opts); [done|]. by destruct Hid.
    * by apply root_manifest_is_Some.
    * done.
    * done.
    * intros class. rewrite <-Hmin. apply Hcl.
    * by apply capabilities_acceptable_names.
    * intros Hd. by destruct (Hpr Hd).
    * by apply Forall_zip_facts.
  - intros [Hid Hman Hc Hn Hcl Hcap Hpr Hseg].
    split; cbn [ri_identity ri_container_bytes ri_segments ri_facts ri_meta ri_delivery ri_identity_confirmed].
    * done.
    * destruct (vo_expected_identity opts); [done|by left].
    * by apply root_manifest_is_Some.
    * apply check_sizes_nil; [done|]. split_and!; [done..|]. intros class. rewrite Hmin. apply Hcl.
    * by apply capabilities_acceptable_names.
    * intros Hd. right. by apply Hpr.
    * by apply Forall_zip_facts.
Qed.

(** C8: Verify before load, exactly: a container that does not parse is an
    error; otherwise the report is admissible exactly when the container is
    [loadable]: its SHA-256 is the pinned identity (or none is required), a
    manifest segment is present, the container and the sum of each class of
    payload fit their signed limits, every capability name in plaintext metadata
    is a class RVM can represent, a stream-profiled package is permitted, and
    every segment matches its content hash, is signed if executable, carries a
    valid signature where it is checked, and has a well-formed module.  An
    admissible report grants exactly the declared classes, a refused
    declaration none. *)
Theorem verify_before_load_exact :
  Forall is_byte data → Z.of_nat (length data) ≤ u64_max →
  match verify data opts with
  | Err e => walk data = Err e
  | Ok r =>
      ∃ segs, walk data = Ok segs ∧ (admissible r = true ↔ loadable segs) ∧
        rp_rvf_identity r = sha256 data ∧
        ∀ c, is_granted c (rp_capabilities r) = true ↔
          capabilities_acceptable (plaintext_meta data segs) ∧ c ∈ declared_classes data segs
  end.
Proof.
  intros Hb Hs. destruct (verify data opts) as [r|e] eqn:Ev; unfold verify in Ev.
  2:{ destruct (walk data); [done|]. cbn in Ev. congruence. }
  destruct (walk data) as [segs|e] eqn:Ew; [|done]. exists segs. split; [done|].
  split; [apply verify_report_loadable; try done; unfold verify; by rewrite Ew|].
  cbn [mbind result_bind] in Ev. apply Ok_inj in Ev as <-. rewrite build_report_capabilities.
  split; [by unfold build_report; destruct (capability_record _)|]. intros c. apply capability_record_granted.
Qed.

(** The bytes of an executable segment that run: the module of an unencrypted
    WebAssembly segment, otherwise the payload. *)
Definition runnable (s : ParsedSegment) : list Z :=
  if (sh_seg_type (ps_header s) =? SEG_TYPE_WASM) && negb (header_is_encrypted (ps_header s))
  then payload_module (segment_payload s data) else segment_payload s data.

Lemma walked_payload_length segs s :
  Forall is_byte data → Z.of_nat (length data) ≤ u64_max → walk data = Ok segs → s ∈ segs →
  sh_payload_length (ps_header s) = Z.of_nat (length (segment_payload s data)).
Proof.
  intros Hb Hs Hw Hin. destruct (walk_tiles data segs Hb Hs Hw) as (body & _ & Hbb & Hle & Ht).
  clear Hw. induction Ht as [o i Ho|o i Ho Hz|o i s' next segs Hs' Ht IH]; [by apply not_elem_of_nil in Hin..|].
  apply elem_of_cons in Hin as [<-|Hin]; [|by apply IH]. clear IH.
  destruct Hs' as [_ _ Hh Hl Hp (e & Hf & He & _)]. pose proof (parsed_length_range body Hbb o _ Hh) as [Hr _].
  assert ((ps_payload_range s).2 ≤ e)%nat as Hpe.
  { unfold footer_at in Hf. destruct (header_is_signed _); [destruct Hf as (f & _ & _ & _ & -> & _)|destruct Hf as [_ ->]]; lia. }
  unfold segment_payload, range_of. rewrite Hp in *. cbn [fst snd] in *. rewrite slice_length; lia.
Qed.

Lemma verified_executable_matches segs s module_ :
  Forall is_byte data → Z.of_nat (length data) ≤ u64_max → walk data = Ok segs → s ∈ segs →
  segment_loadable s → segment_is_executable s = true →
  let ve := verified_executable (s, facts_from_buffer data s) in
  ve_sha256 ve = sha256 (segment_payload s data) ∧
  (matches ve module_ = true ↔
    length module_ = length (runnable s) ∧ sha256 module_ = sha256 (runnable s)).
Proof.
  intros Hb Hs Hw Hin Hl Hx. pose proof (walked_payload_length segs s Hb Hs Hw Hin) as Hlen.
  assert (Forall is_byte (segment_payload s data)) as Hpb by by apply slice_bytes.
  cbn zeta. unfold verified_executable, facts_from_buffer, matches, runnable.
  cbn [fa_payload_sha256 fa_wasm]. rewrite Hx. cbn [default]. pose proof (sl_wasm s Hl) as Hwasm.
  destruct (sh_seg_type (ps_header s) =? SEG_TYPE_WASM) eqn:E1, (header_is_encrypted (ps_header s)) eqn:E2;
    cbn [andb negb].
  2:{ split_bool. rewrite scan_payload_facts by done. specialize (Hwasm E1 eq_refl).
      rewrite split_payload_facts in Hwasm by done. pose proof (facts_span (segment_payload s data)) as Hsp.
      destruct (payload_facts (segment_payload s data)) as [span|span|e]; [..|done];
        cbn [ve_sha256 ve_module_length ve_module_sha256]; destruct Hsp as (-> & -> & _);
        rewrite andb_true_iff, Z.eqb_eq, bool_decide_eq_true; (split; [done|]);
        (split; [intros [? ?]; split; [lia|done]|intros [? ?]; split; [lia|done]]). }
  all: cbn [ve_sha256 ve_module_length ve_module_sha256];
    rewrite andb_true_iff, Z.eqb_eq, bool_decide_eq_true, Hlen; (split; [done|]);
    (split; [intros [? ?]; split; [lia|done]|intros [? ?]; split; [lia|done]]).
Qed.

(** The executables of an admissible report under the strict options. *)
Lemma loadable_signed s :
  segment_loadable s → segment_is_executable s = true → vo_allow_unsigned_executable opts = false →
  ∃ r f key, ps_footer s = Some r ∧ decode_signature_footer (range_of r data) = Ok f ∧
    key ∈ vo_trusted_keys opts ∧
    ed_verify_strict key (build_signed_message (ps_header s) (segment_payload s data)) (sf_signature f) = true.
Proof.
  intros [_ Hx _ Hsig] Hex Hu. destruct (Hx Hex) as [Hsd|?]; [|congruence].
  destruct (Hsig Hsd) as (r & f & Hr & Hf & Hrule).
  destruct (decide (_ ∧ _)); [|congruence]. destruct (decide (_ = [])); [by rewrite Hu in Hrule; specialize (Hrule Hex)|].
  destruct Hrule as (key & ? & _ & ?). by exists r, f, key.
Qed.
End container.

Section admitted.
Context {BU : BitflagsUnion} {SH : Sha256} {HS : SegmentHashes} {CT : ConstantTimeEq}
  {CL : ConstantTimeEqLaws} {ED : Ed25519}.

Lemma report_executables input opts :
  rp_executables (build_report input opts) =
    verified_executable <$> filter (λ p, segment_is_executable p.1 = true) (zip (ri_segments input) (ri_facts input)).
Proof. unfold build_report. by destruct (capability_record _). Qed.

Lemma elem_of_zip_facts data segs s facts :
  (s, facts) ∈ zip segs (facts_from_buffer data <$> segs) → s ∈ segs ∧ facts = facts_from_buffer data s.
Proof.
  induction segs as [|s' segs IH]; cbn; [by intros ?%not_elem_of_nil|].
  rewrite !elem_of_cons. intros [[= -> ->]|H]; [auto|]. naive_solver.
Qed.

(** Under the strict options, whatever an admissible report lets run is
    signed: every executable in it is the payload of a segment of the container
    that matches its content hash and whose signature, over the header and the
    payload, verifies under a trusted key; and [matches], the check made at
    start, accepts exactly a module with the length and the SHA-256 of the bytes
    of that segment that run. *)
Theorem admitted_executables_signed data opts r ve :
  Forall is_byte data → Z.of_nat (length data) ≤ u64_max → vo_allow_unsigned_executable opts = false →
  verify data opts = Ok r → admissible r = true → ve ∈ rp_executables r →
  ∃ segs s range f key,
    walk data = Ok segs ∧ s ∈ segs ∧ segment_is_executable s = true ∧
    content_hash (sh_checksum_algo (ps_header s)) (segment_payload s data) = sh_content_hash (ps_header s) ∧
    ps_footer s = Some range ∧ decode_signature_footer (range_of range data) = Ok f ∧
    key ∈ vo_trusted_keys opts ∧
    ed_verify_strict key (build_signed_message (ps_header s) (segment_payload s data)) (sf_signature f) = true ∧
    ve_sha256 ve = sha256 (segment_payload s data) ∧
    ∀ module_, matches ve module_ = true ↔
      length module_ = length (runnable data s) ∧ sha256 module_ = sha256 (runnable data s).
Proof.
  intros Hb Hs Hu Hv Ha Hve. unfold verify in Hv. destruct (walk data) as [segs|e] eqn:Ew; [|done].
  cbn [mbind result_bind] in Hv. apply Ok_inj in Hv as <-.
  apply build_report_admissible, ra_segments in Ha. cbn [ri_segments ri_facts] in Ha.
  rewrite (Forall_zip_facts data opts segs Hb) in Ha.
  rewrite report_executables in Hve. cbn [ri_segments ri_facts] in Hve.
  apply list_elem_of_fmap in Hve as ([s facts] & -> & Hp). apply list_elem_of_filter in Hp as [Hx Hp].
  cbn [fst] in Hx. apply elem_of_zip_facts in Hp as [Hin ->].
  rewrite Forall_forall in Ha. specialize (Ha s Hin).
  destruct (loadable_signed data opts s Ha Hx Hu) as (range & f & key & H1 & H2 & H3 & H4).
  exists segs, s, range, f, key.
  pose proof (λ m, verified_executable_matches data opts segs s m Hb Hs Ew Hin Ha Hx) as Hm. cbn zeta in Hm.
  split_and!; [done|done|done|by apply (sl_content _ _ _ Ha)|done|done|done|done|by apply (Hm [])|]. intros m. apply Hm.
Qed.
End admitted.

(* ------------------------------------------------------------------ *)
(** ** A sample package: a manifest, a declaration, and a signed module *)

#[local] Instance sample_rights : BitflagsUnion := Z.lor.
Definition byte_sum (l : list Z) : Z := foldl Z.add 0 l mod 256.
#[local] Instance sample_sha : Sha256 := λ data, replicate 32 (byte_sum data).
#[local] Instance sample_hashes : SegmentHashes :=
  {| xxh3_128 data := replicate 16 (byte_sum data); shake256_128 data := replicate 16 (byte_sum data) |}.
#[local] Instance sample_ct_eq : ConstantTimeEq := λ a b, bool_decide (a = b).
#[local] Instance sample_ct_eq_ok : ConstantTimeEqLaws.
Proof. intros a b. apply bool_decide_eq_true. Qed.
#[local] Instance sample_ed : Ed25519 :=
  {| ed_public_key seed := seed; ed_sign seed msg := replicate 64 (byte_sum (seed ++ msg));
     ed_key_ok _ := true;
     ed_verify_strict key msg sig := bool_decide (sig = replicate 64 (byte_sum (key ++ msg))) |}.

Definition pack_header (seg_type flags id : Z) (payload : list Z) : SegmentHeader :=
  mkSegmentHeader SEGMENT_MAGIC 1 seg_type flags id (Z.of_nat (length payload)) 0 0 0 0 0
    (content_hash 0 payload) 0 0.
Definition pad64 (l : list Z) : list Z := l ++ replicate (align_up (length l) - length l) 0.
Definition pack_segment (seg_type id : Z) (payload : list Z) : list Z :=
  pad64 (header_to_bytes (pack_header seg_type 0 id payload) ++ payload).
Definition pack_signed (key : list Z) (seg_type id : Z) (payload : list Z) : list Z :=
  let h := pack_header seg_type FLAG_SIGNED id payload in
  pad64 (header_to_bytes h ++ payload ++ le_bytes 2 0 ++ le_bytes 2 64 ++
         ed_sign key (build_signed_message h payload) ++ le_bytes 4 72).

Definition sample_key : list Z := replicate 32 3.
Definition sample_module : list Z := [0; 97; 115; 109; 1; 0; 0; 0].
Definition sample_package : list Z :=
  pack_segment SEG_TYPE_MANIFEST 1 [7; 8; 9] ++ pack_segment SEG_TYPE_META 2 (lit "rvf.capabilities=clock") ++
  pack_signed sample_key SEG_TYPE_WASM 3 sample_module.

Definition report_of (data : list Z) (opts : VerifyOptions) : option VerificationReport :=
  match verify data opts with Ok r => Some r | Err _ => None end.

Lemma sample_package_bytes : Forall is_byte sample_package.
Proof.
  assert (forallb (λ b, (0 <=? b) && (b <? 256)) sample_package = true) as H by (vm_compute; reflexivity).
  apply forallb_Forall in H. eapply Forall_impl; [exact H|]. intros b Hb. unfold is_byte. cbn in Hb. split_bool. lia.
Qed.

(** One changed byte of the module, or of the signature, is refused. *)
Example sample_admissible : admissible <$> report_of sample_package (with_trusted_keys [sample_key]) = Some true.
Proof. vm_compute. reflexivity. Qed.
Example tampered_module_refused :
  admissible <$> report_of (<[(320 + 4)%nat := 2]> sample_package) (with_trusted_keys [sample_key]) = Some false.
Proof. vm_compute. reflexivity. Qed.
Example untrusted_key_refused : admissible <$> report_of sample_package default_options = Some false.
Proof. vm_compute. reflexivity. Qed.

(** The error for an unrepresentable class always names randomness: a package
    that declares only the clipboard is refused with the wrong class. *)
Definition clipboard_package : list Z :=
  pack_segment SEG_TYPE_MANIFEST 1 [7; 8; 9] ++ pack_segment SEG_TYPE_META 2 (lit "rvf.capabilities=clipboard").
Example clipboard_reported_as_randomness :
  (match into_result <$> report_of clipboard_package default_options with Some (Err e) => Some e | _ => None end) =
    Some (UnsupportedCapability CcRandomness).
Proof. vm_compute. reflexivity. Qed.

Lemma verify_before_load_exact_witness :
  ∃ segs, walk sample_package = Ok segs ∧ loadable sample_package (with_trusted_keys [sample_key]) segs.
Proof.
  pose proof (verify_before_load_exact sample_package (with_trusted_keys [sample_key]) sample_package_bytes
    ltac:(vm_compute; discriminate)) as H.
  pose proof sample_admissible as Ha. unfold report_of in Ha.
  destruct (verify sample_package (with_trusted_keys [sample_key])) as [r|e]; [|discriminate Ha].
  destruct H as (segs & Hw & Hiff & _). exists segs. split; [exact Hw|]. apply Hiff.
  cbn in Ha. injection Ha as Ha. exact Ha.
Defined.

Lemma admitted_executables_signed_witness :
  ∃ ve, (ve_segment_id ve = 3 ∧ matches ve sample_module = true) ∧
    ∃ segs s, walk sample_package = Ok segs ∧ s ∈ segs ∧ segment_is_executable s = true.
Proof.
  assert (∃ r, verify sample_package (with_trusted_keys [sample_key]) = Ok r ∧ admissible r = true ∧
    ∃ ve, rp_executables r = [ve] ∧ ve_segment_id ve = 3 ∧ matches ve sample_module = true) as (r & Hv & Ha & ve & Hve & Hm).
  { eexists. split; [vm_compute; reflexivity|]. split; [vm_compute; reflexivity|].
    eexists. split; [vm_compute; reflexivity|]. split; vm_compute; reflexivity. }
  exists ve. split; [exact Hm|].
  destruct (admitted_executables_signed sample_package (with_trusted_keys [sample_key]) r ve sample_package_bytes
    ltac:(vm_compute; discriminate) eq_refl Hv Ha) as (segs & s & range & f & key & H1 & H2 & H3 & _).
  { rewrite Hve. apply list_elem_of_here. }
  exists segs, s. split; [exact H1|]. split; [exact H2|exact H3].
Defined.
