(* ===== verification/ProofEngine.v ===== *)
(** The proof engine: [crates/rvm-proof/src/lib.rs], [context.rs],
    [policy.rs], [engine.rs], and [crates/rvm-types/src/proof.rs].

    A proof is checked against a commitment by its tier; the engine runs the
    capability check, then a policy of six rules with a nonce ring, and leaves
    one witness record per verdict.  The nonce ring is the one of the capability
    verifier ([CapVerify]): the file maps it there and reuses its theory. *)

From stdpp Require Import base numbers list option.
From Stdlib Require Import ZArith Lia.
From S2P Require Import Prelude.
From S2P Require Import Types.
From S2P Require Import CapTable.
From S2P Require Import CapVerify.
From S2P Require Import CapManager.
From S2P Require Import WitnessLog.

(* ------------------------------------------------------------------ *)
(** ** Proofs ([lib.rs]) *)

Inductive ProofTier : Set := TierHash | TierWitness | TierZk.
#[export] Instance ProofTier_eq_dec : EqDecision ProofTier.
Proof. solve_decision. Defined.

#[export] Instance WitnessHash_eq_dec : EqDecision WitnessHash.
Proof. solve_decision. Defined.

(** [data: [u8; 64]] and [data_len: u8]. *)
Record ProofData : Set := mkProofData {
  pf_tier : ProofTier;
  pf_commitment : WitnessHash;
  pf_data : list Z;
  pf_data_len : nat;
}.

Definition hash_proof (commitment : WitnessHash) (preimage : list Z) : ProofData :=
  let len := Nat.min (length preimage) 64 in
  let data := take len preimage ++ replicate (64 - len) 0 in
  mkProofData TierHash commitment data len.
Definition proof_data (p : ProofData) : list Z := take (pf_data_len p) (pf_data p).

Definition compute_data_hash (data : list Z) : WitnessHash :=
  mkWitnessHash (le_bytes 8 (fnv1a_64 data) ++ replicate 24 0).

Definition LINK_SIZE : nat := 16.
(** The second and the first word of a link. *)
Definition link_record_hash (data : list Z) (i : nat) : Z :=
  of_le_bytes (take 8 (drop (i * LINK_SIZE + 8) data)).
Definition link_prev_hash (data : list Z) (i : nat) : Z :=
  of_le_bytes (take 8 (drop (i * LINK_SIZE) data)).

(** [for i in 0..link_count - 1]: [n] pairs are left. *)
Fixpoint walk_links (data : list Z) (i n : nat) : RvmResult unit :=
  match n with
  | O => Ok tt
  | S n =>
      if negb (link_record_hash data i =? link_prev_hash data (i + 1)) then Err ProofInvalid
      else walk_links data (i + 1) n
  end.

Definition proof_verify (p : ProofData) (expected_commitment : WitnessHash) : RvmResult unit :=
  if bool_decide (pf_commitment p ≠ expected_commitment) then Err ProofInvalid
  else
    match pf_tier p with
    | TierHash =>
        if (pf_data_len p =? 0)%nat then Err ProofInvalid
        else
          let computed := compute_data_hash (take (pf_data_len p) (pf_data p)) in
          if bool_decide (computed ≠ pf_commitment p) then Err ProofInvalid else Ok tt
    | TierWitness =>
        if (pf_data_len p =? 0)%nat then Err ProofInvalid
        else
          let data := take (pf_data_len p) (pf_data p) in
          if (length data <? LINK_SIZE)%nat then Err ProofInvalid
          else
            let link_count := (length data / LINK_SIZE)%nat in
            if (link_count =? 0)%nat then Err ProofInvalid
            else walk_links data 0 (link_count - 1)
    | TierZk => Err Unsupported
    end.

Definition proof_verify_with_cap `{!Bitflags} (p : ProofData) (expected_commitment : WitnessHash)
    (token : CapToken) : RvmResult unit :=
  if negb (has_rights token PROVE) then Err InsufficientCapability
  else proof_verify p expected_commitment.

(* ------------------------------------------------------------------ *)
(** ** Contexts ([context.rs]) *)

Record ProofContext : Set := mkProofContext {
  px_partition_id : PartitionId;
  px_target_object : Z;
  px_requested_operation : Z;
  px_capability_handle : Z;
  px_capability_generation : Z;
  px_current_epoch : Z;
  px_region_base : Z;
  px_region_limit : Z;
  px_lease_expiry_ns : Z;
  px_current_time_ns : Z;
  px_max_delegation_depth : Z;
  px_nonce : Z;
}.

(** [ProofContextBuilder] has the same fields; its setters are chained and
    [build] copies them. *)
Definition proof_context_new (partition_id : PartitionId) : ProofContext :=
  mkProofContext partition_id 0 0 0 0 0 0 0 u64_max 0 8 0.
Definition px_with_target (id : Z) (c : ProofContext) : ProofContext :=
  mkProofContext (px_partition_id c) id (px_requested_operation c) (px_capability_handle c)
    (px_capability_generation c) (px_current_epoch c) (px_region_base c) (px_region_limit c)
    (px_lease_expiry_ns c) (px_current_time_ns c) (px_max_delegation_depth c) (px_nonce c).
Definition px_with_operation (op : Z) (c : ProofContext) : ProofContext :=
  mkProofContext (px_partition_id c) (px_target_object c) op (px_capability_handle c)
    (px_capability_generation c) (px_current_epoch c) (px_region_base c) (px_region_limit c)
    (px_lease_expiry_ns c) (px_current_time_ns c) (px_max_delegation_depth c) (px_nonce c).
Definition px_with_handle (handle : Z) (c : ProofContext) : ProofContext :=
  mkProofContext (px_partition_id c) (px_target_object c) (px_requested_operation c) handle
    (px_capability_generation c) (px_current_epoch c) (px_region_base c) (px_region_limit c)
    (px_lease_expiry_ns c) (px_current_time_ns c) (px_max_delegation_depth c) (px_nonce c).
Definition px_with_generation (gen : Z) (c : ProofContext) : ProofContext :=
  mkProofContext (px_partition_id c) (px_target_object c) (px_requested_operation c)
    (px_capability_handle c) gen (px_current_epoch c) (px_region_base c) (px_region_limit c)
    (px_lease_expiry_ns c) (px_current_time_ns c) (px_max_delegation_depth c) (px_nonce c).
Definition px_with_epoch (epoch : Z) (c : ProofContext) : ProofContext :=
  mkProofContext (px_partition_id c) (px_target_object c) (px_requested_operation c)
    (px_capability_handle c) (px_capability_generation c) epoch (px_region_base c)
    (px_region_limit c) (px_lease_expiry_ns c) (px_current_time_ns c) (px_max_delegation_depth c)
    (px_nonce c).
Definition px_with_bounds (base limit : Z) (c : ProofContext) : ProofContext :=
  mkProofContext (px_partition_id c) (px_target_object c) (px_requested_operation c)
    (px_capability_handle c) (px_capability_generation c) (px_current_epoch c) base limit
    (px_lease_expiry_ns c) (px_current_time_ns c) (px_max_delegation_depth c) (px_nonce c).
Definition px_with_window (current_ns expiry_ns : Z) (c : ProofContext) : ProofContext :=
  mkProofContext (px_partition_id c) (px_target_object c) (px_requested_operation c)
    (px_capability_handle c) (px_capability_generation c) (px_current_epoch c) (px_region_base c)
    (px_region_limit c) expiry_ns current_ns (px_max_delegation_depth c) (px_nonce c).
Definition px_with_depth (depth : Z) (c : ProofContext) : ProofContext :=
  mkProofContext (px_partition_id c) (px_target_object c) (px_requested_operation c)
    (px_capability_handle c) (px_capability_generation c) (px_current_epoch c) (px_region_base c)
    (px_region_limit c) (px_lease_expiry_ns c) (px_current_time_ns c) depth (px_nonce c).
Definition px_with_nonce (nonce : Z) (c : ProofContext) : ProofContext :=
  mkProofContext (px_partition_id c) (px_target_object c) (px_requested_operation c)
    (px_capability_handle c) (px_capability_generation c) (px_current_epoch c) (px_region_base c)
    (px_region_limit c) (px_lease_expiry_ns c) (px_current_time_ns c) (px_max_delegation_depth c)
    nonce.

(* ------------------------------------------------------------------ *)
(** ** The policy ([policy.rs]) *)

Inductive Rule : Set :=
| OwnershipChain | RegionBounds | LeaseExpiry | DelegationDepth | NonceReplay | TimeWindow.

Definition ALL_RULES : list Rule :=
  [OwnershipChain; RegionBounds; LeaseExpiry; DelegationDepth; NonceReplay; TimeWindow].

Record PolicyEvaluator : Set := mkPolicyEvaluator {
  pe_nonce_ring : list Z;
  pe_nonce_hash : list Z;
  pe_nonce_write_pos : nat;
  pe_nonce_watermark : Z;
  pe_allow_zero_nonce : bool;
}.

Definition policy_evaluator_new : PolicyEvaluator :=
  mkPolicyEvaluator (replicate NONCE_RING_SIZE 0) (replicate NONCE_RING_SIZE 0) 0 0 false.
Definition pe_set_allow_zero_nonce (allow : bool) (e : PolicyEvaluator) : PolicyEvaluator :=
  mkPolicyEvaluator (pe_nonce_ring e) (pe_nonce_hash e) (pe_nonce_write_pos e)
    (pe_nonce_watermark e) allow.

Definition is_nonce_replayed (e : PolicyEvaluator) (nonce : Z) : bool :=
  if nonce =? 0 then negb (pe_allow_zero_nonce e)
  else if nonce <=? pe_nonce_watermark e then true
  else if default 0 (pe_nonce_hash e !! hash_slot nonce) =? nonce then true
  else false.

Definition record_nonce (nonce : Z) (e : PolicyEvaluator) : PolicyEvaluator :=
  let ring := <[pe_nonce_write_pos e := nonce]> (pe_nonce_ring e) in
  let hash := <[hash_slot nonce := nonce]> (pe_nonce_hash e) in
  let write_pos := ((pe_nonce_write_pos e + 1) mod NONCE_RING_SIZE)%nat in
  let watermark :=
    if (write_pos =? 0)%nat then
      let min_val := ring_min ring in
      if negb (min_val =? u64_max) && (pe_nonce_watermark e <? min_val)
      then min_val else pe_nonce_watermark e
    else pe_nonce_watermark e in
  mkPolicyEvaluator ring hash write_pos watermark (pe_allow_zero_nonce e).

Definition evaluate_rule (e : PolicyEvaluator) (rule : Rule) (c : ProofContext) : RvmResult unit :=
  match rule with
  | OwnershipChain =>
      if MAX_LOGICAL <? px_partition_id c then Err InsufficientCapability else Ok tt
  | RegionBounds => if px_region_base c <? px_region_limit c then Ok tt else Err ProofInvalid
  | LeaseExpiry =>
      if px_current_time_ns c <=? px_lease_expiry_ns c then Ok tt else Err DeviceLeaseExpired
  | DelegationDepth =>
      if px_max_delegation_depth c <=? 8 then Ok tt else Err DelegationDepthExceeded
  | NonceReplay => if is_nonce_replayed e (px_nonce c) then Err ProofInvalid else Ok tt
  | TimeWindow =>
      if px_current_time_ns c <=? px_lease_expiry_ns c then Ok tt else Err ProofBudgetExceeded
  end.

(** All six are evaluated whatever the first ones say. *)
Definition evaluate_all_rules (c : ProofContext) : prog PolicyEvaluator RvmError unit := λ e,
  let valid := true in
  let valid := valid && is_ok (evaluate_rule e OwnershipChain c) in
  let valid := valid && is_ok (evaluate_rule e RegionBounds c) in
  let valid := valid && is_ok (evaluate_rule e LeaseExpiry c) in
  let valid := valid && is_ok (evaluate_rule e DelegationDepth c) in
  let nonce_ok := is_ok (evaluate_rule e NonceReplay c) in
  let valid := valid && nonce_ok in
  let valid := valid && is_ok (evaluate_rule e TimeWindow c) in
  if valid then (Ok tt, if negb (px_nonce c =? 0) then record_nonce (px_nonce c) e else e)
  else (Err ProofInvalid, e).

(* ------------------------------------------------------------------ *)
(** ** The engine ([engine.rs]) *)

Inductive TokenTier : Set := P1 | P2 | P3.
(** [rvm_types::ProofTier as u8]. *)
Definition tier_code (t : TokenTier) : Z := match t with P1 => 1 | P2 => 2 | P3 => 3 end.
Record ProofToken : Set := mkProofToken { pt_tier : TokenTier; pt_epoch : Z; pt_hash : Z }.

Definition verified_action (t : TokenTier) : ActionKind :=
  match t with P1 => AkProofVerifiedP1 | P2 => AkProofVerifiedP2 | P3 => AkProofVerifiedP3 end.

Record ProofEngine : Set := mkProofEngine { en_policy : PolicyEvaluator }.
Definition proof_engine_new : ProofEngine := mkProofEngine policy_evaluator_new.

(** The record every emitter of the engine builds. *)
Definition proof_record (action : ActionKind) (c : ProofContext) (token : ProofToken) : WitnessRecord :=
  mkWitnessRecord 0 0 (action_code action) (tier_code (pt_tier token)) 0 0 (px_partition_id c)
    (px_target_object c) (pt_hash token) (replicate 8 0) 0 0 (replicate 8 0) (replicate 4 0).

Section engine.
Context {BF : Bitflags} {CH : ChainHasher}.

Definition emit_proof_witness (l : WitnessLog) (action : ActionKind) (c : ProofContext)
    (token : ProofToken) : WitnessLog := (log_append (proof_record action c token) l).2.
Definition engine_emit_rejected (l : WitnessLog) (c : ProofContext) (token : ProofToken) : WitnessLog :=
  (log_append (proof_record AkProofRejected c token) l).2.

Definition verify_and_witness (token : ProofToken) (c : ProofContext) (m : CapabilityManager)
    : prog (ProofEngine * WitnessLog) RvmError unit := λ '(eng, l),
  match manager_verify_p1 m (px_capability_handle c) (px_capability_generation c) PROVE with
  | Err e => (Err (rvm_of_proof_error e), (eng, engine_emit_rejected l c token))
  | Ok _ =>
      match evaluate_all_rules c (en_policy eng) with
      | (Err e, policy) => (Err e, (mkProofEngine policy, engine_emit_rejected l c token))
      | (Ok _, policy) =>
          (Ok tt, (mkProofEngine policy, emit_proof_witness l (verified_action (pt_tier token)) c token))
      end
  end.

Definition p3_token (c : ProofContext) : ProofToken := mkProofToken P3 (px_current_epoch c) 0.

(** [_chain_valid] is not read; the policy evaluator is a new one. *)
Definition engine_verify_p3 (c : ProofContext) (chain_valid : bool) (l : WitnessLog)
    : RvmResult unit * WitnessLog :=
  let policy_ok := is_ok (evaluate_all_rules c policy_evaluator_new).1 in
  if policy_ok then (Ok tt, emit_proof_witness l AkProofVerifiedP3 c (p3_token c))
  else (Err ProofInvalid, engine_emit_rejected l c (p3_token c)).

Definition verify_p3_with_cap (fuel : nat) (c : ProofContext) (m : CapabilityManager) (l : WitnessLog)
    : option (RvmResult unit * WitnessLog) :=
  r ← manager_verify_p3 fuel m (px_capability_handle c) (px_capability_generation c)
        (px_max_delegation_depth c);
  Some (if is_ok r then (Ok tt, emit_proof_witness l AkProofVerifiedP3 c (p3_token c))
        else (Err ProofInvalid, engine_emit_rejected l c (p3_token c))).

Definition emit_signed_proof_witness {S} `{!WitnessSigner S} (l : WitnessLog) (action : ActionKind)
    (c : ProofContext) (token : ProofToken) (signer : S) : WitnessLog :=
  (signed_append (proof_record action c token) signer l).2.
Definition emit_signed_proof_rejected {S} `{!WitnessSigner S} (l : WitnessLog) (c : ProofContext)
    (token : ProofToken) (signer : S) : WitnessLog :=
  (signed_append (proof_record AkProofRejected c token) signer l).2.

Definition verify_p3_signed {S} `{!WitnessSigner S} (c : ProofContext) (signer : S) (l : WitnessLog)
    : RvmResult unit * WitnessLog :=
  let policy_ok := is_ok (evaluate_all_rules c policy_evaluator_new).1 in
  if policy_ok then (Ok tt, emit_signed_proof_witness l AkProofVerifiedP3 c (p3_token c) signer)
  else (Err ProofInvalid, emit_signed_proof_rejected l c (p3_token c) signer).
End engine.

(* ------------------------------------------------------------------ *)
(** ** Proofs against a commitment *)

Lemma walk_links_spec data i n :
  walk_links data i n = Ok tt ↔
  ∀ j, (i ≤ j < i + n)%nat → link_record_hash data j = link_prev_hash data (j + 1).
Proof.
  revert i. induction n as [|n IH]; intros i; cbn [walk_links]; [split; [lia|done]|].
  destruct (_ =? _) eqn:E; cbn [negb]; split_bool.
  - rewrite IH. split.
    + intros H j Hj. destruct (decide (j = i)) as [->|]; [done|]. apply H. lia.
    + intros H j Hj. apply H. lia.
  - split; [done|]. intros H. destruct E. apply H. lia.
Qed.

Lemma walk_links_error data i n e : walk_links data i n = Err e → e = ProofInvalid.
Proof.
  revert i. induction n as [|n IH]; intros i; cbn [walk_links]; [done|].
  destruct (negb _); [by intros [= <-]|apply IH].
Qed.

(** When a proof is accepted. *)
Definition proof_holds (p : ProofData) (c : WitnessHash) : Prop :=
  pf_commitment p = c ∧
  match pf_tier p with
  | TierHash => pf_data_len p ≠ 0%nat ∧ compute_data_hash (proof_data p) = c
  | TierWitness =>
      (LINK_SIZE ≤ length (proof_data p))%nat ∧
      ∀ j, (j + 1 < length (proof_data p) / LINK_SIZE)%nat →
        link_record_hash (proof_data p) j = link_prev_hash (proof_data p) (j + 1)
  | TierZk => False
  end.

(** A proof verifies exactly when it carries the expected commitment and,
    at the hash tier, a non-empty preimage of it; at the witness tier, at least
    one link and neighbouring links that agree.  Every refusal is
    [ProofInvalid], except that a zero-knowledge proof with the right
    commitment is [Unsupported]. *)
Theorem proof_verify_exact p c :
  (proof_verify p c = Ok tt ↔ proof_holds p c) ∧
  (∀ e, proof_verify p c = Err e →
     e = if decide (pf_tier p = TierZk ∧ pf_commitment p = c) then Unsupported else ProofInvalid).
Proof.
  unfold proof_verify, proof_holds. fold (proof_data p).
  case_bool_decide as Ec; [split; [naive_solver|]; intros e [= <-]; case_decide; naive_solver|].
  destruct (pf_tier p).
  - rewrite (decide_False (P := TierHash = TierZk ∧ _)) by (by intros []).
    destruct (pf_data_len p =? 0)%nat eqn:E; split_bool; [split; [naive_solver|by intros ? [= <-]]|].
    case_bool_decide as Eh; [split; [naive_solver|by intros ? [= <-]]|].
    split; [|done]. split; [|done]. intros _. by rewrite Eh.
  - rewrite (decide_False (P := TierWitness = TierZk ∧ _)) by (by intros []).
    destruct (pf_data_len p =? 0)%nat eqn:E; split_bool.
    { split; [|by intros ? [= <-]]. split; [done|]. intros (_ & Hl & _).
      unfold proof_data, LINK_SIZE in Hl. rewrite length_take in Hl. lia. }
    destruct (length _ <? LINK_SIZE)%nat eqn:El.
    { apply Nat.ltb_lt in El. split; [|by intros ? [= <-]]. split; [done|]. intros (_ & Hl & _). lia. }
    apply Nat.ltb_ge in El.
    assert (1 ≤ length (proof_data p) / LINK_SIZE)%nat as Hd
      by (apply Nat.div_le_lower_bound; unfold LINK_SIZE in *; lia).
    destruct (_ =? 0)%nat eqn:E0; split_bool; [lia|].
    rewrite walk_links_spec. split; [|by intros e ?%walk_links_error].
    split; [intros H; split_and!; [done..|]; intros j Hj; apply H; lia|].
    intros (_ & _ & H) j Hj. apply H. lia.
  - split; [naive_solver|]. intros e [= <-]. by rewrite decide_True.
Qed.

(** At the witness tier the commitment is not tied to the data: whatever it
    is, sixteen arbitrary bytes verify. *)
Lemma witness_tier_unbound c data :
  length data = 64%nat → proof_verify (mkProofData TierWitness c data 16) c = Ok tt.
Proof.
  intros Hl. do 17 (destruct data as [|? data]; [done|]). unfold proof_verify.
  by rewrite bool_decide_false by (cbn; tauto).
Qed.

(** The hash tier ties the commitment to the data, up to a collision of the
    64-bit FNV-1a hash, and a proof built for a preimage of up to 64 bytes
    verifies. *)
Lemma hash_proof_verifies preimage :
  preimage ≠ [] → (length preimage ≤ 64)%nat →
  proof_verify (hash_proof (compute_data_hash preimage) preimage) (compute_data_hash preimage) = Ok tt.
Proof.
  intros Hn Hl. unfold proof_verify, hash_proof. rewrite Nat.min_l by done.
  cbn [pf_commitment pf_tier pf_data_len pf_data]. rewrite bool_decide_false by tauto.
  destruct (_ =? 0)%nat eqn:E; [apply Nat.eqb_eq, nil_length_inv in E; done|].
  rewrite take_app_length', firstn_all by (by rewrite length_take_le by done).
  by rewrite bool_decide_false by tauto.
Qed.

(* ------------------------------------------------------------------ *)
(** ** The nonce ring is the verifier's *)

Definition ring_of (e : PolicyEvaluator) : ProofVerifier :=
  mkProofVerifier 0 (pe_nonce_ring e) (pe_nonce_hash e) (pe_nonce_write_pos e) (pe_nonce_watermark e)
    (pe_allow_zero_nonce e).

Lemma is_nonce_replayed_check e n : is_nonce_replayed e n = negb (check_nonce (ring_of e) n).
Proof.
  unfold is_nonce_replayed, check_nonce. cbn [ring_of pv_allow_zero_nonce pv_nonce_watermark pv_nonce_hash].
  repeat case_match; done.
Qed.

Lemma ring_of_record n e : n ≠ 0 → ring_of (record_nonce n e) = mark_nonce n (ring_of e).
Proof. intros Hn. unfold mark_nonce. destruct (n =? 0) eqn:E; split_bool; done. Qed.

Lemma ring_of_new : ring_of policy_evaluator_new = verifier_new 0.
Proof. done. Qed.

(** What the policy asks for. *)
Definition policy_holds (e : PolicyEvaluator) (c : ProofContext) : Prop :=
  px_partition_id c ≤ MAX_LOGICAL ∧ px_region_base c < px_region_limit c ∧
  px_current_time_ns c ≤ px_lease_expiry_ns c ∧ px_max_delegation_depth c ≤ 8 ∧
  check_nonce (ring_of e) (px_nonce c) = true.

#[export] Instance policy_holds_dec e c : Decision (policy_holds e c).
Proof. unfold policy_holds. apply _. Defined.

Lemma evaluate_all_rules_spec c e :
  evaluate_all_rules c e =
    if decide (policy_holds e c)
    then (Ok tt, if decide (px_nonce c = 0) then e else record_nonce (px_nonce c) e)
    else (Err ProofInvalid, e).
Proof.
  unfold evaluate_all_rules, evaluate_rule. rewrite is_nonce_replayed_check.
  destruct (decide (policy_holds e c)) as [(H1 & H2 & H3 & H4 & H5)|H].
  - rewrite (proj2 (Z.ltb_ge _ _) H1), (proj2 (Z.ltb_lt _ _) H2), (proj2 (Z.leb_le _ _) H3),
      (proj2 (Z.leb_le _ _) H4), H5. cbn [is_ok andb negb].
    case_decide as E; [by rewrite E|]. by rewrite (proj2 (Z.eqb_neq _ _) E).
  - match goal with |- (if ?b then _ else _) = _ => destruct b eqn:E end; [|done].
    destruct H. unfold policy_holds.
    destruct (MAX_LOGICAL <? _) eqn:E1; [done|]. destruct (px_region_base c <? _) eqn:E2; [|done].
    destruct (px_current_time_ns c <=? _) eqn:E3; [|done].
    destruct (px_max_delegation_depth c <=? 8) eqn:E4; [|done].
    destruct (check_nonce _ _) eqn:E5; [|done]. by split_bool.
Qed.

(* ------------------------------------------------------------------ *)
(** ** The engine's verdicts *)

Section engine_theorems.
Context {BF : Bitflags} {BL : BitflagsLaws} {CH : ChainHasher}.

(** The verdict, with the capability's error first. *)
Definition engine_verdict (c : ProofContext) (m : CapabilityManager) (e : PolicyEvaluator) : RvmResult unit :=
  match manager_verify_p1 m (px_capability_handle c) (px_capability_generation c) PROVE with
  | Err err => Err (rvm_of_proof_error err)
  | Ok _ => if decide (policy_holds e c) then Ok tt else Err ProofInvalid
  end.

Definition policy_after (r : RvmResult unit) (c : ProofContext) (e : PolicyEvaluator) : PolicyEvaluator :=
  if is_ok r then if decide (px_nonce c = 0) then e else record_nonce (px_nonce c) e else e.

Definition verdict_record (r : RvmResult unit) (c : ProofContext) (token : ProofToken) : WitnessRecord :=
  proof_record (if is_ok r then verified_action (pt_tier token) else AkProofRejected) c token.

Lemma verify_and_witness_spec token c m eng l :
  let r := engine_verdict c m (en_policy eng) in
  verify_and_witness token c m (eng, l) =
    (r, (mkProofEngine (policy_after r c (en_policy eng)), (log_append (verdict_record r c token) l).2)).
Proof.
  intros r. subst r. unfold verify_and_witness, engine_verdict, policy_after, verdict_record.
  destruct (manager_verify_p1 _ _ _ _); [|by destruct eng].
  rewrite evaluate_all_rules_spec. by case_decide.
Qed.

(** Calls of one engine, each with the manager it is given. *)
Record EngineCall : Set := mkEngineCall {
  ec_token : ProofToken; ec_context : ProofContext; ec_manager : CapabilityManager;
}.

Fixpoint run_engine (calls : list EngineCall) (st : ProofEngine * WitnessLog)
    : list (RvmResult unit) * (ProofEngine * WitnessLog) :=
  match calls with
  | [] => ([], st)
  | call :: calls =>
      let '(r, st) := verify_and_witness (ec_token call) (ec_context call) (ec_manager call) st in
      let '(rs, st) := run_engine calls st in (r :: rs, st)
  end.

Definition call_record (call : EngineCall) (r : RvmResult unit) : WitnessRecord :=
  verdict_record r (ec_context call) (ec_token call).

Lemma run_engine_cons call calls eng l :
  let r := engine_verdict (ec_context call) (ec_manager call) (en_policy eng) in
  let st := (mkProofEngine (policy_after r (ec_context call) (en_policy eng)),
             (log_append (call_record call r) l).2) in
  run_engine (call :: calls) (eng, l) = (r :: (run_engine calls st).1, (run_engine calls st).2).
Proof. cbn [run_engine]. rewrite verify_and_witness_spec. cbn zeta. by destruct (run_engine _ _). Qed.

Lemma run_engine_length calls st : length (run_engine calls st).1 = length calls.
Proof.
  revert st. induction calls as [|call calls IH]; intros [eng l]; [done|].
  rewrite run_engine_cons. cbn. by rewrite IH.
Qed.

Lemma engine_verdict_Ok c m e :
  engine_verdict c m e = Ok tt ↔
  manager_verify_p1 m (px_capability_handle c) (px_capability_generation c) PROVE = Ok tt ∧ policy_holds e c.
Proof. unfold engine_verdict. destruct (manager_verify_p1 _ _ _ _) as [[]|]; [case_decide|]; naive_solver. Qed.

Lemma policy_after_wf r c e : verifier_wf (ring_of e) → verifier_wf (ring_of (policy_after r c e)).
Proof.
  intros H. unfold policy_after. destruct (is_ok r); [|done]. case_decide; [done|].
  rewrite ring_of_record by done. by apply mark_nonce_wf.
Qed.

(** A nonce the ring refuses stays refused until a colliding one is accepted. *)
Lemma refused_until_collision calls eng l n j call :
  verifier_wf (ring_of (en_policy eng)) → n ≠ 0 → check_nonce (ring_of (en_policy eng)) n = false →
  calls !! j = Some call → (run_engine calls (eng, l)).1 !! j = Some (Ok tt) → px_nonce (ec_context call) = n →
  ∃ k call', (k < j)%nat ∧ calls !! k = Some call' ∧ (run_engine calls (eng, l)).1 !! k = Some (Ok tt) ∧
    collides (px_nonce (ec_context call')) n.
Proof.
  revert eng l j. induction calls as [|c0 calls IH]; intros eng l j Hwf Hn Hc Hj Hr Hcall; [done|].
  rewrite run_engine_cons in Hr |- *. cbn [fst] in Hr |- *.
  set (r := engine_verdict _ _ _) in *. set (st := (mkProofEngine _, _)) in *.
  destruct j as [|j]; cbn in Hj, Hr.
  { injection Hj as ->. injection Hr as Hr. apply engine_verdict_Ok in Hr as (_ & _ & _ & _ & _ & Hp). congruence. }
  destruct (decide (r = Ok tt ∧ collides (px_nonce (ec_context c0)) n)) as [[E Hco]|Hno].
  { exists 0%nat, c0. cbn. rewrite E. split_and!; [lia|done..]. }
  destruct (IH (mkProofEngine (policy_after r (ec_context c0) (en_policy eng)))
    (log_append (call_record c0 r) l).2 j) as (k & call' & Hk & H1 & H2 & H3); try done.
  - by apply policy_after_wf.
  - cbn [en_policy]. unfold policy_after. destruct r as [[]|]; cbn [is_ok]; [|done]. case_decide; [done|].
    rewrite ring_of_record by done. apply mark_nonce_keeps; [done|done| |done]. intros ?. by apply Hno.
  - exists (S k), call'. split_and!; [lia|done..].
Qed.

(** The nonces of an engine.  In any history of calls on a new engine, with
    whatever managers, if two calls with the same non-zero nonce are both
    accepted, then between them a call with a different nonce of the same
    residue modulo 4096 was accepted: short of such a collision no proof is
    accepted twice. *)
Theorem engine_nonce_once calls l i j ci cj :
  (i < j)%nat → calls !! i = Some ci → calls !! j = Some cj →
  px_nonce (ec_context ci) = px_nonce (ec_context cj) → px_nonce (ec_context ci) ≠ 0 →
  let rs := (run_engine calls (proof_engine_new, l)).1 in
  rs !! i = Some (Ok tt) → rs !! j = Some (Ok tt) →
  ∃ k ck, (i < k < j)%nat ∧ calls !! k = Some ck ∧ rs !! k = Some (Ok tt) ∧
    collides (px_nonce (ec_context ck)) (px_nonce (ec_context cj)).
Proof.
  assert (verifier_wf (ring_of (en_policy proof_engine_new))) as Hwf by apply verifier_new_wf.
  revert Hwf. generalize proof_engine_new. intros eng Hwf Hij Hi Hj E Hn. revert eng l i j Hwf Hij Hi Hj.
  induction calls as [|c0 calls IH]; intros eng l i j Hwf Hij Hi Hj; [done|]. cbn zeta.
  rewrite run_engine_cons. cbn [fst]. set (r := engine_verdict _ _ _). set (st := (mkProofEngine _, _)).
  destruct j as [|j]; [lia|]. cbn in Hj.
  assert (verifier_wf (ring_of (policy_after r (ec_context c0) (en_policy eng)))) as Hwf' by (by apply policy_after_wf).
  destruct i as [|i]; cbn; intros Hri Hrj.
  - injection Hi as ->. injection Hri as Hri. destruct (refused_until_collision calls
      (mkProofEngine (policy_after r (ec_context ci) (en_policy eng)))
      (log_append (call_record ci r) l).2 (px_nonce (ec_context cj)) j cj) as (k & ck & Hk & H1 & H2 & H3); try done.
    + congruence.
    + cbn [en_policy]. unfold policy_after. rewrite Hri. cbn [is_ok]. rewrite decide_False by done.
      rewrite E, ring_of_record by congruence. apply check_nonce_marked; [done|congruence].
    + exists (S k), ck. split_and!; [lia|lia|done..].
  - destruct (IH (mkProofEngine (policy_after r (ec_context c0) (en_policy eng))) (log_append (call_record c0 r) l).2
      i j Hwf' ltac:(lia) Hi Hj Hri Hrj)
      as (k & ck & Hk & H1 & H2 & H3).
    exists (S k), ck. split_and!; [lia|lia|done..].
Qed.

Lemma run_engine_lookup calls st k call :
  calls !! k = Some call →
  (run_engine calls st).1 !! k =
    Some (engine_verdict (ec_context call) (ec_manager call)
      (en_policy (run_engine (take k calls) st).2.1)).
Proof.
  revert st k. induction calls as [|c0 calls IH]; intros [eng l] k Hk; [done|].
  rewrite run_engine_cons. destruct k as [|k]; cbn [lookup list_lookup take fst] in Hk |- *.
  - by injection Hk as ->.
  - rewrite IH by done. do 3 f_equal. change (c0 :: take k calls) with ([c0] ++ take k calls).
    cbn [app]. by rewrite run_engine_cons.
Qed.

(** Every call leaves exactly one record, in order, which tells whether the
    proof was accepted, at which tier, for whom and for which object; and a
    call is accepted exactly when the capability check passes and all six
    rules hold in the state the calls before it left. *)
Theorem engine_audit_trail calls eng l h :
  log_repr l h → Z.of_nat (length h + length calls) ≤ u64_max →
  let out := run_engine calls (eng, l) in
  log_repr out.2.2 (h ++ imap (λ k rec, stamp_at (length h + k) rec) (zip_with call_record calls out.1)) ∧
  ∀ k call, calls !! k = Some call →
    (out.1 !! k = Some (Ok tt) ↔
       manager_verify_p1 (ec_manager call) (px_capability_handle (ec_context call))
         (px_capability_generation (ec_context call)) PROVE = Ok tt ∧
       policy_holds (en_policy (run_engine (take k calls) (eng, l)).2.1) (ec_context call)).
Proof.
  intros Hl Hmax. cbn zeta. split.
  - revert eng l h Hl Hmax. induction calls as [|call calls IH]; intros eng l h Hl Hmax.
    { cbn. by rewrite app_nil_r. }
    rewrite run_engine_cons. cbn [fst snd zip_with imap].
    set (r := engine_verdict _ _ _). cbn [length] in Hmax.
    destruct (append_repr l h (call_record call r) Hl ltac:(lia)) as [_ Hl'].
    specialize (IH (mkProofEngine (policy_after r (ec_context call) (en_policy eng))) _ _ Hl').
    rewrite length_app in IH. specialize (IH ltac:(cbn; lia)). rewrite <-app_assoc in IH.
    rewrite Nat.add_0_r. erewrite imap_ext; [exact IH|].
    intros k rec _. cbn. f_equal. lia.
  - intros k call Hk. rewrite (run_engine_lookup _ _ _ _ Hk), <-engine_verdict_Ok. split; [by intros [= ->]|by intros ->].
Qed.

(** A P3 check reads neither its flag nor the engine, so what it accepts once
    it accepts again, nonce included. *)
Lemma p3_replays c b b' l l' :
  (engine_verify_p3 c b l).1 = Ok tt → (engine_verify_p3 c b' l').1 = Ok tt.
Proof. unfold engine_verify_p3. by destruct (is_ok _). Qed.
End engine_theorems.

(* ------------------------------------------------------------------ *)
(** ** A sample: one capability, three proofs *)

Section sample.
#[local] Existing Instance bitflags_u8.
#[local] Existing Instance fnv_hasher.

Definition sample_prover : CapabilityManager :=
  (create_root_capability CtRegion (Z.lor READ PROVE) 10 7 (manager_new 5 cap_config_new)).2.
Definition sample_proof_context (nonce : Z) : ProofContext :=
  px_with_nonce nonce (px_with_bounds 0 4096 (px_with_generation 1 (proof_context_new 7))).
Definition sample_engine_call (nonce : Z) : EngineCall :=
  mkEngineCall (mkProofToken P2 0 99) (sample_proof_context nonce) sample_prover.

(** Nonce 5 is refused the second time, and accepted again after 5 + 4096. *)
Example replay_needs_collision :
  (run_engine (sample_engine_call <$> [5; 5; 6; 4101; 5]) (proof_engine_new, log_new 2)).1 =
    [Ok tt; Err ProofInvalid; Ok tt; Ok tt; Ok tt].
Proof. vm_compute. reflexivity. Qed.

(** P3 accepts a nonce as often as it comes, with or without a valid chain. *)
Example p3_accepts_replays :
  (engine_verify_p3 (sample_proof_context 5) false (log_new 2)).1 = Ok tt.
Proof. vm_compute. reflexivity. Qed.

Lemma engine_nonce_once_witness :
  let calls := sample_engine_call <$> [5; 6; 4101; 5] in
  let rs := (run_engine calls (proof_engine_new, log_new 2)).1 in
  rs !! 0%nat = Some (Ok tt) ∧ rs !! 3%nat = Some (Ok tt) ∧
  ∃ k ck, (0 < k < 3)%nat ∧ calls !! k = Some ck ∧ rs !! k = Some (Ok tt) ∧
    collides (px_nonce (ec_context ck)) 5.
Proof.
  intros calls rs.
  assert (rs !! 0%nat = Some (Ok tt)) as H0 by (vm_compute; reflexivity).
  assert (rs !! 3%nat = Some (Ok tt)) as H3 by (vm_compute; reflexivity).
  split; [exact H0|]. split; [exact H3|].
  apply (engine_nonce_once calls (log_new 2) 0 3 (sample_engine_call 5) (sample_engine_call 5));
    [lia|reflexivity|reflexivity|reflexivity|discriminate|exact H0|exact H3].
Defined.

Lemma engine_audit_trail_witness :
  log_repr (log_new 2) [] ∧
  ∃ h, log_repr (run_engine [sample_engine_call 5; sample_engine_call 5] (proof_engine_new, log_new 2)).2.2 h ∧
    length h = 2%nat.
Proof.
  assert (log_repr (log_new 2) []) as Hl by (apply log_new_repr; lia).
  split; [exact Hl|].
  destruct (engine_audit_trail [sample_engine_call 5; sample_engine_call 5] proof_engine_new (log_new 2) [] Hl)
    as [H _]; [vm_compute; discriminate|].
  eexists. split; [exact H|]. vm_compute. reflexivity.
Defined.
End sample.
