(* ===== verification/ContextMatch.v ===== *)
(** Query matching: [QueryMatcher] of [crates/rvm-context/src/resolver.rs].

    The matcher counts overlapping occurrences with a failure table.  The file
    proves that it counts exactly the positions at which the query occurs. *)

From stdpp Require Import base numbers list option.
From Stdlib Require Import ZArith Lia.
From S2P Require Import Prelude.

Record QueryMatcher : Set := mkQueryMatcher { qm_needle : list Z; qm_failure : list nat }.

(** [while matched > 0 && byte != needle[matched] { matched = failure[matched - 1] }];
    [matched] falls every round, so as many rounds as it counts are enough. *)
Fixpoint fall_back (fuel : nat) (needle : list Z) (failure : list nat) (byte : Z) (matched : nat) : option nat :=
  if (0 <? matched)%nat && negb (byte =? nth matched needle 0) then
    match fuel with
    | O => None
    | S fuel => fall_back fuel needle failure byte (nth (matched - 1) failure 0%nat)
    end
  else Some matched.

(** One round of the loop over [1..needle.len()]. *)
Definition build_step (needle : list Z) (index : nat) (st : list nat * nat) : option (list nat * nat) :=
  let '(failure, matched) := st in
  matched ← fall_back (length needle) needle failure (nth index needle 0) matched;
  if nth index needle 0 =? nth matched needle 0
  then Some (<[index := S matched]> failure, S matched)
  else Some (failure, matched).

Fixpoint build_loop (needle : list Z) (indices : list nat) (st : list nat * nat) : option (list nat * nat) :=
  match indices with
  | [] => Some st
  | i :: indices => st ← build_step needle i st; build_loop needle indices st
  end.

Definition matcher_new (needle : list Z) : option QueryMatcher :=
  st ← build_loop needle (seq 1 (length needle - 1)) (replicate (length needle) 0%nat, 0%nat);
  Some (mkQueryMatcher needle st.1).

(** One byte of the haystack: the state is [matched] and [count]. *)
Definition count_step (m : QueryMatcher) (byte : Z) (st : nat * Z) : option (nat * Z) :=
  let '(matched, count) := st in
  matched ← fall_back (length (qm_needle m)) (qm_needle m) (qm_failure m) byte matched;
  if byte =? nth matched (qm_needle m) 0 then
    let matched := S matched in
    if (matched =? length (qm_needle m))%nat
    then Some (nth (matched - 1) (qm_failure m) 0%nat, sat_add u32_max count 1)
    else Some (matched, count)
  else Some (matched, count).

Fixpoint count_loop (m : QueryMatcher) (haystack : list Z) (st : nat * Z) : option (nat * Z) :=
  match haystack with
  | [] => Some st
  | b :: haystack => st ← count_step m b st; count_loop m haystack st
  end.

Definition occurrence_count (m : QueryMatcher) (haystack : list Z) : option Z :=
  if bool_decide (qm_needle m = []) || (length haystack <? length (qm_needle m))%nat then Some 0
  else snd <$> count_loop m haystack (0%nat, 0).

(* ------------------------------------------------------------------ *)
(** ** The reference definition *)

(** The positions at which the pattern occurs, overlapping ones included. *)
Fixpoint occurrences (p hay : list Z) : Z :=
  match hay with
  | [] => 0
  | _ :: hay' => (if bool_decide (take (length p) hay = p) then 1 else 0) + occurrences p hay'
  end.

Lemma occurrences_nonneg p hay : 0 ≤ occurrences p hay.
Proof. induction hay as [|b hay IH]; cbn; [lia|]. case_bool_decide; lia. Qed.

Lemma occurrences_short p hay : p ≠ [] → (length hay < length p)%nat → occurrences p hay = 0.
Proof.
  intros Hp. induction hay as [|b hay IH]; cbn [occurrences]; [done|]. intros H. cbn in H. rewrite IH by lia.
  rewrite bool_decide_false; [done|]. intros E. apply (f_equal length) in E. rewrite length_take in E. cbn in E. lia.
Qed.

(** Reading from the left: the occurrences that end at the last byte. *)
Lemma occurrences_snoc p hay b :
  p ≠ [] → occurrences p (hay ++ [b]) = occurrences p hay + (if decide (p `suffix_of` hay ++ [b]) then 1 else 0).
Proof.
  intros Hp. induction hay as [|x hay IH]; cbn [app occurrences].
  - destruct (decide (p `suffix_of` [b])) as [H|H]; case_bool_decide as E; try lia.
    + exfalso. apply E. destruct H as [k Hk]. destruct k as [|y k]; [by rewrite Hk, firstn_all|].
      apply (f_equal length) in Hk. rewrite length_app in Hk. destruct p; [done|]. cbn in Hk. lia.
    + exfalso. apply H. destruct p as [|y p]; [done|]. cbn in E. injection E as -> E.
      rewrite take_nil in E. subst p. done.
  - rewrite IH. clear IH. destruct (decide (length p = S (length hay + 1))) as [Hl|Hl].
    + (* the pattern is as long as the text *)
      assert (¬ p `suffix_of` hay ++ [b]) as Hn.
      { intros H%suffix_length. rewrite length_app in H. cbn in H. lia. }
      rewrite (decide_False (P := p `suffix_of` hay ++ [b])) by done.
      rewrite (bool_decide_false (take (length p) (x :: hay) = p)).
      2:{ intros E%(f_equal length). rewrite length_take in E. cbn in E. lia. }
      rewrite take_ge by (cbn; rewrite length_app; cbn; lia).
      destruct (decide (p `suffix_of` x :: hay ++ [b])) as [H|H]; case_bool_decide as E; try lia.
      * exfalso. apply E. symmetry. apply suffix_length_eq; [done|]. cbn. rewrite length_app. cbn. lia.
      * exfalso. apply H. by rewrite E.
    + assert (p `suffix_of` x :: hay ++ [b] ↔ p `suffix_of` hay ++ [b]) as Hs.
      { split; [|apply suffix_cons_r]. intros [k Hk]. destruct k as [|y k].
        - exfalso. apply Hl. cbn in Hk. rewrite <-Hk. cbn. rewrite length_app. done.
        - injection Hk as _ Hk. by exists k. }
      rewrite (decide_ext _ _ _ _ Hs).
      assert (bool_decide (take (length p) (x :: hay ++ [b]) = p) = bool_decide (take (length p) (x :: hay) = p)) as ->;
        [|lia].
      apply bool_decide_ext. destruct (decide (length p ≤ S (length hay))%nat).
      * rewrite (app_comm_cons hay [b] x), take_app_le by (cbn; lia). done.
      * split; intros E%(f_equal length); rewrite length_take in E; cbn in E; rewrite ?length_app in E; cbn in E; lia.
Qed.

(* ------------------------------------------------------------------ *)
(** ** The failure table *)

Section matching.
Context (p : list Z).

(** [k] is the longest prefix of the pattern, of at most [bound] bytes, that
    the text ends with. *)
Definition longest (bound : nat) (text : list Z) (k : nat) : Prop :=
  (k ≤ bound)%nat ∧ take k p `suffix_of` text ∧
  ∀ j, (j ≤ bound)%nat → take j p `suffix_of` text → (j ≤ k)%nat.

(** The table is right below [n]: an entry is the longest proper prefix that
    is also a suffix. *)
Definition table_ok (n : nat) (failure : list nat) : Prop :=
  length failure = length p ∧ ∀ i, (i < n)%nat → longest i (take (S i) p) (nth i failure 0%nat).

Lemma take_S_nth j : (j < length p)%nat → take (S j) p = take j p ++ [nth j p 0].
Proof.
  intros H. destruct (lookup_lt_is_Some_2 p j H) as [x Hx]. rewrite (take_S_r _ _ _ Hx).
  by rewrite (nth_lookup_Some _ _ _ _ Hx).
Qed.

Lemma suffix_shorter (a b w : list Z) :
  a `suffix_of` w → b `suffix_of` w → (length a ≤ length b)%nat → a `suffix_of` b.
Proof.
  intros Ha Hb Hl. destruct (suffix_weak_total a b w Ha Hb) as [?|H]; [done|].
  by rewrite (suffix_length_eq b a H Hl).
Qed.

(** What [fall_back] looks for: the longest prefix ending the text that the
    next byte extends. *)
Definition extends_with (text : list Z) (byte : Z) (k : nat) : Prop :=
  (k < length p)%nat ∧ take k p `suffix_of` text ∧ (k = 0%nat ∨ nth k p 0 = byte) ∧
  ∀ j, (j < length p)%nat → take j p `suffix_of` text → nth j p 0 = byte → (j ≤ k)%nat.

Lemma fall_back_spec failure n byte text fuel : ∀ m,
  table_ok n failure → (m ≤ n)%nat → (m < length p)%nat → (m ≤ fuel)%nat → take m p `suffix_of` text →
  (∀ j, (j < length p)%nat → take j p `suffix_of` text → nth j p 0 = byte → (j ≤ m)%nat) →
  ∃ k, fall_back fuel p failure byte m = Some k ∧ (k ≤ m)%nat ∧ extends_with text byte k.
Proof.
  induction fuel as [|fuel IH]; intros m Ht Hn Hm Hf Hs Hmax; cbn [fall_back].
  { replace m with 0%nat in * by lia. exists 0%nat. split; [done|]. split; [lia|]. split_and!; [done|done|by left|done]. }
  destruct (0 <? m)%nat eqn:E0; cbn [andb]; split_bool.
  2:{ exists m. split; [done|]. split; [lia|]. split_and!; [done|done|left; lia|done]. }
  destruct (byte =? nth m p 0) eqn:Eb; cbn [negb]; split_bool.
  { exists m. split; [done|]. split; [lia|]. split_and!; [done|done|by right|done]. }
  destruct (proj2 Ht (m - 1)%nat ltac:(lia)) as (Hk & Hsuf & Hlong). replace (S (m - 1)) with m in Hsuf, Hlong by lia.
  set (f := nth (m - 1) failure 0%nat) in *.
  destruct (IH f Ht) as (k & Ek & Hle & Hext); [lia|lia|lia|by etrans| |exists k; split_and!; [done|lia|done]].
  intros j Hj Hjs Hjb. assert (j ≤ m)%nat by by apply Hmax. assert (j ≠ m) by congruence.
  apply Hlong; [lia|]. apply (suffix_shorter _ _ text); [done|done|]. rewrite !length_take. lia.
Qed.

(** One byte more: the longest prefix grows by one or starts again. *)
Lemma extends_longest text byte k :
  extends_with text byte k →
  if byte =? nth k p 0 then longest (length p) (text ++ [byte]) (S k)
  else longest (length p) (text ++ [byte]) 0 ∧ k = 0%nat.
Proof.
  intros (Hk & Hs & Hb & Hmax).
  assert (∀ j, (j < length p)%nat → take (S j) p `suffix_of` text ++ [byte] ↔
    take j p `suffix_of` text ∧ nth j p 0 = byte) as Hj.
  { intros j Hj. rewrite (take_S_nth j Hj). split.
    - intros H. split; [by apply suffix_snoc_inv_2 in H|by apply suffix_snoc_inv_1 in H].
    - intros [? ->]. by apply suffix_snoc. }
  destruct (byte =? nth k p 0) eqn:E; split_bool.
  - split_and!; [lia|by apply Hj|]. intros [|j] Hle H; [lia|]. apply Hj in H as [H1 H2]; [|lia].
    specialize (Hmax j ltac:(lia) H1 H2). lia.
  - destruct Hb as [->|?]; [|congruence]. split; [|done]. split_and!; [lia|apply suffix_nil|].
    intros [|j] Hle H; [lia|]. apply Hj in H as [H1 H2]; [|lia]. specialize (Hmax j ltac:(lia) H1 H2).
    replace j with 0%nat in H2 by lia. congruence.
Qed.

(** A proper prefix that ends the read part of the pattern. *)
Lemma longest_proper i k :
  (S i ≤ length p)%nat → longest (length p) (drop 1 (take (S i) p)) k ↔ longest i (take (S i) p) k.
Proof.
  intros Hi. assert (∀ j, (j ≤ length p)%nat →
    take j p `suffix_of` drop 1 (take (S i) p) ↔ (j ≤ i)%nat ∧ take j p `suffix_of` take (S i) p) as Hj.
  { intros j Hl. split.
    - intros H. split.
      + apply suffix_length in H. rewrite length_drop, !length_take in H. lia.
      + etrans; [exact H|]. apply suffix_drop.
    - intros [Hle H]. apply (suffix_shorter _ _ (take (S i) p)); [done|apply suffix_drop|].
      rewrite length_drop, !length_take. lia. }
  unfold longest. split; intros (H1 & H2 & H3).
  - apply Hj in H2 as [H2 H2']; [|done]. split_and!; [done|done|]. intros j Hle H. apply H3; [lia|].
    apply Hj; [lia|done].
  - split_and!; [lia|apply Hj; [lia|done]|]. intros j Hle H. apply Hj in H as [? ?]; [|done]. by apply H3.
Qed.

Lemma drop_take_snoc i :
  (1 ≤ i)%nat → (i < length p)%nat → drop 1 (take (S i) p) = drop 1 (take i p) ++ [nth i p 0].
Proof. intros H1 Hi. rewrite (take_S_nth i Hi), drop_app_le; [done|]. rewrite length_take. lia. Qed.

(** The state of the construction before [index] is read. *)
Definition build_inv (index : nat) (st : list nat * nat) : Prop :=
  table_ok index st.1 ∧ longest (length p) (drop 1 (take index p)) st.2 ∧
  ∀ j, (index ≤ j)%nat → nth j st.1 0%nat = 0%nat.

Lemma table_ok_update failure index k :
  table_ok index failure → (index < length p)%nat → longest index (take (S index) p) k →
  table_ok (S index) (<[index := k]> failure).
Proof.
  intros [Hl Ht] Hi Hk. split; [by rewrite length_insert|]. intros i Hlt. rewrite !nth_lookup.
  destruct (decide (i = index)) as [->|Hne].
  - rewrite list_lookup_insert_eq by lia. done.
  - rewrite list_lookup_insert_ne, <-nth_lookup by done. apply Ht. lia.
Qed.

Lemma build_step_ok index st :
  (1 ≤ index)%nat → (index < length p)%nat → build_inv index st →
  ∃ st', build_step p index st = Some st' ∧ build_inv (S index) st'.
Proof.
  destruct st as [failure m]. intros H1 Hi (Ht & Hm & Hz). cbn [fst snd] in *.
  pose proof (proj1 (longest_proper (index - 1) m ltac:(lia))) as Hp. replace (S (index - 1)) with index in Hp by lia.
  destruct (Hp Hm) as (Hml & _ & _). destruct Hm as (_ & Hms & Hmx).
  destruct (fall_back_spec failure index (nth index p 0) (drop 1 (take index p)) (length p) m)
    as (k & Ek & Hk & Hext); [done|lia|lia|lia|done|by intros j Hj Hjs _; apply Hmx; [lia|]|].
  unfold build_step. rewrite Ek. cbn [mbind option_bind]. apply extends_longest in Hext.
  rewrite <-drop_take_snoc in Hext by done.
  assert (∀ v, longest (length p) (drop 1 (take (S index) p)) v → longest index (take (S index) p) v) as Hlp
    by (intros v; apply longest_proper; lia).
  destruct (_ =? _).
  - eexists. split; [done|]. split_and!; cbn [fst snd]; [by apply table_ok_update; auto|done|].
    intros j Hj. rewrite nth_lookup, list_lookup_insert_ne, <-nth_lookup by lia. apply Hz. lia.
  - destruct Hext as [Hext ->]. eexists. split; [done|]. split_and!; cbn [fst snd]; [|done|intros j Hj; apply Hz; lia].
    destruct Ht as [Hl Ht]. split; [done|]. intros i Hlt. destruct (decide (i = index)) as [->|]; [|apply Ht; lia].
    rewrite Hz by done. by apply Hlp.
Qed.

Lemma build_loop_ok k : ∀ index st,
  (1 ≤ index)%nat → (index + k ≤ length p)%nat → build_inv index st →
  ∃ st', build_loop p (seq index k) st = Some st' ∧ build_inv (index + k) st'.
Proof.
  induction k as [|k IH]; intros index st H1 Hk Hst; cbn [seq build_loop].
  { exists st. by rewrite Nat.add_0_r. }
  destruct (build_step_ok index st H1 ltac:(lia) Hst) as (st' & -> & Hst'). cbn [mbind option_bind].
  destruct (IH (S index) st' ltac:(lia) ltac:(lia) Hst') as (st'' & -> & H). exists st''. split; [done|].
  by replace (index + S k)%nat with (S index + k)%nat by lia.
Qed.

Lemma matcher_new_ok :
  p ≠ [] → ∃ m, matcher_new p = Some m ∧ qm_needle m = p ∧ table_ok (length p) (qm_failure m).
Proof.
  intros Hp. assert (1 ≤ length p)%nat as Hl by (destruct p; [done|cbn; lia]).
  destruct (build_loop_ok (length p - 1) 1 (replicate (length p) 0%nat, 0%nat)) as (st & E & (Ht & _)); [lia|lia| |].
  { split_and!; cbn [fst snd].
    - split; [apply length_replicate|]. intros i Hi. replace i with 0%nat in * by lia.
      destruct (length p); [lia|]. cbn. split_and!; [lia|apply suffix_nil|lia].
    - replace (drop 1 (take 1 p)) with (@nil Z) by (by destruct p as [|x [|y l]]). split_and!; [lia|apply suffix_nil|].
      intros j Hj H. apply suffix_nil_inv in H. apply (f_equal length) in H. rewrite length_take in H. cbn in H. lia.
    - intros j _. rewrite nth_lookup. destruct (replicate _ _ !! j) eqn:Ej; [|done].
      by apply lookup_replicate in Ej as [-> _]. }
  unfold matcher_new. rewrite E. cbn [mbind option_bind]. eexists. split; [done|]. split; [done|].
  by replace (1 + (length p - 1))%nat with (length p) in Ht by lia.
Qed.

(** ** Counting *)

Lemma count_loop_ok m hay : ∀ text st,
  qm_needle m = p → table_ok (length p) (qm_failure m) → p ≠ [] →
  longest (length p - 1) text st.1 → st.2 = Z.min u32_max (occurrences p text) →
  ∃ st', count_loop m hay st = Some st' ∧ st'.2 = Z.min u32_max (occurrences p (text ++ hay)).
Proof.
  induction hay as [|b hay IH]; intros text [k c] Hn Ht Hp Hk Hc; cbn [count_loop fst snd] in *.
  { exists (k, c). by rewrite app_nil_r. }
  assert (1 ≤ length p)%nat as Hl by (destruct p; [done|cbn; lia]).
  destruct Hk as (Hkl & Hks & Hkx).
  destruct (fall_back_spec (qm_failure m) (length p) b text (length p) k) as (k' & Ek & Hk' & Hext);
    [done|lia|lia|lia|done|by intros j Hj Hjs _; apply Hkx; [lia|]|].
  pose proof (extends_longest text b k' Hext) as Hlong.
  rewrite (cons_middle b text hay), (app_assoc text [b] hay).
  assert (∀ n, occurrences p (text ++ [b]) = n → 0 ≤ n) as Hnn by (intros n <-; apply occurrences_nonneg).
  unfold count_step. rewrite Hn, Ek. cbn [mbind option_bind].
  pose proof (occurrences_snoc p text b Hp) as Hocc. pose proof (occurrences_nonneg p text).
  destruct (b =? nth k' p 0).
  - destruct Hlong as (Hb1 & Hb2 & Hb3). destruct (S k' =? length p)%nat eqn:Efull; split_bool.
    + rewrite Efull, firstn_all in Hb2. rewrite decide_True in Hocc by done.
      apply IH; try done; cbn [fst snd].
      * destruct (proj2 Ht (length p - 1)%nat ltac:(lia)) as (H1 & H2 & H3).
        replace (S (length p - 1)) with (length p) in H2, H3 by lia. rewrite firstn_all in H2, H3.
        replace (S k' - 1)%nat with (length p - 1)%nat by lia. split_and!; [done|by etrans|].
        intros j Hj Hjs. apply H3; [done|]. apply (suffix_shorter _ _ (text ++ [b])); [done|done|].
        rewrite length_take. lia.
      * rewrite Hocc, Hc. unfold sat_add. lia.
    + rewrite decide_False in Hocc.
      2:{ intros Hs. specialize (Hb3 (length p) ltac:(lia)). rewrite firstn_all in Hb3. specialize (Hb3 Hs). lia. }
      apply IH; try done; cbn [fst snd]; [|lia]. split_and!; [lia|done|]. intros j Hj. apply Hb3. lia.
  - destruct Hlong as [(Hb1 & Hb2 & Hb3) ->]. rewrite decide_False in Hocc.
    2:{ intros Hs. specialize (Hb3 (length p) ltac:(lia)). rewrite firstn_all in Hb3. specialize (Hb3 Hs). lia. }
    apply IH; try done; cbn [fst snd]; [|lia]. split_and!; [lia|done|]. intros j Hj. apply Hb3. lia.
Qed.
End matching.

Lemma matcher_count needle haystack :
  needle ≠ [] →
  ∃ m, matcher_new needle = Some m ∧
    occurrence_count m haystack = Some (Z.min u32_max (occurrences needle haystack)).
Proof.
  intros Hp. destruct (matcher_new_ok needle Hp) as (m & Em & Hn & Ht). exists m. split; [done|].
  unfold occurrence_count. rewrite Hn, bool_decide_false by done. cbn [orb].
  destruct (length haystack <? length needle)%nat eqn:E; split_bool.
  { by rewrite occurrences_short by done. }
  destruct (count_loop_ok needle m haystack [] (0%nat, 0) Hn Ht Hp) as ([k c] & -> & Hc); [|done|by cbn in *; f_equal].
  split_and!; cbn; [lia|apply suffix_nil|]. intros j Hj H. apply suffix_nil_inv in H.
  apply (f_equal length) in H. rewrite length_take in H. cbn in H. lia.
Qed.

(** The matcher is equivalent to counting occurrences by hand: building its
    failure table and scanning always terminate, and the count is the number of
    positions of the haystack at which the query occurs, overlapping occurrences
    included, capped at [u32::MAX]. *)
Theorem query_matcher_exact needle haystack :
  needle ≠ [] →
  ∃ m, matcher_new needle = Some m ∧
    occurrence_count m haystack = Some (Z.min u32_max (occurrences needle haystack)).
Proof. apply matcher_count. Qed.

Lemma query_matcher_exact_witness :
  ∃ m, matcher_new [1; 2; 1] = Some m ∧ occurrence_count m [1; 2; 1; 2; 1; 3; 1; 2; 1] = Some 3.
Proof.
  destruct (query_matcher_exact [1; 2; 1] [1; 2; 1; 2; 1; 3; 1; 2; 1]) as (m & H1 & H2); [discriminate|].
  exists m. split; [exact H1|]. rewrite H2. vm_compute. reflexivity.
Defined.
