(* ===== verification/ContextUri.v ===== *)
(** The [ruv://] namespace: [crates/rvm-context/src/uri.rs].

    One spelling per name: the parser refuses everything the printer would
    not print.  The file models every component, the parser, the printer, the
    builder and pinned names, and proves that parsing and printing are inverse
    to each other, that the length check measures the printed text, and that
    the scanner's verdict does not depend on the order of bytes. *)

From stdpp Require Import base numbers list option strings.
From Stdlib Require Import ZArith Lia.
From S2P Require Import Prelude.
From S2P Require Import Text.

(* ------------------------------------------------------------------ *)
(** ** Limits and errors *)

Definition SCHEME : list Z := lit "ruv://".
Definition MAX_URI_BYTES : Z := 2048.
Definition MAX_AUTHORITY_BYTES : Z := 253.
Definition MAX_DNS_LABEL_BYTES : Z := 63.
Definition MAX_IDENTIFIER_BYTES : Z := 63.
Definition MAX_PATH_SEGMENT_BYTES : Z := 128.
Definition MAX_PATH_SEGMENTS : Z := 32.
Definition MAX_PATH_BYTES : Z := 1024.

Inductive UriError : Set :=
| UriTooLong | NonAscii | InvalidScheme | PercentEncodingNotAllowed | FragmentNotAllowed
| CredentialsNotAllowed | PortNotAllowed | InvalidAuthority | InvalidTenant
| InvalidSubjectKind | InvalidSubjectId | InvalidCollection | MissingComponent
| EmptyPathSegment | TrailingSlash | DotSegment | InvalidPathSegment
| TooManyPathSegments | PathTooLong | InvalidQuery | UnknownQueryKey
| DuplicateQueryKey | QueryOrder | InvalidRevision | InvalidView | RevisionRequired.

#[export] Instance UriError_eq_dec : EqDecision UriError.
Proof. solve_decision. Defined.

(** [value.len()]. *)
Definition blen (l : list Z) : Z := Z.of_nat (length l).

(* ------------------------------------------------------------------ *)
(** ** Characters *)

Definition is_ascii (b : Z) : bool := b <? 128.
Definition is_ascii_lowercase (b : Z) : bool := (97 <=? b) && (b <=? 122).
Definition is_ascii_uppercase (b : Z) : bool := (65 <=? b) && (b <=? 90).
Definition is_ascii_digit (b : Z) : bool := (48 <=? b) && (b <=? 57).
Definition is_ascii_alphanumeric (b : Z) : bool :=
  is_ascii_lowercase b || is_ascii_uppercase b || is_ascii_digit b.

(** One pass, three verdicts, ranked after the scan. *)
Fixpoint forbidden_scan (bytes : list Z) (non_ascii percent fragment : bool) : bool * bool * bool :=
  match bytes with
  | [] => (non_ascii, percent, fragment)
  | byte :: bytes =>
      forbidden_scan bytes (non_ascii || negb (is_ascii byte)) (percent || (byte =? 37))
        (fragment || (byte =? 35))
  end.

Definition reject_forbidden_octets (value : list Z) : result UriError unit :=
  let '(non_ascii, percent, fragment) := forbidden_scan value false false false in
  if non_ascii then Err NonAscii
  else if percent then Err PercentEncodingNotAllowed
  else if fragment then Err FragmentNotAllowed
  else Ok tt.

Definition is_ascii_lowercase_or_digit (byte : Z) : bool :=
  is_ascii_lowercase byte || is_ascii_digit byte.

(** [bytes[0]] and [bytes[bytes.len() - 1]], behind the check for emptiness. *)
Definition first_byte (l : list Z) : Z := default 0 (head l).
Definition last_byte (l : list Z) : Z := default 0 (last l).

Definition is_slug (bytes : list Z) : bool :=
  negb (blen bytes =? 0) && (blen bytes <=? MAX_IDENTIFIER_BYTES) &&
  is_ascii_lowercase_or_digit (first_byte bytes) &&
  is_ascii_lowercase_or_digit (last_byte bytes) &&
  forallb (λ byte, is_ascii_lowercase_or_digit byte || (byte =? 45)) bytes.

(* ------------------------------------------------------------------ *)
(** ** Components *)

Record Authority : Set := mkAuthority { au_text : list Z }.
Record TenantId : Set := mkTenantId { tn_text : list Z }.
Record SubjectId : Set := mkSubjectId { sj_text : list Z }.
Record PathSegment : Set := mkPathSegment { ps_text : list Z }.

#[export] Instance Authority_eq_dec : EqDecision Authority.
Proof. solve_decision. Defined.
#[export] Instance TenantId_eq_dec : EqDecision TenantId.
Proof. solve_decision. Defined.
#[export] Instance SubjectId_eq_dec : EqDecision SubjectId.
Proof. solve_decision. Defined.
#[export] Instance PathSegment_eq_dec : EqDecision PathSegment.
Proof. solve_decision. Defined.

Definition bad_label (bytes : list Z) : bool :=
  (blen bytes =? 0) || (MAX_DNS_LABEL_BYTES <? blen bytes) ||
  negb (is_ascii_lowercase_or_digit (first_byte bytes)) ||
  negb (is_ascii_lowercase_or_digit (last_byte bytes)) ||
  negb (forallb (λ byte, is_ascii_lowercase_or_digit byte || (byte =? 45)) bytes).

Fixpoint check_labels (labels : list (list Z)) : result UriError unit :=
  match labels with
  | [] => Ok tt
  | label :: labels => if bad_label label then Err InvalidAuthority else check_labels labels
  end.

Definition authority_new_prevalidated (value : list Z) : result UriError Authority :=
  if contains_byte 64 value then Err CredentialsNotAllowed
  else if contains_byte 58 value then Err PortNotAllowed
  else if (blen value =? 0) || (MAX_AUTHORITY_BYTES <? blen value) then Err InvalidAuthority
  else
    _ ← check_labels (split_on 46 value);
    Ok (mkAuthority value).
Definition authority_new (value : list Z) : result UriError Authority :=
  _ ← reject_forbidden_octets value; authority_new_prevalidated value.

Definition tenant_new_prevalidated (value : list Z) : result UriError TenantId :=
  if negb (is_slug value) then Err InvalidTenant else Ok (mkTenantId value).
Definition tenant_new (value : list Z) : result UriError TenantId :=
  _ ← reject_forbidden_octets value; tenant_new_prevalidated value.

Definition subject_id_new_prevalidated (value : list Z) : result UriError SubjectId :=
  if negb (is_slug value) then Err InvalidSubjectId else Ok (mkSubjectId value).
Definition subject_id_new (value : list Z) : result UriError SubjectId :=
  _ ← reject_forbidden_octets value; subject_id_new_prevalidated value.

Inductive SubjectKind : Set := SkAgent | SkUser | SkService | SkTeam.
#[export] Instance SubjectKind_eq_dec : EqDecision SubjectKind.
Proof. solve_decision. Defined.

Definition subject_kind_as_str (k : SubjectKind) : list Z :=
  match k with
  | SkAgent => lit "agent" | SkUser => lit "user"
  | SkService => lit "service" | SkTeam => lit "team"
  end.
Definition subject_kind_from_str (value : list Z) : result UriError SubjectKind :=
  if bool_decide (value = lit "agent") then Ok SkAgent
  else if bool_decide (value = lit "user") then Ok SkUser
  else if bool_decide (value = lit "service") then Ok SkService
  else if bool_decide (value = lit "team") then Ok SkTeam
  else Err InvalidSubjectKind.

Record Subject : Set := mkSubject { sub_kind : SubjectKind; sub_id : SubjectId }.
#[export] Instance Subject_eq_dec : EqDecision Subject.
Proof. solve_decision. Defined.

Inductive Collection : Set := ColMemory | ColResources | ColSkills.
#[export] Instance Collection_eq_dec : EqDecision Collection.
Proof. solve_decision. Defined.

Definition collection_as_str (c : Collection) : list Z :=
  match c with
  | ColMemory => lit "memory" | ColResources => lit "resources" | ColSkills => lit "skills"
  end.
Definition collection_from_str (value : list Z) : result UriError Collection :=
  if bool_decide (value = lit "memory") then Ok ColMemory
  else if bool_decide (value = lit "resources") then Ok ColResources
  else if bool_decide (value = lit "skills") then Ok ColSkills
  else Err InvalidCollection.

Definition is_segment_byte (byte : Z) : bool :=
  is_ascii_alphanumeric byte ||
  ((byte =? 45) || (byte =? 46) || (byte =? 95) || (byte =? 126)).

Definition path_segment_new_prevalidated (value : list Z) : result UriError PathSegment :=
  if blen value =? 0 then Err EmptyPathSegment
  else if bool_decide (value = lit ".") || bool_decide (value = lit "..") then Err DotSegment
  else if (MAX_PATH_SEGMENT_BYTES <? blen value) || negb (forallb is_segment_byte value)
  then Err InvalidPathSegment
  else Ok (mkPathSegment value).
Definition path_segment_new (value : list Z) : result UriError PathSegment :=
  _ ← reject_forbidden_octets value; path_segment_new_prevalidated value.

(** [Revision([u8; 32])]. *)
Record Revision : Set := mkRevision { rev_bytes : list Z }.
#[export] Instance Revision_eq_dec : EqDecision Revision.
Proof. solve_decision. Defined.

Definition HEX : list Z := lit "0123456789abcdef".
(** [HEX[usize::from(n)]] of a nibble. *)
Definition hex_digit (n : Z) : Z := default 0 (HEX !! Z.to_nat n).

Fixpoint hex_encode (bytes : list Z) : list Z :=
  match bytes with
  | [] => []
  | byte :: bytes =>
      hex_digit (Z.shiftr byte 4) :: hex_digit (Z.land byte 15) :: hex_encode bytes
  end.
Definition revision_to_string (r : Revision) : list Z := lit "sha256:" ++ hex_encode (rev_bytes r).

Definition hex_nibble (byte : Z) : Z :=
  if (48 <=? byte) && (byte <=? 57) then byte - 48
  else if (97 <=? byte) && (byte <=? 102) then byte - 97 + 10
  else 0.

(** The loop over pairs of digits. *)
Fixpoint hex_decode (hex : list Z) : list Z :=
  match hex with
  | hi :: lo :: hex => Z.lor (wrap8 (Z.shiftl (hex_nibble hi) 4)) (hex_nibble lo) :: hex_decode hex
  | _ => []
  end.

Definition is_lower_hex (byte : Z) : bool :=
  is_ascii_digit byte || ((97 <=? byte) && (byte <=? 102)).

Definition revision_from_str (value : list Z) : result UriError Revision :=
  hex ← ok_or (strip_prefix (lit "sha256:") value) InvalidRevision;
  if negb (blen hex =? 64) || negb (forallb is_lower_hex hex) then Err InvalidRevision
  else Ok (mkRevision (hex_decode hex)).

Inductive ProgressiveView : Set := PvAbstract | PvOverview | PvContent.
#[export] Instance ProgressiveView_eq_dec : EqDecision ProgressiveView.
Proof. solve_decision. Defined.

Definition view_as_str (v : ProgressiveView) : list Z :=
  match v with
  | PvAbstract => lit "abstract" | PvOverview => lit "overview" | PvContent => lit "content"
  end.
Definition view_from_str (value : list Z) : result UriError ProgressiveView :=
  if bool_decide (value = lit "abstract") then Ok PvAbstract
  else if bool_decide (value = lit "overview") then Ok PvOverview
  else if bool_decide (value = lit "content") then Ok PvContent
  else Err InvalidView.

(* ------------------------------------------------------------------ *)
(** ** The name *)

Record RuvUri : Set := mkRuvUri {
  ru_authority : Authority;
  ru_tenant : TenantId;
  ru_subject : Subject;
  ru_collection : Collection;
  ru_path : list PathSegment;
  ru_revision : option Revision;
  ru_view : option ProgressiveView;
}.
#[export] Instance RuvUri_eq_dec : EqDecision RuvUri.
Proof. solve_decision. Defined.

Definition is_pinned (u : RuvUri) : bool := is_some (ru_revision u).

(** [iter().map(f).sum::<usize>()]. *)
Definition sum_len {A} (f : A → Z) (l : list A) : Z := foldr (λ x n, f x + n) 0 l.

Definition optional_path_bytes (u : RuvUri) : Z :=
  sum_len (λ s, blen (ps_text s)) (ru_path u) + sat_sub (Z.of_nat (length (ru_path u))) 1.

Definition canonical_len (u : RuvUri) : Z :=
  let length_ :=
    blen SCHEME + blen (au_text (ru_authority u)) + 4 + blen (tn_text (ru_tenant u)) +
    blen (subject_kind_as_str (sub_kind (ru_subject u))) + blen (sj_text (sub_id (ru_subject u))) +
    blen (collection_as_str (ru_collection u)) in
  let length_ := length_ + sum_len (λ s, 1 + blen (ps_text s)) (ru_path u) in
  let length_ := if is_some (ru_revision u) then length_ + (1 + 4 + 7 + 64) else length_ in
  match ru_view u with
  | Some view => length_ + (1 + 5 + blen (view_as_str view))
  | None => length_
  end.

Definition validate_complete (u : RuvUri) : result UriError unit :=
  if MAX_PATH_SEGMENTS <? Z.of_nat (length (ru_path u)) then Err TooManyPathSegments
  else if MAX_PATH_BYTES <? optional_path_bytes u then Err PathTooLong
  else if MAX_URI_BYTES <? canonical_len u then Err UriTooLong
  else Ok tt.

(** [impl Display]. *)
Definition uri_to_string (u : RuvUri) : list Z :=
  SCHEME ++ au_text (ru_authority u) ++ lit "/" ++ tn_text (ru_tenant u) ++ lit "/" ++
  subject_kind_as_str (sub_kind (ru_subject u)) ++ lit "/" ++
  sj_text (sub_id (ru_subject u)) ++ lit "/" ++ collection_as_str (ru_collection u) ++
  concat ((λ segment, lit "/" ++ ps_text segment) <$> ru_path u) ++
  match ru_revision u with Some revision => lit "?rev=" ++ revision_to_string revision | None => [] end ++
  match ru_view u with
  | Some view =>
      if is_some (ru_revision u) then lit "&view=" ++ view_as_str view
      else lit "?view=" ++ view_as_str view
  | None => []
  end.

(* ------------------------------------------------------------------ *)
(** ** Parsing *)

(** The [for entry in ..] loop over the query's entries. *)
Fixpoint parse_entries (entries : list (list Z)) (revision : option Revision)
    (view : option ProgressiveView) (saw_view : bool)
    : result UriError (option Revision * option ProgressiveView) :=
  match entries with
  | [] => Ok (revision, view)
  | entry :: entries =>
      '(key, value) ← ok_or (split_once 61 entry) InvalidQuery;
      if (blen key =? 0) || (blen value =? 0) || contains_byte 61 value then Err InvalidQuery
      else if bool_decide (key = lit "rev") then
        if is_some revision then Err DuplicateQueryKey
        else if saw_view then Err QueryOrder
        else
          r ← revision_from_str value;
          parse_entries entries (Some r) view saw_view
      else if bool_decide (key = lit "view") then
        if is_some view then Err DuplicateQueryKey
        else
          v ← view_from_str value;
          parse_entries entries revision (Some v) true
      else Err UnknownQueryKey
  end.

Definition parse_query (query : option (list Z))
    : result UriError (option Revision * option ProgressiveView) :=
  match query with
  | None => Ok (None, None)
  | Some query =>
      if blen query =? 0 then Err InvalidQuery
      else
        let entries := split_on 38 query in
        first ← ok_or (head entries) InvalidQuery;
        let second := entries !! 1%nat in
        if is_some (entries !! 2%nat) || (blen first =? 0) || bool_decide (second = Some [])
        then Err InvalidQuery
        else parse_entries (first :: option_list second) None None false
  end.

(** [.collect::<Result<Vec<_>, _>>()]. *)
Fixpoint collect_results {E A B} (f : A → result E B) (l : list A) : result E (list B) :=
  match l with
  | [] => Ok []
  | x :: l => y ← f x; ys ← collect_results f l; Ok (y :: ys)
  end.

(** [[""; 5 + MAX_PATH_SEGMENTS]]: components beyond the array are counted,
    not stored. *)
Definition stored_components (components : list (list Z)) : list (list Z) :=
  take 37 (components ++ replicate 37 []).
Definition component (components : list (list Z)) (i : nat) : list Z :=
  default [] (stored_components components !! i).

Definition uri_from_str (value : list Z) : result UriError RuvUri :=
  if MAX_URI_BYTES <? blen value then Err UriTooLong
  else
    _ ← reject_forbidden_octets value;
    after_scheme ← ok_or (strip_prefix SCHEME value) InvalidScheme;
    let '(hierarchy, query) :=
      match split_once 63 after_scheme with
      | Some (hierarchy, query) => (hierarchy, Some query)
      | None => (after_scheme, None)
      end in
    if ends_with_byte 47 hierarchy then Err TrailingSlash
    else
      let components := split_on 47 hierarchy in
      let component_count := Z.of_nat (length components) in
      let has_empty_component := existsb (λ c, blen c =? 0) components in
      if component_count <? 5 then Err MissingComponent
      else if has_empty_component then Err EmptyPathSegment
      else
        authority ← authority_new_prevalidated (component components 0);
        tenant ← tenant_new_prevalidated (component components 1);
        subject_kind ← subject_kind_from_str (component components 2);
        subject_id ← subject_id_new_prevalidated (component components 3);
        collection ← collection_from_str (component components 4);
        let path_count := component_count - 5 in
        if MAX_PATH_SEGMENTS <? path_count then Err TooManyPathSegments
        else
          let path_parts := drop 5 (take (Z.to_nat component_count) (stored_components components)) in
          let path_bytes := sum_len blen path_parts + sat_sub path_count 1 in
          if MAX_PATH_BYTES <? path_bytes then Err PathTooLong
          else
            path ← collect_results path_segment_new_prevalidated path_parts;
            '(revision, view) ← parse_query query;
            let uri := mkRuvUri authority tenant (mkSubject subject_kind subject_id) collection
                         path revision view in
            _ ← validate_complete uri;
            Ok uri.

(* ------------------------------------------------------------------ *)
(** ** Pinned names and the builder *)

Record PinnedRuvUri : Set := mkPinnedRuvUri { pn_uri : RuvUri; pn_revision : Revision }.
#[export] Instance PinnedRuvUri_eq_dec : EqDecision PinnedRuvUri.
Proof. solve_decision. Defined.

Definition set_ru_revision (r : Revision) (u : RuvUri) : RuvUri :=
  mkRuvUri (ru_authority u) (ru_tenant u) (ru_subject u) (ru_collection u) (ru_path u)
    (Some r) (ru_view u).
Definition set_ru_view (v : ProgressiveView) (u : RuvUri) : RuvUri :=
  mkRuvUri (ru_authority u) (ru_tenant u) (ru_subject u) (ru_collection u) (ru_path u)
    (ru_revision u) (Some v).

Definition with_revision (revision : Revision) (u : RuvUri) : result UriError PinnedRuvUri :=
  let u := set_ru_revision revision u in
  _ ← validate_complete u;
  Ok (mkPinnedRuvUri u revision).

Definition with_view (view : ProgressiveView) (u : RuvUri) : result UriError RuvUri :=
  let u := set_ru_view view u in
  _ ← validate_complete u;
  Ok u.

Definition pinned_try_from (u : RuvUri) : result UriError PinnedRuvUri :=
  revision ← ok_or (ru_revision u) RevisionRequired;
  Ok (mkPinnedRuvUri u revision).
Definition pinned_from_str (value : list Z) : result UriError PinnedRuvUri :=
  u ← uri_from_str value; pinned_try_from u.
Definition pinned_to_string (p : PinnedRuvUri) : list Z := uri_to_string (pn_uri p).

Record RuvUriBuilder : Set := mkRuvUriBuilder {
  ub_authority : Authority;
  ub_tenant : TenantId;
  ub_subject : Subject;
  ub_collection : Collection;
  ub_path : list PathSegment;
  ub_revision : option Revision;
  ub_view : option ProgressiveView;
}.

Definition builder_new (authority : Authority) (tenant : TenantId) (subject : Subject)
    (collection : Collection) : RuvUriBuilder :=
  mkRuvUriBuilder authority tenant subject collection [] None None.
Definition builder_path (path : list PathSegment) (b : RuvUriBuilder) : RuvUriBuilder :=
  mkRuvUriBuilder (ub_authority b) (ub_tenant b) (ub_subject b) (ub_collection b) path
    (ub_revision b) (ub_view b).
Definition builder_path_segment (segment : PathSegment) (b : RuvUriBuilder) : RuvUriBuilder :=
  builder_path (ub_path b ++ [segment]) b.
Definition builder_revision (revision : Revision) (b : RuvUriBuilder) : RuvUriBuilder :=
  mkRuvUriBuilder (ub_authority b) (ub_tenant b) (ub_subject b) (ub_collection b) (ub_path b)
    (Some revision) (ub_view b).
Definition builder_view (view : ProgressiveView) (b : RuvUriBuilder) : RuvUriBuilder :=
  mkRuvUriBuilder (ub_authority b) (ub_tenant b) (ub_subject b) (ub_collection b) (ub_path b)
    (ub_revision b) (Some view).

Definition builder_build (b : RuvUriBuilder) : result UriError RuvUri :=
  let uri := mkRuvUri (ub_authority b) (ub_tenant b) (ub_subject b) (ub_collection b) (ub_path b)
               (ub_revision b) (ub_view b) in
  _ ← validate_complete uri;
  Ok uri.
Definition builder_build_pinned (b : RuvUriBuilder) : result UriError PinnedRuvUri :=
  u ← builder_build b; pinned_try_from u.

Definition sample_uri : list Z := lit "ruv://ctx.example.com/acme/agent/planner/skills/plan/v1?rev=sha256:00112233445566778899aabbccddeeff00112233445566778899aabbccddeeff&view=content".
Example sample_uri_roundtrip : uri_to_string <$> uri_from_str sample_uri = Ok sample_uri.
Proof. vm_compute. reflexivity. Qed.
Example upper_case_refused : uri_from_str (lit "ruv://Ctx.example.com/acme/agent/planner/skills") = Err InvalidAuthority.
Proof. vm_compute. reflexivity. Qed.
Example query_order_refused : uri_from_str (lit "ruv://a/b/user/c/memory?view=content&rev=sha256:00") = Err QueryOrder.
Proof. vm_compute. reflexivity. Qed.

(* ------------------------------------------------------------------ *)
(** ** Texts *)

Lemma bind_Ok {E A B} (m : result E A) (f : A → result E B) b :
  m ≫= f = Ok b ↔ ∃ a, m = Ok a ∧ f a = Ok b.
Proof. destruct m as [a|e]; cbn; naive_solver. Qed.

Lemma ok_or_Ok {E A} (o : option A) (e : E) a : ok_or o e = Ok a ↔ o = Some a.
Proof. destruct o; cbn; naive_solver. Qed.

(** Run a successful chain of [?] operators backwards. *)
Ltac inv_result :=
  repeat match goal with
  | H : _ ≫= _ = Ok _ |- _ => apply bind_Ok in H; destruct H as (? & ? & ?)
  | H : ok_or _ _ = Ok _ |- _ => apply ok_or_Ok in H
  | H : Ok _ = Ok _ |- _ => injection H as H
  | H : (if _ then Err _ else _) = Ok _ |- _ =>
      let E := fresh "E" in
      match type of H with (if ?b then _ else _) = _ => destruct b eqn:E end; [discriminate H|]
  end.

(** The characters of every component. *)
Definition plain (w : list Z) : Prop := w ≠ [] ∧ Forall (λ b, is_segment_byte b = true) w.

Definition separator (b : Z) : Prop := b = 47 ∨ b = 63 ∨ b = 38 ∨ b = 61 ∨ b = 58 ∨ b = 64.

Lemma segment_byte_range b : is_segment_byte b = true → 0 ≤ b < 128.
Proof.
  unfold is_segment_byte, is_ascii_alphanumeric, is_ascii_lowercase, is_ascii_uppercase,
    is_ascii_digit. intros H.
  repeat (apply orb_true_iff in H as [H|H]); try (apply andb_true_iff in H as [H H']); split_bool; lia.
Qed.

Lemma separator_not_segment b : separator b → is_segment_byte b = false.
Proof. by intros [->|[->|[->|[->|[->| ->]]]]]. Qed.

Lemma plain_absent b w : separator b → plain w → b ∉ w.
Proof.
  intros Hb [_ Hw] Hin. rewrite Forall_forall in Hw. specialize (Hw b Hin).
  by rewrite (separator_not_segment b Hb) in Hw.
Qed.

Lemma slug_byte b :
  is_ascii_lowercase_or_digit b || (b =? 45) = true → is_segment_byte b = true.
Proof.
  unfold is_ascii_lowercase_or_digit, is_segment_byte, is_ascii_alphanumeric.
  destruct (is_ascii_lowercase b), (is_ascii_uppercase b), (is_ascii_digit b), (b =? 45); done.
Qed.

Lemma blen_0 l : blen l ≠ 0 ↔ l ≠ [].
Proof. unfold blen. destruct l; cbn [length]; split; intros H; try done; lia. Qed.

Lemma slug_plain w : is_slug w = true → plain w.
Proof.
  unfold is_slug. intros H. split_bool. split; [by apply blen_0|].
  match goal with H : forallb _ _ = true |- _ => apply forallb_Forall in H; eapply Forall_impl; [exact H|] end.
  apply slug_byte.
Qed.

Lemma check_labels_Ok labels :
  check_labels labels = Ok tt ↔ Forall (λ l, bad_label l = false) labels.
Proof.
  induction labels as [|l labels IH]; cbn; [by split|].
  rewrite Forall_cons, <-IH. destruct (bad_label l); naive_solver.
Qed.

Lemma good_label_plain l : bad_label l = false → Forall (λ b, is_segment_byte b = true) l.
Proof.
  unfold bad_label. intros H. split_bool.
  match goal with H : forallb _ _ = true |- _ => apply forallb_Forall in H; eapply Forall_impl; [exact H|] end.
  apply slug_byte.
Qed.

Lemma join_with_Forall (P : Z → Prop) sep ws :
  P sep → Forall (Forall P) ws → Forall P (join_with sep ws).
Proof.
  intros Hsep H. induction H as [|w ws Hw _ IH]; [constructor|].
  destruct ws as [|w' ws]; [done|]. rewrite join_with_cons.
  apply Forall_app. split; [done|]. by constructor.
Qed.

Lemma authority_plain w a : authority_new_prevalidated w = Ok a → plain w ∧ au_text a = w.
Proof.
  unfold authority_new_prevalidated. intros H. inv_result. subst. split_bool. split; [|done].
  split; [by apply blen_0|]. rewrite <-(join_split 46 w). apply join_with_Forall; [done|].
  match goal with H : check_labels _ = _ |- _ => destruct x; apply check_labels_Ok in H end.
  eapply Forall_impl; [done|]. apply good_label_plain.
Qed.

Lemma tenant_plain w t : tenant_new_prevalidated w = Ok t → plain w ∧ tn_text t = w.
Proof.
  unfold tenant_new_prevalidated. intros H. inv_result. subst. split_bool. split; [by apply slug_plain|done].
Qed.

Lemma subject_id_plain w t : subject_id_new_prevalidated w = Ok t → plain w ∧ sj_text t = w.
Proof.
  unfold subject_id_new_prevalidated. intros H. inv_result. subst. split_bool. split; [by apply slug_plain|done].
Qed.

Lemma path_segment_plain w s : path_segment_new_prevalidated w = Ok s → plain w ∧ ps_text s = w.
Proof.
  unfold path_segment_new_prevalidated. intros H. inv_result. subst. split; [|done].
  split_bool. split; [by apply blen_0|]. by apply forallb_Forall.
Qed.

Lemma subject_kind_plain k : plain (subject_kind_as_str k).
Proof. destruct k; (split; [done|by repeat constructor]). Qed.
Lemma collection_plain c : plain (collection_as_str c).
Proof. destruct c; (split; [done|by repeat constructor]). Qed.
Lemma view_plain v : plain (view_as_str v).
Proof. destruct v; (split; [done|by repeat constructor]). Qed.

Lemma subject_kind_from_str_Ok w k :
  subject_kind_from_str w = Ok k ↔ w = subject_kind_as_str k.
Proof.
  split; [|by intros ->; destruct k].
  unfold subject_kind_from_str. intros H. repeat case_bool_decide; by simplify_eq.
Qed.
Lemma collection_from_str_Ok w c : collection_from_str w = Ok c ↔ w = collection_as_str c.
Proof.
  split; [|by intros ->; destruct c].
  unfold collection_from_str. intros H. repeat case_bool_decide; by simplify_eq.
Qed.
Lemma view_from_str_Ok w v : view_from_str w = Ok v ↔ w = view_as_str v.
Proof.
  split; [|by intros ->; destruct v].
  unfold view_from_str. intros H. repeat case_bool_decide; by simplify_eq.
Qed.

(* ------------------------------------------------------------------ *)
(** ** Hexadecimal *)

Definition rev_wf (r : Revision) : Prop :=
  length (rev_bytes r) = 32%nat ∧ Forall is_byte (rev_bytes r).

(** A property of bytes is checked on the 256 of them. *)
Lemma byte_cases (p : Z → bool) (n : Z) :
  forallb p (seqZ 0 n) = true → ∀ b, 0 ≤ b < n → p b = true.
Proof.
  intros H b Hb. rewrite forallb_Forall, Forall_forall in H. apply H, elem_of_seqZ. lia.
Qed.

Lemma hex_byte b :
  is_byte b →
  Z.lor (wrap8 (Z.shiftl (hex_nibble (hex_digit (Z.shiftr b 4))) 4))
    (hex_nibble (hex_digit (Z.land b 15))) = b ∧
  is_lower_hex (hex_digit (Z.shiftr b 4)) = true ∧ is_lower_hex (hex_digit (Z.land b 15)) = true.
Proof.
  intros Hb.
  pose proof (byte_cases (λ b,
    (Z.lor (wrap8 (Z.shiftl (hex_nibble (hex_digit (Z.shiftr b 4))) 4))
       (hex_nibble (hex_digit (Z.land b 15))) =? b) &&
    is_lower_hex (hex_digit (Z.shiftr b 4)) && is_lower_hex (hex_digit (Z.land b 15))) 256
    ltac:(vm_compute; reflexivity) b Hb) as H.
  cbn beta in H. split_bool. done.
Qed.

Lemma hex_pair hi lo :
  is_lower_hex hi = true → is_lower_hex lo = true →
  let b := Z.lor (wrap8 (Z.shiftl (hex_nibble hi) 4)) (hex_nibble lo) in
  is_byte b ∧ hex_digit (Z.shiftr b 4) = hi ∧ hex_digit (Z.land b 15) = lo.
Proof.
  intros Hhi Hlo.
  assert (∀ x, is_lower_hex x = true → 0 ≤ x < 128) as Hr.
  { intros x Hx. unfold is_lower_hex, is_ascii_digit in Hx.
    apply orb_true_iff in Hx as [Hx|Hx]; split_bool; lia. }
  pose proof (byte_cases (λ hi, forallb (λ lo,
    negb (is_lower_hex hi && is_lower_hex lo) ||
    (let b := Z.lor (wrap8 (Z.shiftl (hex_nibble hi) 4)) (hex_nibble lo) in
     (0 <=? b) && (b <? 256) && (hex_digit (Z.shiftr b 4) =? hi) &&
     (hex_digit (Z.land b 15) =? lo))) (seqZ 0 128)) 128
    ltac:(vm_compute; reflexivity) hi (Hr hi Hhi)) as H.
  cbn beta in H. pose proof (byte_cases _ _ H lo (Hr lo Hlo)) as H'. cbn beta in H'.
  rewrite Hhi, Hlo in H'. cbn [andb negb orb] in H'. cbv zeta in *. split_bool.
  unfold is_byte. split_and!; done || lia.
Qed.

Lemma hex_decode_encode bs : Forall is_byte bs → hex_decode (hex_encode bs) = bs.
Proof.
  induction 1 as [|b bs Hb _ IH]; [done|]. cbn [hex_encode hex_decode]. rewrite IH.
  by destruct (hex_byte b Hb) as [-> _].
Qed.

Lemma hex_encode_lower bs : Forall is_byte bs → Forall (λ b, is_lower_hex b = true) (hex_encode bs).
Proof.
  induction 1 as [|b bs Hb _ IH]; cbn [hex_encode]; [constructor|].
  destruct (hex_byte b Hb) as (_ & ? & ?). by repeat constructor.
Qed.

Lemma length_hex_encode bs : length (hex_encode bs) = (2 * length bs)%nat.
Proof. induction bs; cbn [hex_encode length]; lia. Qed.

Lemma hex_encode_decode n hs :
  length hs = (2 * n)%nat → Forall (λ b, is_lower_hex b = true) hs →
  hex_encode (hex_decode hs) = hs ∧ length (hex_decode hs) = n ∧ Forall is_byte (hex_decode hs).
Proof.
  revert hs. induction n as [|n IH]; intros [|hi [|lo hs]] Hn Hh; cbn [length] in Hn; try lia.
  { split_and!; [done..|constructor]. }
  apply Forall_cons in Hh as [Hhi [Hlo Hh]%Forall_cons].
  destruct (IH hs ltac:(lia) Hh) as (IH1 & IH2 & IH3).
  destruct (hex_pair hi lo Hhi Hlo) as (Hb & E1 & E2). cbn zeta in *.
  cbn [hex_decode hex_encode length]. rewrite E1, E2, IH1, IH2. split_and!; [done..|by constructor].
Qed.

Lemma revision_parse_print r : rev_wf r → revision_from_str (revision_to_string r) = Ok r.
Proof.
  intros [Hl Hb]. unfold revision_from_str, revision_to_string.
  rewrite (proj2 (strip_prefix_Some _ _ _) eq_refl). cbn [ok_or mbind result_bind].
  unfold blen. rewrite length_hex_encode, Hl. cbn [negb Z.of_nat Z.eqb orb].
  replace (forallb is_lower_hex (hex_encode (rev_bytes r))) with true.
  - cbn. rewrite hex_decode_encode by done. by destruct r.
  - symmetry. by apply forallb_Forall, hex_encode_lower.
Qed.

Lemma revision_print_parse w r :
  revision_from_str w = Ok r → revision_to_string r = w ∧ rev_wf r.
Proof.
  unfold revision_from_str, revision_to_string. intros H. inv_result.
  match goal with H : strip_prefix _ _ = _ |- _ => apply strip_prefix_Some in H end.
  subst. split_bool. cbn [rev_bytes].
  destruct (hex_encode_decode 32 x) as (-> & Hl & Hb).
  - unfold blen in *. lia.
  - by apply forallb_Forall.
  - done.
Qed.

(* ------------------------------------------------------------------ *)
(** ** The scanner *)

Lemma forbidden_scan_eq l a p f :
  forbidden_scan l a p f =
    (a || existsb (λ b, negb (is_ascii b)) l, p || existsb (λ b, b =? 37) l,
     f || existsb (λ b, b =? 35) l).
Proof.
  revert a p f. induction l as [|b l IH]; intros a p f; cbn [forbidden_scan existsb].
  - by rewrite !orb_false_r.
  - by rewrite IH, !orb_assoc.
Qed.

Lemma existsb_perm {A} (p : A → bool) (l l' : list A) : l ≡ₚ l' → existsb p l = existsb p l'.
Proof.
  induction 1 as [|x l l' _ IH|x y l|l l' l'' _ IH1 _ IH2]; cbn; [done|by rewrite IH| |congruence].
  by rewrite !orb_assoc, (orb_comm (p y)).
Qed.

(** The verdict on a text does not depend on the order of its bytes: which
    error is reported is decided by the ranking non-ASCII, percent, fragment. *)
Theorem forbidden_verdict_order l l' :
  l ≡ₚ l' → reject_forbidden_octets l = reject_forbidden_octets l'.
Proof.
  intros H. unfold reject_forbidden_octets. rewrite !forbidden_scan_eq.
  by rewrite !(existsb_perm _ _ _ H).
Qed.

Lemma forbidden_verdict_order_witness :
  lit "a#%" ≡ₚ lit "%a#" ∧ reject_forbidden_octets (lit "a#%") = Err PercentEncodingNotAllowed.
Proof.
  assert (lit "a#%" ≡ₚ lit "%a#") as H.
  { vm_compute. etrans; [|apply perm_swap]. apply perm_skip, perm_swap. }
  split; [done|]. rewrite (forbidden_verdict_order _ _ H). by vm_compute.
Defined.

Definition allowed_byte (b : Z) : Prop := b < 128 ∧ b ≠ 37 ∧ b ≠ 35.
#[export] Instance allowed_byte_dec b : Decision (allowed_byte b).
Proof. unfold allowed_byte. apply _. Defined.

Lemma existsb_false {A} (p : A → bool) (l : list A) : existsb p l = false ↔ Forall (λ x, p x = false) l.
Proof.
  induction l as [|x l IH]; cbn; [by split|]. rewrite orb_false_iff, Forall_cons, IH. done.
Qed.

Lemma reject_forbidden_Ok l : reject_forbidden_octets l = Ok tt ↔ Forall allowed_byte l.
Proof.
  unfold reject_forbidden_octets. rewrite forbidden_scan_eq. cbn [orb].
  transitivity (existsb (λ b, negb (is_ascii b)) l = false ∧ existsb (λ b, b =? 37) l = false ∧
    existsb (λ b, b =? 35) l = false).
  { destruct (existsb _ l), (existsb (λ b, b =? 37) l), (existsb (λ b, b =? 35) l); naive_solver. }
  rewrite !existsb_false, <-!Forall_and. split; intros H; eapply Forall_impl; [exact H| |exact H|];
    intros b; cbn beta; unfold allowed_byte, is_ascii.
  - intros (? & ? & ?). split_bool. lia.
  - intros (? & ? & ?). split_and!; [apply negb_false_iff|..]; lia.
Qed.

Lemma segment_byte_allowed b : is_segment_byte b = true → allowed_byte b.
Proof.
  intros H. split_and!; [by pose proof (segment_byte_range b H); lia| |]; intros ->; by cbv in H.
Qed.

Lemma plain_allowed w : plain w → Forall allowed_byte w.
Proof. intros [_ H]. eapply Forall_impl; [exact H|]. apply segment_byte_allowed. Qed.

(* ------------------------------------------------------------------ *)
(** ** Well-formed names and the shape of their text *)

Record uri_wf (u : RuvUri) : Prop := {
  uw_authority : authority_new_prevalidated (au_text (ru_authority u)) = Ok (ru_authority u);
  uw_tenant : tenant_new_prevalidated (tn_text (ru_tenant u)) = Ok (ru_tenant u);
  uw_subject : subject_id_new_prevalidated (sj_text (sub_id (ru_subject u))) = Ok (sub_id (ru_subject u));
  uw_path : Forall (λ s, path_segment_new_prevalidated (ps_text s) = Ok s) (ru_path u);
  uw_revision r : ru_revision u = Some r → rev_wf r;
  uw_limits : validate_complete u = Ok tt;
}.

Definition uri_pieces (u : RuvUri) : list (list Z) :=
  au_text (ru_authority u) :: tn_text (ru_tenant u) ::
  subject_kind_as_str (sub_kind (ru_subject u)) :: sj_text (sub_id (ru_subject u)) ::
  collection_as_str (ru_collection u) :: (ps_text <$> ru_path u).

Definition query_entries (revision : option Revision) (view : option ProgressiveView) : list (list Z) :=
  option_list ((λ r, lit "rev" ++ 61 :: revision_to_string r) <$> revision) ++
  option_list ((λ v, lit "view" ++ 61 :: view_as_str v) <$> view).

Definition query_of (revision : option Revision) (view : option ProgressiveView) : option (list Z) :=
  match query_entries revision view with [] => None | es => Some (join_with 38 es) end.

Definition query_suffix (q : option (list Z)) : list Z :=
  match q with Some q => 63 :: q | None => [] end.

Lemma uri_text_shape u :
  uri_to_string u =
    SCHEME ++ join_with 47 (uri_pieces u) ++ query_suffix (query_of (ru_revision u) (ru_view u)).
Proof.
  unfold uri_to_string, uri_pieces, query_of, query_entries. rewrite join_with_app. cbn [fmap list_fmap concat].
  rewrite <-!app_assoc, <-list_fmap_compose. cbn [app]. unfold compose.
  change (lit "/") with [47]. cbn [app].
  destruct (ru_revision u) as [r|], (ru_view u) as [v|];
    cbn [fmap option_fmap option_map option_list option_rect app join_with query_suffix is_some];
    rewrite <-?app_assoc, ?app_nil_r; reflexivity.
Qed.

Lemma pieces_plain u : uri_wf u → Forall plain (uri_pieces u).
Proof.
  intros [Ha Ht Hs Hp _ _]. unfold uri_pieces.
  constructor; [by apply authority_plain in Ha as [? _]|].
  constructor; [by apply tenant_plain in Ht as [? _]|].
  constructor; [apply subject_kind_plain|].
  constructor; [by apply subject_id_plain in Hs as [? _]|].
  constructor; [apply collection_plain|].
  apply Forall_fmap. eapply Forall_impl; [exact Hp|]. by intros s [? _]%path_segment_plain.
Qed.

Lemma revision_text_allowed r :
  rev_wf r → Forall (λ b, is_segment_byte b = true ∨ b = 58) (revision_to_string r).
Proof.
  intros [_ Hb]. apply Forall_app. split; [repeat constructor; by vm_compute; eauto|].
  eapply Forall_impl; [by apply hex_encode_lower|]. intros b Hh. left.
  unfold is_lower_hex, is_segment_byte, is_ascii_alphanumeric, is_ascii_lowercase, is_ascii_digit in *.
  apply orb_true_iff in Hh as [->|Hh]; [by rewrite orb_true_r|]. split_bool.
  replace (97 <=? b) with true by lia. by replace (b <=? 122) with true by lia.
Qed.

Lemma revision_text_absent r b :
  rev_wf r → b = 38 ∨ b = 61 ∨ b = 63 → b ∉ revision_to_string r.
Proof.
  intros Hr Hb Hin. pose proof (revision_text_allowed r Hr) as H. rewrite Forall_forall in H.
  destruct (H b Hin) as [Hs|Hs]; [|lia].
  rewrite separator_not_segment in Hs; [done|]. unfold separator. naive_solver.
Qed.

Lemma query_entries_allowed r v :
  (∀ x, r = Some x → rev_wf x) → Forall (Forall allowed_byte) (query_entries r v).
Proof.
  intros Hr.
  assert (∀ w l, Forall allowed_byte w → Forall allowed_byte l → Forall allowed_byte (w ++ 61 :: l))
    as Happ.
  { intros w l Hw Hl. apply Forall_app. split; [done|]. by constructor. }
  unfold query_entries. apply Forall_app. split.
  - destruct r as [r|]; cbn [fmap option_fmap option_map option_list option_rect]; [|constructor].
    constructor; [|constructor]. apply Happ.
    { apply plain_allowed. split; [done|by repeat constructor]. }
    eapply Forall_impl; [by apply revision_text_allowed, Hr|]. cbn beta.
    intros b [?| ->]; [by apply segment_byte_allowed|done].
  - destruct v as [v|]; cbn [fmap option_fmap option_map option_list option_rect]; [|constructor].
    constructor; [|constructor]. apply Happ; [|by apply plain_allowed, view_plain].
    apply plain_allowed. split; [done|by repeat constructor].
Qed.

(** Every text the printer makes passes the scanner. *)
Lemma uri_text_allowed u : uri_wf u → reject_forbidden_octets (uri_to_string u) = Ok tt.
Proof.
  intros Hu. apply reject_forbidden_Ok. rewrite uri_text_shape. apply Forall_app. split.
  { apply (bool_decide_unpack _). by vm_compute. }
  apply Forall_app. split.
  - apply join_with_Forall; [done|]. eapply Forall_impl; [by apply pieces_plain|]. apply plain_allowed.
  - pose proof (query_entries_allowed (ru_revision u) (ru_view u) (uw_revision u Hu)) as H.
    unfold query_of. destruct (query_entries _ _) as [|e es]; [constructor|].
    constructor; [done|]. by apply join_with_Forall.
Qed.

Lemma sum_len_app {A} (f : A → Z) l l' : sum_len f (l ++ l') = sum_len f l + sum_len f l'.
Proof. induction l as [|x l IH]; cbn; [done|]. unfold sum_len in *. cbn. rewrite IH. lia. Qed.

Lemma blen_app l l' : blen (l ++ l') = blen l + blen l'.
Proof. unfold blen. rewrite length_app. lia. Qed.

Lemma blen_concat_slash path :
  blen (concat ((λ s, lit "/" ++ ps_text s) <$> path)) = sum_len (λ s, 1 + blen (ps_text s)) path.
Proof.
  induction path as [|s path IH]; [done|]. rewrite fmap_cons. cbn [concat].
  rewrite !blen_app, IH. change (blen (lit "/")) with 1. done.
Qed.

(** The arithmetic length check measures the printed text. *)
Theorem canonical_len_exact u :
  (∀ r, ru_revision u = Some r → length (rev_bytes r) = 32%nat) →
  canonical_len u = blen (uri_to_string u).
Proof.
  intros Hr. unfold canonical_len, uri_to_string. rewrite !blen_app, blen_concat_slash.
  change (blen (lit "/")) with 1.
  assert (∀ r, ru_revision u = Some r → blen (lit "?rev=" ++ revision_to_string r) = 76) as H.
  { intros r Er. specialize (Hr r Er). unfold revision_to_string. rewrite !blen_app.
    change (blen (lit "?rev=")) with 5. change (blen (lit "sha256:")) with 7.
    unfold blen. rewrite length_hex_encode. lia. }
  destruct (ru_revision u) as [r|], (ru_view u) as [v|]; cbn [is_some];
    rewrite ?(H _ eq_refl), ?blen_app; change (blen []) with 0; try lia;
    change (blen (lit "&view=")) with 6; change (blen (lit "?view=")) with 6; lia.
Qed.

(* ------------------------------------------------------------------ *)
(** ** Queries *)

Lemma split_once_entry key value :
  61 ∉ key → split_once 61 (key ++ 61 :: value) = Some (key, value).
Proof. intros H. by apply split_once_Some. Qed.

Lemma parse_entry_rev r es view :
  rev_wf r →
  parse_entries ((lit "rev" ++ 61 :: revision_to_string r) :: es) None view false =
    parse_entries es (Some r) view false.
Proof.
  intros Hr. cbn [parse_entries]. rewrite split_once_entry by (by apply contains_byte_false).
  cbn [ok_or mbind result_bind].
  rewrite (proj2 (contains_byte_false _ _)) by (apply revision_text_absent; auto).
  rewrite bool_decide_true by done. by rewrite revision_parse_print.
Qed.

Lemma parse_entry_view v es revision saw :
  parse_entries ((lit "view" ++ 61 :: view_as_str v) :: es) revision None saw =
    parse_entries es revision (Some v) true.
Proof. by destruct v. Qed.

Lemma parse_query_print r v :
  (∀ x, r = Some x → rev_wf x) → parse_query (query_of r v) = Ok (r, v).
Proof.
  intros Hr. unfold parse_query, query_of.
  assert (Forall (λ w, 38 ∉ w) (query_entries r v)) as Hs.
  { unfold query_entries. apply Forall_app. split.
    - destruct r as [r|]; cbn [fmap option_fmap option_map option_list option_rect]; [|constructor].
      constructor; [|constructor]. rewrite not_elem_of_app, not_elem_of_cons.
      split_and!; [by apply contains_byte_false|done|]. apply revision_text_absent; auto.
    - destruct v as [v|]; cbn [fmap option_fmap option_map option_list option_rect]; [|constructor].
      constructor; [|constructor]. rewrite not_elem_of_app, not_elem_of_cons.
      split_and!; [by apply contains_byte_false|done|]. apply plain_absent; [by unfold separator; auto|].
      apply view_plain. }
  destruct (query_entries r v) as [|e es] eqn:Ee.
  { by destruct r, v. }
  assert (∀ w, join_with 38 ((lit "rev" ++ w) :: es) ≠ [] ∧ join_with 38 ((lit "view" ++ w) :: es) ≠ [])
    as Hj by (intros w; by destruct es).
  rewrite split_join by done.
  destruct r as [r|], v as [v|]; unfold query_entries in Ee; cbn in Ee; simplify_eq;
    cbn [head ok_or mbind result_bind lookup list_lookup is_some blen];
    (match goal with |- context [blen ?w =? 0] =>
       replace (blen w =? 0) with false by
         (symmetry; apply Z.eqb_neq, blen_0; first [apply (Hj (61 :: revision_to_string r))
           | apply (Hj (61 :: view_as_str v))]) end).
  - change (parse_entries [lit "rev" ++ 61 :: revision_to_string r;
      lit "view" ++ 61 :: view_as_str v] None None false = Ok (Some r, Some v)).
    by rewrite parse_entry_rev, parse_entry_view by auto.
  - change (parse_entries [lit "rev" ++ 61 :: revision_to_string r] None None false = Ok (Some r, None)).
    by rewrite parse_entry_rev by auto.
  - change (parse_entries [lit "view" ++ 61 :: view_as_str v] None None false = Ok (None, Some v)).
    by rewrite parse_entry_view.
Qed.

Lemma parse_entries_inv e es revision view saw res :
  parse_entries (e :: es) revision view saw = Ok res →
  (∃ r, revision = None ∧ saw = false ∧ e = lit "rev" ++ 61 :: revision_to_string r ∧ rev_wf r ∧
        parse_entries es (Some r) view saw = Ok res) ∨
  (∃ v, view = None ∧ e = lit "view" ++ 61 :: view_as_str v ∧
        parse_entries es revision (Some v) true = Ok res).
Proof.
  cbn [parse_entries]. intros H. apply bind_Ok in H as ([key value] & Hkv & H).
  apply ok_or_Ok, split_once_Some in Hkv as [-> _].
  destruct ((blen key =? 0) || (blen value =? 0) || contains_byte 61 value); [done|].
  case_bool_decide as Hk.
  - destruct revision as [?|]; [done|]. destruct saw; [done|]. cbn [is_some] in H.
    apply bind_Ok in H as (r & Hr & H). apply revision_print_parse in Hr as [<- Hwf]. subst.
    left. by exists r.
  - case_bool_decide as Hk'; [|done]. destruct view as [?|]; [done|]. cbn [is_some] in H.
    apply bind_Ok in H as (v & Hv & H). apply view_from_str_Ok in Hv as ->. subst.
    right. by exists v.
Qed.

Lemma parse_query_sound q r v :
  parse_query q = Ok (r, v) → q = query_of r v ∧ ∀ x, r = Some x → rev_wf x.
Proof.
  unfold parse_query. destruct q as [q|]; [|by intros [= <- <-]].
  destruct (blen q =? 0); [done|]. intros H.
  apply bind_Ok in H as (e & He & H). apply ok_or_Ok in He.
  pose proof (join_split 38 q) as Hq.
  destruct (split_on 38 q) as [|e' es]; [done|]. injection He as ->.
  destruct (is_some _ || _ || _) eqn:Hg; [done|]. split_bool.
  assert (length es ≤ 1)%nat as Hes.
  { destruct es as [|? [|]]; cbn in *; [lia|lia|done]. }
  assert (option_list ((e :: es) !! 1%nat) = es) as Hl by (destruct es as [|? [|]]; cbn in *; done || lia).
  rewrite Hl in H. clear - H Hq Hes. subst q. unfold query_of, query_entries.
  apply parse_entries_inv in H as [(x & _ & _ & -> & Hx & H)|(x & _ & -> & H)].
  - destruct es as [|e2 [|]]; cbn in Hes; [|apply parse_entries_inv in H|lia].
    + injection H as <- <-. split; [done|]. by intros ? [= <-].
    + destruct H as [(? & ? & _)|(y & _ & -> & H)]; [done|]. injection H as <- <-.
      split; [done|]. by intros ? [= <-].
  - destruct es as [|e2 [|]]; cbn in Hes; [|apply parse_entries_inv in H|lia].
    + by injection H as <- <-.
    + by destruct H as [(? & _ & ? & _)|(y & ? & _)].
Qed.

(* ------------------------------------------------------------------ *)
(** ** Round trips *)

Lemma stored_take cs :
  (length cs ≤ 37)%nat → take (length cs) (stored_components cs) = cs.
Proof.
  intros H. unfold stored_components. rewrite take_take, Nat.min_l by done.
  rewrite take_app_le by done. by rewrite firstn_all.
Qed.

Lemma component_eq cs i w : cs !! i = Some w → (i < 37)%nat → component cs i = w.
Proof.
  intros H Hi. unfold component, stored_components. rewrite lookup_take_lt by done.
  by rewrite (lookup_app_l_Some _ _ _ _ H).
Qed.

Lemma collect_results_Ok {E A B} (f : A → result E B) l ys :
  collect_results f l = Ok ys ↔ Forall2 (λ x y, f x = Ok y) l ys.
Proof.
  revert ys. induction l as [|x l IH]; intros ys; cbn [collect_results].
  - split; [by intros [= <-]; constructor|by inversion 1].
  - rewrite bind_Ok. setoid_rewrite bind_Ok. setoid_rewrite IH. split.
    + intros (y & Hy & ys' & Hys & [= <-]). by constructor.
    + inversion 1; subst. eauto.
Qed.

Lemma uri_wf_path_limits u :
  uri_wf u → (length (ru_path u) ≤ 32)%nat ∧ optional_path_bytes u ≤ 1024 ∧ canonical_len u ≤ 2048.
Proof.
  intros Hu. pose proof (uw_limits u Hu) as H. unfold validate_complete in H.
  change MAX_PATH_SEGMENTS with 32 in H. change MAX_PATH_BYTES with 1024 in H.
  change MAX_URI_BYTES with 2048 in H. inv_result. split_bool. lia.
Qed.

Lemma sum_len_fmap {A B} (f : A → Z) (g : B → A) l : sum_len f (g <$> l) = sum_len (λ x, f (g x)) l.
Proof. unfold sum_len. induction l as [|x l IH]; [done|]. rewrite fmap_cons. cbn [foldr]. by rewrite IH. Qed.

Lemma pieces_no_sep u b : uri_wf u → separator b → Forall (λ w, b ∉ w) (uri_pieces u).
Proof.
  intros Hu Hb. eapply Forall_impl; [by apply pieces_plain|]. intros w. by apply plain_absent.
Qed.

Lemma hierarchy_no_trailing u :
  uri_wf u → ends_with_byte 47 (join_with 47 (uri_pieces u)) = false.
Proof.
  intros Hu. apply not_true_iff_false. intros [ws H]%ends_with_split.
  rewrite split_join in H by (done || by apply pieces_no_sep; [|left]).
  pose proof (pieces_plain u Hu) as Hp. rewrite H in Hp.
  apply Forall_app in Hp as [_ [[? _] _]%Forall_cons]. done.
Qed.

(** The parser on the pieces of a well-formed name. *)
Lemma uri_hierarchy_split u q :
  uri_wf u →
  match split_once 63 (join_with 47 (uri_pieces u) ++ query_suffix q) with
  | Some (hierarchy, query) => (hierarchy, Some query)
  | None => (join_with 47 (uri_pieces u) ++ query_suffix q, None)
  end = (join_with 47 (uri_pieces u), q).
Proof.
  intros Hu. assert (63 ∉ join_with 47 (uri_pieces u)) as Habs.
  { intros Hin. assert (Forall (λ b, b ≠ 63) (join_with 47 (uri_pieces u))) as H.
    { apply join_with_Forall; [done|]. eapply Forall_impl.
      - apply (pieces_no_sep u 63 Hu). by right; left.
      - intros w Hw. apply Forall_forall. intros b Hb ->. done. }
    rewrite Forall_forall in H. by apply (H 63). }
  destruct q as [q|]; cbn [query_suffix].
  - by rewrite (proj2 (split_once_Some 63 _ _ q) (conj eq_refl Habs)).
  - rewrite app_nil_r. by rewrite (proj2 (split_once_None 63 _) Habs).
Qed.

(** Printing and parsing a well-formed name gives it back. *)
Lemma uri_parse_print u : uri_wf u → uri_from_str (uri_to_string u) = Ok u.
Proof.
  intros Hu. destruct (uri_wf_path_limits u Hu) as (Hn & Hb & Hlen).
  unfold uri_from_str. rewrite <-canonical_len_exact by (intros r Hr; by apply (uw_revision u Hu)).
  change MAX_URI_BYTES with 2048. destruct (2048 <? canonical_len u) eqn:E; split_bool; [lia|]. clear E.
  rewrite uri_text_allowed by done. cbn [mbind result_bind].
  rewrite uri_text_shape, (proj2 (strip_prefix_Some SCHEME _ _) eq_refl). cbn [ok_or mbind result_bind].
  rewrite uri_hierarchy_split by done. rewrite hierarchy_no_trailing by done.
  rewrite split_join by (done || by apply pieces_no_sep; [|left]).
  assert (length (uri_pieces u) = (5 + length (ru_path u))%nat) as Hl
    by (unfold uri_pieces; cbn; by rewrite length_fmap).
  rewrite Hl. destruct (Z.of_nat (5 + length (ru_path u)) <? 5) eqn:E; split_bool; [lia|]. clear E.
  replace (existsb _ (uri_pieces u)) with false.
  2:{ symmetry. apply existsb_false. eapply Forall_impl; [by apply pieces_plain|].
      intros w [Hw _]. by apply Z.eqb_neq, blen_0. }
  rewrite (component_eq (uri_pieces u) 0 _ eq_refl), (component_eq (uri_pieces u) 1 _ eq_refl),
    (component_eq (uri_pieces u) 2 _ eq_refl), (component_eq (uri_pieces u) 3 _ eq_refl),
    (component_eq (uri_pieces u) 4 _ eq_refl) by lia.
  rewrite (uw_authority u Hu). cbn [mbind result_bind]. rewrite (uw_tenant u Hu). cbn [mbind result_bind].
  rewrite (proj2 (subject_kind_from_str_Ok _ _) eq_refl). cbn [mbind result_bind].
  rewrite (uw_subject u Hu). cbn [mbind result_bind].
  rewrite (proj2 (collection_from_str_Ok _ _) eq_refl). cbn [mbind result_bind].
  change MAX_PATH_SEGMENTS with 32. change MAX_PATH_BYTES with 1024.
  destruct (32 <? _) eqn:E; split_bool; [lia|]. clear E.
  rewrite Nat2Z.id, <-Hl, stored_take by lia. rewrite Hl. unfold uri_pieces. cbn [skipn]. rewrite drop_0, sum_len_fmap.
  replace (Z.of_nat _ - 5) with (Z.of_nat (length (ru_path u))) by lia.
  fold (optional_path_bytes u). destruct (1024 <? optional_path_bytes u) eqn:E; split_bool; [lia|]. clear E.
  rewrite (proj2 (collect_results_Ok _ _ (ru_path u))).
  2:{ apply Forall2_fmap_l, Forall_Forall2_diag, (uw_path u Hu). }
  cbn [mbind result_bind]. rewrite parse_query_print by apply (uw_revision u Hu). cbn [mbind result_bind].
  destruct u as [a t [k i] c p r v]. cbn [ru_authority ru_tenant ru_subject ru_collection ru_path
    ru_revision ru_view sub_kind sub_id]. by rewrite (uw_limits _ Hu).
Qed.

(** What an accepted text is made of. *)
Lemma uri_from_str_inv s u :
  uri_from_str s = Ok u →
  ∃ hierarchy query a t k i c rest,
    s = SCHEME ++ hierarchy ++ query_suffix query ∧
    hierarchy = join_with 47 (a :: t :: k :: i :: c :: rest) ∧ (length rest ≤ 32)%nat ∧
    authority_new_prevalidated a = Ok (ru_authority u) ∧
    tenant_new_prevalidated t = Ok (ru_tenant u) ∧
    subject_kind_from_str k = Ok (sub_kind (ru_subject u)) ∧
    subject_id_new_prevalidated i = Ok (sub_id (ru_subject u)) ∧
    collection_from_str c = Ok (ru_collection u) ∧
    Forall2 (λ x y, path_segment_new_prevalidated x = Ok y) rest (ru_path u) ∧
    parse_query query = Ok (ru_revision u, ru_view u) ∧ validate_complete u = Ok tt.
Proof.
  unfold uri_from_str. intros H. inv_result. destruct x.
  match goal with H : strip_prefix _ _ = _ |- _ => apply strip_prefix_Some in H as -> end.
  destruct (match split_once 63 x0 with Some _ => _ | None => _ end) as [hierarchy query] eqn:Hq.
  assert (x0 = hierarchy ++ query_suffix query) as ->.
  { destruct (split_once 63 x0) as [[h q]|] eqn:E0; simplify_eq.
    - by apply split_once_Some in E0 as [-> _].
    - by rewrite app_nil_r. }
  pose proof (join_split 47 hierarchy) as Hj. clear Hq.
  destruct (split_on 47 hierarchy) as [|a [|t [|k [|i [|c rest]]]]] eqn:Es;
    inv_result; split_bool; cbn [length] in *; try lia.
  change MAX_PATH_SEGMENTS with 32 in *. assert (length rest ≤ 32)%nat by lia.
  destruct x5 as [revision view]. inv_result. subst u. destruct x5.
  rewrite Nat2Z.id in *. change (S (S (S (S (S (length rest)))))) with
    (length (a :: t :: k :: i :: c :: rest)) in *.
  match goal with H : collect_results _ _ = _ |- _ =>
    rewrite stored_take in H by (cbn [length]; lia); cbn [skipn] in H; rewrite drop_0 in H;
    apply collect_results_Ok in H end.
  repeat match goal with
  | H : context [component ?cs ?n] |- _ => erewrite (component_eq cs n) in H by (reflexivity || lia)
  end.
  exists hierarchy, query, a, t, k, i, c, rest. by split_and!.
Qed.

(** Every accepted text is the one the printer makes. *)
Lemma uri_print_parse s u : uri_from_str s = Ok u → uri_to_string u = s ∧ uri_wf u.
Proof.
  intros (hierarchy & query & a & t & k & i & c & rest & -> & -> & Hn & Ha & Ht & Hk & Hi & Hc & Hr &
    Hq & Hv)%uri_from_str_inv.
  apply parse_query_sound in Hq as [-> Hrev].
  pose proof (authority_plain _ _ Ha) as [_ Ea]. pose proof (tenant_plain _ _ Ht) as [_ Et].
  pose proof (subject_id_plain _ _ Hi) as [_ Ei].
  apply subject_kind_from_str_Ok in Hk as Ek. apply collection_from_str_Ok in Hc as Ec. subst.
  assert (rest = ps_text <$> ru_path u ∧ Forall (λ s, path_segment_new_prevalidated (ps_text s) = Ok s) (ru_path u))
    as [-> Hp].
  { clear - Hr. induction Hr as [|x y l l' Hx _ [-> IH]]; [done|].
    pose proof (path_segment_plain _ _ Hx) as [_ <-]. split; [done|by constructor]. }
  split; [by rewrite uri_text_shape|]. by split.
Qed.

(** C21: Parsing inverts printing and nothing else is accepted: a text parses to
    a name exactly when the name is well formed and the text is the one the
    printer makes for it.  So no two texts name the same object and no two
    well-formed names share a text. *)
Theorem uri_from_str_exact s u : uri_from_str s = Ok u ↔ uri_wf u ∧ uri_to_string u = s.
Proof.
  split.
  - intros H%uri_print_parse. tauto.
  - intros [Hu <-]. by apply uri_parse_print.
Qed.

Lemma uri_to_string_inj u u' : uri_wf u → uri_wf u' → uri_to_string u = uri_to_string u' → u = u'.
Proof.
  intros Hu Hu' E. pose proof (uri_parse_print u Hu) as H. rewrite E, uri_parse_print in H by done.
  by injection H.
Qed.

(* ------------------------------------------------------------------ *)
(** ** Constructors keep names well formed *)

(** What the public constructors establish: a component that was accepted, with
    or without the scan, is accepted again. *)
Lemma authority_new_wf w a :
  authority_new w = Ok a → authority_new_prevalidated (au_text a) = Ok a.
Proof.
  intros H. apply bind_Ok in H as (? & _ & H). by pose proof (authority_plain _ _ H) as [_ ->].
Qed.
Lemma tenant_new_wf w a : tenant_new w = Ok a → tenant_new_prevalidated (tn_text a) = Ok a.
Proof.
  intros H. apply bind_Ok in H as (? & _ & H). by pose proof (tenant_plain _ _ H) as [_ ->].
Qed.
Lemma subject_id_new_wf w a :
  subject_id_new w = Ok a → subject_id_new_prevalidated (sj_text a) = Ok a.
Proof.
  intros H. apply bind_Ok in H as (? & _ & H). by pose proof (subject_id_plain _ _ H) as [_ ->].
Qed.
Lemma path_segment_new_wf w a :
  path_segment_new w = Ok a → path_segment_new_prevalidated (ps_text a) = Ok a.
Proof.
  intros H. apply bind_Ok in H as (? & _ & H). by pose proof (path_segment_plain _ _ H) as [_ ->].
Qed.

Lemma scan_after {A} (f : list Z → result UriError A) w a :
  (∀ a, f w = Ok a → plain w) → f w = Ok a → (_ ← reject_forbidden_octets w; f w) = Ok a.
Proof.
  intros Hf H. rewrite (proj2 (reject_forbidden_Ok w)); [done|]. by eapply plain_allowed, Hf.
Qed.

(** Leaving the scan out accepts nothing more: each component constructor and
    its prevalidated variant accept the same texts. *)
Theorem prevalidated_equiv w :
  (∀ a, authority_new w = Ok a ↔ authority_new_prevalidated w = Ok a) ∧
  (∀ a, tenant_new w = Ok a ↔ tenant_new_prevalidated w = Ok a) ∧
  (∀ a, subject_id_new w = Ok a ↔ subject_id_new_prevalidated w = Ok a) ∧
  (∀ a, path_segment_new w = Ok a ↔ path_segment_new_prevalidated w = Ok a).
Proof.
  split_and!; intros a; (split; [by intros (? & _ & ?)%bind_Ok|apply scan_after]; intros b).
  - by intros [? _]%authority_plain.
  - by intros [? _]%tenant_plain.
  - by intros [? _]%subject_id_plain.
  - by intros [? _]%path_segment_plain.
Qed.

Lemma builder_build_wf b u :
  authority_new_prevalidated (au_text (ub_authority b)) = Ok (ub_authority b) →
  tenant_new_prevalidated (tn_text (ub_tenant b)) = Ok (ub_tenant b) →
  subject_id_new_prevalidated (sj_text (sub_id (ub_subject b))) = Ok (sub_id (ub_subject b)) →
  Forall (λ s, path_segment_new_prevalidated (ps_text s) = Ok s) (ub_path b) →
  (∀ r, ub_revision b = Some r → rev_wf r) →
  builder_build b = Ok u → uri_wf u.
Proof. intros ????? H. unfold builder_build in H. inv_result. destruct x. subst. split; cbn; auto. Qed.

Lemma with_view_wf v u u' : uri_wf u → with_view v u = Ok u' → uri_wf u'.
Proof. intros [] H. unfold with_view in H. inv_result. destruct x. subst. split; cbn; auto. Qed.

(** A pinned name carries the revision of its name. *)
Definition pinned_wf (p : PinnedRuvUri) : Prop :=
  uri_wf (pn_uri p) ∧ ru_revision (pn_uri p) = Some (pn_revision p).

Lemma with_revision_wf r u p :
  uri_wf u → rev_wf r → with_revision r u = Ok p →
  pinned_wf p ∧ pn_uri p = set_ru_revision r u ∧ pn_revision p = r.
Proof.
  intros [] Hr H. unfold with_revision in H. inv_result. destruct x. subst.
  split_and!; try done. split; [|done]. split; try done. by intros ? [= <-].
Qed.

Lemma pinned_try_from_wf u p :
  uri_wf u → pinned_try_from u = Ok p → pinned_wf p ∧ pn_uri p = u.
Proof.
  intros Hu H. unfold pinned_try_from in H. inv_result. subst. done.
Qed.

(** A pinned text is a text of a name with a revision; without one the parser
    asks for it. *)
Lemma pinned_from_str_exact s u :
  uri_from_str s = Ok u →
  pinned_from_str s =
    match ru_revision u with Some r => Ok (mkPinnedRuvUri u r) | None => Err RevisionRequired end.
Proof. intros H. unfold pinned_from_str, pinned_try_from. rewrite H. cbn [mbind result_bind]. by destruct (ru_revision u). Qed.
