(* ===== verification/ContextProfile.v ===== *)
(** Progressive views bound to an RVF: [crates/rvm-context/src/profile.rs].

    A profile segment maps the abstract, overview and content views to segments
    of the same container by identifier and SHA-256.  The file proves the codec
    lossless and that a bound view is the segment the profile names, in a
    container with the pinned identity. *)

From stdpp Require Import base numbers list option strings sets sorting.
From Stdlib Require Import ZArith Lia.
From S2P Require Import Prelude.
From S2P Require Import Text.
From S2P Require Import Bytes.
From S2P Require Import Sorting.
From S2P Require Import Types.
From S2P Require Import WitnessLog.
From S2P Require Import Security.
From S2P Require Import Signers.
From S2P Require Import RvfFormat.
From S2P Require Import RvfPayload.
From S2P Require Import RvfCapability.
From S2P Require Import RvfVerify.
From S2P Require Import ContextUri.

Definition CONTEXT_PROFILE_MAGIC : list Z := lit "RUVC".
Definition CONTEXT_PROFILE_VERSION : Z := 1.
Definition MAX_CONTEXT_RVF_BYTES : Z := 16777216.
Definition HEADER_SIZE : nat := 8.
Definition VIEW_RECORD_SIZE : nat := 204.
Definition MAX_VIEWS : nat := 3.

Inductive ProfileTrust : Set := TrustedSignature | PinnedIdentity.
#[export] Instance ProfileTrust_eq_dec : EqDecision ProfileTrust.
Proof. solve_decision. Defined.

(** The texts of [Encoding] are an enumeration here. *)
Inductive EncodingError : Set :=
| WrongMagic | WrongVersion | ReservedHeader | WrongCount | Noncanonical | MalformedView | UnknownView
| AbsentProvenance | ProvenanceFlag.
Inductive ContextProfileError : Set :=
| PeEncoding (e : EncodingError) | PeContentViewRequired | PeDuplicateView | PeDuplicateSegment
| PeInvalidProvenance | PeZeroDigest | PeUnverifiedRvf | PeIdentityMismatch | PeProfileSegment
| PeUntrustedProfile | PeViewSegment | PeViewDigestMismatch | PeInvalidRvf | PeRvfTooLarge.

Record DerivedView : Set := mkDerivedView {
  dvw_source : Revision; dvw_generator : Revision; dvw_model : Revision; dvw_prompt : Revision;
  dvw_policy : Revision;
}.
Record ProfileView : Set := mkProfileView {
  pvw_view : ProgressiveView;
  pvw_segment_id : Z;
  pvw_payload : Revision;
  pvw_derived : option DerivedView;
}.
Record ContextProfile : Set := mkContextProfile { cp_views : list ProfileView }.

Definition rev_is_zero (r : Revision) : bool := forallb (λ b, b =? 0) (rev_bytes r).

Definition derived_digests (d : DerivedView) : list Revision :=
  [dvw_source d; dvw_generator d; dvw_model d; dvw_prompt d; dvw_policy d].

Definition derived_view_new (source generator model prompt policy : Revision)
    : result ContextProfileError DerivedView :=
  let d := mkDerivedView source generator model prompt policy in
  if existsb rev_is_zero (derived_digests d) then Err PeZeroDigest else Ok d.

Definition profile_view_content (segment_id : Z) (payload : Revision) : result ContextProfileError ProfileView :=
  if segment_id =? 0 then Err PeViewSegment
  else if rev_is_zero payload then Err PeZeroDigest
  else Ok (mkProfileView PvContent segment_id payload None).
Definition profile_view_derived (view : ProgressiveView) (segment_id : Z) (payload : Revision)
    (derived : DerivedView) : result ContextProfileError ProfileView :=
  if bool_decide (view = PvContent) || (segment_id =? 0) then Err PeInvalidProvenance
  else if rev_is_zero payload then Err PeZeroDigest
  else Ok (mkProfileView view segment_id payload (Some derived)).

Definition view_code (v : ProgressiveView) : Z :=
  match v with PvAbstract => 0 | PvOverview => 1 | PvContent => 2 end.

(** [for pair in views.windows(2)]. *)
Fixpoint adjacent_equal (views : list ProfileView) : bool :=
  match views with
  | v :: ((w :: _) as views') => bool_decide (pvw_view v = pvw_view w) || adjacent_equal views'
  | _ => false
  end.

(** The first loop, with the segments seen so far. *)
Fixpoint check_segments (seen : list Z) (views : list ProfileView) : result ContextProfileError unit :=
  match views with
  | [] => Ok tt
  | v :: views =>
      if (pvw_segment_id v =? 0) || rev_is_zero (pvw_payload v) then Err PeViewSegment
      else if bool_decide (pvw_segment_id v ∈ seen) then Err PeDuplicateSegment
      else check_segments (seen ++ [pvw_segment_id v]) views
  end.

Fixpoint check_provenance (content : ProfileView) (views : list ProfileView) : result ContextProfileError unit :=
  match views with
  | [] => Ok tt
  | v :: views =>
      if bool_decide (pvw_view v = PvContent) then check_provenance content views
      else
        match pvw_derived v with
        | None => Err PeInvalidProvenance
        | Some d =>
            if existsb rev_is_zero (derived_digests d) then Err PeZeroDigest
            else if negb (bool_decide (dvw_source d = pvw_payload content)) then Err PeInvalidProvenance
            else check_provenance content views
        end
  end.

Definition is_content (v : ProfileView) : bool := bool_decide (pvw_view v = PvContent).

Definition context_profile_new (views : list ProfileView) : result ContextProfileError ContextProfile :=
  if bool_decide (views = []) || (MAX_VIEWS <? length views)%nat then Err PeContentViewRequired
  else
    let views := sort_by (cmp_by (λ v, view_code (pvw_view v)) Z.compare) views in
    if adjacent_equal views then Err PeDuplicateView
    else
      _ ← check_segments [] views;
      content ← ok_or (find_by is_content views) PeContentViewRequired;
      if is_some (pvw_derived content) then Err PeInvalidProvenance
      else
        _ ← check_provenance content views;
        Ok (mkContextProfile views).

Definition profile_view (requested : ProgressiveView) (p : ContextProfile) : option ProfileView :=
  find_by (λ v, bool_decide (pvw_view v = requested)) (cp_views p).

(* ------------------------------------------------------------------ *)
(** ** The codec *)

Definition encode_view (v : ProfileView) : list Z :=
  [view_code (pvw_view v)] ++ [if is_some (pvw_derived v) then 1 else 0] ++ replicate 2 0 ++
  le_bytes 8 (pvw_segment_id v) ++ rev_bytes (pvw_payload v) ++
  match pvw_derived v with
  | Some d => concat (rev_bytes <$> derived_digests d)
  | None => replicate 160 0
  end.

Definition profile_to_bytes (p : ContextProfile) : list Z :=
  CONTEXT_PROFILE_MAGIC ++ [CONTEXT_PROFILE_VERSION] ++
  [if (length (cp_views p) <? 256)%nat then Z.of_nat (length (cp_views p)) else 0] ++ replicate 2 0 ++
  concat (encode_view <$> cp_views p).

Definition array32 (data : list Z) (offset : nat) : Revision := mkRevision (slice offset 32 data).

Definition view_of_code (b : Z) : option ProgressiveView :=
  if b =? 0 then Some PvAbstract else if b =? 1 then Some PvOverview
  else if b =? 2 then Some PvContent else None.

Definition decode_view (data : list Z) : result ContextProfileError ProfileView :=
  if negb (length data =? VIEW_RECORD_SIZE)%nat || negb (bool_decide (slice 2 2 data = replicate 2 0))
  then Err (PeEncoding MalformedView)
  else
    match view_of_code (format_byte_at data 0) with
    | None => Err (PeEncoding UnknownView)
    | Some view =>
        let segment_id := read_le 4 8 data in
        let payload := array32 data 12 in
        let flag := format_byte_at data 1 in
        if flag =? 0 then
          if existsb (λ b, negb (b =? 0)) (drop 44 data) then Err (PeEncoding AbsentProvenance)
          else Ok (mkProfileView view segment_id payload None)
        else if flag =? 1 then
          d ← derived_view_new (array32 data 44) (array32 data 76) (array32 data 108) (array32 data 140)
                (array32 data 172);
          Ok (mkProfileView view segment_id payload (Some d))
        else Err (PeEncoding ProvenanceFlag)
    end.

Definition profile_from_bytes (data : list Z) : result ContextProfileError ContextProfile :=
  if (length data <? HEADER_SIZE)%nat || negb (bool_decide (take 4 data = CONTEXT_PROFILE_MAGIC))
  then Err (PeEncoding WrongMagic)
  else if negb (format_byte_at data 4 =? CONTEXT_PROFILE_VERSION) then Err (PeEncoding WrongVersion)
  else if negb (bool_decide (slice 6 2 data = replicate 2 0)) then Err (PeEncoding ReservedHeader)
  else
    let count := Z.to_nat (format_byte_at data 5) in
    if (count =? 0)%nat || (MAX_VIEWS <? count)%nat ||
       negb (length data =? HEADER_SIZE + count * VIEW_RECORD_SIZE)%nat
    then Err (PeEncoding WrongCount)
    else
      views ← collect_results
        (λ index, decode_view (slice (HEADER_SIZE + index * VIEW_RECORD_SIZE) VIEW_RECORD_SIZE data)) (seq 0 count);
      p ← context_profile_new views;
      if negb (bool_decide (profile_to_bytes p = data)) then Err (PeEncoding Noncanonical) else Ok p.

(* ------------------------------------------------------------------ *)
(** ** Binding *)

Record BoundSegment : Set := mkBoundSegment {
  bs_view : ProgressiveView; bs_segment_type : Z; bs_start : nat; bs_end : nat;
}.
Record VerifiedContextProfile : Set := mkVerifiedContextProfile {
  vp_rvf_identity : Revision;
  vp_profile : ContextProfile;
  vp_segments : list BoundSegment;
}.

Section binding.
Context `{!BitflagsUnion, !Sha256, !SegmentHashes, !ConstantTimeEq, !Ed25519}.

Definition bind_view (data : list Z) (segments : list ParsedSegment) (view : ProfileView)
    : result ContextProfileError BoundSegment :=
  match filter (λ s, (sh_segment_id (ps_header s) =? pvw_segment_id view) = true) segments with
  | [] => Err PeViewSegment
  | s :: rest =>
      if negb (bool_decide (rest = [])) || (sh_seg_type (ps_header s) =? SEG_TYPE_PROFILE) ||
         negb (sh_compression (ps_header s) =? 0)
      then Err PeViewSegment
      else if negb (is_content view) && header_is_executable (ps_header s) then Err PeViewSegment
      else if negb (bool_decide (sha256 (segment_payload s data) = rev_bytes (pvw_payload view)))
      then Err PeViewDigestMismatch
      else Ok (mkBoundSegment (pvw_view view) (sh_seg_type (ps_header s)) (ps_payload_range s).1
                 (ps_payload_range s).2)
  end.

Definition signature_passed (report : VerificationReport) (s : ParsedSegment) : bool :=
  header_is_signed (ps_header s) &&
  existsb (λ r, bool_decide (vr_check r = CkSignature) && bool_decide (vr_outcome r = OutPass) &&
                bool_decide (vr_segment_index r = Some (ps_index s)) &&
                bool_decide (vr_segment_id r = Some (sh_segment_id (ps_header s)))) (rp_records report).

Definition bind_verified (data : list Z) (report : VerificationReport) (expected_identity : Revision)
    (trust : ProfileTrust) : result ContextProfileError VerifiedContextProfile :=
  let actual := sha256 data in
  if negb (bool_decide (actual = rp_rvf_identity report)) || negb (bool_decide (actual = rev_bytes expected_identity))
  then Err PeIdentityMismatch
  else if negb (admissible report) then Err PeUnverifiedRvf
  else
    segments ← map_err (λ _, PeInvalidRvf) (walk data);
    match filter (λ s, (sh_seg_type (ps_header s) =? SEG_TYPE_PROFILE) = true) segments with
    | [] => Err PeProfileSegment
    | profile_segment :: rest =>
        if negb (bool_decide (rest = [])) || header_is_encrypted (ps_header profile_segment) ||
           negb (sh_compression (ps_header profile_segment) =? 0)
        then Err PeProfileSegment
        else if bool_decide (trust = TrustedSignature) && negb (signature_passed report profile_segment)
        then Err PeUntrustedProfile
        else
          profile ← profile_from_bytes (segment_payload profile_segment data);
          bound ← collect_results (bind_view data segments) (cp_views profile);
          Ok (mkVerifiedContextProfile expected_identity profile bound)
    end.

(** The options a profile is verified under. *)
Definition profile_options (expected_identity : Revision) (trust : ProfileTrust) (trusted_keys : list (list Z))
    : VerifyOptions :=
  let o := expect_identity (rev_bytes expected_identity) (with_trusted_keys trusted_keys) in
  mkVerifyOptions (vo_trusted_keys o)
    (if bool_decide (trust = PinnedIdentity) then true else vo_allow_unsigned_executable o)
    (vo_expected_identity o) (vo_size_policy o) (vo_permit_buffered_stream_profile o)
    (vo_require_pinned_identity o).

Definition from_rvf (data : list Z) (expected_identity : Revision) (trust : ProfileTrust)
    (trusted_keys : list (list Z)) : result ContextProfileError VerifiedContextProfile :=
  if MAX_CONTEXT_RVF_BYTES <? Z.of_nat (length data) then Err PeRvfTooLarge
  else
    report ← map_err (λ _, PeInvalidRvf) (verify data (profile_options expected_identity trust trusted_keys));
    bind_verified data report expected_identity trust.

Definition find_bound (view : ProgressiveView) (p : VerifiedContextProfile) : option BoundSegment :=
  find_by (λ s, bool_decide (bs_view s = view)) (vp_segments p).
Definition view_is_executable (view : ProgressiveView) (p : VerifiedContextProfile) : bool :=
  is_some_and (λ s, type_is_executable (bs_segment_type s)) (find_bound view p).

(** [data.get(start..end)] is [None] when the range is inverted or beyond the end. *)
Definition view_payload (data : list Z) (view : ProgressiveView) (p : VerifiedContextProfile)
    : result ContextProfileError (list Z) :=
  if negb (bool_decide (sha256 data = rev_bytes (vp_rvf_identity p))) then Err PeIdentityMismatch
  else
    s ← ok_or (find_bound view p) PeViewSegment;
    if (bs_end s <? bs_start s)%nat || (length data <? bs_end s)%nat then Err PeViewSegment
    else Ok (slice (bs_start s) (bs_end s - bs_start s) data).
End binding.

(* ------------------------------------------------------------------ *)
(** ** What a validated profile is *)

Definition view_cmp : ProfileView → ProfileView → comparison :=
  cmp_by (λ v, view_code (pvw_view v)) Z.compare.
Definition view_before (v w : ProfileView) : Prop := view_code (pvw_view v) < view_code (pvw_view w).

(** A derived view carries nonzero digests and names the content it summarizes. *)
Definition provenance_ok (content v : ProfileView) : Prop :=
  pvw_view v = PvContent ∨
  ∃ d, pvw_derived v = Some d ∧ Forall (λ r, rev_is_zero r = false) (derived_digests d) ∧
       dvw_source d = pvw_payload content.

Record views_valid (views : list ProfileView) : Prop := {
  vv_count : (1 ≤ length views ≤ MAX_VIEWS)%nat;
  vv_order : StronglySorted view_before views;
  vv_ids : NoDup (pvw_segment_id <$> views);
  vv_nonzero : Forall (λ v, pvw_segment_id v ≠ 0 ∧ rev_is_zero (pvw_payload v) = false) views;
  vv_content : ∃ content, content ∈ views ∧ pvw_view content = PvContent ∧ pvw_derived content = None ∧
    Forall (provenance_ok content) views;
}.

Lemma view_code_inj v w : view_code v = view_code w → v = w.
Proof. by destruct v, w. Qed.

Lemma check_segments_Ok views : ∀ seen,
  check_segments seen views = Ok tt ↔
  Forall (λ v, pvw_segment_id v ≠ 0 ∧ rev_is_zero (pvw_payload v) = false) views ∧
  NoDup (pvw_segment_id <$> views) ∧ ∀ v, v ∈ views → pvw_segment_id v ∉ seen.
Proof.
  induction views as [|v views IH]; intros seen; cbn [check_segments fmap list_fmap].
  { split; [|done]. intros _. split_and!; [constructor|constructor|]. by intros v ?%not_elem_of_nil. }
  rewrite Forall_cons, NoDup_cons. setoid_rewrite elem_of_cons.
  destruct (pvw_segment_id v =? 0) eqn:E1, (rev_is_zero (pvw_payload v)) eqn:E2; cbn [orb]; split_bool;
    try (split; [done|]; naive_solver).
  case_bool_decide as Ed.
  - split; [done|]. intros (_ & _ & H). exfalso. by apply (H v); [left|].
  - rewrite IH. split.
    + intros (H1 & H2 & H3). split_and!; [done|done|done| |done|].
      * intros (w & Hw & Hin)%list_elem_of_fmap. apply (H3 w Hin). rewrite <-Hw. set_solver.
      * intros w [->|Hw]; [done|]. specialize (H3 w Hw). set_solver.
    + intros ([_ H1] & [Hn H2] & H3). split; [done|]. split; [done|]. intros w Hw.
      apply not_elem_of_app. split; [by apply H3; right|]. intros Hx%list_elem_of_singleton. apply Hn.
      apply list_elem_of_fmap. by exists w.
Qed.

Lemma check_provenance_Ok content views :
  check_provenance content views = Ok tt ↔ Forall (provenance_ok content) views.
Proof.
  induction views as [|v views IH]; cbn [check_provenance]; [by split; [constructor|]|].
  rewrite Forall_cons. unfold provenance_ok at 1. case_bool_decide as Ev; [rewrite IH; naive_solver|].
  destruct (pvw_derived v) as [d|]; [|naive_solver].
  destruct (existsb rev_is_zero (derived_digests d)) eqn:Ez.
  - split; [done|]. intros [[?|(d' & [= <-] & H & _)] _]; [done|].
    apply existsb_false in H. congruence.
  - apply existsb_false in Ez. case_bool_decide as Es; cbn [negb]; [rewrite IH; naive_solver|].
    split; [done|]. intros [[?|(d' & [= <-] & _ & H)] _]; done.
Qed.

Lemma adjacent_equal_sorted views :
  StronglySorted (cmp_le view_cmp) views → adjacent_equal views = false → StronglySorted view_before views.
Proof.
  intros Hs. induction Hs as [|v views Hs IH Hf]; intros H; [constructor|].
  destruct views as [|w views]; [by repeat constructor|]. cbn [adjacent_equal] in H. split_bool.
  assert (StronglySorted view_before (w :: views)) as Hs' by by apply IH.
  constructor; [done|]. apply Forall_cons in Hf as [Hvw _].
  assert (view_before v w) as Hvw'.
  { unfold cmp_le, view_cmp, cmp_by in Hvw. unfold view_before. rewrite Z.compare_le_iff in Hvw.
    assert (view_code (pvw_view v) ≠ view_code (pvw_view w)) by (intros ?%view_code_inj; done). lia. }
  apply StronglySorted_inv in Hs' as [_ Hw]. constructor; [done|].
  eapply Forall_impl; [exact Hw|]. unfold view_before in *. intros x Hx. cbn in *. lia.
Qed.

Lemma strict_sorted_le views : StronglySorted view_before views → StronglySorted (cmp_le view_cmp) views.
Proof.
  induction 1 as [|v views Hs IH Hf]; constructor; [done|]. eapply Forall_impl; [exact Hf|].
  intros w Hw. unfold cmp_le, view_cmp, cmp_by, view_before in *. rewrite Z.compare_le_iff. lia.
Qed.

Lemma strict_adjacent views : StronglySorted view_before views → adjacent_equal views = false.
Proof.
  induction 1 as [|v views Hs IH Hf]; [done|]. destruct views as [|w views]; [done|].
  change (bool_decide (pvw_view v = pvw_view w) || adjacent_equal (w :: views) = false).
  rewrite IH, orb_false_r. apply Forall_cons in Hf as [Hvw _].
  apply bool_decide_eq_false. unfold view_before in Hvw. intros E. rewrite E in Hvw. lia.
Qed.

(** The content view of a list without repetitions is unique. *)
Lemma strict_content views v w :
  StronglySorted view_before views → v ∈ views → w ∈ views → pvw_view v = pvw_view w → v = w.
Proof.
  induction 1 as [|x views Hs IH Hf]; [by intros ?%not_elem_of_nil|].
  rewrite Forall_forall in Hf. unfold view_before in Hf.
  intros [->|Hv]%elem_of_cons [->|Hw]%elem_of_cons E; [done| | |by apply IH].
  - specialize (Hf w Hw). rewrite E in Hf. lia.
  - specialize (Hf v Hv). rewrite E in Hf. lia.
Qed.

(** [ContextProfile::new] accepts exactly the lists whose views are valid once
    put in order. *)
Lemma context_profile_new_Ok views p :
  context_profile_new views = Ok p ↔ views_valid (cp_views p) ∧ cp_views p = sort_by view_cmp views.
Proof.
  unfold context_profile_new. fold view_cmp. set (l := sort_by view_cmp views).
  assert (length l = length views) as Hlen by (apply Permutation_length, sort_by_Permutation).
  pose proof (sort_by_sorted view_cmp views) as Hs. fold l in Hs. split.
  - intros H. apply guard_Ok in H as [Hc H]. split_bool. apply guard_Ok in H as [Ha H].
    apply bind_Ok in H as ([] & Hseg & H). apply bind_Ok in H as (content & Hcon & H). apply ok_or_Ok in Hcon.
    apply guard_Ok in H as [Hd H]. apply bind_Ok in H as ([] & Hprov & H). injection H as <-.
    split; [|done]. cbn [cp_views]. apply check_segments_Ok in Hseg as (Hz & Hnd & _).
    apply find_by_Some in Hcon as [Hcv (i & Hi)]. unfold is_content in Hcv. split_bool.
    split; try done.
    + rewrite Hlen. split; [|lia]. destruct views; [done|]. cbn. lia.
    + by apply adjacent_equal_sorted.
    + exists content. split_and!; [by eapply list_elem_of_lookup_2|done|by destruct (pvw_derived content)|].
      by apply check_provenance_Ok.
  - intros [[Hc Ho Hi Hn (content & Hin & Hcv & Hcd & Hp)] E]. rewrite E in *.
    assert (views ≠ []) as Hne by (intros ->; cbn in Hc; lia).
    rewrite bool_decide_false, (proj2 (Nat.ltb_ge _ _)) by (done || lia). cbn [orb].
    rewrite (strict_adjacent l Ho). cbn [cp_views].
    rewrite (proj2 (check_segments_Ok l [])). 2:{ split_and!; [done|done|]. intros; apply not_elem_of_nil. }
    cbn [mbind result_bind].
    assert (find_by is_content l = Some content) as ->.
    { destruct (find_by is_content l) as [w|] eqn:Ef.
      - apply find_by_Some in Ef as [Ew (i & Hw)]. unfold is_content in Ew. split_bool. f_equal.
        apply (strict_content l); [done|by eapply list_elem_of_lookup_2|done|congruence].
      - apply list_elem_of_lookup in Hin as [i Hl]. pose proof (proj1 (find_by_None _ _) Ef i content Hl) as Hf.
        unfold is_content in Hf. by split_bool. }
    cbn [ok_or mbind result_bind]. rewrite Hcd. cbn [is_some].
    rewrite (proj2 (check_provenance_Ok content l) Hp). cbn [mbind result_bind]. destruct p as [vs].
    cbn in E. by rewrite E.
Qed.

(* ------------------------------------------------------------------ *)
(** ** The codec is exact *)

(** What the 204 bytes of a record can carry. *)
Definition view_codable (v : ProfileView) : Prop :=
  is_u64 (pvw_segment_id v) ∧ rev_wf (pvw_payload v) ∧
  match pvw_derived v with
  | Some d => Forall rev_wf (derived_digests d) ∧ Forall (λ r, rev_is_zero r = false) (derived_digests d)
  | None => True
  end.

Lemma digests_length d : Forall rev_wf (derived_digests d) → length (concat (rev_bytes <$> derived_digests d)) = 160%nat.
Proof.
  destruct d as [a b c e f]. unfold derived_digests. cbn. rewrite !Forall_cons. unfold rev_wf.
  intros ([? _] & [? _] & [? _] & [? _] & [? _] & _). rewrite !length_app. cbn. lia.
Qed.

Lemma encode_view_length v : view_codable v → length (encode_view v) = VIEW_RECORD_SIZE.
Proof.
  intros (_ & [Hp _] & Hd). unfold encode_view, VIEW_RECORD_SIZE. rewrite !length_app, length_le_bytes, Hp.
  destruct (pvw_derived v) as [d|]; [destruct Hd as [Hd _]; rewrite (digests_length d Hd)|rewrite length_replicate]; done.
Qed.

Lemma view_of_code_code v : view_of_code (view_code v) = Some v.
Proof. by destruct v. Qed.

Lemma decode_encode_view v : view_codable v → decode_view (encode_view v) = Ok v.
Proof.
  intros Hv. pose proof (encode_view_length v Hv) as Hl. destruct Hv as (Hid & [Hp Hpb] & Hd).
  unfold decode_view. rewrite Hl. change (negb (VIEW_RECORD_SIZE =? VIEW_RECORD_SIZE)%nat) with false. cbn [orb].
  assert (slice 2 2 (encode_view v) = replicate 2 0) as Hz by (unfold encode_view; read_field).
  assert (slice 12 32 (encode_view v) = rev_bytes (pvw_payload v)) as Hpay by (unfold encode_view; read_field).
  assert (format_byte_at (encode_view v) 0 = view_code (pvw_view v)) as Hcode
    by (apply byte_at_slice; unfold encode_view; read_field).
  assert (format_byte_at (encode_view v) 1 = if is_some (pvw_derived v) then 1 else 0) as Hflag
    by (apply byte_at_slice; unfold encode_view; read_field).
  assert (read_le 4 8 (encode_view v) = pvw_segment_id v) as Hseg.
  { apply read_le_field; [unfold encode_view; read_field|]. unfold is_u64, u64_max in Hid. lia. }
  rewrite Hz, Hcode, Hflag, Hseg, view_of_code_code, bool_decide_true by done. cbn [negb].
  unfold array32. rewrite Hpay.
  destruct v as [view id payload [d|]]; cbn [is_some pvw_view pvw_segment_id pvw_payload pvw_derived] in *.
  - destruct Hd as [Hw Hnz]. destruct d as [a b c e f]. unfold derived_digests in *. cbn [dvw_source dvw_generator dvw_model dvw_prompt dvw_policy] in *.
    rewrite !Forall_cons in Hw. unfold rev_wf in Hw.
    destruct Hw as ([? _] & [? _] & [? _] & [? _] & [? _] & _).
    change (1 =? 0) with false. change (1 =? 1) with true. cbn match.
    assert (slice 44 32 (encode_view (mkProfileView view id payload (Some (mkDerivedView a b c e f)))) = rev_bytes a) as ->
      by (unfold encode_view; cbn [is_some pvw_view pvw_segment_id pvw_payload pvw_derived derived_digests fmap list_fmap concat]; read_field).
    assert (slice 76 32 (encode_view (mkProfileView view id payload (Some (mkDerivedView a b c e f)))) = rev_bytes b) as ->
      by (unfold encode_view; cbn [is_some pvw_view pvw_segment_id pvw_payload pvw_derived derived_digests fmap list_fmap concat]; read_field).
    assert (slice 108 32 (encode_view (mkProfileView view id payload (Some (mkDerivedView a b c e f)))) = rev_bytes c) as ->
      by (unfold encode_view; cbn [is_some pvw_view pvw_segment_id pvw_payload pvw_derived derived_digests fmap list_fmap concat]; read_field).
    assert (slice 140 32 (encode_view (mkProfileView view id payload (Some (mkDerivedView a b c e f)))) = rev_bytes e) as ->
      by (unfold encode_view; cbn [is_some pvw_view pvw_segment_id pvw_payload pvw_derived derived_digests fmap list_fmap concat]; read_field).
    assert (slice 172 32 (encode_view (mkProfileView view id payload (Some (mkDerivedView a b c e f)))) = rev_bytes f) as ->
      by (unfold encode_view; cbn [is_some pvw_view pvw_segment_id pvw_payload pvw_derived derived_digests fmap list_fmap concat]; read_field).
    unfold derived_view_new. rewrite (proj2 (existsb_false _ _)).
    + by destruct a, b, c, e, f, payload.
    + destruct a, b, c, e, f. exact Hnz.
  - change (0 =? 0) with true. cbn match.
    assert (drop 44 (encode_view (mkProfileView view id payload None)) = replicate 160 0) as ->.
    { unfold encode_view. cbn [is_some pvw_view pvw_segment_id pvw_payload pvw_derived]. rewrite !app_assoc.
      apply drop_app_length'. rewrite !length_app, length_le_bytes, Hp. done. }
    by destruct payload.
Qed.

Lemma decode_view_codable data v : Forall is_byte data → decode_view data = Ok v → view_codable v.
Proof.
  intros Hb H. unfold decode_view in H. apply guard_Ok in H as [Hl H]. split_bool.
  assert (∀ off, (off + 32 ≤ 204)%nat → rev_wf (array32 data off)) as Hr.
  { intros off Ho. split; cbn; [apply slice_length; unfold VIEW_RECORD_SIZE in *; lia|by apply slice_bytes]. }
  assert (is_u64 (read_le 4 8 data)) as Hid.
  { pose proof (read_le_range 4 8 data Hb ltac:(unfold VIEW_RECORD_SIZE in *; lia)). unfold is_u64, u64_max. lia. }
  destruct (view_of_code (format_byte_at data 0)) as [view|]; [|done].
  destruct (format_byte_at data 1 =? 0).
  { apply guard_Ok in H as [_ H]. injection H as <-. split; [done|]. split; [apply Hr; lia|done]. }
  destruct (format_byte_at data 1 =? 1); [|done]. apply bind_Ok in H as (d & Hd & H). injection H as <-.
  unfold derived_view_new in Hd. apply guard_Ok in Hd as [Hz Hd]. injection Hd as <-.
  split; [done|]. split; [apply Hr; lia|]. cbn. split; [|by apply existsb_false].
  unfold derived_digests. cbn. rewrite !Forall_cons. split_and!; try apply Hr; lia || constructor.
Qed.

Lemma concat_record (records : list (list Z)) i r n :
  Forall (λ r, length r = n) records → records !! i = Some r → slice (i * n) n (concat records) = r.
Proof.
  intros H. revert i. induction H as [|r' records Hr H IH]; intros i Hi; [done|]. cbn [concat].
  destruct i as [|i]; cbn in Hi.
  - injection Hi as ->. by apply slice_here.
  - rewrite (slice_skip n) by (done || (apply Nat.leb_le; lia)).
    replace (S i * n - n)%nat with (i * n)%nat by lia. by apply IH.
Qed.

Definition profile_wf (p : ContextProfile) : Prop :=
  views_valid (cp_views p) ∧ Forall view_codable (cp_views p).

Lemma profile_header p :
  (length (cp_views p) ≤ MAX_VIEWS)%nat →
  profile_to_bytes p = [82; 85; 86; 67; 1; Z.of_nat (length (cp_views p)); 0; 0] ++ concat (encode_view <$> cp_views p).
Proof.
  intros H. unfold profile_to_bytes. rewrite (proj2 (Nat.ltb_lt _ _)) by (unfold MAX_VIEWS in H; lia). done.
Qed.

Lemma concat_length_uniform (records : list (list Z)) n :
  Forall (λ r, length r = n) records → length (concat records) = (length records * n)%nat.
Proof. induction 1 as [|r records Hr H IH]; cbn; [done|]. rewrite length_app. lia. Qed.

Lemma profile_codec_sound data p :
  Forall is_byte data → profile_from_bytes data = Ok p → profile_to_bytes p = data ∧ profile_wf p.
Proof.
  intros Hb H. unfold profile_from_bytes in H. do 4 apply guard_Ok in H as [_ H].
  apply bind_Ok in H as (views & Hviews & H). apply bind_Ok in H as (p' & Hp & H).
  apply guard_Ok in H as [Heq H]. injection H as ->. split_bool. split; [done|].
  apply context_profile_new_Ok in Hp as [Hv Hs]. split; [done|]. rewrite Hs, sort_by_Permutation.
  apply collect_results_Ok in Hviews. apply Forall_forall. intros v (i & Hi)%list_elem_of_lookup.
  destruct (Forall2_lookup_r _ _ _ _ _ Hviews Hi) as (k & _ & Hk).
  eapply decode_view_codable; [|exact Hk]. by apply slice_bytes.
Qed.

(** The profile codec is exact: a payload decodes to a profile precisely
    when it is the encoding of that profile and the profile is well formed: one
    to three views in abstract, overview, content order, distinct nonzero
    segments, nonzero digests, exactly one content view without provenance, and
    every derived view bound to the digest of the content. *)
Theorem profile_codec_exact data p :
  Forall is_byte data →
  profile_from_bytes data = Ok p ↔ profile_to_bytes p = data ∧ profile_wf p.
Proof.
  intros Hb. split; [by apply profile_codec_sound|].
  intros [<- [Hv Hc]]. pose proof (vv_count _ Hv) as Hn. rewrite profile_header by lia.
  assert (Forall (λ r, length r = VIEW_RECORD_SIZE) (encode_view <$> cp_views p)) as Hlen.
  { apply Forall_fmap. eapply Forall_impl; [exact Hc|]. intros v. apply encode_view_length. }
  pose proof (concat_length_uniform _ _ Hlen) as Htot. rewrite length_fmap in Htot.
  set (body := concat (encode_view <$> cp_views p)) in *. set (n := length (cp_views p)) in *.
  unfold profile_from_bytes.
  assert (length ([82; 85; 86; 67; 1; Z.of_nat n; 0; 0] ++ body) = (8 + n * VIEW_RECORD_SIZE)%nat) as Hl
    by (rewrite length_app, Htot; done).
  rewrite Hl. change (format_byte_at (_ ++ body) 4) with 1. change (format_byte_at (_ ++ body) 5) with (Z.of_nat n).
  change (slice 6 2 (_ ++ body)) with [0; 0]. change (take 4 (_ ++ body)) with CONTEXT_PROFILE_MAGIC.
  rewrite Nat2Z.id, bool_decide_true by done.
  rewrite (proj2 (Nat.ltb_ge _ _)) by (unfold HEADER_SIZE; lia). cbn [orb negb]. change (1 =? CONTEXT_PROFILE_VERSION) with true.
  change (bool_decide ([0; 0] = replicate 2 0)) with true. cbn [negb].
  rewrite (proj2 (Nat.eqb_neq n 0)), (proj2 (Nat.ltb_ge MAX_VIEWS n)) by lia.
  change (8 + n * VIEW_RECORD_SIZE)%nat with (HEADER_SIZE + n * VIEW_RECORD_SIZE)%nat. rewrite Nat.eqb_refl. cbn [orb negb].
  assert (collect_results (λ index, decode_view
      (slice (HEADER_SIZE + index * VIEW_RECORD_SIZE) VIEW_RECORD_SIZE ([82; 85; 86; 67; 1; Z.of_nat n; 0; 0] ++ body)))
      (seq 0 n) = Ok (cp_views p)) as ->.
  { apply collect_results_Ok. apply Forall2_same_length_lookup. split; [by rewrite length_seq|].
    intros i k v Hk Hvi. apply lookup_seq in Hk as [-> Hk]. cbn [Nat.add].
    rewrite (slice_skip 8) by (done || (apply Nat.leb_le; unfold HEADER_SIZE; lia)).
    replace (HEADER_SIZE + i * VIEW_RECORD_SIZE - 8)%nat with (i * VIEW_RECORD_SIZE)%nat by (unfold HEADER_SIZE; lia).
    unfold body. rewrite (concat_record _ i (encode_view v)); [|done|by rewrite list_lookup_fmap, Hvi].
    apply decode_encode_view. by apply (Forall_lookup_1 _ _ _ _ Hc Hvi). }
  cbn [mbind result_bind]. assert (context_profile_new (cp_views p) = Ok p) as ->.
  { apply context_profile_new_Ok. split; [done|]. symmetry. apply sort_by_id, strict_sorted_le, (vv_order _ Hv). }
  cbn [mbind result_bind]. rewrite profile_header, bool_decide_true by (done || lia). done.
Qed.

(* ------------------------------------------------------------------ *)
(** ** A bound view is authentic *)

Section authenticity.
Context {BU : BitflagsUnion} {SH : Sha256} {HS : SegmentHashes} {CT : ConstantTimeEq}
  {CL : ConstantTimeEqLaws} {ED : Ed25519}.

Lemma map_err_Ok {E F A} (f : E → F) (m : result E A) a : map_err f m = Ok a ↔ m = Ok a.
Proof. destruct m; cbn; split; congruence. Qed.

(** The segment a view is bound to. *)
Record bound_to (data : list Z) (segs : list ParsedSegment) (pv : ProfileView) (s : ParsedSegment) : Prop := {
  bt_in : s ∈ segs;
  bt_unique : ∀ s', s' ∈ segs → sh_segment_id (ps_header s') = pvw_segment_id pv → s' = s;
  bt_id : sh_segment_id (ps_header s) = pvw_segment_id pv;
  bt_digest : sha256 (segment_payload s data) = rev_bytes (pvw_payload pv);
  bt_plain : sh_compression (ps_header s) = 0 ∧ sh_seg_type (ps_header s) ≠ SEG_TYPE_PROFILE;
  bt_inert : pvw_view pv ≠ PvContent → segment_is_executable s = false;
}.

Lemma filter_singleton {A} (P : A → bool) (l : list A) x :
  filter (λ y, P y = true) l = [x] → x ∈ l ∧ P x = true ∧ ∀ y, y ∈ l → P y = true → y = x.
Proof.
  intros H. assert (∀ y, y ∈ l ∧ P y = true ↔ y = x) as Hy.
  { intros y. rewrite <-(list_elem_of_singleton y x), <-H, list_elem_of_filter. tauto. }
  split_and!; [by apply Hy|by apply Hy|]. intros y ? ?. by apply Hy.
Qed.

Lemma bind_view_Ok data segs pv b :
  bind_view data segs pv = Ok b →
  ∃ s, bound_to data segs pv s ∧
    b = mkBoundSegment (pvw_view pv) (sh_seg_type (ps_header s)) (ps_payload_range s).1 (ps_payload_range s).2.
Proof.
  unfold bind_view. destruct (filter _ segs) as [|s rest] eqn:Ef; [done|]. intros H.
  apply guard_Ok in H as [H1 H]. apply guard_Ok in H as [H2 H]. apply guard_Ok in H as [H3 H]. injection H as <-.
  split_bool. subst rest. apply (filter_singleton (λ s, sh_segment_id (ps_header s) =? pvw_segment_id pv)) in Ef as (Hin & Hid & Hu).
  split_bool. exists s. split; [|done]. split; try done.
  - intros s' Hs' E. apply Hu; [done|]. by apply Z.eqb_eq.
  - intros Hv. unfold is_content in H2. rewrite bool_decide_false in H2 by done. done.
Qed.

Lemma from_rvf_Ok data id trust keys vp :
  from_rvf data id trust keys = Ok vp →
  ∃ report segs p, Z.of_nat (length data) ≤ MAX_CONTEXT_RVF_BYTES ∧
    verify data (profile_options id trust keys) = Ok report ∧ admissible report = true ∧
    sha256 data = rev_bytes id ∧ vp_rvf_identity vp = id ∧ walk data = Ok segs ∧
    p ∈ segs ∧ sh_seg_type (ps_header p) = SEG_TYPE_PROFILE ∧
    profile_from_bytes (segment_payload p data) = Ok (vp_profile vp) ∧
    (trust = TrustedSignature → signature_passed report p = true) ∧
    Forall2 (λ pv b, bind_view data segs pv = Ok b) (cp_views (vp_profile vp)) (vp_segments vp).
Proof.
  unfold from_rvf. intros H. apply guard_Ok in H as [Hl H]. split_bool.
  apply bind_Ok in H as (report & Hr & H). apply map_err_Ok in Hr. unfold bind_verified in H.
  apply guard_Ok in H as [H1 H]. apply guard_Ok in H as [H2 H].
  apply bind_Ok in H as (segs & Hw & H). apply map_err_Ok in Hw.
  destruct (filter _ segs) as [|p rest] eqn:Ef; [done|].
  apply guard_Ok in H as [H3 H]. apply guard_Ok in H as [H4 H].
  apply bind_Ok in H as (profile & Hp & H). apply bind_Ok in H as (bound & Hb & H). injection H as <-.
  apply orb_false_iff in H1 as [_ H1]. apply orb_false_iff in H3 as [H3 _]. apply orb_false_iff in H3 as [H3 _].
  split_bool. subst rest. apply (filter_singleton (λ s, sh_seg_type (ps_header s) =? SEG_TYPE_PROFILE)) in Ef as (Hin & Ht & _).
  split_bool. exists report, segs, p. cbn [vp_rvf_identity vp_profile vp_segments].
  split_and!; try done.
  - intros ->. rewrite bool_decide_true in H4 by done. by apply negb_false_iff in H4.
  - by apply collect_results_Ok.
Qed.

Lemma signature_passed_key data opts report segs p :
  Forall is_byte data → Z.of_nat (length data) ≤ u64_max →
  verify data opts = Ok report → walk data = Ok segs → p ∈ segs → signature_passed report p = true →
  ∃ r f key, ps_footer p = Some r ∧ decode_signature_footer (range_of r data) = Ok f ∧
    key ∈ vo_trusted_keys opts ∧
    ed_verify_strict key (build_signed_message (ps_header p) (segment_payload p data)) (sf_signature f) = true.
Proof.
  intros Hb Hs Hv Hw Hp H. unfold signature_passed in H. apply andb_true_iff in H as [_ H].
  apply existsb_exists in H as (rec & Hrec & H). split_bool. apply list_elem_of_In in Hrec.
  unfold verify in Hv. rewrite Hw in Hv. cbn [mbind result_bind] in Hv. apply Ok_inj in Hv as <-.
  apply signature_records_elem in Hrec as (s & facts & Hin & Hsg & ->); [|done].
  cbn [ri_segments ri_facts] in Hin. apply elem_of_zip_facts in Hin as [Hin ->].
  assert (s = p) as ->.
  { apply (walked_index_inj data segs); try done.
    assert (vr_segment_index (signature_record s (fa_sig (facts_from_buffer data s)) opts) = Some (ps_index s)) as Hi.
    { unfold signature_record. destruct (fa_sig _); [done|done|]. destruct (negb _ || negb _); [done|].
      by destruct (bool_decide _). }
    rewrite Hi in *. congruence. }
  match goal with H : vr_outcome _ = OutPass |- _ => apply signature_record_pass in H as (algo & len & bytes & message & key & Es & Hk & _ & Hver) end.
  cbn [facts_from_buffer fa_sig] in Es. rewrite Hsg in Es.
  destruct (ps_footer p) as [r|]; [|done]. cbn [mbind option_bind] in Es.
  destruct (decode_signature_footer (range_of r data)) as [f|] eqn:Ef; [|done].
  injection Es as <- <- Eb <-. destruct (_ =? 64)%nat; [|done]. injection Eb as <-. by exists r, f, key.
Qed.

Lemma view_payload_Ok data view vp bytes :
  view_payload data view vp = Ok bytes →
  ∃ k b, vp_segments vp !! k = Some b ∧ bs_view b = view ∧ bytes = slice (bs_start b) (bs_end b - bs_start b) data.
Proof.
  unfold view_payload. intros H. apply guard_Ok in H as [_ H]. apply bind_Ok in H as (b & Hb & H).
  apply ok_or_Ok in Hb. apply find_by_Some in Hb as [Hv (k & Hk)]. split_bool.
  apply guard_Ok in H as [_ H]. apply Ok_inj in H as <-. by exists k, b.
Qed.

(** The part that needs nothing of the bytes. *)
Lemma view_bound data id trust keys vp view bytes :
  from_rvf data id trust keys = Ok vp → view_payload data view vp = Ok bytes →
  sha256 data = rev_bytes id ∧
  ∃ segs pv s, walk data = Ok segs ∧ pv ∈ cp_views (vp_profile vp) ∧ pvw_view pv = view ∧ bound_to data segs pv s ∧
    bytes = segment_payload s data.
Proof.
  intros H Hview.
  apply from_rvf_Ok in H as (report & segs & p & Hl & Hv & Ha & Hid & Hvid & Hw & Hp & Ht & Hdec & Hsig & Hbound).
  apply view_payload_Ok in Hview as (k & b & Hk & Hbv & ->).
  destruct (Forall2_lookup_r _ _ _ _ _ Hbound Hk) as (pv & Hpv & Hbind).
  apply bind_view_Ok in Hbind as (s & Hbt & ->). cbn [bs_view bs_start bs_end] in *. subst view.
  split; [done|]. exists segs, pv, s. split_and!; try done. by eapply list_elem_of_lookup_2.
Qed.

(** A view read through a bound profile is authentic: the container has the
    pinned SHA-256 and is [loadable]; the bytes are the payload of the one
    segment the profile names for that view, with the SHA-256 the profile
    records; a derived view is never executable and carries provenance bound to
    the content's digest; and when a signature was asked for, the profile is the
    payload of a segment signed by a trusted key. *)
Theorem bound_view_authentic data id trust keys vp view bytes :
  Forall is_byte data → from_rvf data id trust keys = Ok vp → view_payload data view vp = Ok bytes →
  sha256 data = rev_bytes id ∧
  ∃ segs pv s,
    walk data = Ok segs ∧ loadable data (profile_options id trust keys) segs ∧
    pv ∈ cp_views (vp_profile vp) ∧ pvw_view pv = view ∧ bound_to data segs pv s ∧
    bytes = segment_payload s data ∧ sha256 bytes = rev_bytes (pvw_payload pv) ∧
    (view ≠ PvContent → ∃ d content, pvw_derived pv = Some d ∧ content ∈ cp_views (vp_profile vp) ∧
      pvw_view content = PvContent ∧ dvw_source d = pvw_payload content) ∧
    (trust = TrustedSignature → ∃ p r f key, p ∈ segs ∧
      segment_payload p data = profile_to_bytes (vp_profile vp) ∧ ps_footer p = Some r ∧
      decode_signature_footer (range_of r data) = Ok f ∧ key ∈ keys ∧
      ed_verify_strict key (build_signed_message (ps_header p) (segment_payload p data)) (sf_signature f) = true).
Proof.
  intros Hb H Hview.
  apply from_rvf_Ok in H as (report & segs & p & Hl & Hv & Ha & Hid & Hvid & Hw & Hp & Ht & Hdec & Hsig & Hbound).
  assert (Z.of_nat (length data) ≤ u64_max) as Hs by (unfold MAX_CONTEXT_RVF_BYTES, u64_max in *; lia).
  apply profile_codec_sound in Hdec as [Henc [Hwf _]]; [|by apply slice_bytes].
  apply view_payload_Ok in Hview as (k & b & Hk & Hbv & ->).
  destruct (Forall2_lookup_r _ _ _ _ _ Hbound Hk) as (pv & Hpv & Hbind).
  apply bind_view_Ok in Hbind as (s & Hbt & ->). cbn [bs_view bs_start bs_end] in *. subst view.
  split; [done|]. exists segs, pv, s.
  assert (pv ∈ cp_views (vp_profile vp)) as Hin by by eapply list_elem_of_lookup_2.
  split_and!; try done.
  - by apply (verify_report_loadable data (profile_options id trust keys) segs report).
  - apply (bt_digest _ _ _ _ Hbt).
  - intros Hne. destruct (vv_content _ Hwf) as (content & Hc & Hcv & _ & Hprov).
    rewrite Forall_forall in Hprov. destruct (Hprov pv Hin) as [?|(d & Hd & _ & Hsrc)]; [done|].
    by exists d, content.
  - intros ->. destruct (signature_passed_key data _ report segs p Hb Hs Hv Hw Hp (Hsig eq_refl))
      as (r & f & key & H1 & H2 & H3 & H4). exists p, r, f, key. by split_and!.
Qed.
End authenticity.

(* ------------------------------------------------------------------ *)
(** ** A sample: content, an abstract of it, and the profile *)

#[local] Existing Instances sample_rights sample_sha sample_hashes sample_ct_eq sample_ct_eq_ok sample_ed.

Definition sample_content : list Z := lit "the whole text".
Definition sample_abstract : list Z := lit "text".
Definition rev_of (data : list Z) : Revision := mkRevision (sha256 data).
Definition sample_derived : DerivedView :=
  mkDerivedView (rev_of sample_content) (rev_of [1]) (rev_of [2]) (rev_of [3]) (rev_of [4]).
Definition sample_profile : ContextProfile :=
  mkContextProfile [mkProfileView PvAbstract 3 (rev_of sample_abstract) (Some sample_derived);
                    mkProfileView PvContent 2 (rev_of sample_content) None].
Definition sample_context : list Z :=
  pack_segment SEG_TYPE_MANIFEST 1 [7; 8; 9] ++ pack_segment SEG_TYPE_WITNESS 2 sample_content ++
  pack_segment SEG_TYPE_WITNESS 3 sample_abstract ++
  pack_signed sample_key SEG_TYPE_PROFILE 4 (profile_to_bytes sample_profile).

Lemma bytes_checked l : forallb (λ b, (0 <=? b) && (b <? 256)) l = true → Forall is_byte l.
Proof.
  intros H. apply forallb_Forall in H. eapply Forall_impl; [exact H|]. intros b Hb.
  unfold is_byte. cbn in Hb. split_bool. lia.
Qed.

Example sample_profile_new : context_profile_new (reverse (cp_views sample_profile)) = Ok sample_profile.
Proof. vm_compute. reflexivity. Qed.
Example unbound_abstract_refused :
  context_profile_new [mkProfileView PvAbstract 3 (rev_of sample_abstract) (Some sample_derived);
                       mkProfileView PvContent 2 (rev_of sample_abstract) None] = Err PeInvalidProvenance.
Proof. vm_compute. reflexivity. Qed.
(** A trusted signature is found by the segment it covers. *)
Example unsigned_profile_refused :
  (match from_rvf sample_context (rev_of sample_context) TrustedSignature [replicate 32 4] with
   | Err e => Some e | Ok _ => None end) = Some PeUnverifiedRvf.
Proof. vm_compute. reflexivity. Qed.

Lemma profile_codec_exact_witness :
  profile_from_bytes (profile_to_bytes sample_profile) = Ok sample_profile ∧ profile_wf sample_profile.
Proof.
  assert (profile_from_bytes (profile_to_bytes sample_profile) = Ok sample_profile) as H by (vm_compute; reflexivity).
  split; [exact H|]. apply (profile_codec_exact (profile_to_bytes sample_profile) sample_profile); [|exact H].
  apply bytes_checked. vm_compute. reflexivity.
Defined.

Lemma bound_view_authentic_witness :
  ∃ vp, from_rvf sample_context (rev_of sample_context) TrustedSignature [sample_key] = Ok vp ∧
    view_payload sample_context PvAbstract vp = Ok sample_abstract ∧
    sha256 sample_context = rev_bytes (rev_of sample_context).
Proof.
  assert (∃ vp, from_rvf sample_context (rev_of sample_context) TrustedSignature [sample_key] = Ok vp ∧
    view_payload sample_context PvAbstract vp = Ok sample_abstract) as (vp & H1 & H2).
  { eexists. split; [vm_compute; reflexivity|vm_compute; reflexivity]. }
  exists vp. split; [exact H1|]. split; [exact H2|].
  refine (proj1 (bound_view_authentic _ _ _ _ _ _ _ _ H1 H2)). apply bytes_checked. vm_compute. reflexivity.
Defined.
