(* ===== verification/ContextCap.v ===== *)
(** Capability binding and authorization for context names:
    [crates/rvm-context/src/capability.rs], [error.rs].

    A name is never authority: a handle is resolved against the live capability
    manager, then epoch, rights, type, owner and the scope bound to the token
    are checked, and every decision leaves one witness record.  The file models
    the authority (manager and binding table) with all its operations and proves
    what an authorization implies after any history of them. *)

From stdpp Require Import base numbers list option sets strings.
From Stdlib Require Import ZArith Lia.
From S2P Require Import Prelude.
From S2P Require Import Text.
From S2P Require Import Types.
From S2P Require Import CapTable.
From S2P Require Import Derivation.
From S2P Require Import CapVerify.
From S2P Require Import CapManager.
From S2P Require Import WitnessLog.
From S2P Require Import ContextUri.

Open Scope rvm_scope.

(* ------------------------------------------------------------------ *)
(** ** Errors ([error.rs]) *)

Inductive ContextError : Set :=
| AccessDenied | GrantTableFull | GrantAlreadyBound | ScopeEscalation
| CxCapability (e : CapError) | PinnedUriRequired | VersionlessUriRequired | ImmutableRevision
| RevisionNotFound | RevisionConflict | AliasNotFound | AliasConflict
| AliasGenerationExhausted | ObjectTableFull | AliasTableFull | ObjectTooLarge
| CxInvalidQuery | InvalidResultLimit | Tombstoned | OperationMismatch
| RevisionHashMismatch | RvfVerificationFailed | ReceiptSealFailed | InvalidTarget
| ResolverScopeViolation | BackendUnavailable.

Notation ContextResult := (result ContextError).

#[export] Instance ContextError_eq_dec : EqDecision ContextError.
Proof. solve_decision. Defined.

(* ------------------------------------------------------------------ *)
(** ** Operations *)

Definition MAX_SEARCH_RESULTS : Z := 64.

Record CapabilityHandle : Set := mkCapabilityHandle { ch_index : Z; ch_generation : Z }.

Inductive ContextOperation : Set :=
| OpResolve | OpList | OpTree | OpRead | OpSearch | OpHistory | OpVerify | OpPut
| OpCompareAndSwapAlias | OpForget | OpExecute | OpGrant | OpRevoke | OpSealReceipt.

#[export] Instance ContextOperation_eq_dec : EqDecision ContextOperation.
Proof. solve_decision. Defined.

(** [operation as u8]. *)
Definition operation_code (op : ContextOperation) : Z :=
  match op with
  | OpResolve => 0 | OpList => 1 | OpTree => 2 | OpRead => 3 | OpSearch => 4 | OpHistory => 5
  | OpVerify => 6 | OpPut => 7 | OpCompareAndSwapAlias => 8 | OpForget => 9 | OpExecute => 10
  | OpGrant => 11 | OpRevoke => 12 | OpSealReceipt => 13
  end.

Definition required_rights `{!BitflagsUnion} (op : ContextOperation) : CapRights :=
  match op with
  | OpResolve | OpList | OpTree | OpRead | OpSearch | OpHistory => READ
  | OpVerify => rights_union READ PROVE
  | OpPut | OpCompareAndSwapAlias | OpForget => WRITE
  | OpExecute => EXECUTE
  | OpGrant => GRANT
  | OpRevoke => REVOKE
  | OpSealReceipt => PROVE
  end.

Definition op_action_kind (op : ContextOperation) : ActionKind :=
  match op with
  | OpResolve | OpList | OpTree | OpHistory | OpVerify => AkContextResolve
  | OpRead => AkContextRead
  | OpSearch => AkContextSearch
  | OpPut => AkContextPut
  | OpCompareAndSwapAlias => AkContextAliasUpdate
  | OpForget => AkContextForget
  | OpExecute => AkContextExecute
  | OpGrant => AkCapabilityGrant
  | OpRevoke => AkCapabilityRevoke
  | OpSealReceipt => AkContextEpochSeal
  end.

(** [ContextViewMask(u8)]. *)
Notation ContextViewMask := Z (only parsing).
Definition VIEW_MANIFEST : ContextViewMask := 1.
Definition VIEW_ABSTRACT : ContextViewMask := 2.
Definition VIEW_OVERVIEW : ContextViewMask := 4.
Definition VIEW_CONTENT : ContextViewMask := 8.
Definition VIEW_ALL : ContextViewMask := 15.

(** [bits & !ALL == 0] on a byte. *)
Definition view_mask_from_bits (bits : Z) : option ContextViewMask :=
  if negb (bits =? 0) && (Z.land bits (255 - VIEW_ALL) =? 0) then Some bits else None.
Definition view_mask_union (a b : ContextViewMask) : ContextViewMask := Z.lor a b.
Definition view_bit (view : ProgressiveView) : Z :=
  match view with
  | PvAbstract => VIEW_ABSTRACT | PvOverview => VIEW_OVERVIEW | PvContent => VIEW_CONTENT
  end.
Definition view_mask_allows (m : ContextViewMask) (view : ProgressiveView) : bool :=
  Z.land m (view_bit view) =? view_bit view.
Definition view_mask_contains (m other : ContextViewMask) : bool := Z.land m other =? other.

Definition required_view_bit (op : ContextOperation) (explicit : option ProgressiveView) : Z :=
  match explicit with
  | Some view => view_bit view
  | None =>
      match op with
      | OpResolve | OpList | OpTree | OpHistory | OpVerify => VIEW_MANIFEST
      | OpRead => VIEW_CONTENT
      | OpSearch => VIEW_OVERVIEW
      | OpPut | OpCompareAndSwapAlias | OpForget | OpExecute | OpGrant | OpRevoke
      | OpSealReceipt => 0
      end
  end.

Definition target_shape_is_valid (op : ContextOperation) (target : RuvUri) : bool :=
  match op with
  | OpPut | OpVerify | OpSealReceipt => is_pinned target && is_none (ru_view target)
  | OpExecute =>
      is_pinned target && is_none (ru_view target) && bool_decide (ru_collection target = ColSkills)
  | OpList | OpTree | OpHistory | OpCompareAndSwapAlias | OpForget =>
      negb (is_pinned target) && is_none (ru_view target)
  | OpGrant | OpRevoke => is_none (ru_view target)
  | OpResolve | OpRead | OpSearch => true
  end.

(* ------------------------------------------------------------------ *)
(** ** Scopes *)

Record ContextScope : Set := mkContextScope {
  cs_authority : Authority;
  cs_tenant : TenantId;
  cs_subject : Subject;
  cs_collection : Collection;
  cs_path_prefix : list PathSegment;
  cs_views : ContextViewMask;
}.
#[export] Instance ContextScope_eq_dec : EqDecision ContextScope.
Proof. solve_decision. Defined.

Definition scope_from_uri (root : RuvUri) (views : ContextViewMask) : ContextScope :=
  mkContextScope (ru_authority root) (ru_tenant root) (ru_subject root) (ru_collection root)
    (ru_path root) views.

Definition path_has_prefix (path prefix : list PathSegment) : bool :=
  (length prefix <=? length path)%nat && bool_decide (take (length prefix) path = prefix).

Definition contains_scope (s child : ContextScope) : bool :=
  bool_decide (cs_authority s = cs_authority child) &&
  bool_decide (cs_tenant s = cs_tenant child) &&
  bool_decide (cs_subject s = cs_subject child) &&
  bool_decide (cs_collection s = cs_collection child) &&
  path_has_prefix (cs_path_prefix child) (cs_path_prefix s) &&
  view_mask_contains (cs_views s) (cs_views child).

Definition scope_allows (s : ContextScope) (target : RuvUri) (op : ContextOperation) : bool :=
  if bool_decide (cs_authority s ≠ ru_authority target) ||
     bool_decide (cs_tenant s ≠ ru_tenant target) ||
     bool_decide (cs_subject s ≠ ru_subject target) ||
     bool_decide (cs_collection s ≠ ru_collection target) ||
     negb (path_has_prefix (ru_path target) (cs_path_prefix s))
  then false
  else
    let required_view := required_view_bit op (ru_view target) in
    Z.land (cs_views s) required_view =? required_view.

(** The bytes hashed for a scope, in order. *)
Definition fingerprint_input (s : ContextScope) : list Z :=
  lit "RUV-CONTEXT-SCOPE-V1" ++ au_text (cs_authority s) ++ [0] ++ tn_text (cs_tenant s) ++ [0] ++
  subject_kind_as_str (sub_kind (cs_subject s)) ++ [0] ++ sj_text (sub_id (cs_subject s)) ++ [0] ++
  collection_as_str (cs_collection s) ++
  concat ((λ segment, 255 :: ps_text segment) <$> cs_path_prefix s) ++ [cs_views s].

Definition scope_fingerprint `{!Sha256} (s : ContextScope) : Z :=
  of_le_bytes (take 8 (sha256 (fingerprint_input s))).

Record ContextRequest : Set := mkContextRequest {
  rq_capability : CapabilityHandle;
  rq_operation : ContextOperation;
  rq_target : RuvUri;
}.

Record AuthorizedRequest : Set := mkAuthorizedRequest {
  ar_actor : PartitionId;
  ar_operation : ContextOperation;
  ar_target : RuvUri;
  ar_capability_hash : Z;
  ar_witness_sequence : Z;
  ar_timestamp_ns : Z;
}.

(* ------------------------------------------------------------------ *)
(** ** The binding table *)

Record ContextGrant : Set := mkContextGrant { cg_token_id : Z; cg_scope : ContextScope }.

(** [gt_capacity] is the const parameter [N]. *)
Record ContextGrantTable : Set := mkContextGrantTable {
  gt_capacity : nat;
  gt_grants : list ContextGrant;
}.

Definition grant_table_new (N : nat) : ContextGrantTable := mkContextGrantTable N [].
Definition grant_table_len (t : ContextGrantTable) : nat := length (gt_grants t).
Definition grant_get (token_id : Z) (t : ContextGrantTable) : option ContextGrant :=
  find_by (λ grant, cg_token_id grant =? token_id) (gt_grants t).

Definition grant_bind (token_id : Z) (scope : ContextScope)
    : prog ContextGrantTable ContextError unit := λ t,
  match grant_get token_id t with
  | Some existing =>
      (if bool_decide (cg_scope existing = scope) then Ok tt else Err GrantAlreadyBound, t)
  | None =>
      if (gt_capacity t <=? length (gt_grants t))%nat then (Err GrantTableFull, t)
      else (Ok tt, mkContextGrantTable (gt_capacity t) (gt_grants t ++ [mkContextGrant token_id scope]))
  end.

Definition token_is_live (m : CapabilityManager) (id : Z) : bool :=
  existsb (λ e, tok_id (sl_token e.2) =? id) (table_iter (mg_table m)).

Definition grant_retain_live (m : CapabilityManager) (t : ContextGrantTable) : ContextGrantTable :=
  mkContextGrantTable (gt_capacity t)
    (filter (λ grant, token_is_live m (cg_token_id grant) = true) (gt_grants t)).

Definition grant_clear (t : ContextGrantTable) : ContextGrantTable :=
  mkContextGrantTable (gt_capacity t) [].

(* ------------------------------------------------------------------ *)
(** ** The authority *)

Record ContextAuthority : Set := mkContextAuthority {
  ca_manager : CapabilityManager;
  ca_grants : ContextGrantTable;
}.

Definition authority_new_from (G : nat) (m : CapabilityManager) : ContextAuthority :=
  mkContextAuthority m (grant_table_new G).
Definition authority_with_defaults (C G : nat) : ContextAuthority :=
  authority_new_from G (manager_new C cap_config_new).

Section authority.
Context `{!Bitflags, !BitflagsUnion, !Sha256}.

(** [if let Err(error) = self.grants.bind(..)]: the new capability is revoked
    again and the binding error returned. *)
Definition bind_or_revoke (fuel : nat) (handle : CapabilityHandle) (scope : ContextScope)
    (a : ContextAuthority) : option (ContextResult CapabilityHandle * ContextAuthority) :=
  let m := ca_manager a in
  match table_lookup (mg_table m) (ch_index handle) (ch_generation handle) with
  | Err e => Some (Err (CxCapability e), a)
  | Ok slot =>
      match grant_bind (tok_id (sl_token slot)) scope (ca_grants a) with
      | (Ok _, grants) => Some (Ok handle, mkContextAuthority m grants)
      | (Err error, grants) =>
          '(_, m') ← manager_revoke fuel (ch_index handle) (ch_generation handle) m;
          Some (Err error, mkContextAuthority m' grants)
      end
  end.

Definition issue_root (fuel : nat) (scope : ContextScope) (rights : CapRights)
    (owner caller : PartitionId) (a : ContextAuthority)
    : option (ContextResult CapabilityHandle * ContextAuthority) :=
  let badge := scope_fingerprint scope in
  match create_root_capability_checked CtContext rights badge owner caller (ca_manager a) with
  | (Err e, m) => Some (Err (CxCapability e), mkContextAuthority m (ca_grants a))
  | (Ok (index, generation), m) =>
      bind_or_revoke fuel (mkCapabilityHandle index generation) scope
        (mkContextAuthority m (ca_grants a))
  end.

Definition bind_existing (handle : CapabilityHandle) (scope : ContextScope)
    : prog ContextAuthority ContextError unit := λ a,
  let m := ca_manager a in
  match manager_verify_p1 m (ch_index handle) (ch_generation handle) RIGHTS_EMPTY with
  | Err _ => (Err AccessDenied, a)
  | Ok _ =>
      match table_lookup (mg_table m) (ch_index handle) (ch_generation handle) with
      | Err _ => (Err AccessDenied, a)
      | Ok slot =>
          if bool_decide (tok_type (sl_token slot) ≠ CtContext) then (Err AccessDenied, a)
          else
            let '(r, grants) := grant_bind (tok_id (sl_token slot)) scope (ca_grants a) in
            (r, mkContextAuthority m grants)
      end
  end.

Definition delegate (fuel : nat) (source : CapabilityHandle) (child_scope : ContextScope)
    (requested_rights : CapRights) (target_owner caller : PartitionId) (a : ContextAuthority)
    : option (ContextResult CapabilityHandle * ContextAuthority) :=
  let m := ca_manager a in
  match manager_verify_p1 m (ch_index source) (ch_generation source) GRANT with
  | Err _ => Some (Err AccessDenied, a)
  | Ok _ =>
      match table_lookup (mg_table m) (ch_index source) (ch_generation source) with
      | Err _ => Some (Err AccessDenied, a)
      | Ok source_slot =>
          if bool_decide (tok_type (sl_token source_slot) ≠ CtContext) ||
             negb (sl_owner source_slot =? caller)
          then Some (Err AccessDenied, a)
          else
            match grant_get (tok_id (sl_token source_slot)) (ca_grants a) with
            | None => Some (Err AccessDenied, a)
            | Some parent =>
                if negb (contains_scope (cg_scope parent) child_scope)
                then Some (Err ScopeEscalation, a)
                else
                  let badge := scope_fingerprint child_scope in
                  match grant_checked (ch_index source) (ch_generation source) requested_rights
                          badge target_owner caller m with
                  | (Err e, m) => Some (Err (CxCapability e), mkContextAuthority m (ca_grants a))
                  | (Ok (index, generation), m) =>
                      bind_or_revoke fuel (mkCapabilityHandle index generation) child_scope
                        (mkContextAuthority m (ca_grants a))
                  end
            end
      end
  end.

Definition context_revoke (fuel : nat) (handle : CapabilityHandle) (a : ContextAuthority)
    : option (ContextResult nat * ContextAuthority) :=
  '(r, m) ← manager_revoke fuel (ch_index handle) (ch_generation handle) (ca_manager a);
  match r with
  | Err e => Some (Err (CxCapability e), mkContextAuthority m (ca_grants a))
  | Ok result =>
      Some (Ok (rr_revoked_count result), mkContextAuthority m (grant_retain_live m (ca_grants a)))
  end.

Definition context_increment_epoch (a : ContextAuthority) : ContextAuthority :=
  mkContextAuthority (increment_epoch (ca_manager a)) (grant_clear (ca_grants a)).

(* ------------------------------------------------------------------ *)
(** ** Decisions and their records *)

(** [u32::rotate_left]. *)
Definition rotate_left32 (x k : Z) : Z := Z.lor (wrap32 (Z.shiftl x k)) (Z.shiftr x (32 - k)).
Definition handle_fingerprint (h : CapabilityHandle) : Z :=
  Z.lxor (ch_index h) (rotate_left32 (ch_generation h) 13).

(** [emit_record] before the append. *)
Definition context_record (action : ActionKind) (op : ContextOperation) (actor : PartitionId)
    (capability_hash timestamp_ns : Z) (digest : list Z) : WitnessRecord :=
  mkWitnessRecord 0 timestamp_ns (action_code action) 1 (operation_code op) 0 actor
    (of_le_bytes (take 8 digest)) capability_hash (take 8 (drop 8 digest)) 0 0
    (replicate 8 0) (replicate 4 0).

Context `{!ChainHasher}.

Definition emit_decision (action : ActionKind) (actor : PartitionId) (timestamp_ns : Z)
    (request : ContextRequest) (capability_hash : Z) (l : WitnessLog) : Z * WitnessLog :=
  let digest := sha256 (uri_to_string (rq_target request)) in
  log_append (context_record action (rq_operation request) actor capability_hash timestamp_ns digest) l.

Definition emit_authorized (action : ActionKind) (request : AuthorizedRequest) (l : WitnessLog)
    : Z * WitnessLog :=
  let digest := sha256 (uri_to_string (ar_target request)) in
  log_append (context_record action (ar_operation request) (ar_actor request)
    (ar_capability_hash request) (ar_timestamp_ns request) digest) l.

Definition record_success (request : AuthorizedRequest) (l : WitnessLog) : Z * WitnessLog :=
  emit_authorized (op_action_kind (ar_operation request)) request l.
Definition record_resolver_rejection (request : AuthorizedRequest) (l : WitnessLog) : Z * WitnessLog :=
  emit_authorized AkProofRejected request l.

(** The error of a request whose operation or target shape is wrong. *)
Definition shape_error (request : ContextRequest) (expected : ContextOperation) : ContextError :=
  if bool_decide (rq_operation request ≠ expected) then OperationMismatch
  else if (match expected with OpPut | OpVerify | OpExecute | OpSealReceipt => true | _ => false end)
          && negb (is_pinned (rq_target request))
  then PinnedUriRequired
  else if (match expected with
           | OpList | OpTree | OpHistory | OpCompareAndSwapAlias | OpForget => true
           | _ => false end) && is_pinned (rq_target request)
  then VersionlessUriRequired
  else InvalidTarget.

Definition context_authorize (a : ContextAuthority) (actor : PartitionId) (timestamp_ns : Z)
    (request : ContextRequest) (expected : ContextOperation)
    : prog WitnessLog ContextError AuthorizedRequest := λ l,
  let record_denial := λ capability_hash,
    (emit_decision AkProofRejected actor timestamp_ns request capability_hash l).2 in
  let m := ca_manager a in
  let handle := rq_capability request in
  if bool_decide (rq_operation request ≠ expected) ||
     negb (target_shape_is_valid expected (rq_target request))
  then (Err (shape_error request expected), record_denial (handle_fingerprint handle))
  else
    let rights := required_rights expected in
    if negb (is_ok (manager_verify_p1 m (ch_index handle) (ch_generation handle) rights))
    then (Err AccessDenied, record_denial (handle_fingerprint handle))
    else
      match table_lookup (mg_table m) (ch_index handle) (ch_generation handle) with
      | Err _ => (Err AccessDenied, record_denial (handle_fingerprint handle))
      | Ok slot =>
          let token := sl_token slot in
          if bool_decide (tok_type token ≠ CtContext) || negb (sl_owner slot =? actor)
          then (Err AccessDenied, record_denial (truncated_hash token))
          else
            match grant_get (tok_id token) (ca_grants a) with
            | None => (Err AccessDenied, record_denial (truncated_hash token))
            | Some grant =>
                if negb (scope_allows (cg_scope grant) (rq_target request) expected)
                then (Err AccessDenied, record_denial (truncated_hash token))
                else
                  let '(sequence, l) :=
                    emit_decision AkProofVerifiedP1 actor timestamp_ns request
                      (truncated_hash token) l in
                  (Ok (mkAuthorizedRequest actor expected (rq_target request)
                         (truncated_hash token) sequence timestamp_ns), l)
            end
      end.
End authority.

(* ------------------------------------------------------------------ *)
(** ** What a call does to the live tokens

    None of this depends on the derivation tree: it holds on every manager
    whose table is consistent, whatever was revoked before. *)

Definition live (t : CapabilityTable) (i : nat) (s : CapSlot) : Prop :=
  tb_slots t !! i = Some s ∧ slot_is_valid s = true.

Definition rights_le (a b : CapRights) : Prop :=
  ∀ i, 0 ≤ i → Z.testbit a i = true → Z.testbit b i = true.

(** [s'] is [s], possibly with fewer rights. *)
Definition weaker (s s' : CapSlot) : Prop :=
  tok_id (sl_token s') = tok_id (sl_token s) ∧ tok_type (sl_token s') = tok_type (sl_token s) ∧
  sl_owner s' = sl_owner s ∧ rights_le (tok_rights (sl_token s')) (tok_rights (sl_token s)).

Definition shrinks (t t' : CapabilityTable) : Prop :=
  table_inv t' ∧ ∀ i s', live t' i s' → ∃ s, live t i s ∧ weaker s s'.

(** Live tokens are old ones, at most weakened, and at most one new one whose
    identifier was the next to be assigned. *)
Definition evolves (m m' : CapabilityManager) : Prop :=
  table_inv (mg_table m') ∧ mg_next_id m ≤ mg_next_id m' ∧
  ∃ f, ∀ i s', live (mg_table m') i s' →
    (∃ s, live (mg_table m) i s ∧ weaker s s') ∨
    (i = f ∧ tok_id (sl_token s') = mg_next_id m ∧ mg_next_id m < mg_next_id m').

Lemma rights_le_refl a : rights_le a a.
Proof. by intros i. Qed.
Lemma rights_le_trans a b c : rights_le a b → rights_le b c → rights_le a c.
Proof. intros H1 H2 i Hi H. by apply H2, H1. Qed.

Lemma weaker_refl s : weaker s s.
Proof. split_and!; [done..|apply rights_le_refl]. Qed.
Lemma weaker_trans s1 s2 s3 : weaker s1 s2 → weaker s2 s3 → weaker s1 s3.
Proof.
  intros (? & ? & ? & ?) (? & ? & ? & ?). split_and!; [congruence..|]. by eapply rights_le_trans.
Qed.

Lemma shrinks_refl t : table_inv t → shrinks t t.
Proof. intros Ht. split; [done|]. intros i s Hs. exists s. split; [done|apply weaker_refl]. Qed.

Lemma shrinks_trans t1 t2 t3 : shrinks t1 t2 → shrinks t2 t3 → shrinks t1 t3.
Proof.
  intros [_ H12] [Ht3 H23]. split; [done|]. intros i s3 H3.
  destruct (H23 i s3 H3) as (s2 & H2 & Hw). destruct (H12 i s2 H2) as (s1 & H1 & Hw').
  exists s1. split; [done|]. by eapply weaker_trans.
Qed.

Lemma force_invalidate_shrinks index t : table_inv t → shrinks t (force_invalidate index t).
Proof.
  intros Ht. split; [by apply force_invalidate_inv|]. intros i s' [Hs' Hv].
  unfold force_invalidate in Hs'. rewrite get_at_eq in Hs'.
  destruct (tb_slots t !! Z.to_nat index) as [s|] eqn:Hs; [|by exists s'; split; [|apply weaker_refl]].
  destruct (slot_is_valid s); [|by exists s'; split; [|apply weaker_refl]].
  cbn [release_slot tb_slots] in Hs'.
  apply list_lookup_insert_Some in Hs' as [(_ & <- & _)|[_ Hs']]; [done|].
  exists s'. split; [done|apply weaker_refl].
Qed.

Lemma force_all_shrinks l t : table_inv t → shrinks t (force_all l t).
Proof.
  revert t. induction l as [|x l IH]; intros t Ht; [by apply shrinks_refl|].
  eapply shrinks_trans; [by apply (force_invalidate_shrinks x)|].
  apply (IH (force_invalidate x t)). by apply force_invalidate_inv.
Qed.

Lemma evolves_shrinks m m1 m2 :
  evolves m m1 → mg_next_id m2 = mg_next_id m1 → shrinks (mg_table m1) (mg_table m2) → evolves m m2.
Proof.
  intros (_ & Hn & f & Hf) E [Ht2 H]. split_and!; [done|by rewrite E|]. exists f. intros i s2 H2.
  destruct (H i s2 H2) as (s1 & H1 & Hw). rewrite E.
  destruct (Hf i s1 H1) as [(s & Hs & Hw')|(-> & Hid & Hlt)].
  - left. exists s. split; [done|]. by eapply weaker_trans.
  - right. destruct Hw as [-> _]. done.
Qed.

Lemma evolves_refl m m' :
  table_inv (mg_table m) → mg_table m' = mg_table m → mg_next_id m ≤ mg_next_id m' → evolves m m'.
Proof.
  intros Ht E Hn. split_and!; [by rewrite E|done|]. exists O. intros i s Hs. rewrite E in Hs.
  left. exists s. split; [done|apply weaker_refl].
Qed.

(** Filling a free slot with a token of the next identifier. *)
Lemma evolves_insert m m' i s s' :
  table_inv (mg_table m') → tb_slots (mg_table m') = <[i := s']> (tb_slots (mg_table m)) →
  mg_next_id m < mg_next_id m' →
  tb_slots (mg_table m) !! i = Some s → slot_is_valid s = false →
  tok_id (sl_token s') = mg_next_id m → evolves m m'.
Proof.
  intros Ht Es Hn Hs Hf Hid. split_and!; [done|lia|]. exists i. intros j sj [Hj Hv].
  rewrite Es in Hj. apply list_lookup_insert_Some in Hj as [(-> & <- & _)|[_ Hj]]; [by right|].
  left. exists sj. split; [done|apply weaker_refl].
Qed.

Lemma manager_revoke_evolves fuel index gen m r m' :
  table_inv (mg_table m) → manager_revoke fuel index gen m = Some (r, m') →
  evolves m m' ∧ mg_next_id m' = mg_next_id m ∧ shrinks (mg_table m) (mg_table m').
Proof.
  intros Ht H.
  assert (shrinks (mg_table m) (mg_table m') ∧ mg_next_id m' = mg_next_id m) as [Hs Hn].
  2:{ split_and!; [|done..]. eapply evolves_shrinks; [|done|done]. by apply evolves_refl. }
  unfold manager_revoke, revoke_capability in H.
  destruct (table_lookup (mg_table m) index gen) as [s|e].
  2:{ injection H as _ <-. split; [by apply shrinks_refl|done]. }
  destruct (collect_subtree fuel (mg_derivation m) index) as [l|]; [|done].
  cbn [mbind option_bind] in H.
  destruct (tree_revoke fuel (mg_derivation m) index) as [[[k|e] tree]|]; cbn in H; [| |done].
  - injection H as _ <-. split; [|done]. by apply (force_all_shrinks l).
  - injection H as _ <-. split; [by apply shrinks_refl|done].
Qed.

Lemma create_root_evolves ct rights badge owner m :
  table_inv (mg_table m) →
  let '(r, m') := create_root_capability_inner ct rights badge owner m in
  evolves m m' ∧
  ∀ index g, r = Ok (index, g) →
    ∃ s, table_lookup (mg_table m') index g = Ok s ∧ tok_id (sl_token s) = mg_next_id m ∧
      tok_rights (sl_token s) = rights.
Proof.
  intros Ht. unfold create_root_capability_inner, pbind. rewrite take_id_spec.
  destruct (mg_next_id m + 1 <=? u64_max).
  2:{ split; [by apply evolves_refl|done]. }
  set (m1 := set_mg_next_id (mg_next_id m + 1) m). cbn [pgets].
  unfold on_table, pzoom at 1. rewrite insert_root_derived. change (mg_table m1) with (mg_table m).
  pose proof (insert_derived_spec (mkCapToken (mg_next_id m) ct rights (mg_epoch m1)) owner 0
    u32_max badge (mg_table m) (ti_hint _ Ht)) as H.
  pose proof (insert_derived_inv (mkCapToken (mg_next_id m) ct rights (mg_epoch m1)) owner 0
    u32_max badge (mg_table m) Ht) as Ht'.
  destruct (insert_derived _ owner 0 u32_max badge (mg_table m)) as [[[idx g]|e] tab] eqn:Hins.
  2:{ destruct H as (-> & -> & _). split; [|done]. apply evolves_refl; [done..|cbn; lia]. }
  destruct H as (i & s & Hs & Hf & -> & Eg & Etab). cbn [snd] in Ht'.
  set (s' := mkCapSlot (mkCapToken (mg_next_id m) ct rights (mg_epoch m1)) g owner 0 u32_max badge) in *.
  assert (slot_is_valid s' = true) as Hv.
  { apply slot_is_valid_true. subst g. cbn.
    pose proof (slot_next_generation_range s (ti_slots _ Ht i s Hs)). lia. }
  assert (∀ m2, mg_table m2 = tab → mg_next_id m2 = mg_next_id m + 1 →
    evolves m m2 ∧ ∃ s0, table_lookup (mg_table m2) (wrap32 (Z.of_nat i)) g = Ok s0 ∧
      tok_id (sl_token s0) = mg_next_id m ∧ tok_rights (sl_token s0) = rights) as Hdone.
  { intros m2 E2 En. split.
    - eapply (evolves_insert _ _ i s s'); [by rewrite E2|by rewrite E2, Etab|lia|done..].
    - exists s'. split; [|done]. rewrite E2. apply table_lookup_Ok. split_and!; [|done|done].
      rewrite (table_index_small (mg_table m) i s Ht Hs), Etab.
      apply list_lookup_insert_eq. by eapply lookup_lt_Some. }
  cbn [pgets set_mg_table mg_config set_mg_next_id m1].
  destruct (cc_track_derivation (mg_config m)).
  - unfold on_derivation, pzoom. destruct (add_root _ _ _) as [[[]|e] tree]; cbn [pmodify pret];
      (match goal with |- evolves m ?x ∧ _ => destruct (Hdone x eq_refl eq_refl) as [Hev Hl] end);
      (split; [exact Hev|]); [|done]. by intros index g' [= <- <-].
  - cbn [pmodify pret].
    match goal with |- evolves m ?x ∧ _ => destruct (Hdone x eq_refl eq_refl) as [Hev Hl] end.
    split; [exact Hev|]. by intros index g' [= <- <-].
Qed.

Lemma track_child_shrinks p c depth epoch m :
  table_inv (mg_table m) →
  let '(r, m') := track_child p c depth epoch m in
  shrinks (mg_table m) (mg_table m') ∧ mg_next_id m' = mg_next_id m ∧
  (r = Ok tt → mg_table m' = mg_table m).
Proof.
  intros Ht. unfold track_child, on_derivation, pzoom.
  destruct (add_child p c depth epoch (mg_derivation m)) as [[u|e] tree];
    cbn [set_mg_derivation set_mg_table mg_table mg_next_id].
  - split_and!; [by apply shrinks_refl|done..].
  - split_and!; [by apply force_invalidate_shrinks|done..].
Qed.

Section granting_tokens.
Context {BF : Bitflags} {BL : BitflagsLaws}.

Lemma contains_rights a b : contains a b = true ↔ rights_le b a.
Proof. apply contains_spec. Qed.

Lemma strip_weaker s : weaker s (strip_grant_once s).
Proof.
  split_and!; [done..|]. intros i Hi. cbn. rewrite difference_spec by done.
  by intros [? _]%andb_true_iff.
Qed.

Lemma consume_source_shrinks p gen m :
  table_inv (mg_table m) →
  let '(r, m') := consume_source p gen m in
  r = Ok tt ∧ shrinks (mg_table m) (mg_table m') ∧ mg_next_id m' = mg_next_id m ∧
  ∀ j, j ≠ Z.to_nat p → tb_slots (mg_table m') !! j = tb_slots (mg_table m) !! j.
Proof.
  intros Ht. unfold consume_source, on_table, pzoom, lookup_mut.
  destruct (table_lookup (mg_table m) p gen) as [s|e] eqn:Hl; cbn [snd set_mg_table mg_table mg_next_id].
  2:{ split_and!; [done|by apply shrinks_refl|done..]. }
  apply table_lookup_Ok in Hl as (Hs & Hv & Hg).
  split_and!; [done| |done|intros j Hj; cbn; by rewrite list_lookup_insert_ne].
  split; [by eapply table_inv_reslot|]. intros i s' [Hi Hvi]. cbn in Hi.
  apply list_lookup_insert_Some in Hi as [(<- & <- & _)|[_ Hi]].
  - exists s. split; [done|apply strip_weaker].
  - exists s'. split; [done|apply weaker_refl].
Qed.

(** What a successful delegation returns. *)
Definition granted_from (m m' : CapabilityManager) (sp : CapSlot) (ci cg : Z) : Prop :=
  ∃ s, table_lookup (mg_table m') ci cg = Ok s ∧ tok_id (sl_token s) = mg_next_id m ∧
    tok_type (sl_token s) = tok_type (sl_token sp) ∧
    rights_le (tok_rights (sl_token s)) (tok_rights (sl_token sp)).

(** The steps after the insertion. *)
Lemma grant_tail_evolves m m2 p gen depth epoch (consume track : bool) i s s' g sp :
  table_inv (mg_table m) → table_inv (mg_table m2) →
  tb_slots (mg_table m2) = <[i := s']> (tb_slots (mg_table m)) →
  mg_next_id m2 = mg_next_id m + 1 → tb_slots (mg_table m) !! i = Some s →
  slot_is_valid s = false → slot_is_valid s' = true → sl_generation s' = g →
  tok_id (sl_token s') = mg_next_id m → tok_type (sl_token s') = tok_type (sl_token sp) →
  rights_le (tok_rights (sl_token s')) (tok_rights (sl_token sp)) → Z.to_nat p ≠ i →
  let '(r, m') :=
    ((if track then track_child p (wrap32 (Z.of_nat i)) depth epoch else pret tt) ;;;
     (if consume then consume_source p gen else pret tt) ;;;
     pmodify (λ m, set_mg_stats (bump_granted depth (mg_stats m)) m) ;;;
     pret (wrap32 (Z.of_nat i), g)) m2 in
  evolves m m' ∧ ∀ ci cg, r = Ok (ci, cg) → granted_from m m' sp ci cg.
Proof.
  intros Ht Ht2 Es2 En2 Hs Hf Hv' Hg Hid Hty Hri Hpi.
  assert (evolves m m2) as Hev by (eapply (evolves_insert _ _ i s s'); [done|done|lia|done..]).
  unfold pbind at 1.
  assert (∃ r m3, (if track then track_child p (wrap32 (Z.of_nat i)) depth epoch else pret tt) m2 = (r, m3) ∧
    shrinks (mg_table m2) (mg_table m3) ∧ mg_next_id m3 = mg_next_id m2 ∧
    (r = Ok tt → mg_table m3 = mg_table m2)) as (r & m3 & -> & Hs3 & Hn3 & Hok3).
  { destruct track; [|eexists _, _; split_and!; [done|by apply shrinks_refl|done..]].
    pose proof (track_child_shrinks p (wrap32 (Z.of_nat i)) depth epoch m2 Ht2) as H.
    destruct (track_child _ _ _ _ m2) as [r m3]. by exists r, m3. }
  destruct r as [[]|e]; [|split; [by eapply evolves_shrinks|done]].
  specialize (Hok3 eq_refl). unfold pbind at 1.
  assert (∃ m4, (if consume then consume_source p gen else pret tt) m3 = (Ok tt, m4) ∧
    shrinks (mg_table m3) (mg_table m4) ∧ mg_next_id m4 = mg_next_id m3 ∧
    ∀ j, j ≠ Z.to_nat p → tb_slots (mg_table m4) !! j = tb_slots (mg_table m3) !! j)
    as (m4 & -> & Hs4 & Hn4 & Hslots).
  { destruct consume; [|eexists; split_and!; [done|apply shrinks_refl, Hs3|done..]].
    pose proof (consume_source_shrinks p gen m3 (proj1 Hs3)) as H.
    destruct (consume_source p gen m3) as [r m4]. destruct H as (-> & ? & ? & ?). by exists m4. }
  unfold pbind, pmodify, pret. split.
  - eapply evolves_shrinks; [exact Hev|cbn; congruence|cbn]. by eapply shrinks_trans.
  - intros ci cg [= <- <-]. exists s'. split_and!; [|done..].
    change (mg_table (set_mg_stats _ _)) with (mg_table m4). apply table_lookup_Ok.
    rewrite (table_index_small (mg_table m) i s Ht Hs). split_and!; [|done|done].
    rewrite Hslots by done. rewrite Hok3, Es2. apply list_lookup_insert_eq. by eapply lookup_lt_Some.
Qed.

Lemma grant_evolves p gen req badge owner caller m :
  table_inv (mg_table m) →
  let '(r, m') := grant_with_caller p gen req badge owner caller m in
  evolves m m' ∧
  ∀ ci cg, r = Ok (ci, cg) →
    ∃ sp, table_lookup (mg_table m) p gen = Ok sp ∧ granted_from m m' sp ci cg.
Proof.
  intros Ht. unfold grant_with_caller, pbind at 1.
  destruct (table_lookup (mg_table m) p gen) as [sp|e] eqn:Hl; [|split; [by apply evolves_refl|done]].
  unfold pbind at 1.
  assert (∃ r, (match caller with
     | Some c => if negb (sl_owner sp =? c) then pfail CeGrantNotPermitted else pret tt
     | None => pret tt end) m = (r, m)) as (r & ->).
  { destruct caller as [c|]; [destruct (negb _)|]; by eexists. }
  destruct r as [[]|e]; [|split; [by apply evolves_refl|done]].
  unfold pbind at 1. rewrite take_id_spec.
  destruct (mg_next_id m + 1 <=? u64_max); [|split; [by apply evolves_refl|done]].
  set (m1 := set_mg_next_id (mg_next_id m + 1) m).
  assert (evolves m m1) as Hev1 by (apply evolves_refl; [done..|cbn; lia]).
  unfold pbind at 1, pgets at 1. unfold pbind at 1, pgets at 1. unfold pbind at 1, plift.
  destruct (validate_grant sp req (mg_next_id m) badge (mg_epoch m1) (mg_grant_policy m1))
    as [[[tok depth] consume]|e] eqn:Hvg; [|split; [done|done]].
  assert (tok_id tok = mg_next_id m ∧ tok_type tok = tok_type (sl_token sp) ∧
    rights_le (tok_rights tok) (tok_rights (sl_token sp))) as (Hid & Hty & Hri).
  { unfold validate_grant in Hvg. destruct (negb _ && negb _); [done|].
    destruct (contains _ req) eqn:Hsub; [|done]. cbn [negb] in Hvg.
    destruct (checked_add _ _ _); [|done]. cbn in Hvg. destruct (_ <? _); [done|].
    injection Hvg as <- _ _. split_and!; [done..|]. by apply contains_rights. }
  unfold pbind at 1. unfold on_table at 1, pzoom at 1. change (mg_table m1) with (mg_table m).
  pose proof (insert_derived_spec tok owner depth p badge (mg_table m) (ti_hint _ Ht)) as H.
  pose proof (insert_derived_inv tok owner depth p badge (mg_table m) Ht) as Ht'.
  destruct (insert_derived tok owner depth p badge (mg_table m)) as [[[ci cg]|e] tab].
  2:{ destruct H as (-> & -> & _). split; [|done]. apply evolves_refl; [done..|cbn; lia]. }
  destruct H as (i & s & Hs & Hf & -> & Eg & Etab). cbn [snd] in Ht'.
  apply table_lookup_Ok in Hl as (Hsp & Hspv & _).
  unfold pbind at 1, pgets at 1. cbn [fst].
  pose proof (grant_tail_evolves m (set_mg_table tab m1) p gen depth (mg_epoch m1) consume
    (cc_track_derivation (mg_config (set_mg_table tab m1))) i s (mkCapSlot tok cg owner depth p badge)
    cg sp Ht) as H.
  destruct ((_ ;;; _) (set_mg_table tab m1)) as [r m']. destruct H as [He Hg]; try done.
  - by rewrite Etab.
  - apply slot_is_valid_true. subst cg. cbn.
    pose proof (slot_next_generation_range s (ti_slots _ Ht i s Hs)). lia.
  - intros <-. congruence.
  - split; [done|]. intros ci' cg' Hr. exists sp. split; [done|by apply Hg].
Qed.
End granting_tokens.

(* ------------------------------------------------------------------ *)
(** ** Scopes are ordered *)

Lemma path_has_prefix_true path prefix :
  path_has_prefix path prefix = true ↔ prefix `prefix_of` path.
Proof.
  unfold path_has_prefix. rewrite andb_true_iff, Nat.leb_le, bool_decide_eq_true. split.
  - intros [_ <-]. exists (drop (length prefix) path). by rewrite take_drop.
  - intros [k ->]. rewrite length_app. split; [lia|]. by rewrite take_app_length.
Qed.

Lemma land_sub_trans a b c : Z.land a b = b → Z.land b c = c → Z.land a c = c.
Proof. intros H1 H2. rewrite <-H2 at 1. by rewrite Z.land_assoc, H1. Qed.

Lemma contains_scope_refl s : contains_scope s s = true.
Proof.
  unfold contains_scope, view_mask_contains. rewrite !bool_decide_true by done.
  rewrite (proj2 (path_has_prefix_true _ _)) by done. by rewrite Z.land_diag, Z.eqb_refl.
Qed.

Lemma contains_scope_spec s c :
  contains_scope s c = true ↔
  cs_authority s = cs_authority c ∧ cs_tenant s = cs_tenant c ∧ cs_subject s = cs_subject c ∧
  cs_collection s = cs_collection c ∧ cs_path_prefix s `prefix_of` cs_path_prefix c ∧
  Z.land (cs_views s) (cs_views c) = cs_views c.
Proof.
  unfold contains_scope, view_mask_contains.
  rewrite !andb_true_iff, !bool_decide_eq_true, path_has_prefix_true, Z.eqb_eq. tauto.
Qed.

Lemma contains_scope_trans s1 s2 s3 :
  contains_scope s1 s2 = true → contains_scope s2 s3 = true → contains_scope s1 s3 = true.
Proof.
  rewrite !contains_scope_spec. intros (? & ? & ? & ? & ? & ?) (? & ? & ? & ? & ? & ?).
  split_and!; try congruence; [by etrans|by eapply land_sub_trans].
Qed.

Lemma scope_allows_spec s t op :
  scope_allows s t op = true ↔
  cs_authority s = ru_authority t ∧ cs_tenant s = ru_tenant t ∧ cs_subject s = ru_subject t ∧
  cs_collection s = ru_collection t ∧ cs_path_prefix s `prefix_of` ru_path t ∧
  Z.land (cs_views s) (required_view_bit op (ru_view t)) = required_view_bit op (ru_view t).
Proof.
  unfold scope_allows. rewrite <-path_has_prefix_true.
  repeat case_bool_decide; destruct (path_has_prefix _ _); cbn [negb orb]; rewrite ?Z.eqb_eq; naive_solver.
Qed.

(** What a narrower scope allows, the wider one allows. *)
Lemma scope_allows_mono s c t op :
  contains_scope s c = true → scope_allows c t op = true → scope_allows s t op = true.
Proof.
  rewrite contains_scope_spec, !scope_allows_spec. intros (? & ? & ? & ? & ? & ?) (? & ? & ? & ? & ? & ?).
  split_and!; try congruence; [by etrans|by eapply land_sub_trans].
Qed.

(* ------------------------------------------------------------------ *)
(** ** Histories of the authority *)

Inductive AuthorityCall : Set :=
| CallIssueRoot (scope : ContextScope) (rights : CapRights) (owner caller : PartitionId)
| CallBindExisting (handle : CapabilityHandle) (scope : ContextScope)
| CallDelegate (source : CapabilityHandle) (child_scope : ContextScope) (requested : CapRights)
    (target_owner caller : PartitionId)
| CallRevoke (handle : CapabilityHandle)
| CallIncrementEpoch.

Section histories.
Context {BF : Bitflags} {BL : BitflagsLaws} {BU : BitflagsUnion} {SH : Sha256} {CH : ChainHasher}.

Definition run_call (fuel : nat) (c : AuthorityCall) (a : ContextAuthority) : option ContextAuthority :=
  match c with
  | CallIssueRoot scope rights owner caller => snd <$> issue_root fuel scope rights owner caller a
  | CallBindExisting handle scope => Some (bind_existing handle scope a).2
  | CallDelegate source child requested owner caller =>
      snd <$> delegate fuel source child requested owner caller a
  | CallRevoke handle => snd <$> context_revoke fuel handle a
  | CallIncrementEpoch => Some (context_increment_epoch a)
  end.

(** The scopes and rights trusted code put in: a root issued by the
    hypervisor, or a capability of the kernel bound to a scope. *)
Definition trusted_by (c : AuthorityCall) (a : ContextAuthority) : list (ContextScope * CapRights) :=
  match c with
  | CallIssueRoot scope rights _ caller => if is_hypervisor caller then [(scope, rights)] else []
  | CallBindExisting handle scope =>
      match table_lookup (mg_table (ca_manager a)) (ch_index handle) (ch_generation handle) with
      | Ok slot => [(scope, tok_rights (sl_token slot))]
      | Err _ => []
      end
  | _ => []
  end.

Fixpoint run_calls (fuel : nat) (cs : list AuthorityCall) (a : ContextAuthority)
    : option (ContextAuthority * list (ContextScope * CapRights)) :=
  match cs with
  | [] => Some (a, [])
  | c :: cs =>
      a' ← run_call fuel c a;
      '(a'', trusted) ← run_calls fuel cs a';
      Some (a'', trusted_by c a ++ trusted)
  end.

Record authority_inv (trusted : list (ContextScope * CapRights)) (a : ContextAuthority) : Prop := {
  ai_table : table_inv (mg_table (ca_manager a));
  ai_ids i s : live (mg_table (ca_manager a)) i s → tok_id (sl_token s) < mg_next_id (ca_manager a);
  ai_unique i j s s' : live (mg_table (ca_manager a)) i s → live (mg_table (ca_manager a)) j s' →
    tok_id (sl_token s) = tok_id (sl_token s') → i = j;
  ai_grants g : g ∈ gt_grants (ca_grants a) → cg_token_id g < mg_next_id (ca_manager a);
  ai_bound i s g : live (mg_table (ca_manager a)) i s → g ∈ gt_grants (ca_grants a) →
    cg_token_id g = tok_id (sl_token s) →
    ∃ scope rights, (scope, rights) ∈ trusted ∧ contains_scope scope (cg_scope g) = true ∧
      rights_le (tok_rights (sl_token s)) rights;
}.

Lemma authority_inv_mono tr tr' a : (∀ x, x ∈ tr → x ∈ tr') → authority_inv tr a → authority_inv tr' a.
Proof.
  intros Hsub [? ? ? ? Hb]. split; try done. intros i s g Hs Hg E.
  destruct (Hb i s g Hs Hg E) as (sc & r & ? & ? & ?). exists sc, r. auto.
Qed.

(** A call that changes only the manager. *)
Lemma authority_inv_evolves tr a m' grants' :
  authority_inv tr a → evolves (ca_manager a) m' →
  (∀ g, g ∈ grants' → g ∈ gt_grants (ca_grants a)) →
  authority_inv tr (mkContextAuthority m' (mkContextGrantTable (gt_capacity (ca_grants a)) grants')).
Proof.
  intros [Ht Hid Hu Hg Hb] (Ht' & Hn & f & Hf) Hsub. split; cbn [ca_manager ca_grants gt_grants]; try done.
  - intros i s Hs. destruct (Hf i s Hs) as [(s0 & H0 & -> & _)|(_ & -> & ?)]; [|done].
    specialize (Hid i s0 H0). lia.
  - intros i j s s' Hs Hs' E.
    destruct (Hf i s Hs) as [(s0 & H0 & E0 & _)|(-> & E0 & _)],
      (Hf j s' Hs') as [(s1 & H1 & E1 & _)|(-> & E1 & _)]; try done.
    + apply (Hu i j s0 s1 H0 H1). congruence.
    + specialize (Hid i s0 H0). lia.
    + specialize (Hid j s1 H1). lia.
  - intros g Hin%Hsub. specialize (Hg g Hin). lia.
  - intros i s g Hs Hin%Hsub E.
    destruct (Hf i s Hs) as [(s0 & H0 & E0 & _ & _ & Hle)|(-> & E0 & _)].
    + destruct (Hb i s0 g H0 Hin) as (sc & r & ? & ? & ?); [congruence|].
      exists sc, r. split_and!; [done..|]. by eapply rights_le_trans.
    + specialize (Hg g Hin). lia.
Qed.

Lemma grant_get_elem id t g : grant_get id t = Some g → g ∈ gt_grants t ∧ cg_token_id g = id.
Proof.
  intros (E & i & Hi)%find_by_Some. split_bool. split; [|done]. by eapply list_elem_of_lookup_2.
Qed.

(** Binding the token of a live slot to a scope its holder is entitled to. *)
Lemma authority_inv_bind tr a i s scope :
  authority_inv tr a → live (mg_table (ca_manager a)) i s →
  (∃ sc r, (sc, r) ∈ tr ∧ contains_scope sc scope = true ∧ rights_le (tok_rights (sl_token s)) r) →
  authority_inv tr (mkContextAuthority (ca_manager a)
    (grant_bind (tok_id (sl_token s)) scope (ca_grants a)).2).
Proof.
  intros Ha Hs Htr. unfold grant_bind.
  assert (authority_inv tr (mkContextAuthority (ca_manager a) (ca_grants a))) as Ha' by by destruct a.
  destruct (grant_get _ _); [done|]. destruct (gt_capacity _ <=? _)%nat; [done|].
  destruct Ha as [Ht Hid Hu Hg Hb]. split; cbn [ca_manager ca_grants gt_grants snd]; try done.
  - intros g [Hin| ->%list_elem_of_singleton]%elem_of_app; [by apply Hg|]. cbn. by eapply Hid.
  - intros j s' g Hs' [Hin| ->%list_elem_of_singleton]%elem_of_app E; [by eapply Hb|].
    cbn in *. assert (j = i) as -> by (by eapply Hu). destruct Hs as [Hs _], Hs' as [Hs' _].
    assert (s' = s) as -> by congruence. done.
Qed.

Lemma authority_inv_manager tr a m' :
  authority_inv tr a → evolves (ca_manager a) m' →
  authority_inv tr (mkContextAuthority m' (ca_grants a)).
Proof.
  intros Ha Hev. pose proof (authority_inv_evolves tr a m' (gt_grants (ca_grants a)) Ha Hev) as H.
  destruct (ca_grants a) as [n gs]. by apply H.
Qed.

Lemma lookup_live t index g s :
  table_lookup t index g = Ok s → live t (Z.to_nat index) s.
Proof. by intros (? & ? & _)%table_lookup_Ok. Qed.

Definition entitled (tr : list (ContextScope * CapRights)) (scope : ContextScope) (s : CapSlot) : Prop :=
  ∃ sc r, (sc, r) ∈ tr ∧ contains_scope sc scope = true ∧ rights_le (tok_rights (sl_token s)) r.

Lemma bind_or_revoke_inv fuel tr handle scope a r a' :
  authority_inv tr a →
  (∀ s, table_lookup (mg_table (ca_manager a)) (ch_index handle) (ch_generation handle) = Ok s →
    entitled tr scope s) →
  bind_or_revoke fuel handle scope a = Some (r, a') → authority_inv tr a'.
Proof.
  intros Ha Hent H. unfold bind_or_revoke in H.
  destruct (table_lookup _ _ _) as [s|e] eqn:Hl; [|by injection H as _ <-].
  pose proof (authority_inv_bind tr a _ s scope Ha (lookup_live _ _ _ _ Hl) (Hent s eq_refl)) as Hb.
  destruct (grant_bind _ _ _) as [[u|e] grants] eqn:Eb; cbn [snd] in Hb.
  - by injection H as _ <-.
  - assert (grants = ca_grants a) as ->.
    { unfold grant_bind in Eb. destruct (grant_get _ _); [|destruct (_ <=? _)%nat]; by injection Eb. }
    destruct (manager_revoke _ _ _ _) as [[r' m']|] eqn:Er; [|done]. injection H as _ <-.
    destruct (manager_revoke_evolves _ _ _ _ _ _ (ai_table _ _ Ha) Er) as [Hev _].
    by apply authority_inv_manager.
Qed.

Lemma issue_root_inv fuel tr scope rights owner caller a r a' :
  authority_inv tr a → issue_root fuel scope rights owner caller a = Some (r, a') →
  authority_inv (trusted_by (CallIssueRoot scope rights owner caller) a ++ tr) a'.
Proof.
  intros Ha H. set (tr' := _ ++ tr).
  assert (authority_inv tr' a) as Ha' by (eapply authority_inv_mono; [|exact Ha]; set_solver).
  unfold issue_root, create_root_capability_checked in H. unfold tr' in *. clear tr'. cbn [trusted_by] in *.
  destruct (is_hypervisor caller); cbn [negb] in H.
  2:{ injection H as _ <-. by destruct a. }
  pose proof (create_root_evolves CtContext rights (scope_fingerprint scope) owner (ca_manager a)
    (ai_table _ _ Ha)) as Hc.
  destruct (create_root_capability_inner _ _ _ _ _) as [[[index g]|e] m']; destruct Hc as [Hev Hok].
  - eapply bind_or_revoke_inv; [by apply authority_inv_manager| |exact H].
    cbn [ca_manager ch_index ch_generation]. intros s Hs.
    destruct (Hok index g eq_refl) as (s' & Hs' & _ & Hr). rewrite Hs' in Hs. injection Hs as <-.
    exists scope, rights. split_and!; [set_solver|apply contains_scope_refl|]. rewrite Hr. apply rights_le_refl.
  - injection H as _ <-. by apply authority_inv_manager.
Qed.

Lemma bind_existing_inv tr handle scope a :
  authority_inv tr a →
  authority_inv (trusted_by (CallBindExisting handle scope) a ++ tr) (bind_existing handle scope a).2.
Proof.
  intros Ha. set (tr' := _ ++ tr).
  assert (authority_inv tr' a) as Ha' by (eapply authority_inv_mono; [|exact Ha]; set_solver).
  unfold bind_existing. destruct (manager_verify_p1 _ _ _ _); [|done].
  destruct (table_lookup _ _ _) as [s|e] eqn:Hl; [|done]. case_bool_decide; [done|].
  pose proof (authority_inv_bind tr' a _ s scope Ha' (lookup_live _ _ _ _ Hl)) as Hb.
  destruct (grant_bind _ _ _) as [r grants]. cbn [snd] in *. apply Hb.
  exists scope, (tok_rights (sl_token s)). split_and!; [|apply contains_scope_refl|apply rights_le_refl].
  unfold tr'. cbn [trusted_by]. rewrite Hl. set_solver.
Qed.

Lemma delegate_inv fuel tr source child req owner caller a r a' :
  authority_inv tr a → delegate fuel source child req owner caller a = Some (r, a') →
  authority_inv tr a'.
Proof.
  intros Ha H. unfold delegate in H. destruct (manager_verify_p1 _ _ _ _); [|by injection H as _ <-].
  destruct (table_lookup _ _ _) as [sp|e] eqn:Hl; [|by injection H as _ <-].
  destruct (bool_decide _ || _); [by injection H as _ <-|].
  destruct (grant_get _ _) as [parent|] eqn:Hp; [|by injection H as _ <-].
  destruct (contains_scope (cg_scope parent) child) eqn:Hcs; cbn [negb] in H; [|by injection H as _ <-].
  unfold grant_checked in H.
  pose proof (grant_evolves (ch_index source) (ch_generation source) req (scope_fingerprint child) owner
    (Some caller) (ca_manager a) (ai_table _ _ Ha)) as Hg.
  destruct (grant_with_caller _ _ _ _ _ _ _) as [[[index g]|e] m']; destruct Hg as [Hev Hok].
  - eapply bind_or_revoke_inv; [by apply authority_inv_manager| |exact H].
    cbn [ca_manager ch_index ch_generation]. intros s Hs.
    destruct (Hok index g eq_refl) as (sp' & Hl' & s' & Hs' & _ & _ & Hr).
    assert (sp' = sp) as -> by congruence. rewrite Hs' in Hs. injection Hs as <-.
    apply grant_get_elem in Hp as [Hin E].
    destruct (ai_bound _ _ Ha _ sp parent (lookup_live _ _ _ _ Hl) Hin E) as (sc & rr & ? & ? & ?).
    exists sc, rr. split_and!; [done|by eapply contains_scope_trans|by eapply rights_le_trans].
  - injection H as _ <-. by apply authority_inv_manager.
Qed.

Lemma context_revoke_inv fuel tr handle a r a' :
  authority_inv tr a → context_revoke fuel handle a = Some (r, a') → authority_inv tr a'.
Proof.
  intros Ha H. unfold context_revoke in H.
  destruct (manager_revoke _ _ _ _) as [[r' m']|] eqn:Er; [|done]. cbn in H.
  destruct (manager_revoke_evolves _ _ _ _ _ _ (ai_table _ _ Ha) Er) as [Hev _].
  destruct r' as [res|e]; injection H as _ <-; [|by apply authority_inv_manager].
  unfold grant_retain_live. apply authority_inv_evolves; [done..|].
  intros g Hg. apply list_elem_of_filter in Hg. tauto.
Qed.

Lemma increment_epoch_inv tr a : authority_inv tr a → authority_inv tr (context_increment_epoch a).
Proof.
  intros Ha. unfold context_increment_epoch, grant_clear. apply authority_inv_evolves; [done| |set_solver].
  apply evolves_refl; [apply Ha|done..].
Qed.

Lemma run_call_inv fuel tr c a a' :
  authority_inv tr a → run_call fuel c a = Some a' → authority_inv (trusted_by c a ++ tr) a'.
Proof.
  intros Ha H. destruct c as [scope rights owner caller|handle scope|source child req owner caller|handle|];
    cbn [run_call] in H.
  - destruct (issue_root _ _ _ _ _ _) as [[r a1]|] eqn:E; [|done]. injection H as <-.
    by eapply issue_root_inv.
  - injection H as <-. by apply bind_existing_inv.
  - destruct (delegate _ _ _ _ _ _ _) as [[r a1]|] eqn:E; [|done]. injection H as <-.
    by eapply delegate_inv.
  - destruct (context_revoke _ _ _) as [[r a1]|] eqn:E; [|done]. injection H as <-.
    by eapply context_revoke_inv.
  - injection H as <-. by apply increment_epoch_inv.
Qed.

Lemma run_calls_inv fuel cs a a' tr tr0 :
  authority_inv tr0 a → run_calls fuel cs a = Some (a', tr) → authority_inv (tr ++ tr0) a'.
Proof.
  revert a tr tr0. induction cs as [|c cs IH]; intros a tr tr0 Ha H; cbn [run_calls] in H.
  - by injection H as <- <-.
  - destruct (run_call fuel c a) as [a1|] eqn:E; [|done]. cbn in H.
    destruct (run_calls fuel cs a1) as [[a2 tr2]|] eqn:E2; [|done]. cbn in H. injection H as <- <-.
    eapply authority_inv_mono; [|eapply (IH a1 tr2 (trusted_by c a ++ tr0)); [|done]].
    + intros x. rewrite !elem_of_app. tauto.
    + by eapply run_call_inv.
Qed.

Lemma authority_new_inv N config G :
  Z.of_nat N ≤ u32_max → authority_inv [] (authority_new_from G (manager_new N config)).
Proof.
  intros HN. assert (∀ i s, ¬ live (mg_table (manager_new N config)) i s) as Hno.
  { intros i s [[-> _]%lookup_replicate_1 Hv]. done. }
  split; cbn [ca_manager ca_grants authority_new_from gt_grants grant_table_new].
  - by apply table_new_inv.
  - by intros i s ?%Hno.
  - by intros i j s s' ?%Hno.
  - set_solver.
  - by intros i s g ?%Hno.
Qed.

(* ------------------------------------------------------------------ *)
(** ** Authorization *)

(** The conditions of an authorization. *)
Definition authorizes (a : ContextAuthority) (actor : PartitionId) (request : ContextRequest)
    (op : ContextOperation) (slot : CapSlot) : Prop :=
  rq_operation request = op ∧ target_shape_is_valid op (rq_target request) = true ∧
  table_lookup (mg_table (ca_manager a)) (ch_index (rq_capability request))
    (ch_generation (rq_capability request)) = Ok slot ∧
  tok_epoch (sl_token slot) = pv_current_epoch (mg_verifier (ca_manager a)) ∧
  rights_le (required_rights op) (tok_rights (sl_token slot)) ∧
  tok_type (sl_token slot) = CtContext ∧ sl_owner slot = actor ∧
  ∃ g, grant_get (tok_id (sl_token slot)) (ca_grants a) = Some g ∧
    scope_allows (cg_scope g) (rq_target request) op = true.

Definition decision_record (action : ActionKind) (actor : PartitionId) (ts : Z) (request : ContextRequest)
    (hash : Z) : WitnessRecord :=
  context_record action (rq_operation request) actor hash ts (sha256 (uri_to_string (rq_target request))).

Lemma authorize_Ok_inv a actor ts request op l ar l' :
  context_authorize a actor ts request op l = (Ok ar, l') →
  ∃ slot, authorizes a actor request op slot ∧ ar_actor ar = actor ∧ ar_target ar = rq_target request.
Proof.
  intros H. unfold context_authorize in H.
  destruct (bool_decide (rq_operation request ≠ op) || _) eqn:E1; [done|].
  apply orb_false_iff in E1 as [Eop Esh]. apply bool_decide_eq_false, dec_stable in Eop.
  apply negb_false_iff in Esh. unfold manager_verify_p1 in H.
  destruct (is_ok (verify_p1 _ _ _ _ _)) eqn:E2; cbn [negb] in H; [|done].
  destruct (verify_p1 _ _ _ _ _) as [[]|] eqn:Hp1; [|done]. apply verify_p1_Ok in Hp1 as (slot & Hl & He & Hr).
  rewrite Hl in H. destruct (bool_decide (tok_type _ ≠ CtContext) || _) eqn:E3; [done|].
  apply orb_false_iff in E3 as [Ety Eo]. apply bool_decide_eq_false, dec_stable in Ety. split_bool.
  destruct (grant_get _ _) as [g|] eqn:Hg; [|done].
  destruct (scope_allows _ _ _) eqn:Hsc; cbn [negb] in H; [|done].
  destruct (emit_decision _ _ _ _ _ _) as [seq l1]. injection H as <- _.
  exists slot. split_and!; [|done..]. split_and!; [done..|by apply contains_rights|done|done|]. by exists g.
Qed.

(** An authorization succeeds exactly when the request is for the called
    operation with a target of the right shape, the handle resolves to a live
    context capability of the current epoch owned by the actor with the
    operation's rights, and the scope bound to its token allows the target;
    a refusal names a wrong operation or shape, and is [AccessDenied]
    otherwise.  Either way exactly one record is appended, which tells the
    outcome, and its sequence number is the one handed on. *)
Theorem authorize_exact a actor ts request op l :
  match context_authorize a actor ts request op l with
  | (Ok ar, l') =>
      ∃ slot, authorizes a actor request op slot ∧
        let hash := truncated_hash (sl_token slot) in
        let entry := log_append (decision_record AkProofVerifiedP1 actor ts request hash) l in
        ar = mkAuthorizedRequest actor op (rq_target request) hash entry.1 ts ∧ l' = entry.2
  | (Err e, l') =>
      (∀ slot, ¬ authorizes a actor request op slot) ∧
      (∃ hash, l' = (log_append (decision_record AkProofRejected actor ts request hash) l).2) ∧
      e = (if bool_decide (rq_operation request = op) && target_shape_is_valid op (rq_target request)
           then AccessDenied else shape_error request op)
  end.
Proof.
  unfold context_authorize.
  destruct (bool_decide (rq_operation request ≠ op) || _) eqn:E1.
  { split_and!; [|by eexists|].
    - intros slot (Hop & Hsh & _). rewrite bool_decide_false, Hsh in E1 by tauto. done.
    - destruct (decide (rq_operation request = op)) as [Hop|Hop].
      + rewrite bool_decide_false in E1 by tauto. cbn [orb] in E1. apply negb_true_iff in E1.
        by rewrite E1, andb_false_r.
      + by rewrite bool_decide_false. }
  apply orb_false_iff in E1 as [Eop Esh]. apply bool_decide_eq_false, dec_stable in Eop.
  apply negb_false_iff in Esh. rewrite Esh, bool_decide_true by done. cbn [andb].
  unfold manager_verify_p1.
  destruct (is_ok (verify_p1 _ _ _ _ _)) eqn:E2; cbn [negb].
  2:{ split_and!; [|by eexists|done]. intros slot (_ & _ & Hl & He & Hr & _).
      assert (verify_p1 (mg_verifier (ca_manager a)) (mg_table (ca_manager a))
        (ch_index (rq_capability request)) (ch_generation (rq_capability request))
        (required_rights op) = Ok tt) as H; [|by rewrite H in E2].
      apply verify_p1_Ok. exists slot. split_and!; [done..|by apply contains_rights]. }
  destruct (verify_p1 _ _ _ _ _) as [[]|] eqn:Hp1; [|done]. apply verify_p1_Ok in Hp1 as (slot & Hl & He & Hr).
  rewrite Hl. destruct (bool_decide (tok_type _ ≠ CtContext) || _) eqn:E3.
  { split_and!; [|by eexists|done]. intros slot' (_ & _ & Hl' & _ & _ & Hty & Ho & _).
    rewrite Hl in Hl'. injection Hl' as <-. rewrite Hty, Ho, Z.eqb_refl, bool_decide_false in E3 by tauto. done. }
  apply orb_false_iff in E3 as [Ety Eo]. apply bool_decide_eq_false, dec_stable in Ety. split_bool.
  destruct (grant_get _ _) as [g|] eqn:Hg.
  2:{ split_and!; [|by eexists|done]. intros slot' (_ & _ & Hl' & _ & _ & _ & _ & g & Hg' & _).
      rewrite Hl in Hl'. injection Hl' as <-. congruence. }
  destruct (scope_allows _ _ _) eqn:Hsc; cbn [negb].
  2:{ split_and!; [|by eexists|done]. intros slot' (_ & _ & Hl' & _ & _ & _ & _ & g' & Hg' & Hs').
      rewrite Hl in Hl'. injection Hl' as <-. congruence. }
  unfold emit_decision. fold (decision_record AkProofVerifiedP1 actor ts request (truncated_hash (sl_token slot))).
  destruct (log_append _ l) as [seq l'] eqn:El. exists slot. cbn zeta. rewrite El. split_and!; [|done|done].
  split_and!; [done..|by apply contains_rights|done|done|]. by exists g.
Qed.

(** C12: What an authorization means.  After any sequence of issuing, binding,
    delegating, revoking and epoch changes, in whatever order and with
    whatever handles, a request is authorized only if trusted code put in one
    scope and one set of rights that cover it: the target lies in that scope,
    the view is one the scope discloses, and the operation's rights are among
    them.  The actor owns the capability.  Delegation chains cannot combine
    the scope of one grant with the rights of another. *)
Theorem context_authority_confined fuel N config G cs a tr actor ts request op l ar l' :
  Z.of_nat N ≤ u32_max →
  run_calls fuel cs (authority_new_from G (manager_new N config)) = Some (a, tr) →
  context_authorize a actor ts request op l = (Ok ar, l') →
  ar_actor ar = actor ∧ ar_target ar = rq_target request ∧
  ∃ scope rights, (scope, rights) ∈ tr ∧ scope_allows scope (ar_target ar) op = true ∧
    rights_le (required_rights op) rights.
Proof.
  intros HN Hrun Hau.
  pose proof (run_calls_inv fuel cs _ a tr [] (authority_new_inv N config G HN) Hrun) as Ha.
  rewrite app_nil_r in Ha. clear Hrun.
  apply authorize_Ok_inv in Hau as (slot & (_ & _ & Hl & _ & Hr & _ & _ & g & Hg & Hs) & E1 & E2).
  split_and!; [done..|]. rewrite E2. apply grant_get_elem in Hg as [Hin Hid].
  destruct (ai_bound _ _ Ha _ slot g (lookup_live _ _ _ _ Hl) Hin Hid) as (sc & r & Htr & Hcs & Hrr).
  exists sc, r. split_and!; [done|by eapply scope_allows_mono|by eapply rights_le_trans].
Qed.
End histories.

(* ------------------------------------------------------------------ *)
(** ** A sample: a root for one agent's skills, delegated for one path *)

Section sample.
#[local] Existing Instance bitflags_u8.
#[local] Existing Instance fnv_hasher.
#[local] Instance sample_rights_union : BitflagsUnion := Z.lor.
#[local] Instance sample_scope_hash : Sha256 := λ data, replicate 32 (foldl Z.add 0 data mod 256).

Definition sample_skills : RuvUri :=
  match uri_from_str (lit "ruv://ctx.example.com/acme/agent/planner/skills") with
  | Ok u => u
  | Err _ => mkRuvUri (mkAuthority []) (mkTenantId []) (mkSubject SkAgent (mkSubjectId [])) ColSkills [] None None
  end.
Definition sample_search : RuvUri :=
  match uri_from_str (lit "ruv://ctx.example.com/acme/agent/planner/skills/search") with
  | Ok u => u
  | Err _ => sample_skills
  end.
Definition sample_calls : list AuthorityCall :=
  [CallIssueRoot (scope_from_uri sample_skills VIEW_ALL) (Z.lor READ GRANT) 5 0;
   CallDelegate (mkCapabilityHandle 0 1) (scope_from_uri sample_search (Z.lor VIEW_MANIFEST VIEW_CONTENT)) READ 6 5].

Definition sample_request (op : ContextOperation) (u : RuvUri) : ContextRequest :=
  mkContextRequest (mkCapabilityHandle 1 1) op u.

(** The delegate may read under its path; neither the parent path nor a
    search is disclosed to it, and the wrong actor is refused. *)
Definition sample_verdict (actor : PartitionId) (op : ContextOperation) (u : RuvUri) : option (ContextResult Z) :=
  '(a, _) ← run_calls 10 sample_calls (authority_new_from 4 (manager_new 4 cap_config_new));
  Some (ar_witness_sequence <$> (context_authorize a actor 9 (sample_request op u) op (log_new 4)).1).

Example delegate_reads_its_path : sample_verdict 6 OpRead sample_search = Some (Ok 0).
Proof. vm_compute. reflexivity. Qed.
Example delegate_not_parent_path : sample_verdict 6 OpRead sample_skills = Some (Err AccessDenied).
Proof. vm_compute. reflexivity. Qed.
Example delegate_not_search : sample_verdict 6 OpSearch sample_search = Some (Err AccessDenied).
Proof. vm_compute. reflexivity. Qed.
Example delegate_wrong_actor : sample_verdict 5 OpRead sample_search = Some (Err AccessDenied).
Proof. vm_compute. reflexivity. Qed.

Lemma context_authority_confined_witness :
  ∃ a tr ar, run_calls 10 sample_calls (authority_new_from 4 (manager_new 4 cap_config_new)) = Some (a, tr) ∧
    (context_authorize a 6 9 (sample_request OpRead sample_search) OpRead (log_new 4)).1 = Ok ar ∧
    ∃ scope rights, (scope, rights) ∈ tr ∧ scope_allows scope (ar_target ar) OpRead = true ∧
      rights_le (required_rights OpRead) rights.
Proof.
  set (a := match run_calls 10 sample_calls (authority_new_from 4 (manager_new 4 cap_config_new)) with
            | Some (a, _) => a | None => authority_new_from 4 (manager_new 4 cap_config_new) end).
  set (out := context_authorize a 6 9 (sample_request OpRead sample_search) OpRead (log_new 4)).
  assert (∃ tr, run_calls 10 sample_calls (authority_new_from 4 (manager_new 4 cap_config_new)) = Some (a, tr))
    as [tr Hrun] by (eexists; vm_compute; reflexivity).
  assert (∃ ar, out.1 = Ok ar) as [ar Har] by (eexists; vm_compute; reflexivity).
  exists a, tr, ar. split; [exact Hrun|]. split; [exact Har|].
  apply (context_authority_confined 10 4 cap_config_new 4 sample_calls a tr 6 9
    (sample_request OpRead sample_search) OpRead (log_new 4) ar out.2);
    [vm_compute; discriminate|exact Hrun|rewrite <-Har; apply surjective_pairing].
Defined.
End sample.
