(* ===== verification/ContextResolver.v ===== *)
(** The resolver contract and the in-memory resolver:
    [crates/rvm-context/src/resolver.rs].

    Objects are immutable and named by logical name and revision; a versionless
    alias points at one revision and advances only by compare-and-swap on its
    whole snapshot.  The file proves that snapshots never recur, that tombstones
    are final, that stored bytes match their revision, and that bounded search
    returns the best hits. *)

From stdpp Require Import base numbers list option strings sets sorting.
From Stdlib Require Import ZArith Lia.
From S2P Require Import Prelude.
From S2P Require Import Text.
From S2P Require Import Bytes.
From S2P Require Import Sorting.
From S2P Require Import Types.
From S2P Require Import WitnessLog.
From S2P Require Import Security.
From S2P Require Import Signers.
From S2P Require Import RvfFormat.
From S2P Require Import RvfPayload.
From S2P Require Import RvfCapability.
From S2P Require Import RvfVerify.
From S2P Require Import ContextMatch.
From S2P Require Import ContextUri.
From S2P Require Import ContextProfile.
From S2P Require Import ContextCap.

Definition MAX_RVF_BYTES : Z := 16777216.
Definition MAX_SEARCH_QUERY_BYTES : nat := 4096.
Definition MAX_ENUM_RESULTS : nat := 64.
Definition TOMBSTONE_DOMAIN : list Z := lit "RUV-CONTEXT-TOMBSTONE-V1".

(* ------------------------------------------------------------------ *)
(** ** Names and their order *)

Definition bytes_cmp : list Z → list Z → comparison := list_cmp Z.compare.
Definition subject_kind_index (k : SubjectKind) : Z :=
  match k with SkAgent => 0 | SkUser => 1 | SkService => 2 | SkTeam => 3 end.
Definition collection_index (c : Collection) : Z :=
  match c with ColMemory => 0 | ColResources => 1 | ColSkills => 2 end.

(** The derived [Ord] of the fields in declaration order. *)
Definition authority_cmp : RuvUri → RuvUri → comparison := cmp_by (λ u, au_text (ru_authority u)) bytes_cmp.
Definition tenant_cmp : RuvUri → RuvUri → comparison := cmp_by (λ u, tn_text (ru_tenant u)) bytes_cmp.
Definition subject_kind_cmp : RuvUri → RuvUri → comparison :=
  cmp_by (λ u, subject_kind_index (sub_kind (ru_subject u))) Z.compare.
Definition subject_id_cmp : RuvUri → RuvUri → comparison :=
  cmp_by (λ u, sj_text (sub_id (ru_subject u))) bytes_cmp.
Definition collection_cmp : RuvUri → RuvUri → comparison :=
  cmp_by (λ u, collection_index (ru_collection u)) Z.compare.
Definition path_cmp : RuvUri → RuvUri → comparison :=
  cmp_by ru_path (list_cmp (cmp_by ps_text bytes_cmp)).
Definition rev_cmp : Revision → Revision → comparison := cmp_by rev_bytes bytes_cmp.
Definition revision_cmp : RuvUri → RuvUri → comparison := cmp_by ru_revision (option_cmp rev_cmp).
Definition view_cmp_uri : RuvUri → RuvUri → comparison :=
  cmp_by ru_view (option_cmp (cmp_by view_code Z.compare)).

Definition uri_cmp (u v : RuvUri) : comparison :=
  cmp_then (authority_cmp u v) (cmp_then (tenant_cmp u v) (cmp_then (subject_kind_cmp u v)
    (cmp_then (subject_id_cmp u v) (cmp_then (collection_cmp u v) (cmp_then (path_cmp u v)
      (cmp_then (revision_cmp u v) (view_cmp_uri u v))))))).
Definition pinned_cmp (p q : PinnedRuvUri) : comparison :=
  cmp_then (cmp_by pn_uri uri_cmp p q) (cmp_by pn_revision rev_cmp p q).

Definition same_logical_name (left right : RuvUri) : bool :=
  bool_decide (ru_authority left = ru_authority right) && bool_decide (ru_tenant left = ru_tenant right) &&
  bool_decide (ru_subject left = ru_subject right) && bool_decide (ru_collection left = ru_collection right) &&
  bool_decide (ru_path left = ru_path right).

Definition is_within (root hit_candidate : RuvUri) : bool :=
  bool_decide (ru_authority root = ru_authority hit_candidate) && bool_decide (ru_tenant root = ru_tenant hit_candidate) &&
  bool_decide (ru_subject root = ru_subject hit_candidate) && bool_decide (ru_collection root = ru_collection hit_candidate) &&
  (length (ru_path root) <=? length (ru_path hit_candidate))%nat &&
  bool_decide (take (length (ru_path root)) (ru_path hit_candidate) = ru_path root).

(* ------------------------------------------------------------------ *)
(** ** Aliases, results, hits *)

(** An [AliasGeneration] is a nonzero [u64]. *)
Notation AliasGeneration := Z (only parsing).
Definition GENERATION_INITIAL : AliasGeneration := 1.
Definition generation_new (value : Z) : option AliasGeneration := if value =? 0 then None else Some value.
Definition checked_next (g : AliasGeneration) : ContextResult AliasGeneration :=
  ok_or (checked_add u64_max g 1) AliasGenerationExhausted.

Record AliasSnapshot : Set := mkAliasSnapshot {
  as_alias : RuvUri;
  as_revision : Revision;
  as_generation : AliasGeneration;
  as_tombstone : bool;
}.
#[export] Instance AliasSnapshot_eq_dec : EqDecision AliasSnapshot.
Proof. solve_decision. Defined.

Definition alias_snapshot_new (alias : RuvUri) (revision : Revision) (generation : AliasGeneration)
    (tombstone : bool) : ContextResult AliasSnapshot :=
  if is_pinned alias || is_some (ru_view alias) then Err VersionlessUriRequired
  else Ok (mkAliasSnapshot alias revision generation tombstone).

Record ResolvedContext : Set := mkResolvedContext {
  rc_pinned_uri : PinnedRuvUri;
  rc_revision : Revision;
  rc_alias : option AliasSnapshot;
  rc_rvf_len : Z;
}.
Definition resolved_context_new (pinned : PinnedRuvUri) (revision : Revision) (alias : option AliasSnapshot)
    (rvf_len : Z) : ContextResult ResolvedContext :=
  if negb (bool_decide (pn_revision pinned = revision)) ||
     is_some_and (λ s, negb (same_logical_name (as_alias s) (pn_uri pinned))) alias
  then Err InvalidTarget
  else Ok (mkResolvedContext pinned revision alias rvf_len).

Record ContextHit : Set := mkContextHit {
  ht_pinned_uri : PinnedRuvUri;
  ht_revision : Revision;
  ht_score : Z;
  ht_alias_generation : option AliasGeneration;
}.
Definition context_hit_new (pinned : PinnedRuvUri) (revision : Revision) (score : Z)
    (generation : option AliasGeneration) : ContextResult ContextHit :=
  if negb (bool_decide (pn_revision pinned = revision)) || (score =? 0) then Err InvalidTarget
  else Ok (mkContextHit pinned revision score generation).

Definition compare_hits (left right : ContextHit) : comparison :=
  cmp_then (Z.compare (ht_score right) (ht_score left)) (pinned_cmp (ht_pinned_uri left) (ht_pinned_uri right)).

Definition push_top_hit (hits : list ContextHit) (limit : nat) (hit : ContextHit) : list ContextHit :=
  if (length hits <? limit)%nat then hits ++ [hit]
  else
    let worst_index := default 0%nat (max_index_by compare_hits hits) in
    match hits !! worst_index with
    | Some worst => match compare_hits hit worst with Lt => <[worst_index := hit]> hits | _ => hits end
    | None => hits
    end.

(* ------------------------------------------------------------------ *)
(** ** The resolver trait *)

(** Every method takes [&mut self] and an authorized request. *)
Class ContextResolver (R : Type) : Type := {
  rs_resolve : AuthorizedRequest → R → ContextResult ResolvedContext * R;
  rs_list : AuthorizedRequest → nat → R → ContextResult (list ResolvedContext) * R;
  rs_tree : AuthorizedRequest → nat → R → ContextResult (list ResolvedContext) * R;
  rs_read : AuthorizedRequest → R → ContextResult (ResolvedContext * list Z) * R;
  rs_search : AuthorizedRequest → list Z → nat → R → ContextResult (list ContextHit) * R;
  rs_history : AuthorizedRequest → nat → R → ContextResult (list ResolvedContext) * R;
  rs_verify : AuthorizedRequest → R → ContextResult (ResolvedContext * list Z) * R;
  rs_put : AuthorizedRequest → list Z → R → ContextResult ResolvedContext * R;
  rs_compare_and_swap_alias :
    AuthorizedRequest → option AliasSnapshot → Revision → R → ContextResult AliasSnapshot * R;
  rs_forget : AuthorizedRequest → AliasSnapshot → R → ContextResult AliasSnapshot * R;
  rs_prepare_execute : AuthorizedRequest → R → ContextResult (ResolvedContext * list Z) * R;
}.

(* ------------------------------------------------------------------ *)
(** ** The in-memory resolver *)

Record StoredObject : Set := mkStoredObject {
  so_canonical_uri : RuvUri;
  so_revision : Revision;
  so_rvf : list Z;
  so_tombstone : bool;
  so_forgotten : bool;
}.

(** [mr_max_objects] and [mr_max_aliases] are the const parameters. *)
Record MemoryResolver : Set := mkMemoryResolver {
  mr_max_objects : nat;
  mr_max_aliases : nat;
  mr_objects : list StoredObject;
  mr_aliases : list AliasSnapshot;
}.
Definition memory_resolver_new (OBJECTS ALIASES : nat) : MemoryResolver := mkMemoryResolver OBJECTS ALIASES [] [].
Definition object_count (r : MemoryResolver) : nat := length (mr_objects r).
Definition alias_count (r : MemoryResolver) : nat := length (mr_aliases r).

Definition ensure_operation (request : AuthorizedRequest) (expected : ContextOperation) : ContextResult unit :=
  if bool_decide (ar_operation request = expected) then Ok tt else Err OperationMismatch.

Definition object_matches (target : RuvUri) (revision : Revision) (o : StoredObject) : bool :=
  bool_decide (so_revision o = revision) && same_logical_name (so_canonical_uri o) target.
Definition object_for (target : RuvUri) (revision : Revision) (r : MemoryResolver) : option StoredObject :=
  find_by (object_matches target revision) (mr_objects r).
Definition alias_index (target : RuvUri) (r : MemoryResolver) : option nat :=
  position (λ s, same_logical_name (as_alias s) target) (mr_aliases r).

Definition validate_enumeration_limit (limit : nat) : ContextResult unit :=
  if (limit =? 0)%nat || (MAX_ENUM_RESULTS <? limit)%nat then Err InvalidResultLimit else Ok tt.

Definition dead (o : StoredObject) : bool := so_tombstone o || so_forgotten o.
Definition rvf_length (o : StoredObject) : Z := Z.of_nat (length (so_rvf o)).
Definition pin (revision : Revision) (u : RuvUri) : ContextResult PinnedRuvUri :=
  map_err (λ _, InvalidTarget) (with_revision revision u).
Definition pin_target (u : RuvUri) : ContextResult PinnedRuvUri :=
  map_err (λ _, PinnedUriRequired) (pinned_try_from u).

(** The loop of [enumerate_aliases]: the entries found, or the first error. *)
Fixpoint enumerate_loop (target : RuvUri) (recursive : bool) (r : MemoryResolver)
    (aliases : list AliasSnapshot) : ContextResult (list ResolvedContext) :=
  match aliases with
  | [] => Ok []
  | s :: aliases =>
      let child_depth := length (ru_path (as_alias s)) in
      let root_depth := length (ru_path target) in
      let is_descendant := (root_depth <? child_depth)%nat && is_within target (as_alias s) in
      if as_tombstone s || negb is_descendant || (negb recursive && negb (child_depth =? root_depth + 1)%nat)
      then enumerate_loop target recursive r aliases
      else
        match object_for (as_alias s) (as_revision s) r with
        | None => enumerate_loop target recursive r aliases
        | Some o =>
            if dead o then enumerate_loop target recursive r aliases
            else
              pinned ← pin (as_revision s) (as_alias s);
              entries ← enumerate_loop target recursive r aliases;
              Ok (mkResolvedContext pinned (as_revision s) (Some s) (rvf_length o) :: entries)
        end
  end.
Definition enumerate_aliases (target : RuvUri) (limit : nat) (recursive : bool) (r : MemoryResolver)
    : ContextResult (list ResolvedContext) :=
  _ ← validate_enumeration_limit limit;
  entries ← enumerate_loop target recursive r (mr_aliases r);
  Ok (take limit (sort_by (cmp_by rc_pinned_uri pinned_cmp) entries)).

(** The object's resolved metadata and its bytes. *)
Definition resolved_for (target : RuvUri) (r : MemoryResolver) : ContextResult (ResolvedContext * StoredObject) :=
  match ru_revision target with
  | Some revision =>
      o ← ok_or (object_for target revision r) RevisionNotFound;
      if dead o then Err Tombstoned
      else
        pinned ← pin_target target;
        Ok (mkResolvedContext pinned revision None (rvf_length o), o)
  | None =>
      index ← ok_or (alias_index target r) AliasNotFound;
      snapshot ← ok_or (mr_aliases r !! index) AliasNotFound;
      if as_tombstone snapshot then Err Tombstoned
      else
        o ← ok_or (object_for target (as_revision snapshot) r) RevisionNotFound;
        if dead o || negb (same_logical_name (so_canonical_uri o) target)
        then Err (if dead o then Tombstoned else RevisionConflict)
        else
          pinned ← pin (as_revision snapshot) target;
          Ok (mkResolvedContext pinned (as_revision snapshot) (Some snapshot) (rvf_length o), o)
  end.

Definition push_object (o : StoredObject) (r : MemoryResolver) : MemoryResolver :=
  mkMemoryResolver (mr_max_objects r) (mr_max_aliases r) (mr_objects r ++ [o]) (mr_aliases r).
Definition push_alias (s : AliasSnapshot) (r : MemoryResolver) : MemoryResolver :=
  mkMemoryResolver (mr_max_objects r) (mr_max_aliases r) (mr_objects r) (mr_aliases r ++ [s]).
Definition set_alias (index : nat) (s : AliasSnapshot) (r : MemoryResolver) : MemoryResolver :=
  mkMemoryResolver (mr_max_objects r) (mr_max_aliases r) (mr_objects r) (<[index := s]> (mr_aliases r)).
(** [for object in &mut self.objects] of [forget]. *)
Definition forget_objects (target : RuvUri) (r : MemoryResolver) : MemoryResolver :=
  mkMemoryResolver (mr_max_objects r) (mr_max_aliases r)
    ((λ o, if negb (so_tombstone o) && same_logical_name (so_canonical_uri o) target
           then mkStoredObject (so_canonical_uri o) (so_revision o) (so_rvf o) (so_tombstone o) true
           else o) <$> mr_objects r)
    (mr_aliases r).

Section resolver.
Context `{!BitflagsUnion, !Sha256, !SegmentHashes, !ConstantTimeEq, !Ed25519}.

Definition tombstone_payload (alias : RuvUri) (expected : AliasSnapshot) (generation : AliasGeneration) : list Z :=
  TOMBSTONE_DOMAIN ++ [0] ++ uri_to_string alias ++ [0] ++ rev_bytes (as_revision expected) ++
  le_bytes 8 generation.

Definition insert_tombstone (alias : RuvUri) (expected : AliasSnapshot) (generation : AliasGeneration)
    : prog MemoryResolver ContextError Revision := λ r,
  let payload := tombstone_payload alias expected generation in
  let revision := mkRevision (sha256 payload) in
  match object_for alias revision r with
  | Some existing =>
      (if so_tombstone existing && bool_decide (so_rvf existing = payload) then Ok revision
       else Err RevisionConflict, r)
  | None =>
      if (mr_max_objects r <=? length (mr_objects r))%nat then (Err ObjectTableFull, r)
      else (Ok revision, push_object (mkStoredObject alias revision payload true false) r)
  end.

(** The matcher is built and run to the end for every query (see
    [query_matcher_exact]). *)
Definition matcher_for (query : list Z) : QueryMatcher := default (mkQueryMatcher query []) (matcher_new query).

Definition score_view (o : StoredObject) (requested : option ProgressiveView) (m : QueryMatcher)
    : ContextResult Z :=
  profile ← map_err (λ _, RvfVerificationFailed) (from_rvf (so_rvf o) (so_revision o) PinnedIdentity []);
  let view := default PvOverview requested in
  match profile_view view (vp_profile profile) with
  | None => Ok 0
  | Some _ =>
      payload ← map_err (λ _, RvfVerificationFailed) (view_payload (so_rvf o) view profile);
      Ok (default 0 (occurrence_count m payload))
  end.

(** The loop over the aliases of [search]: the hits kept so far. *)
Fixpoint search_loop (target : RuvUri) (m : QueryMatcher) (limit : nat) (r : MemoryResolver)
    (aliases : list AliasSnapshot) (hits : list ContextHit) : ContextResult (list ContextHit) :=
  match aliases with
  | [] => Ok hits
  | s :: aliases =>
      if as_tombstone s || negb (is_within target (as_alias s)) then search_loop target m limit r aliases hits
      else
        match object_for (as_alias s) (as_revision s) r with
        | None => search_loop target m limit r aliases hits
        | Some o =>
            if dead o then search_loop target m limit r aliases hits
            else
              score ← score_view o (ru_view target) m;
              if score =? 0 then search_loop target m limit r aliases hits
              else
                pinned ← pin (as_revision s) (as_alias s);
                search_loop target m limit r aliases
                  (push_top_hit hits limit (mkContextHit pinned (as_revision s) score (Some (as_generation s))))
        end
  end.

Definition search_hits (target : RuvUri) (m : QueryMatcher) (limit : nat) (r : MemoryResolver)
    : ContextResult (list ContextHit) :=
  match ru_revision target with
  | Some revision =>
      match object_for target revision r with
      | Some o =>
          if negb (dead o) && same_logical_name (so_canonical_uri o) target then
            score ← score_view o (ru_view target) m;
            if 0 <? score then
              pinned ← pin_target target;
              Ok (push_top_hit [] limit (mkContextHit pinned revision score None))
            else Ok []
          else Ok []
      | None => Ok []
      end
  | None => search_loop target m limit r (mr_aliases r) []
  end.

Definition mem_search (request : AuthorizedRequest) (query : list Z) (limit : nat) (r : MemoryResolver)
    : ContextResult (list ContextHit) :=
  _ ← ensure_operation request OpSearch;
  if bool_decide (query = []) || (MAX_SEARCH_QUERY_BYTES <? length query)%nat then Err CxInvalidQuery
  else if (limit =? 0)%nat || (MAX_SEARCH_RESULTS <? Z.of_nat limit) then Err InvalidResultLimit
  else
    hits ← search_hits (ar_target request) (matcher_for query) limit r;
    Ok (sort_by compare_hits hits).

Fixpoint history_loop (target : RuvUri) (objects : list StoredObject) : ContextResult (list ResolvedContext) :=
  match objects with
  | [] => Ok []
  | o :: objects =>
      if dead o || negb (same_logical_name (so_canonical_uri o) target) then history_loop target objects
      else
        pinned ← pin (so_revision o) target;
        entries ← history_loop target objects;
        Ok (mkResolvedContext pinned (so_revision o) None (rvf_length o) :: entries)
  end.

Definition mem_history (request : AuthorizedRequest) (limit : nat) (r : MemoryResolver)
    : ContextResult (list ResolvedContext) :=
  _ ← ensure_operation request OpHistory;
  _ ← validate_enumeration_limit limit;
  index ← ok_or (alias_index (ar_target request) r) AliasNotFound;
  snapshot ← ok_or (mr_aliases r !! index) AliasNotFound;
  if as_tombstone snapshot then Err Tombstoned
  else
    entries ← history_loop (ar_target request) (mr_objects r);
    Ok (take limit (sort_by (cmp_by rc_revision rev_cmp) entries)).

Definition mem_resolve (request : AuthorizedRequest) (r : MemoryResolver) : ContextResult ResolvedContext :=
  _ ← ensure_operation request OpResolve; fst <$> resolved_for (ar_target request) r.
Definition mem_list (request : AuthorizedRequest) (limit : nat) (r : MemoryResolver)
    : ContextResult (list ResolvedContext) :=
  _ ← ensure_operation request OpList; enumerate_aliases (ar_target request) limit false r.
Definition mem_tree (request : AuthorizedRequest) (limit : nat) (r : MemoryResolver)
    : ContextResult (list ResolvedContext) :=
  _ ← ensure_operation request OpTree; enumerate_aliases (ar_target request) limit true r.
Definition mem_read (request : AuthorizedRequest) (r : MemoryResolver) : ContextResult (ResolvedContext * list Z) :=
  _ ← ensure_operation request OpRead;
  '(resolved, o) ← resolved_for (ar_target request) r; Ok (resolved, so_rvf o).
Definition mem_verify (request : AuthorizedRequest) (r : MemoryResolver)
    : ContextResult (ResolvedContext * list Z) :=
  _ ← ensure_operation request OpVerify;
  '(resolved, o) ← resolved_for (ar_target request) r;
  if negb (bool_decide (sha256 (so_rvf o) = rev_bytes (rc_revision resolved))) then Err RevisionHashMismatch
  else Ok (resolved, so_rvf o).
Definition mem_prepare_execute (request : AuthorizedRequest) (r : MemoryResolver)
    : ContextResult (ResolvedContext * list Z) :=
  _ ← ensure_operation request OpExecute;
  if negb (is_pinned (ar_target request)) then Err PinnedUriRequired
  else '(resolved, o) ← resolved_for (ar_target request) r; Ok (resolved, so_rvf o).

Definition mem_put (request : AuthorizedRequest) (rvf : list Z) : prog MemoryResolver ContextError ResolvedContext :=
  let? _ := plift (ensure_operation request OpPut) in
  if MAX_RVF_BYTES <? Z.of_nat (length rvf) then pfail ObjectTooLarge
  else
    let? pinned := plift (pin_target (ar_target request)) in
    let revision := pn_revision pinned in
    if negb (bool_decide (sha256 rvf = rev_bytes revision)) then pfail RevisionHashMismatch
    else
      let? existing := pgets (object_for (ar_target request) revision) in
      match existing with
      | Some o =>
          if bool_decide (so_rvf o = rvf) && negb (so_tombstone o) && negb (so_forgotten o) &&
             same_logical_name (so_canonical_uri o) (ar_target request)
          then pret (mkResolvedContext pinned revision None (rvf_length o))
          else pfail RevisionConflict
      | None =>
          let? full := pgets (λ r, (mr_max_objects r <=? length (mr_objects r))%nat) in
          if (full : bool) then pfail ObjectTableFull
          else
            pmodify (push_object (mkStoredObject (ar_target request) revision rvf false false)) ;;;
            pret (mkResolvedContext pinned revision None (Z.of_nat (length rvf)))
      end.

Definition mem_compare_and_swap_alias (request : AuthorizedRequest) (expected : option AliasSnapshot)
    (next_revision : Revision) : prog MemoryResolver ContextError AliasSnapshot :=
  let target := ar_target request in
  let? _ := plift (ensure_operation request OpCompareAndSwapAlias) in
  if is_pinned target then pfail ImmutableRevision
  else
    let? found := pgets (object_for target next_revision) in
    let? next := plift (ok_or found RevisionNotFound) in
    if dead next then pfail Tombstoned
    else if negb (same_logical_name (so_canonical_uri next) target) then pfail RevisionConflict
    else
      let? current := pgets (λ r, index ← alias_index target r; s ← mr_aliases r !! index; Some (index, s)) in
      match current with
      | Some (index, current) =>
          if as_tombstone current then pfail Tombstoned
          else if negb (bool_decide (expected = Some current)) then pfail AliasConflict
          else
            let? generation := plift (checked_next (as_generation current)) in
            let snapshot := mkAliasSnapshot target next_revision generation false in
            pmodify (set_alias index snapshot) ;;;
            pret snapshot
      | None =>
          if is_some expected then pfail AliasConflict
          else
            let? full := pgets (λ r, (mr_max_aliases r <=? length (mr_aliases r))%nat) in
            if (full : bool) then pfail AliasTableFull
            else
              let snapshot := mkAliasSnapshot target next_revision GENERATION_INITIAL false in
              pmodify (push_alias snapshot) ;;;
              pret snapshot
      end.

Definition mem_forget (request : AuthorizedRequest) (expected : AliasSnapshot)
    : prog MemoryResolver ContextError AliasSnapshot :=
  let target := ar_target request in
  let? _ := plift (ensure_operation request OpForget) in
  if is_pinned target then pfail ImmutableRevision
  else
    let? found := pgets (λ r, index ← alias_index target r; s ← mr_aliases r !! index; Some (index, s)) in
    let? slot := plift (ok_or found AliasNotFound) in
    let index := slot.1 in
    let current := slot.2 in
    if as_tombstone current then pfail Tombstoned
    else if negb (bool_decide (current = expected)) then pfail AliasConflict
    else
      let? generation := plift (checked_next (as_generation current)) in
      let? tombstone_revision := insert_tombstone target expected generation in
      pmodify (forget_objects target) ;;;
      let snapshot := mkAliasSnapshot target tombstone_revision generation true in
      pmodify (set_alias index snapshot) ;;;
      pret snapshot.

#[export] Instance memory_resolver : ContextResolver MemoryResolver := {|
  rs_resolve request r := (mem_resolve request r, r);
  rs_list request limit r := (mem_list request limit r, r);
  rs_tree request limit r := (mem_tree request limit r, r);
  rs_read request r := (mem_read request r, r);
  rs_search request query limit r := (mem_search request query limit r, r);
  rs_history request limit r := (mem_history request limit r, r);
  rs_verify request r := (mem_verify request r, r);
  rs_put := mem_put;
  rs_compare_and_swap_alias := mem_compare_and_swap_alias;
  rs_forget := mem_forget;
  rs_prepare_execute request r := (mem_prepare_execute request r, r);
|}.
End resolver.

(* ------------------------------------------------------------------ *)
(** ** Orders and names *)

#[export] Instance cmp_by_exact {A B} (f : A → B) (c : B → B → comparison) `{!CmpExact c, !Inj (=) (=) f} :
  CmpExact (cmp_by f c).
Proof. intros x y H. by apply (inj f), (cmp_eq c). Qed.
#[export] Instance rev_bytes_inj : Inj (=) (=) rev_bytes.
Proof. by intros [] [] [=->]. Qed.
#[export] Instance ps_text_inj : Inj (=) (=) ps_text.
Proof. by intros [] [] [=->]. Qed.
#[export] Instance view_code_injective : Inj (=) (=) view_code.
Proof. intros a b. apply view_code_inj. Qed.

#[export] Instance uri_cmp_order : CmpOrder uri_cmp.
Proof. unfold uri_cmp. repeat apply cmp_then_order; apply _. Qed.
#[export] Instance pinned_cmp_order : CmpOrder pinned_cmp.
Proof. unfold pinned_cmp. apply cmp_then_order; apply _. Qed.
#[export] Instance compare_hits_order : CmpOrder compare_hits.
Proof.
  unfold compare_hits. apply cmp_then_order.
  - apply (flip_order_aux (cmp_by ht_score Z.compare)).
  - apply (cmp_by_order ht_pinned_uri pinned_cmp).
Qed.

Lemma cmp_then_Eq c d : cmp_then c d = Eq → c = Eq ∧ d = Eq.
Proof. by destruct c. Qed.

#[export] Instance uri_cmp_exact : CmpExact uri_cmp.
Proof.
  intros [[a] [t] [k [i]] c p r v] [[a'] [t'] [k' [i']] c' p' r' v'] H. unfold uri_cmp in H.
  repeat (apply cmp_then_Eq in H as [?Hc H]).
  unfold authority_cmp, tenant_cmp, subject_kind_cmp, subject_id_cmp, collection_cmp, path_cmp, revision_cmp,
    view_cmp_uri, cmp_by in *.
  cbn [ru_authority ru_tenant ru_subject ru_collection ru_path ru_revision ru_view au_text tn_text sub_kind sub_id sj_text] in *.
  repeat match goal with H : bytes_cmp _ _ = Eq |- _ => apply (cmp_eq (list_cmp Z.compare)) in H end.
  repeat match goal with H : (_ ?= _) = Eq |- _ => apply Z.compare_eq_iff in H end.
  match goal with H : list_cmp _ p p' = Eq |- _ => apply (cmp_eq (list_cmp (cmp_by ps_text (list_cmp Z.compare)))) in H end.
  match goal with H : option_cmp _ r r' = Eq |- _ => apply (cmp_eq (option_cmp (cmp_by rev_bytes (list_cmp Z.compare)))) in H end.
  match goal with H : option_cmp _ v v' = Eq |- _ => apply (cmp_eq (option_cmp (cmp_by view_code Z.compare))) in H end.
  assert (k = k') by (destruct k, k'; done). assert (c = c') by (destruct c, c'; done). by subst.
Qed.

Lemma pinned_cmp_eq p q : pinned_cmp p q = Eq → p = q.
Proof.
  intros [H1 H2]%cmp_then_Eq. apply (cmp_eq uri_cmp) in H1. apply (cmp_eq (cmp_by rev_bytes (list_cmp Z.compare))) in H2.
  destruct p, q. cbn in *. by subst.
Qed.

(** The logical name of a URI: everything but revision and view. *)
Definition name_of (u : RuvUri) : Authority * TenantId * Subject * Collection * list PathSegment :=
  (ru_authority u, ru_tenant u, ru_subject u, ru_collection u, ru_path u).

Lemma same_name_iff u v : same_logical_name u v = true ↔ name_of u = name_of v.
Proof.
  unfold same_logical_name, name_of. rewrite !andb_true_iff, !bool_decide_eq_true.
  split; [intros [[[[? ?] ?] ?] ?]; congruence|by intros [= -> -> -> -> ->]].
Qed.
Lemma same_name_false u v : same_logical_name u v = false ↔ name_of u ≠ name_of v.
Proof. rewrite <-not_true_iff_false, same_name_iff. done. Qed.

Lemma with_revision_Ok r u p : with_revision r u = Ok p → p = mkPinnedRuvUri (set_ru_revision r u) r.
Proof. unfold with_revision. intros H. apply bind_Ok in H as ([] & _ & H). by injection H. Qed.
Lemma pin_Ok r u p : pin r u = Ok p → p = mkPinnedRuvUri (set_ru_revision r u) r.
Proof. unfold pin. rewrite map_err_Ok. apply with_revision_Ok. Qed.
Lemma pin_target_Ok u p : pin_target u = Ok p ↔ ∃ r, ru_revision u = Some r ∧ p = mkPinnedRuvUri u r.
Proof.
  unfold pin_target, pinned_try_from. rewrite map_err_Ok, bind_Ok. setoid_rewrite ok_or_Ok. naive_solver.
Qed.

(* ------------------------------------------------------------------ *)
(** ** Lookups by name *)

Definition current_alias (target : RuvUri) (r : MemoryResolver) : option AliasSnapshot :=
  find_by (λ s, same_logical_name (as_alias s) target) (mr_aliases r).

Lemma find_by_lookup {A} (p : A → bool) (l : list A) x :
  find_by p l = Some x → p x = true ∧ x ∈ l.
Proof. intros [H (i & Hi)]%find_by_Some. split; [done|]. by eapply list_elem_of_lookup_2. Qed.

Lemma find_by_app {A} (p : A → bool) (l l' : list A) :
  find_by p (l ++ l') = match find_by p l with Some x => Some x | None => find_by p l' end.
Proof. induction l as [|x l IH]; cbn; [done|]. by destruct (p x). Qed.

Lemma find_by_ext {A} (p q : A → bool) (l : list A) : (∀ x, p x = q x) → find_by p l = find_by q l.
Proof. intros H. induction l as [|x l IH]; cbn; [done|]. by rewrite H, IH. Qed.

Lemma same_name_congr u v w : name_of v = name_of w → same_logical_name u v = same_logical_name u w.
Proof.
  intros H. apply eq_true_iff_eq. rewrite !same_name_iff. by rewrite H.
Qed.

Lemma current_alias_congr t t' r : name_of t = name_of t' → current_alias t r = current_alias t' r.
Proof. intros H. apply find_by_ext. intros s. by apply same_name_congr. Qed.

Lemma object_for_congr t t' rev r : name_of t = name_of t' → object_for t rev r = object_for t' rev r.
Proof. intros H. apply find_by_ext. intros o. unfold object_matches. f_equal. by apply same_name_congr. Qed.

Lemma object_for_Some t rev r o :
  object_for t rev r = Some o → o ∈ mr_objects r ∧ so_revision o = rev ∧ name_of (so_canonical_uri o) = name_of t.
Proof.
  intros [H Ho]%find_by_lookup. unfold object_matches in H. split_bool.
  split_and!; [done|done|]. by apply same_name_iff.
Qed.

(** The slot [alias_index] finds, as the operations use it. *)
Lemma alias_slot t r :
  (index ← alias_index t r; s ← mr_aliases r !! index; Some (index, s)) =
    match current_alias t r with
    | Some s => (λ i, (i, s)) <$> alias_index t r
    | None => None
    end.
Proof.
  unfold current_alias, alias_index. rewrite find_by_position.
  destruct (position _ (mr_aliases r)) as [i|]; [|done]. cbn [mbind option_bind]. by destruct (mr_aliases r !! i).
Qed.

Lemma current_alias_index t r s :
  current_alias t r = Some s → ∃ i, alias_index t r = Some i ∧ mr_aliases r !! i = Some s ∧
    name_of (as_alias s) = name_of t.
Proof.
  unfold current_alias, alias_index. rewrite find_by_position.
  destruct (position _ (mr_aliases r)) as [i|] eqn:E; [|done]. cbn [mbind option_bind]. intros H.
  exists i. split_and!; [done|done|]. apply position_lookup in E as (s' & Hs & Hn).
  rewrite H in Hs. injection Hs as <-. by apply same_name_iff.
Qed.

(* ------------------------------------------------------------------ *)
(** ** What the mutations do *)

Section mutations.
Context {BU : BitflagsUnion} {SH : Sha256} {HS : SegmentHashes} {CT : ConstantTimeEq} {ED : Ed25519}.

Definition live_object (t : RuvUri) (rev : Revision) (r : MemoryResolver) : Prop :=
  ∃ o, object_for t rev r = Some o ∧ dead o = false.

(** A compare-and-swap either changes nothing or replaces exactly the current
    snapshot by its successor. *)
Inductive cas_effect (t : RuvUri) (expected : option AliasSnapshot) (next : Revision) (r : MemoryResolver)
    : AliasSnapshot → MemoryResolver → Prop :=
| cas_advance i current :
    current_alias t r = Some current → alias_index t r = Some i → expected = Some current →
    as_tombstone current = false → as_generation current + 1 ≤ u64_max →
    let s := mkAliasSnapshot t next (as_generation current + 1) false in
    cas_effect t expected next r s (set_alias i s r)
| cas_create :
    current_alias t r = None → expected = None → (length (mr_aliases r) < mr_max_aliases r)%nat →
    let s := mkAliasSnapshot t next GENERATION_INITIAL false in
    cas_effect t expected next r s (push_alias s r).

Lemma cas_spec req expected next r :
  match mem_compare_and_swap_alias req expected next r with
  | (Err _, r') => r' = r
  | (Ok s, r') => is_pinned (ar_target req) = false ∧ live_object (ar_target req) next r ∧
                  cas_effect (ar_target req) expected next r s r'
  end.
Proof.
  unfold mem_compare_and_swap_alias, pbind, plift, pgets, pmodify, pret, pfail. set (t := ar_target req).
  destruct (ensure_operation _ _); [|done]. destruct (is_pinned t) eqn:Ep; [done|].
  destruct (object_for t next r) as [o|] eqn:Eo; cbn [ok_or]; [|done].
  destruct (dead o) eqn:Ed; [done|]. destruct (negb _); [done|]. rewrite alias_slot.
  assert (live_object t next r) as Hlive by (by exists o).
  destruct (current_alias t r) as [current|] eqn:Ec.
  - apply current_alias_index in Ec as Hi. destruct Hi as (i & Hi & _ & _). rewrite Hi. cbn [fmap option_fmap option_map].
    destruct (as_tombstone current) eqn:Et; [done|]. case_bool_decide as Ee; cbn [negb]; [|done].
    unfold checked_next. destruct (checked_add u64_max (as_generation current) 1) as [g|] eqn:Eg; [|done].
    cbn [ok_or]. apply checked_add_Some in Eg as [-> Eg]. split_and!; [done|done|].
    by apply cas_advance.
  - destruct expected; [done|]. cbn [is_some]. destruct (_ <=? _)%nat eqn:El; [done|]. split_bool.
    split_and!; [done|done|]. by apply cas_create.
Qed.

(** Forgetting makes every object of the name unreachable and leaves a
    tombstone as the alias, for good. *)
Inductive forget_effect (t : RuvUri) (expected : AliasSnapshot) (r : MemoryResolver)
    : AliasSnapshot → MemoryResolver → Prop :=
| forget_inserted i :
    current_alias t r = Some expected → alias_index t r = Some i → as_tombstone expected = false →
    as_generation expected + 1 ≤ u64_max →
    let payload := tombstone_payload t expected (as_generation expected + 1) in
    let rev := mkRevision (sha256 payload) in
    object_for t rev r = None → (length (mr_objects r) < mr_max_objects r)%nat →
    let s := mkAliasSnapshot t rev (as_generation expected + 1) true in
    forget_effect t expected r s
      (set_alias i s (forget_objects t (push_object (mkStoredObject t rev payload true false) r)))
| forget_present i o :
    current_alias t r = Some expected → alias_index t r = Some i → as_tombstone expected = false →
    as_generation expected + 1 ≤ u64_max →
    let payload := tombstone_payload t expected (as_generation expected + 1) in
    let rev := mkRevision (sha256 payload) in
    object_for t rev r = Some o → so_tombstone o = true → so_rvf o = payload →
    let s := mkAliasSnapshot t rev (as_generation expected + 1) true in
    forget_effect t expected r s (set_alias i s (forget_objects t r)).

Lemma forget_spec req expected r :
  match mem_forget req expected r with
  | (Err _, r') => r' = r
  | (Ok s, r') => is_pinned (ar_target req) = false ∧ forget_effect (ar_target req) expected r s r'
  end.
Proof.
  unfold mem_forget, pbind, plift, pgets, pmodify, pret, pfail. set (t := ar_target req).
  destruct (ensure_operation _ _); [|done]. destruct (is_pinned t) eqn:Ep; [done|]. rewrite alias_slot.
  destruct (current_alias t r) as [current|] eqn:Ec; [|done].
  apply current_alias_index in Ec as Hi. destruct Hi as (i & Hi & _ & _). rewrite Hi. cbn [fmap option_fmap option_map ok_or fst snd].
  destruct (as_tombstone current) eqn:Et; [done|]. case_bool_decide as Ee; cbn [negb]; [|done]. subst current.
  unfold checked_next. destruct (checked_add u64_max (as_generation expected) 1) as [g|] eqn:Eg; [|done].
  cbn [ok_or]. apply checked_add_Some in Eg as [-> Eg]. unfold insert_tombstone.
  destruct (object_for t _ r) as [o|] eqn:Eo.
  - destruct (so_tombstone o && _) eqn:E2; [|done]. split_bool. split; [done|]. by eapply forget_present.
  - destruct (_ <=? _)%nat eqn:El; [done|]. split_bool. split; [done|]. by eapply forget_inserted.
Qed.

(** A put stores the bytes under their hash, or finds them there. *)
Lemma put_spec req rvf r :
  match mem_put req rvf r with
  | (Err _, r') => r' = r
  | (Ok rc, r') =>
      ∃ rev, ru_revision (ar_target req) = Some rev ∧ sha256 rvf = rev_bytes rev ∧
        Z.of_nat (length rvf) ≤ MAX_RVF_BYTES ∧
        rc = mkResolvedContext (mkPinnedRuvUri (ar_target req) rev) rev None (Z.of_nat (length rvf)) ∧
        ((∃ o, object_for (ar_target req) rev r = Some o ∧ so_rvf o = rvf ∧ dead o = false ∧ r' = r) ∨
         (object_for (ar_target req) rev r = None ∧ (length (mr_objects r) < mr_max_objects r)%nat ∧
          r' = push_object (mkStoredObject (ar_target req) rev rvf false false) r))
  end.
Proof.
  unfold mem_put, pbind, plift, pgets, pmodify, pret, pfail. set (t := ar_target req).
  destruct (ensure_operation _ _); [|done]. destruct (_ <? _) eqn:Es; [done|]. split_bool.
  destruct (pin_target t) as [p|] eqn:Ep; [|done]. apply pin_target_Ok in Ep as (rev & Hrev & ->). cbn [pn_revision].
  case_bool_decide as Eh; cbn [negb]; [|done]. destruct (object_for t rev r) as [o|] eqn:Eo.
  - destruct (bool_decide _ && _ && _ && _) eqn:E2; [|done]. split_bool. exists rev. split_and!; try done.
    + unfold rvf_length. by subst rvf.
    + left. exists o. split_and!; try done. unfold dead. apply orb_false_iff. done.
  - destruct (_ <=? _)%nat eqn:El; [done|]. split_bool. exists rev. split_and!; try done. by right.
Qed.
End mutations.

(* ------------------------------------------------------------------ *)
(** ** Lookups after a mutation *)

Lemma position_insert_same {A} (p : A → bool) (l : list A) i x y :
  l !! i = Some x → p y = p x → position p (<[i := y]> l) = position p l.
Proof.
  revert i. induction l as [|z l IH]; intros i Hi Hp; [done|]. destruct i as [|i]; cbn in *.
  - injection Hi as ->. by rewrite Hp.
  - destruct (p z); [done|]. f_equal. by apply IH.
Qed.

Lemma current_set_alias i s s0 t r :
  mr_aliases r !! i = Some s0 → name_of (as_alias s) = name_of (as_alias s0) →
  current_alias t (set_alias i s r) =
    if decide (alias_index t r = Some i) then Some s else current_alias t r.
Proof.
  intros Hi Hn. unfold current_alias, alias_index, set_alias. cbn [mr_aliases]. rewrite !find_by_position.
  rewrite (position_insert_same _ _ i s0 s Hi).
  2:{ apply eq_true_iff_eq. rewrite !same_name_iff. by rewrite Hn. }
  destruct (position _ (mr_aliases r)) as [j|]; cbn [mbind option_bind].
  - destruct (decide (Some j = Some i)) as [[= ->]|Hne].
    + apply list_lookup_insert_eq. by eapply lookup_lt_Some.
    + apply list_lookup_insert_ne. congruence.
  - by rewrite decide_False.
Qed.

Lemma current_push_alias s t r :
  current_alias t (push_alias s r) =
    match current_alias t r with Some x => Some x | None => if same_logical_name (as_alias s) t then Some s else None end.
Proof. unfold current_alias, push_alias. cbn [mr_aliases]. rewrite find_by_app. by cbn. Qed.

Lemma object_for_push o t rev r :
  object_for t rev (push_object o r) =
    match object_for t rev r with Some x => Some x | None => if object_matches t rev o then Some o else None end.
Proof. unfold object_for, push_object. cbn [mr_objects]. rewrite find_by_app. by cbn. Qed.

Definition forgotten_at (t : RuvUri) (o : StoredObject) : StoredObject :=
  if negb (so_tombstone o) && same_logical_name (so_canonical_uri o) t
  then mkStoredObject (so_canonical_uri o) (so_revision o) (so_rvf o) (so_tombstone o) true else o.

Lemma forgotten_at_same t o :
  so_canonical_uri (forgotten_at t o) = so_canonical_uri o ∧ so_revision (forgotten_at t o) = so_revision o ∧
  so_rvf (forgotten_at t o) = so_rvf o ∧ so_tombstone (forgotten_at t o) = so_tombstone o.
Proof. unfold forgotten_at. by destruct (_ && _). Qed.

Lemma object_for_forget t t' rev r :
  object_for t' rev (forget_objects t r) = forgotten_at t <$> object_for t' rev r.
Proof.
  unfold object_for, forget_objects. cbn [mr_objects]. fold (forgotten_at t).
  induction (mr_objects r) as [|o l IH]; [done|]. cbn [fmap list_fmap find_by].
  assert (object_matches t' rev (forgotten_at t o) = object_matches t' rev o) as ->.
  { destruct (forgotten_at_same t o) as (H1 & H2 & _). unfold object_matches. by rewrite H1, H2. }
  destruct (object_matches t' rev o); [done|]. apply IH.
Qed.

Lemma object_for_set_alias i s t rev r : object_for t rev (set_alias i s r) = object_for t rev r.
Proof. done. Qed.

(* ------------------------------------------------------------------ *)
(** ** The invariant *)

Section invariant.
Context {SH : Sha256}.

Record resolver_inv (r : MemoryResolver) : Prop := {
  ri_names : NoDup ((λ s, name_of (as_alias s)) <$> mr_aliases r);
  ri_objects : NoDup ((λ o, (name_of (so_canonical_uri o), so_revision o)) <$> mr_objects r);
  ri_bounds : (length (mr_aliases r) ≤ mr_max_aliases r)%nat ∧ (length (mr_objects r) ≤ mr_max_objects r)%nat;
  ri_bytes : Forall (λ o, sha256 (so_rvf o) = rev_bytes (so_revision o)) (mr_objects r);
  ri_unpinned : Forall (λ s, ru_revision (as_alias s) = None ∧ 1 ≤ as_generation s ≤ u64_max) (mr_aliases r);
  ri_heads : Forall (λ s, ∃ o, object_for (as_alias s) (as_revision s) r = Some o ∧
                          if as_tombstone s then so_tombstone o = true else dead o = false) (mr_aliases r);
  ri_sizes : Forall (λ o, dead o = false → rvf_length o ≤ MAX_RVF_BYTES) (mr_objects r);
}.

Lemma resolver_new_inv O A : resolver_inv (memory_resolver_new O A).
Proof. split; cbn; try constructor; lia. Qed.

Lemma alias_unique r s s' :
  resolver_inv r → s ∈ mr_aliases r → s' ∈ mr_aliases r → name_of (as_alias s) = name_of (as_alias s') → s = s'.
Proof.
  intros Hi (i & Hs)%list_elem_of_lookup (j & Hs')%list_elem_of_lookup E.
  assert (i = j) as <-; [|congruence]. apply (NoDup_lookup _ _ _ (name_of (as_alias s)) (ri_names r Hi)).
  - by rewrite list_lookup_fmap, Hs.
  - by rewrite list_lookup_fmap, Hs', E.
Qed.

Lemma current_alias_elem r s : resolver_inv r → s ∈ mr_aliases r → current_alias (as_alias s) r = Some s.
Proof.
  intros Hi Hs. destruct (current_alias (as_alias s) r) as [s'|] eqn:E.
  - apply current_alias_index in E as (i & _ & Hl & Hn). f_equal. apply (alias_unique r); [done| |done|done].
    by eapply list_elem_of_lookup_2.
  - apply list_elem_of_lookup in Hs as [i Hl]. pose proof (proj1 (find_by_None _ _) E i s Hl) as Hf.
    cbn in Hf. by apply same_name_false in Hf.
Qed.

Lemma object_elem r o : resolver_inv r → o ∈ mr_objects r → object_for (so_canonical_uri o) (so_revision o) r = Some o.
Proof.
  intros Hi Ho. destruct (object_for _ _ r) as [o'|] eqn:E.
  - apply object_for_Some in E as (Ho' & Hr & Hn). f_equal.
    apply list_elem_of_lookup in Ho as [i Hl]. apply list_elem_of_lookup in Ho' as [j Hl'].
    assert (i = j) as ->; [|congruence].
    apply (NoDup_lookup _ _ _ (name_of (so_canonical_uri o), so_revision o) (ri_objects r Hi)).
    + by rewrite list_lookup_fmap, Hl.
    + rewrite list_lookup_fmap, Hl'. cbn. by rewrite Hr, Hn.
  - apply list_elem_of_lookup in Ho as [i Hl]. pose proof (proj1 (find_by_None _ _) E i o Hl) as Hf.
    unfold object_matches in Hf. rewrite bool_decide_true in Hf by done. by apply same_name_false in Hf.
Qed.

(** Heads survive a step that keeps live objects live and tombstones dead. *)
Lemma heads_mono (l : list AliasSnapshot) r r' :
  (∀ s o, s ∈ l → object_for (as_alias s) (as_revision s) r = Some o →
     ∃ o', object_for (as_alias s) (as_revision s) r' = Some o' ∧
       (so_tombstone o = true → so_tombstone o' = true) ∧
       (as_tombstone s = false → dead o = false → dead o' = false)) →
  Forall (λ s, ∃ o, object_for (as_alias s) (as_revision s) r = Some o ∧
            if as_tombstone s then so_tombstone o = true else dead o = false) l →
  Forall (λ s, ∃ o, object_for (as_alias s) (as_revision s) r' = Some o ∧
            if as_tombstone s then so_tombstone o = true else dead o = false) l.
Proof.
  rewrite !Forall_forall. intros H Hl s Hs. destruct (Hl s Hs) as (o & Ho & Hd).
  destruct (H s o Hs Ho) as (o' & Ho' & H1 & H2). exists o'. split; [done|].
  destruct (as_tombstone s); [by apply H1|by apply H2].
Qed.

Lemma push_object_inv o r :
  resolver_inv r → sha256 (so_rvf o) = rev_bytes (so_revision o) →
  object_for (so_canonical_uri o) (so_revision o) r = None → (length (mr_objects r) < mr_max_objects r)%nat →
  (dead o = false → rvf_length o ≤ MAX_RVF_BYTES) →
  resolver_inv (push_object o r).
Proof.
  intros [Hn Ho [Hb1 Hb2] Hh Hu Hheads Hsz] Hs Hf Hl Hlen. split; cbn [push_object mr_objects mr_aliases mr_max_objects mr_max_aliases]; try done.
  - rewrite fmap_app. apply NoDup_app. split; [done|]. split; [|apply NoDup_singleton].
    intros x (o' & -> & (i & Hi)%list_elem_of_lookup)%list_elem_of_fmap E%list_elem_of_singleton.
    pose proof (proj1 (find_by_None _ _) Hf i o' Hi) as Hx. unfold object_matches in Hx. injection E as E1 E2.
    rewrite bool_decide_true in Hx by done. cbn [andb] in Hx. apply same_name_false in Hx.
    apply Hx. unfold name_of. congruence.
  - rewrite length_app. cbn. lia.
  - apply Forall_app. split; [done|]. by constructor.
  - eapply heads_mono; [|exact Hheads]. intros s x _ Hx. exists x. rewrite object_for_push, Hx. auto.
  - apply Forall_app. split; [done|]. by constructor.
Qed.

Lemma push_alias_inv s r :
  resolver_inv r → current_alias (as_alias s) r = None → ru_revision (as_alias s) = None →
  1 ≤ as_generation s ≤ u64_max → as_tombstone s = false → live_object (as_alias s) (as_revision s) r →
  (length (mr_aliases r) < mr_max_aliases r)%nat → resolver_inv (push_alias s r).
Proof.
  intros [Hn Ho [Hb1 Hb2] Hh Hu Hheads Hsz] Hc Hr Hg Ht (o & Hlo & Hd) Hl.
  split; cbn [push_alias mr_objects mr_aliases mr_max_objects mr_max_aliases]; try done.
  - rewrite fmap_app. apply NoDup_app. split; [done|]. split; [|apply NoDup_singleton].
    intros x (s' & -> & (i & Hi)%list_elem_of_lookup)%list_elem_of_fmap E%list_elem_of_singleton.
    pose proof (proj1 (find_by_None _ _) Hc i s' Hi) as Hx. cbn in Hx. by apply same_name_false in Hx.
  - rewrite length_app. cbn. lia.
  - apply Forall_app. split; [done|]. by constructor.
  - apply Forall_app. split; [exact Hheads|]. constructor; [|done]. exists o. by rewrite Ht.
Qed.

Lemma set_alias_inv i s s0 r :
  resolver_inv r → mr_aliases r !! i = Some s0 → name_of (as_alias s) = name_of (as_alias s0) →
  ru_revision (as_alias s) = None → 1 ≤ as_generation s ≤ u64_max →
  (∃ o, object_for (as_alias s) (as_revision s) r = Some o ∧
     if as_tombstone s then so_tombstone o = true else dead o = false) →
  resolver_inv (set_alias i s r).
Proof.
  intros [Hn Ho [Hb1 Hb2] Hh Hu Hheads Hsz] Hi Hname Hr Hg Hlo.
  split; cbn [set_alias mr_objects mr_aliases mr_max_objects mr_max_aliases]; try done.
  - rewrite list_fmap_insert, list_insert_id; [done|]. by rewrite list_lookup_fmap, Hi, Hname.
  - by rewrite length_insert.
  - by apply Forall_insert.
  - by apply Forall_insert.
Qed.

Lemma forget_inv i s s0 t r :
  resolver_inv r → mr_aliases r !! i = Some s0 → name_of (as_alias s) = name_of (as_alias s0) →
  name_of (as_alias s0) = name_of t → as_tombstone s = true →
  ru_revision (as_alias s) = None → 1 ≤ as_generation s ≤ u64_max →
  (∃ o, object_for t (as_revision s) r = Some o ∧ so_tombstone o = true) →
  resolver_inv (set_alias i s (forget_objects t r)).
Proof.
  intros [Hn Ho [Hb1 Hb2] Hh Hu Hheads Hsz] Hi Hname Hnt Ht Hr Hg (o & Hlo & Hto).
  split; cbn [set_alias forget_objects mr_objects mr_aliases mr_max_objects mr_max_aliases].
  - rewrite list_fmap_insert, list_insert_id; [done|]. by rewrite list_lookup_fmap, Hi, Hname.
  - rewrite <-list_fmap_compose. erewrite list_fmap_ext; [exact Ho|]. intros k x _. cbn. fold (forgotten_at t x).
    destruct (forgotten_at_same t x) as (H1 & H2 & _). by rewrite H1, H2.
  - by rewrite length_insert, length_fmap.
  - apply Forall_fmap. eapply Forall_impl; [exact Hh|]. intros x Hx. cbn. fold (forgotten_at t x).
    destruct (forgotten_at_same t x) as (_ & H2 & H3 & _). by rewrite H2, H3.
  - by apply Forall_insert.
  - apply Forall_lookup. intros k x Hk.
    change (∃ y, object_for (as_alias x) (as_revision x) (forget_objects t r) = Some y ∧
      if as_tombstone x then so_tombstone y = true else dead y = false).
    rewrite object_for_forget. destruct (decide (k = i)) as [->|Hne].
    + rewrite list_lookup_insert_eq in Hk by (by eapply lookup_lt_Some). injection Hk as <-.
      exists (forgotten_at t o). rewrite Ht. destruct (forgotten_at_same t o) as (_ & _ & _ & H4).
      rewrite (object_for_congr _ t) by congruence. by rewrite Hlo, H4.
    + rewrite list_lookup_insert_ne in Hk by done.
      destruct (Forall_lookup_1 _ _ _ _ Hheads Hk) as (y & Hy & Hd). exists (forgotten_at t y).
      rewrite Hy. split; [done|].
      assert (name_of (as_alias x) ≠ name_of t) as Hxt.
      { intros E. apply Hne. apply (NoDup_lookup _ _ _ (name_of t) Hn).
        - by rewrite list_lookup_fmap, Hk, <-E.
        - by rewrite list_lookup_fmap, Hi, <-Hnt. }
      apply object_for_Some in Hy as (_ & _ & Hyn).
      unfold forgotten_at. rewrite (proj2 (same_name_false _ _)), andb_false_r; [done|congruence].
  - apply Forall_fmap. eapply Forall_impl; [exact Hsz|]. intros x Hx. cbn. fold (forgotten_at t x).
    destruct (forgotten_at_same t x) as (_ & _ & H3 & _). unfold rvf_length. rewrite H3. intros Hd. apply Hx.
    unfold forgotten_at in Hd. destruct (_ && _); [|done]. unfold dead in Hd. cbn [so_tombstone so_forgotten] in Hd. by rewrite orb_true_r in Hd.
Qed.

(* ------------------------------------------------------------------ *)
(** ** Histories *)

Context {BU : BitflagsUnion} {HS : SegmentHashes} {CT : ConstantTimeEq} {ED : Ed25519}.
Context {SL : Sha256Laws}.

(** The calls that change the resolver. *)
Inductive ResolverCall : Set :=
| RcPut (request : AuthorizedRequest) (rvf : list Z)
| RcCas (request : AuthorizedRequest) (expected : option AliasSnapshot) (next : Revision)
| RcForget (request : AuthorizedRequest) (expected : AliasSnapshot).

Definition run_resolver_call (c : ResolverCall) (r : MemoryResolver) : MemoryResolver :=
  match c with
  | RcPut request rvf => (mem_put request rvf r).2
  | RcCas request expected next => (mem_compare_and_swap_alias request expected next r).2
  | RcForget request expected => (mem_forget request expected r).2
  end.
Definition run_resolver (cs : list ResolverCall) (r : MemoryResolver) : MemoryResolver :=
  foldl (λ r c, run_resolver_call c r) r cs.

Lemma not_pinned u : is_pinned u = false ↔ ru_revision u = None.
Proof. unfold is_pinned. by destruct (ru_revision u). Qed.

Lemma current_generation r t s :
  resolver_inv r → current_alias t r = Some s → 1 ≤ as_generation s ≤ u64_max.
Proof.
  intros Hi (i & _ & Hl & _)%current_alias_index. by destruct (Forall_lookup_1 _ _ _ _ (ri_unpinned r Hi) Hl).
Qed.

Lemma run_resolver_call_inv c r : resolver_inv r → resolver_inv (run_resolver_call c r).
Proof.
  intros Hi. destruct c as [req rvf|req expected next|req expected]; cbn [run_resolver_call].
  - pose proof (put_spec req rvf r) as H. destruct (mem_put req rvf r) as [[rc|e] r']; cbn [snd]; [|by subst].
    destruct H as (rev & Hrev & Hh & Hlen & _ & [(o & _ & _ & _ & ->)|(Hf & Hl & ->)]); [done|].
    by apply push_object_inv.
  - pose proof (cas_spec req expected next r) as H. destruct (mem_compare_and_swap_alias req expected next r) as [[s|e] r'];
      cbn [snd]; [|by subst]. destruct H as (Hp & Hlive & H). apply not_pinned in Hp.
    destruct H as [i current Hc Hix He Ht Hg s|Hc He Hl s].
    + pose proof (current_generation r _ _ Hi Hc). apply current_alias_index in Hc as (i' & Hix' & Hlk & Hn).
      rewrite Hix in Hix'. injection Hix' as <-.
      apply (set_alias_inv i s current); [done|done|by cbn|done|cbn; lia|]. destruct Hlive as (o & Ho & Hd). by exists o.
    + apply push_alias_inv; done || (cbn; unfold GENERATION_INITIAL, u64_max; lia).
  - pose proof (forget_spec req expected r) as H. destruct (mem_forget req expected r) as [[s|e] r']; cbn [snd]; [|by subst].
    destruct H as (Hp & H). apply not_pinned in Hp.
    destruct H as [i Hc Hix Ht Hg payload rev Hf Hl s|i o Hc Hix Ht Hg payload rev Ho Hto Hrvf s];
      pose proof (current_generation r _ _ Hi Hc); apply current_alias_index in Hc as (i' & Hix' & Hlk & Hn);
      rewrite Hix in Hix'; injection Hix' as <-.
    + apply (forget_inv i s expected); [|done|by cbn|done|done|done|cbn; lia|].
      * by apply push_object_inv.
      * exists (mkStoredObject (ar_target req) rev payload true false). split; [|done].
        rewrite object_for_push. cbn [as_revision s]. rewrite Hf. unfold object_matches. cbn.
        rewrite bool_decide_true by done. by rewrite (proj2 (same_name_iff _ _)).
    + apply (forget_inv i s expected); [done|done|by cbn|done|done|done|cbn; lia|]. by exists o.
Qed.

Lemma run_resolver_inv cs r : resolver_inv r → resolver_inv (run_resolver cs r).
Proof. revert r. induction cs as [|c cs IH]; intros r H; cbn; [done|]. by apply IH, run_resolver_call_inv. Qed.

(** C30: Every history of puts, compare-and-swaps and forgets from the empty
    resolver keeps it well formed: names are unique among aliases and names with
    revisions among objects, the capacities hold, every stored object hashes to
    its revision, every alias is unpinned with a generation from 1 to
    [u64::MAX], and every alias head exists: a live object, or a tombstone
    once forgotten. *)
Theorem resolver_history_inv O A cs : resolver_inv (run_resolver cs (memory_resolver_new O A)).
Proof. apply run_resolver_inv, resolver_new_inv. Qed.

Lemma forget_effect_alias t0 expected r s r' :
  forget_effect t0 expected r s r' →
  current_alias t0 r = Some expected ∧ as_tombstone expected = false ∧
  as_generation s = as_generation expected + 1 ∧
  ∀ t, current_alias t r' = if decide (alias_index t r = alias_index t0 r) then Some s else current_alias t r.
Proof.
  intros [i Hc Hix Ht Hg payload rev Hf Hl s1|i o Hc Hix Ht Hg payload rev Ho Hto Hrvf s1]; (split_and!; [done..|]);
    intros t; rewrite Hix; apply current_alias_index in Hc as (i' & Hix' & Hlk & Hn);
    rewrite Hix in Hix'; injection Hix' as <-; by rewrite (current_set_alias i s1 expected).
Qed.

(** What one call does to the alias of a name. *)
Lemma run_resolver_call_alias c r t s :
  resolver_inv r → current_alias t r = Some s →
  ∃ s', current_alias t (run_resolver_call c r) = Some s' ∧
    (s' = s ∨ as_tombstone s = false ∧ as_generation s' = as_generation s + 1).
Proof.
  intros Hi Hs. destruct c as [req rvf|req expected next|req expected]; cbn [run_resolver_call].
  - pose proof (put_spec req rvf r) as H. destruct (mem_put req rvf r) as [[rc|e] r']; cbn [snd]; [|subst r'; eauto].
    destruct H as (rev & _ & _ & _ & _ & [(o & _ & _ & _ & ->)|(_ & _ & ->)]); exists s; auto.
  - pose proof (cas_spec req expected next r) as H. destruct (mem_compare_and_swap_alias req expected next r) as [[s'|e] r'];
      cbn [snd]; [|subst r'; eauto]. destruct H as (_ & _ & H).
    destruct H as [i current Hc Hix He Ht Hg s'|Hc He Hl s'].
    + apply current_alias_index in Hc as (i' & Hix' & Hlk & Hn). rewrite Hix in Hix'. injection Hix' as <-.
      rewrite (current_set_alias i s' current) by done.
      destruct (decide (alias_index t r = Some i)) as [E|E]; [|eauto]. exists s'. split; [done|right].
      apply current_alias_index in Hs as (i' & Hix' & Hlk' & _). assert (s = current) as -> by congruence. done.
    + rewrite current_push_alias, Hs. eauto.
  - pose proof (forget_spec req expected r) as H. destruct (mem_forget req expected r) as [[s'|e] r']; cbn [snd];
      [|subst r'; eauto]. destruct H as (_ & H).
    apply forget_effect_alias in H as (Hc & Ht & Hg & Hafter). rewrite (Hafter t).
    destruct (decide (alias_index t r = alias_index (ar_target req) r)) as [E|E]; [|eauto].
    exists s'. split; [done|right].
    apply current_alias_index in Hc as (i & Hix & Hlk & _). apply current_alias_index in Hs as (i' & Hix' & Hlk' & _).
    assert (s = expected) as -> by congruence. done.
Qed.

Lemma run_resolver_alias cs : ∀ r t s,
  resolver_inv r → current_alias t r = Some s →
  ∃ s', current_alias t (run_resolver cs r) = Some s' ∧
    (s' = s ∨ as_tombstone s = false ∧ as_generation s < as_generation s').
Proof.
  induction cs as [|c cs IH]; intros r t s Hi Hs; [by exists s; auto|]. cbn [run_resolver foldl].
  destruct (run_resolver_call_alias c r t s Hi Hs) as (s1 & Hs1 & H1).
  destruct (IH _ t s1 (run_resolver_call_inv c r Hi) Hs1) as (s2 & Hs2 & H2). exists s2. split; [done|].
  destruct H1 as [->|[Ht1 Hg1]]; [done|]. destruct H2 as [->|[Ht2 Hg2]]; right; split; done || lia.
Qed.

(** Snapshots never recur: once the alias of a name has moved on from a
    snapshot, no later history brings that snapshot back, and a compare-and-swap
    or a forget that expects it fails and changes nothing; a tombstone never
    moves on. *)
Theorem alias_snapshots_never_recur r t s cs s' cs' :
  resolver_inv r → current_alias t r = Some s → current_alias t (run_resolver cs r) = Some s' →
  let r' := run_resolver cs' (run_resolver cs r) in
  (as_tombstone s = true → current_alias t r' = Some s) ∧
  (s' ≠ s → current_alias t r' ≠ Some s ∧
     ∀ req, name_of (ar_target req) = name_of t →
       (∀ next, is_ok (mem_compare_and_swap_alias req (Some s) next r').1 = false ∧
                (mem_compare_and_swap_alias req (Some s) next r').2 = r') ∧
       is_ok (mem_forget req s r').1 = false ∧ (mem_forget req s r').2 = r').
Proof.
  intros Hi Hs Hs' r'. pose proof (run_resolver_inv cs r Hi) as Hi1.
  destruct (run_resolver_alias cs r t s Hi Hs) as (x & Hx & H1). rewrite Hs' in Hx. injection Hx as <-.
  destruct (run_resolver_alias cs' _ t s' Hi1 Hs') as (s2 & Hs2 & H2). fold r' in Hs2. split.
  - intros Ht. destruct H1 as [->|[? _]]; [|congruence]. destruct H2 as [->|[? _]]; [done|congruence].
  - intros Hne. destruct H1 as [->|[_ Hg1]]; [done|].
    assert (as_generation s < as_generation s2) as Hg by (destruct H2 as [->|[_ ?]]; lia).
    assert (s2 ≠ s) as Hne2 by (intros ->; lia).
    split; [congruence|]. intros req Hreq. rewrite <-(current_alias_congr _ _ _ Hreq) in Hs2. split.
    + intros next. pose proof (cas_spec req (Some s) next r') as H.
      destruct (mem_compare_and_swap_alias req (Some s) next r') as [[y|e] r2]; [|done].
      destruct H as (_ & _ & H). exfalso. inversion H; congruence.
    + pose proof (forget_spec req s r') as H. destruct (mem_forget req s r') as [[y|e] r2]; [|done].
      destruct H as (_ & H). exfalso. inversion H; congruence.
Qed.
End invariant.

(* ------------------------------------------------------------------ *)
(** ** Bounded search returns the best hits *)

Section top_hits.
Notation le := (cmp_le compare_hits).

(** [kept] are the best of [seen], at most [limit] of them. *)
Definition best_of (limit : nat) (kept seen : list ContextHit) : Prop :=
  ∃ rest, kept ++ rest ≡ₚ seen ∧ (∀ x y, x ∈ kept → y ∈ rest → le x y) ∧
    (length kept ≤ limit)%nat ∧ (rest ≠ [] → length kept = limit).

Lemma push_top_hit_best limit kept seen x :
  (0 < limit)%nat → best_of limit kept seen → best_of limit (push_top_hit kept limit x) (seen ++ [x]).
Proof.
  intros Hlim (rest & Hp & Hle & Hlen & Hfull). unfold push_top_hit.
  destruct (length kept <? limit)%nat eqn:E; split_bool.
  { destruct rest as [|y rest]; [|specialize (Hfull ltac:(done)); lia]. exists [].
    rewrite app_nil_r in *. split_and!; [by rewrite Hp|by intros ?? _ []%not_elem_of_nil|rewrite length_app; cbn; lia|done]. }
  assert (length kept = limit) as Hk by lia.
  destruct (max_index_by_spec compare_hits kept) as (k & m & -> & Hl & Hm); [by intros ->; cbn in *; lia|].
  cbn [default from_option id]. rewrite Hl. rewrite Forall_forall in Hm.
  assert (∀ y, y ∈ rest → le m y) as Hmr by (intros y; apply Hle; by eapply list_elem_of_lookup_2).
  assert (∀ y, le m y → best_of limit kept (seen ++ [y])) as Hkeep.
  { intros y Hy. exists (rest ++ [y]). rewrite app_assoc, Hp. split_and!; [done| |lia|done].
    intros a b Ha [Hb| ->%list_elem_of_singleton]%elem_of_app; [by apply Hle|].
    by eapply (cmp_le_trans compare_hits a m y); [apply Hm|]. }
  destruct (compare_hits x m) eqn:Ex.
  - apply Hkeep. unfold cmp_le. by rewrite (cmp_flip compare_hits x m), Ex.
  - exists (m :: rest). rewrite length_insert. split_and!; [| |lia|done].
    + rewrite <-Hp. rewrite <-(list_insert_id kept k m Hl) at 2.
      rewrite !(insert_take_drop kept k) by (by eapply lookup_lt_Some). solve_Permutation.
    + assert (le x m) as Hxm by (unfold cmp_le; by rewrite Ex).
      intros a b Ha Hb. apply list_elem_of_lookup in Ha as [j Ha].
      assert (le a m) as Ham.
      { destruct (decide (j = k)) as [->|Hne].
        - rewrite list_lookup_insert_eq in Ha by (by eapply lookup_lt_Some). by injection Ha as <-.
        - rewrite list_lookup_insert_ne in Ha by done. apply Hm. by eapply list_elem_of_lookup_2. }
      apply elem_of_cons in Hb as [->|Hb]; [done|]. eapply (cmp_le_trans compare_hits a m b); [done|by apply Hmr].
  - apply Hkeep. unfold cmp_le. apply (cmp_gt compare_hits) in Ex. by rewrite Ex.
Qed.

Lemma fold_top_hits_best limit l : ∀ kept seen,
  (0 < limit)%nat → best_of limit kept seen →
  best_of limit (foldl (λ kept x, push_top_hit kept limit x) kept l) (seen ++ l).
Proof.
  induction l as [|x l IH]; intros kept seen Hl Hb; cbn [foldl]; [by rewrite app_nil_r|].
  replace (seen ++ x :: l) with ((seen ++ [x]) ++ l) by (by rewrite <-app_assoc).
  apply IH; [done|]. by apply push_top_hit_best.
Qed.

Lemma sorted_app (l l' : list ContextHit) :
  StronglySorted le l → StronglySorted le l' → (∀ x y, x ∈ l → y ∈ l' → le x y) → StronglySorted le (l ++ l').
Proof.
  induction 1 as [|x l Hs IH Hf]; intros Hs' Hle; cbn; [done|]. constructor.
  - apply IH; [done|]. intros a b Ha Hb. apply Hle; [by right|done].
  - apply Forall_app. split; [done|]. apply Forall_forall. intros b Hb. apply Hle; [by left|done].
Qed.

Lemma best_of_sorted limit kept seen :
  (∀ x y, x ∈ seen → y ∈ seen → compare_hits x y = Eq → x = y) → best_of limit kept seen →
  sort_by compare_hits kept = take limit (sort_by compare_hits seen).
Proof.
  intros Hd (rest & Hp & Hle & Hlen & Hfull).
  assert (sort_by compare_hits seen = sort_by compare_hits kept ++ sort_by compare_hits rest) as ->.
  { apply (sorted_unique compare_hits); [|apply sort_by_sorted, _| |].
    - intros x y. rewrite (sort_by_Permutation compare_hits). apply Hd.
    - apply sorted_app; [apply sort_by_sorted, _..|]. intros x y.
      rewrite !(sort_by_Permutation compare_hits). apply Hle.
    - by rewrite !(sort_by_Permutation compare_hits). }
  assert (length (sort_by compare_hits kept) = length kept) as Hl by (by rewrite (sort_by_Permutation compare_hits)).
  destruct rest as [|y rest]; [|by rewrite take_app_length' by (rewrite Hl; symmetry; apply Hfull; done)].
  cbn. rewrite app_nil_r, take_ge; [done|lia].
Qed.
End top_hits.

Section search.
Context {BU : BitflagsUnion} {SH : Sha256} {HS : SegmentHashes} {CT : ConstantTimeEq} {ED : Ed25519}.

(** Searching without the matcher or the bound: the occurrences of the query
    in the view of every live object below the target. *)
Definition hit_score (o : StoredObject) (requested : option ProgressiveView) (query : list Z) : ContextResult Z :=
  profile ← map_err (λ _, RvfVerificationFailed) (from_rvf (so_rvf o) (so_revision o) PinnedIdentity []);
  let view := default PvOverview requested in
  match profile_view view (vp_profile profile) with
  | None => Ok 0
  | Some _ =>
      payload ← map_err (λ _, RvfVerificationFailed) (view_payload (so_rvf o) view profile);
      Ok (Z.min u32_max (occurrences query payload))
  end.
Definition hit_candidate (target : RuvUri) (query : list Z) (r : MemoryResolver) (s : AliasSnapshot)
    : ContextResult (option ContextHit) :=
  if as_tombstone s || negb (is_within target (as_alias s)) then Ok None
  else
    match object_for (as_alias s) (as_revision s) r with
    | None => Ok None
    | Some o =>
        if dead o then Ok None
        else
          score ← hit_score o (ru_view target) query;
          if score =? 0 then Ok None
          else
            pinned ← pin (as_revision s) (as_alias s);
            Ok (Some (mkContextHit pinned (as_revision s) score (Some (as_generation s))))
    end.
Fixpoint candidates (target : RuvUri) (query : list Z) (r : MemoryResolver) (aliases : list AliasSnapshot)
    : ContextResult (list ContextHit) :=
  match aliases with
  | [] => Ok []
  | s :: aliases =>
      h ← hit_candidate target query r s;
      hits ← candidates target query r aliases;
      Ok (match h with Some x => x :: hits | None => hits end)
  end.
Definition all_hits (target : RuvUri) (query : list Z) (r : MemoryResolver) : ContextResult (list ContextHit) :=
  match ru_revision target with
  | Some revision =>
      match object_for target revision r with
      | Some o =>
          if dead o then Ok []
          else
            score ← hit_score o (ru_view target) query;
            if score =? 0 then Ok [] else Ok [mkContextHit (mkPinnedRuvUri target revision) revision score None]
      | None => Ok []
      end
  | None => candidates target query r (mr_aliases r)
  end.

Lemma score_view_exact o v query : query ≠ [] → score_view o v (matcher_for query) = hit_score o v query.
Proof.
  intros Hq. unfold score_view, hit_score. destruct (map_err _ _) as [p|e]; [|done]. cbn [mbind result_bind].
  destruct (profile_view _ _); [|done]. destruct (map_err _ (view_payload _ _ _)) as [payload|]; [|done].
  cbn [mbind result_bind]. destruct (matcher_count query payload Hq) as (m & Hm & Hc).
  unfold matcher_for. rewrite Hm. cbn [default from_option id]. by rewrite Hc.
Qed.

Lemma hit_score_nonneg o v query score : hit_score o v query = Ok score → 0 ≤ score.
Proof.
  unfold hit_score. intros (p & _ & H)%bind_Ok. destruct (profile_view _ _); [|by injection H as <-].
  apply bind_Ok in H as (payload & _ & H). injection H as <-. pose proof (occurrences_nonneg query payload).
  unfold u32_max. lia.
Qed.

Lemma search_loop_exact target query limit r aliases : ∀ hits,
  query ≠ [] →
  search_loop target (matcher_for query) limit r aliases hits =
    (found ← candidates target query r aliases; Ok (foldl (λ kept x, push_top_hit kept limit x) hits found)).
Proof.
  induction aliases as [|s aliases IH]; intros hits Hq; [done|]. cbn [search_loop candidates]. unfold hit_candidate.
  assert (∀ hits, search_loop target (matcher_for query) limit r aliases hits =
    (found ← (hits ← candidates target query r aliases; Ok hits);
     Ok (foldl (λ kept x, push_top_hit kept limit x) hits found))) as Hskip.
  { intros hits'. rewrite IH by done. by destruct (candidates _ _ _ _). }
  destruct (as_tombstone s || _); [apply Hskip|]. destruct (object_for _ _ r) as [o|]; [|apply Hskip].
  destruct (dead o); [apply Hskip|]. rewrite score_view_exact by done.
  destruct (hit_score _ _ _) as [score|e]; [|done]. cbn [mbind result_bind]. destruct (score =? 0); [apply Hskip|].
  destruct (pin _ _) as [pinned|e]; [|done]. cbn [mbind result_bind]. rewrite IH by done.
  by destruct (candidates _ _ _ _).
Qed.

Lemma candidates_elem target query r aliases hits x :
  candidates target query r aliases = Ok hits → x ∈ hits → ∃ s, s ∈ aliases ∧ hit_candidate target query r s = Ok (Some x).
Proof.
  revert hits. induction aliases as [|s aliases IH]; cbn [candidates]; intros hits H Hx.
  { injection H as <-. by apply not_elem_of_nil in Hx. }
  apply bind_Ok in H as (h & Hh & H). apply bind_Ok in H as (hits' & Hc & H). injection H as <-.
  destruct h as [y|]; [apply elem_of_cons in Hx as [->|Hx]|]; [by exists s; split; [left|]|..];
    destruct (IH hits' Hc Hx) as (s' & ? & ?); exists s'; (split; [by right|done]).
Qed.

Lemma hit_candidate_Ok target query r s x :
  hit_candidate target query r s = Ok (Some x) →
  ht_pinned_uri x = mkPinnedRuvUri (set_ru_revision (as_revision s) (as_alias s)) (as_revision s).
Proof.
  unfold hit_candidate. destruct (_ || _); [done|]. destruct (object_for _ _ r) as [o|]; [|done]. destruct (dead o); [done|].
  intros (score & _ & H)%bind_Ok. destruct (score =? 0); [done|].
  apply bind_Ok in H as (p & Hp & H). injection H as <-. by apply pin_Ok in Hp.
Qed.

Lemma candidates_distinct target query r hits x y :
  resolver_inv r → candidates target query r (mr_aliases r) = Ok hits → x ∈ hits → y ∈ hits →
  compare_hits x y = Eq → x = y.
Proof.
  intros Hi Hc Hx Hy [_ E%pinned_cmp_eq]%cmp_then_Eq.
  destruct (candidates_elem _ _ _ _ _ x Hc Hx) as (s & Hs & Hsx).
  destruct (candidates_elem _ _ _ _ _ y Hc Hy) as (s' & Hs' & Hsy).
  assert (s = s') as <-; [|congruence]. apply (alias_unique r); [done..|].
  apply hit_candidate_Ok in Hsx, Hsy. rewrite Hsx, Hsy in E. injection E. intros _ E'.
  unfold name_of. destruct (as_alias s), (as_alias s'). cbn in *. congruence.
Qed.

Lemma search_hits_sorted target query limit r :
  resolver_inv r → query ≠ [] → limit ≠ 0%nat →
  (hits ← search_hits target (matcher_for query) limit r; Ok (sort_by compare_hits hits)) =
    (hits ← all_hits target query r; Ok (take limit (sort_by compare_hits hits))).
Proof.
  intros Hi Hq El.
  unfold search_hits, all_hits. set (t := target). destruct (ru_revision t) as [rev|] eqn:Erev.
  - destruct (object_for t rev r) as [o|] eqn:Eo; [|by destruct limit].
    apply object_for_Some in Eo as (_ & _ & Hn). apply same_name_iff in Hn. rewrite Hn, andb_true_r.
    destruct (dead o); cbn [negb]; [by destruct limit|]. rewrite score_view_exact by done.
    destruct (hit_score _ _ _) as [score|e] eqn:Es; [|done]. cbn [mbind result_bind].
    apply hit_score_nonneg in Es. destruct (Z.eqb_spec score 0) as [->|Hne]; [by destruct limit|].
    assert (0 < score) as ->%Z.ltb_lt by lia.
    assert (pin_target t = Ok (mkPinnedRuvUri t rev)) as -> by (apply pin_target_Ok; eauto).
    cbn [mbind result_bind]. unfold push_top_hit. cbn [length].
    assert ((0 <? limit)%nat = true) as -> by (apply Nat.ltb_lt; lia). rewrite take_ge; [done|cbn; lia].
  - rewrite search_loop_exact by done. destruct (candidates _ _ _ _) as [hits|e] eqn:Ec; [|done]. cbn [mbind result_bind].
    f_equal. apply best_of_sorted; [by intros x y; eapply candidates_distinct|].
    apply (fold_top_hits_best limit hits [] []); [lia|]. exists []. cbn. split_and!; [done|by intros ?? []%not_elem_of_nil|lia|done].
Qed.

(** Search keeps only [limit] hits at a time and counts with the matcher,
    but answers as if it had scored every live object below the target by
    counting the occurrences of the query in its view, sorted all hits by
    descending score and then name, and returned the first [limit]. *)
Theorem search_best_hits req query limit r :
  resolver_inv r →
  mem_search req query limit r =
    (_ ← ensure_operation req OpSearch;
     if bool_decide (query = []) || (MAX_SEARCH_QUERY_BYTES <? length query)%nat then Err CxInvalidQuery
     else if (limit =? 0)%nat || (MAX_SEARCH_RESULTS <? Z.of_nat limit) then Err InvalidResultLimit
     else
       hits ← all_hits (ar_target req) query r;
       Ok (take limit (sort_by compare_hits hits))).
Proof.
  intros Hi. unfold mem_search. destruct (ensure_operation _ _); [|done]. cbn [mbind result_bind].
  case_bool_decide as Hq; [done|]. destruct (_ <? length query)%nat; [done|]. cbn [orb].
  destruct (limit =? 0)%nat eqn:El; [done|]. apply Nat.eqb_neq in El. destruct (_ <? Z.of_nat limit); [done|]. cbn [orb].
  by apply search_hits_sorted.
Qed.
End search.

(* ------------------------------------------------------------------ *)
(** ** A sample: one object put, published, searched and forgotten *)

#[local] Existing Instances sample_rights sample_sha sample_hashes sample_ct_eq sample_ct_eq_ok sample_ed.

Definition sample_doc : RuvUri :=
  match uri_from_str (lit "ruv://ctx.example.com/acme/agent/planner/memory/doc") with
  | Ok u => u
  | Err _ => mkRuvUri (mkAuthority []) (mkTenantId []) (mkSubject SkAgent (mkSubjectId [])) ColMemory [] None None
  end.
(** The collection above it, searched through its abstracts. *)
Definition sample_abstracts : RuvUri :=
  mkRuvUri (ru_authority sample_doc) (ru_tenant sample_doc) (ru_subject sample_doc) ColMemory [] None (Some PvAbstract).
Definition sample_revision : Revision := rev_of sample_context.
Definition sample_call (op : ContextOperation) (u : RuvUri) : AuthorizedRequest := mkAuthorizedRequest 6 op u 0 0 0.
Definition sample_alias : AliasSnapshot := mkAliasSnapshot sample_doc sample_revision 1 false.
Definition sample_puts : list ResolverCall :=
  [RcPut (sample_call OpPut (set_ru_revision sample_revision sample_doc)) sample_context;
   RcCas (sample_call OpCompareAndSwapAlias sample_doc) None sample_revision].
Definition sample_forget : list ResolverCall := [RcForget (sample_call OpForget sample_doc) sample_alias].
Definition sample_resolver : MemoryResolver := run_resolver sample_puts (memory_resolver_new 4 4).

Example sample_published : current_alias sample_doc sample_resolver = Some sample_alias.
Proof. vm_compute. reflexivity. Qed.
Example sample_forgotten :
  (as_tombstone <$> current_alias sample_doc (run_resolver sample_forget sample_resolver)) = Some true ∧
  mem_resolve (sample_call OpResolve sample_doc) (run_resolver sample_forget sample_resolver) = Err Tombstoned ∧
  mem_resolve (sample_call OpResolve (set_ru_revision sample_revision sample_doc))
    (run_resolver sample_forget sample_resolver) = Err Tombstoned.
Proof. vm_compute. split_and!; reflexivity. Qed.

Lemma search_best_hits_witness :
  mem_search (sample_call OpSearch sample_abstracts) (lit "t") 3 sample_resolver =
    Ok [mkContextHit (mkPinnedRuvUri (set_ru_revision sample_revision sample_doc) sample_revision)
          sample_revision 2 (Some 1)].
Proof.
  rewrite (search_best_hits (sample_call OpSearch sample_abstracts) (lit "t") 3 sample_resolver).
  - vm_compute. reflexivity.
  - apply run_resolver_inv, resolver_new_inv.
Defined.

Lemma alias_snapshots_never_recur_witness :
  ∃ s', current_alias sample_doc (run_resolver sample_forget sample_resolver) = Some s' ∧ s' ≠ sample_alias ∧
    current_alias sample_doc (run_resolver sample_puts (run_resolver sample_forget sample_resolver)) ≠ Some sample_alias.
Proof.
  destruct (current_alias sample_doc (run_resolver sample_forget sample_resolver)) as [s'|] eqn:E;
    [|vm_compute in E; discriminate E].
  assert (s' ≠ sample_alias) as Hne by (intros ->; vm_compute in E; discriminate E).
  exists s'. split; [reflexivity|]. split; [exact Hne|].
  apply (alias_snapshots_never_recur sample_resolver sample_doc sample_alias sample_forget s' sample_puts);
    [apply run_resolver_inv, resolver_new_inv|exact sample_published|exact E|exact Hne].
Defined.
