(* ===== verification/ContextReceipt.v ===== *)
(** Signed epoch receipts: [crates/rvm-context/src/receipt.rs].

    A receipt seals a contiguous run of witness records with a Merkle root,
    binds it to the namespace, policy, detail and package identities, and is
    signed through the 64-byte signer interface of [Signers].  Receipts chain:
    each names its predecessor, the next epoch and the next sequence. *)

From stdpp Require Import base numbers list option strings.
From Stdlib Require Import ZArith Lia.
From S2P Require Import Prelude.
From S2P Require Import Text.
From S2P Require Import Bytes.
From S2P Require Import Types.
From S2P Require Import WitnessLog.
From S2P Require Import Security.
From S2P Require Import Signers.

(* ------------------------------------------------------------------ *)
(** ** Data *)

Definition CONTEXT_RECEIPT_VERSION : Z := 1.
Definition CONTEXT_RECEIPT_ENCODED_SIZE : nat := 352.
Definition RVF_WITNESS_ENTRY_SIZE : nat := 73.
Definition RVF_WITNESS_COMPUTATION : Z := 2.
Definition MAX_CONTEXT_EPOCH_RECORDS : Z := 262144.

Definition RECEIPT_MAGIC : list Z := lit "RUCR".
Definition SIGNING_DOMAIN : list Z := lit "RUV-CONTEXT-EPOCH-RECEIPT-V1".
Definition SIGNED_ID_DOMAIN : list Z := lit "RUV-CONTEXT-EPOCH-RECEIPT-ID-V1".
Definition LEAF_DOMAIN : list Z := lit "RUV-CONTEXT-WITNESS-LEAF-V1".
Definition NODE_DOMAIN : list Z := lit "RUV-CONTEXT-WITNESS-NODE-V1".

Inductive ContextReceiptError : Set :=
| EmptyEpoch | CrTooManyRecords | CrSequenceRange | CrTimestampBounds
| CrChain (e : ChainIntegrityError) | CrSnapshot (e : SnapshotSinceError)
| SignerMismatch | CrSignature (e : SignatureError) | CrEncoding (message : string)
| WitnessRootMismatch | ReceiptContinuity.

Notation ReceiptResult := (result ContextReceiptError).

(** [x?] where [From] converts the error. *)
Definition chain_err {A} (r : result ChainIntegrityError A) : ReceiptResult A := map_err CrChain r.
Definition snapshot_err {A} (r : result SnapshotSinceError A) : ReceiptResult A := map_err CrSnapshot r.

Record ContextEpochReceipt : Set := mkContextEpochReceipt {
  er_epoch_id : Z;
  er_first_sequence : Z;
  er_last_sequence : Z;
  er_record_count : Z;
  er_started_ns : Z;
  er_ended_ns : Z;
  er_initial_chain_hash : Z;
  er_previous_receipt : list Z;
  er_namespace_root : list Z;
  er_rvf_identity : list Z;
  er_policy_hash : list Z;
  er_detail_root : list Z;
  er_witness_root : list Z;
}.

Record SignedContextEpochReceipt : Set := mkSignedContextEpochReceipt {
  sr_receipt : ContextEpochReceipt;
  sr_signer_id : list Z;
  sr_signature : list Z;
}.

(** SHAKE-256 with 32 bytes of output, outside the repository. *)
Class Shake256 : Type := shake256 : list Z → list Z.

(* ------------------------------------------------------------------ *)
(** ** The Merkle root *)

Section merkle.
Context `{!Sha256}.

Definition leaf_input (r : WitnessRecord) : list Z := LEAF_DOMAIN ++ record_to_bytes r.
Definition node_input (left right : list Z) : list Z := NODE_DOMAIN ++ left ++ right.

(** One pass of [for parent in 0..parent_count] over the level, in place;
    [n] parents are left. *)
Fixpoint merkle_pass (level : list (list Z)) (current_len parent n : nat) : list (list Z) :=
  match n with
  | O => level
  | S n =>
      let left_index := (parent * 2)%nat in
      let left := default [] (level !! left_index) in
      let right :=
        if (left_index + 1 <? current_len)%nat then default [] (level !! (left_index + 1)%nat)
        else default [] (level !! left_index) in
      merkle_pass (<[parent := sha256 (node_input left right)]> level) current_len (parent + 1) n
  end.

(** [while level.len() > 1]. *)
Fixpoint merkle_loop (fuel : nat) (level : list (list Z)) : option (list (list Z)) :=
  if (1 <? length level)%nat then
    match fuel with
    | O => None
    | S fuel =>
        let current_len := length level in
        let parent_count := ((current_len + 1) / 2)%nat in
        merkle_loop fuel (take parent_count (merkle_pass level current_len 0 parent_count))
    end
  else Some level.

(** A level of [n] digests is done after fewer than [n] passes. *)
Definition merkle_root (records : list WitnessRecord) : list Z :=
  let level := (λ r, sha256 (leaf_input r)) <$> records in
  default (replicate 32 0) (merkle_loop (length records) level ≫= head).
End merkle.

Definition timestamp_bounds (records : list WitnessRecord) : Z * Z :=
  let initial := from_option wr_timestamp_ns 0 (head records) in
  foldl (λ '(minimum, maximum) r,
    (Z.min minimum (wr_timestamp_ns r), Z.max maximum (wr_timestamp_ns r)))
    (initial, initial) records.

(* ------------------------------------------------------------------ *)
(** ** Sealing and checking records *)

Section receipts.
Context `{!Sha256, !ChainHasher}.

Definition seal (epoch_id : Z) (cp : WitnessCheckpoint) (records : list WitnessRecord)
    (previous_receipt namespace_root rvf_identity policy_hash detail_root : list Z)
    : ReceiptResult ContextEpochReceipt :=
  match records with
  | [] => Err EmptyEpoch
  | first :: _ =>
      if MAX_CONTEXT_EPOCH_RECORDS <? Z.of_nat (length records) then Err CrTooManyRecords
      else
        let record_count := Z.of_nat (length records) in
        if u32_max <? record_count then Err CrTooManyRecords
        else
          _ ← chain_err (verify_chain_from records (cp_chain_hash cp) (cp_next_sequence cp));
          let last_record := default first (last records) in
          let '(started_ns, ended_ns) := timestamp_bounds records in
          expected_last ←
            ok_or (checked_add u64_max (wr_sequence first) (record_count - 1)) CrSequenceRange;
          if negb (wr_sequence last_record =? expected_last) then Err CrSequenceRange
          else
            Ok (mkContextEpochReceipt epoch_id (wr_sequence first) (wr_sequence last_record)
              record_count started_ns ended_ns (cp_chain_hash cp) previous_receipt namespace_root
              rvf_identity policy_hash detail_root (merkle_root records))
  end.

(** The scratch slice comes back with what the snapshot wrote. *)
Definition seal_from_log (epoch_id : Z) (l : WitnessLog) (cp : WitnessCheckpoint)
    (scratch : list WitnessRecord)
    (previous_receipt namespace_root rvf_identity policy_hash detail_root : list Z)
    : ReceiptResult (ContextEpochReceipt * WitnessCheckpoint) * list WitnessRecord :=
  match snapshot_since cp scratch l with
  | (Err e, scratch) => (Err (CrSnapshot e), scratch)
  | (Ok s, scratch) =>
      (receipt ← seal epoch_id cp (take (Z.to_nat (sn_count s)) scratch) previous_receipt
                   namespace_root rvf_identity policy_hash detail_root;
       Ok (receipt, sn_end_checkpoint s), scratch)
  end.

Definition verify_records (rc : ContextEpochReceipt) (records : list WitnessRecord) : ReceiptResult unit :=
  let expected_count := er_record_count rc in
  if MAX_CONTEXT_EPOCH_RECORDS <? expected_count then Err CrTooManyRecords
  else
    match records with
    | [] => Err CrSequenceRange
    | first :: _ =>
        if negb (Z.of_nat (length records) =? expected_count) then Err CrSequenceRange
        else if negb (wr_sequence first =? er_first_sequence rc) ||
                negb (wr_sequence (default first (last records)) =? er_last_sequence rc)
        then Err CrSequenceRange
        else if bool_decide (timestamp_bounds records ≠ (er_started_ns rc, er_ended_ns rc))
        then Err CrTimestampBounds
        else
          _ ← chain_err (verify_chain_from records (er_initial_chain_hash rc) (er_first_sequence rc));
          if bool_decide (merkle_root records ≠ er_witness_root rc) then Err WitnessRootMismatch
          else Ok tt
    end.

(* ------------------------------------------------------------------ *)
(** ** Encoding and signing *)

(** The ranges of [out] left at zero are reserved. *)
Definition encode_unsigned (rc : ContextEpochReceipt) : list Z :=
  RECEIPT_MAGIC ++ le_bytes 2 CONTEXT_RECEIPT_VERSION ++ replicate 2 0 ++
  le_bytes 8 (er_epoch_id rc) ++ le_bytes 8 (er_first_sequence rc) ++
  le_bytes 8 (er_last_sequence rc) ++ le_bytes 4 (er_record_count rc) ++ replicate 4 0 ++
  le_bytes 8 (er_started_ns rc) ++ le_bytes 8 (er_ended_ns rc) ++
  le_bytes 8 (er_initial_chain_hash rc) ++ er_previous_receipt rc ++ er_namespace_root rc ++
  er_rvf_identity rc ++ er_policy_hash rc ++ er_detail_root rc ++ er_witness_root rc.

Definition signing_digest (rc : ContextEpochReceipt) (id : list Z) : list Z :=
  sha256 (SIGNING_DOMAIN ++ encode_unsigned rc ++ id).

Definition receipt_sign {S} `{!DigestSigner S} (rc : ContextEpochReceipt) (signer : S)
    : SignedContextEpochReceipt :=
  let id := signer_id signer in
  let digest := signing_digest rc id in
  mkSignedContextEpochReceipt rc id (digest_sign signer digest).

(** [VerifiedContextEpochReceipt] is the signed receipt it borrows. *)
Record VerifiedContextEpochReceipt : Set := mkVerified { vr_signed : SignedContextEpochReceipt }.

Definition receipt_verify {S} `{!DigestSigner S} (sr : SignedContextEpochReceipt) (signer : S)
    : ReceiptResult VerifiedContextEpochReceipt :=
  if bool_decide (signer_id signer ≠ sr_signer_id sr) then Err SignerMismatch
  else
    let digest := signing_digest (sr_receipt sr) (sr_signer_id sr) in
    _ ← map_err CrSignature (digest_verify signer digest (sr_signature sr));
    Ok (mkVerified sr).

Definition receipt_to_bytes (sr : SignedContextEpochReceipt) : list Z :=
  encode_unsigned (sr_receipt sr) ++ sr_signer_id sr ++ sr_signature sr.

Definition read_u16 (data : list Z) (offset : nat) : Z := read_le offset 2 data.
Definition read_u32 (data : list Z) (offset : nat) : Z := read_le offset 4 data.
Definition read_u64 (data : list Z) (offset : nat) : Z := read_le offset 8 data.
Definition receipt_array32 (data : list Z) (offset : nat) : list Z := slice offset 32 data.

Definition receipt_from_bytes (data : list Z) : ReceiptResult SignedContextEpochReceipt :=
  if negb (length data =? CONTEXT_RECEIPT_ENCODED_SIZE)%nat then Err (CrEncoding "wrong byte length")
  else if bool_decide (take 4 data ≠ RECEIPT_MAGIC) then Err (CrEncoding "wrong magic")
  else if negb (read_u16 data 4 =? CONTEXT_RECEIPT_VERSION) then Err (CrEncoding "unsupported version")
  else if existsb (λ b, negb (b =? 0)) (slice 6 2 data) || existsb (λ b, negb (b =? 0)) (slice 36 4 data)
  then Err (CrEncoding "reserved bytes are nonzero")
  else
    let first_sequence := read_u64 data 16 in
    let last_sequence := read_u64 data 24 in
    let record_count := read_u32 data 32 in
    if MAX_CONTEXT_EPOCH_RECORDS <? record_count then Err CrTooManyRecords
    else
      let sequence_count :=
        distance ← checked_sub last_sequence first_sequence;
        checked_add u64_max distance 1 in
      if (record_count =? 0) || bool_decide (sequence_count ≠ Some record_count)
      then Err CrSequenceRange
      else
        let started_ns := read_u64 data 40 in
        let ended_ns := read_u64 data 48 in
        if ended_ns <? started_ns then Err CrTimestampBounds
        else
          Ok (mkSignedContextEpochReceipt
            (mkContextEpochReceipt (read_u64 data 8) first_sequence last_sequence record_count
              started_ns ended_ns (read_u64 data 56) (receipt_array32 data 64) (receipt_array32 data 96)
              (receipt_array32 data 128) (receipt_array32 data 160) (receipt_array32 data 192) (receipt_array32 data 224))
            (receipt_array32 data 256) (slice 288 64 data)).

Definition receipt_id (sr : SignedContextEpochReceipt) : list Z :=
  sha256 (SIGNED_ID_DOMAIN ++ receipt_to_bytes sr).

(* ------------------------------------------------------------------ *)
(** ** Continuity *)

Definition verify_genesis (v : VerifiedContextEpochReceipt) : ReceiptResult unit :=
  let rc := sr_receipt (vr_signed v) in
  if negb (er_epoch_id rc =? 0) || negb (er_first_sequence rc =? 0) ||
     negb (er_initial_chain_hash rc =? 0) || bool_decide (er_previous_receipt rc ≠ replicate 32 0)
  then Err ReceiptContinuity else Ok tt.

(** [for offset in 0..prior.record_count]; [n] offsets are left. *)
Fixpoint replay_chain (first hash : Z) (offset n : nat) : ReceiptResult Z :=
  match n with
  | O => Ok hash
  | S n =>
      sequence ← ok_or (checked_add u64_max first (Z.of_nat offset)) ReceiptContinuity;
      replay_chain first (compute_chain_hash hash sequence) (offset + 1) n
  end.

Definition verify_successor (v previous : VerifiedContextEpochReceipt) : ReceiptResult unit :=
  let rc := sr_receipt (vr_signed v) in
  let prior := sr_receipt (vr_signed previous) in
  expected_epoch ← ok_or (checked_add u64_max (er_epoch_id prior) 1) ReceiptContinuity;
  expected_sequence ← ok_or (checked_add u64_max (er_last_sequence prior) 1) ReceiptContinuity;
  expected_initial_chain_hash ←
    replay_chain (er_first_sequence prior) (er_initial_chain_hash prior) 0
      (Z.to_nat (er_record_count prior));
  if bool_decide (er_previous_receipt rc ≠ receipt_id (vr_signed previous)) ||
     negb (er_epoch_id rc =? expected_epoch) || negb (er_first_sequence rc =? expected_sequence) ||
     negb (er_initial_chain_hash rc =? expected_initial_chain_hash)
  then Err ReceiptContinuity else Ok tt.

Definition to_rvf_witness_entry `{!Shake256} (v : VerifiedContextEpochReceipt)
    (previous_entry_hash : list Z) : list Z :=
  previous_entry_hash ++ shake256 (receipt_to_bytes (vr_signed v)) ++
  le_bytes 8 (er_ended_ns (sr_receipt (vr_signed v))) ++ [RVF_WITNESS_COMPUTATION].
Definition rvf_witness_entry_hash `{!Shake256} (entry : list Z) : list Z := shake256 entry.

Definition seal_record (v : VerifiedContextEpochReceipt) (actor capability_hash timestamp_ns : Z)
    : WitnessRecord :=
  let id := receipt_id (vr_signed v) in
  let rc := sr_receipt (vr_signed v) in
  mkWitnessRecord 0 timestamp_ns (action_code AkContextEpochSeal) 1 0 0 actor
    (of_le_bytes (take 8 id)) capability_hash (le_bytes 8 (er_last_sequence rc)) 0 0
    (take 8 (er_witness_root rc)) (replicate 4 0).
Definition emit_seal (v : VerifiedContextEpochReceipt) (actor capability_hash timestamp_ns : Z)
    (l : WitnessLog) : Z * WitnessLog :=
  log_append (seal_record v actor capability_hash timestamp_ns) l.
End receipts.

(* ------------------------------------------------------------------ *)
(** ** The Merkle tree as a function of its leaves *)

Section merkle_theory.
Context {SH : Sha256}.

(** What one pass hashes: neighbours, and the last one with itself. *)
Fixpoint node_inputs (level : list (list Z)) : list (list Z) :=
  match level with
  | a :: b :: rest => node_input a b :: node_inputs rest
  | [a] => [node_input a a]
  | [] => []
  end.
Definition merkle_parents (level : list (list Z)) : list (list Z) := sha256 <$> node_inputs level.

Lemma two_step_ind {A} (P : list A → Prop) :
  P [] → (∀ a, P [a]) → (∀ a b l, P l → P (a :: b :: l)) → ∀ l, P l.
Proof.
  intros H0 H1 H2 l. enough (P l ∧ ∀ a, P (a :: l)) by tauto.
  induction l as [|b l [IH1 IH2]]; split; auto.
Qed.

Lemma half_up n : (n ≤ (n + 1) / 2 * 2 ≤ n + 1)%nat.
Proof.
  pose proof (Nat.div_mod_eq (n + 1) 2). pose proof (Nat.mod_upper_bound (n + 1) 2 ltac:(lia)). lia.
Qed.

Lemma node_inputs_length level : length (node_inputs level) = ((length level + 1) / 2)%nat.
Proof.
  induction level as [| |a b l IH] using two_step_ind; [done..|]. cbn [node_inputs length]. rewrite IH.
  replace (S (S (length l)) + 1)%nat with (1 * 2 + (length l + 1))%nat by lia.
  rewrite Nat.div_add_l by lia. lia.
Qed.

Lemma node_inputs_drop level parent :
  (parent * 2 < length level)%nat →
  let left := default [] (level !! (parent * 2)%nat) in
  let right := if (parent * 2 + 1 <? length level)%nat then default [] (level !! (parent * 2 + 1)%nat) else left in
  node_inputs (drop (parent * 2) level) = node_input left right :: node_inputs (drop ((parent + 1) * 2) level).
Proof.
  intros Hp. cbn zeta. destruct (lookup_lt_is_Some_2 level (parent * 2)%nat Hp) as [a Ha].
  rewrite (drop_S _ _ _ Ha), Ha. cbn [default from_option id].
  replace ((parent + 1) * 2)%nat with (S (parent * 2 + 1)) by lia.
  destruct (parent * 2 + 1 <? length level)%nat eqn:E.
  - apply Nat.ltb_lt in E. destruct (lookup_lt_is_Some_2 level (parent * 2 + 1)%nat E) as [b Hb].
    rewrite Hb. replace (S (parent * 2)) with (parent * 2 + 1)%nat by lia. by rewrite (drop_S _ _ _ Hb).
  - apply Nat.ltb_ge in E. by rewrite !drop_ge by lia.
Qed.

(** The in-place pass reads each pair before it is overwritten. *)
Lemma merkle_pass_spec level lv parent n :
  length lv = length level → drop (parent * 2) lv = drop (parent * 2) level →
  (parent + n = (length level + 1) / 2)%nat →
  take (parent + n) (merkle_pass lv (length level) parent n) =
    take parent lv ++ (sha256 <$> node_inputs (drop (parent * 2) level)).
Proof.
  revert lv parent. induction n as [|n IH]; intros lv parent Hlen Hdrop Hn; cbn [merkle_pass].
  - pose proof (half_up (length level)).
    rewrite (drop_ge level) by lia. cbn [node_inputs fmap list_fmap].
    by rewrite app_nil_r, Nat.add_0_r.
  - pose proof (half_up (length level)).
    assert (∀ i, (parent * 2 ≤ i)%nat → lv !! i = level !! i) as Hat.
    { intros i Hi. replace i with (parent * 2 + (i - parent * 2))%nat by lia. by rewrite <-!lookup_drop, Hdrop. }
    rewrite !Hat by lia. set (v := sha256 _).
    replace (parent + S n)%nat with ((parent + 1) + n)%nat by lia. rewrite IH; [|by rewrite length_insert| |lia].
    + rewrite take_insert_snoc by lia. rewrite (node_inputs_drop level parent) by lia. cbn [fmap list_fmap].
      by rewrite <-app_assoc.
    + rewrite drop_insert_lt by lia. replace ((parent + 1) * 2)%nat with (parent * 2 + 2)%nat by lia.
      by rewrite <-!drop_drop, Hdrop.
Qed.

Lemma merkle_loop_step fuel level :
  (1 < length level)%nat → merkle_loop (S fuel) level = merkle_loop fuel (merkle_parents level).
Proof.
  intros Hl. cbn [merkle_loop]. rewrite (proj2 (Nat.ltb_lt _ _) Hl). f_equal.
  pose proof (merkle_pass_spec level level 0 ((length level + 1) / 2) eq_refl eq_refl eq_refl) as H.
  cbn [Nat.mul Nat.add] in H. rewrite H. done.
Qed.

Lemma merkle_loop_done fuel level : (length level ≤ 1)%nat → merkle_loop fuel level = Some level.
Proof. intros Hl. destruct fuel; cbn [merkle_loop]; by rewrite (proj2 (Nat.ltb_ge _ _) Hl). Qed.

Lemma merkle_parents_length level :
  length (merkle_parents level) = ((length level + 1) / 2)%nat.
Proof. unfold merkle_parents. by rewrite length_fmap, node_inputs_length. Qed.

(** The passes end with one digest. *)
Lemma merkle_loop_total fuel level :
  level ≠ [] → (length level ≤ fuel + 1)%nat → ∃ root, merkle_loop fuel level = Some [root].
Proof.
  revert level. induction fuel as [|fuel IH]; intros level Hn Hl.
  - destruct level as [|a [|b l]]; [done| |cbn in Hl; lia]. exists a. by apply merkle_loop_done.
  - destruct (decide (1 < length level)%nat) as [Hlt|Hge].
    + rewrite merkle_loop_step by done.
      pose proof (merkle_parents_length level) as Hp.
      pose proof (half_up (length level)).
      apply IH; [|lia]. intros E. rewrite E in Hp. cbn [length] in Hp. lia.
    + destruct level as [|a [|b l]]; [done| |cbn in Hge; lia]. exists a. by apply merkle_loop_done.
Qed.

Lemma merkle_loop_mono fuel level out :
  merkle_loop fuel level = Some out → ∀ fuel', (fuel ≤ fuel')%nat → merkle_loop fuel' level = Some out.
Proof.
  revert level. induction fuel as [|fuel IH]; intros level H fuel' Hf.
  - cbn [merkle_loop] in H. destruct (1 <? length level)%nat eqn:E; [done|]. apply Nat.ltb_ge in E.
    by rewrite merkle_loop_done.
  - destruct fuel' as [|fuel']; [lia|]. destruct (decide (1 < length level)%nat) as [Hlt|Hge].
    + rewrite merkle_loop_step in H |- * by done. apply IH; [done|lia].
    + rewrite merkle_loop_done in H |- * by lia. done.
Qed.

(** Everything hashed on the way to the root. *)
Fixpoint tree_inputs (fuel : nat) (level : list (list Z)) : list (list Z) :=
  match fuel with
  | O => []
  | S fuel =>
      if (1 <? length level)%nat then node_inputs level ++ tree_inputs fuel (merkle_parents level) else []
  end.
Definition merkle_inputs (records : list WitnessRecord) : list (list Z) :=
  (leaf_input <$> records) ++
  tree_inputs (length records) ((λ r, sha256 (leaf_input r)) <$> records).

(** Two different inputs among those hashed, with one digest. *)
Definition clash (xs ys : list (list Z)) : Prop :=
  ∃ x y, x ∈ xs ∧ y ∈ ys ∧ x ≠ y ∧ sha256 x = sha256 y.

Lemma clash_mono xs xs' ys ys' : xs ⊆ xs' → ys ⊆ ys' → clash xs ys → clash xs' ys'.
Proof. intros Hx Hy (x & y & ? & ? & ?). exists x, y. auto. Qed.

Lemma hashes_inj xs ys : sha256 <$> xs = sha256 <$> ys → xs = ys ∨ clash xs ys.
Proof.
  revert ys. induction xs as [|x xs IH]; intros [|y ys]; cbn; try done; [by left|].
  intros [= Hh Ht]. destruct (decide (x = y)) as [->|Hne].
  - destruct (IH ys Ht) as [->|Hc]; [by left|right]. eapply clash_mono; [..|exact Hc]; by intros ? ?; right.
  - right. exists x, y. split_and!; [left|left|done|done].
Qed.

Lemma node_inputs_inj xs ys :
  Forall (λ d, length d = 32%nat) xs → Forall (λ d, length d = 32%nat) ys → length xs = length ys →
  node_inputs xs = node_inputs ys → xs = ys.
Proof.
  revert ys. induction xs as [|a|a b xs IH] using two_step_ind; intros [|a' [|b' ys]] Hx Hy Hl; try done.
  - intros [= E]. apply Forall_cons in Hx as [Ha _], Hy as [Ha' _].
    apply app_inj_1 in E as [-> _]; [done|congruence].
  - intros [= E Hr]. apply Forall_cons in Hx as [Ha [Hb Hx]%Forall_cons].
    apply Forall_cons in Hy as [Ha' [Hb' Hy]%Forall_cons].
    apply app_inj_1 in E as [-> ->]; [|congruence]. f_equal. f_equal. apply IH; [done|done| |done].
    cbn in Hl. lia.
Qed.

Lemma merkle_loop_inj fuel xs ys root :
  Forall (λ d, length d = 32%nat) xs → Forall (λ d, length d = 32%nat) ys → length xs = length ys →
  (∀ d : list Z, length (sha256 d) = 32%nat) →
  merkle_loop fuel xs = Some [root] → merkle_loop fuel ys = Some [root] →
  xs = ys ∨ clash (tree_inputs fuel xs) (tree_inputs fuel ys).
Proof.
  intros Hx Hy Hl H32. revert xs ys Hx Hy Hl. induction fuel as [|fuel IH]; intros xs ys Hx Hy Hl.
  - cbn [merkle_loop]. rewrite Hl. destruct (1 <? length ys)%nat; [done|]. intros [= ->] [= ->]. by left.
  - destruct (decide (1 < length ys)%nat) as [Hlt|Hge].
    + rewrite !merkle_loop_step by lia. intros H1 H2. cbn [tree_inputs].
      rewrite Hl, (proj2 (Nat.ltb_lt _ _) Hlt).
      destruct (IH (merkle_parents xs) (merkle_parents ys)) as [E|Hc]; try done.
      * apply Forall_fmap, Forall_true. intros d. apply H32.
      * apply Forall_fmap, Forall_true. intros d. apply H32.
      * by rewrite !merkle_parents_length, Hl.
      * apply hashes_inj in E as [E|Hc]; [left; by apply node_inputs_inj|right].
        eapply clash_mono; [..|exact Hc]; intros ? ?; apply elem_of_app; by left.
      * right. eapply clash_mono; [..|exact Hc]; intros ? ?; apply elem_of_app; by right.
    + rewrite !merkle_loop_done by lia. intros [= ->] [= ->]. by left.
Qed.

Lemma list_fmap_inj_fmap {A B C} (f : A → B) (g : A → C) :
  (∀ a a', f a = f a' → g a = g a') → ∀ l l' : list A, f <$> l = f <$> l' → g <$> l = g <$> l'.
Proof.
  intros H l. induction l as [|a l IH]; intros [|a' l']; try done. cbn. intros [= E1%H E2%IH].
  by f_equal.
Qed.

Lemma leaf_input_inj r r' : leaf_input r = leaf_input r' → record_to_bytes r = record_to_bytes r'.
Proof. apply app_inv_head. Qed.

(** Equal roots over equally many records mean equal records, up to a clash. *)
Lemma merkle_root_inj rs rs' :
  (∀ d : list Z, length (sha256 d) = 32%nat) →
  length rs = length rs' → merkle_root rs = merkle_root rs' →
  record_to_bytes <$> rs = record_to_bytes <$> rs' ∨ clash (merkle_inputs rs) (merkle_inputs rs').
Proof.
  intros H32 Hl. unfold merkle_root, merkle_inputs. rewrite Hl.
  destruct rs as [|r rs], rs' as [|r' rs']; try done; [by left|]. cbn zeta.
  set (n := length (r' :: rs')) in *. set (xs := _ <$> r :: rs). set (ys := _ <$> r' :: rs'). intros Hroot.
  assert (length xs = n ∧ length ys = n) as [Hxn Hyn] by (subst xs ys; rewrite !length_fmap; done).
  destruct (merkle_loop_total n xs) as [x Hx]; [done|lia|].
  destruct (merkle_loop_total n ys) as [y Hy]; [done|lia|].
  rewrite Hx, Hy in Hroot. cbn in Hroot. subst y.
  destruct (merkle_loop_inj n xs ys x) as [E|Hc]; try done.
  - apply Forall_fmap, Forall_true. intros d. apply H32.
  - apply Forall_fmap, Forall_true. intros d. apply H32.
  - congruence.
  - assert (∀ l, (λ r, sha256 (leaf_input r)) <$> l = sha256 <$> (leaf_input <$> l)) as Hc
      by (intros l; apply (list_fmap_compose leaf_input sha256)).
    subst xs ys. rewrite !Hc in E. clear Hc. apply hashes_inj in E as [E|Hc].
    + left. by apply (list_fmap_inj_fmap leaf_input record_to_bytes leaf_input_inj).
    + right. eapply clash_mono; [..|exact Hc]; intros ? ?; apply elem_of_app; by left.
  - right. eapply clash_mono; [..|exact Hc]; intros ? ?; apply elem_of_app; by right.
Qed.
End merkle_theory.

(* ------------------------------------------------------------------ *)
(** ** The encoding *)

Definition RECEIPT_MAGIC_length : length RECEIPT_MAGIC = 4%nat := eq_refl.

Record receipt_wf (rc : ContextEpochReceipt) : Prop := {
  ew_epoch : is_u64 (er_epoch_id rc); ew_first : is_u64 (er_first_sequence rc);
  ew_last : is_u64 (er_last_sequence rc);
  ew_count : 0 < er_record_count rc ≤ MAX_CONTEXT_EPOCH_RECORDS;
  ew_range : er_last_sequence rc = er_first_sequence rc + er_record_count rc - 1;
  ew_started : is_u64 (er_started_ns rc); ew_ended : is_u64 (er_ended_ns rc);
  ew_times : er_started_ns rc ≤ er_ended_ns rc;
  ew_chain : is_u64 (er_initial_chain_hash rc);
  ew_previous : length (er_previous_receipt rc) = 32%nat;
  ew_namespace : length (er_namespace_root rc) = 32%nat;
  ew_rvf : length (er_rvf_identity rc) = 32%nat;
  ew_policy : length (er_policy_hash rc) = 32%nat;
  ew_detail : length (er_detail_root rc) = 32%nat;
  ew_root : length (er_witness_root rc) = 32%nat;
}.

Record signed_wf (sr : SignedContextEpochReceipt) : Prop := {
  sw_receipt : receipt_wf (sr_receipt sr);
  sw_signer : length (sr_signer_id sr) = 32%nat;
  sw_signature : length (sr_signature sr) = 64%nat;
}.

Lemma read_u64_field data off z : slice off 8 data = le_bytes 8 z → is_u64 z → read_u64 data off = z.
Proof. intros H Hz. unfold read_u64, read_le. rewrite H. by apply of_le_bytes_8. Qed.
Lemma read_u32_field data off z : slice off 4 data = le_bytes 4 z → is_u32 z → read_u32 data off = z.
Proof. intros H Hz. unfold read_u32, read_le. rewrite H. by apply of_le_bytes_4. Qed.

Lemma receipt_to_from sr : signed_wf sr → receipt_from_bytes (receipt_to_bytes sr) = Ok sr.
Proof.
  destruct sr as [rc id sig]. intros [Hrc Hid Hsig]. cbn [sr_receipt sr_signer_id sr_signature] in *.
  destruct rc as [ep fi la co st en ch pr na rv po de ro].
  destruct Hrc as [H1 H2 H3 H4 H5 H6 H7 H8 H9 L1 L2 L3 L4 L5 L6].
  cbn [er_epoch_id er_first_sequence er_last_sequence er_record_count er_started_ns er_ended_ns
    er_initial_chain_hash er_previous_receipt er_namespace_root er_rvf_identity er_policy_hash
    er_detail_root er_witness_root] in *.
  pose proof RECEIPT_MAGIC_length as HM. unfold MAX_CONTEXT_EPOCH_RECORDS in H4.
  unfold receipt_to_bytes, encode_unsigned. cbn [sr_receipt sr_signer_id sr_signature er_epoch_id
    er_first_sequence er_last_sequence er_record_count er_started_ns er_ended_ns
    er_initial_chain_hash er_previous_receipt er_namespace_root er_rvf_identity er_policy_hash
    er_detail_root er_witness_root].
  rewrite <-!app_assoc. match goal with |- receipt_from_bytes ?d = _ => set (data := d) end.
  unfold receipt_from_bytes. unfold receipt_array32.
  assert (length data = CONTEXT_RECEIPT_ENCODED_SIZE) as ->.
  { subst data. rewrite !length_app, !length_le_bytes, !length_replicate, HM, L1, L2, L3, L4, L5, L6, Hid, Hsig. done. }
  assert (take 4 data = RECEIPT_MAGIC) as -> by done.
  assert (read_u16 data 4 = 1) as ->.
  { unfold read_u16, read_le. assert (slice 4 2 data = le_bytes 2 CONTEXT_RECEIPT_VERSION) as -> by (subst data; read_field). done. }
  assert (slice 6 2 data = replicate 2 0) as -> by (subst data; read_field).
  assert (slice 36 4 data = replicate 4 0) as -> by (subst data; read_field).
  assert (read_u64 data 8 = ep) as -> by (apply read_u64_field; [subst data; read_field|done]).
  assert (read_u64 data 16 = fi) as -> by (apply read_u64_field; [subst data; read_field|done]).
  assert (read_u64 data 24 = la) as -> by (apply read_u64_field; [subst data; read_field|done]).
  assert (read_u32 data 32 = co) as -> by (apply read_u32_field; [subst data; read_field|unfold is_u32, u32_max; lia]).
  assert (read_u64 data 40 = st) as -> by (apply read_u64_field; [subst data; read_field|done]).
  assert (read_u64 data 48 = en) as -> by (apply read_u64_field; [subst data; read_field|done]).
  assert (read_u64 data 56 = ch) as -> by (apply read_u64_field; [subst data; read_field|done]).
  assert (slice 64 32 data = pr) as -> by (subst data; read_field).
  assert (slice 96 32 data = na) as -> by (subst data; read_field).
  assert (slice 128 32 data = rv) as -> by (subst data; read_field).
  assert (slice 160 32 data = po) as -> by (subst data; read_field).
  assert (slice 192 32 data = de) as -> by (subst data; read_field).
  assert (slice 224 32 data = ro) as -> by (subst data; read_field).
  assert (slice 256 32 data = id) as -> by (subst data; read_field).
  assert (slice 288 64 data = sig) as -> by (subst data; read_field).
  cbn [Nat.eqb negb]. rewrite bool_decide_false by tauto. cbn [existsb replicate orb negb Z.eqb].
  destruct (MAX_CONTEXT_EPOCH_RECORDS <? co) eqn:E1; [unfold MAX_CONTEXT_EPOCH_RECORDS in E1; lia|].
  destruct (co =? 0) eqn:E2; [lia|]. cbn [orb].
  rewrite bool_decide_false.
  - destruct (en <? st) eqn:E3; [lia|]. done.
  - intros Hne. apply Hne. unfold checked_sub. destruct (fi <=? la) eqn:E3; [|lia]. cbn [mbind option_bind].
    apply checked_add_Some. unfold u64_max. lia.
Qed.

Lemma existsb_orb_false a b :
  existsb (λ b, negb (b =? 0)) a || existsb (λ b, negb (b =? 0)) b = false →
  a = replicate (length a) 0 ∧ b = replicate (length b) 0.
Proof. by intros [?%existsb_nonzero ?%existsb_nonzero]%orb_false_iff. Qed.

Lemma receipt_from_to data sr :
  Forall is_byte data → receipt_from_bytes data = Ok sr → receipt_to_bytes sr = data ∧ signed_wf sr.
Proof.
  intros Hb H. unfold receipt_from_bytes in H.
  apply guard_Ok in H as [Hl H]. apply negb_false_iff, Nat.eqb_eq in Hl. unfold CONTEXT_RECEIPT_ENCODED_SIZE in Hl.
  apply guard_Ok in H as [Hm H]. apply bool_decide_eq_false, dec_stable in Hm.
  apply guard_Ok in H as [Hv H]. apply negb_false_iff, Z.eqb_eq in Hv.
  apply guard_Ok in H as [Hz H]. apply existsb_orb_false in Hz as [Hz1 Hz2].
  rewrite slice_length in Hz1, Hz2 by lia.
  apply guard_Ok in H as [Hc H]. apply guard_Ok in H as [Hr H]. apply guard_Ok in H as [Ht H].
  apply Ok_inj in H. subst sr. apply orb_false_iff in Hr as [Hn Hs].
  apply bool_decide_eq_false, dec_stable in Hs. split_bool.
  assert (∀ off, (off + 8 ≤ 352)%nat → le_bytes 8 (read_u64 data off) = slice off 8 data) as H8
    by (intros off Ho; apply le_bytes_read; [done|lia]).
  assert (∀ off, (off + 8 ≤ 352)%nat → is_u64 (read_u64 data off)) as Hr8.
  { intros off Ho. pose proof (read_le_range off 8 data Hb ltac:(lia)).
    unfold is_u64, u64_max, read_u64. lia. }
  split.
  - unfold receipt_to_bytes, encode_unsigned. cbn [sr_receipt sr_signer_id sr_signature er_epoch_id
      er_first_sequence er_last_sequence er_record_count er_started_ns er_ended_ns
      er_initial_chain_hash er_previous_receipt er_namespace_root er_rvf_identity er_policy_hash
      er_detail_root er_witness_root].
    rewrite !H8 by lia. rewrite <-Hm, <-Hv, <-Hz1, <-Hz2. unfold read_u32, read_u16, receipt_array32.
    rewrite !le_bytes_read by (done || lia). rewrite <-!app_assoc.
    symmetry. rewrite <-(take_drop 4 data) at 1.
    rewrite (drop_slice 4 2), (drop_slice 6 2), (drop_slice 8 8), (drop_slice 16 8), (drop_slice 24 8),
      (drop_slice 32 4), (drop_slice 36 4), (drop_slice 40 8), (drop_slice 48 8), (drop_slice 56 8),
      (drop_slice 64 32), (drop_slice 96 32), (drop_slice 128 32), (drop_slice 160 32),
      (drop_slice 192 32), (drop_slice 224 32), (drop_slice 256 32), (drop_slice 288 64).
    by rewrite (drop_ge data (288 + 64)), app_nil_r by lia.
  - split; cbn [sr_receipt sr_signer_id sr_signature]; [|apply slice_length; lia..].
    pose proof (read_le_range 32 4 data Hb ltac:(lia)) as Hco. fold (read_u32 data 32) in Hco.
    unfold checked_sub in Hs.
    destruct (read_u64 data 16 <=? read_u64 data 24) eqn:E; [|done]. cbn [mbind option_bind] in Hs.
    apply checked_add_Some in Hs as [Hs _]. split_bool.
    split; cbn [er_epoch_id
      er_first_sequence er_last_sequence er_record_count er_started_ns er_ended_ns
      er_initial_chain_hash er_previous_receipt er_namespace_root er_rvf_identity er_policy_hash
      er_detail_root er_witness_root]; try (apply Hr8; lia); try (apply slice_length; lia); try lia.
Qed.

(* ------------------------------------------------------------------ *)
(** ** Sealing, and what a receipt says about records *)

Section sealing.
Context {SH : Sha256} {SL : Sha256Laws} {CH : ChainHasher} {CL : ChainHasherLaws}.

Lemma verify_chain_from_Ok rs c s n :
  verify_chain_from rs c s = Ok n ↔ rs ≠ [] ∧ n = length rs ∧ verify_loop rs c s = Ok tt.
Proof.
  unfold verify_chain_from. destruct rs as [|r rs]; [naive_solver|].
  destruct (verify_loop (r :: rs) c s) as [[]|]; cbn [fmap result_fmap]; naive_solver.
Qed.

(** When records are those of a receipt. *)
Record records_of (rc : ContextEpochReceipt) (rs : list WitnessRecord) : Prop := {
  ro_count : Z.of_nat (length rs) = er_record_count rc;
  ro_nonempty : rs ≠ [];
  ro_bounded : er_record_count rc ≤ MAX_CONTEXT_EPOCH_RECORDS;
  ro_first : wr_sequence <$> head rs = Some (er_first_sequence rc);
  ro_last : wr_sequence <$> last rs = Some (er_last_sequence rc);
  ro_times : timestamp_bounds rs = (er_started_ns rc, er_ended_ns rc);
  ro_chain : verify_loop rs (er_initial_chain_hash rc) (er_first_sequence rc) = Ok tt;
  ro_root : merkle_root rs = er_witness_root rc;
}.

Lemma last_cons_default {A} (x : A) l : last (x :: l) = Some (default x (last (x :: l))).
Proof. destruct (last (x :: l)) eqn:E; [done|]. by apply last_None in E. Qed.

Lemma verify_records_spec rc rs : verify_records rc rs = Ok tt ↔ records_of rc rs.
Proof.
  unfold verify_records. split.
  - intros H. apply guard_Ok in H as [Hm H]. apply Z.ltb_ge in Hm. destruct rs as [|r rs]; [done|].
    apply guard_Ok in H as [Hc H]. apply guard_Ok in H as [Hs H]. split_bool.
    apply guard_Ok in H as [Ht H]. apply bool_decide_eq_false, dec_stable in Ht.
    destruct (verify_chain_from _ _ _) as [n|] eqn:Ev; [|done]. apply verify_chain_from_Ok in Ev as (_ & _ & Hv).
    cbn [chain_err map_err mbind result_bind] in H. apply guard_Ok in H as [Hr _]. apply bool_decide_eq_false, dec_stable in Hr.
    split; try done; [cbn; by f_equal|]. rewrite last_cons_default. cbn [fmap option_fmap option_map]. by f_equal.
  - intros [H1 H2 H3 H4 H5 H6 H7 H8]. destruct rs as [|r rs]; [done|].
    destruct (MAX_CONTEXT_EPOCH_RECORDS <? _) eqn:E; [lia|]. rewrite H1, Z.eqb_refl. cbn [negb].
    rewrite last_cons_default in H5. injection H4 as ->. injection H5 as ->. rewrite !Z.eqb_refl. cbn [negb orb].
    rewrite bool_decide_false by tauto.
    rewrite (proj2 (verify_chain_from_Ok (r :: rs) _ _ (length (r :: rs)))) by done.
    cbn [chain_err map_err mbind result_bind]. by rewrite bool_decide_false by tauto.
Qed.

(** A sealed receipt describes its records. *)
Lemma seal_records epoch cp rs pr na rv po de rc :
  seal epoch cp rs pr na rv po de = Ok rc → records_of rc rs.
Proof.
  intros H. unfold seal in H. destruct rs as [|r rs]; [done|].
  apply guard_Ok in H as [Hm H]. apply guard_Ok in H as [_ H]. split_bool.
  destruct (verify_chain_from _ _ _) as [n|] eqn:Ev; [|done]. apply verify_chain_from_Ok in Ev as (_ & _ & Hv).
  cbn [chain_err map_err mbind result_bind] in H. destruct (timestamp_bounds _) as [st en] eqn:Et.
  destruct (checked_add _ _ _) as [el|]; [|done]. cbn [ok_or mbind result_bind] in H. apply guard_Ok in H as [_ H]. apply Ok_inj in H.
  subst rc. split; cbn [er_record_count er_first_sequence er_last_sequence er_started_ns er_ended_ns
    er_initial_chain_hash er_witness_root]; try done.
  - by rewrite last_cons_default.
  - cbn [verify_loop] in Hv |- *.
    destruct (negb (wr_sequence r =? cp_next_sequence cp)) eqn:E1; [done|].
    rewrite Z.eqb_refl. cbn [negb]. destruct (negb (wr_prev_hash r =? _)); [done|].
    destruct (negb (wr_record_hash r =? _)); [done|]. split_bool. by rewrite <-E1 in Hv.
Qed.

(** A receipt pins its records.  Two runs of records that both match one
    receipt agree byte for byte in every record, unless two different inputs
    among those hashed for the two Merkle roots have the same SHA-256 digest.
    The duplicated last node of an odd level opens no way around it. *)
Theorem receipt_binds_records rc rs rs' :
  verify_records rc rs = Ok tt → verify_records rc rs' = Ok tt →
  record_to_bytes <$> rs = record_to_bytes <$> rs' ∨ clash (merkle_inputs rs) (merkle_inputs rs').
Proof.
  intros H%verify_records_spec H'%verify_records_spec. apply merkle_root_inj.
  - apply sha256_length.
  - apply Nat2Z.inj. by rewrite (ro_count _ _ H), (ro_count _ _ H').
  - by rewrite (ro_root _ _ H), (ro_root _ _ H').
Qed.

(** The Merkle loop terminates: on [n] records it ends within [n - 1]
    passes with exactly one digest, which no further fuel changes, and this is
    the root. *)
Theorem merkle_root_terminates (rs : list WitnessRecord) :
  rs ≠ [] →
  ∃ root, merkle_root rs = root ∧
    ∀ fuel, (length rs - 1 ≤ fuel)%nat →
      merkle_loop fuel ((λ r, sha256 (leaf_input r)) <$> rs) = Some [root].
Proof.
  intros Hn. set (level := _ <$> rs). assert (length level = length rs) as Hl by apply length_fmap.
  assert (level ≠ []) as Hne by (by destruct rs).
  assert (∀ fuel, (length rs - 1 ≤ fuel)%nat → ∃ root, merkle_loop fuel level = Some [root]) as Htot.
  { intros fuel Hf. apply merkle_loop_total; [done|lia]. }
  destruct (Htot (length rs - 1)%nat ltac:(lia)) as [root Hr]. exists root. split.
  - unfold merkle_root. fold level. rewrite (merkle_loop_mono _ _ _ Hr (length rs)) by lia. done.
  - intros fuel Hf. by apply (merkle_loop_mono _ _ _ Hr).
Qed.
End sealing.

(* ------------------------------------------------------------------ *)
(** ** Chains of receipts *)

Section chains.
Context {SH : Sha256} {SL : Sha256Laws} {CH : ChainHasher} {CL : ChainHasherLaws}.

Lemma replay_chain_Ok first hash off n :
  is_u64 first → first + Z.of_nat off + Z.of_nat n - 1 ≤ u64_max →
  replay_chain first hash off n = Ok (chain_from hash (wrap64 (first + Z.of_nat off)) n).
Proof.
  intros Hf. revert hash off. induction n as [|n IH]; intros hash off Hm; [done|].
  cbn [replay_chain chain_from].
  rewrite (proj2 (checked_add_Some u64_max first (Z.of_nat off) (first + Z.of_nat off))) by lia.
  cbn [ok_or mbind result_bind]. rewrite IH by lia. unfold is_u64 in Hf.
  rewrite (wrap64_id (first + Z.of_nat off)) by (unfold is_u64; lia).
  do 3 f_equal. lia.
Qed.

(** What continuity says, with the overflow checks done. *)
Lemma verify_successor_Ok v p :
  receipt_wf (sr_receipt (vr_signed p)) → verify_successor v p = Ok tt →
  let rc := sr_receipt (vr_signed v) in
  let prior := sr_receipt (vr_signed p) in
  er_previous_receipt rc = receipt_id (vr_signed p) ∧
  er_epoch_id rc = er_epoch_id prior + 1 ∧ er_epoch_id rc ≤ u64_max ∧
  er_first_sequence rc = er_first_sequence prior + er_record_count prior ∧ er_first_sequence rc ≤ u64_max ∧
  er_initial_chain_hash rc =
    chain_from (er_initial_chain_hash prior) (er_first_sequence prior) (Z.to_nat (er_record_count prior)).
Proof.
  intros Hwf H. cbn zeta. unfold verify_successor in H. destruct Hwf.
  destruct (checked_add u64_max (er_epoch_id _) 1) as [e1|] eqn:E1; [|done]. cbn [ok_or mbind result_bind] in H.
  destruct (checked_add u64_max (er_last_sequence _) 1) as [e2|] eqn:E2; [|done]. cbn [ok_or mbind result_bind] in H.
  unfold is_u64 in *. rewrite replay_chain_Ok in H by (unfold is_u64; lia).
  cbn [mbind result_bind] in H. apply guard_Ok in H as [H _].
  apply orb_false_iff in H as [[[Ha Hb]%orb_false_iff Hc]%orb_false_iff Hd].
  apply bool_decide_eq_false, dec_stable in Ha. apply negb_false_iff, Z.eqb_eq in Hb, Hc, Hd.
  apply checked_add_Some in E1 as [-> ?], E2 as [-> ?].
  rewrite wrap64_id in Hd by (unfold is_u64; lia). rewrite Z.add_0_r in Hd.
  split_and!; try lia; done.
Qed.

(** Each receipt is the genesis or follows the one before it. *)
Fixpoint receipts_follow (prev : option VerifiedContextEpochReceipt) (vs : list VerifiedContextEpochReceipt)
    : Prop :=
  match vs with
  | [] => True
  | v :: vs =>
      match prev with
      | None => verify_genesis v
      | Some p => verify_successor v p
      end = Ok tt ∧ receipts_follow (Some v) vs
  end.

Lemma verify_genesis_Ok v :
  verify_genesis v = Ok tt →
  let rc := sr_receipt (vr_signed v) in
  er_epoch_id rc = 0 ∧ er_first_sequence rc = 0 ∧ er_initial_chain_hash rc = 0 ∧
  er_previous_receipt rc = replicate 32 0.
Proof.
  intros H. unfold verify_genesis in H. apply guard_Ok in H as [H _].
  apply orb_false_iff in H as [[[Ha Hb]%orb_false_iff Hc]%orb_false_iff Hd].
  apply bool_decide_eq_false, dec_stable in Hd. by apply negb_false_iff, Z.eqb_eq in Ha, Hb, Hc.
Qed.

(** Where the next receipt has to start. *)
Definition starts_at (v : VerifiedContextEpochReceipt) (e s c : Z) : Prop :=
  let rc := sr_receipt (vr_signed v) in
  er_epoch_id rc = e ∧ er_first_sequence rc = s ∧ er_initial_chain_hash rc = c.

Definition receipt_matches (v : VerifiedContextEpochReceipt) (rs : list WitnessRecord) : Prop :=
  receipt_wf (sr_receipt (vr_signed v)) ∧ verify_records (sr_receipt (vr_signed v)) rs = Ok tt.

Lemma receipts_follow_chain v vs rs rss e s c :
  receipts_follow (Some v) vs → Forall2 receipt_matches (v :: vs) (rs :: rss) → starts_at v e s c →
  verify_loop (concat (rs :: rss)) c s = Ok tt ∧
  ∀ i w, (v :: vs) !! i = Some w →
    er_epoch_id (sr_receipt (vr_signed w)) = e + Z.of_nat i ∧
    er_first_sequence (sr_receipt (vr_signed w)) = s + Z.of_nat (length (concat (take i (rs :: rss)))).
Proof.
  revert v rs rss e s c. induction vs as [|w vs IH]; intros v rs rss e s c Hf Hm (He & Hs & Hc).
  - apply Forall2_cons in Hm as [[Hwf Hr] Hm%Forall2_nil_inv_l]. subst rss. cbn [concat]. rewrite app_nil_r.
    apply verify_records_spec in Hr as []. subst s c. split; [done|].
    intros i w Hi. apply list_lookup_singleton_Some in Hi as [-> <-]. cbn. split; lia.
  - apply Forall2_cons in Hm as [[Hwf Hr] Hm]. destruct rss as [|rs' rss]; [by apply Forall2_nil_inv_r in Hm|].
    destruct Hf as [Hsuc Hf]. apply verify_successor_Ok in Hsuc as (_ & E1 & _ & E2 & Hmax & E3); [|done].
    apply verify_records_spec in Hr as []. rewrite <-ro_count0 in E2, E3. rewrite Nat2Z.id in E3.
    assert (is_u64 s) as Hs64 by (subst s; apply (ew_first _ Hwf)).
    destruct (IH w rs' rss (e + 1) (s + Z.of_nat (length rs)) (chain_from c s (length rs)))
      as [Hv Hi]; [done|done|by subst|].
    split.
    + change (concat (rs :: rs' :: rss)) with (rs ++ concat (rs' :: rss)). subst s c.
      rewrite verify_loop_app by done. rewrite wrap64_id; [done|]. unfold is_u64 in *. lia.
    + intros [|i] x Hx; [injection Hx as <-; cbn; lia|]. destruct (Hi i x Hx) as [H1 H2].
      cbn [take concat] in H2 |- *. rewrite length_app. lia.
Qed.

(** C23: A chain of receipts is a complete log.  When receipts start at the
    genesis and each follows its predecessor, and each matches a run of
    records, the runs put together verify as one witness chain from sequence
    zero: no record is missing, repeated or out of place across the epoch
    boundaries.  Epochs are numbered from zero, and each starts where the one
    before it ended. *)
Theorem receipt_chain_complete vs rss :
  vs ≠ [] → receipts_follow None vs → Forall2 receipt_matches vs rss →
  verify_chain (concat rss) = Ok (length (concat rss)) ∧
  ∀ i v, vs !! i = Some v →
    er_epoch_id (sr_receipt (vr_signed v)) = Z.of_nat i ∧
    er_first_sequence (sr_receipt (vr_signed v)) = Z.of_nat (length (concat (take i rss))).
Proof.
  intros Hn Hf Hm. destruct vs as [|v vs]; [done|]. destruct Hf as [Hg%verify_genesis_Ok Hf].
  destruct Hg as (He & Hs & Hc & _). destruct rss as [|rs rss]; [by apply Forall2_nil_inv_r in Hm|].
  destruct (receipts_follow_chain v vs rs rss 0 0 0 Hf Hm) as [Hv Hi]; [done|]. split.
  - unfold verify_chain. apply verify_chain_from_Ok. split_and!; [|done|done].
    apply Forall2_cons in Hm as [[_ Hr] _]. apply verify_records_spec in Hr as []. by destruct rs.
  - exact Hi.
Qed.
End chains.

(* ------------------------------------------------------------------ *)
(** ** From the log to a checked receipt *)

Section delivery.
Context {SH : Sha256} {SL : Sha256Laws} {CH : ChainHasher} {CL : ChainHasherLaws}.

Lemma merkle_loop_32 fuel level out :
  Forall (λ d, length d = 32%nat) level → merkle_loop fuel level = Some out →
  Forall (λ d, length d = 32%nat) out.
Proof.
  revert level. induction fuel as [|fuel IH]; intros level Hl H.
  - cbn [merkle_loop] in H. destruct (1 <? _)%nat; [done|]. by injection H as <-.
  - destruct (decide (1 < length level)%nat) as [Hlt|Hge].
    + rewrite merkle_loop_step in H by done. apply (IH (merkle_parents level)); [|done].
      apply Forall_fmap, Forall_true. intros d. apply sha256_length.
    + rewrite merkle_loop_done in H by lia. by injection H as <-.
Qed.

Lemma merkle_root_length rs : length (merkle_root rs) = 32%nat.
Proof.
  unfold merkle_root. cbn zeta. set (level := _ <$> rs).
  assert (Forall (λ d, length d = 32%nat) level) as H32.
  { apply Forall_fmap, Forall_true. intros r. exact (sha256_length (leaf_input r)). }
  destruct (merkle_loop (length rs) level) as [out|] eqn:E; [|done]. cbn [mbind option_bind].
  apply merkle_loop_32 in E; [|done]. destruct out as [|d out]; [done|]. cbn [head default from_option id].
  by apply Forall_cons in E as [? _].
Qed.

Lemma timestamp_fold rs st en :
  Forall (λ r, is_u64 (wr_timestamp_ns r)) rs → is_u64 st → is_u64 en → st ≤ en →
  let '(st', en') := foldl (λ '(minimum, maximum) r,
    (Z.min minimum (wr_timestamp_ns r), Z.max maximum (wr_timestamp_ns r))) (st, en) rs in
  is_u64 st' ∧ is_u64 en' ∧ st' ≤ en'.
Proof.
  revert st en. induction rs as [|r rs IH]; intros st en Hr Hs He Hle; cbn [foldl]; [done|].
  apply Forall_cons in Hr as [Hr Hrs]. apply IH; [done|unfold is_u64 in *; lia..].
Qed.

Lemma timestamp_bounds_wf rs :
  Forall (λ r, is_u64 (wr_timestamp_ns r)) rs →
  let '(st, en) := timestamp_bounds rs in is_u64 st ∧ is_u64 en ∧ st ≤ en.
Proof.
  intros Hr. unfold timestamp_bounds. apply timestamp_fold; [done| | |done];
    (destruct rs as [|r rs]; [done|]; by apply Forall_cons in Hr as [? _]).
Qed.

(** The commitments a caller supplies. *)
Record seal_inputs_wf (epoch : Z) (pr na rv po de : list Z) : Prop := {
  si_epoch : is_u64 epoch;
  si_previous : length pr = 32%nat; si_namespace : length na = 32%nat; si_rvf : length rv = 32%nat;
  si_policy : length po = 32%nat; si_detail : length de = 32%nat;
}.

Lemma seal_complete epoch c s rs pr na rv po de :
  seal_inputs_wf epoch pr na rv po de → rs ≠ [] → Z.of_nat (length rs) ≤ MAX_CONTEXT_EPOCH_RECORDS →
  is_u64 s → is_u64 c → s + Z.of_nat (length rs) - 1 ≤ u64_max →
  Forall (λ r, is_u64 (wr_timestamp_ns r)) rs → verify_loop rs c s = Ok tt →
  ∃ rc, seal epoch (mkWitnessCheckpoint s c) rs pr na rv po de = Ok rc ∧ receipt_wf rc ∧
    er_epoch_id rc = epoch ∧ er_first_sequence rc = s ∧ er_initial_chain_hash rc = c ∧
    er_record_count rc = Z.of_nat (length rs) ∧ er_previous_receipt rc = pr.
Proof.
  intros [] Hn Hm Hs Hc Hmax Ht Hv. unfold seal. destruct rs as [|r rs]; [done|].
  unfold MAX_CONTEXT_EPOCH_RECORDS in Hm.
  destruct (MAX_CONTEXT_EPOCH_RECORDS <? _) eqn:E1; [unfold MAX_CONTEXT_EPOCH_RECORDS in E1; lia|].
  destruct (u32_max <? _) eqn:E2; [unfold u32_max in E2; lia|].
  cbn [cp_chain_hash cp_next_sequence].
  rewrite (proj2 (verify_chain_from_Ok (r :: rs) c s (length (r :: rs)))) by done.
  cbn [chain_err map_err mbind result_bind].
  assert (Hlink := proj1 (verify_loop_spec (r :: rs) c s Hs) Hv).
  assert (wr_sequence r = s) as Hr.
  { destruct (Hlink O r eq_refl) as [-> _]. rewrite Z.add_0_r. by apply wrap64_id. }
  assert (wr_sequence (default r (last (r :: rs))) = s + Z.of_nat (length (r :: rs)) - 1) as Hlast.
  { destruct (Hlink (length rs) (default r (last (r :: rs)))) as [-> _].
    - rewrite <-last_cons_default, last_lookup. done.
    - unfold is_u64 in *. cbn [length] in Hmax |- *. rewrite wrap64_id by (unfold is_u64; lia). lia. }
  pose proof (timestamp_bounds_wf _ Ht) as Htb. destruct (timestamp_bounds (r :: rs)) as [st en].
  rewrite Hr, Hlast.
  rewrite (proj2 (checked_add_Some u64_max s (Z.of_nat (length (r :: rs)) - 1)
    (s + Z.of_nat (length (r :: rs)) - 1))) by lia.
  cbn [ok_or mbind result_bind]. rewrite Z.eqb_refl. cbn [negb].
  eexists. split; [done|]. split_and!; [|done..].
  assert (0 < Z.of_nat (length (r :: rs))) by (cbn [length]; lia). unfold is_u64 in *.
  split; cbn [er_epoch_id er_first_sequence er_last_sequence er_record_count er_started_ns er_ended_ns
    er_initial_chain_hash er_previous_receipt er_namespace_root er_rvf_identity er_policy_hash
    er_detail_root er_witness_root]; unfold MAX_CONTEXT_EPOCH_RECORDS, is_u64; try lia; try done;
    try tauto. apply merkle_root_length.
Qed.

Lemma chain_at_range k : is_u64 (chain_at k).
Proof. destruct k as [|k]; [done|]. cbn [chain_at]. apply compute_chain_hash_range. Qed.

Lemma receipt_sign_verifies {S} `{!DigestSigner S} {usable} `{!DigestSignerLaws S usable} rc (signer : S) :
  usable signer (signing_digest rc (signer_id signer)) →
  receipt_verify (receipt_sign rc signer) signer = Ok (mkVerified (receipt_sign rc signer)).
Proof.
  intros Hu. unfold receipt_verify, receipt_sign. cbn [sr_receipt sr_signer_id sr_signature].
  rewrite bool_decide_false by tauto. by rewrite (digest_verify_signed (usable := usable)).
Qed.

(** What a sealed receipt takes from its checkpoint. *)
Lemma seal_start epoch c s rs pr na rv po de rc :
  seal epoch (mkWitnessCheckpoint s c) rs pr na rv po de = Ok rc →
  er_epoch_id rc = epoch ∧ er_first_sequence rc = s ∧ er_initial_chain_hash rc = c ∧
  er_previous_receipt rc = pr.
Proof.
  intros H. unfold seal in H. destruct rs as [|r rs]; [done|].
  apply guard_Ok in H as [_ H]. apply guard_Ok in H as [_ H]. cbn [cp_chain_hash cp_next_sequence] in H.
  destruct (verify_chain_from _ _ _) as [n|] eqn:Ev; [|done].
  apply verify_chain_from_Ok in Ev as (_ & _ & Ev). cbn [verify_loop] in Ev.
  destruct (wr_sequence r =? _) eqn:Er; [|done]. split_bool.
  cbn [chain_err map_err mbind result_bind] in H. destruct (timestamp_bounds _) as [st en].
  destruct (checked_add _ _ _) as [el|]; [|done]. cbn [ok_or mbind result_bind] in H.
  apply guard_Ok in H as [_ H]. apply Ok_inj in H. by subst rc.
Qed.

(** A receipt sealed from the boundary another one ends at, for the next epoch. *)
Lemma sealed_successor v p :
  let rc := sr_receipt (vr_signed v) in
  let prior := sr_receipt (vr_signed p) in
  is_u64 (er_first_sequence prior) → 0 ≤ er_record_count prior →
  er_last_sequence prior = er_first_sequence prior + er_record_count prior - 1 →
  er_epoch_id prior + 1 ≤ u64_max → er_last_sequence prior + 1 ≤ u64_max →
  er_previous_receipt rc = receipt_id (vr_signed p) → er_epoch_id rc = er_epoch_id prior + 1 →
  er_first_sequence rc = er_last_sequence prior + 1 →
  er_initial_chain_hash rc =
    chain_from (er_initial_chain_hash prior) (er_first_sequence prior) (Z.to_nat (er_record_count prior)) →
  verify_successor v p = Ok tt.
Proof.
  intros rc prior Hf Hc Hr He Hl E1 E2 E3 E4. subst rc prior. unfold verify_successor.
  rewrite (proj2 (checked_add_Some u64_max _ 1 _) (conj eq_refl He)).
  rewrite (proj2 (checked_add_Some u64_max _ 1 _) (conj eq_refl Hl)). cbn [ok_or mbind result_bind].
  unfold is_u64 in *. rewrite replay_chain_Ok by (unfold is_u64; lia). cbn [mbind result_bind].
  rewrite Z.add_0_r, wrap64_id by (unfold is_u64; lia).
  by rewrite E1, E2, E3, E4, !Z.eqb_refl, bool_decide_false by tauto.
Qed.

(** Every epoch the ring still holds can be sealed, delivered and checked,
    and the next one continues it.  From a checkpoint of the log the receipt
    covers exactly the records emitted since; signed, encoded and decoded it
    is unchanged, verifies under the signer and matches the records; and
    any receipt then sealed from the checkpoint returned, for the next epoch,
    is its successor. *)
Theorem epoch_delivered {S} `{!DigestSigner S} {usable} `{!DigestSignerLaws S usable} (signer : S)
    l h k epoch scratch pr na rv po de :
  log_repr l h → (k < length h ≤ k + log_capacity l)%nat →
  Z.of_nat (length h - k) ≤ MAX_CONTEXT_EPOCH_RECORDS → (length h - k ≤ length scratch)%nat →
  Forall (λ r, is_u64 (wr_timestamp_ns r)) h → seal_inputs_wf epoch pr na rv po de →
  (∀ d, usable signer d) →
  ∃ rc out, seal_from_log epoch l (mkWitnessCheckpoint (Z.of_nat k) (chain_at k)) scratch pr na rv po de =
      (Ok (rc, checkpoint l), out) ∧
    let sr := receipt_sign rc signer in
    receipt_from_bytes (receipt_to_bytes sr) = Ok sr ∧
    receipt_verify sr signer = Ok (mkVerified sr) ∧
    verify_records rc (drop k h) = Ok tt ∧
    ∀ rs' na' rv' po' de' rc', epoch + 1 ≤ u64_max →
      seal (epoch + 1) (checkpoint l) rs' (receipt_id sr) na' rv' po' de' = Ok rc' →
      verify_successor (mkVerified (receipt_sign rc' signer)) (mkVerified sr) = Ok tt.
Proof.
  intros Hl Hk Hm Hsc Ht Hin Hu. pose proof (lr_max l h Hl) as Hlen. pose proof (history_verifies l h k Hl ltac:(lia)) as Hv.
  destruct (seal_complete epoch (chain_at k) (Z.of_nat k) (drop k h) pr na rv po de) as
    (rc & Hseal & Hwf & He & Hf & Hc & Hcount & Hp); try done.
  - intros E. apply (f_equal length) in E. rewrite length_drop in E. cbn in E. lia.
  - by rewrite length_drop.
  - unfold is_u64. lia.
  - apply chain_at_range.
  - rewrite length_drop. lia.
  - by apply Forall_drop.
  - exists rc, (drop k h ++ drop (length h - k) scratch). split.
    + unfold seal_from_log. rewrite (snapshot_since_suffix l h k _ scratch Hl) by lia.
      cbn [sn_count sn_end_checkpoint]. rewrite Nat2Z.id, take_app_length' by (by rewrite length_drop).
      by rewrite Hseal.
    + cbn zeta. split_and!.
      * apply receipt_to_from. split; [done|apply (signer_id_length (usable := usable))|apply (digest_sign_length (usable := usable))].
      * by apply (receipt_sign_verifies (usable := usable)).
      * apply verify_records_spec. by eapply seal_records.
      * intros rs' na' rv' po' de' rc' Hmax Hs'. rewrite length_drop in Hcount.
        unfold checkpoint in Hs'. rewrite (lr_seq l h Hl), (lr_chain l h Hl) in Hs'.
        apply seal_start in Hs' as (E1 & E2 & E3 & E4). pose proof (ew_range _ Hwf) as Hr.
        pose proof (ew_first _ Hwf). pose proof (ew_count _ Hwf).
        apply sealed_successor; cbn [vr_signed receipt_sign sr_receipt]; rewrite ?He; try done; try lia.
        rewrite Hf, Hc, Hcount, Nat2Z.id, chain_from_at by lia. rewrite E3. f_equal. lia.
Qed.
End delivery.

(* ------------------------------------------------------------------ *)
(** ** A sample: two epochs of a log of five records *)

Section sample.
#[local] Existing Instance fnv_hasher.
#[local] Instance sample_fnv_laws : @ChainHasherLaws fnv_hasher := fnv_hasher_laws.
#[local] Instance sample_hash : Sha256 := λ data, le_bytes 32 (foldl fnv_step FNV_OFFSET data).
#[local] Instance sample_hash_laws : Sha256Laws.
Proof. split; intros data; [apply length_le_bytes|apply le_bytes_byte]. Qed.
#[local] Instance sample_receipt_mac : HmacSha256 := λ key msg, le_bytes 32 (foldl fnv_step FNV_OFFSET (key ++ msg)).
#[local] Instance sample_receipt_mac_laws : HmacSha256Laws.
Proof. intros key msg. apply length_le_bytes. Qed.
#[local] Instance sample_receipt_ct : ConstantTimeEq := λ a b, bool_decide (a = b).
#[local] Instance sample_receipt_ct_laws : ConstantTimeEqLaws.
Proof. intros a b. apply bool_decide_eq_true. Qed.

Definition zero32 : list Z := replicate 32 0.
Definition sample_signer : HmacSha256WitnessSigner := mkHmacSha256WitnessSigner (replicate 32 3).

(** Records [0..3) and [3..5) of a history. *)
Definition sample_epoch0 : list WitnessRecord := take 3 (sample_history 5).
Definition sample_epoch1 : list WitnessRecord := drop 3 (sample_history 5).
Definition empty_receipt : ContextEpochReceipt := mkContextEpochReceipt 0 0 0 0 0 0 0 [] [] [] [] [] [].
Definition sealed_or_empty (r : ReceiptResult ContextEpochReceipt) : ContextEpochReceipt :=
  match r with Ok rc => rc | Err _ => empty_receipt end.
Definition sample_signed0 : SignedContextEpochReceipt :=
  receipt_sign (sealed_or_empty (seal 0 (mkWitnessCheckpoint 0 0) sample_epoch0 zero32 zero32 zero32 zero32 zero32))
    sample_signer.
Definition sample_signed1 : SignedContextEpochReceipt :=
  receipt_sign (sealed_or_empty (seal 1 (mkWitnessCheckpoint 3 (chain_at 3)) sample_epoch1
    (receipt_id sample_signed0) zero32 zero32 zero32 zero32)) sample_signer.

(** Replaying the first receipt as its own successor fails. *)
Example replay_is_no_successor :
  verify_successor (mkVerified sample_signed0) (mkVerified sample_signed0) = Err ReceiptContinuity.
Proof. vm_compute. reflexivity. Qed.

Lemma receipt_binds_records_witness :
  verify_records (sr_receipt sample_signed0) sample_epoch0 = Ok tt ∧
  (record_to_bytes <$> sample_epoch0 = record_to_bytes <$> sample_epoch0 ∨
   clash (merkle_inputs sample_epoch0) (merkle_inputs sample_epoch0)).
Proof.
  assert (verify_records (sr_receipt sample_signed0) sample_epoch0 = Ok tt) as H by (vm_compute; reflexivity).
  split; [exact H|]. exact (receipt_binds_records _ _ _ H H).
Defined.

Lemma merkle_root_terminates_witness :
  ∃ root, merkle_root sample_epoch0 = root ∧
    merkle_loop 2 ((λ r, sha256 (leaf_input r)) <$> sample_epoch0) = Some [root].
Proof.
  destruct (merkle_root_terminates sample_epoch0) as (root & H1 & H2); [discriminate|].
  exists root. split; [exact H1|]. apply H2. cbn. lia.
Defined.

Lemma sample_matches0 : receipt_matches (mkVerified sample_signed0) sample_epoch0.
Proof.
  split; [|by vm_compute].
  split; vm_compute; first [reflexivity|discriminate|split; (reflexivity || discriminate)].
Qed.
Lemma sample_matches1 : receipt_matches (mkVerified sample_signed1) sample_epoch1.
Proof.
  split; [|by vm_compute].
  split; vm_compute; first [reflexivity|discriminate|split; (reflexivity || discriminate)].
Qed.

Lemma receipt_chain_complete_witness :
  receipts_follow None [mkVerified sample_signed0; mkVerified sample_signed1] ∧
  verify_chain (concat [sample_epoch0; sample_epoch1]) = Ok (length (concat [sample_epoch0; sample_epoch1])).
Proof.
  assert (receipts_follow None [mkVerified sample_signed0; mkVerified sample_signed1]) as Hf
    by (split; [vm_compute; reflexivity|split; [vm_compute; reflexivity|exact I]]).
  split; [exact Hf|].
  destruct (receipt_chain_complete [mkVerified sample_signed0; mkVerified sample_signed1]
    [sample_epoch0; sample_epoch1]) as [H _]; [discriminate|exact Hf| |exact H].
  constructor; [exact sample_matches0|]. constructor; [exact sample_matches1|constructor].
Defined.

Lemma sample_history_times : Forall (λ r, is_u64 (wr_timestamp_ns r)) (sample_history 2).
Proof.
  unfold sample_history. apply Forall_fmap, Forall_seq. intros j Hj.
  cbn [compose wr_timestamp_ns stamp_at stamp sample_record emitted]. unfold is_u64, u64_max. lia.
Qed.

Lemma epoch_delivered_witness :
  log_repr (sample_log 2) (sample_history 2) ∧
  ∃ rc, verify_records rc (drop 0 (sample_history 2)) = Ok tt.
Proof.
  assert (log_repr (sample_log 2) (sample_history 2)) as Hl by (apply sample_log_repr; lia).
  split; [exact Hl|].
  destruct (epoch_delivered (usable := λ _ _, True) sample_signer (sample_log 2) (sample_history 2) 0 0
    (replicate 2 record_zeroed) zero32 zero32 zero32 zero32 zero32 Hl) as (rc & out & _ & _ & _ & H & _).
  - cbn. lia.
  - vm_compute. discriminate.
  - cbn. lia.
  - exact sample_history_times.
  - split; reflexivity || (vm_compute; split; discriminate).
  - intros d. exact I.
  - exists rc. exact H.
Defined.
End sample.
