(* ===== verification/ContextRuntime.v ===== *)
(** The governed context runtime: [crates/rvm-context/src/runtime.rs].

    A runtime is bound to one actor and owns the authority, a resolver, the
    witness ring, the receipt cursor and a clock.  Every operation authorizes
    first, calls the resolver second, validates what it answered third, and
    witnesses success last.  The resolver is any implementation of the
    [ContextResolver] interface: the theorems hold for one that misbehaves, and
    the in-memory resolver is shown never to be rejected. *)

From stdpp Require Import base numbers list option strings sets.
From Stdlib Require Import ZArith Lia.
From S2P Require Import Prelude.
From S2P Require Import Text.
From S2P Require Import Bytes.
From S2P Require Import Sorting.
From S2P Require Import Types.
From S2P Require Import CapTable.
From S2P Require Import CapManager.
From S2P Require Import WitnessLog.
From S2P Require Import Security.
From S2P Require Import Signers.
From S2P Require Import RvfFormat.
From S2P Require Import RvfPayload.
From S2P Require Import RvfCapability.
From S2P Require Import RvfVerify.
From S2P Require Import ContextMatch.
From S2P Require Import ContextUri.
From S2P Require Import ContextProfile.
From S2P Require Import ContextCap.
From S2P Require Import ContextResolver.
From S2P Require Import ContextReceipt.

Open Scope rvm_scope.

(* ------------------------------------------------------------------ *)
(** ** Clock, permit, cursor *)

(** [ContextClock::timestamp_ns]. *)
Class ContextClock (K : Type) : Type := timestamp_ns : K → Z * K.

Record LogicalContextClock : Set := mkLogicalContextClock { lc_next_timestamp_ns : Z }.
Definition logical_clock_new : LogicalContextClock := mkLogicalContextClock 0.
Definition logical_clock_resume (next : Z) : LogicalContextClock := mkLogicalContextClock next.
#[export] Instance logical_clock : ContextClock LogicalContextClock := λ c,
  (lc_next_timestamp_ns c, mkLogicalContextClock (sat_add u64_max (lc_next_timestamp_ns c) 1)).

Record ExecutionPermit : Set := mkExecutionPermit {
  xp_actor : PartitionId;
  xp_pinned_uri : PinnedRuvUri;
  xp_revision : Revision;
  xp_capability_hash : Z;
  xp_witness_sequence : Z;
}.

Record ReceiptChainState : Set := mkReceiptChainState {
  rcs_next_checkpoint : WitnessCheckpoint;
  rcs_next_epoch_id : Z;
  rcs_previous_receipt_id : list Z;
}.
Definition chain_state_genesis (next_checkpoint : WitnessCheckpoint) : ReceiptChainState :=
  mkReceiptChainState next_checkpoint 0 (replicate 32 0).

(* ------------------------------------------------------------------ *)
(** ** Validating what a resolver answers *)

Section validation.
Context `{!BitflagsUnion, !Sha256, !SegmentHashes, !ConstantTimeEq, !Ed25519}.

Definition verify_profile (rvf : list Z) (revision : Revision) : ContextResult VerifiedContextProfile :=
  if MAX_RVF_BYTES <? Z.of_nat (length rvf) then Err ObjectTooLarge
  else map_err (λ _, RvfVerificationFailed) (from_rvf rvf revision PinnedIdentity []).
End validation.

Definition validate_enum_limit (limit : nat) : ContextResult unit :=
  if (limit =? 0)%nat || (MAX_ENUM_RESULTS <? limit)%nat then Err InvalidResultLimit else Ok tt.

Definition valid_result_integrity (result : ResolvedContext) : bool :=
  let alias_is_valid :=
    match rc_alias result with
    | Some alias =>
        negb (as_tombstone alias) && bool_decide (as_revision alias = rc_revision result) &&
        same_logical_name (as_alias alias) (pn_uri (rc_pinned_uri result))
    | None => true
    end in
  (rc_rvf_len result <=? MAX_RVF_BYTES) &&
  bool_decide (pn_revision (rc_pinned_uri result) = rc_revision result) && alias_is_valid.

Definition valid_exact_result (target : RuvUri) (result : ResolvedContext) : bool :=
  valid_result_integrity result && same_logical_name target (pn_uri (rc_pinned_uri result)) &&
  match ru_revision target with
  | None => is_some (rc_alias result)
  | Some revision => bool_decide (revision = rc_revision result)
  end.

(** Some entry's pinned URI was already seen at an earlier index. *)
Definition has_duplicates (pinned : list PinnedRuvUri) : bool :=
  existsb (λ i, match pinned !! i with
                | Some p => existsb (λ prior, bool_decide (prior = p)) (take i pinned)
                | None => false
                end) (seq 0 (length pinned)).
Definition has_duplicate_results (entries : list ResolvedContext) : bool :=
  has_duplicates (rc_pinned_uri <$> entries).

Definition valid_entry (root : RuvUri) (recursive : bool) (entry : ResolvedContext) : bool :=
  let candidate := pn_uri (rc_pinned_uri entry) in
  valid_result_integrity entry && is_some (rc_alias entry) && is_within root candidate &&
  (length (ru_path root) <? length (ru_path candidate))%nat &&
  (recursive || (length (ru_path candidate) =? length (ru_path root) + 1)%nat).
Definition valid_enumeration (root : RuvUri) (entries : list ResolvedContext) (limit : nat) (recursive : bool)
    : bool :=
  (length entries <=? limit)%nat && negb (has_duplicate_results entries) &&
  forallb (valid_entry root recursive) entries.

Definition valid_hit (root : RuvUri) (hit : ContextHit) : bool :=
  let candidate := pn_uri (ht_pinned_uri hit) in
  bool_decide (ht_revision hit = pn_revision (ht_pinned_uri hit)) &&
  match ru_revision root with
  | Some revision => same_logical_name root candidate && bool_decide (ht_revision hit = revision)
  | None => is_within root candidate
  end.
(** The loop asks for both conditions hit by hit. *)
Definition valid_hits (root : RuvUri) (hits : list ContextHit) (limit : nat) : bool :=
  (length hits <=? limit)%nat && forallb (valid_hit root) hits && negb (has_duplicates (ht_pinned_uri <$> hits)).

(** The alias generation that must follow [expected]. *)
Definition expected_generation (expected : option AliasSnapshot) : option AliasGeneration :=
  match expected with
  | None => Some GENERATION_INITIAL
  | Some prior => g ← checked_add u64_max (as_generation prior) 1; generation_new g
  end.

(* ------------------------------------------------------------------ *)
(** ** The runtime *)

Record ContextRuntime (R K : Type) : Type := mkContextRuntime {
  cr_actor : PartitionId;
  cr_authority : ContextAuthority;
  cr_resolver : R;
  cr_witness : WitnessLog;
  cr_receipt_chain : ReceiptChainState;
  cr_clock : K;
}.
Arguments mkContextRuntime {R K} _ _ _ _ _ _.
Arguments cr_actor {R K} _.
Arguments cr_authority {R K} _.
Arguments cr_resolver {R K} _.
Arguments cr_witness {R K} _.
Arguments cr_receipt_chain {R K} _.
Arguments cr_clock {R K} _.

Definition runtime_with_clock {R K} (W : nat) (actor : PartitionId) (authority : ContextAuthority) (resolver : R)
    (clock : K) : ContextRuntime R K :=
  let witness := log_new W in
  mkContextRuntime actor authority resolver witness (chain_state_genesis (checkpoint witness)) clock.
Definition runtime_new {R} (W : nat) (actor : PartitionId) (authority : ContextAuthority) (resolver : R)
    : ContextRuntime R LogicalContextClock :=
  runtime_with_clock W actor authority resolver logical_clock_new.

Section runtime.
Context {R K : Type} `{!ContextResolver R, !ContextClock K}.
Context `{!Bitflags, !BitflagsUnion, !Sha256, !SegmentHashes, !ConstantTimeEq, !Ed25519, !ChainHasher}.
Notation Runtime := (ContextRuntime R K).

Definition put_resolver (resolver : R) (rt : Runtime) : Runtime :=
  mkContextRuntime (cr_actor rt) (cr_authority rt) resolver (cr_witness rt) (cr_receipt_chain rt) (cr_clock rt).
Definition put_authority (a : ContextAuthority) (rt : Runtime) : Runtime :=
  mkContextRuntime (cr_actor rt) a (cr_resolver rt) (cr_witness rt) (cr_receipt_chain rt) (cr_clock rt).
Definition put_witness (l : WitnessLog) (rt : Runtime) : Runtime :=
  mkContextRuntime (cr_actor rt) (cr_authority rt) (cr_resolver rt) l (cr_receipt_chain rt) (cr_clock rt).
Definition put_clock (c : K) (rt : Runtime) : Runtime :=
  mkContextRuntime (cr_actor rt) (cr_authority rt) (cr_resolver rt) (cr_witness rt) (cr_receipt_chain rt) c.
Definition put_receipt_chain (c : ReceiptChainState) (rt : Runtime) : Runtime :=
  mkContextRuntime (cr_actor rt) (cr_authority rt) (cr_resolver rt) (cr_witness rt) c (cr_clock rt).

Definition read_clock : prog Runtime ContextError Z := λ rt,
  let '(ts, clock) := timestamp_ns (cr_clock rt) in (Ok ts, put_clock clock rt).

Definition runtime_authorize (request : ContextRequest) (op : ContextOperation)
    : prog Runtime ContextError AuthorizedRequest :=
  let? ts := read_clock in
  λ rt, let '(r, l) := context_authorize (cr_authority rt) (cr_actor rt) ts request op (cr_witness rt) in
        (r, put_witness l rt).

Definition reject_resolver {A} (request : AuthorizedRequest) : prog Runtime ContextError A := λ rt,
  (Err ResolverScopeViolation, put_witness (record_resolver_rejection request (cr_witness rt)).2 rt).
Definition complete (request : AuthorizedRequest) : prog Runtime ContextError Z := λ rt,
  let '(sequence, l) := record_success request (cr_witness rt) in (Ok sequence, put_witness l rt).

Definition in_resolver {A} (m : prog R ContextError A) : prog Runtime ContextError A :=
  pzoom cr_resolver put_resolver m.

(** The common tail: reject, or complete and answer. *)
Definition answer {A} (valid : bool) (authorized : AuthorizedRequest) (a : A) : prog Runtime ContextError A :=
  if negb valid then reject_resolver authorized
  else complete authorized ;;; pret a.

Definition runtime_resolve (request : ContextRequest) : prog Runtime ContextError ResolvedContext :=
  let? authorized := runtime_authorize request OpResolve in
  let? resolved := in_resolver (rs_resolve authorized) in
  answer (valid_exact_result (ar_target authorized) resolved) authorized resolved.

Definition runtime_list (request : ContextRequest) (limit : nat) : prog Runtime ContextError (list ResolvedContext) :=
  let? authorized := runtime_authorize request OpList in
  plift (validate_enum_limit limit) ;;;
  let? entries := in_resolver (rs_list authorized limit) in
  answer (valid_enumeration (ar_target authorized) entries limit false) authorized entries.

Definition runtime_tree (request : ContextRequest) (limit : nat) : prog Runtime ContextError (list ResolvedContext) :=
  let? authorized := runtime_authorize request OpTree in
  plift (validate_enum_limit limit) ;;;
  let? entries := in_resolver (rs_tree authorized limit) in
  answer (valid_enumeration (ar_target authorized) entries limit true) authorized entries.

Definition valid_container (target : RuvUri) (resolved : ResolvedContext) (rvf : list Z) : bool :=
  valid_exact_result target resolved && (rc_rvf_len resolved =? Z.of_nat (length rvf)).

Definition runtime_read (request : ContextRequest) : prog Runtime ContextError (ResolvedContext * list Z) :=
  let? authorized := runtime_authorize request OpRead in
  let? (resolved, rvf) := in_resolver (rs_read authorized) in
  if negb (valid_container (ar_target authorized) resolved rvf) then reject_resolver authorized
  else
    let? profile := plift (verify_profile rvf (rc_revision resolved)) in
    let view := default PvContent (ru_view (ar_target authorized)) in
    let? output := plift (map_err (λ _, RvfVerificationFailed) (view_payload rvf view profile)) in
    complete authorized ;;;
    pret (resolved, output).

Definition runtime_search (request : ContextRequest) (query : list Z) (limit : nat)
    : prog Runtime ContextError (list ContextHit) :=
  let? authorized := runtime_authorize request OpSearch in
  if bool_decide (query = []) || (MAX_SEARCH_QUERY_BYTES <? length query)%nat then pfail CxInvalidQuery
  else if (limit =? 0)%nat || (MAX_SEARCH_RESULTS <? Z.of_nat limit) then pfail InvalidResultLimit
  else
    let? hits := in_resolver (rs_search authorized query limit) in
    answer (valid_hits (ar_target authorized) hits limit) authorized hits.

Definition valid_history (target : RuvUri) (entries : list ResolvedContext) (limit : nat) : bool :=
  (length entries <=? limit)%nat &&
  forallb (λ entry, valid_result_integrity entry && same_logical_name target (pn_uri (rc_pinned_uri entry))) entries &&
  negb (has_duplicate_results entries).
Definition runtime_history (request : ContextRequest) (limit : nat)
    : prog Runtime ContextError (list ResolvedContext) :=
  let? authorized := runtime_authorize request OpHistory in
  plift (validate_enum_limit limit) ;;;
  let? entries := in_resolver (rs_history authorized limit) in
  answer (valid_history (ar_target authorized) entries limit) authorized entries.

Definition runtime_verify (request : ContextRequest) : prog Runtime ContextError ResolvedContext :=
  let? authorized := runtime_authorize request OpVerify in
  let? (resolved, rvf) := in_resolver (rs_verify authorized) in
  if negb (valid_container (ar_target authorized) resolved rvf) then reject_resolver authorized
  else
    plift (verify_profile rvf (rc_revision resolved)) ;;;
    complete authorized ;;;
    pret resolved.

Definition runtime_put (request : ContextRequest) (rvf : list Z) : prog Runtime ContextError ResolvedContext :=
  let? authorized := runtime_authorize request OpPut in
  let? revision := plift (ok_or (ru_revision (ar_target authorized)) PinnedUriRequired) in
  plift (verify_profile rvf revision) ;;;
  let? resolved := in_resolver (rs_put authorized rvf) in
  answer (valid_container (ar_target authorized) resolved rvf) authorized resolved.

Definition valid_swap (target : RuvUri) (expected : option AliasSnapshot) (next_revision : Revision)
    (snapshot : AliasSnapshot) : bool :=
  negb (as_tombstone snapshot) && same_logical_name (as_alias snapshot) target &&
  bool_decide (as_revision snapshot = next_revision) &&
  bool_decide (Some (as_generation snapshot) = expected_generation expected).
Definition runtime_compare_and_swap_alias (request : ContextRequest) (expected : option AliasSnapshot)
    (next_revision : Revision) : prog Runtime ContextError AliasSnapshot :=
  let? authorized := runtime_authorize request OpCompareAndSwapAlias in
  if is_some_and (λ s, as_tombstone s || negb (same_logical_name (as_alias s) (ar_target authorized))) expected
  then pfail InvalidTarget
  else
    let? snapshot := in_resolver (rs_compare_and_swap_alias authorized expected next_revision) in
    answer (valid_swap (ar_target authorized) expected next_revision snapshot) authorized snapshot.

Definition valid_tombstone (target : RuvUri) (expected snapshot : AliasSnapshot) : bool :=
  as_tombstone snapshot && same_logical_name (as_alias snapshot) target &&
  negb (bool_decide (as_revision snapshot = as_revision expected)) &&
  bool_decide (Some (as_generation snapshot) = expected_generation (Some expected)).
Definition runtime_forget (request : ContextRequest) (expected : AliasSnapshot)
    : prog Runtime ContextError AliasSnapshot :=
  let? authorized := runtime_authorize request OpForget in
  if as_tombstone expected || negb (same_logical_name (as_alias expected) (ar_target authorized))
  then pfail InvalidTarget
  else
    let? snapshot := in_resolver (rs_forget authorized expected) in
    answer (valid_tombstone (ar_target authorized) expected snapshot) authorized snapshot.

Definition runtime_authorize_execute (request : ContextRequest) : prog Runtime ContextError ExecutionPermit :=
  let? authorized := runtime_authorize request OpExecute in
  let? (resolved, rvf) := in_resolver (rs_prepare_execute authorized) in
  if negb (valid_container (ar_target authorized) resolved rvf) then reject_resolver authorized
  else
    let? profile := plift (verify_profile rvf (rc_revision resolved)) in
    if negb (view_is_executable PvContent profile) then pfail InvalidTarget
    else
      let? witness_sequence := complete authorized in
      pret (mkExecutionPermit (ar_actor authorized) (rc_pinned_uri resolved) (rc_revision resolved)
              (ar_capability_hash authorized) witness_sequence).

(** Delegation and revocation walk the derivation tree, with its fuel. *)
Definition in_authority {A} (m : ContextAuthority → option (ContextResult A * ContextAuthority)) (rt : Runtime)
    : option (ContextResult A * Runtime) :=
  '(r, a) ← m (cr_authority rt);
  Some (r, put_authority a rt).
Definition and_complete {A} (authorized : AuthorizedRequest) (out : ContextResult A * Runtime)
    : ContextResult A * Runtime :=
  match out with
  | (Ok a, rt) => (complete authorized ;;; pret a) rt
  | (Err e, rt) => (Err e, rt)
  end.
Definition runtime_grant (fuel : nat) (request : ContextRequest) (child_scope : ContextScope)
    (requested_rights : CapRights) (target_owner : PartitionId) (rt : Runtime)
    : option (ContextResult CapabilityHandle * Runtime) :=
  let source := rq_capability request in
  match runtime_authorize request OpGrant rt with
  | (Err e, rt) => Some (Err e, rt)
  | (Ok authorized, rt) =>
      and_complete authorized <$>
        in_authority (delegate fuel source child_scope requested_rights target_owner (cr_actor rt)) rt
  end.
Definition runtime_revoke (fuel : nat) (request : ContextRequest) (rt : Runtime)
    : option (ContextResult nat * Runtime) :=
  let handle := rq_capability request in
  match runtime_authorize request OpRevoke rt with
  | (Err e, rt) => Some (Err e, rt)
  | (Ok authorized, rt) => and_complete authorized <$> in_authority (context_revoke fuel handle) rt
  end.

(** [persist] is the host's durable write; [D] is the storage it may change. *)
Definition seal_epoch_transactional {S D : Type} `{!DigestSigner S} (request : ContextRequest)
    (scratch : list WitnessRecord) (namespace_root rvf_identity policy_hash detail_root : list Z) (signer : S)
    (persist : SignedContextEpochReceipt → ReceiptChainState → prog D ContextError unit)
    : prog (Runtime * D) ContextError (SignedContextEpochReceipt * WitnessCheckpoint) := λ '(rt, durable),
  match runtime_authorize request OpSealReceipt rt with
  | (Err e, rt) => (Err e, (rt, durable))
  | (Ok authorized, rt) =>
      let cursor := cr_receipt_chain rt in
      match checked_add u64_max (rcs_next_epoch_id cursor) 1 with
      | None => (Err ReceiptSealFailed, (rt, durable))
      | Some following_epoch_id =>
          if negb (bool_decide (rev_bytes <$> ru_revision (ar_target authorized) = Some rvf_identity))
          then (Err InvalidTarget, (rt, durable))
          else
            match (seal_from_log (rcs_next_epoch_id cursor) (cr_witness rt) (rcs_next_checkpoint cursor) scratch
                     (rcs_previous_receipt_id cursor) namespace_root rvf_identity policy_hash detail_root).1 with
            | Err _ => (Err ReceiptSealFailed, (rt, durable))
            | Ok (receipt, next_checkpoint) =>
                let signed_receipt := receipt_sign receipt signer in
                let following_state :=
                  mkReceiptChainState next_checkpoint following_epoch_id (receipt_id signed_receipt) in
                match receipt_verify signed_receipt signer with
                | Err _ => (Err ReceiptSealFailed, (rt, durable))
                | Ok verified =>
                    match persist signed_receipt following_state durable with
                    | (Err e, durable) => (Err e, (rt, durable))
                    | (Ok _, durable) =>
                        let '(seal_timestamp_ns, clock) := timestamp_ns (cr_clock rt) in
                        let rt := put_clock clock rt in
                        let l := (emit_seal verified (ar_actor authorized) (ar_capability_hash authorized)
                                    seal_timestamp_ns (cr_witness rt)).2 in
                        (Ok (signed_receipt, next_checkpoint),
                         (put_receipt_chain following_state (put_witness l rt), durable))
                    end
                end
            end
      end
  end.

(** [seal_epoch]: the persistence that always accepts. *)
Definition seal_epoch {S : Type} `{!DigestSigner S} (request : ContextRequest)
    (scratch : list WitnessRecord) (namespace_root rvf_identity policy_hash detail_root : list Z) (signer : S)
    (rt : Runtime) : ContextResult (SignedContextEpochReceipt * WitnessCheckpoint) * Runtime :=
  let '(r, (rt, _)) :=
    seal_epoch_transactional request scratch namespace_root rvf_identity policy_hash detail_root signer
      (λ _ _, pret tt) (rt, tt) in
  (r, rt).
End runtime.

(* ------------------------------------------------------------------ *)
(** ** What every operation leaves behind *)

Section audit.
Context {R K : Type} {CR : ContextResolver R} {CK : ContextClock K}.
Context {BF : Bitflags} {BL : BitflagsLaws} {BU : BitflagsUnion} {SH : Sha256} {HS : SegmentHashes} {CT : ConstantTimeEq} {ED : Ed25519}
  {CH : ChainHasher}.
Notation Runtime := (ContextRuntime R K).

(** [l'] is [l] with one more record, of this kind and for this actor. *)
Definition leaves_record (kind : ActionKind) (actor : PartitionId) (l l' : WitnessLog) : Prop :=
  ∃ r, wr_action_kind r = action_code kind ∧ wr_actor_partition_id r = actor ∧ l' = (log_append r l).2.

Lemma witnessed_append kind actor r l :
  wr_action_kind r = action_code kind → wr_actor_partition_id r = actor → leaves_record kind actor l (log_append r l).2.
Proof. intros H1 H2. by exists r. Qed.

(** The only outcomes of the part after authorization.  [rejected] says that the
    resolver gave an answer the runtime does not accept: the call then fails and
    leaves the record of a rejection.  Otherwise success leaves the operation's
    own record and failure leaves none. *)
Inductive audited (op : ContextOperation) (actor : PartitionId) (rejected : bool) (l : WitnessLog)
    : ∀ {A}, ContextResult A → WitnessLog → Prop :=
| au_done {A} (a : A) l' :
    rejected = false → leaves_record (op_action_kind op) actor l l' → audited op actor rejected l (Ok a) l'
| au_failed {A} e : rejected = false → audited op actor rejected l (Err e : ContextResult A) l
| au_rejected {A} l' :
    rejected = true → leaves_record AkProofRejected actor l l' →
    audited op actor rejected l (Err ResolverScopeViolation : ContextResult A) l'.

(** What stays the same: [AR] may change the resolver, [AA] the authority. *)
Record kept (resolver_may authority_may chain_may : bool) (rt rt' : Runtime) : Prop := {
  kp_actor : cr_actor rt' = cr_actor rt;
  kp_resolver : resolver_may = false → cr_resolver rt' = cr_resolver rt;
  kp_authority : authority_may = false → cr_authority rt' = cr_authority rt;
  kp_chain : chain_may = false → cr_receipt_chain rt' = cr_receipt_chain rt;
}.

Lemma kept_refl a b c rt : kept a b c rt rt.
Proof. by split. Qed.
Lemma kept_trans a b c rt1 rt2 rt3 : kept a b c rt1 rt2 → kept a b c rt2 rt3 → kept a b c rt1 rt3.
Proof.
  intros [H1 H2 H3 H4] [H5 H6 H7 H8]. split; [congruence|..]; intros E;
    [rewrite H6, H2|rewrite H7, H3|rewrite H8, H4]; done.
Qed.
Lemma kept_weaken a b c a' b' c' rt rt' :
  implb a a' → implb b b' → implb c c' → kept a b c rt rt' → kept a' b' c' rt rt'.
Proof. intros Ha Hb Hc [H1 H2 H3 H4]. split; [done|..]; intros ->; [apply H2|apply H3|apply H4]; by destruct a, b, c. Qed.

(** One authorization leaves one record and tells the outcome. *)
Lemma authorize_witnessed a actor ts request op l r l' :
  context_authorize a actor ts request op l = (r, l') →
  leaves_record (if is_ok r then AkProofVerifiedP1 else AkProofRejected) actor l l' ∧
  ∀ ar, r = Ok ar → ar_actor ar = actor ∧ ar_operation ar = op ∧ ar_target ar = rq_target request ∧
    ∃ slot, authorizes a actor request op slot.
Proof.
  intros H.
  assert (leaves_record (if is_ok r then AkProofVerifiedP1 else AkProofRejected) actor l l' ∧
    ∀ ar, r = Ok ar → ar_operation ar = op) as [H1 H2].
  { unfold context_authorize, emit_decision in H.
    destruct (_ || _); [injection H as <- <-; split; [by apply witnessed_append|done]|].
    destruct (negb (is_ok _)); [injection H as <- <-; split; [by apply witnessed_append|done]|].
    destruct (table_lookup _ _ _) as [slot|]; [|injection H as <- <-; split; [by apply witnessed_append|done]].
    destruct (_ || _); [injection H as <- <-; split; [by apply witnessed_append|done]|].
    destruct (grant_get _ _); [|injection H as <- <-; split; [by apply witnessed_append|done]].
    destruct (negb _); [injection H as <- <-; split; [by apply witnessed_append|done]|].
    injection H as <- <-. split; [by apply witnessed_append|by intros ar [= <-]]. }
  split; [done|]. intros ar ->. apply authorize_Ok_inv in H as (slot & Ha & H3 & H4).
  split_and!; [done|by apply H2|done|by exists slot].
Qed.

Lemma runtime_authorize_spec request op (rt : Runtime) :
  let '(r, rt1) := runtime_authorize request op rt in
  kept false false false rt rt1 ∧
  leaves_record (if is_ok r then AkProofVerifiedP1 else AkProofRejected) (cr_actor rt) (cr_witness rt) (cr_witness rt1) ∧
  ∀ ar, r = Ok ar → ar_actor ar = cr_actor rt ∧ ar_operation ar = op ∧ ar_target ar = rq_target request ∧
    ∃ slot, authorizes (cr_authority rt) (cr_actor rt) request op slot.
Proof.
  unfold runtime_authorize, read_clock, pbind. destruct (timestamp_ns (cr_clock rt)) as [ts c].
  cbn [cr_authority cr_actor cr_witness put_clock].
  destruct (context_authorize _ _ _ _ _ _) as [r l] eqn:E. split; [by split|]. by apply authorize_witnessed in E.
Qed.

(** The body of an operation, after authorization, and whether the resolver's
    answer is rejected. *)
Definition body_ok (op : ContextOperation) (actor : PartitionId) (rejected : R → bool) {A}
    (m : prog Runtime ContextError A) : Prop :=
  ∀ rt, let '(r, rt') := m rt in
    kept true false false rt rt' ∧ audited op actor (rejected (cr_resolver rt)) (cr_witness rt) r (cr_witness rt').

(** The resolver answered, and not as the runtime demands. *)
Definition refused_answer {A} (m : prog R ContextError A) (valid : A → bool) (x : R) : bool :=
  match (m x).1 with Ok a => negb (valid a) | Err _ => false end.

Lemma body_plift {A B} op actor (rej : A → R → bool) (r : ContextResult A) (f : A → prog Runtime ContextError B) :
  (∀ a, r = Ok a → body_ok op actor (rej a) (f a)) →
  body_ok op actor (λ x, match r with Ok a => rej a x | Err _ => false end) (pbind (plift r) f).
Proof.
  intros H rt. unfold pbind, plift. destruct r as [a|e]; [by apply H|]. split; [apply kept_refl|by constructor].
Qed.
Lemma body_guard {A} op actor (b : bool) e (rej : R → bool) (m : prog Runtime ContextError A) :
  body_ok op actor rej m → body_ok op actor (λ x, negb b && rej x) (if b then pfail e else m).
Proof. intros H. destruct b; [|done]. intros rt. split; [apply kept_refl|by constructor]. Qed.
Lemma body_resolver {A B} op actor (m : prog R ContextError A) valid (f : A → prog Runtime ContextError B) :
  (∀ a, body_ok op actor (λ _, negb (valid a)) (f a)) →
  body_ok op actor (refused_answer m valid) (pbind (in_resolver m) f).
Proof.
  intros H rt. unfold pbind, in_resolver, pzoom, refused_answer. destruct (m (cr_resolver rt)) as [[a|e] x]; cbn [fst].
  - specialize (H a (put_resolver x rt)). destruct (f a _) as [r rt']. destruct H as [H1 H2]. split; [|done].
    eapply kept_trans; [|exact H1]. by split.
  - split; [by split|]. by constructor.
Qed.
Lemma body_complete {B} ar op actor (f : Z → B) :
  ar_operation ar = op → ar_actor ar = actor →
  body_ok op actor (λ _, false) (let? seq := complete ar in pret (f seq)).
Proof.
  intros <- <- rt. unfold pbind, complete, record_success, emit_authorized. cbn.
  split; [by split|]. constructor; [done|]. by apply witnessed_append.
Qed.
Lemma body_checked {A} ar op actor valid (m : prog Runtime ContextError A) :
  ar_actor ar = actor → body_ok op actor (λ _, false) m →
  body_ok op actor (λ _, negb valid) (if negb valid then reject_resolver ar else m).
Proof.
  intros <- H. destruct valid; [done|]. intros rt. split; [by split|]. constructor; [done|]. by apply witnessed_append.
Qed.
Lemma body_answer {A} ar op actor valid (a : A) :
  ar_operation ar = op → ar_actor ar = actor → body_ok op actor (λ _, negb valid) (answer valid ar a).
Proof. intros H1 H2. unfold answer. apply body_checked; [done|]. by apply (body_complete ar op actor (λ _, a)). Qed.
Lemma body_last {A B} op actor (r : ContextResult A) (f : A → prog Runtime ContextError B) :
  (∀ a, r = Ok a → body_ok op actor (λ _, false) (f a)) → body_ok op actor (λ _, false) (pbind (plift r) f).
Proof. intros H rt. pose proof (body_plift op actor (λ _ _, false) r f H rt) as P. by destruct r. Qed.
Lemma body_limit {A} op actor limit (rej : R → bool) (m : prog Runtime ContextError A) :
  body_ok op actor rej m → body_ok op actor (λ x, is_ok (validate_enum_limit limit) && rej x) (plift (validate_enum_limit limit) ;;; m).
Proof.
  intros H rt. unfold pbind, plift. destruct (validate_enum_limit limit) as [u|e]; [by apply H|]. split; [apply kept_refl|by constructor].
Qed.
Lemma body_ext {A} op actor (rej rej' : R → bool) (m : prog Runtime ContextError A) :
  (∀ x, rej x = rej' x) → body_ok op actor rej' m → body_ok op actor rej m.
Proof. intros E H rt. rewrite E. apply H. Qed.

(** The tail of an operation that checks a container. *)
Ltac solve_tail :=
  repeat match goal with
  | |- body_ok _ _ (λ _, false) (pbind (plift _) _) => apply body_last; intros ? ?; cbv zeta
  | |- body_ok _ _ _ (if ?b then pfail _ else _) =>
      apply (body_ext _ _ _ (λ x, negb b && (λ _, false) x) _ (λ _, eq_sym (andb_false_r _))), body_guard
  | |- body_ok _ _ _ (pbind (complete ?ar) (λ q, pret (@?f q))) => by apply (body_complete ar _ _ f)
  end.

Ltac solve_answer :=
  lazymatch goal with
  | |- body_ok _ _ _ (pbind (in_resolver ?m) (λ a, answer (@?valid a) _ _)) =>
      apply (body_resolver _ _ m valid); intros ?; by apply body_answer
  end.

(** ** The public operations as calls *)

Context {S : Type} {DS : DigestSigner S} {D : Type}.

Inductive RuntimeCall : Type :=
| RtResolve (request : ContextRequest)
| RtList (request : ContextRequest) (limit : nat)
| RtTree (request : ContextRequest) (limit : nat)
| RtRead (request : ContextRequest)
| RtSearch (request : ContextRequest) (query : list Z) (limit : nat)
| RtHistory (request : ContextRequest) (limit : nat)
| RtVerify (request : ContextRequest)
| RtPut (request : ContextRequest) (rvf : list Z)
| RtCas (request : ContextRequest) (expected : option AliasSnapshot) (next : Revision)
| RtForget (request : ContextRequest) (expected : AliasSnapshot)
| RtExecute (request : ContextRequest)
| RtGrant (request : ContextRequest) (scope : ContextScope) (rights : CapRights) (owner : PartitionId)
| RtRevoke (request : ContextRequest)
| RtSeal (request : ContextRequest) (scratch : list WitnessRecord) (na rv po de : list Z) (signer : S)
    (persist : SignedContextEpochReceipt → ReceiptChainState → prog D ContextError unit).

Inductive RuntimeReply : Type :=
| ReplyResolved (r : ResolvedContext)
| ReplyEntries (l : list ResolvedContext)
| ReplyBytes (r : ResolvedContext) (bytes : list Z)
| ReplyHits (l : list ContextHit)
| ReplyAlias (s : AliasSnapshot)
| ReplyPermit (p : ExecutionPermit)
| ReplyHandle (h : CapabilityHandle)
| ReplyCount (n : nat)
| ReplySealed (r : SignedContextEpochReceipt) (c : WitnessCheckpoint).

Definition replying {A} (f : A → RuntimeReply) (d : D) (out : ContextResult A * Runtime)
    : option (ContextResult RuntimeReply * (Runtime * D)) := Some (f <$> out.1, (out.2, d)).

Definition run_runtime_call (fuel : nat) (c : RuntimeCall) (st : Runtime * D)
    : option (ContextResult RuntimeReply * (Runtime * D)) :=
  let '(rt, d) := st in
  match c with
  | RtResolve request => replying ReplyResolved d (runtime_resolve request rt)
  | RtList request limit => replying ReplyEntries d (runtime_list request limit rt)
  | RtTree request limit => replying ReplyEntries d (runtime_tree request limit rt)
  | RtRead request => replying (λ '(r, bytes), ReplyBytes r bytes) d (runtime_read request rt)
  | RtSearch request query limit => replying ReplyHits d (runtime_search request query limit rt)
  | RtHistory request limit => replying ReplyEntries d (runtime_history request limit rt)
  | RtVerify request => replying ReplyResolved d (runtime_verify request rt)
  | RtPut request rvf => replying ReplyResolved d (runtime_put request rvf rt)
  | RtCas request expected next => replying ReplyAlias d (runtime_compare_and_swap_alias request expected next rt)
  | RtForget request expected => replying ReplyAlias d (runtime_forget request expected rt)
  | RtExecute request => replying ReplyPermit d (runtime_authorize_execute request rt)
  | RtGrant request scope rights owner =>
      runtime_grant fuel request scope rights owner rt ≫= replying ReplyHandle d
  | RtRevoke request => runtime_revoke fuel request rt ≫= replying ReplyCount d
  | RtSeal request scratch na rv po de signer persist =>
      let '(r, st) := seal_epoch_transactional request scratch na rv po de signer persist (rt, d) in
      Some ((λ '(sr, cp), ReplySealed sr cp) <$> r, st)
  end.

Definition call_request (c : RuntimeCall) : ContextRequest :=
  match c with
  | RtResolve q | RtList q _ | RtTree q _ | RtRead q | RtSearch q _ _ | RtHistory q _ | RtVerify q | RtPut q _
  | RtCas q _ _ | RtForget q _ | RtExecute q | RtGrant q _ _ _ | RtRevoke q | RtSeal q _ _ _ _ _ _ _ => q
  end.
Definition call_operation (c : RuntimeCall) : ContextOperation :=
  match c with
  | RtResolve _ => OpResolve | RtList _ _ => OpList | RtTree _ _ => OpTree | RtRead _ => OpRead
  | RtSearch _ _ _ => OpSearch | RtHistory _ _ => OpHistory | RtVerify _ => OpVerify | RtPut _ _ => OpPut
  | RtCas _ _ _ => OpCompareAndSwapAlias | RtForget _ _ => OpForget | RtExecute _ => OpExecute
  | RtGrant _ _ _ _ => OpGrant | RtRevoke _ => OpRevoke | RtSeal _ _ _ _ _ _ _ _ => OpSealReceipt
  end.
(** Which calls may reach the authority, the cursor, the resolver. *)
Definition call_administers (c : RuntimeCall) : bool :=
  match c with RtGrant _ _ _ _ | RtRevoke _ => true | _ => false end.
Definition call_seals (c : RuntimeCall) : bool := match c with RtSeal _ _ _ _ _ _ _ _ => true | _ => false end.
Definition call_resolves (c : RuntimeCall) : bool := negb (call_administers c) && negb (call_seals c).

(** Does the runtime reject what the resolver answers to this call?  It does when
    the resolver is asked, answers, and the answer fails the check of the
    operation. *)
Definition answer_rejected (c : RuntimeCall) (ar : AuthorizedRequest) (x : R) : bool :=
  let target := ar_target ar in
  match c with
  | RtResolve _ => refused_answer (rs_resolve ar) (valid_exact_result target) x
  | RtList _ limit =>
      is_ok (validate_enum_limit limit) && refused_answer (rs_list ar limit) (λ es, valid_enumeration target es limit false) x
  | RtTree _ limit =>
      is_ok (validate_enum_limit limit) && refused_answer (rs_tree ar limit) (λ es, valid_enumeration target es limit true) x
  | RtRead _ => refused_answer (rs_read ar) (λ a, valid_container target a.1 a.2) x
  | RtSearch _ query limit =>
      negb (bool_decide (query = []) || (MAX_SEARCH_QUERY_BYTES <? length query)%nat) &&
      (negb ((limit =? 0)%nat || (MAX_SEARCH_RESULTS <? Z.of_nat limit)) &&
       refused_answer (rs_search ar query limit) (λ hits, valid_hits target hits limit) x)
  | RtHistory _ limit =>
      is_ok (validate_enum_limit limit) && refused_answer (rs_history ar limit) (λ es, valid_history target es limit) x
  | RtVerify _ => refused_answer (rs_verify ar) (λ a, valid_container target a.1 a.2) x
  | RtPut _ rvf =>
      match ru_revision target with
      | Some revision =>
          is_ok (verify_profile rvf revision) && refused_answer (rs_put ar rvf) (λ r, valid_container target r rvf) x
      | None => false
      end
  | RtCas _ expected next =>
      negb (is_some_and (λ s, as_tombstone s || negb (same_logical_name (as_alias s) target)) expected) &&
      refused_answer (rs_compare_and_swap_alias ar expected next) (valid_swap target expected next) x
  | RtForget _ expected =>
      negb (as_tombstone expected || negb (same_logical_name (as_alias expected) target)) &&
      refused_answer (rs_forget ar expected) (valid_tombstone target expected) x
  | RtExecute _ => refused_answer (rs_prepare_execute ar) (λ a, valid_container target a.1 a.2) x
  | RtGrant _ _ _ _ | RtRevoke _ | RtSeal _ _ _ _ _ _ _ _ => false
  end.

(** What a call does, in terms of its authorization. *)
Definition call_audited (c : RuntimeCall) (st : Runtime * D) (out : ContextResult RuntimeReply * (Runtime * D)) : Prop :=
  let '(r, rt1) := runtime_authorize (call_request c) (call_operation c) st.1 in
  match r with
  | Err e => out = (Err e, (rt1, st.2))
  | Ok ar =>
      kept (call_resolves c) (call_administers c) (call_seals c && is_ok out.1) rt1 out.2.1 ∧
      audited (call_operation c) (cr_actor rt1) (answer_rejected c ar (cr_resolver rt1)) (cr_witness rt1) out.1 (cr_witness out.2.1) ∧
      (call_seals c = false → out.2.2 = st.2)
  end.

Lemma audited_fmap {A B} op actor rej l (r : ContextResult A) (f : A → B) l' :
  audited op actor rej l r l' → audited op actor rej l (f <$> r) l'.
Proof. intros H. destruct H; cbn; by constructor. Qed.

Lemma audited_grows {A} op actor rej l (r : ContextResult A) l' :
  audited op actor rej l r l' → l' = l ∨ ∃ kind, leaves_record kind actor l l'.
Proof. intros []; eauto. Qed.

Lemma gated_audited {A} (c : RuntimeCall) (f : A → RuntimeReply) (body : AuthorizedRequest → prog Runtime ContextError A)
    rt d :
  call_administers c = false → call_seals c = false →
  (∀ ar, ar_operation ar = call_operation c → body_ok (call_operation c) (ar_actor ar) (answer_rejected c ar) (body ar)) →
  ∃ out, replying f d (pbind (runtime_authorize (call_request c) (call_operation c)) body rt) = Some out ∧
    call_audited c (rt, d) out.
Proof.
  intros Hadm Hseal Hb. eexists. split; [done|]. unfold call_audited, pbind. cbn [fst snd].
  pose proof (runtime_authorize_spec (call_request c) (call_operation c) rt) as Hs.
  destruct (runtime_authorize _ _ rt) as [[ar|e] rt1]; [|done]. destruct Hs as (Hk & _ & Hs).
  destruct (Hs ar eq_refl) as (Ha & Hop & _). specialize (Hb ar Hop rt1). destruct (body ar rt1) as [r rt2].
  cbn [fst snd]. destruct Hb as [Hb1 Hb2]. unfold call_resolves. rewrite Hadm, Hseal. cbn [negb andb].
  split_and!; [done| |done]. rewrite Ha, <-(kp_actor _ _ _ _ _ Hk) in Hb2. by apply audited_fmap.
Qed.

Lemma administered_audited {A} (c : RuntimeCall) (f : A → RuntimeReply) m rt d :
  call_administers c = true → call_seals c = false →
  (match runtime_authorize (call_request c) (call_operation c) rt with
   | (Err e, rt) => Some (Err e, rt)
   | (Ok authorized, rt) => and_complete authorized <$> in_authority (m rt) rt
   end ≫= replying f d) = None ∨
  ∃ out, (match runtime_authorize (call_request c) (call_operation c) rt with
   | (Err e, rt) => Some (Err e, rt)
   | (Ok authorized, rt) => and_complete authorized <$> in_authority (m rt) rt
   end ≫= replying f d) = Some out ∧ call_audited c (rt, d) out.
Proof.
  intros Hadm Hseal. pose proof (runtime_authorize_spec (call_request c) (call_operation c) rt) as Hs.
  unfold call_audited, call_resolves. cbn [fst snd]. rewrite Hadm, Hseal. cbn [negb andb].
  destruct (runtime_authorize _ _ rt) as [[ar|e] rt1]; [|right; eexists; split; [done|done]].
  destruct Hs as (Hk & _ & Hs). destruct (Hs ar eq_refl) as (Ha & Hop & _).
  unfold in_authority. destruct (m rt1 _) as [[[a|e] x]|]; cbn; [right|right|by left].
  - eexists. split; [done|]. cbn. split_and!; [by split| |done]. constructor; [by destruct c|]. rewrite <-(kp_actor _ _ _ _ _ Hk) in Ha.
    rewrite <-Hop, <-Ha. by apply witnessed_append.
  - eexists. split; [done|]. cbn. split_and!; [by split| |done]. constructor. by destruct c.
Qed.

Lemma seal_audited request scratch na rv po de (signer : S) persist rt d :
  let c := RtSeal request scratch na rv po de signer persist in
  ∃ out, run_runtime_call 0 c (rt, d) = Some out ∧ call_audited c (rt, d) out.
Proof.
  intros c. cbn [c run_runtime_call]. unfold seal_epoch_transactional.
  pose proof (runtime_authorize_spec request OpSealReceipt rt) as Hs. unfold call_audited. cbn [fst snd c call_request call_operation].
  destruct (runtime_authorize _ _ rt) as [[ar|e] rt1]; [|eexists; split; [done|done]].
  destruct Hs as (Hk & _ & Hs). destruct (Hs ar eq_refl) as (Ha & _). rewrite <-(kp_actor _ _ _ _ _ Hk) in Ha.
  assert (∀ e x, ∃ out, Some ((λ '(sr, cp), ReplySealed sr cp) <$> Err e, (rt1, x)) = Some out ∧
    kept false false (is_ok out.1) rt1 out.2.1 ∧ audited OpSealReceipt (cr_actor rt1) false (cr_witness rt1) out.1 (cr_witness out.2.1) ∧
    (true = false → out.2.2 = d)) as Hfail.
  { intros e x. eexists. split; [done|]. split_and!; [by split|by constructor|done]. }
  destruct (checked_add _ _ _); [|apply Hfail]. destruct (negb _); [apply Hfail|].
  destruct (seal_from_log _ _ _ _ _ _ _ _ _).1 as [[receipt next]|]; [|apply Hfail].
  destruct (receipt_verify _ _) as [v|]; [|apply Hfail]. destruct (persist _ _ d) as [[u|e] d']; [|apply Hfail].
  destruct (timestamp_ns _) as [ts k]. eexists. split; [done|]. cbn. split_and!; [by split| |done].
  constructor; [done|]. rewrite <-Ha. by apply witnessed_append.
Qed.

Lemma call_is_audited fuel c rt d :
  run_runtime_call fuel c (rt, d) = None ∧ call_administers c = true ∨
  ∃ out, run_runtime_call fuel c (rt, d) = Some out ∧ call_audited c (rt, d) out.
Proof.
  destruct c as [q|q n|q n|q|q w n|q n|q|q rvf|q expected next|q expected|q|q scope rights owner|q|q sc na rv po de signer persist];
    cbn [run_runtime_call].
  12: { destruct (administered_audited (RtGrant q scope rights owner) ReplyHandle
          (λ rt, delegate fuel (rq_capability q) scope rights owner (cr_actor rt)) rt d) as [H|H]; auto. }
  12: { destruct (administered_audited (RtRevoke q) ReplyCount
          (λ _, context_revoke fuel (rq_capability q)) rt d) as [H|H]; auto. }
  12: { right. apply (seal_audited q sc na rv po de signer persist rt d). }
  all: right; match goal with |- ∃ _, _ ∧ call_audited ?c _ _ => refine (gated_audited c _ _ rt d eq_refl eq_refl _) end;
    intros ar Hop.
  - solve_answer.
  - apply body_limit. solve_answer.
  - apply body_limit. solve_answer.
  - apply (body_resolver _ _ _ (λ a, valid_container _ a.1 a.2)). intros [r b]. apply body_checked; [done|]. solve_tail.
  - apply body_guard, body_guard. solve_answer.
  - apply body_limit. solve_answer.
  - apply (body_resolver _ _ _ (λ a, valid_container _ a.1 a.2)). intros [r b]. apply body_checked; [done|]. solve_tail.
  - refine (body_ext _ _ _ _ _ _ (body_plift _ _ (λ revision x, is_ok (verify_profile rvf revision) &&
      refused_answer (rs_put ar rvf) (λ r, valid_container (ar_target ar) r rvf) x) _ _ _)).
    { intros x. cbn [answer_rejected]. by destruct (ru_revision _). }
    intros revision _. refine (body_ext _ _ _ _ _ _ (body_plift _ _ (λ _ x,
      refused_answer (rs_put ar rvf) (λ r, valid_container (ar_target ar) r rvf) x) _ _ _)).
    { intros x. by destruct (verify_profile _ _). }
    intros vp _. solve_answer.
  - apply body_guard. solve_answer.
  - apply body_guard. solve_answer.
  - apply (body_resolver _ _ _ (λ a, valid_container _ a.1 a.2)). intros [r b]. apply body_checked; [done|]. solve_tail.
Qed.

(** C5: The runtime's audit trail is exact, whatever the resolver answers and
    whatever the host's persistence does.  Every call appends first the record
    of its decision, [ProofVerifiedP1] or [ProofRejected].  A refused call
    changes nothing else and never reaches the resolver, the authority, the
    receipt cursor or the host.  An allowed one satisfies the conditions of an
    authorization, and appends its operation's own record exactly when it
    succeeds.  When the resolver answers and the runtime rejects the answer, the
    call fails with a scope violation and leaves a second record, of the
    rejection, and no success ever returns a rejected answer; any other failure
    adds nothing.  Only grant and revoke touch the authority, only a
    successful seal moves the receipt cursor, and only resolver operations
    touch the resolver.  A call fails to answer only when grant or revoke runs
    out of fuel. *)
Theorem runtime_audit_exact fuel c rt d :
  match run_runtime_call fuel c (rt, d) with
  | None => call_administers c = true
  | Some (out, (rt', d')) =>
      let '(decision, rt1) := runtime_authorize (call_request c) (call_operation c) rt in
      leaves_record (if is_ok decision then AkProofVerifiedP1 else AkProofRejected) (cr_actor rt) (cr_witness rt) (cr_witness rt1) ∧
      kept false false false rt rt1 ∧
      match decision with
      | Err e => out = Err e ∧ rt' = rt1 ∧ d' = d
      | Ok ar =>
          (∃ slot, authorizes (cr_authority rt) (cr_actor rt) (call_request c) (call_operation c) slot) ∧
          audited (call_operation c) (cr_actor rt) (answer_rejected c ar (cr_resolver rt)) (cr_witness rt1) out (cr_witness rt') ∧
          kept (call_resolves c) (call_administers c) (call_seals c && is_ok out) rt1 rt' ∧
          (call_seals c = false → d' = d)
      end
  end.
Proof.
  destruct (call_is_audited fuel c rt d) as [[-> H]|([out [rt' d']] & -> & H)]; [done|]. unfold call_audited in H.
  pose proof (runtime_authorize_spec (call_request c) (call_operation c) rt) as Hs. cbn [fst snd] in H.
  destruct (runtime_authorize _ _ rt) as [[ar|e] rt1]; destruct Hs as (Hk & Hw & Hs); (split; [done|]; split; [done|]).
  - destruct (Hs ar eq_refl) as (_ & _ & _ & Hslot). destruct H as (H1 & H2 & H3).
    rewrite (kp_actor _ _ _ _ _ Hk), (kp_resolver _ _ _ _ _ Hk eq_refl) in H2. by split_and!.
  - by injection H as -> -> ->.
Qed.

(** C6: What a successful read releases, for any resolver: the actor was
    authorized for the target; the resolver was asked once and answered an
    object of the target's name, at the pinned revision when the target pins
    one and otherwise through a live alias pointing at it; its container has
    that revision as SHA-256 and at most [MAX_RVF_BYTES]; and the bytes are not
    the container but the payload of the one segment its profile names for the
    requested view, content by default, with the SHA-256 the profile
    records. *)
Theorem read_releases_bound_view request rt resolved bytes rt' :
  runtime_read request rt = (Ok (resolved, bytes), rt') →
  (∃ slot, authorizes (cr_authority rt) (cr_actor rt) request OpRead slot) ∧
  same_logical_name (rq_target request) (pn_uri (rc_pinned_uri resolved)) = true ∧
  (∀ revision, ru_revision (rq_target request) = Some revision → rc_revision resolved = revision) ∧
  (ru_revision (rq_target request) = None →
     ∃ s, rc_alias resolved = Some s ∧ as_tombstone s = false ∧ as_revision s = rc_revision resolved) ∧
  ∃ ar rvf segs vp pv s,
    rs_read ar (cr_resolver rt) = (Ok (resolved, rvf), cr_resolver rt') ∧
    sha256 rvf = rev_bytes (rc_revision resolved) ∧ Z.of_nat (length rvf) ≤ MAX_RVF_BYTES ∧
    from_rvf rvf (rc_revision resolved) PinnedIdentity [] = Ok vp ∧
    walk rvf = Ok segs ∧ pv ∈ cp_views (vp_profile vp) ∧
    pvw_view pv = default PvContent (ru_view (rq_target request)) ∧ bound_to rvf segs pv s ∧
    bytes = segment_payload s rvf ∧ sha256 bytes = rev_bytes (pvw_payload pv).
Proof.
  unfold runtime_read. intros (ar & rt1 & Hau & H)%pbind_ok.
  pose proof (runtime_authorize_spec request OpRead rt) as Hs. rewrite Hau in Hs.
  destruct Hs as (Hk & _ & Hs). destruct (Hs ar eq_refl) as (Ha & Hop & Ht & Hslot). clear Hs.
  apply pbind_ok in H as ([rc rvf] & rt2 & Hres & H). unfold in_resolver, pzoom in Hres.
  destruct (rs_read ar (cr_resolver rt1)) as [r x] eqn:Er. injection Hres as -> <-.
  destruct (valid_container _ rc rvf) eqn:Ev; cbn [negb] in H; [|done].
  apply pbind_ok in H as (vp & rt3 & [Hvp ->]%plift_ok & H).
  apply pbind_ok in H as (out & rt4 & [Hout ->]%plift_ok & H).
  apply pbind_ok in H as (seq & rt5 & Hc & [E ->]%pret_ok). injection E as -> ->.
  unfold verify_profile in Hvp. apply guard_Ok in Hvp as [Hlen Hvp]. apply map_err_Ok in Hvp, Hout.
  destruct (view_bound _ _ _ _ _ _ _ Hvp Hout) as (Hsha & segs & pv & s & Hw & Hin & Hview & Hb & Hbytes).
  unfold valid_container, valid_exact_result, valid_result_integrity in Ev. rewrite Ht in *. split_bool.
  split; [done|]. split; [done|]. split; [|split].
  - intros revision E. rewrite E in *. split_bool. done.
  - intros E. rewrite E in *. destruct (rc_alias rc) as [s'|]; [|done]. split_bool. by exists s'.
  - exists ar, rvf, segs, vp, pv, s. rewrite <-(kp_resolver _ _ _ _ _ Hk eq_refl).
    unfold complete in Hc. destruct (record_success _ _). injection Hc as _ <-. cbn [cr_resolver put_witness put_resolver].
    split_and!; try done. rewrite Hbytes. apply (bt_digest _ _ _ _ Hb).
Qed.
End audit.

(* ------------------------------------------------------------------ *)
(** ** The receipts a runtime seals *)

Section sealing_history.
Context {R K : Type} {CR : ContextResolver R} {CK : ContextClock K}.
Context {BF : Bitflags} {BL : BitflagsLaws} {BU : BitflagsUnion} {SH : Sha256} {HS : SegmentHashes} {CT : ConstantTimeEq} {ED : Ed25519}
  {CH : ChainHasher} {CL : ChainHasherLaws}.
Context {S : Type} {DS : DigestSigner S} {D : Type}.
Notation Runtime := (ContextRuntime R K).
Notation Call := (@RuntimeCall S D).

(** A step is a call, or trusted code changing the authority. *)
Definition RuntimeStep : Type := (Call + (ContextAuthority → ContextAuthority))%type.
Definition step_sealed (out : ContextResult RuntimeReply) : list SignedContextEpochReceipt :=
  match out with Ok (ReplySealed sr _) => [sr] | _ => [] end.
(** The receipts sealed by a run, in order. *)
Fixpoint run_runtime (fuel : nat) (steps : list RuntimeStep) (st : Runtime * D)
    : option (list SignedContextEpochReceipt * (Runtime * D)) :=
  match steps with
  | [] => Some ([], st)
  | inl c :: steps =>
      '(out, st) ← run_runtime_call fuel c st;
      '(srs, st) ← run_runtime fuel steps st;
      Some (step_sealed out ++ srs, st)
  | inr f :: steps => run_runtime fuel steps (put_authority (f (cr_authority st.1)) st.1, st.2)
  end.

Definition log_appends (rs : list WitnessRecord) (l : WitnessLog) : WitnessLog := foldl (λ l r, (log_append r l).2) l rs.
(** The records as the log stores them. *)
Definition stamp_all (rs : list WitnessRecord) : list WitnessRecord := imap stamp_at rs.

Lemma log_appends_app rs rs' l : log_appends (rs ++ rs') l = log_appends rs' (log_appends rs l).
Proof. apply foldl_app. Qed.
Lemma stamp_all_snoc rs r : stamp_all (rs ++ [r]) = stamp_all rs ++ [stamp_at (length rs) r].
Proof. unfold stamp_all. rewrite imap_app. cbn. by rewrite Nat.add_0_r. Qed.
Lemma length_stamp_all rs : length (stamp_all rs) = length rs.
Proof. apply length_imap. Qed.

Lemma log_appends_repr W rs :
  (0 < W)%nat → Z.of_nat (length rs) ≤ u64_max → log_repr (log_appends rs (log_new W)) (stamp_all rs).
Proof.
  intros HW. induction rs as [|r rs IH] using rev_ind; intros Hb; [by apply log_new_repr|].
  rewrite length_app in Hb. cbn in Hb. rewrite log_appends_app, stamp_all_snoc. cbn [log_appends foldl].
  rewrite <-(length_stamp_all rs). apply append_repr; [apply IH; lia|]. rewrite length_stamp_all. lia.
Qed.

Definition previous_id (srs : list SignedContextEpochReceipt) : list Z := from_option receipt_id (replicate 32 0) (last srs).

(** The last receipt ends where the cursor stands. *)
Definition ends_at (sr : SignedContextEpochReceipt) (n k : nat) : Prop :=
  let rc := sr_receipt sr in
  ∃ j, (j < k)%nat ∧ er_epoch_id rc + 1 = Z.of_nat n ∧ er_first_sequence rc = Z.of_nat j ∧
    er_initial_chain_hash rc = chain_at j ∧ er_record_count rc = Z.of_nat (k - j) ∧
    er_last_sequence rc + 1 = Z.of_nat k.

Definition records_match (sr : SignedContextEpochReceipt) (rs : list WitnessRecord) : Prop :=
  verify_records (sr_receipt sr) rs = Ok tt.

Record receipts_cover (W : nat) (rt : Runtime) (srs : list SignedContextEpochReceipt) (rs : list WitnessRecord)
    (rss : list (list WitnessRecord)) (k : nat) : Prop := {
  rco_log : cr_witness rt = log_appends rs (log_new W);
  rco_k : (k ≤ length rs)%nat;
  rco_covered : concat rss = take k (stamp_all rs);
  rco_cursor : cr_receipt_chain rt =
    mkReceiptChainState (mkWitnessCheckpoint (Z.of_nat k) (chain_at k)) (Z.of_nat (length srs)) (previous_id srs);
  rco_follow : receipts_follow None (mkVerified <$> srs);
  rco_match : Forall2 records_match srs rss;
  rco_end : match last srs with Some sr => ends_at sr (length srs) k | None => k = 0%nat end;
}.

Lemma receipts_follow_snoc prev vs v :
  receipts_follow prev vs →
  match last vs with
  | Some p => verify_successor v p
  | None => match prev with Some p => verify_successor v p | None => verify_genesis v end
  end = Ok tt → receipts_follow prev (vs ++ [v]).
Proof.
  revert prev. induction vs as [|w vs IH]; intros prev; cbn [receipts_follow app].
  - cbn. intros _ H. split; [|done]. by destruct prev.
  - intros [H1 H2] H. split; [done|]. apply IH; [done|]. rewrite last_cons in H. by destruct (last vs).
Qed.

(** A receipt sealed at the cursor continues the receipts before it. *)
Lemma sealed_follows W rt srs rs rss k rc rs' pr na rv po de signer :
  receipts_cover W rt srs rs rss k → Z.of_nat (length rs) ≤ u64_max → Z.of_nat (length srs) + 1 ≤ u64_max →
  pr = previous_id srs → seal (Z.of_nat (length srs)) (mkWitnessCheckpoint (Z.of_nat k) (chain_at k)) rs' pr na rv po de = Ok rc →
  receipts_follow None (mkVerified <$> srs ++ [@receipt_sign SH S DS rc signer]).
Proof.
  intros [] Hb Hn -> Hseal. apply seal_start in Hseal as (H1 & H2 & H3 & H4). rewrite fmap_app.
  apply receipts_follow_snoc; [done|]. rewrite fmap_last. unfold previous_id in H4.
  destruct (last srs) as [p|] eqn:El; cbn [fmap option_fmap option_map from_option] in *.
  - destruct rco_end0 as (j & Hj & E1 & E2 & E3 & E4 & E5).
    apply sealed_successor; cbn [vr_signed receipt_sign sr_receipt]; try done; unfold is_u64; try lia.
    rewrite H3, E3, E2, E4, Nat2Z.id, chain_from_at by lia. f_equal. lia.
  - apply last_None in El as ->. subst k. unfold verify_genesis. cbn [vr_signed receipt_sign sr_receipt].
    rewrite H1, H2, H3, H4, bool_decide_false by tauto. done.
Qed.

Lemma witnessed_append_inv W kind actor rs l' :
  leaves_record kind actor (log_appends rs (log_new W)) l' → ∃ r, l' = log_appends (rs ++ [r]) (log_new W).
Proof. intros (r & _ & _ & ->). exists r. by rewrite log_appends_app. Qed.

(** Records appended after the cursor leave the receipts covered. *)
Lemma receipts_cover_grow W rt rt' srs rs r rss k :
  receipts_cover W rt srs rs rss k → cr_witness rt' = log_appends (rs ++ r) (log_new W) →
  cr_receipt_chain rt' = cr_receipt_chain rt → receipts_cover W rt' srs (rs ++ r) rss k.
Proof.
  intros [] Hw Hc. split; try done; [rewrite length_app; lia| |congruence].
  rewrite rco_covered0. unfold stamp_all. rewrite imap_app, take_app_le by (rewrite length_imap; lia). done.
Qed.

Lemma seal_covers W fuel request scratch na rv po de (signer : S) persist (rt : Runtime) (d : D) out rt' d' srs rs rss k :
  (0 < W)%nat → receipts_cover W rt srs rs rss k → Z.of_nat (length rs) + 1 ≤ u64_max →
  run_runtime_call fuel (RtSeal request scratch na rv po de signer persist) (rt, d) = Some (Ok out, (rt', d')) →
  ∃ sr cp r1 r2, out = ReplySealed sr cp ∧
    receipts_cover W rt' (srs ++ [sr]) (rs ++ [r1; r2]) (rss ++ [drop k (stamp_all (rs ++ [r1]))]) (length rs + 1).
Proof.
  intros HW Hcov Hb. cbn [run_runtime_call]. unfold seal_epoch_transactional.
  pose proof (runtime_authorize_spec request OpSealReceipt rt) as Hs.
  destruct (runtime_authorize _ _ rt) as [[ar|e] rt1]; [|done]. destruct Hs as (Hk & Hw & _).
  rewrite (rco_log _ _ _ _ _ _ Hcov) in Hw. apply witnessed_append_inv in Hw as (r1 & Hw).
  pose proof (receipts_cover_grow _ _ rt1 _ _ _ _ _ Hcov Hw (kp_chain _ _ _ _ _ Hk eq_refl)) as Hcov1.
  rewrite (rco_cursor _ _ _ _ _ _ Hcov1). cbn [rcs_next_epoch_id rcs_next_checkpoint rcs_previous_receipt_id].
  destruct (checked_add u64_max _ 1) as [n|] eqn:En; [|done]. apply checked_add_Some in En as [-> En].
  destruct (negb _); [done|].
  assert (log_repr (cr_witness rt1) (stamp_all (rs ++ [r1]))) as Hl.
  { rewrite Hw. apply log_appends_repr; [done|]. rewrite length_app. cbn. lia. }
  unfold seal_from_log. destruct (snapshot_since _ _ _) as [[s|e] out'] eqn:Esn; [|done].
  apply snapshot_since_Ok with (1 := Hl) in Esn as (Hk1 & -> & ->). cbn [sn_count sn_end_checkpoint fst].
  rewrite Nat2Z.id, take_app_length' by (by rewrite length_drop).
  destruct (seal _ _ _ _ _ _ _ _) as [rc|] eqn:Eseal; [|done]. cbn [mbind result_bind map_err].
  destruct (receipt_verify _ _) as [v|]; [|done]. destruct (persist _ _ d) as [[u|e] d1]; [|done].
  destruct (timestamp_ns _) as [ts c]. intros H. injection H as <- <- _.
  exists (receipt_sign rc signer), (checkpoint (cr_witness rt1)), r1,
    (seal_record v (ar_actor ar) (ar_capability_hash ar) ts). split; [done|].
  assert (length (stamp_all (rs ++ [r1])) = length rs + 1)%nat as Hlen by (rewrite length_stamp_all, length_app; done).
  pose proof (seal_records _ _ _ _ _ _ _ _ _ Eseal) as Hrec.
  pose proof (ro_count _ _ Hrec) as Hcount. rewrite length_drop, Hlen in Hcount.
  assert (k < length rs + 1)%nat as Hlt.
  { pose proof (ro_nonempty _ _ Hrec) as Hne. apply not_le. intros Hge. apply Hne. apply drop_ge. lia. }
  split.
  - unfold emit_seal. cbn [cr_witness put_clock put_receipt_chain put_witness]. rewrite Hw. change [r1; ?x] with ([r1] ++ [x]).
    by rewrite (app_assoc rs [r1]), (log_appends_app (rs ++ [r1])).
  - rewrite length_app. cbn. lia.
  - rewrite concat_app, (rco_covered _ _ _ _ _ _ Hcov1). cbn [concat]. rewrite app_nil_r, take_drop.
    change [r1; ?x] with ([r1] ++ [x]). rewrite (app_assoc rs [r1]). unfold stamp_all at 2.
    rewrite imap_app, <-Hlen. fold (stamp_all (rs ++ [r1])). by rewrite take_app_length.
  - cbn [cr_receipt_chain put_receipt_chain]. unfold checkpoint. rewrite (lr_seq _ _ Hl), (lr_chain _ _ Hl), Hlen.
    f_equal; [rewrite length_app; cbn; lia|]. unfold previous_id. by rewrite last_snoc.
  - eapply sealed_follows; [exact Hcov1| | |reflexivity|exact Eseal]; [rewrite length_app; cbn|]; lia.
  - apply Forall2_app; [exact (rco_match _ _ _ _ _ _ Hcov1)|]. constructor; [|done].
    unfold records_match. cbn [receipt_sign sr_receipt]. by apply verify_records_spec.
  - rewrite last_snoc. exists k. apply seal_start in Eseal as (H1 & H2 & H3 & _). cbn [receipt_sign sr_receipt].
    pose proof (ro_last _ _ Hrec) as Hlast. rewrite stamp_all_snoc, drop_app_le, last_snoc in Hlast
      by (rewrite length_stamp_all; lia). injection Hlast as Hlast. cbn in Hlast.
    split_and!; [done|rewrite H1, length_app; cbn; lia|done|done|lia|rewrite <-Hlast; lia].
Qed.

Lemma replying_unsealed {A} (f : A → RuntimeReply) (d : D) p out (st' : Runtime * D) :
  (∀ a, step_sealed (Ok (f a)) = []) → replying f d p = Some (out, st') → step_sealed out = [].
Proof. intros Hf H. unfold replying in H. injection H as <- _. by destruct p.1 as [a|e]; cbn; [apply Hf|]. Qed.

Lemma call_unsealed fuel (c : Call) (rt : Runtime) d out st' :
  call_seals c = false → run_runtime_call fuel c (rt, d) = Some (out, st') → step_sealed out = [].
Proof.
  intros Hc. destruct c; cbn [run_runtime_call]; try done.
  4: by apply replying_unsealed; intros [].
  11: destruct (runtime_grant _ _ _ _ _ _) as [p|]; [cbn [mbind option_bind]|done].
  12: destruct (runtime_revoke _ _ _) as [p|]; [cbn [mbind option_bind]|done].
  all: by apply replying_unsealed.
Qed.

(** One call: the records it appends, and the receipt it may seal. *)
Lemma call_covers W fuel (c : Call) (rt : Runtime) d out rt' d' srs rs rss k :
  (0 < W)%nat → receipts_cover W rt srs rs rss k → Z.of_nat (length rs) + 2 ≤ u64_max →
  run_runtime_call fuel c (rt, d) = Some (out, (rt', d')) →
  ∃ more rss' k', (length more ≤ 2)%nat ∧ receipts_cover W rt' (srs ++ step_sealed out) (rs ++ more) rss' k'.
Proof.
  intros HW Hcov Hb Hrun. destruct (call_seals c && is_ok out) eqn:Eseal.
  { apply andb_true_iff in Eseal as [Es Eo]. destruct out as [out|]; [|done]. destruct c; try done.
    destruct (seal_covers _ _ _ _ _ _ _ _ _ _ _ _ _ _ _ _ _ _ _ HW Hcov ltac:(lia) Hrun) as (sr & cp & r1 & r2 & -> & H).
    by eexists [r1; r2], _, _. }
  assert (step_sealed out = []) as ->.
  { apply andb_false_iff in Eseal as [Es|Eo]; [by eapply call_unsealed|by destruct out]. }
  rewrite app_nil_r.
  destruct (call_is_audited fuel c rt d) as [[Hn _]|(o & Ho & H)]; [congruence|].
  rewrite Hrun in Ho. injection Ho as <-. unfold call_audited in H. cbn [fst snd] in H.
  pose proof (runtime_authorize_spec (call_request c) (call_operation c) rt) as Hs.
  destruct (runtime_authorize _ _ rt) as [r rt1]. destruct Hs as (Hk & Hw & _).
  rewrite (rco_log _ _ _ _ _ _ Hcov) in Hw. apply witnessed_append_inv in Hw as (r1 & Hw).
  assert (∀ more rt2, cr_witness rt2 = log_appends (rs ++ more) (log_new W) → cr_receipt_chain rt2 = cr_receipt_chain rt →
    receipts_cover W rt2 srs (rs ++ more) rss k) as Hgrow by (intros; by eapply receipts_cover_grow).
  pose proof (kp_chain _ _ _ _ _ Hk eq_refl) as Hchain.
  destruct r as [ar|e]; [|injection H as -> -> ->; exists [r1], rss, k; split; [cbn; lia|by apply Hgrow]].
  destruct H as (Hk2 & Ha & _). rewrite Eseal in Hk2. pose proof (kp_chain _ _ _ _ _ Hk2 eq_refl) as Hchain2.
  rewrite Hchain in Hchain2. rewrite Hw in Ha.
  assert (cr_witness rt' = log_appends (rs ++ [r1]) (log_new W) ∨
    ∃ r2, cr_witness rt' = log_appends (rs ++ [r1; r2]) (log_new W)) as [Hw'|(r2 & Hw')].
  { apply audited_grows in Ha as [->|(kind & (r2 & ->)%witnessed_append_inv)]; [by left|right].
    exists r2. by rewrite <-app_assoc. }
  - exists [r1], rss, k. split; [cbn; lia|by apply Hgrow].
  - exists [r1; r2], rss, k. split; [cbn; lia|by apply Hgrow].
Qed.

Lemma run_covers W fuel steps : ∀ (rt : Runtime) d srs0 srs rt' d' rs rss k,
  (0 < W)%nat → receipts_cover W rt srs0 rs rss k → Z.of_nat (length rs + 2 * length steps) ≤ u64_max →
  run_runtime fuel steps (rt, d) = Some (srs, (rt', d')) →
  ∃ rs' rss' k', receipts_cover W rt' (srs0 ++ srs) rs' rss' k'.
Proof.
  induction steps as [|[c|f] steps IH]; intros rt d srs0 srs rt' d' rs rss k HW Hcov Hb Hrun; cbn [run_runtime length] in *.
  - injection Hrun as <- <- <-. rewrite app_nil_r. eauto.
  - destruct (run_runtime_call fuel c (rt, d)) as [[out [rt1 d1]]|] eqn:E1; [|done]. cbn [mbind option_bind] in Hrun.
    destruct (run_runtime fuel steps (rt1, d1)) as [[srs1 st1]|] eqn:E2; [|done]. cbn [mbind option_bind] in Hrun.
    injection Hrun as <- ->.
    destruct (call_covers _ _ _ _ _ _ _ _ _ _ _ _ HW Hcov ltac:(lia) E1) as (more & rss1 & k1 & Hm & Hcov1).
    destruct (IH _ _ _ _ _ _ _ _ _ HW Hcov1 ltac:(rewrite length_app; lia) E2) as (rs' & rss' & k' & H).
    rewrite <-app_assoc in H. eauto.
  - refine (IH _ _ _ _ _ _ rs rss k HW _ ltac:(lia) Hrun). by destruct Hcov.
Qed.

(** C7: The receipts of a runtime cover its log without a gap.  Run any steps
    from a fresh runtime, operations that succeed or fail, seals whose
    persistence the host refuses, trusted changes of the authority, in any
    order: the receipts sealed verify as one chain from the genesis (epochs
    numbered from zero, each linked to the signed receipt before it), the runs
    of records they match put together are exactly the first [k] records the
    log emitted, in order, and the cursor stands at record [k] with that chain
    hash, the next epoch number and the last receipt's identifier.  A failed
    seal leaves its records to the next one. *)
Theorem sealed_epochs_cover_log W fuel steps actor a (resolver : R) (clock : K) (d : D) srs rt' d' :
  (0 < W)%nat → Z.of_nat (2 * length steps) ≤ u64_max →
  run_runtime fuel steps (runtime_with_clock W actor a resolver clock, d) = Some (srs, (rt', d')) →
  ∃ rs rss k, receipts_cover W rt' srs rs rss k.
Proof.
  intros HW Hb Hrun. refine (run_covers W fuel steps _ _ [] _ _ _ [] [] 0 HW _ Hb Hrun). by split.
Qed.
End sealing_history.

(* ------------------------------------------------------------------ *)
(** ** A sample: put, publish, read and search through the runtime *)

#[local] Existing Instances sample_rights sample_sha sample_hashes sample_ct_eq sample_ct_eq_ok sample_ed.
#[local] Existing Instances bitflags_u8 fnv_hasher.
#[local] Existing Instances sample_receipt_mac.
#[local] Instance sample_runtime_laws : @ChainHasherLaws fnv_hasher := fnv_hasher_laws.

Definition sample_authority : ContextAuthority :=
  match run_calls 10 [CallIssueRoot (scope_from_uri (set_ru_revision sample_revision sample_doc) VIEW_ALL)
                        (Z.lor READ (Z.lor WRITE PROVE)) 6 0]
          (authority_with_defaults 4 4) with
  | Some (a, _) => a
  | None => authority_with_defaults 4 4
  end.
Definition sample_runtime : ContextRuntime MemoryResolver LogicalContextClock :=
  runtime_new 16 6 sample_authority (memory_resolver_new 4 4).
Definition ask (op : ContextOperation) (u : RuvUri) : ContextRequest := mkContextRequest (mkCapabilityHandle 0 1) op u.
Definition sample_pinned : RuvUri := set_ru_revision sample_revision sample_doc.
Definition sample_seal : @RuntimeCall HmacSha256WitnessSigner unit :=
  RtSeal (ask OpSealReceipt sample_pinned) (replicate 8 record_zeroed) zero32 (rev_bytes sample_revision) zero32 zero32
    sample_signer (λ _ _, pret tt).
Definition sample_steps : list RuntimeStep :=
  [inl (RtPut (ask OpPut sample_pinned) sample_context);
   inl (RtCas (ask OpCompareAndSwapAlias sample_doc) None sample_revision);
   inl sample_seal; inl (RtRead (ask OpRead sample_doc)); inl (RtForget (ask OpForget sample_pinned) sample_alias); inl sample_seal].
#[local] Notation sample_run :=
  (run_runtime 10 sample_steps (runtime_with_clock 16 6 sample_authority (memory_resolver_new 4 4) logical_clock_new, tt)).
Definition after (n : nat) : ContextRuntime MemoryResolver LogicalContextClock :=
  match run_runtime 10 (take n sample_steps) (sample_runtime, tt) with
  | Some (_, (rt, _)) => rt
  | None => sample_runtime
  end.

Definition receipt_range (sr : SignedContextEpochReceipt) : Z * Z * Z :=
  (er_epoch_id (sr_receipt sr), er_first_sequence (sr_receipt sr), er_record_count (sr_receipt sr)).

(** Put, publish and the first seal's decision are the first epoch; the seal's
    own record, the read, the refused forget and the second seal's decision the
    second. *)
Example sample_two_receipts :
  match sample_run with Some (srs, _) => receipt_range <$> srs | None => [] end = [(0, 0, 5); (1, 5, 5)].
Proof. vm_compute. reflexivity. Qed.
(** A read releases the content, not the container. *)
Example sample_read : (snd <$> (runtime_read (ask OpRead sample_doc) (after 3)).1) = Ok sample_content.
Proof. vm_compute. reflexivity. Qed.

Lemma read_releases_bound_view_witness :
  ∃ resolved rt', runtime_read (ask OpRead sample_doc) (after 3) = (Ok (resolved, sample_content), rt') ∧
    same_logical_name sample_doc (pn_uri (rc_pinned_uri resolved)) = true.
Proof.
  set (out := runtime_read (ask OpRead sample_doc) (after 3)).
  assert ((snd <$> out.1) = Ok sample_content) as Hr by exact sample_read.
  destruct out as [[[resolved bytes]|e] rt'] eqn:Hout; [|discriminate Hr]. injection Hr as ->.
  exists resolved, rt'. split; [reflexivity|].
  exact (proj1 (proj2 (read_releases_bound_view (ask OpRead sample_doc) (after 3) resolved sample_content rt' Hout))).
Defined.

Lemma sealed_epochs_cover_log_witness :
  ∃ srs rt', sample_run = Some (srs, (rt', tt)) ∧ length srs = 2%nat ∧
    ∃ rs rss k, receipts_cover 16 rt' srs rs rss k.
Proof.
  pose proof sample_two_receipts as Hr.
  destruct sample_run as [[srs [rt' []]]|] eqn:Hrun; [|discriminate Hr].
  assert (length srs = 2%nat) as Hl by (rewrite <-(length_fmap receipt_range), Hr; reflexivity).
  exists srs, rt'. split; [reflexivity|]. split; [exact Hl|].
  refine (sealed_epochs_cover_log 16 10 sample_steps 6 sample_authority (memory_resolver_new 4 4) logical_clock_new tt srs rt' tt
    _ _ Hrun); [lia|vm_compute; discriminate].
Defined.

(** An allowed read: two records and the same authority and cursor. *)
Lemma runtime_audit_exact_witness :
  ∃ out rt', run_runtime_call 10 (RtRead (ask OpRead sample_doc) : @RuntimeCall HmacSha256WitnessSigner unit) (after 3, tt) =
      Some (Ok out, (rt', tt)) ∧
    cr_authority rt' = cr_authority (after 3) ∧ cr_receipt_chain rt' = cr_receipt_chain (after 3) ∧
    ∃ slot, authorizes (cr_authority (after 3)) 6 (ask OpRead sample_doc) OpRead slot.
Proof.
  set (c := RtRead (ask OpRead sample_doc) : @RuntimeCall HmacSha256WitnessSigner unit).
  assert (match run_runtime_call 10 c (after 3, tt) with Some (Ok _, _) => true | _ => false end = true) as Hok
    by (vm_compute; reflexivity).
  assert (cr_actor (after 3) = 6) as Hactor by (vm_compute; reflexivity).
  pose proof (runtime_audit_exact 10 c (after 3) tt) as H.
  destruct (run_runtime_call 10 c (after 3, tt)) as [[[out|e] [rt' []]]|]; [|discriminate Hok..].
  exists out, rt'. split; [reflexivity|].
  destruct (runtime_authorize (call_request c) (call_operation c) (after 3)) as [[ar|e] rt1];
    destruct H as (_ & Hk & H); [|destruct H as (H & _); discriminate H].
  destruct H as (Hslot & _ & Hk2 & _). rewrite Hactor in Hslot. split; [|split; [|exact Hslot]].
  - rewrite (kp_authority _ _ _ _ _ Hk2 eq_refl). exact (kp_authority _ _ _ _ _ Hk eq_refl).
  - rewrite (kp_chain _ _ _ _ _ Hk2 eq_refl). exact (kp_chain _ _ _ _ _ Hk eq_refl).
Defined.
