(* ===== verification/ContextContract.v ===== *)
(** The resolver contract: what [crates/rvm-context/src/runtime.rs] checks of
    every answer, as laws of the [ContextResolver] interface, and the proof that
    the in-memory resolver of [resolver.rs] obeys them.

    [resolver_honours] is the specification side: an invariant of the resolver
    that every method preserves, and under which every successful answer passes
    the runtime's validation. *)

From stdpp Require Import base numbers list option strings sets sorting.
From Stdlib Require Import ZArith Lia.
From S2P Require Import Prelude.
From S2P Require Import Text.
From S2P Require Import Bytes.
From S2P Require Import Sorting.
From S2P Require Import Types.
From S2P Require Import WitnessLog.
From S2P Require Import Security.
From S2P Require Import Signers.
From S2P Require Import RvfFormat.
From S2P Require Import RvfVerify.
From S2P Require Import ContextMatch.
From S2P Require Import ContextUri.
From S2P Require Import ContextProfile.
From S2P Require Import ContextCap.
From S2P Require Import ContextResolver.
From S2P Require Import ContextReceipt.
From S2P Require Import ContextRuntime.

Open Scope rvm_scope.

(** A method keeps [inv], and its answers satisfy [P]. *)
Definition answers {R A} (inv : R → Prop) (m : prog R ContextError A) (P : A → bool) : Prop :=
  ∀ r, inv r → let '(x, r') := m r in inv r' ∧ ∀ a, x = Ok a → P a = true.

Record resolver_honours {R} {CR : ContextResolver R} (inv : R → Prop) : Prop := {
  rh_resolve ar : answers inv (rs_resolve ar) (valid_exact_result (ar_target ar));
  rh_list ar limit : answers inv (rs_list ar limit) (λ es, valid_enumeration (ar_target ar) es limit false);
  rh_tree ar limit : answers inv (rs_tree ar limit) (λ es, valid_enumeration (ar_target ar) es limit true);
  rh_read ar : answers inv (rs_read ar) (λ '(rc, rvf), valid_container (ar_target ar) rc rvf);
  rh_search ar query limit : answers inv (rs_search ar query limit) (λ hits, valid_hits (ar_target ar) hits limit);
  rh_history ar limit : answers inv (rs_history ar limit) (λ es, valid_history (ar_target ar) es limit);
  rh_verify ar : answers inv (rs_verify ar) (λ '(rc, rvf), valid_container (ar_target ar) rc rvf);
  rh_put ar rvf : answers inv (rs_put ar rvf) (λ rc, valid_container (ar_target ar) rc rvf);
  rh_cas ar expected next :
    answers inv (rs_compare_and_swap_alias ar expected next) (valid_swap (ar_target ar) expected next);
  rh_forget ar expected : answers inv (rs_forget ar expected) (valid_tombstone (ar_target ar) expected);
  rh_execute ar : answers inv (rs_prepare_execute ar) (λ '(rc, rvf), valid_container (ar_target ar) rc rvf);
}.

(* ------------------------------------------------------------------ *)
(** ** Lists without duplicates *)

Lemma has_duplicates_NoDup l : NoDup l → has_duplicates l = false.
Proof.
  intros Hn. unfold has_duplicates. apply not_true_iff_false. intros H. apply existsb_exists in H as (i & _ & H).
  destruct (l !! i) as [p|] eqn:Hi; [|done]. apply existsb_exists in H as (q & Hq & E). split_bool. subst q.
  apply list_elem_of_In, list_elem_of_lookup in Hq as [j Hj]. apply lookup_take_Some in Hj as [Hj Hlt].
  pose proof (NoDup_lookup _ _ _ _ Hn Hi Hj). lia.
Qed.

Lemma NoDup_fmap_perm {A B} (f : A → B) (c : A → A → comparison) l n :
  NoDup (f <$> l) → NoDup (f <$> take n (sort_by c l)).
Proof.
  intros H. rewrite fmap_take. eapply sublist_NoDup; [|apply sublist_take].
  by rewrite sort_by_Permutation.
Qed.

Lemma Forall_sorted {A} (P : A → Prop) (c : A → A → comparison) l n : Forall P l → Forall P (take n (sort_by c l)).
Proof. intros H. apply Forall_take. by rewrite sort_by_Permutation. Qed.

(** Pinned URIs of different names or revisions differ. *)
Lemma NoDup_pinned {A B} (pinned : A → PinnedRuvUri) (key : PinnedRuvUri → B) (l : list A) :
  NoDup ((λ x, key (pinned x)) <$> l) → NoDup (pinned <$> l).
Proof. rewrite (list_fmap_compose pinned key). apply NoDup_fmap_1. Qed.

Lemma forallb_intro {A} (p : A → bool) l : Forall (λ x, p x = true) l → forallb p l = true.
Proof. intros H. apply forallb_Forall. eapply Forall_impl; [exact H|]. by intros x ->. Qed.

(* ------------------------------------------------------------------ *)
(** ** The in-memory resolver's answers *)

Section memory.
Context {BU : BitflagsUnion} {SH : Sha256} {SL : Sha256Laws} {HS : SegmentHashes} {CT : ConstantTimeEq} {ED : Ed25519}.

Lemma object_size t rev r o :
  resolver_inv r → object_for t rev r = Some o → dead o = false → rvf_length o ≤ MAX_RVF_BYTES.
Proof. intros Hi (Ho & _)%object_for_Some. apply (proj1 (Forall_forall _ _) (ri_sizes r Hi) o Ho). Qed.

Lemma same_name_refl u : same_logical_name u u = true.
Proof. by apply same_name_iff. Qed.
Lemma same_name_pinned u v rev : same_logical_name u (set_ru_revision rev v) = same_logical_name u v.
Proof. done. Qed.
Lemma same_name_sym u v : same_logical_name u v = same_logical_name v u.
Proof. apply eq_true_iff_eq. rewrite !same_name_iff. naive_solver. Qed.

(** The shape of every entry the resolver builds. *)
Lemma integrity_intro pinned rev alias len :
  len ≤ MAX_RVF_BYTES → pn_revision pinned = rev →
  match alias with
  | Some s => as_tombstone s = false ∧ as_revision s = rev ∧ same_logical_name (as_alias s) (pn_uri pinned) = true
  | None => True
  end → valid_result_integrity (mkResolvedContext pinned rev alias len) = true.
Proof.
  intros Hl Hr Ha. unfold valid_result_integrity. cbn [rc_alias rc_rvf_len rc_pinned_uri rc_revision].
  rewrite (proj2 (Z.leb_le _ _) Hl), bool_decide_true by done. destruct alias as [s|]; [|done].
  destruct Ha as (-> & Hrev & ->). by rewrite bool_decide_true.
Qed.

Lemma resolved_for_valid t r rc o :
  resolver_inv r → resolved_for t r = Ok (rc, o) → valid_container t rc (so_rvf o) = true ∧ object_for t (rc_revision rc) r = Some o.
Proof.
  intros Hi H. unfold resolved_for in H. unfold valid_container, valid_exact_result.
  destruct (ru_revision t) as [rev|] eqn:Er.
  - apply bind_Ok in H as (x & Hx%ok_or_Ok & H). apply guard_Ok in H as [Hd H].
    apply bind_Ok in H as (p & (rev' & Hr' & ->)%pin_target_Ok & H). rewrite Er in Hr'. injection Hr' as <-.
    apply Ok_inj in H. injection H as <- <-. split; [|done]. rewrite integrity_intro by (done || by eapply object_size).
    cbn [rc_pinned_uri pn_uri rc_revision rc_rvf_len]. by rewrite same_name_refl, bool_decide_true, Z.eqb_refl.
  - apply bind_Ok in H as (i & Hix%ok_or_Ok & H). apply bind_Ok in H as (s & Hs%ok_or_Ok & H).
    apply guard_Ok in H as [Ht H]. apply bind_Ok in H as (x & Hx%ok_or_Ok & H). apply guard_Ok in H as [Hd H].
    apply orb_false_iff in Hd as [Hd Hn]. apply bind_Ok in H as (p & ->%pin_Ok & H).
    apply Ok_inj in H. injection H as <- <-. split; [|done].
    apply position_lookup in Hix as (s' & Hs' & Hname). rewrite Hs in Hs'. injection Hs' as <-.
    rewrite integrity_intro; [|by eapply object_size|done|by split_and!].
    cbn [rc_pinned_uri pn_uri rc_revision rc_rvf_len rc_alias]. by rewrite same_name_pinned, same_name_refl, Z.eqb_refl.
Qed.

(** Entries of an enumeration, and of which aliases they come. *)
Lemma enumerate_loop_valid t recursive r l entries :
  resolver_inv r → enumerate_loop t recursive r l = Ok entries →
  Forall (λ e, valid_entry t recursive e = true) entries ∧
  (λ e, name_of (pn_uri (rc_pinned_uri e))) <$> entries `sublist_of` (λ s, name_of (as_alias s)) <$> l.
Proof.
  intros Hi. revert entries. induction l as [|s l IH]; intros entries H; cbn [enumerate_loop fmap list_fmap] in *.
  { apply Ok_inj in H as <-. split; [done|]. apply sublist_nil. }
  assert (∀ es, enumerate_loop t recursive r l = Ok es → Forall (λ e, valid_entry t recursive e = true) es ∧
    (λ e, name_of (pn_uri (rc_pinned_uri e))) <$> es `sublist_of`
    name_of (as_alias s) :: ((λ s, name_of (as_alias s)) <$> l)) as Hskip.
  { intros es He. destruct (IH es He) as [H1 H2]. split; [done|]. by apply sublist_cons. }
  destruct (as_tombstone s || _ || _) eqn:Eg; [by apply Hskip|].
  destruct (object_for _ _ r) as [o|] eqn:Eo; [|by apply Hskip]. destruct (dead o) eqn:Ed; [by apply Hskip|].
  apply bind_Ok in H as (p & ->%pin_Ok & H). apply bind_Ok in H as (es & He & H). apply Ok_inj in H as <-.
  destruct (IH es He) as [H1 H2]. apply orb_false_iff in Eg as [[Et Ew]%orb_false_iff Er].
  apply negb_false_iff, andb_true_iff in Ew as [Ed1 Ew]. split.
  - constructor; [|done]. unfold valid_entry. rewrite integrity_intro; [|by eapply object_size|done|].
    2: { split_and!; [done|done|]. apply (same_name_refl (as_alias s)). }
    cbn [rc_pinned_uri pn_uri rc_alias is_some andb]. change (is_within t (set_ru_revision _ ?u)) with (is_within t u).
    cbn [ru_path set_ru_revision]. rewrite Ew, Ed1. cbn [andb]. destruct recursive; [done|]. cbn [orb negb andb] in *.
    by apply negb_false_iff in Er.
  - cbn [fmap list_fmap]. by apply sublist_skip.
Qed.

Lemma enumerate_valid t limit recursive r entries :
  resolver_inv r → enumerate_aliases t limit recursive r = Ok entries → valid_enumeration t entries limit recursive = true.
Proof.
  intros Hi H. unfold enumerate_aliases in H. apply bind_Ok in H as (u & _ & H).
  apply bind_Ok in H as (es & He & H). apply Ok_inj in H as <-.
  destruct (enumerate_loop_valid _ _ _ _ _ Hi He) as [Hv Hn]. unfold valid_enumeration.
  rewrite (proj2 (Nat.leb_le _ _) (firstn_le_length _ _)). unfold has_duplicate_results.
  rewrite has_duplicates_NoDup, forallb_intro; [done|by apply Forall_sorted|].
  apply NoDup_fmap_perm, (NoDup_pinned rc_pinned_uri (λ p, name_of (pn_uri p))).
  eapply sublist_NoDup; [|exact Hn]. apply (ri_names r Hi).
Qed.

Definition pinned_key (p : PinnedRuvUri) := (name_of (pn_uri p), pn_revision p).

Lemma history_loop_valid t objects entries :
  Forall (λ o, dead o = false → rvf_length o ≤ MAX_RVF_BYTES) objects → history_loop t objects = Ok entries →
  Forall (λ e, valid_result_integrity e && same_logical_name t (pn_uri (rc_pinned_uri e)) = true) entries ∧
  (λ e, pinned_key (rc_pinned_uri e)) <$> entries `sublist_of`
    (λ o, (name_of (so_canonical_uri o), so_revision o)) <$> objects.
Proof.
  intros Hsz. revert entries. induction Hsz as [|o l Ho Hsz IH]; intros entries H; cbn [history_loop fmap list_fmap] in *.
  { apply Ok_inj in H as <-. split; [done|]. apply sublist_nil. }
  destruct (dead o || _) eqn:E; [destruct (IH entries H); split; [done|by apply sublist_cons]|].
  apply orb_false_iff in E as [Ed En%negb_false_iff%same_name_iff].
  apply bind_Ok in H as (p & ->%pin_Ok & H). apply bind_Ok in H as (es & He & H). apply Ok_inj in H as <-.
  destruct (IH es He) as [H1 H2]. split.
  - constructor; [|done]. rewrite integrity_intro; [|by apply Ho|done|done]. apply (same_name_refl t).
  - cbn [fmap list_fmap]. unfold pinned_key at 1. cbn [rc_pinned_uri pn_uri pn_revision]. rewrite En. by apply sublist_skip.
Qed.

Lemma history_valid ar limit r entries :
  resolver_inv r → mem_history ar limit r = Ok entries → valid_history (ar_target ar) entries limit = true.
Proof.
  intros Hi H. unfold mem_history in H. apply bind_Ok in H as (u & _ & H). apply bind_Ok in H as (u' & _ & H).
  apply bind_Ok in H as (i & _ & H). apply bind_Ok in H as (s & _ & H). apply guard_Ok in H as [_ H].
  apply bind_Ok in H as (es & He & H). apply Ok_inj in H as <-.
  destruct (history_loop_valid _ _ _ (ri_sizes r Hi) He) as [Hv Hn]. unfold valid_history, has_duplicate_results.
  rewrite (proj2 (Nat.leb_le _ _) (firstn_le_length _ _)).
  rewrite has_duplicates_NoDup, forallb_intro; [done|by apply Forall_sorted|].
  apply NoDup_fmap_perm, (NoDup_pinned rc_pinned_uri pinned_key). eapply sublist_NoDup; [|exact Hn]. apply (ri_objects r Hi).
Qed.

Lemma candidates_valid t query r l hits :
  ru_revision t = None → candidates t query r l = Ok hits →
  Forall (λ h, valid_hit t h = true) hits ∧
  (λ h, name_of (pn_uri (ht_pinned_uri h))) <$> hits `sublist_of` (λ s, name_of (as_alias s)) <$> l.
Proof.
  intros Ht. revert hits. induction l as [|s l IH]; intros hits H; cbn [candidates fmap list_fmap] in *.
  { apply Ok_inj in H as <-. split; [done|]. apply sublist_nil. }
  apply bind_Ok in H as (h & Hh & H). apply bind_Ok in H as (hs & Hhs & H). apply Ok_inj in H as <-.
  destruct (IH hs Hhs) as [H1 H2]. destruct h as [h|]; [|split; [done|by apply sublist_cons]].
  unfold hit_candidate in Hh. destruct (as_tombstone s || _) eqn:E; [done|]. apply orb_false_iff in E as [_ Ew%negb_false_iff].
  destruct (object_for _ _ r) as [o|]; [|done]. destruct (dead o); [done|].
  apply bind_Ok in Hh as (score & _ & Hh). destruct (score =? 0); [done|].
  apply bind_Ok in Hh as (p & ->%pin_Ok & Hh). apply Ok_inj in Hh. injection Hh as <-. split.
  - constructor; [|done]. unfold valid_hit. cbn [ht_revision ht_pinned_uri pn_revision pn_uri].
    rewrite bool_decide_true, Ht by done. exact Ew.
  - cbn [fmap list_fmap]. by apply sublist_skip.
Qed.

Lemma search_valid ar query limit r hits :
  resolver_inv r → mem_search ar query limit r = Ok hits → valid_hits (ar_target ar) hits limit = true.
Proof.
  intros Hi H. unfold mem_search in H. apply bind_Ok in H as (u & _ & H).
  apply guard_Ok in H as [Eq H]. apply guard_Ok in H as [El H].
  apply orb_false_iff in Eq as [Eq%bool_decide_eq_false _]. apply orb_false_iff in El as [El%Nat.eqb_neq _].
  rewrite search_hits_sorted in H by done. apply bind_Ok in H as (hs & Hhs & H). apply Ok_inj in H as <-.
  unfold valid_hits. rewrite (proj2 (Nat.leb_le _ _) (firstn_le_length _ _)). unfold all_hits in Hhs.
  enough (Forall (λ h, valid_hit (ar_target ar) h = true) hs ∧ NoDup (ht_pinned_uri <$> hs)) as [H1 H2].
  { rewrite forallb_intro, has_duplicates_NoDup; [done|by apply NoDup_fmap_perm|by apply Forall_sorted]. }
  destruct (ru_revision (ar_target ar)) as [rev|] eqn:Er.
  - destruct (object_for _ rev r) as [o|]; [|apply Ok_inj in Hhs as <-; split; [done|apply NoDup_nil_2]].
    destruct (dead o); [apply Ok_inj in Hhs as <-; split; [done|apply NoDup_nil_2]|].
    apply bind_Ok in Hhs as (score & _ & Hhs). destruct (score =? 0); apply Ok_inj in Hhs as <-;
      [split; [done|apply NoDup_nil_2]|]. split; [|apply NoDup_singleton]. constructor; [|done].
    unfold valid_hit. cbn [ht_revision ht_pinned_uri pn_revision pn_uri].
    rewrite Er, same_name_refl. by rewrite !bool_decide_true.
  - destruct (candidates_valid _ _ _ _ _ Er Hhs) as [H1 H2]. split; [done|].
    apply (NoDup_pinned ht_pinned_uri (λ p, name_of (pn_uri p))). eapply sublist_NoDup; [|exact H2]. apply (ri_names r Hi).
Qed.

Lemma next_generation r t s :
  resolver_inv r → current_alias t r = Some s → as_generation s + 1 ≤ u64_max →
  expected_generation (Some s) = Some (as_generation s + 1).
Proof.
  intros Hi Hc Hg. pose proof (current_generation r t s Hi Hc). unfold expected_generation, generation_new.
  rewrite (proj2 (checked_add_Some u64_max _ 1 _) (conj eq_refl Hg)). cbn [mbind option_bind].
  destruct (Z.eqb_spec (as_generation s + 1) 0); [lia|done].
Qed.

Lemma swap_valid t expected next r s r' :
  resolver_inv r → cas_effect t expected next r s r' → valid_swap t expected next s = true.
Proof.
  unfold valid_swap.
  intros Hi [i current Hc Hix -> Ht Hg s'|Hc -> Hl s']; cbn [as_tombstone as_alias as_revision as_generation s' negb];
    rewrite same_name_refl, (bool_decide_true (next = next)) by done; cbn [andb].
  - rewrite (next_generation r t current) by done. by apply bool_decide_true.
  - by apply bool_decide_true.
Qed.

(** The tombstone's revision differs from the live one: that object exists and
    is not a tombstone. *)
Lemma tombstone_valid t expected r s r' :
  resolver_inv r → forget_effect t expected r s r' → valid_tombstone t expected s = true.
Proof.
  intros Hi He. assert (current_alias t r = Some expected ∧ as_tombstone expected = false ∧
    as_tombstone s = true ∧ as_alias s = t ∧ as_generation s = as_generation expected + 1 ∧
    as_generation expected + 1 ≤ u64_max ∧
    ∀ o, object_for t (as_revision s) r = Some o → so_tombstone o = true) as (Hc & Ht & H1 & H2 & H3 & Hg & H4).
  { destruct He as [i Hc Hix Ht Hg payload rev Hf Hl s'|i o Hc Hix Ht Hg payload rev Ho Hto Hrvf s'];
      (split_and!; [done..|]); cbn [as_revision s']; intros x Hx; congruence. }
  unfold valid_tombstone. rewrite H1, H2, H3, same_name_refl, (next_generation r t expected) by done.
  rewrite (bool_decide_true (Some _ = Some _)) by done. cbn [andb]. rewrite andb_true_r.
  apply negb_true_iff, bool_decide_eq_false. intros E.
  destruct (current_alias_index _ _ _ Hc) as (i & _ & Hl & Hn).
  destruct (Forall_lookup_1 _ _ _ _ (ri_heads r Hi) Hl) as (o & Ho & Hd). rewrite Ht in Hd.
  rewrite <-E, (object_for_congr _ t) in Ho by done. apply H4 in Ho. unfold dead in Hd. by rewrite Ho in Hd.
Qed.

(** A read-only method: the resolver stays, and only its answer matters. *)
Lemma answers_pure {A} (f : MemoryResolver → ContextResult A) (P : A → bool) :
  (∀ r a, resolver_inv r → f r = Ok a → P a = true) → answers resolver_inv (λ r, (f r, r)) P.
Proof. intros H r Hi. split; [done|]. intros a. by apply H. Qed.

Lemma resolved_answers ar op (check : ResolvedContext → StoredObject → ContextResult (ResolvedContext * list Z)) r rc rvf :
  resolver_inv r → (∀ rc o x, check rc o = Ok x → x = (rc, so_rvf o)) →
  (_ ← ensure_operation ar op; '(resolved, o) ← resolved_for (ar_target ar) r; check resolved o) = Ok (rc, rvf) →
  valid_container (ar_target ar) rc rvf = true.
Proof.
  intros Hi Hcheck H. apply bind_Ok in H as (u & _ & H). apply bind_Ok in H as ([rc' o] & Hr & H).
  apply Hcheck in H. injection H as -> ->. by apply (resolved_for_valid _ r).
Qed.

(** A mutation: its call preserves the invariant. *)
Lemma answers_call {A} (c : ResolverCall) (m : prog MemoryResolver ContextError A) (P : A → bool) :
  (∀ r, run_resolver_call c r = (m r).2) → (∀ r a, resolver_inv r → (m r).1 = Ok a → P a = true) →
  answers resolver_inv m P.
Proof.
  intros H1 H2 r Hi. pose proof (run_resolver_call_inv c r Hi) as Hi'. rewrite H1 in Hi'.
  specialize (H2 r). destruct (m r) as [x r']. split; [done|]. intros a ->. by apply H2.
Qed.

(** C22: The in-memory resolver refines the contract the runtime checks: under
    its invariant, which every method preserves, each successful answer passes
    the runtime's validation.  Exact answers carry the target's name, the pinned
    revision or a live alias at it, and the container's length; enumerations,
    histories and searches stay in scope and within the limit without
    duplicates; a compare-and-swap answers the successor snapshot and a forget
    a tombstone at a revision different from the one it replaces.  So the
    runtime never rejects it. *)
Theorem memory_resolver_honours : resolver_honours resolver_inv.
Proof.
  split; intros ar.
  - apply answers_pure. intros r rc Hi (u & _ & H)%bind_Ok. unfold fmap, result_fmap in H.
    destruct (resolved_for _ r) as [[rc' o]|] eqn:E; [|done]. injection H as ->.
    apply (resolved_for_valid _ r) in E as [E _]; [|done]. by apply andb_true_iff in E as [E _].
  - intros limit. apply answers_pure. intros r es Hi (u & _ & H)%bind_Ok. by eapply enumerate_valid.
  - intros limit. apply answers_pure. intros r es Hi (u & _ & H)%bind_Ok. by eapply enumerate_valid.
  - apply answers_pure. intros r [rc rvf] Hi H. eapply resolved_answers; [exact Hi| |exact H]. by intros ? ? x [= <-].
  - intros query limit. apply answers_pure. intros r hits. apply search_valid.
  - intros limit. apply answers_pure. intros r es. apply history_valid.
  - apply answers_pure. intros r [rc rvf] Hi H. eapply (resolved_answers ar OpVerify); [exact Hi| |exact H].
    intros ? ? x (_ & [= <-])%guard_Ok. done.
  - intros rvf. apply (answers_call (RcPut ar rvf)); [done|]. intros r rc Hi H. pose proof (put_spec ar rvf r) as Hp.
    cbn [rs_put memory_resolver] in H. destruct (mem_put ar rvf r) as [x r']. cbn [fst] in H. subst x.
    destruct Hp as (rev & Hrev & _ & Hlen & -> & _). unfold valid_container, valid_exact_result.
    rewrite integrity_intro by done. cbn [rc_pinned_uri pn_uri rc_revision rc_rvf_len andb].
    by rewrite same_name_refl, Hrev, bool_decide_true, Z.eqb_refl.
  - intros expected next. apply (answers_call (RcCas ar expected next)); [done|]. intros r s Hi H.
    pose proof (cas_spec ar expected next r) as Hp. cbn [rs_compare_and_swap_alias memory_resolver] in H.
    destruct (mem_compare_and_swap_alias ar expected next r) as [x r']. cbn [fst] in H. subst x.
    destruct Hp as (_ & _ & Hp). by eapply swap_valid.
  - intros expected. apply (answers_call (RcForget ar expected)); [done|]. intros r s Hi H.
    pose proof (forget_spec ar expected r) as Hp. cbn [rs_forget memory_resolver] in H.
    destruct (mem_forget ar expected r) as [x r']. cbn [fst] in H. subst x.
    destruct Hp as (_ & Hp). by eapply tombstone_valid.
  - apply answers_pure. intros r [rc rvf] Hi H. unfold mem_prepare_execute in H. destruct (negb (is_pinned _)).
    + by apply bind_Ok in H as (u & _ & H).
    + eapply (resolved_answers ar OpExecute); [exact Hi| |exact H]. by intros ? ? x [= <-].
Qed.
End memory.
