(* ===== verification/Wasm.v ===== *)
(** WebAssembly guests: agents, migration, quotas and host calls,
    [crates/rvm-wasm/src/agent.rs], [migration.rs], [quota.rs],
    [host_functions.rs].

    An agent registry is a bounded finite map from badges to agents whose
    lifecycle follows a state machine; a migration runs a fixed seven step
    protocol against a deadline; quotas bound what a partition may consume per
    epoch; host calls are guarded by capability rights. *)

From stdpp Require Import base numbers list option sets gmap.
From Stdlib Require Import ZArith Lia.
From S2P Require Import Prelude.
From S2P Require Import SlotMap.
From S2P Require Import Types.
From S2P Require Import WitnessLog.

Local Open Scope rvm_scope.

(* ------------------------------------------------------------------ *)
(** ** Agents ([agent.rs]) *)

(** [AgentId(u32)]; [from_badge] and [as_u32] are the wrapper's two ends. *)
Notation AgentId := Z (only parsing).

Inductive AgentState : Set :=
| AsInitializing | AsRunning | AsSuspended | AsMigrating | AsHibernated
| AsReconstructing | AsTerminated.

#[export] Instance AgentState_eq_dec : EqDecision AgentState.
Proof. solve_decision. Defined.

Record AgentConfig : Set := mkAgentConfig {
  ac_badge : Z;
  ac_partition_id : PartitionId;
  ac_max_memory_pages : Z;
}.

Record Agent : Set := mkAgent {
  ag_id : AgentId;
  ag_state : AgentState;
  ag_partition_id : PartitionId;
  ag_memory_usage : Z;
  ag_message_count : Z;
}.

Definition agent_new (id : AgentId) (partition_id : PartitionId) : Agent :=
  mkAgent id AsInitializing partition_id 0 0.

Definition set_agent_state (s : AgentState) (a : Agent) : Agent :=
  mkAgent (ag_id a) s (ag_partition_id a) (ag_memory_usage a) (ag_message_count a).

Record AgentManager : Set := mkAgentManager {
  am_agents : list (option Agent);
  am_count : nat;
}.

Definition agent_manager_new (MAX : nat) : AgentManager :=
  mkAgentManager (replicate MAX None) 0.

(** [agent.id == id && agent.state != Terminated], of an occupied slot. *)
Definition is_live_agent (id : AgentId) (slot : option Agent) : bool :=
  is_some_and (λ a, (ag_id a =? id) && negb (bool_decide (ag_state a = AsTerminated))) slot.

Definition agent_get (id : AgentId) (m : AgentManager) : option Agent :=
  default None (find_by (is_live_agent id) (am_agents m)).

(** The slot [get_mut] borrows, with the agent in it. *)
Definition agent_get_mut (id : AgentId) (m : AgentManager) : RvmResult (nat * Agent) :=
  match position (is_live_agent id) (am_agents m) with
  | Some i => match default None (am_agents m !! i) with
              | Some a => Ok (i, a)
              | None => Err PartitionNotFound
              end
  | None => Err PartitionNotFound
  end.

(** Write through the borrow. *)
Definition agent_put (i : nat) (a : Agent) (m : AgentManager) : AgentManager :=
  mkAgentManager (<[i := Some a]> (am_agents m)) (am_count m).

Section agents.
Context {CH : ChainHasher}.

Definition agent_record (action : ActionKind) (partition : PartitionId) (agent : AgentId)
    : WitnessRecord :=
  mkWitnessRecord 0 0 (action_code action) 1 0 0 partition agent 0 (replicate 8 0) 0 0
    (replicate 8 0) (replicate 4 0).

Definition emit_agent_witness (action : ActionKind) (partition : PartitionId) (agent : AgentId)
    (log : WitnessLog) : WitnessLog :=
  (log_append (agent_record action partition agent) log).2.

Definition agent_spawn (config : AgentConfig) : prog (AgentManager * WitnessLog) RvmError AgentId :=
  λ '(m, log),
    if (length (am_agents m) <=? am_count m)%nat then (Err ResourceLimitExceeded, (m, log))
    else
      let id := ac_badge config in
      if existsb (is_live_agent id) (am_agents m) then (Err InternalError, (m, log))
      else
        match position is_none (am_agents m) with
        | Some i =>
            (Ok id,
             (mkAgentManager (<[i := Some (agent_new id (ac_partition_id config))]> (am_agents m))
                (am_count m + 1),
              emit_agent_witness AkTaskSpawn (ac_partition_id config) id log))
        | None => (Err InternalError, (m, log))
        end.

Definition agent_activate (id : AgentId) : prog AgentManager RvmError unit := λ m,
  match agent_get_mut id m with
  | Err e => (Err e, m)
  | Ok (i, agent) =>
      match ag_state agent with
      | AsInitializing | AsReconstructing => (Ok tt, agent_put i (set_agent_state AsRunning agent) m)
      | _ => (Err InvalidPartitionState, m)
      end
  end.

Definition agent_suspend (id : AgentId) : prog (AgentManager * WitnessLog) RvmError unit := λ '(m, log),
  match agent_get_mut id m with
  | Err e => (Err e, (m, log))
  | Ok (i, agent) =>
      if negb (bool_decide (ag_state agent = AsRunning)) then (Err InvalidPartitionState, (m, log))
      else (Ok tt, (agent_put i (set_agent_state AsSuspended agent) m,
                    emit_agent_witness AkPartitionSuspend (ag_partition_id agent) id log))
  end.

Definition agent_resume (id : AgentId) : prog (AgentManager * WitnessLog) RvmError unit := λ '(m, log),
  match agent_get_mut id m with
  | Err e => (Err e, (m, log))
  | Ok (i, agent) =>
      if negb (bool_decide (ag_state agent = AsSuspended)) then (Err InvalidPartitionState, (m, log))
      else (Ok tt, (agent_put i (set_agent_state AsRunning agent) m,
                    emit_agent_witness AkPartitionResume (ag_partition_id agent) id log))
  end.

(** The loop of [terminate], its second test of the state included. *)
Definition agent_terminate (id : AgentId) : prog (AgentManager * WitnessLog) RvmError unit := λ '(m, log),
  match agent_get_mut id m with
  | Err e => (Err e, (m, log))
  | Ok (i, agent) =>
      if bool_decide (ag_state agent = AsTerminated) then (Err InvalidPartitionState, (m, log))
      else (Ok tt, (mkAgentManager (<[i := None]> (am_agents m)) (am_count m - 1),
                    emit_agent_witness AkTaskTerminate (ag_partition_id agent) id log))
  end.

(** One call on the registry. *)
Inductive AgentCall : Set :=
| CallSpawn (config : AgentConfig)
| CallActivate (id : AgentId)
| CallSuspend (id : AgentId)
| CallResume (id : AgentId)
| CallTerminate (id : AgentId).

Definition drop_value {S A} (r : RvmResult A * S) : RvmResult unit * S :=
  ((λ _, tt) <$> r.1, r.2).

Definition agent_call (c : AgentCall) (st : AgentManager * WitnessLog)
    : RvmResult unit * (AgentManager * WitnessLog) :=
  match c with
  | CallSpawn config => drop_value (agent_spawn config st)
  | CallActivate id => let '(r, m) := agent_activate id st.1 in (r, (m, st.2))
  | CallSuspend id => agent_suspend id st
  | CallResume id => agent_resume id st
  | CallTerminate id => agent_terminate id st
  end.

Fixpoint agent_calls (cs : list AgentCall) (st : AgentManager * WitnessLog)
    : list (RvmResult unit) * (AgentManager * WitnessLog) :=
  match cs with
  | [] => ([], st)
  | c :: cs =>
      let '(r, st) := agent_call c st in
      let '(rs, st) := agent_calls cs st in (r :: rs, st)
  end.

(* ------------------------------------------------------------------ *)
(** *** The registry as a bounded map *)

(** What the calls promise: a map from badges to agents of at most [MAX]
    entries, and the record each successful call leaves. *)
Definition spec_move (id : AgentId) (from : AgentState → bool) (to : AgentState)
    (k : Agent → option WitnessRecord) (s : gmap Z Agent)
    : RvmResult (gmap Z Agent * option WitnessRecord) :=
  match s !! id with
  | None => Err PartitionNotFound
  | Some a => if from (ag_state a) then Ok (<[id := set_agent_state to a]> s, k a)
              else Err InvalidPartitionState
  end.

Definition agent_spec (MAX : nat) (c : AgentCall) (s : gmap Z Agent)
    : RvmResult (gmap Z Agent * option WitnessRecord) :=
  match c with
  | CallSpawn config =>
      let id := ac_badge config in
      if (MAX <=? size s)%nat then Err ResourceLimitExceeded
      else if is_some (s !! id) then Err InternalError
      else Ok (<[id := agent_new id (ac_partition_id config)]> s,
               Some (agent_record AkTaskSpawn (ac_partition_id config) id))
  | CallActivate id =>
      spec_move id (λ st, bool_decide (st = AsInitializing)) AsRunning (λ _, None) s
  | CallSuspend id =>
      spec_move id (λ st, bool_decide (st = AsRunning)) AsSuspended
        (λ a, Some (agent_record AkPartitionSuspend (ag_partition_id a) id)) s
  | CallResume id =>
      spec_move id (λ st, bool_decide (st = AsSuspended)) AsRunning
        (λ a, Some (agent_record AkPartitionResume (ag_partition_id a) id)) s
  | CallTerminate id =>
      match s !! id with
      | None => Err PartitionNotFound
      | Some a => Ok (delete id s, Some (agent_record AkTaskTerminate (ag_partition_id a) id))
      end
  end.

Definition agent_key (slot : option Agent) : option Z := ag_id <$> slot.

(** The map the slots stand for. *)
Definition agents_of (m : AgentManager) : gmap Z Agent := omap id (view agent_key (am_agents m)).

Definition reachable_state (s : AgentState) : Prop :=
  s = AsInitializing ∨ s = AsRunning ∨ s = AsSuspended.

Record agent_inv (MAX : nat) (m : AgentManager) : Prop := {
  ai_len : length (am_agents m) = MAX;
  ai_slots : slots_ok agent_key (am_agents m);
  ai_count : am_count m = size (view agent_key (am_agents m));
  ai_state i a : am_agents m !! i = Some (Some a) → reachable_state (ag_state a);
}.

Lemma agent_manager_new_inv MAX :
  agent_inv MAX (agent_manager_new MAX) ∧ agents_of (agent_manager_new MAX) = ∅.
Proof.
  destruct (view_replicate agent_key MAX None eq_refl) as [Hok Hv].
  split; [|unfold agents_of; cbn; rewrite Hv; apply omap_empty].
  split; cbn; [apply length_replicate|done|by rewrite Hv|].
  by intros i a [? _]%lookup_replicate.
Qed.

Lemma agents_of_lookup MAX m id :
  agent_inv MAX m →
  match position (is_live_agent id) (am_agents m) with
  | Some i => ∃ a, am_agents m !! i = Some (Some a) ∧ ag_id a = id ∧ agents_of m !! id = Some a
  | None => agents_of m !! id = None ∧ view agent_key (am_agents m) !! id = None
  end.
Proof.
  intros [_ Hok _ Hst]. unfold agents_of. rewrite lookup_omap.
  destruct (position _ _) as [i|] eqn:E.
  - apply position_lookup in E as ([a|] & Hi & Ha); [|done].
    cbn in Ha. split_bool. exists a. split_and!; [done..|].
    erewrite view_lookup by (try done; cbn; by f_equal). done.
  - rewrite position_None in E. assert (view agent_key (am_agents m) !! id = None) as ->; [|done].
    apply view_None_iff. intros i [a|] Hi Hk; [|done]. injection Hk as Hk.
    specialize (E i _ Hi). cbn in E. rewrite Hk, Z.eqb_refl in E. cbn in E.
    apply negb_false_iff, bool_decide_eq_true in E. destruct (Hst i a Hi) as [|[|]]; congruence.
Qed.

Lemma agent_get_mut_spec MAX m id :
  agent_inv MAX m →
  match agent_get_mut id m with
  | Ok (i, a) => am_agents m !! i = Some (Some a) ∧ ag_id a = id ∧ agents_of m !! id = Some a
  | Err e => e = PartitionNotFound ∧ agents_of m !! id = None
  end.
Proof.
  intros Hinv. pose proof (agents_of_lookup MAX m id Hinv) as H. unfold agent_get_mut.
  destruct (position _ _) as [i|]; [|by destruct H].
  destruct H as (a & Hi & Hid & Ha). by rewrite Hi.
Qed.

Lemma agents_of_size m : size (view agent_key (am_agents m)) = size (agents_of m).
Proof.
  unfold agents_of. rewrite <-!(size_dom (D:=gset Z)). f_equal. apply set_eq. intros k.
  rewrite !elem_of_dom, lookup_omap. split.
  - intros [slot Hs]. rewrite Hs. apply view_elem in Hs as (i & Hi & Hk). destruct slot; [|done]. by eexists.
  - intros [a Ha]. destruct (view _ _ !! k); [by eexists|done].
Qed.

(** The scan for a taken badge is the lookup in the map. *)
Lemma agent_taken MAX m id :
  agent_inv MAX m →
  existsb (is_live_agent id) (am_agents m) = is_some (agents_of m !! id).
Proof.
  intros Hinv. pose proof (agents_of_lookup MAX m id Hinv) as H.
  destruct (position _ _) as [i|] eqn:E.
  - destruct H as (a & _ & _ & ->). apply position_lookup in E as (x & Hi & Hx).
    apply existsb_exists. exists x. split; [|done]. by eapply list_elem_of_In, list_elem_of_lookup_2.
  - destruct H as [-> _]. apply not_true_iff_false. intros (x & Hx & Hp)%existsb_exists.
    apply list_elem_of_In, list_elem_of_lookup in Hx as [i Hi].
    rewrite position_None in E. by rewrite (E i x Hi) in Hp.
Qed.

(** Writing an agent back under its own badge. *)
Lemma agent_put_inv MAX m i a b :
  agent_inv MAX m → am_agents m !! i = Some (Some a) → ag_id b = ag_id a →
  reachable_state (ag_state b) →
  agent_inv MAX (agent_put i b m) ∧ agents_of (agent_put i b m) = <[ag_id a := b]> (agents_of m).
Proof.
  intros [Hl Hok Hc Hst] Hi Hid Hb.
  destruct (view_update agent_key (am_agents m) i (Some a) (Some b) (ag_id a)) as [Hok' Hv];
    [done|done|done|cbn; by rewrite Hid|].
  split; [|unfold agents_of; cbn; by rewrite Hv, (omap_insert (M:=gmap Z))].
  split; cbn; [by rewrite length_insert|done| |].
  - rewrite Hv, map_size_insert_Some; [done|]. eexists. eapply view_lookup; [done|exact Hi|done].
  - intros j c [(<- & [= <-] & _)|(_ & Hj)]%list_lookup_insert_Some; [done|by eapply Hst].
Qed.

Lemma agent_fill_inv MAX m i a :
  agent_inv MAX m → am_agents m !! i = Some None → agents_of m !! ag_id a = None →
  reachable_state (ag_state a) →
  let m' := mkAgentManager (<[i := Some a]> (am_agents m)) (am_count m + 1) in
  agent_inv MAX m' ∧ agents_of m' = <[ag_id a := a]> (agents_of m).
Proof.
  intros Hinv Hi Hno Ha m'.
  assert (view agent_key (am_agents m) !! ag_id a = None) as Hno'.
  { pose proof (agents_of_lookup MAX m (ag_id a) Hinv) as H. destruct (position _ _); [|by destruct H].
    destruct H as (? & _ & _ & ?). congruence. }
  destruct Hinv as [Hl Hok Hc Hst].
  destruct (view_fill agent_key (am_agents m) i None (Some a) (ag_id a)) as [Hok' Hv]; [done..|].
  split; [|unfold agents_of; cbn; by rewrite Hv, (omap_insert (M:=gmap Z))].
  split; cbn; [by rewrite length_insert|done| |].
  - rewrite Hv, map_size_insert_None by done. lia.
  - intros j c [(<- & [= <-] & _)|(_ & Hj)]%list_lookup_insert_Some; [done|by eapply Hst].
Qed.

Lemma agent_clear_inv MAX m i a :
  agent_inv MAX m → am_agents m !! i = Some (Some a) →
  let m' := mkAgentManager (<[i := None]> (am_agents m)) (am_count m - 1) in
  agent_inv MAX m' ∧ agents_of m' = delete (ag_id a) (agents_of m).
Proof.
  intros [Hl Hok Hc Hst] Hi m'.
  destruct (view_clear agent_key (am_agents m) i (Some a) None (ag_id a)) as [Hok' Hv]; [done..|].
  split; [|unfold agents_of; cbn; by rewrite Hv, omap_delete].
  split; cbn; [by rewrite length_insert|done| |].
  - rewrite Hv, map_size_delete_Some by (eexists; eapply view_lookup; [done|exact Hi|done]). lia.
  - intros j c [(<- & [=] & _)|(_ & Hj)]%list_lookup_insert_Some. by eapply Hst.
Qed.

(** Every call is the specification's. *)
Lemma agent_call_refines MAX c m log :
  agent_inv MAX m →
  let '(r, (m', log')) := agent_call c (m, log) in
  agent_inv MAX m' ∧
  match agent_spec MAX c (agents_of m) with
  | Ok (s', rec) => r = Ok tt ∧ agents_of m' = s' ∧
      log' = match rec with Some w => (log_append w log).2 | None => log end
  | Err e => r = Err e ∧ m' = m ∧ log' = log
  end.
Proof.
  intros Hinv. destruct c as [config|id|id|id|id]; cbn;
    [|pose proof (agent_get_mut_spec MAX m id Hinv) as Hg;
      unfold agent_activate, agent_suspend, agent_resume, agent_terminate, spec_move;
      destruct (agent_get_mut id m) as [[i a]|e];
      [destruct Hg as (Hi & <- & ->); pose proof (ai_state _ _ Hinv i a Hi) as Hst
      |by destruct Hg as [-> ->]]..].
  - unfold drop_value, agent_spawn. rewrite (ai_len _ _ Hinv), (ai_count _ _ Hinv), agents_of_size.
    destruct (MAX <=? size (agents_of m))%nat eqn:Hfull; [done|]. split_bool.
    rewrite (agent_taken MAX) by done.
    destruct (is_some (agents_of m !! ac_badge config)) eqn:Ht; [done|].
    destruct (agents_of m !! ac_badge config) eqn:Hno; [done|].
    pose proof (find_free agent_key is_none (am_agents m) (ai_slots _ _ Hinv)
      ltac:(by intros [?|]; cbn)) as Hf.
    rewrite (ai_len _ _ Hinv), agents_of_size in Hf.
    destruct (position is_none (am_agents m)) as [i|]; [|lia].
    destruct Hf as [([a|] & Hi & Hk) _]; [done|]. cbn.
    destruct (agent_fill_inv MAX m i (agent_new (ac_badge config) (ac_partition_id config)))
      as [Hi1 Hi2]; [done..|by left|]. rewrite (ai_count _ _ Hinv), agents_of_size in Hi1, Hi2. done.
  - destruct (ag_state a) eqn:Es; cbn; try done; destruct Hst as [|[|]]; try done.
    destruct (agent_put_inv MAX m i a (set_agent_state AsRunning a)) as [? ?]; [done..|right; by left|]. done.
  - case_bool_decide; cbn; [|done].
    destruct (agent_put_inv MAX m i a (set_agent_state AsSuspended a)) as [? ?]; [done..|right; by right|]. done.
  - case_bool_decide; cbn; [|done].
    destruct (agent_put_inv MAX m i a (set_agent_state AsRunning a)) as [? ?]; [done..|right; by left|]. done.
  - rewrite bool_decide_false by (destruct Hst as [|[|]]; congruence).
    destruct (agent_clear_inv MAX m i a) as [? ?]; done.
Qed.

(** The specification over a list of calls, with the records it asks for. *)
Fixpoint agent_specs (MAX : nat) (cs : list AgentCall) (s : gmap Z Agent)
    : list (RvmResult unit) * gmap Z Agent * list WitnessRecord :=
  match cs with
  | [] => ([], s, [])
  | c :: cs =>
      match agent_spec MAX c s with
      | Ok (s', rec) =>
          let '(rs, s'', ws) := agent_specs MAX cs s' in
          (Ok tt :: rs, s'', match rec with Some w => w :: ws | None => ws end)
      | Err e => let '(rs, s'', ws) := agent_specs MAX cs s in (Err e :: rs, s'', ws)
      end
  end.

Definition append_records (ws : list WitnessRecord) (log : WitnessLog) : WitnessLog :=
  foldl (λ log w, (log_append w log).2) log ws.

(** C19: Over any sequence of calls on a new registry, the manager's slots
    behave as a map of at most [MAX] badges following the lifecycle of the
    specification: the same results, errors included, the same agents, and in
    the log exactly one record per successful call other than [activate]. *)
Theorem agent_registry_refines MAX cs log :
  let '(rs, (m, log')) := agent_calls cs (agent_manager_new MAX, log) in
  let '(rs', s, ws) := agent_specs MAX cs ∅ in
  rs = rs' ∧ agent_inv MAX m ∧ agents_of m = s ∧ log' = append_records ws log.
Proof.
  destruct (agent_manager_new_inv MAX) as [Hinv <-].
  generalize dependent (agent_manager_new MAX). intros m Hinv. revert m log Hinv.
  induction cs as [|c cs IH]; intros m log Hinv; cbn; [done|].
  pose proof (agent_call_refines MAX c m log Hinv) as H.
  destruct (agent_call c (m, log)) as [r [m' log']]. destruct H as [Hinv' H].
  specialize (IH m' log' Hinv'). destruct (agent_calls cs (m', log')) as [rs [m'' log'']].
  destruct (agent_spec MAX c (agents_of m)) as [[s' rec]|e].
  - destruct H as (-> & <- & Hlog). destruct (agent_specs MAX cs (agents_of m')) as [[rs' s] ws].
    destruct IH as (-> & ? & ? & ->). split_and!; [done..|]. rewrite Hlog. by destruct rec.
  - destruct H as (-> & -> & ->). destruct (agent_specs MAX cs (agents_of m)) as [[rs' s] ws].
    by destruct IH as (-> & ? & ? & ->).
Qed.
End agents.

(* ------------------------------------------------------------------ *)
(** ** Migration ([migration.rs]) *)

Record MigrationPlan : Set := mkMigrationPlan {
  mp_agent_id : AgentId;
  mp_source_partition : PartitionId;
  mp_dest_partition : PartitionId;
  mp_deadline_ns : Z;
}.

Inductive MigrationState : Set :=
| MsSerializing | MsPausingComms | MsTransferringRegions | MsUpdatingEdges | MsUpdatingGraph
| MsVerifying | MsResuming | MsComplete | MsAborted.

#[export] Instance MigrationState_eq_dec : EqDecision MigrationState.
Proof. solve_decision. Defined.

Definition migration_next (s : MigrationState) : option MigrationState :=
  match s with
  | MsSerializing => Some MsPausingComms
  | MsPausingComms => Some MsTransferringRegions
  | MsTransferringRegions => Some MsUpdatingEdges
  | MsUpdatingEdges => Some MsUpdatingGraph
  | MsUpdatingGraph => Some MsVerifying
  | MsVerifying => Some MsResuming
  | MsResuming => Some MsComplete
  | MsComplete | MsAborted => None
  end.

Definition migration_is_terminal (s : MigrationState) : bool :=
  match s with MsComplete | MsAborted => true | _ => false end.

Definition MIGRATION_TIMEOUT_NS : Z := 100000000.

Record MigrationTracker : Set := mkMigrationTracker {
  mt_plan : MigrationPlan;
  mt_state : MigrationState;
  mt_start_ns : Z;
  mt_bytes_transferred : Z;
}.

Definition set_migration_state (s : MigrationState) (t : MigrationTracker) : MigrationTracker :=
  mkMigrationTracker (mt_plan t) s (mt_start_ns t) (mt_bytes_transferred t).

Definition migration_begin (plan : MigrationPlan) (now_ns : Z) : RvmResult MigrationTracker :=
  if mp_source_partition plan =? mp_dest_partition plan then Err InvalidPartitionState
  else Ok (mkMigrationTracker plan MsSerializing now_ns 0).

Definition migration_is_complete (t : MigrationTracker) : bool :=
  match mt_state t with MsComplete => true | _ => false end.
Definition migration_is_aborted (t : MigrationTracker) : bool :=
  match mt_state t with MsAborted => true | _ => false end.

Section migration.
Context {CH : ChainHasher}.

(** The payload holds the two partitions, four bytes each. *)
Definition migration_record (action : ActionKind) (plan : MigrationPlan) : WitnessRecord :=
  mkWitnessRecord 0 0 (action_code action) 2 0 0 (mp_source_partition plan) (mp_agent_id plan) 0
    (le_bytes 4 (mp_source_partition plan) ++ le_bytes 4 (mp_dest_partition plan)) 0 0
    (replicate 8 0) (replicate 4 0).

Definition emit_migration_witness (action : ActionKind) (plan : MigrationPlan) (log : WitnessLog)
    : WitnessLog := (log_append (migration_record action plan) log).2.

Definition migration_advance (current_ns : Z)
    : prog (MigrationTracker * WitnessLog) RvmError MigrationState := λ '(t, log),
  if migration_is_terminal (mt_state t) then (Err InvalidPartitionState, (t, log))
  else
    let elapsed := sat_sub current_ns (mt_start_ns t) in
    if mp_deadline_ns (mt_plan t) <? elapsed then
      (Err MigrationTimeout,
       (set_migration_state MsAborted t, emit_migration_witness AkMigrationTimeout (mt_plan t) log))
    else
      match migration_next (mt_state t) with
      | Some next_state =>
          (Ok next_state,
           (set_migration_state next_state t,
            if bool_decide (next_state = MsComplete)
            then emit_migration_witness AkPartitionMigrate (mt_plan t) log else log))
      | None => (Err InvalidPartitionState, (t, log))
      end.

Definition migration_abort (st : MigrationTracker * WitnessLog) : MigrationTracker * WitnessLog :=
  let '(t, log) := st in
  if negb (migration_is_terminal (mt_state t)) then
    (set_migration_state MsAborted t, emit_migration_witness AkMigrationTimeout (mt_plan t) log)
  else (t, log).

(** Calls on a tracker: an advance at some time, or an abort. *)
Inductive MigrationCall : Set :=
| MAdvance (current_ns : Z)
| MAbort.

Definition migration_call (c : MigrationCall) (st : MigrationTracker * WitnessLog)
    : MigrationTracker * WitnessLog :=
  match c with
  | MAdvance now => (migration_advance now st).2
  | MAbort => migration_abort st
  end.

Definition migration_calls (cs : list MigrationCall) (st : MigrationTracker * WitnessLog)
    : MigrationTracker * WitnessLog := foldl (λ st c, migration_call c st) st cs.

(** The protocol's states, by the number of steps still to take. *)
Definition migration_phase (left : nat) : MigrationState :=
  match left with
  | 7 => MsSerializing | 6 => MsPausingComms | 5 => MsTransferringRegions | 4 => MsUpdatingEdges
  | 3 => MsUpdatingGraph | 2 => MsVerifying | 1 => MsResuming | _ => MsComplete
  end%nat.

Definition on_time (plan : MigrationPlan) (start now : Z) : Prop := now - start ≤ mp_deadline_ns plan.

(** A call that ends the protocol early. *)
Definition gives_up (plan : MigrationPlan) (start : Z) (c : MigrationCall) : Prop :=
  match c with MAdvance now => mp_deadline_ns plan < now - start | MAbort => True end.

Lemma migration_over cs t log :
  migration_is_terminal (mt_state t) = true → migration_calls cs (t, log) = (t, log).
Proof.
  intros Ht. induction cs as [|c cs IH]; [done|]. unfold migration_calls in *. cbn.
  destruct c; cbn; by rewrite Ht.
Qed.

Lemma migration_phase_step left :
  (1 ≤ left ≤ 7)%nat →
  migration_is_terminal (migration_phase left) = false ∧
  migration_next (migration_phase left) = Some (migration_phase (left - 1)) ∧
  (migration_phase (left - 1) = MsComplete ↔ left = 1%nat).
Proof.
  intros H. assert (left = 1 ∨ left = 2 ∨ left = 3 ∨ left = 4 ∨ left = 5 ∨ left = 6 ∨ left = 7)%nat
    as Hc by lia. by destruct Hc as [->|[->|[->|[->|[->|[->| ->]]]]]].
Qed.

(** What [left] remaining steps and a sequence of calls come to. *)
Definition migration_outcome (plan : MigrationPlan) (start : Z) (left : nat)
    (cs : list MigrationCall) (log : WitnessLog) (s : MigrationState) (log' : WitnessLog) : Prop :=
  ∃ ts rest, cs = (MAdvance <$> ts) ++ rest ∧ Forall (on_time plan start) ts ∧
    ((length ts = left ∧ s = MsComplete ∧ log' = emit_migration_witness AkPartitionMigrate plan log) ∨
     ((length ts < left)%nat ∧ s = MsAborted ∧ log' = emit_migration_witness AkMigrationTimeout plan log ∧
        ∃ c rest', rest = c :: rest' ∧ gives_up plan start c) ∨
     ((length ts < left)%nat ∧ s = migration_phase (left - length ts) ∧ log' = log ∧ rest = [])).

Lemma migration_runs plan start left cs log b :
  (1 ≤ left ≤ 7)%nat → 0 ≤ mp_deadline_ns plan →
  let '(t', log') := migration_calls cs (mkMigrationTracker plan (migration_phase left) start b, log) in
  mt_plan t' = plan ∧ mt_start_ns t' = start ∧
  migration_outcome plan start left cs log (mt_state t') log'.
Proof.
  intros Hleft Hd. revert left Hleft. induction cs as [|c cs IH]; intros left Hleft.
  { cbn. split_and!; [done..|]. exists [], []. split_and!; [done|constructor|].
    right; right. rewrite Nat.sub_0_r. cbn. split_and!; [lia|done..]. }
  destruct (migration_phase_step left Hleft) as (Ht & Hn & Hc).
  change (migration_calls (c :: cs) ?st) with (migration_calls cs (migration_call c st)).
  assert (gives_up plan start c → migration_outcome plan start left (c :: cs) log MsAborted
    (emit_migration_witness AkMigrationTimeout plan log)) as Hgive.
  { intros Hg. exists [], (c :: cs). split_and!; [done|constructor|]. right; left.
    cbn. split_and!; [lia|done..|]. by exists c, cs. }
  destruct c as [now|]; cbn [migration_call migration_advance migration_abort mt_state mt_plan mt_start_ns].
  - rewrite Ht. unfold sat_sub. destruct (_ <? _) eqn:El; split_bool; cbn [snd].
    { rewrite migration_over by done. cbn. split_and!; [done..|]. apply Hgive. cbn. lia. }
    rewrite Hn. cbn [snd set_migration_state mt_plan mt_start_ns mt_state mt_bytes_transferred].
    assert (on_time plan start now) as Hon by (unfold on_time; lia).
    case_bool_decide as Hcomp.
    + rewrite migration_over by by (cbn; rewrite Hcomp).
      cbn. split_and!; [done..|]. exists [now], cs. split_and!; [done|by repeat constructor|].
      left. rewrite Hcomp. cbn. apply Hc in Hcomp. done.
    + assert (left ≠ 1%nat) as H1 by (intros E; apply Hcomp; by apply Hc).
      specialize (IH (left - 1)%nat ltac:(lia)).
      destruct (migration_calls cs _) as [t' log']. destruct IH as (? & ? & ts & rest & -> & Hts & Ho).
      split_and!; [done..|]. exists (now :: ts), rest.
      split_and!; [done|by constructor|]. cbn [length].
      destruct Ho as [(?&?&?)|[(?&?&?&?)|(?&Hs&?&?)]].
      * left. split_and!; [lia|done..].
      * right; left. split_and!; [lia|done..].
      * right; right. split_and!; [lia| |done..]. rewrite Hs. f_equal. lia.
  - rewrite Ht. cbn [negb]. rewrite migration_over by done. cbn. split_and!; [done..|]. by apply Hgive.
Qed.

(** A migration that began follows its seven step protocol whatever calls
    are made: it is complete exactly after seven on-time advances, aborted by
    the first late advance or abort call before that, and otherwise waiting
    after fewer than seven on-time advances; a terminal state has left exactly
    one record in the log, a waiting one none. *)
Theorem migration_protocol plan now t cs log :
  migration_begin plan now = Ok t → 0 ≤ mp_deadline_ns plan →
  let '(t', log') := migration_calls cs (t, log) in
  mp_source_partition (mt_plan t') ≠ mp_dest_partition (mt_plan t') ∧
  migration_outcome plan now 7 cs log (mt_state t') log'.
Proof.
  unfold migration_begin. destruct (_ =? _) eqn:E; [done|]. intros [= <-] Hd. split_bool.
  pose proof (migration_runs plan now 7 cs log 0 ltac:(lia) Hd) as H.
  cbn [migration_phase] in H. destruct (migration_calls _ _) as [t' log'].
  by destruct H as (-> & _ & ?).
Qed.

(** C39: A migration terminates: after any seven calls, at any times, the
    tracker is complete or aborted, and no later call changes it or the log. *)
Theorem migration_terminates plan now t cs log :
  migration_begin plan now = Ok t → 0 ≤ mp_deadline_ns plan → (7 ≤ length cs)%nat →
  let '(t', log') := migration_calls cs (t, log) in
  migration_is_terminal (mt_state t') = true ∧
  ∀ more, migration_calls (cs ++ more) (t, log) = (t', log').
Proof.
  unfold migration_begin. destruct (_ =? _); [done|]. intros [= <-] Hd Hlen.
  pose proof (migration_runs plan now 7 cs log 0 ltac:(lia) Hd) as H. cbn [migration_phase] in H.
  destruct (migration_calls cs _) as [t' log'] eqn:Erun.
  assert (migration_is_terminal (mt_state t') = true) as Hterm.
  { destruct H as (_ & _ & ts & rest & -> & _ & [(_ & -> & _)|[(_ & -> & _)|(Hl & _ & _ & ->)]]); [done..|].
    rewrite app_nil_r, length_fmap in Hlen. lia. }
  split; [done|]. intros more. unfold migration_calls in *. rewrite foldl_app, Erun.
  by apply migration_over.
Qed.
End migration.

(* ------------------------------------------------------------------ *)
(** ** Quotas ([quota.rs]) *)

Record PartitionQuota : Set := mkPartitionQuota {
  pq_max_cpu_us_per_epoch : Z;
  pq_max_memory_pages : Z;
  pq_max_ipc_per_epoch : Z;
  pq_max_agents : Z;
}.

Definition PARTITION_QUOTA_DEFAULT : PartitionQuota := mkPartitionQuota 10000 256 1024 32.

Inductive ResourceKind : Set := RkCpu | RkMemory | RkIpc | RkAgents.

Record ResourceUsage : Set := mkResourceUsage {
  ru_cpu_us : Z;
  ru_memory_pages : Z;
  ru_ipc_count : Z;
  ru_agent_count : Z;
}.

Definition RESOURCE_USAGE_DEFAULT : ResourceUsage := mkResourceUsage 0 0 0 0.

Definition set_ru_cpu (v : Z) (u : ResourceUsage) : ResourceUsage :=
  mkResourceUsage v (ru_memory_pages u) (ru_ipc_count u) (ru_agent_count u).
Definition set_ru_memory (v : Z) (u : ResourceUsage) : ResourceUsage :=
  mkResourceUsage (ru_cpu_us u) v (ru_ipc_count u) (ru_agent_count u).
Definition set_ru_ipc (v : Z) (u : ResourceUsage) : ResourceUsage :=
  mkResourceUsage (ru_cpu_us u) (ru_memory_pages u) v (ru_agent_count u).
Definition set_ru_agents (v : Z) (u : ResourceUsage) : ResourceUsage :=
  mkResourceUsage (ru_cpu_us u) (ru_memory_pages u) (ru_ipc_count u) v.

(** The triple [(PartitionId, PartitionQuota, ResourceUsage)] of a slot. *)
Record QuotaEntry : Set := mkQuotaEntry {
  qe_partition : PartitionId;
  qe_quota : PartitionQuota;
  qe_usage : ResourceUsage;
}.

Record QuotaTracker : Set := mkQuotaTracker {
  qt_quotas : list (option QuotaEntry);
  qt_count : nat;
}.

Definition quota_tracker_new (MAX : nat) : QuotaTracker := mkQuotaTracker (replicate MAX None) 0.

Definition is_quota_of (partition : PartitionId) (slot : option QuotaEntry) : bool :=
  is_some_and (λ e, qe_partition e =? partition) slot.

Definition quota_find (partition : PartitionId) (q : QuotaTracker) : RvmResult QuotaEntry :=
  ok_or (default None (find_by (is_quota_of partition) (qt_quotas q))) PartitionNotFound.

(** The slot [find_mut] borrows, with its entry. *)
Definition quota_find_mut (partition : PartitionId) (q : QuotaTracker) : RvmResult (nat * QuotaEntry) :=
  match position (is_quota_of partition) (qt_quotas q) with
  | Some i => match default None (qt_quotas q !! i) with
              | Some e => Ok (i, e)
              | None => Err PartitionNotFound
              end
  | None => Err PartitionNotFound
  end.

(** Write a new usage through the borrow. *)
Definition quota_put (i : nat) (e : QuotaEntry) (u : ResourceUsage) (q : QuotaTracker) : QuotaTracker :=
  mkQuotaTracker (<[i := Some (mkQuotaEntry (qe_partition e) (qe_quota e) u)]> (qt_quotas q)) (qt_count q).

Definition quota_register (partition : PartitionId) (quota : PartitionQuota)
    : prog QuotaTracker RvmError unit := λ q,
  if existsb (is_quota_of partition) (qt_quotas q) then (Err InvalidPartitionState, q)
  else if (length (qt_quotas q) <=? qt_count q)%nat then (Err ResourceLimitExceeded, q)
  else
    match position is_none (qt_quotas q) with
    | Some i =>
        (Ok tt, mkQuotaTracker (<[i := Some (mkQuotaEntry partition quota RESOURCE_USAGE_DEFAULT)]> (qt_quotas q))
                  (qt_count q + 1))
    | None => (Err InternalError, q)
    end.

(** The deprecated pair: a check, its sums in [u64], and an unchecked record
    that truncates the amount to the counter's width. *)
Definition check_quota (partition : PartitionId) (resource : ResourceKind) (amount : Z)
    (q : QuotaTracker) : RvmResult unit :=
  match quota_find partition q with
  | Err e => Err e
  | Ok (mkQuotaEntry _ quota usage) =>
      let within_budget :=
        match resource with
        | RkCpu => wrap64 (ru_cpu_us usage + amount) <=? pq_max_cpu_us_per_epoch quota
        | RkMemory => wrap64 (ru_memory_pages usage + amount) <=? pq_max_memory_pages quota
        | RkIpc => wrap64 (ru_ipc_count usage + amount) <=? pq_max_ipc_per_epoch quota
        | RkAgents => wrap64 (ru_agent_count usage + amount) <=? pq_max_agents quota
        end in
      if within_budget then Ok tt else Err ResourceLimitExceeded
  end.

Definition record_usage (partition : PartitionId) (resource : ResourceKind) (amount : Z)
    : prog QuotaTracker RvmError unit := λ q,
  match quota_find_mut partition q with
  | Err e => (Err e, q)
  | Ok (i, e) =>
      let u := qe_usage e in
      (Ok tt, quota_put i e
        match resource with
        | RkCpu => set_ru_cpu (sat_add u64_max (ru_cpu_us u) amount) u
        | RkMemory => set_ru_memory (sat_add u32_max (ru_memory_pages u) (wrap32 amount)) u
        | RkIpc => set_ru_ipc (sat_add u32_max (ru_ipc_count u) (wrap32 amount)) u
        | RkAgents => set_ru_agents (sat_add u16_max (ru_agent_count u) (wrap16 amount)) u
        end q)
  end.

(** [usage.cpu_us + us] is a plain [u64] sum, which wraps in a release build. *)
Definition check_and_record_cpu (partition : PartitionId) (us : Z) : prog QuotaTracker RvmError unit := λ q,
  match quota_find_mut partition q with
  | Err e => (Err e, q)
  | Ok (i, e) =>
      let u := qe_usage e in
      if pq_max_cpu_us_per_epoch (qe_quota e) <? wrap64 (ru_cpu_us u + us) then (Err ResourceLimitExceeded, q)
      else (Ok tt, quota_put i e (set_ru_cpu (sat_add u64_max (ru_cpu_us u) us) u) q)
  end.

Definition check_and_record_memory (partition : PartitionId) (pages : Z) : prog QuotaTracker RvmError unit := λ q,
  match quota_find_mut partition q with
  | Err e => (Err e, q)
  | Ok (i, e) =>
      let u := qe_usage e in
      if pq_max_memory_pages (qe_quota e) <? wrap64 (ru_memory_pages u + pages) then (Err ResourceLimitExceeded, q)
      else (Ok tt, quota_put i e (set_ru_memory (sat_add u32_max (ru_memory_pages u) pages) u) q)
  end.

Definition check_and_record_ipc (partition : PartitionId) : prog QuotaTracker RvmError unit := λ q,
  match quota_find_mut partition q with
  | Err e => (Err e, q)
  | Ok (i, e) =>
      let u := qe_usage e in
      if pq_max_ipc_per_epoch (qe_quota e) <? wrap64 (ru_ipc_count u + 1) then (Err ResourceLimitExceeded, q)
      else (Ok tt, quota_put i e (set_ru_ipc (sat_add u32_max (ru_ipc_count u) 1) u) q)
  end.

(** Some resource is over its quota. *)
Definition over_budget (quota : PartitionQuota) (usage : ResourceUsage) : bool :=
  (pq_max_cpu_us_per_epoch quota <? ru_cpu_us usage)
  || (pq_max_memory_pages quota <? ru_memory_pages usage)
  || (pq_max_ipc_per_epoch quota <? ru_ipc_count usage)
  || (pq_max_agents quota <? ru_agent_count usage).

Definition enforce_quota (partition : PartitionId) (q : QuotaTracker) : RvmResult bool :=
  match quota_find partition q with
  | Err e => Err e
  | Ok (mkQuotaEntry _ quota usage) => Ok (over_budget quota usage)
  end.

Definition reset_quota_entry (e : QuotaEntry) : QuotaEntry :=
  mkQuotaEntry (qe_partition e) (qe_quota e) (set_ru_ipc 0 (set_ru_cpu 0 (qe_usage e))).

Definition reset_epoch_counters (q : QuotaTracker) : QuotaTracker :=
  mkQuotaTracker ((λ slot : option QuotaEntry, reset_quota_entry <$> slot) <$> qt_quotas q) (qt_count q).

Definition tracker_usage (partition : PartitionId) (q : QuotaTracker) : RvmResult ResourceUsage :=
  qe_usage <$> quota_find partition q.

(** The calls of the supported interface. *)
Inductive QuotaCall : Set :=
| QcRegister (partition : PartitionId) (quota : PartitionQuota)
| QcCpu (partition : PartitionId) (us : Z)
| QcMemory (partition : PartitionId) (pages : Z)
| QcIpc (partition : PartitionId)
| QcReset.

Definition quota_call (c : QuotaCall) (q : QuotaTracker) : RvmResult unit * QuotaTracker :=
  match c with
  | QcRegister p quota => quota_register p quota q
  | QcCpu p us => check_and_record_cpu p us q
  | QcMemory p pages => check_and_record_memory p pages q
  | QcIpc p => check_and_record_ipc p q
  | QcReset => (Ok tt, reset_epoch_counters q)
  end.

Fixpoint quota_calls (cs : list QuotaCall) (q : QuotaTracker) : list (RvmResult unit) * QuotaTracker :=
  match cs with
  | [] => ([], q)
  | c :: cs =>
      let '(r, q) := quota_call c q in
      let '(rs, q) := quota_calls cs q in (r :: rs, q)
  end.

(* ------------------------------------------------------------------ *)
(** *** Accounts *)

Definition quota_key (slot : option QuotaEntry) : option Z := qe_partition <$> slot.

Definition within (quota : PartitionQuota) (u : ResourceUsage) : Prop :=
  0 ≤ ru_cpu_us u ≤ pq_max_cpu_us_per_epoch quota ∧
  0 ≤ ru_memory_pages u ≤ pq_max_memory_pages quota ∧
  0 ≤ ru_ipc_count u ≤ pq_max_ipc_per_epoch quota ∧
  ru_agent_count u = 0.

Definition quota_ok (C : Z) (quota : PartitionQuota) : Prop :=
  0 ≤ pq_max_cpu_us_per_epoch quota ≤ C ∧ is_u32 (pq_max_memory_pages quota) ∧
  is_u32 (pq_max_ipc_per_epoch quota) ∧ is_u16 (pq_max_agents quota).

(** Arguments of their types, and processor charges that cannot overflow the
    sum with a budget of at most [C]. *)
Definition quota_call_ok (C : Z) (c : QuotaCall) : Prop :=
  match c with
  | QcRegister _ quota => quota_ok C quota
  | QcCpu _ us => 0 ≤ us ≤ u64_max - C
  | QcMemory _ pages => is_u32 pages
  | QcIpc _ | QcReset => True
  end.

Record quota_inv (C : Z) (q : QuotaTracker) : Prop := {
  qi_slots : slots_ok quota_key (qt_quotas q);
  qi_count : qt_count q = size (view quota_key (qt_quotas q));
  qi_entry i e : qt_quotas q !! i = Some (Some e) → quota_ok C (qe_quota e) ∧ within (qe_quota e) (qe_usage e);
}.

(** The abstract ledger: what the accepted calls on partition [p] since its
    registration add up to, processor time and messages per epoch. *)
Definition quota_ledger_step (p : PartitionId) (acc : option ResourceUsage) (cr : QuotaCall * RvmResult unit)
    : option ResourceUsage :=
  match cr with
  | (QcRegister p' _, Ok _) => if p' =? p then Some RESOURCE_USAGE_DEFAULT else acc
  | (QcCpu p' us, Ok _) => if p' =? p then (λ u, set_ru_cpu (ru_cpu_us u + us) u) <$> acc else acc
  | (QcMemory p' pages, Ok _) => if p' =? p then (λ u, set_ru_memory (ru_memory_pages u + pages) u) <$> acc else acc
  | (QcIpc p', Ok _) => if p' =? p then (λ u, set_ru_ipc (ru_ipc_count u + 1) u) <$> acc else acc
  | (QcReset, _) => (λ u, set_ru_ipc 0 (set_ru_cpu 0 u)) <$> acc
  | (_, Err _) => acc
  end.

Definition ledger (p : PartitionId) (acc : option ResourceUsage) (cs : list QuotaCall)
    (rs : list (RvmResult unit)) : option ResourceUsage :=
  foldl (quota_ledger_step p) acc (zip cs rs).

Lemma quota_tracker_new_inv C MAX : quota_inv C (quota_tracker_new MAX).
Proof.
  destruct (view_replicate quota_key MAX None eq_refl) as [Hok Hv].
  split; cbn; [done|by rewrite Hv|]. by intros i e [? _]%lookup_replicate.
Qed.

Lemma is_quota_of_key p slot : is_quota_of p slot = true ↔ quota_key slot = Some p.
Proof.
  destruct slot; cbn; [|done]. rewrite Z.eqb_eq. split; [by intros ->|by intros [= ->]].
Qed.

Lemma quota_find_mut_spec C q p :
  quota_inv C q →
  match quota_find_mut p q with
  | Ok (i, e) => qt_quotas q !! i = Some (Some e) ∧ qe_partition e = p ∧
                 quota_find p q = Ok e ∧ view quota_key (qt_quotas q) !! p = Some (Some e)
  | Err er => er = PartitionNotFound ∧ quota_find p q = Err PartitionNotFound ∧
              view quota_key (qt_quotas q) !! p = None
  end.
Proof.
  intros [Hok _ _]. pose proof (find_key quota_key (is_quota_of p) (qt_quotas q) p Hok (is_quota_of_key p)) as H.
  unfold quota_find_mut, quota_find. rewrite find_by_position. destruct (position _ _) as [i|]; [|done].
  destruct H as ([e|] & Hi & Hk & Hv); [|done]. injection Hk as Hk. cbn. rewrite Hi. cbn. done.
Qed.

Lemma quota_usage_view C q p :
  quota_inv C q →
  tracker_usage p q = match view quota_key (qt_quotas q) !! p with
                    | Some (Some e) => Ok (qe_usage e)
                    | _ => Err PartitionNotFound
                    end.
Proof.
  intros Hi. pose proof (quota_find_mut_spec C q p Hi) as H. unfold tracker_usage.
  destruct (quota_find_mut p q) as [[i e]|er].
  - by destruct H as (_ & _ & -> & ->).
  - by destruct H as (_ & -> & ->).
Qed.

(** Writing a usage within its quota changes that account and no other. *)
Lemma quota_put_spec C q i e u p' :
  quota_inv C q → qt_quotas q !! i = Some (Some e) → within (qe_quota e) u →
  quota_inv C (quota_put i e u q) ∧
  tracker_usage p' (quota_put i e u q) = if qe_partition e =? p' then Ok u else tracker_usage p' q.
Proof.
  intros Hinv Hi Hu. pose proof Hinv as [Hok Hc He].
  destruct (view_update quota_key (qt_quotas q) i (Some e) (Some (mkQuotaEntry (qe_partition e) (qe_quota e) u))
    (qe_partition e)) as [Hok' Hv]; [done..|].
  assert (quota_inv C (quota_put i e u q)) as Hinv'.
  { split; cbn; [done| |].
    - rewrite Hv, map_size_insert_Some; [done|]. eexists. eapply view_lookup; [done|exact Hi|done].
    - intros j e' [(<- & [= <-] & _)|(_ & Hj)]%list_lookup_insert_Some; [|by eapply He].
      cbn. split; [|done]. by apply (He i e). }
  split; [done|]. rewrite !(quota_usage_view C) by done. cbn [quota_put qt_quotas]. rewrite Hv.
  destruct (qe_partition e =? p') eqn:E; split_bool.
  - subst p'. by rewrite lookup_insert_eq.
  - by rewrite lookup_insert_ne.
Qed.

Lemma quota_register_spec C q p quota p' :
  quota_inv C q → quota_ok C quota →
  let '(r, q') := quota_register p quota q in
  quota_inv C q' ∧
  match r with
  | Ok _ => tracker_usage p' q' = if p =? p' then Ok RESOURCE_USAGE_DEFAULT else tracker_usage p' q
  | Err _ => q' = q
  end.
Proof.
  intros Hinv Hq. unfold quota_register.
  destruct (existsb _ _) eqn:Ex; [done|]. destruct (_ <=? _)%nat; [done|].
  pose proof Hinv as [Hok Hc He].
  destruct (position is_none (qt_quotas q)) as [i|] eqn:Ef; [|done].
  apply position_lookup in Ef as ([|] & Hi & ?); [done|].
  assert (view quota_key (qt_quotas q) !! p = None) as Hno.
  { apply view_None_iff. intros j s Hj Hk. apply is_quota_of_key in Hk.
    apply not_true_iff_false in Ex. apply Ex, existsb_exists. exists s. split; [|done].
    by eapply list_elem_of_In, list_elem_of_lookup_2. }
  destruct (view_fill quota_key (qt_quotas q) i None (Some (mkQuotaEntry p quota RESOURCE_USAGE_DEFAULT)) p)
    as [Hok' Hv]; [done..|].
  match goal with |- quota_inv _ ?q' ∧ _ => assert (quota_inv C q') as Hinv' end.
  { split; cbn; [done| |].
    - rewrite Hv, map_size_insert_None by done. lia.
    - intros j e' [(<- & [= <-] & _)|(_ & Hj)]%list_lookup_insert_Some; [|by eapply He].
      cbn. unfold quota_ok, within, is_u32, is_u16 in *. cbn. lia. }
  split; [done|]. rewrite !(quota_usage_view C) by done. cbn [qt_quotas]. rewrite Hv.
  destruct (p =? p') eqn:E; split_bool.
  - subst p'. by rewrite lookup_insert_eq.
  - by rewrite lookup_insert_ne.
Qed.

Lemma quota_reset_spec C q p' :
  quota_inv C q →
  quota_inv C (reset_epoch_counters q) ∧
  tracker_usage p' (reset_epoch_counters q) = (λ u, set_ru_ipc 0 (set_ru_cpu 0 u)) <$> tracker_usage p' q.
Proof.
  intros Hinv. pose proof Hinv as [Hok Hc He].
  set (f := λ slot : option QuotaEntry, reset_quota_entry <$> slot).
  assert (∀ s, quota_key (f s) = quota_key s) as Hf by by intros [|].
  assert (quota_inv C (reset_epoch_counters q)) as Hinv'.
  { split; cbn.
    - by apply (slots_ok_fmap quota_key f).
    - rewrite (view_fmap quota_key f _ Hf), map_size_fmap. done.
    - intros i e Hi. apply list_lookup_fmap_Some in Hi as ([e'|] & Heq & Hi); [|done].
      injection Heq as ->. destruct (He i e' Hi) as [? (? & ? & ? & ?)]. split; [done|].
      unfold quota_ok, within, is_u32 in *. cbn. lia. }
  split; [done|]. rewrite !(quota_usage_view C) by done. cbn [reset_epoch_counters qt_quotas].
  change (λ slot : option QuotaEntry, reset_quota_entry <$> slot) with f.
  rewrite (view_fmap quota_key f _ Hf), lookup_fmap. by destruct (view _ _ !! p') as [[e|]|].
Qed.

(** The ledger of one call agrees with the tracker. *)
Definition account (p : PartitionId) (q : QuotaTracker) : option ResourceUsage :=
  match tracker_usage p q with Ok u => Some u | Err _ => None end.

(** A charge within the quota, written through the borrow. *)
Lemma quota_charge_spec C q i e p p' u :
  quota_inv C q → qt_quotas q !! i = Some (Some e) → qe_partition e = p → quota_find p q = Ok e →
  within (qe_quota e) u →
  quota_inv C (quota_put i e u q) ∧
  account p' (quota_put i e u q) = if p =? p' then (λ _, u) <$> account p' q else account p' q.
Proof.
  intros Hinv Hi <- Hf Hu. destruct (quota_put_spec C q i e u p' Hinv Hi Hu) as [Hinv' Hus].
  split; [done|]. unfold account. rewrite Hus. destruct (_ =? p') eqn:E; [|done]. split_bool. subst p'.
  unfold tracker_usage. by rewrite Hf.
Qed.

Lemma quota_call_spec C c q p' :
  C ≤ u64_max → quota_inv C q → quota_call_ok C c →
  let '(r, q') := quota_call c q in
  quota_inv C q' ∧ account p' q' = quota_ledger_step p' (account p' q) (c, r).
Proof.
  intros HC Hinv Hc.
  assert (∀ p e, quota_find p q = Ok e → p = p' → account p' q = Some (qe_usage e)) as Hacc.
  { intros p e Hf <-. unfold account, tracker_usage. by rewrite Hf. }
  assert (∀ i e, qt_quotas q !! i = Some (Some e) → quota_ok C (qe_quota e) ∧ within (qe_quota e) (qe_usage e))
    as He by apply Hinv.
  destruct c as [p quota|p us|p pages|p|]; cbn [quota_call quota_ledger_step].
  - pose proof (quota_register_spec C q p quota p' Hinv Hc) as H.
    destruct (quota_register p quota q) as [[[]|er] q'].
    + destruct H as [Hi' Hu]. split; [done|]. unfold account. rewrite Hu. by destruct (p =? p').
    + by destruct H as [? ->].
  - unfold check_and_record_cpu. pose proof (quota_find_mut_spec C q p Hinv) as H.
    destruct (quota_find_mut p q) as [[i e]|er]; [|done].
    destruct H as (Hi & Hp & Hf & _). destruct (He i e Hi) as [Hqo Hwi].
    unfold quota_ok, within, is_u32 in *. cbn in Hc.
    destruct (_ <? _) eqn:El; [done|]. rewrite wrap64_id in El by (unfold is_u64; lia). split_bool.
    unfold sat_add. rewrite Z.min_r by lia.
    destruct (quota_charge_spec C q i e p p' (set_ru_cpu (ru_cpu_us (qe_usage e) + us) (qe_usage e)))
      as [Hi' Ha]; [done..|unfold within; cbn; lia|].
    split; [exact Hi'|]. rewrite Ha. destruct (p =? p') eqn:E; [|done]. split_bool.
    by rewrite (Hacc p e Hf E).
  - unfold check_and_record_memory. pose proof (quota_find_mut_spec C q p Hinv) as H.
    destruct (quota_find_mut p q) as [[i e]|er]; [|done].
    destruct H as (Hi & Hp & Hf & _). destruct (He i e Hi) as [Hqo Hwi].
    unfold quota_ok, within, is_u32, u32_max in *. cbn in Hc.
    destruct (_ <? _) eqn:El; [done|]. unfold is_u32, u32_max in Hc.
    rewrite wrap64_id in El by (unfold is_u64, u64_max; lia). split_bool.
    unfold sat_add. rewrite Z.min_r by lia.
    destruct (quota_charge_spec C q i e p p' (set_ru_memory (ru_memory_pages (qe_usage e) + pages) (qe_usage e)))
      as [Hi' Ha]; [done..|unfold within; cbn; lia|].
    split; [exact Hi'|]. rewrite Ha. destruct (p =? p') eqn:E; [|done]. split_bool.
    by rewrite (Hacc p e Hf E).
  - unfold check_and_record_ipc. pose proof (quota_find_mut_spec C q p Hinv) as H.
    destruct (quota_find_mut p q) as [[i e]|er]; [|done].
    destruct H as (Hi & Hp & Hf & _). destruct (He i e Hi) as [Hqo Hwi].
    unfold quota_ok, within, is_u32, u32_max in *.
    destruct (_ <? _) eqn:El; [done|]. rewrite wrap64_id in El by (unfold is_u64, u64_max; lia). split_bool.
    unfold sat_add. rewrite Z.min_r by lia.
    destruct (quota_charge_spec C q i e p p' (set_ru_ipc (ru_ipc_count (qe_usage e) + 1) (qe_usage e)))
      as [Hi' Ha]; [done..|unfold within; cbn; lia|].
    split; [exact Hi'|]. rewrite Ha. destruct (p =? p') eqn:E; [|done]. split_bool.
    by rewrite (Hacc p e Hf E).
  - destruct (quota_reset_spec C q p' Hinv) as [Hi' Hu]. split; [done|].
    unfold account. rewrite Hu. by destruct (tracker_usage p' q).
Qed.

(** C32: Over any sequence of registrations, atomic charges and epoch resets
    whose processor charges cannot overflow, no partition is ever over any of
    its quotas, and its recorded usage is exactly what its accepted charges add
    up to since the last reset. *)
Theorem quota_ledger C MAX cs p :
  C ≤ u64_max → Forall (quota_call_ok C) cs →
  let '(rs, q) := quota_calls cs (quota_tracker_new MAX) in
  account p q = ledger p None cs rs ∧
  (∀ b, enforce_quota p q = Ok b → b = false).
Proof.
  intros HC Hcs. pose proof (quota_tracker_new_inv C MAX) as Hinv.
  assert (account p (quota_tracker_new MAX) = None) as <-.
  { unfold account. rewrite (quota_usage_view C) by done. cbn.
    by rewrite (proj2 (view_replicate quota_key MAX None eq_refl)), lookup_empty. }
  generalize dependent (quota_tracker_new MAX). intros q Hinv. revert q Hinv.
  induction Hcs as [|c cs Hc Hcs IH]; intros q Hinv; cbn.
  - split; [done|]. unfold enforce_quota. pose proof (quota_find_mut_spec C q p Hinv) as H.
    destruct (quota_find_mut p q) as [[i e]|er].
    + destruct H as (Hi & _ & -> & _). destruct (qi_entry _ _ Hinv i e Hi) as [Hq Hw].
      destruct e as [pe quota u]. intros b [= <-]. unfold quota_ok, within, is_u16, over_budget in *.
      cbn in *. rewrite !orb_false_iff, !Z.ltb_ge. lia.
    + by destruct H as (_ & -> & _).
  - pose proof (quota_call_spec C c q p HC Hinv Hc) as H. destruct (quota_call c q) as [r q1].
    destruct H as [Hinv1 Ha]. specialize (IH q1 Hinv1). destruct (quota_calls cs q1) as [rs q2].
    destruct IH as [IH1 IH2]. split; [|done]. cbn. by rewrite IH1, Ha.
Qed.

(** The processor check is a sum that wraps: one unit used and a charge of
    [u64::MAX] are accepted, and leave the counter at its maximum, over any
    smaller budget. *)
Lemma quota_cpu_wraps p quota rest :
  0 ≤ pq_max_cpu_us_per_epoch quota < u64_max →
  let u := mkResourceUsage 1 0 0 0 in
  let q := mkQuotaTracker [Some (mkQuotaEntry p quota u)] rest in
  (check_and_record_cpu p u64_max q).1 = Ok tt ∧
  enforce_quota p (check_and_record_cpu p u64_max q).2 = Ok true.
Proof.
  intros Hq u q. unfold check_and_record_cpu, quota_find_mut. cbn. rewrite Z.eqb_refl. cbn.
  assert (pq_max_cpu_us_per_epoch quota <? wrap64 (1 + u64_max) = false) as ->.
  { apply Z.ltb_ge. vm_compute (wrap64 (1 + u64_max)). lia. }
  split; [done|]. unfold enforce_quota, quota_find. cbn. rewrite Z.eqb_refl. cbn.
  unfold over_budget. cbn. assert (pq_max_cpu_us_per_epoch quota <? sat_add u64_max 1 u64_max = true) as ->; [|done].
  apply Z.ltb_lt. unfold sat_add. lia.
Qed.

(* ------------------------------------------------------------------ *)
(** ** Host functions ([host_functions.rs]) *)

Inductive HostFunction : Set :=
| HfSend | HfReceive | HfAlloc | HfFree | HfSpawn | HfYield | HfGetTime | HfGetId
| HfGpuLaunch | HfGpuAlloc | HfGpuFree | HfGpuTransfer | HfGpuSync.

(** The discriminants of the [repr(u8)] enum. *)
Definition host_function_code (f : HostFunction) : Z :=
  match f with
  | HfSend => 0 | HfReceive => 1 | HfAlloc => 2 | HfFree => 3 | HfSpawn => 4 | HfYield => 5
  | HfGetTime => 6 | HfGetId => 7 | HfGpuLaunch => 8 | HfGpuAlloc => 9 | HfGpuFree => 10
  | HfGpuTransfer => 11 | HfGpuSync => 12
  end.

Definition host_function_from_u8 (val : Z) : option HostFunction :=
  match val with
  | 0 => Some HfSend | 1 => Some HfReceive | 2 => Some HfAlloc | 3 => Some HfFree
  | 4 => Some HfSpawn | 5 => Some HfYield | 6 => Some HfGetTime | 7 => Some HfGetId
  | 8 => Some HfGpuLaunch | 9 => Some HfGpuAlloc | 10 => Some HfGpuFree
  | 11 => Some HfGpuTransfer | 12 => Some HfGpuSync
  | _ => None
  end.

Inductive HostCallResult : Set :=
| HcSuccess (value : Z)
| HcError (e : RvmError).

Definition host_into_result (r : HostCallResult) : RvmResult Z :=
  match r with HcSuccess v => Ok v | HcError e => Err e end.
Definition host_is_success (r : HostCallResult) : bool :=
  match r with HcSuccess _ => true | HcError _ => false end.
(** The arms [Ok(v) => Success(v), Err(e) => Error(e)] of the dispatch. *)
Definition host_of_result (r : RvmResult Z) : HostCallResult :=
  match r with Ok v => HcSuccess v | Err e => HcError e end.

Record HostCallArgs : Set := mkHostCallArgs { hc_arg0 : Z; hc_arg1 : Z; hc_arg2 : Z }.
Definition HOST_ARGS_EMPTY : HostCallArgs := mkHostCallArgs 0 0 0.

(** The trait [HostContext] of an implementing state [H]. *)
Class HostContext (H : Type) : Type := {
  hx_send : AgentId → Z → Z → prog H RvmError Z;
  hx_receive : AgentId → prog H RvmError Z;
  hx_alloc : AgentId → Z → prog H RvmError Z;
  hx_free : AgentId → Z → prog H RvmError Z;
  hx_spawn : AgentId → Z → prog H RvmError Z;
  hx_yield_quantum : AgentId → prog H RvmError Z;
  hx_get_time : H → Z;
  hx_gpu_launch : AgentId → Z → Z → prog H RvmError Z;
  hx_gpu_alloc : AgentId → Z → prog H RvmError Z;
  hx_gpu_free : AgentId → Z → prog H RvmError Z;
  hx_gpu_transfer : AgentId → Z → Z → Z → prog H RvmError Z;
  hx_gpu_sync : AgentId → prog H RvmError Z;
}.

(** The trait's default bodies, which [StubHostContext] inherits. *)
Inductive StubHostContext : Set := mkStubHostContext.
#[export] Instance stub_host_context : HostContext StubHostContext := {
  hx_send _ _ length := pret length;
  hx_receive _ := pret 0;
  hx_alloc _ pages := if (pages =? 0) || (65536 <? pages) then pfail ResourceLimitExceeded else pret pages;
  hx_free _ _ := pret 0;
  hx_spawn _ badge := pret badge;
  hx_yield_quantum _ := pret 0;
  hx_get_time _ := 0;
  hx_gpu_launch _ _ _ := pfail InternalError;
  hx_gpu_alloc _ _ := pfail InternalError;
  hx_gpu_free _ _ := pfail InternalError;
  hx_gpu_transfer _ _ _ _ := pfail InternalError;
  hx_gpu_sync _ := pfail InternalError;
}.

Section host.
Context {BF : Bitflags} {BU : BitflagsUnion}.

Definition host_required_rights (f : HostFunction) : CapRights :=
  match f with
  | HfSend => WRITE | HfReceive => READ | HfAlloc => WRITE | HfFree => WRITE | HfSpawn => EXECUTE
  | HfYield => READ | HfGetTime => READ | HfGetId => READ
  | HfGpuLaunch => rights_union EXECUTE WRITE
  | HfGpuAlloc => WRITE | HfGpuFree => WRITE
  | HfGpuTransfer => rights_union READ WRITE
  | HfGpuSync => READ
  end.

(** A method's result wrapped, its state change kept. *)
Definition host_reply {H} (m : prog H RvmError Z) (h : H) : HostCallResult * H :=
  let '(r, h') := m h in (host_of_result r, h').

(** [gpu] is the crate feature of that name. *)
Definition dispatch_host_call {H : Type} {HX : HostContext H} (gpu : bool) (agent_id : AgentId)
    (function : HostFunction) (args : HostCallArgs) (token : CapToken) (h : H) : HostCallResult * H :=
  if negb (has_rights token (host_required_rights function)) then (HcError InsufficientCapability, h)
  else
    match function with
    | HfGetId => (HcSuccess agent_id, h)
    | HfGetTime => (HcSuccess (hx_get_time h), h)
    | HfYield => host_reply (hx_yield_quantum agent_id) h
    | HfAlloc => host_reply (hx_alloc agent_id (hc_arg0 args)) h
    | HfFree => host_reply (hx_free agent_id (hc_arg0 args)) h
    | HfSend => host_reply (hx_send agent_id (hc_arg0 args) (hc_arg1 args)) h
    | HfReceive => host_reply (hx_receive agent_id) h
    | HfSpawn => host_reply (hx_spawn agent_id (hc_arg0 args)) h
    | HfGpuLaunch =>
        if gpu then host_reply (hx_gpu_launch agent_id (hc_arg0 args) (hc_arg1 args)) h
        else (HcError InternalError, h)
    | HfGpuAlloc =>
        if gpu then host_reply (hx_gpu_alloc agent_id (hc_arg0 args)) h else (HcError InternalError, h)
    | HfGpuFree =>
        if gpu then host_reply (hx_gpu_free agent_id (hc_arg0 args)) h else (HcError InternalError, h)
    | HfGpuTransfer =>
        if gpu then host_reply (hx_gpu_transfer agent_id (hc_arg0 args) (hc_arg1 args) (hc_arg2 args)) h
        else (HcError InternalError, h)
    | HfGpuSync => if gpu then host_reply (hx_gpu_sync agent_id) h else (HcError InternalError, h)
    end.

Definition dispatch_host_call_stub (gpu : bool) (agent_id : AgentId) (function : HostFunction)
    (args : HostCallArgs) (token : CapToken) : HostCallResult :=
  (dispatch_host_call gpu agent_id function args token mkStubHostContext).1.

Lemma host_function_roundtrip n f : host_function_from_u8 n = Some f ↔ host_function_code f = n.
Proof.
  split.
  - unfold host_function_from_u8. intros H.
    repeat (case_match; simplify_eq/=; try done).
  - by intros <-; destruct f.
Qed.

(** The rights the table asks for, bit by bit. *)
Lemma rights_of_union {BL : BitflagsLaws} {UL : BitflagsUnionLaws} r a b :
  contains r (rights_union a b) = true → contains r a = true ∧ contains r b = true.
Proof.
  rewrite !contains_spec. intros H.
  split; intros i Hi Hb; apply H; try done; rewrite rights_union_spec by done; rewrite Hb; [done|apply orb_true_r].
Qed.

(** C34: A host call that returns a value or changes the host's state was made
    with a token holding the rights its function requires, both of them where
    two are required; without them the call is refused and nothing changes. *)
Theorem host_call_guarded {BL : BitflagsLaws} {UL : BitflagsUnionLaws} {H : Type} {HX : HostContext H}
    gpu agent f args token (h : H) res h' :
  dispatch_host_call gpu agent f args token h = (res, h') →
  (res = HcError InsufficientCapability ∧ h' = h) ∨
  match f with
  | HfSend | HfAlloc | HfFree | HfGpuAlloc | HfGpuFree => has_rights token WRITE = true
  | HfReceive | HfYield | HfGetTime | HfGetId | HfGpuSync => has_rights token READ = true
  | HfSpawn => has_rights token EXECUTE = true
  | HfGpuLaunch => has_rights token EXECUTE = true ∧ has_rights token WRITE = true
  | HfGpuTransfer => has_rights token READ = true ∧ has_rights token WRITE = true
  end.
Proof.
  unfold dispatch_host_call. destruct (has_rights token (host_required_rights f)) eqn:Er; cbn [negb].
  - intros _. right. unfold has_rights in *. destruct f; cbn in Er; try done; by apply rights_of_union.
  - intros [= <- <-]. by left.
Qed.
End host.

(* ------------------------------------------------------------------ *)
(** ** Samples *)

Section sample.
#[local] Existing Instances bitflags_u8 fnv_hasher.
#[local] Instance sample_host_union : BitflagsUnion := Z.lor.

Definition sample_plan : MigrationPlan := mkMigrationPlan 7 1 2 MIGRATION_TIMEOUT_NS.
Definition sample_tracker : MigrationTracker := mkMigrationTracker sample_plan MsSerializing 1000 0.
Definition sample_advances : list MigrationCall := MAdvance <$> [1001; 1002; 1003; 1004; 1005; 1006; 1007].

Lemma migration_protocol_witness :
  migration_begin sample_plan 1000 = Ok sample_tracker ∧
  migration_outcome sample_plan 1000 7 sample_advances (log_new 2) MsComplete
    (emit_migration_witness AkPartitionMigrate sample_plan (log_new 2)).
Proof.
  split; [reflexivity|].
  pose proof (migration_protocol sample_plan 1000 sample_tracker sample_advances (log_new 2) eq_refl
    ltac:(vm_compute; done)) as H.
  assert (migration_calls sample_advances (sample_tracker, log_new 2) =
    (set_migration_state MsComplete sample_tracker,
     emit_migration_witness AkPartitionMigrate sample_plan (log_new 2))) as E by reflexivity.
  rewrite E in H. by destruct H.
Defined.

Lemma migration_terminates_witness :
  migration_calls (sample_advances ++ [MAbort; MAdvance 2000]) (sample_tracker, log_new 2) =
  migration_calls sample_advances (sample_tracker, log_new 2).
Proof.
  pose proof (migration_terminates sample_plan 1000 sample_tracker sample_advances (log_new 2) eq_refl
    ltac:(vm_compute; done) ltac:(vm_compute; lia)) as H.
  destruct (migration_calls sample_advances (sample_tracker, log_new 2)) as [t' log'].
  destruct H as [_ H]. exact (H [MAbort; MAdvance 2000]).
Defined.

Definition sample_quota_calls : list QuotaCall :=
  [QcRegister 1 PARTITION_QUOTA_DEFAULT; QcCpu 1 9000; QcCpu 1 2000; QcMemory 1 250; QcMemory 1 7;
   QcIpc 1; QcCpu 2 1; QcReset; QcCpu 1 2000].

Lemma quota_ledger_witness :
  let '(rs, q) := quota_calls sample_quota_calls (quota_tracker_new 2) in
  rs = [Ok tt; Ok tt; Err ResourceLimitExceeded; Ok tt; Err ResourceLimitExceeded; Ok tt;
        Err PartitionNotFound; Ok tt; Ok tt] ∧
  account 1 q = Some (mkResourceUsage 2000 250 0 0).
Proof.
  pose proof (quota_ledger 10000 2 sample_quota_calls 1 ltac:(vm_compute; done)) as H.
  assert (Forall (quota_call_ok 10000) sample_quota_calls) as Hok.
  { repeat constructor; vm_compute; done. }
  specialize (H Hok). destruct (quota_calls sample_quota_calls (quota_tracker_new 2)) as [rs q] eqn:E.
  assert (rs = (quota_calls sample_quota_calls (quota_tracker_new 2)).1) as -> by by rewrite E.
  split; [reflexivity|]. destruct H as [-> _]. reflexivity.
Defined.

#[local] Instance sample_flags_laws : @BitflagsLaws bitflags_u8 := bitflags_u8_laws.
#[local] Instance sample_union_laws : BitflagsUnionLaws.
Proof. intros a b i _. apply Z.lor_spec. Qed.

Definition sample_host_token : CapToken := mkCapToken 1 CtPartition (Z.lor READ WRITE) 0.

Lemma host_call_guarded_witness :
  dispatch_host_call true 5 HfSend (mkHostCallArgs 2 64 0) sample_host_token mkStubHostContext =
    (HcSuccess 64, mkStubHostContext) ∧
  has_rights sample_host_token WRITE = true ∧
  (dispatch_host_call_stub true 5 HfSpawn HOST_ARGS_EMPTY sample_host_token = HcError InsufficientCapability).
Proof.
  assert (dispatch_host_call true 5 HfSend (mkHostCallArgs 2 64 0) sample_host_token mkStubHostContext =
    (HcSuccess 64, mkStubHostContext)) as E by reflexivity.
  split; [exact E|]. split; [|reflexivity].
  destruct (host_call_guarded true 5 HfSend (mkHostCallArgs 2 64 0) sample_host_token mkStubHostContext _ _ E)
    as [[H _]|H]; [discriminate H|exact H].
Defined.
End sample.
