(* ===== verification/WasmModule.v ===== *)
(** The framing check of WebAssembly modules, [crates/rvm-wasm/src/lib.rs].

    [validate_module] walks the sections of a module without parsing their
    contents.  The file gives the exact set of byte strings it accepts and the
    summary it returns for each. *)

From stdpp Require Import base numbers list option.
From Stdlib Require Import ZArith Lia.
From S2P Require Import Prelude.
From S2P Require Import Types.

Local Open Scope rvm_scope.

(* ------------------------------------------------------------------ *)
(** ** Data *)

Definition MAX_MODULE_SIZE : Z := 1048576.

Inductive WasmModuleState : Set := WmLoaded | WmValidated | WmRunning | WmTerminated.

Record WasmModuleInfo : Set := mkWasmModuleInfo {
  wmi_partition : PartitionId;
  wmi_state : WasmModuleState;
  wmi_size_bytes : Z;
  wmi_export_count : Z;
  wmi_import_count : Z;
}.

Inductive WasmSectionId : Set :=
| SecCustom | SecType | SecImport | SecFunction | SecTable | SecMemory | SecGlobal | SecExport
| SecStart | SecElement | SecCode | SecData | SecDataCount | SecTag.

#[export] Instance WasmSectionId_eq_dec : EqDecision WasmSectionId.
Proof. solve_decision. Defined.

(** The discriminants of the [repr(u8)] enum. *)
Definition section_code (s : WasmSectionId) : Z :=
  match s with
  | SecCustom => 0 | SecType => 1 | SecImport => 2 | SecFunction => 3 | SecTable => 4 | SecMemory => 5
  | SecGlobal => 6 | SecExport => 7 | SecStart => 8 | SecElement => 9 | SecCode => 10 | SecData => 11
  | SecDataCount => 12 | SecTag => 13
  end.

Definition order_rank (s : WasmSectionId) : Z :=
  match s with
  | SecCustom => 0 | SecType => 1 | SecImport => 2 | SecFunction => 3 | SecTable => 4 | SecMemory => 5
  | SecTag => 6 | SecGlobal => 7 | SecExport => 8 | SecStart => 9 | SecElement => 10
  | SecDataCount => 11 | SecCode => 12 | SecData => 13
  end.

Definition section_from_u8 (val : Z) : option WasmSectionId :=
  match val with
  | 0 => Some SecCustom | 1 => Some SecType | 2 => Some SecImport | 3 => Some SecFunction
  | 4 => Some SecTable | 5 => Some SecMemory | 6 => Some SecGlobal | 7 => Some SecExport
  | 8 => Some SecStart | 9 => Some SecElement | 10 => Some SecCode | 11 => Some SecData
  | 12 => Some SecDataCount | 13 => Some SecTag
  | _ => None
  end.

Record WasmValidationResult : Set := mkWasmValidationResult {
  wv_section_count : Z;
  wv_has_type : bool;
  wv_has_function : bool;
  wv_has_memory : bool;
  wv_has_export : bool;
  wv_has_code : bool;
  wv_total_payload_bytes : Z;
}.

Definition WASM_RESULT_DEFAULT : WasmValidationResult :=
  mkWasmValidationResult 0 false false false false false 0.

(* ------------------------------------------------------------------ *)
(** ** The walk *)

(** The loop of [read_leb128_u32], [n] iterations from the [i]-th on. *)
Fixpoint leb_loop (bytes : list Z) (start pos : nat) (i n : nat) (acc shift : Z) : RvmResult (Z * nat) :=
  match n with
  | O => Err ProofInvalid
  | S n =>
      match bytes !! pos with
      | None => Err ProofInvalid
      | Some byte =>
          let pos := S pos in
          if (i =? 4)%nat && (15 <? byte) then Err ProofInvalid
          else
            let acc := Z.lor acc (wrap32 (Z.shiftl (Z.land byte 127) shift)) in
            if Z.land byte 128 =? 0 then Ok (acc, (pos - start)%nat)
            else leb_loop bytes start pos (S i) n acc (shift + 7)
      end
  end.

Definition read_leb128_u32 (bytes : list Z) (start : nat) : RvmResult (Z * nat) :=
  leb_loop bytes start start 0 5 0 0.

(** What a section adds to the summary; the count is a plain [u16] increment. *)
Definition note_section (id : WasmSectionId) (section_size : Z) (r : WasmValidationResult)
    : WasmValidationResult :=
  mkWasmValidationResult (wrap16 (wv_section_count r + 1))
    (wv_has_type r || bool_decide (id = SecType))
    (wv_has_function r || bool_decide (id = SecFunction))
    (wv_has_memory r || bool_decide (id = SecMemory))
    (wv_has_export r || bool_decide (id = SecExport))
    (wv_has_code r || bool_decide (id = SecCode))
    (sat_add u32_max (wv_total_payload_bytes r) section_size).

(** The order and duplicate tests on a non-custom section: the new rank and
    the new mask. *)
Definition check_order (id : WasmSectionId) (id_byte : Z) (last : option Z) (seen : Z)
    : RvmResult (option Z * Z) :=
  if bool_decide (id = SecCustom) then Ok (last, seen)
  else if (match last with Some l => order_rank id <=? l | None => false end) then Err ProofInvalid
  else
    let bit := wrap16 (Z.shiftl 1 id_byte) in
    if negb (Z.land seen bit =? 0) then Err ProofInvalid
    else Ok (Some (order_rank id), Z.lor seen bit).

(** The [while pos < bytes.len()] loop; [None] is running out of fuel. *)
Fixpoint section_loop (fuel : nat) (bytes : list Z) (pos : nat) (last : option Z) (seen : Z)
    (r : WasmValidationResult) : option (RvmResult WasmValidationResult) :=
  match fuel with
  | O => None
  | S fuel =>
      match bytes !! pos with
      | None => Some (Ok r)
      | Some section_id_byte =>
          let pos := S pos in
          match section_from_u8 section_id_byte with
          | None => Some (Err ProofInvalid)
          | Some section_id =>
              match read_leb128_u32 bytes pos with
              | Err e => Some (Err e)
              | Ok (section_size, bytes_read) =>
                  let pos := (pos + bytes_read)%nat in
                  if Z.of_nat (length bytes) <? Z.of_nat pos + section_size then Some (Err ProofInvalid)
                  else
                    match check_order section_id section_id_byte last seen with
                    | Err e => Some (Err e)
                    | Ok (last, seen) =>
                        section_loop fuel bytes (pos + Z.to_nat section_size) last seen
                          (note_section section_id section_size r)
                    end
              end
          end
      end
  end.

Definition WASM_MAGIC : list Z := [0; 97; 115; 109].
Definition WASM_VERSION_1 : list Z := [1; 0; 0; 0].

Definition validate_module (bytes : list Z) : option (RvmResult WasmValidationResult) :=
  if MAX_MODULE_SIZE <? Z.of_nat (length bytes) then Some (Err ResourceLimitExceeded)
  else if (length bytes <? 8)%nat then Some (Err ProofInvalid)
  else if negb (bool_decide (take 4 bytes = WASM_MAGIC)) then Some (Err ProofInvalid)
  else if negb (bool_decide (take 4 (drop 4 bytes) = WASM_VERSION_1)) then Some (Err Unsupported)
  else section_loop (length bytes) bytes 8 None 0 WASM_RESULT_DEFAULT.

Definition validate_header (bytes : list Z) : option (RvmResult unit) :=
  (λ r : RvmResult WasmValidationResult, (λ _, tt) <$> r) <$> validate_module bytes.

(* ------------------------------------------------------------------ *)
(** ** LEB128 *)

(** The value of a little-endian base-128 numeral. *)
Fixpoint leb_value (bs : list Z) : Z :=
  match bs with [] => 0 | b :: bs => b mod 128 + 128 * leb_value bs end.

(** Digits from the [i]-th on: continuation bytes, then a last one, the fifth
    of which has only four bits. *)
Fixpoint leb_shape (i : nat) (bs : list Z) : Prop :=
  match bs with
  | [] => False
  | [b] => 0 ≤ b < 128 ∧ (i ≤ 4)%nat ∧ (i = 4%nat → b ≤ 15)
  | b :: bs => 128 ≤ b < 256 ∧ (i < 4)%nat ∧ leb_shape (S i) bs
  end.

Definition leb_digits : list Z → Prop := leb_shape 0.

Lemma leb_value_bound i bs : leb_shape i bs → 0 ≤ leb_value bs < 2 ^ (32 - 7 * Z.of_nat i).
Proof.
  revert i. induction bs as [|b bs IH]; intros i; [done|].
  destruct bs as [|b' bs].
  - intros (Hb & Hi & H4). cbn. rewrite Z.mod_small by lia.
    destruct (decide (i = 4%nat)) as [->|]; [specialize (H4 eq_refl); cbn; lia|].
    assert (2 ^ 7 ≤ 2 ^ (32 - 7 * Z.of_nat i)) by (apply Z.pow_le_mono_r; lia). lia.
  - intros (Hb & Hi & Hs). specialize (IH (S i) Hs). cbn [leb_value] in *.
    pose proof (Z.mod_pos_bound b 128 ltac:(lia)).
    replace (32 - 7 * Z.of_nat i) with (7 + (32 - 7 * Z.of_nat (S i))) by lia.
    rewrite Z.pow_add_r by lia. change (2 ^ 7) with 128. lia.
Qed.

Lemma lor_disjoint a v k : 0 ≤ a < 2 ^ k → 0 ≤ k → 0 ≤ v → Z.lor a (Z.shiftl v k) = a + v * 2 ^ k.
Proof.
  intros Ha Hk Hv. rewrite <-Z.shiftl_mul_pow2 by done. symmetry.
  rewrite <-Z.lxor_lor, Z.add_nocarry_lxor; [done|..];
    apply Z.bits_inj_0; intros i; rewrite Z.land_spec;
    (destruct (decide (i < 0)); [by rewrite Z.testbit_neg_r by lia|]);
    (destruct (decide (i < k)); [rewrite Z.shiftl_spec_low by lia; apply andb_false_r|]);
    by rewrite (testbit_lt_pow2 a k) by lia.
Qed.

Lemma byte_high_bit b : 0 ≤ b < 256 → (Z.land b 128 =? 0) = (b <? 128).
Proof.
  intros Hb. destruct (b <? 128) eqn:E; split_bool.
  - apply Z.eqb_eq, Z.bits_inj_0. intros i. rewrite Z.land_spec.
    destruct (decide (i = 7)) as [->|].
    + by rewrite (testbit_lt_pow2 b 7) by lia.
    + change 128 with (2 ^ 7). rewrite Z.pow2_bits_false by lia. apply andb_false_r.
  - apply Z.eqb_neq. intros H. assert (Z.testbit (Z.land b 128) 7 = true) as Hc; [|by rewrite H in Hc].
    rewrite Z.land_spec. change 128 with (2 ^ 7). rewrite Z.pow2_bits_true by lia. rewrite andb_true_r.
    rewrite Z.testbit_true by lia. change (2 ^ 7) with 128.
    replace (b / 128) with 1; [done|]. apply (Z.div_unique b 128 1 (b - 128)); lia.
Qed.

Lemma low_seven b : Z.land b 127 = b mod 128.
Proof. change 127 with (Z.ones 7). by rewrite Z.land_ones by lia. Qed.

(** The loop reads exactly one numeral. *)
Lemma leb_loop_exact bytes start pos i n acc v len :
  Forall is_byte bytes → (start ≤ pos)%nat → (i + n = 5)%nat → (i = pos - start)%nat →
  0 ≤ acc < 2 ^ (7 * Z.of_nat i) →
  leb_loop bytes start pos i n acc (7 * Z.of_nat i) = Ok (v, len) ↔
  ∃ bs rest, drop pos bytes = bs ++ rest ∧ leb_shape i bs ∧
    v = acc + leb_value bs * 2 ^ (7 * Z.of_nat i) ∧ len = (pos - start + length bs)%nat.
Proof.
  intros Hb. revert pos i acc. induction n as [|n IH]; intros pos i acc Hpos Hin Hi Hacc.
  { cbn. split; [done|]. intros (bs & rest & _ & Hs & _). destruct bs as [|b [|]]; cbn in Hs; [done|lia|lia]. }
  cbn [leb_loop]. destruct (bytes !! pos) as [b|] eqn:Eb.
  2: { split; [done|]. intros (bs & rest & Hd & Hs & _). rewrite drop_ge in Hd by by apply lookup_ge_None.
       by destruct bs. }
  assert (is_byte b) as Hbb by by eapply Forall_lookup_1. unfold is_byte in Hbb.
  assert (drop pos bytes = b :: drop (S pos) bytes) as Hd by by apply drop_S.
  rewrite Hd, low_seven, byte_high_bit by done.
  pose proof (Z.mod_pos_bound b 128 ltac:(lia)) as Hm.
  destruct ((i =? 4)%nat && (15 <? b)) eqn:E4.
  { apply andb_true_iff in E4 as [Ei Eb4]. split_bool. split; [done|].
    intros (bs & rest & Hbs & Hs & _). destruct bs as [|c [|]]; cbn in Hs; [done| |lia].
    injection Hbs as <- _. lia. }
  apply andb_false_iff in E4.
  assert (i = 4%nat → b ≤ 15) as H4. { intros ->. destruct E4 as [E4|E4]; split_bool; [done|lia]. }
  assert (wrap32 (Z.shiftl (b mod 128) (7 * Z.of_nat i)) = Z.shiftl (b mod 128) (7 * Z.of_nat i)) as ->.
  { rewrite Z.shiftl_mul_pow2 by lia. apply wrap32_id. unfold is_u32, u32_max.
    assert (i = 0 ∨ i = 1 ∨ i = 2 ∨ i = 3 ∨ i = 4)%nat as Hc by lia.
    destruct Hc as [Ei|[Ei|[Ei|[Ei|Ei]]]]; rewrite Ei; try specialize (H4 Ei);
      [change (2 ^ (7 * Z.of_nat 0)) with 1|change (2 ^ (7 * Z.of_nat 1)) with 128
      |change (2 ^ (7 * Z.of_nat 2)) with 16384|change (2 ^ (7 * Z.of_nat 3)) with 2097152
      |change (2 ^ (7 * Z.of_nat 4)) with 268435456; rewrite Z.mod_small by lia]; lia. }
  rewrite lor_disjoint by lia.
  destruct (b <? 128) eqn:Elt; split_bool.
  - rewrite (Z.mod_small b 128) by lia. split.
    + intros [= <- <-]. exists [b], (drop (S pos) bytes). split_and!; [done| |cbn; rewrite Z.mod_small; lia|cbn; lia].
      cbn. split_and!; [lia..|done].
    + intros (bs & rest & Hbs & Hs & -> & ->). destruct bs as [|c bs]; [done|].
      injection Hbs as <- Hbs. destruct bs as [|c bs]; [|cbn in Hs; lia].
      cbn [leb_value length]. rewrite (Z.mod_small b 128) by lia. repeat f_equal; lia.
  - replace (7 * Z.of_nat i + 7) with (7 * Z.of_nat (S i)) by lia.
    assert (2 ^ (7 * Z.of_nat (S i)) = 128 * 2 ^ (7 * Z.of_nat i)) as Hp.
    { replace (7 * Z.of_nat (S i)) with (7 + 7 * Z.of_nat i) by lia. rewrite Z.pow_add_r by lia. done. }
    assert (0 < 2 ^ (7 * Z.of_nat i)) by (apply Z.pow_pos_nonneg; lia).
    rewrite IH; [|lia..|rewrite Hp; nia]. split.
    + intros (bs & rest & -> & Hs & -> & ->). exists (b :: bs), rest.
      split_and!; [done| |cbn [leb_value]; rewrite Hp; lia|cbn; lia].
      assert (i < 4)%nat by (destruct bs as [|? [|]]; cbn in Hs; [done|lia|lia]).
      destruct bs; [done|]. cbn. cbn in Hs. split_and!; [lia..|done].
    + intros (bs & rest & Hbs & Hs & -> & ->). destruct bs as [|c bs]; [done|].
      injection Hbs as <- Hbs. exists bs, rest. destruct bs as [|c bs]; [cbn in Hs; lia|].
      destruct Hs as (? & ? & Hs). split_and!; [done|done|cbn [leb_value]; rewrite Hp; lia|cbn; lia].
Qed.

(** Reading at a position reads one numeral of at most five digits, and fails
    when none is there. *)
Lemma read_leb128_exact bytes start v len :
  Forall is_byte bytes →
  read_leb128_u32 bytes start = Ok (v, len) ↔
  ∃ bs rest, drop start bytes = bs ++ rest ∧ leb_digits bs ∧ v = leb_value bs ∧ len = length bs.
Proof.
  intros Hb. unfold read_leb128_u32.
  rewrite (leb_loop_exact bytes start start 0 5 0 v len Hb) by (try lia; cbn; lia).
  cbn. split; intros (bs & rest & ? & ? & -> & ->); exists bs, rest; split_and!; [done|done|lia|lia|done|done|lia|lia].
Qed.

(** An over-long encoding of zero is read like the short one. *)
Lemma read_leb128_overlong : read_leb128_u32 [128; 0] 0 = Ok (0, 2%nat).
Proof. reflexivity. Qed.

(* ------------------------------------------------------------------ *)
(** ** The modules accepted *)

(** A section as it lies in the module: its identifier, the numeral of its
    size, its contents. *)
Record WasmSection : Set := mkWasmSection {
  ws_id : WasmSectionId;
  ws_size : list Z;
  ws_payload : list Z;
}.

Definition section_bytes (s : WasmSection) : list Z := section_code (ws_id s) :: ws_size s ++ ws_payload s.

Definition section_ok (s : WasmSection) : Prop :=
  leb_digits (ws_size s) ∧ leb_value (ws_size s) = Z.of_nat (length (ws_payload s)).

(** Ranks of the non-custom sections strictly increase from [last] on. *)
Fixpoint sections_ordered (last : option Z) (secs : list WasmSection) : Prop :=
  match secs with
  | [] => True
  | s :: secs =>
      if bool_decide (ws_id s = SecCustom) then sections_ordered last secs
      else (∀ l, last = Some l → l < order_rank (ws_id s)) ∧
           sections_ordered (Some (order_rank (ws_id s))) secs
  end.

Definition summary_from (r : WasmValidationResult) (secs : list WasmSection) : WasmValidationResult :=
  foldl (λ r s, note_section (ws_id s) (Z.of_nat (length (ws_payload s))) r) r secs.

Lemma section_from_u8_code b s : section_from_u8 b = Some s ↔ b = section_code s.
Proof.
  split; [|by intros ->; destruct s].
  unfold section_from_u8. intros H. repeat (case_match; simplify_eq/=; try done).
Qed.

Lemma order_rank_inj s t : order_rank s = order_rank t → s = t.
Proof. by destruct s, t. Qed.

(** The mask holds only sections whose rank has been passed. *)
Definition mask_ok (last : option Z) (seen : Z) : Prop :=
  0 ≤ seen ∧ ∀ s, Z.testbit seen (section_code s) = true → ∃ l, last = Some l ∧ order_rank s ≤ l.

Lemma section_code_range s : 0 ≤ section_code s < 14.
Proof. destruct s; cbn; lia. Qed.
Lemma section_code_inj s t : section_code s = section_code t → s = t.
Proof. by destruct s, t. Qed.

(** The mask decides nothing that the ranks do not. *)
Lemma check_order_exact id last seen :
  mask_ok last seen →
  match check_order id (section_code id) last seen with
  | Ok (last', seen') =>
      mask_ok last' seen' ∧
      if bool_decide (id = SecCustom) then last' = last
      else (∀ l, last = Some l → l < order_rank id) ∧ last' = Some (order_rank id)
  | Err e => e = ProofInvalid ∧ id ≠ SecCustom ∧ ∃ l, last = Some l ∧ order_rank id ≤ l
  end.
Proof.
  intros [Hn Hm]. unfold check_order. case_bool_decide as Hid; [done|].
  destruct (match last with Some l => order_rank id <=? l | None => false end) eqn:El.
  { destruct last; [|done]. split_bool. split_and!; [done..|]. by eexists. }
  assert (∀ l, last = Some l → l < order_rank id) as Hlt by (intros l ->; split_bool; lia).
  pose proof (section_code_range id) as Hc.
  assert (wrap16 (Z.shiftl 1 (section_code id)) = 2 ^ section_code id) as ->.
  { rewrite Z.shiftl_1_l. apply wrap16_id. unfold is_u16, u16_max.
    split; [by apply Z.pow_nonneg|]. assert (2 ^ section_code id ≤ 2 ^ 13) as H13 by (apply Z.pow_le_mono_r; lia).
    change (2 ^ 13) with 8192 in H13. lia. }
  assert (Z.land seen (2 ^ section_code id) = 0) as Hland.
  { apply Z.bits_inj_0. intros i. rewrite Z.land_spec.
    destruct (decide (i = section_code id)) as [->|].
    - destruct (Z.testbit seen _) eqn:Et; [|done]. apply Hm in Et as (l & Hl & ?). apply Hlt in Hl. lia.
    - destruct (decide (i < 0)); [by rewrite Z.testbit_neg_r|].
      rewrite Z.pow2_bits_false by lia. apply andb_false_r. }
  rewrite Hland. cbn. split_and!; [|done|done]. split.
  { apply Z.lor_nonneg. split; [done|]. by apply Z.pow_nonneg. }
  intros s. rewrite Z.lor_spec. pose proof (section_code_range s).
  destruct (decide (section_code s = section_code id)) as [Es%section_code_inj|Hne].
  - intros _. subst s. eexists. by split; [|reflexivity].
  - rewrite Z.pow2_bits_false by lia. rewrite orb_false_r. intros (l & Hl & ?)%Hm.
    apply Hlt in Hl. eexists. split; [done|]. lia.
Qed.

Lemma section_loop_total fuel bytes pos last seen r :
  Forall is_byte bytes → (length bytes < fuel + pos)%nat → (pos ≤ length bytes)%nat →
  is_Some (section_loop fuel bytes pos last seen r).
Proof.
  intros Hb. revert pos last seen r. induction fuel as [|fuel IH]; intros pos last seen r Hf Hp; [lia|].
  cbn [section_loop]. destruct (bytes !! pos) eqn:Eb; [|by eexists].
  destruct (section_from_u8 _); [|by eexists].
  destruct (read_leb128_u32 _ _) as [[sz len]|] eqn:El; [|by eexists].
  apply read_leb128_exact in El as (bs & rest & _ & Hs & -> & ->); [|done].
  pose proof (leb_value_bound 0 bs Hs).
  destruct (_ <? _) eqn:E; [by eexists|]. split_bool.
  destruct (check_order _ _ _ _) as [[? ?]|]; [|by eexists]. apply IH; lia.
Qed.

Lemma section_loop_exact fuel bytes pos last seen r res :
  Forall is_byte bytes → mask_ok last seen → (length bytes < fuel + pos)%nat → (pos ≤ length bytes)%nat →
  section_loop fuel bytes pos last seen r = Some (Ok res) ↔
  ∃ secs, drop pos bytes = concat (section_bytes <$> secs) ∧ Forall section_ok secs ∧
    sections_ordered last secs ∧ res = summary_from r secs.
Proof.
  intros Hb. revert pos last seen r. induction fuel as [|fuel IH]; intros pos last seen r Hm Hf Hp; [lia|].
  cbn [section_loop]. destruct (bytes !! pos) as [b|] eqn:Eb.
  2: { rewrite drop_ge by by apply lookup_ge_None. split.
       - intros [= <-]. by exists [].
       - intros ([|s secs] & Hd & _ & _ & ->); [done|]. done. }
  rewrite (drop_S bytes b pos Eb). pose proof (lookup_lt_Some _ _ _ Eb) as Hlt. split.
  - destruct (section_from_u8 b) as [id|] eqn:Eid; [|done]. apply section_from_u8_code in Eid as ->.
    destruct (read_leb128_u32 bytes (S pos)) as [[sz len]|] eqn:El; [|done].
    apply read_leb128_exact in El as (bs & rest & Hd & Hs & -> & ->); [|done].
    pose proof (leb_value_bound 0 bs Hs) as Hv.
    destruct (_ <? _) eqn:E; [done|]. split_bool.
    pose proof (check_order_exact id last seen Hm) as Ho.
    destruct (check_order id (section_code id) last seen) as [[last' seen']|]; [|done].
    destruct Ho as [Hm' Ho]. intros H. apply IH in H as (secs & Hds & Hoks & Hord & ->); [|done|lia..].
    assert (drop (S pos + length bs) bytes = rest) as Hrest.
    { rewrite <-drop_drop, Hd. by rewrite drop_app_length. }
    assert (length rest = length bytes - (S pos + length bs))%nat as Hlr by (rewrite <-Hrest; apply length_drop).
    assert (length (take (Z.to_nat (leb_value bs)) rest) = Z.to_nat (leb_value bs)) as Hlt'.
    { rewrite length_take. lia. }
    exists (mkWasmSection id bs (take (Z.to_nat (leb_value bs)) rest) :: secs). split_and!.
    + cbn. f_equal. rewrite Hd, <-Hds, <-!app_assoc. f_equal.
      rewrite <-drop_drop, Hrest. by rewrite take_drop.
    + constructor; [|done]. split; [done|]. cbn. rewrite Hlt'. lia.
    + cbn. destruct (bool_decide (id = SecCustom)); [by subst last'|]. destruct Ho as [? ->]. done.
    + cbn. rewrite Hlt', Z2Nat.id by lia. done.
  - intros ([|[id bs pl] secs] & Hd & Hoks & Hord & ->); [done|]. cbn in Hd. injection Hd as Hbb Hd.
    apply Forall_cons_1 in Hoks as [[Hs Hv] Hoks]. cbn in Hs, Hv. subst b.
    rewrite (proj2 (section_from_u8_code _ id) eq_refl).
    rewrite <-app_assoc in Hd.
    rewrite (proj2 (read_leb128_exact bytes (S pos) (leb_value bs) (length bs) Hb))
      by (exists bs, (pl ++ concat (section_bytes <$> secs)); done).
    assert (length (drop (S pos) bytes) = length bs + (length pl + length (concat (section_bytes <$> secs))))%nat as Hl
      by (rewrite Hd, !length_app; done).
    rewrite length_drop in Hl. rewrite Hv.
    destruct (_ <? _) eqn:E; split_bool; [lia|].
    pose proof (check_order_exact id last seen Hm) as Ho. cbn in Hord.
    destruct (check_order id (section_code id) last seen) as [[last' seen']|e].
    + destruct Ho as [Hm' Ho]. apply IH; [done|lia..|]. exists secs. split_and!; [|done| |].
      * rewrite <-!drop_drop, Hd, drop_app_length, Nat2Z.id. by rewrite drop_app_length.
      * destruct (bool_decide (id = SecCustom)); [by subst last'|]. destruct Ho as [_ ->]. by destruct Hord.
      * done.
    + destruct Ho as (_ & Hid & l & Hlast & Hge). rewrite bool_decide_false in Hord by done.
      destruct Hord as [Hord _]. apply Hord in Hlast. lia.
Qed.

(** The bytes of a module from its sections. *)
Definition module_bytes (secs : list WasmSection) : list Z :=
  WASM_MAGIC ++ WASM_VERSION_1 ++ concat (section_bytes <$> secs).

(** C25: [validate_module] always returns, and accepts a byte string exactly
    when it is the header followed by whole sections with correct sizes whose
    non-custom ones are in the binary format's order; the summary is that of
    the sections, the count modulo 2^16. *)
Theorem validate_module_exact bytes :
  Forall is_byte bytes →
  is_Some (validate_module bytes) ∧
  ∀ r, validate_module bytes = Some (Ok r) ↔
    Z.of_nat (length bytes) ≤ MAX_MODULE_SIZE ∧
    ∃ secs, bytes = module_bytes secs ∧ Forall section_ok secs ∧ sections_ordered None secs ∧
            r = summary_from WASM_RESULT_DEFAULT secs.
Proof.
  intros Hb. assert (mask_ok None 0) as Hm by (split; [done|]; intros s; by rewrite Z.bits_0).
  assert (∀ secs, length (module_bytes secs) = 8 + length (concat (section_bytes <$> secs)))%nat as Hlen
    by (intros; unfold module_bytes; by rewrite !length_app).
  unfold validate_module. destruct (MAX_MODULE_SIZE <? _) eqn:Emax; split_bool.
  { split; [by eexists|]. intros r. split; [done|]. intros [? _]. lia. }
  destruct (length bytes <? 8)%nat eqn:E8; split_bool.
  { split; [by eexists|]. intros r. split; [done|]. intros (_ & secs & -> & _). rewrite Hlen in E8. lia. }
  case_bool_decide as Hmag; cbn [negb].
  2: { split; [by eexists|]. intros r. split; [done|]. intros (_ & secs & -> & _). by destruct Hmag. }
  case_bool_decide as Hver; cbn [negb].
  2: { split; [by eexists|]. intros r. split; [done|]. intros (_ & secs & -> & _). by destruct Hver. }
  split; [apply section_loop_total; (done || lia)|]. intros r.
  rewrite section_loop_exact by (done || lia).
  assert (bytes = WASM_MAGIC ++ WASM_VERSION_1 ++ drop 8 bytes) as Hsplit.
  { rewrite <-(take_drop 4 bytes) at 1. rewrite Hmag. f_equal.
    rewrite <-(take_drop 4 (drop 4 bytes)) at 1. rewrite Hver. f_equal. by rewrite drop_drop. }
  split.
  - intros (secs & Hd & ? & ? & ->). split; [lia|]. exists secs. split_and!; [|done..].
    rewrite Hsplit, Hd. done.
  - intros (_ & secs & -> & ? & ? & ->). by exists secs.
Qed.

Lemma validate_module_exact_witness :
  let secs := [mkWasmSection SecType [1] [0]; mkWasmSection SecCustom [128; 0] []; mkWasmSection SecCode [1] [0]] in
  let bytes := module_bytes secs in
  Forall is_byte bytes ∧
  validate_module bytes = Some (Ok (mkWasmValidationResult 3 true false false false true 2)).
Proof.
  intros secs bytes. assert (Forall is_byte bytes) as Hb by (repeat constructor; done). split; [done|].
  apply (validate_module_exact bytes Hb). split; [vm_compute; done|]. exists secs.
  split_and!; [done| |cbn; repeat split; intros; simplify_eq; lia|done].
  repeat constructor; cbn; lia.
Defined.

Lemma summary_count secs r :
  wv_section_count (summary_from r secs) = wrap16 (wv_section_count r + Z.of_nat (length secs)) ∨ secs = [].
Proof.
  induction secs as [|s secs IH] using rev_ind; [by right|]. left.
  unfold summary_from in *. rewrite foldl_app. cbn. rewrite length_app. cbn [length].
  destruct IH as [->| ->].
  - unfold wrap16. rewrite Zplus_mod_idemp_l. f_equal. lia.
  - cbn. f_equal.
Qed.

Definition empty_custom_section : WasmSection := mkWasmSection SecCustom [0] [].

(** The section count is a [u16] that wraps: a module of 65536 empty custom
    sections is accepted with a count of zero. *)
Lemma section_count_wraps :
  ∃ bytes r, validate_module bytes = Some (Ok r) ∧ wv_section_count r = 0 ∧
    bytes = module_bytes (replicate (Z.to_nat 65536) empty_custom_section).
Proof.
  set (secs := replicate (Z.to_nat 65536) empty_custom_section).
  assert (∀ n, Forall is_byte (concat (section_bytes <$> replicate n empty_custom_section))) as Hbs.
  { induction n; cbn; repeat constructor; done. }
  assert (∀ n, length (concat (section_bytes <$> replicate n empty_custom_section)) = 2 * n)%nat as Hl.
  { induction n; cbn -[Nat.mul]; lia. }
  exists (module_bytes secs), (summary_from WASM_RESULT_DEFAULT secs). split_and!; [| |done].
  - apply validate_module_exact.
    { unfold module_bytes. apply Forall_app. split; [repeat constructor; done|].
      apply Forall_app. split; [repeat constructor; done|]. apply Hbs. }
    split.
    { unfold module_bytes, MAX_MODULE_SIZE. rewrite !length_app. unfold secs. rewrite Hl. cbn [length WASM_MAGIC WASM_VERSION_1]. lia. }
    exists secs. split_and!; [done| | |done].
    + apply Forall_replicate. split; [cbn; lia|done].
    + unfold secs. generalize (Z.to_nat 65536). induction n; [done|]. cbn. done.
  - destruct (summary_count secs WASM_RESULT_DEFAULT) as [->|Hs].
    + unfold secs. rewrite length_replicate. rewrite Z2Nat.id by lia. done.
    + apply (f_equal length) in Hs. unfold secs in Hs. rewrite length_replicate in Hs. cbn [length] in Hs. lia.
Qed.
