(* ===== verification/WasmStream.v ===== *)
(** Incremental validation of WebAssembly modules,
    [crates/rvm-wasm/src/module_policy.rs], [streaming.rs].

    [StreamingModuleValidator] feeds chunks to the external [wasmparser] crate
    and checks a policy as sections complete.  The crate is the interface
    [WasmParser] below with its documented behaviour as laws; against it the
    file proves that a module below the maximal length is accepted in every split
    or in none, with the same result, which errors may depend on the split,
    that the buffer is bounded by the limit of the item being read, and that
    every payload of an accepted module is within the policy. *)

From stdpp Require Import base numbers list option strings.
From Stdlib Require Import ZArith Lia.
From S2P Require Import Prelude.
From S2P Require Import Types.
From S2P Require Import WasmModule.

Local Open Scope rvm_scope.

(* ------------------------------------------------------------------ *)
(** ** Policy ([module_policy.rs]) *)

Definition UNBOUNDED_MEMORY_PAGES : Z := 65536.

Inductive Limit : Set :=
| LimModuleBytes | LimSectionBytes | LimFunctionBodyBytes | LimLocals | LimTypes | LimImports
| LimExports | LimFunctions | LimMemoryPages | LimTableElements | LimGlobals | LimDataSegments
| LimElementSegments.

Inductive ImportKind : Set := IkFunc | IkTable | IkMemory | IkGlobal | IkTag.

Record ImportRef : Set := mkImportRef { imp_module : string; imp_name : string; imp_kind : ImportKind }.

Record AllowedImport : Set := mkAllowedImport { al_module : string; al_name : option string }.

Inductive ImportPolicy : Set :=
| IpAllowAll
| IpDenyAll
| IpAllowlist (list : list AllowedImport)
| IpPredicate (f : ImportRef → bool).

Definition import_allows (p : ImportPolicy) (import : ImportRef) : bool :=
  match p with
  | IpAllowAll => true
  | IpDenyAll => false
  | IpAllowlist l =>
      existsb (λ a, bool_decide (al_module a = imp_module import) &&
                    match al_name a with None => true | Some n => bool_decide (n = imp_name import) end) l
  | IpPredicate f => f import
  end.

Record ModulePolicy : Set := mkModulePolicy {
  mo_max_module_bytes : Z;
  mo_max_section_bytes : Z;
  mo_max_function_body_bytes : Z;
  mo_max_locals : Z;
  mo_max_types : Z;
  mo_max_imports : Z;
  mo_max_exports : Z;
  mo_max_functions : Z;
  mo_max_memory_pages : Z;
  mo_imports : ImportPolicy;
  mo_max_table_elements : Z;
  mo_max_globals : Z;
  mo_max_data_segments : Z;
  mo_max_element_segments : Z;
}.

Definition MODULE_POLICY_DEFAULT : ModulePolicy :=
  mkModulePolicy MAX_MODULE_SIZE MAX_MODULE_SIZE (256 * 1024) 4096 10000 1024 1024 50000 1024
    IpDenyAll 65536 10000 10000 10000.

(** [usize] is 64 bits wide on every supported target. *)
Definition module_policy_permissive : ModulePolicy :=
  mkModulePolicy u64_max u64_max u64_max u32_max u32_max u32_max u32_max u32_max u64_max
    IpAllowAll u64_max u32_max u32_max u32_max.

Inductive ModuleError : Set :=
| MoInvalid (offset : Z) (message : string)
| MoTruncated
| MoLimitExceeded (l : Limit)
| MoForbiddenImport (index : Z)
| MoNotACoreModule.

(** [From<ModuleError> for RvmError]. *)
Definition module_error_to_rvm (e : ModuleError) : RvmError :=
  match e with
  | MoLimitExceeded _ => ResourceLimitExceeded
  | MoForbiddenImport _ => InsufficientCapability
  | MoNotACoreModule => Unsupported
  | MoInvalid _ _ | MoTruncated => ProofInvalid
  end.

(* ------------------------------------------------------------------ *)
(** ** The external parser

    What [streaming.rs] uses of [wasmparser].  A payload is opaque; [pl_view]
    is the part of it the code matches on, the items of a section being what
    its iterator yields. *)

Record BinaryReaderError : Set := mkBinaryReaderError { br_offset : Z; br_message : string }.

Record WasmMemoryType : Set := mkWasmMemoryType { me_maximum : option Z; me_memory64 : bool }.

Inductive WasmTypeRef : Set :=
| TrFunc | TrTable (initial : Z) | TrMemory (m : WasmMemoryType) | TrGlobal | TrTag.

Record WasmImport : Set := mkWasmImport { wi_module : string; wi_name : string; wi_ty : WasmTypeRef }.

Inductive PayloadView : Type :=
| PvVersion (core_module : bool)
| PvTypeSection (count : Z)
| PvImportSection (count : Z) (items : list (result BinaryReaderError WasmImport))
| PvGlobalSection (count : Z)
| PvDataSection (count : Z)
| PvElementSection (count : Z)
| PvTableSection (initials : list (result BinaryReaderError Z))
| PvMemorySection (memories : list (result BinaryReaderError WasmMemoryType))
| PvExportSection (count : Z)
| PvFunctionSection (count : Z)
| PvCodeSectionStart (count : Z)
| PvCodeSectionEntry (range_len : Z) (locals : result BinaryReaderError (list (result BinaryReaderError Z)))
| PvEnd
| PvOther.

Inductive Chunk (Payload : Type) : Type :=
| NeedMoreData (need : Z)
| Parsed (consumed : nat) (payload : Payload).
Arguments NeedMoreData {Payload} need.
Arguments Parsed {Payload} consumed payload.

(** [ValidPayload]: a function to validate carries its validator. *)
Inductive ValidPayload (Func : Type) : Type :=
| VpOk
| VpFunc (func : Func)
| VpEnd.
Arguments VpOk {Func}.
Arguments VpFunc {Func} func.
Arguments VpEnd {Func}.

Class WasmParser : Type := {
  WpParser : Type;
  WpValidator : Type;
  WpPayload : Type;
  WpFunc : Type;
  WpAllocs : Type;
  wp_parser_new : WpParser;
  wp_validator_new : WpValidator;
  wp_allocs_default : WpAllocs;
  wp_parse : list Z → bool → WpParser → result BinaryReaderError (Chunk WpPayload) * WpParser;
  wp_payload : WpPayload → WpValidator → result BinaryReaderError (ValidPayload WpFunc) * WpValidator;
  (** [into_validator(allocs)], [validate(&body)], [into_allocations()]. *)
  wp_validate_func : WpFunc → WpAllocs → result BinaryReaderError unit * WpAllocs;
  wp_view : WpPayload → PayloadView;
  (** [as_section()]: the section's id and the length of its range. *)
  wp_as_section : WpPayload → option (Z * Z);
  (** The code section entries still to come; only the laws speak of it. *)
  wp_entries : WpParser → Z;
}.

(** The behaviour [Parser::parse] documents: nothing is consumed when more
    data is needed; a payload is parsed from the bytes it consumed, whatever
    follows them, and consumes some unless it is the end of the module, which
    is reported at the end of the input only.  The hint of [NeedMoreData] asks for
    no more than the next payload takes, or for one byte at the end of the
    module.  [CodeSectionStart] is followed by as many [CodeSectionEntry] as it
    counts, and these come nowhere else.  An item is its content and a header: an
    id byte and a size of at most five bytes, the size alone for a code entry; the
    start of the code section is its header and a count of at most five bytes,
    and the module's header takes eight. *)
Class WasmParserLaws {W : WasmParser} : Prop := {
  wp_need_nothing d eof p n p' : wp_parse d eof p = (Ok (NeedMoreData n), p') → p' = p ∧ 0 ≤ n;
  wp_consumed d eof p c pl p' : wp_parse d eof p = (Ok (Parsed c pl), p') → (c ≤ length d)%nat;
  wp_progress d eof p c pl p' :
    wp_parse d eof p = (Ok (Parsed c pl), p') → c = O → wp_view pl = PvEnd;
  wp_end_at_eof d p c pl p' : wp_parse d false p = (Ok (Parsed c pl), p') → wp_view pl ≠ PvEnd;
  wp_prefix d x eof p c pl p' :
    wp_parse d false p = (Ok (Parsed c pl), p') → wp_parse (d ++ x) eof p = (Ok (Parsed c pl), p');
  wp_prefix_err d x eof p e p' :
    wp_parse d false p = (Err e, p') → ∃ p'', wp_parse (d ++ x) eof p = (Err e, p'');
  wp_payload_end pl v vp v' : wp_payload pl v = (Ok vp, v') → vp = VpEnd ↔ wp_view pl = PvEnd;
  wp_need_hint d x eof p n p' c pl p'' :
    wp_parse d false p = (Ok (NeedMoreData n), p') → wp_parse (d ++ x) eof p = (Ok (Parsed c pl), p'') →
    Z.of_nat (length d) + n ≤ Z.max 1 (Z.of_nat c);
  wp_entries_new : wp_entries wp_parser_new = 0;
  wp_entries_parsed d eof p c pl p' :
    wp_parse d eof p = (Ok (Parsed c pl), p') →
    match wp_view pl with
    | PvCodeSectionEntry _ _ => 0 < wp_entries p ∧ wp_entries p' = wp_entries p - 1
    | PvCodeSectionStart n => wp_entries p = 0 ∧ 0 ≤ n ∧ wp_entries p' = n
    | _ => wp_entries p = 0 ∧ wp_entries p' = 0
    end;
  wp_item_size d eof p c pl p' :
    wp_parse d eof p = (Ok (Parsed c pl), p') →
    match wp_view pl with
    | PvCodeSectionEntry len _ => wp_as_section pl = None ∧ Z.of_nat c ≤ len + 5
    | PvCodeSectionStart _ => Z.of_nat c ≤ 11
    | _ => match wp_as_section pl with
           | Some (id, len) => id ≠ 10 ∧ Z.of_nat c ≤ len + 6
           | None => Z.of_nat c ≤ 8
           end
    end;
}.

(* ------------------------------------------------------------------ *)
(** ** The validator ([streaming.rs]) *)

Definition HEADER_SLACK : Z := 8.

Record ValidatorProgress : Set := mkValidatorProgress {
  vp_bytes_received : Z;
  vp_bytes_parsed : Z;
  vp_bytes_buffered : Z;
  vp_functions_validated : Z;
  vp_imports_checked : bool;
}.

Record ValidatedModule : Set := mkValidatedModule {
  vm_byte_len : Z;
  vm_type_count : Z;
  vm_import_count : Z;
  vm_export_count : Z;
  vm_function_count : Z;
}.

Definition reader_error (e : BinaryReaderError) : ModuleError := MoInvalid (br_offset e) (br_message e).

Record StreamRun : Set := mkStreamRun { run_consumed : nat; run_need : Z; run_ended : bool }.

Section stream.
Context {W : WasmParser}.

Record Core : Type := mkCore {
  co_policy : ModulePolicy;
  co_parser : WpParser;
  co_validator : WpValidator;
  co_allocs : option WpAllocs;
  co_consumed_total : Z;
  co_code_remaining : Z;
  co_functions_validated : Z;
  co_imports_checked : bool;
  co_types : Z;
  co_imports : Z;
  co_exports : Z;
  co_functions : Z;
}.

Definition core_new (policy : ModulePolicy) : Core :=
  mkCore policy wp_parser_new wp_validator_new None 0 0 0 false 0 0 0 0.

Definition set_co_parser (p : WpParser) (c : Core) : Core :=
  mkCore (co_policy c) p (co_validator c) (co_allocs c) (co_consumed_total c) (co_code_remaining c)
    (co_functions_validated c) (co_imports_checked c) (co_types c) (co_imports c) (co_exports c) (co_functions c).
Definition set_co_validator (v : WpValidator) (c : Core) : Core :=
  mkCore (co_policy c) (co_parser c) v (co_allocs c) (co_consumed_total c) (co_code_remaining c)
    (co_functions_validated c) (co_imports_checked c) (co_types c) (co_imports c) (co_exports c) (co_functions c).
Definition set_co_allocs (a : option WpAllocs) (c : Core) : Core :=
  mkCore (co_policy c) (co_parser c) (co_validator c) a (co_consumed_total c) (co_code_remaining c)
    (co_functions_validated c) (co_imports_checked c) (co_types c) (co_imports c) (co_exports c) (co_functions c).
Definition set_co_consumed (t : Z) (c : Core) : Core :=
  mkCore (co_policy c) (co_parser c) (co_validator c) (co_allocs c) t (co_code_remaining c)
    (co_functions_validated c) (co_imports_checked c) (co_types c) (co_imports c) (co_exports c) (co_functions c).
Definition set_co_remaining (n : Z) (c : Core) : Core :=
  mkCore (co_policy c) (co_parser c) (co_validator c) (co_allocs c) (co_consumed_total c) n
    (co_functions_validated c) (co_imports_checked c) (co_types c) (co_imports c) (co_exports c) (co_functions c).
Definition set_co_validated (n : Z) (c : Core) : Core :=
  mkCore (co_policy c) (co_parser c) (co_validator c) (co_allocs c) (co_consumed_total c) (co_code_remaining c)
    n (co_imports_checked c) (co_types c) (co_imports c) (co_exports c) (co_functions c).
Definition set_co_imports_checked (b : bool) (c : Core) : Core :=
  mkCore (co_policy c) (co_parser c) (co_validator c) (co_allocs c) (co_consumed_total c) (co_code_remaining c)
    (co_functions_validated c) b (co_types c) (co_imports c) (co_exports c) (co_functions c).
(** The four section counts. *)
Definition set_co_counts (types imports exports functions : Z) (c : Core) : Core :=
  mkCore (co_policy c) (co_parser c) (co_validator c) (co_allocs c) (co_consumed_total c) (co_code_remaining c)
    (co_functions_validated c) (co_imports_checked c) types imports exports functions.

Definition buffer_limit (c : Core) : Z * Limit :=
  if 0 <? co_code_remaining c then
    (sat_add u64_max (mo_max_function_body_bytes (co_policy c)) HEADER_SLACK, LimFunctionBodyBytes)
  else (sat_add u64_max (mo_max_section_bytes (co_policy c)) HEADER_SLACK, LimSectionBytes).

Definition over (count max : Z) (limit : Limit) : result ModuleError unit :=
  if max <? count then Err (MoLimitExceeded limit) else Ok tt.

Definition check_table (initial : Z) (c : Core) : result ModuleError unit :=
  if mo_max_table_elements (co_policy c) <? initial then Err (MoLimitExceeded LimTableElements) else Ok tt.

Definition effective_pages (m : WasmMemoryType) : Z :=
  match me_maximum m with
  | Some max => max
  | None => if me_memory64 m then u64_max else UNBOUNDED_MEMORY_PAGES
  end.

Definition check_wasm_memory (m : WasmMemoryType) (c : Core) : result ModuleError unit :=
  if mo_max_memory_pages (co_policy c) <? effective_pages m then Err (MoLimitExceeded LimMemoryPages) else Ok tt.

(** [for t in s { let t = t.map_err(conv)?; check(t)?; }]. *)
Fixpoint check_items {A} (check : A → result ModuleError unit) (items : list (result BinaryReaderError A))
    : result ModuleError unit :=
  match items with
  | [] => Ok tt
  | Err e :: _ => Err (reader_error e)
  | Ok a :: items => match check a with Err e => Err e | Ok _ => check_items check items end
  end.

(** The loop over the runs of locals of one body. *)
Fixpoint check_locals (max : Z) (total : Z) (runs : list (result BinaryReaderError Z)) : result ModuleError unit :=
  match runs with
  | [] => Ok tt
  | Err e :: _ => Err (reader_error e)
  | Ok n :: runs =>
      let total := sat_add u32_max total n in
      match over total max LimLocals with Err e => Err e | Ok _ => check_locals max total runs end
  end.

Definition precheck (payload : PayloadView) : prog Core ModuleError unit := λ c,
  let pol := co_policy c in
  match payload with
  | PvVersion false => (Err MoNotACoreModule, c)
  | PvTypeSection n =>
      let c := set_co_counts n (co_imports c) (co_exports c) (co_functions c) c in
      (over n (mo_max_types pol) LimTypes, c)
  | PvImportSection n _ =>
      let c := set_co_counts (co_types c) n (co_exports c) (co_functions c) c in
      (over n (mo_max_imports pol) LimImports, c)
  | PvGlobalSection n => (over n (mo_max_globals pol) LimGlobals, c)
  | PvDataSection n => (over n (mo_max_data_segments pol) LimDataSegments, c)
  | PvElementSection n => (over n (mo_max_element_segments pol) LimElementSegments, c)
  | PvTableSection initials => (check_items (λ i, check_table i c) initials, c)
  | PvExportSection n =>
      let c := set_co_counts (co_types c) (co_imports c) n (co_functions c) c in
      (over n (mo_max_exports pol) LimExports, c)
  | PvFunctionSection n =>
      let c := set_co_counts (co_types c) (co_imports c) (co_exports c) n c in
      (over n (mo_max_functions pol) LimFunctions, c)
  | PvCodeSectionStart n =>
      match over n (mo_max_functions pol) LimFunctions with
      | Err e => (Err e, c)
      | Ok _ => (Ok tt, set_co_remaining n c)
      end
  | PvCodeSectionEntry range_len locals =>
      let c := set_co_remaining (sat_sub (co_code_remaining c) 1) c in
      if mo_max_function_body_bytes pol <? range_len then (Err (MoLimitExceeded LimFunctionBodyBytes), c)
      else
        match locals with
        | Err e => (Err (reader_error e), c)
        | Ok runs => (check_locals (mo_max_locals pol) 0 runs, c)
        end
  | _ => (Ok tt, c)
  end.

(** The loop over the imports, [i] the index of the first. *)
Fixpoint check_imports (i : Z) (items : list (result BinaryReaderError WasmImport)) (c : Core)
    : result ModuleError unit :=
  match items with
  | [] => Ok tt
  | Err e :: _ => Err (reader_error e)
  | Ok imp :: items =>
      let kind :=
        match wi_ty imp with
        | TrFunc => Ok IkFunc
        | TrTable initial => match check_table initial c with Err e => Err e | Ok _ => Ok IkTable end
        | TrMemory m => match check_wasm_memory m c with Err e => Err e | Ok _ => Ok IkMemory end
        | TrGlobal => Ok IkGlobal
        | TrTag => Ok IkTag
        end in
      match kind with
      | Err e => Err e
      | Ok kind =>
          let r := mkImportRef (wi_module imp) (wi_name imp) kind in
          if negb (import_allows (mo_imports (co_policy c)) r) then Err (MoForbiddenImport i)
          else check_imports (wrap32 (i + 1)) items c
      end
  end.

(** The checks on a section the validator has accepted. *)
Definition content_checks (payload : PayloadView) : prog Core ModuleError bool := λ c,
  match payload with
  | PvImportSection _ items =>
      match check_imports 0 items c with
      | Err e => (Err e, c)
      | Ok _ => (Ok false, set_co_imports_checked true c)
      end
  | PvMemorySection ms =>
      match check_items (λ m, check_wasm_memory m c) ms with Err e => (Err e, c) | Ok _ => (Ok false, c) end
  | _ => (Ok false, c)
  end.

(** Feed the payload to the validator: [true] when the module has ended. *)
Definition validate_payload (payload : WpPayload) : prog Core ModuleError bool := λ c,
  let '(r, v) := wp_payload payload (co_validator c) in
  let c := set_co_validator v c in
  match r with
  | Err e => (Err (reader_error e), c)
  | Ok (VpFunc func) =>
      let '(r, allocs) := wp_validate_func func (default wp_allocs_default (co_allocs c)) in
      let c := set_co_allocs (Some allocs) c in
      match r with
      | Err e => (Err (reader_error e), c)
      | Ok _ => (Ok false, set_co_validated (wrap32 (co_functions_validated c + 1)) c)
      end
  | Ok VpEnd => (Ok true, c)
  | Ok VpOk => (Ok false, c)
  end.

Definition handle (payload : WpPayload) : prog Core ModuleError bool := λ c,
  if (match wp_as_section payload with
      | Some (id, len) => negb (id =? 10) && (mo_max_section_bytes (co_policy c) <? len)
      | None => false
      end) then (Err (MoLimitExceeded LimSectionBytes), c)
  else
    (precheck (wp_view payload) ;;;
     let? ended := validate_payload payload in
     if (ended : bool) then pret true else content_checks (wp_view payload)) c.

(** The loop of [run] on [data[pos..]]; [None] is running out of fuel. *)
Fixpoint run_loop (fuel : nat) (rest : list Z) (pos : nat) (eof : bool) (c : Core)
    : option (result ModuleError StreamRun * Core) :=
  match fuel with
  | O => None
  | S fuel =>
      let '(r, p) := wp_parse rest eof (co_parser c) in
      let c := set_co_parser p c in
      match r with
      | Err e => Some (Err (reader_error e), c)
      | Ok (NeedMoreData need) =>
          Some (if eof then Err MoTruncated else Ok (mkStreamRun pos need false), c)
      | Ok (Parsed consumed payload) =>
          match handle payload c with
          | (Err e, c) => Some (Err e, c)
          | (Ok ended, c) =>
              let pos := (pos + consumed)%nat in
              let c := set_co_consumed (co_consumed_total c + Z.of_nat consumed) c in
              if (ended : bool) then Some (Ok (mkStreamRun pos 0 true), c)
              else run_loop fuel (drop consumed rest) pos eof c
          end
      end
  end.

Definition core_run (data : list Z) (eof : bool) (c : Core) : option (result ModuleError StreamRun * Core) :=
  run_loop (S (length data)) data 0 eof c.

Record StreamingModuleValidator : Type := mkStreamingModuleValidator {
  sv_core : Core;
  sv_buf : list Z;
  sv_need_len : Z;
  sv_received : Z;
  sv_failed : option ModuleError;
}.

Definition stream_validator_new (policy : ModulePolicy) : StreamingModuleValidator :=
  mkStreamingModuleValidator (core_new policy) [] 0 0 None.

Definition validator_progress (v : StreamingModuleValidator) : ValidatorProgress :=
  mkValidatorProgress (sv_received v) (co_consumed_total (sv_core v)) (Z.of_nat (length (sv_buf v)))
    (co_functions_validated (sv_core v)) (co_imports_checked (sv_core v)).

Definition check_wait (remaining need : Z) (c : Core) : result ModuleError unit :=
  let total := sat_add u64_max remaining need in
  if mo_max_module_bytes (co_policy c) <? sat_add u64_max (co_consumed_total c) total
  then Err (MoLimitExceeded LimModuleBytes)
  else
    let '(limit, which) := buffer_limit c in
    if limit <? total then Err (MoLimitExceeded which) else Ok tt.

(** The [while !input.is_empty()] loop; [None] is running out of fuel. *)
Fixpoint push_loop (fuel : nat) (input buf : list Z) (need_len : Z) (c : Core)
    : option (result ModuleError unit * (list Z * Z * Core)) :=
  match fuel with
  | O => None
  | S fuel =>
      match input with
      | [] => Some (Ok tt, (buf, need_len, c))
      | _ :: _ =>
          match buf with
          | [] =>
              match core_run input false c with
              | None => None
              | Some (Err e, c) => Some (Err e, (buf, need_len, c))
              | Some (Ok run, c) =>
                  let input := drop (run_consumed run) input in
                  match input with
                  | [] => push_loop fuel [] [] need_len c
                  | _ :: _ =>
                      let len := Z.of_nat (length input) in
                      match check_wait len (run_need run) c with
                      | Err e => Some (Err e, (buf, need_len, c))
                      | Ok _ => push_loop fuel [] input (sat_add u64_max len (run_need run)) c
                      end
                  end
              end
          | _ :: _ =>
              let want := Z.max (sat_sub need_len (Z.of_nat (length buf))) 1 in
              let take_n := Z.to_nat (Z.min want (Z.of_nat (length input))) in
              let buf := buf ++ take take_n input in
              let input := drop take_n input in
              if Z.of_nat (length buf) <? need_len then push_loop fuel input buf need_len c
              else
                match core_run buf false c with
                | None => None
                | Some (Err e, c) => Some (Err e, (buf, need_len, c))
                | Some (Ok run, c) =>
                    let buf := drop (run_consumed run) buf in
                    let len := Z.of_nat (length buf) in
                    match check_wait len (run_need run) c with
                    | Err e => Some (Err e, (buf, need_len, c))
                    | Ok _ => push_loop fuel input buf (sat_add u64_max len (run_need run)) c
                    end
                end
          end
      end
  end.

Definition push_inner (input : list Z) (v : StreamingModuleValidator)
    : option (result ModuleError unit * StreamingModuleValidator) :=
  let total := sat_add u64_max (sv_received v) (Z.of_nat (length input)) in
  if mo_max_module_bytes (co_policy (sv_core v)) <? total then Some (Err (MoLimitExceeded LimModuleBytes), v)
  else
    match push_loop (S (length input)) input (sv_buf v) (sv_need_len v) (sv_core v) with
    | None => None
    | Some (r, (buf, need_len, c)) => Some (r, mkStreamingModuleValidator c buf need_len total (sv_failed v))
    end.

Definition stream_push (bytes : list Z) (v : StreamingModuleValidator)
    : option (result ModuleError ValidatorProgress * StreamingModuleValidator) :=
  match sv_failed v with
  | Some e => Some (Err e, v)
  | None =>
      match push_inner bytes v with
      | None => None
      | Some (Ok _, v) => Some (Ok (validator_progress v), v)
      | Some (Err e, v) =>
          Some (Err e, mkStreamingModuleValidator (sv_core v) [] (sv_need_len v) (sv_received v) (Some e))
      end
  end.

Definition validated_module (received : Z) (c : Core) : ValidatedModule :=
  mkValidatedModule received (co_types c) (co_imports c) (co_exports c) (co_functions_validated c).

Definition stream_finish (v : StreamingModuleValidator) : option (result ModuleError ValidatedModule) :=
  match sv_failed v with
  | Some e => Some (Err e)
  | None =>
      match core_run (sv_buf v) true (sv_core v) with
      | None => None
      | Some (Err e, _) => Some (Err e)
      | Some (Ok run, c) =>
          if negb (run_ended run) || negb (run_consumed run =? length (sv_buf v))%nat then Some (Err MoTruncated)
          else Some (Ok (validated_module (sv_received v) c))
      end
  end.

(** Push a list of chunks until one fails. *)
Fixpoint stream_push_all (chunks : list (list Z)) (v : StreamingModuleValidator)
    : option (result ModuleError unit * StreamingModuleValidator) :=
  match chunks with
  | [] => Some (Ok tt, v)
  | b :: chunks =>
      match stream_push b v with
      | None => None
      | Some (Err e, v) => Some (Err e, v)
      | Some (Ok _, v) => stream_push_all chunks v
      end
  end.

(* ------------------------------------------------------------------ *)
(** ** One payload *)

Lemma over_Ok n max lim u : over n max lim = Ok u → n ≤ max.
Proof. unfold over. destruct (_ <? _) eqn:E; [done|]. by split_bool. Qed.

(** Every import of an accepted section is allowed, and its memory or table
    within limits. *)
Definition import_ok (pol : ModulePolicy) (imp : WasmImport) : Prop :=
  ∃ kind, import_allows (mo_imports pol) (mkImportRef (wi_module imp) (wi_name imp) kind) = true ∧
    match wi_ty imp with
    | TrFunc => kind = IkFunc
    | TrTable initial => kind = IkTable ∧ initial ≤ mo_max_table_elements pol
    | TrMemory m => kind = IkMemory ∧ effective_pages m ≤ mo_max_memory_pages pol
    | TrGlobal => kind = IkGlobal
    | TrTag => kind = IkTag
    end.

(** Every item of a section is readable and satisfies [P]. *)
Definition all_items {A} (P : A → Prop) (items : list (result BinaryReaderError A)) : Prop :=
  Forall (λ r, ∃ a, r = Ok a ∧ P a) items.

(** The runs of locals of a body are readable and their total, as far as a [u32]
    counts, is at most [max]. *)
Definition locals_within (max : Z) (locals : result BinaryReaderError (list (result BinaryReaderError Z))) : Prop :=
  ∃ ns, locals = Ok (Ok <$> ns) ∧ (Forall (λ n, 0 ≤ n) ns → Z.min u32_max (foldr Z.add 0 ns) ≤ Z.max 0 max).

(** The policy, payload by payload. *)
Definition payload_within (pol : ModulePolicy) (pl : WpPayload) : Prop :=
  (∀ id len, wp_as_section pl = Some (id, len) → id ≠ 10 → len ≤ mo_max_section_bytes pol) ∧
  match wp_view pl with
  | PvVersion core_module => core_module = true
  | PvTypeSection n => n ≤ mo_max_types pol
  | PvImportSection n items => n ≤ mo_max_imports pol ∧ all_items (import_ok pol) items
  | PvGlobalSection n => n ≤ mo_max_globals pol
  | PvDataSection n => n ≤ mo_max_data_segments pol
  | PvElementSection n => n ≤ mo_max_element_segments pol
  | PvTableSection initials => all_items (λ i, i ≤ mo_max_table_elements pol) initials
  | PvMemorySection memories => all_items (λ m, effective_pages m ≤ mo_max_memory_pages pol) memories
  | PvExportSection n => n ≤ mo_max_exports pol
  | PvFunctionSection n | PvCodeSectionStart n => n ≤ mo_max_functions pol
  | PvCodeSectionEntry len locals => len ≤ mo_max_function_body_bytes pol ∧ locals_within (mo_max_locals pol) locals
  | PvEnd | PvOther => True
  end.

(** What a payload does to the counters. *)
Definition remaining_after (pv : PayloadView) (n : Z) : Z :=
  match pv with PvCodeSectionStart count => count | PvCodeSectionEntry _ _ => sat_sub n 1 | _ => n end.
Definition types_of (pv : PayloadView) : option Z := match pv with PvTypeSection n => Some n | _ => None end.
Definition imports_of (pv : PayloadView) : option Z := match pv with PvImportSection n _ => Some n | _ => None end.
Definition exports_of (pv : PayloadView) : option Z := match pv with PvExportSection n => Some n | _ => None end.

Record handled (pv : PayloadView) (c c' : Core) : Prop := {
  hd_policy : co_policy c' = co_policy c;
  hd_parser : co_parser c' = co_parser c;
  hd_consumed : co_consumed_total c' = co_consumed_total c;
  hd_remaining : co_code_remaining c' = remaining_after pv (co_code_remaining c);
  hd_types : co_types c' = default (co_types c) (types_of pv);
  hd_imports : co_imports c' = default (co_imports c) (imports_of pv);
  hd_exports : co_exports c' = default (co_exports c) (exports_of pv);
}.

Lemma check_items_Ok {A} (check : A → result ModuleError unit) (P : A → Prop) items u :
  (∀ a u, check a = Ok u → P a) → check_items check items = Ok u → all_items P items.
Proof.
  intros HP. induction items as [|[a|e] items IH]; cbn; [constructor| |done].
  destruct (check a) eqn:E; [|done]. intros H. constructor; [|by apply IH]. exists a. split; [done|by eapply HP].
Qed.

Lemma check_table_Ok pol c i u : co_policy c = pol → check_table i c = Ok u → i ≤ mo_max_table_elements pol.
Proof. intros <-. unfold check_table. destruct (_ <? _) eqn:E; [done|]. by split_bool. Qed.
Lemma check_memory_Ok pol c m u : co_policy c = pol → check_wasm_memory m c = Ok u → effective_pages m ≤ mo_max_memory_pages pol.
Proof. intros <-. unfold check_wasm_memory. destruct (_ <? _) eqn:E; [done|]. by split_bool. Qed.

Lemma check_locals_read max total runs u : check_locals max total runs = Ok u → ∃ ns, runs = Ok <$> ns.
Proof.
  revert total. induction runs as [|[n|e] runs IH]; intros total; cbn; [by exists []|destruct (over _ _ _)|done]; [|done].
  intros (ns & ->)%IH. by exists (n :: ns).
Qed.
Lemma check_locals_bound max total ns u :
  0 ≤ total → Forall (λ n, 0 ≤ n) ns → check_locals max total (Ok <$> ns) = Ok u →
  ns = [] ∨ Z.min u32_max (total + foldr Z.add 0 ns) ≤ max.
Proof.
  revert total. induction ns as [|n ns IH]; intros total Ht Hns; [by left|]. apply Forall_cons in Hns as [Hn Hns].
  cbn. destruct (over _ _ _) eqn:E; [|done]. apply over_Ok in E. intros H. right.
  assert (0 ≤ sat_add u32_max total n) as Hs by (unfold sat_add, u32_max; lia).
  destruct (IH _ Hs Hns H) as [->|]; unfold sat_add in *; cbn; lia.
Qed.
Lemma check_locals_Ok max runs u : check_locals max 0 runs = Ok u → locals_within max (Ok runs).
Proof.
  intros H. destruct (check_locals_read _ _ _ _ H) as [ns ->]. exists ns. split; [done|]. intros Hns.
  destruct (check_locals_bound max 0 ns u ltac:(done) Hns H) as [->|]; cbn in *; lia.
Qed.

Lemma check_imports_Ok pol items i c u : co_policy c = pol → check_imports i items c = Ok u → all_items (import_ok pol) items.
Proof.
  intros Hpol. revert i. induction items as [|[imp|e] items IH]; intros i; cbn; [constructor| |done].
  intros H. destruct (wi_ty imp) as [|initial|m| |] eqn:Ety; cbn in H.
  2: destruct (check_table initial c) eqn:El; [apply (check_table_Ok pol) in El; [|done]|done].
  3: destruct (check_wasm_memory m c) eqn:El; [apply (check_memory_Ok pol) in El; [|done]|done].
  all: match type of H with (if negb ?b then _ else _) = _ => destruct b eqn:Ea end; [|done]; cbn [negb] in H;
    (constructor; [|by eapply IH]); exists imp; (split; [done|]); eexists; (split; [rewrite <-Hpol; exact Ea|]); by rewrite Ety.
Qed.

(** The checks before the validator, those after it, and the validator. *)
Lemma precheck_spec pv c u c' :
  precheck pv c = (Ok u, c') →
  handled pv c c' ∧
  match pv with
  | PvVersion core_module => core_module = true
  | PvTypeSection n => n ≤ mo_max_types (co_policy c)
  | PvImportSection n _ => n ≤ mo_max_imports (co_policy c)
  | PvGlobalSection n => n ≤ mo_max_globals (co_policy c)
  | PvDataSection n => n ≤ mo_max_data_segments (co_policy c)
  | PvElementSection n => n ≤ mo_max_element_segments (co_policy c)
  | PvTableSection ts => all_items (λ i, i ≤ mo_max_table_elements (co_policy c)) ts
  | PvExportSection n => n ≤ mo_max_exports (co_policy c)
  | PvFunctionSection n | PvCodeSectionStart n => n ≤ mo_max_functions (co_policy c)
  | PvCodeSectionEntry len locals =>
      len ≤ mo_max_function_body_bytes (co_policy c) ∧ locals_within (mo_max_locals (co_policy c)) locals
  | PvMemorySection _ | PvEnd | PvOther => True
  end.
Proof.
  intros H. destruct pv as [[]| | | | | | | | | |n|len locals| |]; cbn in H; try done;
    try (injection H as H <-; split; [by split|]; by eapply over_Ok); try (injection H as <- <-; by split).
  - injection H as H <-. split; [by split|]. eapply check_items_Ok; [|exact H]. intros i u'. by apply check_table_Ok.
  - destruct (over _ _ _) eqn:E; [|done]. injection H as <- <-. split; [by split|]. by eapply over_Ok.
  - destruct (_ <? _) eqn:E; [done|]. split_bool. destruct locals as [runs|]; [|done]. injection H as H <-.
    split; [by split|]. split; [done|by eapply check_locals_Ok].
Qed.

Lemma content_checks_spec pv c b c' :
  content_checks pv c = (Ok b, c') →
  b = false ∧ (∃ checked, c' = if checked : bool then set_co_imports_checked true c else c) ∧
  match pv with
  | PvImportSection _ items => all_items (import_ok (co_policy c)) items
  | PvMemorySection ms => all_items (λ m, effective_pages m ≤ mo_max_memory_pages (co_policy c)) ms
  | _ => True
  end.
Proof.
  intros H. destruct pv; cbn in H; try (injection H as <- <-; split; [done|]; split; [by exists false|done]).
  - destruct (check_imports _ _ _) eqn:E; [|done]. injection H as <- <-. split; [done|]. split; [by exists true|].
    by eapply check_imports_Ok.
  - destruct (check_items _ _) eqn:E; [|done]. injection H as <- <-. split; [done|]. split; [by exists false|].
    eapply check_items_Ok; [|exact E]. intros m u. by apply check_memory_Ok.
Qed.

Lemma validate_payload_spec {L : WasmParserLaws} pl c b c' :
  validate_payload pl c = (Ok b, c') →
  handled PvOther c c' ∧ (b = true ↔ wp_view pl = PvEnd).
Proof.
  unfold validate_payload. destruct (wp_payload pl (co_validator c)) as [[vp|e] v] eqn:Ep; [|done].
  apply wp_payload_end in Ep. destruct vp as [|func|].
  - intros [= <- <-]. split; [by split|]. by rewrite <-Ep.
  - destruct (wp_validate_func _ _) as [[u|e] al]; [|done]. intros [= <- <-]. split; [by split|]. by rewrite <-Ep.
  - intros [= <- <-]. split; [by split|]. by rewrite <-Ep.
Qed.

(** A payload that is accepted is within the policy, has its effect on the
    counters, and ends the module exactly when it is the end. *)
Lemma handle_spec {L : WasmParserLaws} pl c b c' :
  handle pl c = (Ok b, c') →
  payload_within (co_policy c) pl ∧ handled (wp_view pl) c c' ∧ (b = true ↔ wp_view pl = PvEnd).
Proof.
  unfold handle. destruct (match wp_as_section pl with Some _ => _ | None => _ end) eqn:Es; [done|].
  intros H. apply pbind_ok in H as (u & c1 & Hp & H). apply pbind_ok in H as (ended & c2 & Hv & H).
  apply precheck_spec in Hp as [[Hp1 Hp2 Hp3 Hp4 Hp5 Hp6 Hp7] Hin].
  apply validate_payload_spec in Hv as [[Hv1 Hv2 Hv3 Hv4 Hv5 Hv6 Hv7] He]. cbn in *.
  assert (∀ id len, wp_as_section pl = Some (id, len) → id ≠ 10 → len ≤ mo_max_section_bytes (co_policy c)) as Hs.
  { intros id len E Hid. rewrite E in Es. destruct (id =? 10) eqn:E10; split_bool; cbn in Es; split_bool; lia. }
  destruct ended.
  - apply pret_ok in H as [-> ->]. pose proof (proj1 He eq_refl) as Hend. rewrite Hend in *. cbn in *.
    split_and!; [|split; cbn; congruence|done]. split; [done|]. by rewrite Hend.
  - apply content_checks_spec in H as (-> & [checked ->] & Hcont).
    split_and!; [|split; destruct checked; cbn; congruence|by split; [|intros Hend%He]].
    split; [done|]. rewrite Hv1, Hp1 in Hcont. by destruct (wp_view pl).
Qed.

(** Too large a section or body is the first thing reported. *)
Lemma handle_too_large pl c :
  match wp_view pl with
  | PvCodeSectionEntry len _ => wp_as_section pl = None ∧ mo_max_function_body_bytes (co_policy c) < len →
      ∃ c', handle pl c = (Err (MoLimitExceeded LimFunctionBodyBytes), c')
  | _ => ∀ id len, wp_as_section pl = Some (id, len) → id ≠ 10 → mo_max_section_bytes (co_policy c) < len →
      ∃ c', handle pl c = (Err (MoLimitExceeded LimSectionBytes), c')
  end.
Proof.
  assert (∀ id len, wp_as_section pl = Some (id, len) → id ≠ 10 → mo_max_section_bytes (co_policy c) < len →
    ∃ c', handle pl c = (Err (MoLimitExceeded LimSectionBytes), c')) as Hs.
  { intros id len E Hid Hlen. unfold handle. rewrite E. eexists.
    replace (id =? 10) with false by (symmetry; by apply Z.eqb_neq). by rewrite (proj2 (Z.ltb_lt _ _) Hlen). }
  destruct (wp_view pl) as [| | | | | | | | | | |len locals| |] eqn:Ev; try exact Hs. intros [E Hlen]. unfold handle. rewrite E, Ev.
  eexists. unfold pbind. cbn. by rewrite (proj2 (Z.ltb_lt _ _) Hlen).
Qed.

(** Whatever the parser reports, an import section gets past the validator
    only when every import in it is allowed by the policy, tables and memories
    included, and there are no more of them than the policy's limit. *)
Theorem handled_imports_allowed {L : WasmParserLaws} pl c b c' n items :
  handle pl c = (Ok b, c') → wp_view pl = PvImportSection n items →
  n ≤ mo_max_imports (co_policy c) ∧ all_items (import_ok (co_policy c)) items.
Proof. intros (H & _ & _)%handle_spec Hv. destruct H as [_ H]. by rewrite Hv in H. Qed.

(* ------------------------------------------------------------------ *)
(** ** Runs of the parser *)

Context {L : WasmParserLaws}.

(** A core works under its policy and counts the code section entries as the
    parser does. *)
Record core_ok (pol : ModulePolicy) (c : Core) : Prop := {
  ck_policy : co_policy c = pol;
  ck_entries : co_code_remaining c = wp_entries (co_parser c);
}.

Lemma core_new_ok pol : core_ok pol (core_new pol).
Proof. split; cbn; [done|by rewrite wp_entries_new]. Qed.

Lemma set_co_parser_id c : set_co_parser (co_parser c) c = c.
Proof. by destruct c. Qed.

(** A payload that does not end the module consumed some bytes. *)
Lemma parsed_consumes pol rest eof c n pl p c1 :
  core_ok pol c →
  wp_parse rest eof (co_parser c) = (Ok (Parsed n pl), p) → handle pl (set_co_parser p c) = (Ok false, c1) →
  (0 < n ≤ length rest)%nat ∧ core_ok pol (set_co_consumed (co_consumed_total c1 + Z.of_nat n) c1) ∧
  co_consumed_total c1 = co_consumed_total c ∧ co_parser c1 = p.
Proof.
  intros [Hpol Hent] Hp Hh. pose proof (wp_consumed _ _ _ _ _ _ Hp) as Hle.
  apply handle_spec in Hh as (_ & [H1 H2 H3 H4 _ _ _] & Hend). cbn in *. split_and!; [|done| |done|done].
  - destruct (decide (n = O)) as [Hn|]; [|lia]. pose proof (wp_progress _ _ _ _ _ _ Hp Hn) as Hv. by apply Hend in Hv.
  - split; cbn; [congruence|]. rewrite H4, H2. pose proof (wp_entries_parsed _ _ _ _ _ _ Hp) as He.
    rewrite Hent. destruct (wp_view pl); cbn; unfold sat_sub; lia.
Qed.

(** Fuel for one iteration per byte, and one more, is enough. *)
Lemma run_loop_total pol fuel rest pos eof c :
  core_ok pol c → (length rest < fuel)%nat →
  ∃ r c', run_loop fuel rest pos eof c = Some (r, c') ∧
    (∀ fuel', (length rest < fuel')%nat → run_loop fuel' rest pos eof c = Some (r, c')).
Proof.
  revert rest pos c. induction fuel as [|fuel IH]; intros rest pos c Hc Hf; [lia|].
  cbn [run_loop]. destruct (wp_parse rest eof (co_parser c)) as [[[need|n pl]|e] p] eqn:Ep.
  - eexists _, _. split; [done|]. intros [|fuel'] Hf'; [lia|]. cbn [run_loop]. by rewrite Ep.
  - destruct (handle pl (set_co_parser p c)) as [[ended|e] c1] eqn:Eh.
    2: { eexists _, _. split; [done|]. intros [|fuel'] ?; [lia|]. cbn [run_loop]. by rewrite Ep, Eh. }
    destruct ended.
    + eexists _, _. split; [done|]. intros [|fuel'] ?; [lia|]. cbn [run_loop]. by rewrite Ep, Eh.
    + destruct (parsed_consumes pol _ _ _ _ _ _ _ Hc Ep Eh) as (Hn & Hc1 & _).
      destruct (IH (drop n rest) (pos + n)%nat _ Hc1) as (r & c' & Hr & Hf').
      { rewrite length_drop. lia. }
      exists r, c'. split; [done|]. intros [|fuel'] Hfu; [lia|]. cbn [run_loop]. rewrite Ep, Eh.
      apply Hf'. rewrite length_drop. lia.
  - eexists _, _. split; [done|]. intros [|fuel'] ?; [lia|]. cbn [run_loop]. by rewrite Ep.
Qed.

Lemma core_run_total pol data eof c : core_ok pol c → ∃ r c', core_run data eof c = Some (r, c').
Proof.
  intros Hc. destruct (run_loop_total pol (S (length data)) data 0 eof c Hc ltac:(lia)) as (r & c' & H & _).
  by exists r, c'.
Qed.

(** What the loop started at [pos] says, relative to [pos]. *)
Definition shift_run (k : nat) (o : option (result ModuleError StreamRun * Core)) :
    option (result ModuleError StreamRun * Core) :=
  match o with
  | Some (Ok run, c) => Some (Ok (mkStreamRun (k + run_consumed run) (run_need run) (run_ended run)), c)
  | o => o
  end.

Lemma run_loop_shift fuel rest k pos eof c :
  run_loop fuel rest (k + pos) eof c = shift_run k (run_loop fuel rest pos eof c).
Proof.
  revert rest pos c. induction fuel as [|fuel IH]; intros rest pos c; [done|]. cbn [run_loop].
  destruct (wp_parse _ _ _) as [[[need|n pl]|e] p]; [by destruct eof| |done].
  destruct (handle _ _) as [[[]|] c1]; [|by rewrite <-IH, Nat.add_assoc|done].
  cbn. by rewrite Nat.add_assoc.
Qed.

(** A run on a prefix stops where the parser wants more data, and is the beginning
    of the run on the whole. *)
Lemma run_loop_prefix pol fuel rest pos c r c' x fuel' :
  core_ok pol c → run_loop fuel rest pos false c = Some (r, c') → (length (rest ++ x) < fuel')%nat →
  match r with
  | Ok run => ∃ k, run_consumed run = (pos + k)%nat ∧ (k ≤ length rest)%nat ∧
      core_ok pol c' ∧ co_consumed_total c' = co_consumed_total c + Z.of_nat k ∧
      wp_parse (drop k rest) false (co_parser c') = (Ok (NeedMoreData (run_need run)), co_parser c') ∧
      ∃ fuel'', (length (drop k rest ++ x) < fuel'')%nat ∧
        run_loop fuel' (rest ++ x) pos true c = run_loop fuel'' (drop k rest ++ x) (pos + k) true c'
  | Err e => ∃ c'', run_loop fuel' (rest ++ x) pos true c = Some (Err e, c'')
  end.
Proof.
  revert rest pos c fuel'. induction fuel as [|fuel IH]; intros rest pos c fuel' Hc Hrun Hf; [done|].
  cbn [run_loop] in Hrun. destruct (wp_parse rest false (co_parser c)) as [[[need|n pl]|e] p] eqn:Ep.
  - injection Hrun as <- <-. pose proof (wp_need_nothing _ _ _ _ _ Ep) as [-> Hneed]. rewrite set_co_parser_id.
    exists 0%nat. cbn. split_and!; [lia|lia|done|lia|done|]. exists fuel'. by rewrite Nat.add_0_r.
  - destruct fuel' as [|fuel']; [lia|]. cbn [run_loop]. rewrite (wp_prefix _ x true _ _ _ _ Ep).
    destruct (handle pl (set_co_parser p c)) as [[ended|e] c1] eqn:Eh.
    2: { injection Hrun as <- <-. by eexists. }
    destruct ended.
    { exfalso. apply (wp_end_at_eof _ _ _ _ _ Ep). apply handle_spec in Eh as (_ & _ & He). by apply He. }
    destruct (parsed_consumes pol _ _ _ _ _ _ _ Hc Ep Eh) as (Hn & Hc1 & Ht & _).
    rewrite drop_app_le by lia.
    specialize (IH _ _ _ fuel' Hc1 Hrun). rewrite !length_app, length_drop in IH. rewrite length_app in Hf.
    specialize (IH ltac:(lia)). destruct r as [run|e]; [|done].
    destruct IH as (k & Hr & Hk & Hc' & Htot & Hparse & fuel'' & Hf'' & Heq). exists (n + k)%nat.
    rewrite drop_drop in *. cbn in Htot. split_and!; [lia|lia|done|lia|done|]. exists fuel''. by rewrite Nat.add_assoc.
  - injection Hrun as <- <-. destruct fuel' as [|fuel']; [lia|].
    destruct (wp_prefix_err _ x true _ _ _ Ep) as [p'' Ep'']. cbn [run_loop]. rewrite Ep''. by eexists.
Qed.

(** The verdict of [finish] on a core with [data] left to parse. *)
Definition verdict (received : Z) (data : list Z) (c : Core) : option (result ModuleError ValidatedModule) :=
  match core_run data true c with
  | None => None
  | Some (Err e, _) => Some (Err e)
  | Some (Ok run, c) =>
      if negb (run_ended run) || negb (run_consumed run =? length data)%nat then Some (Err MoTruncated)
      else Some (Ok (validated_module received c))
  end.

Lemma verdict_total pol received data c : core_ok pol c → is_Some (verdict received data c).
Proof.
  intros Hc. unfold verdict. destruct (core_run_total pol data true c Hc) as (r & c' & ->).
  destruct r; [|by eexists]. destruct (_ || _); by eexists.
Qed.

Lemma verdict_prefix pol d c r c' :
  core_ok pol c → core_run d false c = Some (r, c') →
  match r with
  | Ok run => (run_consumed run ≤ length d)%nat ∧ core_ok pol c' ∧
      co_consumed_total c' = co_consumed_total c + Z.of_nat (run_consumed run) ∧
      wp_parse (drop (run_consumed run) d) false (co_parser c') = (Ok (NeedMoreData (run_need run)), co_parser c') ∧
      ∀ received x, verdict received (d ++ x) c = verdict received (drop (run_consumed run) d ++ x) c'
  | Err e => ∀ received x, verdict received (d ++ x) c = Some (Err e)
  end.
Proof.
  intros Hc Hrun. unfold verdict, core_run in *.
  pose proof (λ x, run_loop_prefix pol _ _ _ _ _ _ x (S (length (d ++ x))) Hc Hrun (Nat.lt_succ_diag_r _)) as Hp.
  destruct r as [run|e].
  - destruct (Hp []) as (k & Hk & Hle & Hok & Htot & Hparse & _). cbn in Hk. rewrite Hk.
    split_and!; [lia|done|done|done|]. intros received x. destruct (Hp x) as (k' & Hk' & _ & _ & _ & _ & fuel'' & Hf'' & ->).
    cbn in Hk'. assert (k' = k) as -> by lia. cbn [Nat.add]. set (rest := drop k d ++ x) in *.
    destruct (run_loop_total pol fuel'' rest k true c' Hok Hf'') as (r1 & c1 & _ & Hf1).
    rewrite !Hf1 by lia. specialize (Hf1 (S (length rest)) ltac:(lia)).
    rewrite <-(Nat.add_0_r k), run_loop_shift in Hf1.
    assert (length (d ++ x) = k + length rest)%nat as Hlen by (unfold rest; rewrite !length_app, length_drop; lia).
    destruct (run_loop (S (length rest)) rest 0 true c') as [[[run'|e'] c2]|]; cbn in Hf1; [|by injection Hf1 as <- <-|done].
    injection Hf1 as <- <-. cbn [run_ended run_consumed]. rewrite Hlen.
    replace (k + run_consumed run' =? k + length rest)%nat with (run_consumed run' =? length rest)%nat; [done|].
    destruct (run_consumed run' =? length rest)%nat eqn:E; symmetry; split_bool; [apply Nat.eqb_eq|apply Nat.eqb_neq]; lia.
  - intros received x. by destruct (Hp x) as [c'' ->].
Qed.

(** The verdict on the data a parser waits with: the next payload, parsed from all
    of it, decides. *)
Lemma verdict_next pol received data c :
  core_ok pol c →
  match wp_parse data true (co_parser c) with
  | (Err e, _) => verdict received data c = Some (Err (reader_error e))
  | (Ok (NeedMoreData _), _) => verdict received data c = Some (Err MoTruncated)
  | (Ok (Parsed n pl), p) =>
      match handle pl (set_co_parser p c) with
      | (Err e, _) => verdict received data c = Some (Err e)
      | (Ok _, _) => True
      end
  end.
Proof.
  intros Hc. unfold verdict, core_run. cbn [run_loop]. destruct (wp_parse _ _ _) as [[[need|n pl]|e] p]; [done| |done].
  by destruct (handle _ _) as [[]].
Qed.

(* ------------------------------------------------------------------ *)
(** ** The payloads of an accepted module *)

(** What the parser reports on the whole of [d]: the payloads up to the end of
    the module, which is the end of [d]. *)
Inductive parses : WpParser → list Z → list WpPayload → Prop :=
| parses_end p d pl p' : wp_parse d true p = (Ok (Parsed (length d) pl), p') → wp_view pl = PvEnd → parses p d [pl]
| parses_step p d n pl p' pls :
    wp_parse d true p = (Ok (Parsed n pl), p') → wp_view pl ≠ PvEnd → parses p' (drop n d) pls → parses p d (pl :: pls).

(** The count of the last section of a kind, [n] when there is none. *)
Definition last_count (f : PayloadView → option Z) (n : Z) (pls : list WpPayload) : Z :=
  foldl (λ n pl, default n (f (wp_view pl))) n pls.

Lemma run_loop_payloads pol fuel rest pos c run c' :
  core_ok pol c → run_loop fuel rest pos true c = Some (Ok run, c') →
  run_ended run = true → run_consumed run = (pos + length rest)%nat →
  ∃ pls, parses (co_parser c) rest pls ∧ Forall (payload_within pol) pls ∧
    co_types c' = last_count types_of (co_types c) pls ∧
    co_imports c' = last_count imports_of (co_imports c) pls ∧
    co_exports c' = last_count exports_of (co_exports c) pls.
Proof.
  revert rest pos c. induction fuel as [|fuel IH]; intros rest pos c Hc; cbn [run_loop]; [done|].
  destruct (wp_parse rest true (co_parser c)) as [[[need|n pl]|e] p] eqn:Ep; [done| |done].
  destruct (handle pl (set_co_parser p c)) as [[ended|e] c1] eqn:Eh; [|done].
  pose proof (handle_spec _ _ _ _ Eh) as (Hw & [_ _ _ _ Ht Hi He] & Hend). cbn in Hw, Ht, Hi, He.
  rewrite (ck_policy _ _ Hc) in Hw. destruct ended.
  - intros [= <- <-] _ Hlen. cbn in Hlen. assert (n = length rest) as -> by lia. exists [pl].
    split_and!; [|by constructor|done..]. eapply parses_end; [exact Ep|by apply Hend].
  - destruct (parsed_consumes pol _ _ _ _ _ _ _ Hc Ep Eh) as (Hn & Hc1 & _ & Hp1). intros Hr Hended Hlen.
    destruct (IH _ _ _ Hc1 Hr Hended) as (pls & Hpls & Hall & Ht' & Hi' & He').
    { rewrite Hlen, length_drop. lia. }
    exists (pl :: pls). cbn in Hpls, Ht', Hi', He'. rewrite Hp1 in Hpls. split_and!.
    + eapply parses_step; [exact Ep| |done]. by intros E%Hend.
    + by constructor.
    + by rewrite Ht', Ht.
    + by rewrite Hi', Hi.
    + by rewrite He', He.
Qed.

(* ------------------------------------------------------------------ *)
(** ** Pushes *)

(** The most the validator may hold while its parser reads an item. *)
Definition item_limit (pol : ModulePolicy) (c : Core) : Z :=
  (if 0 <? wp_entries (co_parser c) then mo_max_function_body_bytes pol else mo_max_section_bytes pol) + HEADER_SLACK.

(** The errors of a module that ends inside an item. *)
Definition incomplete (e : ModuleError) : Prop := e = MoTruncated ∨ ∃ offset message, e = MoInvalid offset message.

(** When a push may fail with [e] on a stream of [len] bytes whose verdict as a whole
    is [whole]. *)
Definition refused (pol : ModulePolicy) (e : ModuleError) (len : Z) (whole : option (result ModuleError ValidatedModule)) : Prop :=
  whole = Some (Err e) ∨
  (e = MoLimitExceeded LimModuleBytes ∧ mo_max_module_bytes pol ≤ len) ∨
  ((∃ l, e = MoLimitExceeded l) ∧ ∃ e', whole = Some (Err e') ∧ incomplete e').

(** A policy of sane sizes: the slack leaves room for every header, three bytes
    more than it being needed for the longest start of a code section. *)
Record policy_sizes (pol : ModulePolicy) : Prop := {
  ps_body : 0 ≤ mo_max_function_body_bytes pol;
  ps_section : 3 ≤ mo_max_section_bytes pol;
}.

Section pushes.
Context (pol : ModulePolicy) (Hpol : policy_sizes pol).

Lemma item_limit_pos c : 1 ≤ item_limit pol c.
Proof. destruct Hpol. unfold item_limit, HEADER_SLACK. destruct (_ <? _); lia. Qed.

(** An item beyond the limit of its kind is refused when it is complete. *)
Lemma beyond_limit c data n pl p :
  core_ok pol c → wp_parse data true (co_parser c) = (Ok (Parsed n pl), p) → item_limit pol c < Z.of_nat n →
  ∃ c', handle pl (set_co_parser p c) = (Err (MoLimitExceeded (buffer_limit c).2), c').
Proof.
  intros [Hp He] Hparse Hn. pose proof (wp_entries_parsed _ _ _ _ _ _ Hparse) as Hent.
  pose proof (wp_item_size _ _ _ _ _ _ Hparse) as Hsize.
  pose proof (handle_too_large pl (set_co_parser p c)) as Hh. cbn in Hh. rewrite Hp in Hh.
  unfold buffer_limit. unfold item_limit, HEADER_SLACK in Hn. rewrite He. destruct Hpol as [Hb Hs].
  destruct (wp_view pl) eqn:Ev.
  11: { destruct Hent as [Hent _]. rewrite Hent in Hn. cbn in Hn. lia. }
  11: { destruct Hent as [Hent _], Hsize as [Has Hsize]. rewrite (proj2 (Z.ltb_lt _ _) Hent) in *. apply Hh. split; [done|lia]. }
  all: destruct Hent as [Hent _]; rewrite Hent in *; cbn in Hn |- *;
    destruct (wp_as_section pl) as [[id len]|] eqn:Eas; [destruct Hsize as [Hid Hsize]; eapply Hh; [done..|lia]|lia].
Qed.

Lemma check_wait_spec c d need :
  core_ok pol c → Z.of_nat (length d) ≤ u64_max →
  wp_parse d false (co_parser c) = (Ok (NeedMoreData need), co_parser c) →
  match check_wait (Z.of_nat (length d)) need c with
  | Ok _ => Z.of_nat (length d) ≤ item_limit pol c ∧ sat_add u64_max (Z.of_nat (length d)) need ≤ item_limit pol c
  | Err e => ∀ received x, refused pol e (co_consumed_total c + Z.of_nat (length (d ++ x))) (verdict received (d ++ x) c)
  end.
Proof.
  intros Hc Hlen Hp. pose proof (proj2 (wp_need_nothing _ _ _ _ _ Hp)) as Hneed. pose proof Hc as [Hcp Hce].
  assert ((buffer_limit c).1 = Z.min (item_limit pol c) u64_max) as Hlim.
  { unfold buffer_limit, item_limit, sat_add. rewrite Hcp, Hce. destruct (_ <? _); apply Z.min_comm. }
  unfold check_wait. rewrite Hcp. destruct (mo_max_module_bytes pol <? _) eqn:Em; [|destruct (buffer_limit c) as [limit which] eqn:Eb;
    destruct (limit <? _) eqn:El].
  - intros received x. pose proof (verdict_next pol received (d ++ x) c Hc) as Hv.
    destruct (wp_parse (d ++ x) true (co_parser c)) as [[[n|n pl]|e] p] eqn:Ep.
    + right; right. split; [by eexists|]. eexists. split; [done|by left].
    + right; left. split; [done|]. pose proof (wp_need_hint _ _ _ _ _ _ _ _ _ Hp Ep).
      pose proof (wp_consumed _ _ _ _ _ _ Ep). split_bool. unfold sat_add in *. lia.
    + right; right. split; [by eexists|]. eexists. split; [done|]. right. by eexists _, _.
  - cbn in Hlim. split_bool. intros received x.
    pose proof (verdict_next pol received (d ++ x) c Hc) as Hv.
    destruct (wp_parse (d ++ x) true (co_parser c)) as [[[n|n pl]|e] p] eqn:Ep.
    + right; right. split; [by eexists|]. eexists. split; [done|by left].
    + left. pose proof (wp_need_hint _ _ _ _ _ _ _ _ _ Hp Ep). pose proof (item_limit_pos c).
      destruct (beyond_limit c (d ++ x) n pl p Hc Ep) as [c' Hh]; [unfold sat_add in *; lia|].
      rewrite Hh, Eb in Hv. exact Hv.
    + right; right. split; [by eexists|]. eexists. split; [done|]. right. by eexists _, _.
  - cbn in Hlim. split_bool. unfold sat_add in *. lia.
Qed.

(** One run and the check on what it leaves. *)
Lemma core_run_spec c d :
  core_ok pol c → Z.of_nat (length d) ≤ u64_max →
  ∃ r c', core_run d false c = Some (r, c') ∧
  match r with
  | Err e => ∀ received x, verdict received (d ++ x) c = Some (Err e)
  | Ok run =>
      let rest := drop (run_consumed run) d in
      core_ok pol c' ∧ (length rest ≤ length d)%nat ∧
      co_consumed_total c' + Z.of_nat (length rest) = co_consumed_total c + Z.of_nat (length d) ∧
      (∀ received x, verdict received (d ++ x) c = verdict received (rest ++ x) c') ∧
      match check_wait (Z.of_nat (length rest)) (run_need run) c' with
      | Ok _ => Z.of_nat (length rest) ≤ item_limit pol c' ∧
          sat_add u64_max (Z.of_nat (length rest)) (run_need run) ≤ item_limit pol c'
      | Err e => ∀ received x,
          refused pol e (co_consumed_total c' + Z.of_nat (length (rest ++ x))) (verdict received (rest ++ x) c')
      end
  end.
Proof.
  intros Hc Hlen. destruct (core_run_total pol d false c Hc) as (r & c' & Hr). exists r, c'. split; [done|].
  pose proof (verdict_prefix pol d c r c' Hc Hr) as Hv. destruct r as [run|e]; [|done].
  destruct Hv as (Hk & Hc' & Htot & Hp & Hv). assert (length (drop (run_consumed run) d) ≤ length d)%nat as Hl by (rewrite length_drop; lia).
  cbv zeta. split_and!; [done|done|rewrite length_drop; lia|done|]. apply check_wait_spec; [done|lia|done].
Qed.

Lemma push_loop_spec fuel input buf need_len c :
  core_ok pol c → (length input < fuel)%nat → Z.of_nat (length buf + length input) ≤ u64_max →
  Z.of_nat (length buf) ≤ item_limit pol c → (buf ≠ [] → need_len ≤ item_limit pol c) →
  ∃ r buf' need_len' c', push_loop fuel input buf need_len c = Some (r, (buf', need_len', c')) ∧
  match r with
  | Ok _ => core_ok pol c' ∧ Z.of_nat (length buf') ≤ item_limit pol c' ∧ (buf' ≠ [] → need_len' ≤ item_limit pol c') ∧
      co_consumed_total c' + Z.of_nat (length buf') = co_consumed_total c + Z.of_nat (length buf + length input) ∧
      (length buf' ≤ length buf + length input)%nat ∧
      ∀ received x, verdict received (buf ++ input ++ x) c = verdict received (buf' ++ x) c'
  | Err e => ∀ received x, refused pol e (co_consumed_total c + Z.of_nat (length (buf ++ input ++ x)))
      (verdict received (buf ++ input ++ x) c)
  end.
Proof.
  revert input buf need_len c. induction fuel as [|fuel IH]; intros input buf need_len c Hc Hf Hlen Hb Hn; [lia|].
  destruct input as [|i input].
  { cbn [push_loop]. eexists _, _, _, _. split; [done|]. split_and!; [done..|cbn; lia|lia|done]. }
  cbn [push_loop]. set (inp := i :: input) in *. assert (0 < length inp)%nat by (cbn; lia). clearbody inp.
  destruct buf as [|b buf].
  - cbn [length Nat.add] in Hlen. destruct (core_run_spec c inp Hc Hlen) as (r & c' & -> & Hres).
    destruct r as [run|e]; [|eexists _, _, _, _; split; [done|]; left; apply Hres].
    destruct Hres as (Hc' & Hl & Htot & Hv & Hw).
    destruct (drop (run_consumed run) inp) as [|j rest] eqn:Ed.
    + eexists _, _, _, _. split; [by destruct fuel; [lia|]|]. split_and!; [done|cbn; pose proof (item_limit_pos c'); lia|done|exact Htot|cbn; lia|].
      intros received x. exact (Hv received x).
    + set (rest' := j :: rest) in *. clearbody rest'. destruct (check_wait _ _ c') as [u|e].
      2: { eexists _, _, _, _. split; [done|]. intros received x. specialize (Hw received x).
           cbn [app] in *. rewrite Hv. rewrite length_app in *. by replace (co_consumed_total c + _) with
             (co_consumed_total c' + Z.of_nat (length rest' + length x)) by lia. }
      destruct Hw as [Hw1 Hw2].
      eexists _, _, _, _. split; [by destruct fuel; [lia|]|]. split_and!; [done|done|done|exact Htot|exact Hl|].
      intros received x. exact (Hv received x).
  - set (buf0 := b :: buf) in *. assert (buf0 ≠ []) as Hne by done. specialize (Hn Hne). clearbody buf0.
    set (n := Z.to_nat (Z.min (Z.max (sat_sub need_len (Z.of_nat (length buf0))) 1) (Z.of_nat (length inp)))).
    assert (0 < n ≤ length inp)%nat as Hnb by lia.
    assert (∀ x, buf0 ++ inp ++ x = (buf0 ++ take n inp) ++ drop n inp ++ x) as Happ.
    { intros x. by rewrite <-app_assoc, (app_assoc (take n inp)), take_drop. }
    assert (length (drop n inp) = length inp - n)%nat as Hdi by by rewrite length_drop.
    assert (length (buf0 ++ take n inp) = length buf0 + n)%nat as Hl1 by (rewrite length_app, length_take; lia).
    assert (buf0 ++ take n inp ≠ []) as Hne' by (by destruct buf0).
    destruct (_ <? need_len) eqn:El; split_bool.
    + destruct (IH (drop n inp) (buf0 ++ take n inp) need_len c) as (r & buf' & nl' & c'' & Hp & Hres); [done|lia|lia|lia|done|].
      rewrite Hp. eexists _, _, _, _. split; [done|]. destruct r.
      * destruct Hres as (? & ? & ? & ? & ? & Hver). split_and!; [done..|lia|lia|]. intros received x. by rewrite Happ, Hver.
      * intros received x. rewrite Happ. apply Hres.
    + set (d := buf0 ++ take n inp) in *. destruct (core_run_spec c d Hc ltac:(lia)) as (r & c' & -> & Hres).
      destruct r as [run|e]; [|eexists _, _, _, _; split; [done|]; left; rewrite Happ; apply Hres].
      destruct Hres as (Hc' & Hl & Htot & Hv & Hw). set (rest := drop (run_consumed run) d) in *.
      assert (∀ x, co_consumed_total c + Z.of_nat (length (buf0 ++ inp ++ x)) =
        co_consumed_total c' + Z.of_nat (length (rest ++ drop n inp ++ x))) as Heq.
      { intros x. rewrite !length_app. lia. }
      destruct (check_wait _ _ c') as [u|e].
      2: { eexists _, _, _, _. split; [done|]. intros received x. rewrite Heq, Happ, Hv. apply Hw. }
      destruct Hw as [Hw1 Hw2].
      destruct (IH (drop n inp) rest (sat_add u64_max (Z.of_nat (length rest)) (run_need run)) c')
        as (r & buf' & nl' & c'' & Hp & Hres); [done|lia|lia|done|done|].
      rewrite Hp. eexists _, _, _, _. split; [done|]. destruct r.
      * destruct Hres as (? & ? & ? & ? & ? & Hver). split_and!; [done..|lia|lia|]. intros received x. by rewrite Happ, Hv, Hver.
      * intros received x. rewrite Heq, Happ, Hv. apply Hres.
Qed.

(** A validator that has taken the bytes [B] without failing. *)
Record validator_ok (B : list Z) (v : StreamingModuleValidator) : Prop := {
  vk_failed : sv_failed v = None;
  vk_core : core_ok pol (sv_core v);
  vk_received : sv_received v = Z.of_nat (length B);
  vk_limit : B = [] ∨ Z.of_nat (length B) ≤ mo_max_module_bytes pol;
  vk_buf : Z.of_nat (length (sv_buf v)) ≤ item_limit pol (sv_core v);
  vk_need : sv_buf v ≠ [] → sv_need_len v ≤ item_limit pol (sv_core v);
  vk_consumed : co_consumed_total (sv_core v) + Z.of_nat (length (sv_buf v)) = Z.of_nat (length B);
  vk_held : (length (sv_buf v) ≤ length B)%nat;
  vk_verdict received x : verdict received (B ++ x) (core_new pol) = verdict received (sv_buf v ++ x) (sv_core v);
}.

Lemma stream_push_spec B v bytes :
  validator_ok B v → Z.of_nat (length (B ++ bytes)) ≤ u64_max →
  ∃ r v', stream_push bytes v = Some (r, v') ∧
  match r with
  | Ok progress => validator_ok (B ++ bytes) v' ∧ progress = validator_progress v'
  | Err e => sv_failed v' = Some e ∧ ∀ received x,
      refused pol e (Z.of_nat (length ((B ++ bytes) ++ x))) (verdict received ((B ++ bytes) ++ x) (core_new pol))
  end.
Proof.
  intros [Hfail Hc Hrec Hlim Hbuf Hneed Hcons Hheld Hv] Hlen. rewrite length_app in Hlen.
  unfold stream_push, push_inner. rewrite Hfail, Hrec, (ck_policy _ _ Hc).
  unfold sat_add. rewrite Z.min_r by lia. destruct (_ <? _) eqn:El; split_bool.
  { eexists _, _. split; [done|]. split; [done|]. intros received x. right; left. split; [done|]. rewrite !length_app. lia. }
  destruct (push_loop_spec (S (length bytes)) bytes (sv_buf v) (sv_need_len v) (sv_core v))
    as (r & buf' & nl' & c' & Hp & Hres); [done|lia|lia|done|done|].
  rewrite Hp. destruct r as [u|e]; eexists _, _; (split; [done|]).
  - destruct Hres as (Hc' & Hb' & Hn' & Ht' & Hh' & Hver). split; [|done].
    split; cbn; [done|done|rewrite length_app; lia|right; rewrite length_app; lia|done|done|rewrite length_app; lia|rewrite length_app; lia|].
    intros received x. by rewrite <-app_assoc, Hv, Hver.
  - split; [done|]. intros received x. rewrite <-app_assoc, Hv. specialize (Hres received x).
    rewrite !length_app in *. by replace (Z.of_nat (length B + _)) with
      (co_consumed_total (sv_core v) + Z.of_nat (length (sv_buf v) + (length bytes + length x))) by lia.
Qed.

Lemma stream_push_all_spec B v chunks :
  validator_ok B v → Z.of_nat (length (B ++ concat chunks)) ≤ u64_max →
  ∃ r v', stream_push_all chunks v = Some (r, v') ∧
  match r with
  | Ok _ => validator_ok (B ++ concat chunks) v'
  | Err e => sv_failed v' = Some e ∧ ∀ received,
      refused pol e (Z.of_nat (length (B ++ concat chunks))) (verdict received (B ++ concat chunks) (core_new pol))
  end.
Proof.
  revert B v. induction chunks as [|bytes chunks IH]; intros B v Hv Hlen; cbn.
  { rewrite app_nil_r. by eexists _, _. }
  cbn in Hlen. rewrite app_assoc in Hlen.
  destruct (stream_push_spec B v bytes Hv) as (r & v1 & Hp & Hres).
  { rewrite !length_app in *. lia. }
  rewrite Hp. destruct r as [progress|e].
  - destruct Hres as [Hv1 _]. rewrite app_assoc. by apply IH.
  - eexists _, _. split; [done|]. destruct Hres as [? Hres]. split; [done|]. intros received. rewrite app_assoc. apply Hres.
Qed.

Lemma stream_validator_new_ok : validator_ok [] (stream_validator_new pol).
Proof.
  split; cbn; try done; [apply core_new_ok|by left|]. pose proof (item_limit_pos (core_new pol)). lia.
Qed.

Lemma validator_finish B v : validator_ok B v → stream_finish v = verdict (Z.of_nat (length B)) B (core_new pol).
Proof.
  intros [Hf _ Hrec _ _ _ _ _ Hv]. specialize (Hv (Z.of_nat (length B)) []). rewrite !app_nil_r in Hv. rewrite Hv, <-Hrec.
  unfold stream_finish, verdict. by rewrite Hf.
Qed.
End pushes.

(** Validation of a module in one piece. *)
Definition whole_module (pol : ModulePolicy) (bytes : list Z) : option (result ModuleError ValidatedModule) :=
  verdict (Z.of_nat (length bytes)) bytes (core_new pol).


End stream.

(* ------------------------------------------------------------------ *)
(** ** A parser *)

(** A small parser that obeys the laws.  A section is an id, a length and as many
    bytes; 255 is malformed; section 10 is a count [n] and then [n] bodies, each a
    length and as many bytes.  The count of a section is its length. *)
Definition sample_import : WasmImport := mkWasmImport "env" "log" TrFunc.

Inductive SamplePayload : Set := SpSection (id len : Z) | SpCode (n : Z) | SpBody (len : Z) | SpEnd.

Definition sample_item (d : list Z) (eof : bool) (header : nat) (len : Z) (pl : SamplePayload) :
    result BinaryReaderError (Chunk SamplePayload) :=
  let c := (header + Z.to_nat len)%nat in
  if (c <=? length d)%nat then Ok (Parsed c pl)
  else if eof then Err (mkBinaryReaderError 0 "unexpected end") else Ok (NeedMoreData (Z.of_nat (c - length d))).

Definition sample_parse (d : list Z) (eof : bool) (left : Z) : result BinaryReaderError (Chunk SamplePayload) :=
  match d with
  | [] => if eof then if 0 <? left then Err (mkBinaryReaderError 0 "unexpected end") else Ok (Parsed 0 SpEnd)
          else Ok (NeedMoreData 1)
  | b :: d' =>
      if 0 <? left then sample_item d eof 1 b (SpBody (Z.max 0 b))
      else if b =? 255 then Err (mkBinaryReaderError 0 "malformed")
      else match d' with
           | [] => if eof then Err (mkBinaryReaderError 0 "unexpected end") else Ok (NeedMoreData 1)
           | k :: _ => if b =? 10 then Ok (Parsed 2 (SpCode (Z.max 0 k)))
                       else sample_item d eof 2 k (SpSection b (Z.max 0 k))
           end
  end.

Definition sample_left (left : Z) (r : result BinaryReaderError (Chunk SamplePayload)) : Z :=
  match r with Ok (Parsed _ (SpCode n)) => n | Ok (Parsed _ (SpBody _)) => left - 1 | _ => left end.

Definition sample_view (pl : SamplePayload) : PayloadView :=
  match pl with
  | SpSection 1 len => PvTypeSection len
  | SpSection 2 len => PvImportSection len [Ok sample_import]
  | SpSection 3 len => PvFunctionSection len
  | SpSection 4 len => PvTableSection [Ok len]
  | SpSection 5 len => PvMemorySection [Ok (mkWasmMemoryType (Some len) false)]
  | SpSection 6 len => PvGlobalSection len
  | SpSection 7 len => PvExportSection len
  | SpSection 9 len => PvElementSection len
  | SpSection 11 len => PvDataSection len
  | SpSection _ _ => PvOther
  | SpCode n => PvCodeSectionStart n
  | SpBody len => PvCodeSectionEntry len (Ok [Ok len])
  | SpEnd => PvEnd
  end.

#[local] Instance sample_parser : WasmParser := {
  WpParser := Z; WpValidator := unit; WpPayload := SamplePayload; WpFunc := unit; WpAllocs := unit;
  wp_parser_new := 0; wp_validator_new := tt; wp_allocs_default := tt;
  wp_parse d eof left := (sample_parse d eof left, sample_left left (sample_parse d eof left));
  wp_payload pl v := (Ok (match pl with SpEnd => VpEnd | SpBody _ => VpFunc tt | _ => VpOk end), v);
  wp_validate_func _ a := (Ok tt, a);
  wp_view := sample_view;
  wp_as_section pl := match pl with SpSection id len => if id =? 10 then None else Some (id, len) | _ => None end;
  wp_entries left := Z.max 0 left;
}.

(** What the parser answers, by the bytes it has. *)
Lemma sample_parse_cases d left :
  (∃ e, (∀ x eof, sample_parse (d ++ x) eof left = Err e) ∧ d ≠ []) ∨
  (∃ c pl, (c ≤ length d)%nat ∧ (0 < c)%nat ∧ (∀ x eof, sample_parse (d ++ x) eof left = Ok (Parsed c pl)) ∧
    match pl with
    | SpEnd => False
    | SpBody len => 0 < left ∧ Z.of_nat c ≤ len + 5
    | SpCode n => left ≤ 0 ∧ 0 ≤ n ∧ Z.of_nat c ≤ 11
    | SpSection id len => left ≤ 0 ∧ id ≠ 10 ∧ Z.of_nat c ≤ len + 6
    end) ∨
  (∃ n, 0 ≤ n ∧ sample_parse d false left = Ok (NeedMoreData n) ∧
    (d = [] ∧ left ≤ 0 ∧ sample_parse d true left = Ok (Parsed 0 SpEnd) ∨ ∃ e, sample_parse d true left = Err e) ∧
    ∀ x eof c pl, sample_parse (d ++ x) eof left = Ok (Parsed c pl) → Z.of_nat (length d) + n ≤ Z.max 1 (Z.of_nat c)).
Proof.
  assert (∀ h k pl d, (h + Z.to_nat k ≤ length d)%nat → ∀ x eof, sample_item (d ++ x) eof h k pl = Ok (Parsed (h + Z.to_nat k) pl)) as Hi.
  { intros h k pl d' Hl x eof. unfold sample_item. by rewrite (proj2 (Nat.leb_le _ _)) by (rewrite length_app; lia). }
  assert (∀ h k pl d, ¬ (h + Z.to_nat k ≤ length d)%nat → ∃ n, 0 ≤ n ∧ sample_item d false h k pl = Ok (NeedMoreData n) ∧
    (∃ e, sample_item d true h k pl = Err e) ∧
    ∀ x eof c pl', sample_item (d ++ x) eof h k pl = Ok (Parsed c pl') → Z.of_nat (length d) + n ≤ Z.max 1 (Z.of_nat c)) as Hn.
  { intros h k pl d' Hl. unfold sample_item. rewrite (proj2 (Nat.leb_gt _ _)) by lia. eexists. split_and!; [|done|by eexists|].
    - lia.
    - intros x eof c pl'. destruct (_ <=? _)%nat; [|by destruct eof]. intros [= <- _]. lia. }
  destruct d as [|b d].
  - right; right. exists 1. split_and!; [done|done| |cbn; intros; lia].
    cbn. destruct (0 <? left) eqn:El; [right; by eexists|left; by split_bool].
  - cbn [app sample_parse]. destruct (0 <? left) eqn:El; split_bool.
    + destruct (decide (1 + Z.to_nat b ≤ length (b :: d))%nat) as [Hl|Hl].
      * right; left. eexists _, (SpBody (Z.max 0 b)). split_and!; [exact Hl|lia|apply (Hi 1%nat b _ (b :: d) Hl)|done|lia].
      * destruct (Hn 1%nat b (SpBody (Z.max 0 b)) _ Hl) as (n & H1 & H2 & H3 & H4). right; right. exists n. split_and!; auto.
    + destruct (b =? 255) eqn:E255; [left; by eexists|]. destruct d as [|k d].
      * right; right. exists 1. split_and!; [done|done|right; by eexists|]. intros x eof c pl. cbn [app].
        destruct x as [|k x]; [by destruct eof|]. destruct (b =? 10); [intros [= <- _]; cbn; lia|].
        unfold sample_item. destruct (_ <=? _)%nat; [|by destruct eof]. intros [= <- _]. cbn. lia.
      * cbn [app]. destruct (b =? 10) eqn:E10; split_bool.
        -- right; left. exists 2%nat, (SpCode (Z.max 0 k)). split_and!; cbn; (done || lia).
        -- destruct (decide (2 + Z.to_nat k ≤ length (b :: k :: d))%nat) as [Hl|Hl].
           ++ right; left. eexists _, (SpSection b (Z.max 0 k)). split_and!; [exact Hl|lia|apply (Hi 2%nat k _ (b :: k :: d) Hl)|lia|done|lia].
           ++ destruct (Hn 2%nat k (SpSection b (Z.max 0 k)) _ Hl) as (n & H1 & H2 & H3 & H4). right; right. exists n. split_and!; auto.
Qed.

Lemma sample_parsed d eof left c pl :
  sample_parse d eof left = Ok (Parsed c pl) →
  d = [] ∧ eof = true ∧ left ≤ 0 ∧ c = 0%nat ∧ pl = SpEnd ∨
  (0 < c ≤ length d)%nat ∧ (∀ x eof', sample_parse (d ++ x) eof' left = Ok (Parsed c pl)) ∧
    match pl with
    | SpEnd => False
    | SpBody len => 0 < left ∧ Z.of_nat c ≤ len + 5
    | SpCode n => left ≤ 0 ∧ 0 ≤ n ∧ Z.of_nat c ≤ 11
    | SpSection id len => left ≤ 0 ∧ id ≠ 10 ∧ Z.of_nat c ≤ len + 6
    end.
Proof.
  intros H. destruct (sample_parse_cases d left) as [(e & He & _)|[(c' & pl' & Hc & H0 & Hp & Hm)|(n & Hn & Hf & Ht & _)]].
  - specialize (He [] eof). rewrite app_nil_r in He. congruence.
  - pose proof (Hp [] eof) as E. rewrite app_nil_r in E. assert (c' = c ∧ pl' = pl) as [-> ->] by (split; congruence).
    right. split_and!; [lia|lia|done|done].
  - destruct eof; [|congruence]. destruct Ht as [(-> & ? & E)|[e E]]; [|congruence]. left. rewrite E in H. by injection H as <- <-.
Qed.
Lemma sample_need d eof left n :
  sample_parse d eof left = Ok (NeedMoreData n) →
  0 ≤ n ∧ ∀ x eof' c pl, sample_parse (d ++ x) eof' left = Ok (Parsed c pl) → Z.of_nat (length d) + n ≤ Z.max 1 (Z.of_nat c).
Proof.
  intros H. destruct (sample_parse_cases d left) as [(e & He & _)|[(c' & pl' & _ & _ & Hp & _)|(n' & Hn & Hf & Ht & Hh)]].
  - specialize (He [] eof). rewrite app_nil_r in He. congruence.
  - specialize (Hp [] eof). rewrite app_nil_r in Hp. congruence.
  - destruct eof; [destruct Ht as [(_ & _ & E)|[e E]]; congruence|]. rewrite Hf in H. injection H as <-. by split.
Qed.
Lemma sample_err d left e x eof : sample_parse d false left = Err e → sample_parse (d ++ x) eof left = Err e.
Proof.
  intros H. destruct (sample_parse_cases d left) as [(e' & He & _)|[(c' & pl' & _ & _ & Hp & _)|(n' & _ & Hf & _)]].
  - pose proof (He [] false) as E. rewrite app_nil_r in E. rewrite He. congruence.
  - specialize (Hp [] false). rewrite app_nil_r in Hp. congruence.
  - congruence.
Qed.
Lemma sample_view_spec pl :
  match pl with
  | SpSection _ _ => match sample_view pl with PvCodeSectionEntry _ _ | PvCodeSectionStart _ | PvEnd => False | _ => True end
  | SpCode n => sample_view pl = PvCodeSectionStart n
  | SpBody len => sample_view pl = PvCodeSectionEntry len (Ok [Ok len])
  | SpEnd => sample_view pl = PvEnd
  end.
Proof. destruct pl as [id len|n|len|]; [|done..]. cbn. by repeat case_match. Qed.
Lemma sample_view_end pl : sample_view pl = PvEnd ↔ pl = SpEnd.
Proof. pose proof (sample_view_spec pl) as H. destruct pl; [|by rewrite H..|done]. split; [|done]. intros E. by rewrite E in H. Qed.

#[local] Instance sample_parser_laws : WasmParserLaws.
Proof.
  split; cbn.
  - intros d eof p n p' [= E <-]. rewrite E. by apply sample_need in E as [? _].
  - intros d eof p c pl p' [= [(-> & _ & _ & -> & _)|[? _]]%sample_parsed _]; [done|lia].
  - intros d eof p c pl p' [= [(_ & _ & _ & _ & ->)|[? _]]%sample_parsed _] ?; [done|lia].
  - intros d p c pl p' [= [(_ & ? & _)|(_ & _ & Hm)]%sample_parsed _]; [done|]. intros ->%sample_view_end. done.
  - intros d x eof p c pl p' [= E <-]. destruct (sample_parsed _ _ _ _ _ E) as [(_ & ? & _)|(_ & Hx & _)]; [done|].
    by rewrite Hx, E.
  - intros d x eof p e p' [= E <-]. rewrite (sample_err _ _ _ x eof E). by eexists.
  - intros pl v vp v' [= <- <-]. rewrite sample_view_end. by destruct pl.
  - intros d x eof p n p' c pl p'' [= E _] [= E' _]. apply sample_need in E as [_ E]. by eapply E.
  - done.
  - intros d eof p c pl p' [= E <-]. rewrite E. pose proof (sample_view_spec pl) as Hv.
    destruct (sample_parsed _ _ _ _ _ E) as [(_ & _ & ? & _ & ->)|(_ & _ & Hm)]; [cbn; lia|].
    destruct pl as [id len|n|len|]; [|rewrite Hv; cbn; lia..|done]. destruct (sample_view _); (done || cbn; lia).
  - intros d eof p c pl p' [= E _]. pose proof (sample_view_spec pl) as Hv.
    destruct (sample_parsed _ _ _ _ _ E) as [(_ & _ & ? & -> & ->)|(_ & _ & Hm)]; [done|].
    destruct pl as [id len|n|len|]; [|rewrite Hv; cbn; split_and?; (done || lia)..|done].
    rewrite (proj2 (Z.eqb_neq _ _)) by apply Hm. destruct (sample_view _); (done || lia).
Qed.

Definition sample_module_policy : ModulePolicy :=
  mkModulePolicy 100 10 10 4 4 4 4 4 4 (IpAllowlist [mkAllowedImport "env" None]) 4 4 4 4.

(** Two types, an import, and a body of three bytes. *)
Definition sample_module : list Z := [1; 2; 0; 0; 2; 1; 9; 10; 1; 3; 7; 7; 7].
Definition sample_split : list (list Z) := [[1; 2; 0]; [0; 2; 1; 9; 10]; [1; 3; 7]; [7; 7]].

Lemma sample_policy_sizes : policy_sizes sample_module_policy.
Proof. by split. Qed.

(** A module of exactly the maximal length is accepted in one piece and refused in
    some splits: when its last item was buffered, [check_wait] asks for room
    for the byte that would tell that the module has not ended. *)
Lemma full_length_module_depends_on_split :
  let pol := mkModulePolicy 13 10 10 4 4 4 4 4 4 (IpAllowlist [mkAllowedImport "env" None]) 4 4 4 4 in
  (∃ v, stream_push_all [sample_module] (stream_validator_new pol) = Some (Ok tt, v) ∧
     stream_finish v = Some (Ok (mkValidatedModule 13 2 1 0 1))) ∧
  ∃ v, stream_push_all sample_split (stream_validator_new pol) = Some (Err (MoLimitExceeded LimModuleBytes), v).
Proof. split; [eexists; split; [by vm_compute|by vm_compute]|eexists; by vm_compute]. Qed.



Definition sample_payload : WpPayload := SpSection 2 1.

Lemma handled_imports_allowed_witness :
  ∃ c', handle sample_payload (core_new sample_module_policy) = (Ok false, c') ∧
    1 ≤ 4 ∧ all_items (import_ok sample_module_policy) [@Ok BinaryReaderError WasmImport sample_import].
Proof.
  destruct (handle sample_payload (core_new sample_module_policy)) as [r c'] eqn:E. exists c'.
  assert (r = Ok false) as -> by (vm_compute in E; by injection E as <- _).
  split; [done|].
  apply (handled_imports_allowed sample_payload (core_new sample_module_policy) false c' 1 [Ok sample_import]);
    [exact E|reflexivity].
Defined.
