(* ===== verification/RvfStream.v ===== *)
(** The signed descriptor of a streamed RVF body, [crates/rvm-rvf/src/stream]:
    [commit.rs], [descriptor.rs], [pin.rs], the policy of [mod.rs], the events
    of [events.rs] and the frames of [frame.rs].

    A descriptor commits to every byte of a body.  The file proves that its
    wire form is faithful, that a decoded descriptor tiles the body with
    distinct segments within policy and was signed by a trusted key, that its
    stage requirements are acyclic exactly when the check says so, and that
    epoch pins never go back. *)

From stdpp Require Import base numbers list option sorting gmap strings.
From Stdlib Require Import ZArith Lia.
From S2P Require Import Prelude.
From S2P Require Import Text.
From S2P Require Import Bytes.
From S2P Require Import Sorting.
From S2P Require Import WitnessLog.
From S2P Require Import Security.
From S2P Require Import Signers.
From S2P Require Import RvfFormat.
From S2P Require Import RvfCapability.
From S2P Require Import RvfVerify.

Notation StreamResult := (result StreamError).

(* ------------------------------------------------------------------ *)
(** ** Commitments ([commit.rs]) *)

Definition LEAF_TAG : Z := 0.
Definition TABLE_TAG : Z := 1.
Definition SIG_DOMAIN : list Z := lit "RVF-v1-stream-descriptor" ++ [0].
Definition SIG_LEN : nat := 64.

Section commitments.
Context {SH : Sha256} {ED : Ed25519}.

(** The message the leaf hash digests. *)
Definition leaf_preimage (file_id : list Z) (seg_id chunk_index : Z) (bytes : list Z) : list Z :=
  [LEAF_TAG] ++ file_id ++ le_bytes 8 seg_id ++ le_bytes 4 chunk_index ++
  le_bytes 8 (Z.of_nat (length bytes)) ++ bytes.
Definition leaf_hash (file_id : list Z) (seg_id chunk_index : Z) (bytes : list Z) : list Z :=
  sha256 (leaf_preimage file_id seg_id chunk_index bytes).

Definition chunk_list_hash_flat (file_id : list Z) (seg_id : Z) (flat : list Z) : option (list Z) :=
  if negb (length flat mod 32 =? 0)%nat then None
  else
    let n := Z.of_nat (length flat / 32) in
    if u32_max <? n then None
    else Some (sha256 ([TABLE_TAG] ++ file_id ++ le_bytes 8 seg_id ++ le_bytes 4 n ++ flat)).

Definition chunk_list_hash (file_id : list Z) (seg_id : Z) (leaves : list (list Z)) : list Z :=
  sha256 ([TABLE_TAG] ++ file_id ++ le_bytes 8 seg_id ++
          le_bytes 4 (wrap32 (Z.of_nat (length leaves))) ++ concat leaves).

Definition stream_signer_key_id (public_key : list Z) : list Z := take 8 (sha256 public_key).
Definition descriptor_hash (descriptor : list Z) : list Z := sha256 descriptor.
Definition stream_signed_message (unsigned : list Z) : list Z := SIG_DOMAIN ++ unsigned.

Definition verify_descriptor_signature (descriptor public_key : list Z) : bool :=
  if (length descriptor <? SIG_LEN)%nat then false
  else
    let at_ := (length descriptor - SIG_LEN)%nat in
    let unsigned := take at_ descriptor in
    let sig := drop at_ descriptor in
    if negb (ed_key_ok public_key) then false
    else ed_verify_strict public_key (stream_signed_message unsigned) sig.
End commitments.

(* ------------------------------------------------------------------ *)
(** ** Policy and pins ([mod.rs], [pin.rs]) *)

Record EpochPin : Set := mkEpochPin {
  ep_epoch : Z;
  ep_descriptor_hash : list Z;
  ep_signer_key_id : list Z;
}.
#[export] Instance EpochPin_eq_dec : EqDecision EpochPin.
Proof. solve_decision. Defined.

(** [MemoryPinStore]: a map from lineages, a signer and a file id. *)
Notation Lineage := (list Z * list Z)%type (only parsing).
Definition MemoryPinStore : Type := gmap Lineage EpochPin.
Definition pin_store_new : MemoryPinStore := ∅.
Definition pin_store_len (s : MemoryPinStore) : nat := size s.
Definition pin_store_is_empty (s : MemoryPinStore) : bool := (size s =? 0)%nat.
Definition pin_lookup (signer file_id : list Z) (s : MemoryPinStore) : option EpochPin := s !! (signer, file_id).

Definition pin_advance (signer file_id : list Z) (expected : option EpochPin) (new : EpochPin)
    (s : MemoryPinStore) : bool * MemoryPinStore :=
  let current := s !! (signer, file_id) in
  if negb (bool_decide (current = expected)) || is_some_and (λ e, ep_epoch new <? ep_epoch e) expected
  then (false, s)
  else (true, <[(signer, file_id) := new]> s).

(** The lookup of a [Lookup] closure or of the store as it is now. *)
Inductive ReplayProtection : Type :=
| RpUnpinned
| RpLookup (pin : list Z → list Z → option EpochPin) (now_ns : option Z)
| RpStore (store : MemoryPinStore) (now_ns : option Z).

Definition replay_lookup (signer file_id : list Z) (r : ReplayProtection) : option EpochPin :=
  match r with
  | RpUnpinned => None
  | RpLookup pin _ => pin signer file_id
  | RpStore store _ => pin_lookup signer file_id store
  end.
Definition replay_now_ns (r : ReplayProtection) : option Z :=
  match r with RpUnpinned => None | RpLookup _ now | RpStore _ now => now end.
Definition replay_is_pinned (r : ReplayProtection) : bool :=
  match r with RpUnpinned => false | _ => true end.

Record StreamPolicy : Type := mkStreamPolicy {
  sm_max_descriptor_bytes : Z;
  sm_max_segments : Z;
  sm_max_segment_bytes : Z;
  sm_max_uncompressed_len : Z;
  sm_max_table_bytes : Z;
  sm_max_open_segments : nat;
  sm_size : SizePolicy;
  sm_trusted_keys : list (list Z);
  sm_replay : ReplayProtection;
  sm_expected_policy_hash : option (list Z);
  sm_fault_budget : Z;
  sm_max_duplicate_frames : option Z;
}.

Definition stream_policy_new (trusted_keys : list (list Z)) (replay : ReplayProtection) : StreamPolicy :=
  mkStreamPolicy 1048576 16384 1073741824 4294967296 67108864 256 FAIL_CLOSED trusted_keys replay None 4 None.
Definition stream_policy_unpinned_insecure (trusted_keys : list (list Z)) : StreamPolicy :=
  stream_policy_new trusted_keys RpUnpinned.
Definition descriptor_alloc_bound (p : StreamPolicy) : Z := wrap64 (4 * sm_max_descriptor_bytes p + 4096).

(* ------------------------------------------------------------------ *)
(** ** The descriptor ([descriptor.rs]) *)

Definition STREAM_MAGIC : list Z := lit "RVSD".
Definition STREAM_VERSION : Z := 1.
Definition STREAM_HEADER_SIZE : nat := 144.
Definition ENTRY_SIZE : nat := 72.
Definition TRAILER_SIZE : nat := 2 + SIG_LEN.
Definition FLAG_CHUNKED : Z := 1.
Definition FLAG_IDENTITY_PRESENT : Z := 2.
Definition FLAG_REQUIRE_COMPLETE_BEFORE_EXEC : Z := 4.
Definition FLAGS_KNOWN : Z := 7.
Definition CHUNK_LOG2_SEGMENT : Z := 255.
Definition CHUNK_LOG2_MIN : Z := 12.
Definition CHUNK_LOG2_MAX : Z := 30.
Definition SEG_TYPE_ROOT_PAGE : Z := 254.
Definition MAX_STAGES : nat := 32.

Record StreamHeader : Set := mkStreamHeader {
  dh_flags : Z;
  dh_chunk_log2 : Z;
  dh_file_id : list Z;
  dh_epoch : Z;
  dh_body_len : Z;
  dh_rvf_identity : list Z;
  dh_policy_hash : list Z;
  dh_seg_count : Z;
  dh_expires_ns : Z;
  dh_signer_key_id : list Z;
}.

Record StreamEntry : Set := mkStreamEntry {
  de_seg_id : Z;
  de_seg_type : Z;
  de_stage : Z;
  de_flags : Z;
  de_requires_mask : Z;
  de_body_offset : Z;
  de_stored_len : Z;
  de_uncompressed_len : Z;
  de_chunk_table_hash : list Z;
}.

Definition stream_header_parse (b : list Z) : StreamResult StreamHeader :=
  if (length b <? STREAM_HEADER_SIZE)%nat then Err SeDescriptorTruncated
  else if negb (bool_decide (slice 0 4 b = STREAM_MAGIC)) then Err SeBadMagic
  else if negb (read_le 4 2 b =? STREAM_VERSION) then Err SeUnsupportedVersion
  else
    let flags := read_le 6 2 b in
    let chunk_log2 := format_byte_at b 9 in
    let chunked_ok :=
      if chunk_log2 =? CHUNK_LOG2_SEGMENT then Z.land flags FLAG_CHUNKED =? 0
      else (CHUNK_LOG2_MIN <=? chunk_log2) && (chunk_log2 <=? CHUNK_LOG2_MAX) &&
           negb (Z.land flags FLAG_CHUNKED =? 0) in
    if negb (Z.land flags (Z.lnot FLAGS_KNOWN) =? 0) || negb (format_byte_at b 8 =? 1) ||
       negb (read_le 10 2 b =? 0) || negb (read_le 12 4 b =? 0) ||
       negb (bool_decide (slice 136 8 b = replicate 8 0)) || negb chunked_ok
    then Err SeBadFlags
    else
      let seg_count := read_le 112 4 b in
      let table_len := read_le 116 4 b in
      if negb (seg_count * Z.of_nat ENTRY_SIZE =? table_len) then Err SeTableInvalid
      else
        let rvf_identity := slice 48 32 b in
        if (Z.land flags FLAG_IDENTITY_PRESENT =? 0) && negb (bool_decide (rvf_identity = replicate 32 0))
        then Err SeBadFlags
        else
          Ok (mkStreamHeader flags chunk_log2 (slice 16 16 b) (read_le 32 8 b) (read_le 40 8 b)
                rvf_identity (slice 80 32 b) seg_count (read_le 120 8 b) (slice 128 8 b)).

(** [1u64 << chunk_log2]; the shift amount of a parsed header is at most 30. *)
Definition chunk_size (h : StreamHeader) : option Z :=
  if dh_chunk_log2 h =? CHUNK_LOG2_SEGMENT then None
  else Some (wrap64 (Z.shiftl 1 (dh_chunk_log2 h))).

Definition div_ceil (a b : Z) : Z := (a + b - 1) / b.

Definition chunk_count (stored_len : Z) (h : StreamHeader) : option Z :=
  match chunk_size h with
  | Some cs =>
      if cs <? stored_len then
        let n := div_ceil stored_len cs in if n <=? u32_max then Some n else None
      else Some 1
  | None => Some 1
  end.

Definition chunk_len (stored_len index : Z) (h : StreamHeader) : option Z :=
  match chunk_count stored_len h with
  | None => None
  | Some n =>
      if n <=? index then None
      else
        match chunk_size h with
        | Some cs =>
            if 1 <? n then
              if index + 1 <? n then Some cs else Some (stored_len - cs * (n - 1))
            else Some stored_len
        | None => Some stored_len
        end
  end.

Definition entry_from_bytes (b : list Z) : StreamEntry :=
  mkStreamEntry (read_le 0 8 b) (format_byte_at b 8) (format_byte_at b 9) (read_le 10 2 b)
    (read_le 12 4 b) (read_le 16 8 b) (read_le 24 8 b) (read_le 32 8 b) (slice 40 32 b).

Definition entry_to_bytes (e : StreamEntry) : list Z :=
  le_bytes 8 (de_seg_id e) ++ [de_seg_type e] ++ [de_stage e] ++ le_bytes 2 (de_flags e) ++
  le_bytes 4 (de_requires_mask e) ++ le_bytes 8 (de_body_offset e) ++ le_bytes 8 (de_stored_len e) ++
  le_bytes 8 (de_uncompressed_len e) ++ de_chunk_table_hash e.

Definition stream_header_to_bytes (h : StreamHeader) : list Z :=
  STREAM_MAGIC ++ le_bytes 2 STREAM_VERSION ++ le_bytes 2 (dh_flags h) ++ [1] ++ [dh_chunk_log2 h] ++
  replicate 6 0 ++ dh_file_id h ++ le_bytes 8 (dh_epoch h) ++ le_bytes 8 (dh_body_len h) ++
  dh_rvf_identity h ++ dh_policy_hash h ++ le_bytes 4 (dh_seg_count h) ++
  le_bytes 4 (wrap32 (dh_seg_count h * Z.of_nat ENTRY_SIZE)) ++ le_bytes 8 (dh_expires_ns h) ++
  dh_signer_key_id h ++ replicate 8 0.

Record VerifiedDescriptor : Set := mkVerifiedDescriptor {
  vd_header : StreamHeader;
  vd_entries : list StreamEntry;
  vd_index : list (Z * nat);
  vd_descriptor_hash : list Z;
  vd_signer : list Z;
}.

(** [binary_search_by_key] on the sorted index, whose keys are distinct: the
    position of the key, when it is there. *)
Definition descriptor_find (seg_id : Z) (d : VerifiedDescriptor) : option nat :=
  match position (λ p : Z * nat, p.1 =? seg_id) (vd_index d) with
  | Some i => (λ p : Z * nat, p.2) <$> (vd_index d !! i)
  | None => None
  end.

(** [checked_mul] and [checked_add] on a 64-bit [usize]. *)
Definition descriptor_len (seg_count : Z) : option Z :=
  match (if seg_count * Z.of_nat ENTRY_SIZE <=? u64_max then Some (seg_count * Z.of_nat ENTRY_SIZE) else None) with
  | None => None
  | Some n => checked_add u64_max n (Z.of_nat (STREAM_HEADER_SIZE + TRAILER_SIZE))
  end.

Fixpoint chunks_exact (fuel n : nat) (l : list Z) : list (list Z) :=
  match fuel with
  | O => []
  | S fuel => if (length l <? n)%nat then [] else take n l :: chunks_exact fuel n (drop n l)
  end.

(** One pass over the 32 stages of [stages_acyclic]. *)
Fixpoint stage_pass (s : nat) (req : list Z) (done : Z) (progressed : bool) : Z * bool :=
  match req with
  | [] => (done, progressed)
  | r :: req =>
      if (Z.land done (Z.shiftl 1 (Z.of_nat s)) =? 0) && (Z.land r (Z.lxor u32_max done) =? 0)
      then stage_pass (S s) req (Z.lor done (Z.shiftl 1 (Z.of_nat s))) true
      else stage_pass (S s) req done progressed
  end.

Fixpoint stage_rounds (n : nat) (req : list Z) (done : Z) : Z :=
  match n with
  | O => done
  | S n =>
      let '(done, progressed) := stage_pass 0 req done false in
      if negb progressed then done else stage_rounds n req done
  end.

Definition stages_acyclic (req : list Z) : StreamResult unit :=
  if stage_rounds MAX_STAGES req 0 =? u32_max then Ok tt else Err SeTableInvalid.

(** [class as usize]. *)
Definition segment_class_index (class : SegmentClass) : nat :=
  match class with ClassRuntime => 0 | ClassModel => 1 | ClassState => 2 | ClassMemory => 3 end.

Record TableState : Set := mkTableState {
  ts_entries : list StreamEntry;
  ts_expect_off : Z;
  ts_class_total : list Z;
  ts_union_req : list Z;
}.

(** One turn of the loop of [parse_table]. *)
Definition table_entry (h : StreamHeader) (policy : StreamPolicy) (i : nat) (e : StreamEntry) (st : TableState)
    : StreamResult TableState :=
  if negb (de_body_offset e =? ts_expect_off st) || (de_stored_len e =? 0) then Err SeTableInvalid
  else if negb (de_flags e =? 0) then Err SeTableInvalid
  else if (if de_seg_type e =? SEG_TYPE_ROOT_PAGE then
             negb (Z.of_nat i + 1 =? dh_seg_count h) || negb (de_stored_len e =? Z.of_nat ROOT_PAGE_SIZE) ||
             negb (de_uncompressed_len e =? 0)
           else de_stored_len e <? 64) then Err SeTableInvalid
  else if (Z.of_nat MAX_STAGES <=? de_stage e) ||
          negb (Z.land (de_requires_mask e) (Z.shiftl 1 (de_stage e)) =? 0) then Err SeTableInvalid
  else if (sm_max_segment_bytes policy <? de_stored_len e) ||
          (sm_max_uncompressed_len policy <? de_uncompressed_len e) then Err SeLimitExceeded
  else if is_none (chunk_size h) && (u32_max <? de_stored_len e) then Err SeLimitExceeded
  else
    match chunk_count (de_stored_len e) h with
    | None => Err SeLimitExceeded
    | Some n =>
        if (1 <? n) && (sm_max_table_bytes policy <? n * 32) then Err SeLimitExceeded
        else
          let class := segment_class (de_seg_type e) in
          let c := segment_class_index class in
          match checked_add u64_max (default 0 (ts_class_total st !! c)) (de_stored_len e) with
          | None => Err SeLimitExceeded
          | Some total =>
              if budget_for class (sm_size policy) <? total then Err SeLimitExceeded
              else
                match checked_add u64_max (de_body_offset e) (de_stored_len e) with
                | None => Err SeTableInvalid
                | Some expect_off =>
                    let s := Z.to_nat (de_stage e) in
                    Ok (mkTableState (ts_entries st ++ [e]) expect_off (<[c := total]> (ts_class_total st))
                          (<[s := Z.lor (default 0 (ts_union_req st !! s)) (de_requires_mask e)]> (ts_union_req st)))
                end
          end
    end.

Fixpoint table_loop (h : StreamHeader) (policy : StreamPolicy) (i : nat) (raws : list (list Z)) (st : TableState)
    : StreamResult TableState :=
  match raws with
  | [] => Ok st
  | raw :: raws =>
      match table_entry h policy i (entry_from_bytes raw) st with
      | Err e => Err e
      | Ok st => table_loop h policy (S i) raws st
      end
  end.

(** The derived order of [(u64, u32)]. *)
Definition index_cmp (a b : Z * nat) : comparison := cmp_then (Z.compare a.1 b.1) (Nat.compare a.2 b.2).

(** [index.windows(2).any(|w| w[0].0 == w[1].0)]. *)
Fixpoint adjacent_repeat (l : list (Z * nat)) : bool :=
  match l with
  | [] => false
  | a :: l' => match l' with b :: _ => (a.1 =? b.1) || adjacent_repeat l' | [] => false end
  end.

Definition entry_index (entries : list StreamEntry) : list (Z * nat) :=
  sort_by index_cmp (imap (λ i e, (de_seg_id e, i)) entries).

Definition parse_table (table : list Z) (h : StreamHeader) (policy : StreamPolicy)
    : StreamResult (list StreamEntry * list (Z * nat)) :=
  if dh_seg_count h =? 0 then Err SeTableInvalid
  else if sp_max_container_bytes (sm_size policy) <? dh_body_len h then Err SeLimitExceeded
  else
    match table_loop h policy 0 (chunks_exact (length table) ENTRY_SIZE table)
            (mkTableState [] 0 (replicate 4 0) (replicate MAX_STAGES 0)) with
    | Err e => Err e
    | Ok st =>
        if negb (ts_expect_off st =? dh_body_len h) then Err SeTableInvalid
        else
          let index := entry_index (ts_entries st) in
          if adjacent_repeat index then Err SeTableInvalid
          else
            match stages_acyclic (ts_union_req st) with
            | Err e => Err e
            | Ok _ => Ok (ts_entries st, index)
            end
    end.

Section decoding.
Context {SH : Sha256} {ED : Ed25519}.

(** The loop over the trusted keys: the signer and whether its id was known. *)
Fixpoint find_signer (bytes key_id : list Z) (keys : list (list Z)) (known : bool) : option (list Z) * bool :=
  match keys with
  | [] => (None, known)
  | pk :: keys =>
      if bool_decide (stream_signer_key_id pk = key_id) then
        if verify_descriptor_signature bytes pk then (Some pk, true) else find_signer bytes key_id keys true
      else find_signer bytes key_id keys known
  end.

Definition decode_descriptor (bytes : list Z) (policy : StreamPolicy) : StreamResult VerifiedDescriptor :=
  if sm_max_descriptor_bytes policy <? Z.of_nat (length bytes) then Err SeLimitExceeded
  else
    match stream_header_parse bytes with
    | Err e => Err e
    | Ok h =>
        if (sm_max_segments policy <? dh_seg_count h) || (sp_max_segments (sm_size policy) <? dh_seg_count h)
        then Err SeLimitExceeded
        else if negb (bool_decide (descriptor_len (dh_seg_count h) = Some (Z.of_nat (length bytes))))
        then Err SeDescriptorTruncated
        else
          let sig_len_at := (STREAM_HEADER_SIZE + Z.to_nat (dh_seg_count h) * ENTRY_SIZE)%nat in
          if negb (read_le sig_len_at 2 bytes =? Z.of_nat SIG_LEN) then Err SeDescriptorTruncated
          else
            match find_signer bytes (dh_signer_key_id h) (sm_trusted_keys policy) false with
            | (None, true) => Err SeBadSignature
            | (None, false) => Err SeUnknownSigner
            | (Some signer, _) =>
                let expiry :=
                  if negb (dh_expires_ns h =? 0) && replay_is_pinned (sm_replay policy) then
                    match replay_now_ns (sm_replay policy) with
                    | None => Err SeClockRequired
                    | Some now => if dh_expires_ns h <=? now then Err SeExpired else Ok tt
                    end
                  else Ok tt in
                match expiry with
                | Err e => Err e
                | Ok _ =>
                    if is_some_and (λ p, negb (bool_decide (p = dh_policy_hash h))) (sm_expected_policy_hash policy)
                    then Err SePolicyMismatch
                    else
                      let dhash := descriptor_hash bytes in
                      let pinned :=
                        match replay_lookup (dh_signer_key_id h) (dh_file_id h) (sm_replay policy) with
                        | Some pin =>
                            if dh_epoch h <? ep_epoch pin then Err SeStaleEpoch
                            else if (dh_epoch h =? ep_epoch pin) && negb (bool_decide (ep_descriptor_hash pin = dhash))
                            then Err SeEpochConflict
                            else Ok tt
                        | None => Ok tt
                        end in
                      match pinned with
                      | Err e => Err e
                      | Ok _ =>
                          match parse_table (slice STREAM_HEADER_SIZE (sig_len_at - STREAM_HEADER_SIZE) bytes) h policy with
                          | Err e => Err e
                          | Ok (entries, index) =>
                              Ok (mkVerifiedDescriptor h entries index dhash signer)
                          end
                      end
                end
            end
    end.
End decoding.

(* ------------------------------------------------------------------ *)
(** ** Events ([events.rs]) and frames ([frame.rs]) *)

Inductive StreamState : Set :=
| StAwaitDescriptor | StReady | StReceiving | StSuspended | StComplete | StCompleteUnverified
| StRejected (e : StreamError)
| StPoisoned (e : StreamError).
#[export] Instance StreamState_eq_dec : EqDecision StreamState.
Proof. solve_decision. Defined.

Definition stream_is_terminal (s : StreamState) : bool :=
  match s with StRejected _ | StPoisoned _ | StComplete | StCompleteUnverified => true | _ => false end.

Inductive IdentityStatus : Set := IdVerified | IdUnverifiable | IdNotPresent.
#[export] Instance IdentityStatus_eq_dec : EqDecision IdentityStatus.
Proof. solve_decision. Defined.

Record PoisonInfo : Set := mkPoisonInfo {
  pi_seg_id : option Z;
  pi_chunk_index : Z;
  pi_reason : StreamError;
}.

Record VerifiedChunk : Set := mkVerifiedChunk {
  vc_seg_id : Z;
  vc_seg_type : Z;
  vc_chunk_index : Z;
  vc_segment_offset : Z;
  vc_body_offset : Z;
  vc_bytes : list Z;
}.

Inductive Event : Set :=
| EvDescriptorVerified (descriptor_hash : list Z) (seg_count body_len : Z)
| EvTableVerified (seg_id : Z)
| EvDuplicate (seg_id chunk_index : Z)
| EvUnverified (seg_id chunk_index : Z)
| EvDuplicateDescriptor
| EvChunk (chunk : VerifiedChunk) (segment_verified : bool) (stage_verified : option Z)
    (complete : option IdentityStatus).

Definition FRAME_DESCRIPTOR : Z := 0.
Definition FRAME_CHUNK : Z := 1.
Definition FRAME_CHUNK_TABLE : Z := 2.

Definition descriptor_frame (descriptor : list Z) : list Z :=
  [FRAME_DESCRIPTOR] ++ le_bytes 4 (wrap32 (Z.of_nat (length descriptor))) ++ descriptor.
Definition chunk_frame (seg_id chunk_index : Z) (bytes : list Z) : list Z :=
  [FRAME_CHUNK] ++ le_bytes 8 seg_id ++ le_bytes 4 chunk_index ++
  le_bytes 4 (wrap32 (Z.of_nat (length bytes))) ++ bytes.
Definition table_frame (seg_id : Z) (leaves : list (list Z)) : list Z :=
  [FRAME_CHUNK_TABLE] ++ le_bytes 8 seg_id ++ le_bytes 4 (wrap32 (Z.of_nat (length leaves))) ++ concat leaves.

Definition frame_header_len (frame_type : Z) : option nat :=
  match frame_type with 0 => Some 5%nat | 1 => Some 17%nat | 2 => Some 13%nat | _ => None end.

Definition declared_payload (h : list Z) : Z :=
  match format_byte_at h 0 with
  | 0 => read_le 1 4 h
  | 1 => read_le 13 4 h
  | _ => 32 * read_le 9 4 h
  end.

(* ------------------------------------------------------------------ *)
(** ** The wire form is faithful *)

Record stream_header_wf (h : StreamHeader) : Prop := {
  xh_flags : 0 ≤ dh_flags h ≤ 7;
  xh_chunked : (dh_chunk_log2 h = CHUNK_LOG2_SEGMENT ∧ Z.land (dh_flags h) FLAG_CHUNKED = 0) ∨
               (CHUNK_LOG2_MIN ≤ dh_chunk_log2 h ≤ CHUNK_LOG2_MAX ∧ Z.land (dh_flags h) FLAG_CHUNKED ≠ 0);
  xh_file : length (dh_file_id h) = 16%nat ∧ Forall is_byte (dh_file_id h);
  xh_epoch : is_u64 (dh_epoch h);
  xh_body : is_u64 (dh_body_len h);
  xh_identity : length (dh_rvf_identity h) = 32%nat ∧ Forall is_byte (dh_rvf_identity h);
  xh_no_identity : Z.land (dh_flags h) FLAG_IDENTITY_PRESENT = 0 → dh_rvf_identity h = replicate 32 0;
  xh_policy : length (dh_policy_hash h) = 32%nat ∧ Forall is_byte (dh_policy_hash h);
  xh_count : 0 ≤ dh_seg_count h ∧ dh_seg_count h * 72 ≤ u32_max;
  xh_expires : is_u64 (dh_expires_ns h);
  xh_signer : length (dh_signer_key_id h) = 8%nat ∧ Forall is_byte (dh_signer_key_id h);
}.

Lemma known_flags_range flags : 0 ≤ flags → Z.land flags (Z.lnot FLAGS_KNOWN) = 0 ↔ 0 ≤ flags ≤ 7.
Proof.
  intros H0. change (Z.lnot FLAGS_KNOWN) with (Z.lnot (Z.ones 3)). rewrite <-Z.ldiff_land.
  rewrite Z.ldiff_ones_r by lia. rewrite Z.shiftr_div_pow2, Z.shiftl_mul_pow2 by lia.
  change (2 ^ 3) with 8. pose proof (Z.div_mod flags 8). pose proof (Z.mod_pos_bound flags 8). lia.
Qed.

Lemma stream_header_parse_to_bytes h :
  stream_header_wf h → stream_header_parse (stream_header_to_bytes h) = Ok h.
Proof.
  destruct h as [fl cl fid ep bl rid ph sc ex sk].
  intros [Hfl Hch [Hfid _] Hep Hbl [Hrid _] Hni [Hph _] Hsc Hex [Hsk _]].
  cbn [dh_flags dh_chunk_log2 dh_file_id dh_epoch dh_body_len dh_rvf_identity dh_policy_hash dh_seg_count
    dh_expires_ns dh_signer_key_id] in *.
  unfold stream_header_to_bytes. cbn [dh_flags dh_chunk_log2 dh_file_id dh_epoch dh_body_len dh_rvf_identity
    dh_policy_hash dh_seg_count dh_expires_ns dh_signer_key_id].
  change (Z.of_nat ENTRY_SIZE) with 72. rewrite (wrap32_id (sc * 72)) by (unfold is_u32; lia).
  match goal with |- stream_header_parse ?d = _ => set (data := d) end.
  assert (length data = 144%nat) as Hl
    by (subst data; rewrite !length_app, !length_le_bytes, !length_replicate, Hfid, Hrid, Hph, Hsk; done).
  assert (∀ off n z, slice off n data = le_bytes n z → 0 ≤ z < 256 ^ Z.of_nat n → read_le off n data = z)
    as Hf by (intros; by apply read_le_field).
  unfold stream_header_parse. rewrite Hl. unfold is_u64, u64_max, u32_max in *.
  assert (slice 0 4 data = STREAM_MAGIC) as -> by (subst data; read_field).
  rewrite (Hf 4%nat 2%nat STREAM_VERSION) by ((subst data; read_field) || (unfold STREAM_VERSION; lia)).
  rewrite (Hf 6%nat 2%nat fl) by ((subst data; read_field) || lia).
  assert (0 ≤ cl < 256) as Hcl by (unfold CHUNK_LOG2_SEGMENT, CHUNK_LOG2_MIN, CHUNK_LOG2_MAX in Hch; lia).
  rewrite (byte_at_slice data 9 cl) by (subst data; read_field).
  rewrite (byte_at_slice data 8 1) by (subst data; read_field).
  assert (slice 10 6 data = replicate 6 0) as Hz by (subst data; read_field).
  assert (read_le 10 2 data = 0) as ->.
  { unfold read_le. replace (slice 10 2 data) with (take 2 (slice 10 6 data)); [by rewrite Hz|].
    unfold slice. by rewrite take_take. }
  assert (read_le 12 4 data = 0) as ->.
  { unfold read_le. replace (slice 12 4 data) with (drop 2 (slice 10 6 data)); [by rewrite Hz|].
    unfold slice. rewrite skipn_firstn_comm, drop_drop. done. }
  assert (slice 136 8 data = replicate 8 0) as -> by (subst data; read_field).
  rewrite (Hf 112%nat 4%nat sc) by ((subst data; read_field) || lia).
  rewrite (Hf 116%nat 4%nat (sc * 72)) by ((subst data; read_field) || lia).
  assert (slice 48 32 data = rid) as -> by (subst data; read_field).
  assert (slice 16 16 data = fid) as -> by (subst data; read_field).
  assert (slice 80 32 data = ph) as -> by (subst data; read_field).
  assert (slice 128 8 data = sk) as -> by (subst data; read_field).
  rewrite (Hf 32%nat 8%nat ep) by ((subst data; read_field) || lia).
  rewrite (Hf 40%nat 8%nat bl) by ((subst data; read_field) || lia).
  rewrite (Hf 120%nat 8%nat ex) by ((subst data; read_field) || lia).
  cbn [Nat.ltb Nat.leb STREAM_HEADER_SIZE]. rewrite !bool_decide_true by done. cbn [negb].
  rewrite (proj2 (known_flags_range fl ltac:(lia)) Hfl). rewrite !Z.eqb_refl. cbn [negb orb].
  rewrite ?Z.eqb_refl. cbn [negb].
  assert ((if cl =? CHUNK_LOG2_SEGMENT then Z.land fl FLAG_CHUNKED =? 0
    else (CHUNK_LOG2_MIN <=? cl) && (cl <=? CHUNK_LOG2_MAX) && negb (Z.land fl FLAG_CHUNKED =? 0)) = true) as ->.
  { destruct Hch as [[-> ->]|[Hr Hne]]; [done|].
    assert (cl =? CHUNK_LOG2_SEGMENT = false) as -> by (apply Z.eqb_neq; unfold CHUNK_LOG2_SEGMENT, CHUNK_LOG2_MAX in *; lia).
    rewrite !andb_true_iff, negb_true_iff, Z.eqb_neq, !Z.leb_le. done. }
  cbn [negb]. destruct (Z.land fl FLAG_IDENTITY_PRESENT =? 0) eqn:Ei; [|done]. split_bool.
  rewrite (Hni Ei), bool_decide_true by done. done.
Qed.

Lemma entry_fields_roundtrip e :
  is_u64 (de_seg_id e) → is_u16 (de_flags e) → is_u32 (de_requires_mask e) → is_u64 (de_body_offset e) →
  is_u64 (de_stored_len e) → is_u64 (de_uncompressed_len e) → length (de_chunk_table_hash e) = 32%nat →
  entry_from_bytes (entry_to_bytes e) = e.
Proof.
  destruct e as [id ty st fl rq bo sl ul ch].
  cbn [de_seg_id de_flags de_requires_mask de_body_offset de_stored_len de_uncompressed_len de_chunk_table_hash].
  intros H1 H2 H3 H4 H5 H6 H7. unfold entry_to_bytes.
  cbn [de_seg_id de_seg_type de_stage de_flags de_requires_mask de_body_offset de_stored_len
    de_uncompressed_len de_chunk_table_hash].
  match goal with |- entry_from_bytes ?d = _ => set (data := d) end.
  assert (∀ off n z, slice off n data = le_bytes n z → 0 ≤ z < 256 ^ Z.of_nat n → read_le off n data = z)
    as Hf by (intros; by apply read_le_field).
  unfold entry_from_bytes, is_u64, is_u16, is_u32, u64_max, u32_max, u16_max in *.
  rewrite (Hf 0%nat 8%nat id) by ((subst data; read_field) || lia).
  rewrite (byte_at_slice data 8 ty) by (subst data; read_field).
  rewrite (byte_at_slice data 9 st) by (subst data; read_field).
  rewrite (Hf 10%nat 2%nat fl) by ((subst data; read_field) || lia).
  rewrite (Hf 12%nat 4%nat rq) by ((subst data; read_field) || lia).
  rewrite (Hf 16%nat 8%nat bo) by ((subst data; read_field) || lia).
  rewrite (Hf 24%nat 8%nat sl) by ((subst data; read_field) || lia).
  rewrite (Hf 32%nat 8%nat ul) by ((subst data; read_field) || lia).
  assert (slice 40 32 data = ch) as -> by (subst data; read_field). done.
Qed.

(** An entry read from 72 bytes has those bytes. *)
Lemma entry_to_bytes_from data :
  Forall is_byte data → length data = ENTRY_SIZE → entry_to_bytes (entry_from_bytes data) = data.
Proof.
  intros Hb Hl. unfold ENTRY_SIZE in Hl.
  assert (∀ off n, (off + n ≤ 72)%nat → le_bytes n (read_le off n data) = slice off n data) as Hr
    by (intros; apply le_bytes_read; [done|lia]).
  unfold entry_to_bytes, entry_from_bytes. cbn [de_seg_id de_seg_type de_stage de_flags de_requires_mask
    de_body_offset de_stored_len de_uncompressed_len de_chunk_table_hash].
  rewrite !Hr by lia. rewrite <-!slice_byte_at by lia.
  transitivity (take 72 data); [|by apply take_ge; lia].
  rewrite (take_slice 40 32), (take_slice 32 8), (take_slice 24 8), (take_slice 16 8), (take_slice 12 4),
    (take_slice 10 2), (take_slice 9 1), (take_slice 8 1), (take_slice 0 8), <-!app_assoc. done.
Qed.

(** What a parsed header is: the one whose encoding the bytes begin with. *)
Lemma stream_header_parse_inv data h :
  Forall is_byte data → stream_header_parse data = Ok h →
  stream_header_wf h ∧ stream_header_to_bytes h = take STREAM_HEADER_SIZE data.
Proof.
  intros Hb H. unfold stream_header_parse in H.
  apply guard_Ok in H as [Hl H]. apply Nat.ltb_ge in Hl. unfold STREAM_HEADER_SIZE in *.
  apply guard_Ok in H as [Hmagic H]. apply negb_false_iff, bool_decide_eq_true in Hmagic.
  apply guard_Ok in H as [Hver H]. apply negb_false_iff, Z.eqb_eq in Hver.
  apply guard_Ok in H as [Hflags H]. apply guard_Ok in H as [Htl H]. apply guard_Ok in H as [Hid H].
  injection H as <-. rewrite !orb_false_iff, !negb_false_iff in Hflags.
  destruct Hflags as (((((Hf & H8) & Hr0) & Hr1) & Htail) & Hch).
  rewrite !Z.eqb_eq in *. apply bool_decide_eq_true in Htail. apply negb_false_iff, Z.eqb_eq in Htl.
  assert (∀ off n, (off + n ≤ 144)%nat → le_bytes n (read_le off n data) = slice off n data) as Hr
    by (intros; apply le_bytes_read; [done|lia]).
  assert (∀ off n, (off + n ≤ 144)%nat → 0 ≤ read_le off n data < 256 ^ Z.of_nat n) as Hz
    by (intros; apply read_le_range; [done|lia]).
  assert (∀ off n, (off + n ≤ 144)%nat → length (slice off n data) = n ∧ Forall is_byte (slice off n data)) as Hs
    by (intros; split; [apply slice_length; lia|by apply slice_bytes]).
  pose proof (Hz 6%nat 2%nat ltac:(lia)) as Hz6. pose proof (Hz 32%nat 8%nat ltac:(lia)).
  pose proof (Hz 40%nat 8%nat ltac:(lia)). pose proof (Hz 120%nat 8%nat ltac:(lia)).
  pose proof (Hz 112%nat 4%nat ltac:(lia)). pose proof (Hz 116%nat 4%nat ltac:(lia)).
  change (256 ^ Z.of_nat 8) with (u64_max + 1) in *. change (256 ^ Z.of_nat 4) with (u32_max + 1) in *.
  change (Z.of_nat ENTRY_SIZE) with 72 in *.
  split.
  - split; cbn [dh_flags dh_chunk_log2 dh_file_id dh_epoch dh_body_len dh_rvf_identity dh_policy_hash
      dh_seg_count dh_expires_ns dh_signer_key_id]; try (apply Hs; lia); try (unfold is_u64; lia).
    + apply known_flags_range; [lia|done].
    + destruct (format_byte_at data 9 =? CHUNK_LOG2_SEGMENT) eqn:E; split_bool; [by left|]. right.
      split; [lia|done].
    + intros E. rewrite E in Hid. cbn in Hid. by apply negb_false_iff, bool_decide_eq_true in Hid.
  - unfold stream_header_to_bytes. cbn [dh_flags dh_chunk_log2 dh_file_id dh_epoch dh_body_len
      dh_rvf_identity dh_policy_hash dh_seg_count dh_expires_ns dh_signer_key_id].
    change (Z.of_nat ENTRY_SIZE) with 72. rewrite Htl, wrap32_id by (unfold is_u32; lia).
    rewrite !Hr by lia. rewrite <-Hmagic, <-Hver, <-Htail, Hr, <-H8, <-!slice_byte_at by lia.
    change (replicate 6 0) with (replicate 2 0 ++ replicate 4 0).
    change (replicate 2 0) with (le_bytes 2 0). change (replicate 4 0) with (le_bytes 4 0).
    rewrite <-Hr0 at 1. rewrite <-Hr1 at 1. rewrite !Hr by lia.
    rewrite (take_slice 136 8), (take_slice 128 8), (take_slice 120 8), (take_slice 116 4), (take_slice 112 4),
      (take_slice 80 32), (take_slice 48 32), (take_slice 40 8), (take_slice 32 8), (take_slice 16 16),
      (take_slice 12 4), (take_slice 10 2), (take_slice 9 1), (take_slice 8 1), (take_slice 6 2),
      (take_slice 4 2), (take_slice 0 4), <-!app_assoc. done.
Qed.

(* ------------------------------------------------------------------ *)
(** ** Stage requirements *)

Lemma bit_clear done s : Z.land done (Z.shiftl 1 (Z.of_nat s)) = 0 ↔ Z.testbit done (Z.of_nat s) = false.
Proof.
  split.
  - intros H. apply (f_equal (λ z, Z.testbit z (Z.of_nat s))) in H.
    rewrite Z.land_spec, Z.shiftl_1_l, Z.pow2_bits_true, andb_true_r, Z.bits_0 in H by lia. done.
  - intros H. apply Z.bits_inj_0. intros i. rewrite Z.land_spec, Z.shiftl_1_l.
    destruct (decide (i = Z.of_nat s)) as [->|]; [by rewrite H|].
    rewrite Z.pow2_bits_false by lia. apply andb_false_r.
Qed.

Section stages.
Variable req : list Z.
Hypothesis req_len : length req = MAX_STAGES.

Definition needs (s : nat) (t : nat) : Prop := ∃ r, req !! s = Some r ∧ Z.testbit r (Z.of_nat t) = true.
Definition stage_done (done : Z) (s : nat) : Prop := Z.testbit done (Z.of_nat s) = true.

(** An order in which the done stages can be delivered. *)
Definition delivered (done : Z) : Prop :=
  ∃ L : list nat, NoDup L ∧ (∀ s, s ∈ L ↔ stage_done done s) ∧
    ∀ j s, L !! j = Some s → ∀ t, (t < MAX_STAGES)%nat → needs s t → t ∈ take j L.

Definition done_ok (done : Z) : Prop := 0 ≤ done ∧ ∀ s, stage_done done s → (s < MAX_STAGES)%nat.

Lemma requirements_met done r :
  done_ok done → Z.land r (Z.lxor u32_max done) = 0 ↔
  ∀ t, (t < MAX_STAGES)%nat → Z.testbit r (Z.of_nat t) = true → stage_done done t.
Proof.
  intros [H0 Hb]. change u32_max with (Z.ones 32). unfold stage_done, MAX_STAGES in *. split.
  - intros H t Ht Hr. apply (f_equal (λ z, Z.testbit z (Z.of_nat t))) in H.
    rewrite Z.land_spec, Hr, Z.lxor_spec, Z.ones_spec_low, Z.bits_0 in H by lia.
    cbn in H. by destruct (Z.testbit done _).
  - intros H. apply Z.bits_inj_0. intros i. rewrite Z.land_spec.
    destruct (decide (i < 0)); [by rewrite !Z.testbit_neg_r|]. rewrite Z.lxor_spec.
    destruct (decide (i < 32)).
    + rewrite Z.ones_spec_low by lia. destruct (Z.testbit r i) eqn:Er; [|done].
      specialize (H (Z.to_nat i) ltac:(lia)). rewrite Z2Nat.id in H by lia. by rewrite H.
    + rewrite Z.ones_spec_high by lia. destruct (Z.testbit done i) eqn:Ed; [|apply andb_false_r].
      specialize (Hb (Z.to_nat i)). rewrite Z2Nat.id in Hb by lia. specialize (Hb Ed). lia.
Qed.

Lemma stage_done_add done s t :
  stage_done (Z.lor done (Z.shiftl 1 (Z.of_nat s))) t ↔ stage_done done t ∨ t = s.
Proof.
  unfold stage_done. rewrite Z.lor_spec, Z.shiftl_1_l. destruct (decide (t = s)) as [->|Hne].
  - rewrite Z.pow2_bits_true, orb_true_r by lia. tauto.
  - rewrite Z.pow2_bits_false, orb_false_r by lia. tauto.
Qed.

Lemma stage_pass_spec suffix s done progressed done' progressed' :
  drop s req = suffix → (s ≤ MAX_STAGES)%nat → done_ok done → delivered done →
  stage_pass s suffix done progressed = (done', progressed') →
  done_ok done' ∧ delivered done' ∧ (∀ t, stage_done done t → stage_done done' t) ∧
  (∀ i, (s ≤ i < MAX_STAGES)%nat → (∀ t, (t < MAX_STAGES)%nat → needs i t → stage_done done t) → stage_done done' i) ∧
  (progressed' = true → progressed = true ∨ ∃ i, stage_done done' i ∧ ¬ stage_done done i) ∧
  (progressed' = false → progressed = false ∧ done' = done).
Proof.
  revert s done progressed. induction suffix as [|r suffix IH]; intros s done progressed Hd Hs Hok Hdel H.
  { cbn in H. injection H as <- <-. split_and!; try done; [|by left].
    intros i Hi. apply (f_equal length) in Hd. rewrite length_drop in Hd. cbn in Hd. lia. }
  assert (req !! s = Some r) as Hr by (rewrite <-(Nat.add_0_r s), <-lookup_drop, Hd; done).
  assert (s < MAX_STAGES)%nat as Hlt by (rewrite <-req_len; by eapply lookup_lt_Some).
  assert (drop (S s) req = suffix) as Hd' by (rewrite <-Nat.add_1_r, <-drop_drop, Hd; done).
  cbn [stage_pass] in H.
  destruct ((Z.land done (Z.shiftl 1 (Z.of_nat s)) =? 0) && (Z.land r (Z.lxor u32_max done) =? 0)) eqn:E.
  - split_bool.
    match goal with H1 : Z.land done _ = 0, H2 : Z.land r _ = 0 |- _ =>
      rename H1 into Hclear; rename H2 into Hmet end.
    apply bit_clear in Hclear. rewrite requirements_met in Hmet by done.
    set (done1 := Z.lor done (Z.shiftl 1 (Z.of_nat s))) in *.
    assert (∀ t, stage_done done1 t ↔ stage_done done t ∨ t = s) as Hadd by (intros; apply stage_done_add).
    destruct (IH (S s) done1 true Hd' ltac:(lia)) as (Hok' & Hdel' & Hmono & Hready & Hp1 & Hp2); [| |done|].
    + split; [apply Z.lor_nonneg; split; [apply Hok|apply Z.shiftl_nonneg; lia]|].
      intros t [Ht| ->]%Hadd; [by apply Hok|done].
    + destruct Hdel as (L & Hnd & Hin & Hreq). exists (L ++ [s]). split_and!.
      * apply NoDup_app. split_and!; [done| |apply NoDup_singleton].
        intros t Ht ->%list_elem_of_singleton. apply Hin in Ht. unfold stage_done in Ht. congruence.
      * intros t. rewrite elem_of_app, list_elem_of_singleton, Hin, Hadd. done.
      * intros j t Hj u Hu Hn. apply lookup_app_Some in Hj as [Hj|[Hge Hj]].
        -- rewrite take_app_le by (apply lookup_lt_Some in Hj; lia). by eapply Hreq.
        -- apply list_lookup_singleton_Some in Hj as [Hz <-].
           rewrite take_app_ge by lia. apply elem_of_app. left. apply Hin.
           destruct Hn as (r' & Hr' & Hb). rewrite Hr in Hr'. injection Hr' as <-. by apply Hmet.
    + split_and!; [done|done| | | |].
      * intros t Ht. apply Hmono, Hadd. by left.
      * intros i Hi Hn. destruct (decide (i = s)) as [->|]; [apply Hmono, Hadd; by right|].
        apply Hready; [lia|]. intros t Ht Hnt. apply Hadd. left. by apply Hn.
      * intros _. right. exists s. split; [apply Hmono, Hadd; by right|]. unfold stage_done. by rewrite Hclear.
      * intros Hf. by apply Hp2 in Hf as [? _].
  - destruct (IH (S s) done progressed Hd' ltac:(lia) Hok Hdel H) as (Hok' & Hdel' & Hmono & Hready & Hp1 & Hp2).
    split_and!; try done. intros i Hi Hn. destruct (decide (i = s)) as [->|]; [|apply Hready; [lia|done]].
    apply andb_false_iff in E as [E|E]; split_bool.
    + apply Hmono. unfold stage_done. destruct (Z.testbit done (Z.of_nat s)) eqn:Eb; [done|].
      by apply bit_clear in Eb.
    + destruct E. apply requirements_met; [done|]. intros t Ht Hb. apply Hn; [done|]. by exists r.
Qed.

(** A rank that every requirement lowers. *)
Definition acyclic : Prop :=
  ∃ rank : nat → nat, ∀ s t, (s < MAX_STAGES)%nat → (t < MAX_STAGES)%nat → needs s t → (rank t < rank s)%nat.

Definition undone (done : Z) : list nat := filter (λ s, Z.testbit done (Z.of_nat s) = false) (seq 0 MAX_STAGES).

Lemma elem_of_undone done s : s ∈ undone done ↔ (s < MAX_STAGES)%nat ∧ ¬ stage_done done s.
Proof.
  unfold undone, stage_done. rewrite list_elem_of_filter, elem_of_seq, not_true_iff_false. cbn -[MAX_STAGES]. split; intros []; split; (done || lia).
Qed.

Lemma all_done done : done_ok done → undone done = [] → done = u32_max.
Proof.
  intros [H0 Hb] Hu. change u32_max with (Z.ones 32). apply Z.bits_inj'. intros i Hi.
  destruct (decide (i < 32)).
  - rewrite Z.ones_spec_low by lia. destruct (Z.testbit done i) eqn:E; [done|].
    assert (Z.to_nat i ∈ undone done) as Hin.
    { apply elem_of_undone. unfold stage_done, MAX_STAGES. rewrite Z2Nat.id by lia. split; [lia|congruence]. }
    rewrite Hu in Hin. by apply not_elem_of_nil in Hin.
  - rewrite Z.ones_spec_high by lia. destruct (Z.testbit done i) eqn:E; [|done].
    specialize (Hb (Z.to_nat i)). unfold stage_done, MAX_STAGES in Hb. rewrite Z2Nat.id in Hb by lia.
    specialize (Hb E). lia.
Qed.

Lemma least_undone (rank : nat → nat) (l : list nat) :
  l ≠ [] → ∃ s, s ∈ l ∧ ∀ t, t ∈ l → (rank s ≤ rank t)%nat.
Proof.
  induction l as [|a l IH]; [done|]. intros _. destruct l as [|b l].
  - exists a. split; [by left|]. intros t ->%list_elem_of_singleton. done.
  - destruct (IH ltac:(done)) as (s & Hs & Hmin). destruct (decide (rank a ≤ rank s)%nat).
    + exists a. split; [by left|]. intros t [->|Ht]%elem_of_cons; [done|]. specialize (Hmin t Ht). lia.
    + exists s. split; [by right|]. intros t [->|Ht]%elem_of_cons; [lia|]. by apply Hmin.
Qed.

Lemma stage_rounds_spec n done :
  done_ok done → delivered done → (length (undone done) ≤ n)%nat →
  done_ok (stage_rounds n req done) ∧ delivered (stage_rounds n req done) ∧
  (acyclic → stage_rounds n req done = u32_max).
Proof.
  revert done. induction n as [|n IH]; intros done Hok Hdel Hn.
  { cbn. split_and!; [done..|]. intros _. apply all_done; [done|]. by apply nil_length_inv, Nat.le_0_r. }
  cbn [stage_rounds]. destruct (stage_pass 0 req done false) as [done1 p1] eqn:E.
  destruct (stage_pass_spec req 0 done false done1 p1 eq_refl ltac:(lia) Hok Hdel E)
    as (Hok1 & Hdel1 & Hmono & Hready & Hp1 & Hp2).
  assert (acyclic → undone done ≠ [] → ∃ s, s ∈ undone done ∧ stage_done done1 s) as Hstep.
  { intros [rank Hrank] Hne. destruct (least_undone rank _ Hne) as (s & Hs & Hmin). exists s. split; [done|].
    apply elem_of_undone in Hs as [Hs Hsd]. apply Hready; [lia|]. intros t Ht Hnt.
    unfold stage_done. destruct (Z.testbit done (Z.of_nat t)) eqn:Et; [done|].
    assert (t ∈ undone done) as Hin by (apply elem_of_undone; split; [done|]; unfold stage_done; congruence).
    specialize (Hmin t Hin). specialize (Hrank s t Hs Ht Hnt). lia. }
  destruct p1; cbn [negb].
  - destruct (Hp1 eq_refl) as [|(i & Hi & Hni)]; [done|]. apply IH; [done|done|].
    assert (undone done1 ⊆+ undone done) as Hsub.
    { unfold undone. apply NoDup_submseteq; [apply NoDup_filter, NoDup_seq|]. intros t.
      rewrite !list_elem_of_filter. intros [Ht ?]. split; [|done]. apply not_true_iff_false. intros Hd.
      apply Hmono in Hd. unfold stage_done in Hd. congruence. }
    assert (length (undone done1) ≠ length (undone done)) as Hne; [|apply submseteq_length in Hsub; lia].
    intros Hlen. assert (i ∈ undone done) as Hin.
    { apply elem_of_undone. split; [by apply Hok1|done]. }
    rewrite <-(submseteq_length_Permutation _ _ Hsub) in Hin by lia.
    by apply elem_of_undone in Hin as [_ ?].
  - destruct (Hp2 eq_refl) as [_ ->]. split_and!; [done..|]. intros Ha. apply all_done; [done|].
    destruct (undone done) as [|u us] eqn:Eu; [done|].
    destruct (Hstep Ha) as (s & Hs & Hsd); [done|]. apply elem_of_cons in Hs as Hs'.
    rewrite <-Eu in Hs. by apply elem_of_undone in Hs as [_ ?].
Qed.

(** The check accepts exactly the requirement tables that have a delivery
    order. *)
Lemma stages_acyclic_exact : stages_acyclic req = Ok tt ↔ acyclic.
Proof.
  assert (done_ok 0) as Hok0 by (split; [done|]; intros s; unfold stage_done; by rewrite Z.bits_0).
  assert (delivered 0) as Hdel0.
  { exists []. split_and!; [constructor| |done]. intros s. unfold stage_done. rewrite Z.bits_0. split; [by intros ?%not_elem_of_nil|done]. }
  destruct (stage_rounds_spec MAX_STAGES 0 Hok0 Hdel0) as (Hok & Hdel & Hall).
  { unfold undone. rewrite length_filter. by rewrite length_seq. }
  unfold stages_acyclic. split.
  - destruct (_ =? u32_max) eqn:E; [|done]. split_bool. intros _. rewrite E in Hdel.
    destruct Hdel as (L & Hnd & Hin & Hreq).
    exists (λ s, default 0%nat (position (λ t, (t =? s)%nat) L)). intros s t Hs Ht Hn.
    assert (∀ u, (u < MAX_STAGES)%nat → ∃ j, L !! j = Some u ∧ position (λ t, (t =? u)%nat) L = Some j) as Hpos.
    { intros u Hu. assert (u ∈ L) as [j Hj]%list_elem_of_lookup.
      { apply Hin. unfold stage_done, MAX_STAGES in *. change u32_max with (Z.ones 32). apply Z.ones_spec_low. lia. }
      exists j. split; [done|]. eapply position_unique; [done|apply Nat.eqb_refl|].
      intros k y Hk ->%Nat.eqb_eq. by eapply NoDup_lookup. }
    destruct (Hpos s Hs) as (j & Hj & ->). destruct (Hpos t Ht) as (k & Hk & ->). cbn.
    specialize (Hreq j s Hj t Ht Hn). apply list_elem_of_lookup in Hreq as [k' Hk'].
    apply lookup_take_Some in Hk' as [Hk' Hlt].
    assert (k = k') as ->; [|done]. by eapply NoDup_lookup.
  - intros Ha. by rewrite (Hall Ha).
Qed.
End stages.

(* ------------------------------------------------------------------ *)
(** ** The table *)

Definition stored_total (entries : list StreamEntry) : Z := foldr (λ e n, de_stored_len e + n) 0 entries.
Definition class_total (class : SegmentClass) (entries : list StreamEntry) : Z :=
  stored_total (filter (λ e, segment_class (de_seg_type e) = class) entries).

(** The entries lie end to end from [off] on. *)
Fixpoint laid_out (off : Z) (entries : list StreamEntry) : Prop :=
  match entries with
  | [] => True
  | e :: entries => de_body_offset e = off ∧ laid_out (off + de_stored_len e) entries
  end.

Lemma stored_total_app a b : stored_total (a ++ b) = stored_total a + stored_total b.
Proof. induction a as [|e a IH]; cbn; [done|]. unfold stored_total in *. lia. Qed.

Lemma laid_out_snoc off entries e :
  laid_out off (entries ++ [e]) ↔ laid_out off entries ∧ de_body_offset e = off + stored_total entries.
Proof.
  revert off. induction entries as [|a entries IH]; intros off; cbn.
  - rewrite Z.add_0_r. tauto.
  - rewrite IH. fold (stored_total entries).
    replace (off + de_stored_len a + stored_total entries) with (off + (de_stored_len a + stored_total entries)) by lia.
    tauto.
Qed.

Lemma class_total_snoc class entries e :
  class_total class (entries ++ [e]) =
  class_total class entries + if bool_decide (segment_class (de_seg_type e) = class) then de_stored_len e else 0.
Proof.
  unfold class_total. rewrite filter_app, stored_total_app. f_equal.
  rewrite filter_cons. case_bool_decide; [rewrite decide_True by done|rewrite decide_False by done]; cbn; lia.
Qed.

(** An entry within the static rules of the table. *)
Record entry_admitted (policy : StreamPolicy) (h : StreamHeader) (e : StreamEntry) : Prop := {
  ea_flags : de_flags e = 0;
  ea_stage : 0 ≤ de_stage e < Z.of_nat MAX_STAGES;
  ea_self : Z.testbit (de_requires_mask e) (de_stage e) = false;
  ea_stored : 0 < de_stored_len e ≤ sm_max_segment_bytes policy;
  ea_uncompressed : de_uncompressed_len e ≤ sm_max_uncompressed_len policy;
  ea_count : ∃ n, chunk_count (de_stored_len e) h = Some n ∧ (1 < n → n * 32 ≤ sm_max_table_bytes policy);
  ea_size : de_seg_type e ≠ SEG_TYPE_ROOT_PAGE → 64 ≤ de_stored_len e;
  ea_root : de_seg_type e = SEG_TYPE_ROOT_PAGE → de_stored_len e = Z.of_nat ROOT_PAGE_SIZE;
}.

Record stream_table_inv (policy : StreamPolicy) (h : StreamHeader) (st : TableState) : Prop := {
  tv_laid : laid_out 0 (ts_entries st);
  tv_off : ts_expect_off st = stored_total (ts_entries st);
  tv_classes : length (ts_class_total st) = 4%nat;
  tv_class class : default 0 (ts_class_total st !! segment_class_index class) = class_total class (ts_entries st);
  tv_budget class : class_total class (ts_entries st) ≤ Z.max 0 (budget_for class (sm_size policy));
  tv_stages : length (ts_union_req st) = MAX_STAGES;
  tv_union s t r : ts_union_req st !! s = Some r →
    Z.testbit r t = true ↔ ∃ e, e ∈ ts_entries st ∧ de_stage e = Z.of_nat s ∧ Z.testbit (de_requires_mask e) t = true;
  tv_entries : Forall (entry_admitted policy h) (ts_entries st);
  tv_off_bound : ts_expect_off st ≤ u64_max;
}.

Lemma segment_class_index_inj a b : segment_class_index a = segment_class_index b → a = b.
Proof. by destruct a, b. Qed.
Lemma segment_class_index_lt c : (segment_class_index c < 4)%nat.
Proof. destruct c; cbn; lia. Qed.

Lemma table_init_inv policy h : stream_table_inv policy h (mkTableState [] 0 (replicate 4 0) (replicate MAX_STAGES 0)).
Proof.
  split; cbn [ts_entries ts_expect_off ts_class_total ts_union_req]; try done.
  - intros class. rewrite lookup_replicate_2 by apply segment_class_index_lt. done.
  - intros class. cbn. lia.
  - intros s t r [-> _]%lookup_replicate. rewrite Z.bits_0. split; [done|]. by intros (e & ?%not_elem_of_nil & _).
Qed.

Lemma table_entry_inv policy h i e st st' :
  0 ≤ de_stage e → 0 ≤ de_stored_len e → 0 ≤ de_requires_mask e →
  stream_table_inv policy h st → table_entry h policy i e st = Ok st' →
  stream_table_inv policy h st' ∧ ts_entries st' = ts_entries st ++ [e].
Proof.
  intros Hs0 Hl0 Hr0 [Hlaid Hoff Hcl Hct Hbud Hst Hun Hent Hob] H. unfold table_entry in H.
  apply guard_Ok in H as [E1 H]. apply guard_Ok in H as [E2 H]. apply guard_Ok in H as [E3 H].
  apply guard_Ok in H as [E4 H]. apply guard_Ok in H as [E5 H]. apply guard_Ok in H as [E6 H].
  destruct (chunk_count (de_stored_len e) h) as [n|] eqn:En; [|done].
  apply guard_Ok in H as [E7 H].
  destruct (checked_add u64_max (default 0 _) _) as [total|] eqn:Et; [|done].
  apply guard_Ok in H as [E8 H].
  destruct (checked_add u64_max (de_body_offset e) _) as [off|] eqn:Eo; [|done]. injection H as <-.
  apply checked_add_Some in Et as [-> _]. apply checked_add_Some in Eo as [-> Hoffmax]. split_bool.
  rewrite Hct in *. set (c := segment_class (de_seg_type e)) in *.
  assert (Z.to_nat (de_stage e) < MAX_STAGES)%nat as Hs by lia.
  split; [|done]. split; cbn [ts_entries ts_expect_off ts_class_total ts_union_req].
  - apply laid_out_snoc. split; [done|]. lia.
  - rewrite stored_total_app. cbn. lia.
  - by rewrite length_insert.
  - intros class. rewrite class_total_snoc. destruct (decide (c = class)) as [<-|Hne].
    + rewrite bool_decide_true by done.
      rewrite list_lookup_insert_eq by (rewrite Hcl; apply segment_class_index_lt). done.
    + rewrite bool_decide_false by done. rewrite list_lookup_insert_ne by (intros ?%segment_class_index_inj; done).
      rewrite Hct. lia.
  - intros class. rewrite class_total_snoc. destruct (decide (c = class)) as [<-|Hne].
    + rewrite bool_decide_true by done. lia.
    + rewrite bool_decide_false by done. specialize (Hbud class). lia.
  - by rewrite length_insert.
  - intros s t r Hr. apply list_lookup_insert_Some in Hr as [(<- & <- & _)|[Hne Hr]].
    + destruct (lookup_lt_is_Some_2 (ts_union_req st) (Z.to_nat (de_stage e))) as [r0 Hr0']; [by rewrite Hst|].
      rewrite Hr0'. cbn. rewrite Z.lor_spec, orb_true_iff, (Hun _ t r0 Hr0'). split.
      * intros [(e' & He' & ? & ?)|Hb]; [exists e'|exists e]; rewrite elem_of_app, list_elem_of_singleton;
          split_and!; auto. by rewrite Z2Nat.id.
      * intros (e' & [He'| ->%list_elem_of_singleton]%elem_of_app & ? & ?); [left; by exists e'|by right].
    + rewrite (Hun s t r Hr). split.
      * intros (e' & He' & ? & ?). exists e'. rewrite elem_of_app. auto.
      * intros (e' & [He'| ->%list_elem_of_singleton]%elem_of_app & Hse & ?); [by exists e'|].
        destruct Hne. rewrite Hse. by rewrite Nat2Z.id.
  - apply Forall_app. split; [done|]. apply Forall_singleton. split; try done; try lia.
    + destruct (Z.testbit (de_requires_mask e) (de_stage e)) eqn:Eb; [|done].
      match goal with Hz : Z.land _ (Z.shiftl 1 _) = 0 |- _ => rename Hz into Hbit end.
      rewrite <-(Z2Nat.id (de_stage e)) in Hbit, Eb by done. apply bit_clear in Hbit. congruence.
    + exists n. split; [done|]. intros Hn. apply andb_false_iff in E7 as [E7|E7]; split_bool; lia.
    + intros Hty. destruct (de_seg_type e =? SEG_TYPE_ROOT_PAGE) eqn:E; split_bool; [done|lia].
    + intros Hty. rewrite Hty, Z.eqb_refl in E3. split_bool. lia.
  - lia.
Qed.

Lemma entry_from_bytes_nonneg raw :
  Forall is_byte raw → length raw = ENTRY_SIZE →
  0 ≤ de_stage (entry_from_bytes raw) ∧ 0 ≤ de_stored_len (entry_from_bytes raw) ∧
  0 ≤ de_requires_mask (entry_from_bytes raw).
Proof.
  intros Hb Hl. unfold ENTRY_SIZE in Hl. unfold entry_from_bytes. cbn. split_and!.
  - unfold format_byte_at. destruct (raw !! 9%nat) as [b|] eqn:E; [|done]. cbn.
    pose proof (Forall_lookup_1 _ _ _ _ Hb E) as Hx. unfold is_byte in Hx. lia.
  - apply read_le_range; [done|lia].
  - apply read_le_range; [done|lia].
Qed.

Lemma table_loop_inv policy h i raws st st' :
  Forall (λ raw, Forall is_byte raw ∧ length raw = ENTRY_SIZE) raws →
  stream_table_inv policy h st → table_loop h policy i raws st = Ok st' →
  stream_table_inv policy h st' ∧ ts_entries st' = ts_entries st ++ (entry_from_bytes <$> raws).
Proof.
  intros Hraws. revert i st. induction Hraws as [|raw raws [Hb Hl] _ IH]; intros i st Hinv H; cbn in H.
  - injection H as <-. by rewrite app_nil_r.
  - destruct (table_entry h policy i (entry_from_bytes raw) st) as [st1|] eqn:E; [|done].
    destruct (entry_from_bytes_nonneg raw Hb Hl) as (? & ? & ?).
    apply table_entry_inv in E as [Hinv1 He1]; [|done..].
    destruct (IH (S i) st1 Hinv1 H) as [Hinv' He']. split; [done|].
    rewrite He', He1, <-app_assoc. done.
Qed.

(** Only the last entry may be the root page. *)
Lemma table_loop_root policy h raws : ∀ i st st' k raw,
  table_loop h policy i raws st = Ok st' → raws !! k = Some raw →
  de_seg_type (entry_from_bytes raw) = SEG_TYPE_ROOT_PAGE → Z.of_nat (i + k) + 1 = dh_seg_count h.
Proof.
  induction raws as [|r raws IH]; intros i st st' k raw H Hk Ht; [done|]. cbn in H.
  destruct (table_entry h policy i (entry_from_bytes r) st) as [st1|] eqn:E; [|done]. destruct k as [|k].
  - injection Hk as ->. unfold table_entry in E. apply guard_Ok in E as [_ E]. apply guard_Ok in E as [_ E].
    apply guard_Ok in E as [E _]. rewrite Ht, Z.eqb_refl in E. split_bool. lia.
  - pose proof (IH (S i) st1 st' k raw H Hk Ht). lia.
Qed.

Lemma chunks_exact_spec fuel n l :
  (0 < n)%nat → (length l ≤ fuel)%nat → (n | length l)%nat →
  concat (chunks_exact fuel n l) = l ∧ Forall (λ c, length c = n) (chunks_exact fuel n l).
Proof.
  intros Hn. revert l. induction fuel as [|fuel IH]; intros l Hf Hd; cbn [chunks_exact].
  - assert (l = []) as -> by (apply nil_length_inv; lia). by split.
  - destruct (length l <? n)%nat eqn:E; split_bool.
    + destruct Hd as [[|q] Hq]; [|lia]. assert (l = []) as -> by (apply nil_length_inv; lia). by split.
    + destruct (IH (drop n l)) as [Hc Hall].
      { rewrite length_drop. lia. }
      { rewrite length_drop. destruct Hd as [q Hq]. exists (q - 1)%nat. nia. }
      cbn [concat]. split; [by rewrite Hc, take_drop|]. constructor; [|done]. rewrite length_take. lia.
Qed.

#[export] Instance index_cmp_order : CmpOrder index_cmp.
Proof. apply (cmp_then_order (λ a b : Z * nat, Z.compare a.1 b.1) (λ a b : Z * nat, Nat.compare a.2 b.2)). Qed.

(** Without equal neighbours the sorted keys are distinct. *)
Lemma sorted_keys_NoDup (l : list (Z * nat)) :
  StronglySorted (cmp_le index_cmp) l → adjacent_repeat l = false → NoDup l.*1.
Proof.
  intros Hs. assert (∀ a b : Z * nat, cmp_le index_cmp a b → a.1 ≤ b.1) as Hle.
  { intros a b. unfold cmp_le, index_cmp, cmp_then. destruct (Z.compare_spec a.1 b.1); [lia|lia|done]. }
  induction Hs as [|a l Hs IH Hf]; intros Hadj; cbn; [constructor|].
  destruct l as [|b l]; [repeat constructor; apply not_elem_of_nil|].
  cbn [adjacent_repeat] in Hadj. apply orb_false_iff in Hadj as [Hab Hadj]. split_bool.
  constructor; [|by apply IH]. intros (c & Hc & Hin)%list_elem_of_fmap.
  apply Forall_cons_1 in Hf as [Hfb _]. apply Hle in Hfb.
  apply elem_of_cons in Hin as [->|Hin]; [done|].
  inversion Hs as [|? ? _ Hfl]. subst. rewrite Forall_forall in Hfl. specialize (Hle _ _ (Hfl c Hin)). lia.
Qed.

(** What decoding promises about a descriptor's table. *)
Record stream_table_ok (policy : StreamPolicy) (d : VerifiedDescriptor) : Prop := {
  tk_laid : laid_out 0 (vd_entries d);
  tk_total : stored_total (vd_entries d) = dh_body_len (vd_header d);
  tk_count : Z.of_nat (length (vd_entries d)) = dh_seg_count (vd_header d);
  tk_some : vd_entries d ≠ [];
  tk_entries : Forall (entry_admitted policy (vd_header d)) (vd_entries d);
  tk_root i e : vd_entries d !! i = Some e → de_seg_type e = SEG_TYPE_ROOT_PAGE → S i = length (vd_entries d);
  tk_class class : class_total class (vd_entries d) ≤ Z.max 0 (budget_for class (sm_size policy));
  tk_ids i j e e' : vd_entries d !! i = Some e → vd_entries d !! j = Some e' → de_seg_id e = de_seg_id e' → i = j;
  tk_find id i : descriptor_find id d = Some i ↔ ∃ e, vd_entries d !! i = Some e ∧ de_seg_id e = id;
  tk_order : ∃ rank : nat → nat, ∀ e t, e ∈ vd_entries d → (t < MAX_STAGES)%nat →
    Z.testbit (de_requires_mask e) (Z.of_nat t) = true → (rank t < rank (Z.to_nat (de_stage e)))%nat;
}.

Lemma parse_table_ok table h policy entries index dhash signer :
  Forall is_byte table → length table = (Z.to_nat (dh_seg_count h) * ENTRY_SIZE)%nat → 0 ≤ dh_seg_count h →
  parse_table table h policy = Ok (entries, index) →
  stream_table_ok policy (mkVerifiedDescriptor h entries index dhash signer) ∧
  table = concat (entry_to_bytes <$> entries) ∧ dh_body_len h ≤ sp_max_container_bytes (sm_size policy).
Proof.
  intros Hb Hlen Hcnt H. unfold parse_table in H.
  apply guard_Ok in H as [Hsc H]. apply guard_Ok in H as [Hmax H]. split_bool.
  destruct (table_loop _ _ _ _ _) as [st|] eqn:El; [|done].
  apply guard_Ok in H as [Hoff H]. apply guard_Ok in H as [Hadj H]. apply negb_false_iff, Z.eqb_eq in Hoff.
  destruct (stages_acyclic (ts_union_req st)) as [[]|] eqn:Ea; [|done]. injection H as <- <-.
  destruct (chunks_exact_spec (length table) ENTRY_SIZE table) as [Hcat Hall];
    [unfold ENTRY_SIZE; lia|done|by exists (Z.to_nat (dh_seg_count h))|].
  set (raws := chunks_exact (length table) ENTRY_SIZE table) in *.
  assert (Forall (λ raw, Forall is_byte raw ∧ length raw = ENTRY_SIZE) raws) as Hraws.
  { apply Forall_forall. intros raw Hin. split; [|by eapply Forall_forall in Hall].
    rewrite <-Hcat in Hb. apply Forall_concat in Hb. by eapply Forall_forall in Hb. }
  pose proof (λ k raw, table_loop_root policy h raws 0 _ st k raw El) as Hroot.
  apply table_loop_inv in El as [Hinv He]; [|done|apply table_init_inv]. cbn in He.
  assert (length raws = Z.to_nat (dh_seg_count h)) as Hlr.
  { assert (length (concat raws) = length raws * ENTRY_SIZE)%nat as Hm.
    { clear -Hall. induction Hall as [|c l Hc _ IH]; [done|].
      cbn [concat length]. rewrite length_app, Hc, IH. unfold ENTRY_SIZE. lia. }
    rewrite Hcat, Hlen in Hm. unfold ENTRY_SIZE in Hm. lia. }
  destruct Hinv as [Hlaid Hoff' _ _ Hbud Hst Hun Hent _].
  assert (length (ts_entries st) = Z.to_nat (dh_seg_count h)) as Hle by by rewrite He, length_fmap.
  pose proof (sort_by_Permutation index_cmp (imap (λ i e, (de_seg_id e, i)) (ts_entries st))) as Hperm.
  fold (entry_index (ts_entries st)) in Hperm.
  assert (NoDup (entry_index (ts_entries st)).*1) as Hnd.
  { apply sorted_keys_NoDup; [|done]. apply sort_by_sorted. apply index_cmp_order. }
  assert (∀ id i, (id, i) ∈ entry_index (ts_entries st) ↔ ∃ e, ts_entries st !! i = Some e ∧ de_seg_id e = id) as Hix.
  { intros id i. rewrite Hperm, elem_of_lookup_imap. split.
    - intros (k & e & [= -> ->] & Hk). by exists e.
    - intros (e & Hi & <-). by exists i, e. }
  assert (∀ id i j, (id, i) ∈ entry_index (ts_entries st) → (id, j) ∈ entry_index (ts_entries st) → i = j) as Huniq.
  { intros id i j [k Hk]%list_elem_of_lookup [k' Hk']%list_elem_of_lookup.
    assert (k = k') as <-; [|congruence].
    eapply (NoDup_lookup _ k k' id Hnd); by rewrite list_lookup_fmap, ?Hk, ?Hk'. }
  assert (entry_to_bytes <$> (entry_from_bytes <$> raws) = raws) as Hback.
  { clear -Hraws. induction Hraws as [|raw raws [Hb Hl] _ IH]; [done|]. rewrite !fmap_cons, IH. f_equal.
    by apply entry_to_bytes_from. }
  split_and!; [|by rewrite He, Hback, Hcat|lia].
  split; cbn [vd_entries vd_header].
  - done.
  - congruence.
  - lia.
  - intros Hnil. rewrite Hnil in Hle. cbn in Hle. lia.
  - done.
  - intros i e Hi Ht. rewrite He, list_lookup_fmap in Hi. destruct (raws !! i) as [raw|] eqn:Er; [|done].
    injection Hi as <-. specialize (Hroot i raw Er Ht). rewrite Hle. lia.
  - done.
  - intros i j e e' Hi Hj Heq. apply (Huniq (de_seg_id e)); apply Hix; [by exists e|by exists e'].
  - intros id i. unfold descriptor_find. cbn [vd_index]. rewrite <-Hix.
    destruct (position _ _) as [k|] eqn:Ep.
    + apply position_lookup in Ep as ([id' i'] & Hk & Hid%Z.eqb_eq). cbn in Hid. subst id'. rewrite Hk. cbn. split.
      * intros [= <-]. by eapply list_elem_of_lookup_2.
      * intros Hin. f_equal. eapply Huniq; [by eapply list_elem_of_lookup_2|done].
    + rewrite position_None in Ep. split; [done|]. intros [k Hk]%list_elem_of_lookup.
      specialize (Ep k _ Hk). cbn in Ep. by rewrite Z.eqb_refl in Ep.
  - apply (stages_acyclic_exact _ Hst) in Ea as [rank Hrank]. exists rank. intros e t Hin Ht Hb'.
    rewrite Forall_forall in Hent. pose proof (Hent e Hin) as Hea. destruct (ea_stage _ _ _ Hea) as [Hs0 Hs1].
    apply Hrank; [lia|done|].
    destruct (lookup_lt_is_Some_2 (ts_union_req st) (Z.to_nat (de_stage e))) as [r Hr]; [rewrite Hst; lia|].
    exists r. split; [done|]. apply (Hun _ _ r Hr). exists e. split_and!; [done|by rewrite Z2Nat.id|done].
Qed.

(* ------------------------------------------------------------------ *)
(** ** What a decoded descriptor is *)

Section decoded.
Context {SH : Sha256} {ED : Ed25519}.

Lemma find_signer_spec bytes key_id keys known pk b :
  find_signer bytes key_id keys known = (Some pk, b) →
  pk ∈ keys ∧ stream_signer_key_id pk = key_id ∧ verify_descriptor_signature bytes pk = true.
Proof.
  revert known. induction keys as [|k keys IH]; intros known; cbn; [done|].
  case_bool_decide as Hk; [destruct (verify_descriptor_signature bytes k) eqn:Ev|].
  - intros [= -> _]. split_and!; [by left|done|done].
  - intros (? & ? & ?)%IH. split_and!; [by right|done|done].
  - intros (? & ? & ?)%IH. split_and!; [by right|done|done].
Qed.

Lemma descriptor_len_eq n len :
  0 ≤ n → descriptor_len n = Some len → len = 144 + n * 72 + 66.
Proof.
  intros Hn. unfold descriptor_len. destruct (_ <=? u64_max); [|done].
  intros [-> _]%checked_add_Some. change (Z.of_nat ENTRY_SIZE) with 72.
  change (Z.of_nat (STREAM_HEADER_SIZE + TRAILER_SIZE)) with 210. lia.
Qed.

(** The descriptor a decoding accepted, spelled out. *)
Record descriptor_accepted (bytes : list Z) (policy : StreamPolicy) (d : VerifiedDescriptor) : Prop := {
  da_table : stream_table_ok policy d;
  da_bytes : ∃ signature, length signature = 64%nat ∧
    bytes = stream_header_to_bytes (vd_header d) ++ concat (entry_to_bytes <$> vd_entries d) ++
            le_bytes 2 64 ++ signature ∧
    ed_verify_strict (vd_signer d)
      (stream_signed_message (stream_header_to_bytes (vd_header d) ++
         concat (entry_to_bytes <$> vd_entries d) ++ le_bytes 2 64)) signature = true;
  da_header : stream_header_wf (vd_header d);
  da_trusted : vd_signer d ∈ sm_trusted_keys policy;
  da_key_id : stream_signer_key_id (vd_signer d) = dh_signer_key_id (vd_header d);
  da_hash : vd_descriptor_hash d = sha256 bytes;
  da_expiry : dh_expires_ns (vd_header d) ≠ 0 → replay_is_pinned (sm_replay policy) = true →
    ∃ now, replay_now_ns (sm_replay policy) = Some now ∧ now < dh_expires_ns (vd_header d);
  da_policy_hash p : sm_expected_policy_hash policy = Some p → dh_policy_hash (vd_header d) = p;
  da_pin pin : replay_lookup (dh_signer_key_id (vd_header d)) (dh_file_id (vd_header d)) (sm_replay policy) = Some pin →
    ep_epoch pin ≤ dh_epoch (vd_header d) ∧
    (dh_epoch (vd_header d) = ep_epoch pin → vd_descriptor_hash d = ep_descriptor_hash pin);
  da_container : dh_body_len (vd_header d) ≤ sp_max_container_bytes (sm_size policy);
  da_segments : dh_seg_count (vd_header d) ≤ sm_max_segments policy ∧
    dh_seg_count (vd_header d) ≤ sp_max_segments (sm_size policy);
}.

Lemma split_trailer (bytes : list Z) n :
  length bytes = (144 + n * 72 + 66)%nat →
  ∃ table trailer signature, bytes = take 144 bytes ++ table ++ trailer ++ signature ∧
    length table = (n * 72)%nat ∧ length trailer = 2%nat ∧ length signature = 64%nat ∧
    slice 144 (n * 72) bytes = table ∧ slice (144 + n * 72) 2 bytes = trailer ∧
    drop (length bytes - 64) bytes = signature.
Proof.
  intros Hl. exists (slice 144 (n * 72) bytes), (slice (144 + n * 72) 2 bytes), (drop (length bytes - 64) bytes).
  assert (take (length bytes - 64) bytes = take 144 bytes ++ slice 144 (n * 72) bytes ++ slice (144 + n * 72) 2 bytes) as Ht.
  { replace (length bytes - 64)%nat with (144 + n * 72 + 2)%nat by lia.
    rewrite take_slice, (take_slice 144 (n * 72)), <-app_assoc. done. }
  split_and!; try done.
  - rewrite <-(take_drop (length bytes - 64) bytes) at 1. rewrite Ht, <-!app_assoc. done.
  - apply slice_length. lia.
  - apply slice_length. lia.
  - rewrite length_drop. lia.
Qed.

Lemma decode_descriptor_accepted bytes policy d :
  Forall is_byte bytes → decode_descriptor bytes policy = Ok d → descriptor_accepted bytes policy d.
Proof.
  intros Hb H. unfold decode_descriptor in H.
  apply guard_Ok in H as [_ H]. destruct (stream_header_parse bytes) as [h|] eqn:Eh; [|done].
  destruct (stream_header_parse_inv bytes h Hb Eh) as [Hwf Hhb].
  destruct (xh_count _ Hwf) as [Hc0 _].
  apply guard_Ok in H as [Hlim H]. apply guard_Ok in H as [Hlen H].
  apply negb_false_iff, bool_decide_eq_true in Hlen. apply descriptor_len_eq in Hlen; [|done].
  assert (length bytes = 144 + Z.to_nat (dh_seg_count h) * 72 + 66)%nat as Hl by lia.
  destruct (split_trailer bytes _ Hl) as (table & trailer & signature & Hsplit & Hlt & Hltr & Hls & Hst & Htr & Hsg).
  unfold STREAM_HEADER_SIZE, ENTRY_SIZE in *.
  apply guard_Ok in H as [Hsl H]. apply negb_false_iff, Z.eqb_eq in Hsl.
  assert (trailer = le_bytes 2 64) as Htrail.
  { rewrite <-Htr. rewrite <-le_bytes_read by (done || lia). by rewrite Hsl. }
  destruct (find_signer bytes (dh_signer_key_id h) (sm_trusted_keys policy) false) as [[signer|] b] eqn:Es;
    [|by destruct b].
  apply find_signer_spec in Es as (Htrust & Hkid & Hver).
  match type of H with match ?x with Ok _ => _ | Err _ => _ end = _ => destruct x as [[]|] eqn:Eexp; [|done] end.
  apply guard_Ok in H as [Hph H].
  match type of H with match ?x with Ok _ => _ | Err _ => _ end = _ => destruct x as [[]|] eqn:Epin; [|done] end.
  replace (144 + Z.to_nat (dh_seg_count h) * 72 - 144)%nat with (Z.to_nat (dh_seg_count h) * 72)%nat in H by lia.
  rewrite Hst in H. destruct (parse_table table h policy) as [[entries index]|] eqn:Ep; [|done].
  injection H as <-.
  assert (Forall is_byte table) as Hbt by (rewrite <-Hst; by apply slice_bytes).
  destruct (parse_table_ok table h policy entries index (descriptor_hash bytes) signer Hbt) as (Hok & Htab & Hmax);
    [done|done|done|].
  split; cbn [vd_header vd_entries vd_index vd_descriptor_hash vd_signer]; try done.
  - exists signature. assert (bytes = stream_header_to_bytes h ++ concat (entry_to_bytes <$> entries) ++
      le_bytes 2 64 ++ signature) as Hbytes by (rewrite Hhb, <-Htab, <-Htrail; exact Hsplit).
    split_and!; [done|done|].
    unfold verify_descriptor_signature in Hver. apply not_false_iff_true in Hver.
    destruct (length bytes <? SIG_LEN)%nat eqn:E64; [done|]. destruct (negb (ed_key_ok signer)); [done|].
    unfold SIG_LEN in Hver. rewrite Hsg in Hver. apply not_false_iff_true in Hver. rewrite <-Hver.
    f_equal. f_equal. rewrite Hbytes at 2. rewrite !app_assoc. rewrite take_app_length'; [done|].
    rewrite <-!app_assoc. apply (f_equal length) in Hbytes. rewrite !length_app in *. cbn [length] in *. lia.
  - intros He Hr. rewrite (proj2 (Z.eqb_neq _ _) He), Hr in Eexp. cbn in Eexp.
    destruct (replay_now_ns (sm_replay policy)) as [now|]; [|done]. exists now. split; [done|].
    destruct (_ <=? now) eqn:E; [done|]. split_bool. lia.
  - intros p Hp. rewrite Hp in Hph. cbn in Hph. by apply negb_false_iff, bool_decide_eq_true in Hph.
  - intros pin Hpin. rewrite Hpin in Epin. destruct (dh_epoch h <? ep_epoch pin) eqn:E1; [done|].
    split_bool. split; [lia|]. intros Heq. rewrite Heq, Z.eqb_refl in Epin. cbn in Epin.
    destruct (bool_decide (ep_descriptor_hash pin = descriptor_hash bytes)) eqn:E2; [|done].
    by apply bool_decide_eq_true in E2.
  - split_bool. lia.
Qed.

(** C20: A descriptor that decodes is exactly the signed bytes: they are the
    encoding of its header and table followed by a signature by a trusted key
    over them; its entries tile the declared body with distinct identifiers
    within every limit of the policy; its stages can be delivered in some
    order; and it is neither expired nor older than the receiver's pin. *)
Theorem decoded_descriptor_sound bytes policy d :
  Forall is_byte bytes → decode_descriptor bytes policy = Ok d → descriptor_accepted bytes policy d.
Proof. apply decode_descriptor_accepted. Qed.
End decoded.

(* ------------------------------------------------------------------ *)
(** ** Pins *)

Inductive PinCall : Set :=
| PinAdvance (signer file_id : list Z) (expected : option EpochPin) (new : EpochPin).

Definition pin_call (s : MemoryPinStore) (c : PinCall) : MemoryPinStore :=
  match c with PinAdvance signer file_id expected new => (pin_advance signer file_id expected new s).2 end.

(** C35: Whatever advances receivers ask of a pin store, in any order, the pin
    of a lineage is never lost and its epoch never decreases; an advance whose
    expectation is out of date changes nothing. *)
Theorem pins_never_go_back cs s signer file_id pin :
  pin_lookup signer file_id s = Some pin →
  (∃ pin', pin_lookup signer file_id (foldl pin_call s cs) = Some pin' ∧ ep_epoch pin ≤ ep_epoch pin') ∧
  ∀ expected new, expected ≠ Some pin → pin_advance signer file_id expected new s = (false, s).
Proof.
  intros Hpin. split.
  - revert s pin Hpin. induction cs as [|[sg fi ex nw] cs IH]; intros s pin Hpin; cbn; [by exists pin|].
    assert (∃ pin1, pin_lookup signer file_id (pin_advance sg fi ex nw s).2 = Some pin1 ∧ ep_epoch pin ≤ ep_epoch pin1)
      as (pin1 & H1 & Hle).
    { unfold pin_advance, pin_lookup in *. destruct (_ || _) eqn:E; [by exists pin|]. split_bool.
      cbn. destruct (decide ((sg, fi) = (signer, file_id))) as [[= -> ->]|Hne].
      - exists nw. split; [apply lookup_insert_eq|]. subst ex. rewrite Hpin in *. cbn in *. split_bool. lia.
      - exists pin. split; [|done]. rewrite <-Hpin. by apply lookup_insert_ne. }
    destruct (IH _ pin1 H1) as (pin' & H2 & Hle'). exists pin'. split; [done|lia].
  - intros expected new Hne. unfold pin_advance, pin_lookup in *. rewrite Hpin.
    rewrite bool_decide_false by congruence. done.
Qed.

(* ------------------------------------------------------------------ *)
(** ** A sample descriptor: two staged segments, the second after the first *)

#[local] Instance sample_stream_sha : Sha256 := λ data, replicate 32 (byte_sum data).
#[local] Instance sample_stream_ed : Ed25519 :=
  {| ed_public_key seed := seed; ed_sign seed msg := replicate 64 (byte_sum (seed ++ msg));
     ed_key_ok _ := true;
     ed_verify_strict key msg sig := bool_decide (sig = replicate 64 (byte_sum (key ++ msg))) |}.

Definition signed_descriptor (key : list Z) (h : StreamHeader) (entries : list StreamEntry) : list Z :=
  let unsigned := stream_header_to_bytes h ++ concat (entry_to_bytes <$> entries) ++ le_bytes 2 64 in
  unsigned ++ ed_sign key (stream_signed_message unsigned).

Definition sample_file : list Z := replicate 16 9.
Definition sample_parts : list (list Z) := [replicate 64 1; replicate 70 2].
Definition sample_stream_entries : list StreamEntry :=
  [mkStreamEntry 10 4 0 0 0 0 64 64 (leaf_hash sample_file 10 0 (replicate 64 1));
   mkStreamEntry 11 4 1 0 1 64 70 70 (leaf_hash sample_file 11 0 (replicate 70 2))].
Definition sample_stream_header : StreamHeader :=
  mkStreamHeader 2 CHUNK_LOG2_SEGMENT sample_file 5 134 (sha256 (concat sample_parts)) (replicate 32 0) 2 0
    (stream_signer_key_id sample_key).
Definition sample_descriptor : list Z := signed_descriptor sample_key sample_stream_header sample_stream_entries.
Definition sample_pin : EpochPin := mkEpochPin 4 (replicate 32 1) (stream_signer_key_id sample_key).
Definition sample_pins : MemoryPinStore :=
  (pin_advance (stream_signer_key_id sample_key) sample_file None sample_pin pin_store_new).2.
Definition sample_stream_policy : StreamPolicy := stream_policy_new [sample_key] (RpStore sample_pins None).

Lemma sample_descriptor_bytes : Forall is_byte sample_descriptor.
Proof.
  assert (forallb (λ b, (0 <=? b) && (b <? 256)) sample_descriptor = true) as H by (vm_compute; reflexivity).
  apply forallb_Forall in H. eapply Forall_impl; [exact H|]. intros b Hb. unfold is_byte. cbn in Hb. split_bool. lia.
Qed.

Definition sample_decoded : result StreamError VerifiedDescriptor :=
  Eval vm_compute in decode_descriptor sample_descriptor sample_stream_policy.
Example sample_decodes : decode_descriptor sample_descriptor sample_stream_policy = sample_decoded.
Proof. vm_compute. reflexivity. Qed.
(** One changed byte of the table, and the signature no longer verifies. *)
Example tampered_descriptor_refused :
  decode_descriptor (<[160%nat := 2]> sample_descriptor) sample_stream_policy = Err SeBadSignature.
Proof. vm_compute. reflexivity. Qed.

Lemma decoded_descriptor_sound_witness :
  ∃ d, decode_descriptor sample_descriptor sample_stream_policy = Ok d ∧
    ep_epoch sample_pin ≤ dh_epoch (vd_header d).
Proof.
  pose proof sample_decodes as Hd. unfold sample_decoded in Hd. eexists. split; [exact Hd|].
  apply (decoded_descriptor_sound sample_descriptor sample_stream_policy _ sample_descriptor_bytes) in Hd.
  destruct Hd as [_ _ _ _ _ _ _ _ Hpin _ _]. apply (Hpin sample_pin). vm_compute. reflexivity.
Defined.

(** An older pin is refused, a newer one accepted, and both advances leave the
    lineage pinned at four or later. *)
Lemma pins_never_go_back_witness :
  ∃ pin', pin_lookup (stream_signer_key_id sample_key) sample_file
      (foldl pin_call sample_pins
         [PinAdvance (stream_signer_key_id sample_key) sample_file (Some sample_pin) (mkEpochPin 3 [] []);
          PinAdvance (stream_signer_key_id sample_key) sample_file (Some sample_pin) (mkEpochPin 7 [] [])]) = Some pin' ∧
    4 ≤ ep_epoch pin'.
Proof.
  eapply (pins_never_go_back _ sample_pins (stream_signer_key_id sample_key) sample_file sample_pin).
  vm_compute. reflexivity.
Defined.
