(* ===== verification/RvfReceive.v ===== *)
(** The receiver of a stream, [crates/rvm-rvf/src/stream]: [verifier.rs],
    [chunk.rs] and [ident.rs] without the [parallel-identity] feature.

    A program of the receiver returns [None] where the code would panic: an
    index out of range or an [expect].  The file proves that no sequence of
    frames, whatever their bytes, makes it panic; that every chunk it releases
    is the one the signed descriptor commits to, in order within its segment
    and after the stages it requires; and that a stream that completes with a
    verified identity has released exactly the body its signer hashed. *)

From stdpp Require Import base numbers list option sorting gmap.
From Stdlib Require Import ZArith Lia.
From S2P Require Import Prelude.
From S2P Require Import Text.
From S2P Require Import Bytes.
From S2P Require Import Sorting.
From S2P Require Import WitnessLog.
From S2P Require Import Security.
From S2P Require Import Signers.
From S2P Require Import RvfFormat.
From S2P Require Import RvfCapability.
From S2P Require Import RvfVerify.
From S2P Require Import RvfStream.

(* ------------------------------------------------------------------ *)
(** ** State *)

Record SegState : Set := mkSegState {
  sg_n : Z;
  sg_next : Z;
  sg_leaves : option (list Z);
  sg_done : bool;
}.

(** [ident.rs]: the hasher is the bytes it has absorbed. *)
Record IdentityTracker : Set := mkIdentityTracker {
  it_hashed : list Z;
  it_pos : Z;
  it_feasible : bool;
}.
Definition identity_tracker_new : IdentityTracker := mkIdentityTracker [] 0 true.
Definition tracker_absorb (bytes : list Z) (t : IdentityTracker) : IdentityTracker :=
  mkIdentityTracker (it_hashed t ++ bytes) (it_pos t) (it_feasible t).
Definition mark_infeasible (t : IdentityTracker) : IdentityTracker :=
  mkIdentityTracker (it_hashed t) (it_pos t) false.

Record StreamVerifier : Type := mkStreamVerifier {
  sv_policy : StreamPolicy;
  sv_state : StreamState;
  sv_desc : option VerifiedDescriptor;
  sv_segs : list SegState;
  sv_stage_remaining : list Z;
  sv_left : Z;
  sv_faults : Z;
  sv_verified_bytes : Z;
  sv_released_chunks : Z;
  sv_table_bytes : Z;
  sv_identity : option IdentityTracker;
  sv_identity_status : option IdentityStatus;
  sv_max_chunk_len : Z;
  sv_max_table_payload : Z;
  sv_poison_info : option PoisonInfo;
  sv_last_fault : option PoisonInfo;
  sv_duplicates_ignored : Z;
  sv_duplicate_cap : Z;
}.

Definition set_sv_state (x : StreamState) (v : StreamVerifier) : StreamVerifier :=
  mkStreamVerifier (sv_policy v) x (sv_desc v) (sv_segs v) (sv_stage_remaining v) (sv_left v) (sv_faults v)
    (sv_verified_bytes v) (sv_released_chunks v) (sv_table_bytes v) (sv_identity v) (sv_identity_status v)
    (sv_max_chunk_len v) (sv_max_table_payload v) (sv_poison_info v) (sv_last_fault v)
    (sv_duplicates_ignored v) (sv_duplicate_cap v).
Definition set_sv_segs (x : list SegState) (v : StreamVerifier) : StreamVerifier :=
  mkStreamVerifier (sv_policy v) (sv_state v) (sv_desc v) x (sv_stage_remaining v) (sv_left v) (sv_faults v)
    (sv_verified_bytes v) (sv_released_chunks v) (sv_table_bytes v) (sv_identity v) (sv_identity_status v)
    (sv_max_chunk_len v) (sv_max_table_payload v) (sv_poison_info v) (sv_last_fault v)
    (sv_duplicates_ignored v) (sv_duplicate_cap v).
Definition set_sv_identity (x : option IdentityTracker) (v : StreamVerifier) : StreamVerifier :=
  mkStreamVerifier (sv_policy v) (sv_state v) (sv_desc v) (sv_segs v) (sv_stage_remaining v) (sv_left v) (sv_faults v)
    (sv_verified_bytes v) (sv_released_chunks v) (sv_table_bytes v) x (sv_identity_status v)
    (sv_max_chunk_len v) (sv_max_table_payload v) (sv_poison_info v) (sv_last_fault v)
    (sv_duplicates_ignored v) (sv_duplicate_cap v).
Definition set_sv_tables (segs : list SegState) (table_bytes : Z) (v : StreamVerifier) : StreamVerifier :=
  mkStreamVerifier (sv_policy v) (sv_state v) (sv_desc v) segs (sv_stage_remaining v) (sv_left v) (sv_faults v)
    (sv_verified_bytes v) (sv_released_chunks v) table_bytes (sv_identity v) (sv_identity_status v)
    (sv_max_chunk_len v) (sv_max_table_payload v) (sv_poison_info v) (sv_last_fault v)
    (sv_duplicates_ignored v) (sv_duplicate_cap v).
Definition set_sv_poisoned (reason : StreamError) (info : option PoisonInfo) (v : StreamVerifier) : StreamVerifier :=
  mkStreamVerifier (sv_policy v) (StPoisoned reason) (sv_desc v) (sv_segs v) (sv_stage_remaining v) (sv_left v)
    (sv_faults v) (sv_verified_bytes v) (sv_released_chunks v) (sv_table_bytes v) None
    (sv_identity_status v) (sv_max_chunk_len v) (sv_max_table_payload v) info (sv_last_fault v)
    (sv_duplicates_ignored v) (sv_duplicate_cap v).
Definition set_sv_fault (info : PoisonInfo) (faults : Z) (v : StreamVerifier) : StreamVerifier :=
  mkStreamVerifier (sv_policy v) (sv_state v) (sv_desc v) (sv_segs v) (sv_stage_remaining v) (sv_left v) faults
    (sv_verified_bytes v) (sv_released_chunks v) (sv_table_bytes v) (sv_identity v) (sv_identity_status v)
    (sv_max_chunk_len v) (sv_max_table_payload v) (sv_poison_info v) (Some info) (sv_duplicates_ignored v)
    (sv_duplicate_cap v).
Definition set_sv_duplicates (x : Z) (v : StreamVerifier) : StreamVerifier :=
  mkStreamVerifier (sv_policy v) (sv_state v) (sv_desc v) (sv_segs v) (sv_stage_remaining v) (sv_left v) (sv_faults v)
    (sv_verified_bytes v) (sv_released_chunks v) (sv_table_bytes v) (sv_identity v) (sv_identity_status v)
    (sv_max_chunk_len v) (sv_max_table_payload v) (sv_poison_info v) (sv_last_fault v) x
    (sv_duplicate_cap v).
Definition set_sv_progress (segs : list SegState) (table_bytes left : Z) (stage_remaining : list Z) (v : StreamVerifier) : StreamVerifier :=
  mkStreamVerifier (sv_policy v) (sv_state v) (sv_desc v) segs stage_remaining left (sv_faults v) (sv_verified_bytes v)
    (sv_released_chunks v) table_bytes (sv_identity v) (sv_identity_status v) (sv_max_chunk_len v)
    (sv_max_table_payload v) (sv_poison_info v) (sv_last_fault v) (sv_duplicates_ignored v)
    (sv_duplicate_cap v).
Definition set_sv_counts (verified_bytes released_chunks : Z) (v : StreamVerifier) : StreamVerifier :=
  mkStreamVerifier (sv_policy v) (sv_state v) (sv_desc v) (sv_segs v) (sv_stage_remaining v) (sv_left v) (sv_faults v)
    verified_bytes released_chunks (sv_table_bytes v) (sv_identity v) (sv_identity_status v)
    (sv_max_chunk_len v) (sv_max_table_payload v) (sv_poison_info v) (sv_last_fault v)
    (sv_duplicates_ignored v) (sv_duplicate_cap v).
Definition set_sv_completed (state : StreamState) (status : IdentityStatus) (v : StreamVerifier) : StreamVerifier :=
  mkStreamVerifier (sv_policy v) state (sv_desc v) (sv_segs v) (sv_stage_remaining v) (sv_left v) (sv_faults v)
    (sv_verified_bytes v) (sv_released_chunks v) (sv_table_bytes v) None (Some status) (sv_max_chunk_len v)
    (sv_max_table_payload v) (sv_poison_info v) (sv_last_fault v) (sv_duplicates_ignored v)
    (sv_duplicate_cap v).
Definition set_sv_confirmed (v : StreamVerifier) : StreamVerifier :=
  mkStreamVerifier (sv_policy v) StComplete (sv_desc v) (sv_segs v) (sv_stage_remaining v) (sv_left v) (sv_faults v)
    (sv_verified_bytes v) (sv_released_chunks v) (sv_table_bytes v) (sv_identity v) (Some IdVerified)
    (sv_max_chunk_len v) (sv_max_table_payload v) (sv_poison_info v) (sv_last_fault v)
    (sv_duplicates_ignored v) (sv_duplicate_cap v).

Definition stream_verifier_new (policy : StreamPolicy) : StreamVerifier :=
  mkStreamVerifier policy StAwaitDescriptor None [] (replicate MAX_STAGES 0) 0 0 0 0 0 None None 0 0 None None 0 0.

(* ------------------------------------------------------------------ *)
(** ** Receiver programs *)

Definition rx (A : Type) : Type := StreamVerifier → option (StreamResult A * StreamVerifier).

Declare Scope rx_scope.
Local Open Scope rx_scope.

Definition rret {A} (a : A) : rx A := λ v, Some (Ok a, v).
Definition rfail {A} (e : StreamError) : rx A := λ v, Some (Err e, v).
Definition rbind {A B} (m : rx A) (f : A → rx B) : rx B := λ v,
  match m v with
  | Some (Ok a, v) => f a v
  | Some (Err e, v) => Some (Err e, v)
  | None => None
  end.
Notation "'let*' x := m 'in' k" := (rbind m (λ x, k))
  (at level 200, x binder, m at level 100, k at level 200) : rx_scope.
Notation "m ;* k" := (rbind m (λ _, k)) (at level 100, right associativity) : rx_scope.
Definition rget {A} (f : StreamVerifier → A) : rx A := λ v, Some (Ok (f v), v).
Definition rput (f : StreamVerifier → StreamVerifier) : rx unit := λ v, Some (Ok tt, f v).
(** An index or an [expect]: a panic when there is nothing. *)
Definition rsome {A} (o : option A) : rx A := λ v, a ← o; Some (Ok a, v).

Definition force_poison (reason : StreamError) (seg : option Z) (chunk : Z) (v : StreamVerifier) : StreamVerifier :=
  set_sv_poisoned reason
    (match sv_poison_info v with Some p => Some p | None => Some (mkPoisonInfo seg chunk reason) end) v.

Definition poison_at (reason : StreamError) (seg : option Z) (chunk : Z) (v : StreamVerifier) : StreamVerifier :=
  match sv_state v with
  | StRejected _ | StComplete | StCompleteUnverified | StSuspended => v
  | _ => force_poison reason seg chunk v
  end.
(** [poison(reason)]. *)
Definition poison (reason : StreamError) (v : StreamVerifier) : StreamVerifier := poison_at reason None 0 v.

Definition fault (reason : StreamError) (seg : option Z) (chunk : Z) (v : StreamVerifier) : StreamVerifier :=
  let v := set_sv_fault (mkPoisonInfo seg chunk reason) (wrap32 (sv_faults v + 1)) v in
  if sm_fault_budget (sv_policy v) <? sv_faults v then poison_at reason seg chunk v else v.

(** [return Err(self.poison_at(..))] and [return Err(self.fault(..))]. *)
Definition rpoison {A} (reason : StreamError) (seg : option Z) (chunk : Z) : rx A := λ v,
  Some (Err reason, poison_at reason seg chunk v).
Definition rfault {A} (reason : StreamError) (seg : option Z) (chunk : Z) : rx A := λ v,
  Some (Err reason, fault reason seg chunk v).

Definition end_of_input (v : StreamVerifier) : StreamVerifier :=
  match sv_state v with StReceiving | StReady => set_sv_state StSuspended v | _ => v end.

Definition stream_resume (v : StreamVerifier) : bool * StreamVerifier :=
  match sv_state v with StSuspended => (true, set_sv_state StReceiving v) | _ => (false, v) end.

(* ------------------------------------------------------------------ *)
(** ** Reading the state *)

Definition find_segment (seg_id : Z) (v : StreamVerifier) : option nat :=
  d ← sv_desc v; descriptor_find seg_id d.

Definition next_chunk (seg_id : Z) (v : StreamVerifier) : option Z :=
  i ← find_segment seg_id v; s ← sv_segs v !! i; if sg_done s then None else Some (sg_next s).

Definition stage_verified (stage : Z) (v : StreamVerifier) : bool :=
  match sv_desc v, sv_stage_remaining v !! Z.to_nat stage with Some _, Some r => r =? 0 | _, _ => false end.

Definition segment_verified (seg_id : Z) (v : StreamVerifier) : bool :=
  match (i ← find_segment seg_id v; sv_segs v !! i) with Some s => sg_done s | None => false end.

Definition frame_payload_limit (frame_type : Z) (v : StreamVerifier) : Z :=
  match sv_state v with
  | StAwaitDescriptor => if frame_type =? FRAME_DESCRIPTOR then sm_max_descriptor_bytes (sv_policy v) else 0
  | StReady | StReceiving =>
      if frame_type =? FRAME_CHUNK then sv_max_chunk_len v
      else if frame_type =? FRAME_CHUNK_TABLE then sv_max_table_payload v
      else 0
  | _ => 0
  end.

Section receiver.
Context {SH : Sha256} {ED : Ed25519} {CT : ConstantTimeEq}.

(** [self.desc.as_ref().expect("installed")]. *)
Definition installed : rx VerifiedDescriptor := let* d := rget sv_desc in rsome d.
Definition segment_state (i : nat) : rx SegState := let* segs := rget sv_segs in rsome (segs !! i).

(* ------------------------------------------------------------------ *)
(** ** The descriptor *)

(** The loop over the entries: the record of each segment, the count of each
    stage and the two size limits. *)
Definition install_entry (h : StreamHeader) (acc : list SegState * list Z * Z * Z) (e : StreamEntry)
    : list SegState * list Z * Z * Z :=
  let '(segs, remaining, max_chunk, max_table) := acc in
  let n := default 1 (chunk_count (de_stored_len e) h) in
  let st := Z.to_nat (de_stage e) in
  (segs ++ [mkSegState n 0 None false],
   <[st := wrap32 (default 0 (remaining !! st) + 1)]> remaining,
   Z.max max_chunk (default 0 (chunk_len (de_stored_len e) 0 h)),
   if 1 <? n then Z.max max_table (32 * n) else max_table).

Definition install_descriptor (bytes : list Z) : rx Event := λ v,
  match decode_descriptor bytes (sv_policy v) with
  | Err e => Some (Err e, set_sv_state (StRejected e) v)
  | Ok d =>
      let h := vd_header d in
      let '(segs, remaining, max_chunk, max_table) :=
        foldl (install_entry h) (sv_segs v, sv_stage_remaining v, sv_max_chunk_len v, sv_max_table_payload v)
          (vd_entries d) in
      let total := foldl (λ t s, wrap64 (t + sg_n s)) 0 segs in
      let cap := default (wrap64 (4 * total + 64)) (sm_max_duplicate_frames (sv_policy v)) in
      let identity :=
        if Z.land (dh_flags h) FLAG_IDENTITY_PRESENT =? 0 then sv_identity v else Some identity_tracker_new in
      Some (Ok (EvDescriptorVerified (vd_descriptor_hash d) (dh_seg_count h) (dh_body_len h)),
            mkStreamVerifier (sv_policy v) StReady (Some d) segs remaining (Z.of_nat (length (vd_entries d)))
              (sv_faults v) (sv_verified_bytes v) (sv_released_chunks v) (sv_table_bytes v) identity
              (sv_identity_status v) max_chunk max_table (sv_poison_info v) (sv_last_fault v)
              (sv_duplicates_ignored v) cap)
  end.

Definition from_descriptor (bytes : list Z) (policy : StreamPolicy) : option (StreamResult StreamVerifier) :=
  match install_descriptor bytes (stream_verifier_new policy) with
  | Some (Ok _, v) => Some (Ok v)
  | Some (Err e, _) => Some (Err e)
  | None => None
  end.

(** [self.count_duplicate(seg_id, chunk_index)?]. *)
Definition count_duplicate (seg_id chunk_index : Z) : rx unit := λ v,
  let v := set_sv_duplicates (sat_add u64_max (sv_duplicates_ignored v) 1) v in
  if sv_duplicate_cap v <? sv_duplicates_ignored v then rpoison SeDuplicateFlood (Some seg_id) chunk_index v
  else Some (Ok tt, v).

Definition on_descriptor_again (f : list Z) : rx Event :=
  if (length f <? 5)%nat || negb (read_le 1 4 f =? Z.of_nat (length f - 5)) then rpoison SeFrameSizeLie None 0
  else
    let* v := rget id in
    let* same :=
      (if sm_max_descriptor_bytes (sv_policy v) <? Z.of_nat (length f - 5) then rret false
       else let* d := installed in rret (bool_decide (descriptor_hash (drop 5 f) = vd_descriptor_hash d))) in
    if negb same then rfault SeUnexpectedFrame None 0
    else count_duplicate 0 0 ;* rret EvDuplicateDescriptor.

(* ------------------------------------------------------------------ *)
(** ** Chunk tables *)

Definition on_chunk_table (f : list Z) : rx Event :=
  if (length f <? 13)%nat then rpoison SeFrameSizeLie None 0
  else
    let seg_id := read_le 1 8 f in
    let n := read_le 9 4 f in
    let payload := Z.of_nat (length f - 13) in
    if negb (payload =? 32 * n) then rpoison SeFrameSizeLie (Some seg_id) 0
    else
      let* found := rget (find_segment seg_id) in
      match found with
      | None => rfault SeUnexpectedFrame (Some seg_id) 0
      | Some i =>
          let* s := segment_state i in
          if (sg_n s <=? 1) || is_some (sg_leaves s) || sg_done s then rfault SeUnexpectedFrame (Some seg_id) 0
          else if negb (n =? sg_n s) then rpoison SeFrameSizeLie (Some seg_id) 0
          else
            let* d := installed in
            let* e := rsome (vd_entries d !! i) in
            let* v := rget id in
            if sm_max_table_bytes (sv_policy v) <? wrap64 (sv_table_bytes v + payload)
            then rfault SeLimitExceeded (Some seg_id) 0
            else
              let flat := drop 13 f in
              let ok := match chunk_list_hash_flat (dh_file_id (vd_header d)) seg_id flat with
                        | Some h => ct_eq h (de_chunk_table_hash e)
                        | None => false
                        end in
              if negb ok then rfault SeTableHashMismatch (Some seg_id) 0
              else
                rput (λ v, set_sv_tables (<[i := mkSegState (sg_n s) (sg_next s) (Some flat) (sg_done s)]> (sv_segs v))
                             (wrap64 (sv_table_bytes v + payload)) v) ;*
                rret (EvTableVerified seg_id)
      end.

(* ------------------------------------------------------------------ *)
(** ** Chunks ([chunk.rs]) *)

Definition type_is_index (seg_type : Z) : bool := (seg_type =? 2) || (seg_type =? 8) || (seg_type =? 13).

(** The commitment a chunk is checked against: its leaf of the table when there
    is one, else the commitment of the entry. *)
Definition wanted_leaf (e : StreamEntry) (leaves : option (list Z)) (idx : Z) : option (list Z) :=
  match leaves with
  | None => Some (de_chunk_table_hash e)
  | Some l => let at_ := Z.to_nat (idx * 32) in if (at_ + 32 <=? length l)%nat then Some (slice at_ 32 l) else None
  end.

(** The loop over the bits of [requires_mask]. *)
Definition requirements_unmet (need : Z) (remaining : list Z) : bool :=
  existsb (λ st, Z.testbit need (Z.of_nat st) && negb (default 0 (remaining !! st) =? 0)) (seq 0 MAX_STAGES).

Definition admit_chunk (i : nat) (seg_id idx : Z) (bytes : list Z) : rx unit :=
  let* d := installed in
  let* e := rsome (vd_entries d !! i) in
  let* s := segment_state i in
  let* v := rget id in
  if sg_done s || negb (idx =? sg_next s) then rfault SeUnexpectedFrame (Some seg_id) idx
  else if negb (bool_decide (chunk_len (de_stored_len e) idx (vd_header d) = Some (Z.of_nat (length bytes))))
  then rpoison SeFrameSizeLie (Some seg_id) idx
  else if (1 <? sg_n s) && is_none (sg_leaves s) then rfault SeUnexpectedFrame (Some seg_id) idx
  else if requirements_unmet (de_requires_mask e) (sv_stage_remaining v)
  then rfault SeRequirementsUnmet (Some seg_id) idx
  else
    let* want := rsome (wanted_leaf e (sg_leaves s) idx) in
    if negb (ct_eq (leaf_hash (dh_file_id (vd_header d)) seg_id idx bytes) want)
    then rfault SeChunkHashMismatch (Some seg_id) idx
    else
      (if (idx =? 0) && (type_is_executable (de_seg_type e) || type_is_index (de_seg_type e)) then
         let* magic := rsome (if (length bytes <? 4)%nat then None else Some (slice 0 4 bytes)) in
         let* foreign := (if negb (bool_decide (magic = le_bytes 4 SEGMENT_MAGIC)) then rret true
                          else let* b := rsome (bytes !! 5%nat) in rret (negb (b =? de_seg_type e))) in
         if foreign : bool then rpoison SeTableInvalid (Some seg_id) idx
         else
           let* algo := rsome (bytes !! 32%nat) in
           if algo <=? 1 then rpoison SeWeakChecksum (Some seg_id) idx else rret tt
       else rret tt) ;*
      (if (idx =? 0) && (de_seg_type e =? SEG_TYPE_ROOT_PAGE) then
         let* magic := rsome (if (length bytes <? 4)%nat then None else Some (slice 0 4 bytes)) in
         if negb (bool_decide (magic = le_bytes 4 ROOT_PAGE_MAGIC)) then rpoison SeTableInvalid (Some seg_id) idx
         else rret tt
       else rret tt).

Definition on_duplicate_chunk (i : nat) (idx : Z) (bytes : list Z) : rx Event :=
  let* d := installed in
  let* e := rsome (vd_entries d !! i) in
  let* s := segment_state i in
  let seg_id := de_seg_id e in
  if negb (bool_decide (chunk_len (de_stored_len e) idx (vd_header d) = Some (Z.of_nat (length bytes))))
  then rpoison SeFrameSizeLie (Some seg_id) idx
  else if is_none (sg_leaves s) && (1 <? sg_n s) then
    count_duplicate seg_id idx ;* rret (EvUnverified seg_id idx)
  else
    let* want := rsome (wanted_leaf e (sg_leaves s) idx) in
    if negb (ct_eq (leaf_hash (dh_file_id (vd_header d)) seg_id idx bytes) want)
    then rfault SeChunkHashMismatch (Some seg_id) idx
    else count_duplicate seg_id idx ;* rret (EvDuplicate seg_id idx).

Definition completion_status (extra : Z) (v : StreamVerifier) : option (StreamResult IdentityStatus) :=
  d ← sv_desc v;
  let h := vd_header d in
  Some
    (if negb (wrap64 (sv_verified_bytes v + extra) =? dh_body_len h) then Err SeTableInvalid
     else
       match sv_identity v with
       | None => Ok IdNotPresent
       | Some t =>
           if it_feasible t && (it_pos t =? dh_body_len h) then
             if ct_eq (sha256 (it_hashed t)) (dh_rvf_identity h) then Ok IdVerified else Err SeIdentityMismatch
           else Ok IdUnverifiable
       end).

(** The running hash after a chunk at [body_offset]. *)
Definition track_identity (bytes : list Z) (body_offset : Z) (v : StreamVerifier) : StreamVerifier :=
  match sv_identity v with
  | None => v
  | Some t =>
      if it_feasible t && (it_pos t =? body_offset) then
        let t := tracker_absorb bytes t in
        set_sv_identity (Some (mkIdentityTracker (it_hashed t) (wrap64 (it_pos t + Z.of_nat (length bytes)))
                                 (it_feasible t))) v
      else set_sv_identity (Some (mark_infeasible t)) v
  end.

(** The records of the segment and of its stage, and the stage this chunk
    completes. *)
Definition advance_segment (i : nat) (s : SegState) (e : StreamEntry) (completes : bool) : rx (option Z) := λ v,
  let next := wrap32 (sg_next s + 1) in
  if completes then
    let st := Z.to_nat (de_stage e) in
    let table_bytes := match sg_leaves s with
                       | Some l => wrap64 (sv_table_bytes v - Z.of_nat (length l))
                       | None => sv_table_bytes v
                       end in
    r ← sv_stage_remaining v !! st;
    let r := wrap32 (r - 1) in
    Some (Ok (if r =? 0 then Some (de_stage e) else None),
          set_sv_progress (<[i := mkSegState (sg_n s) next None true]> (sv_segs v)) table_bytes
            (wrap64 (sv_left v - 1)) (<[st := r]> (sv_stage_remaining v)) v)
  else
    Some (Ok None,
          set_sv_segs (<[i := mkSegState (sg_n s) next (sg_leaves s) (sg_done s)]> (sv_segs v)) v).

(** The counters, and the terminal state when the stream is complete. *)
Definition account_chunk (len : Z) (complete : option IdentityStatus) (v : StreamVerifier) : StreamVerifier :=
  let v := set_sv_counts (wrap64 (sv_verified_bytes v + len)) (wrap64 (sv_released_chunks v + 1)) v in
  match complete with
  | None => v
  | Some st => set_sv_completed (match st with IdUnverifiable => StCompleteUnverified | _ => StComplete end) st v
  end.

(** [on_chunk] after [admit_chunk]. *)
Definition release_chunk (i : nat) (seg_id idx : Z) (bytes : list Z) : rx Event :=
  let* d := installed in
  let* e := rsome (vd_entries d !! i) in
  let segment_offset := match chunk_size (vd_header d) with Some cs => wrap64 (idx * cs) | None => 0 end in
  let body_offset := wrap64 (de_body_offset e + segment_offset) in
  let* s := segment_state i in
  let* open := rget sv_left in
  let completes_segment := wrap32 (sg_next s + 1) =? sg_n s in
  let completes_stream := completes_segment && (open =? 1) in
  let len := Z.of_nat (length bytes) in
  rput (track_identity bytes body_offset) ;*
  let* complete :=
    (if completes_stream then
       let* verdict := rget (completion_status len) in
       let* verdict := rsome verdict in
       match verdict with Ok st => rret (Some st) | Err c => rpoison c (Some seg_id) idx end
     else rret None) in
  let* stage := advance_segment i s e completes_segment in
  rput (account_chunk len complete) ;*
  rret (EvChunk (mkVerifiedChunk seg_id (de_seg_type e) idx segment_offset body_offset bytes)
          completes_segment stage complete).

Definition on_chunk (f : list Z) : rx Event :=
  if (length f <? 17)%nat then rpoison SeFrameSizeLie None 0
  else
    let seg_id := read_le 1 8 f in
    let idx := read_le 9 4 f in
    let bytes := drop 17 f in
    if negb (read_le 13 4 f =? Z.of_nat (length bytes)) then rpoison SeFrameSizeLie (Some seg_id) idx
    else
      let* found := rget (find_segment seg_id) in
      match found with
      | None => rfault SeUnexpectedFrame (Some seg_id) idx
      | Some i =>
          let* s := segment_state i in
          if idx <? sg_next s then on_duplicate_chunk i idx bytes
          else admit_chunk i seg_id idx bytes ;* release_chunk i seg_id idx bytes
      end.

(* ------------------------------------------------------------------ *)
(** ** Frames *)

Definition receive_frame (f : list Z) : rx Event :=
  match f with
  | 1 :: _ => on_chunk f
  | 2 :: _ => on_chunk_table f
  | 0 :: _ => on_descriptor_again f
  | _ => rfault SeUnexpectedFrame None 0
  end.

Definition stream_receive (f : list Z) : rx Event := λ v,
  match sv_state v with
  | StPoisoned _ => Some (Err SePoisoned, v)
  | StAwaitDescriptor =>
      if (length f <? 5)%nat || negb (format_byte_at f 0 =? FRAME_DESCRIPTOR) then
        rpoison SeUnexpectedFrame None 0 v
      else if negb (read_le 1 4 f =? Z.of_nat (length f - 5)) then rpoison SeFrameSizeLie None 0 v
      else install_descriptor (drop 5 f) v
  | StReady | StReceiving =>
      '(r, v) ← receive_frame f v;
      Some (r, match r, sv_state v with Ok _, StReady => set_sv_state StReceiving v | _, _ => v end)
  | _ => Some (Err SeBadState, v)
  end.

(* ------------------------------------------------------------------ *)
(** ** Sums over the segments *)

Definition zsum {A} (f : A → Z) (l : list A) : Z := foldr (λ x t, f x + t) 0 l.

Lemma zsum_app {A} (f : A → Z) a b : zsum f (a ++ b) = zsum f a + zsum f b.
Proof. induction a as [|x a IH]; cbn; [done|]. unfold zsum in *. lia. Qed.

Lemma zsum_insert {A} (f : A → Z) l i x y : l !! i = Some x → zsum f (<[i := y]> l) = zsum f l - f x + f y.
Proof.
  revert i. induction l as [|a l IH]; intros [|i] H; try done; cbn in H.
  - injection H as ->. cbn. lia.
  - change (f a + zsum f (<[i:=y]> l) = f a + zsum f l - f x + f y). rewrite (IH i H). lia.
Qed.

Lemma zsum_le {A} (f g : A → Z) l : (∀ x, x ∈ l → f x ≤ g x) → zsum f l ≤ zsum g l.
Proof.
  induction l as [|x l IH]; intros H; cbn; [done|].
  pose proof (H x ltac:(left)). specialize (IH (λ y Hy, H y (list_elem_of_further _ _ _ Hy))). unfold zsum in *. lia.
Qed.

Lemma zsum_nonneg {A} (f : A → Z) l : (∀ x, x ∈ l → 0 ≤ f x) → 0 ≤ zsum f l.
Proof. intros H. transitivity (zsum (λ _ : A, 0) l); [|by apply zsum_le]. induction l; cbn; [done|].
  apply IHl. intros x Hx. apply H. by right. Qed.

Lemma zsum_zero {A} (f : A → Z) l x : (∀ x, x ∈ l → 0 ≤ f x) → zsum f l = 0 → x ∈ l → f x = 0.
Proof.
  induction l as [|a l IH]; intros H Hs Hx; [by apply elem_of_nil in Hx|]. cbn in Hs. fold (zsum f l) in Hs.
  pose proof (H a ltac:(left)). assert (0 ≤ zsum f l) by (apply zsum_nonneg; intros y Hy; apply H; by right).
  apply elem_of_cons in Hx as [->|Hx]; [lia|]. apply IH; [|lia|done]. intros y Hy. apply H. by right.
Qed.

Lemma zip_insert_r {A B} (l : list A) (k : list B) i x y :
  l !! i = Some x → zip l (<[i := y]> k) = <[i := (x, y)]> (zip l k).
Proof. intros H. rewrite (insert_zip_with pair). by rewrite (list_insert_id l i x). Qed.

(* ------------------------------------------------------------------ *)
(** ** Where the chunks of a segment lie *)

Definition chunk_start (h : StreamHeader) (idx : Z) : Z :=
  match chunk_size h with Some cs => idx * cs | None => 0 end.

Lemma chunk_size_range h cs : stream_header_wf h → chunk_size h = Some cs → 4096 ≤ cs ≤ 2 ^ 30.
Proof.
  intros Hwf. unfold chunk_size. destruct (xh_chunked _ Hwf) as [[-> _]|[Hr _]]; [done|].
  unfold CHUNK_LOG2_MIN, CHUNK_LOG2_MAX, CHUNK_LOG2_SEGMENT in *. destruct (_ =? 255) eqn:E; [done|]. intros [= <-].
  rewrite Z.shiftl_1_l.
  assert (2 ^ 12 ≤ 2 ^ dh_chunk_log2 h ≤ 2 ^ 30) as Hb by (split; apply Z.pow_le_mono_r; lia).
  change (2 ^ 12) with 4096 in Hb. rewrite wrap64_id; [lia|]. unfold is_u64, u64_max. change (2 ^ 30) with 1073741824 in Hb. lia.
Qed.

Lemma chunk_len_zero h : chunk_start h 0 = 0.
Proof. unfold chunk_start. by destruct (chunk_size h). Qed.

Lemma chunk_geometry h stored n :
  stream_header_wf h → 0 < stored → chunk_count stored h = Some n →
  1 ≤ n ≤ u32_max ∧
  ∀ idx, 0 ≤ idx < n → ∃ len, chunk_len stored idx h = Some len ∧ 0 < len ∧ 0 ≤ chunk_start h idx ∧
    chunk_start h idx + len = (if idx + 1 =? n then stored else chunk_start h (idx + 1)) ∧
    chunk_start h idx + len ≤ stored ∧ (idx = 0 → Z.min 4096 stored ≤ len).
Proof.
  intros Hwf Hs Hn. pose proof (chunk_size_range h) as Hcs. unfold chunk_len. rewrite Hn.
  unfold chunk_count in Hn. unfold chunk_start.
  destruct (chunk_size h) as [cs|].
  - specialize (Hcs cs Hwf eq_refl). destruct (cs <? stored) eqn:E.
    + unfold div_ceil in Hn. destruct (_ <=? u32_max) eqn:Eu; [|done]. injection Hn as <-.
      apply Z.leb_le in Eu. set (n := (stored + cs - 1) / cs) in *.
      assert (stored + cs - 1 = cs * n + (stored + cs - 1) mod cs) as Hd by (apply Z.div_mod; lia).
      pose proof (Z.mod_pos_bound (stored + cs - 1) cs ltac:(lia)). split_bool.
      assert (2 ≤ n) by nia. split; [lia|]. intros idx Hi.
      destruct (n <=? idx) eqn:E2; split_bool; [lia|]. destruct (1 <? n) eqn:E3; split_bool; [|lia].
      destruct (idx + 1 <? n) eqn:E4; split_bool.
      * exists cs. destruct (idx + 1 =? n) eqn:E5; split_bool; [lia|]. split_and!; [done|nia..].
      * exists (stored - cs * (n - 1)). assert (idx = n - 1) as -> by lia.
        destruct (n - 1 + 1 =? n) eqn:E5; split_bool; [|lia]. split_and!; [done|nia..].
    + injection Hn as <-. split; [unfold u32_max; lia|]. intros idx Hi. assert (idx = 0) as -> by lia.
      exists stored. cbn. split_and!; first [done|lia].
  - injection Hn as <-. split; [unfold u32_max; lia|]. intros idx Hi. assert (idx = 0) as -> by lia. exists stored. cbn. split_and!; first [done|lia].
Qed.

(* ------------------------------------------------------------------ *)
(** ** What a receiver has released *)

Definition chunks_of (e : StreamEntry) (R : list VerifiedChunk) : list VerifiedChunk :=
  filter (λ c, vc_seg_id c = de_seg_id e) R.
Definition released_bytes (R : list VerifiedChunk) : list Z := concat (vc_bytes <$> R).

(** Every chunk of the segment has been released, in order. *)
Definition finished (d : VerifiedDescriptor) (R : list VerifiedChunk) (e : StreamEntry) : Prop :=
  ∃ n, chunk_count (de_stored_len e) (vd_header d) = Some n ∧ vc_chunk_index <$> chunks_of e R = seqZ 0 n.

(** The signed entry commits to these bytes as this chunk: directly, or
    through a table whose hash it holds. *)
Definition commits_to (d : VerifiedDescriptor) (e : StreamEntry) (idx : Z) (bytes : list Z) : Prop :=
  let leaf := leaf_hash (dh_file_id (vd_header d)) (de_seg_id e) idx bytes in
  (chunk_count (de_stored_len e) (vd_header d) = Some 1 ∧ leaf = de_chunk_table_hash e) ∨
  ∃ n table, chunk_count (de_stored_len e) (vd_header d) = Some n ∧ Z.of_nat (length table) = 32 * n ∧
    chunk_list_hash_flat (dh_file_id (vd_header d)) (de_seg_id e) table = Some (de_chunk_table_hash e) ∧
    slice (Z.to_nat (idx * 32)) 32 table = leaf.

Record authentic (d : VerifiedDescriptor) (e : StreamEntry) (c : VerifiedChunk) : Prop := {
  au_entry : e ∈ vd_entries d;
  au_segment : vc_seg_id c = de_seg_id e;
  au_type : vc_seg_type c = de_seg_type e;
  au_length : chunk_len (de_stored_len e) (vc_chunk_index c) (vd_header d) = Some (Z.of_nat (length (vc_bytes c)));
  au_offset : vc_segment_offset c = chunk_start (vd_header d) (vc_chunk_index c);
  au_body_offset : vc_body_offset c = de_body_offset e + vc_segment_offset c;
  au_committed : commits_to d e (vc_chunk_index c) (vc_bytes c);
}.

(** A release: an authentic chunk, the next of its segment, whose required
    stages have been released before it. *)
Record release_ok (d : VerifiedDescriptor) (R : list VerifiedChunk) (c : VerifiedChunk) : Prop := {
  ro_index : vc_chunk_index c = Z.of_nat (length (filter (λ c', vc_seg_id c' = vc_seg_id c) R));
  ro_entry : ∃ e, authentic d e c ∧
    ∀ e', e' ∈ vd_entries d → Z.testbit (de_requires_mask e) (de_stage e') = true → finished d R e';
}.

Definition releases_ok (d : VerifiedDescriptor) (R : list VerifiedChunk) : Prop :=
  ∀ R1 c R2, R = R1 ++ c :: R2 → release_ok d R1 c.

(** Each chunk begins where the bytes released before it end. *)
Definition in_body_order (R : list VerifiedChunk) : Prop :=
  ∀ R1 c R2, R = R1 ++ c :: R2 → vc_body_offset c = Z.of_nat (length (released_bytes R1)).

Lemma split_snoc {A} (R R1 R2 : list A) x y :
  R ++ [x] = R1 ++ y :: R2 → (R = R1 ∧ x = y ∧ R2 = []) ∨ ∃ R2', R2 = R2' ++ [x] ∧ R = R1 ++ y :: R2'.
Proof.
  intros H. destruct R2 as [|z R2 _] using rev_ind.
  - left. apply app_inj_tail in H as [-> ->]. done.
  - right. exists R2. rewrite app_comm_cons, app_assoc in H. apply app_inj_tail in H as [-> ->]. done.
Qed.

Lemma releases_ok_snoc d R c : releases_ok d R → release_ok d R c → releases_ok d (R ++ [c]).
Proof. intros HR Hc R1 x R2 [(-> & -> & ->)|(R2' & -> & ->)]%split_snoc; [done|]. by eapply HR. Qed.

Lemma released_bytes_snoc R c : released_bytes (R ++ [c]) = released_bytes R ++ vc_bytes c.
Proof. unfold released_bytes. by rewrite fmap_app, concat_app; cbn; rewrite app_nil_r. Qed.

Lemma in_body_order_snoc R c :
  in_body_order R → vc_body_offset c = Z.of_nat (length (released_bytes R)) → in_body_order (R ++ [c]).
Proof. intros HR Hc R1 x R2 [(-> & -> & ->)|(R2' & -> & ->)]%split_snoc; [done|]. by eapply HR. Qed.

Lemma chunks_of_snoc e R c :
  chunks_of e (R ++ [c]) = chunks_of e R ++ if bool_decide (vc_seg_id c = de_seg_id e) then [c] else [].
Proof.
  unfold chunks_of. rewrite filter_app. f_equal. rewrite filter_cons.
  case_bool_decide; [by rewrite decide_True|by rewrite decide_False].
Qed.

(* ------------------------------------------------------------------ *)
(** ** The invariant of a receiver with a descriptor *)

Notation Slot := (StreamEntry * SegState)%type (only parsing).
Definition seg_open (p : Slot) : Z := if sg_done p.2 then 0 else 1.
Definition open_in (st : nat) (p : Slot) : Z :=
  if sg_done p.2 then 0 else if de_stage p.1 =? Z.of_nat st then 1 else 0.
Definition covered (h : StreamHeader) (p : Slot) : Z :=
  if sg_done p.2 then de_stored_len p.1 else chunk_start h (sg_next p.2).
Definition table_held (p : Slot) : Z := match sg_leaves p.2 with Some l => Z.of_nat (length l) | None => 0 end.

Record seg_ok (d : VerifiedDescriptor) (R : list VerifiedChunk) (e : StreamEntry) (s : SegState) : Prop := {
  so_n : chunk_count (de_stored_len e) (vd_header d) = Some (sg_n s);
  so_chunks : vc_chunk_index <$> chunks_of e R = seqZ 0 (sg_next s);
  so_next : 0 ≤ sg_next s ≤ sg_n s;
  so_done : sg_done s = true ↔ sg_next s = sg_n s;
  so_leaves l : sg_leaves s = Some l → 1 < sg_n s ∧ sg_done s = false ∧ Z.of_nat (length l) = 32 * sg_n s ∧
    chunk_list_hash_flat (dh_file_id (vd_header d)) (de_seg_id e) l = Some (de_chunk_table_hash e);
}.

Definition has_identity (d : VerifiedDescriptor) : Prop := Z.land (dh_flags (vd_header d)) FLAG_IDENTITY_PRESENT ≠ 0.

(** The running hash is the hash of the released bytes while they come in body
    order; it is dropped once the stream has ended. *)
Definition identity_ok (d : VerifiedDescriptor) (R : list VerifiedChunk) (v : StreamVerifier) : Prop :=
  match sv_identity v with
  | Some t => has_identity d ∧
      (it_feasible t = true → it_hashed t = released_bytes R ∧ it_pos t = Z.of_nat (length (released_bytes R)) ∧
         in_body_order R)
  | None => has_identity d →
      match sv_state v with StPoisoned _ | StComplete | StCompleteUnverified => True | _ => False end
  end.

(** What a completed stream has shown. *)
Definition verdict_ok (d : VerifiedDescriptor) (R : list VerifiedChunk) (v : StreamVerifier) : Prop :=
  match sv_state v with
  | StComplete | StCompleteUnverified =>
      zsum seg_open (zip (vd_entries d) (sv_segs v)) = 0 ∧
      ∃ st, sv_identity_status v = Some st ∧ (st = IdUnverifiable ↔ sv_state v = StCompleteUnverified) ∧
        match st with
        | IdVerified => in_body_order R ∧ sha256 (released_bytes R) = dh_rvf_identity (vd_header d)
        | IdNotPresent => ¬ has_identity d
        | IdUnverifiable => has_identity d
        end
  | StAwaitDescriptor => False
  | _ => True
  end.

Record receiving (policy : StreamPolicy) (d : VerifiedDescriptor) (R : list VerifiedChunk) (v : StreamVerifier)
    : Prop := {
  rv_policy : sv_policy v = policy;
  rv_desc : sv_desc v = Some d;
  rv_length : length (sv_segs v) = length (vd_entries d);
  rv_segs i e s : vd_entries d !! i = Some e → sv_segs v !! i = Some s → seg_ok d R e s;
  rv_stages : length (sv_stage_remaining v) = MAX_STAGES;
  rv_stage st r : sv_stage_remaining v !! st = Some r → r = zsum (open_in st) (zip (vd_entries d) (sv_segs v));
  rv_left : sv_left v = zsum seg_open (zip (vd_entries d) (sv_segs v));
  rv_chunks : releases_ok d R;
  rv_verified : sv_verified_bytes v = zsum (covered (vd_header d)) (zip (vd_entries d) (sv_segs v));
  rv_released : Z.of_nat (length (released_bytes R)) = sv_verified_bytes v;
  rv_identity : identity_ok d R v;
  rv_verdict : verdict_ok d R v;
}.

(** Changes that leave the segments alone. *)
Definition same_segments (v v' : StreamVerifier) : Prop :=
  sv_policy v' = sv_policy v ∧ sv_desc v' = sv_desc v ∧ sv_segs v' = sv_segs v ∧
  sv_stage_remaining v' = sv_stage_remaining v ∧ sv_left v' = sv_left v ∧ sv_verified_bytes v' = sv_verified_bytes v.

Lemma receiving_same policy d R v v' :
  receiving policy d R v → same_segments v v' → identity_ok d R v' → verdict_ok d R v' → receiving policy d R v'.
Proof.
  intros [] (Hp & Hd & Hs & Hr & Hl & Hb) Hi Hv.
  split; rewrite ?Hp, ?Hd, ?Hs, ?Hr, ?Hl, ?Hb; done.
Qed.

Lemma force_poison_receiving policy d R v reason seg chunk :
  receiving policy d R v → receiving policy d R (force_poison reason seg chunk v).
Proof. intros H. by apply (receiving_same _ _ _ v). Qed.

Lemma poison_at_receiving policy d R v reason seg chunk :
  receiving policy d R v → receiving policy d R (poison_at reason seg chunk v).
Proof. intros H. unfold poison_at. by destruct (sv_state v); try apply force_poison_receiving. Qed.

Lemma fault_receiving policy d R v reason seg chunk :
  receiving policy d R v → receiving policy d R (fault reason seg chunk v).
Proof.
  intros H. unfold fault. set (v1 := set_sv_fault _ _ v).
  assert (receiving policy d R v1) as H1 by (by apply (receiving_same _ _ _ v); [|done|apply (rv_identity _ _ _ _ H)|apply (rv_verdict _ _ _ _ H)]).
  destruct (_ <? _); [by apply poison_at_receiving|done].
Qed.

(* ------------------------------------------------------------------ *)
(** ** Weakest preconditions: no panic, and a postcondition *)

Definition wp {A} (m : rx A) (Q : StreamResult A → StreamVerifier → Prop) (v : StreamVerifier) : Prop :=
  match m v with Some (r, v) => Q r v | None => False end.

Lemma wp_bind {A B} (m : rx A) (f : A → rx B) Q v :
  wp m (λ r v, match r with Ok a => wp (f a) Q v | Err e => Q (Err e) v end) v → wp (rbind m f) Q v.
Proof. unfold wp, rbind. by destruct (m v) as [[[a|e] v1]|]. Qed.
Lemma wp_some {A} (o : option A) a Q v : o = Some a → Q (Ok a) v → wp (rsome o) Q v.
Proof. by intros ->. Qed.
Lemma wp_mono {A} (m : rx A) (Q Q' : StreamResult A → StreamVerifier → Prop) v :
  wp m Q v → (∀ r v, Q r v → Q' r v) → wp m Q' v.
Proof. unfold wp. destruct (m v) as [[r v1]|]; auto. Qed.

Definition released_by (r : StreamResult Event) : list VerifiedChunk :=
  match r with Ok (EvChunk c _ _ _) => [c] | _ => [] end.

Context {CTL : ConstantTimeEqLaws}.

Section installed.
Context (policy : StreamPolicy) (d : VerifiedDescriptor).
Context (Htab : stream_table_ok policy d) (Hwf : stream_header_wf (vd_header d)).

Lemma wp_installed Q v R : receiving policy d R v → Q (Ok d) v → wp installed Q v.
Proof. intros H HQ. apply wp_bind. cbn. apply wp_some with d; [apply (rv_desc _ _ _ _ H)|done]. Qed.

Lemma find_segment_some R v seg_id i :
  receiving policy d R v → find_segment seg_id v = Some i →
  ∃ e s, vd_entries d !! i = Some e ∧ sv_segs v !! i = Some s ∧ de_seg_id e = seg_id.
Proof.
  intros H Hf. unfold find_segment in Hf. rewrite (rv_desc _ _ _ _ H) in Hf. cbn in Hf.
  apply (tk_find _ _ Htab) in Hf as (e & He & Hid).
  destruct (lookup_lt_is_Some_2 (sv_segs v) i) as [s Hs].
  { rewrite (rv_length _ _ _ _ H). by eapply lookup_lt_Some. }
  by exists e, s.
Qed.

Lemma wp_segment Q v R i e s :
  receiving policy d R v → vd_entries d !! i = Some e → sv_segs v !! i = Some s →
  Q (Ok s) v → wp (segment_state i) Q v.
Proof. intros H He Hs HQ. apply wp_bind. cbn. by apply wp_some with s. Qed.

(** What a chunk event says of its segment and of the stream. *)
Definition event_ok (R : list VerifiedChunk) (r : StreamResult Event) (v : StreamVerifier) : Prop :=
  match r with
  | Ok (EvDescriptorVerified _ _ _) => False
  | Ok (EvChunk c completed _ complete) =>
      ∃ e, authentic d e c ∧ (completed = true ↔ finished d (R ++ [c]) e) ∧ Forall is_byte (vc_bytes c) ∧
        match complete with
        | Some st => sv_identity_status v = Some st ∧ (sv_state v = StComplete ∨ sv_state v = StCompleteUnverified)
        | None => sv_state v ≠ StComplete ∧ sv_state v ≠ StCompleteUnverified
        end
  | _ => True
  end.

(** Refusals and repeats release nothing and keep the invariant. *)
Definition keeps_receiving (R : list VerifiedChunk) (r : StreamResult Event) (v : StreamVerifier) : Prop :=
  receiving policy d (R ++ released_by r) v ∧ event_ok R r v.

Lemma wp_poison {A} R v reason seg chunk (Q : StreamResult A → StreamVerifier → Prop) :
  receiving policy d R v → (∀ v', receiving policy d R v' → Q (Err reason) v') → wp (rpoison reason seg chunk) Q v.
Proof. intros H HQ. cbn. apply HQ. by apply poison_at_receiving. Qed.
Lemma wp_fault {A} R v reason seg chunk (Q : StreamResult A → StreamVerifier → Prop) :
  receiving policy d R v → (∀ v', receiving policy d R v' → Q (Err reason) v') → wp (rfault reason seg chunk) Q v.
Proof. intros H HQ. cbn. apply HQ. by apply fault_receiving. Qed.

Lemma keeps_nothing R v e : receiving policy d R v → keeps_receiving R (Err e) v.
Proof. unfold keeps_receiving. cbn. by rewrite app_nil_r. Qed.

Definition is_repeat (ev : Event) : Prop :=
  match ev with EvDescriptorVerified _ _ _ | EvChunk _ _ _ _ => False | _ => True end.
Lemma repeat_keeps R v ev : receiving policy d R v → is_repeat ev → keeps_receiving R (Ok ev) v.
Proof. intros H Hr. unfold keeps_receiving. destruct ev; try done; cbn; by rewrite app_nil_r. Qed.

Lemma wp_count_duplicate R v seg_id idx ev :
  receiving policy d R v → is_repeat ev →
  wp (count_duplicate seg_id idx ;* rret ev) (keeps_receiving R) v.
Proof.
  intros H He. unfold count_duplicate. apply wp_bind. unfold wp.
  set (v1 := set_sv_duplicates _ v).
  assert (receiving policy d R v1) as H1
    by (apply (receiving_same _ _ _ v); [done|done|apply (rv_identity _ _ _ _ H)|apply (rv_verdict _ _ _ _ H)]).
  destruct (_ <? _); cbn.
  - apply keeps_nothing. by apply poison_at_receiving.
  - by apply repeat_keeps.
Qed.

Lemma wp_on_descriptor_again R v f :
  receiving policy d R v → wp (on_descriptor_again f) (keeps_receiving R) v.
Proof.
  intros H. unfold on_descriptor_again. destruct (_ || _).
  { eapply wp_poison; [done|]. intros. by apply keeps_nothing. }
  apply wp_bind. cbn. apply wp_bind.
  apply wp_mono with (λ r v', v' = v ∧ is_ok r = true).
  { destruct (_ <? _); [done|]. apply wp_bind. eapply wp_installed; [done|]. done. }
  intros [same|] v' [-> Hok]; [|done]. destruct same; cbn [negb].
  - by apply wp_count_duplicate.
  - eapply wp_fault; [done|]. intros. by apply keeps_nothing.
Qed.

Ltac refuse := (eapply wp_poison || eapply wp_fault); [eassumption|]; intros; first [by apply keeps_nothing | done].

Lemma entry_facts R v i e s :
  receiving policy d R v → vd_entries d !! i = Some e → sv_segs v !! i = Some s →
  seg_ok d R e s ∧ entry_admitted policy (vd_header d) e ∧ 0 < de_stored_len e.
Proof.
  intros H He Hs. pose proof (rv_segs _ _ _ _ H i e s He Hs) as Hok.
  assert (entry_admitted policy (vd_header d) e) as Ha.
  { pose proof (tk_entries _ _ Htab) as Hf. rewrite Forall_forall in Hf. apply Hf. by eapply list_elem_of_lookup_2. }
  split; [done|]. split; [done|]. apply Ha.
Qed.

Lemma wanted_leaf_some R v i e s idx :
  receiving policy d R v → vd_entries d !! i = Some e → sv_segs v !! i = Some s → 0 ≤ idx < sg_n s →
  (1 < sg_n s → sg_leaves s ≠ None) →
  ∃ want, wanted_leaf e (sg_leaves s) idx = Some want ∧
    ∀ bytes, leaf_hash (dh_file_id (vd_header d)) (de_seg_id e) idx bytes = want → commits_to d e idx bytes.
Proof.
  intros H He Hs Hi Hl. destruct (entry_facts R v i e s H He Hs) as (Hok & Ha & Hst).
  unfold wanted_leaf. destruct (sg_leaves s) as [l|] eqn:El.
  - destruct (so_leaves _ _ _ _ Hok l El) as (Hn & Hd & Hlen & Hh).
    destruct (_ <=? _)%nat eqn:E; split_bool; [|lia]. eexists. split; [done|]. intros bytes Hb. right.
    exists (sg_n s), l. split_and!; [apply Hok|done|done|by rewrite Hb].
  - eexists. split; [done|]. intros bytes Hb. left. split; [|done].
    rewrite (so_n _ _ _ _ Hok). f_equal. destruct (decide (1 < sg_n s)) as [Hn|Hn]; [by destruct (Hl Hn)|lia].
Qed.

Lemma wp_on_duplicate_chunk R v i e s idx bytes :
  receiving policy d R v → vd_entries d !! i = Some e → sv_segs v !! i = Some s → 0 ≤ idx < sg_next s →
  wp (on_duplicate_chunk i idx bytes) (keeps_receiving R) v.
Proof.
  intros H He Hs Hi. destruct (entry_facts R v i e s H He Hs) as (Hok & Ha & Hst).
  pose proof (so_next _ _ _ _ Hok) as Hn.
  unfold on_duplicate_chunk. apply wp_bind. eapply wp_installed; [done|]. apply wp_bind. apply wp_some with e; [done|].
  apply wp_bind. eapply wp_segment; [done..|]. case_bool_decide; cbn [negb]; [|refuse].
  destruct (is_none (sg_leaves s) && (1 <? sg_n s)) eqn:E; [by apply wp_count_duplicate|].
  apply wp_bind. destruct (wanted_leaf_some R v i e s idx H He Hs) as (want & Hw & _); [lia| |].
  { intros H1 Hl. rewrite Hl in E. cbn in E. split_bool. lia. }
  apply wp_some with want; [done|]. destruct (negb _); [refuse|]. by apply wp_count_duplicate.
Qed.

Lemma wp_on_chunk_table R v f : receiving policy d R v → wp (on_chunk_table f) (keeps_receiving R) v.
Proof.
  intros H. unfold on_chunk_table. destruct (_ <? 13)%nat eqn:E13; [refuse|]. split_bool.
  destruct (negb (_ =? _)) eqn:Epay; [refuse|]. apply negb_false_iff, Z.eqb_eq in Epay.
  apply wp_bind. cbn [wp rget]. destruct (find_segment _ v) as [i|] eqn:Ef; [|refuse].
  destruct (find_segment_some R v _ i H Ef) as (e & s & He & Hs & Hid).
  destruct (entry_facts R v i e s H He Hs) as (Hok & Ha & Hst).
  apply wp_bind. eapply wp_segment; [done..|].
  destruct (_ || sg_done s) eqn:Eb; [refuse|]. split_bool.
  destruct (negb (_ =? sg_n s)) eqn:En; [refuse|]. apply negb_false_iff, Z.eqb_eq in En.
  apply wp_bind. eapply wp_installed; [done|]. apply wp_bind. apply wp_some with e; [done|].
  apply wp_bind. cbn [wp rget]. destruct (_ <? wrap64 _); [refuse|].
  destruct (negb _) eqn:Eok; [refuse|]. apply negb_false_iff in Eok.
  destruct (chunk_list_hash_flat _ _ (drop 13 f)) as [ch|] eqn:Eh; [|done]. apply ct_eq_spec in Eok as ->.
  apply wp_bind. cbn. apply repeat_keeps; [|done].
  set (s' := mkSegState (sg_n s) (sg_next s) (Some (drop 13 f)) (sg_done s)).
  assert (∀ g : Slot → Z, g (e, s') = g (e, s) →
    zsum g (zip (vd_entries d) (<[i:=s']> (sv_segs v))) = zsum g (zip (vd_entries d) (sv_segs v))) as Hsum.
  { intros g Hg. rewrite (zip_insert_r _ _ i e s' He). rewrite (zsum_insert g _ i (e, s)); [lia|].
    apply lookup_zip_with_Some. eauto. }
  split; cbn.
  - apply H.
  - apply H.
  - rewrite length_insert. apply H.
  - intros j e0 s0 He0 Hs0. apply list_lookup_insert_Some in Hs0 as [(-> & <- & _)|(Hne & Hs0)]; [|by eapply rv_segs].
    rewrite He in He0. injection He0 as <-. destruct Hok as [Hn Hc Hx Hd Hl]. split; cbn; try done.
    intros l [= <-]. split_and!; [lia|done|rewrite length_drop; lia|by rewrite Hid].
  - apply H.
  - intros st r Hr. rewrite (rv_stage _ _ _ _ H st r Hr). by rewrite Hsum.
  - rewrite (rv_left _ _ _ _ H). by rewrite Hsum.
  - apply H.
  - rewrite (rv_verified _ _ _ _ H). by rewrite Hsum.
  - apply H.
  - apply H.
  - pose proof (rv_verdict _ _ _ _ H) as Hv. unfold verdict_ok in *. cbn. by rewrite Hsum.
Qed.

(** What [admit_chunk] has checked when it accepts. *)
Definition admitted (R : list VerifiedChunk) (v : StreamVerifier) (e : StreamEntry) (s : SegState) (idx : Z)
    (bytes : list Z) : Prop :=
  sg_done s = false ∧ idx = sg_next s ∧
  chunk_len (de_stored_len e) idx (vd_header d) = Some (Z.of_nat (length bytes)) ∧
  requirements_unmet (de_requires_mask e) (sv_stage_remaining v) = false ∧ commits_to d e idx bytes.

Lemma wp_admit_chunk R v i e s idx bytes :
  receiving policy d R v → vd_entries d !! i = Some e → sv_segs v !! i = Some s → 0 ≤ idx → 
  wp (admit_chunk i (de_seg_id e) idx bytes)
    (λ r v', match r with Ok _ => v' = v ∧ admitted R v e s idx bytes | Err _ => receiving policy d R v' end) v.
Proof.
  intros H He Hs Hi. destruct (entry_facts R v i e s H He Hs) as (Hok & Ha & Hst).
  unfold admit_chunk. apply wp_bind. eapply wp_installed; [done|]. apply wp_bind. apply wp_some with e; [done|].
  apply wp_bind. eapply wp_segment; [done..|]. apply wp_bind. cbn [wp rget].
  destruct (sg_done s || negb (idx =? sg_next s)) eqn:E1; [refuse|]. apply orb_false_iff in E1 as [Edone Ei].
  apply negb_false_iff, Z.eqb_eq in Ei. case_bool_decide as Hlen; cbn [negb]; [|refuse].
  destruct (_ && is_none _) eqn:E2; [refuse|]. destruct (requirements_unmet _ _) eqn:E3; [refuse|].
  pose proof (so_next _ _ _ _ Hok) as Hn.
  destruct (chunk_geometry _ _ _ Hwf Hst (so_n _ _ _ _ Hok)) as [_ Hgeo].
  assert (sg_next s ≠ sg_n s) as Hne by (intros E; apply (so_done _ _ _ _ Hok) in E; congruence).
  destruct (Hgeo idx ltac:(lia)) as (len & Hl & _ & _ & _ & _ & Hzero). rewrite Hl in Hlen. injection Hlen as Hlen.
  apply wp_bind. destruct (wanted_leaf_some R v i e s idx H He Hs) as (want & Hw & Hcom); [lia| |].
  { intros H1 Hnone. rewrite Hnone in E2. cbn in E2. split_bool. lia. }
  apply wp_some with want; [done|]. destruct (negb _) eqn:E4; [refuse|].
  apply negb_false_iff, ct_eq_spec in E4.
  assert (admitted R v e s idx bytes) as Hadm.
  { split_and!; [done|done|by rewrite Hl, Hlen|done|by apply Hcom]. }
  pose proof (ea_size _ _ _ Ha) as Hsize. pose proof (ea_root _ _ _ Ha) as Hroot.
  apply wp_bind. apply wp_mono with (λ r v', match r with Ok _ => v' = v | Err _ => receiving policy d R v' end).
  { destruct ((idx =? 0) && (_ || _)) eqn:E5; [|by cbn]. apply andb_true_iff in E5 as [E0%Z.eqb_eq E5].
    assert (de_seg_type e ≠ SEG_TYPE_ROOT_PAGE) as Hnr.
    { intros Hr. rewrite Hr in E5. by vm_compute in E5. }
    specialize (Hzero E0). specialize (Hsize Hnr).
    destruct (lookup_lt_is_Some_2 bytes 5) as [b5 Hb5]; [lia|].
    destruct (lookup_lt_is_Some_2 bytes 32) as [b32 Hb32]; [lia|].
    apply wp_bind. destruct (_ <? 4)%nat eqn:E6; split_bool; [lia|]. eapply wp_some; [done|].
    apply wp_bind. apply wp_mono with (λ r v', v' = v ∧ is_ok r = true).
    { destruct (negb _); [done|]. apply wp_bind. by apply wp_some with b5. }
    intros [foreign|] v' [-> Hf]; [|done]. destruct foreign; [refuse|].
    apply wp_bind. apply wp_some with b32; [done|]. destruct (_ <=? 1); [refuse|by cbn]. }
  intros [[]|err] v'; [|done]. intros ->. destruct ((idx =? 0) && _) eqn:E7; [|done].
  apply andb_true_iff in E7 as [E0%Z.eqb_eq E7%Z.eqb_eq]. specialize (Hzero E0). specialize (Hroot E7).
  apply wp_bind. destruct (_ <? 4)%nat eqn:E8; split_bool.
  { unfold ROOT_PAGE_SIZE in Hroot. lia. }
  eapply wp_some; [done|]. destruct (negb _); [refuse|done].
Qed.

(* ------------------------------------------------------------------ *)
(** ** Releasing a chunk *)

Lemma laid_out_bound off entries i e :
  laid_out off entries → Forall (λ e, 0 < de_stored_len e) entries → entries !! i = Some e →
  off ≤ de_body_offset e ∧ de_body_offset e + de_stored_len e ≤ off + stored_total entries.
Proof.
  revert off i. induction entries as [|a entries IH]; intros off i Hl Hf Hi; [done|].
  apply Forall_cons in Hf as [Ha Hf]. destruct Hl as [Ho Hl]. cbn. fold (stored_total entries).
  assert (0 ≤ stored_total entries) as Hnn.
  { clear -Hf. induction Hf as [|x l Hx _ IH]; cbn; [done|]. unfold stored_total in *. lia. }
  destruct i as [|i]; cbn in Hi; [injection Hi as <-; lia|]. specialize (IH _ i Hl Hf Hi). lia.
Qed.

Lemma entries_stored : Forall (λ e, 0 < de_stored_len e) (vd_entries d).
Proof. eapply Forall_impl; [apply Htab|]. intros e He. apply He. Qed.

Lemma zsum_stored (es : list StreamEntry) (ss : list SegState) :
  length ss = length es → zsum (λ p : Slot, de_stored_len p.1) (zip es ss) = stored_total es.
Proof.
  revert ss. induction es as [|e es IH]; intros [|s ss] Hl; try done.
  cbn in Hl. cbn. fold (stored_total es). rewrite <-(IH ss) by lia. done.
Qed.

Lemma slot_lookup R v p :
  receiving policy d R v → p ∈ zip (vd_entries d) (sv_segs v) →
  ∃ i, vd_entries d !! i = Some p.1 ∧ sv_segs v !! i = Some p.2 ∧ seg_ok d R p.1 p.2 ∧ 0 < de_stored_len p.1.
Proof.
  intros H (i & Hp)%list_elem_of_lookup_1. apply lookup_zip_with_Some in Hp as (e & s & -> & He & Hs).
  destruct (entry_facts R v i e s H He Hs) as (? & ? & ?). eauto.
Qed.

Lemma covered_le R e s : seg_ok d R e s → 0 < de_stored_len e → 0 ≤ covered (vd_header d) (e, s) ≤ de_stored_len e.
Proof.
  intros Hok Hst. unfold covered. cbn. destruct (sg_done s) eqn:Ed; [lia|].
  destruct (chunk_geometry _ _ _ Hwf Hst (so_n _ _ _ _ Hok)) as [_ Hgeo].
  pose proof (so_next _ _ _ _ Hok) as Hn.
  assert (sg_next s ≠ sg_n s) as Hne by (intros E; apply (so_done _ _ _ _ Hok) in E; congruence).
  destruct (Hgeo (sg_next s) ltac:(lia)) as (len & _ & ? & ? & _ & ? & _). lia.
Qed.

Lemma seg_open_nonneg (p : Slot) : 0 ≤ seg_open p.
Proof. unfold seg_open. destruct (sg_done p.2); lia. Qed.
Lemma open_in_nonneg st (p : Slot) : 0 ≤ open_in st p.
Proof. unfold open_in. destruct (sg_done p.2), (de_stage p.1 =? Z.of_nat st); lia. Qed.

Lemma existsb_none {A} (f : A → bool) l x : existsb f l = false → x ∈ l → f x = false.
Proof.
  intros H Hx. apply not_true_iff_false. intros Hf. apply not_true_iff_false in H. apply H.
  apply existsb_exists. exists x. split; [by apply list_elem_of_In|done].
Qed.

Lemma covered_all (ss : list SegState) : length ss = length (vd_entries d) →
  zsum seg_open (zip (vd_entries d) ss) = 0 →
  zsum (covered (vd_header d)) (zip (vd_entries d) ss) = dh_body_len (vd_header d).
Proof.
  intros Hl H0. rewrite <-(tk_total _ _ Htab), <-(zsum_stored _ ss) by done.
  assert (∀ p : Slot, p ∈ zip (vd_entries d) ss → sg_done p.2 = true) as Hd.
  { intros p Hp. pose proof (zsum_zero _ _ p (λ q _, seg_open_nonneg q) H0 Hp) as Hz.
    unfold seg_open in Hz. by destruct (sg_done p.2). }
  apply Z.le_antisymm; apply zsum_le; intros p Hp; unfold covered; by rewrite (Hd p Hp).
Qed.

Lemma closed_finished R v e : receiving policy d R v → e ∈ vd_entries d →
  (∀ i s, vd_entries d !! i = Some e → sv_segs v !! i = Some s → sg_done s = true) → finished d R e.
Proof.
  intros H (i & He)%list_elem_of_lookup_1 Hd.
  destruct (lookup_lt_is_Some_2 (sv_segs v) i) as [s Hs].
  { rewrite (rv_length _ _ _ _ H). by eapply lookup_lt_Some. }
  destruct (entry_facts R v i e s H He Hs) as (Hok & _ & _).
  exists (sg_n s). split; [apply Hok|]. rewrite <-(proj1 (so_done _ _ _ _ Hok) (Hd i s He Hs)). apply Hok.
Qed.

(** A stage nothing is left of has been released. *)
Lemma stage_released R v e need :
  receiving policy d R v → e ∈ vd_entries d → requirements_unmet need (sv_stage_remaining v) = false →
  Z.testbit need (de_stage e) = true → finished d R e.
Proof.
  intros H He Hreq Hbit. apply (closed_finished R v); [done|done|]. intros i s Hi Hs.
  assert (entry_admitted policy (vd_header d) e) as Ha.
  { pose proof (tk_entries _ _ Htab) as Hf. rewrite Forall_forall in Hf. by apply Hf. }
  pose proof (ea_stage _ _ _ Ha) as Hst. unfold requirements_unmet in Hreq.
  set (st := Z.to_nat (de_stage e)). assert (de_stage e = Z.of_nat st) as Hste by lia.
  assert (st ∈ seq 0 MAX_STAGES) as Hin by (apply elem_of_seq; lia).
  apply (existsb_none _ _ st) in Hreq; [|done]. cbv beta in Hreq. rewrite <-Hste, Hbit in Hreq. cbn in Hreq.
  apply negb_false_iff, Z.eqb_eq in Hreq.
  destruct (lookup_lt_is_Some_2 (sv_stage_remaining v) st) as [r Hr]; [rewrite (rv_stages _ _ _ _ H); lia|].
  rewrite Hr in Hreq. cbn in Hreq. subst r. pose proof (rv_stage _ _ _ _ H st 0 Hr) as Hz. symmetry in Hz.
  assert ((e, s) ∈ zip (vd_entries d) (sv_segs v)) as Hp.
  { eapply list_elem_of_lookup_2. apply lookup_zip_with_Some. eauto. }
  apply (zsum_zero _ _ (e, s)) in Hz; [|intros q _; apply open_in_nonneg|done].
  unfold open_in in Hz. cbn in Hz. rewrite Hste, Z.eqb_refl in Hz. by destruct (sg_done s).
Qed.

Section release.
Context (R : list VerifiedChunk) (v : StreamVerifier) (i : nat) (e : StreamEntry) (s : SegState) (bytes : list Z).
Context (H : receiving policy d R v) (He : vd_entries d !! i = Some e) (Hs : sv_segs v !! i = Some s).
Context (Hadm : admitted R v e s (sg_next s) bytes).

Definition completes : bool := sg_next s + 1 =? sg_n s.
Definition advanced : SegState :=
  mkSegState (sg_n s) (sg_next s + 1) (if completes then None else sg_leaves s) completes.
Definition released_chunk : VerifiedChunk :=
  mkVerifiedChunk (de_seg_id e) (de_seg_type e) (sg_next s) (chunk_start (vd_header d) (sg_next s))
    (de_body_offset e + chunk_start (vd_header d) (sg_next s)) bytes.
Definition advanced_slots : list Slot := zip (vd_entries d) (<[i := advanced]> (sv_segs v)).

Lemma admitted_next : sg_next s + 1 ≤ sg_n s ≤ u32_max ∧ 0 ≤ sg_next s ∧
  0 ≤ chunk_start (vd_header d) (sg_next s) ∧
  chunk_start (vd_header d) (sg_next s) + Z.of_nat (length bytes) =
    (if completes then de_stored_len e else chunk_start (vd_header d) (sg_next s + 1)) ∧
  chunk_start (vd_header d) (sg_next s) + Z.of_nat (length bytes) ≤ de_stored_len e.
Proof.
  destruct (entry_facts R v i e s H He Hs) as (Hok & Ha & Hst). destruct Hadm as (Hd & _ & Hlen & _).
  destruct (chunk_geometry _ _ _ Hwf Hst (so_n _ _ _ _ Hok)) as [Hn Hgeo].
  pose proof (so_next _ _ _ _ Hok) as Hx.
  assert (sg_next s ≠ sg_n s) as Hne by (intros E; apply (so_done _ _ _ _ Hok) in E; congruence).
  destruct (Hgeo (sg_next s) ltac:(lia)) as (len & Hl & ? & ? & Hend & ? & _).
  rewrite Hl in Hlen. injection Hlen as ->. unfold completes. split_and!; first [lia|done].
Qed.

Lemma slot_found : zip (vd_entries d) (sv_segs v) !! i = Some (e, s).
Proof. apply lookup_zip_with_Some. eauto. Qed.

Lemma advanced_sum (g : Slot → Z) :
  zsum g advanced_slots = zsum g (zip (vd_entries d) (sv_segs v)) - g (e, s) + g (e, advanced).
Proof.
  unfold advanced_slots. rewrite (zip_insert_r _ _ i e advanced He). apply zsum_insert, slot_found.
Qed.

Lemma advanced_covered : zsum (covered (vd_header d)) advanced_slots =
  zsum (covered (vd_header d)) (zip (vd_entries d) (sv_segs v)) + Z.of_nat (length bytes).
Proof.
  rewrite advanced_sum. unfold covered at 2 3. cbn [fst snd advanced sg_done sg_next].
  destruct Hadm as (-> & _). destruct admitted_next as (_ & _ & _ & Hend & _). destruct completes; lia.
Qed.

Lemma advanced_open : zsum seg_open advanced_slots =
  zsum seg_open (zip (vd_entries d) (sv_segs v)) - if completes then 1 else 0.
Proof.
  rewrite advanced_sum. unfold seg_open at 2 3. cbn [fst snd advanced sg_done].
  destruct Hadm as (-> & _). destruct completes; lia.
Qed.

Lemma advanced_open_in st : zsum (open_in st) advanced_slots =
  zsum (open_in st) (zip (vd_entries d) (sv_segs v)) -
  if completes && (de_stage e =? Z.of_nat st) then 1 else 0.
Proof.
  rewrite advanced_sum. unfold open_in at 2 3. cbn [fst snd advanced sg_done].
  destruct Hadm as (-> & _). destruct completes, (de_stage e =? Z.of_nat st); cbn; lia.
Qed.

Lemma advanced_seg_ok j e0 s0 :
  vd_entries d !! j = Some e0 → <[i := advanced]> (sv_segs v) !! j = Some s0 → seg_ok d (R ++ [released_chunk]) e0 s0.
Proof.
  intros He0 Hs0. destruct (entry_facts R v i e s H He Hs) as (Hok & _ & _).
  apply list_lookup_insert_Some in Hs0 as [(<- & <- & _)|(Hne & Hs0)].
  - rewrite He in He0. injection He0 as <-. destruct admitted_next as (Hn & H0 & _).
    destruct Hok as [Hcnt Hc Hx Hd Hl]. split; cbn; [done| |lia| |].
    + rewrite chunks_of_snoc, bool_decide_true by done. rewrite fmap_app, Hc. cbn.
      rewrite (seqZ_app 0 (sg_next s) 1) by lia. done.
    + unfold completes. rewrite Z.eqb_eq. done.
    + destruct completes eqn:Ec; [done|]. intros l Hl'. destruct (Hl l Hl') as (? & ? & ? & ?). done.
  - destruct (entry_facts R v j e0 s0 H He0 Hs0) as (Hok0 & _ & _).
    destruct Hok0 as [Hcnt Hc Hx Hd Hl]. split; try done.
    rewrite chunks_of_snoc, bool_decide_false, app_nil_r; [done|]. cbn. intros Hid.
    by apply Hne, (tk_ids _ _ Htab i j e e0).
Qed.

Lemma advanced_verified :
  sv_verified_bytes v + Z.of_nat (length bytes) = zsum (covered (vd_header d)) advanced_slots ∧
  zsum (covered (vd_header d)) advanced_slots ≤ dh_body_len (vd_header d).
Proof.
  split; [by rewrite (rv_verified _ _ _ _ H), advanced_covered|].
  rewrite <-(tk_total _ _ Htab), <-(zsum_stored _ (<[i:=advanced]> (sv_segs v))) by (rewrite length_insert; apply H).
  apply zsum_le. intros [e0 s0] (j & Hj)%list_elem_of_lookup_1.
  apply lookup_zip_with_Some in Hj as (? & ? & [= <- <-] & Hje & Hjs).
  apply (covered_le _ e0 s0 (advanced_seg_ok j e0 s0 Hje Hjs)). by apply (Forall_lookup_1 _ _ _ _ entries_stored Hje).
Qed.

Lemma released_authentic : authentic d e released_chunk.
Proof.
  destruct Hadm as (_ & _ & Hlen & Hreq & Hcom). split; cbn; try done. by eapply list_elem_of_lookup_2.
Qed.

Lemma released_finished : completes = true ↔ finished d (R ++ [released_chunk]) e.
Proof.
  assert (seg_ok d (R ++ [released_chunk]) e advanced) as [Hn Hc Hx Hd _].
  { apply (advanced_seg_ok i); [done|]. apply list_lookup_insert_eq. by eapply lookup_lt_Some. }
  cbn in *. rewrite Hd. unfold finished. rewrite Hn, Hc. split.
  - intros ->. by exists (sg_n s).
  - intros (n & [= <-] & E). apply (f_equal length) in E. rewrite !length_seqZ in E. lia.
Qed.

Lemma released_release_ok : release_ok d R released_chunk.
Proof.
  destruct (entry_facts R v i e s H He Hs) as (Hok & _ & _).
  pose proof released_authentic as Hauth. destruct Hadm as (_ & _ & Hlen & Hreq & Hcom). split; cbn.
  - change (filter _ R) with (chunks_of e R). rewrite <-(length_fmap vc_chunk_index), (so_chunks _ _ _ _ Hok), length_seqZ.
    pose proof (so_next _ _ _ _ Hok). lia.
  - exists e. split; [done|]. intros e' He' Hbit. by eapply stage_released.
Qed.

(** The state after the release, whatever it records of the identity and the
    verdict. *)
Lemma released_receiving v' :
  sv_policy v' = policy → sv_desc v' = Some d → sv_segs v' = <[i := advanced]> (sv_segs v) →
  length (sv_stage_remaining v') = MAX_STAGES →
  (∀ st r, sv_stage_remaining v' !! st = Some r → r = zsum (open_in st) advanced_slots) →
  sv_left v' = zsum seg_open advanced_slots →
  sv_verified_bytes v' = sv_verified_bytes v + Z.of_nat (length bytes) →
  identity_ok d (R ++ [released_chunk]) v' → verdict_ok d (R ++ [released_chunk]) v' →
  receiving policy d (R ++ [released_chunk]) v'.
Proof.
  intros Hp Hd Hsegs Hlen Hst Hleft Hver Hid Hv. split; try done; rewrite ?Hsegs; try done.
  - rewrite length_insert. apply H.
  - apply advanced_seg_ok.
  - apply releases_ok_snoc; [apply H|apply released_release_ok].
  - rewrite Hver, (rv_verified _ _ _ _ H). symmetry. apply advanced_covered.
  - rewrite released_bytes_snoc, length_app, Nat2Z.inj_add, (rv_released _ _ _ _ H), Hver. done.
Qed.
End release.

Definition stream_open (v : StreamVerifier) : Prop := sv_state v = StReady ∨ sv_state v = StReceiving.

Lemma body_len_u64 : is_u64 (dh_body_len (vd_header d)).
Proof. apply (xh_body _ Hwf). Qed.

Lemma entries_few : Z.of_nat (length (vd_entries d)) ≤ u32_max.
Proof. rewrite (tk_count _ _ Htab). pose proof (xh_count _ Hwf). lia. Qed.

Lemma zsum_open_le (f : Slot → Z) (l : list Slot) :
  (∀ p, 0 ≤ f p ≤ 1) → 0 ≤ zsum f l ≤ Z.of_nat (length l).
Proof. intros Hf. induction l as [|p l IH]; cbn; [lia|]. fold (zsum f l). specialize (Hf p). lia. Qed.

Lemma body_offset_exact R v i e s bytes :
  receiving policy d R v → vd_entries d !! i = Some e → sv_segs v !! i = Some s → admitted R v e s (sg_next s) bytes →
  (match chunk_size (vd_header d) with Some cs => wrap64 (sg_next s * cs) | None => 0 end)
    = chunk_start (vd_header d) (sg_next s) ∧
  wrap64 (de_body_offset e + chunk_start (vd_header d) (sg_next s))
    = de_body_offset e + chunk_start (vd_header d) (sg_next s).
Proof.
  intros H He Hs Hadm. destruct (admitted_next R v i e s bytes H He Hs Hadm) as (_ & _ & H0 & _ & Hle).
  destruct (laid_out_bound 0 _ i e (tk_laid _ _ Htab) entries_stored He) as [Ho Hb].
  rewrite (tk_total _ _ Htab) in Hb. pose proof body_len_u64 as [_ Hu].
  split; [|apply wrap64_id; unfold is_u64; lia].
  unfold chunk_start in *. destruct (chunk_size (vd_header d)); [|done]. apply wrap64_id. unfold is_u64. lia.
Qed.

(** The running hash after the chunk. *)
Lemma track_identity_ok R v i e s bytes :
  receiving policy d R v → stream_open v → vd_entries d !! i = Some e → sv_segs v !! i = Some s →
  admitted R v e s (sg_next s) bytes →
  let c := released_chunk e s bytes in
  let v1 := track_identity bytes (vc_body_offset c) v in
  same_segments v v1 ∧ sv_state v1 = sv_state v ∧ identity_ok d (R ++ [c]) v1.
Proof.
  intros H Hopen He Hs Hadm c v1. split; [by unfold v1, track_identity; destruct (sv_identity v); [destruct (_ && _)|]|].
  split; [by unfold v1, track_identity; destruct (sv_identity v); [destruct (_ && _)|]|].
  pose proof (rv_identity _ _ _ _ H) as Hid. unfold identity_ok in *. unfold v1, track_identity.
  destruct (sv_identity v) as [t|] eqn:Et.
  - destruct Hid as [Hp Hid]. destruct (it_feasible t && (it_pos t =? vc_body_offset c)) eqn:E; cbn; [|done].
    apply andb_true_iff in E as [Ef Epos%Z.eqb_eq]. destruct (Hid Ef) as (Hh & Hpos & Hord).
    split; [done|]. intros _. rewrite released_bytes_snoc, Hh. split; [done|]. split; [|apply in_body_order_snoc; [done|lia]].
    rewrite length_app, Nat2Z.inj_add, Hpos. cbn [vc_bytes c released_chunk].
    rewrite (rv_released _ _ _ _ H), (rv_verified _ _ _ _ H).
    pose proof (advanced_verified R v i e s bytes H He Hs Hadm) as Hle.
    pose proof body_len_u64 as [_ Hu]. apply wrap64_id. unfold is_u64.
    rewrite <-(rv_verified _ _ _ _ H), <-(rv_released _ _ _ _ H) in *. lia.
  - rewrite Et. intros Hp. specialize (Hid Hp). by destruct Hopen as [Ho|Ho]; rewrite Ho in Hid.
Qed.

(** The verdict on the chunk that completes the stream. *)
Lemma completion_status_ok R v1 extra :
  sv_desc v1 = Some d → identity_ok d R v1 → stream_open v1 →
  sv_verified_bytes v1 + extra = dh_body_len (vd_header d) →
  ∃ verdict, completion_status extra v1 = Some verdict ∧
    match verdict with
    | Ok IdVerified => in_body_order R ∧ sha256 (released_bytes R) = dh_rvf_identity (vd_header d)
    | Ok IdNotPresent => ¬ has_identity d
    | Ok IdUnverifiable => has_identity d
    | Err _ => True
    end.
Proof.
  intros Hd Hid Hopen Hlen. unfold completion_status. rewrite Hd. cbn. eexists. split; [done|].
  rewrite Hlen, wrap64_id, Z.eqb_refl by apply body_len_u64. cbn. unfold identity_ok in Hid.
  destruct (sv_identity v1) as [t|].
  - destruct Hid as [Hp Hid]. destruct (it_feasible t && _) eqn:E; [|done]. apply andb_true_iff in E as [Ef _].
    destruct (Hid Ef) as (Hh & _ & Ho). rewrite Hh. destruct (ct_eq _ _) eqn:Ec; [|done]. by apply ct_eq_spec in Ec.
  - intros Hp. specialize (Hid Hp). by destruct Hopen as [Ho|Ho]; rewrite Ho in Hid.
Qed.

(** The state once the records of the segment and of its stage have moved on. *)
Definition advanced_state (v v1 : StreamVerifier) (i : nat) (s : SegState) (v2 : StreamVerifier) : Prop :=
  sv_policy v2 = policy ∧ sv_desc v2 = Some d ∧
  sv_segs v2 = <[i := advanced s]> (sv_segs v) ∧ length (sv_stage_remaining v2) = MAX_STAGES ∧
  (∀ st r, sv_stage_remaining v2 !! st = Some r → r = zsum (open_in st) (advanced_slots v i s)) ∧
  sv_left v2 = zsum seg_open (advanced_slots v i s) ∧ sv_verified_bytes v2 = sv_verified_bytes v ∧
  sv_identity v2 = sv_identity v1 ∧ sv_state v2 = sv_state v1.

Lemma wp_advance_segment R v v1 i e s bytes :
  receiving policy d R v → vd_entries d !! i = Some e → sv_segs v !! i = Some s →
  admitted R v e s (sg_next s) bytes → same_segments v v1 →
  wp (advance_segment i s e (completes s)) (λ r v2, is_ok r = true ∧ advanced_state v v1 i s v2) v1.
Proof.
  intros H He Hs Hadm (Hp & Hd & Hsegs & Hrem & Hleft & Hver).
  destruct (admitted_next R v i e s bytes H He Hs Hadm) as (Hn & H0 & _).
  assert (wrap32 (sg_next s + 1) = sg_next s + 1) as Hw by (apply wrap32_id; unfold is_u32; lia).
  pose proof (λ st, advanced_open_in R v i e s bytes He Hs Hadm st) as Hopen_in.
  pose proof (advanced_open R v i e s bytes He Hs Hadm) as Hopen.
  unfold advance_segment, advanced_state. rewrite Hw. destruct (completes s) eqn:Ec; cbn [andb] in Hopen_in.
  - destruct (entry_facts R v i e s H He Hs) as (_ & Ha & _). pose proof (ea_stage _ _ _ Ha) as Hst.
    set (st := Z.to_nat (de_stage e)).
    destruct (lookup_lt_is_Some_2 (sv_stage_remaining v) st) as [r Hr]; [rewrite (rv_stages _ _ _ _ H); lia|].
    pose proof (rv_stage _ _ _ _ H st r Hr) as Hrz.
    assert (length (zip (vd_entries d) (sv_segs v)) = length (vd_entries d)) as Hzip
      by (rewrite length_zip_with, (rv_length _ _ _ _ H); lia).
    pose proof entries_few as Hfew.
    assert (∀ f : Slot → Z, (∀ p, 0 ≤ f p ≤ 1) → 0 ≤ zsum f (advanced_slots v i s)) as Hnn
      by (intros f Hf; apply zsum_nonneg; intros p _; apply Hf).
    assert (∀ st p, 0 ≤ open_in st p ≤ 1) as Hin01
      by (intros st' p; unfold open_in; destruct (sg_done p.2), (de_stage p.1 =? Z.of_nat st'); lia).
    assert (∀ p, 0 ≤ seg_open p ≤ 1) as Hop01 by (intros p; unfold seg_open; destruct (sg_done p.2); lia).
    pose proof (zsum_open_le _ (zip (vd_entries d) (sv_segs v)) (Hin01 st)).
    pose proof (zsum_open_le _ (zip (vd_entries d) (sv_segs v)) Hop01).
    pose proof (Hnn _ (Hin01 st)) as Hnn1. pose proof (Hnn _ Hop01) as Hnn2.
    specialize (Hopen_in st) as Hrn. rewrite (proj2 (Z.eqb_eq _ _)) in Hrn by lia.
    unfold wp. cbv beta zeta. fold st. rewrite Hrem, Hr. cbn. split; [done|]. rewrite Hsegs, Hleft, (rv_left _ _ _ _ H).
    rewrite (wrap32_id (r - 1)) by (unfold is_u32; lia).
    rewrite (wrap64_id (_ - 1)) by (unfold is_u64, u64_max, u32_max in *; lia).
    split_and!; [by rewrite Hp, (rv_policy _ _ _ _ H)|by rewrite Hd, (rv_desc _ _ _ _ H)| | | |lia|done|done|done].
    + unfold advanced. by rewrite Ec.
    + rewrite length_insert. apply H.
    + intros st' r' [(<- & <- & _)|(Hne & Hr')]%list_lookup_insert_Some; [lia|].
      rewrite (rv_stage _ _ _ _ H st' r' Hr'), Hopen_in. destruct (de_stage e =? Z.of_nat st') eqn:E; [|lia].
      apply Z.eqb_eq in E. destruct Hne. lia.
  - cbn. split; [done|]. rewrite Hsegs, Hrem, Hleft, Hopen, (rv_left _ _ _ _ H).
    split_and!; [by rewrite Hp, (rv_policy _ _ _ _ H)|by rewrite Hd, (rv_desc _ _ _ _ H)| |apply H| |lia|done|done|done].
    + unfold advanced. rewrite Ec. by destruct Hadm as (-> & _).
    + intros st r Hr. rewrite (rv_stage _ _ _ _ H st r Hr), Hopen_in. lia.
Qed.

(** The records after a chunk, with the verdict when there is one. *)
Lemma wp_advance R v v1 i e s bytes (complete : option IdentityStatus) :
  receiving policy d R v → stream_open v → vd_entries d !! i = Some e → sv_segs v !! i = Some s →
  admitted R v e s (sg_next s) bytes →
  let c := released_chunk e s bytes in
  same_segments v v1 → sv_state v1 = sv_state v → identity_ok d (R ++ [c]) v1 →
  (∀ st, complete = Some st → zsum seg_open (advanced_slots v i s) = 0 ∧
     match st with
     | IdVerified => in_body_order (R ++ [c]) ∧ sha256 (released_bytes (R ++ [c])) = dh_rvf_identity (vd_header d)
     | IdNotPresent => ¬ has_identity d
     | IdUnverifiable => has_identity d
     end) →
  wp (let* stage := advance_segment i s e (completes s) in
      rput (account_chunk (Z.of_nat (length bytes)) complete) ;*
      rret (EvChunk c (completes s) stage complete))
    (λ r v', ∃ stage, r = Ok (EvChunk c (completes s) stage complete) ∧ receiving policy d (R ++ [c]) v' ∧
       match complete with
       | Some st => sv_identity_status v' = Some st ∧ (sv_state v' = StComplete ∨ sv_state v' = StCompleteUnverified)
       | None => stream_open v'
       end) v1.
Proof.
  intros H Hopen He Hs Hadm c Hsame Hstate Hid Hcomp.
  destruct (advanced_verified R v i e s bytes H He Hs Hadm) as [Hcov Hle]. pose proof body_len_u64 as [_ Hu].
  apply wp_bind. eapply wp_mono; [by apply (wp_advance_segment R v v1 i e s bytes)|].
  intros [stage|] v2 [Hok HQ]; [|done]. destruct HQ as (Q1 & Q2 & Q3 & Q4 & Q5 & Q6 & Q7 & Q8 & Q9).
  apply wp_bind. cbn. exists stage. split; [done|]. split.
  2: { destruct complete as [[]|]; cbn; [by auto..|]. unfold stream_open. cbn. by rewrite Q9, Hstate. }
  assert (wrap64 (sv_verified_bytes v2 + Z.of_nat (length bytes)) = sv_verified_bytes v + Z.of_nat (length bytes)) as Hwv.
  { rewrite Q7. apply wrap64_id. unfold is_u64. rewrite <-(rv_released _ _ _ _ H) in *. lia. }
  apply (released_receiving R v i e s bytes H He Hs Hadm); destruct complete as [st|]; cbn; try done.
  - unfold identity_ok. cbn. by destruct st.
  - unfold identity_ok in *. cbn. by rewrite Q8, Q9.
  - unfold verdict_ok. cbn. rewrite Q3. destruct (Hcomp st eq_refl) as [Hz Hst]. by destruct st; split; try done; eexists.
  - unfold verdict_ok. cbn. rewrite Q9, Hstate. by destruct Hopen as [-> | ->].
Qed.

Lemma wp_release_chunk R v i e s bytes :
  receiving policy d R v → stream_open v → vd_entries d !! i = Some e → sv_segs v !! i = Some s →
  admitted R v e s (sg_next s) bytes → Forall is_byte bytes →
  wp (release_chunk i (de_seg_id e) (sg_next s) bytes) (keeps_receiving R) v.
Proof.
  intros H Hopen He Hs Hadm Hbytes. set (c := released_chunk e s bytes).
  destruct (body_offset_exact R v i e s bytes H He Hs Hadm) as [Hoff Hboff].
  destruct (admitted_next R v i e s bytes H He Hs Hadm) as (Hn & H0 & _).
  assert (wrap32 (sg_next s + 1) = sg_next s + 1) as Hw by (apply wrap32_id; unfold is_u32; lia).
  destruct (track_identity_ok R v i e s bytes H Hopen He Hs Hadm) as (Hsame & Hstate & Hid).
  fold c in Hsame, Hstate, Hid.
  unfold release_chunk. apply wp_bind. eapply wp_installed; [done|]. apply wp_bind. apply wp_some with e; [done|].
  cbv zeta. rewrite Hoff, Hboff. apply wp_bind. eapply wp_segment; [done..|]. rewrite Hw. fold (completes s).
  apply wp_bind. cbn [wp rget]. apply wp_bind. cbn [wp rput].
  change (de_body_offset e + chunk_start (vd_header d) (sg_next s)) with (vc_body_offset c).
  set (v1 := track_identity bytes (vc_body_offset c) v) in *. fold c.
  assert (stream_open v1) as Hopen1 by (unfold stream_open; by rewrite Hstate).
  pose proof Hsame as (_ & Hd1 & _ & _ & _ & Hver1).
  apply wp_bind. apply wp_mono with (λ r v', match r with
    | Ok complete => v' = v1 ∧ ∀ st, complete = Some st → zsum seg_open (advanced_slots v i s) = 0 ∧
        match st with
        | IdVerified => in_body_order (R ++ [c]) ∧ sha256 (released_bytes (R ++ [c])) = dh_rvf_identity (vd_header d)
        | IdNotPresent => ¬ has_identity d
        | IdUnverifiable => has_identity d
        end
    | Err _ => receiving policy d R v'
    end).
  { destruct (completes s && (sv_left v =? 1)) eqn:Ec; [|by split].
    apply andb_true_iff in Ec as [Ec El%Z.eqb_eq].
    assert (zsum seg_open (advanced_slots v i s) = 0) as Hz.
    { rewrite (advanced_open R v i e s bytes He Hs Hadm), Ec, <-(rv_left _ _ _ _ H). lia. }
    assert (sv_verified_bytes v1 + Z.of_nat (length bytes) = dh_body_len (vd_header d)) as Hall.
    { rewrite Hver1, (proj1 (advanced_verified R v i e s bytes H He Hs Hadm)).
      apply covered_all; [|done]. rewrite length_insert. apply H. }
    destruct (completion_status_ok (R ++ [c]) v1 (Z.of_nat (length bytes))) as (verdict & Hv & Hok);
      [by rewrite Hd1, (rv_desc _ _ _ _ H)|done|done|done|].
    apply wp_bind. cbn [wp rget]. apply wp_bind. rewrite Hv. cbn [wp rsome mbind option_bind].
    destruct verdict as [st|err].
    - cbn. split; [done|]. intros ? [= <-]. by split.
    - cbn. unfold poison_at. destruct Hopen1 as [-> | ->]; by apply (receiving_same _ _ _ v). }
  intros [complete|err] v'; [|apply keeps_nothing]. intros [-> Hcomp].
  eapply wp_mono; [by apply (wp_advance R v v1 i e s bytes complete)|].
  intros r v2 (stage & -> & Hrec & Hst). split; [done|]. exists e. split_and!.
  - by eapply released_authentic.
  - by eapply released_finished.
  - done.
  - destruct complete as [st|]; [done|]. by destruct Hst as [-> | ->].
Qed.

Lemma wp_on_chunk R v f :
  receiving policy d R v → stream_open v → Forall is_byte f → wp (on_chunk f) (keeps_receiving R) v.
Proof.
  intros H Hopen Hf. unfold on_chunk. destruct (_ <? 17)%nat eqn:E17; [refuse|]. split_bool. destruct (negb _); [refuse|].
  apply wp_bind. cbn [wp rget]. destruct (find_segment _ v) as [i|] eqn:Ef; [|refuse].
  destruct (find_segment_some R v _ i H Ef) as (e & s & He & Hs & Hid).
  destruct (entry_facts R v i e s H He Hs) as (Hok & _ & _). pose proof (so_next _ _ _ _ Hok) as Hn.
  apply wp_bind. eapply wp_segment; [done..|].
  pose proof (read_le_range 9 4 f Hf ltac:(lia)) as [Hidx _].
  destruct (_ <? sg_next s) eqn:E; split_bool; [by eapply wp_on_duplicate_chunk|].
  apply wp_bind. rewrite <-Hid. eapply wp_mono; [by eapply wp_admit_chunk|].
  intros [[]|err] v'; [|apply keeps_nothing]. intros [-> Hadm].
  pose proof (proj1 (proj2 Hadm)) as Hnext. rewrite Hnext in Hadm |- *. apply wp_release_chunk; [done..|by apply Forall_drop].
Qed.

Lemma wp_receive_frame R v f :
  receiving policy d R v → stream_open v → Forall is_byte f → wp (receive_frame f) (keeps_receiving R) v.
Proof.
  intros H Hopen Hf. unfold receive_frame.
  destruct f as [|[|[p|p|]|p] f]; try refuse.
  - by apply wp_on_descriptor_again.
  - destruct p; try refuse. by apply wp_on_chunk_table.
  - by apply wp_on_chunk.
Qed.

Lemma reopened R v : receiving policy d R v → (stream_open v ∨ sv_state v = StSuspended) →
  ∀ st, (st = StReceiving ∨ st = StSuspended) → receiving policy d R (set_sv_state st v).
Proof.
  intros H Hopen st Hst. apply (receiving_same _ _ _ v); [done|done| |by destruct Hst as [-> | ->]].
  pose proof (rv_identity _ _ _ _ H) as Hid. unfold identity_ok in *. cbn.
  destruct (sv_identity v); [done|]. intros Hp. specialize (Hid Hp).
  by destruct Hopen as [[Ho|Ho]|Ho]; rewrite Ho in Hid.
Qed.

Lemma wp_stream_receive R v f :
  receiving policy d R v → Forall is_byte f → wp (stream_receive f) (keeps_receiving R) v.
Proof.
  intros H Hf. unfold stream_receive, wp. pose proof (rv_verdict _ _ _ _ H) as Hv. unfold verdict_ok in Hv.
  assert (stream_open v → match ('(r, v0) ← receive_frame f v;
       Some (r, match r, sv_state v0 with Ok _, StReady => set_sv_state StReceiving v0 | _, _ => v0 end)) with
    | Some (r, v0) => keeps_receiving R r v0 | None => False end) as Hgo.
  { intros Hopen. pose proof (wp_receive_frame R v f H Hopen Hf) as Hw. unfold wp in Hw.
    destruct (receive_frame f v) as [[r v1]|]; [|done]. cbn.
    destruct r as [ev|err]; [|done]. destruct (sv_state v1) eqn:E; try done. destruct Hw as [Hrec Hev].
    split; [apply reopened; [done|by left; left|by left]|]. destruct ev as [| | | | |c fin stage [st|]]; try done; cbn in *.
    - destruct Hev as (e & _ & _ & _ & _ & [E'|E']); congruence.
    - destruct Hev as (e & ? & ? & ? & _). by exists e. }
  destruct (sv_state v) eqn:E; try done; try by apply keeps_nothing.
  - apply Hgo. by left.
  - apply Hgo. by right.
Qed.

Lemma end_of_input_receiving R v : receiving policy d R v → receiving policy d R (end_of_input v).
Proof.
  intros H. unfold end_of_input. destruct (sv_state v) eqn:E; try done; apply reopened; try done.
  all: unfold stream_open; tauto.
Qed.

Lemma resume_receiving R v : receiving policy d R v → receiving policy d R (stream_resume v).2.
Proof.
  intros H. unfold stream_resume. destruct (sv_state v) eqn:E; try done; apply reopened; try done; tauto.
Qed.
End installed.

(* ------------------------------------------------------------------ *)
(** ** Installing the descriptor *)

Definition fresh_segment (h : StreamHeader) (e : StreamEntry) : SegState :=
  mkSegState (default 1 (chunk_count (de_stored_len e) h)) 0 None false.
Definition stage_size (st : nat) (es : list StreamEntry) : Z :=
  zsum (λ e, if de_stage e =? Z.of_nat st then 1 else 0) es.

Lemma stage_size_bound st es : 0 ≤ stage_size st es ≤ Z.of_nat (length es).
Proof.
  induction es as [|e es IH]; [cbn; lia|]. cbn [length].
  change (stage_size st (e :: es)) with ((if de_stage e =? Z.of_nat st then 1 else 0) + stage_size st es).
  destruct (_ =? _); lia.
Qed.

Lemma install_entries h es :
  Forall (λ e, 0 ≤ de_stage e < Z.of_nat MAX_STAGES) es → Z.of_nat (length es) ≤ u32_max →
  ∃ remaining mc mt, foldl (install_entry h) ([], replicate MAX_STAGES 0, 0, 0) es =
      (fresh_segment h <$> es, remaining, mc, mt) ∧ length remaining = MAX_STAGES ∧
    ∀ st r, remaining !! st = Some r → r = stage_size st es.
Proof.
  induction es as [|e es IH] using rev_ind; intros Hst Hlen.
  - exists (replicate MAX_STAGES 0), 0, 0. split_and!; [done|done|]. intros st r [-> _]%lookup_replicate. done.
  - apply Forall_app in Hst as [Hst He]. apply Forall_cons_1 in He as [He _]. rewrite length_app in Hlen. cbn in Hlen.
    destruct (IH Hst) as (rem & mc & mt & Hf & Hrl & Hr); [lia|].
    rewrite foldl_app, Hf. cbn. eexists _, _, _. split; [by rewrite fmap_app|]. rewrite length_insert. split; [done|].
    intros st r Hl. unfold stage_size. rewrite zsum_app. fold (stage_size st es). cbn.
    apply list_lookup_insert_Some in Hl as [(<- & <- & Hlt)|(Hne & Hl)].
    + destruct (lookup_lt_is_Some_2 rem (Z.to_nat (de_stage e))) as [r0 Hr0]; [done|]. rewrite Hr0. cbn.
      rewrite (Hr _ _ Hr0), Z2Nat.id, Z.eqb_refl by lia. pose proof (stage_size_bound (Z.to_nat (de_stage e)) es).
      rewrite wrap32_id by (unfold is_u32; lia). lia.
    + rewrite (Hr _ _ Hl). destruct (de_stage e =? Z.of_nat st) eqn:E; [|lia]. apply Z.eqb_eq in E. destruct Hne. lia.
Qed.

(** A receiver that has no descriptor. *)
Definition waiting (policy : StreamPolicy) (v : StreamVerifier) : Prop :=
  sv_policy v = policy ∧ sv_desc v = None ∧
  match sv_state v with
  | StAwaitDescriptor => v = stream_verifier_new policy
  | StRejected _ | StPoisoned _ => True
  | _ => False
  end.

Lemma zsum_zip_fmap (f : Slot → Z) (g : StreamEntry → SegState) es :
  zsum f (zip es (g <$> es)) = zsum (λ e, f (e, g e)) es.
Proof. induction es as [|e es IH]; [done|]. cbn. unfold zsum in IH. by rewrite <-IH. Qed.

Lemma zsum_const {A} (f : A → Z) (k : Z) l : (∀ x, f x = k) → zsum f l = k * Z.of_nat (length l).
Proof. intros H. induction l as [|x l IH]; [cbn; lia|]. cbn [length]. change (f x + zsum f l = k * Z.of_nat (S (length l))). rewrite H. lia. Qed.

Lemma fresh_receiving policy d v :
  stream_table_ok policy d → stream_header_wf (vd_header d) →
  sv_policy v = policy → sv_desc v = Some d → sv_segs v = fresh_segment (vd_header d) <$> vd_entries d →
  length (sv_stage_remaining v) = MAX_STAGES →
  (∀ st r, sv_stage_remaining v !! st = Some r → r = stage_size st (vd_entries d)) →
  sv_left v = Z.of_nat (length (vd_entries d)) → sv_verified_bytes v = 0 → sv_state v = StReady →
  (match sv_identity v with Some t => has_identity d ∧ t = identity_tracker_new | None => ¬ has_identity d end) →
  receiving policy d [] v.
Proof.
  intros Htab Hwf Hp Hd Hsegs Hlen Hst Hleft Hver Hstate Hid.
  split; try done; rewrite ?Hsegs, ?Hleft, ?Hver.
  - by rewrite length_fmap.
  - intros i e s He Hs. rewrite list_lookup_fmap, He in Hs. injection Hs as <-.
    pose proof (Forall_lookup_1 _ _ _ _ (tk_entries _ _ Htab) He) as Ha.
    destruct (ea_count _ _ _ Ha) as (n & Hn & _). destruct (ea_stored _ _ _ Ha) as [Hs _].
    destruct (chunk_geometry _ _ _ Hwf Hs Hn) as [Hn1 _]. unfold fresh_segment. rewrite Hn. cbn.
    split; cbn; try done; [lia|]. split; [done|lia].
  - intros st r Hr. rewrite (Hst st r Hr), zsum_zip_fmap. done.
  - rewrite zsum_zip_fmap. symmetry. rewrite (zsum_const _ 1); [lia|done].
  - intros R1 c R2 Hsplit; by destruct R1.
  - rewrite zsum_zip_fmap. symmetry. rewrite (zsum_const _ 0); [lia|]. intros e. apply chunk_len_zero.
  - unfold identity_ok. destruct (sv_identity v) as [t|]; [|done]. destruct Hid as [Hp' ->]. split; [done|].
    intros _. split_and!; [done|done|]. intros R1 c R2 Hsplit; by destruct R1.
  - unfold verdict_ok. by rewrite Hstate.
Qed.

(** A frame to a receiver without a descriptor. *)
Lemma wp_first_frame policy v f :
  waiting policy v → Forall is_byte f →
  wp (stream_receive f) (λ r v', released_by r = [] ∧
    ((is_ok r = false ∧ waiting policy v') ∨
     ∃ d, decode_descriptor (drop 5 f) policy = Ok d ∧ receiving policy d [] v' ∧ sv_state v' = StReady ∧
       r = Ok (EvDescriptorVerified (vd_descriptor_hash d) (dh_seg_count (vd_header d)) (dh_body_len (vd_header d))))) v.
Proof.
  intros (Hp & Hd & Hst) Hf. unfold wp, stream_receive.
  destruct (sv_state v) eqn:E; try done.
  2, 3: split; [done|]; left; split; [done|]; split_and!; [done|done|by rewrite E].
  subst v. destruct (_ || negb (format_byte_at f 0 =? _)); [by split; [|left; split_and!]|].
  destruct (negb _); [by split; [|left; split_and!]|].
  unfold install_descriptor. cbn [sv_policy stream_verifier_new].
  destruct (decode_descriptor (drop 5 f) policy) as [d|err] eqn:Ed; [|by split; [|left; split_and!]].
  assert (Forall is_byte (drop 5 f)) as Hf' by (by apply Forall_drop).
  destruct (decode_descriptor_accepted _ _ _ Hf' Ed) as [Htab _ Hwf _ _ _ _ _ _ _ _].
  destruct (install_entries (vd_header d) (vd_entries d)) as (rem & mc & mt & Hfold & Hlen & Hrem).
  { eapply Forall_impl; [apply Htab|]. intros e He. apply He. }
  { rewrite (tk_count _ _ Htab). pose proof (xh_count _ Hwf). lia. }
  cbn [sv_segs sv_stage_remaining sv_max_chunk_len sv_max_table_payload stream_verifier_new].
  rewrite Hfold. split; [done|]. right. exists d. split; [done|]. split; [|done].
  apply fresh_receiving; try done. cbn. unfold has_identity.
  destruct (_ =? 0) eqn:Ez; split_bool; [|done]. intros Hne. done.
Qed.

(* ------------------------------------------------------------------ *)
(** ** Histories of a receiver *)

Inductive StreamCall : Set :=
| ScFrame (f : list Z)
| ScEnd
| ScResume
| ScPoison (reason : StreamError).

Definition call_bytes (c : StreamCall) : Prop := match c with ScFrame f => Forall is_byte f | _ => True end.

(** The chunks released and the new state; [None] is a panic. *)
Definition stream_call (c : StreamCall) (v : StreamVerifier) : option (list VerifiedChunk * StreamVerifier) :=
  match c with
  | ScFrame f => '(r, v) ← stream_receive f v; Some (released_by r, v)
  | ScEnd => Some ([], end_of_input v)
  | ScResume => Some ([], (stream_resume v).2)
  | ScPoison reason => Some ([], poison reason v)
  end.

Fixpoint stream_calls (cs : list StreamCall) (v : StreamVerifier) : option (list VerifiedChunk * StreamVerifier) :=
  match cs with
  | [] => Some ([], v)
  | c :: cs => '(R, v) ← stream_call c v; '(R', v) ← stream_calls cs v; Some (R ++ R', v)
  end.

Lemma stream_calls_app cs1 cs2 v :
  stream_calls (cs1 ++ cs2) v = ('(R, v) ← stream_calls cs1 v; '(R', v) ← stream_calls cs2 v; Some (R ++ R', v)).
Proof.
  revert v. induction cs1 as [|c cs1 IH]; intros v; cbn.
  - by destruct (stream_calls cs2 v) as [[R v1]|].
  - destruct (stream_call c v) as [[R v1]|]; [cbn|done]. rewrite IH.
    destruct (stream_calls cs1 v1) as [[R1 v2]|]; [cbn|done].
    destruct (stream_calls cs2 v2) as [[R2 v3]|]; [cbn|done]. by rewrite app_assoc.
Qed.

(** Either no descriptor was accepted and nothing released, or the one of some
    frame was and everything released is authentic. *)
Definition stream_history_ok (policy : StreamPolicy) (cs : list StreamCall) (R : list VerifiedChunk) (v : StreamVerifier)
    : Prop :=
  (R = [] ∧ waiting policy v) ∨
  ∃ f d, ScFrame f ∈ cs ∧ Forall is_byte f ∧ decode_descriptor (drop 5 f) policy = Ok d ∧ receiving policy d R v.

Lemma accepted_parts policy f d : Forall is_byte f → decode_descriptor (drop 5 f) policy = Ok d →
  stream_table_ok policy d ∧ stream_header_wf (vd_header d).
Proof.
  intros Hf Hd. assert (Forall is_byte (drop 5 f)) as Hf' by (by apply Forall_drop).
  by destruct (decode_descriptor_accepted _ _ _ Hf' Hd).
Qed.

Lemma waiting_end policy v : waiting policy v → end_of_input v = v.
Proof. intros (_ & _ & H). unfold end_of_input. by destruct (sv_state v). Qed.
Lemma waiting_resume policy v : waiting policy v → (stream_resume v).2 = v.
Proof. intros (_ & _ & H). unfold stream_resume. by destruct (sv_state v). Qed.
Lemma waiting_poison policy v reason : waiting policy v → waiting policy (poison reason v).
Proof.
  intros (Hp & Hd & H). unfold poison, poison_at, force_poison. unfold waiting. 
  destruct (sv_state v) eqn:E; try done; by rewrite ?E.
Qed.

Lemma stream_call_ok policy cs R v c :
  stream_history_ok policy cs R v → call_bytes c →
  ∃ R' v', stream_call c v = Some (R', v') ∧ stream_history_ok policy (cs ++ [c]) (R ++ R') v'.
Proof.
  intros [[-> Hw]|(f & d & Hin & Hf & Hd & H)] Hc.
  - destruct c as [g| | |reason]; cbn.
    + pose proof (wp_first_frame policy v g Hw Hc) as Hfirst. unfold wp in Hfirst.
      destruct (stream_receive g v) as [[r v']|]; [|done]. cbn. destruct Hfirst as [Hr Hor].
      exists (released_by r), v'. split; [done|]. rewrite Hr. destruct Hor as [[_ Hw']|(d & Hd & H & _)].
      * by left.
      * right. exists g, d. split_and!; try done. apply elem_of_app. right. by apply list_elem_of_singleton.
    + eexists _, _. split; [done|]. left. split; [done|]. by rewrite (waiting_end policy v Hw).
    + eexists _, _. split; [done|]. left. split; [done|]. by rewrite (waiting_resume policy v Hw).
    + eexists _, _. split; [done|]. left. split; [done|]. by apply waiting_poison.
  - destruct (accepted_parts policy f d Hf Hd) as [Htab Hwf].
    assert (∀ R' v', receiving policy d (R ++ R') v' → stream_history_ok policy (cs ++ [c]) (R ++ R') v') as Hdone.
    { intros R' v' H'. right. exists f, d. split_and!; try done. apply elem_of_app. by left. }
    destruct c as [g| | |reason]; cbn.
    + pose proof (wp_stream_receive policy d Htab Hwf R v g H Hc) as Hrec. unfold wp in Hrec.
      destruct (stream_receive g v) as [[r v']|]; [|done]. cbn. destruct Hrec as [Hrec _]. eauto.
    + eexists _, _. split; [done|]. apply Hdone. rewrite app_nil_r. by apply end_of_input_receiving.
    + eexists _, _. split; [done|]. apply Hdone. rewrite app_nil_r. by apply resume_receiving.
    + eexists _, _. split; [done|]. apply Hdone. rewrite app_nil_r. by apply poison_at_receiving.
Qed.

Lemma stream_calls_ok policy cs :
  Forall call_bytes cs →
  ∃ R v, stream_calls cs (stream_verifier_new policy) = Some (R, v) ∧ stream_history_ok policy cs R v.
Proof.
  induction cs as [|c cs IH] using rev_ind; intros Hc.
  - eexists _, _. split; [done|]. left. by split_and!.
  - apply Forall_app in Hc as [Hcs Hc]. apply Forall_cons_1 in Hc as [Hc _].
    destruct (IH Hcs) as (R & v & Hrun & Hok).
    destruct (stream_call_ok policy cs R v c Hok Hc) as (R' & v' & Hcall & Hok').
    exists (R ++ R'), v'. rewrite stream_calls_app, Hrun. cbn. rewrite Hcall. cbn. by rewrite app_nil_r.
Qed.

(** C9: Whatever frames arrive, in whatever order and however damaged, the
    receiver never panics; what it has released is, chunk by chunk, what the
    accepted descriptor commits to, each the next of its segment, with every
    stage it requires released before it; without a descriptor it releases
    nothing. *)
Theorem receiver_releases_authentic policy cs :
  Forall call_bytes cs →
  ∃ R v, stream_calls cs (stream_verifier_new policy) = Some (R, v) ∧
    match sv_desc v with
    | None => R = []
    | Some d => (∃ f, ScFrame f ∈ cs ∧ decode_descriptor (drop 5 f) policy = Ok d) ∧ releases_ok d R
    end.
Proof.
  intros Hcs. destruct (stream_calls_ok policy cs Hcs) as (R & v & Hrun & Hok). exists R, v. split; [done|].
  destruct Hok as [[-> (_ & -> & _)]|(f & d & Hin & _ & Hd & H)]; [done|].
  rewrite (rv_desc _ _ _ _ H). split; [by exists f|apply H].
Qed.

(** C10: A stream that has completed has released every chunk of every segment,
    as many bytes as the descriptor declares; with a verified identity these
    bytes came in body order and their SHA-256 is the signed identity of the
    package; an absent identity means the descriptor carries none. *)
Theorem completed_stream_is_the_body policy cs R v d :
  Forall call_bytes cs → stream_calls cs (stream_verifier_new policy) = Some (R, v) → sv_desc v = Some d →
  sv_state v = StComplete ∨ sv_state v = StCompleteUnverified →
  (∀ e, e ∈ vd_entries d → finished d R e) ∧
  Z.of_nat (length (released_bytes R)) = dh_body_len (vd_header d) ∧
  ∃ status, sv_identity_status v = Some status ∧ (status = IdUnverifiable ↔ sv_state v = StCompleteUnverified) ∧
    match status with
    | IdVerified => in_body_order R ∧ sha256 (released_bytes R) = dh_rvf_identity (vd_header d)
    | IdNotPresent => ¬ has_identity d
    | IdUnverifiable => has_identity d
    end.
Proof.
  intros Hcs Hrun Hd Hstate. destruct (stream_calls_ok policy cs Hcs) as (R' & v' & Hrun' & Hok).
  rewrite Hrun in Hrun'. injection Hrun' as <- <-.
  destruct Hok as [[_ (_ & Hnone & _)]|(f & d' & Hin & Hf & Hdec & H)]; [congruence|].
  pose proof (rv_desc _ _ _ _ H) as Hd'. rewrite Hd in Hd'. injection Hd' as <-.
  destruct (accepted_parts policy f d Hf Hdec) as [Htab Hwf].
  pose proof (rv_verdict _ _ _ _ H) as Hv. unfold verdict_ok in Hv.
  assert (zsum seg_open (zip (vd_entries d) (sv_segs v)) = 0 ∧ ∃ st, sv_identity_status v = Some st ∧
     (st = IdUnverifiable ↔ sv_state v = StCompleteUnverified) ∧
     match st with
     | IdVerified => in_body_order R ∧ sha256 (released_bytes R) = dh_rvf_identity (vd_header d)
     | IdNotPresent => ¬ has_identity d
     | IdUnverifiable => has_identity d
     end) as [Hz Hst] by (destruct Hstate as [E|E]; rewrite E in Hv |- *; exact Hv).
  split_and!; [| |done].
  - intros e He. apply (closed_finished policy d Htab R v); [done|done|]. intros i s Hi Hs.
    apply (zsum_zero _ _ (e, s)) in Hz; [|intros p _; apply seg_open_nonneg|].
    + unfold seg_open in Hz. cbn in Hz. by destruct (sg_done s).
    + eapply list_elem_of_lookup_2. apply lookup_zip_with_Some. eauto.
  - rewrite (rv_released _ _ _ _ H), (rv_verified _ _ _ _ H). apply (covered_all policy d Htab); [apply H|done].
Qed.

(** Two messages with the same hash. *)
Definition sha_collision : Prop := ∃ x y, x ≠ y ∧ sha256 x = sha256 y.

Lemma same_hash x y : sha256 x = sha256 y → x = y ∨ sha_collision.
Proof. intros H. destruct (decide (x = y)); [by left|right]. by exists x, y. Qed.

Lemma leaf_hash_binds file seg idx a b :
  length a = length b → leaf_hash file seg idx a = leaf_hash file seg idx b → a = b ∨ sha_collision.
Proof.
  intros Hl [Hp|]%same_hash; [left|by right]. unfold leaf_preimage in Hp. rewrite Hl in Hp. rewrite !app_assoc in Hp.
  by apply app_inv_head in Hp.
Qed.

Lemma table_hash_binds file seg a b h :
  length a = length b → chunk_list_hash_flat file seg a = Some h → chunk_list_hash_flat file seg b = Some h →
  a = b ∨ sha_collision.
Proof.
  intros Hl. unfold chunk_list_hash_flat. rewrite Hl. destruct (negb _); [done|]. destruct (_ <? _); [done|].
  intros Ha%(inj Some) Hb%(inj Some). rewrite <-Hb in Ha. apply same_hash in Ha as [Hp|]; [left|by right].
  rewrite !app_assoc in Hp. by apply app_inv_head in Hp.
Qed.

Lemma commits_to_binds d e idx a b :
  commits_to d e idx a → commits_to d e idx b → length a = length b → a = b ∨ sha_collision.
Proof.
  intros Ha Hb Hl.
  assert (∀ x n table, leaf_hash (dh_file_id (vd_header d)) (de_seg_id e) idx x = de_chunk_table_hash e →
    chunk_list_hash_flat (dh_file_id (vd_header d)) (de_seg_id e) table = Some (de_chunk_table_hash e) →
    chunk_count (de_stored_len e) (vd_header d) = Some n → sha_collision) as Htags.
  { intros x n table Hx Ht _. unfold chunk_list_hash_flat in Ht.
    destruct (negb _); [done|]. destruct (_ <? _); [done|]. injection Ht as Ht. rewrite <-Hx in Ht.
    eexists _, _. split; [|exact Ht]. unfold leaf_preimage. cbn. done. }
  destruct Ha as [[Hc Ha]|(n & ta & Hc & Hla & Hta & Ha)], Hb as [[Hc' Hb]|(n' & tb & Hc' & Hlb & Htb & Hb)].
  - apply (leaf_hash_binds (dh_file_id (vd_header d)) (de_seg_id e) idx); [done|congruence].
  - right. by eapply Htags.
  - right. by eapply Htags.
  - rewrite Hc in Hc'. injection Hc' as <-.
    destruct (table_hash_binds _ _ ta tb _ ltac:(lia) Hta Htb) as [->|]; [|by right].
    apply (leaf_hash_binds (dh_file_id (vd_header d)) (de_seg_id e) idx); [done|congruence].
Qed.

(** Under one descriptor there is one body: two chunks released at the same
    place of a segment, by any receivers whatever they were sent, are the same
    chunk, or two messages with the same SHA-256 are at hand. *)
Theorem released_chunks_unique policy1 policy2 cs1 cs2 R1 R2 v1 v2 d c1 c2 :
  Forall call_bytes cs1 → Forall call_bytes cs2 →
  stream_calls cs1 (stream_verifier_new policy1) = Some (R1, v1) →
  stream_calls cs2 (stream_verifier_new policy2) = Some (R2, v2) →
  sv_desc v1 = Some d → sv_desc v2 = Some d → c1 ∈ R1 → c2 ∈ R2 →
  vc_seg_id c1 = vc_seg_id c2 → vc_chunk_index c1 = vc_chunk_index c2 → c1 = c2 ∨ sha_collision.
Proof.
  intros Hcs1 Hcs2 Hrun1 Hrun2 Hd1 Hd2 Hc1 Hc2 Hseg Hidx.
  assert (∀ policy cs R v c, Forall call_bytes cs → stream_calls cs (stream_verifier_new policy) = Some (R, v) →
    sv_desc v = Some d → c ∈ R → stream_table_ok policy d ∧ ∃ e, authentic d e c) as Hhist.
  { intros policy cs R v c Hcs Hrun Hd Hc. destruct (stream_calls_ok policy cs Hcs) as (R' & v' & Hrun' & Hok).
    rewrite Hrun in Hrun'. injection Hrun' as <- <-.
    destruct Hok as [[-> _]|(f & d' & _ & Hf & Hdec & H)]; [by apply elem_of_nil in Hc|].
    pose proof (rv_desc _ _ _ _ H) as Hd'. rewrite Hd in Hd'. injection Hd' as <-.
    split; [apply (accepted_parts policy f d Hf Hdec)|].
    apply list_elem_of_split in Hc as (Ra & Rb & ->).
    destruct (ro_entry _ _ _ (rv_chunks _ _ _ _ H Ra c Rb eq_refl)) as (e & He & _). by exists e. }
  destruct (Hhist _ _ _ _ _ Hcs1 Hrun1 Hd1 Hc1) as (Htab & e1 & He1).
  destruct (Hhist _ _ _ _ _ Hcs2 Hrun2 Hd2 Hc2) as (_ & e2 & He2).
  assert (e1 = e2) as <-.
  { destruct (list_elem_of_lookup_1 _ _ (au_entry _ _ _ He1)) as (i & Hi).
    destruct (list_elem_of_lookup_1 _ _ (au_entry _ _ _ He2)) as (j & Hj).
    assert (i = j) as <-; [|congruence]. apply (tk_ids _ _ Htab i j e1 e2 Hi Hj).
    rewrite <-(au_segment _ _ _ He1), <-(au_segment _ _ _ He2). done. }
  destruct He1 as [_ Hs1 Ht1 Hl1 Ho1 Hb1 Hm1], He2 as [_ Hs2 Ht2 Hl2 Ho2 Hb2 Hm2].
  destruct c1 as [sg1 ty1 ix1 so1 bo1 by1], c2 as [sg2 ty2 ix2 so2 bo2 by2]. cbn in *. subst.
  rewrite Hl1 in Hl2. injection Hl2 as Hl2.
  destruct (commits_to_binds d e1 ix2 by1 by2 Hm1 Hm2 ltac:(lia)) as [->|]; [by left|by right].
Qed.

(* ------------------------------------------------------------------ *)
(** ** Confirming the identity from a persisted body *)

Section persisted.
Context {D : Type} (read_at : Z → Z → D → option (list Z) * D).

Definition READ_SIZE : Z := 65536.

(** [while done < len]: the bytes of one chunk, read in pieces; inside, [None]
    when the closure declines.  The outer [None] is the end of the fuel. *)
Fixpoint read_chunk (fuel : nat) (start done len : Z) (acc : list Z) (r : D) : option (option (list Z) * D) :=
  if done <? len then
    match fuel with
    | O => None
    | S fuel =>
        let k := Z.min (len - done) READ_SIZE in
        match read_at (start + done) k r with
        | (Some piece, r) => read_chunk fuel start (done + k) len (acc ++ piece) r
        | (None, r) => Some (None, r)
        end
    end
  else Some (Some acc, r).

(** [for idx in 0..n]: the leaves and the bytes of one segment. *)
Fixpoint read_segment (n : nat) (idx : Z) (h : StreamHeader) (e : StreamEntry) (leaves : list (list Z)) (acc : list Z)
    (r : D) : option (option (list (list Z) * list Z) * D) :=
  match n with
  | O => Some (Some (leaves, acc), r)
  | S n =>
      let len := default 0 (chunk_len (de_stored_len e) idx h) in
      let start := de_body_offset e + match chunk_size h with Some cs => idx * cs | None => 0 end in
      match read_chunk (S (Z.to_nat len)) start 0 len [] r with
      | Some (Some bytes, r) =>
          let leaf := sha256 ([LEAF_TAG] ++ dh_file_id h ++ le_bytes 8 (de_seg_id e) ++ le_bytes 4 idx ++
                              le_bytes 8 len ++ bytes) in
          read_segment n (idx + 1) h e (leaves ++ [leaf]) (acc ++ bytes) r
      | Some (None, r) => Some (None, r)
      | None => None
      end
  end.

(** [for (i, e) in entries.iter().enumerate()]: the hashed body, or the entry
    that does not match and why. *)
Fixpoint reread (entries : list StreamEntry) (segs : list SegState) (h : StreamHeader) (body : list Z) (r : D)
    : option (result (StreamError * option Z) (list Z) * D) :=
  match entries, segs with
  | [], _ => Some (Ok body, r)
  | e :: entries, s :: segs =>
      match read_segment (Z.to_nat (sg_n s)) 0 h e [] [] r with
      | Some (Some (leaves, bytes), r) =>
          got ← (if sg_n s =? 1 then leaves !! 0%nat else Some (chunk_list_hash (dh_file_id h) (de_seg_id e) leaves));
          if ct_eq got (de_chunk_table_hash e) then reread entries segs h (body ++ bytes) r
          else Some (Err (SeChunkHashMismatch, Some (de_seg_id e)), r)
      | Some (None, r) => Some (Err (SeBadState, None), r)
      | None => None
      end
  | _ :: _, [] => None
  end.

Definition finish_identity (r : D) (v : StreamVerifier) : option (StreamResult unit * StreamVerifier * D) :=
  if negb (bool_decide (sv_state v = StCompleteUnverified)) ||
     negb (bool_decide (sv_identity_status v = Some IdUnverifiable))
  then Some (Err SeBadState, v, r)
  else
    d ← sv_desc v;
    '(res, r) ← reread (vd_entries d) (sv_segs v) (vd_header d) [] r;
    Some
      (match res with
       | Err (SeChunkHashMismatch, seg) =>
           (Err SeChunkHashMismatch, force_poison SeChunkHashMismatch seg 0 v)
       | Err (e, _) => (Err e, v)
       | Ok body =>
           if ct_eq (sha256 body) (dh_rvf_identity (vd_header d)) then (Ok tt, set_sv_confirmed v)
           else (Err SeIdentityMismatch, force_poison SeIdentityMismatch None 0 v)
       end, r).

Context {SHL : Sha256Laws}.
(** [buf[..k]] is filled whole. *)
Context (read_fills : ∀ off k r piece r', read_at off k r = (Some piece, r') → Z.of_nat (length piece) = k).

Lemma read_chunk_ok fuel start done len acc r :
  (Z.to_nat (len - done) < fuel)%nat → 0 ≤ done ≤ len → Z.of_nat (length acc) = done →
  ∃ o r', read_chunk fuel start done len acc r = Some (o, r') ∧
    ∀ bytes, o = Some bytes → Z.of_nat (length bytes) = len.
Proof.
  revert done acc r. induction fuel as [|fuel IH]; intros dn acc r Hf Hd Ha; [lia|]. cbn.
  destruct (dn <? len) eqn:E; split_bool.
  - destruct (read_at _ _ r) as [[piece|] r1] eqn:Er; [|by exists None, r1].
    apply read_fills in Er. unfold READ_SIZE in *. apply IH; [lia..|rewrite length_app; lia].
  - exists (Some acc), r. split; [done|]. intros bytes [= <-]. lia.
Qed.

(** The bytes of a segment as they were read, cut into its chunks. *)
Definition reread_chunks (d : VerifiedDescriptor) (e : StreamEntry) (chunks : list (list Z)) : Prop :=
  chunk_count (de_stored_len e) (vd_header d) = Some (Z.of_nat (length chunks)) ∧
  ∀ idx c, chunks !! idx = Some c →
    chunk_len (de_stored_len e) (Z.of_nat idx) (vd_header d) = Some (Z.of_nat (length c)) ∧
    commits_to d e (Z.of_nat idx) c.

Lemma read_segment_ok d e n0 n chunks r :
  (∀ idx, 0 ≤ idx < n0 → ∃ len, chunk_len (de_stored_len e) idx (vd_header d) = Some len ∧ 0 < len) →
  Z.of_nat (length chunks) + Z.of_nat n = n0 →
  (∀ idx c, chunks !! idx = Some c → chunk_len (de_stored_len e) (Z.of_nat idx) (vd_header d) = Some (Z.of_nat (length c))) →
  let leaf idx c := leaf_hash (dh_file_id (vd_header d)) (de_seg_id e) (Z.of_nat idx) c in
  ∃ o r', read_segment n (Z.of_nat (length chunks)) (vd_header d) e (imap leaf chunks) (concat chunks) r = Some (o, r') ∧
    ∀ res, o = Some res → ∃ all, res = (imap leaf all, concat all) ∧ Z.of_nat (length all) = n0 ∧
      ∀ idx c, all !! idx = Some c → chunk_len (de_stored_len e) (Z.of_nat idx) (vd_header d) = Some (Z.of_nat (length c)).
Proof.
  intros Hgeo. revert chunks r. induction n as [|n IH]; intros chunks r Hn Hlen leaf; cbn [read_segment].
  - eexists _, _. split; [done|]. intros res [= <-]. exists chunks. split_and!; [done|lia|done].
  - destruct (Hgeo (Z.of_nat (length chunks)) ltac:(lia)) as (len & Hl & Hpos). rewrite Hl. change (default 0 (Some len)) with len. cbv zeta.
    destruct (read_chunk_ok (S (Z.to_nat len))
      (de_body_offset e + match chunk_size (vd_header d) with Some cs => Z.of_nat (length chunks) * cs | None => 0 end)
      0 len [] r) as (o & r1 & Hr & Hbytes); [lia|lia|done|].
    rewrite Hr. destruct o as [bytes|]; [|by eexists None, r1].
    specialize (Hbytes bytes eq_refl).
    destruct (IH (chunks ++ [bytes]) r1) as (o & r2 & Hrun & Hres).
    { rewrite length_app. cbn. lia. }
    { intros idx c [Hc|[Hge Hc]]%lookup_app_Some; [by apply Hlen|].
      apply list_lookup_singleton_Some in Hc as [H0 <-]. replace (Z.of_nat idx) with (Z.of_nat (length chunks)) by lia.
      by rewrite Hl, Hbytes. }
    assert (imap leaf (chunks ++ [bytes]) = imap leaf chunks ++ [sha256 ([LEAF_TAG] ++ dh_file_id (vd_header d) ++
      le_bytes 8 (de_seg_id e) ++ le_bytes 4 (Z.of_nat (length chunks)) ++ le_bytes 8 len ++ bytes)]) as Himap.
    { rewrite imap_app. cbn [imap compose]. rewrite Nat.add_0_r. unfold leaf at 2. unfold leaf_hash, leaf_preimage.
      by rewrite Hbytes. }
    match type of Hrun with read_segment _ _ _ _ ?l _ _ = _ => change l with (imap leaf (chunks ++ [bytes])) in Hrun end.
    rewrite Himap, concat_app, length_app in Hrun. cbn [concat length] in Hrun. rewrite app_nil_r in Hrun.
    replace (Z.of_nat (length chunks + 1)) with (Z.of_nat (length chunks) + 1) in Hrun by lia.
    exists o, r2. split; [exact Hrun|exact Hres].
Qed.

Lemma concat_blocks (ls : list (list Z)) :
  Forall (λ l, length l = 32%nat) ls → length (concat ls) = (32 * length ls)%nat ∧
  ∀ idx l, ls !! idx = Some l → slice (idx * 32) 32 (concat ls) = l.
Proof.
  induction 1 as [|a ls Ha _ [IHl IHs]]; [done|]. cbn. split; [rewrite length_app; lia|].
  intros [|idx] l Hl; cbn in Hl.
  - injection Hl as <-. change (0 * 32)%nat with 0%nat. by apply slice_here.
  - rewrite <-(IHs idx l Hl). replace (S idx * 32)%nat with (32 + idx * 32)%nat by lia.
    unfold slice. rewrite <-drop_drop. f_equal. f_equal. by rewrite drop_app_length'.
Qed.

(** A re-read segment that matches the commitment is committed chunk by chunk. *)
Lemma matched_chunks d e all :
  let leaf idx c := leaf_hash (dh_file_id (vd_header d)) (de_seg_id e) (Z.of_nat idx) c in
  chunk_count (de_stored_len e) (vd_header d) = Some (Z.of_nat (length all)) → Z.of_nat (length all) ≤ u32_max →
  (if Z.of_nat (length all) =? 1 then imap leaf all !! 0%nat
   else Some (chunk_list_hash (dh_file_id (vd_header d)) (de_seg_id e) (imap leaf all))) = Some (de_chunk_table_hash e) →
  ∀ idx c, all !! idx = Some c → commits_to d e (Z.of_nat idx) c.
Proof.
  intros leaf Hn Hmax Hgot idx c Hc. destruct (_ =? 1) eqn:E; split_bool.
  - left. rewrite Hn, E. split; [done|]. pose proof (lookup_lt_Some _ _ _ Hc) as Hlt. assert (idx = 0%nat) as -> by lia.
    rewrite list_lookup_imap, Hc in Hgot. cbn in Hgot. by injection Hgot.
  - right. exists (Z.of_nat (length all)), (concat (imap leaf all)).
    assert (Forall (λ l, length l = 32%nat) (imap leaf all)) as Hf.
    { apply Forall_lookup. intros j l Hl. rewrite list_lookup_imap in Hl. apply fmap_Some in Hl as (x & _ & ->).
      apply sha256_length. }
    destruct (concat_blocks _ Hf) as [Hlen Hslice]. rewrite length_imap in Hlen.
    split_and!; [done|lia| |].
    + injection Hgot as Hgot. unfold chunk_list_hash_flat, chunk_list_hash in *. rewrite Hlen.
      rewrite (Nat.mul_comm 32), Nat.Div0.mod_mul, Nat.div_mul by lia. cbn [negb Nat.eqb].
      rewrite length_imap, wrap32_id in Hgot by (unfold is_u32; lia).
      destruct (u32_max <? _) eqn:Eu; split_bool; [lia|]. by rewrite Hgot.
    + replace (Z.to_nat (Z.of_nat idx * 32)) with (idx * 32)%nat by lia. apply Hslice.
      by rewrite list_lookup_imap, Hc.
Qed.

Lemma reread_ok d es ss body r :
  stream_header_wf (vd_header d) →
  Forall2 (λ e s, 0 < de_stored_len e ∧ chunk_count (de_stored_len e) (vd_header d) = Some (sg_n s)) es ss →
  ∃ res r', reread es ss (vd_header d) body r = Some (res, r') ∧
    match res with
    | Ok body' => ∃ persisted, Forall2 (reread_chunks d) es persisted ∧ body' = body ++ concat (concat persisted)
    | Err (SeChunkHashMismatch, Some _) | Err (SeBadState, None) => True
    | Err _ => False
    end.
Proof.
  intros Hwf Hes. revert body r. induction Hes as [|e s es ss [Hst Hn] _ IH]; intros body r; cbn [reread].
  - eexists _, _. split; [done|]. exists []. cbn. by rewrite app_nil_r.
  - destruct (chunk_geometry _ _ _ Hwf Hst Hn) as [Hn1 Hgeo].
    destruct (read_segment_ok d e (sg_n s) (Z.to_nat (sg_n s)) [] r) as (o & r1 & Hrun & Hres).
    { intros idx Hidx. destruct (Hgeo idx Hidx) as (len & ? & ? & _). by exists len. }
    { cbn. lia. }
    { done. }
    cbn [length imap concat] in Hrun. change (Z.of_nat 0) with 0 in Hrun. rewrite Hrun.
    destruct o as [res|]; [|by eexists _, _]. destruct (Hres res eq_refl) as (all & -> & Hlen & Hall).
    pose proof (matched_chunks d e all) as Hmatch. cbv zeta in Hmatch. rewrite Hlen in Hmatch.
    specialize (Hmatch Hn ltac:(lia)).
    match goal with |- context [mbind _ ?x] => destruct x as [got|] eqn:Egot end.
    2: { destruct (sg_n s =? 1) eqn:E1; [|done]. split_bool. rewrite list_lookup_imap in Egot.
         destruct all as [|c all]; cbn in *; [lia|done]. }
    cbn [mbind option_bind]. destruct (ct_eq got _) eqn:Ect; [|by eexists _, _].
    apply ct_eq_spec in Ect as ->. destruct (IH (body ++ concat all) r1) as (res & r2 & Hrest & Hok).
    exists res, r2. split; [exact Hrest|]. destruct res as [body'|]; [|done].
    destruct Hok as (persisted & Hp & ->). exists (all :: persisted). split; [|by cbn; rewrite concat_app, app_assoc].
    constructor; [|done]. split; [by rewrite Hlen|]. intros idx c Hc. split; [by apply Hall|].
    by apply Hmatch.
Qed.

(** Confirming the identity of a completed stream always returns. When it
    succeeds the bytes that were read back, segment by segment, have the signed
    identity as their SHA-256, and every chunk the stream released is the chunk
    read back at its place, or two messages with the same hash are at hand;
    otherwise the stream is unchanged or poisoned. *)
Theorem finish_identity_sound policy cs R v d r :
  Forall call_bytes cs → stream_calls cs (stream_verifier_new policy) = Some (R, v) → sv_desc v = Some d →
  ∃ res v' r', finish_identity r v = Some (res, v', r') ∧
    match res with
    | Ok _ => sv_state v = StCompleteUnverified ∧ sv_state v' = StComplete ∧
        sv_identity_status v' = Some IdVerified ∧
        ∃ persisted, Forall2 (reread_chunks d) (vd_entries d) persisted ∧
          sha256 (concat (concat persisted)) = dh_rvf_identity (vd_header d) ∧
          ∀ c, c ∈ R → ∃ i e, vd_entries d !! i = Some e ∧ de_seg_id e = vc_seg_id c ∧
            ((persisted !! i ≫= λ chunks, chunks !! Z.to_nat (vc_chunk_index c)) = Some (vc_bytes c) ∨ sha_collision)
    | Err e => v' = v ∨ sv_state v' = StPoisoned e
    end.
Proof.
  intros Hcs Hrun Hd. destruct (stream_calls_ok policy cs Hcs) as (R' & v0 & Hrun' & Hok).
  rewrite Hrun in Hrun'. injection Hrun' as <- <-.
  destruct Hok as [[_ (_ & Hnone & _)]|(f & d' & Hin & Hf & Hdec & H)]; [congruence|].
  pose proof (rv_desc _ _ _ _ H) as Hd'. rewrite Hd in Hd'. injection Hd' as <-.
  destruct (accepted_parts policy f d Hf Hdec) as [Htab Hwf].
  unfold finish_identity. destruct (_ || _) eqn:E.
  { eexists _, _, _. split; [done|]. by left. }
  apply orb_false_iff in E as [E _]. apply negb_false_iff, bool_decide_eq_true in E. rewrite Hd. cbn [mbind option_bind].
  destruct (reread_ok d (vd_entries d) (sv_segs v) [] r Hwf) as (res & r' & Hread & Hres).
  { apply Forall2_same_length_lookup. split; [by rewrite (rv_length _ _ _ _ H)|]. intros i e s He Hs.
    destruct (entry_facts policy d Htab R v i e s H He Hs) as (Hok & _ & Hst). split; [done|apply Hok]. }
  rewrite Hread. cbn [mbind option_bind].
  destruct res as [body|[err seg]].
  - destruct Hres as (persisted & Hp & ->). cbn [app]. destruct (ct_eq _ _) eqn:Ect.
    + apply ct_eq_spec in Ect. eexists _, _, _. split; [done|]. split_and!; [done|done|done|]. exists persisted.
      split_and!; [done|done|]. intros c Hc. apply list_elem_of_split in Hc as (Ra & Rb & HR).
      destruct (ro_entry _ _ _ (rv_chunks _ _ _ _ H Ra c Rb HR)) as (e & He & _).
      destruct (list_elem_of_lookup_1 _ _ (au_entry _ _ _ He)) as (i & Hi). exists i, e.
      split_and!; [done|by rewrite (au_segment _ _ _ He)|].
      destruct (Forall2_lookup_l _ _ _ _ _ Hp Hi) as (chunks & Hck & Hcount & Hchunks). rewrite Hck. cbn.
      pose proof (au_length _ _ _ He) as Hlen. unfold chunk_len in Hlen. rewrite Hcount in Hlen.
      destruct (_ <=? vc_chunk_index c) eqn:Ei; split_bool; [done|].
      pose proof (ro_index _ _ _ (rv_chunks _ _ _ _ H Ra c Rb HR)) as Hidx.
      destruct (lookup_lt_is_Some_2 chunks (Z.to_nat (vc_chunk_index c))) as [c' Hc']; [lia|].
      destruct (Hchunks _ _ Hc') as [Hl' Hcom]. rewrite Z2Nat.id in Hl', Hcom by lia.
      rewrite (au_length _ _ _ He) in Hl'. injection Hl' as Hl'.
      destruct (commits_to_binds d e _ c' (vc_bytes c) Hcom (au_committed _ _ _ He) ltac:(lia)) as [->|]; [by left|by right].
    + eexists _, _, _. split; [done|]. by right.
  - destruct err, seg; try done; eexists _, _, _; (split; [done|]); first [by left|by right].
Qed.
End persisted.
End receiver.

(* ------------------------------------------------------------------ *)
(** ** A sample stream: the descriptor of [RvfStream] and its two segments *)

#[local] Instance sample_receive_sha : Sha256 := λ data, replicate 32 (byte_sum data).
#[local] Instance sample_receive_sha_laws : Sha256Laws.
Proof.
  split; [intros; apply length_replicate|]. intros data. apply Forall_replicate. unfold is_byte, byte_sum.
  pose proof (Z.mod_pos_bound (foldl Z.add 0 data) 256). lia.
Qed.
#[local] Instance sample_receive_ed : Ed25519 :=
  {| ed_public_key seed := seed; ed_sign seed msg := replicate 64 (byte_sum (seed ++ msg));
     ed_key_ok _ := true;
     ed_verify_strict key msg sig := bool_decide (sig = replicate 64 (byte_sum (key ++ msg))) |}.
#[local] Instance sample_receive_ct : ConstantTimeEq := λ a b, bool_decide (a = b).
#[local] Instance sample_receive_ct_laws : ConstantTimeEqLaws.
Proof. intros a b. apply bool_decide_eq_true. Qed.

(** A repeated descriptor, a chunk that is not what was signed, one ahead of
    the stage it requires, and then the two chunks in order. *)
Definition sample_frames : list (list Z) :=
  [descriptor_frame sample_descriptor; descriptor_frame sample_descriptor;
   chunk_frame 10 0 (3 :: replicate 63 1); chunk_frame 11 0 (replicate 70 2);
   chunk_frame 10 0 (replicate 64 1); chunk_frame 11 0 (replicate 70 2)].
Definition sample_stream_calls : list StreamCall := ScFrame <$> sample_frames.
Definition received_run : list VerifiedChunk * StreamVerifier :=
  Eval vm_compute in default ([], stream_verifier_new sample_stream_policy)
    (stream_calls sample_stream_calls (stream_verifier_new sample_stream_policy)).

Lemma sample_stream_calls_bytes : Forall call_bytes sample_stream_calls.
Proof.
  assert (forallb (forallb (λ b, (0 <=? b) && (b <? 256))) sample_frames = true) as H by (vm_compute; reflexivity).
  apply Forall_fmap. apply forallb_Forall in H. eapply Forall_impl; [exact H|]. intros f Hf. cbn.
  apply forallb_Forall in Hf. eapply Forall_impl; [exact Hf|]. intros b Hb. unfold is_byte. cbn in Hb. split_bool. lia.
Qed.
Lemma received_run_returns :
  stream_calls sample_stream_calls (stream_verifier_new sample_stream_policy) = Some received_run.
Proof. vm_compute. reflexivity. Qed.
Example received_run_completes : sv_state received_run.2 = StComplete ∧ sv_faults received_run.2 = 2 ∧
  vc_bytes <$> received_run.1 = sample_parts.
Proof. vm_compute. done. Qed.

Lemma receiver_releases_authentic_witness :
  ∃ R v, stream_calls sample_stream_calls (stream_verifier_new sample_stream_policy) = Some (R, v) ∧ length R = 2%nat.
Proof.
  destruct (receiver_releases_authentic sample_stream_policy sample_stream_calls sample_stream_calls_bytes)
    as (R & v & Hrun & _).
  exists R, v. split; [exact Hrun|]. rewrite received_run_returns in Hrun. injection Hrun as <- <-. reflexivity.
Defined.

Lemma completed_stream_is_the_body_witness :
  ∃ d, sv_desc received_run.2 = Some d ∧ Z.of_nat (length (released_bytes received_run.1)) = dh_body_len (vd_header d).
Proof.
  eexists. split; [reflexivity|].
  eapply (completed_stream_is_the_body sample_stream_policy sample_stream_calls received_run.1 received_run.2 _
    sample_stream_calls_bytes); [rewrite received_run_returns; reflexivity|reflexivity|left; reflexivity].
Defined.

Lemma released_chunks_unique_witness :
  ∃ c, c ∈ received_run.1 ∧ (c = c ∨ sha_collision).
Proof.
  exists (hd (mkVerifiedChunk 0 0 0 0 0 []) received_run.1). split; [left|].
  eapply (released_chunks_unique sample_stream_policy sample_stream_policy sample_stream_calls sample_stream_calls
    received_run.1 received_run.1 received_run.2 received_run.2); 
    [apply sample_stream_calls_bytes|apply sample_stream_calls_bytes|rewrite received_run_returns; reflexivity|
     rewrite received_run_returns; reflexivity|reflexivity|reflexivity|left|left|reflexivity|reflexivity].
Defined.

(** Two independent segments delivered last first: the identity is confirmed
    afterwards from the stored body. *)
Definition free_entries : list StreamEntry :=
  (λ e, mkStreamEntry (de_seg_id e) (de_seg_type e) 0 0 0 (de_body_offset e) (de_stored_len e) (de_uncompressed_len e)
          (de_chunk_table_hash e)) <$> sample_stream_entries.
Definition reversed_calls : list StreamCall :=
  ScFrame <$> [descriptor_frame (signed_descriptor sample_key sample_stream_header free_entries);
               chunk_frame 11 0 (replicate 70 2); chunk_frame 10 0 (replicate 64 1)].
Definition reversed_run : list VerifiedChunk * StreamVerifier :=
  Eval vm_compute in default ([], stream_verifier_new sample_stream_policy)
    (stream_calls reversed_calls (stream_verifier_new sample_stream_policy)).
Lemma reversed_run_returns :
  stream_calls reversed_calls (stream_verifier_new sample_stream_policy) = Some reversed_run.
Proof. vm_compute. reflexivity. Qed.
Lemma reversed_calls_bytes : Forall call_bytes reversed_calls.
Proof.
  assert (forallb (λ c, match c with ScFrame f => forallb (λ b, (0 <=? b) && (b <? 256)) f | _ => true end)
    reversed_calls = true) as H by (vm_compute; reflexivity).
  apply forallb_Forall in H. eapply Forall_impl; [exact H|]. intros [f| | |] Hf; try done. cbn in *.
  apply forallb_Forall in Hf. eapply Forall_impl; [exact Hf|]. intros b Hb. unfold is_byte. cbn in Hb. split_bool. lia.
Qed.

(** A store that reads zeros past its end. *)
Definition read_stored (body : list Z) (off k : Z) (u : unit) : option (list Z) * unit :=
  if k <? 0 then (None, u)
  else (Some (take (Z.to_nat k) (drop (Z.to_nat off) body ++ replicate (Z.to_nat k) 0)), u).
Lemma read_stored_fills body off k u piece u' :
  read_stored body off k u = (Some piece, u') → Z.of_nat (length piece) = k.
Proof.
  unfold read_stored. destruct (k <? 0) eqn:E; [done|]. split_bool. intros [= <-].
  rewrite length_take, length_app, length_replicate. lia.
Qed.

Example identity_confirmed :
  (λ r : StreamResult unit * StreamVerifier * unit, (r.1.1, sv_state r.1.2)) <$>
    finish_identity (read_stored (concat sample_parts)) tt reversed_run.2 = Some (Ok tt, StComplete).
Proof. vm_compute. reflexivity. Qed.
Example identity_of_another_body_refused :
  (λ r : StreamResult unit * StreamVerifier * unit, (r.1.1, sv_state r.1.2)) <$>
    finish_identity (read_stored (replicate 134 1)) tt reversed_run.2 =
    Some (Err SeChunkHashMismatch, StPoisoned SeChunkHashMismatch).
Proof. vm_compute. reflexivity. Qed.

Lemma finish_identity_sound_witness :
  ∃ v', finish_identity (read_stored (concat sample_parts)) tt reversed_run.2 = Some (Ok tt, v', tt) ∧
    sv_identity_status v' = Some IdVerified.
Proof.
  destruct (finish_identity_sound (read_stored (concat sample_parts)) (read_stored_fills _) sample_stream_policy
    reversed_calls reversed_run.1 reversed_run.2
    (default (mkVerifiedDescriptor sample_stream_header [] [] [] []) (sv_desc reversed_run.2)) tt reversed_calls_bytes)
    as (res & v' & [] & Hf & Hres); [rewrite reversed_run_returns; reflexivity|reflexivity|].
  pose proof identity_confirmed as Hc. rewrite Hf in Hc. cbn in Hc. destruct res as [[]|]; [|discriminate Hc].
  exists v'. split; [exact Hf|]. apply Hres.
Defined.
