(* ===== verification/RvfFrames.v ===== *)
(** Reassembling frames, [FrameReader] of [crates/rvm-rvf/src/stream/frame.rs].

    The bytes of a stream arrive cut anywhere.  The reader has two paths, one
    for a frame that lies whole in the input and one through its buffer; the
    file proves both equal to one specification that sees the bytes at once, so
    the cuts never matter, and that the frames a sender encodes are the frames
    the target is given. *)

From stdpp Require Import base numbers list option.
From Stdlib Require Import ZArith Lia.
From S2P Require Import Prelude.
From S2P Require Import Text.
From S2P Require Import Bytes.
From S2P Require Import WitnessLog.
From S2P Require Import Security.
From S2P Require Import Signers.
From S2P Require Import RvfFormat.
From S2P Require Import RvfCapability.
From S2P Require Import RvfVerify.
From S2P Require Import RvfStream.
From S2P Require Import RvfReceive.

(** [FrameTarget]: what frames are pushed into.  [None] is a panic. *)
Class FrameTarget (T Out Fault : Type) : Type := {
  ft_state : T → StreamState;
  ft_limit : Z → T → Z;
  ft_poison : StreamError → T → StreamError * T;
  ft_push : list Z → T → option (result Fault Out * T);
}.

#[export] Instance verifier_target `{!Sha256, !Ed25519, !ConstantTimeEq} : FrameTarget StreamVerifier Event StreamError := {|
  ft_state := sv_state;
  ft_limit := frame_payload_limit;
  ft_poison reason v := (reason, poison reason v);
  ft_push := stream_receive;
|}.

Record FrameReader : Set := mkFrameReader {
  fr_buf : list Z;
  fr_need : option nat;
}.
Definition frame_reader_new : FrameReader := mkFrameReader [] None.
Definition frame_reader_buffered (r : FrameReader) : nat := length (fr_buf r).

(** The states in which the reader takes no more input. *)
Definition feed_refusal (s : StreamState) : option StreamError :=
  match s with
  | StPoisoned _ => Some SePoisoned
  | StRejected _ | StComplete | StCompleteUnverified | StSuspended => Some SeBadState
  | _ => None
  end.

Section reader.
Context {T Out Fault : Type} {FT : FrameTarget T Out Fault}.
Notation Answer := (result Fault Out) (only parsing).

(** [FrameReader::admit]. *)
Definition reader_admit (header : list Z) (v : T) : StreamResult nat * T :=
  let payload := declared_payload header in
  if ft_limit (format_byte_at header 0) v <? payload then
    let '(e, v) := ft_poison SeFrameSizeLie v in (Err e, v)
  else (Ok (length header + Z.to_nat payload)%nat, v).

(** One turn of the loop: the rest of the input, the reader, the target and the
    answer of a pushed frame; or the error the loop returns. *)
Inductive FeedTurn : Type :=
| FeedMore (data : list Z) (r : FrameReader) (v : T) (answer : option Answer)
| FeedStop (e : StreamError) (r : FrameReader) (v : T).

(** The path through the buffer. *)
Definition buffer_turn (data : list Z) (r : FrameReader) (v : T) : option FeedTurn :=
  let target :=
    match fr_need r with
    | Some total => Some total
    | None => frame_header_len (match fr_buf r with b :: _ => b | [] => format_byte_at data 0 end)
    end in
  match target with
  | None => Some (FeedStop SeUnexpectedFrame r v)
  | Some target =>
      let k := Nat.min (target - length (fr_buf r)) (length data) in
      let buf := fr_buf r ++ take k data in
      let data := drop k data in
      let admitted :=
        if is_none (fr_need r) && (length buf =? target)%nat then
          match reader_admit buf v with (Ok total, v) => (Ok (Some total), v) | (Err e, v) => (Err e, v) end
        else (Ok (fr_need r), v) in
      match admitted with
      | (Err e, v) => Some (FeedStop e (mkFrameReader buf (fr_need r)) v)
      | (Ok need, v) =>
          if bool_decide (Some (length buf) = need) then
            '(answer, v) ← ft_push buf v; Some (FeedMore data frame_reader_new v (Some answer))
          else Some (FeedMore data (mkFrameReader buf need) v None)
      end
  end.

Definition feed_turn (data : list Z) (r : FrameReader) (v : T) : option FeedTurn :=
  match feed_refusal (ft_state v) with
  | Some e => Some (FeedStop e r v)
  | None =>
      match fr_buf r with
      | [] =>
          match frame_header_len (format_byte_at data 0) with
          | Some hl =>
              if (hl <=? length data)%nat then
                match reader_admit (take hl data) v with
                | (Err e, v) => Some (FeedStop e r v)
                | (Ok total, v) =>
                    if (total <=? length data)%nat then
                      '(answer, v) ← ft_push (take total data) v;
                      Some (FeedMore (drop total data) r v (Some answer))
                    else buffer_turn data r v
                end
              else buffer_turn data r v
          | None => let '(e, v) := ft_poison SeUnexpectedFrame v in Some (FeedStop e r v)
          end
      | _ :: _ => buffer_turn data r v
      end
  end.

(** The loop: its result, the reader, the target and the answers in order. *)
Fixpoint feed_loop (fuel : nat) (data : list Z) (r : FrameReader) (v : T)
    : option (StreamResult unit * FrameReader * T * list Answer) :=
  match data with
  | [] => Some (Ok tt, r, v, [])
  | _ :: _ =>
      match fuel with
      | O => None
      | S fuel =>
          turn ← feed_turn data r v;
          match turn with
          | FeedStop e r v => Some (Err e, r, v, [])
          | FeedMore data r v answer =>
              '(res, r, v, answers) ← feed_loop fuel data r v; Some (res, r, v, option_list answer ++ answers)
          end
      end
  end.
Definition feed (data : list Z) (r : FrameReader) (v : T) := feed_loop (length data) data r v.

(** Feeding piece after piece, up to the first error. *)
Fixpoint feed_all (pieces : list (list Z)) (r : FrameReader) (v : T)
    : option (StreamResult unit * FrameReader * T * list Answer) :=
  match pieces with
  | [] => Some (Ok tt, r, v, [])
  | p :: pieces =>
      match feed p r v with
      | Some (Ok _, r, v, answers) =>
          '(res, r, v, answers') ← feed_all pieces r v; Some (res, r, v, answers ++ answers')
      | other => other
      end
  end.

(* ------------------------------------------------------------------ *)
(** ** The specification: all bytes at once *)

(** The reader that is left over, unless there was an error. *)
Notation Deframed := (StreamResult FrameReader * T * list Answer)%type (only parsing).

Definition observe (o : option (StreamResult unit * FrameReader * T * list Answer)) : option Deframed :=
  '(res, r, v, answers) ← o;
  Some (match res with Ok _ => Ok r | Err e => Err e end, v, answers).

Definition prepend (answers : list Answer) (o : option Deframed) : option Deframed :=
  '(res, v, answers') ← o; Some (res, v, answers ++ answers').

Fixpoint deframe (fuel : nat) (P : list Z) (v : T) : option Deframed :=
  match P with
  | [] => Some (Ok frame_reader_new, v, [])
  | b :: _ =>
      match fuel with
      | O => None
      | S fuel =>
          match feed_refusal (ft_state v) with
          | Some e => Some (Err e, v, [])
          | None =>
              match frame_header_len b with
              | None => let '(e, v) := ft_poison SeUnexpectedFrame v in Some (Err e, v, [])
              | Some hl =>
                  if (length P <? hl)%nat then Some (Ok (mkFrameReader P None), v, [])
                  else
                    match reader_admit (take hl P) v with
                    | (Err e, v) => Some (Err e, v, [])
                    | (Ok total, v) =>
                        if (length P <? total)%nat then Some (Ok (mkFrameReader P (Some total)), v, [])
                        else
                          '(answer, v) ← ft_push (take total P) v;
                          prepend [answer] (deframe fuel (drop total P) v)
                    end
              end
          end
      end
  end.

Lemma header_len_range b hl : frame_header_len b = Some hl → (5 ≤ hl ≤ 17)%nat.
Proof. unfold frame_header_len. destruct b as [|[p|[]|]|]; intros [= <-]; try lia; destruct p; naive_solver lia. Qed.

Lemma reader_admit_ok header v total v' : reader_admit header v = (Ok total, v') → v' = v ∧ (length header ≤ total)%nat.
Proof.
  unfold reader_admit. destruct (_ <? _); [by destruct (ft_poison _ v)|]. intros [= <- <-]. split; [done|lia].
Qed.

(** What a reader between two inputs has established about its target. *)
Definition reader_ok (r : FrameReader) (v : T) : Prop :=
  r = frame_reader_new ∨
  ∃ b buf hl, fr_buf r = b :: buf ∧ feed_refusal (ft_state v) = None ∧ frame_header_len b = Some hl ∧
    ((fr_need r = None ∧ (length (fr_buf r) < hl)%nat) ∨
     ∃ total, fr_need r = Some total ∧ (hl ≤ length (fr_buf r) < total)%nat ∧
       reader_admit (take hl (fr_buf r)) v = (Ok total, v)).

(** A reader that has only buffered is at a leaf of the specification. *)
Lemma deframe_leaf r v fuel : reader_ok r v → (length (fr_buf r) ≤ fuel)%nat →
  deframe fuel (fr_buf r) v = Some (Ok r, v, []).
Proof.
  intros [->|(b & buf & hl & Hbuf & Href & Hhl & Hcase)] Hf; [by destruct fuel|].
  destruct r as [rb need]. cbn [fr_buf fr_need] in *. subst rb.
  destruct fuel as [|fuel]; [cbn in Hf; lia|]. cbn [deframe]. rewrite Href, Hhl.
  destruct Hcase as [(-> & Hlt)|(total & -> & Hlen & Had)].
  - destruct (_ <? hl)%nat eqn:E; split_bool; [done|lia].
  - destruct (_ <? hl)%nat eqn:E; split_bool; [lia|]. rewrite Had.
    destruct (_ <? total)%nat eqn:E2; split_bool; [done|lia].
Qed.

Lemma deframe_fuel fuel1 fuel2 P v : (length P ≤ fuel1)%nat → (length P ≤ fuel2)%nat → deframe fuel1 P v = deframe fuel2 P v.
Proof.
  revert fuel2 P v. induction fuel1 as [|fuel1 IH]; intros [|fuel2] [|b P] v H1 H2; try done; try (cbn in *; lia).
  cbn [deframe]. destruct (feed_refusal _); [done|]. destruct (frame_header_len b) as [hl|] eqn:Ehl; [|done].
  destruct (_ <? hl)%nat eqn:El; [done|]. split_bool.
  destruct (reader_admit _ v) as [[total|] v'] eqn:Ea; [|done].
  apply reader_admit_ok in Ea as [-> Ht]. rewrite length_take in Ht. apply header_len_range in Ehl.
  destruct (_ <? total)%nat eqn:Et; [done|]. split_bool. destruct (ft_push _ v) as [[answer v']|]; [cbn|done].
  by rewrite (IH fuel2) by (rewrite length_drop; cbn in *; lia).
Qed.

Lemma buffer_cut n (buf data : list Z) : (length buf ≤ n)%nat →
  buf ++ take (Nat.min (n - length buf) (length data)) data = take n (buf ++ data) ∧
  drop (Nat.min (n - length buf) (length data)) data = drop n (buf ++ data).
Proof.
  intros Hn. rewrite take_app, drop_app, (take_ge buf n), (drop_ge buf n) by done. cbn.
  destruct (decide (n - length buf ≤ length data)%nat).
  - by rewrite Nat.min_l.
  - rewrite Nat.min_r, !take_ge, !drop_ge by lia. done.
Qed.

Lemma first_buffered (buf data : list Z) :
  match buf with b :: _ => b | [] => format_byte_at data 0 end = format_byte_at (buf ++ data) 0.
Proof. by destruct buf. Qed.

(** What the specification does with the bytes [P] next. *)
Inductive next_step (P : list Z) (v : T) : option FeedTurn → Prop :=
| next_wait r hl : frame_header_len (format_byte_at P 0) = Some hl → reader_ok r v → fr_buf r = P →
    next_step P v (Some (FeedMore [] r v None))
| next_keep r data hl : frame_header_len (format_byte_at P 0) = Some hl → reader_ok r v → fr_buf r ++ data = P →
    next_step P v (Some (FeedMore data r v None))
| next_stop e r v' hl : frame_header_len (format_byte_at P 0) = Some hl → (hl ≤ length P)%nat →
    reader_admit (take hl P) v = (Err e, v') → next_step P v (Some (FeedStop e r v'))
| next_push hl total : frame_header_len (format_byte_at P 0) = Some hl → (hl ≤ length P)%nat →
    reader_admit (take hl P) v = (Ok total, v) → (total ≤ length P)%nat →
    next_step P v ('(answer, v') ← ft_push (take total P) v;
                   Some (FeedMore (drop total P) frame_reader_new v' (Some answer))).

(** One turn through the buffer of a consistent reader. *)
Lemma buffer_turn_ok data r v hl :
  let P := fr_buf r ++ data in
  P ≠ [] → feed_refusal (ft_state v) = None → frame_header_len (format_byte_at P 0) = Some hl →
  ((fr_need r = None ∧ (length (fr_buf r) < hl)%nat) ∨
   ∃ total, fr_need r = Some total ∧ (hl ≤ length (fr_buf r) < total)%nat ∧
     reader_admit (take hl (fr_buf r)) v = (Ok total, v)) →
  next_step P v (buffer_turn data r v).
Proof.
  intros P Hne Href Hhl Hcase. pose proof (header_len_range _ _ Hhl) as Hr.
  assert (∀ Q, Q ≠ [] → (∃ n, Q = take n P) → ∃ b buf, Q = b :: buf ∧ frame_header_len b = Some hl) as Hfirst.
  { intros [|b Q] HQ (n & Hn); [done|]. exists b, Q. split; [done|]. rewrite <-Hhl. f_equal.
    destruct n, P; cbn in Hn; try done. injection Hn as -> _. done. }
  unfold buffer_turn. destruct r as [buf need]. cbn [fr_buf fr_need] in *. 
  destruct Hcase as [(-> & Hlt)|(total & -> & Hlen & Had)].
  - rewrite first_buffered. fold P. rewrite Hhl. destruct (buffer_cut hl buf data ltac:(lia)) as [-> ->]. fold P.
    cbn [is_none andb]. destruct (_ =? hl)%nat eqn:E; split_bool; rewrite length_take in E.
    + destruct (reader_admit (take hl P) v) as [[total|e] v'] eqn:Ea; [|by eapply next_stop; [done|lia|]].
      pose proof (reader_admit_ok _ _ _ _ Ea) as [-> Ht]. rewrite length_take in Ht |- *.
      case_bool_decide as Ec.
      * injection Ec as Ec. assert (total = hl) as -> by lia. by eapply next_push; [done|lia| |lia].
      * apply next_keep with hl; [done| |apply take_drop]. right.
        destruct (Hfirst (take hl P)) as (b & rest & Hb & Hbl); [|by exists hl|].
        { intros Hnil. apply (f_equal length) in Hnil. rewrite length_take in Hnil. cbn in Hnil. lia. }
        exists b, rest, hl. cbn [fr_buf fr_need]. split_and!; [done|done|done|]. right. exists total.
        rewrite length_take. split_and!; [done|lia| |].
        { assert (hl `min` length P ≠ total)%nat by congruence. lia. }
        by rewrite take_take, Nat.min_id.
    + case_bool_decide; [done|]. rewrite take_ge, drop_ge by lia. apply next_wait with hl; [done| |done]. right.
      destruct (Hfirst P) as (b & rest & Hb & Hbl); [done|exists (length P); by rewrite take_ge|].
      exists b, rest, hl. cbn [fr_buf fr_need]. split_and!; [done|done|done|]. left. split; [done|lia].
  - destruct (buffer_cut total buf data ltac:(lia)) as [-> ->]. fold P. cbn [is_none andb].
    assert (reader_admit (take hl P) v = (Ok total, v)) as Had' by (rewrite <-Had; f_equal; unfold P; rewrite take_app_le; [done|lia]).
    rewrite length_take. case_bool_decide as Ec.
    + injection Ec as Ec. by eapply next_push; [done|unfold P in *; rewrite length_app in *; lia|done|lia].
    + assert (length P < total)%nat as Hlt by (assert (total `min` length P ≠ total)%nat by congruence; lia).
      rewrite take_ge, drop_ge by lia. apply next_wait with hl; [done| |done]. right.
      destruct (Hfirst P) as (b & rest & Hb & Hbl); [done|exists (length P); by rewrite take_ge|].
      exists b, rest, hl. cbn [fr_buf fr_need]. split_and!; [done|done|done|]. right. exists total.
      split_and!; [done|unfold P; rewrite length_app; lia|lia|done].
Qed.

Lemma buffer_turn_progress data r v data' r' v' answer :
  (∀ n, match fr_need r with Some total => Some total
        | None => frame_header_len (match fr_buf r with b :: _ => b | [] => format_byte_at data 0 end) end = Some n →
        (length (fr_buf r) < n)%nat) →
  data ≠ [] → buffer_turn data r v = Some (FeedMore data' r' v' answer) → (length data' < length data)%nat.
Proof.
  intros Hn Hne. unfold buffer_turn. destruct (match fr_need r with Some _ => _ | None => _ end) as [n|]; [|done].
  specialize (Hn n eq_refl). assert (0 < length data)%nat as Hd by (destruct data; [done|cbn; lia]).
  assert (length (drop (Nat.min (n - length (fr_buf r)) (length data)) data) < length data)%nat as Hlt
    by (rewrite length_drop; lia).
  destruct (is_none _ && _); [destruct (reader_admit _ v) as [[total|e] v1]; [|done]|].
  all: case_bool_decide; [|by intros [= <- _ _ _]].
  all: destruct (ft_push _ _) as [[a v2]|]; [|done]; cbn; by intros [= <- _ _ _].
Qed.

Lemma feed_turn_ok data r v hl :
  data ≠ [] → feed_refusal (ft_state v) = None → reader_ok r v →
  frame_header_len (format_byte_at (fr_buf r ++ data) 0) = Some hl →
  next_step (fr_buf r ++ data) v (feed_turn data r v) ∧
  ∀ data' r' v' answer, feed_turn data r v = Some (FeedMore data' r' v' answer) → (length data' < length data)%nat.
Proof.
  intros Hne Href Hok Hhl. unfold feed_turn. rewrite Href. pose proof (header_len_range _ _ Hhl) as Hr.
  destruct Hok as [->|(b & buf & hl' & Hbuf & _ & Hhl' & Hcase)].
  - cbn [fr_buf frame_reader_new app] in *. rewrite Hhl.
    assert (next_step data v (buffer_turn data frame_reader_new v)) as Hb.
    { apply (buffer_turn_ok data frame_reader_new v hl); try done. left. split; [done|cbn; lia]. }
    assert (∀ data' r' v' answer, buffer_turn data frame_reader_new v = Some (FeedMore data' r' v' answer) →
      (length data' < length data)%nat) as Hp.
    { intros data' r' v' answer. apply buffer_turn_progress; [|done]. cbn. intros n Hn. rewrite Hhl in Hn. injection Hn as <-. lia. }
    destruct (hl <=? length data)%nat eqn:E; split_bool; [|done].
    destruct (reader_admit (take hl data) v) as [[total|e] v'] eqn:Ea.
    + pose proof (reader_admit_ok _ _ _ _ Ea) as [-> Ht]. rewrite length_take in Ht.
      destruct (total <=? length data)%nat eqn:Et; split_bool; [|done]. split.
      * by apply (next_push data v hl total).
      * intros data' r' v' answer. destruct (ft_push _ v) as [[a v2]|]; [|done]. cbn. intros [= <- _ _ _].
        rewrite length_drop. lia.
    + split; [by apply next_stop with hl|done].
  - assert (hl' = hl) as -> by (rewrite Hbuf in Hhl; cbn in Hhl; congruence).
    assert (∀ X, match fr_buf r with [] => X | _ :: _ => buffer_turn data r v end = buffer_turn data r v) as ->
      by (intros X; by rewrite Hbuf).
    split.
    + apply (buffer_turn_ok data r v hl); try done. by rewrite Hbuf.
    + intros data' r' v' answer. apply buffer_turn_progress; [|done]. intros n Hn.
      destruct Hcase as [(Hneed & Hlt)|(total & Hneed & Hlen & _)]; rewrite Hneed in Hn.
      * rewrite first_buffered, Hhl in Hn. injection Hn as <-. done.
      * injection Hn as <-. lia.
Qed.

Lemma feed_loop_S fuel data r v : data ≠ [] →
  feed_loop (S fuel) data r v =
    (turn ← feed_turn data r v;
     match turn with
     | FeedStop e r v => Some (Err e, r, v, [])
     | FeedMore data r v answer =>
         '(res, r, v, answers) ← feed_loop fuel data r v; Some (res, r, v, option_list answer ++ answers)
     end).
Proof. by destruct data. Qed.

Lemma deframe_S fuel P v : P ≠ [] →
  deframe (S fuel) P v =
    match feed_refusal (ft_state v) with
    | Some e => Some (Err e, v, [])
    | None =>
        match frame_header_len (format_byte_at P 0) with
        | None => let '(e, v) := ft_poison SeUnexpectedFrame v in Some (Err e, v, [])
        | Some hl =>
            if (length P <? hl)%nat then Some (Ok (mkFrameReader P None), v, [])
            else
              match reader_admit (take hl P) v with
              | (Err e, v) => Some (Err e, v, [])
              | (Ok total, v) =>
                  if (length P <? total)%nat then Some (Ok (mkFrameReader P (Some total)), v, [])
                  else '(answer, v) ← ft_push (take total P) v; prepend [answer] (deframe fuel (drop total P) v)
              end
        end
    end.
Proof. by destruct P. Qed.

(** The specification takes the same step. *)
Lemma deframe_next P v turn : P ≠ [] → feed_refusal (ft_state v) = None → next_step P v turn →
  deframe (length P) P v =
    (turn ← turn;
     match turn with
     | FeedStop e _ v => Some (Err e, v, [])
     | FeedMore data r v answer =>
         prepend (option_list answer) (deframe (length (fr_buf r ++ data)) (fr_buf r ++ data) v)
     end).
Proof.
  intros Hne Href Hn. assert (∀ o : option Deframed, prepend [] o = o) as Hnil by (intros [[[res v'] answers]|]; done).
  destruct Hn as [r hl Hhl Hok Hr|r data hl Hhl Hok Hr|e r v' hl Hhl Hle Ha|hl total Hhl Hle Ha Ht];
    cbn [mbind option_bind].
  - by rewrite app_nil_r, Hr, Hnil.
  - by rewrite Hr, Hnil.
  - destruct P as [|b P0]; [done|]. set (P := b :: P0) in *. change (length P) with (S (length P0)).
    rewrite deframe_S by done. rewrite Href, Hhl. destruct (_ <? hl)%nat eqn:E; split_bool; [lia|]. by rewrite Ha.
  - pose proof (header_len_range _ _ Hhl) as Hr. pose proof (reader_admit_ok _ _ _ _ Ha) as [_ Htl]. rewrite length_take in Htl.
    destruct P as [|b P0]; [done|]. set (P := b :: P0) in *. change (length P) with (S (length P0)) at 1.
    rewrite deframe_S by done. rewrite Href, Hhl. destruct (_ <? hl)%nat eqn:E; split_bool; [lia|]. rewrite Ha.
    destruct (_ <? total)%nat eqn:E2; split_bool; [lia|]. destruct (ft_push (take total P) v) as [[answer v']|]; [|done].
    cbn [mbind option_bind fr_buf frame_reader_new app option_list]. f_equal. apply deframe_fuel; rewrite length_drop.
    + change (length P) with (S (length P0)). lia.
    + lia.
Qed.

Lemma observe_more answer (o : option (StreamResult unit * FrameReader * T * list Answer)) :
  observe ('(res, r, v, answers) ← o; Some (res, r, v, option_list answer ++ answers)) =
  prepend (option_list answer) (observe o).
Proof. by destruct o as [[[[res r] v] answers]|]. Qed.

Lemma next_reader_ok P v turn data r v' answer :
  next_step P v turn → turn = Some (FeedMore data r v' answer) → reader_ok r v'.
Proof.
  intros [] Heq; try (by injection Heq as _ <- <- _); [done|].
  destruct (ft_push _ v) as [[? ?]|]; [|done]. cbn in Heq. injection Heq as _ <- _ _. by left.
Qed.

(** The two paths of the reader are the specification. *)
Lemma feed_loop_spec fuel data r v :
  (length data ≤ fuel)%nat → reader_ok r v →
  observe (feed_loop fuel data r v) = deframe (length (fr_buf r ++ data)) (fr_buf r ++ data) v.
Proof.
  revert data r v. induction fuel as [|fuel IH]; intros data r v Hf Hok.
  - destruct data; [|cbn in Hf; lia]. rewrite app_nil_r. symmetry. by apply deframe_leaf.
  - destruct (decide (data = [])) as [->|Hne]; [rewrite app_nil_r; symmetry; by apply deframe_leaf|].
    rewrite feed_loop_S by done. set (P := fr_buf r ++ data).
    assert (P ≠ []) as HP by (unfold P; intros [_ ?]%app_nil; done).
    assert (∃ n, length P = S n) as (n & Hn) by (destruct P; [done|by eexists]).
    destruct (feed_refusal (ft_state v)) as [e|] eqn:Href.
    { rewrite Hn, deframe_S by done. unfold feed_turn. by rewrite Href. }
    destruct (frame_header_len (format_byte_at P 0)) as [hl|] eqn:Ehl.
    2: { rewrite Hn, deframe_S by done. rewrite Href, Ehl. destruct Hok as [->|(b' & buf & hl' & Hbuf & _ & Hhl' & _)].
         - unfold feed_turn. rewrite Href. cbn [fr_buf frame_reader_new app] in *. subst P. rewrite Ehl.
           by destruct (ft_poison _ v).
         - unfold P in Ehl. rewrite Hbuf in Ehl. cbn in Ehl. congruence. }
    destruct (feed_turn_ok data r v hl) as [Hnext Hprog]; [done..|]. fold P in Hnext.
    rewrite (deframe_next P v _ HP Href Hnext). remember (feed_turn data r v) as turn eqn:Eturn.
    destruct turn as [[data' r' v' answer|e r' v']|]; cbn [mbind option_bind]; [|done|done].
    rewrite observe_more. f_equal. apply IH; [specialize (Hprog data' r' v' answer eq_refl); lia|].
    by eapply next_reader_ok.
Qed.

(** What the specification leaves over is a consistent reader. *)
Lemma deframe_reader_ok fuel P v r v' answers : deframe fuel P v = Some (Ok r, v', answers) → reader_ok r v'.
Proof.
  revert P v answers. induction fuel as [|fuel IH]; intros P v answers; (destruct (decide (P = [])) as [->|Hne];
    [intros [= <- _ _]; by left|]); [by destruct P|].
  rewrite deframe_S by done. destruct (feed_refusal _) eqn:Href; [done|].
  assert (∃ b P', P = b :: P' ∧ format_byte_at P 0 = b) as (b & P' & HP & Hb) by (destruct P; [done|by eexists _, _]).
  destruct (frame_header_len _) as [hl|] eqn:Ehl; [|by destruct (ft_poison _ v)].
  destruct (_ <? hl)%nat eqn:E; split_bool.
  { intros [= <- <- _]. right. exists b, P', hl. rewrite <-Hb at 2. split_and!; [done|done|done|]. by left. }
  destruct (reader_admit _ v) as [[total|] v1] eqn:Ea; [|done]. pose proof (reader_admit_ok _ _ _ _ Ea) as [-> _].
  destruct (_ <? total)%nat eqn:E2; split_bool.
  { intros [= <- <- _]. right. exists b, P', hl. rewrite <-Hb at 2. split_and!; [done|done|done|]. right. by exists total. }
  destruct (ft_push _ v) as [[answer v2]|]; [cbn|done].
  destruct (deframe fuel (drop total P) v2) as [[[res v3] answers']|] eqn:Ed; [|done]. cbn. intros [= -> -> _].
  by eapply IH.
Qed.

(** Cutting the bytes in two. *)
Lemma deframe_app fuel P b v : (length P ≤ fuel)%nat →
  deframe (length (P ++ b)) (P ++ b) v =
    match deframe fuel P v with
    | Some (Ok r, v', answers) => prepend answers (deframe (length (fr_buf r ++ b)) (fr_buf r ++ b) v')
    | other => other
    end.
Proof.
  assert (∀ o : option Deframed, prepend [] o = o) as Hnil by (intros [[[res v'] answers]|]; done).
  revert P v. induction fuel as [|fuel IH]; intros P v Hf; (destruct (decide (P = [])) as [->|Hne];
    [symmetry; apply Hnil|]); [destruct P; [done|cbn in Hf; lia]|].
  assert (length (P ++ b) = S (length (P ++ b) - 1))%nat as Hlen by (destruct P; [done|cbn; lia]).
  rewrite (deframe_S fuel P) by done. 
  assert (P ++ b ≠ []) as HPb by (intros [? _]%app_nil; done).
  assert (format_byte_at (P ++ b) 0 = format_byte_at P 0) as Hb by (by destruct P).
  destruct (feed_refusal _) eqn:Href; [by rewrite Hlen, deframe_S, Href by done|].
  destruct (frame_header_len _) as [hl|] eqn:Ehl.
  2: { rewrite Hlen, deframe_S, Href, Hb, Ehl by done. by destruct (ft_poison _ v). }
  destruct (_ <? hl)%nat eqn:E; split_bool; [by rewrite Hnil|].
  assert (take hl (P ++ b) = take hl P) as Htake by (by rewrite take_app_le).
  destruct (reader_admit (take hl P) v) as [[total|] v1] eqn:Ea.
  2: { rewrite Hlen, deframe_S, Href, Hb, Ehl by done. destruct (_ <? hl)%nat eqn:E3; split_bool; [rewrite length_app in E3; lia|].
       by rewrite Htake, Ea. }
  pose proof (reader_admit_ok _ _ _ _ Ea) as [-> Htl]. rewrite length_take in Htl.
  destruct (_ <? total)%nat eqn:E2; split_bool; [by rewrite Hnil|].
  pose proof (header_len_range _ _ Ehl) as Hr.
  rewrite Hlen, deframe_S, Href, Hb, Ehl by done. destruct (_ <? hl)%nat eqn:E3; split_bool; [rewrite length_app in E3; lia|].
  rewrite Htake, Ea. destruct (_ <? total)%nat eqn:E4; split_bool; [rewrite length_app in E4; lia|].
  rewrite take_app_le, drop_app_le by done. destruct (ft_push _ v) as [[answer v2]|]; [cbn [mbind option_bind]|done].
  rewrite (deframe_fuel _ (length (drop total P ++ b))) by (rewrite ?length_app, ?length_drop; lia).
  rewrite (IH (drop total P)) by (rewrite length_drop; lia).
  destruct (deframe fuel (drop total P) v2) as [[[[r|e] v3] answers]|]; cbn; [|done|done].
  by destruct (deframe _ _ v3) as [[[res v4] answers']|].
Qed.

Lemma feed_all_spec pieces r v : reader_ok r v →
  observe (feed_all pieces r v) = deframe (length (fr_buf r ++ concat pieces)) (fr_buf r ++ concat pieces) v.
Proof.
  revert r v. induction pieces as [|p pieces IH]; intros r v Hok; cbn [feed_all concat].
  - rewrite app_nil_r. symmetry. by apply deframe_leaf.
  - pose proof (feed_loop_spec (length p) p r v ltac:(done) Hok) as Hfeed. fold (feed p r v) in Hfeed.
    rewrite app_assoc, (deframe_app (length (fr_buf r ++ p))) by done. rewrite <-Hfeed.
    destruct (feed p r v) as [[[[[[]|e] r1] v1] answers]|]; [|done|done].
    cbn in Hfeed |- *. rewrite <-(IH r1 v1) by (by eapply deframe_reader_ok).
    by destruct (feed_all pieces r1 v1) as [[[[res r2] v2] answers']|].
Qed.

(** How the bytes of a stream are cut into pieces never matters: feeding the
    pieces gives the answers, the target, the leftover bytes or the error that
    feeding all of them at once gives. *)
Theorem feed_split_independent pieces v :
  observe (feed_all pieces frame_reader_new v) = observe (feed (concat pieces) frame_reader_new v).
Proof.
  rewrite (feed_all_spec pieces frame_reader_new v) by (by left).
  pose proof (feed_loop_spec (length (concat pieces)) (concat pieces) frame_reader_new v ltac:(done) ltac:(by left)) as H.
  symmetry. exact H.
Qed.

(* ------------------------------------------------------------------ *)
(** ** What a sender encodes is what the target is given *)

Inductive SentFrame : Set :=
| SfDescriptor (descriptor : list Z)
| SfChunk (seg_id chunk_index : Z) (bytes : list Z)
| SfTable (seg_id : Z) (leaves : list (list Z)).

Definition sent_bytes (f : SentFrame) : list Z :=
  match f with
  | SfDescriptor descriptor => descriptor_frame descriptor
  | SfChunk seg_id chunk_index bytes => chunk_frame seg_id chunk_index bytes
  | SfTable seg_id leaves => table_frame seg_id leaves
  end.
(** The payload and its kind, as the header declares them. *)
Definition sent_payload (f : SentFrame) : Z * Z :=
  match f with
  | SfDescriptor descriptor => (FRAME_DESCRIPTOR, Z.of_nat (length descriptor))
  | SfChunk _ _ bytes => (FRAME_CHUNK, Z.of_nat (length bytes))
  | SfTable _ leaves => (FRAME_CHUNK_TABLE, 32 * Z.of_nat (length leaves))
  end.
(** The lengths fit their 32-bit fields and a leaf is a hash. *)
Definition sent_ok (f : SentFrame) : Prop :=
  match f with
  | SfDescriptor descriptor => Z.of_nat (length descriptor) ≤ u32_max
  | SfChunk _ _ bytes => Z.of_nat (length bytes) ≤ u32_max
  | SfTable _ leaves => Z.of_nat (length leaves) ≤ u32_max ∧ Forall (λ l, length l = 32%nat) leaves
  end.

(** The frames pushed one by one, each within the limit of the target. *)
Fixpoint deliver (fs : list SentFrame) (v : T) : option Deframed :=
  match fs with
  | [] => Some (Ok frame_reader_new, v, [])
  | f :: fs =>
      match feed_refusal (ft_state v) with
      | Some e => Some (Err e, v, [])
      | None =>
          if ft_limit (sent_payload f).1 v <? (sent_payload f).2 then
            let '(e, v) := ft_poison SeFrameSizeLie v in Some (Err e, v, [])
          else '(answer, v) ← ft_push (sent_bytes f) v; prepend [answer] (deliver fs v)
      end
  end.

Lemma concat_leaves_length (leaves : list (list Z)) :
  Forall (λ l, length l = 32%nat) leaves → length (concat leaves) = (32 * length leaves)%nat.
Proof. induction 1 as [|l leaves Hl _ IH]; [done|]. cbn. rewrite length_app. lia. Qed.

(** A sent frame announces its own length. *)
Lemma sent_frame_header f : sent_ok f →
  ∃ hl, frame_header_len (format_byte_at (sent_bytes f) 0) = Some hl ∧ (hl ≤ length (sent_bytes f))%nat ∧
    format_byte_at (take hl (sent_bytes f)) 0 = (sent_payload f).1 ∧
    declared_payload (take hl (sent_bytes f)) = (sent_payload f).2 ∧
    length (sent_bytes f) = (hl + Z.to_nat (sent_payload f).2)%nat.
Proof.
  assert (∀ hl off z (l : list Z), (off + 4 ≤ hl)%nat → slice off 4 l = le_bytes 4 z → 0 ≤ z ≤ u32_max →
    read_le off 4 (take hl l) = z) as Hread.
  { intros hl off z l Hoff Hs Hz. unfold read_le. rewrite slice_of_take by done. rewrite Hs.
    apply of_le_bytes_le_bytes. unfold u32_max in Hz. lia. }
  destruct f as [dsc|seg idx bytes|seg leaves]; cbn [sent_ok sent_bytes sent_payload fst snd].
  - intros Hl. exists 5%nat. unfold descriptor_frame. rewrite !length_app, !length_le_bytes.
    split_and!; [done|cbn; lia|done| |cbn; lia].
    unfold declared_payload. change (format_byte_at _ 0) with 0. cbv iota.
    rewrite wrap32_id by (unfold is_u32; lia). apply Hread; [lia|read_field|lia].
  - intros Hl. exists 17%nat. unfold chunk_frame. rewrite !length_app, !length_le_bytes. split_and!; [done|cbn; lia|done| |cbn; lia].
    unfold declared_payload. change (format_byte_at _ 0) with 1. cbv iota.
    rewrite wrap32_id by (unfold is_u32; lia). apply Hread; [lia|read_field|lia].
  - intros [Hl Hf]. exists 13%nat. unfold table_frame. rewrite !length_app, !length_le_bytes, concat_leaves_length by done.
    split_and!; [done|cbn; lia|done| |cbn; lia].
    unfold declared_payload. change (format_byte_at _ 0) with 2. cbv iota. f_equal.
    rewrite wrap32_id by (unfold is_u32; lia). apply Hread; [lia|read_field|lia].
Qed.

Lemma deframe_deliver fs v : Forall sent_ok fs →
  deframe (length (concat (sent_bytes <$> fs))) (concat (sent_bytes <$> fs)) v = deliver fs v.
Proof.
  intros Hfs. revert v. induction Hfs as [|f fs Hf _ IH]; intros v; [done|]. cbn [fmap list_fmap concat deliver].
  change (list_fmap _ _ sent_bytes fs) with (sent_bytes <$> fs).
  destruct (sent_frame_header f Hf) as (hl & Hhl & Hle & Hkind & Hpay & Hlen). pose proof (header_len_range _ _ Hhl) as Hr.
  set (b := concat (sent_bytes <$> fs)) in *.
  assert (sent_bytes f ++ b ≠ []) as Hne by (intros [H0 _]%app_nil; rewrite H0 in Hle; cbn in Hle; lia).
  assert (format_byte_at (sent_bytes f ++ b) 0 = format_byte_at (sent_bytes f) 0) as Hb
    by (destruct (sent_bytes f); [cbn in Hle; lia|done]).
  assert (length (sent_bytes f ++ b) = S (length (sent_bytes f ++ b) - 1))%nat as Hs by (rewrite length_app; lia).
  rewrite Hs, deframe_S by done. destruct (feed_refusal _); [done|]. rewrite Hb, Hhl.
  destruct (_ <? hl)%nat eqn:E; split_bool; [rewrite length_app in E; lia|].
  rewrite take_app_le by done. unfold reader_admit. rewrite Hkind, Hpay. rewrite length_take, Nat.min_l by done.
  destruct (_ <? (sent_payload f).2); [by destruct (ft_poison _ v)|]. rewrite <-Hlen.
  destruct (_ <? length (sent_bytes f))%nat eqn:E2; split_bool; [rewrite length_app in E2; lia|].
  rewrite take_app_length, drop_app_length. destruct (ft_push (sent_bytes f) v) as [[answer v']|]; [cbn|done].
  by rewrite <-(IH v'), (deframe_fuel _ (length b)) by (rewrite ?length_app; lia).
Qed.

(** C24: Whatever pieces the bytes of encoded frames arrive in, the target is
    given exactly those frames, in order, each checked against its limit before
    it is buffered, until the target takes no more. *)
Theorem frames_reassembled pieces fs v :
  Forall sent_ok fs → concat pieces = concat (sent_bytes <$> fs) →
  observe (feed_all pieces frame_reader_new v) = deliver fs v.
Proof.
  intros Hfs Hp. rewrite (feed_all_spec pieces frame_reader_new v) by (by left). cbn [fr_buf frame_reader_new app].
  rewrite Hp. by apply deframe_deliver.
Qed.
End reader.

(* ------------------------------------------------------------------ *)
(** ** A sample: the stream of [RvfReceive] byte by byte *)

#[local] Instance frames_sha : Sha256 := λ data, replicate 32 (byte_sum data).
#[local] Instance frames_ed : Ed25519 :=
  {| ed_public_key seed := seed; ed_sign seed msg := replicate 64 (byte_sum (seed ++ msg));
     ed_key_ok _ := true;
     ed_verify_strict key msg sig := bool_decide (sig = replicate 64 (byte_sum (key ++ msg))) |}.
#[local] Instance frames_ct : ConstantTimeEq := λ a b, bool_decide (a = b).

Definition sample_sent : list SentFrame :=
  [SfDescriptor sample_descriptor; SfChunk 10 0 (replicate 64 1); SfChunk 11 0 (replicate 70 2)].
Definition sample_pieces : list (list Z) := (λ b, [b]) <$> concat (sent_bytes <$> sample_sent).

Lemma frames_reassembled_witness :
  (λ o : StreamResult FrameReader * StreamVerifier * list (StreamResult Event), (o.1.1, sv_state o.1.2, length o.2)) <$>
    observe (feed_all sample_pieces frame_reader_new (stream_verifier_new sample_stream_policy)) =
  Some (Ok frame_reader_new, StComplete, 3%nat).
Proof.
  rewrite (frames_reassembled sample_pieces sample_sent (stream_verifier_new sample_stream_policy)).
  - vm_compute. reflexivity.
  - repeat constructor; vm_compute; discriminate.
  - vm_compute. reflexivity.
Defined.
