(* ===== verification/RvfSegment.v ===== *)
(** The checks on a segment whose bytes go by in chunks: [SegmentChecker] of
    [crates/rvm-rvf/src/stream/segment.rs].

    The checker keeps a few hasher states, the 64-byte header and the footer.
    The file proves that, however the stored bytes are cut into chunks, it
    reaches exactly the verdict a buffer holding them whole determines: the
    parsed segment, the facts and every error of [verify]. *)

From stdpp Require Import base numbers list option.
From Stdlib Require Import ZArith Lia.
From S2P Require Import Prelude.
From S2P Require Import Text.
From S2P Require Import Bytes.
From S2P Require Import WitnessLog.
From S2P Require Import Security.
From S2P Require Import Signers.
From S2P Require Import RvfFormat.
From S2P Require Import RvfPayload.
From S2P Require Import RvfCapability.
From S2P Require Import RvfVerify.

Definition MAX_FOOTER : nat := 8 + Z.to_nat MAX_SIGNATURE_LENGTH.

Inductive SegmentFault : Set :=
| FaultMalformed (e : RvfError)
| FaultDescriptorMismatch.
Notation FaultResult := (result SegmentFault) (only parsing).

Record PayloadSpan : Set := mkPayloadSpan {
  sp_start : nat;
  sp_end : nat;
  sp_payload_offset : Z;
}.

(** The hasher states are what the hashers absorbed. *)
Record SegmentChecker : Set := mkSegmentChecker {
  sc_seg_id : Z;
  sc_seg_type : Z;
  sc_stored_len : Z;
  sc_uncompressed_len : Z;
  sc_body_offset : Z;
  sc_pos : nat;
  sc_head : list Z;
  sc_header : option SegmentHeader;
  sc_xxh : option (list Z);
  sc_shake : option (list Z);
  sc_sha : option (list Z);
  sc_wasm : option WasmPayloadScanner;
  sc_tail : list Z;
  sc_last : list Z;
}.

Definition segment_checker_new (seg_id seg_type body_offset stored_len uncompressed_len : Z) : SegmentChecker :=
  mkSegmentChecker seg_id seg_type stored_len uncompressed_len body_offset 0 (replicate 64 0) None None None None None
    [] [].

Definition set_sc_head (pos : nat) (head : list Z) (c : SegmentChecker) : SegmentChecker :=
  mkSegmentChecker (sc_seg_id c) (sc_seg_type c) (sc_stored_len c) (sc_uncompressed_len c) (sc_body_offset c)
    pos head (sc_header c) (sc_xxh c) (sc_shake c) (sc_sha c) (sc_wasm c) (sc_tail c) (sc_last c).
Definition set_sc_started (h : SegmentHeader) (xxh shake sha : option (list Z)) (wasm : option WasmPayloadScanner)
    (c : SegmentChecker) : SegmentChecker :=
  mkSegmentChecker (sc_seg_id c) (sc_seg_type c) (sc_stored_len c) (sc_uncompressed_len c) (sc_body_offset c)
    (sc_pos c) (sc_head c) (Some h) xxh shake sha wasm (sc_tail c) (sc_last c).
Definition set_sc_payload (pos : nat) (xxh shake sha : option (list Z)) (wasm : option WasmPayloadScanner)
    (c : SegmentChecker) : SegmentChecker :=
  mkSegmentChecker (sc_seg_id c) (sc_seg_type c) (sc_stored_len c) (sc_uncompressed_len c) (sc_body_offset c)
    pos (sc_head c) (sc_header c) xxh shake sha wasm (sc_tail c) (sc_last c).
Definition set_sc_tail (pos : nat) (tail : list Z) (c : SegmentChecker) : SegmentChecker :=
  mkSegmentChecker (sc_seg_id c) (sc_seg_type c) (sc_stored_len c) (sc_uncompressed_len c) (sc_body_offset c)
    pos (sc_head c) (sc_header c) (sc_xxh c) (sc_shake c) (sc_sha c) (sc_wasm c) tail (sc_last c).
Definition set_sc_last (last : list Z) (c : SegmentChecker) : SegmentChecker :=
  mkSegmentChecker (sc_seg_id c) (sc_seg_type c) (sc_stored_len c) (sc_uncompressed_len c) (sc_body_offset c)
    (sc_pos c) (sc_head c) (sc_header c) (sc_xxh c) (sc_shake c) (sc_sha c) (sc_wasm c) (sc_tail c) last.

(** The last 63 bytes seen. *)
Definition KEEP : nat := SEGMENT_ALIGNMENT - 1.
Definition keep_last (bytes last : list Z) : list Z :=
  if (KEEP <=? length bytes)%nat then drop (length bytes - KEEP) bytes
  else let all := last ++ bytes in drop (length all - KEEP) all.

(** [start_payload]: the header, once it is whole. *)
Definition start_payload (c : SegmentChecker) : FaultResult SegmentChecker :=
  match header_parse (sc_head c) with
  | Err e => Err (FaultMalformed e)
  | Ok h =>
      if MAX_SEGMENT_PAYLOAD <? sh_payload_length h then Err (FaultMalformed PayloadTooLarge)
      else if sc_stored_len c <? Z.of_nat SEGMENT_HEADER_SIZE + sh_payload_length h
      then Err (FaultMalformed PayloadOutOfBounds)
      else if negb (sh_seg_type h =? sc_seg_type c) || negb (sh_segment_id h =? sc_seg_id c) ||
              (sc_uncompressed_len c <? sh_uncompressed_len h)
      then Err FaultDescriptorMismatch
      else
        let '(xxh, shake) :=
          if sh_checksum_algo h =? 2 then (sc_xxh c, Some [])
          else (Some [], if header_is_signed h then Some [] else sc_shake c) in
        Ok (set_sc_started h xxh shake (if type_is_executable (sh_seg_type h) then Some [] else sc_sha c)
              (if (sh_seg_type h =? SEG_TYPE_WASM) && negb (header_is_encrypted h) then Some scanner_new else sc_wasm c)
              c)
  end.

(** [w.push(part, |_| {})] with the refusal dropped. *)
Definition scan_part (part : list Z) (w : WasmPayloadScanner) : option WasmPayloadScanner :=
  '(_, w, _) ← scanner_push part w []; Some w.

Definition absorb (part : list Z) (h : option (list Z)) : option (list Z) := (λ a, a ++ part) <$> h.

(** The bytes of the payload, given to the hashers and the scanner. *)
Definition push_part (bytes : list Z) (consumed : nat) (h : SegmentHeader) (c : SegmentChecker) (span : PayloadSpan)
    : option (list Z * PayloadSpan * SegmentChecker) :=
  let payload_end := (SEGMENT_HEADER_SIZE + Z.to_nat (sh_payload_length h))%nat in
  if (sc_pos c <? payload_end)%nat && negb (length bytes =? 0)%nat then
    let k := Nat.min (payload_end - sc_pos c) (length bytes) in
    let part := take k bytes in
    wasm ← (match sc_wasm c with Some w => Some <$> scan_part part w | None => Some None end);
    Some (drop k bytes,
          mkPayloadSpan consumed (consumed + k) (Z.of_nat (sc_pos c - SEGMENT_HEADER_SIZE)),
          set_sc_payload (sc_pos c + k) (absorb part (sc_xxh c)) (absorb part (sc_shake c))
            (absorb part (sc_sha c)) wasm c)
  else Some (bytes, span, c).

(** The bytes after it: the footer of a signed segment. *)
Definition push_tail (bytes : list Z) (h : SegmentHeader) (c : SegmentChecker) : SegmentChecker :=
  if (length bytes =? 0)%nat then c
  else
    let tail := if header_is_signed h && (length (sc_tail c) <? MAX_FOOTER)%nat
                then sc_tail c ++ take (Nat.min (MAX_FOOTER - length (sc_tail c)) (length bytes)) bytes
                else sc_tail c in
    set_sc_tail (sc_pos c + length bytes) tail c.

Definition push_payload (bytes : list Z) (consumed : nat) (c : SegmentChecker) (span : PayloadSpan)
    : option (PayloadSpan * SegmentChecker) :=
  match sc_header c with
  | None => Some (span, c)
  | Some h => '(bytes, span, c) ← push_part bytes consumed h c span; Some (span, push_tail bytes h c)
  end.

Definition segment_push (bytes : list Z) (c : SegmentChecker) : option (FaultResult PayloadSpan * SegmentChecker) :=
  let c := set_sc_last (keep_last bytes (sc_last c)) c in
  let span := mkPayloadSpan 0 0 0 in
  if (sc_pos c <? SEGMENT_HEADER_SIZE)%nat then
    let k := Nat.min (SEGMENT_HEADER_SIZE - sc_pos c) (length bytes) in
    let c := set_sc_head (sc_pos c + k) (write_at (sc_pos c) (take k bytes) (sc_head c)) c in
    let started := if (sc_pos c =? SEGMENT_HEADER_SIZE)%nat then start_payload c else Ok c in
    match started with
    | Err f => Some (Err f, c)
    | Ok c => '(span, c) ← push_payload (drop k bytes) k c span; Some (Ok span, c)
    end
  else '(span, c) ← push_payload bytes 0 c span; Some (Ok span, c).

Section finishing.
Context {SH : Sha256} {HH : SegmentHashes} {CT : ConstantTimeEq}.

(** The signature footer: where it ends and what it says. *)
Definition finish_footer (h : SegmentHeader) (c : SegmentChecker) (payload_end : Z)
    : FaultResult (Z * option (Z * Z * list Z)) :=
  if header_is_signed h then
    match decode_signature_footer (sc_tail c) with
    | Err e => Err (FaultMalformed e)
    | Ok f =>
        if sf_sig_length f =? 0 then Err (FaultMalformed SignedFlagWithoutFooter)
        else if negb (sf_footer_length f =? compute_footer_length (sf_sig_length f)) then Err (FaultMalformed MalformedFooter)
        else if sc_stored_len c <? payload_end + sf_footer_length f then Err (FaultMalformed MalformedFooter)
        else Ok (sf_footer_length f, Some (sf_sig_algo f, sf_sig_length f, sf_signature f))
    end
  else Ok (0, None).

(** Only a short all-zero tail after the last segment is padding. *)
Definition zero_tail (c : SegmentChecker) (is_last : bool) (extra : Z) : bool :=
  is_last && (extra <? Z.of_nat SEGMENT_HEADER_SIZE) && (extra <=? Z.of_nat (length (sc_last c))) &&
  forallb (λ b, b =? 0) (drop (length (sc_last c) - Z.to_nat extra) (sc_last c)).

Definition segment_facts (h : SegmentHeader) (sig : option (Z * Z * list Z)) (c : SegmentChecker) : SegmentFacts :=
  let shake_hash := match sc_shake c with Some s => shake256_128 s | None => replicate 16 0 end in
  let content := if sh_checksum_algo h =? 2 then shake_hash
                 else match sc_xxh c with Some x => xxh3_128 x | None => replicate 16 0 end in
  let sig_facts :=
    match sig with
    | None => SigUnsigned
    | Some (algo, len, signature) =>
        SigDecoded algo len (if (length signature =? 64)%nat then Some signature else None)
          (build_signed_message_from_hash h shake_hash)
    end in
  mkSegmentFacts (ct_eq content (sh_content_hash h)) sig_facts (sha256 <$> sc_sha c)
    ((λ w, (scanner_finish w []).1) <$> sc_wasm c).

Definition segment_finish (index : nat) (is_last : bool) (c : SegmentChecker)
    : FaultResult (ParsedSegment * SegmentFacts) :=
  match sc_header c with
  | None => Err (FaultMalformed Truncated)
  | Some h =>
      let payload_end := Z.of_nat SEGMENT_HEADER_SIZE + sh_payload_length h in
      match finish_footer h c payload_end with
      | Err f => Err f
      | Ok (footer_len, sig) =>
          let end_ := payload_end + footer_len in
          let next := Z.of_nat (align_up (Z.to_nat end_)) in
          if (next <? sc_stored_len c) && negb (zero_tail c is_last (sc_stored_len c - next))
          then Err (FaultMalformed TrailingBytes)
          else if (sc_stored_len c <? next) && negb is_last then Err (FaultMalformed Truncated)
          else
            let off := Z.to_nat (sc_body_offset c) in
            let payload_start := (off + SEGMENT_HEADER_SIZE)%nat in
            Ok (mkParsedSegment index off h
                  (payload_start, (payload_start + Z.to_nat (sh_payload_length h))%nat)
                  (if header_is_signed h then Some ((off + Z.to_nat payload_end)%nat, (off + Z.to_nat end_)%nat) else None),
                segment_facts h sig c)
      end
  end.

(** A segment's chunks in order, up to the first fault, and the end. *)
Fixpoint segment_pushes (chunks : list (list Z)) (c : SegmentChecker) : option (FaultResult SegmentChecker) :=
  match chunks with
  | [] => Some (Ok c)
  | b :: chunks =>
      match segment_push b c with
      | Some (Ok _, c) => segment_pushes chunks c
      | Some (Err f, _) => Some (Err f)
      | None => None
      end
  end.
Definition segment_run (chunks : list (list Z)) (index : nat) (is_last : bool) (c : SegmentChecker)
    : option (FaultResult (ParsedSegment * SegmentFacts)) :=
  r ← segment_pushes chunks c;
  Some (match r with Ok c => segment_finish index is_last c | Err f => Err f end).
End finishing.

(* ------------------------------------------------------------------ *)
(** ** The checker follows the bytes *)

#[local] Opaque WASM_HEADER_LEN MAX_FOOTER.

(** What the scanner passes on does not steer it. *)
Definition same_scan (a b : option (result WasmPayloadError unit * WasmPayloadScanner * list Z)) : Prop :=
  match a, b with
  | Some (r, s, _), Some (r', s', _) => r = r' ∧ s = s'
  | None, None => True
  | _, _ => False
  end.

Lemma scanner_emit_sink b s sink1 sink2 : ∃ s' k1 k2, scanner_emit b s sink1 = (s', k1) ∧ scanner_emit b s sink2 = (s', k2).
Proof. destruct b as [|x b]; unfold scanner_emit; eauto. Qed.

Lemma scanner_loop_sink fuel bytes s sink1 sink2 :
  same_scan (scanner_loop fuel bytes s sink1) (scanner_loop fuel bytes s sink2).
Proof.
  revert bytes s sink1 sink2. induction fuel as [|fuel IH]; intros bytes s sink1 sink2; [exact I|].
  cbn [scanner_loop]. set (k := Nat.min _ _). set (head := write_at _ _ _). set (s1 := mkScanner _ head _ _ _).
  destruct (ws_mode s) as [| | |want|e].
  1, 3: destruct (_ && _ && _);
    [destruct (scanner_emit_sink (take (ws_have s1) (ws_head s1)) (scanner_set_mode MBare s1) sink1 sink2) as (s' & k1 & k2 & -> & ->);
     apply IH|];
    destruct (_ && _); [|by split]; (destruct (parse_header _); [apply IH|by split]).
  - destruct (scanner_emit_sink bytes s sink1 sink2) as (s' & k1 & k2 & -> & ->). by split.
  - destruct (_ <? _); [by split|].
    destruct (scanner_emit_sink bytes s sink1 sink2) as (s' & k1 & k2 & -> & ->). by split.
  - by split.
Qed.

Lemma scanner_push_sink bytes s sink1 sink2 : same_scan (scanner_push bytes s sink1) (scanner_push bytes s sink2).
Proof. apply scanner_loop_sink. Qed.

#[local] Opaque scanner_push.

Lemma scan_part_ok p part w sink :
  Forall is_byte (p ++ part) → scanned p w sink →
  ∃ w' sink', scan_part part w = Some w' ∧ scanned (p ++ part) w' sink'.
Proof.
  intros Hb Hs. destruct (scanned_push p part w sink Hb Hs) as (r & w' & sink' & Hp & Hs' & _).
  exists w', sink'. split; [|done]. unfold scan_part.
  pose proof (scanner_push_sink part w sink []) as He. rewrite Hp in He.
  destruct (scanner_push part w []) as [[[r2 w2] k]|]; [|done]. destruct He as [_ <-]. done.
Qed.

(** The payload bytes among the stored bytes [p]. *)
Definition payload_part (h : SegmentHeader) (p : list Z) : list Z :=
  slice SEGMENT_HEADER_SIZE (Z.to_nat (sh_payload_length h)) p.
Definition after_payload (h : SegmentHeader) (p : list Z) : list Z :=
  drop (SEGMENT_HEADER_SIZE + Z.to_nat (sh_payload_length h)) p.
Definition is_scanned (h : SegmentHeader) : bool :=
  (sh_seg_type h =? SEG_TYPE_WASM) && negb (header_is_encrypted h).
Definition room_left (h : SegmentHeader) (p : list Z) : nat :=
  (SEGMENT_HEADER_SIZE + Z.to_nat (sh_payload_length h) - length p)%nat.

#[local] Arguments payload_part : simpl never.
#[local] Arguments after_payload : simpl never.
#[local] Arguments room_left : simpl never.

(** The checker after the bytes [p], the header among them. *)
Record payload_at (h : SegmentHeader) (p : list Z) (c : SegmentChecker) : Prop := {
  pa_length : (SEGMENT_HEADER_SIZE ≤ length p)%nat;
  pa_pos : sc_pos c = length p;
  pa_header : sc_header c = Some h;
  pa_xxh : sc_xxh c = if sh_checksum_algo h =? 2 then None else Some (payload_part h p);
  pa_shake : sc_shake c = if (sh_checksum_algo h =? 2) || header_is_signed h then Some (payload_part h p) else None;
  pa_sha : sc_sha c = if type_is_executable (sh_seg_type h) then Some (payload_part h p) else None;
  pa_wasm : if is_scanned h then ∃ w sink, sc_wasm c = Some w ∧ scanned (payload_part h p) w sink else sc_wasm c = None;
  pa_tail : sc_tail c = if header_is_signed h then take MAX_FOOTER (after_payload h p) else [];
}.

(** What a push leaves alone. *)
Definition same_segment (c c' : SegmentChecker) : Prop :=
  sc_seg_id c' = sc_seg_id c ∧ sc_seg_type c' = sc_seg_type c ∧ sc_stored_len c' = sc_stored_len c ∧
  sc_uncompressed_len c' = sc_uncompressed_len c ∧ sc_body_offset c' = sc_body_offset c.

Lemma payload_part_app h p bytes : (SEGMENT_HEADER_SIZE ≤ length p)%nat →
  payload_part h (p ++ bytes) = payload_part h p ++ take (room_left h p) bytes.
Proof.
  intros Hp. unfold payload_part, slice, room_left. rewrite drop_app_le by done. rewrite take_app, length_drop.
  do 2 f_equal. unfold SEGMENT_HEADER_SIZE in *. lia.
Qed.

Lemma after_payload_app h p bytes :
  after_payload h (p ++ bytes) = after_payload h p ++ drop (room_left h p) bytes.
Proof. unfold after_payload, room_left. by rewrite drop_app. Qed.

(** The span is the bytes that were added to the payload. *)
Definition span_ok (consumed : nat) (h : SegmentHeader) (p bytes : list Z) (span span' : PayloadSpan) : Prop :=
  let k := Nat.min (room_left h p) (length bytes) in
  span' = if (k =? 0)%nat then span
          else mkPayloadSpan consumed (consumed + k) (Z.of_nat (length p - SEGMENT_HEADER_SIZE)).

(** The payload half of a push. *)
Record part_pushed (h : SegmentHeader) (p bytes : list Z) (c c1 : SegmentChecker) : Prop := {
  pp_same : same_segment c c1;
  pp_last : sc_last c1 = sc_last c;
  pp_header : sc_header c1 = Some h;
  pp_tail : sc_tail c1 = sc_tail c;
  pp_pos : sc_pos c1 = (length p + Nat.min (room_left h p) (length bytes))%nat;
  pp_xxh : sc_xxh c1 = if sh_checksum_algo h =? 2 then None else Some (payload_part h (p ++ bytes));
  pp_shake : sc_shake c1 = if (sh_checksum_algo h =? 2) || header_is_signed h then Some (payload_part h (p ++ bytes)) else None;
  pp_sha : sc_sha c1 = if type_is_executable (sh_seg_type h) then Some (payload_part h (p ++ bytes)) else None;
  pp_wasm : if is_scanned h then ∃ w sink, sc_wasm c1 = Some w ∧ scanned (payload_part h (p ++ bytes)) w sink
            else sc_wasm c1 = None;
}.

Lemma take_min_all n (l : list Z) : take (Nat.min n (length l)) l = take n l ∧ drop (Nat.min n (length l)) l = drop n l.
Proof.
  destruct (decide (n ≤ length l)%nat); [by rewrite Nat.min_l|].
  rewrite Nat.min_r by lia. by rewrite !take_ge, !drop_ge by lia.
Qed.

Lemma push_part_ok h p c bytes consumed span :
  payload_at h p c → Forall is_byte (p ++ bytes) →
  ∃ span' c1, push_part bytes consumed h c span = Some (drop (room_left h p) bytes, span', c1) ∧
    part_pushed h p bytes c c1 ∧ span_ok consumed h p bytes span span'.
Proof.
  intros H Hb. destruct H as [Hlen Hpos Hhdr Hx Hsk Hsh Hw Ht].
  pose proof (payload_part_app h p bytes Hlen) as Hpart. unfold push_part, span_ok. rewrite Hpos.
  change (SEGMENT_HEADER_SIZE + Z.to_nat (sh_payload_length h) - length p)%nat with (room_left h p).
  destruct (_ && negb _) eqn:E.
  - apply andb_true_iff in E as [E1 E2]. split_bool.
    assert (0 < Nat.min (room_left h p) (length bytes))%nat as Hk by (unfold room_left in *; lia).
    destruct (take_min_all (room_left h p) bytes) as [-> ->]. set (part := take (room_left h p) bytes) in *.
    assert (∃ wasm, match sc_wasm c with Some w => Some <$> scan_part part w | None => Some None end = Some wasm ∧
      if is_scanned h then ∃ w sink, wasm = Some w ∧ scanned (payload_part h (p ++ bytes)) w sink else wasm = None)
      as (wasm & -> & Hwasm).
    { destruct (is_scanned h); [|rewrite Hw; by exists None]. destruct Hw as (w & sink & -> & Hs).
      destruct (scan_part_ok (payload_part h p) part w sink) as (w' & sink' & Hp' & Hs'); [|done|].
      - rewrite <-Hpart. unfold payload_part. by apply slice_bytes.
      - rewrite Hp'. cbn. exists (Some w'). split; [done|]. exists w', sink'. by rewrite Hpart. }
    cbn [mbind option_bind]. eexists _, _. split; [done|].
    rewrite (proj2 (Nat.eqb_neq _ _)) by lia. split; [|done].
    split; cbn; try done.
    + rewrite Hx, Hpart. by destruct (_ =? 2).
    + rewrite Hsk, Hpart. by destruct (_ || _).
    + rewrite Hsh, Hpart. by destruct (type_is_executable _).
  - assert (Nat.min (room_left h p) (length bytes) = 0)%nat as Hk.
    { apply andb_false_iff in E as [E|E]; split_bool; unfold room_left; lia. }
    destruct (take_min_all (room_left h p) bytes) as [Htake Hdrop]. rewrite Hk in Htake, Hdrop.
    rewrite <-Htake in Hpart. cbn in Hpart. rewrite app_nil_r in Hpart. rewrite <-Hdrop, Hk. eexists _, _. split; [done|].
    split; [|done]. split; rewrite ?Hpart; try done. lia.
Qed.

Lemma tail_app h p c rest bytes :
  sc_tail c = (if header_is_signed h then take MAX_FOOTER (after_payload h p) else []) →
  after_payload h (p ++ bytes) = after_payload h p ++ rest →
  (if header_is_signed h && (length (sc_tail c) <? MAX_FOOTER)%nat
   then sc_tail c ++ take (Nat.min (MAX_FOOTER - length (sc_tail c)) (length rest)) rest
   else sc_tail c) = if header_is_signed h then take MAX_FOOTER (after_payload h (p ++ bytes)) else [].
Proof.
  intros -> ->. destruct (header_is_signed h); [|done]. cbn [andb].
  rewrite take_app, length_take. destruct (Nat.ltb_spec (MAX_FOOTER `min` length (after_payload h p)) MAX_FOOTER).
  - f_equal. rewrite (proj1 (take_min_all _ rest)). f_equal. lia.
  - replace (MAX_FOOTER - length (after_payload h p))%nat with 0%nat by lia. cbn. by rewrite app_nil_r.
Qed.

Lemma push_payload_ok h p c bytes consumed span :
  payload_at h p c → Forall is_byte (p ++ bytes) →
  ∃ span' c', push_payload bytes consumed c span = Some (span', c') ∧ payload_at h (p ++ bytes) c' ∧
    same_segment c c' ∧ sc_last c' = sc_last c ∧ span_ok consumed h p bytes span span'.
Proof.
  intros H Hb. pose proof H as [Hlen _ Hhdr _ _ _ _ Ht]. unfold push_payload. rewrite Hhdr.
  destruct (push_part_ok h p c bytes consumed span H Hb) as (span' & c1 & -> & [Hsame Hlast Hh1 Ht1 Hp1 Hx1 Hsk1 Hsh1 Hw1] & Hspan).
  cbn [mbind option_bind]. exists span', (push_tail (drop (room_left h p) bytes) h c1).
  pose proof (after_payload_app h p bytes) as Hafter.
  assert (sc_pos c1 + length (drop (room_left h p) bytes) = length (p ++ bytes))%nat as Hpos'
    by (rewrite Hp1, length_app, length_drop; lia).
  split; [done|]. unfold push_tail. destruct (length (drop _ bytes) =? 0)%nat eqn:E; split_bool.
  - assert (drop (room_left h p) bytes = []) as Hnil by (by apply nil_length_inv).
    rewrite Hnil, app_nil_r in Hafter. rewrite Hnil in Hpos'. cbn in Hpos'.
    split_and!; [|done|done|done]. split; try done; [rewrite length_app; lia|lia|by rewrite Ht1, Ht, Hafter].
  - split_and!; [|done|done|done]. set (tail := if _ && _ then _ else _).
    assert (tail = if header_is_signed h then take MAX_FOOTER (after_payload h (p ++ bytes)) else []) as Htail
      by (subst tail; rewrite Ht1; by apply tail_app).
    clearbody tail. split; cbn; try done. rewrite length_app. lia.
Qed.

(* ------------------------------------------------------------------ *)
(** ** The header, once it is whole *)

Lemma header_parse_take l : header_parse (take SEGMENT_HEADER_SIZE l) = header_parse l.
Proof.
  unfold header_parse. rewrite length_take.
  destruct (Nat.ltb_spec (length l) SEGMENT_HEADER_SIZE) as [H|H].
  - by rewrite (proj2 (Nat.ltb_lt _ _)) by lia.
  - rewrite (proj2 (Nat.ltb_ge _ _)) by lia. unfold read_le, format_byte_at.
    rewrite !slice_of_take, !lookup_take_lt by (unfold SEGMENT_HEADER_SIZE; lia). done.
Qed.

(** The verdict on the header. *)
Definition start_verdict (c : SegmentChecker) (p : list Z) : FaultResult SegmentHeader :=
  match header_parse p with
  | Err e => Err (FaultMalformed e)
  | Ok h =>
      if MAX_SEGMENT_PAYLOAD <? sh_payload_length h then Err (FaultMalformed PayloadTooLarge)
      else if sc_stored_len c <? Z.of_nat SEGMENT_HEADER_SIZE + sh_payload_length h
      then Err (FaultMalformed PayloadOutOfBounds)
      else if negb (sh_seg_type h =? sc_seg_type c) || negb (sh_segment_id h =? sc_seg_id c) ||
              (sc_uncompressed_len c <? sh_uncompressed_len h)
      then Err FaultDescriptorMismatch
      else Ok h
  end.

(** The checker before it has the header. *)
Record fresh_at (p : list Z) (c : SegmentChecker) : Prop := {
  fr_length : (length p < SEGMENT_HEADER_SIZE)%nat;
  fr_pos : sc_pos c = length p;
  fr_head : sc_head c = p ++ replicate (SEGMENT_HEADER_SIZE - length p) 0;
  fr_header : sc_header c = None;
  fr_xxh : sc_xxh c = None; fr_shake : sc_shake c = None; fr_sha : sc_sha c = None; fr_wasm : sc_wasm c = None;
  fr_tail : sc_tail c = [];
}.

(** The checker after [p], having started as [c0]. *)
Definition checker_at (c0 : SegmentChecker) (p : list Z) (c : SegmentChecker) : Prop :=
  same_segment c0 c ∧ sc_last c = drop (length p - KEEP) p ∧
  (fresh_at p c ∨ ∃ h, start_verdict c0 p = Ok h ∧ payload_at h p c).

Lemma keep_last_app p bytes : keep_last bytes (drop (length p - KEEP) p) = drop (length (p ++ bytes) - KEEP) (p ++ bytes).
Proof.
  unfold keep_last. cbn zeta. rewrite !length_app, length_drop. destruct (Nat.leb_spec KEEP (length bytes)) as [H|H].
  - rewrite drop_app_ge by lia. f_equal. lia.
  - destruct (Nat.le_gt_cases (length p) KEEP) as [Hp|Hp].
    + replace (length p - KEEP)%nat with 0%nat by lia. rewrite drop_0. f_equal. lia.
    + rewrite drop_app_le by (rewrite length_drop; lia). rewrite drop_drop, drop_app_le by lia. do 2 f_equal. lia.
Qed.

Lemma start_payload_ok c0 c p :
  same_segment c0 c → length p = SEGMENT_HEADER_SIZE → sc_head c = p → sc_pos c = length p →
  sc_xxh c = None → sc_shake c = None → sc_sha c = None → sc_wasm c = None → sc_tail c = [] →
  match start_payload c with
  | Err f => start_verdict c0 p = Err f
  | Ok c' => ∃ h, start_verdict c0 p = Ok h ∧ payload_at h p c' ∧ same_segment c0 c' ∧ sc_last c' = sc_last c
  end.
Proof.
  intros (E1 & E2 & E3 & E4 & E5) Hl Hh Hp Hx Hsk Hsh Hw Ht. unfold start_payload, start_verdict.
  rewrite Hh, E1, E2, E3, E4, Hx, Hsk, Hsh, Hw. destruct (header_parse p) as [h|e]; [|done].
  destruct (_ <? sh_payload_length h); [done|]. destruct (sc_stored_len c0 <? _); [done|].
  destruct (_ || _ || _); [done|].
  assert (payload_part h p = []) as Hpart by (unfold payload_part, slice; rewrite drop_ge by lia; by rewrite take_nil).
  assert (after_payload h p = []) as Hafter by (unfold after_payload; apply drop_ge; lia).
  destruct (sh_checksum_algo h =? 2) eqn:Ea; exists h; (split; [done|]);
    (split; [|split; [by split_and!|done]]); split; cbn; rewrite ?Ea, ?Hpart, ?Hafter; cbn; try done; try lia;
    try (by destruct (header_is_signed h)); unfold is_scanned;
    (destruct (_ && _); [exists scanner_new, []; split; [done|apply scanned_new]|done]).
Qed.

Lemma start_verdict_take c p q : (SEGMENT_HEADER_SIZE ≤ length p)%nat → start_verdict c (p ++ q) = start_verdict c p.
Proof.
  intros Hp. unfold start_verdict. by rewrite <-(header_parse_take (p ++ q)), take_app_le, header_parse_take by done.
Qed.

Lemma same_segment_trans c c' c'' : same_segment c c' → same_segment c' c'' → same_segment c c''.
Proof. unfold same_segment. intros (?&?&?&?&?) (?&?&?&?&?). split_and!; congruence. Qed.

(** The part of the pushed bytes a span names. *)
Definition span_part (span : PayloadSpan) (bytes : list Z) : list Z :=
  slice (sp_start span) (sp_end span - sp_start span) bytes.
Definition span_fits (p bytes : list Z) (span : PayloadSpan) (c : SegmentChecker) : Prop :=
  (sp_start span ≤ sp_end span ≤ length bytes)%nat ∧
  ∀ h, sc_header c = Some h → payload_part h (p ++ bytes) = payload_part h p ++ span_part span bytes.

(** What one push does to a checker that follows the bytes. *)
Definition push_follows (c0 : SegmentChecker) (p bytes : list Z) (r : option (FaultResult PayloadSpan * SegmentChecker))
    : Prop :=
  match r with
  | Some (Ok span, c) => checker_at c0 (p ++ bytes) c ∧ span_fits p bytes span c
  | Some (Err f, _) => (SEGMENT_HEADER_SIZE ≤ length (p ++ bytes))%nat ∧ start_verdict c0 (p ++ bytes) = Err f
  | None => False
  end.

Definition no_span : PayloadSpan := mkPayloadSpan 0 0 0.

Lemma span_ok_part h p bytes consumed rest span' :
  (consumed ≤ length bytes)%nat → rest = drop consumed bytes → span_ok consumed h p rest no_span span' →
  (sp_start span' ≤ sp_end span' ≤ length bytes)%nat ∧ span_part span' bytes = take (room_left h p) rest.
Proof.
  unfold span_ok, span_part, slice. cbn zeta. intros Hc ->. set (k := Nat.min _ _). intros ->.
  assert (k ≤ length bytes - consumed)%nat as Hk by (subst k; rewrite length_drop; lia).
  destruct (take_min_all (room_left h p) (drop consumed bytes)) as [Htake _]. fold k in Htake.
  destruct (Nat.eqb_spec k 0) as [E|E]; cbn [no_span sp_start sp_end].
  - rewrite <-Htake, E. split; [lia|done].
  - split; [lia|]. by replace (consumed + k - consumed)%nat with k by lia.
Qed.

Lemma payload_part_short h p : (length p ≤ SEGMENT_HEADER_SIZE)%nat → payload_part h p = [].
Proof. intros H. unfold payload_part, slice. rewrite drop_ge by done. apply take_nil. Qed.

(** The rest of a push, once the first [consumed] bytes went to the header. *)
Lemma push_started c0 h p bytes consumed c :
  (consumed ≤ length bytes)%nat → same_segment c0 c → sc_last c = drop (length (p ++ bytes) - KEEP) (p ++ bytes) →
  start_verdict c0 (p ++ take consumed bytes) = Ok h → payload_at h (p ++ take consumed bytes) c →
  Forall is_byte (p ++ bytes) → consumed = 0%nat ∨ (length (p ++ take consumed bytes) ≤ SEGMENT_HEADER_SIZE)%nat →
  push_follows c0 p bytes ('(span, c) ← push_payload (drop consumed bytes) consumed c no_span; Some (Ok span, c)).
Proof.
  intros Hc Hs Hl Hv Hp Hb Hshort.
  assert (p ++ bytes = (p ++ take consumed bytes) ++ drop consumed bytes) as Hsplit by (by rewrite <-app_assoc, take_drop).
  rewrite Hsplit in Hb. destruct (push_payload_ok h _ c _ consumed no_span Hp Hb) as (span' & c' & -> & Hp' & Hs' & Hl' & Hspan).
  rewrite <-Hsplit in Hp'. cbn.
  split; [split_and!; [by eapply same_segment_trans|by rewrite Hl'|right]; exists h; split; [|done]|].
  { rewrite Hsplit, start_verdict_take; [done|apply Hp]. }
  apply (span_ok_part _ _ bytes) in Hspan as [Hin Hpart]; [|done..]. split; [done|]. intros h' Hh'.
  rewrite (pa_header _ _ _ Hp') in Hh'. injection Hh' as <-. rewrite Hpart, Hsplit, payload_part_app by apply Hp. f_equal.
  destruct Hshort as [-> | Hshort]; [by rewrite take_0, app_nil_r|]. rewrite !payload_part_short; [done| |done].
  rewrite length_app in Hshort. lia.
Qed.

Lemma write_stored (p bytes : list Z) :
  (length p ≤ SEGMENT_HEADER_SIZE)%nat →
  let n := Nat.min (SEGMENT_HEADER_SIZE - length p) (length bytes) in
  write_at (length p) (take n bytes) (p ++ replicate (SEGMENT_HEADER_SIZE - length p) 0) =
    take SEGMENT_HEADER_SIZE (p ++ bytes) ++ replicate (SEGMENT_HEADER_SIZE - length (p ++ bytes)) 0.
Proof. exact (write_head p bytes). Qed.

Lemma segment_push_ok c0 p c bytes :
  checker_at c0 p c → Forall is_byte (p ++ bytes) → push_follows c0 p bytes (segment_push bytes c).
Proof.
  intros (Hs & Hl & Hc) Hb. unfold segment_push. cbn zeta. rewrite Hl, keep_last_app.
  set (last := drop (length (p ++ bytes) - KEEP) (p ++ bytes)). destruct Hc as [Hc|(h & Hv & Hc)].
  - destruct Hc as [Hlen Hpos Hhead Hh Hx Hsk Hsh Hw Ht]. cbn [sc_pos set_sc_last]. rewrite Hpos.
    rewrite (proj2 (Nat.ltb_lt _ _) Hlen). cbn [sc_head set_sc_last]. rewrite Hhead, write_stored by lia.
    set (k := Nat.min _ _). set (c1 := set_sc_head _ _ _).
    destruct (take_min_all (SEGMENT_HEADER_SIZE - length p) bytes) as [Etake Edrop]. fold k in Etake, Edrop.
    cbn [sc_pos c1 set_sc_head]. destruct (Nat.eqb_spec (length p + k) SEGMENT_HEADER_SIZE) as [He|He].
    + assert (take SEGMENT_HEADER_SIZE (p ++ bytes) = p ++ take k bytes) as Htake
        by (rewrite take_app, take_ge by lia; by rewrite Etake).
      pose proof (start_payload_ok c0 c1 (p ++ take k bytes)) as Hstart.
      assert (length (p ++ take k bytes) = SEGMENT_HEADER_SIZE) as Hl64 by (rewrite length_app, length_take; lia).
      assert (p ++ bytes = (p ++ take k bytes) ++ drop k bytes) as Hsplit by (rewrite <-app_assoc, take_drop; done).
      specialize (Hstart Hs Hl64).
      assert (sc_head c1 = p ++ take k bytes) as Hhd.
      { subst c1. cbn [sc_head set_sc_head]. rewrite Htake, length_app.
        replace (SEGMENT_HEADER_SIZE - (length p + length bytes))%nat with 0%nat by lia.
        apply app_nil_r. }
      specialize (Hstart Hhd ltac:(cbn [c1 sc_pos set_sc_head]; lia) Hx Hsk Hsh Hw Ht).
      destruct (start_payload c1) as [c2|f].
      * destruct Hstart as (h & Hv & Hp2 & Hs2 & Hl2).
        eapply push_started; [lia|done|by rewrite Hl2|done..|right; lia].
      * cbn. rewrite Hsplit at 2. rewrite start_verdict_take by lia. split; [|done]. rewrite length_app. lia.
    + unfold push_payload. cbn [sc_header c1 set_sc_head set_sc_last]. rewrite Hh. cbn [mbind option_bind push_follows].
      assert (length p + length bytes < SEGMENT_HEADER_SIZE)%nat by lia.
      split; [split_and!; [done|done|left]|].
      2: { split; [cbn; lia|]. cbn [c1 sc_header set_sc_head set_sc_last]. rewrite Hh. done. }
      split; try done; rewrite ?length_app; [done|cbn [c1 sc_pos set_sc_head]; lia|].
      cbn [c1 sc_head set_sc_head]. by rewrite length_app, take_ge by (rewrite length_app; lia).
  - destruct (Nat.ltb_spec (sc_pos (set_sc_last last c)) SEGMENT_HEADER_SIZE) as [Hlt|_].
    { cbn in Hlt. destruct Hc as [H64 Hpos]. rewrite Hpos in Hlt. lia. }
    rewrite <-(drop_0 bytes) at 2. eapply push_started; rewrite ?take_0, ?app_nil_r; try done; [lia|by destruct Hc|by left].
Qed.

Section run.
Context {SH : Sha256} {HH : SegmentHashes} {CT : ConstantTimeEq}.

Lemma segment_pushes_ok chunks : ∀ c0 p c,
  checker_at c0 p c → Forall is_byte (p ++ concat chunks) →
  match segment_pushes chunks c with
  | Some (Ok c) => checker_at c0 (p ++ concat chunks) c
  | Some (Err f) => (SEGMENT_HEADER_SIZE ≤ length (p ++ concat chunks))%nat ∧ start_verdict c0 (p ++ concat chunks) = Err f
  | None => False
  end.
Proof.
  induction chunks as [|b chunks IH]; intros c0 p c Hc Hb; cbn [segment_pushes concat]; [by rewrite app_nil_r|].
  cbn [concat] in Hb. rewrite app_assoc in Hb.
  pose proof (segment_push_ok c0 p c b Hc (proj1 (proj1 (Forall_app _ _ _) Hb))) as H.
  destruct (segment_push b c) as [[[span|f] c']|]; cbn in H; [| |done].
  - destruct H as [H _]. specialize (IH c0 (p ++ b) c' H Hb). by rewrite <-app_assoc in IH.
  - destruct H as [Hl Hv]. rewrite app_assoc. split; [rewrite length_app; lia|by rewrite start_verdict_take].
Qed.

Lemma checker_new_at seg_id seg_type off stored ulen :
  let c0 := segment_checker_new seg_id seg_type off stored ulen in checker_at c0 [] c0.
Proof.
  split_and!; [by split_and!|done|left]. split; try done. cbn. unfold SEGMENT_HEADER_SIZE. lia.
Qed.

(** The facts are those of the payload bytes. *)
Lemma segment_facts_ok h p c sig : payload_at h p c → Forall is_byte p →
  segment_facts h sig c =
    mkSegmentFacts (verify_content_hash h (payload_part h p))
      (match sig with
       | None => SigUnsigned
       | Some (algo, len, signature) =>
           SigDecoded algo len (if (length signature =? 64)%nat then Some signature else None)
             (build_signed_message_from_hash h
                (if (sh_checksum_algo h =? 2) || header_is_signed h then shake256_128 (payload_part h p) else replicate 16 0))
       end)
      (if type_is_executable (sh_seg_type h) then Some (sha256 (payload_part h p)) else None)
      (if is_scanned h then Some (payload_facts (payload_part h p)) else None).
Proof.
  intros [_ _ _ Hx Hsk Hsh Hw _] Hb. unfold segment_facts, verify_content_hash, content_hash. rewrite Hx, Hsk, Hsh.
  f_equal.
  - by destruct (sh_checksum_algo h =? 2).
  - destruct sig as [[[algo len] s]|]; [|done]. by destruct (_ || _).
  - by destruct (type_is_executable _).
  - destruct (is_scanned h); [|by rewrite Hw]. destruct Hw as (w & sink & -> & Hs). cbn. f_equal.
    pose proof (scanned_finish _ _ _ Hs) as [<- _]. unfold scanner_finish. destruct (ws_mode w); try done.
    destruct (scanner_emit_sink (take (ws_have w) (ws_head w)) w [] sink) as (w' & k1 & k2 & -> & ->). done.
Qed.

(** Chunks do not matter: two checkers after the same bytes end the same. *)
Lemma segment_finish_same c0 p c c' index is_last :
  checker_at c0 p c → checker_at c0 p c' → Forall is_byte p →
  segment_finish index is_last c = segment_finish index is_last c'.
Proof.
  intros ((A1&A2&A3&A4&A5) & Al & Ac) ((B1&B2&B3&B4&B5) & Bl & Bc) Hb.
  destruct Ac as [Ac|(h & Hv & Ac)], Bc as [Bc|(h' & Hv' & Bc)].
  - unfold segment_finish. by rewrite (fr_header _ _ Ac), (fr_header _ _ Bc).
  - pose proof (fr_length _ _ Ac). pose proof (pa_length _ _ _ Bc). lia.
  - pose proof (fr_length _ _ Bc). pose proof (pa_length _ _ _ Ac). lia.
  - rewrite Hv in Hv'. injection Hv' as <-. unfold segment_finish, finish_footer, zero_tail.
    rewrite (pa_header _ _ _ Ac), (pa_header _ _ _ Bc), (pa_tail _ _ _ Ac), (pa_tail _ _ _ Bc), A3, B3, A5, B5, Al, Bl.
    destruct (if header_is_signed h then _ else _) as [[fl sig]|]; [|done].
    by rewrite (segment_facts_ok h p c sig Ac Hb), (segment_facts_ok h p c' sig Bc Hb).
Qed.
End run.

Lemma decode_take n l :
  (8 ≤ n)%nat → (read_le 2 2 l ≤ MAX_SIGNATURE_LENGTH → (4 + Z.to_nat (read_le 2 2 l) + 4 ≤ n)%nat) →
  decode_signature_footer (take n l) = decode_signature_footer l.
Proof.
  intros Hn Hs. unfold decode_signature_footer, SIGNATURE_FOOTER_MIN_SIZE in *. rewrite length_take. cbn zeta.
  destruct (Nat.ltb_spec (length l) 8) as [H8|H8]; [by rewrite (proj2 (Nat.ltb_lt _ _)) by lia|].
  rewrite (proj2 (Nat.ltb_ge _ _)) by lia. unfold read_le in *. rewrite !(slice_of_take _ 2) by lia.
  destruct (Z.ltb_spec MAX_SIGNATURE_LENGTH (of_le_bytes (slice 2 2 l))) as [Hm|Hm]; [done|]. specialize (Hs Hm).
  destruct (Nat.ltb_spec (length l) (4 + Z.to_nat (of_le_bytes (slice 2 2 l)) + 4)) as [Hl|Hl].
  - by rewrite (proj2 (Nat.ltb_lt _ _)) by lia.
  - rewrite (proj2 (Nat.ltb_ge _ _)) by lia. by rewrite !slice_of_take by lia.
Qed.

Lemma decode_sig_length l f : decode_signature_footer l = Ok f →
  sf_sig_length f = read_le 2 2 l ∧ sf_sig_length f ≤ MAX_SIGNATURE_LENGTH.
Proof.
  unfold decode_signature_footer. intros H. apply guard_Ok in H as [_ H]. apply guard_Ok in H as [Hm H].
  apply guard_Ok in H as [_ H]. injection H as <-. split_bool. done.
Qed.

(** The kept tail is enough to decode the footer. *)
Lemma decode_kept l : Forall is_byte l → decode_signature_footer (take MAX_FOOTER l) = decode_signature_footer l.
Proof.
  #[local] Transparent MAX_FOOTER. intros Hb. apply decode_take; unfold MAX_FOOTER; [lia|]. intros Hm.
  assert (0 ≤ read_le 2 2 l) by (unfold read_le; apply of_le_bytes_range; by apply slice_bytes).
  generalize dependent MAX_SIGNATURE_LENGTH. intros m Hm. lia.
Qed.
#[local] Opaque MAX_FOOTER.

Lemma align_up_add k e : (64 | k)%nat → align_up (k + e) = (k + align_up e)%nat.
Proof.
  intros [q ->]. unfold align_up, SEGMENT_ALIGNMENT. change (64 - 1)%nat with 63%nat.
  replace (q * 64 + e + 63)%nat with (e + 63 + q * 64)%nat by lia. rewrite Nat.div_add by lia. lia.
Qed.

Lemma drop_pre {A} (pre p : list A) n : drop (length pre + n) (pre ++ p) = drop n p.
Proof. rewrite drop_app_ge by lia. f_equal. lia. Qed.

(** The zero bytes after the last segment. *)
Lemma zero_tail_spec c p is_last next :
  sc_last c = drop (length p - KEEP) p → (SEGMENT_HEADER_SIZE ≤ length p)%nat → (next < length p)%nat →
  zero_tail c is_last (Z.of_nat (length p) - Z.of_nat next) = true ↔
  is_last = true ∧ (length p < next + 64)%nat ∧ drop next p = replicate (length p - next) 0.
Proof.
  intros Hl H64 Hn. unfold zero_tail. rewrite !andb_true_iff, Z.ltb_lt, Z.leb_le, Hl, length_drop.
  unfold KEEP, SEGMENT_ALIGNMENT, SEGMENT_HEADER_SIZE in *. change (64 - 1)%nat with 63%nat.
  replace (Z.to_nat (Z.of_nat (length p) - Z.of_nat next)) with (length p - next)%nat by lia.
  assert ((length p < next + 64)%nat → drop (length p - (length p - 63) - (length p - next)) (drop (length p - 63) p) = drop next p) as Hd
    by (intros H; rewrite drop_drop; f_equal; lia).
  assert (forallb (λ b, b =? 0) (drop next p) = true ↔ drop next p = replicate (length p - next) 0) as Hz.
  { rewrite <-(length_drop p next), <-existsb_nonzero. clear Hd. induction (drop next p) as [|b l IH]; [done|].
    cbn. rewrite andb_true_iff, orb_false_iff, negb_false_iff, IH. done. }
  split.
  - intros [[[? ?] ?] Hr]. rewrite Hd in Hr by lia. split_and!; [done|lia|by apply Hz].
  - intros (? & ? & Hr). rewrite Hd by lia. split_and!; [done|lia..|by apply Hz].
Qed.

(** The segment a buffer ending with the stored bytes has at their start. *)
Record segment_stored (c0 : SegmentChecker) (data : list Z) (index : nat) (is_last : bool) (s : ParsedSegment)
    (next : nat) : Prop := {
  ss_at : segment_at data (Z.to_nat (sc_body_offset c0)) index s next;
  ss_type : sh_seg_type (ps_header s) = sc_seg_type c0;
  ss_id : sh_segment_id (ps_header s) = sc_seg_id c0;
  ss_len : sh_uncompressed_len (ps_header s) ≤ sc_uncompressed_len c0;
  ss_end : next = length data ∨
    is_last = true ∧
    ((length data < next)%nat ∨ (next < length data < next + 64)%nat ∧ drop next data = replicate (length data - next) 0);
}.

Section exact.
Context {SH : Sha256} {HH : SegmentHashes} {CT : ConstantTimeEq}.

(** The footer and what it says. *)
Definition footer_says (h : SegmentHeader) (rest : list Z) (room : Z) (fl : Z) (sig : option (Z * Z * list Z)) : Prop :=
  if header_is_signed h then
    ∃ f, decode_signature_footer rest = Ok f ∧ sf_sig_length f ≠ 0 ∧
      sf_footer_length f = compute_footer_length (sf_sig_length f) ∧ fl = sf_footer_length f ∧ fl ≤ room ∧
      sig = Some (sf_sig_algo f, sf_sig_length f, sf_signature f)
  else fl = 0 ∧ sig = None.

Lemma finish_footer_ok h p c pe fl sig :
  payload_at h p c → Forall is_byte p →
  finish_footer h c pe = Ok (fl, sig) ↔ footer_says h (after_payload h p) (sc_stored_len c - pe) fl sig.
Proof.
  intros Hp Hb. unfold finish_footer, footer_says. rewrite (pa_tail _ _ _ Hp). destruct (header_is_signed h); [|naive_solver].
  rewrite decode_kept by (by apply Forall_drop). destruct (decode_signature_footer _) as [f|e]; [|naive_solver].
  destruct (Z.eqb_spec (sf_sig_length f) 0); [naive_solver|].
  destruct (Z.eqb_spec (sf_footer_length f) (compute_footer_length (sf_sig_length f))); [|naive_solver]. cbn [negb].
  destruct (Z.ltb_spec (sc_stored_len c) (pe + sf_footer_length f)).
  - split; [done|]. intros (f' & [= <-] & _ & _ & -> & ? & _). lia.
  - split; [intros [= <- <-]; exists f; split_and!; done || lia|].
    by intros (f' & [= <-] & _ & _ & -> & ? & ->).
Qed.

(** What [finish] compares the end of the segment with. *)
Definition end_agrees (p : list Z) (is_last : bool) (next : nat) : Prop :=
  next = length p ∨
  is_last = true ∧
  ((length p < next)%nat ∨ (next < length p < next + 64)%nat ∧ drop next p = replicate (length p - next) 0).

Definition segment_ended (h : SegmentHeader) (fl off : Z) (index : nat) : ParsedSegment :=
  let pe := Z.of_nat SEGMENT_HEADER_SIZE + sh_payload_length h in
  let start := (Z.to_nat off + SEGMENT_HEADER_SIZE)%nat in
  mkParsedSegment index (Z.to_nat off) h (start, (start + Z.to_nat (sh_payload_length h))%nat)
    (if header_is_signed h then Some ((Z.to_nat off + Z.to_nat pe)%nat, (Z.to_nat off + Z.to_nat (pe + fl))%nat) else None).

Lemma segment_finish_ok h p c index is_last v :
  payload_at h p c → Forall is_byte p → sc_last c = drop (length p - KEEP) p → sc_stored_len c = Z.of_nat (length p) →
  segment_finish index is_last c = Ok v ↔
  ∃ fl sig, let pe := Z.of_nat SEGMENT_HEADER_SIZE + sh_payload_length h in
    footer_says h (after_payload h p) (Z.of_nat (length p) - pe) fl sig ∧
    end_agrees p is_last (align_up (Z.to_nat (pe + fl))) ∧
    v = (segment_ended h fl (sc_body_offset c) index, segment_facts h sig c).
Proof.
  intros Hp Hb Hl Hlen. unfold segment_finish. rewrite (pa_header _ _ _ Hp). cbn zeta.
  set (pe := Z.of_nat SEGMENT_HEADER_SIZE + sh_payload_length h).
  assert (∀ fl sig, finish_footer h c pe = Ok (fl, sig) ↔ footer_says h (after_payload h p) (Z.of_nat (length p) - pe) fl sig)
    as Hf by (intros fl sig; rewrite <-Hlen; by apply finish_footer_ok).
  destruct (finish_footer h c pe) as [[fl sig]|e].
  2: { split; [done|]. intros (fl & sig & H & _). by apply Hf in H. }
  assert (∀ next, ((Z.of_nat next <? sc_stored_len c) && negb (zero_tail c is_last (sc_stored_len c - Z.of_nat next)) = false ∧
    (sc_stored_len c <? Z.of_nat next) && negb is_last = false) ↔ end_agrees p is_last next) as Hend.
  { intros next. rewrite Hlen. pose proof (zero_tail_spec c p is_last next Hl (pa_length _ _ _ Hp)) as Hz.
    unfold end_agrees. destruct (Z.ltb_spec (Z.of_nat next) (Z.of_nat (length p))), (Z.ltb_spec (Z.of_nat (length p)) (Z.of_nat next));
      cbn [andb]; [lia|rewrite negb_false_iff, Hz by lia|rewrite negb_false_iff|]; intuition lia. }
  specialize (Hend (align_up (Z.to_nat (pe + fl)))).
  destruct (_ && negb (zero_tail _ _ _)); [|destruct ((sc_stored_len c <? _) && _)].
  - split; [done|]. intros (fl' & sig' & H & H2 & _). apply Hf in H. injection H as <- <-. by apply Hend in H2 as [? _].
  - split; [done|]. intros (fl' & sig' & H & H2 & _). apply Hf in H. injection H as <- <-. by apply Hend in H2 as [_ ?].
  - split.
    + intros [= <-]. exists fl, sig. split_and!; [by apply Hf|by apply Hend|done].
    + intros (fl' & sig' & H & _ & ->). apply Hf in H. injection H as <- <-. done.
Qed.

(** The footer the buffer has at the end of the payload. *)
Lemma footer_says_at h pre p fl sig :
  let pe := (SEGMENT_HEADER_SIZE + Z.to_nat (sh_payload_length h))%nat in
  Forall is_byte p → 0 ≤ sh_payload_length h → (pe ≤ length p)%nat →
  footer_says h (after_payload h p) (Z.of_nat (length p) - Z.of_nat pe) fl sig ↔
  ∃ footer, 0 ≤ fl ∧ footer_at (pre ++ p) h (length pre + pe) footer (length pre + pe + Z.to_nat fl) ∧
    (length pre + pe + Z.to_nat fl ≤ length (pre ++ p))%nat ∧
    sig = (r ← footer; match decode_signature_footer (range_of r (pre ++ p)) with
                       | Ok f => Some (sf_sig_algo f, sf_sig_length f, sf_signature f)
                       | Err _ => None
                       end).
Proof.
  intros pe Hb H0 Hpe. unfold footer_says, footer_at. rewrite drop_pre, length_app.
  change (drop pe p) with (after_payload h p). destruct (header_is_signed h).
  - assert (∀ f, decode_signature_footer (after_payload h p) = Ok f → sf_footer_length f = compute_footer_length (sf_sig_length f) →
      0 ≤ sf_footer_length f ∧
      decode_signature_footer (range_of ((length pre + pe)%nat, (length pre + pe + Z.to_nat (sf_footer_length f))%nat) (pre ++ p)) = Ok f)
      as Hrange.
    { intros f Hd Hc. destruct (decode_footer_length p _ f (Forall_drop _ _ _ Hb) Hd) as [Hr _].
      unfold compute_footer_length in Hc. split; [lia|]. unfold range_of, slice. cbn [fst snd]. rewrite drop_pre.
      change (drop pe p) with (after_payload h p).
      replace (length pre + pe + Z.to_nat (sf_footer_length f) - (length pre + pe))%nat with (Z.to_nat (sf_footer_length f)) by lia.
      pose proof (decode_sig_length _ _ Hd) as [Es _]. rewrite decode_take; [done|lia|]. intros _. lia. }
    split.
    + intros (f & Hd & Hn & Hc & -> & Hroom & ->). pose proof (Hrange f Hd Hc) as [Hpos Hr].
      eexists (Some _). split_and!; [done|by exists f|lia|]. cbn [mbind option_bind]. by rewrite Hr.
    + intros (footer & Hpos & (f & Hd & Hn & Hc & He & ->) & Hroom & ->). pose proof (Hrange f Hd Hc) as [Hpos2 Hr].
      assert (fl = sf_footer_length f) as -> by lia. exists f. cbn [mbind option_bind]. rewrite Hr. split_and!; done || lia.
  - split.
    + intros [-> ->]. exists None. split_and!; lia || done.
    + intros (footer & Hpos & [-> He] & Hroom & ->). split; [lia|done].
Qed.

(** The facts of a buffer holding the bytes. *)
Lemma facts_stored h pre p fl sig index :
  (SEGMENT_HEADER_SIZE + Z.to_nat (sh_payload_length h) ≤ length p)%nat → Forall is_byte p →
  sig = (r ← ps_footer (segment_ended h fl (Z.of_nat (length pre)) index);
         match decode_signature_footer (range_of r (pre ++ p)) with
         | Ok f => Some (sf_sig_algo f, sf_sig_length f, sf_signature f)
         | Err _ => None
         end) →
  (header_is_signed h = true → is_Some sig) →
  ∀ c, payload_at h p c →
  segment_facts h sig c = facts_from_buffer (pre ++ p) (segment_ended h fl (Z.of_nat (length pre)) index).
Proof.
  intros Hpe Hb Hsig Hsome c Hc. rewrite (segment_facts_ok h p c sig Hc Hb). unfold facts_from_buffer.
  assert (segment_payload (segment_ended h fl (Z.of_nat (length pre)) index) (pre ++ p) = payload_part h p) as ->.
  { unfold segment_payload, range_of, segment_ended, payload_part, slice. cbn [ps_payload_range fst snd].
    rewrite Nat2Z.id, drop_pre. f_equal. lia. }
  assert (ps_header (segment_ended h fl (Z.of_nat (length pre)) index) = h) as Eh by done.
  f_equal.
  - unfold segment_is_signed. rewrite Eh. revert Hsig Hsome. unfold segment_ended at 1. cbn [ps_footer].
    destruct (header_is_signed h) eqn:Es.
    + intros Hsig Hsome. destruct (Hsome eq_refl) as [[[algo len] s] ->]. rewrite orb_true_r.
      unfold segment_ended. rewrite Es. cbn [ps_footer mbind option_bind] in *.
      destruct (decode_signature_footer _) as [f|]; [|done]. by injection Hsig as -> -> ->.
    + by intros -> _.
  - unfold is_scanned. rewrite Eh. destruct (_ && _); [|done]. f_equal. symmetry. apply scan_payload_facts.
    by apply slice_bytes.
Qed.

Lemma segment_ended_at pre p h fl index footer :
  let pe := (SEGMENT_HEADER_SIZE + Z.to_nat (sh_payload_length h))%nat in
  0 ≤ fl → 0 ≤ sh_payload_length h →
  footer_at (pre ++ p) h (length pre + pe) footer (length pre + pe + Z.to_nat fl) →
  footer = ps_footer (segment_ended h fl (Z.of_nat (length pre)) index).
Proof.
  intros pe Hfl H0. unfold footer_at, segment_ended. cbn [ps_footer]. destruct (header_is_signed h).
  - intros (f & _ & _ & _ & _ & ->). rewrite Nat2Z.id. subst pe. unfold SEGMENT_HEADER_SIZE. do 2 f_equal; lia.
  - by intros [-> _].
Qed.

Lemma footer_says_some h rest room fl sig :
  footer_says h rest room fl sig → header_is_signed h = true → is_Some sig.
Proof. unfold footer_says. intros H Es. rewrite Es in H. destruct H as (f & _ & _ & _ & _ & _ & ->). eauto. Qed.

(** The end, counted from the start of the buffer. *)
Lemma end_agrees_pre pre p is_last e :
  (64 | length pre)%nat →
  let next := align_up (length pre + e) in
  end_agrees p is_last (align_up e) ↔
  next = length (pre ++ p) ∨
  is_last = true ∧
  ((length (pre ++ p) < next)%nat ∨
   (next < length (pre ++ p) < next + 64)%nat ∧ drop next (pre ++ p) = replicate (length (pre ++ p) - next) 0).
Proof.
  intros Hpre. cbn zeta. unfold end_agrees. rewrite (align_up_add (length pre)), length_app, drop_pre by done.
  set (n := align_up e). replace (length pre + length p - (length pre + n))%nat with (length p - n)%nat by lia.
  split; (intros [?|[? H]]; [left; lia|right]; split; [done|]); (destruct H as [?|[? ?]]; [left; lia|right; split; [lia|done]]).
Qed.

(** What an accepted header says. *)
Lemma started_checks c0 p h : Forall is_byte p → sc_stored_len c0 = Z.of_nat (length p) → start_verdict c0 p = Ok h →
  header_parse p = Ok h ∧ 0 ≤ sh_payload_length h ≤ MAX_SEGMENT_PAYLOAD ∧
  (SEGMENT_HEADER_SIZE + Z.to_nat (sh_payload_length h) ≤ length p)%nat ∧ sh_seg_type h = sc_seg_type c0 ∧
  sh_segment_id h = sc_seg_id c0 ∧ sh_uncompressed_len h ≤ sc_uncompressed_len c0.
Proof.
  intros Hb Hlen Hv. unfold start_verdict in Hv. destruct (header_parse p) as [h'|] eqn:Hh; [|done].
  apply guard_Ok in Hv as [Hm Hv]. apply guard_Ok in Hv as [Hr Hv]. apply guard_Ok in Hv as [Hd Hv]. injection Hv as ->.
  apply header_to_bytes_parse in Hh as [_ [_ _ _ _ _ [? _] _]]; [|done].
  rewrite !orb_false_iff, !negb_false_iff in Hd. split_bool. rewrite Hlen in Hr. split_and!; done || tauto || lia.
Qed.

(** A checker that has the header, against the buffer. *)
Lemma started_sound h pre p c c0 index is_last s facts :
  Forall is_byte p → (64 | length pre)%nat → checker_at c0 p c → payload_at h p c → start_verdict c0 p = Ok h →
  sc_stored_len c0 = Z.of_nat (length p) → sc_body_offset c0 = Z.of_nat (length pre) →
  segment_finish index is_last c = Ok (s, facts) →
  (∃ next, segment_stored c0 (pre ++ p) index is_last s next) ∧ facts = facts_from_buffer (pre ++ p) s.
Proof.
  intros Hb Hpre (Hsame & Hl & _) Hp Hv Hlen Hoff. pose proof Hsame as (E1 & E2 & E3 & E4 & E5).
  rewrite (segment_finish_ok h p c index is_last (s, facts) Hp Hb Hl) by congruence. cbn zeta.
  destruct (started_checks c0 p h Hb Hlen Hv) as (Hh & [H0 Hmax] & Hpe & Ht & Hi & Hu).
  set (pe := (SEGMENT_HEADER_SIZE + Z.to_nat (sh_payload_length h))%nat) in *.
  replace (Z.of_nat SEGMENT_HEADER_SIZE + sh_payload_length h) with (Z.of_nat pe) by lia. rewrite E5, Hoff.
  intros (fl & sig & Hf & He & [= -> ->]). pose proof (footer_says_some _ _ _ _ _ Hf) as Hsome.
  apply (footer_says_at h pre p) in Hf as (footer & Hfl & Hf & Hle & Hsig); [|done..].
  pose proof (segment_ended_at pre p h fl index footer Hfl H0 Hf) as ->.
  split; [|by apply facts_stored]. exists (align_up (length pre + (pe + Z.to_nat fl))).
  replace (Z.to_nat (Z.of_nat pe + fl)) with (pe + Z.to_nat fl)%nat in He by lia.
  split; try done; [|by apply end_agrees_pre].
  rewrite Hoff, Nat2Z.id. split; try done.
  - cbn. by rewrite Nat2Z.id.
  - rewrite <-(Nat.add_0_r (length pre)), drop_pre. done.
  - cbn. by rewrite Nat2Z.id.
  - exists (length pre + pe + Z.to_nat fl)%nat. split_and!; [|done|by rewrite Nat.add_assoc].
    cbn [segment_ended ps_payload_range snd ps_header]. rewrite Nat2Z.id.
    replace (length pre + SEGMENT_HEADER_SIZE + Z.to_nat (sh_payload_length h))%nat with (length pre + pe)%nat by lia. done.
Qed.

Lemma started_complete h pre p c c0 index is_last s next :
  Forall is_byte p → (64 | length pre)%nat → checker_at c0 p c → payload_at h p c → start_verdict c0 p = Ok h →
  sc_stored_len c0 = Z.of_nat (length p) → sc_body_offset c0 = Z.of_nat (length pre) →
  segment_stored c0 (pre ++ p) index is_last s next →
  segment_finish index is_last c = Ok (s, facts_from_buffer (pre ++ p) s).
Proof.
  intros Hb Hpre (Hsame & Hl & _) Hp Hv Hlen Hoff [Hat Hty Hid Hul Hend]. pose proof Hsame as (E1 & E2 & E3 & E4 & E5).
  apply (segment_finish_ok h p c index is_last _ Hp Hb Hl); [congruence|]. cbn zeta.
  destruct (started_checks c0 p h Hb Hlen Hv) as (Hh & [H0 Hmax] & Hpe & _).
  set (pe := (SEGMENT_HEADER_SIZE + Z.to_nat (sh_payload_length h))%nat) in *.
  replace (Z.of_nat SEGMENT_HEADER_SIZE + sh_payload_length h) with (Z.of_nat pe) by lia. rewrite E5, Hoff.
  rewrite Hoff, Nat2Z.id in Hat. destruct Hat as [Hai Hao Hah Hal Hap (e & Hf & Hle & ->)].
  rewrite <-(Nat.add_0_r (length pre)), drop_pre in Hah. change (drop 0 p) with p in Hah. rewrite Hh in Hah.
  injection Hah as Hah. rewrite <-Hah in *. rewrite Hap in Hf. cbn [snd] in Hf.
  replace (length pre + 64 + Z.to_nat (sh_payload_length h))%nat with (length pre + pe)%nat in Hf
    by (subst pe; unfold SEGMENT_HEADER_SIZE; lia).
  assert (length pre + pe ≤ e)%nat as Hpe2.
  { unfold footer_at in Hf. destruct (header_is_signed h); [destruct Hf as (? & _ & _ & _ & -> & _)|destruct Hf as [_ ->]]; lia. }
  set (fl := Z.of_nat (e - (length pre + pe))).
  replace e with (length pre + pe + Z.to_nat fl)%nat in * by lia.
  pose proof (segment_ended_at pre p h fl index (ps_footer s) ltac:(lia) H0 Hf) as Hfooter.
  assert (s = segment_ended h fl (Z.of_nat (length pre)) index) as Hs.
  { destruct s as [i o hh r f]. cbn in *. subst. unfold segment_ended. rewrite Nat2Z.id. done. }
  set (sig := r ← ps_footer s; match decode_signature_footer (range_of r (pre ++ p)) with
    | Ok f => Some (sf_sig_algo f, sf_sig_length f, sf_signature f) | Err _ => None end).
  assert (footer_says h (after_payload h p) (Z.of_nat (length p) - Z.of_nat pe) fl sig) as Hsays.
  { apply (footer_says_at h pre p); [done..|]. exists (ps_footer s). split_and!; [lia|done|done|reflexivity]. }
  exists fl, sig. split; [done|split].
  - replace (Z.to_nat (Z.of_nat pe + fl)) with (pe + Z.to_nat fl)%nat by lia.
    apply (end_agrees_pre pre); [done|]. by rewrite Nat.add_assoc.
  - rewrite Hs. f_equal. symmetry. apply facts_stored; try done; [by rewrite <-Hfooter|].
    by apply (footer_says_some _ _ _ _ _ Hsays).
Qed.
End exact.

(** A stored segment passes the header checks. *)
Lemma stored_started pre p seg_id seg_type ulen index is_last s next :
  let c0 := segment_checker_new seg_id seg_type (Z.of_nat (length pre)) (Z.of_nat (length p)) ulen in
  Forall is_byte p → segment_stored c0 (pre ++ p) index is_last s next →
  (64 ≤ length p)%nat ∧ is_ok (start_verdict c0 p) = true.
Proof.
  intros c0 Hb [Hat Hty Hid Hul _]. cbn [c0 segment_checker_new sc_body_offset] in Hat. rewrite Nat2Z.id in Hat.
  pose proof (segment_at_start _ _ _ _ _ Hat) as Hlen. rewrite length_app in Hlen. split; [lia|].
  destruct Hat as [_ _ Hah Hal Hap (e & Hf & Hle & _)].
  rewrite <-(Nat.add_0_r (length pre)), drop_pre in Hah. change (drop 0 p) with p in Hah.
  unfold start_verdict. rewrite Hah. set (h := ps_header s) in *.
  assert (length pre + 64 + Z.to_nat (sh_payload_length h) ≤ e)%nat as He.
  { rewrite Hap in Hf. cbn [snd] in Hf. unfold footer_at in Hf. destruct (header_is_signed h);
      [destruct Hf as (? & _ & _ & _ & -> & _)|destruct Hf as [_ ->]]; lia. }
  rewrite length_app in Hle. cbn [c0 segment_checker_new sc_stored_len sc_seg_type sc_seg_id sc_uncompressed_len] in *.
  rewrite (proj2 (Z.ltb_ge _ _) Hal), (proj2 (Z.ltb_ge _ _)) by (unfold SEGMENT_HEADER_SIZE; lia).
  rewrite Hty, Hid, !Z.eqb_refl, (proj2 (Z.ltb_ge _ _) Hul). done.
Qed.

(** C15: However the stored bytes of a segment are cut into chunks, the checker
    does not panic and ends exactly as if they came in one piece, and it
    accepts them just when a buffer that ends with those bytes holds, where
    they start, a segment [verify] would walk - a well-formed header that
    agrees with the signed table entry, a payload in bounds, a canonical
    footer if it is signed, and after the last segment at most a short run of
    zeros. What it returns then is that segment with the facts [verify]
    computes from the whole buffer: content hash, signature, module digest. *)
Theorem segment_check_exact {SH : Sha256} {HH : SegmentHashes} {CT : ConstantTimeEq} pre chunks seg_id seg_type ulen index is_last :
  Forall is_byte (pre ++ concat chunks) → (64 | length pre)%nat →
  let c0 := segment_checker_new seg_id seg_type (Z.of_nat (length pre)) (Z.of_nat (length (concat chunks))) ulen in
  ∃ v, segment_run chunks index is_last c0 = Some v ∧ segment_run [concat chunks] index is_last c0 = Some v ∧
    ∀ s facts, v = Ok (s, facts) ↔
      (∃ next, segment_stored c0 (pre ++ concat chunks) index is_last s next) ∧
      facts = facts_from_buffer (pre ++ concat chunks) s.
Proof.
  intros Hb Hpre c0. set (p := concat chunks) in *. assert (Forall is_byte p) as Hbp by (by apply Forall_app in Hb as [_ ?]).
  pose proof (checker_new_at seg_id seg_type (Z.of_nat (length pre)) (Z.of_nat (length p)) ulen) as Hnew.
  pose proof (segment_pushes_ok chunks _ [] _ Hnew Hbp) as H1.
  assert (concat [p] = p) as Ep by apply app_nil_r.
  pose proof (segment_pushes_ok [p] _ [] _ Hnew) as H2. rewrite Ep in H2. specialize (H2 Hbp).
  cbn [app] in H1, H2. fold p c0 in H1, H2. unfold segment_run.
  assert (∀ s next, segment_stored c0 (pre ++ p) index is_last s next →
    (64 ≤ length p)%nat ∧ is_ok (start_verdict c0 p) = true) as Hstored by (intros s next; by apply stored_started).
  destruct (segment_pushes chunks c0) as [[c|f]|], (segment_pushes [p] c0) as [[c'|f']|]; try done.
  - exists (segment_finish index is_last c). split_and!; [done|cbn [mbind option_bind]; by rewrite (segment_finish_same c0 p c' c)|].
    intros s facts. destruct H1 as (Hs & Hl & [Hf|(h & Hv & Hp)]).
    + split; [unfold segment_finish; by rewrite (fr_header _ _ Hf)|]. intros [[next Hst] _].
      apply Hstored in Hst as [? _]. pose proof (fr_length _ _ Hf). unfold SEGMENT_HEADER_SIZE in *. lia.
    + split; [apply (started_sound h pre p c c0); by try split_and!; eauto|].
      intros [[next Hst] ->]. apply (started_complete h pre p c c0 index is_last s next); by try split_and!; eauto.
  - destruct H2 as [H64 Hv], H1 as (_ & _ & [Hf|(h & Hv' & _)]); [pose proof (fr_length _ _ Hf); lia|congruence].
  - destruct H1 as [H64 Hv], H2 as (_ & _ & [Hf|(h & Hv' & _)]); [pose proof (fr_length _ _ Hf); lia|congruence].
  - destruct H1 as [_ H1], H2 as [_ H2]. assert (f' = f) as -> by congruence. exists (Err f). split_and!; [done..|].
    intros s facts. split; [done|]. intros [[next Hst] _]. apply Hstored in Hst as [_ Hst]. by rewrite H1 in Hst.
Qed.

#[local] Instance segment_sha : Sha256 := λ data, replicate 32 (byte_sum data).
#[local] Instance segment_hashes : SegmentHashes :=
  {| xxh3_128 data := replicate 16 (byte_sum data); shake256_128 data := replicate 16 (byte_sum data) |}.
#[local] Instance segment_ct : ConstantTimeEq := λ a b, bool_decide (a = b).

(** The signed module of the sample package, a byte at a time. *)
Definition segment_pre : list Z := take 256 sample_package.
Definition segment_chunks : list (list Z) := (λ b, [b]) <$> drop 256 sample_package.

Definition segment_result :=
  segment_run segment_chunks 2 true (segment_checker_new 3 SEG_TYPE_WASM 256 192 0).

Lemma segment_check_exact_witness :
  ∃ s facts, segment_result = Some (Ok (s, facts)) ∧
    ps_payload_range s = (320%nat, 328%nat) ∧ fa_content_hash_ok facts = true ∧
    fa_payload_sha256 facts = Some (sha256 sample_module) ∧ facts = facts_from_buffer sample_package s.
Proof.
  assert (segment_pre ++ concat segment_chunks = sample_package) as Ep by (vm_compute; reflexivity).
  destruct (segment_check_exact segment_pre segment_chunks 3 SEG_TYPE_WASM 0 2 true) as (v & Hrun & _ & Hv).
  - rewrite Ep. apply sample_package_bytes.
  - exists 4%nat. vm_compute. reflexivity.
  - assert (match segment_result with
      | Some (Ok (s, facts)) => ps_payload_range s = (320%nat, 328%nat) ∧ fa_content_hash_ok facts = true ∧
          fa_payload_sha256 facts = Some (sha256 sample_module)
      | _ => False end) as H by (vm_compute; split_and!; reflexivity).
    assert (segment_result = Some v) as Er by exact Hrun. rewrite Er in H |- *.
    destruct v as [[s facts]|]; [|destruct H]. exists s, facts. destruct H as (H1 & H2 & H3).
    split_and!; [reflexivity|exact H1|exact H2|exact H3|].
    destruct (proj1 (Hv s facts) eq_refl) as [_ E]. rewrite Ep in E. exact E.
Defined.
