(* ===== verification/RvfAdmission.v ===== *)
(** Streamed admission: the loading rules on released chunks,
    [crates/rvm-rvf/src/stream/admission.rs].

    [StreamAdmission] wraps the stream receiver, checks every segment while its
    chunks are released and builds a report when the stream completes.  The
    file proves that it does not panic, that the report has the facts and
    declarations of the walk of the released body and, when the identity was
    verified and the body has neither too many segments nor what looks like an
    unlisted root page at its end, that [verify] of the body reports the
    same but for the delivery mode. *)

From stdpp Require Import base numbers list option strings gmap.
From Stdlib Require Import ZArith Lia.
From S2P Require Import Prelude.
From S2P Require Import Text.
From S2P Require Import Bytes.
From S2P Require Import Types.
From S2P Require Import WitnessLog.
From S2P Require Import Security.
From S2P Require Import Signers.
From S2P Require Import RvfFormat.
From S2P Require Import RvfPayload.
From S2P Require Import RvfCapability.
From S2P Require Import RvfVerify.
From S2P Require Import RvfStream.
From S2P Require Import RvfReceive.
From S2P Require Import RvfFrames.
From S2P Require Import RvfSegment.

Inductive AdmissionError : Set :=
| AeStream (e : StreamError)
| AeMalformed (seg_id : Z) (error : RvfError)
| AeDescriptorMismatch (seg_id : Z)
| AeIdentityRequired
| AeTooManyOpenSegments.

Definition admission_reason (e : AdmissionError) : StreamError :=
  match e with
  | AeStream e => e
  | AeMalformed _ _ => SeSegmentMalformed
  | AeDescriptorMismatch _ => SeSegmentMismatch
  | AeIdentityRequired => SeIdentityRequired
  | AeTooManyOpenSegments => SeTooManyOpenSegments
  end.

Inductive AdmissionEvent : Set :=
| AvDescriptorVerified (descriptor_hash : list Z) (seg_count body_len : Z)
| AvTableVerified (seg_id : Z)
| AvDuplicate (seg_id chunk_index : Z)
| AvUnverified (seg_id chunk_index : Z)
| AvDuplicateDescriptor
| AvChunk (chunk : VerifiedChunk) (payload : list Z) (payload_offset : Z) (segment_verified : bool)
    (stage_verified : option Z) (complete : option IdentityStatus).

(** [meta] is a [BTreeMap]: an association list in the order of its keys. *)
Record StreamAdmission : Type := mkStreamAdmission {
  ad_verifier : StreamVerifier;
  ad_opts : VerifyOptions;
  ad_max_open : nat;
  ad_open : gmap nat SegmentChecker;
  ad_done : list (option (ParsedSegment * SegmentFacts));
  ad_meta : list (nat * list Z);
  ad_report : option VerificationReport;
  ad_failure : option AdmissionError;
}.

Definition admission_new (policy : StreamPolicy) (opts : VerifyOptions) : StreamAdmission :=
  mkStreamAdmission (stream_verifier_new policy) opts (sm_max_open_segments policy) ∅ [] [] None None.

Definition set_ad_verifier (v : StreamVerifier) (a : StreamAdmission) : StreamAdmission :=
  mkStreamAdmission v (ad_opts a) (ad_max_open a) (ad_open a) (ad_done a) (ad_meta a) (ad_report a) (ad_failure a).
Definition set_ad_open (open : gmap nat SegmentChecker) (a : StreamAdmission) : StreamAdmission :=
  mkStreamAdmission (ad_verifier a) (ad_opts a) (ad_max_open a) open (ad_done a) (ad_meta a) (ad_report a) (ad_failure a).
Definition set_ad_done (done : list (option (ParsedSegment * SegmentFacts))) (a : StreamAdmission) : StreamAdmission :=
  mkStreamAdmission (ad_verifier a) (ad_opts a) (ad_max_open a) (ad_open a) done (ad_meta a) (ad_report a) (ad_failure a).
Definition set_ad_meta (meta : list (nat * list Z)) (a : StreamAdmission) : StreamAdmission :=
  mkStreamAdmission (ad_verifier a) (ad_opts a) (ad_max_open a) (ad_open a) (ad_done a) meta (ad_report a) (ad_failure a).
Definition set_ad_report (report : option VerificationReport) (a : StreamAdmission) : StreamAdmission :=
  mkStreamAdmission (ad_verifier a) (ad_opts a) (ad_max_open a) (ad_open a) (ad_done a) (ad_meta a) report (ad_failure a).
Definition set_ad_failure (e : AdmissionError) (a : StreamAdmission) : StreamAdmission :=
  mkStreamAdmission (ad_verifier a) (ad_opts a) (ad_max_open a) (ad_open a) (ad_done a) (ad_meta a) (ad_report a) (Some e).

Definition verifier_poison (reason : StreamError) (a : StreamAdmission) : StreamError * StreamAdmission :=
  (reason, set_ad_verifier (poison reason (ad_verifier a)) a).

Definition discard_derived_state (a : StreamAdmission) : StreamAdmission :=
  let v := match sv_state (ad_verifier a) with
           | StPoisoned _ | StRejected _ => ad_verifier a
           | _ => poison SeBadState (ad_verifier a)
           end in
  mkStreamAdmission v (ad_opts a) (ad_max_open a) ∅ [] [] None (ad_failure a).

Definition admission_fail (e : AdmissionError) (seg : option Z) (chunk : Z) (a : StreamAdmission) : StreamAdmission :=
  let v := force_poison (admission_reason e) seg chunk (ad_verifier a) in
  set_ad_failure e (discard_derived_state (set_ad_verifier v a)).

(** [return Err(self.fail(..))]. *)
Definition refuse_chunk {A} (e : AdmissionError) (seg : option Z) (chunk : Z) (a : StreamAdmission)
    : option (result AdmissionError A * StreamAdmission) :=
  Some (Err e, admission_fail e seg chunk a).

Definition segment_fault (seg_id : Z) (f : SegmentFault) : AdmissionError :=
  match f with
  | FaultMalformed error => AeMalformed seg_id error
  | FaultDescriptorMismatch => AeDescriptorMismatch seg_id
  end.

(** [meta.entry(i).or_default().extend_from_slice(payload)]. *)
Fixpoint meta_extend (i : nat) (payload : list Z) (meta : list (nat * list Z)) : list (nat * list Z) :=
  match meta with
  | [] => [(i, payload)]
  | (j, bytes) :: meta' =>
      if (i <? j)%nat then (i, payload) :: meta
      else if (i =? j)%nat then (i, bytes ++ payload) :: meta'
      else (j, bytes) :: meta_extend i payload meta'
  end.

Section admission.
Context {BU : BitflagsUnion} {SH : Sha256} {HH : SegmentHashes} {CT : ConstantTimeEq} {ED : Ed25519}.

Definition root_page_len (a : StreamAdmission) : Z :=
  match d ← sv_desc (ad_verifier a); last (vd_entries d) with Some e => de_stored_len e | None => 0 end.

Definition finish_report (complete : option IdentityStatus) (a : StreamAdmission)
    : option (result AdmissionError unit * StreamAdmission) :=
  d ← sv_desc (ad_verifier a);
  let header := vd_header d in
  if (Z.land (dh_flags header) FLAG_IDENTITY_PRESENT =? 0) || bool_decide (complete = Some IdNotPresent)
  then refuse_chunk AeIdentityRequired None 0 a
  else
    let taken := omap id (ad_done a) in
    let a := set_ad_done ((λ _, None) <$> ad_done a) a in
    match taken with
    | [] => refuse_chunk (AeMalformed 0 NoSegments) None 0 a
    | _ :: _ =>
        let report :=
          build_report (mkReportInput (dh_rvf_identity header) (dh_body_len header) taken.*1 taken.*2 (ad_meta a).*2
                          Streamed (bool_decide (complete = Some IdVerified))) (ad_opts a) in
        Some (Ok tt, set_ad_report (Some report) a)
    end.

(** The end of [admit_released] and of [admit_root_page]. *)
Definition admit_complete (complete : option IdentityStatus) (out : list Z * Z) (a : StreamAdmission)
    : option (result AdmissionError (list Z * Z) * StreamAdmission) :=
  if is_some complete then
    '(r, a) ← finish_report complete a;
    Some (match r with Ok _ => Ok out | Err e => Err e end, a)
  else Some (Ok out, a).

Definition admit_root_page (chunk : VerifiedChunk) (complete : option IdentityStatus) (a : StreamAdmission)
    : option (result AdmissionError (list Z * Z) * StreamAdmission) :=
  if (vc_chunk_index chunk =? 0) &&
     (negb (is_level0_page (vc_bytes chunk)) || negb (root_page_len a =? Z.of_nat ROOT_PAGE_SIZE))
  then refuse_chunk (AeMalformed (vc_seg_id chunk) TrailingBytes) (Some (vc_seg_id chunk)) 0 a
  else admit_complete complete ([], 0) a.

(** A segment whose last chunk was released. *)
Definition admit_finish (chunk : VerifiedChunk) (entry_idx entries : nat) (root_last : bool) (a : StreamAdmission)
    : option (result AdmissionError unit * StreamAdmission) :=
  checker ← ad_open a !! entry_idx;
  let a := set_ad_open (delete entry_idx (ad_open a)) a in
  let is_last := (entry_idx + 1 =? entries - (if root_last then 1 else 0))%nat in
  match segment_finish entry_idx is_last checker with
  | Ok done =>
      if (entry_idx <? length (ad_done a))%nat
      then Some (Ok tt, set_ad_done (<[entry_idx := Some done]> (ad_done a)) a) else None
  | Err f => refuse_chunk (segment_fault (vc_seg_id chunk) f) (Some (vc_seg_id chunk)) (vc_chunk_index chunk) a
  end.

(** [&chunk.bytes[span.start..span.end]]. *)
Definition span_slice (span : PayloadSpan) (bytes : list Z) : option (list Z) :=
  if (sp_start span <=? sp_end span)%nat && (sp_end span <=? length bytes)%nat
  then Some (slice (sp_start span) (sp_end span - sp_start span) bytes) else None.

Definition admit_segment (chunk : VerifiedChunk) (i : nat) (e : StreamEntry) (a : StreamAdmission)
    : option (result AdmissionError (list Z * Z) * StreamAdmission) :=
  let seg_id := vc_seg_id chunk in
  let missing := is_none (ad_open a !! i) in
  if (vc_chunk_index chunk =? 0) && missing && (ad_max_open a <=? size (ad_open a))%nat
  then refuse_chunk AeTooManyOpenSegments (Some seg_id) (vc_chunk_index chunk) a
  else
    let a := if (vc_chunk_index chunk =? 0) && missing
             then set_ad_open (<[i := segment_checker_new seg_id (vc_seg_type chunk) (vc_body_offset chunk)
                                       (de_stored_len e) (de_uncompressed_len e)]> (ad_open a)) a
             else a in
    match ad_open a !! i with
    | None => refuse_chunk (AeDescriptorMismatch seg_id) (Some seg_id) (vc_chunk_index chunk) a
    | Some checker =>
        '(r, checker) ← segment_push (vc_bytes chunk) checker;
        let a := set_ad_open (<[i := checker]> (ad_open a)) a in
        match r with
        | Err f => refuse_chunk (segment_fault seg_id f) (Some seg_id) (vc_chunk_index chunk) a
        | Ok span =>
            payload ← span_slice span (vc_bytes chunk);
            let a := match sc_header checker with
                     | Some h => if (sh_seg_type h =? SEG_TYPE_META) && negb (header_is_encrypted h)
                                 then set_ad_meta (meta_extend i payload (ad_meta a)) a else a
                     | None => a
                     end in
            Some (Ok (payload, sp_payload_offset span), a)
        end
    end.

Definition admit_released (chunk : VerifiedChunk) (segment_verified : bool) (complete : option IdentityStatus)
    (a : StreamAdmission) : option (result AdmissionError (list Z * Z) * StreamAdmission) :=
  d ← sv_desc (ad_verifier a);
  i ← descriptor_find (vc_seg_id chunk) d;
  if vc_seg_type chunk =? SEG_TYPE_ROOT_PAGE then admit_root_page chunk complete a
  else
    e ← vd_entries d !! i;
    '(r, a) ← admit_segment chunk i e a;
    match r with
    | Err e => Some (Err e, a)
    | Ok out =>
        '(r, a) ← (if segment_verified then
                     let root_last := is_some_and (λ e, de_seg_type e =? SEG_TYPE_ROOT_PAGE) (last (vd_entries d)) in
                     admit_finish chunk i (length (vd_entries d)) root_last a
                   else Some (Ok tt, a));
        match r with
        | Err e => Some (Err e, a)
        | Ok _ => admit_complete complete out a
        end
    end.

Definition admission_push (frame : list Z) (a : StreamAdmission)
    : option (result AdmissionError AdmissionEvent * StreamAdmission) :=
  match ad_failure a with
  | Some f => Some (Err f, a)
  | None =>
      '(r, v) ← stream_receive frame (ad_verifier a);
      let a := set_ad_verifier v a in
      match r with
      | Err e => Some (Err (AeStream e), a)
      | Ok (EvDescriptorVerified h n len) =>
          Some (Ok (AvDescriptorVerified h n len), set_ad_done (replicate (Z.to_nat n) None) a)
      | Ok (EvTableVerified s) => Some (Ok (AvTableVerified s), a)
      | Ok EvDuplicateDescriptor => Some (Ok AvDuplicateDescriptor, a)
      | Ok (EvUnverified s i) => Some (Ok (AvUnverified s i), a)
      | Ok (EvDuplicate s i) => Some (Ok (AvDuplicate s i), a)
      | Ok (EvChunk chunk segment_verified stage complete) =>
          '(r, a) ← admit_released chunk segment_verified complete a;
          Some (match r with
                | Ok (payload, off) => Ok (AvChunk chunk payload off segment_verified stage complete)
                | Err e => Err e
                end, a)
      end
  end.

Definition admission_state (a : StreamAdmission) : StreamState := sv_state (ad_verifier a).

#[export] Instance admission_target : FrameTarget StreamAdmission AdmissionEvent AdmissionError := {|
  ft_state := admission_state;
  ft_limit t a := frame_payload_limit t (ad_verifier a);
  ft_poison := verifier_poison;
  ft_push := admission_push;
|}.

(** [finish_identity] on the wrapped receiver, over a reader of the stored body. *)
Definition confirm_identity {D : Type} (read_at : Z → Z → D → option (list Z) * D) (r : D) (a : StreamAdmission)
    : option (StreamResult unit * StreamAdmission * D) :=
  '(res, v, r) ← finish_identity read_at r (ad_verifier a);
  let a := set_ad_verifier v a in
  Some (res,
        match res, ad_report a with
        | Ok _, Some rp =>
            set_ad_report (Some (mkVerificationReport (rp_rvf_identity rp) (rp_byte_length rp) (rp_ok rp) true
              (rp_segment_count rp) (rp_executables rp) (rp_records rp) (rp_capabilities rp) (rp_size_violations rp))) a
        | _, _ => a
        end, r).
End admission.

(* ------------------------------------------------------------------ *)
(** ** A segment in a longer buffer *)

Lemma slice_app_l off n (a b : list Z) : (off + n ≤ length a)%nat → slice off n (a ++ b) = slice off n a.
Proof. intros H. unfold slice. rewrite drop_app_le by lia. by rewrite take_app_le by (rewrite length_drop; lia). Qed.

Lemma decode_app l b f : decode_signature_footer l = Ok f → decode_signature_footer (l ++ b) = Ok f.
Proof.
  intros H. pose proof H as H'. unfold decode_signature_footer in H'.
  apply guard_Ok in H' as [H8 H']. apply guard_Ok in H' as [Hm H']. apply guard_Ok in H' as [Hl _].
  unfold SIGNATURE_FOOTER_MIN_SIZE in H8. split_bool.
  assert (read_le 2 2 (l ++ b) = read_le 2 2 l) as Er by (unfold read_le; by rewrite slice_app_l by lia).
  rewrite <-(decode_take (length l)); [by rewrite take_app_length|lia|]. rewrite Er. intros _. lia.
Qed.

Lemma header_parse_app l b h : header_parse l = Ok h → header_parse (l ++ b) = Ok h.
Proof.
  intros H. assert (SEGMENT_HEADER_SIZE ≤ length l)%nat as Hl.
  { unfold header_parse in H. apply guard_Ok in H as [Hl _]. by apply Nat.ltb_ge in Hl. }
  by rewrite <-(header_parse_take (l ++ b)), take_app_le, header_parse_take.
Qed.

Lemma segment_at_app data post o i s next :
  segment_at data o i s next → segment_at (data ++ post) o i s next.
Proof.
  intros Hat. pose proof (segment_at_start _ _ _ _ _ Hat) as Ho. destruct Hat as [Hi Ho' Hh Hl Hp (e & Hf & He & Hn)].
  split; try done.
  - rewrite drop_app_le by lia. by apply header_parse_app.
  - exists e. split_and!; [|rewrite length_app; lia|done]. unfold footer_at in *. rewrite Hp in *. cbn [snd] in *.
    destruct (header_is_signed _); [|done]. destruct Hf as (f & Hd & Hrest). exists f. split; [|done].
    destruct (decide (o + 64 + Z.to_nat (sh_payload_length (ps_header s)) ≤ length data)%nat) as [Hle|Hle].
    + rewrite drop_app_le by done. by apply decode_app.
    + rewrite drop_ge in Hd by lia. done.
Qed.

(** Where the ranges of a segment end. *)
Lemma segment_ranges data o i s next : segment_at data o i s next →
  ((ps_payload_range s).1 ≤ (ps_payload_range s).2 ≤ length data)%nat ∧
  ∀ r, segment_is_signed s = true → ps_footer s = Some r → (r.1 ≤ r.2 ≤ length data)%nat.
Proof.
  intros [_ _ _ _ Hp (e & Hf & He & _)]. unfold segment_is_signed, footer_at in *. rewrite Hp in *. cbn [fst snd] in *.
  destruct (header_is_signed _).
  - destruct Hf as (f & _ & _ & _ & -> & ->). split; [lia|]. intros r _ [= <-]. cbn. lia.
  - destruct Hf as [_ ->]. split; [lia|]. done.
Qed.

Lemma range_of_app (r : nat * nat) data post :
  (r.1 ≤ r.2 ≤ length data)%nat → range_of r (data ++ post) = range_of r data.
Proof. intros H. unfold range_of. apply slice_app_l. lia. Qed.

Lemma segment_payload_app data post o i s next :
  segment_at data o i s next → segment_payload s (data ++ post) = segment_payload s data.
Proof. intros H. destruct (segment_ranges _ _ _ _ _ H) as [Hp _]. by apply range_of_app. Qed.

Lemma facts_app {SH : Sha256} {HH : SegmentHashes} {CT : ConstantTimeEq} data post o i s next :
  segment_at data o i s next → facts_from_buffer (data ++ post) s = facts_from_buffer data s.
Proof.
  intros H. unfold facts_from_buffer. rewrite (segment_payload_app _ _ _ _ _ _ H).
  destruct (segment_ranges _ _ _ _ _ H) as [_ Hf]. f_equal. destruct (segment_is_signed s) eqn:Es; [|done].
  destruct (ps_footer s) as [r|]; [|done]. cbn [mbind option_bind]. by rewrite range_of_app by (by apply Hf).
Qed.

(** A tiling gives each segment its place. *)
Lemma tiles_elem data o i segs s : tiles data o i segs → s ∈ segs → ∃ o' i' next, segment_at data o' i' s next.
Proof.
  induction 1 as [| |o i s0 next segs Hs Ht IH]; intros Hin; [by apply not_elem_of_nil in Hin..|].
  apply elem_of_cons in Hin as [->|Hin]; eauto.
Qed.

(* ------------------------------------------------------------------ *)
(** ** Segments checked one by one tile the body *)

Definition checker_of (e : StreamEntry) : SegmentChecker :=
  segment_checker_new (de_seg_id e) (de_seg_type e) (de_body_offset e) (de_stored_len e) (de_uncompressed_len e).

(** The declarations a stored segment contributes while it is received. *)
Definition meta_entry (e : StreamEntry) (p : list Z) : option (list Z) :=
  if (SEGMENT_HEADER_SIZE <=? length p)%nat then
    match header_parse p with
    | Ok h => if (sh_seg_type h =? SEG_TYPE_META) && negb (header_is_encrypted h) then Some (payload_part h p) else None
    | Err _ => None
    end
  else None.

Section assembling.
Context {SH : Sha256} {HH : SegmentHashes} {CT : ConstantTimeEq}.

(** The stored bytes [p] of entry [e] were accepted with this outcome. *)
Definition checked (e : StreamEntry) (p : list Z) (index : nat) (is_last : bool) (o : ParsedSegment * SegmentFacts) : Prop :=
  ∃ chk, checker_at (checker_of e) p chk ∧ segment_finish index is_last chk = Ok o.

Inductive all_checked (n : nat) : nat → list StreamEntry → list (list Z) → list (ParsedSegment * SegmentFacts) → Prop :=
| checked_nil i : all_checked n i [] [] []
| checked_cons i e p o es ps os :
    checked e p i (i + 1 =? n)%nat o → Z.of_nat (length p) = de_stored_len e →
    all_checked n (S i) es ps os → all_checked n i (e :: es) (p :: ps) (o :: os).

Lemma all_checked_length n i es ps os : all_checked n i es ps os → length os = length es.
Proof. induction 1; cbn; congruence. Qed.

Lemma checked_stored e p index is_last s facts pre :
  checked e p index is_last (s, facts) → Z.of_nat (length p) = de_stored_len e → Forall is_byte p →
  (64 | length pre)%nat → de_body_offset e = Z.of_nat (length pre) →
  (∃ next, segment_stored (checker_of e) (pre ++ p) index is_last s next) ∧ facts = facts_from_buffer (pre ++ p) s ∧
  meta_entry e p = if is_plaintext_meta s then Some (segment_payload s (pre ++ p)) else None.
Proof.
  intros (chk & Hchk & Hfin) Hlen Hb Hpre Hoff. pose proof Hchk as (_ & _ & [Hf|(h & Hv & Hp)]).
  { unfold segment_finish in Hfin. by rewrite (fr_header _ _ Hf) in Hfin. }
  destruct (started_sound h pre p chk (checker_of e) index is_last s facts) as [[next Hs] Hfacts]; try done.
  split_and!; [by exists next|done|]. unfold meta_entry. rewrite (proj2 (Nat.leb_le _ _) (pa_length _ _ _ Hp)).
  destruct Hs as [Hat _ _ _ _]. cbn [checker_of segment_checker_new sc_body_offset] in Hat.
  rewrite Hoff, Nat2Z.id in Hat. destruct Hat as [_ _ Hh _ Hr _].
  rewrite <-(Nat.add_0_r (length pre)), drop_pre in Hh. change (drop 0 p) with p in Hh. rewrite Hh.
  unfold is_plaintext_meta. destruct (_ && _); [|done]. f_equal. unfold segment_payload, range_of, payload_part, slice.
  rewrite Hr. cbn [fst snd]. unfold SEGMENT_HEADER_SIZE. rewrite drop_pre. f_equal. lia.
Qed.

Lemma plaintext_meta_cons data s segs : plaintext_meta data (s :: segs) =
  (if is_plaintext_meta s then [segment_payload s data] else []) ++ plaintext_meta data segs.
Proof.
  unfold plaintext_meta. rewrite filter_cons. destruct (is_plaintext_meta s); [by rewrite decide_True|by rewrite decide_False].
Qed.

Lemma assemble n i es ps os : all_checked n i es ps os → ∀ pre,
  (i + length es = n)%nat → laid_out (Z.of_nat (length pre)) es → (64 | length pre)%nat → Forall is_byte (pre ++ concat ps) →
  let data := pre ++ concat ps in
  tiles data (length pre) i os.*1 ∧ os.*2 = facts_from_buffer data <$> os.*1 ∧
  omap (λ x, meta_entry x.1 x.2) (zip es ps) = plaintext_meta data os.*1.
Proof.
  induction 1 as [i|i e p [s facts] es ps os Hchk Hlen Hrest IH]; intros pre Hn Hlaid Hpre Hb; cbn zeta.
  { split_and!; [|done|done]. apply tiles_end. cbn. rewrite app_nil_r. lia. }
  destruct Hlaid as [Hoff Hlaid]. cbn [concat] in *. rewrite app_assoc in *.
  pose proof Hb as [Hbp Hbr]%Forall_app. apply Forall_app in Hbp as [Hbpre Hbp].
  destruct (checked_stored e p i _ s facts pre Hchk Hlen Hbp Hpre Hoff) as ([next [Hat _ _ _ Hend]] & -> & Hmeta).
  cbn [checker_of segment_checker_new sc_body_offset] in Hat. rewrite Hoff, Nat2Z.id in Hat.
  specialize (IH (pre ++ p)). cbn zeta in IH. rewrite length_app in IH.
  pose proof (segment_at_app _ (concat ps) _ _ _ _ Hat) as Hat'.
  assert (facts_from_buffer ((pre ++ p) ++ concat ps) s = facts_from_buffer (pre ++ p) s) as Hfacts by (by eapply facts_app).
  assert (segment_payload s ((pre ++ p) ++ concat ps) = segment_payload s (pre ++ p)) as Hpay by (by eapply segment_payload_app).
  cbn [fmap list_fmap fst snd zip zip_with omap list_omap]. rewrite Hfacts, plaintext_meta_cons, Hpay.
  assert (∀ l, match meta_entry e p with Some y => y :: l | None => l end =
    (if is_plaintext_meta s then [segment_payload s (pre ++ p)] else []) ++ l) as Hm
    by (intros l; rewrite Hmeta; by destruct (is_plaintext_meta s)).
  destruct es as [|e' es].
  - inversion Hrest; subst. cbn [concat fmap list_fmap omap list_omap zip zip_with] in *. rewrite app_nil_r in *.
    rewrite Hm. split_and!; [|done|done]. apply (tiles_segment _ _ _ _ next); [done|].
    destruct Hend as [->|[_ [Hlt|[? ?]]]]; [by apply tiles_end|apply tiles_end; lia|by apply tiles_pad].
  - assert ((i + 1 =? n)%nat = false) as Hl by (apply Nat.eqb_neq; cbn in Hn; lia). rewrite Hl in Hend.
    destruct Hend as [->|[? _]]; [|done]. destruct IH as (IH1 & IH2 & IH3).
    + cbn in Hn |- *. lia.
    + by rewrite Nat2Z.inj_add, Hlen.
    + rewrite <-length_app. destruct Hat as [_ _ _ _ _ (e0 & _ & _ & ->)]. apply align_up_spec.
    + done.
    + rewrite Hm, IH3, <-IH2. split_and!; [|done|done].
      apply (tiles_segment _ _ _ _ (length (pre ++ p))); [done|by rewrite length_app].
Qed.
End assembling.

(* ------------------------------------------------------------------ *)
(** ** Declarations by entry *)

Definition meta_list {A} (g : A → option (list Z)) (a : nat) (l : list A) : list (nat * list Z) :=
  omap (λ x, pair x.1 <$> g x.2) (zip (seq a (length l)) l).

Lemma meta_list_cons {A} (g : A → option (list Z)) a x l :
  meta_list g a (x :: l) = match g x with Some b => (a, b) :: meta_list g (S a) l | None => meta_list g (S a) l end.
Proof. unfold meta_list. cbn. by destruct (g x). Qed.

Lemma meta_list_ext {A} (g g' : A → option (list Z)) l : ∀ a,
  (∀ j x, l !! j = Some x → g' x = g x) → meta_list g' a l = meta_list g a l.
Proof.
  induction l as [|x l IH]; intros a H; [done|]. rewrite !meta_list_cons, (H 0%nat x eq_refl).
  rewrite (IH (S a)); [done|]. intros j y Hj. by apply (H (S j)).
Qed.

Lemma meta_list_values {A} (g : A → option (list Z)) l : ∀ a, (meta_list g a l).*2 = omap g l.
Proof. induction l as [|x l IH]; intros a; [done|]. rewrite meta_list_cons. cbn. by destruct (g x); cbn; rewrite IH. Qed.

Lemma meta_extend_front a payload m : Forall (λ x, (a < x.1)%nat) m → meta_extend a payload m = (a, payload) :: m.
Proof. destruct 1 as [|[j b] m H _]; [done|]. cbn [meta_extend fst] in *. by rewrite (proj2 (Nat.ltb_lt _ _) H). Qed.

Lemma meta_list_after {A} (g : A → option (list Z)) l : ∀ a b, (a < b)%nat → Forall (λ x, (a < x.1)%nat) (meta_list g b l).
Proof.
  induction l as [|x l IH]; intros a b H; [constructor|]. rewrite meta_list_cons.
  destruct (g x); [constructor; [done|]|]; apply IH; lia.
Qed.

Lemma meta_extend_spec {A} (g g' : A → option (list Z)) l : ∀ a i x payload,
  l !! i = Some x → (∀ j y, l !! j = Some y → j ≠ i → g' y = g y) → g' x = Some (default [] (g x) ++ payload) →
  meta_extend (a + i) payload (meta_list g a l) = meta_list g' a l.
Proof.
  induction l as [|y l IH]; intros a i x payload Hi Hothers Hx; [done|]. rewrite !meta_list_cons. destruct i as [|i].
  - injection Hi as ->. rewrite Nat.add_0_r, Hx.
    rewrite (meta_list_ext g g') by (intros j z Hj; by apply (Hothers (S j) z)).
    destruct (g x) as [b|]; cbn [meta_extend default].
    + by rewrite Nat.ltb_irrefl, Nat.eqb_refl.
    + apply meta_extend_front, meta_list_after. lia.
  - rewrite (Hothers 0%nat y eq_refl) by done. specialize (IH (S a) i x payload Hi).
    rewrite <-IH; [|intros j z Hj Hne; apply (Hothers (S j) z); [done|congruence]|done].
    replace (a + S i)%nat with (S a + i)%nat by lia. destruct (g y) as [b|]; [|done]. cbn [meta_extend].
    rewrite (proj2 (Nat.ltb_ge _ _)), (proj2 (Nat.eqb_neq _ _)) by lia. done.
Qed.

(* ------------------------------------------------------------------ *)
(** ** Following a stream *)

(** The bytes of one segment, and of the body, as released. *)
Definition seg_bytes (R : list VerifiedChunk) (e : StreamEntry) : list Z := concat (vc_bytes <$> chunks_of e R).
Definition stream_body (d : VerifiedDescriptor) (R : list VerifiedChunk) : list Z := concat (seg_bytes R <$> vd_entries d).

Definition is_root_entry (e : StreamEntry) : bool := de_seg_type e =? SEG_TYPE_ROOT_PAGE.
Definition root_last (d : VerifiedDescriptor) : bool := is_some_and is_root_entry (last (vd_entries d)).
Definition segment_total (d : VerifiedDescriptor) : nat := (length (vd_entries d) - if root_last d then 1 else 0)%nat.

(** The declarations of an entry so far. *)
Definition entry_meta (R : list VerifiedChunk) (e : StreamEntry) : option (list Z) :=
  if is_root_entry e then None else meta_entry e (seg_bytes R e).

Section following.
Context {BU : BitflagsUnion} {SH : Sha256} {HH : SegmentHashes} {CT : ConstantTimeEq} {ED : Ed25519}.

(** What is kept for entry [i] after the releases [R]. *)
Definition slot_ok (d : VerifiedDescriptor) (R : list VerifiedChunk) (open : option SegmentChecker)
    (done : option (option (ParsedSegment * SegmentFacts))) (i : nat) (e : StreamEntry) : Prop :=
  if is_root_entry e then
    open = None ∧ done = Some None ∧ (chunks_of e R = [] ∨ is_level0_page (seg_bytes R e) = true)
  else
    (chunks_of e R = [] ∧ open = None ∧ done = Some None) ∨
    (∃ chk, chunks_of e R ≠ [] ∧ ¬ finished d R e ∧ open = Some chk ∧ done = Some None ∧
       checker_at (checker_of e) (seg_bytes R e) chk) ∨
    (∃ o, finished d R e ∧ open = None ∧ done = Some (Some o) ∧
       checked e (seg_bytes R e) i (i + 1 =? segment_total d)%nat o).

Record tracking (opts : VerifyOptions) (d : VerifiedDescriptor) (R : list VerifiedChunk) (a : StreamAdmission) : Prop := {
  tr_opts : ad_opts a = opts;
  tr_failure : ad_failure a = None;
  tr_report : ad_report a = None;
  tr_length : length (ad_done a) = length (vd_entries d);
  tr_slots i e : vd_entries d !! i = Some e → slot_ok d R (ad_open a !! i) (ad_done a !! i) i e;
  tr_meta : ad_meta a = meta_list (entry_meta R) 0 (vd_entries d);
}.

Lemma seg_bytes_snoc e R c : vc_seg_id c = de_seg_id e → seg_bytes (R ++ [c]) e = seg_bytes R e ++ vc_bytes c.
Proof.
  intros H. unfold seg_bytes. rewrite chunks_of_snoc, bool_decide_true by done.
  rewrite fmap_app, concat_app. cbn. by rewrite app_nil_r.
Qed.

Lemma chunks_of_other e R c : vc_seg_id c ≠ de_seg_id e → chunks_of e (R ++ [c]) = chunks_of e R.
Proof. intros H. by rewrite chunks_of_snoc, bool_decide_false, app_nil_r. Qed.

Lemma slot_other d R c open done i e : vc_seg_id c ≠ de_seg_id e →
  slot_ok d R open done i e → slot_ok d (R ++ [c]) open done i e.
Proof. intros H. unfold slot_ok, finished, seg_bytes. by rewrite chunks_of_other. Qed.

Lemma entry_meta_other R c e : vc_seg_id c ≠ de_seg_id e → entry_meta (R ++ [c]) e = entry_meta R e.
Proof. intros H. unfold entry_meta, seg_bytes. by rewrite chunks_of_other. Qed.

(** The declarations grow by the payload bytes of the chunk. *)
Lemma meta_entry_push e p bytes chk span :
  checker_at (checker_of e) (p ++ bytes) chk → span_fits p bytes span chk →
  match sc_header chk with
  | Some h => if (sh_seg_type h =? SEG_TYPE_META) && negb (header_is_encrypted h)
              then meta_entry e (p ++ bytes) = Some (default [] (meta_entry e p) ++ span_part span bytes)
              else meta_entry e (p ++ bytes) = meta_entry e p
  | None => meta_entry e (p ++ bytes) = meta_entry e p
  end.
Proof.
  intros (_ & _ & [Hf|(h & Hv & Hp)]) [_ Hpart]; unfold meta_entry.
  - rewrite (fr_header _ _ Hf). pose proof (fr_length _ _ Hf) as Hl. rewrite (proj2 (Nat.leb_gt _ _) Hl).
    rewrite length_app in Hl. by rewrite (proj2 (Nat.leb_gt SEGMENT_HEADER_SIZE (length p))) by lia.
  - rewrite (pa_header _ _ _ Hp). specialize (Hpart h (pa_header _ _ _ Hp)).
    rewrite (proj2 (Nat.leb_le _ _) (pa_length _ _ _ Hp)).
    assert (header_parse (p ++ bytes) = Ok h) as Hh.
    { unfold start_verdict in Hv. destruct (header_parse (p ++ bytes)) as [h'|]; [|done].
      apply guard_Ok in Hv as [_ Hv]. apply guard_Ok in Hv as [_ Hv]. by apply guard_Ok in Hv as [_ [= ->]]. }
    rewrite Hh. destruct (Nat.leb_spec SEGMENT_HEADER_SIZE (length p)) as [Hl|Hl].
    + assert (header_parse p = Ok h) as -> by (by rewrite <-header_parse_take, take_app_le, header_parse_take in Hh).
      destruct (_ && _); [|done]. cbn. by rewrite Hpart.
    + destruct (_ && _); [|done]. cbn. by rewrite Hpart, payload_part_short by lia.
Qed.
End following.

(* ------------------------------------------------------------------ *)
(** ** What the receiver guarantees of one segment *)

Section guarantees.
Context {SH : Sha256} {ED : Ed25519} {CT : ConstantTimeEq} {CTL : ConstantTimeEqLaws}.
Context (policy : StreamPolicy) (d : VerifiedDescriptor).
Context (Htab : stream_table_ok policy d) (Hwf : stream_header_wf (vd_header d)).

Lemma released_of R e c : releases_ok d R → e ∈ vd_entries d → c ∈ chunks_of e R → authentic d e c.
Proof.
  intros HR (i & He)%list_elem_of_lookup_1 (Hid & Hc)%list_elem_of_filter.
  apply list_elem_of_split in Hc as (R1 & R2 & ->). destruct (HR R1 c R2 eq_refl) as [_ (e' & Ha & _)].
  pose proof (au_entry _ _ _ Ha) as (j & Hj)%list_elem_of_lookup_1.
  assert (i = j) as <-; [|congruence]. apply (tk_ids _ _ Htab i j e e'); try done. by rewrite <-Hid, (au_segment _ _ _ Ha).
Qed.

Lemma next_release R v c i e : receiving policy d (R ++ [c]) v → authentic d e c → vd_entries d !! i = Some e →
  vc_chunk_index c = Z.of_nat (length (chunks_of e R)) ∧ ¬ finished d R e.
Proof.
  intros H Ha He. pose proof (rv_chunks _ _ _ _ H R c [] eq_refl) as [Hi _].
  rewrite (au_segment _ _ _ Ha) in Hi. split; [done|]. intros (n & Hn & E). apply (f_equal length) in E.
  rewrite length_fmap, length_seqZ in E.
  destruct (lookup_lt_is_Some_2 (sv_segs v) i) as [s Hs].
  { rewrite (rv_length _ _ _ _ H). by eapply lookup_lt_Some. }
  destruct (rv_segs _ _ _ _ H i e s He Hs) as [Hn' Hc Hx _ _]. rewrite Hn in Hn'. injection Hn' as ->.
  apply (f_equal length) in Hc. rewrite length_fmap, length_seqZ, chunks_of_snoc, bool_decide_true, length_app in Hc
    by apply Ha. cbn in Hc. lia.
Qed.

(** Chunks in order cover a prefix of the segment, each at its offset. *)
Lemma chunks_cover e n (cs : list VerifiedChunk) :
  0 < de_stored_len e → chunk_count (de_stored_len e) (vd_header d) = Some n →
  Forall (authentic d e) cs → vc_chunk_index <$> cs = seqZ 0 (Z.of_nat (length cs)) → Z.of_nat (length cs) ≤ n →
  Z.of_nat (length (concat (vc_bytes <$> cs))) =
    (if Z.of_nat (length cs) =? n then de_stored_len e else chunk_start (vd_header d) (Z.of_nat (length cs))) ∧
  ∀ cs1 c cs2, cs = cs1 ++ c :: cs2 → vc_segment_offset c = Z.of_nat (length (concat (vc_bytes <$> cs1))).
Proof.
  intros Hst Hn. destruct (chunk_geometry _ _ _ Hwf Hst Hn) as [Hn1 Hgeo].
  induction cs as [|c cs IH] using rev_ind; intros Ha Hidx Hle.
  - change (Z.of_nat (length [])) with 0. rewrite (proj2 (Z.eqb_neq 0 n)) by lia. rewrite chunk_len_zero. split; [done|]. intros cs1 c cs2 E. by destruct cs1.
  - rewrite length_app, Nat2Z.inj_add in *. cbn [length] in *. change (Z.of_nat 1) with 1 in *.
    apply Forall_app in Ha as [Ha Hc]. apply Forall_cons_1 in Hc as [Hc _].
    rewrite fmap_app in Hidx. cbn [fmap list_fmap] in Hidx. rewrite seqZ_app in Hidx by lia.
    apply app_inj_tail in Hidx as [Hidx Hci0]. assert (vc_chunk_index c = Z.of_nat (length cs)) as Hci by lia.
    destruct (IH Ha Hidx ltac:(lia)) as [IH1 IH2]. rewrite (proj2 (Z.eqb_neq _ n)) in IH1 by lia.
    destruct (Hgeo (Z.of_nat (length cs)) ltac:(lia)) as (len & Hlen & _ & _ & Hend & _).
    pose proof (au_length _ _ _ Hc) as Hlc. rewrite Hci, Hlen in Hlc. injection Hlc as Hlc.
    split.
    + rewrite fmap_app, concat_app, length_app. cbn. rewrite app_nil_r, Nat2Z.inj_add, IH1, <-Hlc. done.
    + intros cs1 x cs2 [(-> & -> & ->)|(cs2' & -> & E)]%split_snoc; [|by eapply IH2].
      rewrite (au_offset _ _ _ Hc), Hci. done.
Qed.

Lemma segment_cover R v i e : receiving policy d R v → vd_entries d !! i = Some e →
  (finished d R e → Z.of_nat (length (seg_bytes R e)) = de_stored_len e ∧ chunks_of e R ≠ []) ∧
  ∀ cs1 c cs2, chunks_of e R = cs1 ++ c :: cs2 → vc_segment_offset c = Z.of_nat (length (concat (vc_bytes <$> cs1))).
Proof.
  intros H He. destruct (lookup_lt_is_Some_2 (sv_segs v) i) as [s Hs].
  { rewrite (rv_length _ _ _ _ H). by eapply lookup_lt_Some. }
  destruct (entry_facts policy d Htab R v i e s H He Hs) as ([Hn Hc Hx _ _] & _ & Hst).
  assert (Z.of_nat (length (chunks_of e R)) = sg_next s) as Hlen
    by (rewrite <-(length_fmap vc_chunk_index), Hc, length_seqZ; lia).
  destruct (chunks_cover e (sg_n s) (chunks_of e R)) as [Hcov Hoff]; [done|done| |by rewrite Hlen|lia|].
  { apply Forall_forall. intros c. apply released_of; [apply H|by eapply list_elem_of_lookup_2]. }
  split; [|done]. intros (n & Hn' & E). rewrite Hn in Hn'. injection Hn' as <-.
  apply (f_equal length) in E. rewrite length_fmap, length_seqZ in E.
  destruct (chunk_geometry _ _ _ Hwf Hst Hn) as [Hn1 _].
  rewrite (proj2 (Z.eqb_eq _ _)) in Hcov by lia. split; [done|]. intros Hnil. rewrite Hnil in E. cbn in E. lia.
Qed.

Lemma completed_finished R v e : receiving policy d R v →
  sv_state v = StComplete ∨ sv_state v = StCompleteUnverified → e ∈ vd_entries d → finished d R e.
Proof.
  intros H Hst He. pose proof (rv_verdict _ _ _ _ H) as Hv. unfold verdict_ok in Hv.
  assert (zsum seg_open (zip (vd_entries d) (sv_segs v)) = 0) as Hz
    by (destruct Hst as [E|E]; rewrite E in Hv; apply Hv).
  apply (closed_finished policy d Htab R v); [done|done|]. intros i s Hi Hs.
  apply (zsum_zero _ _ (e, s)) in Hz; [|intros p _; apply seg_open_nonneg|].
  - unfold seg_open in Hz. cbn in Hz. by destruct (sg_done s).
  - eapply list_elem_of_lookup_2. apply lookup_zip_with_Some. eauto.
Qed.
End guarantees.

(* ------------------------------------------------------------------ *)
(** ** Admitting a chunk *)

Section admitting.
Context {BU : BitflagsUnion} {SH : Sha256} {HH : SegmentHashes} {CT : ConstantTimeEq} {CTL : ConstantTimeEqLaws} {ED : Ed25519}.
Context (policy : StreamPolicy) (opts : VerifyOptions) (d : VerifiedDescriptor).
Context (Htab : stream_table_ok policy d) (Hwf : stream_header_wf (vd_header d)).

(** A refusal: the receiver is poisoned, what was derived is dropped. *)
Definition refused (v : StreamVerifier) (a' : StreamAdmission) : Prop :=
  ∃ err seg chunk a0, ad_verifier a0 = v ∧ a' = admission_fail err seg chunk a0.

Lemma refuse_chunk_refused {A} err seg chunk a (Q : A → StreamAdmission → Prop) :
  ∃ r a', refuse_chunk err seg chunk a = Some (r, a') ∧
    match r with Ok x => Q x a' | Err _ => refused (ad_verifier a) a' end.
Proof. eexists _, _. split; [done|]. cbn. by exists err, seg, chunk, a. Qed.

(** What a step that was not refused leaves alone. *)
Record same_frame (a a' : StreamAdmission) : Prop := {
  sf_verifier : ad_verifier a' = ad_verifier a;
  sf_opts : ad_opts a' = ad_opts a;
  sf_failure : ad_failure a' = ad_failure a;
  sf_report : ad_report a' = ad_report a;
  sf_done_length : length (ad_done a') = length (ad_done a);
}.

Section chunk.
Context (R : list VerifiedChunk) (v' : StreamVerifier) (c : VerifiedChunk) (i : nat) (e : StreamEntry).
Context (Hrec : receiving policy d (R ++ [c]) v') (Hauth : authentic d e c) (He : vd_entries d !! i = Some e).
Context (Hbytes : Forall is_byte (seg_bytes R e ++ vc_bytes c)).

(** A segment in progress, with everything else as it was. *)
Record in_progress (a a' : StreamAdmission) : Prop := {
  ip_frame : same_frame a a';
  ip_done : ad_done a' = ad_done a;
  ip_meta : ad_meta a' = meta_list (entry_meta (R ++ [c])) 0 (vd_entries d);
  ip_open : ∃ chk, ad_open a' = <[i := chk]> (ad_open a) ∧ checker_at (checker_of e) (seg_bytes (R ++ [c]) e) chk;
}.

Lemma meta_step a payload p :
  ad_meta a = meta_list (entry_meta R) 0 (vd_entries d) → is_root_entry e = false → p = seg_bytes R e →
  meta_entry e (p ++ vc_bytes c) = Some (default [] (meta_entry e p) ++ payload) →
  meta_extend i payload (ad_meta a) = meta_list (entry_meta (R ++ [c])) 0 (vd_entries d).
Proof.
  intros -> Hroot -> Hm. apply (meta_extend_spec _ _ _ 0 i e payload He).
  - intros j y Hy Hne. apply entry_meta_other. rewrite (au_segment _ _ _ Hauth). intros Hid.
    by apply Hne, (tk_ids _ _ Htab j i y e).
  - unfold entry_meta. rewrite Hroot, seg_bytes_snoc by apply Hauth. done.
Qed.

Lemma meta_keep a :
  ad_meta a = meta_list (entry_meta R) 0 (vd_entries d) → entry_meta (R ++ [c]) e = entry_meta R e →
  ad_meta a = meta_list (entry_meta (R ++ [c])) 0 (vd_entries d).
Proof.
  intros -> Hm. symmetry. apply meta_list_ext. intros j y Hy. destruct (decide (j = i)) as [->|Hne].
  - rewrite He in Hy. by injection Hy as <-.
  - apply entry_meta_other. rewrite (au_segment _ _ _ Hauth). intros Hid. by apply Hne, (tk_ids _ _ Htab j i y e).
Qed.

(** The checker of the segment, opened with its first chunk. *)
Lemma open_checker a : tracking opts d R a → is_root_entry e = false →
  let missing := is_none (ad_open a !! i) in
  let first := (vc_chunk_index c =? 0) && missing in
  let fresh := segment_checker_new (vc_seg_id c) (vc_seg_type c) (vc_body_offset c) (de_stored_len e) (de_uncompressed_len e) in
  ∃ chk, checker_at (checker_of e) (seg_bytes R e) chk ∧
    (if first then chk = fresh else ad_open a !! i = Some chk) ∧ ad_done a !! i = Some None.
Proof.
  intros Htr Hroot. cbn zeta. destruct (next_release policy d R v' c i e Hrec Hauth He) as [Hi Hnf].
  pose proof (tr_slots _ _ _ _ Htr i e He) as Hs. unfold slot_ok in Hs. rewrite Hroot in Hs.
  destruct Hs as [(Hc & -> & ->)|[(chk & Hc & _ & -> & -> & Hat)|(o & Hf & _)]]; [| |done].
  - rewrite Hc in Hi. rewrite Hi. exists (checker_of e). unfold seg_bytes. rewrite Hc. split; [apply checker_new_at|].
    split; [|done]. unfold checker_of. cbn. rewrite (au_body_offset _ _ _ Hauth), (au_offset _ _ _ Hauth), Hi.
    rewrite chunk_len_zero, Z.add_0_r, (au_segment _ _ _ Hauth), (au_type _ _ _ Hauth). done.
  - exists chk. split; [done|]. by rewrite andb_false_r.
Qed.

Lemma admit_segment_ok a : tracking opts d R a → is_root_entry e = false →
  ∃ r a', admit_segment c i e a = Some (r, a') ∧
    match r with Ok _ => in_progress a a' | Err _ => refused (ad_verifier a) a' end.
Proof.
  intros Htr Hroot. destruct (open_checker a Htr Hroot) as (chk & Hat & Hopen & _). unfold admit_segment.
  set (missing := is_none (ad_open a !! i)) in *. set (first := (vc_chunk_index c =? 0) && missing) in *.
  set (fresh := segment_checker_new _ _ _ _ _) in *.
  destruct (first && _); [apply refuse_chunk_refused|].
  set (a1 := if first then set_ad_open _ a else a).
  assert (ad_open a1 !! i = Some chk ∧ same_frame a a1 ∧ ad_done a1 = ad_done a ∧ ad_meta a1 = ad_meta a ∧
    ∀ x, <[i := x]> (ad_open a1) = <[i := x]> (ad_open a)) as (-> & Hfr & Hdone & Hmeta & Hins).
  { subst a1. destruct first; [subst chk|by split_and!]. cbn.
    split_and!; [by rewrite lookup_insert_eq|done|done|done|]. intros x. by rewrite insert_insert_eq. }
  clearbody a1. pose proof (segment_push_ok _ _ _ (vc_bytes c) Hat Hbytes) as Hpush.
  destruct (segment_push (vc_bytes c) chk) as [[[span|f] chk']|]; cbn in Hpush; [| |done]; cbn [mbind option_bind].
  - destruct Hpush as [Hat' Hspan]. pose proof Hspan as [[Hs1 Hs2] _]. unfold span_slice.
    rewrite (proj2 (Nat.leb_le _ _) Hs1), (proj2 (Nat.leb_le _ _) Hs2). cbn [andb mbind option_bind].
    change (slice _ _ (vc_bytes c)) with (span_part span (vc_bytes c)).
    eexists _, _. split; [done|]. cbn.
    pose proof (meta_entry_push e _ _ _ _ Hat' Hspan) as Hm.
    assert (∀ a2, ad_open a2 = <[i := chk']> (ad_open a1) → same_frame a1 a2 → ad_done a2 = ad_done a1 →
      ad_meta a2 = meta_list (entry_meta (R ++ [c])) 0 (vd_entries d) → in_progress a a2) as Hdo.
    { intros a2 Ho Hf2 Hd2 Hm2. split; [|by rewrite Hd2|done|].
      - destruct Hfr, Hf2. split; congruence.
      - exists chk'. rewrite Ho, Hins, seg_bytes_snoc by apply Hauth. done. }
    pose proof (tr_meta _ _ _ _ Htr) as Htm. rewrite <-Hmeta in Htm.
    assert (entry_meta (R ++ [c]) e = meta_entry e (seg_bytes R e ++ vc_bytes c) ∧ entry_meta R e = meta_entry e (seg_bytes R e))
      as [Em1 Em2] by (unfold entry_meta; by rewrite Hroot, seg_bytes_snoc by apply Hauth).
    destruct (sc_header chk') as [h|];
      [destruct ((sh_seg_type h =? SEG_TYPE_META) && negb (header_is_encrypted h))|]; apply Hdo; try done; cbn [ad_meta set_ad_meta set_ad_open].
    + by apply (meta_step a1 _ (seg_bytes R e)).
    + apply meta_keep; [done|]. by rewrite Em1, Em2.
    + apply meta_keep; [done|]. by rewrite Em1, Em2.
  - destruct Hfr as [Hv _ _ _ _]. rewrite <-Hv.
    change (ad_verifier a1) with (ad_verifier (set_ad_open (<[i := chk']> (ad_open a1)) a1)). apply refuse_chunk_refused.
Qed.

Lemma other_slot j y : vd_entries d !! j = Some y → j ≠ i → vc_seg_id c ≠ de_seg_id y.
Proof.
  intros Hy Hne. rewrite (au_segment _ _ _ Hauth). intros Hid. by apply Hne, (tk_ids _ _ Htab j i y e).
Qed.

Lemma has_chunk : chunks_of e (R ++ [c]) ≠ [].
Proof. rewrite chunks_of_snoc, bool_decide_true by apply Hauth. by destruct (chunks_of e R). Qed.

(** The chunk did not complete the segment. *)
Lemma progress_tracking a a1 : tracking opts d R a → in_progress a a1 → is_root_entry e = false →
  ¬ finished d (R ++ [c]) e → tracking opts d (R ++ [c]) a1.
Proof.
  intros Htr [[Hv Ho Hf Hr Hl] Hdone Hmeta (chk & Hopen & Hat)] Hroot Hnf. destruct Htr as [To Tf Trp Tl Ts _].
  split; [congruence|congruence|congruence|congruence| |done]. intros j y Hy. rewrite Hopen, Hdone.
  destruct (decide (j = i)) as [->|Hne].
  - rewrite He in Hy. injection Hy as <-. rewrite lookup_insert_eq. specialize (Ts i e He). unfold slot_ok in *.
    rewrite Hroot in *. right. left. exists chk. split_and!; try done; [apply has_chunk|].
    destruct (next_release policy d R v' c i e Hrec Hauth He) as [_ Hnf0].
    by destruct Ts as [(_ & _ & ->)|[(? & _ & _ & _ & -> & _)|(? & ? & _)]].
  - rewrite lookup_insert_ne by done. apply slot_other; [by eapply other_slot|by apply Ts].
Qed.

(** It did. *)
Lemma finish_tracking a a1 : tracking opts d R a → in_progress a a1 → is_root_entry e = false →
  finished d (R ++ [c]) e →
  ∃ r a2, admit_finish c i (length (vd_entries d)) (root_last d) a1 = Some (r, a2) ∧
    match r with
    | Ok _ => tracking opts d (R ++ [c]) a2 ∧ ad_verifier a2 = ad_verifier a
    | Err _ => refused (ad_verifier a) a2
    end.
Proof.
  intros Htr [[Hv Ho Hf Hr Hl] Hdone Hmeta (chk & Hopen & Hat)] Hroot Hfin. destruct Htr as [To Tf Trp Tl Ts _].
  unfold admit_finish. rewrite Hopen, lookup_insert_eq. cbn [mbind option_bind].
  fold (segment_total d). destruct (segment_finish i _ chk) as [o|f] eqn:Es.
  - assert (i < length (ad_done a))%nat as Hi by (rewrite Tl; by eapply lookup_lt_Some).
    cbn [ad_done set_ad_open]. rewrite Hdone, (proj2 (Nat.ltb_lt _ _) Hi). eexists _, _. split; [done|]. split; [|done].
    split; cbn; [congruence|congruence|congruence|rewrite length_insert; congruence| |done].
    intros j y Hy. destruct (decide (j = i)) as [->|Hne].
    + rewrite He in Hy. injection Hy as <-. rewrite lookup_delete_eq, list_lookup_insert_eq by done.
      unfold slot_ok. rewrite Hroot. right. right. exists o. split_and!; try done. by exists chk.
    + rewrite lookup_delete_ne, lookup_insert_ne, list_lookup_insert_ne by done.
      apply slot_other; [by eapply other_slot|by apply Ts].
  - rewrite <-Hv. change (ad_verifier a1) with (ad_verifier (set_ad_open (delete i (<[i := chk]> (ad_open a))) a1)).
    destruct (refuse_chunk_refused (A := unit) (segment_fault (vc_seg_id c) f) (Some (vc_seg_id c)) (vc_chunk_index c)
      (set_ad_open (delete i (<[i := chk]> (ad_open a))) a1) (λ _ _, True)) as (r & a2 & Hr2 & H2).
    exists r, a2. split; [done|]. injection Hr2 as <- <-. done.
Qed.

(** The root page, which is one chunk. *)
Lemma root_tracking a : tracking opts d R a → is_root_entry e = true →
  vc_chunk_index c = 0 ∧ (is_level0_page (vc_bytes c) = true → tracking opts d (R ++ [c]) a).
Proof.
  intros Htr Hroot. pose proof Hroot as Hty%Z.eqb_eq.
  destruct (next_release policy d R v' c i e Hrec Hauth He) as [Hi Hnf].
  pose proof (Forall_lookup_1 _ _ _ _ (tk_entries _ _ Htab) He) as Ha.
  pose proof (ea_root _ _ _ Ha Hty) as Hlen.
  assert (chunk_count (de_stored_len e) (vd_header d) = Some 1) as Hn.
  { unfold chunk_count. destruct (chunk_size (vd_header d)) as [cs|] eqn:Ecs; [|done].
    pose proof (chunk_size_range _ _ Hwf Ecs). rewrite Hlen, (proj2 (Z.ltb_ge _ _)); [done|].
    unfold ROOT_PAGE_SIZE. lia. }
  assert (chunks_of e R = []) as Hnil.
  { destruct (lookup_lt_is_Some_2 (sv_segs v') i) as [s Hs].
    { rewrite (rv_length _ _ _ _ Hrec). by eapply lookup_lt_Some. }
    destruct (rv_segs _ _ _ _ Hrec i e s He Hs) as [Hn' Hc Hx _ _]. rewrite Hn in Hn'. injection Hn' as Hn'.
    apply (f_equal length) in Hc. rewrite length_fmap, length_seqZ, chunks_of_snoc, bool_decide_true, length_app in Hc
      by apply Hauth. apply nil_length_inv. cbn in Hc. lia. }
  rewrite Hnil in Hi. split; [done|]. intros Hpage. destruct Htr as [To Tf Trp Tl Ts Tm]. split; try done.
  - intros j y Hy. destruct (decide (j = i)) as [->|Hne].
    + rewrite He in Hy. injection Hy as <-. specialize (Ts i e He). unfold slot_ok in *. rewrite Hroot in *.
      destruct Ts as (? & ? & _). split_and!; [done|done|right]. rewrite seg_bytes_snoc by apply Hauth.
      unfold seg_bytes. by rewrite Hnil.
    + apply slot_other; [by eapply other_slot|by apply Ts].
  - apply meta_keep; [done|]. unfold entry_meta. by rewrite Hroot.
Qed.
End chunk.
End admitting.

(* ------------------------------------------------------------------ *)
(** ** The report *)

(** The report of a body whose segments these are. *)
Definition body_report {BU : BitflagsUnion} {SH : Sha256} {HH : SegmentHashes} {CT : ConstantTimeEq} {ED : Ed25519}
    (delivery : Delivery) (confirmed : bool) (identity body : list Z) (segs : list ParsedSegment) (opts : VerifyOptions)
    : VerificationReport :=
  build_report (mkReportInput identity (Z.of_nat (length body)) segs (facts_from_buffer body <$> segs)
    (plaintext_meta body segs) delivery confirmed) opts.

(** The segments tile the body, less the root page the table lists. *)
Definition body_walked (d : VerifiedDescriptor) (body : list Z) (segs : list ParsedSegment) : Prop :=
  segs ≠ [] ∧ Z.of_nat (length body) = dh_body_len (vd_header d) ∧ (length segs ≤ length (vd_entries d))%nat ∧
  if root_last d then
    (ROOT_PAGE_SIZE + SEGMENT_HEADER_SIZE ≤ length body)%nat ∧
    is_level0_page (drop (length body - ROOT_PAGE_SIZE) body) = true ∧
    tiles (take (length body - ROOT_PAGE_SIZE) body) 0 0 segs
  else tiles body 0 0 segs.

Section reporting.
Context {BU : BitflagsUnion} {SH : Sha256} {HH : SegmentHashes} {CT : ConstantTimeEq} {CTL : ConstantTimeEqLaws} {ED : Ed25519}.
Context (policy : StreamPolicy) (opts : VerifyOptions) (d : VerifiedDescriptor).
Context (Htab : stream_table_ok policy d) (Hwf : stream_header_wf (vd_header d)).

Lemma entries_split : ∃ es root, vd_entries d = es ++ root ∧ Forall (λ e, is_root_entry e = false) es ∧
  length es = segment_total d ∧
  match root with [] => root_last d = false | [er] => is_root_entry er = true ∧ root_last d = true | _ => False end.
Proof.
  assert (∀ es rest, vd_entries d = es ++ rest → rest ≠ [] → Forall (λ e, is_root_entry e = false) es) as Hes.
  { intros es rest E Hne. apply Forall_lookup. intros j e Hj. destruct (is_root_entry e) eqn:Er; [|done].
    apply Z.eqb_eq in Er. assert (vd_entries d !! j = Some e) as Hj' by (rewrite E; by apply lookup_app_l_Some).
    pose proof (tk_root _ _ Htab j e Hj' Er) as Hl. apply lookup_lt_Some in Hj. rewrite E, length_app in Hl.
    destruct rest; [done|]. cbn in Hl. lia. }
  unfold segment_total, root_last. destruct (vd_entries d) as [|er es _] eqn:E using rev_ind.
  { pose proof (tk_some _ _ Htab). congruence. }
  rewrite last_snoc. cbn [is_some_and]. destruct (is_root_entry er) eqn:Er.
  - exists es, [er]. split_and!; [done|by eapply Hes|rewrite length_app; cbn; lia|done|done].
  - exists (es ++ [er]), []. rewrite app_nil_r. split_and!; [done| |lia|done].
    apply Forall_app. split; [by eapply Hes|by constructor].
Qed.

Lemma collect_checked (f : StreamEntry → list Z) (done : list (option (ParsedSegment * SegmentFacts))) n es : ∀ i,
  (∀ k e, es !! k = Some e → ∃ o, done !! (i + k)%nat = Some (Some o) ∧ checked e (f e) (i + k) (i + k + 1 =? n)%nat o ∧
     Z.of_nat (length (f e)) = de_stored_len e) →
  ∃ os, all_checked n i es (f <$> es) os ∧ take (length es) (drop i done) = Some <$> os.
Proof.
  induction es as [|e es IH]; intros i H; [exists []; split; [constructor|done]|].
  destruct (H 0%nat e eq_refl) as (o & Hd & Hc & Hl). rewrite Nat.add_0_r in *.
  destruct (IH (S i)) as (os & Hos & Htake).
  { intros k e' Hk. specialize (H (S k) e' Hk). replace (i + S k)%nat with (S i + k)%nat in H by lia. done. }
  exists (o :: os). split; [by constructor|]. rewrite (drop_S _ _ _ Hd). cbn. by rewrite Htake.
Qed.

Lemma omap_id_fmap {A} (l : list A) : omap id (Some <$> l) = l.
Proof. induction l as [|x l IH]; [done|]. cbn. by rewrite IH. Qed.

(** After the last chunk everything is in place. *)
Lemma finished_checked R v a : tracking opts d R a → receiving policy d R v →
  (∀ e, e ∈ vd_entries d → finished d R e) →
  ∃ es root os, vd_entries d = es ++ root ∧ Forall (λ e, is_root_entry e = false) es ∧
    all_checked (length es) 0 es (seg_bytes R <$> es) os ∧ omap id (ad_done a) = os ∧
    match root with
    | [] => root_last d = false
    | [er] => root_last d = true ∧ is_root_entry er = true ∧ is_level0_page (seg_bytes R er) = true
    | _ => False
    end.
Proof.
  intros Htr Hrec Hfin. destruct entries_split as (es & root & E & Hes & Hn & Hroot).
  assert (∀ i e, vd_entries d !! i = Some e → finished d R e) as Hfin' by (intros i e Hi; by eapply Hfin, list_elem_of_lookup_2).
  destruct (collect_checked (seg_bytes R) (ad_done a) (length es) es 0) as (os & Hos & Htake).
  { intros k e Hk. assert (vd_entries d !! k = Some e) as Hk' by (rewrite E; by apply lookup_app_l_Some).
    destruct (segment_cover policy d Htab Hwf R v k e Hrec Hk') as [Hcov _]. destruct (Hcov (Hfin' k e Hk')) as [Hlen Hne].
    pose proof (tr_slots _ _ _ _ Htr k e Hk') as Hs. unfold slot_ok in Hs.
    rewrite (Forall_lookup_1 _ _ _ _ Hes Hk) in Hs.
    destruct Hs as [(? & _)|[(? & _ & Hnf & _)|(o & _ & _ & Hd & Hc)]]; [done|by destruct Hnf; apply (Hfin' k)|].
    exists o. rewrite Hn. done. }
  exists es, root, os. rewrite drop_0 in Htake. pose proof (tr_length _ _ _ _ Htr) as Hl. rewrite E, length_app in Hl.
  split_and!; try done.
  - rewrite <-(take_drop (length es) (ad_done a)), Htake, omap_app, omap_id_fmap.
    destruct root as [|er [|]]; [| |done].
    + rewrite drop_ge by (cbn in Hl; lia). by rewrite app_nil_r.
    + assert (vd_entries d !! length es = Some er) as Her by (rewrite E; by apply list_lookup_middle).
      pose proof (tr_slots _ _ _ _ Htr _ er Her) as Hs. unfold slot_ok in Hs. rewrite (proj1 Hroot) in Hs.
      destruct Hs as (_ & Hd & _). rewrite (drop_S _ _ _ Hd), drop_ge by (cbn in Hl; lia). cbn. by rewrite app_nil_r.
  - destruct root as [|er [|]]; [done| |done]. destruct Hroot as [Her Hrl]. split_and!; [done|done|].
    assert (vd_entries d !! length es = Some er) as Hi by (rewrite E; by apply list_lookup_middle).
    destruct (segment_cover policy d Htab Hwf R v _ er Hrec Hi) as [Hcov _]. destruct (Hcov (Hfin' _ er Hi)) as [_ Hne].
    pose proof (tr_slots _ _ _ _ Htr _ er Hi) as Hs. unfold slot_ok in Hs. rewrite Her in Hs. by destruct Hs as (_ & _ & [?|?]).
Qed.

Lemma level0_length page : is_level0_page page = true → length page = ROOT_PAGE_SIZE.
Proof. unfold is_level0_page. destruct (Nat.eqb_spec (length page) ROOT_PAGE_SIZE); [done|]. done. Qed.

Lemma stored_length R (es : list StreamEntry) :
  (∀ e, e ∈ es → Z.of_nat (length (seg_bytes R e)) = de_stored_len e) →
  Z.of_nat (length (concat (seg_bytes R <$> es))) = stored_total es.
Proof.
  induction es as [|e es IH]; intros H; [done|]. cbn [fmap list_fmap concat]. rewrite length_app, Nat2Z.inj_add, IH.
  - rewrite (H e) by by left. done.
  - intros e' He'. apply H. by right.
Qed.

(** The collected segments, facts and declarations are those of the body. *)
Lemma finished_body R v a : tracking opts d R a → receiving policy d R v → Forall (λ c, Forall is_byte (vc_bytes c)) R →
  (∀ e, e ∈ vd_entries d → finished d R e) → omap id (ad_done a) ≠ [] →
  let body := stream_body d R in let segs := (omap id (ad_done a)).*1 in
  body_walked d body segs ∧ (omap id (ad_done a)).*2 = facts_from_buffer body <$> segs ∧
  (ad_meta a).*2 = plaintext_meta body segs.
Proof.
  intros Htr Hrec Hb Hfin Hne. cbn zeta. destruct (finished_checked R v a Htr Hrec Hfin) as (es & root & os & E & Hes & Hos & Hd & Hroot).
  rewrite Hd in *. clear Hd. set (area := concat (seg_bytes R <$> es)).
  assert (∀ e, e ∈ vd_entries d → Forall is_byte (seg_bytes R e)) as Hbe.
  { intros e _. unfold seg_bytes. apply Forall_concat, Forall_fmap. apply Forall_forall. intros c Hc.
    apply list_elem_of_filter in Hc as [_ Hc]. by apply (proj1 (Forall_forall _ _) Hb c). }
  assert (Forall is_byte area) as Hba.
  { apply Forall_concat, Forall_fmap, Forall_forall. intros e He. apply Hbe. rewrite E. apply elem_of_app. by left. }
  assert (laid_out 0 es) as Hlaid.
  { pose proof (tk_laid _ _ Htab) as Hl. rewrite E in Hl. destruct root as [|er [|]]; [by rewrite app_nil_r in Hl| |done].
    by apply laid_out_snoc in Hl as [Hl _]. }
  destruct (assemble (length es) 0 es _ os Hos []) as (Htiles & Hfacts & Hmeta); [done|done|by exists 0%nat|done|].
  cbn [app length] in Htiles, Hfacts, Hmeta. fold area in Htiles, Hfacts, Hmeta.
  assert (stream_body d R = area ++ concat (seg_bytes R <$> root)) as Ebody
    by (unfold stream_body; by rewrite E, fmap_app, concat_app).
  assert (Z.of_nat (length (stream_body d R)) = dh_body_len (vd_header d)) as Hlen.
  { rewrite <-(tk_total _ _ Htab). apply stored_length. intros e (i & Hi)%list_elem_of_lookup_1.
    destruct (segment_cover policy d Htab Hwf R v i e Hrec Hi) as [Hcov _]. apply Hcov, Hfin. by eapply list_elem_of_lookup_2. }
  assert (∀ s, s ∈ os.*1 → ∃ o' i' next, segment_at area o' i' s next) as Hat by (intros s Hs; by eapply tiles_elem).
  assert (os.*2 = facts_from_buffer (stream_body d R) <$> os.*1) as Hf.
  { rewrite Hfacts, Ebody. apply list_fmap_ext. intros j s Hs. apply list_elem_of_lookup_2 in Hs.
    destruct (Hat s Hs) as (o' & i' & next & Hsat). symmetry. by eapply facts_app. }
  assert (plaintext_meta (stream_body d R) os.*1 = plaintext_meta area os.*1) as Hm.
  { unfold plaintext_meta. rewrite Ebody. apply list_fmap_ext. intros j s Hs. apply list_elem_of_lookup_2 in Hs.
    apply list_elem_of_filter in Hs as [_ Hs]. destruct (Hat s Hs) as (o' & i' & next & Hsat). by eapply segment_payload_app. }
  assert (omap (entry_meta R) (vd_entries d) = plaintext_meta area os.*1) as Hmeta'.
  { rewrite <-Hmeta, E, omap_app. replace (omap (entry_meta R) root) with (@nil (list Z)).
    - rewrite app_nil_r. clear -Hes. induction Hes as [|e es He _ IH]; [done|].
      cbn. unfold entry_meta at 1. rewrite He. cbn. by rewrite <-IH.
    - destruct root as [|er [|]]; [done| |done]. cbn. unfold entry_meta. by rewrite (proj1 (proj2 Hroot)). }
  split_and!; [|done|by rewrite (tr_meta _ _ _ _ Htr), meta_list_values, Hmeta', Hm].
  split; [by destruct os|]. split; [done|]. split.
  { rewrite length_fmap, E, length_app. clear -Hos. assert (length os = length es) as ->; [|lia].
    by eapply all_checked_length. }
  rewrite Ebody. destruct root as [|er [|]]; [| |done].
  - rewrite Hroot, app_nil_r. done.
  - destruct Hroot as (-> & _ & Hpage). pose proof (level0_length _ Hpage) as Hpl.
    cbn [fmap list_fmap concat]. rewrite app_nil_r, length_app, Hpl.
    replace (length area + ROOT_PAGE_SIZE - ROOT_PAGE_SIZE)%nat with (length area) by lia.
    rewrite drop_app_length, take_app_length. split_and!; [|done|done].
    destruct os as [|[s f] os]; [done|]. cbn in Htiles. apply tiles_cons_inv in Htiles as (next & Hs0 & _).
    apply segment_at_start in Hs0. change SEGMENT_HEADER_SIZE with 64%nat. lia.
Qed.

Definition report_ok (R : list VerifiedChunk) (status : IdentityStatus) (r : VerificationReport) : Prop :=
  has_identity d ∧ status ≠ IdNotPresent ∧ ∃ segs, body_walked d (stream_body d R) segs ∧
    r = body_report Streamed (bool_decide (status = IdVerified)) (dh_rvf_identity (vd_header d)) (stream_body d R) segs opts.

Lemma finish_report_ok R v a st : tracking opts d R a → ad_verifier a = v → receiving policy d R v →
  Forall (λ c, Forall is_byte (vc_bytes c)) R → sv_state v = StComplete ∨ sv_state v = StCompleteUnverified →
  ∃ r a', finish_report (Some st) a = Some (r, a') ∧
    match r with
    | Ok _ => ad_verifier a' = v ∧ ad_failure a' = None ∧ ∃ rp, ad_report a' = Some rp ∧ report_ok R st rp
    | Err _ => refused v a'
    end.
Proof.
  intros Htr Hv Hrec Hb Hst. unfold finish_report. rewrite Hv, (rv_desc _ _ _ _ Hrec). cbn [mbind option_bind].
  destruct (_ || _) eqn:E; [eexists _, _; split; [done|]; by eexists _, _, _, _|]. split_bool.
  destruct (omap id (ad_done a)) as [|o os] eqn:Ed.
  { eexists _, _. split; [done|]. eexists _, _, _, (set_ad_done _ a). done. }
  destruct (finished_body R v a Htr Hrec Hb) as (Hwalk & Hfacts & Hmeta); [|by rewrite Ed|].
  { intros e He. by eapply completed_finished. }
  rewrite Ed in *. eexists _, _. split; [done|]. cbn [ad_verifier ad_failure ad_report set_ad_report set_ad_done].
  split_and!; [done|apply Htr|]. eexists. split; [done|]. split_and!.
  - done.
  - intros ->. congruence.
  - eexists. split; [done|]. unfold body_report. rewrite Hfacts. cbn [ad_meta ad_opts set_ad_done]. rewrite Hmeta.
    rewrite (tr_opts _ _ _ _ Htr), (proj1 (proj2 Hwalk)). f_equal. f_equal. apply bool_decide_ext. split; congruence.
Qed.

(** What follows an accepted chunk. *)
Definition admitted_ok (R : list VerifiedChunk) (v : StreamVerifier) (complete : option IdentityStatus)
    (a' : StreamAdmission) : Prop :=
  ad_verifier a' = v ∧
  match complete with
  | None => tracking opts d R a'
  | Some st => ∃ rp, ad_report a' = Some rp ∧ report_ok R st rp
  end.

Lemma admit_complete_ok R v a complete out : tracking opts d R a → ad_verifier a = v → receiving policy d R v →
  Forall (λ c, Forall is_byte (vc_bytes c)) R →
  (complete ≠ None → sv_state v = StComplete ∨ sv_state v = StCompleteUnverified) →
  ∃ r a', admit_complete complete out a = Some (r, a') ∧
    match r with Ok _ => admitted_ok R v complete a' | Err _ => refused v a' end.
Proof.
  intros Htr Hv Hrec Hb Hst. unfold admit_complete. destruct complete as [st|]; cbn [is_some].
  - destruct (finish_report_ok R v a st Htr Hv Hrec Hb) as (r & a' & -> & Hr); [by apply Hst|]. cbn [mbind option_bind].
    eexists _, _. split; [done|]. destruct r; [|done]. destruct Hr as (? & _ & ?). done.
  - eexists _, _. split; [done|]. done.
Qed.

Lemma admit_ok R v' c completed (stage : option Z) complete a :
  tracking opts d R a → ad_verifier a = v' → receiving policy d (R ++ [c]) v' →
  Forall (λ c, Forall is_byte (vc_bytes c)) R → event_ok d R (Ok (EvChunk c completed stage complete)) v' →
  ∃ r a', admit_released c completed complete a = Some (r, a') ∧
    match r with Ok _ => admitted_ok (R ++ [c]) v' complete a' | Err _ => refused v' a' end.
Proof.
  intros Htr Hv Hrec Hb (e & Hauth & Hcomp & Hbc & Hst). unfold admit_released. rewrite Hv, (rv_desc _ _ _ _ Hrec).
  cbn [mbind option_bind]. pose proof (au_entry _ _ _ Hauth) as (i & He)%list_elem_of_lookup_1.
  rewrite (proj2 (tk_find _ _ Htab (vc_seg_id c) i)) by (exists e; by rewrite (au_segment _ _ _ Hauth)).
  cbn [mbind option_bind]. rewrite (au_type _ _ _ Hauth).
  change (de_seg_type e =? SEG_TYPE_ROOT_PAGE) with (is_root_entry e).
  assert (Forall (λ c, Forall is_byte (vc_bytes c)) (R ++ [c])) as Hb' by (apply Forall_app; split; [done|by constructor]).
  assert (Forall is_byte (seg_bytes R e ++ vc_bytes c)) as Hbytes.
  { rewrite <-(seg_bytes_snoc e R c) by apply Hauth. apply Forall_concat, Forall_fmap, Forall_forall. intros x Hx.
    apply list_elem_of_filter in Hx as [_ Hx]. by apply (proj1 (Forall_forall _ _) Hb' x). }
  assert (complete ≠ None → sv_state v' = StComplete ∨ sv_state v' = StCompleteUnverified) as Hdone
    by (destruct complete as [st|]; [by intros _; apply Hst|done]).
  destruct (is_root_entry e) eqn:Hroot.
  - destruct (root_tracking policy opts d Htab Hwf R v' c i e Hrec Hauth He a Htr Hroot) as [Hi Htr'].
    unfold admit_root_page. rewrite Hi. cbn [Z.eqb andb].
    destruct (negb (is_level0_page (vc_bytes c)) || _) eqn:E.
    + rewrite <-Hv. apply refuse_chunk_refused.
    + apply orb_false_iff in E as [E _]. apply negb_false_iff in E. apply admit_complete_ok; auto.
  - rewrite He. cbn [mbind option_bind].
    destruct (admit_segment_ok policy opts d Htab R v' c i e Hrec Hauth He Hbytes a Htr Hroot) as (r & a1 & -> & Hr).
    cbn [mbind option_bind]. destruct r as [out|err]; [|eexists _, _; split; [done|]; by rewrite Hv in Hr].
    destruct completed.
    + destruct (finish_tracking policy opts d Htab R c i e Hauth He a a1 Htr Hr Hroot) as (r2 & a2 & E2 & H2);
        [by apply Hcomp|]. unfold root_last, is_root_entry in E2. rewrite E2. cbn [mbind option_bind].
      destruct r2 as [[]|err]; [|eexists _, _; split; [done|]; by rewrite Hv in H2].
      destruct H2 as [Htr2 Hv2]. apply admit_complete_ok; [done|congruence|done..].
    + cbn [mbind option_bind]. apply admit_complete_ok; [|by rewrite (sf_verifier _ _ (ip_frame _ _ _ _ _ _ _ Hr))|done..].
      apply (progress_tracking policy opts d Htab R v' c i e Hrec Hauth He a a1 Htr Hr Hroot). intros Hf. by apply Hcomp in Hf.
Qed.
End reporting.

(* ------------------------------------------------------------------ *)
(** ** Histories *)

Inductive AdmissionCall : Set :=
| AcFrame (f : list Z)
| AcPoison (reason : StreamError)
| AcDiscard.

Definition admission_call_bytes (c : AdmissionCall) : Prop := match c with AcFrame f => Forall is_byte f | _ => True end.

(** The chunks handed to the consumer. *)
Definition handed (r : result AdmissionError AdmissionEvent) : list VerifiedChunk :=
  match r with Ok (AvChunk c _ _ _ _ _) => [c] | _ => [] end.

Section histories.
Context {BU : BitflagsUnion} {SH : Sha256} {HH : SegmentHashes} {CT : ConstantTimeEq} {CTL : ConstantTimeEqLaws} {ED : Ed25519}.

Definition admission_call (c : AdmissionCall) (a : StreamAdmission) : option (list VerifiedChunk * StreamAdmission) :=
  match c with
  | AcFrame f => '(r, a) ← admission_push f a; Some (handed r, a)
  | AcPoison reason => Some ([], (verifier_poison reason a).2)
  | AcDiscard => Some ([], discard_derived_state a)
  end.

Fixpoint admission_calls (cs : list AdmissionCall) (a : StreamAdmission) : option (list VerifiedChunk * StreamAdmission) :=
  match cs with
  | [] => Some ([], a)
  | c :: cs => '(R, a) ← admission_call c a; '(R', a) ← admission_calls cs a; Some (R ++ R', a)
  end.

Lemma admission_calls_snoc cs c a :
  admission_calls (cs ++ [c]) a = ('(R, a) ← admission_calls cs a; '(R', a) ← admission_call c a; Some (R ++ R', a)).
Proof.
  revert a. induction cs as [|x cs IH]; intros a; cbn.
  - destruct (admission_call c a) as [[R a1]|]; [|done]. cbn. by rewrite app_nil_r.
  - destruct (admission_call x a) as [[R a1]|]; [cbn|done]. rewrite IH.
    destruct (admission_calls cs a1) as [[R1 a2]|]; [cbn|done].
    destruct (admission_call c a2) as [[R2 a3]|]; [cbn|done]. by rewrite app_assoc.
Qed.

Context (policy : StreamPolicy) (opts : VerifyOptions).

(** After the chunks [D] were handed over. *)
Definition admission_ok (d : VerifiedDescriptor) (D : list VerifiedChunk) (a : StreamAdmission) : Prop :=
  ∃ R, receiving policy d R (ad_verifier a) ∧ Forall (λ c, Forall is_byte (vc_bytes c)) R ∧
    (stream_open (ad_verifier a) → R = D ∧ tracking opts d D a) ∧
    (∀ r, ad_report a = Some r → R = D ∧ (sv_state (ad_verifier a) = StComplete ∨ sv_state (ad_verifier a) = StCompleteUnverified) ∧
       ∃ st, sv_identity_status (ad_verifier a) = Some st ∧ report_ok opts d D st r).

(** Before a descriptor was accepted. *)
Definition admission_waiting (a : StreamAdmission) : Prop :=
  waiting policy (ad_verifier a) ∧ ad_report a = None ∧
  (sv_state (ad_verifier a) = StAwaitDescriptor → a = admission_new policy opts).

Lemma refused_ok d R D v a' : receiving policy d R v → Forall (λ c, Forall is_byte (vc_bytes c)) R → refused v a' →
  admission_ok d D a'.
Proof.
  intros H Hb (err & seg & chunk & a0 & <- & ->). exists R. cbn.
  split_and!; [by apply (force_poison_receiving policy)|done| |done]. intros [?|?]; done.
Qed.

Lemma poisoned_closed v reason seg chunk : stream_open (poison_at reason seg chunk v) → False.
Proof. unfold stream_open, poison_at. destruct (sv_state v) eqn:E; cbn; rewrite ?E; intros [?|?]; done. Qed.

Lemma poison_keeps_report d D a reason : admission_ok d D a → admission_ok d D (set_ad_verifier (poison reason (ad_verifier a)) a).
Proof.
  intros (R & Hrec & Hb & Hlive & Hrep). exists R. cbn. split_and!; [by apply poison_at_receiving|done| |].
  - by intros ?%poisoned_closed.
  - intros r Hr. destruct (Hrep r Hr) as (? & Hst & Hid). unfold poison, poison_at. by destruct Hst as [E|E]; rewrite !E; auto.
Qed.

Lemma discard_ok d D a : admission_ok d D a → admission_ok d D (discard_derived_state a).
Proof.
  intros (R & Hrec & Hb & Hlive & Hrep). exists R. cbn. split_and!; [|done| |done].
  - destruct (sv_state (ad_verifier a)); try done; by apply poison_at_receiving.
  - destruct (sv_state (ad_verifier a)) eqn:E; try (by intros ?%poisoned_closed); by intros [?|?]; rewrite E in *.
Qed.

Lemma tracking_verifier d R a v : tracking opts d R a → tracking opts d R (set_ad_verifier v a).
Proof. intros []. by split. Qed.

Section push.
Context (d : VerifiedDescriptor) (Htab : stream_table_ok policy d) (Hwf : stream_header_wf (vd_header d)).

Lemma push_closed f v : sv_state v ≠ StAwaitDescriptor → ¬ stream_open v →
  ∃ e, stream_receive f v = Some (Err e, v).
Proof. intros Hw Hc. unfold stream_receive, stream_open in *. destruct (sv_state v); eauto; tauto. Qed.

Lemma admission_push_ok D a f : admission_ok d D a → Forall is_byte f →
  ∃ r a', admission_push f a = Some (r, a') ∧ admission_ok d (D ++ handed r) a'.
Proof.
  intros Hok Hf. unfold admission_push. destruct (ad_failure a) as [err|] eqn:Efail.
  { eexists _, _. split; [done|]. cbn. by rewrite app_nil_r. }
  pose proof Hok as (R & Hrec & Hb & Hlive & Hrep).
  destruct (decide (stream_open (ad_verifier a))) as [Hopen|Hclosed].
  - destruct (Hlive Hopen) as [-> Htr]. pose proof (wp_stream_receive policy d Htab Hwf D _ f Hrec Hf) as Hw. unfold wp in Hw.
    destruct (stream_receive f (ad_verifier a)) as [[r v']|]; [|done]. destruct Hw as [Hrec' Hev]. cbn [mbind option_bind].
    assert (released_by r = [] → ∀ D', D' = D → admission_ok d D' (set_ad_verifier v' a)) as Hsame.
    { intros Hnil D' ->. rewrite Hnil, app_nil_r in Hrec'. exists D. cbn. split_and!; [done|done| |].
      - intros _. split; [done|]. by apply tracking_verifier.
      - rewrite (tr_report _ _ _ _ Htr). done. }
    destruct r as [[h n len|s|s idx|s idx| |c fin stage complete]|err];
      try (eexists _, _; split; [done|]; apply Hsame; [done|by rewrite app_nil_r]); [done|].
    cbn [released_by] in Hrec'. destruct (admit_ok policy opts d Htab Hwf D v' c fin stage complete (set_ad_verifier v' a))
      as (r & a' & -> & Hr); [by apply tracking_verifier|done|done|done|done|]. cbn [mbind option_bind].
    destruct Hev as (e & _ & _ & Hbc & Hst).
    assert (Forall (λ c, Forall is_byte (vc_bytes c)) (D ++ [c])) as Hb' by (apply Forall_app; split; [done|by constructor]).
    eexists _, _. split; [done|]. destruct r as [[payload off]|err]; cbn [handed].
    + destruct Hr as [Hv Hr]. exists (D ++ [c]). rewrite Hv. split_and!; [done|done| |].
      * intros Ho. split; [done|]. destruct complete as [st|]; [|done].
        unfold stream_open in Ho. destruct Hst as [_ [E|E]]; rewrite E in Ho; by destruct Ho.
      * intros rp Hrp. destruct complete as [st|]; [|by rewrite (tr_report _ _ _ _ Hr) in Hrp].
        destruct Hr as (rp' & Hrp' & Hrok). rewrite Hrp in Hrp'. injection Hrp' as <-. split; [done|].
        split; [apply Hst|]. exists st. split; [apply Hst|done].
    + rewrite app_nil_r. by eapply refused_ok.
  - assert (sv_state (ad_verifier a) ≠ StAwaitDescriptor) as Haw.
    { intros E. pose proof (rv_verdict _ _ _ _ Hrec) as Hv. unfold verdict_ok in Hv. by rewrite E in Hv. }
    destruct (push_closed f (ad_verifier a)) as [e ->]; [done|done|]. cbn [mbind option_bind].
    eexists _, _. split; [done|]. cbn. rewrite app_nil_r. exists R. cbn. done.
Qed.
End push.

Lemma laid_out_take off es i e : laid_out off es → es !! i = Some e → de_body_offset e = off + stored_total (take i es).
Proof.
  revert off i. induction es as [|x es IH]; intros off i H Hi; [done|]. destruct H as [Hx H]. destruct i as [|i].
  - injection Hi as ->. cbn. lia.
  - rewrite (IH _ _ H Hi). change (stored_total (take (S i) (x :: es))) with (de_stored_len x + stored_total (take i es)). lia.
Qed.

(** Every released chunk lies at its offset of the body. *)
Lemma chunk_in_body d D v c : stream_table_ok policy d → stream_header_wf (vd_header d) → receiving policy d D v →
  (∀ e, e ∈ vd_entries d → finished d D e) → c ∈ D →
  slice (Z.to_nat (vc_body_offset c)) (length (vc_bytes c)) (stream_body d D) = vc_bytes c.
Proof.
  intros Htab Hwf Hrec Hfin Hc. pose proof Hc as (R1 & R2 & Hsplit)%list_elem_of_split.
  destruct (rv_chunks _ _ _ _ Hrec R1 c R2 Hsplit) as [_ (e & Ha & _)].
  pose proof (au_entry _ _ _ Ha) as (i & He)%list_elem_of_lookup_1.
  assert (c ∈ chunks_of e D) as (cs1 & cs2 & Hcs)%list_elem_of_split by (apply list_elem_of_filter; split; [apply Ha|done]).
  destruct (segment_cover policy d Htab Hwf D v i e Hrec He) as [_ Hoff]. specialize (Hoff cs1 c cs2 Hcs).
  set (before := concat (seg_bytes D <$> take i (vd_entries d))).
  assert (Z.of_nat (length before) = de_body_offset e) as Hb.
  { rewrite (laid_out_take 0 _ i e (tk_laid _ _ Htab) He), Z.add_0_l. apply stored_length. intros e' He'.
    assert (e' ∈ vd_entries d) as Hin by (by eapply elem_of_take in He' as (j & Hj & _); eapply list_elem_of_lookup_2).
    pose proof Hin as (j & Hj)%list_elem_of_lookup_1.
    destruct (segment_cover policy d Htab Hwf D v j e' Hrec Hj) as [Hcov _]. by apply Hcov, Hfin. }
  assert (stream_body d D = (before ++ concat (vc_bytes <$> cs1)) ++ vc_bytes c ++
    (concat (vc_bytes <$> cs2) ++ concat (seg_bytes D <$> drop (S i) (vd_entries d)))) as ->.
  { unfold stream_body. rewrite <-(take_drop_middle _ i e He) at 1. rewrite fmap_app, concat_app. cbn [fmap list_fmap concat].
    unfold seg_bytes at 2. rewrite Hcs, fmap_app, concat_app. cbn [fmap list_fmap concat]. by rewrite <-!app_assoc. }
  apply slice_app_mid; [|done]. rewrite length_app, (au_body_offset _ _ _ Ha), Hoff. lia.
Qed.

Lemma zsum_all_zero {A} (f : A → Z) l : (∀ x, x ∈ l → f x = 0) → zsum f l = 0.
Proof.
  induction l as [|x l IH]; intros H; [done|]. change (f x + zsum f l = 0). rewrite (H x) by by left.
  rewrite IH; [done|]. intros y Hy. apply H. by right.
Qed.

(** A body released in order is the body. *)
Lemma ordered_body d D v : stream_table_ok policy d → stream_header_wf (vd_header d) → receiving policy d D v →
  (∀ e, e ∈ vd_entries d → finished d D e) → in_body_order D → released_bytes D = stream_body d D.
Proof.
  intros Htab Hwf Hrec Hfin Hord.
  assert (∀ R1 R2, D = R1 ++ R2 → released_bytes R1 = take (length (released_bytes R1)) (stream_body d D)) as Hpre.
  { intros R1. induction R1 as [|c R1 IH] using rev_ind; intros R2 HD; [done|]. rewrite <-app_assoc in HD. cbn in HD.
    rewrite released_bytes_snoc, length_app, take_slice, <-(IH _ HD). f_equal.
    rewrite <-(chunk_in_body d D v c Htab Hwf Hrec Hfin) at 1 by (rewrite HD; apply elem_of_app; right; by left).
    rewrite (Hord R1 c R2 HD), Nat2Z.id. done. }
  rewrite (Hpre D [] (eq_sym (app_nil_r D))) at 1. apply take_ge.
  assert (Z.of_nat (length (stream_body d D)) = stored_total (vd_entries d)) as Hlen.
  { apply stored_length. intros e (i & Hi)%list_elem_of_lookup_1.
    destruct (segment_cover policy d Htab Hwf D v i e Hrec Hi) as [Hcov _]. apply Hcov, Hfin. by eapply list_elem_of_lookup_2. }
  rewrite (tk_total _ _ Htab) in Hlen.
  assert (zsum seg_open (zip (vd_entries d) (sv_segs v)) = 0) as Hz.
  { apply zsum_all_zero. intros [e s] (i & Hi)%list_elem_of_lookup_1.
    apply lookup_zip_with_Some in Hi as (? & ? & [= <- <-] & He & Hs). destruct (rv_segs _ _ _ _ Hrec i e s He Hs) as [Hn Hc _ Hd _].
    destruct (Hfin e) as (n & Hn' & E); [by eapply list_elem_of_lookup_2|]. rewrite Hn in Hn'. injection Hn' as <-.
    unfold seg_open. cbn. rewrite (proj2 Hd); [done|]. rewrite Hc in E. apply (f_equal length) in E. rewrite !length_seqZ in E.
    pose proof (so_next _ _ _ _ (rv_segs _ _ _ _ Hrec i e s He Hs)). lia. }
  pose proof (rv_released _ _ _ _ Hrec) as Hrel.
  rewrite (rv_verified _ _ _ _ Hrec), (covered_all policy d Htab) in Hrel; [lia|apply Hrec|done].
Qed.

(** The buffered walk finds the same segments, unless the body ends in bytes
    that look like a root page the table does not list. *)
Lemma walked_walk d body segs : body_walked d body segs → Forall is_byte body → Z.of_nat (length body) ≤ u64_max →
  Z.of_nat (length segs) ≤ MAX_SEGMENTS → root_last d = true ∨ (split_root_page body).2 = None → walk body = Ok segs.
Proof.
  intros (Hne & _ & _ & Hw) Hb Hlen Hmax Hroot. unfold walk, walk_container.
  assert (∀ area, tiles area 0 0 segs → Forall is_byte area → (length area ≤ length body)%nat →
    walk_segments area = Ok segs) as Hwalk by (intros area Ht Ha Hl; apply walk_segments_exact; [done|lia|done]).
  unfold split_root_page in *. destruct (root_last d).
  - destruct Hw as (Hl & Hpage & Ht). rewrite (proj2 (Nat.ltb_ge _ _) Hl), Hpage.
    rewrite Hwalk; [done|done|by apply Forall_take|rewrite length_take; lia].
  - destruct Hroot as [?|Hroot]; [done|]. destruct (_ <? _)%nat; [by rewrite Hwalk by done|].
    destruct (is_level0_page _); [done|]. by rewrite Hwalk by done.
Qed.

Lemma tracking_new d v : length (vd_entries d) = Z.to_nat (dh_seg_count (vd_header d)) →
  tracking opts d [] (set_ad_done (replicate (Z.to_nat (dh_seg_count (vd_header d))) None)
    (set_ad_verifier v (admission_new policy opts))).
Proof.
  intros Hn. rewrite <-Hn. split; cbn; try done.
  - apply length_replicate.
  - intros i e He. rewrite lookup_empty, lookup_replicate_2 by (by eapply lookup_lt_Some).
    unfold slot_ok. destruct (is_root_entry e); [by auto|left; done].
  - symmetry. clear Hn. generalize 0%nat. induction (vd_entries d) as [|e es IH]; intros a; [done|]. rewrite meta_list_cons.
    unfold entry_meta. destruct (is_root_entry e); cbn; apply IH.
Qed.

Definition admission_history_ok (cs : list AdmissionCall) (D : list VerifiedChunk) (a : StreamAdmission) : Prop :=
  (D = [] ∧ admission_waiting a) ∨
  ∃ f d, AcFrame f ∈ cs ∧ Forall is_byte f ∧ decode_descriptor (drop 5 f) policy = Ok d ∧ admission_ok d D a.

Lemma waiting_frame a f : admission_waiting a → Forall is_byte f →
  ∃ r a', admission_push f a = Some (r, a') ∧ handed r = [] ∧
    (admission_waiting a' ∨ ∃ d, decode_descriptor (drop 5 f) policy = Ok d ∧ admission_ok d [] a').
Proof.
  intros (Hw & Hrep & Hnew) Hf. unfold admission_push. destruct (ad_failure a) as [err|] eqn:Efail.
  { eexists _, _. split; [done|]. split; [done|]. by left. }
  pose proof (wp_first_frame policy (ad_verifier a) f Hw Hf) as Hfirst. unfold wp in Hfirst.
  destruct (stream_receive f (ad_verifier a)) as [[r v']|] eqn:Er; [|done]. cbn [mbind option_bind].
  destruct Hfirst as [_ [[Hok Hw']|(d & Hd & Hrec & Hst & ->)]].
  - destruct r as [ev|err]; [done|]. eexists _, _. split; [done|]. split; [done|]. left. split_and!; [done|done|].
    intros Hst'. cbn in Hst'. destruct Hw' as (_ & _ & Hw'). rewrite Hst' in Hw'. subst v'.
    assert (sv_state (ad_verifier a) = StAwaitDescriptor) as Hst.
    { destruct Hw as (_ & _ & Hs). unfold stream_receive in Er. destruct (sv_state (ad_verifier a)) eqn:E; try done;
        injection Er as _ Ev; by rewrite Ev in E. }
    by rewrite (Hnew Hst).
  - eexists _, _. split; [done|]. split; [done|]. right. exists d. split; [done|]. destruct (accepted_parts policy f d Hf Hd) as [Htab Hwf].
    assert (sv_state (ad_verifier a) = StAwaitDescriptor) as Haw.
    { unfold stream_receive in Er. destruct Hw as (_ & _ & Hw). by destruct (sv_state (ad_verifier a)). }
    rewrite (Hnew Haw). exists []. cbn. split_and!; [done|constructor| |done]. intros _. split; [done|].
    apply tracking_new. pose proof (tk_count _ _ Htab). lia.
Qed.

Lemma admission_call_ok cs D a c : admission_history_ok cs D a → admission_call_bytes c →
  ∃ D' a', admission_call c a = Some (D', a') ∧ admission_history_ok (cs ++ [c]) (D ++ D') a'.
Proof.
  intros [[-> Hw]|(f & d & Hin & Hf & Hd & Hok)] Hc.
  - pose proof Hw as (Hwait & Hrep & Hnew). destruct c as [g|reason|]; cbn.
    + destruct (waiting_frame a g Hw Hc) as (r & a' & -> & Hnil & Hor). cbn. eexists _, _. split; [done|]. rewrite Hnil.
      destruct Hor as [Hw'|(d & Hd & Hok)]; [by left|right]. exists g, d. split_and!; try done.
      apply elem_of_app. right. by apply list_elem_of_singleton.
    + eexists _, _. split; [done|]. left. split; [done|]. split_and!; [by apply waiting_poison|done|]. cbn.
      intros E. exfalso. destruct Hwait as (_ & _ & Hst). unfold poison, poison_at in E.
      by destruct (sv_state (ad_verifier a)) eqn:Es; rewrite ?Es in E.
    + eexists _, _. split; [done|]. left. split; [done|]. pose proof Hwait as (_ & _ & Hst). unfold admission_waiting. cbn.
      destruct (sv_state (ad_verifier a)) eqn:Es; try done; (split_and!; [|done|]); rewrite ?Es; try done.
      * by apply waiting_poison.
      * unfold poison, poison_at. by rewrite Es.
  - destruct (accepted_parts policy f d Hf Hd) as [Htab Hwf].
    assert (∀ D' a', admission_ok d (D ++ D') a' → admission_history_ok (cs ++ [c]) (D ++ D') a') as Hdone.
    { intros D' a' H'. right. exists f, d. split_and!; try done. apply elem_of_app. by left. }
    destruct c as [g|reason|]; cbn.
    + destruct (admission_push_ok d Htab Hwf D a g Hok Hc) as (r & a' & -> & Hok'). cbn. eauto.
    + eexists _, _. split; [done|]. apply Hdone. rewrite app_nil_r. by apply poison_keeps_report.
    + eexists _, _. split; [done|]. apply Hdone. rewrite app_nil_r. by apply discard_ok.
Qed.

Lemma admission_calls_ok cs : Forall admission_call_bytes cs →
  ∃ D a, admission_calls cs (admission_new policy opts) = Some (D, a) ∧ admission_history_ok cs D a.
Proof.
  induction cs as [|c cs IH] using rev_ind; intros Hc.
  - eexists _, _. split; [done|]. left. by split_and!.
  - apply Forall_app in Hc as [Hcs Hc]. apply Forall_cons_1 in Hc as [Hc _].
    destruct (IH Hcs) as (D & a & Hrun & Hok). destruct (admission_call_ok cs D a c Hok Hc) as (D' & a' & Hcall & Hok').
    exists (D ++ D'), a'. rewrite admission_calls_snoc, Hrun. cbn. by rewrite Hcall.
Qed.

(** C11: Whatever frames arrive, admission does not panic, and the report of a
    stream it admits is the report of the released body: the segments tile it
    up to the root page the signed table lists, and the facts and declarations
    are those [verify] reads from a buffer. When the identity was verified the
    chunks handed over, in order, are that body with the signed SHA-256, and
    [verify] of it builds the same report, for a buffer in place of a stream -
    unless the body ends in what looks like a root page the table does not
    list, or has more segments than the walk allows. *)
Theorem streamed_report_is_verify cs :
  Forall admission_call_bytes cs →
  ∃ D a, admission_calls cs (admission_new policy opts) = Some (D, a) ∧
    ∀ r, ad_report a = Some r → ∃ d status segs,
      let body := stream_body d D in let identity := dh_rvf_identity (vd_header d) in
      (∃ f, AcFrame f ∈ cs ∧ decode_descriptor (drop 5 f) policy = Ok d) ∧
      sv_desc (ad_verifier a) = Some d ∧ sv_identity_status (ad_verifier a) = Some status ∧ body_walked d body segs ∧
      r = body_report Streamed (bool_decide (status = IdVerified)) identity body segs opts ∧
      (status = IdVerified →
        released_bytes D = body ∧ sha256 body = identity ∧
        (Z.of_nat (length (vd_entries d)) ≤ MAX_SEGMENTS → root_last d = true ∨ (split_root_page body).2 = None →
         verify body opts = Ok (body_report Buffered true identity body segs opts))).
Proof.
  intros Hcs. destruct (admission_calls_ok cs Hcs) as (D & a & Hrun & Hok). exists D, a. split; [done|]. intros r Hr.
  destruct Hok as [[_ (_ & Hnone & _)]|(f & d & Hin & Hf & Hd & Hok)]; [congruence|].
  destruct Hok as (R & Hrec & Hb & _ & Hrep). destruct (Hrep r Hr) as (-> & Hst & status & Hid & Hp & _ & segs & Hwalk & ->).
  destruct (accepted_parts policy f d Hf Hd) as [Htab Hwf].
  exists d, status, segs. cbn zeta. split_and!; [by exists f|apply Hrec|done|done|done|]. intros ->.
  assert (in_body_order D ∧ sha256 (released_bytes D) = dh_rvf_identity (vd_header d)) as [Hord Hsha].
  { pose proof (rv_verdict _ _ _ _ Hrec) as Hv. unfold verdict_ok in Hv. rewrite Hid in Hv.
    destruct Hst as [E|E]; rewrite E in Hv; destruct Hv as (_ & st & [= <-] & _ & Hv); exact Hv. }
  assert (released_bytes D = stream_body d D) as Ebody.
  { apply (ordered_body d D (ad_verifier a)); try done. intros e He. by eapply completed_finished. }
  rewrite Ebody in Hsha. split_and!; [done|done|]. intros Hmax Hroot. unfold verify.
  destruct Hwalk as (Hne & Hlen & Hsegs & Hw).
  rewrite (walked_walk d _ segs); [|by split_and!| | |lia|done].
  - cbn [mbind result_bind]. by rewrite Hsha.
  - rewrite <-Ebody. unfold released_bytes. apply Forall_concat, Forall_fmap. done.
  - rewrite Hlen. apply (body_len_u64 d Hwf).
Qed.
End histories.

(* ------------------------------------------------------------------ *)
(** ** A sample package: a manifest, a declaration and a signed module *)

#[local] Instance adm_rights : BitflagsUnion := Z.lor.
#[local] Instance adm_sha : Sha256 := λ data, replicate 32 (byte_sum data).
#[local] Instance adm_hashes : SegmentHashes :=
  {| xxh3_128 data := replicate 16 (byte_sum data); shake256_128 data := replicate 16 (byte_sum data) |}.
#[local] Instance adm_ct : ConstantTimeEq := λ a b, bool_decide (a = b).
#[local] Instance adm_ct_laws : ConstantTimeEqLaws.
Proof. intros a b. apply bool_decide_eq_true. Qed.
#[local] Instance adm_ed : Ed25519 :=
  {| ed_public_key seed := seed; ed_sign seed msg := replicate 64 (byte_sum (seed ++ msg));
     ed_key_ok _ := true;
     ed_verify_strict key msg sig := bool_decide (sig = replicate 64 (byte_sum (key ++ msg))) |}.

Definition adm_header (seg_type flags id : Z) (payload : list Z) : SegmentHeader :=
  mkSegmentHeader SEGMENT_MAGIC 1 seg_type flags id (Z.of_nat (length payload)) 0 2 0 0 0 (content_hash 2 payload) 0 0.
Definition adm_segments : list (Z * Z * list Z) :=
  [(1, SEG_TYPE_MANIFEST, pad64 (header_to_bytes (adm_header SEG_TYPE_MANIFEST 0 1 [7; 8; 9]) ++ [7; 8; 9]));
   (2, SEG_TYPE_META, let p := lit "rvf.capabilities=clock" in
                      pad64 (header_to_bytes (adm_header SEG_TYPE_META 0 2 p) ++ p));
   (3, SEG_TYPE_WASM, let h := adm_header SEG_TYPE_WASM FLAG_SIGNED 3 sample_module in
                      pad64 (header_to_bytes h ++ sample_module ++ le_bytes 2 0 ++ le_bytes 2 64 ++
                             ed_sign sample_key (build_signed_message h sample_module) ++ le_bytes 4 72))].
Definition adm_body : list Z := concat (snd <$> adm_segments).
Definition adm_entry (off : Z) (s : Z * Z * list Z) : StreamEntry :=
  let '(id, seg_type, bytes) := s in
  mkStreamEntry id seg_type 0 0 0 off (Z.of_nat (length bytes)) 0 (leaf_hash sample_file id 0 bytes).
Definition adm_entries : list StreamEntry :=
  zip_with adm_entry [0; 128; 256] adm_segments.
Definition adm_stream_header : StreamHeader :=
  mkStreamHeader 2 CHUNK_LOG2_SEGMENT sample_file 5 (Z.of_nat (length adm_body)) (sha256 adm_body) (replicate 32 0) 3 0
    (stream_signer_key_id sample_key).
Definition adm_frames : list (list Z) :=
  descriptor_frame (signed_descriptor sample_key adm_stream_header adm_entries) ::
  ((λ s, chunk_frame s.1.1 0 s.2) <$> adm_segments).
Definition adm_calls : list AdmissionCall := AcFrame <$> adm_frames.
Definition adm_policy : StreamPolicy := stream_policy_new [sample_key] (RpStore sample_pins None).
Definition adm_run : option (list VerifiedChunk * StreamAdmission) :=
  admission_calls adm_calls (admission_new adm_policy (with_trusted_keys [sample_key])).
Definition adm_report : option VerificationReport := '(_, a) ← adm_run; ad_report a.

Lemma adm_calls_bytes : Forall admission_call_bytes adm_calls.
Proof.
  assert (forallb (forallb (λ b, (0 <=? b) && (b <? 256))) adm_frames = true) as H by (vm_compute; reflexivity).
  apply Forall_fmap. apply forallb_Forall in H. eapply Forall_impl; [exact H|]. intros f Hf. cbn.
  apply forallb_Forall in Hf. eapply Forall_impl; [exact Hf|]. intros b Hb. unfold is_byte. cbn in Hb. split_bool. lia.
Qed.

Example adm_admissible : admissible <$> adm_report = Some true.
Proof. vm_compute. reflexivity. Qed.

Lemma streamed_report_is_verify_witness :
  ∃ r segs, adm_report = Some r ∧ r = body_report Streamed true (sha256 adm_body) adm_body segs (with_trusted_keys [sample_key]) ∧
    verify adm_body (with_trusted_keys [sample_key]) =
      Ok (body_report Buffered true (sha256 adm_body) adm_body segs (with_trusted_keys [sample_key])).
Proof.
  destruct (streamed_report_is_verify adm_policy (with_trusted_keys [sample_key]) adm_calls adm_calls_bytes)
    as (D & a & Hrun & H).
  assert (match adm_run with
    | Some (D, a) => released_bytes D = adm_body ∧ sv_identity_status (ad_verifier a) = Some IdVerified ∧
        is_some (ad_report a) = true ∧
        match sv_desc (ad_verifier a) with Some d => length (vd_entries d) = 3%nat | None => False end
    | None => False end) as Hsample by (vm_compute; split_and!; reflexivity).
  unfold adm_report. assert (adm_run = Some (D, a)) as Er by exact Hrun. rewrite Er in *. cbn [mbind option_bind].
  destruct Hsample as (Hbody & Hid & Hrep & Hd). destruct (ad_report a) as [r|]; [|discriminate Hrep].
  destruct (H r eq_refl) as (d & status & segs & _ & Hdesc & Hid' & _ & -> & Hv).
  rewrite Hid in Hid'. injection Hid' as <-. rewrite Hdesc in Hd. destruct (Hv eq_refl) as (Hb & Hsha & Hver).
  rewrite Hb in Hbody. rewrite Hbody in *. rewrite <-Hsha in Hver |- *.
  eexists _, segs. split; [reflexivity|]. split; [reflexivity|]. apply Hver.
  - rewrite Hd. vm_compute. discriminate.
  - right. vm_compute. reflexivity.
Defined.
