(* ===== verification/Gpu.v ===== *)
(** GPU compute: [crates/rvm-gpu/src] ([error.rs], [lib.rs], [budget.rs],
    [context.rs], [queue.rs], [kernel.rs], [device.rs], [buffer.rs],
    [accel.rs]).

    A partition's context charges every operation to a budget of four
    counters; the file proves that, over any history of calls, the context
    behaves as a ledger of unbounded integers and that a refused call leaves it as
    it was, except that [record_kernel_launch] can keep its compute charge.  A
    command queue is a bounded counter of the commands
    in flight.  The launch configuration is checked with 64-bit products, which
    wrap in a release build. *)

From stdpp Require Import base numbers list option.
From Stdlib Require Import ZArith Lia.
From S2P Require Import Prelude.
From S2P Require Import Types.
From S2P Require Import Bytes.
From S2P Require Import Security.
From S2P Require Import RvfCapability.

Local Open Scope rvm_scope.

(* ------------------------------------------------------------------ *)
(** ** Errors, tiers and status ([error.rs], [lib.rs]) *)

Inductive GpuError : Set :=
| DeviceNotFound
| DeviceNotReady
| GpuOutOfMemory
| BudgetExceeded
| KernelTimeout
| KernelCompilationFailed
| InvalidLaunchConfig
| BufferTooLarge
| QueueFull
| IommuViolation
| CapabilityDenied
| TransferFailed
| GpuUnsupported.

#[export] Instance GpuError_eq_dec : EqDecision GpuError.
Proof. solve_decision. Defined.

(** [From<GpuError> for RvmError]. *)
Definition gpu_error_to_rvm (err : GpuError) : RvmError :=
  match err with
  | DeviceNotFound => DeviceLeaseNotFound
  | DeviceNotReady => InvalidPartitionState
  | GpuOutOfMemory => OutOfMemory
  | BudgetExceeded | BufferTooLarge | QueueFull => ResourceLimitExceeded
  | KernelTimeout | KernelCompilationFailed | InvalidLaunchConfig | TransferFailed | IommuViolation => InternalError
  | CapabilityDenied => InsufficientCapability
  | GpuUnsupported => Unsupported
  end.

Inductive GpuTier : Set := TierWasmSimd | TierWebGpu | TierCuda | TierOpenCl | TierVulkan.

Inductive GpuStatus : Set := GsUnavailable | GsInitializing | GsReady | GsError.

#[export] Instance GpuStatus_eq_dec : EqDecision GpuStatus.
Proof. solve_decision. Defined.

Definition MAX_GPU_DEVICES : Z := 8.
Definition MAX_KERNELS_PER_PARTITION : Z := 64.
Definition DEFAULT_KERNEL_TIMEOUT_NS : Z := 100000000.

(* ------------------------------------------------------------------ *)
(** ** Budgets ([budget.rs]) *)

Record GpuBudget : Set := mkGpuBudget {
  gb_compute_max : Z;
  gb_compute_used : Z;
  gb_memory_max : Z;
  gb_memory_used : Z;
  gb_transfer_max : Z;
  gb_transfer_used : Z;
  gb_launches_max : Z;
  gb_launches_used : Z;
}.

Definition gpu_budget_new (compute_ns_max memory_bytes_max transfer_bytes_max kernel_launches_max : Z) : GpuBudget :=
  mkGpuBudget compute_ns_max 0 memory_bytes_max 0 transfer_bytes_max 0 kernel_launches_max 0.

(** Assignments to one counter. *)
Definition set_gb_compute (used : Z) (b : GpuBudget) : GpuBudget :=
  mkGpuBudget (gb_compute_max b) used (gb_memory_max b) (gb_memory_used b)
    (gb_transfer_max b) (gb_transfer_used b) (gb_launches_max b) (gb_launches_used b).
Definition set_gb_memory (used : Z) (b : GpuBudget) : GpuBudget :=
  mkGpuBudget (gb_compute_max b) (gb_compute_used b) (gb_memory_max b) used
    (gb_transfer_max b) (gb_transfer_used b) (gb_launches_max b) (gb_launches_used b).
Definition set_gb_transfer (used : Z) (b : GpuBudget) : GpuBudget :=
  mkGpuBudget (gb_compute_max b) (gb_compute_used b) (gb_memory_max b) (gb_memory_used b)
    (gb_transfer_max b) used (gb_launches_max b) (gb_launches_used b).
Definition set_gb_launches (used : Z) (b : GpuBudget) : GpuBudget :=
  mkGpuBudget (gb_compute_max b) (gb_compute_used b) (gb_memory_max b) (gb_memory_used b)
    (gb_transfer_max b) (gb_transfer_used b) (gb_launches_max b) used.

(** The check without the record: [charge] computes the new total or fails. *)
Definition check_quota_of (max used requested : Z) : RvmResult unit :=
  if requested =? 0 then Ok tt
  else match charge max used requested ResourceLimitExceeded with
       | Err e => Err e
       | Ok _ => Ok tt
       end.

Definition gb_check_compute (requested_ns : Z) (b : GpuBudget) : RvmResult unit :=
  check_quota_of (gb_compute_max b) (gb_compute_used b) requested_ns.
Definition gb_check_memory (requested_bytes : Z) (b : GpuBudget) : RvmResult unit :=
  check_quota_of (gb_memory_max b) (gb_memory_used b) requested_bytes.
Definition gb_check_transfer (requested_bytes : Z) (b : GpuBudget) : RvmResult unit :=
  check_quota_of (gb_transfer_max b) (gb_transfer_used b) requested_bytes.
Definition gb_check_launch (b : GpuBudget) : RvmResult unit :=
  if gb_launches_max b <=? gb_launches_used b then Err ResourceLimitExceeded else Ok tt.

Definition gb_record_compute (elapsed_ns : Z) : prog GpuBudget RvmError unit := λ b,
  match charge (gb_compute_max b) (gb_compute_used b) elapsed_ns ResourceLimitExceeded with
  | Err e => (Err e, b)
  | Ok new_total => (Ok tt, set_gb_compute new_total b)
  end.
Definition gb_record_memory (allocated_bytes : Z) : prog GpuBudget RvmError unit := λ b,
  match charge (gb_memory_max b) (gb_memory_used b) allocated_bytes ResourceLimitExceeded with
  | Err e => (Err e, b)
  | Ok new_total => (Ok tt, set_gb_memory new_total b)
  end.
Definition gb_record_transfer (transferred_bytes : Z) : prog GpuBudget RvmError unit := λ b,
  match charge (gb_transfer_max b) (gb_transfer_used b) transferred_bytes ResourceLimitExceeded with
  | Err e => (Err e, b)
  | Ok new_total => (Ok tt, set_gb_transfer new_total b)
  end.
Definition gb_record_launch : prog GpuBudget RvmError unit := λ b,
  if gb_launches_max b <=? gb_launches_used b then (Err ResourceLimitExceeded, b)
  else (Ok tt, set_gb_launches (wrap32 (gb_launches_used b + 1)) b).

Definition gb_reset_epoch (b : GpuBudget) : GpuBudget :=
  set_gb_launches 0 (set_gb_transfer 0 (set_gb_compute 0 b)).

Definition remaining_compute (b : GpuBudget) : Z := sat_sub (gb_compute_max b) (gb_compute_used b).
Definition remaining_memory (b : GpuBudget) : Z := sat_sub (gb_memory_max b) (gb_memory_used b).
Definition remaining_transfer (b : GpuBudget) : Z := sat_sub (gb_transfer_max b) (gb_transfer_used b).

Definition gb_is_exhausted (b : GpuBudget) : bool :=
  (gb_compute_max b <=? gb_compute_used b) && (gb_transfer_max b <=? gb_transfer_used b)
  && (gb_launches_max b <=? gb_launches_used b).

Definition gpu_budget_unlimited : GpuBudget := gpu_budget_new u64_max u64_max u64_max u32_max.
Definition gpu_budget_disabled : GpuBudget := gpu_budget_new 0 0 0 0.
Definition GPU_BUDGET_DEFAULT : GpuBudget := gpu_budget_disabled.

(* ------------------------------------------------------------------ *)
(** ** The context of a partition ([context.rs]) *)

Record GpuContext : Set := mkGpuContext {
  gx_partition_id : PartitionId;
  gx_device_id : Z;
  gx_status : GpuStatus;
  gx_budget : GpuBudget;
  gx_active_kernels : Z;
  gx_allocated_memory : Z;
  gx_queue_depth : Z;
}.

Definition gpu_context_new (partition_id : PartitionId) (device_id : Z) (budget : GpuBudget) : GpuContext :=
  mkGpuContext partition_id device_id GsInitializing budget 0 0 0.

(** Assignments to one field; [status] is public and set by the owner. *)
Definition set_gx_status (s : GpuStatus) (g : GpuContext) : GpuContext :=
  mkGpuContext (gx_partition_id g) (gx_device_id g) s (gx_budget g)
    (gx_active_kernels g) (gx_allocated_memory g) (gx_queue_depth g).
Definition set_gx_budget (b : GpuBudget) (g : GpuContext) : GpuContext :=
  mkGpuContext (gx_partition_id g) (gx_device_id g) (gx_status g) b
    (gx_active_kernels g) (gx_allocated_memory g) (gx_queue_depth g).
Definition set_gx_active (n : Z) (g : GpuContext) : GpuContext :=
  mkGpuContext (gx_partition_id g) (gx_device_id g) (gx_status g) (gx_budget g)
    n (gx_allocated_memory g) (gx_queue_depth g).
Definition set_gx_allocated (n : Z) (g : GpuContext) : GpuContext :=
  mkGpuContext (gx_partition_id g) (gx_device_id g) (gx_status g) (gx_budget g)
    (gx_active_kernels g) n (gx_queue_depth g).

Definition gx_is_ready (g : GpuContext) : bool :=
  match gx_status g with GsReady => true | _ => false end.

(** A call on [self.budget]. *)
Definition on_budget {A} (m : prog GpuBudget RvmError A) : prog GpuContext RvmError A :=
  pzoom gx_budget set_gx_budget m.

(** [if !self.is_ready() { return Err(..) }]. *)
Definition when_ready {A} (m : prog GpuContext RvmError A) : prog GpuContext RvmError A := λ g,
  if gx_is_ready g then m g else (Err InvalidPartitionState, g).

Definition check_budget (compute_ns transfer_bytes : Z) : prog GpuContext RvmError unit :=
  when_ready (λ g,
    (gb_check_compute compute_ns (gx_budget g) ≫= λ _,
     gb_check_transfer transfer_bytes (gx_budget g) ≫= λ _,
     gb_check_launch (gx_budget g), g)).

Definition add_active : prog GpuContext RvmError unit :=
  pmodify (λ g, set_gx_active (sat_add u32_max (gx_active_kernels g) 1) g).

Definition try_launch (compute_ns transfer_bytes : Z) : prog GpuContext RvmError unit :=
  when_ready (λ g,
    let snap_compute := gb_compute_used (gx_budget g) in
    let snap_transfer := gb_transfer_used (gx_budget g) in
    match on_budget (gb_record_compute compute_ns) g with
    | (Err e, g1) => (Err e, g1)
    | (Ok _, g1) =>
        match on_budget (gb_record_transfer transfer_bytes) g1 with
        | (Err e, g2) => (Err e, set_gx_budget (set_gb_compute snap_compute (gx_budget g2)) g2)
        | (Ok _, g2) =>
            match on_budget gb_record_launch g2 with
            | (Err e, g3) =>
                (Err e, set_gx_budget (set_gb_transfer snap_transfer (set_gb_compute snap_compute (gx_budget g3))) g3)
            | (Ok _, g3) => add_active g3
            end
        end
    end).

Definition try_transfer (bytes : Z) : prog GpuContext RvmError unit :=
  when_ready (on_budget (gb_record_transfer bytes)).

Definition add_allocated (bytes : Z) : prog GpuContext RvmError unit :=
  pmodify (λ g, set_gx_allocated (sat_add u64_max (gx_allocated_memory g) bytes) g).

Definition try_alloc (bytes : Z) : prog GpuContext RvmError unit :=
  when_ready (on_budget (gb_record_memory bytes) ;;; add_allocated bytes).

Definition record_kernel_launch (compute_ns : Z) : prog GpuContext RvmError unit :=
  when_ready (on_budget (gb_record_compute compute_ns) ;;; on_budget gb_record_launch ;;; add_active).

Definition record_transfer (transferred_bytes : Z) : prog GpuContext RvmError unit :=
  when_ready (on_budget (gb_record_transfer transferred_bytes)).

Definition record_kernel_complete : prog GpuContext RvmError unit :=
  pmodify (λ g, set_gx_active (sat_sub (gx_active_kernels g) 1) g).

Definition record_memory_alloc (bytes : Z) : prog GpuContext RvmError unit :=
  when_ready (on_budget (gb_record_memory bytes) ;;; add_allocated bytes).

Definition record_memory_free (bytes : Z) : prog GpuContext RvmError unit :=
  when_ready (pmodify (λ g,
    set_gx_budget (set_gb_memory (sat_sub (gb_memory_used (gx_budget g)) bytes) (gx_budget g))
      (set_gx_allocated (sat_sub (gx_allocated_memory g) bytes) g))).

Definition gx_reset_epoch : prog GpuContext RvmError unit :=
  pmodify (λ g, set_gx_budget (gb_reset_epoch (gx_budget g)) g).

(* ------------------------------------------------------------------ *)
(** ** Kernels and their launch configuration ([kernel.rs]) *)

Definition KERNEL_NAME_MAX : nat := 32.

Record LaunchConfig : Set := mkLaunchConfig {
  lc_workgroups : Z * Z * Z;
  lc_workgroup_size : Z * Z * Z;
  lc_shared_memory_bytes : Z;
  lc_timeout_ns : Z;
}.

Definition DEFAULT_LAUNCH_CONFIG : LaunchConfig :=
  mkLaunchConfig (1, 1, 1) (1, 1, 1) 0 DEFAULT_KERNEL_TIMEOUT_NS.

(** [d[0] as u64 * d[1] as u64 * d[2] as u64], wrapping in a release build. *)
Definition product3 (d : Z * Z * Z) : Z :=
  let '(x, y, z) := d in wrap64 (wrap64 (x * y) * z).

(** [total_threads]: the last product saturates. *)
Definition total_threads (c : LaunchConfig) : Z :=
  Z.min u64_max (product3 (lc_workgroups c) * product3 (lc_workgroup_size c)).

Definition zero_dim (d : Z * Z * Z) : bool :=
  let '(x, y, z) := d in (x =? 0) || (y =? 0) || (z =? 0).

Definition validate_launch (c : LaunchConfig) : result GpuError unit :=
  if zero_dim (lc_workgroups c) then Err InvalidLaunchConfig
  else if zero_dim (lc_workgroup_size c) then Err InvalidLaunchConfig
  else if lc_timeout_ns c =? 0 then Err InvalidLaunchConfig
  else if u32_max <? total_threads c then Err InvalidLaunchConfig
  else Ok tt.

Record GpuKernel : Set := mkGpuKernel {
  gk_id : Z;
  gk_name : list Z;
  gk_name_len : Z;
  gk_partition_id : PartitionId;
  gk_created_epoch : Z;
}.

(** [name_str] of a kernel and of a device: the bytes, read as UTF-8. *)
Definition name_prefix (max : nat) (name : list Z) (name_len : Z) : list Z :=
  if Z.of_nat max <? name_len then []
  else match from_utf8 (take (Z.to_nat name_len) name) with Some s => s | None => [] end.

Definition kernel_name_str (k : GpuKernel) : list Z := name_prefix KERNEL_NAME_MAX (gk_name k) (gk_name_len k).

(* ------------------------------------------------------------------ *)
(** ** Command queues ([queue.rs]) *)

Definition DEFAULT_MAX_QUEUE_DEPTH : Z := 256.

Inductive CommandType : Set := CmdKernelLaunch | CmdBufferCopy | CmdBufferFill | CmdBarrier | CmdTimestampQuery.

Record GpuQueue : Set := mkGpuQueue {
  gq_id : Z;
  gq_partition_id : PartitionId;
  gq_depth : Z;
  gq_max_depth : Z;
  gq_submitted : Z;
  gq_completed : Z;
}.

Definition gpu_queue_new (id : Z) (partition_id : PartitionId) : GpuQueue :=
  mkGpuQueue id partition_id 0 DEFAULT_MAX_QUEUE_DEPTH 0 0.

Definition gpu_queue_with_max_depth (id : Z) (partition_id : PartitionId) (max_depth : Z) : GpuQueue :=
  let effective_depth := if max_depth =? 0 then 1 else max_depth in
  mkGpuQueue id partition_id 0 effective_depth 0 0.

Definition gpu_queue_is_full (q : GpuQueue) : bool := gq_max_depth q <=? gq_depth q.
Definition gpu_queue_can_submit (q : GpuQueue) : bool := gq_depth q <? gq_max_depth q.
Definition gpu_queue_pending (q : GpuQueue) : Z := gq_depth q.

Record QueueCommand : Set := mkQueueCommand {
  qc_cmd_type : CommandType;
  qc_kernel_id : option Z;
  qc_buffer_src : option Z;
  qc_buffer_dst : option Z;
  qc_size_bytes : Z;
}.

Definition cmd_kernel_launch (kernel_id : Z) : QueueCommand := mkQueueCommand CmdKernelLaunch (Some kernel_id) None None 0.
Definition cmd_buffer_copy (src dst size : Z) : QueueCommand := mkQueueCommand CmdBufferCopy None (Some src) (Some dst) size.
Definition cmd_buffer_fill (dst size : Z) : QueueCommand := mkQueueCommand CmdBufferFill None None (Some dst) size.
Definition cmd_barrier : QueueCommand := mkQueueCommand CmdBarrier None None None 0.
Definition cmd_timestamp_query : QueueCommand := mkQueueCommand CmdTimestampQuery None None None 0.

Definition validate_command (c : QueueCommand) : result GpuError unit :=
  match qc_cmd_type c with
  | CmdKernelLaunch => if is_none (qc_kernel_id c) then Err InvalidLaunchConfig else Ok tt
  | CmdBufferCopy =>
      if is_none (qc_buffer_src c) || is_none (qc_buffer_dst c) || (qc_size_bytes c =? 0)
      then Err InvalidLaunchConfig else Ok tt
  | CmdBufferFill =>
      if is_none (qc_buffer_dst c) || (qc_size_bytes c =? 0) then Err InvalidLaunchConfig else Ok tt
  | CmdBarrier | CmdTimestampQuery => Ok tt
  end.

Definition gpu_enqueue (command : QueueCommand) : prog GpuQueue GpuError unit :=
  plift (validate_command command) ;;; λ q,
    if gpu_queue_is_full q then (Err QueueFull, q)
    else (Ok tt, mkGpuQueue (gq_id q) (gq_partition_id q) (wrap32 (gq_depth q + 1)) (gq_max_depth q)
                   (wrap64 (gq_submitted q + 1)) (gq_completed q)).

Definition complete_one : prog GpuQueue GpuError unit := λ q,
  if gq_depth q =? 0 then (Err DeviceNotReady, q)
  else (Ok tt, mkGpuQueue (gq_id q) (gq_partition_id q) (gq_depth q - 1) (gq_max_depth q)
                 (gq_submitted q) (wrap64 (gq_completed q + 1))).

(* ------------------------------------------------------------------ *)
(** ** Devices, buffers and acceleration ([device.rs], [buffer.rs], [accel.rs]) *)

Definition GPU_NAME_MAX : nat := 64.

Record GpuDeviceInfo : Set := mkGpuDeviceInfo {
  gd_id : Z;
  gd_name : list Z;
  gd_name_len : Z;
  gd_tier : GpuTier;
  gd_compute_units : Z;
  gd_memory_bytes : Z;
  gd_max_workgroup_size : Z;
  gd_max_buffer_size : Z;
  gd_supports_f16 : bool;
  gd_supports_f64 : bool;
  gd_mmio_base : Z;
  gd_mmio_size : Z;
}.

Definition device_name_str (d : GpuDeviceInfo) : list Z := name_prefix GPU_NAME_MAX (gd_name d) (gd_name_len d).

Definition set_gd_name (name : list Z) (len : Z) (d : GpuDeviceInfo) : GpuDeviceInfo :=
  mkGpuDeviceInfo (gd_id d) name len (gd_tier d) (gd_compute_units d) (gd_memory_bytes d)
    (gd_max_workgroup_size d) (gd_max_buffer_size d) (gd_supports_f16 d) (gd_supports_f64 d)
    (gd_mmio_base d) (gd_mmio_size d).

(** The name is copied to the front of the array and the rest is zeroed. *)
Definition set_device_name (name : list Z) : prog GpuDeviceInfo GpuError unit := λ d,
  if (GPU_NAME_MAX <? length name)%nat then (Err InvalidLaunchConfig, d)
  else (Ok tt, set_gd_name (name ++ replicate (GPU_NAME_MAX - length name) 0) (wrap8 (Z.of_nat (length name))) d).

Definition GPU_DEVICE_INFO_DEFAULT : GpuDeviceInfo :=
  mkGpuDeviceInfo 0 (replicate GPU_NAME_MAX 0) 0 TierWasmSimd 0 0 0 0 false false 0 0.

Record GpuCapabilities : Set := mkGpuCapabilities {
  gc_max_concurrent_kernels : Z;
  gc_max_shared_memory : Z;
  gc_warp_size : Z;
  gc_supports_async_compute : bool;
  gc_supports_unified_memory : bool;
}.

Definition GPU_CAPABILITIES_DEFAULT : GpuCapabilities := mkGpuCapabilities 1 0 32 false false.

Record GpuDevice : Set := mkGpuDevice { gd_info : GpuDeviceInfo; gd_capabilities : GpuCapabilities }.

Definition GPU_DEVICE_DEFAULT : GpuDevice := mkGpuDevice GPU_DEVICE_INFO_DEFAULT GPU_CAPABILITIES_DEFAULT.

Inductive BufferUsage : Set :=
| UseStorage | UseUniform | UseVertex | UseIndex | UseIndirect | UseCopySrc | UseCopyDst.

Record GpuBuffer : Set := mkGpuBuffer {
  buf_id : Z;
  buf_partition_id : PartitionId;
  buf_size_bytes : Z;
  buf_usage : BufferUsage;
  buf_host_mapped : bool;
}.

Definition validate_buffer (size_bytes max_buffer_size : Z) : result GpuError unit :=
  if size_bytes =? 0 then Err BufferTooLarge
  else if max_buffer_size <? size_bytes then Err BufferTooLarge
  else Ok tt.

Record GpuMinCutConfig : Set := mkGpuMinCutConfig {
  mc_max_nodes : Z;
  mc_budget_iterations : Z;
  mc_use_gpu : bool;
}.

Definition GPU_MINCUT_CONFIG_DEFAULT : GpuMinCutConfig := mkGpuMinCutConfig 32 31 true.

Record GpuMinCutResult : Set := mkGpuMinCutResult {
  mr_left_count : Z;
  mr_right_count : Z;
  mr_cut_weight : Z;
  mr_compute_ns : Z;
  mr_used_gpu : bool;
}.

Definition gpu_mincut_empty : GpuMinCutResult := mkGpuMinCutResult 0 0 0 0 false.
Definition total_nodes (r : GpuMinCutResult) : Z := mr_left_count r + mr_right_count r.

Record GpuScoringConfig : Set := mkGpuScoringConfig { gs_max_partitions : Z; gs_use_gpu : bool }.

Definition GPU_SCORING_CONFIG_DEFAULT : GpuScoringConfig := mkGpuScoringConfig 256 true.

(** The backend features of the build. *)
Record GpuFeatures : Set := mkGpuFeatures {
  feat_webgpu : bool;
  feat_cuda : bool;
  feat_opencl : bool;
  feat_vulkan : bool;
  feat_wasm_simd : bool;
}.

Definition mincut_gpu_available (f : GpuFeatures) : bool :=
  feat_webgpu f || feat_cuda f || feat_opencl f || feat_vulkan f || feat_wasm_simd f.
Definition scoring_gpu_available (f : GpuFeatures) : bool :=
  feat_webgpu f || feat_cuda f || feat_opencl f || feat_vulkan f || feat_wasm_simd f.

(* ------------------------------------------------------------------ *)
(** ** The context as a ledger *)

(** What one context may be asked to do, the owner's changes of the status
    included. *)
Inductive GpuCall : Set :=
| GxStatus (s : GpuStatus)
| GxCheck (compute_ns transfer_bytes : Z)
| GxLaunch (compute_ns transfer_bytes : Z)
| GxTransfer (bytes : Z)
| GxAlloc (bytes : Z)
| GxRecordLaunch (compute_ns : Z)
| GxRecordTransfer (bytes : Z)
| GxComplete
| GxRecordAlloc (bytes : Z)
| GxRecordFree (bytes : Z)
| GxReset.

Definition gpu_call (c : GpuCall) : prog GpuContext RvmError unit :=
  match c with
  | GxStatus s => pmodify (set_gx_status s)
  | GxCheck c t => check_budget c t
  | GxLaunch c t => try_launch c t
  | GxTransfer b => try_transfer b
  | GxAlloc b => try_alloc b
  | GxRecordLaunch c => record_kernel_launch c
  | GxRecordTransfer b => record_transfer b
  | GxComplete => record_kernel_complete
  | GxRecordAlloc b => record_memory_alloc b
  | GxRecordFree b => record_memory_free b
  | GxReset => gx_reset_epoch
  end.

Definition gpu_call_u64 (c : GpuCall) : Prop :=
  match c with
  | GxStatus _ | GxComplete | GxReset => True
  | GxCheck c t | GxLaunch c t => is_u64 c ∧ is_u64 t
  | GxTransfer b | GxAlloc b | GxRecordLaunch b | GxRecordTransfer b | GxRecordAlloc b | GxRecordFree b => is_u64 b
  end.

(** A tuple of the four quantities of a budget: limits, or amounts in use. *)
Record GpuAmounts : Set := mkGpuAmounts { am_compute : Z; am_memory : Z; am_transfer : Z; am_launches : Z }.

Definition am_le (a b : GpuAmounts) : Prop :=
  am_compute a ≤ am_compute b ∧ am_memory a ≤ am_memory b ∧ am_transfer a ≤ am_transfer b ∧ am_launches a ≤ am_launches b.
Definition am_add (a b : GpuAmounts) : GpuAmounts :=
  mkGpuAmounts (am_compute a + am_compute b) (am_memory a + am_memory b)
    (am_transfer a + am_transfer b) (am_launches a + am_launches b).
Definition am_zero : GpuAmounts := mkGpuAmounts 0 0 0 0.

#[export] Instance am_le_dec a b : Decision (am_le a b).
Proof. unfold am_le. apply _. Defined.

(** The ledger: whether the context is open for business, the amounts in use,
    over unbounded integers, and the kernels running. *)
Record GpuLedger : Set := mkGpuLedger { le_status : GpuStatus; le_used : GpuAmounts; le_running : Z }.

(** What a call asks for, if it asks for anything. *)
Definition price (c : GpuCall) : GpuAmounts :=
  match c with
  | GxCheck c t | GxLaunch c t => mkGpuAmounts c 0 t 1
  | GxTransfer b | GxRecordTransfer b => mkGpuAmounts 0 0 b 0
  | GxAlloc b | GxRecordAlloc b => mkGpuAmounts 0 b 0 0
  | GxRecordLaunch c => mkGpuAmounts c 0 0 1
  | _ => am_zero
  end.

Definition le_open (l : GpuLedger) : bool := bool_decide (le_status l = GsReady).
Definition le_spend (p : GpuAmounts) (l : GpuLedger) : GpuLedger := mkGpuLedger (le_status l) (am_add (le_used l) p) (le_running l).
Definition le_free (bytes : Z) (l : GpuLedger) : GpuLedger :=
  let u := le_used l in
  mkGpuLedger (le_status l) (mkGpuAmounts (am_compute u) (Z.max 0 (am_memory u - bytes)) (am_transfer u) (am_launches u)) (le_running l).
Definition le_new_epoch (l : GpuLedger) : GpuLedger :=
  mkGpuLedger (le_status l) (mkGpuAmounts 0 (am_memory (le_used l)) 0 0) (le_running l).
Definition le_start (l : GpuLedger) : GpuLedger := mkGpuLedger (le_status l) (le_used l) (Z.min u32_max (le_running l + 1)).
Definition le_stop (l : GpuLedger) : GpuLedger := mkGpuLedger (le_status l) (le_used l) (Z.max 0 (le_running l - 1)).

(** Every purchase is a transaction: all of its price or nothing.  The one
    exception is [record_kernel_launch], whose compute time stays charged when
    the launch is refused for the number of launches. *)
Definition buy (limits : GpuAmounts) (p : GpuAmounts) (after : GpuLedger → GpuLedger) (l : GpuLedger) : RvmResult unit * GpuLedger :=
  if decide (am_le (am_add (le_used l) p) limits) then (Ok tt, after (le_spend p l)) else (Err ResourceLimitExceeded, l).

Definition ledger_call (limits : GpuAmounts) (c : GpuCall) (l : GpuLedger) : RvmResult unit * GpuLedger :=
  match c with
  | GxStatus s => (Ok tt, mkGpuLedger s (le_used l) (le_running l))
  | GxComplete => (Ok tt, le_stop l)
  | GxReset => (Ok tt, le_new_epoch l)
  | _ =>
      if le_open l then
        match c with
        | GxCheck _ _ => ((buy limits (price c) id l).1, l)
        | GxLaunch _ _ => buy limits (price c) le_start l
        | GxRecordLaunch ns =>
            match buy limits (mkGpuAmounts ns 0 0 0) id l with
            | (Ok _, l1) => buy limits (mkGpuAmounts 0 0 0 1) le_start l1
            | (Err e, l1) => (Err e, l1)
            end
        | GxRecordFree b => (Ok tt, le_free b l)
        | _ => buy limits (price c) id l
        end
      else (Err InvalidPartitionState, l)
  end.

Fixpoint gpu_calls (cs : list GpuCall) (g : GpuContext) : list (RvmResult unit) * GpuContext :=
  match cs with
  | [] => ([], g)
  | c :: cs => let '(r, g1) := gpu_call c g in let '(rs, g2) := gpu_calls cs g1 in (r :: rs, g2)
  end.

Fixpoint ledger_calls (limits : GpuAmounts) (cs : list GpuCall) (l : GpuLedger) : list (RvmResult unit) * GpuLedger :=
  match cs with
  | [] => ([], l)
  | c :: cs => let '(r, l1) := ledger_call limits c l in let '(rs, l2) := ledger_calls limits cs l1 in (r :: rs, l2)
  end.

Definition limits_of (b : GpuBudget) : GpuAmounts :=
  mkGpuAmounts (gb_compute_max b) (gb_memory_max b) (gb_transfer_max b) (gb_launches_max b).
Definition used_of (b : GpuBudget) : GpuAmounts :=
  mkGpuAmounts (gb_compute_used b) (gb_memory_used b) (gb_transfer_used b) (gb_launches_used b).
Definition ledger_of (g : GpuContext) : GpuLedger := mkGpuLedger (gx_status g) (used_of (gx_budget g)) (gx_active_kernels g).

Definition limits_machine (limits : GpuAmounts) : Prop :=
  is_u64 (am_compute limits) ∧ is_u64 (am_memory limits) ∧ is_u64 (am_transfer limits) ∧ is_u32 (am_launches limits).

(** The invariant of a context: counters within their limits, the two records
    of the memory held in agreement. *)
Record gpu_ok (limits : GpuAmounts) (g : GpuContext) : Prop := {
  go_limits : limits_of (gx_budget g) = limits;
  go_low : am_le am_zero (used_of (gx_budget g));
  go_high : am_le (used_of (gx_budget g)) limits;
  go_memory : gx_allocated_memory g = gb_memory_used (gx_budget g);
  go_active : is_u32 (gx_active_kernels g);
}.

(** A call keeps the invariant and does what the ledger does. *)
Definition gpu_agrees (limits : GpuAmounts) (c : GpuCall) (g : GpuContext) : Prop :=
  gpu_ok limits (gpu_call c g).2 ∧ ledger_call limits c (ledger_of g) = ((gpu_call c g).1, ledger_of (gpu_call c g).2).

Lemma decide_am_le a b : bool_decide (am_le a b) =
  (am_compute a <=? am_compute b) && (am_memory a <=? am_memory b)
  && (am_transfer a <=? am_transfer b) && (am_launches a <=? am_launches b).
Proof.
  unfold am_le. apply Bool.eq_iff_eq_true. rewrite bool_decide_eq_true, !andb_true_iff, !Z.leb_le. tauto.
Qed.

Lemma buy_eq limits p after l : buy limits p after l =
  if bool_decide (am_le (am_add (le_used l) p) limits) then (Ok tt, after (le_spend p l)) else (Err ResourceLimitExceeded, l).
Proof. unfold buy. by rewrite decide_bool_decide. Qed.

Lemma check_quota_spec max used requested : 0 ≤ used ≤ max → 0 ≤ requested → max ≤ u64_max →
  check_quota_of max used requested = if used + requested <=? max then Ok tt else Err ResourceLimitExceeded.
Proof.
  intros Hu Hr Hm. unfold check_quota_of. rewrite charge_spec by lia.
  destruct (requested =? 0) eqn:E; [|by destruct (_ <=? _)].
  split_bool. destruct (_ <=? _) eqn:E'; [done|]. split_bool. lia.
Qed.

(** One call, on a context spelt out: evaluate both sides, replace the checked
    sums by exact ones, compare case by case. *)
Ltac gpu_eval :=
  unfold gpu_call, check_budget, try_launch, try_transfer, try_alloc, record_kernel_launch, record_transfer,
    record_memory_alloc, record_memory_free, record_kernel_complete, gx_reset_epoch, when_ready, gx_is_ready, on_budget,
    pzoom, pbind, pmodify, add_active, add_allocated, gb_check_compute, gb_check_transfer, gb_check_launch,
    gb_record_compute, gb_record_transfer, gb_record_memory, gb_record_launch, gb_reset_epoch,
    set_gx_budget, set_gx_active, set_gx_allocated, set_gx_status,
    set_gb_compute, set_gb_memory, set_gb_transfer, set_gb_launches.
Ltac gpu_branch :=
  match goal with
  | |- context [(?x <=? ?y)%Z] => destruct (Z.leb_spec x y); cbn
  end.
Ltac gpu_settle :=
  unfold ledger_of, used_of, sat_add, sat_sub, le_spend, le_start, le_stop, le_free, le_new_epoch, am_add; cbn;
  rewrite ?wrap32_id by (unfold is_u32, u32_max in *; lia);
  split;
  [split; cbn; unfold am_le, used_of, is_u32, u32_max, u64_max in *; cbn; try reflexivity; lia
  |repeat match goal with
     | |- (_, _) = (_, _) => f_equal
     | |- mkGpuLedger _ _ _ = mkGpuLedger _ _ _ => f_equal
     | |- mkGpuAmounts _ _ _ _ = mkGpuAmounts _ _ _ _ => f_equal
     end; unfold u32_max in *; lia].

Section call.
Context (limits : GpuAmounts) (Hlimits : limits_machine limits).

(** A context which is not ready refuses whatever it is asked for. *)
Lemma gpu_call_closed c g : gx_status g ≠ GsReady → gpu_ok limits g →
  match c with GxStatus _ | GxComplete | GxReset => True | _ => gpu_agrees limits c g end.
Proof.
  intros Hs Hok. destruct c; try exact I; unfold gpu_agrees, ledger_call, le_open; cbn;
    rewrite (bool_decide_eq_false_2 _ Hs); gpu_eval; destruct (gx_status g); done.
Qed.

Lemma gpu_call_agrees c g : gpu_call_u64 c → gpu_ok limits g → gpu_agrees limits c g.
Proof.
  destruct Hlimits as (Lc & Lm & Lt & Ll). intros Hu Hok.
  pose proof (gpu_call_closed c g) as Hclosed. destruct Hok as [Hlim Hlow Hhigh Hmem Hact].
  destruct g as [p d s [cm cu mm mu tm tu km ku] a al q]. cbn in *. clear Hlimits. subst limits al.
  unfold am_le, is_u64, is_u32 in *. cbn in *.
  destruct (decide (s = GsReady)) as [->|Hs].
  2: { destruct c; try (apply Hclosed; done); unfold gpu_agrees; gpu_eval; cbn; gpu_settle. }
  clear Hclosed. unfold gpu_agrees, ledger_call, le_open. destruct c; cbn in Hu; unfold is_u64 in Hu; gpu_eval; cbn.
  all: rewrite ?(bool_decide_eq_true_2 (GsReady = GsReady) eq_refl); try gpu_settle.
  all: rewrite ?check_quota_spec, ?charge_spec, ?buy_eq, ?decide_am_le by (cbn; lia); cbn.
  all: repeat gpu_branch.
  all: try (exfalso; lia).
  all: rewrite ?charge_spec by (cbn; lia); repeat gpu_branch; try (exfalso; lia).
  all: rewrite ?buy_eq, ?decide_am_le; cbn; repeat gpu_branch; try (exfalso; lia).
  all: gpu_settle.
Qed.
End call.

Lemma gpu_calls_agree limits cs : limits_machine limits → Forall gpu_call_u64 cs → ∀ g, gpu_ok limits g →
  gpu_ok limits (gpu_calls cs g).2 ∧
  ledger_calls limits cs (ledger_of g) = ((gpu_calls cs g).1, ledger_of (gpu_calls cs g).2).
Proof.
  intros Hl. induction 1 as [|c cs Hc _ IH]; intros g Hg; [done|]. cbn.
  destruct (gpu_call_agrees limits Hl c g Hc Hg) as [H1 ->].
  destruct (gpu_call c g) as [r g1]. cbn in *. specialize (IH g1 H1).
  destruct (gpu_calls cs g1) as [rs g2]. cbn in *. by destruct IH as [H2 ->].
Qed.

(** What a refused call leaves behind: nothing, except that
    [record_kernel_launch] keeps the compute time when the launches have run
    out. *)
Lemma gpu_refused c g e g' :
  gpu_call c g = (Err e, g') →
  g' = g ∨ ∃ ns, c = GxRecordLaunch ns ∧ e = ResourceLimitExceeded ∧
    gb_launches_max (gx_budget g) ≤ gb_launches_used (gx_budget g) ∧
    g' = set_gx_budget (set_gb_compute (gb_compute_used (gx_budget g) + ns) (gx_budget g)) g.
Proof.
  destruct c; cbn [gpu_call];
    unfold check_budget, try_launch, try_transfer, try_alloc, record_kernel_launch, record_transfer,
      record_kernel_complete, record_memory_alloc, record_memory_free, gx_reset_epoch, when_ready;
    try (destruct (gx_is_ready g); [|intros [= <- <-]; by left]).
  all: destruct g as [pid dev st b act al q]; unfold on_budget, pzoom, add_allocated, add_active, pmodify, pbind,
    gb_record_compute, gb_record_memory, gb_record_transfer, gb_record_launch, set_gx_budget, set_gx_allocated, set_gx_active; cbn.
  all: try done.
  all: repeat match goal with
    | |- context [charge ?m ?u ?r ?e] => let E := fresh "Hc" in destruct (charge m u r e) eqn:E; cbn
    | |- context [?x <=? ?y] => let E := fresh "Hl" in destruct (x <=? y) eqn:E; cbn
    end.
  all: try (by intros [= <- <-]; left; destruct b).
  - intros [= _ <-]. by left.
  - intros [= <- <-]. right. unfold charge in Hc. destruct (checked_add _ _ _) as [t|] eqn:Ea; [|done].
    destruct (_ <? t); [done|]. injection Hc as ->. unfold checked_add in Ea. destruct (_ <=? u64_max); [|done].
    injection Ea as <-. split_bool. eexists. by split_and!.
Qed.

(** C37: The GPU context of a partition is a ledger.  From a fresh context, every
    history of calls answers as a ledger over unbounded integers does, in
    which an operation is admitted exactly when the context is ready and its
    whole price fits the limits; the counters never pass their limits, the two
    records of the memory held agree, and the limits never change.  A call
    refused at any point of a history leaves the context as it was, [try_launch]
    in particular, with one exception: [record_kernel_launch], refused because
    no launch is left, keeps its compute time charged. *)
Theorem gpu_context_is_ledger cs partition_id device_id compute_ns memory_bytes transfer_bytes launches :
  is_u64 compute_ns → is_u64 memory_bytes → is_u64 transfer_bytes → is_u32 launches → Forall gpu_call_u64 cs →
  let limits := mkGpuAmounts compute_ns memory_bytes transfer_bytes launches in
  let answers := gpu_calls cs (gpu_context_new partition_id device_id
                                 (gpu_budget_new compute_ns memory_bytes transfer_bytes launches)) in
  let g := answers.2 in
  ledger_calls limits cs (mkGpuLedger GsInitializing am_zero 0) = (answers.1, ledger_of g) ∧
  am_le (used_of (gx_budget g)) limits ∧ limits_of (gx_budget g) = limits ∧
  gx_allocated_memory g = gb_memory_used (gx_budget g) ∧
  ∀ c e g', gpu_call c g = (Err e, g') →
    g' = g ∨ ∃ ns, c = GxRecordLaunch ns ∧ e = ResourceLimitExceeded ∧
      gb_launches_max (gx_budget g) ≤ gb_launches_used (gx_budget g) ∧
      g' = set_gx_budget (set_gb_compute (gb_compute_used (gx_budget g) + ns) (gx_budget g)) g.
Proof.
  intros Hc Hm Ht Hk Hcs limits answers g. set (g0 := gpu_context_new partition_id device_id _) in answers.
  assert (gpu_ok limits g0) as H0.
  { unfold is_u64, is_u32 in *. split; cbn; try reflexivity; unfold am_le, is_u32, u32_max; cbn; lia. }
  destruct (gpu_calls_agree limits cs (conj Hc (conj Hm (conj Ht Hk))) Hcs g0 H0) as [Hok Heq].
  destruct Hok. split_and!; [done..|]. intros c e g'. apply gpu_refused.
Qed.

Definition sample_gpu_calls : list GpuCall :=
  [GxLaunch 10 10; GxStatus GsReady; GxCheck 60 10; GxLaunch 60 10; GxLaunch 60 10; GxLaunch 10 u64_max; GxAlloc 5;
   GxRecordAlloc 4; GxRecordFree 3; GxRecordLaunch 5; GxLaunch 5 5; GxRecordLaunch 5; GxComplete; GxReset; GxTransfer 40].

Lemma gpu_context_is_ledger_witness :
  let r := gpu_calls sample_gpu_calls (gpu_context_new 1 0 (gpu_budget_new 100 8 50 2)) in
  r.1 = [Err InvalidPartitionState; Ok tt; Ok tt; Ok tt; Err ResourceLimitExceeded; Err ResourceLimitExceeded; Ok tt;
         Err ResourceLimitExceeded; Ok tt; Ok tt; Err ResourceLimitExceeded; Err ResourceLimitExceeded; Ok tt; Ok tt; Ok tt] ∧
  used_of (gx_budget r.2) = mkGpuAmounts 0 2 40 0 ∧
  am_le (used_of (gx_budget r.2)) (mkGpuAmounts 100 8 50 2).
Proof.
  split; [vm_compute; reflexivity|]. split; [vm_compute; reflexivity|].
  refine (proj1 (proj2 (gpu_context_is_ledger sample_gpu_calls 1 0 100 8 50 2 _ _ _ _ _))); [done..|].
  repeat constructor; done.
Defined.

(** A launch refused by [record_kernel_launch] for the number of launches
    leaves its compute time charged. *)
Lemma record_kernel_launch_keeps_charge :
  let g := set_gx_status GsReady (gpu_context_new 1 0 (gpu_budget_new 100 0 0 0)) in
  (record_kernel_launch 60 g).1 = Err ResourceLimitExceeded ∧
  gb_compute_used (gx_budget (record_kernel_launch 60 g).2) = 60 ∧
  gb_compute_used (gx_budget (try_launch 60 0 g).2) = 0.
Proof. vm_compute. done. Qed.

(* ------------------------------------------------------------------ *)
(** ** Launch configurations *)

(** The number of threads, over unbounded integers. *)
Definition volume (d : Z * Z * Z) : Z := let '(x, y, z) := d in x * y * z.
Definition dims_u32 (d : Z * Z * Z) : Prop := let '(x, y, z) := d in is_u32 x ∧ is_u32 y ∧ is_u32 z.

Lemma product3_exact d : dims_u32 d → volume d ≤ u64_max → product3 d = volume d.
Proof.
  destruct d as [[x y] z]. unfold dims_u32, is_u32, u32_max, u64_max, volume. intros (Hx & Hy & Hz) Hv. cbn.
  assert (0 ≤ x * y) by nia.
  assert (x * y ≤ 4294967295 * 4294967295) by (apply Z.mul_le_mono_nonneg; lia).
  rewrite (wrap64_id (x * y)) by (unfold is_u64, u64_max; lia).
  apply wrap64_id. unfold is_u64, u64_max. split; [|lia]. apply Z.mul_nonneg_nonneg; lia.
Qed.

Lemma zero_dim_false d : dims_u32 d → zero_dim d = false ↔ 0 < volume d.
Proof.
  destruct d as [[x y] z]. unfold dims_u32, is_u32, volume, zero_dim. intros (Hx & Hy & Hz).
  rewrite !orb_false_iff, !Z.eqb_neq. split.
  - intros [[H1 H2] H3]. apply Z.mul_pos_pos; [apply Z.mul_pos_pos|]; lia.
  - intros H. split_and!; intros ->; lia.
Qed.

(** As long as the number of workgroups and the number of threads of a
    workgroup fit 64 bits, a launch configuration is accepted exactly when
    every dimension and the timeout are positive and the exact total number of
    threads is at most [u32::MAX]. *)
Theorem launch_validate_exact c :
  dims_u32 (lc_workgroups c) → dims_u32 (lc_workgroup_size c) → is_u64 (lc_timeout_ns c) →
  volume (lc_workgroups c) ≤ u64_max → volume (lc_workgroup_size c) ≤ u64_max →
  validate_launch c = Ok tt ↔
  0 < volume (lc_workgroups c) ∧ 0 < volume (lc_workgroup_size c) ∧ 0 < lc_timeout_ns c ∧
  volume (lc_workgroups c) * volume (lc_workgroup_size c) ≤ u32_max.
Proof.
  intros Hg Hs Ht Vg Vs. unfold validate_launch, total_threads.
  rewrite !product3_exact by done.
  destruct (zero_dim (lc_workgroups c)) eqn:Eg.
  { split; [done|]. intros (H & _). by rewrite <-zero_dim_false, Eg in H. }
  destruct (zero_dim (lc_workgroup_size c)) eqn:Es.
  { split; [done|]. intros (_ & H & _). by rewrite <-zero_dim_false, Es in H. }
  apply zero_dim_false in Eg; [|done]. apply zero_dim_false in Es; [|done].
  unfold is_u64, u64_max, u32_max in *. case_guards; split_bool; split; intros H'; try done; try lia.
Qed.

Lemma launch_validate_exact_witness :
  let c := mkLaunchConfig (8, 8, 8) (8, 8, 4) 16384 50000000 in
  validate_launch c = Ok tt ∧ volume (lc_workgroups c) * volume (lc_workgroup_size c) ≤ u32_max.
Proof.
  intros c. assert (validate_launch c = Ok tt) as H by (vm_compute; reflexivity). split; [done|].
  refine (proj2 (proj2 (proj2 (proj1 (launch_validate_exact c _ _ _ _ _) H)))); vm_compute; repeat split; congruence.
Defined.

(** Beyond 64 bits the product wraps: 2^66 workgroups of one thread count as
    none and the configuration is accepted. *)
Lemma launch_config_wraps :
  let c := mkLaunchConfig (4194304, 4194304, 4194304) (1, 1, 1) 0 1 in
  dims_u32 (lc_workgroups c) ∧ volume (lc_workgroups c) = 2 ^ 66 ∧ total_threads c = 0 ∧ validate_launch c = Ok tt.
Proof. vm_compute. repeat split; congruence. Qed.

(* ------------------------------------------------------------------ *)
(** ** Histories of a command queue *)

Inductive QueueCall : Set := GqEnqueue (command : QueueCommand) | GqComplete.

Definition gpu_queue_call (c : QueueCall) : prog GpuQueue GpuError unit :=
  match c with GqEnqueue cmd => gpu_enqueue cmd | GqComplete => complete_one end.

Fixpoint gpu_queue_calls (cs : list QueueCall) (q : GpuQueue) : list (result GpuError unit) * GpuQueue :=
  match cs with
  | [] => ([], q)
  | c :: cs => let '(r, q1) := gpu_queue_call c q in let '(rs, q2) := gpu_queue_calls cs q1 in (r :: rs, q2)
  end.

(** What the command needs to be submitted. *)
Definition command_complete (c : QueueCommand) : bool :=
  match qc_cmd_type c with
  | CmdKernelLaunch => is_some (qc_kernel_id c)
  | CmdBufferCopy => is_some (qc_buffer_src c) && is_some (qc_buffer_dst c) && negb (qc_size_bytes c =? 0)
  | CmdBufferFill => is_some (qc_buffer_dst c) && negb (qc_size_bytes c =? 0)
  | _ => true
  end.

(** The specification: the commands submitted and completed so far. *)
Definition counter_call (max : Z) (c : QueueCall) (n : Z * Z) : result GpuError unit * (Z * Z) :=
  let '(submitted, completed) := n in
  match c with
  | GqEnqueue cmd =>
      if negb (command_complete cmd) then (Err InvalidLaunchConfig, n)
      else if submitted - completed <? max then (Ok tt, (submitted + 1, completed))
      else (Err QueueFull, n)
  | GqComplete => if completed <? submitted then (Ok tt, (submitted, completed + 1)) else (Err DeviceNotReady, n)
  end.

Fixpoint counter_calls (max : Z) (cs : list QueueCall) (n : Z * Z) : list (result GpuError unit) * (Z * Z) :=
  match cs with
  | [] => ([], n)
  | c :: cs => let '(r, n1) := counter_call max c n in let '(rs, n2) := counter_calls max cs n1 in (r :: rs, n2)
  end.

Record gpu_queue_ok (max : Z) (calls : Z) (q : GpuQueue) : Prop := {
  qo_max : gq_max_depth q = max;
  qo_depth : gq_depth q = gq_submitted q - gq_completed q;
  qo_range : 0 ≤ gq_depth q ≤ max;
  qo_order : 0 ≤ gq_completed q ≤ gq_submitted q;
  qo_calls : gq_submitted q ≤ calls;
}.

Definition counts_of (q : GpuQueue) : Z * Z := (gq_submitted q, gq_completed q).

Lemma validate_command_complete c :
  validate_command c = if command_complete c then Ok tt else Err InvalidLaunchConfig.
Proof.
  unfold validate_command, command_complete.
  destruct c as [[] [] [] [] n]; cbn; try done; by destruct (n =? 0).
Qed.

Lemma gpu_queue_call_ok max n c q : 1 ≤ max ≤ u32_max → 0 ≤ n < u64_max → gpu_queue_ok max n q →
  gpu_queue_ok max (n + 1) (gpu_queue_call c q).2 ∧
  counter_call max c (counts_of q) = ((gpu_queue_call c q).1, counts_of (gpu_queue_call c q).2).
Proof.
  intros Hmax Hn [E1 E2 Hr Ho Hc]. destruct q as [id p depth md sub com]. cbn in *. subst md depth.
  unfold u32_max, u64_max in *. destruct c as [cmd|]; cbn.
  - unfold gpu_enqueue, pbind, plift. rewrite validate_command_complete.
    destruct (command_complete cmd); cbn; [|split; [by split; cbn; lia|done]].
    unfold gpu_queue_is_full. cbn. case_guards; split_bool; try lia; (split; [|try done]).
    + split; cbn; lia.
    + cbn. rewrite wrap32_id, wrap64_id by (unfold is_u32, is_u64, u32_max, u64_max; lia). split; cbn; lia.
    + cbn. unfold counts_of. cbn. by rewrite wrap64_id by (unfold is_u64, u64_max; lia).
  - unfold complete_one. cbn. case_guards; split_bool; try lia; (split; [|try done]); try (split; cbn; lia).
    + split; cbn; rewrite ?wrap64_id by (unfold is_u64, u64_max; lia); lia.
    + cbn. unfold counts_of. cbn. by rewrite wrap64_id by (unfold is_u64, u64_max; lia).
Qed.

Lemma gpu_queue_calls_ok max cs : 1 ≤ max ≤ u32_max → ∀ n q, 0 ≤ n → n + Z.of_nat (length cs) ≤ u64_max → gpu_queue_ok max n q →
  gpu_queue_ok max (n + Z.of_nat (length cs)) (gpu_queue_calls cs q).2 ∧
  counter_calls max cs (counts_of q) = ((gpu_queue_calls cs q).1, counts_of (gpu_queue_calls cs q).2).
Proof.
  intros Hmax. induction cs as [|c cs IH]; intros n q Hn Hlen Hq; cbn [length] in *.
  { by rewrite Z.add_0_r. }
  cbn [gpu_queue_calls counter_calls]. destruct (gpu_queue_call_ok max n c q) as [H1 ->]; [done|lia|done|].
  destruct (gpu_queue_call c q) as [r q1]. cbn in *. destruct (IH (n + 1) q1) as [H2 E]; [lia..|done|].
  rewrite E. destruct (gpu_queue_calls cs q1) as [rs q2]. cbn in *. split; [|done].
  by replace (n + Z.of_nat (S (length cs))) with (n + 1 + Z.of_nat (length cs)) by lia.
Qed.

(** A command queue is a bounded counter: over any history of fewer than
    2^64 calls it accepts a well-formed command exactly when fewer than the
    maximum are in flight, completes one exactly when one is, and its depth is
    always the number submitted less the number completed, within the bound.  A
    requested bound of zero counts as one. *)
Theorem gpu_queue_is_counter cs id partition_id max_depth :
  is_u32 max_depth → Z.of_nat (length cs) ≤ u64_max →
  let bound := Z.max 1 max_depth in
  let answers := gpu_queue_calls cs (gpu_queue_with_max_depth id partition_id max_depth) in
  let q := answers.2 in
  counter_calls bound cs (0, 0) = (answers.1, (gq_submitted q, gq_completed q)) ∧
  gpu_queue_pending q = gq_submitted q - gq_completed q ∧ 0 ≤ gpu_queue_pending q ≤ bound.
Proof.
  intros Hm Hlen bound answers q. unfold is_u32 in Hm.
  assert (gpu_queue_with_max_depth id partition_id max_depth = mkGpuQueue id partition_id 0 bound 0 0) as E.
  { unfold gpu_queue_with_max_depth, bound. f_equal. case_guards; split_bool; lia. }
  destruct (gpu_queue_calls_ok bound cs) with (n := 0) (q := gpu_queue_with_max_depth id partition_id max_depth) as [Hok Heq].
  1-3: unfold bound, u32_max in *; lia.
  { rewrite E. unfold bound. split; cbn; lia. }
  rewrite E in Heq at 1. cbn [counts_of gq_submitted gq_completed] in Heq.
  split; [exact Heq|]. destruct Hok. done.
Qed.

Lemma gpu_queue_is_counter_witness :
  let cs := [GqEnqueue cmd_barrier; GqEnqueue (cmd_buffer_copy 1 2 0); GqEnqueue (cmd_kernel_launch 5);
             GqEnqueue cmd_timestamp_query; GqComplete; GqEnqueue (cmd_buffer_fill 3 16); GqComplete; GqComplete; GqComplete] in
  let answers := gpu_queue_calls cs (gpu_queue_with_max_depth 0 1 2) in
  answers.1 = [Ok tt; Err InvalidLaunchConfig; Ok tt; Err QueueFull; Ok tt; Ok tt; Ok tt; Ok tt; Err DeviceNotReady] ∧
  gpu_queue_pending answers.2 = 0 ∧ 0 ≤ gpu_queue_pending answers.2 ≤ 2.
Proof.
  intros cs answers. split; [vm_compute; reflexivity|]. split; [vm_compute; reflexivity|].
  refine (proj2 (proj2 (gpu_queue_is_counter cs 0 1 2 _ _))); vm_compute; try split; congruence.
Defined.

(* ------------------------------------------------------------------ *)
(** ** Device names *)

(** A name that was set is read back, if it is UTF-8. *)
Lemma device_name_round_trip name d s : (length name ≤ GPU_NAME_MAX)%nat → from_utf8 name = Some s →
  (set_device_name name d).1 = Ok tt ∧ device_name_str (set_device_name name d).2 = s ∧
  length (gd_name (set_device_name name d).2) = GPU_NAME_MAX.
Proof.
  intros Hlen Hs. unfold set_device_name. destruct (GPU_NAME_MAX <? length name)%nat eqn:E.
  { apply Nat.ltb_lt in E. lia. }
  unfold device_name_str, name_prefix, GPU_NAME_MAX in *. cbn [fst snd gd_name gd_name_len set_gd_name].
  assert (wrap8 (Z.of_nat (length name)) = Z.of_nat (length name)) as -> by (apply Z.mod_small; lia).
  split; [done|]. split; [|rewrite length_app, length_replicate; lia].
  destruct (Z.ltb_spec (Z.of_nat 64) (Z.of_nat (length name))); [lia|].
  by rewrite Nat2Z.id, take_app_length, Hs.
Qed.

(** A name of the full 64 bytes leaves no room for a terminator. *)
Lemma full_name_unterminated d : let name := replicate 64 65 in
  (set_device_name name d).1 = Ok tt ∧ Forall (λ b, b ≠ 0) (gd_name (set_device_name name d).2).
Proof. intros name. split; [done|]. cbn. repeat constructor; done. Qed.
